(* ===== verification/_CoqProject ===== *)
-Q . S2P
Prelude.v
Cuckoo.v
Layout.v
PageAlloc.v
Mapping.v
LockTable.v
PageCache.v
Neighbor.v
CandidatePool.v
Float32.v
FloatArith.v
Arrays.v
PQTable.v
KMeans.v
EarlyExit.v
Pmem.v
Node.v
Versions.v
Prune.v
DeltaPrune.v
Recovery.v
Insert.v
BeamSearch.v
PipeSearch.v
PageSearch.v
CoroSearch.v
ParaSearch.v
InPlace.v
MemIndex.v
MemBuild.v
MemUpdate.v
MemCompact.v
Files.v
CachedIO.v
DiskLayout.v
PQFiles.v
MemFiles.v
MemPipeline.v
MergeShards.v
Partition.v
DynamicIndex.v
Merge.v
SoftInsert.v
CrashConsistency.v
CrashLimits.v
Checkpoint.v
