(* ===== verification/Prelude.v ===== *)
(** * CCANN: a verification development

    CCANN is a disk- and persistent-memory-based index for approximate nearest
    neighbour search ([src/] of the repository; the paths below are relative
    to it).  A graph over the vectors is built in memory, laid out in the
    sectors of a graph file, searched with a greedy best-first search that
    reads nodes from the file, and changed in place by concurrent insertions
    that survive crashes.  This library models its core as executable
    definitions and proves that they do what the program relies on.

    ** The program and its parts

    - An _identifier_ names a vector for ever; a _location_ is a slot of the
      graph file.  [id2loc_] maps the first to the second, [page_layout] maps
      back, and the page allocator hands out slots ([include/ssd_index.h]).
    - A node is its coordinates, the number of its neighbours and their
      identifiers.  Compressed vectors (PQ) give approximate distances.
    - A search ([search/*.cpp]) keeps a sorted pool of candidates, reads the
      nodes of the closest ones, and ranks what it read by exact distance.
    - An insertion ([update/direct_insert.cpp]) searches, prunes what it found
      to the list of the new node, writes the new node and a new version of
      every neighbour to reserved slots, and then switches the locations.  On
      persistent memory ("Soft Insert") the location table is updated without
      a journal; a commit thread writes the postponed entries and a
      checkpoint; [SSDIndex::load] repairs what a crash cut off.
    - Deletions are collected in two sets that take turns; a merge rewrites the
      file without the deleted nodes ([update/delete_merge.cpp],
      [update/dynamic_index.cpp]).
    - The in-memory graph ([index.cpp]) is built from the vectors, can itself be
      updated, is saved and loaded, and is laid out in sectors, whole or as
      merged shards ([utils/aux_utils.cpp]).

    ** The files

    Foundations
    - [Prelude]: machine words, the [outcome] monad (the program ends with
      [crash()], [exit] or undefined behaviour, or it returns), folds, tactics
      and list lemmas that the components share.
    - [Cuckoo]: [libcuckoo/cuckoohash_map.hh] as its clients use it, one atomic
      step per call.
    - [Layout]: the addresses of [include/ssd_index.h] and the rounding of
      [include/utils.h]; [Node]: the bytes of a node and what a reader sees.
    - [Float32]: binary32 distances behind the class [FloatOps]; [FloatArith]:
      float arithmetic as a class, with binary32 words and doubles as
      instances; [Arrays]: arrays filled by nested loops of [+=].
    - [Pmem]: stores, [clwb] and fences, and the contents a crash may leave
      ([utils/linux_aligned_file_reader.cpp], [libpmem]).
    - [Files], [CachedIO]: files, the binary format of [include/utils.h], and
      [include/cached_io.h] behind the interfaces [ByteReader] and [ByteWriter].

    State of an index
    - [PageAlloc]: [page_layout], [empty_pages], [cur_loc], [alloc_loc] and
      [erase_and_set_loc]; [Mapping]: [id2loc_], [load_page_layout]
      ([search/page_search.cpp]) and the publication of an insertion.
    - [LockTable]: [include/v2/lock_table.h] and the order in which insertions
      take page and vector locks, with any number of threads.
    - [PageCache]: [include/v2/page_cache.h] with the readers that use it.

    Search and quantization
    - [Neighbor]: [InsertIntoPool] ([include/neighbor.h]); [CandidatePool]: the
      pool and the visited set of every search, with their invariant.
    - [BeamSearch], [PipeSearch], [PageSearch], [CoroSearch], [ParaSearch]: the
      searches of [search/*.cpp] with the same names; all are clients of
      [CandidatePool] and read nodes with [Mapping] and [Node].  [EarlyExit]:
      the test that ends a parallel search early ([include/circular_buffer.h]).
    - [KMeans]: closest centres, Lloyd's iterations and the choice of the first
      centres ([utils/math_utils.cpp]); [Partition]: samples of a data file and
      its cut into shards ([utils/partition_and_pq.cpp]).
    - [PQTable]: compressed distances and the encoding of a vector
      ([include/pq_table.h], [include/ssd_index.h]); [PQFiles]: the chunks of a
      vector and the file of the pivots ([utils/partition_and_pq.cpp]).

    Insertion and recovery
    - [Prune], [DeltaPrune]: [utils/prune_neighbors.cpp] and the eviction of one
      neighbour in [update/direct_insert.cpp].
    - [Versions]: a new version of a node at an unused location, the step that
      insertion and recovery share.
    - [Insert]: [insert_phase] and [insert_phase_pm], both against one
      specification [insert_spec]; [InPlace]: [search_phase] followed by them.
    - [SoftInsert]: the stores of [insert_phase_pm] in program order, and the
      commit thread, interleaved; [CrashConsistency], [Checkpoint] and
      [CrashLimits]: what the media hold after a crash at any moment.
    - [Recovery]: [SSDIndex::load] after a crash ([ssd_index.cpp]) and
      [build_id2loc_mapping] ([update/dynamic_index.cpp]).

    Deletion
    - [DynamicIndex]: deletion sets, filtered search, copy of the index files;
      [Merge]: [merge_deletes].

    Construction
    - [MemIndex], [MemBuild], [MemUpdate], [MemCompact], [MemFiles],
      [MemPipeline]: the in-memory graph of [index.cpp]: search, construction,
      insertion and lazy deletion, consolidation, save and load, and the way
      from a file of vectors to a graph file.
    - [DiskLayout]: [create_disk_layout] and the metadata that [load] reads;
      [MergeShards]: [read_idmap] and [merge_shards].

    The state of a component is a [Record] with the members of the class, an
    operation is a definition with the name of the function, and a local
    closure of the source is a definition with the name of the closure.  The
    program's asserts, [crash()] calls and out-of-range accesses are [Crash].

    ** What the theorems show

    - _Crash consistency_: for every interleaving of insertions and the commit
      thread in a run that writes no slot twice ([run_wf]), and every content
      the media may have after a crash, a location entry names a complete node,
      dependent entries are there, and everything below the checkpoint is
      durable ([CrashConsistency], [Checkpoint]); the limits of that guarantee,
      each with an execution, the reuse of a slot among them ([CrashLimits]).
    - _Recovery_ rebuilds the maps from the table; they agree exactly when the
      locations lie in the pages it scans, and then it restores the reverse
      edges of the vectors after the checkpoint ([Recovery]).
    - _Insertion_: both device paths refine one specification and agree; the
      maps stay inverse to each other; slots are reserved at most once; the
      lock table behaves like an array of locks, and insertions that lock in
      its order never deadlock; what the second release of the target does to
      exclusion is stated too ([Insert], [InPlace], [Mapping], [PageAlloc],
      [LockTable]).
    - _Search_: it ends, leaves its arrays only in the cases that the theorems
      name, returns sorted exact results, and stops at a fixed point of greedy expansion, in rounds ([BeamSearch])
      as well as with reads that complete in any order ([PipeSearch]).  The
      search by pages returns the nodes of the pages it read ([PageSearch]);
      interleaved queries are beam searches, whatever order the device
      completes their reads in ([CoroSearch]).  The parallel search ends in
      such a fixed point for every order in which its workers finish, unless
      the early exit stops it ([ParaSearch]).
    - _Compressed distances_: the look-ups compute the sums they stand for, in
      the order of the source, and never leave their arrays; a vector is
      encoded by its closest centres; chunks are contiguous and balanced; the
      pivot file is read back as written ([PQTable], [PQFiles]).
    - _Pruning_: results are sorted, short enough, free of duplicates and
      diverse; the float reasoning is on binary32 ([Prune], [DeltaPrune]).
    - _Clustering_: an iteration assigns every point to a closest centre and
      moves every centre to the mean of its points; the shards and samples of a
      data file hold the rows they should ([KMeans], [Partition]).
    - _Deletion_: the merge leaves a dense index whose lists bypass the deleted
      nodes ([Merge]); the dynamic search hides deleted tags ([DynamicIndex]).
    - _Construction_: the linking loop ends in a graph with bounded lists, and
      building, saving and laying out gives a graph file from which every
      node is read back; save and load are inverse ([MemBuild], [MemFiles],
      [MemPipeline], [DiskLayout], [MergeShards], [Files], [CachedIO]).
    - Where the code does something else than it means to, the theorem states
      what it does: crashes of [link], duplicates in [search_with_tags], reuse
      of buffers ([buffer_reused]), the nodes that are not flushed.

    ** Fuel and bounds

    A loop that is not structural takes fuel and is [Crash] without it; a
    theorem says how much is enough, and it is proved that the loop returns:
    [search_fuel] (identifiers not visited, then the rest of the pool),
    [pipe_fuel] and [para_fuel] (three or two events for every node, each
    within the delay of the device or of the workers), [S K] for the binary search, one unit for each byte, page or
    candidate elsewhere.  Machine words are [Z] with [u32] and [u64] written
    out where the program converts or can overflow; array accesses that the
    program does not check are checked by the model.  That holds for the
    buffers of a query ([coord_slots], [sector_scratch_size],
    [dist_scratch_size] in [BeamSearch]; [retset_size] in [PageSearch]; the
    arrays of [CoroSearch]), for [update_buf] and [MAX_N_EDGES] in [Insert],
    and for the arrays of results in [DynamicIndex]: a run that would leave
    them is a [Crash], and the theorems name the sizes that rule it out.  The
    sector buffers of [PipeSearch] and [ParaSearch] are used in a ring: what a
    buffer holds when it is read is part of the state.

    ** Assumptions

    Named hypotheses state what surrounds a component: the geometry of a sector
    ([geometry_wf]), locations below the sentinels ([loc_ok]), a closed graph
    ([graph_ok]), a strict weak order of distances ([DistOrd]), the completion
    of reads within some number of polls ([fair]).  Each theorem with
    hypotheses is followed by a concrete instance.

    ** Not modelled

    - Floating-point kernels ([utils/distance.cpp], SIMD): distances are
      arguments of the searches.  Float expressions of [PQTable] are evaluated
      in the order of the source; what [-Ofast] may reassociate is not modelled.
    - The products and norms of BLAS, random draws and the orders of parallel
      loops are arguments ([KMeans], [Partition]); the streaming over the data
      file that encodes every vector, the rotation of the data and the choice
      of the number of shards are left out.
    - Searches of a graph that insertions change at the same time: the search
      theorems are about a quiescent index.
    - The journal of the baseline ([include/v2/journal.h]).
    - The inside of the hash map, of the queues and of the robin-hood sets, of
      [io_uring] and of PMDK: third-party code, used through its contract.
    - Statistics, logging, timers, drivers, tests, scripts and bindings: no
      influence on results. *)
From stdpp Require Export base tactics numbers list gmap sorting.
From Stdlib Require Export ZArith Lia.

#[global] Open Scope Z_scope.

(** ** Machine integers

    Unsigned machine integers are elements of [Z]; [u32] and [u64] are the
    truncations C++ performs on conversion and on unsigned overflow. *)
Definition u32 (x : Z) : Z := x mod 2 ^ 32.
Definition u64 (x : Z) : Z := x mod 2 ^ 64.

Lemma u32_small x : 0 <= x < 2 ^ 32 -> u32 x = x.
Proof. intros. unfold u32. by apply Z.mod_small. Qed.

Lemma u64_small x : 0 <= x < 2 ^ 64 -> u64 x = x.
Proof. intros. unfold u64. by apply Z.mod_small. Qed.

Lemma u32_range x : 0 <= u32 x < 2 ^ 32.
Proof. unfold u32. by apply Z.mod_pos_bound. Qed.

Lemma u64_range x : 0 <= u64 x < 2 ^ 64.
Proof. unfold u64. by apply Z.mod_pos_bound. Qed.

(** ** Outcomes

    [crash()] of [include/utils.h] is [__builtin_trap()], and several error
    paths call [exit(-1)]: both end the process.  A computation that can take
    such a path returns an [outcome]. *)
Inductive outcome (A : Type) : Type :=
| Ok (a : A)
| Crash.
Arguments Ok {_} _.
Arguments Crash {_}.

#[global] Instance outcome_ret : MRet outcome := fun A a => Ok a.
#[global] Instance outcome_bind : MBind outcome := fun A B f m =>
  match m with Ok a => f a | Crash => Crash end.
#[global] Instance outcome_eq_dec `{EqDecision A} : EqDecision (outcome A).
Proof. solve_decision. Defined.

Definition is_Ok {A} (o : outcome A) : bool :=
  match o with Ok _ => true | Crash => false end.

Lemma bind_Ok_inv {A B} (f : A -> outcome B) m b :
  m ≫= f = Ok b -> exists a, m = Ok a /\ f a = Ok b.
Proof. destruct m as [a|]; simpl; [eauto | discriminate]. Qed.

(** [foldM f l s] runs [f] on the elements of [l] from left to right. *)
Fixpoint foldM {A S} (f : A -> S -> outcome S) (l : list A) (s : S) : outcome S :=
  match l with
  | [] => Ok s
  | x :: l => s' ← f x s; foldM f l s'
  end.

Lemma foldM_app {A S} (f : A -> S -> outcome S) l1 l2 s :
  foldM f (l1 ++ l2) s = (s' ← foldM f l1 s; foldM f l2 s').
Proof.
  revert s. induction l1 as [|x l1 IH]; intros s; simpl; [done|].
  destruct (f x s) as [s'|]; simpl; [apply IH | done].
Qed.

(** An invariant of the loop body is an invariant of the loop, and the loop
    does not crash when no iteration does. *)
Lemma foldM_inv {A S} (P : S -> Prop) (f : A -> S -> outcome S) l s :
  (forall x s, x ∈ l -> P s -> exists s', f x s = Ok s' /\ P s') ->
  P s -> exists s', foldM f l s = Ok s' /\ P s'.
Proof.
  revert s. induction l as [|x l IH]; intros s Hf Hs; simpl; [eauto|].
  destruct (Hf x s) as (s1 & -> & Hs1); [set_solver | done |].
  apply IH; [|done]. intros y s2 Hy. apply Hf. set_solver.
Qed.

(** ** Filters *)
Lemma filter_all {A} (P : A -> Prop) `{!forall x, Decision (P x)} (l : list A) : Forall P l -> filter P l = l.
Proof. induction 1 as [|x l Hx _ IH]; [done|]. by rewrite filter_cons_True, IH. Qed.

Lemma filter_none {A} (P : A -> Prop) `{!forall x, Decision (P x)} (l : list A) : Forall (fun x => ~ P x) l -> filter P l = [].
Proof. induction 1 as [|x l Hx _ IH]; [done|]. by rewrite filter_cons_False, IH. Qed.

(** ** Tactics *)

(** Case analysis on the innermost scrutinee of the goal or of [H]. *)
Ltac split_match :=
  match goal with
  | |- context [match ?x with _ => _ end] =>
      lazymatch x with context [match _ with _ => _ end] => fail
      | _ => let E := fresh "E" in destruct x eqn:E end
  end.
Ltac split_match_in H :=
  match type of H with
  | context [match ?x with _ => _ end] =>
      lazymatch x with context [match _ with _ => _ end] => fail
      | _ => let E := fresh "E" in destruct x eqn:E end
  end.

(** Turn boolean comparisons of [Z] in the context into propositions. *)
Ltac zbool :=
  repeat match goal with
  | H : (_ =? _) = true |- _ => apply Z.eqb_eq in H
  | H : (_ =? _) = false |- _ => apply Z.eqb_neq in H
  | H : (_ <? _) = true |- _ => apply Z.ltb_lt in H
  | H : (_ <? _) = false |- _ => apply Z.ltb_ge in H
  | H : (_ <=? _) = true |- _ => apply Z.leb_le in H
  | H : (_ <=? _) = false |- _ => apply Z.leb_gt in H
  | H : negb _ = true |- _ => apply negb_true_iff in H
  | H : negb _ = false |- _ => apply negb_false_iff in H
  | H : _ && _ = true |- _ => apply andb_true_iff in H; destruct H
  | H : _ || _ = false |- _ => apply orb_false_iff in H; destruct H
  end.

Create HintDb ccann.
#[export] Hint Resolve u32_range u64_range : ccann.

(** ** Lists *)
Lemma StronglySorted_NoDup {A} (R : A -> A -> Prop) `{!Irreflexive R} (l : list A) : StronglySorted R l -> NoDup l.
Proof.
  induction 1 as [|x l Hl IH Hx]; constructor; [|done]. intros Hin. rewrite Forall_forall in Hx.
  by apply (irreflexivity R x), Hx.
Qed.

Lemma StronglySorted_app_r {A} (R : A -> A -> Prop) (l1 l2 : list A) : StronglySorted R (l1 ++ l2) -> StronglySorted R l2.
Proof. intros (_ & _ & H)%StronglySorted_app. done. Qed.

Lemma NoDup_snoc {A} (l : list A) x : NoDup l -> x ∉ l -> NoDup (l ++ [x]).
Proof.
  intros Hl Hx. apply NoDup_app. split; [done|]. split; [|apply NoDup_singleton].
  intros y Hy Hy'. apply list_elem_of_singleton in Hy'. by subst.
Qed.

Lemma lookup_total_insert_Z (l : list Z) (i j : nat) x :
  (i < length l)%nat ->
  <[i := x]> l !!! j = if decide (i = j) then x else l !!! j.
Proof.
  intros Hi. case_decide as E; subst.
  - by apply list_lookup_total_insert_eq.
  - by apply list_lookup_total_insert_ne.
Qed.

Lemma Forall_seq_lt (P : nat -> Prop) n :
  (forall i, (i < n)%nat -> P i) -> Forall P (seq 0 n).
Proof. intros H. apply Forall_seq. intros i Hi. apply H. lia. Qed.

Lemma Forall2_impl_elem {A B} (P Q : A -> B -> Prop) l k :
  Forall2 P l k -> (forall x y, x ∈ l -> y ∈ k -> P x y -> Q x y) -> Forall2 Q l k.
Proof.
  induction 1 as [|x y l k Hxy Hl IH]; intros H; constructor.
  - apply H; [set_solver | set_solver | done].
  - apply IH. intros. apply H; set_solver.
Qed.

Lemma Forall2_elem_r {A B} (P : A -> B -> Prop) l k y :
  Forall2 P l k -> y ∈ k -> exists x, x ∈ l /\ P x y.
Proof.
  induction 1 as [|a b l k Hab Hl IH]; intros Hy; [set_solver|].
  apply elem_of_cons in Hy as [->|Hy]; [set_solver|].
  destruct (IH Hy) as (x & ? & ?). exists x. set_solver.
Qed.

Lemma Forall2_elem_l {A B} (P : A -> B -> Prop) l k x :
  Forall2 P l k -> x ∈ l -> exists y, y ∈ k /\ P x y.
Proof.
  induction 1 as [|a b l k Hab Hl IH]; intros Hx; [set_solver|].
  apply elem_of_cons in Hx as [->|Hx]; [set_solver|].
  destruct (IH Hx) as (y & ? & ?). exists y. set_solver.
Qed.

(** The elements of a [std::set] of integers, in iteration order. *)
Definition std_set (l : list Z) : list Z := merge_sort Z.le (remove_dups l).

Lemma std_set_perm l : std_set l ≡ₚ remove_dups l.
Proof. apply merge_sort_Permutation. Qed.

Lemma elem_std_set x l : x ∈ std_set l <-> x ∈ l.
Proof. rewrite std_set_perm. apply elem_of_remove_dups. Qed.

Lemma NoDup_std_set l : NoDup (std_set l).
Proof. rewrite std_set_perm. apply NoDup_remove_dups. Qed.

Lemma length_std_set l : (length (std_set l) <= length l)%nat.
Proof.
  apply submseteq_length, NoDup_submseteq; [apply NoDup_std_set|]. intros x Hx. by apply elem_std_set.
Qed.
