(* ===== verification/Cuckoo.v ===== *)
(** * The concurrent hash map

    [include/libcuckoo/cuckoohash_map.hh] as the rest of the program uses it.
    A table is a finite map; every operation of the class runs under the lock
    of the two buckets of its key, so that one call is one atomic step.  The
    functor a caller passes may fail (the program calls [crash()] in some of
    them), hence the [outcome]. *)
From S2P Require Import Prelude.

Module Cuckoo.
Inductive UpsertContext := NEWLY_INSERTED | ALREADY_EXISTED.

Section table.
Context {V : Type}.
Implicit Types (m : gmap Z V) (k : Z) (v : V).

(** [find_fn]: the functor reads the value; [None] when the key is absent. *)
Definition find_fn {A} (k : Z) (f : V -> A) m : option A := f <$> m !! k.

(** [find(key, val)] copies the value out. *)
Definition find k m : option V := find_fn k (fun v => v) m.

(** [update_fn]: the functor may change the value; it is not called when the
    key is absent.  The result of the functor is returned with the table. *)
Definition update_fn {A} (k : Z) (f : V -> outcome (V * A)) m
  : outcome (gmap Z V * option A) :=
  match m !! k with
  | Some v => '(v', a) ← f v; Ok (<[k := v']> m, Some a)
  | None => Ok (m, None)
  end.

(** [erase_fn]: as [update_fn], and the entry is removed when the functor
    returns [true]. *)
Definition erase_fn (k : Z) (f : V -> outcome (V * bool)) m
  : outcome (bool * gmap Z V) :=
  match m !! k with
  | Some v => '(v', del) ← f v;
              Ok (true, if del : bool then delete k m else <[k := v']> m)
  | None => Ok (false, m)
  end.

(** [uprase_fn]: inserts [val] when the key is absent, then runs the functor
    on the entry and removes the entry when the functor returns [true].  The
    boolean result says that the key was newly inserted. *)
Definition uprase_fn (k : Z) (f : V -> UpsertContext -> outcome (V * bool)) (val : V) m
  : outcome (bool * gmap Z V) :=
  let '(v, ctx, fresh) :=
    match m !! k with
    | Some v => (v, ALREADY_EXISTED, false)
    | None => (val, NEWLY_INSERTED, true)
    end in
  '(v', del) ← f v ctx;
  Ok (fresh, if del : bool then delete k m else <[k := v']> m).

(** [upsert] with a functor that takes the context: never removes. *)
Definition upsert (k : Z) (f : V -> UpsertContext -> V) (val : V) m : gmap Z V :=
  match m !! k with
  | Some v => <[k := f v ALREADY_EXISTED]> m
  | None => <[k := f val NEWLY_INSERTED]> m
  end.

(** [upsert] with a functor that does not take the context
    ([InvokeUpraseFn], [std::false_type] case): it runs only when the key
    already existed; otherwise the value is the constructor's. *)
Definition upsert_existing (k : Z) (f : V -> V) (val : V) m : gmap Z V :=
  match m !! k with
  | Some v => <[k := f v]> m
  | None => <[k := val]> m
  end.

(** [insert]: [upsert] with a functor that does nothing. *)
Definition insert_new (k : Z) (val : V) m : gmap Z V := upsert_existing k (fun v => v) val m.

(** [insert_or_assign]. *)
Definition insert_or_assign (k : Z) (val : V) m : gmap Z V :=
  upsert_existing k (fun _ => val) val m.

Lemma insert_or_assign_eq k v m : insert_or_assign k v m = <[k := v]> m.
Proof. unfold insert_or_assign, upsert_existing. by destruct (m !! k). Qed.

Lemma insert_new_absent k v m : m !! k = None -> insert_new k v m = <[k := v]> m.
Proof. unfold insert_new, upsert_existing. by intros ->. Qed.

Lemma insert_new_present k v w m : m !! k = Some w -> insert_new k v m = m.
Proof. unfold insert_new, upsert_existing. intros E. rewrite E. by apply insert_id. Qed.

Lemma upsert_lookup k f v m j :
  upsert k f v m !! j =
  if decide (j = k)
  then Some (match m !! k with Some w => f w ALREADY_EXISTED | None => f v NEWLY_INSERTED end)
  else m !! j.
Proof.
  unfold upsert. case_decide as E; subst.
  - destruct (m !! k) eqn:E; by rewrite lookup_insert_eq.
  - destruct (m !! k) eqn:E'; by rewrite lookup_insert_ne.
Qed.
End table.
End Cuckoo.
