(* ===== verification/Layout.v ===== *)
(** * Addresses of graph nodes

    The arithmetic of [include/ssd_index.h] that turns a location into a
    sector number and a byte offset, the rounding macros of [include/utils.h],
    and the bytes of a graph node: coordinates, neighbour count, neighbour
    identifiers, each integer little-endian. *)
From S2P Require Import Prelude.

Definition SECTOR_LEN : Z := 4096.

(** Identifiers that stand for an empty and for a reserved slot. *)
Definition kInvalidID : Z := 2 ^ 32 - 1.
Definition kAllocatedID : Z := 2 ^ 32 - 2.

(** Number of entries of [PageArr]. *)
Definition kMaxElemInAPage : nat := 16.
Definition kIndexSizeFactor : Z := 2.

Definition DIV_ROUND_UP (X Y : Z) : Z := X / Y + (if X mod Y =? 0 then 0 else 1).
Definition ROUND_UP (X Y : Z) : Z := if X =? 0 then Y else DIV_ROUND_UP X Y * Y.

(** The members of [SSDIndex] that fix the on-disk geometry, with the size of
    the coordinate type. *)
Record geometry := {
  max_node_len : Z;
  nnodes_per_sector : Z;
  data_dim : Z;
  sizeof_T : Z;
}.

Section addresses.
Variable g : geometry.

Definition loc_sector_no (loc : Z) : Z :=
  u64 (1 + (if 0 <? nnodes_per_sector g then loc / nnodes_per_sector g
            else u64 (loc * DIV_ROUND_UP (max_node_len g) SECTOR_LEN))).

(** Byte offset of a location inside the sector that holds it
    ([offset_to_loc]). *)
Definition loc_sector_off (loc : Z) : Z :=
  if nnodes_per_sector g =? 0 then 0
  else u64 ((loc mod nnodes_per_sector g) * max_node_len g).

Definition u_loc_offset (loc : Z) : Z :=
  u64 (u64 (loc_sector_no loc * SECTOR_LEN) + loc_sector_off loc).

Definition sector_to_loc (sector_no sector_off : Z) : Z :=
  u64 (u64 (u64 (sector_no - 1) * nnodes_per_sector g) + sector_off).

(** Bytes of coordinates, and the byte at which the neighbour list starts
    ([offset_to_node_nhood]). *)
Definition offset_to_node_nhood : Z := u64 (data_dim g * sizeof_T g).

(** The bytes of a read: a sector, or the sectors of a large node. *)
Definition size_per_io : Z :=
  u64 (SECTOR_LEN * (if 0 <? nnodes_per_sector g then 1 else DIV_ROUND_UP (max_node_len g) SECTOR_LEN)).
End addresses.

(** A geometry the update path supports: at least one and at most sixteen
    nodes in a sector, all of them inside the sector. *)
Record geometry_wf (g : geometry) : Prop := {
  wf_nps_pos : 0 < nnodes_per_sector g;
  wf_nps_max : nnodes_per_sector g <= Z.of_nat kMaxElemInAPage;
  wf_len_pos : 0 < max_node_len g;
  wf_fits : nnodes_per_sector g * max_node_len g <= SECTOR_LEN;
}.

(** Locations the program can address without overflow of its 32-bit pages. *)
Definition loc_ok (loc : Z) : Prop := 0 <= loc < 2 ^ 32 - 1.

Section addresses_facts.
Context (g : geometry) (Hg : geometry_wf g).
Abbreviation nps := (nnodes_per_sector g).

Lemma size_per_io_eq : size_per_io g = SECTOR_LEN.
Proof. unfold size_per_io. destruct (Z.ltb_spec 0 nps) as [_|H]; [done|]. destruct Hg. lia. Qed.

Lemma nps_range : 0 < nps <= 16.
Proof. destruct Hg as [H1 H2 _ _]. unfold kMaxElemInAPage in H2. lia. Qed.

Lemma loc_div_range loc : loc_ok loc -> 0 <= loc / nps <= loc.
Proof.
  pose proof nps_range. intros [H1 H2].
  pose proof (Z.div_pos loc nps ltac:(lia) ltac:(lia)).
  pose proof (Z.div_le_upper_bound loc nps loc ltac:(lia)). nia.
Qed.

Lemma loc_sector_no_eq loc : loc_ok loc -> loc_sector_no g loc = 1 + loc / nps.
Proof.
  intros H. pose proof nps_range. pose proof (loc_div_range loc H). destruct H as [? ?].
  unfold loc_sector_no. destruct (Z.ltb_spec 0 nps); [|lia]. apply u64_small. lia.
Qed.

Lemma u32_loc_sector_no loc : loc_ok loc -> u32 (loc_sector_no g loc) = 1 + loc / nps.
Proof.
  intros H. rewrite loc_sector_no_eq by done. pose proof (loc_div_range loc H).
  destruct H. apply u32_small. lia.
Qed.

Lemma u32_loc_mod loc : u32 (loc mod nps) = loc mod nps.
Proof.
  pose proof nps_range. pose proof (Z.mod_pos_bound loc nps). apply u32_small. lia.
Qed.

Lemma loc_sector_off_eq loc : loc_sector_off g loc = (loc mod nps) * max_node_len g.
Proof.
  pose proof nps_range. pose proof (Z.mod_pos_bound loc nps ltac:(lia)).
  unfold loc_sector_off. destruct (Z.eqb_spec nps 0); [lia|].
  destruct Hg as [? ? ? Hf]. unfold SECTOR_LEN in Hf. apply u64_small. nia.
Qed.

Lemma u_loc_offset_eq loc :
  loc_ok loc -> u_loc_offset g loc = (1 + loc / nps) * SECTOR_LEN + (loc mod nps) * max_node_len g.
Proof.
  intros H. unfold u_loc_offset. rewrite loc_sector_no_eq, loc_sector_off_eq by done.
  pose proof nps_range. pose proof (loc_div_range loc H).
  pose proof (Z.mod_pos_bound loc nps ltac:(lia)).
  destruct Hg as [? ? ? Hf]. destruct H. unfold SECTOR_LEN in *.
  rewrite (u64_small ((1 + _) * _)) by lia. apply u64_small. nia.
Qed.

Lemma sector_to_loc_eq p i :
  1 <= p < 2 ^ 32 -> 0 <= i < nps -> sector_to_loc g p i = (p - 1) * nps + i.
Proof.
  intros. pose proof nps_range. unfold sector_to_loc.
  rewrite (u64_small (p - 1)) by lia. rewrite (u64_small (_ * nps)) by nia.
  apply u64_small. nia.
Qed.

(** [sector_to_loc] inverts the pair of [loc_sector_no] and the slot. *)
Lemma sector_to_loc_inv loc :
  loc_ok loc -> sector_to_loc g (loc_sector_no g loc) (loc mod nps) = loc.
Proof.
  intros H. pose proof nps_range. pose proof (loc_div_range loc H).
  pose proof (Z.mod_pos_bound loc nps ltac:(lia)).
  pose proof (Z.div_mod loc nps ltac:(lia)). destruct H as [? ?].
  rewrite loc_sector_no_eq by (split; lia).
  rewrite sector_to_loc_eq; lia.
Qed.

Lemma loc_of_slot_div p i : 0 <= i < nps -> ((p - 1) * nps + i) / nps = p - 1.
Proof. intros. rewrite Z.div_add_l by lia. rewrite (Z.div_small i) by lia. lia. Qed.

Lemma loc_of_slot_mod p i : 0 <= i < nps -> ((p - 1) * nps + i) mod nps = i.
Proof. intros. rewrite Z.add_comm, Z.mod_add by lia. apply Z.mod_small; lia. Qed.

(** Two different locations occupy disjoint byte ranges of the graph file. *)
Lemma node_ranges_disjoint l1 l2 :
  loc_ok l1 -> loc_ok l2 -> l1 < l2 ->
  u_loc_offset g l1 + max_node_len g <= u_loc_offset g l2.
Proof.
  intros H1 H2 Hlt. rewrite !u_loc_offset_eq by done. pose proof nps_range.
  pose proof (Z.div_mod l1 nps ltac:(lia)) as E1.
  pose proof (Z.div_mod l2 nps ltac:(lia)) as E2.
  pose proof (Z.mod_pos_bound l1 nps ltac:(lia)).
  pose proof (Z.mod_pos_bound l2 nps ltac:(lia)).
  pose proof (Z.div_le_mono l1 l2 nps ltac:(lia) ltac:(lia)).
  destruct Hg as [? ? ? Hf].
  destruct (Z.eq_dec (l1 / nps) (l2 / nps)) as [E|E].
  - rewrite E in *. nia.
  - nia.
Qed.
End addresses_facts.
