(* ===== verification/PageAlloc.v ===== *)
(** * The page allocator

    [page_layout], [empty_pages] and [cur_loc] of [SSDIndex]
    ([include/ssd_index.h]): which identifier occupies which slot of which
    page, which pages are known to be empty, and where the used part of the
    graph file ends.  [alloc_loc] and [alloc_loc_compact] reserve slots,
    [erase_and_set_loc] publishes the reserved slots and frees old ones.  All
    three run under [alloc_lock], so each is one atomic step. *)
From S2P Require Import Prelude Cuckoo Layout.
Import Cuckoo.

Abbreviation PageArr := (list Z) (only parsing).

Record alloc_state := {
  page_layout : gmap Z PageArr;
  empty_pages : list Z;
  cur_loc : Z;
}.

Definition set_layout (m : gmap Z PageArr) (s : alloc_state) : alloc_state :=
  {| page_layout := m; empty_pages := empty_pages s; cur_loc := cur_loc s |}.
Definition set_empty_pages (q : list Z) (s : alloc_state) : alloc_state :=
  {| page_layout := page_layout s; empty_pages := q; cur_loc := cur_loc s |}.
Definition set_cur_loc (l : Z) (s : alloc_state) : alloc_state :=
  {| page_layout := page_layout s; empty_pages := empty_pages s; cur_loc := l |}.

(** [std::array<uint32_t, 16>()]: the value libcuckoo constructs for a key
    that is not in the table. *)
Definition page_arr_zero : PageArr := replicate kMaxElemInAPage 0.

Section alloc.
Variable g : geometry.
(** The compile-time switch [ANN_LARGE]. *)
Variable ann_large : bool.
Abbreviation nps := (nnodes_per_sector g).

(** The loop indices [0 .. nnodes_per_sector - 1]. *)
Definition slots : list nat := seq 0 (Z.to_nat nps).

Definition loc_page (loc : Z) : Z := u32 (loc_sector_no g (u32 loc)).
Definition loc_slot (loc : Z) : nat := Z.to_nat (u32 (u32 loc mod nps)).

Definition loc2id (s : alloc_state) (loc : Z) : Z :=
  default kInvalidID (find_fn (loc_page loc) (fun v : PageArr => v !!! loc_slot loc) (page_layout s)).

Definition set_loc2id (loc id : Z) (s : alloc_state) : alloc_state :=
  set_layout
    (upsert (loc_page loc)
       (fun (v : PageArr) ctx =>
          let v := match ctx with
                   | NEWLY_INSERTED => foldl (fun v i => <[i := kInvalidID]> v) v slots
                   | ALREADY_EXISTED => v
                   end in
          <[loc_slot loc := u32 id]> v)
       page_arr_zero (page_layout s)) s.

(** The scan of [erase_loc2id]: no slot of the page is in use. *)
Definition page_empty (v : PageArr) : bool :=
  forallb (fun i : nat => v !!! i =? kInvalidID) slots.

(** The functor takes no [UpsertContext], so libcuckoo runs it only on a page
    that is already in the table. *)
Definition erase_loc2id (loc : Z) (s : alloc_state) : alloc_state :=
  let page := loc_page loc in
  let erase (v : PageArr) := <[loc_slot loc := kInvalidID]> v in
  let s' := set_layout (upsert_existing page erase page_arr_zero (page_layout s)) s in
  match page_layout s !! page with
  | Some v => if page_empty (erase v) then set_empty_pages (empty_pages s ++ [page]) s' else s'
  | None => s'
  end.

Definition erase_and_set_loc (old_locs new_locs new_ids : list Z) (s : alloc_state)
  : alloc_state :=
  let s := foldl (fun s '(loc, id) => set_loc2id loc id s) s (zip new_locs new_ids) in
  foldl (fun s l => erase_loc2id l s) s old_locs.

(** Rule #1, body of the loop over one popped page: every slot must be empty. *)
Fixpoint fill_empty_page (n page : Z) (idxs : list nat) (v : PageArr) (ret : list Z) (cur : Z)
  : outcome (PageArr * (list Z * Z)) :=
  match idxs with
  | [] => Ok (v, (ret, cur))
  | i :: idxs =>
      if v !!! i =? kInvalidID then
        let v := <[i := kAllocatedID]> v in
        let ret := ret ++ [sector_to_loc g page (Z.of_nat i)] in
        let cur := cur + 1 in
        if cur =? n then Ok (v, (ret, cur)) else fill_empty_page n page idxs v ret cur
      else Crash
  end.

(** Rule #1: [while ((empty_page = empty_pages.pop()) != kInvalidID)].  The
    boolean says that the function returned inside the loop. *)
Fixpoint alloc_empty_pages (n : Z) (q : list Z) (s : alloc_state) (ret : list Z) (cur : Z)
  : outcome (alloc_state * list Z * Z * bool) :=
  match q with
  | [] => Ok (set_empty_pages [] s, ret, cur, false)
  | p :: q =>
      if p =? kInvalidID then Ok (set_empty_pages q s, ret, cur, false) else
      '(m, r) ← update_fn p (fun v => fill_empty_page n p slots v ret cur) (page_layout s);
      let '(ret, cur) := default (ret, cur) r in
      let s := set_layout m s in
      if cur =? n then Ok (set_empty_pages q s, ret, cur, true)
      else alloc_empty_pages n q s ret cur
  end.

(** [cnt]: the number of empty slots of a page. *)
Definition count_holes (v : PageArr) : Z :=
  Z.of_nat (length (filter (fun i : nat => v !!! i = kInvalidID) slots)).

(** Body of the allocation loop of rule #2: take the empty slots of a page. *)
Fixpoint fill_holes (n page : Z) (idxs : list nat) (v : PageArr) (ret : list Z) (cur : Z)
  : PageArr * (list Z * Z) :=
  match idxs with
  | [] => (v, (ret, cur))
  | i :: idxs =>
      if v !!! i =? kInvalidID then
        let v := <[i := kAllocatedID]> v in
        let ret := ret ++ [sector_to_loc g page (Z.of_nat i)] in
        let cur := cur + 1 in
        if cur =? n then (v, (ret, cur)) else fill_holes n page idxs v ret cur
      else fill_holes n page idxs v ret cur
  end.

Definition reuse_threshold : Z :=
  if ann_large then 1
  else u32 (u64 (nps + kIndexSizeFactor - 1) / kIndexSizeFactor).

(** Rule #2: the loop over the pages the search has visited. *)
Fixpoint alloc_hint_pages (n : Z) (hints : list Z) (s : alloc_state)
    (need : gset Z) (ret : list Z) (cur : Z)
  : outcome (alloc_state * gset Z * list Z * Z * bool) :=
  match hints with
  | [] => Ok (s, need, ret, cur, false)
  | p :: hints =>
      '(m, r) ← update_fn (u32 p)
        (fun v =>
           let cnt := count_holes v in
           if cnt <? reuse_threshold then Ok (v, (need, (ret, cur)))
           else
             let need := if cnt <? nps then {[p]} ∪ need else need in
             let '(v, rc) := fill_holes n p slots v ret cur in
             Ok (v, (need, rc))) (page_layout s);
      let '(need, (ret, cur)) := default (need, (ret, cur)) r in
      let s := set_layout m s in
      if cur =? n then Ok (s, need, ret, cur, true)
      else alloc_hint_pages n hints s need ret cur
  end.

(** [cur_loc] rounded up to the next page boundary. *)
Definition align_loc (l : Z) : Z :=
  if l mod nps =? 0 then l else u64 (l + (nps - l mod nps)).

(** Rule #3: take new space at the end of the file. *)
Definition alloc_new (remaining : Z) (s : alloc_state) (ret : list Z) : alloc_state * list Z :=
  let locs := (fun i : nat => u64 (cur_loc s + Z.of_nat i)) <$> seq 0 (Z.to_nat remaining) in
  let s' := foldl (fun s l => set_loc2id l kAllocatedID s) s locs in
  (set_cur_loc (align_loc (u64 (cur_loc s + remaining))) s', ret ++ locs).

Definition alloc_loc (n : Z) (hint_pages : list Z) (page_need_to_read : gset Z) (s : alloc_state)
  : outcome (list Z * gset Z * alloc_state) :=
  '(s, ret, cur, found) ← alloc_empty_pages n (empty_pages s) s [] 0;
  if found : bool then Ok (ret, page_need_to_read, s) else
  '(s, need, ret, cur, found) ← alloc_hint_pages n hint_pages s page_need_to_read ret cur;
  if found : bool then Ok (ret, need, s) else
  let '(s, ret) := alloc_new (n - cur) s ret in
  Ok (ret, need, s).

(** [alloc_loc_compact], rule #2: every page with a hole is used, and the
    pages judged full are collected in [rm]. *)
Fixpoint alloc_hint_pages_compact (n : Z) (hints : list Z) (s : alloc_state)
    (need : gset Z) (rm : list Z) (ret : list Z) (cur : Z)
  : outcome (alloc_state * gset Z * list Z * list Z * Z * bool) :=
  match hints with
  | [] => Ok (s, need, rm, ret, cur, false)
  | p :: hints =>
      '(m, r) ← update_fn (u32 p)
        (fun v =>
           let cnt := count_holes v in
           let need := if cnt <? nps then {[p]} ∪ need else need in
           let rm := if nps <=? u32 (cnt + (n - cur)) then rm ++ [p] else rm in
           let '(v, rc) := fill_holes n p slots v ret cur in
           Ok (v, (need, rm, rc))) (page_layout s);
      let '(need, rm, (ret, cur)) := default (need, rm, (ret, cur)) r in
      let s := set_layout m s in
      if cur =? n then Ok (s, need, rm, ret, cur, true)
      else alloc_hint_pages_compact n hints s need rm ret cur
  end.

(** The lambda [remove_hint_pages]. *)
Definition remove_hint_pages (rm hint_pages : list Z) : list Z :=
  filter (fun p => p ∉ rm) hint_pages.

Definition alloc_loc_compact (n : Z) (hint_pages : list Z) (page_need_to_read : gset Z)
    (s : alloc_state) : outcome (list Z * list Z * gset Z * alloc_state) :=
  '(s, ret, cur, found) ← alloc_empty_pages n (empty_pages s) s [] 0;
  if found : bool then Ok (ret, hint_pages, page_need_to_read, s) else
  '(s, need, rm, ret, cur, found) ←
    alloc_hint_pages_compact n hint_pages s page_need_to_read [] ret cur;
  let hint_pages := remove_hint_pages rm hint_pages in
  if found : bool then Ok (ret, hint_pages, need, s) else
  let '(s, ret) := alloc_new (n - cur) s ret in
  Ok (ret, hint_pages, need, s).
End alloc.

#[global] Arguments alloc_new : simpl never.
#[global] Arguments set_loc2id : simpl never.
#[global] Arguments erase_loc2id : simpl never.

(** ** Invariant and specification *)
Section alloc_facts.
Context (g : geometry) (Hg : geometry_wf g) (ann_large : bool).
Abbreviation nps := (nnodes_per_sector g).
Implicit Types (s : alloc_state) (v : PageArr) (l p : Z).

(** The representation invariant.  Pages are below the allocation frontier
    [cur_loc], which is page aligned; a page of the queue occurs once and is
    empty. *)
Record alloc_inv s : Prop := {
  inv_len : forall p v, page_layout s !! p = Some v -> length v = kMaxElemInAPage;
  inv_pages : forall p, is_Some (page_layout s !! p) -> 1 <= p <= cur_loc s / nps;
  inv_queue_nodup : NoDup (empty_pages s);
  inv_queue : forall p, p ∈ empty_pages s ->
    is_Some (page_layout s !! p) /\
    forall l, loc_ok l -> loc_page g l = p -> loc2id g s l = kInvalidID;
  inv_aligned : cur_loc s mod nps = 0;
  inv_frontier : 0 <= cur_loc s < 2 ^ 32 - 1;
}.

(** [reserves s new s']: the locations [new] were free in [s] and are
    reserved in [s']; every other location is unchanged. *)
Record reserves s (new : list Z) s' : Prop := {
  res_nodup : NoDup new;
  res_free : forall l, l ∈ new -> loc_ok l /\ loc2id g s l = kInvalidID;
  res_frame : forall l, loc_ok l ->
    loc2id g s' l = if decide (l ∈ new) then kAllocatedID else loc2id g s l;
}.

Lemma reserves_nil s s' :
  (forall l, loc_ok l -> loc2id g s' l = loc2id g s l) -> reserves s [] s'.
Proof. intros H. split; [apply NoDup_nil_2 | set_solver |]. intros l Hl. rewrite H; [|done].
  case_decide; [set_solver | done]. Qed.

Lemma reserves_trans s1 a s2 b s3 :
  reserves s1 a s2 -> reserves s2 b s3 -> reserves s1 (a ++ b) s3.
Proof.
  intros [Hn1 Hf1 Hr1] [Hn2 Hf2 Hr2].
  assert (Hb : forall l, l ∈ b -> l ∉ a /\ loc_ok l /\ loc2id g s1 l = kInvalidID).
  { intros l Hl. destruct (Hf2 l Hl) as [Hok E]. rewrite Hr1 in E by done.
    case_decide; [discriminate E | done]. }
  split.
  - apply NoDup_app. split; [done|]. split; [|done].
    intros l Ha Hl. by destruct (Hb l Hl).
  - intros l [Hl|Hl]%elem_of_app; [auto|]. by destruct (Hb l Hl).
  - intros l Hl. rewrite Hr2, Hr1 by done.
    destruct (decide (l ∈ b)), (decide (l ∈ a)), (decide (l ∈ a ++ b)); set_solver.
Qed.

(** Reservation depends on the page table only. *)
Lemma reserves_layout s new s' t t' :
  reserves s new s' -> page_layout t = page_layout s -> page_layout t' = page_layout s' ->
  reserves t new t'.
Proof.
  intros [Hn Hf Hr] E E'.
  assert (H : forall l, loc2id g t l = loc2id g s l) by (intros; unfold loc2id; by rewrite E).
  assert (H' : forall l, loc2id g t' l = loc2id g s' l) by (intros; unfold loc2id; by rewrite E').
  split; [done | |]; intros l Hl; rewrite ?H, ?H'; auto.
Qed.

(** A page that holds a node or a reserved slot. *)
Definition page_live s p : Prop :=
  exists l, loc_ok l /\ loc_page g l = p /\ loc2id g s l <> kInvalidID.

Lemma reserves_page_live s new s' p : reserves s new s' -> page_live s p -> page_live s' p.
Proof.
  intros [_ _ Hr] (l & Hok & Hp & Hl). exists l. split_and!; [done..|].
  rewrite Hr by done. by case_decide.
Qed.

(** *** Locations and slots *)
Lemma loc_page_eq l : loc_ok l -> loc_page g l = 1 + l / nps.
Proof.
  intros H. unfold loc_page. rewrite (u32_small l) by (destruct H; lia).
  by apply u32_loc_sector_no.
Qed.

Lemma loc_slot_eq l : loc_ok l -> loc_slot g l = Z.to_nat (l mod nps).
Proof.
  intros H. unfold loc_slot. rewrite (u32_small l) by (destruct H; lia).
  by rewrite u32_loc_mod.
Qed.

Lemma loc_slot_lt l : loc_ok l -> (loc_slot g l < Z.to_nat nps)%nat.
Proof.
  intros H. rewrite loc_slot_eq by done. pose proof (nps_range g Hg).
  pose proof (Z.mod_pos_bound l nps). lia.
Qed.

Lemma nps_le_arr : (Z.to_nat nps <= kMaxElemInAPage)%nat.
Proof. pose proof (nps_range g Hg). unfold kMaxElemInAPage. lia. Qed.

Lemma loc_eq l1 l2 :
  loc_ok l1 -> loc_ok l2 -> loc_page g l1 = loc_page g l2 -> loc_slot g l1 = loc_slot g l2 -> l1 = l2.
Proof.
  intros H1 H2. rewrite !loc_page_eq, !loc_slot_eq by done. pose proof (nps_range g Hg).
  pose proof (Z.mod_pos_bound l1 nps). pose proof (Z.mod_pos_bound l2 nps).
  pose proof (Z.div_mod l1 nps). pose proof (Z.div_mod l2 nps). intros. nia.
Qed.

(** The location of slot [i] of page [p]. *)
Definition slot_loc p (i : nat) : Z := sector_to_loc g p (Z.of_nat i).

Lemma slot_loc_spec p i :
  1 <= p -> p * nps < 2 ^ 32 -> (i < Z.to_nat nps)%nat ->
  loc_ok (slot_loc p i) /\ loc_page g (slot_loc p i) = p /\ loc_slot g (slot_loc p i) = i.
Proof.
  intros Hp Hb Hi. pose proof (nps_range g Hg).
  assert (E : slot_loc p i = (p - 1) * nps + Z.of_nat i)
    by (apply sector_to_loc_eq; [done | nia | lia]).
  assert (Hok : loc_ok (slot_loc p i)) by (rewrite E; split; nia).
  split; [done|]. rewrite loc_page_eq, loc_slot_eq, E by done.
  rewrite loc_of_slot_div, loc_of_slot_mod by lia. split; [lia|]. lia.
Qed.

Lemma elem_slots i : i ∈ slots g <-> (i < Z.to_nat nps)%nat.
Proof. unfold slots. rewrite elem_of_seq. lia. Qed.

Lemma loc2id_page s l :
  loc2id g s l = match page_layout s !! loc_page g l with
                 | Some v => v !!! loc_slot g l | None => kInvalidID end.
Proof. unfold loc2id, find_fn. by destruct (page_layout s !! loc_page g l). Qed.

Lemma page_bound s p :
  alloc_inv s -> is_Some (page_layout s !! p) -> 1 <= p /\ p * nps < 2 ^ 32 - 1.
Proof.
  intros [_ Hp _ _ _ Hf] H. specialize (Hp p H). pose proof (nps_range g Hg).
  pose proof (Z.mul_div_le (cur_loc s) nps). nia.
Qed.

(** *** Reserving slots of one page *)

(** What one pass over the slots [idxs] of a page takes. *)
Record takes v (idxs taken : list nat) v' : Prop := {
  tk_sub : taken ⊆ idxs;
  tk_nodup : NoDup taken;
  tk_free : forall i, i ∈ taken -> v !!! i = kInvalidID;
  tk_len : length v' = length v;
  tk_frame : forall j, v' !!! j = if decide (j ∈ taken) then kAllocatedID else v !!! j;
}.

Lemma takes_cons v i idxs taken v' :
  (i < length v)%nat -> i ∉ idxs -> v !!! i = kInvalidID ->
  takes (<[i := kAllocatedID]> v) idxs taken v' -> takes v (i :: idxs) (i :: taken) v'.
Proof.
  intros Hi Hni Hv [Hs Hn Hf Hl Hfr].
  assert (Hit : i ∉ taken) by set_solver.
  split.
  - set_solver.
  - by constructor.
  - intros j [->|Hj]%elem_of_cons; [done|]. specialize (Hf j Hj).
    rewrite lookup_total_insert_Z in Hf by done. case_decide; [by subst | done].
  - by rewrite Hl, length_insert.
  - intros j. rewrite Hfr, lookup_total_insert_Z by done.
    destruct (decide (j ∈ taken)), (decide (i = j)), (decide (j ∈ i :: taken)); set_solver.
Qed.

Lemma takes_skip v i idxs taken v' : takes v idxs taken v' -> takes v (i :: idxs) taken v'.
Proof. intros [Hs Hn Hf Hl Hfr]. split; auto. set_solver. Qed.

Lemma takes_none v idxs : takes v idxs [] v.
Proof.
  split; [set_solver | apply NoDup_nil_2 | set_solver | done |].
  intros j. case_decide; [set_solver | done].
Qed.

Lemma fill_holes_spec n p idxs v ret cur :
  NoDup idxs -> (forall i, i ∈ idxs -> (i < length v)%nat) -> cur < n ->
  exists taken v' cur',
    fill_holes g n p idxs v ret cur = (v', (ret ++ (slot_loc p <$> taken), cur')) /\
    takes v idxs taken v' /\
    cur' = cur + Z.of_nat (length taken) /\ cur' <= n /\
    (cur' < n -> forall i, i ∈ idxs -> v !!! i = kInvalidID -> i ∈ taken).
Proof.
  revert v ret cur. induction idxs as [|i idxs IH]; intros v ret cur Hnd Hlt Hcur; simpl.
  - exists [], v, cur. rewrite app_nil_r. split_and!; [done | apply takes_none | simpl; lia | lia |].
    set_solver.
  - apply NoDup_cons in Hnd as [Hni Hnd].
    assert (Hi : (i < length v)%nat) by (apply Hlt; set_solver).
    assert (Hidxs : forall j, j ∈ idxs -> (j < length v)%nat) by (intros; apply Hlt; set_solver).
    fold (slot_loc p i).
    destruct (Z.eqb_spec (v !!! i) kInvalidID) as [Hv|Hv].
    + destruct (Z.eqb_spec (cur + 1) n) as [En|En].
      * exists [i], (<[i := kAllocatedID]> v), (cur + 1).
        split_and!; [done | | simpl; lia | lia | lia].
        apply takes_cons; [done | done | done | apply takes_none].
      * destruct (IH (<[i := kAllocatedID]> v) (ret ++ [slot_loc p i]) (cur + 1))
          as (taken & v' & cur' & -> & Ht & Hc & Hle & Hall); [done | | lia |].
        { intros j Hj. rewrite length_insert. auto. }
        exists (i :: taken), v', cur'. rewrite <- app_assoc.
        split_and!; [done | by apply takes_cons | simpl; lia | lia |].
        intros Hlt' j [->|Hj]%elem_of_cons Hvj; [set_solver|].
        apply elem_of_cons. right. apply Hall; [done | done |].
        rewrite lookup_total_insert_Z by done. case_decide; [set_solver | done].
    + destruct (IH v ret cur) as (taken & v' & cur' & -> & Ht & Hc & Hle & Hall); [done..|].
      exists taken, v', cur'. split_and!; [done | by apply takes_skip | done | done |].
      intros Hlt' j [->|Hj]%elem_of_cons Hvj; [done | auto].
Qed.

(** On an empty page, rule #1 does not crash and takes what rule #2 would. *)
Lemma fill_empty_page_eq n p idxs v ret cur :
  NoDup idxs -> (forall i, i ∈ idxs -> (i < length v)%nat /\ v !!! i = kInvalidID) ->
  fill_empty_page g n p idxs v ret cur = Ok (fill_holes g n p idxs v ret cur).
Proof.
  revert v ret cur. induction idxs as [|i idxs IH]; intros v ret cur Hnd H; simpl; [done|].
  apply NoDup_cons in Hnd as [Hni Hnd]. destruct (H i) as [Hi Hv]; [set_solver|].
  rewrite Hv, Z.eqb_refl. destruct (_ =? n); [done|]. apply IH; [done|].
  intros j Hj. destruct (H j) as [Hj' Hvj]; [set_solver|].
  rewrite length_insert, lookup_total_insert_Z by done. case_decide; [set_solver | done].
Qed.

Lemma NoDup_slots : NoDup (slots g).
Proof. apply NoDup_seq. Qed.

Lemma slots_in_arr s p v i :
  alloc_inv s -> page_layout s !! p = Some v -> i ∈ slots g -> (i < length v)%nat.
Proof.
  intros Hs Hv Hi%elem_slots. rewrite (inv_len s Hs p v Hv). pose proof nps_le_arr. lia.
Qed.

(** Replacing the array of a page by one with some slots reserved. *)
Lemma reserves_page s p v taken v' :
  alloc_inv s -> page_layout s !! p = Some v -> takes v (slots g) taken v' ->
  reserves s (slot_loc p <$> taken) (set_layout (<[p := v']> (page_layout s)) s).
Proof.
  intros Hs Hv [Hsub Hnd Hf Hl Hfr].
  destruct (page_bound s p Hs ltac:(eauto)) as [Hp1 Hp2].
  assert (Hslot : forall i, i ∈ taken ->
    loc_ok (slot_loc p i) /\ loc_page g (slot_loc p i) = p /\ loc_slot g (slot_loc p i) = i).
  { intros i Hi. apply slot_loc_spec; [done | lia |]. apply elem_slots. set_solver. }
  split.
  - apply NoDup_fmap_2_strong; [|done]. intros i j Hi Hj E.
    destruct (Hslot i Hi) as (_ & _ & <-), (Hslot j Hj) as (_ & _ & <-). by rewrite E.
  - intros l (i & -> & Hi)%list_elem_of_fmap. destruct (Hslot i Hi) as (Hok & Ep & Es).
    split; [done|]. rewrite loc2id_page, Ep, Hv, Es. by apply Hf.
  - intros l Hl'. rewrite !loc2id_page. simpl.
    destruct (decide (loc_page g l = p)) as [E|E].
    + rewrite E, lookup_insert_eq, Hv, Hfr.
      destruct (decide (loc_slot g l ∈ taken)) as [Hin|Hin],
        (decide (l ∈ slot_loc p <$> taken)) as [Hin'|Hin']; [done | | | done].
      * destruct Hin'. apply list_elem_of_fmap. exists (loc_slot g l). split; [|done].
        destruct (Hslot _ Hin) as (? & ? & ?). apply loc_eq; congruence.
      * destruct Hin. apply list_elem_of_fmap in Hin' as (i & -> & Hi).
        by destruct (Hslot i Hi) as (_ & _ & ->).
    + rewrite lookup_insert_ne by done. case_decide as Hin; [|done].
      apply list_elem_of_fmap in Hin as (i & -> & Hi). destruct E. by apply Hslot.
Qed.

(** Reserving slots of a page that is not in the queue keeps the invariant. *)
Lemma alloc_inv_page s p v v' :
  alloc_inv s -> page_layout s !! p = Some v -> length v' = length v -> p ∉ empty_pages s ->
  alloc_inv (set_layout (<[p := v']> (page_layout s)) s).
Proof.
  intros Hs Hv Hl Hq. split; simpl; try apply Hs.
  - intros p' w. rewrite lookup_insert. case_decide as E.
    + intros [= <-]. rewrite Hl. by apply (inv_len s Hs p).
    + apply Hs.
  - intros p' Hp'. apply (inv_pages s Hs). rewrite lookup_insert in Hp'.
    case_decide; [subst; eauto | done].
  - intros p' Hp'. destruct (inv_queue s Hs p' Hp') as [Hsome Hall].
    assert (p' <> p) by (intros ->; done). split.
    + by rewrite lookup_insert_ne.
    + intros l Hl' E. specialize (Hall l Hl' E). rewrite loc2id_page in *. simpl.
      rewrite E in *. by rewrite lookup_insert_ne.
Qed.

Lemma page_live_holes s p v :
  page_layout s !! p = Some v -> page_live s p -> count_holes g v < nps.
Proof.
  intros Hv (l & Hok & Hp & Hl). rewrite loc2id_page, Hp, Hv in Hl.
  pose proof (loc_slot_lt l Hok) as Hlt. pose proof (nps_range g Hg). unfold count_holes.
  assert (Hx : loc_slot g l ∈ slots g) by by apply elem_slots.
  pose proof (length_filter_lt (fun i : nat => v !!! i = kInvalidID) (slots g) _ Hx Hl) as Hf.
  unfold slots in Hf at 2. rewrite length_seq in Hf. lia.
Qed.

Lemma slot_locs_page s p taken l :
  alloc_inv s -> is_Some (page_layout s !! p) -> taken ⊆ slots g ->
  l ∈ slot_loc p <$> taken -> loc_page g l = p.
Proof.
  intros Hs Hp Hsub (i & -> & Hi)%list_elem_of_fmap.
  destruct (page_bound s p Hs Hp). apply slot_loc_spec; [done | lia |].
  apply elem_slots. set_solver.
Qed.

(** *** Rule #1 *)
Lemma alloc_inv_pop s p q :
  alloc_inv (set_empty_pages (p :: q) s) -> alloc_inv (set_empty_pages q s) /\ p ∉ q.
Proof.
  intros Hs. destruct (proj1 (NoDup_cons p q) (inv_queue_nodup _ Hs)) as [Hp Hq].
  split; [|done]. destruct Hs as [H1 H2 H3 H4 H5 H6]. split; simpl in *; try done.
  intros p' Hp'. apply H4. set_solver.
Qed.

Lemma alloc_empty_pages_spec n q s ret cur :
  alloc_inv (set_empty_pages q s) -> cur < n ->
  exists s' new cur' b,
    alloc_empty_pages g n q s ret cur = Ok (s', ret ++ new, cur', b) /\
    reserves s new s' /\ alloc_inv s' /\ cur_loc s' = cur_loc s /\
    (forall l, l ∈ new -> ~ page_live s (loc_page g l)) /\
    cur' = cur + Z.of_nat (length new) /\ cur' <= n /\
    (if b then cur' = n else cur' < n /\ empty_pages s' = []).
Proof.
  revert s ret cur. induction q as [|p q IH]; intros s ret cur Hs Hcur; simpl.
  { exists (set_empty_pages [] s), [], cur, false. rewrite app_nil_r.
    split_and!; try done; [by apply reserves_nil | set_solver | simpl; lia | lia]. }
  destruct (inv_queue _ Hs p) as [[v Hv] Hempty]; [set_solver|].
  destruct (page_bound _ p Hs ltac:(eauto)) as [Hp1 Hp2].
  pose proof (nps_range g Hg).
  destruct (Z.eqb_spec p kInvalidID) as [->|_]; [unfold kInvalidID in *; nia|].
  unfold update_fn. change (page_layout s !! p = Some v) in Hv. rewrite Hv.
  assert (Hfree : forall i, i ∈ slots g -> (i < length v)%nat /\ v !!! i = kInvalidID).
  { intros i Hi. split; [by apply (slots_in_arr _ p v i Hs)|].
    apply elem_slots in Hi. destruct (slot_loc_spec p i) as (Hok & Ep & Es); [done | lia | done |].
    specialize (Hempty _ Hok Ep). rewrite loc2id_page, Ep in Hempty. simpl in Hempty.
    by rewrite Hv, Es in Hempty. }
  rewrite fill_empty_page_eq by (try apply NoDup_slots; done).
  destruct (fill_holes_spec n p (slots g) v ret cur)
    as (taken & v' & cur1 & -> & Ht & Hc & Hle & _); [apply NoDup_slots | apply Hfree | done |].
  simpl. destruct (alloc_inv_pop s p q Hs) as [Hs' Hpq].
  pose proof (alloc_inv_page _ p v v' Hs' Hv (tk_len _ _ _ _ Ht) Hpq) as Hs1.
  pose proof (reserves_page _ p v taken v' Hs' Hv Ht) as Hr.
  apply (reserves_layout _ _ _ s (set_layout (<[p := v']> (page_layout s)) s)) in Hr; [|done..].
  assert (Hdead : forall l, l ∈ slot_loc p <$> taken -> ~ page_live s (loc_page g l)).
  { intros l Hl (l' & Hok & Hp' & Hne). apply Hne, Hempty; [done|]. rewrite Hp'.
    apply (slot_locs_page _ p taken l Hs' (mk_is_Some _ _ Hv) (tk_sub _ _ _ _ Ht) Hl). }
  destruct (Z.eqb_spec cur1 n) as [->|Hne].
  - eexists _, _, n, true. split; [done|].
    split; [by eapply reserves_layout; [exact Hr | ..]|].
    split; [exact Hs1|]. rewrite length_fmap. split_and!; [done | done | lia | lia | done].
  - destruct (IH (set_layout (<[p := v']> (page_layout s)) s) (ret ++ (slot_loc p <$> taken)) cur1)
      as (s' & new & cur' & b & -> & Hr' & Hi' & Hl' & Hd' & Hc' & Hle' & Hb); [exact Hs1 | lia |].
    exists s', ((slot_loc p <$> taken) ++ new), cur', b. rewrite <- app_assoc.
    split; [done|].
    split; [by eapply reserves_trans |].
    rewrite length_app, length_fmap. split_and!; [done | done | | lia | done | done].
    intros l [Hl|Hl]%elem_of_app; [auto|]. intros Hlive. apply (Hd' l Hl).
    by eapply reserves_page_live.
Qed.

(** *** Rule #2 *)

(** Taking the holes of one page that is not queued as empty. *)
Lemma fill_page_step n p v (need : gset Z) s ret cur :
  alloc_inv s -> empty_pages s = [] -> page_layout s !! p = Some v -> cur < n ->
  exists v' new cur',
    fill_holes g n p (slots g) v ret cur = (v', (ret ++ new, cur')) /\
    let s' := set_layout (<[p := v']> (page_layout s)) s in
    let need' := if count_holes g v <? nps then {[p]} ∪ need else need in
    reserves s new s' /\ alloc_inv s' /\ need ⊆ need' /\
    (forall l, l ∈ new -> page_live s (loc_page g l) -> loc_page g l ∈ need') /\
    cur' = cur + Z.of_nat (length new) /\ cur' <= n.
Proof.
  intros Hs Hq Hv Hcur.
  destruct (fill_holes_spec n p (slots g) v ret cur)
    as (taken & v' & cur1 & -> & Ht & Hc & Hle & _);
    [apply NoDup_slots | intros i Hi; by apply (slots_in_arr s p v i) | done |].
  exists v', (slot_loc p <$> taken), cur1. rewrite length_fmap. cbv zeta.
  split_and!; [done | by apply (reserves_page s p v) | | case_match; set_solver | | lia | lia].
  - apply (alloc_inv_page s p v v' Hs Hv (tk_len _ _ _ _ Ht)). rewrite Hq. set_solver.
  - intros l Hl.
    rewrite (slot_locs_page s p taken l Hs (mk_is_Some _ _ Hv) (tk_sub _ _ _ _ Ht) Hl).
    intros Hpl. pose proof (page_live_holes s p v Hv Hpl).
    destruct (Z.ltb_spec (count_holes g v) nps); [set_solver | lia].
Qed.

(** The post-condition the two variants of rule #2 share. *)
Record hint_post n s (need : gset Z) cur s' (need' : gset Z) new cur' (b : bool) : Prop := {
  hp_res : reserves s new s';
  hp_inv : alloc_inv s';
  hp_loc : cur_loc s' = cur_loc s;
  hp_queue : empty_pages s' = [];
  hp_need : need ⊆ need';
  hp_read : forall l, l ∈ new -> page_live s (loc_page g l) -> loc_page g l ∈ need';
  hp_cur : cur' = cur + Z.of_nat (length new) /\ cur' <= n /\ (if b then cur' = n else cur' < n);
}.

Lemma hint_post_refl n s need cur :
  alloc_inv s -> empty_pages s = [] -> cur < n -> hint_post n s need cur s need [] cur false.
Proof.
  intros. split; try done; [by apply reserves_nil | set_solver | simpl; lia].
Qed.

Lemma hint_post_step n s need cur s1 need1 new1 cur1 s' need' new cur' b :
  reserves s new1 s1 -> cur_loc s1 = cur_loc s -> need ⊆ need1 ->
  (forall l, l ∈ new1 -> page_live s (loc_page g l) -> loc_page g l ∈ need1) ->
  cur1 = cur + Z.of_nat (length new1) ->
  hint_post n s1 need1 cur1 s' need' new cur' b ->
  hint_post n s need cur s' need' (new1 ++ new) cur' b.
Proof.
  intros Hr Hl Hn Hd Hc [Hr' Hi' Hl' Hq' Hn' Hd' Hc'].
  split; [by eapply reserves_trans | done | congruence | done | set_solver | |].
  - intros l [Hin|Hin]%elem_of_app Hpl; [set_solver|]. apply Hd'; [done|].
    by eapply reserves_page_live.
  - rewrite length_app. destruct Hc' as (-> & ? & ?). split_and!; [lia | done | done].
Qed.

Lemma alloc_hint_pages_spec n hints s need ret cur :
  alloc_inv s -> empty_pages s = [] -> Forall (fun p => 0 <= p < 2 ^ 32) hints -> cur < n ->
  exists s' need' new cur' b,
    alloc_hint_pages g ann_large n hints s need ret cur = Ok (s', need', ret ++ new, cur', b) /\
    hint_post n s need cur s' need' new cur' b.
Proof.
  revert s need ret cur. induction hints as [|p hints IH]; intros s need ret cur Hs Hq Hh Hcur; simpl.
  { exists s, need, [], cur, false. rewrite app_nil_r. split; [done | by apply hint_post_refl]. }
  inversion Hh as [|? ? Hp Hh' [E1 E2]]; subst. rewrite (u32_small p) by done.
  assert (Es : set_layout (page_layout s) s = s) by by destruct s.
  assert (Hskip := IH s need ret cur Hs Hq Hh' Hcur).
  unfold update_fn. destruct (page_layout s !! p) as [v|] eqn:Hv; simpl.
  2: { rewrite Es. destruct (Z.eqb_spec cur n); [lia | exact Hskip]. }
  destruct (count_holes g v <? reuse_threshold g ann_large); simpl.
  { rewrite insert_id, Es by done. destruct (Z.eqb_spec cur n); [lia | exact Hskip]. }
  destruct (fill_page_step n p v need s ret cur Hs Hq Hv Hcur)
    as (v' & new1 & cur1 & -> & Hr & Hs1 & Hn1 & Hd1 & Hc1 & Hle1). simpl.
  set (need1 := if count_holes g v <? nps then _ else _) in *.
  destruct (Z.eqb_spec cur1 n) as [->|Hne].
  - eexists _, need1, new1, n, true. split; [done|]. split; try done; lia.
  - destruct (IH _ need1 (ret ++ new1) cur1 Hs1 Hq Hh' ltac:(lia))
      as (s' & need' & new & cur' & b & -> & Hpost).
    exists s', need', (new1 ++ new), cur', b. rewrite <- app_assoc. split; [done|].
    by eapply hint_post_step.
Qed.

Lemma alloc_hint_pages_compact_spec n hints s need rm ret cur :
  alloc_inv s -> empty_pages s = [] -> Forall (fun p => 0 <= p < 2 ^ 32) hints -> cur < n ->
  exists s' need' rm' new cur' b,
    alloc_hint_pages_compact g n hints s need rm ret cur
      = Ok (s', need', rm', ret ++ new, cur', b) /\
    hint_post n s need cur s' need' new cur' b.
Proof.
  revert s need rm ret cur.
  induction hints as [|p hints IH]; intros s need rm ret cur Hs Hq Hh Hcur; simpl.
  { exists s, need, rm, [], cur, false. rewrite app_nil_r. split; [done | by apply hint_post_refl]. }
  inversion Hh as [|? ? Hp Hh' [E1 E2]]; subst. rewrite (u32_small p) by done.
  unfold update_fn. destruct (page_layout s !! p) as [v|] eqn:Hv; simpl.
  2: { destruct (Z.eqb_spec cur n); [lia|].
       replace (set_layout (page_layout s) s) with s by (by destruct s). by apply IH. }
  destruct (fill_page_step n p v need s ret cur Hs Hq Hv Hcur)
    as (v' & new1 & cur1 & -> & Hr & Hs1 & Hn1 & Hd1 & Hc1 & Hle1). simpl.
  set (need1 := if count_holes g v <? nps then _ else _) in *.
  set (rm1 := if nps <=? _ then _ else _).
  destruct (Z.eqb_spec cur1 n) as [->|Hne].
  - eexists _, need1, rm1, new1, n, true. split; [done|]. split; try done; lia.
  - destruct (IH _ need1 rm1 (ret ++ new1) cur1 Hs1 Hq Hh' ltac:(lia))
      as (s' & need' & rm' & new & cur' & b & -> & Hpost).
    exists s', need', rm', (new1 ++ new), cur', b. rewrite <- app_assoc. split; [done|].
    by eapply hint_post_step.
Qed.

(** *** [set_loc2id] and [erase_loc2id] *)
Lemma init_slots_spec (v : PageArr) (n : nat) :
  (n <= length v)%nat ->
  length (foldl (fun v i => <[i := kInvalidID]> v) v (seq 0 n)) = length v /\
  forall j, foldl (fun v i => <[i := kInvalidID]> v) v (seq 0 n) !!! j
            = if decide (j < n)%nat then kInvalidID else v !!! j.
Proof.
  induction n as [|n IH]; intros Hn; [done|].
  rewrite seq_S, foldl_app. simpl. destruct IH as [IHl IH]; [lia|].
  split; [by rewrite length_insert|]. intros j.
  rewrite lookup_total_insert_Z by lia. rewrite IH.
  destruct (decide (n = j)), (decide (j < n)%nat), (decide (j < S n)%nat); lia || done.
Qed.

Lemma set_loc2id_lens s l id :
  (forall p v, page_layout s !! p = Some v -> length v = kMaxElemInAPage) ->
  forall p v, page_layout (set_loc2id g l id s) !! p = Some v -> length v = kMaxElemInAPage.
Proof.
  intros H p v. unfold set_loc2id. simpl. rewrite upsert_lookup. case_decide as E; [|apply H].
  intros [= <-]. destruct (page_layout s !! loc_page g l) eqn:E'; rewrite length_insert.
  - by eapply H.
  - pose proof nps_le_arr.
    by apply (init_slots_spec page_arr_zero (Z.to_nat nps)).
Qed.

Lemma set_loc2id_keys s l id p :
  is_Some (page_layout (set_loc2id g l id s) !! p) <-> p = loc_page g l \/ is_Some (page_layout s !! p).
Proof.
  unfold set_loc2id. simpl. rewrite upsert_lookup. case_decide; subst; [|naive_solver].
  split; [by left | intros _; by eexists].
Qed.

Lemma set_loc2id_lookup s l id l' :
  (forall p v, page_layout s !! p = Some v -> length v = kMaxElemInAPage) ->
  loc_ok l -> loc_ok l' ->
  loc2id g (set_loc2id g l id s) l' = if decide (l' = l) then u32 id else loc2id g s l'.
Proof.
  intros Hlen Hl Hl'. rewrite !loc2id_page. unfold set_loc2id. simpl. rewrite upsert_lookup.
  pose proof nps_le_arr. pose proof (loc_slot_lt l Hl). pose proof (loc_slot_lt l' Hl').
  destruct (init_slots_spec page_arr_zero (Z.to_nat nps)) as [Hil Hi]; [done|].
  case_decide as Ep.
  - assert (E : l' = l <-> loc_slot g l = loc_slot g l').
    { split; [by intros ->|]. intros. by apply loc_eq. }
    rewrite Ep. destruct (page_layout s !! loc_page g l) as [v|] eqn:Ev.
    + rewrite lookup_total_insert_Z by (rewrite (Hlen _ _ Ev); lia).
      destruct (decide (l' = l)), (decide (loc_slot g l = loc_slot g l')); naive_solver.
    + rewrite lookup_total_insert_Z by (unfold slots; rewrite Hil; simpl; unfold kMaxElemInAPage in *; lia).
      unfold slots. rewrite Hi.
      destruct (decide (l' = l)), (decide (loc_slot g l = loc_slot g l')),
        (decide (loc_slot g l' < Z.to_nat nps)%nat); naive_solver.
  - destruct (decide (l' = l)) as [->|]; [done|]. done.
Qed.

Lemma loc2id_fresh s l : alloc_inv s -> loc_ok l -> cur_loc s <= l -> loc2id g s l = kInvalidID.
Proof.
  intros Hs Hl Hc. rewrite loc2id_page. destruct (page_layout s !! loc_page g l) eqn:E; [|done].
  pose proof (inv_pages s Hs _ (mk_is_Some _ _ E)) as [_ Hp].
  rewrite loc_page_eq in Hp by done. pose proof (nps_range g Hg).
  pose proof (Z.div_le_mono (cur_loc s) l nps). lia.
Qed.

Lemma align_loc_spec l :
  0 <= l < 2 ^ 32 -> align_loc g l mod nps = 0 /\ l <= align_loc g l < l + nps.
Proof.
  intros Hl. pose proof (nps_range g Hg). pose proof (Z.mod_pos_bound l nps).
  unfold align_loc. destruct (Z.eqb_spec (l mod nps) 0); [lia|].
  rewrite u64_small by lia. split; [|lia].
  replace (l + (nps - l mod nps)) with ((l / nps + 1) * nps)
    by (pose proof (Z.div_mod l nps); lia).
  by apply Z.mod_mul; lia.
Qed.

(** *** Rule #3 *)
Lemma reserve_new_locs s (k : nat) :
  alloc_inv s -> cur_loc s + Z.of_nat k < 2 ^ 32 - 1 ->
  let s' := foldl (fun s l => set_loc2id g l kAllocatedID s) s
              ((fun i : nat => u64 (cur_loc s + Z.of_nat i)) <$> seq 0 k) in
  reserves s ((fun i : nat => u64 (cur_loc s + Z.of_nat i)) <$> seq 0 k) s' /\
  (forall p v, page_layout s' !! p = Some v -> length v = kMaxElemInAPage) /\
  (forall p, is_Some (page_layout s' !! p) ->
    is_Some (page_layout s !! p) \/
    exists l, cur_loc s <= l < cur_loc s + Z.of_nat k /\ p = 1 + l / nps) /\
  (forall p, is_Some (page_layout s !! p) -> is_Some (page_layout s' !! p)) /\
  empty_pages s' = empty_pages s /\ cur_loc s' = cur_loc s.
Proof.
  intros Hs. induction k as [|k IH]; intros Hk; cbv zeta.
  { split_and!; try done; [by apply reserves_nil | apply Hs | by left]. }
  pose proof (inv_frontier s Hs).
  destruct IH as (Hr & Hlen & Hkeys & Hkeep & Hq & Hc); [lia|].
  rewrite seq_S, fmap_app, foldl_app. simpl. rewrite (u64_small (_ + Z.of_nat k)) by lia.
  set (s1 := foldl _ _ _) in *. set (l := cur_loc s + Z.of_nat k) in *.
  assert (Hl : loc_ok l) by (unfold loc_ok; lia).
  assert (Hfree : loc2id g s1 l = kInvalidID).
  { rewrite (res_frame _ _ _ Hr) by done. case_decide as Hin.
    - apply list_elem_of_fmap in Hin as (i & E & Hi%elem_of_seq).
      rewrite u64_small in E by lia. lia.
    - apply loc2id_fresh; [done | done | lia]. }
  split_and!; try done.
  - eapply reserves_trans; [exact Hr|]. split.
    + apply NoDup_singleton.
    + intros l' ->%list_elem_of_singleton. done.
    + intros l' Hl'. rewrite set_loc2id_lookup by done. rewrite u32_small by (unfold kAllocatedID; lia).
      destruct (decide (l' = l)), (decide (l' ∈ [l])); set_solver.
  - by apply set_loc2id_lens.
  - intros p [->|Hp]%set_loc2id_keys.
    + right. exists l. split; [lia | by apply loc_page_eq].
    + destruct (Hkeys p Hp) as [?|(l' & ? & ?)]; [by left | right; exists l'; split; [lia | done]].
  - intros p Hp. apply set_loc2id_keys. auto.
Qed.

Lemma alloc_new_spec s (rem : Z) ret :
  alloc_inv s -> empty_pages s = [] -> 0 < rem -> cur_loc s + rem + nps < 2 ^ 32 ->
  exists s' new,
    alloc_new g rem s ret = (s', ret ++ new) /\ Z.of_nat (length new) = rem /\
    reserves s new s' /\ alloc_inv s' /\
    (forall l, l ∈ new -> ~ page_live s (loc_page g l)) /\
    cur_loc s + rem <= cur_loc s' < cur_loc s + rem + nps.
Proof.
  intros Hs Hq Hrem Hb. pose proof (nps_range g Hg). pose proof (inv_frontier s Hs).
  destruct (reserve_new_locs s (Z.to_nat rem) Hs ltac:(lia)) as (Hr & Hlen & Hkeys & Hkeep & Hq' & Hc).
  unfold alloc_new. rewrite (u64_small (cur_loc s + rem)) by lia.
  destruct (align_loc_spec (cur_loc s + rem)) as [Ha1 Ha2]; [lia|].
  eexists _, _. split; [done|]. split; [rewrite length_fmap, length_seq; lia|].
  split; [eapply reserves_layout; [exact Hr | done | done]|]. simpl.
  split; [|split; [|exact Ha2]].
  2: { intros l (i & -> & Hi%elem_of_seq)%list_elem_of_fmap (l' & Hok & Hp & Hl').
       apply Hl', loc2id_fresh; [done | done |].
       rewrite u64_small in Hp by lia. rewrite !loc_page_eq in Hp by (done || (split; lia)).
       assert (cur_loc s / nps <= l' / nps).
       { pose proof (Z.div_le_mono (cur_loc s) (cur_loc s + Z.of_nat i) nps). lia. }
       pose proof (Z.div_mod (cur_loc s) nps) as E. rewrite (inv_aligned s Hs) in E.
       pose proof (Z.div_mod l' nps). pose proof (Z.mod_pos_bound l' nps). nia. }
  split; simpl; [done | | by rewrite Hq', Hq; apply NoDup_nil_2 | | done | lia].
  - intros p Hp. destruct (Hkeys p Hp) as [Hp'|(l & Hl & ->)].
    + pose proof (inv_pages s Hs p Hp').
      pose proof (Z.div_le_mono (cur_loc s) (align_loc g (cur_loc s + rem)) nps). lia.
    + pose proof (Z.div_pos l nps). split; [lia|].
      pose proof (Z.div_mod (align_loc g (cur_loc s + rem)) nps) as E. rewrite Ha1 in E.
      assert (l / nps < align_loc g (cur_loc s + rem) / nps); [|lia].
      apply Z.div_lt_upper_bound; lia.
  - rewrite Hq', Hq. set_solver.
Qed.

(** *** [alloc_loc] and [alloc_loc_compact] as a whole *)

(** What a call that asks for [n] locations promises. *)
Record alloc_post n s ret (need' : gset Z) s' : Prop := {
  ap_len : Z.of_nat (length ret) = n;
  ap_res : reserves s ret s';
  ap_inv : alloc_inv s';
  ap_read : forall l, l ∈ ret -> page_live s (loc_page g l) -> loc_page g l ∈ need';
  ap_loc : cur_loc s <= cur_loc s' < cur_loc s + n + nps;
}.

Lemma alloc_post_empty n s need s1 new1 cur1 :
  reserves s new1 s1 -> alloc_inv s1 -> cur_loc s1 = cur_loc s ->
  (forall l, l ∈ new1 -> ~ page_live s (loc_page g l)) ->
  cur1 = 0 + Z.of_nat (length new1) -> cur1 = n -> 0 < n -> alloc_post n s new1 need s1.
Proof.
  intros Hr Hi Hl Hd Hc Hn Hpos. pose proof (nps_range g Hg).
  split; [lia | done | done | naive_solver | lia].
Qed.

Lemma hint_post_prefix n s need s1 new1 cur1 s2 need2 new2 cur2 b :
  reserves s new1 s1 -> cur_loc s1 = cur_loc s ->
  (forall l, l ∈ new1 -> ~ page_live s (loc_page g l)) ->
  cur1 = 0 + Z.of_nat (length new1) ->
  hint_post n s1 need cur1 s2 need2 new2 cur2 b ->
  hint_post n s need 0 s2 need2 (new1 ++ new2) cur2 b.
Proof.
  intros Hr Hl Hd Hc Hp. eapply hint_post_step; [done | done | done | | done | done].
  intros l Hin Hpl. by destruct (Hd l Hin).
Qed.

Lemma alloc_post_hint n s need s2 need2 ret cur2 :
  0 < n -> hint_post n s need 0 s2 need2 ret cur2 true -> alloc_post n s ret need2 s2.
Proof.
  intros Hn [Hr Hi Hl Hq Hnd Hd Hc]. pose proof (nps_range g Hg).
  split; [lia | done | done | done | lia].
Qed.

Lemma alloc_post_new n s need s2 need2 ret cur2 s3 new3 :
  hint_post n s need 0 s2 need2 ret cur2 false ->
  Z.of_nat (length new3) = n - cur2 -> reserves s2 new3 s3 -> alloc_inv s3 ->
  (forall l, l ∈ new3 -> ~ page_live s2 (loc_page g l)) ->
  cur_loc s2 + (n - cur2) <= cur_loc s3 < cur_loc s2 + (n - cur2) + nps ->
  alloc_post n s (ret ++ new3) need2 s3.
Proof.
  intros [Hr Hi Hl Hq Hnd Hd Hc] Hlen Hr3 Hi3 Hd3 Hf3.
  split; [rewrite length_app; lia | by eapply reserves_trans | done | | lia].
  intros l [Hin|Hin]%elem_of_app Hpl; [auto|]. destruct (Hd3 l Hin). by eapply reserves_page_live.
Qed.

Lemma alloc_loc_spec n hints need s :
  alloc_inv s -> 0 < n -> Forall (fun p => 0 <= p < 2 ^ 32) hints ->
  cur_loc s + n + nps < 2 ^ 32 ->
  exists ret need' s',
    alloc_loc g ann_large n hints need s = Ok (ret, need', s') /\ alloc_post n s ret need' s'.
Proof.
  intros Hs Hn Hh Hb. unfold alloc_loc.
  destruct (alloc_empty_pages_spec n (empty_pages s) s [] 0)
    as (s1 & new1 & cur1 & b1 & -> & Hr1 & Hi1 & Hl1 & Hd1 & Hc1 & Hle1 & Hb1); [by destruct s | done |].
  cbn [mbind outcome_bind app]. destruct b1.
  { exists new1, need, s1. split; [done | by eapply alloc_post_empty]. }
  destruct Hb1 as [Hlt1 Hq1].
  destruct (alloc_hint_pages_spec n hints s1 need new1 cur1 Hi1 Hq1 Hh Hlt1)
    as (s2 & need2 & new2 & cur2 & b2 & -> & Hpost). cbn [mbind outcome_bind].
  pose proof (hint_post_prefix _ _ _ _ _ _ _ _ _ _ _ Hr1 Hl1 Hd1 Hc1 Hpost) as Hpost'.
  destruct b2.
  { exists (new1 ++ new2), need2, s2. split; [done | by eapply alloc_post_hint]. }
  destruct Hpost as [_ Hi2 Hl2 Hq2 _ _ Hc2].
  destruct (alloc_new_spec s2 (n - cur2) (new1 ++ new2))
    as (s3 & new3 & -> & Hlen3 & Hr3 & Hi3 & Hd3 & Hf3); [done | done | lia | lia |].
  eexists _, need2, s3. split; [done | by eapply alloc_post_new].
Qed.

Lemma alloc_loc_compact_spec n hints need s :
  alloc_inv s -> 0 < n -> Forall (fun p => 0 <= p < 2 ^ 32) hints ->
  cur_loc s + n + nps < 2 ^ 32 ->
  exists ret hints' need' s',
    alloc_loc_compact g n hints need s = Ok (ret, hints', need', s') /\
    alloc_post n s ret need' s' /\ hints' ⊆ hints.
Proof.
  intros Hs Hn Hh Hb. unfold alloc_loc_compact.
  destruct (alloc_empty_pages_spec n (empty_pages s) s [] 0)
    as (s1 & new1 & cur1 & b1 & -> & Hr1 & Hi1 & Hl1 & Hd1 & Hc1 & Hle1 & Hb1); [by destruct s | done |].
  cbn [mbind outcome_bind app]. destruct b1.
  { exists new1, hints, need, s1. split; [done|]. split; [by eapply alloc_post_empty | done]. }
  destruct Hb1 as [Hlt1 Hq1].
  destruct (alloc_hint_pages_compact_spec n hints s1 need [] new1 cur1 Hi1 Hq1 Hh Hlt1)
    as (s2 & need2 & rm & new2 & cur2 & b2 & -> & Hpost). cbn [mbind outcome_bind].
  pose proof (hint_post_prefix _ _ _ _ _ _ _ _ _ _ _ Hr1 Hl1 Hd1 Hc1 Hpost) as Hpost'.
  assert (Hsub : remove_hint_pages rm hints ⊆ hints).
  { intros p Hp. by apply list_elem_of_filter in Hp as [_ Hp]. }
  destruct b2.
  { eexists (new1 ++ new2), _, need2, s2. split; [done|]. split; [by eapply alloc_post_hint | done]. }
  destruct Hpost as [_ Hi2 Hl2 Hq2 _ _ Hc2].
  destruct (alloc_new_spec s2 (n - cur2) (new1 ++ new2))
    as (s3 & new3 & -> & Hlen3 & Hr3 & Hi3 & Hd3 & Hf3); [done | done | lia | lia |].
  eexists _, _, need2, s3. split; [done|]. split; [by eapply alloc_post_new | done].
Qed.

(** *** Publishing and freeing *)

(** [set_loc2id] on a slot that is in use. *)
Lemma set_loc2id_inv s l id :
  alloc_inv s -> loc_ok l -> loc2id g s l <> kInvalidID -> alloc_inv (set_loc2id g l id s).
Proof.
  intros Hs Hl Hlive.
  assert (Hpage : is_Some (page_layout s !! loc_page g l)).
  { rewrite loc2id_page in Hlive. destruct (page_layout s !! _); [by eexists | done]. }
  assert (Hq : loc_page g l ∉ empty_pages s).
  { intros Hin. destruct (inv_queue s Hs _ Hin) as [_ H]. by apply Hlive, H. }
  split; try apply Hs.
  - apply set_loc2id_lens, Hs.
  - intros p [->|Hp]%set_loc2id_keys; by apply (inv_pages s Hs).
  - intros p Hp. destruct (inv_queue s Hs p Hp) as [Hsome Hall]. split.
    + apply set_loc2id_keys. by right.
    + intros l' Hl' E. rewrite set_loc2id_lookup by (done || apply Hs).
      case_decide as El; [|by apply Hall]. destruct Hq. by rewrite <- El, E.
Qed.

Lemma page_empty_iff s p v :
  alloc_inv s -> page_layout s !! p = Some v ->
  page_empty g v = true <->
  (forall l, loc_ok l -> loc_page g l = p -> loc2id g s l = kInvalidID).
Proof.
  intros Hs Hv. unfold page_empty. rewrite forallb_forall. split.
  - intros H l Hl Ep. rewrite loc2id_page, Ep, Hv. apply Z.eqb_eq, H.
    apply list_elem_of_In, elem_slots. by apply loc_slot_lt.
  - intros H i Hi%list_elem_of_In%elem_slots. apply Z.eqb_eq.
    destruct (page_bound s p Hs ltac:(eauto)) as [Hp1 Hp2].
    destruct (slot_loc_spec p i) as (Hok & Ep & Es); [done | lia | done |].
    specialize (H _ Hok Ep). by rewrite loc2id_page, Ep, Hv, Es in H.
Qed.

Lemma erase_loc2id_spec s l :
  alloc_inv s -> loc_ok l -> loc2id g s l <> kInvalidID ->
  alloc_inv (erase_loc2id g l s) /\
  (forall l', loc_ok l' -> loc2id g (erase_loc2id g l s) l'
                           = if decide (l' = l) then kInvalidID else loc2id g s l') /\
  cur_loc (erase_loc2id g l s) = cur_loc s.
Proof.
  intros Hs Hl Hlive. pose proof Hlive as Hlive'. rewrite loc2id_page in Hlive'.
  destruct (page_layout s !! loc_page g l) as [v|] eqn:Hv; [|done].
  set (v' := <[loc_slot g l := kInvalidID]> v).
  set (s1 := set_layout (<[loc_page g l := v']> (page_layout s)) s).
  assert (Hlen : length v = kMaxElemInAPage) by by apply (inv_len s Hs (loc_page g l)).
  pose proof (loc_slot_lt l Hl) as Hslot. pose proof nps_le_arr as Harr.
  assert (Hq : loc_page g l ∉ empty_pages s).
  { intros Hin. destruct (inv_queue s Hs _ Hin) as [_ H]. by apply Hlive, H. }
  assert (Hs1 : alloc_inv s1).
  { apply (alloc_inv_page s _ v); [done | done | by unfold v'; rewrite length_insert | done]. }
  assert (Hfr : forall l', loc_ok l' -> loc2id g s1 l' = if decide (l' = l) then kInvalidID else loc2id g s l').
  { intros l' Hl'. rewrite !loc2id_page. simpl. rewrite lookup_insert.
    case_decide as Ep; [|case_decide; [by subst | done]].
    rewrite <- Ep, Hv. unfold v'. rewrite lookup_total_insert_Z by lia.
    assert (l' = l <-> loc_slot g l = loc_slot g l')
      by (split; [by intros -> | intros; by apply loc_eq]).
    destruct (decide (l' = l)), (decide (loc_slot g l = loc_slot g l')); naive_solver. }
  assert (Hv1 : page_layout s1 !! loc_page g l = Some v') by apply lookup_insert_eq.
  unfold erase_loc2id, upsert_existing. rewrite Hv. fold v'. fold s1.
  destruct (page_empty g v') eqn:E; [|done].
  split; [|by split].
  destruct Hs1 as [I1 I2 I3 I4 I5 I6]. split; try done.
  - simpl. by apply NoDup_snoc.
  - intros p [Hp | ->%list_elem_of_singleton]%elem_of_app; [by apply I4|].
    split; [by eexists|]. by apply (page_empty_iff s1 (loc_page g l) v').
Qed.

Lemma set_locs_spec new ids s :
  alloc_inv s -> NoDup new -> length ids = length new ->
  (forall l, l ∈ new -> loc_ok l /\ loc2id g s l <> kInvalidID) ->
  (forall id, id ∈ ids -> 0 <= id < kInvalidID) ->
  let s' := foldl (fun s '(loc, id) => set_loc2id g loc id s) s (zip new ids) in
  alloc_inv s' /\ cur_loc s' = cur_loc s /\
  (forall i l id, new !! i = Some l -> ids !! i = Some id -> loc2id g s' l = id) /\
  (forall l, loc_ok l -> l ∉ new -> loc2id g s' l = loc2id g s l).
Proof.
  revert ids s. induction new as [|l new IH]; intros [|id ids] s Hs Hnd Hlen Hlive Hids; simpl;
    simplify_eq/=; [done|].
  apply NoDup_cons in Hnd as [Hl Hnd].
  destruct (Hlive l) as [Hok Hlv]; [set_solver|].
  assert (Hid : 0 <= id < kInvalidID) by (apply Hids; set_solver).
  assert (Hu : u32 id = id) by (apply u32_small; unfold kInvalidID in *; lia).
  destruct (IH ids (set_loc2id g l id s)) as (Hi & Hc & Hset & Hfr);
    [by apply set_loc2id_inv | done | done | | set_solver |].
  { intros l' Hl'. destruct (Hlive l') as [Hok' Hlv']; [set_solver|]. split; [done|].
    rewrite set_loc2id_lookup by (done || apply Hs). case_decide; [set_solver | done]. }
  split_and!; [done | done | |].
  - intros [|i] l' id' E1 E2; simpl in *; [|by eapply Hset]. simplify_eq.
    rewrite Hfr, set_loc2id_lookup by (done || apply Hs). by case_decide.
  - intros l' Hl' [Hn1 Hn2]%not_elem_of_cons. rewrite Hfr by done.
    rewrite set_loc2id_lookup by (done || apply Hs). by case_decide.
Qed.

Lemma erase_locs_spec old s :
  alloc_inv s -> NoDup old -> (forall l, l ∈ old -> loc_ok l /\ loc2id g s l <> kInvalidID) ->
  let s' := foldl (fun s l => erase_loc2id g l s) s old in
  alloc_inv s' /\ cur_loc s' = cur_loc s /\
  (forall l, loc_ok l -> loc2id g s' l = if decide (l ∈ old) then kInvalidID else loc2id g s l).
Proof.
  revert s. induction old as [|l old IH]; intros s Hs Hnd Hlive; simpl.
  { done. }
  apply NoDup_cons in Hnd as [Hl Hnd]. destruct (Hlive l) as [Hok Hlv]; [set_solver|].
  destruct (erase_loc2id_spec s l Hs Hok Hlv) as (Hs1 & Hfr1 & Hc1).
  destruct (IH (erase_loc2id g l s)) as (Hi & Hc & Hfr); [done | done | |].
  { intros l' Hl'. destruct (Hlive l') as [Hok' Hlv']; [set_solver|]. split; [done|].
    rewrite Hfr1 by done. case_decide; [set_solver | done]. }
  split_and!; [done | congruence |]. intros l' Hl'. rewrite Hfr, Hfr1 by done.
  destruct (decide (l' ∈ old)), (decide (l' = l)), (decide (l' ∈ l :: old)); set_solver.
Qed.

Lemma erase_and_set_loc_spec old new ids s :
  alloc_inv s -> NoDup old -> NoDup new -> length ids = length new -> old ## new ->
  (forall l, l ∈ old ++ new -> loc_ok l /\ loc2id g s l <> kInvalidID) ->
  (forall id, id ∈ ids -> 0 <= id < kInvalidID) ->
  let s' := erase_and_set_loc g old new ids s in
  alloc_inv s' /\ cur_loc s' = cur_loc s /\
  (forall i l id, new !! i = Some l -> ids !! i = Some id -> loc2id g s' l = id) /\
  (forall l, l ∈ old -> loc2id g s' l = kInvalidID) /\
  (forall l, loc_ok l -> l ∉ old -> l ∉ new -> loc2id g s' l = loc2id g s l).
Proof.
  intros Hs Ho Hn Hlen Hdisj Hlive Hids. unfold erase_and_set_loc. cbv zeta.
  destruct (set_locs_spec new ids s) as (Hi1 & Hc1 & Hset & Hfr1); [done..| | done |].
  { intros l Hl. apply Hlive. set_solver. }
  set (s1 := foldl _ s (zip new ids)) in *.
  destruct (erase_locs_spec old s1) as (Hi2 & Hc2 & Hfr2); [done | done | |].
  { intros l Hl. destruct (Hlive l) as [Hok Hlv]; [set_solver|]. split; [done|].
    rewrite Hfr1; [done | done | set_solver]. }
  split_and!; [done | congruence | | |].
  - intros i l id E1 E2. pose proof (list_elem_of_lookup_2 _ _ _ E1) as Hin.
    destruct (Hlive l) as [Hok _]; [set_solver|]. rewrite Hfr2 by done.
    case_decide; [set_solver | by eapply Hset].
  - intros l Hl. destruct (Hlive l) as [Hok _]; [set_solver|]. rewrite Hfr2 by done. by case_decide.
  - intros l Hok Hlo Hln. rewrite Hfr2 by done. case_decide; [done | by apply Hfr1].
Qed.

(** A slot in use is below the frontier. *)
Lemma live_below_frontier s l :
  alloc_inv s -> loc_ok l -> loc2id g s l <> kInvalidID -> l < cur_loc s.
Proof.
  intros Hs Hl Hlive. destruct (Z.lt_ge_cases l (cur_loc s)) as [?|H]; [done|].
  destruct Hlive. by apply loc2id_fresh.
Qed.
End alloc_facts.
#[export] Hint Resolve ap_len ap_res ap_inv res_nodup : ccann.

(** ** Properties *)

(** A geometry with four nodes of 1000 bytes in a sector, used by the examples. *)
Definition demo_geometry : geometry :=
  {| max_node_len := 1000; nnodes_per_sector := 4; data_dim := 128; sizeof_T := 4 |}.

Lemma demo_geometry_wf : geometry_wf demo_geometry.
Proof. split; unfold demo_geometry, kMaxElemInAPage, SECTOR_LEN; simpl; lia. Qed.

(** States with one page and an empty queue. *)
Definition one_page (v : PageArr) : alloc_state :=
  {| page_layout := {[1 := v]}; empty_pages := []; cur_loc := 4 |}.

Lemma one_page_inv v : length v = kMaxElemInAPage -> alloc_inv demo_geometry (one_page v).
Proof.
  intros Hl. split; simpl.
  - intros p w [<- <-]%lookup_singleton_Some. done.
  - intros p [w [<- <-]%lookup_singleton_Some]. change (4 / 4) with 1. lia.
  - apply NoDup_nil_2.
  - intros p Hp. set_solver.
  - done.
  - lia.
Qed.

(** A page with three holes. *)
Definition holey_page : alloc_state := one_page ([7] ++ replicate 15 kInvalidID).

(** C9. [alloc_loc] never reaches its [crash()] and always returns: from a state
    that satisfies the allocator invariant, with room for the new locations
    below [2^32], a request for [n] locations yields
    exactly [n] distinct locations that were free, marks exactly these as
    reserved, leaves every other slot as it was, keeps the invariant, and
    reports every page that already holds a node among the pages to read. *)
Theorem alloc_loc_safe g (ann_large : bool) n hints need s :
  geometry_wf g -> alloc_inv g s -> 0 < n ->
  Forall (fun p => 0 <= p < 2 ^ 32) hints ->
  cur_loc s + n + nnodes_per_sector g < 2 ^ 32 ->
  exists ret need' s',
    alloc_loc g ann_large n hints need s = Ok (ret, need', s') /\ alloc_post g n s ret need' s'.
Proof. intros Hg. by apply alloc_loc_spec. Qed.

Lemma alloc_loc_safe_witness : exists ret need' s',
  alloc_loc demo_geometry false 6 [1] ∅ holey_page = Ok (ret, need', s') /\
  alloc_post demo_geometry 6 holey_page ret need' s'.
Proof.
  apply (alloc_loc_safe demo_geometry false 6 [1] ∅ holey_page);
    [apply demo_geometry_wf | by apply one_page_inv | lia | repeat constructor; lia | simpl; lia].
Defined.

(** The same for [alloc_loc_compact], which recovery uses: it does not
    crash, returns exactly the requested number of free locations, and only
    shrinks the list of hint pages. *)
Theorem alloc_loc_compact_safe g n hints need s :
  geometry_wf g -> alloc_inv g s -> 0 < n ->
  Forall (fun p => 0 <= p < 2 ^ 32) hints ->
  cur_loc s + n + nnodes_per_sector g < 2 ^ 32 ->
  exists ret hints' need' s',
    alloc_loc_compact g n hints need s = Ok (ret, hints', need', s') /\
    alloc_post g n s ret need' s' /\ hints' ⊆ hints.
Proof. intros Hg. by apply alloc_loc_compact_spec. Qed.

Lemma alloc_loc_compact_safe_witness : exists ret hints' need' s',
  alloc_loc_compact demo_geometry 6 [1] ∅ holey_page = Ok (ret, hints', need', s') /\
  alloc_post demo_geometry 6 holey_page ret need' s' /\ hints' ⊆ [1].
Proof.
  apply (alloc_loc_compact_safe demo_geometry 6 [1] ∅ holey_page);
    [apply demo_geometry_wf | by apply one_page_inv | lia | repeat constructor; lia | simpl; lia].
Defined.

(** [erase_and_set_loc] records the identifiers at the new locations, frees
    the old ones, touches nothing else and keeps the allocator invariant; a
    page is queued as empty exactly once, when its last node leaves it. *)
Theorem erase_and_set_loc_correct g old new ids s :
  geometry_wf g -> alloc_inv g s -> NoDup old -> NoDup new ->
  length ids = length new -> old ## new ->
  (forall l, l ∈ old ++ new -> loc_ok l /\ loc2id g s l <> kInvalidID) ->
  (forall id, id ∈ ids -> 0 <= id < kInvalidID) ->
  let s' := erase_and_set_loc g old new ids s in
  alloc_inv g s' /\ cur_loc s' = cur_loc s /\
  (forall i l id, new !! i = Some l -> ids !! i = Some id -> loc2id g s' l = id) /\
  (forall l, l ∈ old -> loc2id g s' l = kInvalidID) /\
  (forall l, loc_ok l -> l ∉ old -> l ∉ new -> loc2id g s' l = loc2id g s l).
Proof. intros Hg. by apply erase_and_set_loc_spec. Qed.

(** Node 7 moves from location 0 to the reserved location 1. *)
Lemma erase_and_set_loc_witness :
  let s := one_page ([7; kAllocatedID] ++ replicate 14 kInvalidID) in
  let s' := erase_and_set_loc demo_geometry [0] [1] [7] s in
  alloc_inv demo_geometry s' /\ cur_loc s' = cur_loc s /\
  (forall i l id, [1] !! i = Some l -> [7] !! i = Some id -> loc2id demo_geometry s' l = id) /\
  (forall l, l ∈ [0] -> loc2id demo_geometry s' l = kInvalidID) /\
  (forall l, loc_ok l -> l ∉ [0] -> l ∉ [1] -> loc2id demo_geometry s' l = loc2id demo_geometry s l).
Proof.
  apply (erase_and_set_loc_correct demo_geometry [0] [1] [7]);
    [apply demo_geometry_wf | by apply one_page_inv | apply NoDup_singleton | apply NoDup_singleton
    | done | set_solver | |].
  - intros l. simpl app. rewrite !elem_of_cons, elem_of_nil. unfold loc_ok.
    intros [->|[->|[]]]; (split; [lia|]); intros E; vm_compute in E; discriminate E.
  - intros id ->%list_elem_of_singleton. unfold kInvalidID. lia.
Defined.

(** [alloc_loc_compact] drops a page from the hint list although two of its
    four slots are still free, and keeps a page all of whose slots it has just
    taken: the test [cnt + (n - cur) >= nnodes_per_sector] is not the test
    "this allocation allocates the entire page" of its comment. *)
Theorem compact_hint_removal_is_wrong :
  (exists s, alloc_loc_compact demo_geometry 1 [1] ∅ holey_page = Ok ([1], [], {[1]}, s)
             /\ loc2id demo_geometry s <$> [2; 3] = [kInvalidID; kInvalidID]) /\
  (exists s, alloc_loc_compact demo_geometry 1 [1] ∅
               (one_page ([7; 8; 9] ++ replicate 13 kInvalidID)) = Ok ([3], [1], {[1]}, s)
             /\ loc2id demo_geometry s <$> [0; 1; 2; 3] = [7; 8; 9; kAllocatedID]).
Proof. split; eexists; split; vm_compute; reflexivity. Qed.
