(* ===== verification/Mapping.v ===== *)
(** * The identifier map and its agreement with the allocator

    [id2loc_] maps a vector identifier to the location of its current version
    and [page_layout] maps a location back to the identifier
    ([include/ssd_index.h]).  [load_page_layout] ([src/search/page_search.cpp])
    builds both when an index is opened; the last part of an insertion
    ([src/update/direct_insert.cpp]) switches the identifiers of the target
    and of its neighbours to the locations reserved for them.  [verify_id2loc]
    is the program's own consistency check. *)
From S2P Require Import Prelude Cuckoo Layout PageAlloc.
Import Cuckoo.

Record map_state := {
  id2loc_ : gmap Z Z;
  alloc_ : alloc_state;
  (** pending updates of the persistent location table *)
  id2loc_pm_queue : list (Z * Z);
}.

Definition set_id2loc (m : gmap Z Z) (st : map_state) : map_state :=
  {| id2loc_ := m; alloc_ := alloc_ st; id2loc_pm_queue := id2loc_pm_queue st |}.
Definition set_alloc (a : alloc_state) (st : map_state) : map_state :=
  {| id2loc_ := id2loc_ st; alloc_ := a; id2loc_pm_queue := id2loc_pm_queue st |}.

Section mapping.
Variable g : geometry.

Definition id2loc (st : map_state) (id : Z) : outcome Z :=
  match find id (id2loc_ st) with Some loc => Ok loc | None => Crash end.

Definition id2loc_insert_or_assign (id loc : Z) (st : map_state) : map_state :=
  {| id2loc_ := insert_or_assign id loc (id2loc_ st);
     alloc_ := alloc_ st;
     id2loc_pm_queue := id2loc_pm_queue st ++ [(id, loc)] |}.

Definition id2page (st : map_state) (id : Z) : outcome Z :=
  loc ← id2loc st id;
  Ok (if loc =? kInvalidID then kInvalidID else loc_sector_no g loc).

(** The loop that records the old locations of the neighbours and switches
    them to the new ones, with the persistent table updated later by the
    commit thread ([FINE_GRAINED_CONCURRENCY]). *)
Fixpoint switch_neighbors (nhood locs : list Z) (st : map_state) (orig : list Z)
  : outcome (map_state * list Z) :=
  match nhood, locs with
  | id :: nhood, loc :: locs =>
      old ← id2loc st id;
      switch_neighbors nhood locs (id2loc_insert_or_assign id (u32 loc) st) (orig ++ [old])
  | _, _ => Ok (st, orig)
  end.

(** Publication of one insertion: [locs] has one location per neighbour and,
    last, the one of the target. *)
Definition publish (target_id : Z) (new_nhood locs : list Z) (st : map_state)
  : outcome map_state :=
  let target_loc := locs !!! length new_nhood in
  let st := set_id2loc (insert_or_assign target_id (u32 target_loc) (id2loc_ st)) st in
  '(st, orig_locs) ← switch_neighbors new_nhood locs st [];
  Ok (set_alloc (erase_and_set_loc g orig_locs locs (new_nhood ++ [target_id]) (alloc_ st)) st).

(** The check loop of [verify_id2loc] over the identifiers [0 .. cur_id - 1]. *)
Definition verify_id2loc (st : map_state) (cur_id : nat) : outcome unit :=
  foldM (fun i (_ : unit) =>
           loc ← id2loc st (Z.of_nat i);
           if cur_loc (alloc_ st) <=? loc then Crash
           else if loc2id g (alloc_ st) loc =? Z.of_nat i then Ok tt else Crash)
    (seq 0 cur_id) tt.

(** One page of the equal mapping that [load_page_layout] builds when there
    is no partition file. *)
Definition equal_page (num_points : Z) (i : nat) : PageArr :=
  (fun j : nat =>
     if bool_decide (j < Z.to_nat (nnodes_per_sector g))%nat then
       let id := Z.of_nat i * nnodes_per_sector g + Z.of_nat j in
       if id <? num_points then u32 id else kInvalidID
     else kInvalidID) <$> seq 0 kMaxElemInAPage.

Definition load_page_layout (num_points : Z) (st : map_state) : map_state :=
  let nps := nnodes_per_sector g in
  let ids := foldl (fun m (i : nat) => insert_or_assign (u32 (Z.of_nat i)) (u32 (Z.of_nat i)) m)
               (id2loc_ st) (seq 0 (Z.to_nat num_points)) in
  let num_sectors := u64 (num_points + nps - 1) / nps in
  let pages := foldl (fun m (i : nat) =>
                 insert_new (u32 (Z.of_nat i + loc_sector_no g 0)) (equal_page num_points i) m)
                 (page_layout (alloc_ st)) (seq 0 (Z.to_nat num_sectors)) in
  let end_loc := if num_points mod nps =? 0 then num_points
                 else u64 (num_points + (nps - num_points mod nps)) in
  {| id2loc_ := ids;
     alloc_ := {| page_layout := pages; empty_pages := empty_pages (alloc_ st); cur_loc := end_loc |};
     id2loc_pm_queue := id2loc_pm_queue st |}.
End mapping.

(** ** The agreement of the two maps *)
Section mapping_facts.
Context (g : geometry) (Hg : geometry_wf g).
Implicit Types (st : map_state).

(** Every identifier has its own location, the location knows the
    identifier, and a location that names an identifier is the current one
    of that identifier. *)
Record index_inv st : Prop := {
  ii_alloc : alloc_inv g (alloc_ st);
  ii_fwd : forall id loc, id2loc_ st !! id = Some loc ->
    0 <= id < kAllocatedID /\ loc_ok loc /\ loc2id g (alloc_ st) loc = id;
  ii_bwd : forall loc id, loc_ok loc -> loc2id g (alloc_ st) loc = id ->
    id <> kInvalidID -> id <> kAllocatedID -> id2loc_ st !! id = Some loc;
}.

Lemma id2loc_inj st id1 id2 loc :
  index_inv st -> id2loc_ st !! id1 = Some loc -> id2loc_ st !! id2 = Some loc -> id1 = id2.
Proof.
  intros Hst H1 H2. destruct (ii_fwd st Hst _ _ H1) as (_ & _ & <-).
  by destruct (ii_fwd st Hst _ _ H2) as (_ & _ & <-).
Qed.

Lemma id2loc_live st id loc :
  index_inv st -> id2loc_ st !! id = Some loc -> loc2id g (alloc_ st) loc <> kInvalidID.
Proof.
  intros Hst H. destruct (ii_fwd st Hst _ _ H) as (? & _ & ->).
  unfold kInvalidID, kAllocatedID in *. lia.
Qed.

(** What the switching loop does to the identifier map. *)
Lemma switch_neighbors_spec nhood locs st orig :
  NoDup nhood -> (length nhood <= length locs)%nat ->
  (forall l, l ∈ locs -> loc_ok l) ->
  (forall id, id ∈ nhood -> is_Some (id2loc_ st !! id)) ->
  exists st' old,
    switch_neighbors nhood locs st orig = Ok (st', orig ++ old) /\
    alloc_ st' = alloc_ st /\
    Forall2 (fun id l => id2loc_ st !! id = Some l) nhood old /\
    (forall i id l, nhood !! i = Some id -> locs !! i = Some l -> id2loc_ st' !! id = Some l) /\
    (forall id, id ∉ nhood -> id2loc_ st' !! id = id2loc_ st !! id) /\
    id2loc_pm_queue st' = id2loc_pm_queue st ++ zip nhood locs.
Proof.
  revert locs st orig. induction nhood as [|id nhood IH]; intros [|l locs] st orig Hnd Hlen Hok Hin;
    simpl in *; try lia.
  1,2: exists st, []; rewrite !app_nil_r; split_and!; done || constructor.
  apply NoDup_cons in Hnd as [Hni Hnd].
  destruct (Hin id) as [old Hold]; [set_solver|].
  unfold id2loc, find, find_fn. rewrite Hold. simpl.
  assert (Hl : u32 l = l) by (destruct (Hok l) as [? ?]; [set_solver|]; apply u32_small; lia).
  unfold id2loc_insert_or_assign. rewrite Hl, insert_or_assign_eq.
  set (st1 := {| id2loc_ := _ |}).
  assert (Hne : forall id', id' ∈ nhood -> id2loc_ st1 !! id' = id2loc_ st !! id').
  { intros id' Hid'. simpl. rewrite lookup_insert_ne; [done | set_solver]. }
  destruct (IH locs st1 (orig ++ [old])) as (st' & olds & -> & Ha & Hf & Hset & Hfr & Hq);
    [done | lia | set_solver | |].
  { intros id' Hid'. rewrite Hne by done. apply Hin. set_solver. }
  exists st', (old :: olds). rewrite <- app_assoc. split_and!; [done | done | | | |].
  - constructor; [done|]. eapply Forall2_impl_elem; [exact Hf|].
    intros id' l' Hid' _ E. rewrite <- E. symmetry. by apply Hne.
  - intros [|i] id' l' E1 E2; simpl in *; [|by eapply Hset]. simplify_eq.
    rewrite Hfr by done. apply lookup_insert_eq.
  - intros id' [Hn1 Hn2]%not_elem_of_cons. rewrite Hfr by done. simpl. by rewrite lookup_insert_ne.
  - rewrite Hq. simpl. by rewrite <- app_assoc.
Qed.

(** The old locations are distinct, in use, and named by the neighbours. *)
Lemma old_locs_spec st nhood old :
  index_inv st -> NoDup nhood ->
  Forall2 (fun id l => id2loc_ st !! id = Some l) nhood old ->
  NoDup old /\ (forall l, l ∈ old -> loc_ok l /\ loc2id g (alloc_ st) l ∈ nhood).
Proof.
  intros Hst Hnd Hf. split.
  - induction Hf as [|id l nhood old Hid Hf IH]; [apply NoDup_nil_2|].
    apply NoDup_cons in Hnd as [Hni Hnd]. apply NoDup_cons. split; [|auto].
    intros Hl. destruct (Forall2_elem_r _ _ _ _ Hf Hl) as (id' & Hid' & E).
    by rewrite (id2loc_inj st id id' l Hst Hid E) in Hni.
  - intros l Hl. destruct (Forall2_elem_r _ _ _ _ Hf Hl) as (id & Hid & E).
    by destruct (ii_fwd st Hst _ _ E) as (_ & ? & ->).
Qed.

(** The state between reservation and publication: the invariant, and a
    reserved location for the target and for every neighbour. *)
Record ready st (target_id : Z) (nhood locs : list Z) : Prop := {
  rd_inv : index_inv st;
  rd_nhood : NoDup nhood;
  rd_target : 0 <= target_id < kAllocatedID /\ id2loc_ st !! target_id = None;
  rd_known : forall id, id ∈ nhood -> is_Some (id2loc_ st !! id);
  rd_len : length locs = S (length nhood);
  rd_locs : NoDup locs;
  rd_reserved : forall l, l ∈ locs -> loc_ok l /\ loc2id g (alloc_ st) l = kAllocatedID;
}.

(** [switched st nhood' locs old st']: identifiers [nhood'] moved to [locs],
    the locations [old] were given up, nothing else changed. *)
Record switched st (ids locs old : list Z) st' : Prop := {
  sw_alloc : alloc_inv g (alloc_ st');
  sw_map : forall i id l, ids !! i = Some id -> locs !! i = Some l -> id2loc_ st' !! id = Some l;
  sw_other : forall id, id ∉ ids -> id2loc_ st' !! id = id2loc_ st !! id;
  sw_new : forall i l id, locs !! i = Some l -> ids !! i = Some id -> loc2id g (alloc_ st') l = id;
  sw_gone : forall l, l ∈ old -> loc2id g (alloc_ st') l = kInvalidID;
  sw_frame : forall l, loc_ok l -> l ∉ old -> l ∉ locs ->
    loc2id g (alloc_ st') l = loc2id g (alloc_ st) l;
}.

Lemma ready_ids st target_id nhood locs id :
  ready st target_id nhood locs -> id ∈ nhood ++ [target_id] -> 0 <= id < kAllocatedID.
Proof.
  intros [Hst _ [Ht _] Hknown _ _ _] [Hid| ->%list_elem_of_singleton]%elem_of_app; [|done].
  destruct (Hknown id Hid) as [l E]. by destruct (ii_fwd st Hst _ _ E).
Qed.

(** Moving identifiers keeps the two maps in agreement: [kept] were known,
    [fresh] were not. *)
Lemma index_inv_moved st kept fresh locs old st' :
  index_inv st -> NoDup kept -> Forall2 (fun id l => id2loc_ st !! id = Some l) kept old ->
  (forall id, id ∈ fresh -> 0 <= id < kAllocatedID /\ id2loc_ st !! id = None) ->
  length locs = length (kept ++ fresh) ->
  (forall l, l ∈ locs -> loc_ok l /\ loc2id g (alloc_ st) l = kAllocatedID) ->
  switched st (kept ++ fresh) locs old st' -> index_inv st'.
Proof.
  intros Hst Hnd Hold Hfresh Hlen Hres [Ha Hmap Hother Hnew Hgone Hframe].
  destruct (old_locs_spec st kept old Hst Hnd Hold) as [_ Holive].
  assert (Hidx : forall i, is_Some ((kept ++ fresh) !! i) <-> is_Some (locs !! i))
    by (intros i; rewrite !lookup_lt_is_Some; lia).
  assert (Hids : forall id, id ∈ kept ++ fresh -> 0 <= id < kAllocatedID).
  { intros id [Hid|Hid]%elem_of_app; [|by apply Hfresh].
    destruct (Forall2_elem_l _ _ _ _ Hold Hid) as (l & _ & E). by destruct (ii_fwd st Hst _ _ E). }
  split; [done | |].
  - intros id l E. destruct (decide (id ∈ kept ++ fresh)) as [Hin|Hin].
    + split; [by apply Hids|]. apply list_elem_of_lookup in Hin as [i Hi].
      destruct (proj1 (Hidx i) (mk_is_Some _ _ Hi)) as [l' Hl'].
      rewrite (Hmap i id l' Hi Hl') in E. simplify_eq.
      split; [apply Hres; by eapply list_elem_of_lookup_2 | by eapply Hnew].
    + rewrite Hother in E by done. destruct (ii_fwd st Hst _ _ E) as (Hr & Hok & El).
      split_and!; [lia | lia | done |]. rewrite Hframe; [done | done | |].
      * intros Hl. destruct (Holive l Hl) as [_ H']. rewrite El in H'. set_solver.
      * intros Hl. destruct (Hres l Hl) as [_ E']. lia.
  - intros l id Hok E Hn1 Hn2. destruct (decide (l ∈ locs)) as [Hl|Hl].
    + apply list_elem_of_lookup in Hl as [i Hi].
      destruct (proj2 (Hidx i) (mk_is_Some _ _ Hi)) as [id' Hid'].
      rewrite (Hnew i l id' Hi Hid') in E. subst. by eapply Hmap.
    + destruct (decide (l ∈ old)) as [Hlo|Hlo]; [by rewrite Hgone in E|].
      rewrite Hframe in E by done. pose proof (ii_bwd st Hst l id Hok E Hn1 Hn2) as E'.
      rewrite Hother; [done|]. intros [Hin|Hin]%elem_of_app.
      * destruct Hlo. destruct (Forall2_elem_l _ _ _ _ Hold Hin) as (l' & Hl' & E2). by simplify_eq.
      * destruct (Hfresh id Hin). congruence.
Qed.

(** Switching keeps the two maps in agreement. *)
Lemma index_inv_switched st target_id nhood locs old st' :
  ready st target_id nhood locs ->
  Forall2 (fun id l => id2loc_ st !! id = Some l) nhood old ->
  switched st (nhood ++ [target_id]) locs old st' -> index_inv st'.
Proof.
  intros [Hst Hnd Ht _ Hlen _ Hres] Hold Hsw.
  eapply (index_inv_moved st nhood [target_id]); [done..| | | done | done].
  - by intros id ->%list_elem_of_singleton.
  - rewrite length_app, Hlen. simpl. lia.
Qed.

(** The allocator side of a publication. *)
Lemma publish_alloc_spec st target_id nhood locs old :
  ready st target_id nhood locs ->
  Forall2 (fun id l => id2loc_ st !! id = Some l) nhood old ->
  let a' := erase_and_set_loc g old locs (nhood ++ [target_id]) (alloc_ st) in
  alloc_inv g a' /\ cur_loc a' = cur_loc (alloc_ st) /\
  (forall i l id, locs !! i = Some l -> (nhood ++ [target_id]) !! i = Some id -> loc2id g a' l = id) /\
  (forall l, l ∈ old -> loc2id g a' l = kInvalidID) /\
  (forall l, loc_ok l -> l ∉ old -> l ∉ locs -> loc2id g a' l = loc2id g (alloc_ st) l).
Proof.
  intros Hrd Hold. pose proof Hrd as [Hst Hnd _ _ Hlen Hlocs Hres].
  destruct (old_locs_spec st nhood old Hst Hnd Hold) as [Hond Holive].
  assert (Hids : forall id, id ∈ nhood -> 0 <= id < kAllocatedID)
    by (intros id Hid; eapply ready_ids; [done | set_solver]).
  assert (Hdisj : old ## locs).
  { intros l Hlo Hln. destruct (Holive l Hlo) as [_ Hin]. destruct (Hres l Hln) as [_ E].
    rewrite E in Hin. pose proof (Hids _ Hin). lia. }
  apply (erase_and_set_loc_spec g Hg); [apply Hst | done | done | | done | |].
  - rewrite length_app. simpl. lia.
  - intros l [Hl|Hl]%elem_of_app.
    + destruct (Holive l Hl) as [Hok Hin]. split; [done|].
      pose proof (Hids _ Hin). unfold kInvalidID, kAllocatedID in *. lia.
    + destruct (Hres l Hl) as [Hok ->]. done.
  - intros id Hid. pose proof (ready_ids _ _ _ _ _ Hrd Hid).
    unfold kInvalidID, kAllocatedID in *. lia.
Qed.

Lemma publish_spec st target_id nhood locs :
  ready st target_id nhood locs ->
  exists st' old,
    publish g target_id nhood locs st = Ok st' /\ index_inv st' /\
    Forall2 (fun id l => id2loc_ st !! id = Some l) nhood old /\
    switched st (nhood ++ [target_id]) locs old st' /\
    id2loc_pm_queue st' = id2loc_pm_queue st ++ zip nhood locs /\
    cur_loc (alloc_ st') = cur_loc (alloc_ st).
Proof.
  intros Hrd. pose proof Hrd as [Hst Hnd [Ht Htn] Hknown Hlen Hlocs Hres].
  assert (Htnh : target_id ∉ nhood).
  { intros Hin. destruct (Hknown _ Hin) as [? E]. by rewrite Htn in E. }
  destruct (lookup_lt_is_Some_2 locs (length nhood)) as [tl Htl]; [lia|].
  assert (Htlok : loc_ok tl) by (apply Hres; by eapply list_elem_of_lookup_2).
  unfold publish. rewrite (list_lookup_total_correct _ _ _ Htl), insert_or_assign_eq.
  rewrite (u32_small tl) by (destruct Htlok; lia).
  set (st1 := set_id2loc _ st).
  assert (Hst1 : forall id, id ∈ nhood -> id2loc_ st1 !! id = id2loc_ st !! id).
  { intros id Hid. simpl. rewrite lookup_insert_ne; [done | by intros ->]. }
  destruct (switch_neighbors_spec nhood locs st1 []) as (st2 & old & -> & Ha & Hf & Hset & Hfr & Hq);
    [done | lia | intros l Hl; by apply Hres | intros id Hid; rewrite Hst1 by done; auto |].
  simpl. rewrite Ha. simpl.
  assert (Hold : Forall2 (fun id l => id2loc_ st !! id = Some l) nhood old).
  { eapply Forall2_impl_elem; [exact Hf|]. intros id l Hid _ E. rewrite <- E. symmetry. by apply Hst1. }
  destruct (publish_alloc_spec st target_id nhood locs old Hrd Hold) as (Hi & Hc & Hnew & Hgone & Hframe).
  eexists _, old. split; [done|]. match goal with |- index_inv ?S /\ _ =>
    assert (Hsw : switched st (nhood ++ [target_id]) locs old S) end.
  { split; try done; simpl.
    - intros i id l E1 E2. destruct (decide (i < length nhood)%nat) as [Hi'|Hi'].
      + rewrite lookup_app_l in E1 by done. by eapply Hset.
      + assert (i = length nhood) as ->
          by (apply lookup_lt_Some in E1; rewrite length_app in E1; simpl in E1; lia).
        rewrite lookup_app_r, Nat.sub_diag in E1 by lia. simpl in E1. simplify_eq.
        rewrite Hfr by done. apply lookup_insert_eq.
    - intros id [Hn1 Hn2]%not_elem_of_app. rewrite Hfr by done. simpl.
      rewrite lookup_insert_ne; [done | set_solver]. }
  split; [by eapply index_inv_switched|]. by split_and!.
Qed.

(** The program's check passes on every state that satisfies the invariant. *)
Lemma verify_id2loc_spec st (cur_id : nat) :
  index_inv st -> (forall i, (i < cur_id)%nat -> is_Some (id2loc_ st !! Z.of_nat i)) ->
  verify_id2loc g st cur_id = Ok tt.
Proof.
  intros Hst Hdom. unfold verify_id2loc.
  match goal with |- foldM ?f ?l ?s = _ =>
    destruct (foldM_inv (fun _ => True) f l s) as ([] & E & _); [|done | exact E] end.
  intros i [] [_ Hi]%elem_of_seq _. exists tt. split; [|done].
  destruct (Hdom i) as [l Hl]; [lia|].
  unfold id2loc, find, find_fn. rewrite Hl. simpl.
  destruct (ii_fwd st Hst _ _ Hl) as (Hid & Hok & E).
  pose proof (live_below_frontier g Hg _ l (ii_alloc st Hst) Hok) as Hlt.
  destruct (Z.leb_spec (cur_loc (alloc_ st)) l); [|by rewrite E, Z.eqb_refl].
  unfold kInvalidID, kAllocatedID in *. lia.
Qed.

(** *** The state [load_page_layout] builds *)
Definition empty_map_state : map_state :=
  {| id2loc_ := ∅; alloc_ := {| page_layout := ∅; empty_pages := []; cur_loc := 0 |};
     id2loc_pm_queue := [] |}.

(** A loop that inserts consecutive fresh keys. *)
Lemma foldl_insert_range {V} (ins : Z -> V -> gmap Z V -> gmap Z V) (c : Z)
    (key : nat -> Z) (f : nat -> V) (n : nat) (m : gmap Z V) :
  (forall k v m, m !! k = None -> ins k v m = <[k := v]> m) ->
  (forall i, (i < n)%nat -> key i = c + Z.of_nat i /\ m !! (c + Z.of_nat i) = None) ->
  forall j, foldl (fun m i => ins (key i) (f i) m) m (seq 0 n) !! j =
    if decide (c <= j < c + Z.of_nat n) then Some (f (Z.to_nat (j - c))) else m !! j.
Proof.
  intros Hins. induction n as [|n IH]; intros Hk j.
  { rewrite decide_False by lia. done. }
  rewrite seq_S, foldl_app. simpl. destruct (Hk n) as [Ek En]; [lia|].
  assert (IH' := IH (fun i Hi => Hk i ltac:(lia))). rewrite Ek.
  rewrite Hins by (rewrite IH', decide_False by lia; done).
  rewrite lookup_insert. case_decide as E1.
  - rewrite decide_True by lia. f_equal. f_equal. lia.
  - rewrite IH'. destruct (decide (c <= j < c + Z.of_nat n)).
    + by rewrite decide_True by lia.
    + by rewrite decide_False by lia.
Qed.

Lemma equal_page_lookup num_points i (j : nat) :
  (j < Z.to_nat (nnodes_per_sector g))%nat ->
  equal_page g num_points i !!! j =
  let id := Z.of_nat i * nnodes_per_sector g + Z.of_nat j in
  if id <? num_points then u32 id else kInvalidID.
Proof.
  intros Hj. pose proof (nps_le_arr g Hg). unfold equal_page.
  rewrite list_lookup_total_alt, list_lookup_fmap, lookup_seq_lt by lia. simpl.
  by rewrite bool_decide_eq_true_2.
Qed.

Section loaded.
Context (num_points : Z).
Context (Hnum : 0 <= num_points /\ num_points + nnodes_per_sector g < 2 ^ 32 - 1).
Abbreviation nps := (nnodes_per_sector g).
Let st := load_page_layout g num_points empty_map_state.
Let num_sectors := (num_points + nps - 1) / nps.

Lemma num_sectors_bounds :
  0 <= num_sectors /\ num_points <= num_sectors * nps < num_points + nps.
Proof.
  pose proof (nps_range g Hg). unfold num_sectors.
  pose proof (Z.div_pos (num_points + nps - 1) nps).
  pose proof (Z.div_mod (num_points + nps - 1) nps).
  pose proof (Z.mod_pos_bound (num_points + nps - 1) nps). lia.
Qed.

Lemma loaded_cur_loc : cur_loc (alloc_ st) = num_sectors * nps.
Proof.
  pose proof (nps_range g Hg). pose proof num_sectors_bounds as [H1 H2]. simpl.
  pose proof (Z.mod_pos_bound num_points nps). pose proof (Z.div_mod num_points nps).
  destruct (Z.eqb_spec (num_points mod nps) 0) as [E|E]; rewrite ?u64_small by lia.
  - assert (num_sectors = num_points / nps); nia.
  - assert (num_sectors = num_points / nps + 1); nia.
Qed.

Lemma loaded_ids j :
  id2loc_ st !! j = if decide (0 <= j < num_points) then Some j else None.
Proof.
  pose proof (nps_range g Hg). simpl. rewrite (foldl_insert_range insert_or_assign 0
    (fun i => u32 (Z.of_nat i)) (fun i => u32 (Z.of_nat i))).
  - destruct (decide (0 <= j < num_points)).
    + rewrite decide_True by lia. f_equal. rewrite Z.sub_0_r, Z2Nat.id by lia. apply u32_small. lia.
    + by rewrite decide_False by lia.
  - intros. apply insert_or_assign_eq.
  - intros i Hi. split; [|done]. apply u32_small. lia.
Qed.

Lemma loaded_pages p :
  page_layout (alloc_ st) !! p =
  if decide (1 <= p <= num_sectors) then Some (equal_page g num_points (Z.to_nat (p - 1))) else None.
Proof.
  pose proof (nps_range g Hg). pose proof num_sectors_bounds as [H1 H2]. simpl.
  rewrite u64_small by lia. fold num_sectors.
  rewrite (foldl_insert_range insert_new 1 (fun i => u32 (Z.of_nat i + loc_sector_no g 0))).
  - destruct (decide (1 <= p <= num_sectors)).
    + by rewrite decide_True by lia.
    + by rewrite decide_False by lia.
  - intros. by apply insert_new_absent.
  - intros i Hi. split; [|done]. rewrite loc_sector_no_eq by (done || (split; lia)).
    rewrite Z.div_0_l by lia. rewrite u32_small by nia. lia.
Qed.

Lemma loaded_loc2id l :
  loc_ok l -> loc2id g (alloc_ st) l = if l <? num_points then l else kInvalidID.
Proof.
  intros Hl. pose proof (nps_range g Hg). pose proof num_sectors_bounds as [H1 H2].
  pose proof (Z.div_mod l nps). pose proof (Z.mod_pos_bound l nps).
  pose proof (loc_div_range g Hg l Hl).
  rewrite loc2id_page, loaded_pages, loc_page_eq, loc_slot_eq by done.
  destruct (decide (1 <= 1 + l / nps <= num_sectors)) as [Hp|Hp].
  - rewrite equal_page_lookup by lia. cbv zeta.
    replace (Z.of_nat (Z.to_nat (1 + l / nps - 1)) * nps + Z.of_nat (Z.to_nat (l mod nps))) with l by lia.
    destruct (l <? num_points); [|done]. apply u32_small. destruct Hl; lia.
  - destruct (Z.ltb_spec l num_points); [nia | done].
Qed.

Lemma loaded_inv : index_inv st.
Proof.
  pose proof (nps_range g Hg). pose proof num_sectors_bounds as [H1 H2].
  split.
  - split.
    + intros p v. rewrite loaded_pages. case_decide; [|done]. intros [= <-].
      unfold equal_page. by rewrite length_fmap, length_seq.
    + intros p. rewrite loaded_pages, loaded_cur_loc, Z.div_mul by lia.
      case_decide; [done | by intros [? ?]].
    + apply NoDup_nil_2.
    + intros p Hp. set_solver.
    + rewrite loaded_cur_loc. by apply Z.mod_mul; lia.
    + rewrite loaded_cur_loc. lia.
  - intros id loc. rewrite loaded_ids. case_decide; [|done]. intros [= <-].
    assert (loc_ok id) by (split; lia). rewrite loaded_loc2id by done.
    destruct (Z.ltb_spec id num_points); [|lia]. unfold kAllocatedID. split_and!; [lia | lia | done | done].
  - intros loc id Hl. rewrite loaded_loc2id by done. intros <- Hn _.
    destruct (Z.ltb_spec loc num_points); [|done]. rewrite loaded_ids, decide_True; [done|].
    destruct Hl. lia.
Qed.
End loaded.
End mapping_facts.

(** Reserving free slots does not disturb the maps. *)
Lemma index_inv_reserves g st new a' :
  index_inv g st -> reserves g (alloc_ st) new a' -> alloc_inv g a' -> index_inv g (set_alloc a' st).
Proof.
  intros Hst [_ Hfree Hfr] Ha. split; [done | |]; simpl.
  - intros id l E. destruct (ii_fwd _ _ Hst _ _ E) as (Hid & Hok & El).
    split_and!; [lia | lia | done |]. rewrite Hfr by done. case_decide as Hin; [|done].
    destruct (Hfree l Hin) as [_ E']. unfold kInvalidID, kAllocatedID in *. lia.
  - intros l id Hok. rewrite Hfr by done. case_decide; [by intros <- |].
    intros. by apply (ii_bwd _ _ Hst).
Qed.

Lemma ready_after_alloc g st target nhood n locs need a' :
  index_inv g st -> NoDup nhood -> (forall id, id ∈ nhood -> is_Some (id2loc_ st !! id)) ->
  0 <= target < kAllocatedID -> id2loc_ st !! target = None ->
  n = Z.of_nat (length nhood) + 1 -> alloc_post g n (alloc_ st) locs need a' ->
  ready g (set_alloc a' st) target nhood locs.
Proof.
  intros Hst Hnd Hknown Ht Htn -> [Hlen Hres Ha _ _].
  split; try done; [by eapply index_inv_reserves | lia | by destruct Hres |].
  intros l Hl. destruct (res_free _ _ _ _ Hres l Hl) as [Hok _]. split; [done|].
  simpl. rewrite (res_frame _ _ _ _ Hres) by done. by rewrite decide_True.
Qed.

(** ** Properties *)

(** The demonstration state: six points, two pages of four slots. *)
Definition demo_state : map_state := load_page_layout demo_geometry 6 empty_map_state.

Lemma demo_state_inv : index_inv demo_geometry demo_state.
Proof. apply loaded_inv; [apply demo_geometry_wf | simpl; lia]. Qed.

(** C8. Reservation followed by publication is total and keeps the maps in
    agreement.  For a new target and known, distinct neighbours, [alloc_loc]
    and the publication both succeed, afterwards the target and each
    neighbour are at the locations reserved for them in order, the old
    locations of the neighbours are free, no other identifier moved, and the
    switches are queued in order for the persistent table. *)
Theorem reserve_publish_correct g (ann_large : bool) st target nhood hints need :
  geometry_wf g -> index_inv g st -> NoDup nhood ->
  (forall id, id ∈ nhood -> is_Some (id2loc_ st !! id)) ->
  0 <= target < kAllocatedID -> id2loc_ st !! target = None ->
  Forall (fun p => 0 <= p < 2 ^ 32) hints ->
  cur_loc (alloc_ st) + (Z.of_nat (length nhood) + 1) + nnodes_per_sector g < 2 ^ 32 ->
  exists locs need' a' st' old,
    alloc_loc g ann_large (Z.of_nat (length nhood) + 1) hints need (alloc_ st) = Ok (locs, need', a') /\
    publish g target nhood locs (set_alloc a' st) = Ok st' /\ index_inv g st' /\
    Forall2 (fun id l => id2loc_ st !! id = Some l) nhood old /\
    switched g (set_alloc a' st) (nhood ++ [target]) locs old st' /\
    id2loc_pm_queue st' = id2loc_pm_queue st ++ zip nhood locs.
Proof.
  intros Hg Hst Hnd Hknown Ht Htn Hh Hb.
  destruct (alloc_loc_spec g Hg ann_large (Z.of_nat (length nhood) + 1) hints need (alloc_ st))
    as (locs & need' & a' & -> & Hpost); [apply Hst | lia | done | done |].
  destruct (publish_spec g Hg (set_alloc a' st) target nhood locs)
    as (st' & old & Hp & Hi & Hold & Hsw & Hq & _); [by eapply ready_after_alloc|].
  by exists locs, need', a', st', old.
Qed.

Lemma reserve_publish_witness : exists locs need' a' st' old,
  alloc_loc demo_geometry false 3 [2] ∅ (alloc_ demo_state) = Ok (locs, need', a') /\
  publish demo_geometry 6 [1; 4] locs (set_alloc a' demo_state) = Ok st' /\
  index_inv demo_geometry st' /\
  Forall2 (fun id l => id2loc_ demo_state !! id = Some l) [1; 4] old /\
  switched demo_geometry (set_alloc a' demo_state) ([1; 4] ++ [6]) locs old st' /\
  id2loc_pm_queue st' = id2loc_pm_queue demo_state ++ zip [1; 4] locs.
Proof.
  apply (reserve_publish_correct demo_geometry false demo_state 6 [1; 4] [2] ∅).
  - apply demo_geometry_wf.
  - apply demo_state_inv.
  - by apply (bool_decide_unpack _); vm_compute.
  - intros id Hid. rewrite !elem_of_cons in Hid.
    destruct Hid as [->|[->|Hid%elem_of_nil]]; [by exists 1 | by exists 4 | done].
  - unfold kAllocatedID; lia.
  - reflexivity.
  - repeat constructor; lia.
  - vm_compute. reflexivity.
Defined.

(** [load_page_layout] without a partition file builds maps that agree: a
    freshly opened index satisfies the invariant, identifier [i] is at
    location [i], and [verify_id2loc] passes on it. *)
Theorem load_page_layout_correct g num_points :
  geometry_wf g -> 0 <= num_points -> num_points + nnodes_per_sector g < 2 ^ 32 - 1 ->
  let st := load_page_layout g num_points empty_map_state in
  index_inv g st /\
  (forall i, 0 <= i < num_points -> id2loc st i = Ok i) /\
  verify_id2loc g st (Z.to_nat num_points) = Ok tt.
Proof.
  intros Hg H1 H2 st.
  assert (Hids : forall i, 0 <= i < num_points -> id2loc_ st !! i = Some i)
    by (intros i Hi; unfold st; rewrite loaded_ids by done; by rewrite decide_True).
  split; [by apply loaded_inv|]. split.
  - intros i Hi. unfold id2loc, find, find_fn. by rewrite Hids.
  - apply verify_id2loc_spec; [done | by apply loaded_inv|].
    intros i Hi. rewrite Hids by lia. by eexists.
Qed.

Lemma load_page_layout_witness :
  let st := load_page_layout demo_geometry 6 empty_map_state in
  index_inv demo_geometry st /\
  (forall i, 0 <= i < 6 -> id2loc st i = Ok i) /\
  verify_id2loc demo_geometry st (Z.to_nat 6) = Ok tt.
Proof. apply (load_page_layout_correct demo_geometry 6); [apply demo_geometry_wf | lia | simpl; lia]. Defined.

(** On every state that satisfies the invariant and knows the identifiers
    below [cur_id], the program's own check [verify_id2loc] succeeds. *)
Theorem verify_id2loc_passes g st (cur_id : nat) :
  geometry_wf g -> index_inv g st ->
  (forall i, (i < cur_id)%nat -> is_Some (id2loc_ st !! Z.of_nat i)) ->
  verify_id2loc g st cur_id = Ok tt.
Proof. intros Hg. by apply verify_id2loc_spec. Qed.

Lemma verify_id2loc_witness : verify_id2loc demo_geometry demo_state 6 = Ok tt.
Proof.
  apply (verify_id2loc_passes demo_geometry demo_state 6);
    [apply demo_geometry_wf | apply demo_state_inv |].
  intros i Hi. unfold demo_state.
  rewrite loaded_ids; [|apply demo_geometry_wf | simpl; lia]. rewrite decide_True by lia. by eexists.
Defined.
