(* ===== verification/LockTable.v ===== *)
(** * Sparse lock tables and the locking protocol of insertions

    [SparseLockTable] ([include/v2/lock_table.h]) keeps a reader-writer lock
    only for keys that are locked.  The insertion path takes page locks
    ([lockReqs]), then vector locks ([lock_vec] of [include/ssd_index.h]), each
    in increasing order, and releases them at the end.

    First the table is shown to behave as an array with one lock per key; then
    the protocol is run by any number of threads. *)
From S2P Require Import Prelude Cuckoo Layout.
Import Cuckoo.

(** ** Reader-writer locks

    A [pthread_rwlock_t] as POSIX describes it; the result is the error code. *)
Inductive rwlock := Free | Rd (n : Z) | Wr.
#[global] Instance rwlock_eq_dec : EqDecision rwlock.
Proof. solve_decision. Defined.

Definition EBUSY : Z := 16.

Definition pthread_rwlock_tryrdlock (l : rwlock) : Z * rwlock :=
  match l with Free => (0, Rd 1) | Rd n => (0, Rd (n + 1)) | Wr => (EBUSY, Wr) end.
Definition pthread_rwlock_trywrlock (l : rwlock) : Z * rwlock :=
  match l with Free => (0, Wr) | l => (EBUSY, l) end.
Definition pthread_rwlock_unlock (l : rwlock) : rwlock :=
  match l with Rd n => if n =? 1 then Free else Rd (n - 1) | _ => Free end.

(** ** The table *)
Abbreviation lock_table := (gmap Z (rwlock * Z)).

(** The functor of [tryrdlock] and [trywrlock]: a fresh entry gets a new lock
    with count 0; the count goes up when the lock was taken. *)
Definition try_entry (op : rwlock -> Z * rwlock) (v : rwlock * Z) (ctx : UpsertContext) : Z * (rwlock * Z) :=
  let '(l, cnt) := match ctx with NEWLY_INSERTED => (Free, 0) | ALREADY_EXISTED => v end in
  let '(ret, l') := op l in
  (ret, (l', if ret =? 0 then cnt + 1 else cnt)).

Definition try_lock (op : rwlock -> Z * rwlock) (key : Z) (t : lock_table) : Z * lock_table :=
  let ret := match t !! key with
             | Some v => fst (try_entry op v ALREADY_EXISTED)
             | None => fst (try_entry op (Free, 0) NEWLY_INSERTED)
             end in
  (ret, upsert key (fun v ctx => snd (try_entry op v ctx)) (Free, 0) t).

Definition tryrdlock : Z -> lock_table -> Z * lock_table := try_lock pthread_rwlock_tryrdlock.
Definition trywrlock : Z -> lock_table -> Z * lock_table := try_lock pthread_rwlock_trywrlock.

Definition unlock (key : Z) (t : lock_table) : outcome lock_table :=
  '(_, t') ← erase_fn key (fun '(l, cnt) =>
    if cnt =? 0 then Crash else Ok ((pthread_rwlock_unlock l, cnt - 1), cnt - 1 =? 0)) t;
  Ok t'.

(** The abstract view: one lock per key. *)
Definition holders (t : lock_table) (key : Z) : rwlock :=
  match t !! key with Some (l, _) => l | None => Free end.

(** The count is the number of holders, and idle keys have no entry. *)
Definition entry_wf (v : rwlock * Z) : Prop :=
  match v.1 with Free => False | Rd n => v.2 = n /\ 0 < n | Wr => v.2 = 1 end.
Definition table_wf (t : lock_table) : Prop := map_Forall (fun _ v => entry_wf v) t.

Lemma holders_insert t k v j : holders (<[k := v]> t) j = if decide (j = k) then v.1 else holders t j.
Proof.
  unfold holders. case_decide as E; subst.
  - rewrite lookup_insert_eq. by destruct v.
  - by rewrite lookup_insert_ne.
Qed.

Lemma holders_delete t k j : holders (delete k t) j = if decide (j = k) then Free else holders t j.
Proof.
  unfold holders. case_decide as E; subst.
  - by rewrite lookup_delete_eq.
  - by rewrite lookup_delete_ne.
Qed.

(** What the table needs of a lock operation: a failure changes nothing, a
    success adds one holder, and a free lock can be taken. *)
Class lock_op (op : rwlock -> Z * rwlock) : Prop := {
  op_fail : forall l, fst (op l) <> 0 -> snd (op l) = l;
  op_free : fst (op Free) = 0;
  op_count : forall l cnt, fst (op l) = 0 -> (entry_wf (l, cnt) \/ (l = Free /\ cnt = 0)) ->
    entry_wf (snd (op l), cnt + 1);
}.

#[global] Instance tryrdlock_op : lock_op pthread_rwlock_tryrdlock.
Proof.
  split; [by intros []| done |]. intros [|n|] cnt; unfold entry_wf; simpl; intros H Hw; naive_solver lia.
Qed.
#[global] Instance trywrlock_op : lock_op pthread_rwlock_trywrlock.
Proof.
  split; [by intros [] | done |]. intros [|n|] cnt; unfold entry_wf; simpl; intros H Hw; naive_solver lia.
Qed.

Lemma try_lock_spec op `{!lock_op op} key t :
  table_wf t ->
  fst (try_lock op key t) = fst (op (holders t key)) /\
  table_wf (snd (try_lock op key t)) /\
  (forall j, holders (snd (try_lock op key t)) j =
     if decide (j = key) then snd (op (holders t key)) else holders t j) /\
  (fst (op (holders t key)) <> 0 -> snd (try_lock op key t) = t).
Proof.
  intros Hwf. unfold try_lock, holders, upsert. cbn [fst snd].
  destruct (t !! key) as [[l cnt]|] eqn:E; unfold try_entry; cbn [fst snd].
  - destruct (op l) as [ret l'] eqn:Eo. cbn [fst snd].
    pose proof (Hwf _ _ E) as Hlc. split_and!; [done | | |].
    + apply map_Forall_insert_2; [|done]. destruct (Z.eqb_spec ret 0) as [->|Hr].
      * pose proof (op_count l cnt) as Hc. rewrite Eo in Hc. apply Hc; [done | by left].
      * pose proof (op_fail l) as Hc. rewrite Eo in Hc. simpl in Hc. by rewrite Hc.
    + intros j. apply (holders_insert t key).
    + intros Hr. pose proof (op_fail l) as Hc. rewrite Eo in Hc. simpl in Hc. rewrite Hc by done.
      destruct (Z.eqb_spec ret 0); [done|]. by apply insert_id.
  - destruct (op Free) as [ret l'] eqn:Eo. cbn [fst snd].
    pose proof (op_free (op := op)) as Hfree. rewrite Eo in Hfree. simpl in Hfree. subst ret.
    split_and!; [done | | | done].
    + apply map_Forall_insert_2; [|done].
      pose proof (op_count Free 0) as Hc. rewrite Eo in Hc. apply Hc; [done | by right].
    + intros j. apply (holders_insert t key).
Qed.

Lemma unlock_spec key t :
  table_wf t -> exists t', unlock key t = Ok t' /\ table_wf t' /\
    forall j, holders t' j = if decide (j = key) then pthread_rwlock_unlock (holders t key) else holders t j.
Proof.
  intros Hwf. unfold unlock, erase_fn, holders at 2. destruct (t !! key) as [[l cnt]|] eqn:E; simpl.
  - pose proof (Hwf _ _ E) as Hlc. unfold entry_wf in Hlc. simpl in Hlc.
    destruct l as [|n|]; [done | |].
    + destruct Hlc as [-> Hn]. destruct (Z.eqb_spec n 0); [lia|]. cbn [mbind outcome_bind].
      eexists. split; [done|]. destruct (Z.eqb_spec (n - 1) 0) as [E1|E1].
      * split; [by apply map_Forall_delete|]. intros j. rewrite holders_delete. simpl.
        destruct (Z.eqb_spec n 1); [done | lia].
      * split; [apply map_Forall_insert_2; [|done]|].
        { unfold entry_wf. simpl. destruct (Z.eqb_spec n 1); [lia|]. simpl. lia. }
        intros j. by rewrite holders_insert.
    + subst cnt. simpl. eexists. split; [done|]. split; [by apply map_Forall_delete|].
      intros j. by rewrite holders_delete.
  - eexists. split; [done|]. split; [done|]. intros j. case_decide as Ej; [|done].
    subst j. unfold holders. by rewrite E.
Qed.

(** C10. The sparse table refines an array of reader-writer locks, one per key:
    on every well-formed table [tryrdlock], [trywrlock] and [unlock] return
    what the operation on the lock of the key returns, change that lock as the
    operation does and no other, never reach the trap in [unlock], and keep the
    table well-formed (an entry exists exactly for a locked key). *)
Theorem sparse_table_refines_lock_array key t :
  table_wf t ->
  (forall op, op = pthread_rwlock_tryrdlock \/ op = pthread_rwlock_trywrlock ->
     let '(ret, t') := try_lock op key t in
     ret = fst (op (holders t key)) /\ table_wf t' /\
     forall j, holders t' j = if decide (j = key) then snd (op (holders t key)) else holders t j) /\
  (exists t', unlock key t = Ok t' /\ table_wf t' /\
     forall j, holders t' j = if decide (j = key) then pthread_rwlock_unlock (holders t key) else holders t j) /\
  (t !! key = None <-> holders t key = Free).
Proof.
  intros Hwf. split_and!.
  - intros op Hop. destruct (try_lock op key t) as [ret t'] eqn:E.
    assert (lock_op op) as Hl by (destruct Hop as [-> | ->]; apply _).
    destruct (try_lock_spec op key t Hwf) as (H1 & H2 & H3 & _). rewrite E in *. done.
  - by apply unlock_spec.
  - unfold holders. destruct (t !! key) as [[l cnt]|] eqn:E; [|done].
    pose proof (Hwf _ _ E) as H. unfold entry_wf in H. simpl in H. split; [done | by intros ->].
Qed.

Lemma sparse_table_witness :
  (forall op, op = pthread_rwlock_tryrdlock \/ op = pthread_rwlock_trywrlock ->
     let '(ret, t') := try_lock op 5 {[5 := (Rd 2, 2); 7 := (Wr, 1)]} in
     ret = fst (op (holders {[5 := (Rd 2, 2); 7 := (Wr, 1)]} 5)) /\ table_wf t' /\
     forall j, holders t' j = if decide (j = 5) then snd (op (holders {[5 := (Rd 2, 2); 7 := (Wr, 1)]} 5))
                              else holders {[5 := (Rd 2, 2); 7 := (Wr, 1)]} j) /\
  (exists t', unlock 5 {[5 := (Rd 2, 2); 7 := (Wr, 1)]} = Ok t' /\ table_wf t' /\
     forall j, holders t' j = if decide (j = 5)
       then pthread_rwlock_unlock (holders {[5 := (Rd 2, 2); 7 := (Wr, 1)]} 5)
       else holders {[5 := (Rd 2, 2); 7 := (Wr, 1)]} j) /\
  (({[5 := (Rd 2, 2); 7 := (Wr, 1)]} : lock_table) !! 5 = None <->
   holders {[5 := (Rd 2, 2); 7 := (Wr, 1)]} 5 = Free).
Proof.
  apply (sparse_table_refines_lock_array 5 {[5 := (Rd 2, 2); 7 := (Wr, 1)]}).
  apply map_Forall_insert_2; [by split | apply map_Forall_insert_2; [done | apply map_Forall_empty]].
Defined.

(** ** What an insertion locks

    [std::sort], and [std::unique] on a sorted vector. *)
Definition std_sort (l : list Z) : list Z := merge_sort Z.le l.

Fixpoint std_unique (l : list Z) : list Z :=
  match l with
  | x :: (y :: _) as l' => let r := std_unique l' in if x =? y then r else x :: r
  | _ => l
  end.

(** The vectors locked by [lock_vec] and released by [unlock_vec], in order. *)
Definition lock_vec (target : Z) (neighbors : list Z) : list Z :=
  std_sort (neighbors ++ (if target =? kInvalidID then [] else [target])).
Definition unlock_vec (target : Z) (neighbors : list Z) : list Z :=
  (if target =? kInvalidID then [] else [target]) ++ neighbors.

(** [get_to_lock_idx]. *)
Definition get_to_lock_idx (target : Z) (neighbors : list Z) : list Z :=
  std_unique (std_sort (neighbors ++ (if target =? kInvalidID then [] else [target]))).

(** The pages locked by [lockReqs] for requests of offset and length, in order;
    [unlockReqs] releases the same list. *)
Definition lockReqs (reqs : list (Z * Z)) : list Z :=
  std_unique (std_sort (reqs ≫= fun '(offset, len) =>
    (fun i : nat => (offset + Z.of_nat i * SECTOR_LEN) / SECTOR_LEN) <$>
    seq 0 (Z.to_nat ((len + SECTOR_LEN - 1) / SECTOR_LEN)))).

(** Table 0 holds the page locks, table 1 the vector locks. *)
Definition key : Type := nat * Z.
Definition key_lt (a b : key) : Prop := (a.1 < b.1)%nat \/ (a.1 = b.1 /\ a.2 < b.2).

(** A thread of the protocol: the keys it believes to hold, those it still has
    to lock, and those it will unlock afterwards, each in order. *)
Record lthread := { held : list key; todo : list key; release : list key }.

(** By the time of [unlock_vec] both insertion paths have appended the target to
    [new_nhood] (for [erase_and_set_loc]), so that it is unlocked twice. *)
Definition insert_locks (reqs : list (Z * Z)) (target : Z) (new_nhood : list Z) : lthread :=
  {| held := [];
     todo := (pair 0%nat <$> lockReqs reqs) ++ (pair 1%nat <$> lock_vec target new_nhood);
     release := (pair 1%nat <$> unlock_vec target (new_nhood ++ [target])) ++ (pair 0%nat <$> lockReqs reqs) |}.

(** ** The protocol: a thread that cannot lock spins, so that a step is a
    successful [trywrlock] or an [unlock]. *)
Record lsys := { tables : list lock_table; lthreads : list lthread }.

Inductive lstep : lsys -> lsys -> Prop :=
| lstep_lock tabs ths i h k ks r t t' :
    ths !! i = Some {| held := h; todo := k :: ks; release := r |} ->
    tabs !! k.1 = Some t -> trywrlock k.2 t = (0, t') ->
    lstep {| tables := tabs; lthreads := ths |}
          {| tables := <[k.1 := t']> tabs;
             lthreads := <[i := {| held := h ++ [k]; todo := ks; release := r |}]> ths |}
| lstep_unlock tabs ths i h k r t t' :
    ths !! i = Some {| held := h; todo := []; release := k :: r |} ->
    tabs !! k.1 = Some t -> unlock k.2 t = Ok t' ->
    lstep {| tables := tabs; lthreads := ths |}
          {| tables := <[k.1 := t']> tabs;
             lthreads := <[i := {| held := filter (.≠ k) h; todo := []; release := r |}]> ths |}.

Definition init_lsys (ths : list lthread) : lsys := {| tables := [∅; ∅]; lthreads := ths |}.
Definition lreachable (ths : list lthread) (s : lsys) : Prop := rtc lstep (init_lsys ths) s.

Definition finished (th : lthread) : Prop := todo th = [] /\ release th = [].

(** ** Orders *)
Lemma key_lt_trans a b c : key_lt a b -> key_lt b c -> key_lt a c.
Proof. unfold key_lt. lia. Qed.
Lemma key_lt_irrefl a : ~ key_lt a a.
Proof. unfold key_lt. lia. Qed.
Lemma key_lt_total a b : key_lt a b \/ a = b \/ key_lt b a.
Proof.
  destruct a as [i x], b as [j y]. unfold key_lt; simpl.
  destruct (lt_eq_lt_dec i j) as [[?| ->]|?]; [by left; left | | by right; right; left].
  destruct (Z.lt_trichotomy x y) as [?|[->|?]]; [by left; right | by right; left | by right; right; right].
Qed.
#[global] Instance key_lt_transitive : Transitive key_lt.
Proof. intros ???. apply key_lt_trans. Qed.

Lemma sorted_pair_app (l1 l2 : list Z) :
  StronglySorted Z.lt l1 -> StronglySorted Z.lt l2 ->
  StronglySorted key_lt ((pair 0%nat <$> l1) ++ (pair 1%nat <$> l2)).
Proof.
  intros H1 H2. apply StronglySorted_app_2.
  - intros x y [? [-> _]]%list_elem_of_fmap [? [-> _]]%list_elem_of_fmap. left. simpl. lia.
  - induction H1 as [|x l Hl IH Hx]; simpl; constructor; [done|]. apply Forall_fmap.
    eapply Forall_impl; [exact Hx|]. intros y Hy. right. simpl. lia.
  - induction H2 as [|x l Hl IH Hx]; simpl; constructor; [done|]. apply Forall_fmap.
    eapply Forall_impl; [exact Hx|]. intros y Hy. right. simpl. lia.
Qed.

Lemma std_unique_cons y z l :
  std_unique (y :: z :: l) = if y =? z then std_unique (z :: l) else y :: std_unique (z :: l).
Proof. done. Qed.

Lemma std_unique_elem l x : x ∈ std_unique l <-> x ∈ l.
Proof.
  induction l as [|y [|z l] IH]; [done | done |]. rewrite std_unique_cons.
  destruct (Z.eqb_spec y z) as [->|]; set_solver.
Qed.

Lemma std_unique_sorted l : StronglySorted Z.le l -> StronglySorted Z.lt (std_unique l).
Proof.
  induction l as [|y [|z l] IH]; intros H; [constructor | by repeat constructor |].
  rewrite std_unique_cons. apply StronglySorted_inv in H as [H Hy].
  destruct (Z.eqb_spec y z) as [->|Hne]; [by apply IH|]. constructor; [by apply IH|].
  apply Forall_forall. intros x Hx. rewrite std_unique_elem in Hx.
  apply StronglySorted_inv in H as [_ Hz]. apply Forall_cons in Hy as [Hyz _].
  rewrite Forall_forall in Hz. apply elem_of_cons in Hx as [->|Hx]; [lia|]. specialize (Hz _ Hx). lia.
Qed.

Lemma std_sort_sorted l : StronglySorted Z.le (std_sort l).
Proof. apply (StronglySorted_merge_sort Z.le). Qed.
Lemma std_sort_perm l : std_sort l ≡ₚ l.
Proof. apply merge_sort_Permutation. Qed.

Lemma sorted_le_lt l : StronglySorted Z.le l -> NoDup l -> StronglySorted Z.lt l.
Proof.
  induction 1 as [|x l Hl IH Hx]; intros Hnd; constructor.
  - apply IH. by apply NoDup_cons in Hnd as [_ ?].
  - apply NoDup_cons in Hnd as [Hni _]. rewrite Forall_forall in *. intros y Hy.
    specialize (Hx y Hy). assert (x <> y) by (by intros ->). lia.
Qed.

Lemma key_sorted_NoDup l : StronglySorted key_lt l -> NoDup l.
Proof. assert (Irreflexive key_lt) by exact key_lt_irrefl. apply (StronglySorted_NoDup key_lt). Qed.

(** ** The invariant of the protocol *)
Definition key_state (s : lsys) (k : key) : rwlock :=
  match tables s !! k.1 with Some t => holders t k.2 | None => Free end.

(** A thread locks in increasing order and unlocks at least what it locked. *)
Record thread_ok (th : lthread) : Prop := {
  to_sorted : StronglySorted key_lt (held th ++ todo th);
  to_tables : Forall (fun k : key => (k.1 < 2)%nat) (held th ++ todo th ++ release th);
  to_release : forall k, k ∈ held th ++ todo th -> k ∈ release th;
}.

Record lock_inv (s : lsys) : Prop := {
  li_tabs : length (tables s) = 2%nat /\ Forall table_wf (tables s);
  li_thr : Forall thread_ok (lthreads s);
  li_wr : forall k, key_state s k = Free \/ key_state s k = Wr;
  li_used : forall k, key_state s k <> Free -> exists i th, lthreads s !! i = Some th /\ k ∈ held th;
}.

(** The key [k] is unlocked at most once, by threads that lock it. *)
Definition once_ok (k : key) (th : lthread) : Prop :=
  filter (fun x => x = k) (release th) = [] \/
  filter (fun x => x = k) (release th) = [k] /\ k ∈ held th ++ todo th.

Record excl_inv (k : key) (s : lsys) : Prop := {
  ex_once : Forall (once_ok k) (lthreads s);
  ex_own : forall i th, lthreads s !! i = Some th -> k ∈ held th -> key_state s k = Wr;
  ex_excl : forall i j thi thj, lthreads s !! i = Some thi -> lthreads s !! j = Some thj ->
    k ∈ held thi -> k ∈ held thj -> i = j;
}.

Lemma key_state_insert tabs ths ths' i t t' k j :
  tabs !! i = Some t ->
  (forall x, holders t' x = if decide (x = j) then k else holders t x) ->
  forall k', key_state {| tables := <[i := t']> tabs; lthreads := ths' |} k' =
    if decide (k' = (i, j)) then k else key_state {| tables := tabs; lthreads := ths |} k'.
Proof.
  intros Ht Hh [i' j']. unfold key_state; simpl. pose proof (lookup_lt_Some _ _ _ Ht).
  destruct (decide (i' = i)) as [->|Hne].
  - rewrite list_lookup_insert_eq, Ht by done. rewrite Hh.
    destruct (decide (j' = j)) as [->|]; [by rewrite decide_True | by rewrite decide_False by congruence].
  - rewrite list_lookup_insert_ne by done. by rewrite decide_False by congruence.
Qed.

Lemma thread_ok_lock h k ks r :
  thread_ok {| held := h; todo := k :: ks; release := r |} ->
  thread_ok {| held := h ++ [k]; todo := ks; release := r |}.
Proof.
  intros [H1 H2 H3]; simpl in *. constructor; simpl.
  - by rewrite <- app_assoc.
  - by rewrite <- app_assoc.
  - intros x. rewrite <- app_assoc. apply H3.
Qed.

Lemma StronglySorted_filter_key (P : key -> Prop) `{!forall x, Decision (P x)} l :
  StronglySorted key_lt l -> StronglySorted key_lt (filter P l).
Proof.
  induction 1 as [|x l Hl IH Hx]; [constructor|]. destruct (decide (P x)).
  - rewrite filter_cons_True by done. constructor; [done|]. rewrite Forall_forall in *.
    intros y [_ Hy]%list_elem_of_filter. by apply Hx.
  - by rewrite filter_cons_False.
Qed.

Lemma thread_ok_unlock h k r :
  thread_ok {| held := h; todo := []; release := k :: r |} ->
  thread_ok {| held := filter (.≠ k) h; todo := []; release := r |}.
Proof.
  intros [H1 H2 H3]; simpl in *. rewrite app_nil_r in *. constructor; simpl; rewrite ?app_nil_r.
  - by apply StronglySorted_filter_key.
  - rewrite Forall_forall in *. intros x Hx. apply H2. rewrite elem_of_app, list_elem_of_filter in Hx. set_solver.
  - intros x [Hne Hx]%list_elem_of_filter. specialize (H3 x Hx). set_solver.
Qed.

(** One thread changes its hold on one key, and the table follows. *)
Lemma lock_inv_update tabs ths i th th' k st tabs' :
  lock_inv {| tables := tabs; lthreads := ths |} -> ths !! i = Some th ->
  length tabs' = 2%nat -> Forall table_wf tabs' -> thread_ok th' ->
  (forall k', key_state {| tables := tabs'; lthreads := <[i := th']> ths |} k' =
     if decide (k' = k) then st else key_state {| tables := tabs; lthreads := ths |} k') ->
  (forall x, x <> k -> x ∈ held th' <-> x ∈ held th) ->
  (k ∈ held th' /\ st = Wr \/ st = Free) ->
  lock_inv {| tables := tabs'; lthreads := <[i := th']> ths |}.
Proof.
  intros [_ Hthr Hwr Hused] Hi Hlen Hwf Hok Hks Hheld Hk. simpl in *.
  pose proof (lookup_lt_Some _ _ _ Hi) as Hlt.
  constructor; simpl; [done | by apply Forall_insert | |].
  - intros x. rewrite Hks. case_decide; [|done]. destruct Hk as [[_ ->]| ->]; auto.
  - intros x Hx. rewrite Hks in Hx. case_decide as E; [subst x|].
    + exists i, th'. rewrite list_lookup_insert_eq by done. by destruct Hk as [[? _]|?].
    + destruct (Hused x Hx) as (j & thj & Hj & Hxj). destruct (decide (i = j)) as [->|Hij].
      * exists j, th'. rewrite list_lookup_insert_eq by done. rewrite Hi in Hj. injection Hj as <-.
        by rewrite Hheld.
      * exists j, thj. by rewrite list_lookup_insert_ne.
Qed.

Lemma table_wf_lookup tabs i t : Forall table_wf tabs -> tabs !! i = Some t -> table_wf t.
Proof. intros H Ht. rewrite Forall_forall in H. apply H. by eapply list_elem_of_lookup_2. Qed.

Lemma thread_ok_lookup ths i th : Forall thread_ok ths -> ths !! i = Some th -> thread_ok th.
Proof. intros H Ht. rewrite Forall_forall in H. apply H. by eapply list_elem_of_lookup_2. Qed.

(** What a step does to the table, to the holds of the thread and to the key. *)
Lemma lock_effect tabs ths i h k ks r t t' :
  lock_inv {| tables := tabs; lthreads := ths |} -> tabs !! k.1 = Some t -> trywrlock k.2 t = (0, t') ->
  table_wf t' /\ key_state {| tables := tabs; lthreads := ths |} k = Free /\
  forall k', key_state {| tables := <[k.1 := t']> tabs; lthreads := <[i := {| held := h ++ [k]; todo := ks; release := r |}]> ths |} k' =
    if decide (k' = k) then Wr else key_state {| tables := tabs; lthreads := ths |} k'.
Proof.
  intros [[_ Htw] _ _ _] Ht Hlk. simpl in *.
  destruct (try_lock_spec pthread_rwlock_trywrlock k.2 t (table_wf_lookup _ _ _ Htw Ht)) as (E1 & E2 & E3 & _).
  fold (trywrlock k.2 t) in *. rewrite Hlk in *. simpl in *.
  assert (holders t k.2 = Free) as Hfree by (by destruct (holders t k.2)). rewrite Hfree in E3. simpl in E3.
  split; [done|]. split; [unfold key_state; simpl; by rewrite Ht|].
  intros k'. rewrite (key_state_insert tabs ths _ _ _ _ _ _ Ht E3). by destruct k.
Qed.

Lemma unlock_effect tabs ths ths' k t t' :
  lock_inv {| tables := tabs; lthreads := ths |} -> tabs !! k.1 = Some t -> unlock k.2 t = Ok t' ->
  table_wf t' /\ forall k', key_state {| tables := <[k.1 := t']> tabs; lthreads := ths' |} k' =
    if decide (k' = k) then Free else key_state {| tables := tabs; lthreads := ths |} k'.
Proof.
  intros [[_ Htw] _ Hwr _] Ht Hul. simpl in *.
  destruct (unlock_spec k.2 t (table_wf_lookup _ _ _ Htw Ht)) as (t1 & E1 & E2 & E3).
  rewrite Hul in E1. injection E1 as <-. split; [done|].
  assert (pthread_rwlock_unlock (holders t k.2) = Free) as Hf.
  { specialize (Hwr k). unfold key_state in Hwr. simpl in Hwr. rewrite Ht in Hwr. by destruct Hwr as [-> | ->]. }
  rewrite Hf in E3. intros k'. rewrite (key_state_insert tabs ths _ _ _ _ _ _ Ht E3). by destruct k.
Qed.

Lemma lock_inv_lock tabs ths i h k ks r t t' :
  lock_inv {| tables := tabs; lthreads := ths |} ->
  ths !! i = Some {| held := h; todo := k :: ks; release := r |} ->
  tabs !! k.1 = Some t -> trywrlock k.2 t = (0, t') ->
  lock_inv {| tables := <[k.1 := t']> tabs;
              lthreads := <[i := {| held := h ++ [k]; todo := ks; release := r |}]> ths |}.
Proof.
  intros Hinv Hi Ht Hlk. destruct (lock_effect tabs ths i h k ks r t t' Hinv Ht Hlk) as (Hwf & _ & Hks).
  pose proof Hinv as [[Hl Htw] Hthr _ _]. simpl in *.
  apply (lock_inv_update tabs ths i _ _ k Wr _ Hinv Hi); simpl.
  - by rewrite length_insert.
  - by apply Forall_insert.
  - apply thread_ok_lock. by eapply thread_ok_lookup.
  - exact Hks.
  - set_solver.
  - left. split; [set_solver | done].
Qed.

Lemma lock_inv_unlock tabs ths i h k r t t' :
  lock_inv {| tables := tabs; lthreads := ths |} ->
  ths !! i = Some {| held := h; todo := []; release := k :: r |} ->
  tabs !! k.1 = Some t -> unlock k.2 t = Ok t' ->
  lock_inv {| tables := <[k.1 := t']> tabs;
              lthreads := <[i := {| held := filter (.≠ k) h; todo := []; release := r |}]> ths |}.
Proof.
  intros Hinv Hi Ht Hul. pose proof Hinv as [[Hl Htw] Hthr _ _]. simpl in *.
  set (ths' := <[i := _]> ths). destruct (unlock_effect tabs ths ths' k t t' Hinv Ht Hul) as (Hwf & Hks).
  apply (lock_inv_update tabs ths i _ _ k Free _ Hinv Hi); simpl.
  - by rewrite length_insert.
  - by apply Forall_insert.
  - apply thread_ok_unlock. by eapply thread_ok_lookup.
  - exact Hks.
  - intros x Hx. rewrite list_elem_of_filter. naive_solver.
  - by right.
Qed.

Lemma lock_inv_step s s' : lock_inv s -> lstep s s' -> lock_inv s'.
Proof. intros Hs Hst. destruct Hst; [by eapply lock_inv_lock | by eapply lock_inv_unlock]. Qed.

Lemma lock_inv_init ths : Forall thread_ok ths -> lock_inv (init_lsys ths).
Proof.
  intros Hok. assert (forall k, key_state (init_lsys ths) k = Free) as Hf by (by intros [[|[|i]] k]).
  constructor.
  - split; [done|]. repeat constructor; apply map_Forall_empty.
  - done.
  - intros k. by left.
  - intros k Hk. by rewrite Hf in Hk.
Qed.

(** ** Exclusion, for a key that is unlocked only by those who hold it *)
Lemma once_ok_lock k x h ks r :
  once_ok k {| held := h; todo := x :: ks; release := r |} -> once_ok k {| held := h ++ [x]; todo := ks; release := r |}.
Proof. unfold once_ok. simpl. by rewrite <- app_assoc. Qed.

Lemma once_ok_unlock k x h r :
  once_ok k {| held := h; todo := []; release := x :: r |} -> once_ok k {| held := filter (.≠ x) h; todo := []; release := r |}.
Proof.
  unfold once_ok. simpl. rewrite !app_nil_r, filter_cons, list_elem_of_filter.
  destruct (decide (x = k)) as [->|Hne]; [|intros [?|[? ?]]; [by left | right; naive_solver]].
  intros [?|[H _]]; [done|]. injection H as H. by left.
Qed.

(** The thread that unlocks such a key holds it. *)
Lemma once_ok_holds k h r : once_ok k {| held := h; todo := []; release := k :: r |} -> k ∈ h.
Proof. unfold once_ok. simpl. rewrite app_nil_r, filter_cons_True by done. intros [?|[_ ?]]; done. Qed.

Lemma excl_inv_lock k tabs ths i h x ks r t t' :
  lock_inv {| tables := tabs; lthreads := ths |} -> excl_inv k {| tables := tabs; lthreads := ths |} ->
  ths !! i = Some {| held := h; todo := x :: ks; release := r |} ->
  tabs !! x.1 = Some t -> trywrlock x.2 t = (0, t') ->
  excl_inv k {| tables := <[x.1 := t']> tabs; lthreads := <[i := {| held := h ++ [x]; todo := ks; release := r |}]> ths |}.
Proof.
  intros Hinv [Hon Hown Hex] Hi Ht Hlk. destruct (lock_effect tabs ths i h x ks r t t' Hinv Ht Hlk) as (_ & Hfree & Hks). simpl in *.
  assert (forall j thj, ths !! j = Some thj -> x = k -> k ∉ held thj) as Hno.
  { intros j thj Hj -> Hk. by rewrite (Hown _ _ Hj Hk) in Hfree. }
  constructor; simpl.
  - apply Forall_insert; [done|]. apply once_ok_lock. rewrite Forall_forall in Hon. apply Hon. by eapply list_elem_of_lookup_2.
  - intros j thj Hj Hk. rewrite Hks. case_decide as E; [done|]. apply list_lookup_insert_Some in Hj as [(<- & <- & _)|[_ Hj]]; [|by eapply Hown].
    apply (Hown i _ Hi). simpl in *. set_solver.
  - intros j1 j2 th1 th2 H1 H2 K1 K2. destruct (decide (x = k)) as [->|Hxk].
    + apply list_lookup_insert_Some in H1 as [(<- & _)|[_ H1]]; [|by destruct (Hno _ _ H1 eq_refl)].
      apply list_lookup_insert_Some in H2 as [(<- & _)|[_ H2]]; [done | by destruct (Hno _ _ H2 eq_refl)].
    + apply list_lookup_insert_Some in H1 as [(<- & <- & _)|[_ H1]]; apply list_lookup_insert_Some in H2 as [(<- & <- & _)|[_ H2]]; [done | | | by eapply Hex];
        (eapply Hex; [done | done | simpl in *; set_solver | simpl in *; set_solver]).
Qed.

Lemma excl_inv_unlock k tabs ths i h x r t t' :
  lock_inv {| tables := tabs; lthreads := ths |} -> excl_inv k {| tables := tabs; lthreads := ths |} ->
  ths !! i = Some {| held := h; todo := []; release := x :: r |} ->
  tabs !! x.1 = Some t -> unlock x.2 t = Ok t' ->
  excl_inv k {| tables := <[x.1 := t']> tabs; lthreads := <[i := {| held := filter (.≠ x) h; todo := []; release := r |}]> ths |}.
Proof.
  intros Hinv [Hon Hown Hex] Hi Ht Hul. set (ths' := <[i := _]> ths). destruct (unlock_effect tabs ths ths' x t t' Hinv Ht Hul) as (_ & Hks).
  simpl in *. assert (once_ok k {| held := h; todo := []; release := x :: r |}) as Hi1.
  { rewrite Forall_forall in Hon. apply Hon. by eapply list_elem_of_lookup_2. }
  assert (forall j thj, ths' !! j = Some thj -> k ∈ held thj -> exists thj', ths !! j = Some thj' /\ k ∈ held thj' /\ k <> x) as Hback.
  { intros j thj Hj Hk. apply list_lookup_insert_Some in Hj as [(<- & <- & _)|[Hne Hj]].
    - apply list_elem_of_filter in Hk as [? ?]. by eexists.
    - exists thj. split; [done|]. split; [done|]. intros <-. apply Hne. by apply (Hex i j _ thj Hi Hj (once_ok_holds _ _ _ Hi1)). }
  constructor; simpl.
  - apply Forall_insert; [done | by apply once_ok_unlock].
  - intros j thj Hj Hk. destruct (Hback j thj Hj Hk) as (th' & Hj' & Hk' & Hne). rewrite Hks, decide_False by done. by eapply Hown.
  - intros j1 j2 th1 th2 H1 H2 K1 K2. destruct (Hback _ _ H1 K1) as (t1 & ? & ? & _), (Hback _ _ H2 K2) as (t2 & ? & ? & _). by eapply Hex.
Qed.

Lemma lock_invs_reach ths s : lreachable ths s -> lock_inv (init_lsys ths) ->
  lock_inv s /\ forall k, excl_inv k (init_lsys ths) -> excl_inv k s.
Proof.
  unfold lreachable. generalize (init_lsys ths) as s0. intros s0. induction 1 as [|s1 s2 s3 Hst _ IH]; intros Hs; [done|].
  destruct (IH (lock_inv_step _ _ Hs Hst)) as [H1 H2]. split; [done|]. intros k Hk. apply H2.
  destruct Hst; [by eapply excl_inv_lock | by eapply excl_inv_unlock].
Qed.

Lemma excl_inv_init k ths : Forall (once_ok k) ths -> Forall (fun th => held th = []) ths -> excl_inv k (init_lsys ths).
Proof.
  intros Ho Hh. assert (forall i th, ths !! i = Some th -> k ∉ held th) as Hno.
  { intros i th Hi. rewrite Forall_forall in Hh. rewrite (Hh th) by (by eapply list_elem_of_lookup_2). set_solver. }
  constructor; simpl; [done | |].
  - intros i th Hi Hk. by destruct (Hno i th Hi).
  - intros i j thi thj Hi Hj Hk. by destruct (Hno i thi Hi).
Qed.

(** ** Progress *)

(** A thread that is not finished either holds what its table says or is
    waiting for a key that another unfinished thread holds. *)
Lemma thread_can_unlock s i h k r :
  lock_inv s -> lthreads s !! i = Some {| held := h; todo := []; release := k :: r |} ->
  exists s', lstep s s'.
Proof.
  intros Hs Hi. destruct s as [tabs ths]. pose proof Hs as [[Hl Htw] Hthr _ _]. simpl in *.
  destruct (thread_ok_lookup _ _ _ Hthr Hi) as [_ Htab Hrel]. simpl in *.
  assert ((k.1 < 2)%nat) as Hk by (rewrite Forall_forall in Htab; apply Htab; set_solver).
  destruct (lookup_lt_is_Some_2 tabs k.1 ltac:(lia)) as [t Ht].
  destruct (unlock_spec k.2 t (table_wf_lookup _ _ _ Htw Ht)) as (t' & E & _).
  eexists. by eapply lstep_unlock.
Qed.

Lemma thread_can_lock s i h k ks r :
  lock_inv s -> lthreads s !! i = Some {| held := h; todo := k :: ks; release := r |} ->
  (exists s', lstep s s') \/ (exists j th, lthreads s !! j = Some th /\ k ∈ held th).
Proof.
  intros Hs Hi. destruct s as [tabs ths]. pose proof Hs as [[Hl Htw] Hthr _ Hused]. simpl in *.
  destruct (thread_ok_lookup _ _ _ Hthr Hi) as [_ Htab _]. simpl in *.
  assert ((k.1 < 2)%nat) as Hk by (rewrite Forall_forall in Htab; apply Htab; set_solver).
  destruct (lookup_lt_is_Some_2 tabs k.1 ltac:(lia)) as [t Ht].
  destruct (decide (key_state {| tables := tabs; lthreads := ths |} k = Free)) as [E|E];
    [left | right; by apply Hused].
  unfold key_state in E. simpl in E. rewrite Ht in E.
  destruct (try_lock_spec pthread_rwlock_trywrlock k.2 t (table_wf_lookup _ _ _ Htw Ht)) as (E1 & _).
  rewrite E in E1. destruct (try_lock pthread_rwlock_trywrlock k.2 t) as [ret t'] eqn:Et.
  cbn in E1. subst ret.
  eexists. by eapply lstep_lock.
Qed.

Definition next_key (th : lthread) : option key := head (todo th).

(** Among the waiting threads one waits for the largest key. *)
Lemma max_waiting (ths : list lthread) :
  Forall (fun th => next_key th = None) ths \/
  exists i th k, ths !! i = Some th /\ next_key th = Some k /\
    forall j thj kj, ths !! j = Some thj -> next_key thj = Some kj -> kj = k \/ key_lt kj k.
Proof.
  induction ths as [|th ths IH]; [by left|]. destruct IH as [Hall|(i & ti & ki & Hi & Ei & Hmax)].
  - destruct (next_key th) as [k|] eqn:E; [right | left; by constructor].
    exists 0%nat, th, k. split_and!; [done | done |]. intros [|j] thj kj Hj Ej; simpl in Hj.
    + simplify_eq. by left.
    + rewrite Forall_forall in Hall. rewrite Hall in Ej; [done | by eapply list_elem_of_lookup_2].
  - right. destruct (next_key th) as [k|] eqn:E.
    + destruct (key_lt_total ki k) as [Hlt|Hge].
      * exists 0%nat, th, k. split_and!; [done | done |]. intros [|j] thj kj Hj Ej; simpl in Hj; [simplify_eq; by left|].
        right. destruct (Hmax j thj kj Hj Ej) as [->|?]; [done | by eapply key_lt_trans].
      * exists (S i), ti, ki. split_and!; [done | done |]. intros [|j] thj kj Hj Ej; simpl in Hj; [|by eapply Hmax].
        simplify_eq. by destruct Hge as [->|?]; [left | right].
    + exists (S i), ti, ki. split_and!; [done | done |]. intros [|j] thj kj Hj Ej; simpl in Hj; [|by eapply Hmax].
      congruence.
Qed.

Lemma lock_progress s :
  lock_inv s -> (exists s', lstep s s') \/ Forall finished (lthreads s).
Proof.
  intros Hs. destruct (max_waiting (lthreads s)) as [Hall|(i & th & k & Hi & Ek & Hmax)].
  - destruct (decide (Forall (fun th => release th = []) (lthreads s))) as [Hr|Hr].
    + right. rewrite Forall_forall in *. intros th Hth. split; [|by apply Hr].
      specialize (Hall th Hth). unfold next_key in Hall. by destruct (todo th).
    + left. apply not_Forall_Exists, Exists_exists in Hr as (th & Hth & Hr); [|solve_decision].
      apply list_elem_of_lookup in Hth as [i Hi]. rewrite Forall_forall in Hall.
      specialize (Hall th ltac:(by eapply list_elem_of_lookup_2)).
      destruct th as [h [|? ?] [|k r]]; simpl in *; try done. by eapply (thread_can_unlock s i).
  - left. destruct th as [h [|k' ks] r]; [done|]. unfold next_key in Ek. simpl in Ek. injection Ek as ->.
    destruct (thread_can_lock _ _ _ _ _ _ Hs Hi) as [?|(j & thj & Hj & Hk)]; [done|].
    pose proof Hs as [_ Hthr _ _]. destruct (thread_ok_lookup _ _ _ Hthr Hj) as [Hsort _ Hrel].
    destruct thj as [hj [|kj ksj] rj]; simpl in *.
    + destruct rj as [|x rj]; [|by eapply thread_can_unlock].
      specialize (Hrel k). set_solver.
    + exfalso. assert (key_lt k kj) as Hkk
        by (apply (StronglySorted_app_1_elem_of key_lt _ _ _ _ Hsort); [done | set_solver]).
      destruct (Hmax j _ kj Hj eq_refl) as [->|Hlt]; [by apply (key_lt_irrefl k)|].
      apply (key_lt_irrefl k). by trans kj.
Qed.

(** Every step shortens the work that is left. *)
Definition work (th : lthread) : nat := (length (todo th) + length (release th))%nat.
Definition total_work (s : lsys) : nat := sum_list_with work (lthreads s).

Lemma sum_list_with_insert {A} (f : A -> nat) l i x y :
  l !! i = Some x -> (f y < f x)%nat -> (sum_list_with f (<[i := y]> l) < sum_list_with f l)%nat.
Proof.
  revert i. induction l as [|z l IH]; intros [|i] Hi Hf; simplify_eq/=; [lia|].
  specialize (IH i Hi Hf). lia.
Qed.

Lemma lstep_work s s' : lstep s s' -> (total_work s' < total_work s)%nat.
Proof.
  intros []; unfold total_work; simpl; (eapply sum_list_with_insert; [done|]); unfold work; simpl; lia.
Qed.

Lemma lock_completes s :
  lock_inv s -> exists s', rtc lstep s s' /\ lock_inv s' /\ Forall finished (lthreads s').
Proof.
  remember (total_work s) as n eqn:Hn. revert s Hn. induction (lt_wf n) as [n _ IH].
  intros s -> Hs. destruct (lock_progress s Hs) as [[s1 H1]|Hf]; [|by exists s].
  destruct (IH (total_work s1) (lstep_work _ _ H1) s1 eq_refl) as (s' & ? & ? & ?);
    [by eapply lock_inv_step|].
  exists s'. split_and!; [by eapply rtc_l | done | done].
Qed.

Lemma finished_tables_empty s :
  lock_inv s -> Forall finished (lthreads s) -> tables s = [∅; ∅].
Proof.
  intros [[Hl Htw] Hthr _ Hused] Hf.
  assert (forall k, key_state s k = Free) as Hfree.
  { intros k. destruct (decide (key_state s k = Free)) as [?|Hk]; [done|].
    destruct (Hused k Hk) as (i & th & Hi & Hin). rewrite Forall_forall in Hf.
    destruct (Hf th) as [Ht Hr]; [by eapply list_elem_of_lookup_2|].
    destruct (thread_ok_lookup _ _ _ Hthr Hi) as [_ _ Hrel]. rewrite Hr, Ht in Hrel.
    specialize (Hrel k). set_solver. }
  assert (forall i t, tables s !! i = Some t -> t = ∅) as He.
  { intros i t Ht. apply map_empty. intros k. specialize (Hfree (i, k)). unfold key_state, holders in Hfree.
    simpl in Hfree. rewrite Ht in Hfree. destruct (t !! k) as [[l c]|] eqn:E; [|done].
    pose proof (table_wf_lookup _ _ _ Htw Ht _ _ E) as Hw. unfold entry_wf in Hw. simpl in *. by subst l. }
  destruct (tables s) as [|t0 [|t1 [|]]]; simplify_list_eq.
  by rewrite (He 0%nat t0 eq_refl), (He 1%nat t1 eq_refl).
Qed.

(** An insertion follows the protocol. *)
Lemma insert_locks_ok reqs target nhood :
  target <> kInvalidID -> NoDup (target :: nhood) -> thread_ok (insert_locks reqs target nhood).
Proof.
  intros Ht Hnd. apply Z.eqb_neq in Ht.
  assert (lock_vec target nhood ≡ₚ target :: nhood) as Hp.
  { unfold lock_vec. rewrite Ht, std_sort_perm. by rewrite Permutation_app_comm. }
  constructor; unfold insert_locks; simpl.
  - apply sorted_pair_app; [apply std_unique_sorted, std_sort_sorted|].
    apply sorted_le_lt; [apply std_sort_sorted | by rewrite Hp].
  - rewrite !Forall_app. split_and!; apply Forall_fmap, Forall_true; simpl; lia.
  - intros k. rewrite !elem_of_app. intros [Hk|Hk]; [by right | left]. rewrite Hp in Hk. unfold unlock_vec. rewrite Ht. set_solver.
Qed.

Lemma filter_pair (i : nat) (l : list Z) (k : key) : filter (fun x => x = k) (pair i <$> l) = if decide (k.1 = i) then pair i <$> filter (fun x => x = k.2) l else [].
Proof.
  unfold key in *. induction l as [|x l IH]; [by case_decide|]. rewrite fmap_cons, !filter_cons, IH. destruct k as [j y]. cbn [fst snd].
  destruct (decide (j = i)) as [->|Hne].
  - destruct (decide ((i, x) = (i, y))) as [E|E]; [injection E as ->; by rewrite decide_True|]. rewrite decide_False by congruence. done.
  - by rewrite decide_False by congruence.
Qed.

Lemma filter_single (l : list Z) y : NoDup l -> filter (fun x => x = y) l = if decide (y ∈ l) then [y] else [].
Proof.
  induction 1 as [|x l Hx _ IH]; [by rewrite decide_False by set_solver|]. rewrite filter_cons, IH.
  destruct (decide (x = y)) as [->|Hne]; [rewrite (decide_False (P := y ∈ l)), decide_True by set_solver; done|].
  destruct (decide (y ∈ l)); [by rewrite decide_True by set_solver | by rewrite decide_False by set_solver].
Qed.

(** It unlocks every key but the target once. *)
Lemma insert_locks_once reqs target nhood k :
  target <> kInvalidID -> NoDup (target :: nhood) -> k <> (1%nat, target) -> once_ok k (insert_locks reqs target nhood).
Proof.
  intros Ht Hnd Hk. apply Z.eqb_neq in Ht. unfold once_ok, insert_locks, unlock_vec. rewrite Ht. cbn [release held todo app].
  rewrite filter_app, !filter_pair. destruct k as [i y]. cbn [fst snd].
  assert (NoDup (lockReqs reqs)) as Hnp.
  { apply (StronglySorted_NoDup Z.lt). apply std_unique_sorted, std_sort_sorted. }
  apply NoDup_cons in Hnd as [_ Hnd].
  assert (i = 1%nat -> y <> target) as Hy by (intros -> ->; done).
  destruct (decide (i = 1%nat)) as [->|H1]; [|destruct (decide (i = 0%nat)) as [->|H0]].
  - rewrite (decide_False (P := 1%nat = 0%nat)), app_nil_r by done.
    rewrite filter_cons_False, filter_app, (filter_none _ [target]), app_nil_r, (filter_single _ y Hnd)
      by (repeat constructor; intros <-; by apply Hy) || (intros <-; by apply Hy).
    case_decide as Hin; [right; split; [done|] | by left]. apply elem_of_app. right. apply list_elem_of_fmap_2.
    unfold lock_vec. rewrite std_sort_perm. set_solver.
  - rewrite (filter_single _ y Hnp). cbn [app]. case_decide as Hin; [right; split; [done|] | by left]. apply elem_of_app. left. by apply list_elem_of_fmap_2.
  - by left.
Qed.

(** C11. The locking protocol of insertions, with the second unlock of the
    target that the code makes.  Any number of insertions, each with a target
    that is not among its distinct neighbours, may interleave in any way: every
    step shortens the work that is left, and from every reachable state some
    schedule lets all of them finish, with both tables empty again; in
    particular there is no deadlock.  Two of them never hold the same page, nor
    the same vector unless it is the target of one of the insertions, for which
    the second unlock can break the exclusion. *)
Theorem insert_locking_safe_and_live (ts : list (list (Z * Z) * Z * list Z)) s :
  Forall (fun '(_, target, nhood) => target <> kInvalidID /\ NoDup (target :: nhood)) ts ->
  lreachable ((fun '(reqs, target, nhood) => insert_locks reqs target nhood) <$> ts) s ->
  (forall i j thi thj k, lthreads s !! i = Some thi -> lthreads s !! j = Some thj ->
     k ∉ (fun '(_, target, _) => (1%nat, target)) <$> ts -> k ∈ held thi -> k ∈ held thj -> i = j) /\
  (forall s', lstep s s' -> (total_work s' < total_work s)%nat) /\
  (exists s', rtc lstep s s' /\ Forall finished (lthreads s') /\ tables s' = [∅; ∅]).
Proof.
  intros Hts Hr. destruct (lock_invs_reach _ _ Hr) as [Hs Hex].
  { apply lock_inv_init, Forall_fmap. eapply Forall_impl; [exact Hts|]. intros [[reqs t] n] [? ?]. by apply insert_locks_ok. }
  split_and!.
  - intros i j thi thj k Hi Hj Hk. apply (ex_excl k s); [|done..]. apply Hex, excl_inv_init; apply Forall_fmap, Forall_forall.
    + intros [[reqs t] n] Hin. rewrite Forall_forall in Hts. destruct (Hts _ Hin). apply insert_locks_once; [done..|].
      intros ->. apply Hk. by apply (list_elem_of_fmap_2 (fun '(_, target, _) => (1%nat, target)) ts (reqs, t, n)).
    + by intros [[reqs t] n] _.
  - intros s'. apply lstep_work.
  - destruct (lock_completes s Hs) as (s' & ? & ? & ?). exists s'. eauto using finished_tables_empty.
Qed.

Definition demo_locking : list (list (Z * Z) * Z * list Z) :=
  [([(8192, 4096)], 10, [3; 5]); ([(4096, 8192)], 11, [5; 3])].

Lemma insert_locking_witness :
  let s := init_lsys ((fun '(reqs, target, nhood) => insert_locks reqs target nhood) <$> demo_locking) in
  (forall i j thi thj k, lthreads s !! i = Some thi -> lthreads s !! j = Some thj ->
     k ∉ (fun '(_, target, _) => (1%nat, target)) <$> demo_locking -> k ∈ held thi -> k ∈ held thj -> i = j) /\
  (forall s', lstep s s' -> (total_work s' < total_work s)%nat) /\
  (exists s', rtc lstep s s' /\ Forall finished (lthreads s') /\ tables s' = [∅; ∅]).
Proof.
  apply (insert_locking_safe_and_live demo_locking).
  - repeat constructor; try discriminate; apply (bool_decide_unpack _); by vm_compute.
  - apply rtc_refl.
Defined.

(** The second unlock of the target can release the lock of another insertion that has
    meanwhile locked the new vector as a neighbour: a third insertion then
    locks it too, and two insertions hold the same vector. *)
Theorem double_unlock_breaks_exclusion : exists s i j thi thj k,
  lreachable [insert_locks [] 10 [3]; insert_locks [] 11 [10]; insert_locks [] 12 [10]] s /\
  i <> j /\ lthreads s !! i = Some thi /\ lthreads s !! j = Some thj /\ k ∈ held thi /\ k ∈ held thj.
Proof.
  eexists _, 1%nat, 2%nat, _, _, (1%nat, 10). split_and!.
  - unfold lreachable. do 2 (eapply rtc_l; [eapply (lstep_lock _ _ 0%nat); by vm_compute|]).
    eapply rtc_l; [eapply (lstep_unlock _ _ 0%nat); by vm_compute|].
    eapply rtc_l; [eapply (lstep_lock _ _ 1%nat); by vm_compute|].
    do 2 (eapply rtc_l; [eapply (lstep_unlock _ _ 0%nat); by vm_compute|]).
    eapply rtc_l; [eapply (lstep_lock _ _ 2%nat); by vm_compute|]. apply rtc_refl.
  - done.
  - by vm_compute.
  - by vm_compute.
  - by vm_compute; constructor.
  - by vm_compute; constructor.
Qed.
