(* ===== verification/PageCache.v ===== *)
(** * The page cache of the block-I/O path

    [PageCache] ([include/v2/page_cache.h]) keeps reference-counted copies of
    pages; [read_alloc] ([src/utils/linux_aligned_file_reader.cpp]) and
    [wbc_write], [deref] ([include/aligned_file_reader.h]) use it: pages are
    read through the cache and pinned, written pages are put into the cache
    first and to the disk later, and an entry goes away with its last
    reference.  What a reader sees is the cached page if there is one and the
    page on the disk otherwise. *)
From S2P Require Import Prelude Cuckoo Layout.
Import Cuckoo.

(** A page is its content; a request names a page and, for a write, carries
    the new content (requests of several sectors are lists of pages). *)
Definition page : Type := list Z.
Record PageCacheItem := { buf : page; ref_cnt : Z }.

Record io_state := { pcache : gmap Z PageCacheItem; disk : Z -> page }.

(** ** [PageCache] *)
Definition get (block_no : Z) (ref : bool) (c : gmap Z PageCacheItem)
  : outcome (gmap Z PageCacheItem * option page) :=
  update_fn block_no (fun v =>
    Ok ({| buf := buf v; ref_cnt := if ref then u64 (ref_cnt v + 1) else ref_cnt v |}, buf v)) c.

Definition put (block_no : Z) (value : page) (ref : bool) (c : gmap Z PageCacheItem) : gmap Z PageCacheItem :=
  upsert block_no (fun v ctx =>
    let v := match ctx with NEWLY_INSERTED => {| buf := []; ref_cnt := 0 |} | ALREADY_EXISTED => v end in
    {| buf := value; ref_cnt := if ref then u64 (ref_cnt v + 1) else ref_cnt v |})
    {| buf := []; ref_cnt := 0 |} c.

Definition cache_deref (block_no : Z) (c : gmap Z PageCacheItem) : outcome (bool * gmap Z PageCacheItem) :=
  uprase_fn block_no (fun v ctx =>
    match ctx with
    | NEWLY_INSERTED => Ok (v, true)
    | ALREADY_EXISTED => let refs := u64 (ref_cnt v - 1) in Ok ({| buf := buf v; ref_cnt := refs |}, refs =? 0)
    end) {| buf := []; ref_cnt := 0 |} c.

(** ** The reader *)

(** First loop of [read_alloc]: pinned hits, and the misses in order. *)
Fixpoint read_cached (reqs : list Z) (c : gmap Z PageCacheItem) : outcome (gmap Z PageCacheItem * list (option page)) :=
  match reqs with
  | [] => Ok (c, [])
  | b :: reqs =>
      '(c, hit) ← get b true c;
      '(c, hits) ← read_cached reqs c;
      Ok (c, hit :: hits)
  end.

(** Second loop: the misses, read from the disk, enter the cache. *)
Fixpoint put_misses (reqs : list Z) (hits : list (option page)) (d : Z -> page) (c : gmap Z PageCacheItem)
  : gmap Z PageCacheItem * list page :=
  match reqs, hits with
  | b :: reqs, Some p :: hits => let '(c, r) := put_misses reqs hits d c in (c, p :: r)
  | b :: reqs, None :: hits => let '(c, r) := put_misses reqs hits d (put b (d b) true c) in (c, d b :: r)
  | _, _ => (c, [])
  end.

(** [read_alloc] on aligned one-page requests: buffers and page references. *)
Definition read_alloc (reqs : list Z) (s : io_state) : outcome (io_state * list page * list Z) :=
  '(c, hits) ← read_cached reqs (pcache s);
  let '(c, bufs) := put_misses reqs hits (disk s) c in
  Ok ({| pcache := c; disk := disk s |}, bufs, reqs).

Definition wbc_write (reqs : list (Z * page)) (s : io_state) : io_state * list Z :=
  ({| pcache := foldl (fun c '(b, p) => put b p true c) (pcache s) reqs; disk := disk s |}, reqs.*1).

Definition disk_write (reqs : list (Z * page)) (s : io_state) : io_state :=
  {| pcache := pcache s; disk := foldl (fun d '(b, p) b' => if b' =? b then p else d b') (disk s) reqs |}.

Definition deref (page_ref : list Z) (s : io_state) : outcome io_state :=
  c ← foldM (fun b c => '(_, c) ← cache_deref b c; Ok c) page_ref (pcache s);
  Ok {| pcache := c; disk := disk s |}.

(** ** What a reader sees *)
Definition view (s : io_state) (b : Z) : page :=
  match pcache s !! b with Some v => buf v | None => disk s b end.

(** Entries are pinned; [refs] is the number of references held on a page. *)
Definition refs (c : gmap Z PageCacheItem) (b : Z) : Z :=
  match c !! b with Some v => ref_cnt v | None => 0 end.
Definition cache_wf (c : gmap Z PageCacheItem) : Prop := map_Forall (fun _ v => 0 < ref_cnt v) c.

Definition count (b : Z) (l : list Z) : Z := Z.of_nat (length (filter (.= b) l)).

Lemma count_cons b x l : count b (x :: l) = (if decide (x = b) then 1 else 0) + count b l.
Proof.
  unfold count. destruct (decide (x = b)).
  - rewrite filter_cons_True by done. simpl. lia.
  - rewrite filter_cons_False by done. lia.
Qed.

Lemma count_nonneg b l : 0 <= count b l.
Proof. unfold count. lia. Qed.

Lemma count_out b l : b ∉ l -> count b l = 0.
Proof.
  induction l as [|x l IH]; intros H; [done|]. rewrite count_cons, decide_False, IH; [done | |]; set_solver.
Qed.

Lemma put_lookup b p c j :
  put b p true c !! j = if decide (j = b) then Some {| buf := p; ref_cnt := u64 (refs c b + 1) |} else c !! j.
Proof. unfold put, refs. rewrite upsert_lookup. case_decide; [|done]. by destruct (c !! b). Qed.

Lemma refs_put b p c j :
  refs c b + 1 < 2 ^ 64 -> 0 <= refs c b -> refs (put b p true c) j = refs c j + (if decide (b = j) then 1 else 0).
Proof.
  intros H1 H2. unfold refs at 1. rewrite put_lookup. destruct (decide (j = b)) as [->|].
  - rewrite decide_True by done. simpl. apply u64_small. lia.
  - rewrite decide_False by done. fold (refs c j). lia.
Qed.

Lemma refs_nonneg c b : cache_wf c -> 0 <= refs c b.
Proof. intros H. unfold refs. destruct (c !! b) as [v|] eqn:E; [|lia]. specialize (H _ _ E). simpl in H. lia. Qed.

Lemma cache_wf_put b p c : refs c b + 1 < 2 ^ 64 -> cache_wf c -> cache_wf (put b p true c).
Proof.
  intros Hb H j v Hj. rewrite put_lookup in Hj. case_decide; [|by eapply H].
  injection Hj as <-. simpl. pose proof (refs_nonneg c b H). rewrite u64_small; lia.
Qed.

Lemma get_spec b c :
  cache_wf c -> refs c b + 1 < 2 ^ 64 ->
  exists c', get b true c = Ok (c', buf <$> c !! b) /\ cache_wf c' /\
    (forall j, buf <$> c' !! j = buf <$> c !! j) /\
    (forall j, refs c' j = refs c j + (if decide (b = j) then (if c !! b then 1 else 0) else 0)).
Proof.
  intros Hwf Hb. unfold get, update_fn. destruct (c !! b) as [v|] eqn:E; simpl.
  - pose proof (Hwf _ _ E) as Hv. simpl in Hv. unfold refs in Hb. rewrite E in Hb.
    rewrite u64_small by lia. eexists. split_and!; [done | | |].
    + intros j w Hj. apply lookup_insert_Some in Hj as [[-> <-]|[_ Hj]]; [simpl; lia | by eapply Hwf].
    + intros j. destruct (decide (b = j)) as [->|]; [by rewrite lookup_insert_eq, E | by rewrite lookup_insert_ne].
    + intros j. unfold refs. destruct (decide (b = j)) as [->|].
      * by rewrite lookup_insert_eq, E.
      * rewrite lookup_insert_ne by done. lia.
  - eexists. split_and!; [done | done | done |]. intros j. case_decide; lia.
Qed.

Lemma read_cached_spec : forall reqs c,
  cache_wf c -> (forall b, refs c b + Z.of_nat (length reqs) < 2 ^ 64) ->
  exists c', read_cached reqs c = Ok (c', (fun b => buf <$> c !! b) <$> reqs) /\ cache_wf c' /\
    (forall j, buf <$> c' !! j = buf <$> c !! j) /\
    (forall j, refs c' j = refs c j + (if c !! j then count j reqs else 0)).
Proof.
  induction reqs as [|b reqs IH]; intros c Hwf Hb.
  - exists c. split_and!; try done. intros j. destruct (c !! j); unfold count; simpl; lia.
  - cbn [read_cached length] in *. destruct (get_spec b c Hwf) as (c1 & -> & Hwf1 & Hbuf1 & Hr1); [specialize (Hb b); lia|].
    cbn [mbind outcome_bind].
    assert (forall j, is_Some (c1 !! j) <-> is_Some (c !! j)) as Hdom.
    { intros j. rewrite <- !(fmap_is_Some buf). by rewrite Hbuf1. }
    destruct (IH c1 Hwf1) as (c2 & -> & Hwf2 & Hbuf2 & Hr2).
    { intros j. rewrite Hr1. specialize (Hb j). case_decide; [destruct (c !! b)|]; lia. }
    cbn [mbind outcome_bind]. exists c2. split_and!; [| done | |].
    + simpl. do 3 f_equal. apply list_fmap_ext. intros ???. apply Hbuf1.
    + intros j. by rewrite Hbuf2, Hbuf1.
    + intros j. rewrite Hr2, Hr1, count_cons.
      assert ((if c1 !! j then count j reqs else 0) = if c !! j then count j reqs else 0) as ->.
      { specialize (Hdom j). destruct (c1 !! j), (c !! j); try done; exfalso.
        - by destruct (proj1 Hdom ltac:(eauto)).
        - by destruct (proj2 Hdom ltac:(eauto)). }
      destruct (decide (b = j)) as [->|]; destruct (c !! j); lia.
Qed.

(** [c0] is the cache when the hits were decided. *)
Lemma put_misses_spec (c0 : gmap Z PageCacheItem) d : forall reqs c,
  cache_wf c -> (forall b, refs c b + Z.of_nat (length reqs) < 2 ^ 64) ->
  (forall j v, c0 !! j = Some v -> buf <$> c !! j = Some (buf v)) ->
  (forall j w, c0 !! j = None -> c !! j = Some w -> buf w = d j) ->
  exists c', put_misses reqs ((fun b => buf <$> c0 !! b) <$> reqs) d c =
      (c', (fun b => match c0 !! b with Some v => buf v | None => d b end) <$> reqs) /\ cache_wf c' /\
    (forall j v, c0 !! j = Some v -> buf <$> c' !! j = Some (buf v)) /\
    (forall j w, c0 !! j = None -> c' !! j = Some w -> buf w = d j) /\
    (forall j, refs c' j = refs c j + (if c0 !! j then 0 else count j reqs)).
Proof.
  induction reqs as [|b reqs IH]; intros c Hwf Hb Hc Hn; cbn [put_misses length fmap list_fmap] in *.
  - exists c. split_and!; try done. intros j. destruct (c0 !! j); unfold count; simpl; lia.
  - destruct (c0 !! b) as [v|] eqn:E; cbn [fmap option_fmap option_map].
    + destruct (IH c Hwf) as (c' & -> & ? & ? & ? & Hr); [intros j; specialize (Hb j); lia | done | done |].
      exists c'. split_and!; try done. intros j. rewrite Hr, count_cons.
      destruct (c0 !! j) eqn:Ej; [done|]. rewrite decide_False by congruence. lia.
    + pose proof (refs_nonneg c b Hwf).
      destruct (IH (put b (d b) true c)) as (c' & -> & ? & ? & ? & Hr).
      * apply cache_wf_put; [specialize (Hb b); lia | done].
      * intros j. rewrite refs_put by (specialize (Hb b); lia). specialize (Hb j). case_decide; lia.
      * intros j v Hj. rewrite put_lookup. rewrite decide_False by congruence. by apply Hc.
      * intros j w Hj. rewrite put_lookup. case_decide as Ej; [|by apply Hn]. subst j. by intros [= <-].
      * exists c'. split_and!; try done. intros j. rewrite Hr, refs_put, count_cons by (specialize (Hb b); lia).
        destruct (decide (b = j)) as [->|]; [by rewrite E; lia|]. destruct (c0 !! j); lia.
Qed.

Lemma read_alloc_spec reqs s :
  cache_wf (pcache s) -> (forall b, refs (pcache s) b + 2 * Z.of_nat (length reqs) < 2 ^ 64) ->
  exists s', read_alloc reqs s = Ok (s', view s <$> reqs, reqs) /\
    cache_wf (pcache s') /\ disk s' = disk s /\ (forall b, view s' b = view s b) /\
    (forall b v, pcache s !! b = Some v -> buf <$> pcache s' !! b = Some (buf v)) /\
    (forall b, refs (pcache s') b = refs (pcache s) b + count b reqs).
Proof.
  intros Hwf Hb. unfold read_alloc.
  destruct (read_cached_spec reqs (pcache s) Hwf) as (c1 & -> & Hwf1 & Hbuf1 & Hr1); [intros b; specialize (Hb b); lia|].
  cbn [mbind outcome_bind].
  assert (forall j, count j reqs <= Z.of_nat (length reqs)) as Hcnt.
  { intros j. unfold count. pose proof (length_filter (.= j) reqs). lia. }
  destruct (put_misses_spec (pcache s) (disk s) reqs c1) as (c2 & -> & Hwf2 & Hc2 & Hn2 & Hr2); [done | | | |].
  - intros b. rewrite Hr1. specialize (Hb b). specialize (Hcnt b). destruct (pcache s !! b); lia.
  - intros j v Hj. by rewrite Hbuf1, Hj.
  - intros j w Hj Hw. exfalso. specialize (Hbuf1 j). by rewrite Hj, Hw in Hbuf1.
  - eexists. split_and!; [done | done | done | | done |].
    + intros b. unfold view; simpl. destruct (pcache s !! b) as [v|] eqn:E.
      * specialize (Hc2 b v E). destruct (c2 !! b); simplify_eq/=. done.
      * destruct (c2 !! b) as [w|] eqn:Ew; [by eapply Hn2 | done].
    + intros b. simpl. rewrite Hr2, Hr1. destruct (pcache s !! b); lia.
Qed.

Lemma cache_deref_spec b c :
  cache_wf c -> 1 <= refs c b < 2 ^ 64 ->
  exists c', cache_deref b c = Ok (false, c') /\ cache_wf c' /\
    (forall j w, c' !! j = Some w -> buf <$> c !! j = Some (buf w)) /\
    (forall j, refs c' j = refs c j - (if decide (b = j) then 1 else 0)).
Proof.
  intros Hwf Hb. unfold cache_deref, uprase_fn. unfold refs in Hb. destruct (c !! b) as [v|] eqn:E; [|lia].
  cbn [mbind outcome_bind]. rewrite u64_small by lia. eexists. split; [done|].
  destruct (Z.eqb_spec (ref_cnt v - 1) 0) as [E0|E0].
  - split_and!.
    + by apply map_Forall_delete.
    + intros j w Hj. apply lookup_delete_Some in Hj as [_ Hj]. by rewrite Hj.
    + intros j. unfold refs. destruct (decide (b = j)) as [->|].
      * rewrite lookup_delete_eq, E. lia.
      * rewrite lookup_delete_ne by done. lia.
  - split_and!.
    + apply map_Forall_insert_2; [simpl; lia | done].
    + intros j w Hj. apply lookup_insert_Some in Hj as [[<- <-]|[_ Hj]]; [by rewrite E | by rewrite Hj].
    + intros j. unfold refs. destruct (decide (b = j)) as [->|].
      * rewrite lookup_insert_eq, E. simpl. lia.
      * rewrite lookup_insert_ne by done. lia.
Qed.

Lemma deref_spec : forall l s,
  cache_wf (pcache s) -> (forall b, count b l <= refs (pcache s) b < 2 ^ 64) ->
  exists s', deref l s = Ok s' /\ cache_wf (pcache s') /\ disk s' = disk s /\
    (forall b w, pcache s' !! b = Some w -> buf <$> pcache s !! b = Some (buf w)) /\
    (forall b, refs (pcache s') b = refs (pcache s) b - count b l).
Proof.
  unfold deref. induction l as [|b l IH]; intros s Hwf Hb; cbn [foldM].
  - exists s. destruct s. split_and!; try done; simpl.
    + by intros b w ->.
    + intros b. unfold count. simpl. lia.
  - pose proof (Hb b) as Hbb. rewrite count_cons, decide_True in Hbb by done. pose proof (count_nonneg b l).
    destruct (cache_deref_spec b (pcache s) Hwf) as (c1 & -> & Hwf1 & Hk1 & Hr1); [lia|].
    cbn [mbind outcome_bind].
    destruct (IH {| pcache := c1; disk := disk s |}) as (s' & Hd & Hwf2 & Hdk & Hk2 & Hr2); [done | |].
    { intros j. simpl. rewrite Hr1. specialize (Hb j). rewrite count_cons in Hb. case_decide; lia. }
    simpl in Hd. exists s'. split_and!; [done | done | done | |].
    + intros j w Hw. destruct (pcache s !! j) as [v|] eqn:E; specialize (Hk2 j w Hw); simpl in Hk2;
        destruct (c1 !! j) as [v1|] eqn:E1; simplify_eq/=; specialize (Hk1 j v1 E1); rewrite E in Hk1; simplify_eq/=; congruence.
    + intros j. rewrite Hr2. simpl. rewrite Hr1, count_cons. lia.
Qed.

(** ** Writing back *)
Definition updated (reqs : list (Z * page)) (v : Z -> page) : Z -> page :=
  foldl (fun d '(b, p) b' => if b' =? b then p else d b') v reqs.
Arguments updated : simpl never.

Lemma updated_cons b p reqs v : updated ((b, p) :: reqs) v = updated reqs (fun b' => if b' =? b then p else v b').
Proof. done. Qed.

Lemma updated_ext reqs v v' b : (forall b, v b = v' b) -> updated reqs v b = updated reqs v' b.
Proof.
  revert v v'. induction reqs as [|[b0 p] reqs IH]; intros v v' H; [apply H|].
  rewrite !updated_cons. apply IH. intros b'. case_match; [done | apply H].
Qed.

(** A written page does not depend on what was there, another one is kept. *)
Lemma updated_in reqs v v' b : b ∈ reqs.*1 -> updated reqs v b = updated reqs v' b.
Proof.
  revert v v'. induction reqs as [|[b0 p] reqs IH]; intros v v' H; [by apply elem_of_nil in H|].
  rewrite !updated_cons. destruct (decide (b ∈ reqs.*1)) as [Hin|Hni]; [by apply IH|].
  assert (b = b0) as -> by set_solver. clear H IH.
  assert (forall w, updated reqs w b0 = w b0) as Hk; [|by rewrite !Hk, Z.eqb_refl].
  revert Hni. induction reqs as [|[b1 p1] reqs IH]; intros Hni w; [done|].
  rewrite updated_cons, IH by set_solver. destruct (Z.eqb_spec b0 b1); [set_solver | done].
Qed.

Lemma updated_out reqs v b : b ∉ reqs.*1 -> updated reqs v b = v b.
Proof.
  revert v. induction reqs as [|[b1 p1] reqs IH]; intros v Hni; [done|].
  rewrite updated_cons, IH by set_solver. destruct (Z.eqb_spec b b1); [set_solver | done].
Qed.

Lemma wbc_write_spec : forall reqs s,
  cache_wf (pcache s) -> (forall b, refs (pcache s) b + Z.of_nat (length reqs) < 2 ^ 64) ->
  let s' := (wbc_write reqs s).1 in
  cache_wf (pcache s') /\ disk s' = disk s /\ (forall b, view s' b = updated reqs (view s) b) /\
  (forall b, b ∈ reqs.*1 -> is_Some (pcache s' !! b)) /\
  (forall b, refs (pcache s') b = refs (pcache s) b + count b reqs.*1).
Proof.
  unfold wbc_write; simpl. induction reqs as [|[b p] reqs IH]; intros s Hwf Hb; cbn [foldl length fmap list_fmap fst] in *.
  - split_and!; try done; [set_solver|]. intros b. unfold count; simpl; lia.
  - pose proof (refs_nonneg _ b Hwf) as Hnn. pose proof (Hb b).
    destruct (IH {| pcache := put b p true (pcache s); disk := disk s |}) as (H1 & H2 & H3 & H4 & H5); simpl.
    + apply cache_wf_put; [lia | done].
    + intros j. rewrite refs_put by lia. specialize (Hb j). case_decide; lia.
    + simpl in *. split_and!; [done | done | | |].
      * intros j. rewrite updated_cons, H3. apply updated_ext. intros j'. unfold view; simpl.
        rewrite put_lookup. destruct (decide (j' = b)) as [->|Hne]; [by rewrite Z.eqb_refl|].
        by rewrite (proj2 (Z.eqb_neq _ _) Hne).
      * intros j Hj. destruct (decide (j ∈ reqs.*1)); [by apply H4|].
        assert (j = b) as -> by set_solver. clear -n.
        enough (forall c, is_Some (c !! b) -> is_Some (foldl (fun c '(b, p) => put b p true c) c reqs !! b)) as Hk
          by (apply Hk; rewrite put_lookup, decide_True by done; eauto).
        induction reqs as [|[b1 p1] reqs IH]; intros c Hc; [done|]. simpl. apply IH; [set_solver|].
        rewrite put_lookup. case_decide; eauto.
      * intros j. rewrite H5, refs_put, count_cons by lia. lia.
Qed.

(** C30. Reading through the cache is transparent for one thread at a time and
    requests of one page each: [read_alloc] returns for every request the page
    a reader sees, pins each page once per request, changes
    nothing a reader sees; and dropping the references it reports brings the
    reference counts back, again without a visible change. *)
Theorem read_alloc_transparent reqs s :
  cache_wf (pcache s) -> (forall b, refs (pcache s) b + 2 * Z.of_nat (length reqs) < 2 ^ 64) ->
  exists s1 s2,
    read_alloc reqs s = Ok (s1, view s <$> reqs, reqs) /\
    (forall b, view s1 b = view s b /\ refs (pcache s1) b = refs (pcache s) b + count b reqs) /\
    deref reqs s1 = Ok s2 /\ cache_wf (pcache s2) /\
    (forall b, view s2 b = view s b /\ refs (pcache s2) b = refs (pcache s) b).
Proof.
  intros Hwf Hb. destruct (read_alloc_spec reqs s Hwf Hb) as (s1 & H1 & Hwf1 & Hd1 & Hv1 & Hk1 & Hr1).
  assert (forall j, count j reqs <= Z.of_nat (length reqs)) as Hcnt.
  { intros j. unfold count. pose proof (length_filter (.= j) reqs). lia. }
  destruct (deref_spec reqs s1 Hwf1) as (s2 & H2 & Hwf2 & Hd2 & Hk2 & Hr2).
  { intros b. rewrite Hr1. pose proof (refs_nonneg _ b Hwf). specialize (Hb b). specialize (Hcnt b). lia. }
  exists s1, s2. split_and!; try done. intros b.
  assert (refs (pcache s2) b = refs (pcache s) b) as Hrb by (rewrite Hr2, Hr1; lia).
  split; [|done]. rewrite <- Hv1. unfold view. destruct (pcache s2 !! b) as [w|] eqn:Ew.
  - specialize (Hk2 b w Ew). by destruct (pcache s1 !! b); simplify_eq/=.
  - rewrite Hd2. destruct (pcache s1 !! b) as [w|] eqn:E1; [|done].
    assert (pcache s !! b = None) as E.
    { destruct (pcache s !! b) as [v|] eqn:E; [|done]. exfalso. unfold refs in Hrb. rewrite Ew, E in Hrb.
      pose proof (Hwf _ _ E) as H. simpl in H. lia. }
    specialize (Hv1 b). unfold view in Hv1. rewrite E1, E in Hv1. by rewrite Hd1.
Qed.

(** The write-back cycle of an insertion: after [wbc_write] every reader sees
    the written pages, also while the disk still has the old ones; after the
    disk write and the release of the references the same pages are visible,
    whoever else holds references, and the reference counts are as before. *)
Theorem write_back_cycle reqs s :
  cache_wf (pcache s) -> (forall b, refs (pcache s) b + Z.of_nat (length reqs) < 2 ^ 64) ->
  exists s1 s3,
    wbc_write reqs s = (s1, reqs.*1) /\
    (forall b, view s1 b = updated reqs (view s) b /\ view (disk_write reqs s1) b = updated reqs (view s) b) /\
    deref reqs.*1 (disk_write reqs s1) = Ok s3 /\ cache_wf (pcache s3) /\
    (forall b, view s3 b = updated reqs (view s) b /\ refs (pcache s3) b = refs (pcache s) b).
Proof.
  intros Hwf Hb. destruct (wbc_write_spec reqs s Hwf Hb) as (Hwf1 & Hd1 & Hv1 & Hin1 & Hr1).
  destruct (wbc_write reqs s) as [s1 pr] eqn:E. simpl in *. assert (pr = reqs.*1) as -> by (unfold wbc_write in E; congruence).
  assert (forall b, view (disk_write reqs s1) b = updated reqs (view s) b) as Hv2.
  { intros b. unfold view at 1; simpl. specialize (Hv1 b). unfold view at 1 in Hv1.
    destruct (pcache s1 !! b) as [w|] eqn:Ew; [done|].
    destruct (decide (b ∈ reqs.*1)) as [Hb'|Hb']; [by destruct (Hin1 b Hb'); congruence|].
    change (updated reqs (disk s1) b = updated reqs (view s) b).
    rewrite updated_out by done. done. }
  destruct (deref_spec reqs.*1 (disk_write reqs s1) Hwf1) as (s3 & H3 & Hwf3 & Hd3 & Hk3 & Hr3).
  { intros b. simpl. rewrite Hr1. pose proof (refs_nonneg _ b Hwf). specialize (Hb b).
    assert (count b reqs.*1 <= Z.of_nat (length reqs)).
    { unfold count. pose proof (length_filter (.= b) reqs.*1) as Hlf. rewrite length_fmap in Hlf. lia. }
    lia. }
  exists s1, s3. split_and!; try done. intros b. simpl in *.
  assert (refs (pcache s3) b = refs (pcache s) b) as Hrb by (rewrite Hr3, Hr1; lia).
  split; [|done]. rewrite <- Hv2. unfold view. destruct (pcache s3 !! b) as [w|] eqn:Ew.
  - specialize (Hk3 b w Ew). simpl. by destruct (pcache s1 !! b); simplify_eq/=.
  - rewrite Hd3. simpl. destruct (pcache s1 !! b) as [w|] eqn:E1; [|done].
    change (updated reqs (disk s1) b = buf w). specialize (Hv1 b). unfold view at 1 in Hv1. rewrite E1 in Hv1.
    destruct (decide (b ∈ reqs.*1)) as [Hb'|Hb']; [rewrite Hv1; by apply updated_in|].
    exfalso. specialize (Hr1 b). unfold refs in Hrb, Hr1. rewrite Ew in Hrb. rewrite E1 in Hr1.
    pose proof (Hwf1 _ _ E1) as H. simpl in H.
    pose proof (count_out b _ Hb'). lia.
Qed.

(** A cache with one pinned page. *)
Definition demo_io : io_state := {| pcache := {[4 := {| buf := [1]; ref_cnt := 2 |}]}; disk := fun b => [b] |}.

Lemma demo_io_wf : cache_wf (pcache demo_io).
Proof. by apply map_Forall_singleton. Qed.
Lemma demo_io_refs b : 0 <= refs (pcache demo_io) b <= 2.
Proof.
  unfold refs, demo_io; simpl. destruct (decide (b = 4)) as [->|].
  - rewrite lookup_singleton_eq. simpl. lia.
  - rewrite lookup_singleton_ne by done. lia.
Qed.

Lemma read_alloc_witness : exists s1 s2,
  read_alloc [4; 7; 7] demo_io = Ok (s1, view demo_io <$> [4; 7; 7], [4; 7; 7]) /\
  (forall b, view s1 b = view demo_io b /\ refs (pcache s1) b = refs (pcache demo_io) b + count b [4; 7; 7]) /\
  deref [4; 7; 7] s1 = Ok s2 /\ cache_wf (pcache s2) /\
  (forall b, view s2 b = view demo_io b /\ refs (pcache s2) b = refs (pcache demo_io) b).
Proof.
  apply (read_alloc_transparent [4; 7; 7] demo_io); [apply demo_io_wf|].
  intros b. pose proof (demo_io_refs b). simpl length. lia.
Defined.

Lemma write_back_witness : exists s1 s3,
  wbc_write [(4, [9]); (7, [8])] demo_io = (s1, [4; 7]) /\
  (forall b, view s1 b = updated [(4, [9]); (7, [8])] (view demo_io) b /\
     view (disk_write [(4, [9]); (7, [8])] s1) b = updated [(4, [9]); (7, [8])] (view demo_io) b) /\
  deref [4; 7] (disk_write [(4, [9]); (7, [8])] s1) = Ok s3 /\ cache_wf (pcache s3) /\
  (forall b, view s3 b = updated [(4, [9]); (7, [8])] (view demo_io) b /\
     refs (pcache s3) b = refs (pcache demo_io) b).
Proof.
  apply (write_back_cycle [(4, [9]); (7, [8])] demo_io); [apply demo_io_wf|].
  intros b. pose proof (demo_io_refs b). simpl length. lia.
Defined.

(** Reader B misses page 7, writer A puts the new page, B puts the page it read
    from the disk, A writes to the disk and drops its reference; the result is
    the page on the disk and the page the next reader gets. *)
Definition stale_run : outcome (page * page) :=
  let s0 := {| pcache := ∅; disk := fun _ => [0] |} in
  '(c1, hits) ← read_cached [7] (pcache s0);
  let '(sA, refsA) := wbc_write [(7, [1])] {| pcache := c1; disk := disk s0 |} in
  let '(c2, _) := put_misses [7] hits (disk s0) (pcache sA) in
  s ← deref refsA (disk_write [(7, [1])] {| pcache := c2; disk := disk sA |});
  Ok (disk s 7, view s 7).

(** [read_alloc] puts a page it read from the disk into the cache even when
    another thread has put a newer version there in the meantime: in the
    interleaving [stale_run] the next reader of the page gets the old content
    although the disk has the new one. *)
Theorem stale_page_enters_cache : stale_run = Ok ([1], [0]).
Proof. vm_compute. reflexivity. Qed.
