(* ===== verification/Neighbor.v ===== *)
(** * Candidate pools

    [Neighbor] and [InsertIntoPool] of [include/neighbor.h]: the sorted
    candidate list that every search loop maintains.  Distances are floats; a
    pool only compares them, and for numbers other than NaN the comparison is a
    strict weak order, which is all that is assumed here. *)
From S2P Require Import Prelude.

(** [<] on distances. *)
Class DistOrd (D : Type) := {
  dlt : D -> D -> bool;
  dlt_asym : forall x y, dlt x y = true -> dlt y x = false;
  dlt_ntrans : forall x y z, dlt y x = false -> dlt z y = false -> dlt z x = false;
}.

#[global] Program Instance Z_DistOrd : DistOrd Z := {| dlt := Z.ltb |}.
Next Obligation. intros x y. rewrite Z.ltb_lt, Z.ltb_ge. lia. Qed.
Next Obligation. intros x y z. rewrite !Z.ltb_ge. lia. Qed.

Record Neighbor (D : Type) := { id : Z; distance : D; flag : bool; visited : bool }.
Arguments id {_} _.
Arguments distance {_} _.
Arguments flag {_} _.
Arguments visited {_} _.

Section pool.
Context {D : Type} `{!DistOrd D}.
Implicit Types (addr : list (Neighbor D)) (nn x : Neighbor D).

(** [addr[i]]; reading past the end of the array is an error. *)
Definition at_ addr (i : nat) : outcome (Neighbor D) :=
  match addr !! i with Some x => Ok x | None => Crash end.

(** The binary search. *)
Fixpoint bsearch (fuel : nat) addr nn (left right : nat) : outcome (nat * nat) :=
  match fuel with
  | O => Crash
  | S fuel =>
      if bool_decide (1 < right)%nat && bool_decide (left < right - 1)%nat then
        let mid := ((left + right) / 2)%nat in
        x ← at_ addr mid;
        if dlt (distance nn) (distance x) then bsearch fuel addr nn left mid
        else bsearch fuel addr nn mid right
      else Ok (left, right)
  end.

(** The scan to the left over equal distances; [None] when the identifier was
    found. *)
Fixpoint dup_scan addr nn (left : nat) : outcome (option nat) :=
  match left with
  | O => Ok (Some O)
  | S left' =>
      x ← at_ addr left;
      if dlt (distance x) (distance nn) then Ok (Some left)
      else if id x =? id nn then Ok None
      else dup_scan addr nn left'
  end.

Definition insert_at (i : nat) nn addr : list (Neighbor D) := take i addr ++ nn :: drop i addr.

(** The pool is the first [K] entries of the array; the entry after them is
    free.  The result is the pool and the returned position. *)
Definition InsertIntoPool addr nn : outcome (list (Neighbor D) * nat) :=
  let K := length addr in
  first ← at_ addr 0;
  if dlt (distance nn) (distance first) then Ok (insert_at 0 nn addr, 0%nat) else
  last ← at_ addr (K - 1);
  if dlt (distance last) (distance nn) then Ok (insert_at K nn addr, K) else
  '(l, r) ← bsearch (S K) addr nn 0 (K - 1);
  scan ← dup_scan addr nn l;
  match scan with
  | None => Ok (addr, S K)
  | Some l =>
      xl ← at_ addr l;
      xr ← at_ addr r;
      if (id xl =? id nn) || (id xr =? id nn) then Ok (addr, S K)
      else Ok (insert_at r nn addr, r)
  end.

Lemma at_Ok addr i x : addr !! i = Some x -> at_ addr i = Ok x.
Proof. unfold at_. by intros ->. Qed.

(** ** Correctness *)
Definition nle x y : Prop := dlt (distance y) (distance x) = false.
Definition sorted_pool addr : Prop := StronglySorted nle addr.

#[local] Instance nle_trans : Transitive nle.
Proof. intros x y z. unfold nle. apply dlt_ntrans. Qed.

Lemma nle_refl x : nle x x.
Proof.
  unfold nle. destruct (dlt (distance x) (distance x)) eqn:E; [|done]. by rewrite (dlt_asym _ _ E) in E.
Qed.

Lemma dlt_nle x y : dlt (distance x) (distance y) = true -> nle x y.
Proof. apply dlt_asym. Qed.

(** Nothing lies strictly between: a point below [y] is below what [y] is below. *)
Lemma nle_dlt x y z : nle x y -> dlt (distance y) (distance z) = true -> dlt (distance x) (distance z) = true.
Proof.
  intros Hxy Hyz. destruct (dlt (distance x) (distance z)) eqn:E; [done|].
  pose proof (nle_trans z x y E Hxy) as H. unfold nle in H. congruence.
Qed.

Lemma sorted_lookup addr i j x y :
  sorted_pool addr -> (i < j)%nat -> addr !! i = Some x -> addr !! j = Some y -> nle x y.
Proof.
  intros Hs Hij Hx Hy. rewrite <- (take_drop j addr) in Hs.
  apply (StronglySorted_app_1_elem_of _ _ _ _ _ Hs).
  - apply list_elem_of_lookup. exists i. by rewrite lookup_take_lt.
  - apply list_elem_of_lookup. exists 0%nat. rewrite lookup_drop. by rewrite Nat.add_0_r.
Qed.

Lemma sorted_insert addr i nn :
  sorted_pool addr ->
  (forall j x, (j < i)%nat -> addr !! j = Some x -> nle x nn) ->
  (forall j x, (i <= j)%nat -> addr !! j = Some x -> nle nn x) ->
  sorted_pool (insert_at i nn addr).
Proof.
  intros Hs Hl Hr. unfold insert_at, sorted_pool. pose proof Hs as Hs'.
  rewrite <- (take_drop i addr) in Hs. apply StronglySorted_app in Hs as (Hx & H1 & H2).
  assert (forall x, x ∈ take i addr -> nle x nn) as Hl'.
  { intros x (j & Hj)%list_elem_of_lookup. apply lookup_take_Some in Hj as [Hj ?]. eauto. }
  assert (forall x, x ∈ drop i addr -> nle nn x) as Hr'.
  { intros x (j & Hj)%list_elem_of_lookup. rewrite lookup_drop in Hj. apply (Hr (i + j)%nat); [lia | done]. }
  apply StronglySorted_app_2; [|done|].
  - intros x y Hxin [->|Hy]%elem_of_cons; [by apply Hl'|]. by apply Hx.
  - constructor; [done|]. by apply Forall_forall.
Qed.

(** The search ends next to the place of [nn], with enough fuel. *)
Lemma bsearch_spec addr nn : forall fuel left right,
  sorted_pool addr -> (right < length addr)%nat -> (left <= right)%nat -> (right - left < fuel)%nat ->
  (forall x, addr !! left = Some x -> nle x nn) ->
  (forall x, addr !! right = Some x -> nle nn x) ->
  (left < right \/ right = 0)%nat ->
  exists l r, bsearch fuel addr nn left right = Ok (l, r) /\ (r < length addr)%nat /\
    (l < r \/ r = 0)%nat /\ (l <= r <= S l)%nat /\
    (forall x, addr !! l = Some x -> nle x nn) /\
    (forall x, addr !! r = Some x -> nle nn x) /\
    ((r = right) \/ forall x, addr !! r = Some x -> dlt (distance nn) (distance x) = true).
Proof.
  induction fuel as [|fuel IH]; intros left right Hs Hr Hlr Hf Hl Hrt Hlt; [lia|]. cbn [bsearch].
  destruct (decide (1 < right /\ left < right - 1)%nat) as [[H1 H2]|Hn].
  - rewrite !bool_decide_eq_true_2 by done. cbn [andb]. set (mid := ((left + right) / 2)%nat).
    assert (left < mid < right)%nat as [Hm1 Hm2].
    { subst mid. split.
      - apply Nat.lt_le_trans with ((left + (left + 2)) / 2)%nat; [|apply Nat.Div0.div_le_mono; lia].
        replace (left + (left + 2))%nat with ((left + 1) * 2)%nat by lia. rewrite Nat.div_mul by lia. lia.
      - apply Nat.Div0.div_lt_upper_bound; lia. }
    destruct (lookup_lt_is_Some_2 addr mid ltac:(lia)) as [x Hx].
    unfold at_. rewrite Hx. cbn [mbind outcome_bind]. destruct (dlt (distance nn) (distance x)) eqn:E.
    + destruct (IH left mid) as (l & r & -> & ? & ? & ? & ? & ? & Hd); try done; try lia.
      * intros y Hy. simplify_eq. by apply dlt_nle.
      * exists l, r. split_and!; try done; try lia. right. destruct Hd as [->|Hd]; [|done].
        intros y Hy. by simplify_eq.
    + destruct (IH mid right) as (l & r & -> & ? & ? & ? & ? & ? & Hd); try done; try lia.
      * intros y Hy. by simplify_eq.
      * by exists l, r.
  - destruct (bool_decide (1 < right)%nat && bool_decide (left < right - 1)%nat) eqn:Eb.
    { apply andb_true_iff in Eb as [?%bool_decide_eq_true_1 ?%bool_decide_eq_true_1]. lia. }
    exists left, right. split_and!; try done; try lia; by left.
Qed.

Lemma dlt_nle_trans x y z : dlt (distance x) (distance y) = true -> nle y z -> dlt (distance x) (distance z) = true.
Proof.
  intros Hxy Hyz. destruct (dlt (distance x) (distance z)) eqn:E; [done|].
  pose proof (nle_trans y z x Hyz E) as H. unfold nle in H. congruence.
Qed.

Lemma dup_scan_spec addr nn : forall left,
  (left < length addr)%nat ->
  (dup_scan addr nn left = Ok None /\ exists j x, addr !! j = Some x /\ id x = id nn) \/
  (exists l, dup_scan addr nn left = Ok (Some l) /\ (l <= left)%nat /\
     (forall j x, (l < j <= left)%nat -> addr !! j = Some x -> id x <> id nn) /\
     (l = 0%nat \/ exists x, addr !! l = Some x /\ dlt (distance x) (distance nn) = true)).
Proof.
  induction left as [|left IH]; intros Hlt; cbn [dup_scan].
  - right. exists 0%nat. split_and!; [done | done | lia | by left].
  - destruct (lookup_lt_is_Some_2 addr (S left) Hlt) as [x Hx]. unfold at_. rewrite Hx. cbn [mbind outcome_bind].
    destruct (dlt (distance x) (distance nn)) eqn:E.
    + right. exists (S left). split_and!; [done | done | lia |]. right. by exists x.
    + destruct (Z.eqb_spec (id x) (id nn)) as [Eid|Eid]; [left; split; [done|]; by exists (S left), x|].
      destruct (IH ltac:(lia)) as [?|(l & -> & Hl & Hall & Hend)]; [by left|].
      right. exists l. split_and!; [done | lia | | done].
      intros j y Hj Hy. destruct (decide (j = S left)) as [->|]; [congruence|]. apply (Hall j); [lia | done].
Qed.

(** The postcondition: rejected as a duplicate, or inserted at [r]. *)
Definition pool_post addr nn addr' (r : nat) : Prop :=
  (r = S (length addr) /\ addr' = addr /\ exists x, x ∈ addr /\ id x = id nn) \/
  ((r <= length addr)%nat /\ addr' = insert_at r nn addr /\ sorted_pool addr' /\
   forall x, x ∈ addr -> id x = id nn ->
     dlt (distance x) (distance nn) = true \/ dlt (distance nn) (distance x) = true).

Lemma pool_post_insert addr nn r :
  sorted_pool addr -> (r <= length addr)%nat ->
  (forall j x, (j < r)%nat -> addr !! j = Some x -> nle x nn) ->
  (forall j x, (r <= j)%nat -> addr !! j = Some x -> nle nn x) ->
  (forall j x, addr !! j = Some x -> id x = id nn ->
     dlt (distance x) (distance nn) = true \/ dlt (distance nn) (distance x) = true) ->
  pool_post addr nn (insert_at r nn addr) r.
Proof.
  intros Hs Hr Hl Hg Hd. right. split_and!; [done | done | by apply sorted_insert |].
  intros x (j & Hj)%list_elem_of_lookup. by apply (Hd j).
Qed.

(** The last phase: what the search and the scan found decides. *)
Lemma pool_post_search addr nn l l' r :
  sorted_pool addr -> (r < length addr)%nat -> (l <= r <= S l)%nat -> (l < r \/ r = 0)%nat -> (l' <= l)%nat ->
  (forall x, addr !! l = Some x -> nle x nn) -> (forall x, addr !! r = Some x -> nle nn x) ->
  (r = (length addr - 1)%nat \/ forall x, addr !! r = Some x -> dlt (distance nn) (distance x) = true) ->
  (forall j x, (l' < j <= l)%nat -> addr !! j = Some x -> id x <> id nn) ->
  (l' = 0%nat \/ exists x, addr !! l' = Some x /\ dlt (distance x) (distance nn) = true) ->
  (forall x, addr !! l' = Some x -> id x <> id nn) -> (forall x, addr !! r = Some x -> id x <> id nn) ->
  pool_post addr nn (insert_at r nn addr) r.
Proof.
  intros Hs Hr Hlr Hlr' Hl' Hxl Hxr Hright Hscan Hend Hidl Hidr.
  destruct (lookup_lt_is_Some_2 addr l ltac:(lia)) as [xl El].
  destruct (lookup_lt_is_Some_2 addr r Hr) as [xr Er].
  apply pool_post_insert; [done | lia | | |].
  - intros j x Hj Hx. destruct (decide (j = l)) as [->|]; [by apply Hxl|].
    etrans; [apply (sorted_lookup addr j l); [done | lia | done | done] | by apply Hxl].
  - intros j x Hj Hx. destruct (decide (j = r)) as [->|]; [by apply Hxr|].
    etrans; [by apply Hxr | apply (sorted_lookup addr r j); [done | lia | done | done]].
  - intros j x Hx Hid. destruct (decide (j = r)) as [->|Hjr]; [by destruct (Hidr x Hx)|].
    destruct (decide (j < r)%nat) as [Hlt|Hge].
    + left. assert (j <= l)%nat as Hjl by lia.
      destruct (decide (l' < j)%nat) as [Hj'|Hj']; [by destruct (Hscan j x ltac:(lia) Hx)|].
      destruct (decide (j = l')) as [->|]; [by destruct (Hidl x Hx)|].
      destruct Hend as [->|(y & Hy & Hd)]; [lia|]. apply (nle_dlt x y nn); [|done].
      apply (sorted_lookup addr j l'); [done | lia | done | done].
    + right. destruct Hright as [->|Hd]; [apply lookup_lt_Some in Hx; lia|].
      apply (dlt_nle_trans nn xr x); [by apply Hd|].
      apply (sorted_lookup addr r j); [done | lia | done | done].
Qed.

Lemma InsertIntoPool_spec addr nn :
  sorted_pool addr -> (0 < length addr)%nat ->
  exists addr' r, InsertIntoPool addr nn = Ok (addr', r) /\ pool_post addr nn addr' r.
Proof.
  intros Hs Hk. unfold InsertIntoPool.
  destruct (lookup_lt_is_Some_2 addr 0 Hk) as [x0 E0].
  destruct (lookup_lt_is_Some_2 addr (length addr - 1) ltac:(lia)) as [xk Ek].
  rewrite (at_Ok _ _ _ E0). cbn [mbind outcome_bind].
  destruct (dlt (distance nn) (distance x0)) eqn:D0.
  { do 2 eexists. split; [done|]. assert (forall j x, addr !! j = Some x -> dlt (distance nn) (distance x) = true) as Hall.
    { intros j x Hx. apply (dlt_nle_trans nn x0 x D0). destruct j as [|j]; [simplify_eq; apply nle_refl|].
      apply (sorted_lookup addr 0 (S j)); [done | lia | done | done]. }
    apply pool_post_insert; [done | lia | lia | |]; eauto using dlt_nle. }
  rewrite (at_Ok _ _ _ Ek). cbn [mbind outcome_bind].
  destruct (dlt (distance xk) (distance nn)) eqn:Dk.
  { do 2 eexists. split; [done|]. assert (forall j x, addr !! j = Some x -> dlt (distance x) (distance nn) = true) as Hall.
    { intros j x Hx. apply (nle_dlt x xk nn); [|done]. pose proof (lookup_lt_Some _ _ _ Hx).
      destruct (decide (j = length addr - 1)%nat) as [->|]; [simplify_eq; apply nle_refl|].
      apply (sorted_lookup addr j (length addr - 1)); [done | lia | done | done]. }
    apply pool_post_insert; [done | lia | | |]; eauto using dlt_nle.
    intros j x Hj Hx. apply lookup_lt_Some in Hx. lia. }
  destruct (bsearch_spec addr nn (S (length addr)) 0 (length addr - 1)) as
    (l & r & -> & Hr & Hlr' & Hlr & Hxl & Hxr & Hright); [done | lia | lia | lia | | | lia |].
  { intros x Hx. by simplify_eq. } { intros x Hx. by simplify_eq. }
  cbn [mbind outcome_bind].
  destruct (dup_scan_spec addr nn l ltac:(lia)) as [[-> (j & x & Hx & Hid)]|(l' & -> & Hl' & Hscan & Hend)];
    cbn [mbind outcome_bind].
  { do 2 eexists. split; [done|]. left. split_and!; [done | done |]. exists x. split; [by eapply list_elem_of_lookup_2 | done]. }
  destruct (lookup_lt_is_Some_2 addr l' ltac:(lia)) as [xl El]. destruct (lookup_lt_is_Some_2 addr r Hr) as [xr Er].
  rewrite (at_Ok _ _ _ El), (at_Ok _ _ _ Er). cbn [mbind outcome_bind].
  destruct ((id xl =? id nn) || (id xr =? id nn)) eqn:Eid.
  - do 2 eexists. split; [done|]. left. split_and!; [done | done |].
    apply orb_true_iff in Eid as [Eid%Z.eqb_eq|Eid%Z.eqb_eq]; [exists xl | exists xr];
      (split; [by eapply list_elem_of_lookup_2 | done]).
  - zbool. do 2 eexists. split; [done|]. apply (pool_post_search addr nn l l' r); try done;
      intros x Hx; by simplify_eq.
Qed.
(** ** Sorting candidates *)

(** [Neighbor::operator<]. *)
Definition nb_lt (x y : Neighbor D) : bool :=
  dlt (distance x) (distance y) ||
  (negb (dlt (distance y) (distance x)) && (id x <? id y)).
Definition nb_le (x y : Neighbor D) : Prop := nb_lt y x = false.
#[global] Instance nb_le_dec x y : Decision (nb_le x y).
Proof. unfold nb_le. apply _. Defined.

Definition std_sort_nb (l : list (Neighbor D)) : list (Neighbor D) := merge_sort nb_le l.

Lemma dlt_irrefl (x : D) : dlt x x = false.
Proof. destruct (dlt x x) eqn:E; [|done]. by rewrite (dlt_asym _ _ E) in E. Qed.

#[global] Instance nb_le_trans : Transitive nb_le.
Proof.
  intros x y z. unfold nb_le, nb_lt. rewrite !orb_false_iff, !andb_false_iff, !negb_false_iff, !Z.ltb_ge.
  intros [H1 H1'] [H2 H2'].
  assert (dlt (distance z) (distance x) = false) as H3 by (by eapply dlt_ntrans). split; [done|].
  destruct H1' as [H1'|H1'].
  - left. by apply (dlt_nle_trans x y z).
  - destruct H2' as [H2'|H2']; [left; by apply (nle_dlt x y z) | right; lia].
Qed.
#[global] Instance nb_le_total : Total nb_le.
Proof.
  intros x y. unfold nb_le, nb_lt. destruct (dlt (distance y) (distance x)) eqn:E1; simpl.
  - right. rewrite (dlt_asym _ _ E1). done.
  - destruct (dlt (distance x) (distance y)) eqn:E2; simpl; [by left|].
    destruct (Z.ltb_spec (id y) (id x)); [right | by left]. apply Z.ltb_ge. lia.
Qed.

Lemma std_sort_nb_sorted l : sorted_pool (std_sort_nb l).
Proof.
  assert (StronglySorted nb_le (std_sort_nb l)) as H by (apply (StronglySorted_merge_sort nb_le)).
  unfold sorted_pool. induction H as [|x l' _ IH Hx]; constructor; [done|].
  eapply Forall_impl; [exact Hx|]. intros y Hy. unfold nb_le, nb_lt, nle in *. by apply orb_false_iff in Hy as [? _].
Qed.

Lemma std_sort_nb_perm l : std_sort_nb l ≡ₚ l.
Proof. apply merge_sort_Permutation. Qed.

Lemma std_sort_nb_strong l : StronglySorted nb_le (std_sort_nb l).
Proof. apply (StronglySorted_merge_sort nb_le). Qed.

End pool.

(** [InsertIntoPool] on a sorted, non-empty pool never reads past the pool,
    terminates, and either reports the pool size plus one, leaves the pool as
    it was, and the identifier is in it; or returns the position [r] at which
    the new candidate now stands, with the rest of the pool shifted, the pool
    sorted, and no entry with the same identifier and an equal distance. *)
Theorem insert_into_pool_correct {D} `{!DistOrd D} (addr : list (Neighbor D)) (nn : Neighbor D) :
  sorted_pool addr -> (0 < length addr)%nat ->
  exists addr' r, InsertIntoPool addr nn = Ok (addr', r) /\ pool_post addr nn addr' r.
Proof. apply InsertIntoPool_spec. Qed.

Definition demo_nb (i d : Z) : Neighbor Z := {| id := i; distance := d; flag := true; visited := false |}.
Definition demo_pool : list (Neighbor Z) := [demo_nb 1 5; demo_nb 2 7; demo_nb 3 7; demo_nb 4 9].

Lemma insert_into_pool_witness : exists addr' r,
  InsertIntoPool demo_pool (demo_nb 8 7) = Ok (addr', r) /\ pool_post demo_pool (demo_nb 8 7) addr' r.
Proof.
  apply (insert_into_pool_correct demo_pool (demo_nb 8 7)); [|simpl; lia].
  repeat constructor.
Defined.
