(* ===== verification/CandidatePool.v ===== *)
(** * The candidate pool of a greedy graph search

    The state that the searches on the stored graph and on the graph in memory
    share: the sorted pool [retset] of the closest candidates, the identifiers
    that were put into it, and the expanded nodes.  The step that adds a
    neighbour of an expanded node is the same code in
    [src/search/beam_search.cpp] and in [src/index.cpp]; its invariant, its
    progress measure and the fact that the pool holds the closest visited
    identifiers are proved here for any graph. *)
From S2P Require Import Prelude Neighbor.

Section state.
Context {D : Type} `{!DistOrd D}.

(** [retset] is the valid part of the array, [cur_list_size] its length. *)
Record search_state := {
  retset : list (Neighbor D);
  visited_ids : gset Z;
  full_retset : list (Neighbor D);
  l_search : nat;
}.

(** Selection of the frontier from position [k] on. *)
Fixpoint select_frontier (bw : nat) (l : list (Neighbor D)) : list Z * list (Neighbor D) :=
  match bw, l with
  | S bw', x :: l =>
      if flag x then
        let '(f, l') := select_frontier bw' l in
        (id x :: f, {| id := id x; distance := distance x; flag := false; visited := visited x |} :: l')
      else let '(f, l') := select_frontier bw l in (f, x :: l')
  | _, _ => ([], l)
  end.

(** What a step of an expansion does to the state and to [nk]. *)
Record search_step (s : search_state) (nk : nat) (s' : search_state) (nk' : nat) : Prop := {
  ss_visited : visited_ids s ⊆ visited_ids s';
  ss_same : visited_ids s' = visited_ids s -> retset s' = retset s /\ nk' = nk;
  ss_nk : (nk' <= nk)%nat;
  ss_prefix : take nk' (retset s') = take nk' (retset s);
}.

Lemma search_step_refl s nk : search_step s nk s nk.
Proof. by constructor. Qed.

Lemma search_step_trans s1 n1 s2 n2 s3 n3 :
  search_step s1 n1 s2 n2 -> search_step s2 n2 s3 n3 -> search_step s1 n1 s3 n3.
Proof.
  intros [V1 S1 N1 P1] [V2 S2 N2 P2]. constructor; [set_solver | | lia |].
  - intros E. assert (visited_ids s2 = visited_ids s1) as E1 by set_solver.
    destruct (S1 E1) as [<- <-]. apply S2. by rewrite E1.
  - rewrite P2. apply (f_equal (take n3)) in P1. rewrite !take_take in P1.
    by replace (n3 `min` n2)%nat with n3 in P1 by lia.
Qed.

(** ** Selection of the frontier *)
Definition same_place (x y : Neighbor D) : Prop := id y = id x /\ distance y = distance x.

Lemma select_frontier_spec : forall l bw f l',
  select_frontier bw l = (f, l') -> NoDup (id <$> l) ->
  Forall2 same_place l l' /\ NoDup f /\
  (forall i, i ∈ f -> exists x, x ∈ l /\ id x = i /\ flag x = true) /\
  (forall y, y ∈ l' -> flag y = false -> id y ∈ f \/ y ∈ l) /\
  (forall y, y ∈ l' -> flag y = true -> y ∈ l /\ id y ∉ f).
Proof.
  assert (forall l, Forall2 same_place l l /\ NoDup (@nil Z) /\
    (forall i, i ∈ [] -> exists x, x ∈ l /\ id x = i /\ flag x = true) /\
    (forall y, y ∈ l -> flag y = false -> id y ∈ [] \/ y ∈ l) /\
    (forall y, y ∈ l -> flag y = true -> y ∈ l /\ id y ∉ [])) as Hnil.
  { intros l. split_and!; [by apply Forall_Forall2_diag, Forall_true | constructor | | by right |].
    - by intros i ?%elem_of_nil.
    - intros y Hy _. split; [done | apply not_elem_of_nil]. }
  induction l as [|x l IH]; intros bw f l' H Hnd; simpl in Hnd.
  - assert (f = [] /\ l' = []) as [-> ->] by (destruct bw; by simplify_eq/=). apply Hnil.
  - apply NoDup_cons in Hnd as [Hx Hnd]. destruct bw as [|bw]; simpl in H.
    + simplify_eq. apply Hnil.
    + destruct (flag x) eqn:Ef.
      * destruct (select_frontier bw l) as [f1 l1] eqn:E. simplify_eq.
        destruct (IH _ _ _ E Hnd) as (H1 & H2 & H3 & H4 & H5).
        assert (id x ∉ f1) as Hxf.
        { intros (y & Hy & Hid & _)%H3. apply Hx. rewrite <- Hid. apply list_elem_of_fmap. eauto. }
        split_and!; [by constructor | by constructor | | |].
        { intros i [->|Hi]%elem_of_cons; [exists x; set_solver|]. destruct (H3 i Hi) as (y & ? & ? & ?). exists y. set_solver. }
        { intros y [->|Hy]%elem_of_cons Hfy; [left; simpl; set_solver|]. destruct (H4 y Hy Hfy); set_solver. }
        { intros y [->|Hy]%elem_of_cons Hfy; [done|]. destruct (H5 y Hy Hfy) as [Hyl Hyf]. split; [set_solver|].
          intros [Hid|?]%elem_of_cons; [|done]. apply Hx. rewrite <- Hid. apply list_elem_of_fmap. eauto. }
      * destruct (select_frontier (S bw) l) as [f1 l1] eqn:E. simplify_eq.
        destruct (IH _ _ _ E Hnd) as (H1 & H2 & H3 & H4 & H5). split_and!; [by constructor | done | | |].
        { intros i Hi. destruct (H3 i Hi) as (y & ? & ? & ?). exists y. set_solver. }
        { intros y [->|Hy]%elem_of_cons Hfy; [right; set_solver|]. destruct (H4 y Hy Hfy); set_solver. }
        { intros y [->|Hy]%elem_of_cons Hfy; [congruence|]. destruct (H5 y Hy Hfy). set_solver. }
Qed.

Lemma select_length : forall l bw f tail,
  select_frontier bw l = (f, tail) -> length tail = length l /\ (length f <= bw)%nat.
Proof.
  induction l as [|x l IH]; intros bw f tail H.
  - destruct bw; injection H as <- <-; simpl; lia.
  - destruct bw as [|bw]; cbn [select_frontier] in H; [injection H as <- <-; simpl; lia|].
    destruct (flag x).
    + destruct (select_frontier bw l) as [f1 l1] eqn:E. injection H as <- <-. destruct (IH _ _ _ E). simpl. lia.
    + destruct (select_frontier (S bw) l) as [f1 l1] eqn:E. injection H as <- <-. destruct (IH _ _ _ E). simpl. lia.
Qed.

Lemma select_head bw x l f l' :
  (0 < bw)%nat -> select_frontier bw (x :: l) = (f, l') -> exists y l1, l' = y :: l1 /\ flag y = false.
Proof.
  intros Hb H. destruct bw as [|bw]; [lia|]. simpl in H. destruct (flag x) eqn:Ef.
  - destruct (select_frontier bw l). simplify_eq. eauto.
  - destruct (select_frontier (S bw) l). simplify_eq. eauto.
Qed.

Lemma same_place_ids l l' : Forall2 same_place l l' -> id <$> l' = id <$> l.
Proof. induction 1 as [|x y l l' [Hid _] _ IH]; [done|]. rewrite !fmap_cons. by f_equal. Qed.

Lemma same_place_sorted l l' : Forall2 same_place l l' -> sorted_pool l -> sorted_pool l'.
Proof.
  induction 1 as [|x y l l' [_ Hd] Hl IH]; intros Hs; [constructor|]. apply StronglySorted_inv in Hs as [Hs Hx].
  constructor; [by apply IH|]. rewrite Forall_forall in *. intros z Hz.
  destruct (Forall2_elem_r _ _ _ _ Hl Hz) as (w & Hw & [_ Hdw]). specialize (Hx w Hw).
  unfold nle in *. by rewrite Hd, Hdw.
Qed.

(** The entries of the identifiers [f] are marked as taken. *)
Definition unflag (x : Neighbor D) : Neighbor D :=
  {| id := id x; distance := distance x; flag := false; visited := visited x |}.
Definition mark (f : list Z) (x : Neighbor D) : Neighbor D := if decide (id x ∈ f) then unflag x else x.

Lemma mark_place f x : same_place x (mark f x).
Proof. unfold mark. by case_decide. Qed.

Lemma mark_visited f x : visited (mark f x) = visited x.
Proof. unfold mark. by case_decide. Qed.

Lemma mark_flag f x : flag (mark f x) = true <-> flag x = true /\ id x ∉ f.
Proof. unfold mark. case_decide; simpl; naive_solver. Qed.

Lemma mark_nil (l : list (Neighbor D)) : mark [] <$> l = l.
Proof. rewrite <- (list_fmap_id l) at 2. apply list_fmap_ext. intros i x _. unfold mark. by rewrite decide_False by set_solver. Qed.

Lemma mark_places f (l : list (Neighbor D)) : Forall2 same_place l (mark f <$> l).
Proof. apply Forall2_fmap_r, Forall_Forall2_diag, Forall_true. intros x. apply mark_place. Qed.

Lemma mark_ids f (l : list (Neighbor D)) : id <$> (mark f <$> l) = id <$> l.
Proof. apply same_place_ids, mark_places. Qed.

Lemma mark_cons f i x (l : list (Neighbor D)) : id x = i -> i ∉ id <$> l -> mark (i :: f) <$> (x :: l) = unflag x :: (mark f <$> l).
Proof.
  intros <- Hi. rewrite fmap_cons. unfold mark at 1. rewrite decide_True by set_solver. f_equal.
  apply list_fmap_ext. intros k y Hk. unfold mark. apply list_elem_of_lookup_2 in Hk.
  assert (id y <> id x) by (intros E; apply Hi; rewrite <- E; by apply list_elem_of_fmap_2).
  do 2 case_decide; try done; set_solver.
Qed.

(** ** The invariant

    [known]: the identifiers of the graph; [is_exact]: the distance of an
    expanded node is the exact one. *)
Context (known : Z -> Prop) (is_exact : Neighbor D -> Prop).

(** [pend] are the identifiers of the frontier that are still to be expanded. *)
Record search_inv (pend : list Z) (s : search_state) : Prop := {
  sv_nonempty : retset s <> [];
  sv_sorted : sorted_pool (retset s);
  sv_nodup : NoDup (id <$> retset s);
  sv_visited : forall i, i ∈ id <$> retset s -> i ∈ visited_ids s;
  sv_known : forall i, i ∈ visited_ids s -> known i;
  sv_old : forall x, x ∈ retset s -> flag x = false -> id x ∈ (id <$> full_retset s) ++ pend;
  sv_new : forall x, x ∈ retset s -> flag x = true -> id x ∉ (id <$> full_retset s) ++ pend;
  sv_once : NoDup ((id <$> full_retset s) ++ pend);
  sv_done : forall i, i ∈ (id <$> full_retset s) ++ pend -> i ∈ visited_ids s;
  sv_exact : Forall is_exact (full_retset s);
}.

(** ** Expansion of a node *)
Lemma search_inv_expand pend s i x :
  search_inv (i :: pend) s -> id x = i -> is_exact x ->
  search_inv pend {| retset := retset s; visited_ids := visited_ids s;
    full_retset := full_retset s ++ [x]; l_search := l_search s |}.
Proof.
  intros [? ? ? ? ? Ho Hn Hon Hd He] Hx Hex.
  assert ((id <$> full_retset s ++ [x]) ++ pend = (id <$> full_retset s) ++ i :: pend) as E.
  { rewrite fmap_app, <- app_assoc. simpl. by rewrite Hx. }
  constructor; simpl; rewrite ?E; try done. apply Forall_app. split; [done|]. by constructor.
Qed.

Lemma search_inv_select bw k s f tail :
  search_inv [] s -> select_frontier bw (drop k (retset s)) = (f, tail) ->
  search_inv f {| retset := take k (retset s) ++ tail; visited_ids := visited_ids s;
    full_retset := full_retset s; l_search := l_search s |}.
Proof.
  intros [Hne Hso Hnd Hv Hk Ho Hnw Hon Hd He] Hsel. rewrite app_nil_r in *.
  pose proof Hnd as Hnd'. rewrite <- (take_drop k (retset s)), fmap_app in Hnd'.
  apply NoDup_app in Hnd' as (Hndt & Hdisj & Hndd).
  destruct (select_frontier_spec _ _ _ _ Hsel Hndd) as (H1 & H2 & H3 & H4 & H5).
  assert (Forall2 same_place (retset s) (take k (retset s) ++ tail)) as Hsame.
  { rewrite <- (take_drop k (retset s)) at 1. apply Forall2_app; [|done]. apply Forall_Forall2_diag, Forall_true. done. }
  assert (forall x, x ∈ drop k (retset s) -> x ∈ retset s) as Hdr by (intros x; apply subseteq_drop).
  assert (forall x, x ∈ take k (retset s) -> x ∈ retset s) as Htk by (intros x; apply subseteq_take).
  assert (forall i, i ∈ f -> i ∉ id <$> full_retset s) as Hff.
  { intros i (x & Hx & <- & Hfl)%H3. specialize (Hnw x (Hdr x Hx) Hfl). done. }
  assert (forall x, x ∈ take k (retset s) -> id x ∉ f) as Htf.
  { intros x Hx (y & Hy & Hid & _)%H3. apply (Hdisj (id x)); [apply list_elem_of_fmap; eauto|].
    rewrite <- Hid. apply list_elem_of_fmap. eauto. }
  constructor; simpl; rewrite ?(same_place_ids _ _ Hsame); try done.
  - intros E. apply Forall2_length in Hsame. rewrite E in Hsame. by destruct (retset s).
  - by eapply same_place_sorted.
  - intros x [Hx|Hx]%elem_of_app Hfl.
    + apply elem_of_app. left. specialize (Ho x (Htk x Hx) Hfl). done.
    + apply elem_of_app. destruct (H4 x Hx Hfl) as [?|Hx']; [by right|]. left.
      specialize (Ho x (Hdr x Hx') Hfl). done.
  - intros x [Hx|Hx]%elem_of_app Hfl; rewrite elem_of_app; intros [Hin|Hin].
    + specialize (Hnw x (Htk x Hx) Hfl). done.
    + by apply (Htf x Hx).
    + destruct (H5 x Hx Hfl) as [Hx' _]. specialize (Hnw x (Hdr x Hx') Hfl). done.
    + by destruct (H5 x Hx Hfl).
  - apply NoDup_app. split_and!; [done | set_solver | done].
  - intros i [Hi|Hi]%elem_of_app; [by apply Hd|]. apply H3 in Hi as (x & Hx & <- & _).
    apply Hv, list_elem_of_fmap. eauto.
Qed.

(** The invariant does not depend on the order of the pending identifiers. *)
Lemma search_inv_perm pend pend' s : pend ≡ₚ pend' -> search_inv pend s -> search_inv pend' s.
Proof.
  intros Hp [? ? ? ? ? Ho Hn Hon Hd ?].
  assert (forall i, i ∈ (id <$> full_retset s) ++ pend' <-> i ∈ (id <$> full_retset s) ++ pend) as E.
  { intros i. by rewrite Hp. }
  constructor; try done.
  - intros x ? ?. apply E. by apply Ho.
  - intros x ? ?. rewrite E. by apply Hn.
  - by rewrite <- Hp.
  - intros i Hi. by apply Hd, E.
Qed.

Lemma search_inv_mark pend s f :
  search_inv pend s -> NoDup f -> (forall i, i ∈ f -> exists x, x ∈ retset s /\ id x = i /\ flag x = true) ->
  search_inv (f ++ pend) {| retset := mark f <$> retset s; visited_ids := visited_ids s;
    full_retset := full_retset s; l_search := l_search s |}.
Proof.
  intros [Hne Hso Hnd Hv Hk Ho Hnw Hon Hd He] Hf Hin.
  assert (forall i, i ∈ f -> i ∉ (id <$> full_retset s) ++ pend) as Hff.
  { intros i (x & Hx & <- & Hfl)%Hin. by apply Hnw. }
  constructor; simpl; rewrite ?mark_ids; try done.
  - by destruct (retset s).
  - by eapply same_place_sorted, Hso; apply mark_places.
  - intros x (y & -> & Hy)%list_elem_of_fmap. destruct (mark_place f y) as [-> _]. unfold mark.
    case_decide as Hyf; [set_solver|]. intros Hfl. specialize (Ho y Hy Hfl). set_solver.
  - intros x (y & -> & Hy)%list_elem_of_fmap [Hfl Hyf]%mark_flag. destruct (mark_place f y) as [-> _].
    specialize (Hnw y Hy Hfl). set_solver.
  - rewrite NoDup_app in Hon. destruct Hon as (Hf1 & Hf2 & Hf3). rewrite !NoDup_app. set_solver.
  - intros i [Hi|[Hi|Hi]%elem_of_app]%elem_of_app; [apply Hd; set_solver | | apply Hd; set_solver].
    apply Hin in Hi as (x & Hx & <- & _). by apply Hv, list_elem_of_fmap_2.
Qed.

(** ** Rounds and termination *)
Definition expanded_below (k : nat) (s : search_state) : Prop :=
  forall x, x ∈ take k (retset s) -> flag x = false.

(** The measure: identifiers that were not visited, then the rest of the pool. *)
Definition pool_measure (n_known : nat) (s : search_state) (k : nat) : nat :=
  ((n_known - size (visited_ids s)) * S n_known + (length (retset s) - k))%nat.
Definition pool_fuel (n_known : nat) : nat := S (S n_known * S n_known).

Context (universe : gset Z) (Huniverse : forall i, known i -> i ∈ universe).

Lemma visited_le pend s : search_inv pend s -> (size (visited_ids s) <= size universe)%nat.
Proof using Type Huniverse. intros Hs. apply subseteq_size. intros i Hi. by apply Huniverse, (sv_known _ _ Hs). Qed.

Lemma pool_le_visited pend s : search_inv pend s -> (length (retset s) <= size (visited_ids s))%nat.
Proof.
  intros Hs. rewrite <- (length_fmap id). pose proof (sv_nodup _ _ Hs) as Hnd.
  rewrite <- (size_list_to_set (C := gset Z)) by done. apply subseteq_size.
  intros i Hi. apply elem_of_list_to_set in Hi. by apply (sv_visited _ _ Hs).
Qed.

Lemma measure_decreases pend s s' k k' :
  search_inv pend s -> search_inv pend s' -> (k < length (retset s))%nat ->
  visited_ids s ⊆ visited_ids s' ->
  (visited_ids s' = visited_ids s -> length (retset s') = length (retset s) /\ k' = S k) ->
  (pool_measure (size universe) s' k' < pool_measure (size universe) s k)%nat.
Proof using Type Huniverse.
  intros Hs Hs' Hk Hv Hsame. unfold pool_measure.
  pose proof (visited_le _ _ Hs'). pose proof (pool_le_visited _ _ Hs').
  destruct (decide (visited_ids s' = visited_ids s)) as [E|E].
  - destruct (Hsame E) as [-> ->]. rewrite E. lia.
  - assert (size (visited_ids s) < size (visited_ids s'))%nat by (apply subset_size; set_solver). nia.
Qed.

End state.

#[global] Arguments search_state _ : clear implicits.
#[global] Arguments sv_nonempty {D _ known is_exact} pend s _.
#[global] Arguments sv_sorted {D _ known is_exact} pend s _.
#[global] Arguments sv_nodup {D _ known is_exact} pend s _.
#[global] Arguments sv_visited {D _ known is_exact} pend s _.
#[global] Arguments sv_known {D _ known is_exact} pend s _.
#[global] Arguments sv_old {D _ known is_exact} pend s _.
#[global] Arguments sv_new {D _ known is_exact} pend s _.
#[global] Arguments sv_once {D _ known is_exact} pend s _.
#[global] Arguments sv_done {D _ known is_exact} pend s _.
#[global] Arguments sv_exact {D _ known is_exact} pend s _.

Section pool.
Context {D : Type} `{!DistOrd D}.
Context (cur_id : Z) (pq_dist : Z -> D) (original_l_search : nat).

Definition candidate (i : Z) : Neighbor D :=
  {| id := i; distance := pq_dist i; flag := true; visited := false |}.

(** [compute_and_add_to_retset] on the entry points, then the sort. *)
Definition init_search (entries : list Z) : search_state D :=
  {| retset := std_sort_nb (candidate <$> entries); visited_ids := list_to_set entries;
     full_retset := []; l_search := original_l_search |}.

(** A candidate that was not visited goes into the pool [ret] of capacity [L].
    A candidate rejected as a duplicate while the pool still grows would expose
    an uninitialised entry. *)
Definition pool_push (L : nat) (i : Z) (rk : list (Neighbor D) * nat) : outcome (list (Neighbor D) * nat) :=
  let '(ret, nk) := rk in
  let size := length ret in
  last ← at_ ret (size - 1);
  if negb (dlt (pq_dist i) (distance last)) && bool_decide (size = L) then Ok (ret, nk)
  else
    '(arr, r) ← InsertIntoPool ret (candidate i);
    if bool_decide (size < L)%nat && bool_decide (size < r)%nat then Crash else
    Ok (if bool_decide (size < L)%nat then take (S size) arr else take size arr,
        if bool_decide (r < nk)%nat then r else nk).

(** An array of [cap] entries that does not grow: [InsertIntoPool] writes one
    entry past the pool. *)
Definition takes_slot (L : nat) (i : Z) (ret : list (Neighbor D)) : bool :=
  match last ret with
  | Some x => dlt (pq_dist i) (distance x) || negb (bool_decide (length ret = L))
  | None => true
  end.

Definition pool_push_in (cap : Z) (L : nat) (i : Z) (rk : list (Neighbor D) * nat) : outcome (list (Neighbor D) * nat) :=
  if (cap <=? Z.of_nat (length rk.1)) && takes_slot L i rk.1 then Crash else pool_push L i rk.

(** The body of the loop over the neighbours of an expanded node. *)
Definition push_neighbor (i : Z) (sk : search_state D * nat) : outcome (search_state D * nat) :=
  let '(s, nk) := sk in
  if decide (i ∈ visited_ids s) then Ok (s, nk) else
  '(ret, nk) ← pool_push (l_search s) i (retset s, nk);
  Ok ({| retset := ret; visited_ids := {[i]} ∪ visited_ids s; full_retset := full_retset s;
         l_search := l_search s |}, nk).

Definition expand_neighbor (i : Z) (sk : search_state D * nat) : outcome (search_state D * nat) :=
  if cur_id <? i then Crash else push_neighbor i sk.

(** A pool that holds at most [L] candidates stays inside a larger array. *)
Lemma pool_push_length L i rk rk' :
  (length rk.1 <= L)%nat -> pool_push L i rk = Ok rk' -> (length rk'.1 <= L)%nat.
Proof.
  destruct rk as [ret nk]. simpl. intros Hl H. unfold pool_push in H.
  destruct (at_ ret _) as [x|]; [|done]. cbn [mbind outcome_bind] in H. destruct (negb _ && _); [by simplify_eq|].
  destruct (InsertIntoPool _ _) as [[arr r]|]; [|done]. cbn [mbind outcome_bind] in H.
  destruct (_ && bool_decide (_ < r)%nat); [done|]. simplify_eq. simpl.
  case_bool_decide; rewrite length_take; lia.
Qed.

Lemma pool_push_in_eq cap L i rk : (length rk.1 <= L)%nat -> Z.of_nat L < cap -> pool_push_in cap L i rk = pool_push L i rk.
Proof. intros H1 H2. unfold pool_push_in. destruct (Z.leb_spec cap (Z.of_nat (length rk.1))); [lia | done]. Qed.

Lemma pool_pushes_in cap L : Z.of_nat L < cap -> forall l rk,
  (length rk.1 <= L)%nat -> foldM (pool_push_in cap L) l rk = foldM (pool_push L) l rk.
Proof.
  intros Hc. induction l as [|i l IH]; intros rk Hl; [done|]. cbn [foldM]. rewrite pool_push_in_eq by done.
  destruct (pool_push L i rk) as [rk'|] eqn:E; [|done]. cbn [mbind outcome_bind]. apply IH. by eapply pool_push_length.
Qed.

Context (known : Z -> Prop) (is_exact : Neighbor D -> Prop).
Abbreviation inv := (search_inv known is_exact).

(** ** Expansion of one neighbour *)
Lemma id_insert_at r (x : Neighbor D) l : id <$> insert_at r x l ≡ₚ id x :: (id <$> l).
Proof.
  unfold insert_at. rewrite fmap_app. simpl. rewrite <- Permutation_middle. constructor.
  rewrite <- fmap_app. by rewrite take_drop.
Qed.

Lemma take_insert_at n r (x : Neighbor D) l :
  (n <= r)%nat -> (r <= length l)%nat -> take n (insert_at r x l) = take n l.
Proof.
  intros H1 H2. unfold insert_at. rewrite take_app_le by (rewrite length_take; lia).
  by rewrite take_take, Nat.min_l by lia.
Qed.

Lemma StronglySorted_take {A} (R : A -> A -> Prop) n (l : list A) :
  StronglySorted R l -> StronglySorted R (take n l).
Proof. intros H. rewrite <- (take_drop n l) in H. by apply StronglySorted_app_1_l in H. Qed.

Lemma NoDup_take_ids n (l : list (Neighbor D)) : NoDup (id <$> l) -> NoDup (id <$> take n l).
Proof.
  intros H. rewrite <- (take_drop n l), fmap_app in H. by apply NoDup_app in H as (? & _ & _).
Qed.

(** The pool after a candidate that was not visited. *)
Lemma search_inv_insert pend s i r n :
  inv pend s -> i ∉ visited_ids s -> known i -> (r <= length (retset s))%nat -> (0 < n)%nat ->
  sorted_pool (insert_at r (candidate i) (retset s)) ->
  inv pend {| retset := take n (insert_at r (candidate i) (retset s));
    visited_ids := {[i]} ∪ visited_ids s; full_retset := full_retset s; l_search := l_search s |}.
Proof.
  intros Hs Hi Hk Hr Hn Hsort.
  assert (forall x, x ∈ take n (insert_at r (candidate i) (retset s)) -> x = candidate i \/ x ∈ retset s) as Hin.
  { intros x (j & Hj)%list_elem_of_lookup. apply lookup_take_Some in Hj as [Hj _].
    apply list_elem_of_lookup_2 in Hj. unfold insert_at in Hj. rewrite elem_of_app, elem_of_cons in Hj.
    destruct Hj as [Hj|[->|Hj]]; [right | by left | right].
    - by eapply subseteq_take.
    - by eapply subseteq_drop. }
  constructor; simpl.
  - intros E. apply (f_equal length) in E. rewrite length_take in E. unfold insert_at in E.
    rewrite length_app in E. simpl in E. lia.
  - by apply StronglySorted_take.
  - apply NoDup_take_ids. rewrite id_insert_at. constructor; [|apply (sv_nodup _ _ Hs)].
    intros H. by apply Hi, (sv_visited _ _ Hs).
  - intros j (x & -> & [->|Hx]%Hin)%list_elem_of_fmap; [set_solver|].
    apply elem_of_union_r, (sv_visited _ _ Hs), list_elem_of_fmap. eauto.
  - intros j [->%elem_of_singleton|Hj]%elem_of_union; [done | by apply (sv_known _ _ Hs)].
  - intros x [->|Hx]%Hin; [done | by apply (sv_old _ _ Hs)].
  - intros x [->|Hx]%Hin; [|by apply (sv_new _ _ Hs)]. intros _ H. by apply Hi, (sv_done _ _ Hs).
  - apply (sv_once _ _ Hs).
  - intros j Hj. apply elem_of_union_r. by apply (sv_done _ _ Hs).
  - apply (sv_exact _ _ Hs).
Qed.

Lemma search_inv_visit pend s i :
  inv pend s -> known i ->
  inv pend {| retset := retset s; visited_ids := {[i]} ∪ visited_ids s;
    full_retset := full_retset s; l_search := l_search s |}.
Proof.
  intros [? ? ? Hv Hk ? ? ? Hd ?] Hi. constructor; simpl; try done.
  - intros j Hj. apply elem_of_union_r. by apply Hv.
  - intros j [->%elem_of_singleton|Hj]%elem_of_union; [done | by apply Hk].
  - intros j Hj. apply elem_of_union_r. by apply Hd.
Qed.

Lemma expand_neighbor_spec pend s nk i :
  inv pend s -> known i -> i <= cur_id ->
  exists s' nk', expand_neighbor i (s, nk) = Ok (s', nk') /\ inv pend s' /\
    search_step s nk s' nk' /\ full_retset s' = full_retset s.
Proof.
  intros Hs Hk Hc. unfold expand_neighbor, push_neighbor, pool_push. destruct (Z.ltb_spec cur_id i); [lia|].
  case_decide as Hi; [exists s, nk; split_and!; auto using search_step_refl|].
  pose proof (sv_nonempty _ _ Hs) as Hne.
  assert (0 < length (retset s))%nat as Hlen by (destruct (retset s); [done | simpl; lia]).
  destruct (lookup_lt_is_Some_2 (retset s) (length (retset s) - 1) ltac:(lia)) as [last Hlast].
  rewrite (at_Ok _ _ _ Hlast). cbn [mbind outcome_bind].
  assert (forall v : gset Z, v = {[i]} ∪ visited_ids s -> v <> visited_ids s) as Hgrow by set_solver.
  destruct (negb (dlt (pq_dist i) (distance last)) && bool_decide (length (retset s) = l_search s)); cbn [mbind outcome_bind].
  { do 2 eexists. split; [done|]. split; [by apply search_inv_visit|]. split; [|done].
    constructor; simpl; [set_solver | | lia | done]. intros E. by destruct (Hgrow _ eq_refl). }
  destruct (InsertIntoPool_spec (retset s) (candidate i) (sv_sorted _ _ Hs) Hlen) as (arr & r & -> & Hpost).
  cbn [mbind outcome_bind]. destruct Hpost as [(-> & -> & x & Hx & Hid)|(Hr & -> & Hsort & _)].
  { exfalso. apply Hi. change i with (id (candidate i)). rewrite <- Hid. apply (sv_visited _ _ Hs).
    apply list_elem_of_fmap. eauto. }
  rewrite (bool_decide_eq_false_2 (length (retset s) < r)%nat) by lia. rewrite andb_false_r. cbn [mbind outcome_bind].
  set (n := if bool_decide (length (retset s) < l_search s)%nat then S (length (retset s)) else length (retset s)).
  assert ((if bool_decide (length (retset s) < l_search s)%nat
           then take (S (length (retset s))) (insert_at r (candidate i) (retset s))
           else take (length (retset s)) (insert_at r (candidate i) (retset s)))
          = take n (insert_at r (candidate i) (retset s))) as -> by (subst n; by case_bool_decide).
  assert (length (retset s) <= n)%nat as Hn by (subst n; case_bool_decide; lia).
  do 2 eexists. split; [done|]. split; [apply search_inv_insert; try done; lia|]. split; [|done].
  constructor; simpl; [set_solver | | case_bool_decide; lia |].
  - intros E. by destruct (Hgrow _ eq_refl).
  - assert ((if bool_decide (r < nk)%nat then r else nk) <= r)%nat as Hnr by (case_bool_decide; lia).
    rewrite take_take, Nat.min_l by lia. by apply take_insert_at.
Qed.

Lemma expand_neighbors_spec pend : forall l s nk,
  inv pend s -> (forall i, i ∈ l -> known i /\ i <= cur_id) ->
  exists s' nk', foldM expand_neighbor l (s, nk) = Ok (s', nk') /\ inv pend s' /\
    search_step s nk s' nk' /\ full_retset s' = full_retset s.
Proof.
  induction l as [|i l IH]; intros s nk Hs Hl; cbn [foldM].
  - exists s, nk. split_and!; auto using search_step_refl.
  - destruct (Hl i ltac:(set_solver)) as [Hk Hc].
    destruct (expand_neighbor_spec pend s nk i Hs Hk Hc) as (s1 & n1 & -> & H1 & St1 & F1).
    cbn [mbind outcome_bind]. destruct (IH s1 n1 H1) as (s2 & n2 & -> & H2 & St2 & F2); [set_solver|].
    exists s2, n2. split_and!; [done | done | by eapply search_step_trans | congruence].
Qed.

(** ** The initial pool *)
Lemma init_search_inv entries :
  entries <> [] -> NoDup entries -> (forall i, i ∈ entries -> known i) -> inv [] (init_search entries).
Proof.
  intros Hne Hnd Hk.
  assert (id <$> std_sort_nb (candidate <$> entries) ≡ₚ entries) as Hp.
  { rewrite std_sort_nb_perm, <- list_fmap_compose. by rewrite list_fmap_id. }
  assert (forall x, x ∈ std_sort_nb (candidate <$> entries) -> flag x = true) as Hf.
  { intros x Hx. rewrite std_sort_nb_perm in Hx. by apply list_elem_of_fmap in Hx as (i & -> & _). }
  constructor; simpl; try (by constructor).
  - intros E. rewrite E in Hp. apply Permutation_nil_l in Hp. by subst.
  - apply std_sort_nb_sorted.
  - by rewrite Hp.
  - intros i Hi. rewrite Hp in Hi. by apply elem_of_list_to_set.
  - intros i Hi. apply elem_of_list_to_set in Hi. by apply Hk.
  - intros x Hx Hfx. by rewrite (Hf x Hx) in Hfx.
  - intros x _ _. apply not_elem_of_nil.
  - by intros i ?%elem_of_nil.
Qed.

(** ** The pool holds the closest candidates

    With a fixed list size (no [dyn_search_l]) the pool always consists of the
    closest visited identifiers. *)
Record pool_top (s : search_state D) : Prop := {
  pt_size : l_search s = original_l_search;
  pt_length : (length (retset s) <= original_l_search)%nat;
  pt_dist : forall x, x ∈ retset s -> distance x = pq_dist (id x);
  pt_closest : forall j, j ∈ visited_ids s -> j ∈ id <$> retset s \/
    (length (retset s) = original_l_search /\
     forall x, x ∈ retset s -> dlt (pq_dist j) (distance x) = false);
}.

Lemma pool_top_insert pend s i r last :
  inv pend s -> pool_top s -> i ∉ visited_ids s ->
  retset s !! (length (retset s) - 1)%nat = Some last ->
  (dlt (pq_dist i) (distance last) = true \/ length (retset s) <> original_l_search) ->
  (r <= length (retset s))%nat -> sorted_pool (insert_at r (candidate i) (retset s)) ->
  pool_top {| retset := take (if bool_decide (length (retset s) < original_l_search)%nat
                              then S (length (retset s)) else length (retset s))
                          (insert_at r (candidate i) (retset s));
    visited_ids := {[i]} ∪ visited_ids s; full_retset := full_retset s; l_search := l_search s |}.
Proof.
  intros Hs [P1 P2 P3 P4] Hi Hlast Hor Hr Hsort.
  set (arr := insert_at r (candidate i) (retset s)) in *.
  assert (length arr = S (length (retset s))) as Harr.
  { subst arr. unfold insert_at. rewrite length_app, length_take. simpl. rewrite length_drop. lia. }
  assert (forall x, x ∈ arr <-> x = candidate i \/ x ∈ retset s) as Hin.
  { intros x. subst arr. unfold insert_at. rewrite elem_of_app, elem_of_cons.
    rewrite <- (take_drop r (retset s)) at 3. rewrite elem_of_app. tauto. }
  assert (forall x, x ∈ arr -> distance x = pq_dist (id x)) as Hd by (intros x [->|Hx]%Hin; [done | by apply P3]).
  case_bool_decide as Hlt.
  - rewrite take_ge by lia. constructor; simpl; [done | lia | done |].
    intros j [->%elem_of_singleton|Hj]%elem_of_union.
    + left. apply list_elem_of_fmap. exists (candidate i). split; [done|]. apply Hin. by left.
    + destruct (P4 j Hj) as [(x & -> & Hx)%list_elem_of_fmap|[? _]]; [|lia].
      left. apply list_elem_of_fmap. exists x. split; [done|]. apply Hin. by right.
  - assert (length (retset s) = original_l_search) as HL by lia.
    destruct Hor as [Hor|?]; [|done].
    assert (forall x y, x ∈ take (length (retset s)) arr -> y ∈ drop (length (retset s)) arr -> nle x y) as Hcut.
    { intros x y Hx Hy. apply (StronglySorted_app_1_elem_of nle (take (length (retset s)) arr) (drop (length (retset s)) arr));
        [by rewrite take_drop | done | done]. }
    assert (forall x, x ∈ take (length (retset s)) arr -> x ∈ arr) as Htk by (intros x; apply subseteq_take).
    constructor; simpl; [done | rewrite length_take; lia | intros x Hx; by apply Hd, Htk |].
    intros j Hj. destruct (decide (j ∈ id <$> take (length (retset s)) arr)) as [?|Hnj]; [by left | right].
    split; [rewrite length_take; lia|].
    assert ((exists y, y ∈ arr /\ id y = j) \/
      (forall x, x ∈ retset s -> dlt (pq_dist j) (distance x) = false)) as [(y & Hy & <-)|Hfar].
    { apply elem_of_union in Hj as [->%elem_of_singleton|Hj].
      - left. exists (candidate i). split; [|done]. apply Hin. by left.
      - destruct (P4 j Hj) as [(x & -> & Hx)%list_elem_of_fmap|[_ ?]]; [left | by right].
        exists x. split; [|done]. apply Hin. by right. }
    + intros x Hx. rewrite <- (Hd y Hy). apply (Hcut x y Hx).
      rewrite <- (take_drop (length (retset s)) arr) in Hy. apply elem_of_app in Hy as [Hy|?]; [|done].
      exfalso. apply Hnj, list_elem_of_fmap. eauto.
    + intros x Hx. destruct (proj1 (Hin x) (Htk x Hx)) as [->|Hx']; [|by apply Hfar]. simpl.
      assert (dlt (pq_dist j) (distance last) = false) as Hjl by (apply Hfar; by eapply list_elem_of_lookup_2).
      by apply (dlt_ntrans (pq_dist i) (distance last) (pq_dist j)); [apply dlt_asym|].
Qed.

Lemma pool_top_neighbor pend s nk i s' nk' :
  inv pend s -> pool_top s -> expand_neighbor i (s, nk) = Ok (s', nk') ->
  pool_top s' /\ i ∈ visited_ids s'.
Proof.
  intros Hs Ht H. unfold expand_neighbor, push_neighbor, pool_push in H. destruct (cur_id <? i); [done|].
  case_decide as Hi; [by simplify_eq|].
  destruct (at_ (retset s) (length (retset s) - 1)) as [last|] eqn:El; [|done]. cbn [mbind outcome_bind] in H.
  assert (retset s !! (length (retset s) - 1)%nat = Some last) as Hlast.
  { unfold at_ in El. by destruct (retset s !! (length (retset s) - 1)%nat); simplify_eq. }
  pose proof Ht as [P1 P2 P3 P4]. rewrite P1 in H.
  destruct (dlt (pq_dist i) (distance last)) eqn:Ed; cbn [negb andb mbind outcome_bind] in H;
    [|case_bool_decide as HL; cbn [mbind outcome_bind] in H; [simplify_eq; split; [|simpl; set_solver]; constructor; simpl; try done|]].
  2: { intros j [->%elem_of_singleton|Hj]%elem_of_union; [right | by apply P4]. split; [done|].
       intros x (j & Hj)%list_elem_of_lookup. pose proof (lookup_lt_Some _ _ _ Hj).
       destruct (decide (j = length (retset s) - 1)%nat) as [->|]; [by simplify_eq|].
       apply (dlt_ntrans (distance x) (distance last) (pq_dist i)); [|done].
       apply (sorted_lookup (retset s) j (length (retset s) - 1)); [apply (sv_sorted _ _ Hs) | lia | done | done]. }
  all: assert (0 < length (retset s))%nat as Hlen by (pose proof (sv_nonempty _ _ Hs); destruct (retset s); [done | simpl; lia]).
  all: destruct (InsertIntoPool_spec (retset s) (candidate i) (sv_sorted _ _ Hs) Hlen) as (arr & r & Hp & Hpost);
    rewrite Hp in H; cbn [mbind outcome_bind] in H.
  all: destruct Hpost as [(-> & -> & x & Hx & Hid)|(Hr & -> & Hsort & _)];
    [exfalso; apply Hi; change i with (id (candidate i)); rewrite <- Hid; apply (sv_visited _ _ Hs), list_elem_of_fmap; by eauto|].
  all: rewrite (bool_decide_eq_false_2 (length (retset s) < r)%nat) in H by lia; rewrite andb_false_r in H;
    cbn [mbind outcome_bind] in H; simplify_eq.
  all: split; [|simpl; set_solver].
  all: pose proof (pool_top_insert pend s i r last Hs Ht Hi Hlast) as Hins; rewrite P1 in Hins;
    case_bool_decide; apply Hins; auto.
Qed.

Lemma pool_top_neighbors pend : forall l s nk s' nk',
  inv pend s -> pool_top s -> (forall i, i ∈ l -> known i /\ i <= cur_id) ->
  foldM expand_neighbor l (s, nk) = Ok (s', nk') ->
  pool_top s' /\ visited_ids s ⊆ visited_ids s' /\ (forall i, i ∈ l -> i ∈ visited_ids s').
Proof.
  induction l as [|i l IH]; intros s nk s' nk' Hs Ht Hl H; cbn [foldM] in H.
  - simplify_eq. split_and!; [done | done | by intros i ?%elem_of_nil].
  - destruct (Hl i ltac:(set_solver)) as [Hk Hc].
    destruct (expand_neighbor_spec pend s nk i Hs Hk Hc) as (s1 & n1 & E1 & H1 & St1 & _).
    destruct (pool_top_neighbor pend s nk i s1 n1 Hs Ht E1) as [T1 V1].
    rewrite E1 in H. cbn [mbind outcome_bind] in H.
    destruct (IH s1 n1 s' nk' H1 T1) as (T2 & V2 & V3); [set_solver | done |].
    pose proof (ss_visited _ _ _ _ St1). split_and!; [done | set_solver | set_solver].
Qed.

(** The number of expanded entries of a list. *)
Definition n_visited (l : list (Neighbor D)) : nat := length (filter (fun x => visited x = true) l).

Lemma n_visited_app l1 l2 : n_visited (l1 ++ l2) = (n_visited l1 + n_visited l2)%nat.
Proof. unfold n_visited. by rewrite filter_app, length_app. Qed.

Lemma n_visited_le l : (n_visited l <= length l)%nat.
Proof. apply length_filter. Qed.

(** An entry of the new pool was there, behind as many expanded entries, or was
    not visited; when the pool changed, an entry that was not expanded is in
    it. *)
Definition keeps_rank (ret ret' : list (Neighbor D)) (k : nat) (x : Neighbor D) : Prop :=
  exists j, ret !! j = Some x /\ n_visited (take k ret') = n_visited (take j ret).
Definition pool_grows (s s' : search_state D) : Prop :=
  (forall k x, retset s' !! k = Some x ->
     keeps_rank (retset s) (retset s') k x \/ flag x = true /\ visited x = false /\ id x ∉ visited_ids s) /\
  (retset s' = retset s \/ exists x, x ∈ retset s' /\ flag x = true).

Lemma insert_rank n r i (ret : list (Neighbor D)) k x : (r <= length ret)%nat ->
  take n (insert_at r (candidate i) ret) !! k = Some x ->
  keeps_rank ret (take n (insert_at r (candidate i) ret)) k x \/ x = candidate i.
Proof.
  intros Hr Hk. pose proof (proj1 (lookup_take_Some _ _ _ _) Hk) as [Hk' Hn]. unfold keeps_rank.
  rewrite take_take, Nat.min_l by lia. unfold insert_at in *.
  destruct (decide (k < r)%nat) as [Hlt|Hge]; [left; exists k | destruct (decide (k = r)) as [->|]; [right | left; exists (k - 1)%nat]].
  - rewrite lookup_app_l, lookup_take_lt in Hk' by (rewrite ?length_take; lia). split; [done|].
    by rewrite take_app_le, take_take, Nat.min_l by (rewrite ?length_take; lia).
  - rewrite lookup_app_r, length_take, Nat.min_l, Nat.sub_diag in Hk' by (rewrite ?length_take; lia). by injection Hk'.
  - rewrite lookup_app_r, length_take, Nat.min_l in Hk' by (rewrite ?length_take; lia).
    replace (k - r)%nat with (S (k - 1 - r)) in Hk' by lia. simpl in Hk'. rewrite lookup_drop in Hk'.
    replace (r + (k - 1 - r))%nat with (k - 1)%nat in Hk' by lia. split; [done|].
    rewrite take_app, length_take, Nat.min_l, take_take, Nat.min_r by lia.
    replace (k - r)%nat with (S (k - 1 - r)) by lia. simpl.
    replace (k - 1)%nat with (r + (k - 1 - r))%nat at 2 by lia. rewrite <- take_take_drop, !n_visited_app. done.
Qed.

Lemma pool_push_grows L i ret nk ret' nk' :
  sorted_pool ret -> ret <> [] -> (length ret <= L)%nat -> pool_push L i (ret, nk) = Ok (ret', nk') ->
  (forall k x, ret' !! k = Some x -> keeps_rank ret ret' k x \/ x = candidate i) /\ (ret' = ret \/ candidate i ∈ ret').
Proof.
  intros Hs Hne HL H. unfold pool_push in H.
  assert (0 < length ret)%nat as Hlen by (destruct ret; [done | simpl; lia]).
  destruct (lookup_lt_is_Some_2 ret (length ret - 1) ltac:(lia)) as [last Hlast].
  rewrite (at_Ok _ _ _ Hlast) in H. cbn [mbind outcome_bind] in H.
  assert ((forall k x, ret !! k = Some x -> keeps_rank ret ret k x \/ x = candidate i) /\ (ret = ret \/ candidate i ∈ ret)) as Hsame.
  { split; [|by left]. intros k x Hk. left. by exists k. }
  destruct (negb _ && _) eqn:Eb; [by simplify_eq|].
  destruct (InsertIntoPool_spec ret (candidate i) Hs Hlen) as (arr & r & E & Hpost). rewrite E in H.
  cbn [mbind outcome_bind] in H. destruct (_ && bool_decide (_ < r)%nat); [done|]. simplify_eq.
  destruct Hpost as [(-> & -> & _)|(Hr & -> & Hsort & _)].
  { destruct (bool_decide (length ret < L)%nat); by rewrite take_ge by lia. }
  set (n := if bool_decide (length ret < L)%nat then S (length ret) else length ret).
  set (arr := insert_at r (candidate i) ret) in *.
  assert (forall b : bool, (if b then take (S (length ret)) arr else take (length ret) arr)
    = take (if b then S (length ret) else length ret) arr) as -> by (by intros []). fold n.
  assert (r < n)%nat as Hrn.
  { subst n arr. destruct (bool_decide (length ret < L)%nat) eqn:Hl; [lia | apply bool_decide_eq_false_1 in Hl].
    destruct (decide (r = length ret)) as [->|]; [exfalso|lia].
    rewrite (bool_decide_eq_true_2 (length ret = L)) in Eb by lia. rewrite andb_true_r in Eb. apply negb_false_iff in Eb.
    apply (StronglySorted_app_1_elem_of nle (take (length ret) ret) (candidate i :: drop (length ret) ret) last (candidate i)) in Hsort;
      [unfold nle in Hsort; simpl in Hsort; by rewrite Eb in Hsort | rewrite take_ge by lia; by eapply list_elem_of_lookup_2 | set_solver]. }
  split; [intros k x; by apply insert_rank | right].
  apply list_elem_of_lookup. exists r. rewrite lookup_take_lt by done. subst arr. unfold insert_at.
  rewrite lookup_app_r by (rewrite length_take; lia). by rewrite length_take, Nat.min_l, Nat.sub_diag by lia.
Qed.

Lemma pool_grows_refl s : pool_grows s s.
Proof. split; [|by left]. intros k x Hk. left. by exists k. Qed.

Lemma pool_grows_trans s1 s2 s3 : visited_ids s1 ⊆ visited_ids s2 -> pool_grows s1 s2 -> pool_grows s2 s3 -> pool_grows s1 s3.
Proof.
  intros HV [A1 B1] [A2 B2]. split.
  - intros k x Hk. destruct (A2 k x Hk) as [(j & Hj & Ej)|(? & ? & Hv)].
    + destruct (A1 j x Hj) as [(j' & Hj' & Ej')|?]; [left; exists j'; split; [done | congruence] | by right].
    + right. split_and!; [done | done |]. intros ?. by apply Hv, HV.
  - destruct B2 as [E2|?]; [|by right]. rewrite E2. destruct B1 as [?|?]; [by left | by right].
Qed.

Lemma expand_neighbor_grows pend s nk i s' nk' :
  inv pend s -> pool_top s -> expand_neighbor i (s, nk) = Ok (s', nk') -> pool_grows s s'.
Proof.
  intros Hs Ht H. unfold expand_neighbor, push_neighbor in H. destruct (cur_id <? i); [done|].
  case_decide as Hi; [simplify_eq; apply pool_grows_refl|].
  destruct (pool_push _ _ _) as [[ret n]|] eqn:E; [|done]. cbn [mbind outcome_bind] in H. simplify_eq.
  destruct (pool_push_grows (l_search s) i (retset s) nk ret nk' (sv_sorted _ _ Hs) (sv_nonempty _ _ Hs) ltac:(destruct Ht; lia) E) as [H1 H2].
  split; simpl.
  - intros k x Hk. destruct (H1 k x Hk) as [?| ->]; auto.
  - destruct H2 as [?|?]; [auto | right; by eexists].
Qed.

Lemma expand_neighbors_grows pend : forall l s nk s' nk',
  inv pend s -> pool_top s -> (forall i, i ∈ l -> known i /\ i <= cur_id) ->
  foldM expand_neighbor l (s, nk) = Ok (s', nk') -> pool_grows s s'.
Proof.
  induction l as [|i l IH]; intros s nk s' nk' Hs Ht Hl H; cbn [foldM] in H; [simplify_eq; apply pool_grows_refl|].
  destruct (Hl i ltac:(set_solver)) as [Hk Hc].
  destruct (expand_neighbor_spec pend s nk i Hs Hk Hc) as (s1 & n1 & E1 & H1 & [V1 _ _ _] & _).
  destruct (pool_top_neighbor pend s nk i s1 n1 Hs Ht E1) as [T1 _].
  pose proof (expand_neighbor_grows pend s nk i s1 n1 Hs Ht E1) as G1.
  rewrite E1 in H. cbn [mbind outcome_bind] in H.
  assert (forall j, j ∈ l -> known j /\ j <= cur_id) as Hl' by (intros j Hj; apply Hl; by right).
  by apply (pool_grows_trans s s1 s' V1 G1), (IH s1 n1 s' nk').
Qed.

Lemma pool_top_init entries :
  (length entries <= original_l_search)%nat -> pool_top (init_search entries).
Proof.
  intros Hl. pose proof (std_sort_nb_perm (candidate <$> entries)) as Hp. constructor; simpl.
  - done.
  - rewrite Hp. by rewrite length_fmap.
  - intros x Hx. rewrite Hp in Hx. by apply list_elem_of_fmap in Hx as (i & -> & _).
  - intros j Hj. left. rewrite Hp, <- list_fmap_compose, list_fmap_id. by apply elem_of_list_to_set in Hj.
Qed.

Lemma start_measure (universe : gset Z) entries : (forall i, known i -> i ∈ universe) ->
  inv [] (init_search entries) -> (pool_measure (size universe) (init_search entries) 0 < pool_fuel (size universe))%nat.
Proof.
  intros Hu Hs. unfold pool_measure, pool_fuel.
  pose proof (pool_le_visited _ _ _ _ Hs). pose proof (visited_le _ _ _ Hu _ _ Hs). nia.
Qed.
End pool.

#[global] Arguments pt_closest {D _ pq_dist original_l_search} s _.
