(* ===== verification/Float32.v ===== *)
(** * Single-precision distances

    [float] of the program: IEEE 754 binary32, with the Standard Library's
    specification of the operations.  A distance is a number other than NaN;
    the only operation of the program that can give NaN is a division, which
    therefore returns an [option].

    The algorithms are written against the class [FloatOps]; [F32_ops] is the
    arithmetic the program runs on. *)
From Stdlib Require Import SpecFloat.
From S2P Require Import Prelude Neighbor.

(** What the pruning code does with floats: comparisons, division, the factor
    [1.2f] and four constants. *)
Class FloatOps (F : Type) := {
  float_ord :: DistOrd F;
  fdiv : F -> F -> option F;
  mul_1_2f : F -> F;
  div_1_2f : F -> F;
  f_zero : F;
  f_one : F;
  f_max : F;
  (** the least [float] that is at least the [double] [1 - 1e-5] *)
  f_one_minus : F;
  f_one_nonneg : dlt f_one f_zero = false;
  mul_nonneg : forall x, dlt x f_zero = false -> dlt (mul_1_2f x) f_zero = false;
}.

(** [a > b] for the result [a] of a division; false for NaN. *)
Definition fgt {F} `{!FloatOps F} (a : option F) (b : F) : bool :=
  match a with Some q => dlt b q | None => false end.

(** [std::max(a, b)] returns [a] unless [a < b]; NaN is not greater. *)
Definition std_max {F} `{!FloatOps F} (a : F) (b : option F) : F :=
  match b with Some q => if dlt a q then q else a | None => a end.

Definition is_zero {F} `{!FloatOps F} (a : F) : bool := negb (dlt a f_zero) && negb (dlt f_zero a).

(** ** binary32 *)
Definition prec : Z := 24.
Definition emax : Z := 128.

Definition is_nan (x : spec_float) : bool := match x with S754_nan => true | _ => false end.

Record F32 := { f32 : spec_float; f32_ok : is_nan f32 = false }.

Definition to_f32 (x : spec_float) : option F32 :=
  (if is_nan x as b return is_nan x = b -> option F32 then fun _ => None
   else fun H => Some {| f32 := x; f32_ok := H |}) eq_refl.

(** [m * 2 ^ e], rounded. *)
Definition lit (m e : Z) : F32 := default {| f32 := S754_zero false; f32_ok := eq_refl |}
  (to_f32 (binary_normalize prec emax m e false)).

Definition F32_1_2f : F32 := lit 10066330 (-23).

(** A comparison key: sign class, exponent, mantissa. *)
Definition sf_key (x : spec_float) : Z * Z * Z :=
  match x with
  | S754_infinity true => (-2, 0, 0)
  | S754_finite true m e => (-1, - e, Zneg m)
  | S754_finite false m e => (1, e, Zpos m)
  | S754_infinity false => (2, 0, 0)
  | _ => (0, 0, 0)
  end.

Definition key_ltb (a b : Z * Z * Z) : bool :=
  (a.1.1 <? b.1.1) || ((a.1.1 =? b.1.1) && ((a.1.2 <? b.1.2) || ((a.1.2 =? b.1.2) && (a.2 <? b.2)))).

Lemma key_ltb_same s e m e' m' : key_ltb (s, e, m) (s, e', m') =
  match e ?= e' with Lt => true | Gt => false | Eq => m <? m' end.
Proof.
  unfold key_ltb; cbn [fst snd]. rewrite Z.ltb_irrefl, Z.eqb_refl. cbn [orb andb].
  destruct (Z.compare_spec e e') as [->|H|H].
  - by rewrite Z.ltb_irrefl, Z.eqb_refl.
  - by rewrite (proj2 (Z.ltb_lt e e')).
  - rewrite (proj2 (Z.ltb_ge e e')) by lia. by rewrite (proj2 (Z.eqb_neq e e')) by lia.
Qed.

Lemma SFltb_key x y : is_nan x = false -> is_nan y = false -> SFltb x y = key_ltb (sf_key x) (sf_key y).
Proof.
  intros Hx Hy. destruct x as [?|[]| |[] m e], y as [?|[]| |[] m' e']; try done;
    unfold SFltb, SFcompare, sf_key; rewrite key_ltb_same.
  - rewrite Z.compare_opp, (Z.compare_antisym e e'). by destruct (e ?= e').
  - by destruct (e ?= e').
Qed.

Lemma key_ltb_spec a b : key_ltb a b = true <->
  a.1.1 < b.1.1 \/ (a.1.1 = b.1.1 /\ (a.1.2 < b.1.2 \/ (a.1.2 = b.1.2 /\ a.2 < b.2))).
Proof.
  unfold key_ltb. rewrite !orb_true_iff, !andb_true_iff, !orb_true_iff, !andb_true_iff, !Z.ltb_lt, !Z.eqb_eq. tauto.
Qed.

#[global] Program Instance F32_ord : DistOrd F32 := {| dlt := fun x y => SFltb (f32 x) (f32 y) |}.
Next Obligation.
  intros [x Hx] [y Hy]; simpl. rewrite !SFltb_key by done. rewrite key_ltb_spec.
  intros H. apply not_true_is_false. rewrite key_ltb_spec. lia.
Qed.
Next Obligation.
  intros [x Hx] [y Hy] [z Hz]; simpl. rewrite !SFltb_key by done. rewrite <- !not_true_iff_false, !key_ltb_spec. lia.
Qed.

(** The sign of a value that is not negative, and that rounding keeps it. *)
Definition nonneg (x : spec_float) : bool :=
  match x with S754_infinity s | S754_finite s _ _ => negb s | _ => true end.

Lemma nonneg_ltb x : is_nan x = false -> SFltb x (S754_zero false) = negb (nonneg x).
Proof. by destruct x as [|[]| |[]]. Qed.

Lemma binary_round_aux_nonneg m e l : nonneg (binary_round_aux prec emax false m e l) = true.
Proof.
  unfold binary_round_aux. destruct (shr_fexp prec emax m e l) as [mrs e'].
  destruct (shr_fexp prec emax _ e' loc_Exact) as [mrs' e'']. by destruct (shr_m mrs'); [|case_match|].
Qed.

Lemma mul_1_2f_nonneg x : nonneg x = true -> nonneg (SFmul prec emax x (f32 F32_1_2f)) = true.
Proof.
  change (f32 F32_1_2f) with (S754_finite false 10066330 (-23)).
  destruct x as [[]|[]| |[] m e]; try done. intros _. apply binary_round_aux_nonneg.
Qed.

Lemma to_f32_Some x y : to_f32 x = Some y -> f32 y = x.
Proof.
  unfold to_f32. generalize (eq_refl (is_nan x)). destruct (is_nan x) at 2 3; intros H E; [done|]. by injection E as <-.
Qed.

#[global] Program Instance F32_ops : FloatOps F32 := {|
  fdiv := fun x y => to_f32 (SFdiv prec emax (f32 x) (f32 y));
  mul_1_2f := fun x => default x (to_f32 (SFmul prec emax (f32 x) (f32 F32_1_2f)));
  div_1_2f := fun x => default x (to_f32 (SFdiv prec emax (f32 x) (f32 F32_1_2f)));
  f_zero := lit 0 0;
  f_one := lit 1 0;
  f_max := lit 16777215 104;
  f_one_minus := lit 16777049 (-24);
|}.
Next Obligation. by vm_compute. Qed.
Next Obligation.
  intros x. assert (forall a : F32, dlt a (lit 0 0) = SFltb (f32 a) (S754_zero false)) as Hz by done.
  rewrite !Hz, !nonneg_ltb by apply f32_ok. rewrite !negb_false_iff. intros H.
  destruct (to_f32 _) as [y|] eqn:E; simpl; [|done]. rewrite (to_f32_Some _ _ E). by apply mul_1_2f_nonneg.
Qed.

Example float_div : fdiv (lit 6 0) (lit 4 0) = Some (lit 3 (-1)) /\ fdiv (lit 0 0) (lit 0 0) = None.
Proof. split; by vm_compute. Qed.
