(* ===== verification/FloatArith.v ===== *)
(** * Float arithmetic of the quantizer

    The product quantizer and k-means compute with [float] and [double] and
    do not exclude NaN: a value is whatever the memory holds.  The algorithms
    are written against the class [FloatArith] (operations and the order, of
    which only the laws of a strict order are used) and, where they go through
    [double] or through a file, [Widening] and [FloatBits].

    The instance the program runs on has the 32-bit word in memory as its
    [float]; the operations decode it, use the Standard Library's
    specification of IEEE 754 and encode the result. *)
From Stdlib Require Import SpecFloat.
From S2P Require Import Prelude Neighbor Float32.

Class FloatArith (F : Type) := {
  float_zero : F;
  float_max : F;
  float_add : F -> F -> F;
  float_sub : F -> F -> F;
  float_mul : F -> F -> F;
  float_div : F -> F -> F;
  float_of_nat : nat -> F;
  float_lt : F -> F -> bool;
  float_lt_irrefl : forall x, float_lt x x = false;
  float_lt_trans : forall x y z, float_lt x y = true -> float_lt y z = true -> float_lt x z = true;
  float_zero_max : float_lt float_zero float_max = true;
}.

(** The bytes of a [float] in a file, as a word. *)
Class FloatBits (F : Type) := {
  float_bits : F -> Z;
  float_of_bits : Z -> F;
  float_bits_range : forall x, 0 <= float_bits x < 2 ^ 32;
  float_of_bits_bits : forall x, float_of_bits (float_bits x) = x;
}.

(** The conversions [(double) x] and [(float) x]. *)
Class Widening (F D : Type) := { widen : F -> D; narrow : D -> F }.

(** ** The order on IEEE values *)
Lemma SFltb_nan x y : SFltb x y = true -> is_nan x = false /\ is_nan y = false.
Proof. destruct x as [|[]| |], y as [|[]| |]; done. Qed.

Lemma SFltb_irrefl x : SFltb x x = false.
Proof.
  destruct (SFltb x x) eqn:E; [|done]. destruct (SFltb_nan _ _ E) as [Hx _].
  rewrite SFltb_key, key_ltb_spec in E by done. lia.
Qed.

Lemma SFltb_trans x y z : SFltb x y = true -> SFltb y z = true -> SFltb x z = true.
Proof.
  intros H1 H2. destruct (SFltb_nan _ _ H1) as [Hx Hy]. destruct (SFltb_nan _ _ H2) as [_ Hz].
  rewrite SFltb_key, key_ltb_spec in H1 by done. rewrite SFltb_key, key_ltb_spec in H2 by done.
  rewrite SFltb_key, key_ltb_spec by done. lia.
Qed.

(** ** [double] *)
Definition round_to (p m : Z) (x : spec_float) : spec_float :=
  match x with S754_finite s k e => binary_normalize p m (if s then Zneg k else Zpos k) e s | _ => x end.

#[global] Program Instance double_arith : FloatArith spec_float := {|
  float_zero := S754_zero false;
  float_max := S754_finite false 9007199254740991 971;
  float_add := SFadd 53 1024;
  float_sub := SFsub 53 1024;
  float_mul := SFmul 53 1024;
  float_div := SFdiv 53 1024;
  float_of_nat := fun n => binary_normalize 53 1024 (Z.of_nat n) 0 false;
  float_lt := SFltb;
|}.
Next Obligation. apply SFltb_irrefl. Qed.
Next Obligation. intros x y z. apply SFltb_trans. Qed.
Next Obligation. by vm_compute. Qed.

(** ** [float]: a word of memory *)
Record Word := { word : Z; word_ok : (0 <=? word) && (word <? 2 ^ 32) = true }.

Lemma word_range w : 0 <= word w < 2 ^ 32.
Proof. destruct w as [w Hw]; simpl. zbool. lia. Qed.

Lemma u32_ok x : (0 <=? u32 x) && (u32 x <? 2 ^ 32) = true.
Proof. pose proof (u32_range x). apply andb_true_iff. rewrite Z.leb_le, Z.ltb_lt. lia. Qed.

Definition to_word (x : Z) : Word := {| word := u32 x; word_ok := u32_ok x |}.

Definition decode (w : Word) : spec_float :=
  let s := Z.testbit (word w) 31 in
  let e := Z.land (Z.shiftr (word w) 23) 255 in
  let m := Z.land (word w) (2 ^ 23 - 1) in
  if e =? 255 then (if m =? 0 then S754_infinity s else S754_nan)
  else if e =? 0 then (if m =? 0 then S754_zero s else S754_finite s (Z.to_pos m) (-149))
  else S754_finite s (Z.to_pos (m + 2 ^ 23)) (e - 150).

Definition encode (x : spec_float) : Word :=
  let sign (s : bool) := if s then 2 ^ 31 else 0 in
  to_word match x with
  | S754_zero s => sign s
  | S754_infinity s => sign s + 255 * 2 ^ 23
  | S754_nan => 255 * 2 ^ 23 + 2 ^ 22
  | S754_finite s m e =>
      sign s + if Zpos m <? 2 ^ 23 then Zpos m else (e + 150) * 2 ^ 23 + (Zpos m - 2 ^ 23)
  end.

#[global] Program Instance word_arith : FloatArith Word := {|
  float_zero := to_word 0;
  float_max := encode (S754_finite false 16777215 104);
  float_add := fun x y => encode (SFadd prec emax (decode x) (decode y));
  float_sub := fun x y => encode (SFsub prec emax (decode x) (decode y));
  float_mul := fun x y => encode (SFmul prec emax (decode x) (decode y));
  float_div := fun x y => encode (SFdiv prec emax (decode x) (decode y));
  float_of_nat := fun n => encode (binary_normalize prec emax (Z.of_nat n) 0 false);
  float_lt := fun x y => SFltb (decode x) (decode y);
|}.
Next Obligation. intros x. apply SFltb_irrefl. Qed.
Next Obligation. intros x y z. apply SFltb_trans. Qed.
Next Obligation. by vm_compute. Qed.

#[global] Program Instance word_bits : FloatBits Word := {| float_bits := word; float_of_bits := to_word |}.
Next Obligation. apply word_range. Qed.
Next Obligation.
  intros [w Hw]. unfold to_word; cbn [word]. assert (u32 w = w) as E by (apply u32_small; zbool; lia).
  generalize (u32_ok w). rewrite E. intros Hw'. f_equal. apply (Eqdep_dec.UIP_dec bool_dec).
Qed.

#[global] Instance word_double : Widening Word spec_float := {|
  widen := fun w => round_to 53 1024 (decode w);
  narrow := fun x => encode (round_to prec emax x);
|}.

(** 1.5 and 0.1 in memory, their sum, and the exact square of a difference. *)
Example word_sum :
  word (float_add (to_word 1069547520) (to_word 1036831949)) = 1070386381 /\
  narrow (float_mul (widen (to_word 1036831949)) (widen (to_word 1036831949))) =
    float_mul (to_word 1036831949) (to_word 1036831949).
Proof. split; by vm_compute. Qed.

#[export] Instance float_inhabited F `{!FloatArith F} : Inhabited F | 100 := populate float_zero.

(** ** Consequences of the order *)
Section Order.
Context {F : Type} `{!FloatArith F}.

Lemma float_lt_asym x y : float_lt x y = true -> float_lt y x = false.
Proof.
  intros H. apply not_true_is_false. intros H'. pose proof (float_lt_trans _ _ _ H H') as C.
  by rewrite float_lt_irrefl in C.
Qed.

Lemma float_lt_le_trans x y z : float_lt x y = true -> float_lt x z = false -> float_lt y z = false.
Proof. intros H Hz. apply not_true_is_false. intros H'. by rewrite (float_lt_trans _ _ _ H H') in Hz. Qed.

(** The loop that keeps the first index with the least value:
    [if (dist < closest) { closest = dist; best = i; }]. *)
Definition argmin_step {I} (dist : I -> F) (i : I) (s : F * option I) : F * option I :=
  if float_lt (dist i) s.1 then (dist i, Some i) else s.

Definition argmin_from {I} (dist : I -> F) (ks : list I) (s : F * option I) : F * option I :=
  foldl (fun s i => argmin_step dist i s) s ks.

(** What the scan of [ks] from the bound [m0] finds: no value is below the
    result; nothing is found when no value is below [m0], otherwise it is the
    first index that has the least value. *)
Definition argmin_spec {I} (dist : I -> F) (m0 : F) (ks : list I) (s : F * option I) : Prop :=
  (forall j, j ∈ ks -> float_lt (dist j) s.1 = false) /\
  match s.2 with
  | None => s.1 = m0
  | Some i => s.1 = dist i /\ float_lt (dist i) m0 = true /\
      exists l1 l2, ks = l1 ++ i :: l2 /\ forall j, j ∈ l1 -> dist j <> dist i
  end.

Lemma argmin_snoc {I} (dist : I -> F) m0 ks i s :
  argmin_spec dist m0 ks s -> argmin_spec dist m0 (ks ++ [i]) (argmin_step dist i s).
Proof.
  intros [Hmin Hs]. unfold argmin_step. destruct (float_lt (dist i) s.1) eqn:E; split; cbn [fst snd].
  - intros j [Hj | ->%list_elem_of_singleton]%elem_of_app; [|apply float_lt_irrefl].
    apply not_true_is_false. intros H. pose proof (float_lt_trans _ _ _ H E) as C. by rewrite (Hmin j Hj) in C.
  - split; [done|]. split.
    + destruct s.2 as [k|]; [|by rewrite <- Hs]. destruct Hs as (Hk & H0 & _). rewrite Hk in E.
      by apply (float_lt_trans _ (dist k)).
    + exists ks, []. split; [done|]. intros j Hj Hji. rewrite <- Hji, (Hmin j Hj) in E. done.
  - intros j [Hj | ->%list_elem_of_singleton]%elem_of_app; [by apply Hmin | done].
  - destruct s.2 as [k|]; [|done]. destruct Hs as (Hk & H0 & l1 & l2 & -> & Hl). split; [done|]. split; [done|].
    exists l1, (l2 ++ [i]). split; [by rewrite <- app_assoc | done].
Qed.

Lemma argmin_from_spec {I} (dist : I -> F) m0 ks : argmin_spec dist m0 ks (argmin_from dist ks (m0, None)).
Proof.
  induction ks as [|i ks IH] using rev_ind.
  - split; [|done]. intros j Hj. by apply elem_of_nil in Hj.
  - unfold argmin_from. rewrite foldl_app. by apply argmin_snoc.
Qed.

Lemma argmin_from_ext {I} (d1 d2 : I -> F) ks s :
  (forall i, i ∈ ks -> d1 i = d2 i) -> argmin_from d1 ks s = argmin_from d2 ks s.
Proof.
  revert s. induction ks as [|i ks IH]; intros s H; simpl; [done|]. rewrite IH by set_solver.
  unfold argmin_step. by rewrite (H i) by set_solver.
Qed.
End Order.
