(* ===== verification/Arrays.v ===== *)
(** * Arrays and loop nests

    The numeric code works on flat arrays with computed indices.  An access
    outside the array ends the run ([Crash]); a loop nest is a [foldM] over
    index ranges.  The lemmas flatten a nest whose body updates one entry into
    a list of (index, value) pairs, and say what each entry holds at the end. *)
From S2P Require Import Prelude.

(** [l[i]] *)
Definition rd {A} (l : list A) (i : nat) : outcome A :=
  match l !! i with Some x => Ok x | None => Crash end.

(** [l[i] = g(l[i], v)] *)
Definition upd {A V} (g : A -> V -> A) (l : list A) (i : nat) (v : V) : outcome (list A) :=
  x ← rd l i; Ok (<[i := g x v]> l).

(** [l[i] = v] *)
Definition wr {A} (l : list A) (i : nat) (v : A) : outcome (list A) := upd (fun _ v => v) l i v.

Lemma rd_ok {A} `{!Inhabited A} (l : list A) i : (i < length l)%nat -> rd l i = Ok (l !!! i).
Proof. intros Hi. unfold rd. by rewrite (list_lookup_lookup_total_lt l i Hi). Qed.

Lemma upd_ok {A V} (g : A -> V -> A) l i v x : l !! i = Some x -> upd g l i v = Ok (<[i := g x v]> l).
Proof. intros H. unfold upd, rd. by rewrite H. Qed.

Lemma rd_fmap {A B} (f : A -> B) l i x : rd l i = Ok x -> rd (f <$> l) i = Ok (f x).
Proof. unfold rd. rewrite list_lookup_fmap. by destruct (l !! i) as [y|]; [intros [= ->]|]. Qed.

Lemma foldM_ext {A S} (f f' : A -> S -> outcome S) l s :
  (forall x s, x ∈ l -> f x s = f' x s) -> foldM f l s = foldM f' l s.
Proof.
  revert s. induction l as [|x l IH]; intros s H; simpl; [done|]. rewrite (H x s) by set_solver.
  destruct (f' x s) as [s'|]; simpl; [|done]. apply IH. intros. apply H. set_solver.
Qed.

Lemma foldM_bind {A B S} (f : B -> S -> outcome S) (g : A -> list B) l s :
  foldM f (l ≫= g) s = foldM (fun x => foldM f (g x)) l s.
Proof.
  revert s. induction l as [|x l IH]; intros s; [done|]. cbn [mbind list_bind foldM]. rewrite foldM_app.
  destruct (foldM f (g x) s) as [s'|]; simpl; [apply IH | done].
Qed.

Lemma foldM_fmap {A B S} (f : B -> S -> outcome S) (h : A -> B) l s :
  foldM f (h <$> l) s = foldM (fun x => f (h x)) l s.
Proof. revert s. induction l as [|x l IH]; intros s; simpl; [done|]. destruct (f (h x) s); simpl; [apply IH | done]. Qed.

(** A loop whose body never ends the run is a fold. *)
Lemma foldM_pure {A S} (f : A -> S -> outcome S) (g : S -> A -> S) l s :
  (forall x s, x ∈ l -> f x s = Ok (g s x)) -> foldM f l s = Ok (foldl g s l).
Proof.
  revert s. induction l as [|x l IH]; intros s H; simpl; [done|]. rewrite H by set_solver. simpl.
  apply IH. intros. apply H. set_solver.
Qed.

Lemma foldl_fmap {A B S} (g : S -> B -> S) (h : A -> B) l s : foldl g s (h <$> l) = foldl (fun s x => g s (h x)) s l.
Proof. revert s. by induction l as [|x l IH]; intros s; simpl. Qed.

Lemma foldl_ext_elem {A S} (g h : S -> A -> S) l s :
  (forall x s, x ∈ l -> g s x = h s x) -> foldl g s l = foldl h s l.
Proof.
  revert s. induction l as [|x l IH]; intros s H; simpl; [done|]. rewrite H by set_solver. apply IH.
  intros. apply H. set_solver.
Qed.

Lemma bind_single {A B} (f : A -> list B) l x :
  NoDup l -> x ∈ l -> (forall y, y ∈ l -> y <> x -> f y = []) -> l ≫= f = f x.
Proof.
  intros Hnd Hx H. apply list_elem_of_split in Hx as (l1 & l2 & ->).
  apply NoDup_app in Hnd as (_ & Hdis & Hnd). apply NoDup_cons in Hnd as [Hx2 _].
  assert (forall k, (forall y, y ∈ k -> f y = []) -> k ≫= f = []) as Hnil.
  { intros k Hk. induction k as [|y k IH]; [done|]. cbn [mbind list_bind]. rewrite Hk by set_solver. apply IH. set_solver. }
  rewrite bind_app. cbn [mbind list_bind]. fold (l2 ≫= f). rewrite (Hnil l1), (Hnil l2).
  - by rewrite app_nil_r.
  - intros y Hy. apply H; set_solver.
  - intros y Hy. apply H; [set_solver|]. intros ->. set_solver.
Qed.

Lemma bind_nil_elem {A B} (f : A -> list B) l : (forall y, y ∈ l -> f y = []) -> l ≫= f = [].
Proof.
  induction l as [|y l IH]; intros H; [done|]. cbn [mbind list_bind]. rewrite H by set_solver. apply IH. set_solver.
Qed.

Lemma bind_ext_elem {A B} (f g : A -> list B) l : (forall y, y ∈ l -> f y = g y) -> l ≫= f = l ≫= g.
Proof.
  induction l as [|y l IH]; intros H; [done|]. cbn [mbind list_bind]. rewrite H by set_solver. f_equal. apply IH. set_solver.
Qed.

Lemma bind_singletons {A B} (f : A -> B) l : (l ≫= fun x => [f x]) = f <$> l.
Proof. induction l as [|x l IH]; [done|]. cbn [mbind list_bind fmap list_fmap]. simpl. by f_equal. Qed.

(** ** A loop that updates one entry at a time *)
Section Updates.
Context {A V : Type} (g : A -> V -> A).

Definition upds (items : list (nat * V)) (l : list A) : outcome (list A) :=
  foldM (fun it l => upd g l it.1 it.2) items l.

(** The values that go to entry [k], in order. *)
Definition vals (k : nat) (items : list (nat * V)) : list V := (filter (fun it => it.1 = k) items).*2.

Lemma upds_correct items l :
  Forall (fun it => (it.1 < length l)%nat) items ->
  exists l', upds items l = Ok l' /\ length l' = length l /\
    forall k x, l !! k = Some x -> l' !! k = Some (foldl g x (vals k items)).
Proof.
  revert l. induction items as [|[i v] items IH]; intros l H; simpl; [eauto|].
  apply Forall_cons in H as [Hi Hl]; cbn [fst snd] in *. unfold upds; cbn [foldM].
  destruct (lookup_lt_is_Some_2 l i Hi) as [y Hy]. cbn [fst snd]. rewrite (upd_ok g l i v y Hy).
  cbn [mbind outcome_bind].
  destruct (IH (<[i := g y v]> l)) as (l' & E & Hlen & Hk).
  { rewrite length_insert. done. }
  exists l'. split; [exact E|]. split; [by rewrite Hlen, length_insert|]. intros k x Hx. unfold vals.
  destruct (decide (i = k)) as [-> | Hne].
  - rewrite filter_cons_True by done. simpl. assert (x = y) as -> by congruence. apply Hk.
    by rewrite list_lookup_insert_eq by done.
  - rewrite filter_cons_False by done. apply Hk. by rewrite list_lookup_insert_ne.
Qed.
End Updates.

Section Vals.
Context {V : Type}.
Implicit Types items : list (nat * V).

Lemma vals_app k items1 items2 : vals k (items1 ++ items2) = vals k items1 ++ vals k items2.
Proof. unfold vals. by rewrite filter_app, fmap_app. Qed.

Lemma vals_bind {I} k (h : I -> list (nat * V)) ks : vals k (ks ≫= h) = ks ≫= fun i => vals k (h i).
Proof. induction ks as [|i ks IH]; [done|]. cbn [mbind list_bind]. by rewrite vals_app, <- IH. Qed.

Lemma vals_none k items : (forall it, it ∈ items -> it.1 <> k) -> vals k items = [].
Proof. intros H. unfold vals. rewrite filter_none; [done|]. by apply Forall_forall. Qed.

(** A loop whose index is an injective function of its variable writes entry [key i] once. *)
Lemma vals_single {I} k (key : I -> nat) (v : I -> V) ks i :
  NoDup ks -> i ∈ ks -> key i = k -> (forall j, j ∈ ks -> key j = k -> j = i) ->
  vals k ((fun i => (key i, v i)) <$> ks) = [v i].
Proof.
  intros Hnd Hi Hk Hinj. rewrite <- (bind_singletons (fun i => (key i, v i))), vals_bind, (bind_single _ _ i); [|done..|].
  - unfold vals. by rewrite filter_cons_True.
  - intros j Hj Hne. apply vals_none. intros it ->%list_elem_of_singleton. simpl. eauto.
Qed.

(** A loop all of whose iterations update entry [k]. *)
Lemma vals_all {I} k (v : I -> V) ks : vals k ((fun i => (k, v i)) <$> ks) = v <$> ks.
Proof.
  unfold vals. rewrite filter_all; [by rewrite <- list_fmap_compose|].
  apply Forall_forall. by intros it (j & -> & _)%list_elem_of_fmap.
Qed.

Lemma vals_miss {I} k (key : I -> nat) (v : I -> V) ks :
  (forall j, j ∈ ks -> key j <> k) -> vals k ((fun i => (key i, v i)) <$> ks) = [].
Proof. intros H. apply vals_none. intros it (j & -> & Hj)%list_elem_of_fmap. by apply H. Qed.
End Vals.

(** A loop nest with one update in its body. *)
Lemma upds_nest {A V I J} (g : A -> V -> A) (key : I -> J -> nat) (v : I -> J -> V) (ks : list I) (js : I -> list J) l :
  foldM (fun i l => foldM (fun j l => upd g l (key i j) (v i j)) (js i) l) ks l =
  upds g (ks ≫= fun i => (fun j => (key i j, v i j)) <$> js i) l.
Proof. unfold upds. rewrite foldM_bind. apply foldM_ext. intros i s _. by rewrite foldM_fmap. Qed.

(** [for (i = a; i < b; i++)] *)
Definition range (a b : nat) : list nat := seq a (b - a).

Lemma elem_range a b i : i ∈ range a b <-> (a <= i < b)%nat.
Proof. unfold range. rewrite elem_of_seq. lia. Qed.

Lemma length_range a b : length (range a b) = (b - a)%nat.
Proof. apply length_seq. Qed.

Lemma range_snoc a d : (a <= d)%nat -> range a (S d) = range a d ++ [d].
Proof. intros H. unfold range. replace (S d - a)%nat with (S (d - a)) by lia. rewrite seq_S. do 2 f_equal. lia. Qed.

Lemma range_S n : range 0 (S n) = range 0 n ++ [n].
Proof. by rewrite range_snoc by lia. Qed.

Lemma range_app a b c : (a <= b <= c)%nat -> range a c = range a b ++ range b c.
Proof.
  intros H. unfold range. replace (c - a)%nat with ((b - a) + (c - b))%nat by lia. rewrite seq_app. do 2 f_equal. lia.
Qed.

Lemma lookup_range a b i : (i < b - a)%nat -> range a b !! i = Some (a + i)%nat.
Proof. intros Hi. unfold range. by rewrite lookup_seq_lt. Qed.

Lemma NoDup_range a b : NoDup (range a b).
Proof. apply NoDup_seq. Qed.

(** The digits of a flattened index. *)
Lemma flat_inj (n i i' j j' : nat) : (j < n)%nat -> (j' < n)%nat -> (i * n + j = i' * n + j')%nat -> i = i' /\ j = j'.
Proof. intros Hj Hj' E. assert (i = i') as -> by (destruct (Nat.lt_total i i') as [?|[?|?]]; [nia | done | nia]). lia. Qed.

Lemma flat_lt (m n i j : nat) : (i < m)%nat -> (j < n)%nat -> (i * n + j < m * n)%nat.
Proof. intros. nia. Qed.
