(* ===== verification/PQTable.v ===== *)
(** * The product-quantization table

    [FixedChunkPQTable] of [include/pq_table.h] and the two lookup routines of
    [include/ssd_index.h]: the transposed table and the table of
    centre-to-centre distances that [post_load_pq_table] computes, the
    distances of a query to every centre ([populate_chunk_distances]), the
    distances of codes looked up in them ([aggregate_coords],
    [pq_dist_lookup]), code-to-code distances ([compute_distances_alltoall])
    and the encoder ([deflate_vec]).

    The loops are the source's, on flat arrays, in the order of evaluation of
    the source text; an access outside an array is [Crash].  [float] is any
    [FloatArith].  In [populate_chunk_distances] the difference is widened to
    [double] and its square narrowed back: the square of a [float] is exact in
    [double], so this is the [float] product. *)
From S2P Require Import Prelude Neighbor FloatArith Arrays.

Record FixedChunkPQTable (F : Type) := {
  tables : list F;               (** 256 rows of [ndims] *)
  centroid : list F;
  ndims : nat;
  n_chunks : nat;
  chunk_offsets : list Z;
  rearrangement : list Z;
  tables_T : list F;             (** [ndims] rows of 256 *)
  all_to_all_dists : list F;
}.
Arguments tables {_} _.
Arguments centroid {_} _.
Arguments ndims {_} _.
Arguments n_chunks {_} _.
Arguments chunk_offsets {_} _.
Arguments rearrangement {_} _.
Arguments tables_T {_} _.
Arguments all_to_all_dists {_} _.

(** [memcpy(out + i * n, all + id * n, n)] *)
Definition rd_block {A} (l : list A) (off n : nat) : outcome (list A) :=
  if bool_decide (off + n <= length l)%nat then Ok (take n (drop off l)) else Crash.

Definition wr_block {A} (l : list A) (off : nat) (b : list A) : outcome (list A) :=
  if bool_decide (off + length b <= length l)%nat then Ok (take off l ++ b ++ drop (off + length b) l) else Crash.

Definition aggregate_coords (ids : list Z) (n_ids : nat) (all_coords : list Z) (nd : nat) (out : list Z) : outcome (list Z) :=
  foldM (fun i out =>
    id ← rd ids i;
    b ← rd_block all_coords (Z.to_nat id * nd) nd;
    wr_block out (i * nd) b) (range 0 n_ids) out.

Section Table.
Context {F : Type} `{!FloatArith F}.
Implicit Types t : FixedChunkPQTable F.

Definition chunk_dims t (c : nat) : outcome (list nat) :=
  b ← rd (chunk_offsets t) c;
  e ← rd (chunk_offsets t) (S c);
  Ok (range (Z.to_nat b) (Z.to_nat e)).

Definition square (x : F) : F := float_mul x x.

(** [buf]: what [alloc_aligned] returned for [tables_T]. *)
Definition post_load_pq_table (buf : list F) t : outcome (FixedChunkPQTable F) :=
  tT ← foldM (fun i T => foldM (fun j T =>
         x ← rd (tables t) (i * ndims t + j);
         wr T (j * 256 + i) x) (range 0 (ndims t)) T) (range 0 256) buf;
  a ← foldM (fun i a => foldM (fun j a => foldM (fun c a =>
         ds ← chunk_dims t c;
         foldM (fun d a =>
           x ← rd (tables t) (i * ndims t + d);
           y ← rd (tables t) (j * ndims t + d);
           upd float_add a (i * 256 * n_chunks t + j * n_chunks t + c) (square (float_sub x y))) ds a)
         (range 0 (n_chunks t)) a) (range 0 256) a) (range 0 256)
       (replicate (256 * 256 * n_chunks t) float_zero);
  Ok {| tables := tables t; centroid := centroid t; ndims := ndims t; n_chunks := n_chunks t;
        chunk_offsets := chunk_offsets t; rearrangement := rearrangement t;
        tables_T := tT; all_to_all_dists := a |}.

(** The first [256 * n_chunks] entries of [dist_vec]. *)
Definition populate_chunk_distances t (query_vec : list F) : outcome (list F) :=
  foldM (fun chunk v =>
    ds ← chunk_dims t chunk;
    foldM (fun j v =>
      p ← rd (rearrangement t) j;
      foldM (fun idx v =>
        x ← rd (tables_T t) (256 * j + idx);
        q ← rd query_vec (Z.to_nat p);
        m ← rd (centroid t) (Z.to_nat p);
        upd float_add v (256 * chunk + idx) (square (float_sub x (float_sub q m)))) (range 0 256) v) ds v)
    (range 0 (n_chunks t)) (replicate (256 * n_chunks t) float_zero).

(** The first [n_pts] entries of [dists_out]. *)
Definition pq_dist_lookup (pq_ids : list Z) (n_pts pq_nchunks : nat) (pq_dists : list F) : outcome (list F) :=
  foldM (fun chunk v =>
    foldM (fun idx v =>
      b ← rd pq_ids (pq_nchunks * idx + chunk);
      x ← rd pq_dists (256 * chunk + Z.to_nat b);
      upd float_add v idx x) (range 0 n_pts) v)
    (range 0 pq_nchunks) (replicate n_pts float_zero).

Definition compute_distances_alltoall t (comp_src comp_dsts : list Z) (count : nat) : outcome (list F) :=
  let chunks := n_chunks t in
  foldM (fun c v =>
    s ← rd comp_src c;
    let src_base := (Z.to_nat s * 256 * chunks)%nat in
    foldM (fun i v =>
      dst ← rd comp_dsts (i * chunks + c);
      x ← rd (all_to_all_dists t) (src_base + Z.to_nat dst * chunks + c);
      upd float_add v i x) (range 0 count) v)
    (range 0 chunks) (replicate count float_zero).

(** The body of the inner loop of [deflate_vec]. *)
Definition deflate_step t (fp : list F) (c i : nat) (s : F * list Z) : outcome (F * list Z) :=
  ds ← chunk_dims t c;
  cur_dist ← foldM (fun d acc =>
    x ← rd (tables t) (i * ndims t + d);
    p ← rd (rearrangement t) d;
    q ← rd fp (Z.to_nat p);
    m ← rd (centroid t) (Z.to_nat p);
    Ok (float_add acc (square (float_sub x (float_sub q m))))) ds float_zero;
  let '(closest_dist, out) := s in
  if float_lt cur_dist closest_dist
  then out ← wr out c (Z.of_nat i); Ok (cur_dist, out)
  else Ok (closest_dist, out).

Definition deflate_vec t (fp_vec : list F) (out_pq_vec : list Z) : outcome (list Z) :=
  foldM (fun c out =>
    s ← foldM (deflate_step t fp_vec c) (range 0 256) (float_max, out);
    Ok s.2) (range 0 (n_chunks t)) out_pq_vec.
End Table.

(** ** What the tables mean *)
Section Spec.
Context {F : Type} `{!FloatArith F}.
Implicit Types t : FixedChunkPQTable F.

Definition float_sum (l : list F) : F := foldl float_add float_zero l.

(** Row [i], dimension [d] (after the rearrangement) of the table. *)
Definition tab t (i d : nat) : F := tables t !!! (i * ndims t + d)%nat.

Definition dims t (c : nat) : list nat :=
  range (Z.to_nat (chunk_offsets t !!! c)) (Z.to_nat (chunk_offsets t !!! S c)).

(** The query coordinate that dimension [d] of the table stands for, centred. *)
Definition centred t (q : list F) (d : nat) : F :=
  let p := Z.to_nat (rearrangement t !!! d) in float_sub (q !!! p) (centroid t !!! p).

(** Squared distance, in chunk [c], of [q] to centre [i] and of centre [i] to centre [j]. *)
Definition chunk_dist t (q : list F) (c i : nat) : F :=
  float_sum ((fun d => square (float_sub (tab t i d) (centred t q d))) <$> dims t c).
Definition sym_chunk t (i j c : nat) : F :=
  float_sum ((fun d => square (float_sub (tab t i d) (tab t j d))) <$> dims t c).

(** Distance of a query to a code, and of a code to a code, chunk by chunk. *)
Definition asym_dist t (q : list F) (code : nat -> nat) : F :=
  float_sum ((fun c => chunk_dist t q c (code c)) <$> range 0 (n_chunks t)).
Definition sym_dist t (code1 code2 : nat -> nat) : F :=
  float_sum ((fun c => sym_chunk t (code1 c) (code2 c) c) <$> range 0 (n_chunks t)).

(** A table as the loader leaves it: the offsets and the rearrangement stay
    within the dimensions. *)
Definition table_ok t : Prop :=
  length (tables t) = (256 * ndims t)%nat /\ length (centroid t) = ndims t /\
  length (chunk_offsets t) = S (n_chunks t) /\ Forall (fun o => (Z.to_nat o <= ndims t)%nat) (chunk_offsets t) /\
  length (rearrangement t) = ndims t /\ Forall (fun p => (Z.to_nat p < ndims t)%nat) (rearrangement t).

Definition transposed t : Prop :=
  length (tables_T t) = (256 * ndims t)%nat /\
  forall i d, (i < 256)%nat -> (d < ndims t)%nat -> tables_T t !!! (d * 256 + i)%nat = tab t i d.

Definition all_to_all t : Prop :=
  length (all_to_all_dists t) = (256 * 256 * n_chunks t)%nat /\
  forall i j c, (i < 256)%nat -> (j < 256)%nat -> (c < n_chunks t)%nat ->
    all_to_all_dists t !!! (i * 256 * n_chunks t + j * n_chunks t + c)%nat = sym_chunk t i j c.

Lemma dims_in t c d : table_ok t -> (c < n_chunks t)%nat -> d ∈ dims t c -> (d < ndims t)%nat.
Proof.
  intros (_ & _ & Hl & Ho & _) Hc Hd%elem_range. rewrite Forall_forall in Ho.
  destruct (lookup_lt_is_Some_2 (chunk_offsets t) (S c)) as [o Eo]; [lia|].
  rewrite (list_lookup_total_correct _ _ _ Eo) in Hd. apply list_elem_of_lookup_2, Ho in Eo. lia.
Qed.

Lemma chunk_dims_ok t c : table_ok t -> (c < n_chunks t)%nat -> chunk_dims t c = Ok (dims t c).
Proof. intros (_ & _ & Hl & _) Hc. unfold chunk_dims. by rewrite !rd_ok by lia. Qed.

Lemma rearranged_in t d : table_ok t -> (d < ndims t)%nat -> (Z.to_nat (rearrangement t !!! d) < ndims t)%nat.
Proof.
  intros (_ & _ & _ & _ & Hl & Hr) Hd. rewrite Forall_forall in Hr. apply Hr.
  apply list_elem_of_lookup_total_2. lia.
Qed.

Lemma rd_tab t i d : table_ok t -> (i < 256)%nat -> (d < ndims t)%nat -> rd (tables t) (i * ndims t + d) = Ok (tab t i d).
Proof. intros (Hl & _) Hi Hd. apply rd_ok. rewrite Hl. by apply flat_lt. Qed.

(** The arrays the loops build are those of [upds]; the entries are read with [!!!]. *)
Lemma upds_total {V} (g : F -> V -> F) items l :
  Forall (fun it => (it.1 < length l)%nat) items ->
  exists l', upds g items l = Ok l' /\ length l' = length l /\
    forall k, (k < length l)%nat -> l' !!! k = foldl g (l !!! k) (vals k items).
Proof.
  intros H. destruct (upds_correct g items l H) as (l' & E & Hl & Hk). exists l'. split; [done|]. split; [done|].
  intros k Hk'. by apply list_lookup_total_correct, Hk, list_lookup_lookup_total_lt.
Qed.

Lemma upds_zero {V} (g : F -> V -> F) items n :
  Forall (fun it => (it.1 < n)%nat) items ->
  exists l', upds g items (replicate n float_zero) = Ok l' /\ length l' = n /\
    forall k, (k < n)%nat -> l' !!! k = foldl g float_zero (vals k items).
Proof.
  intros H. destruct (upds_total g items (replicate n float_zero)) as (l' & E & Hl & Hk).
  { by rewrite length_replicate. }
  rewrite length_replicate in Hl, Hk. exists l'. split; [done|]. split; [done|]. intros k Hk'.
  rewrite Hk by done. by rewrite lookup_total_replicate_2.
Qed.
End Spec.

(** ** The loops compute the tables *)
Section Correct.
Context {F : Type} `{!FloatArith F}.
Implicit Types t : FixedChunkPQTable F.

Lemma transpose_loop t buf : table_ok t -> length buf = (256 * ndims t)%nat ->
  exists T, foldM (fun i T => foldM (fun j T =>
      x ← rd (tables t) (i * ndims t + j); wr T (j * 256 + i) x) (range 0 (ndims t)) T) (range 0 256) buf = Ok T /\
    length T = (256 * ndims t)%nat /\
    forall i d, (i < 256)%nat -> (d < ndims t)%nat -> T !!! (d * 256 + i)%nat = tab t i d.
Proof.
  intros Ht Hb.
  rewrite (foldM_ext _ (fun i T => foldM (fun j T =>
    upd (fun _ v => v) T (j * 256 + i) (tab t i j)) (range 0 (ndims t)) T)).
  2:{ intros i s Hi%elem_range. apply foldM_ext. intros j s' Hj%elem_range. by rewrite rd_tab by lia || done. }
  rewrite (upds_nest _ (fun i j => (j * 256 + i)%nat) (fun i j => tab t i j)). set (items := _ ≫= _).
  destruct (upds_total (fun _ v => v) items buf) as (T & -> & Hl & Hk).
  { apply Forall_forall. intros it (i & Hit & Hi%elem_range)%list_elem_of_bind.
    apply list_elem_of_fmap in Hit as (j & -> & Hj%elem_range). cbn [fst]. rewrite Hb. nia. }
  exists T. split; [done|]. split; [lia|]. intros i d Hi Hd. rewrite Hk by nia. unfold items.
  rewrite vals_bind, (bind_single _ _ i); [|apply NoDup_range | by apply elem_range; lia |].
  - rewrite (vals_single _ _ _ _ d); [done | apply NoDup_range | by apply elem_range; lia | done |].
    intros j _ Hj. lia.
  - intros j Hj%elem_range Hne. apply vals_miss. intros d' Hd' E. apply flat_inj in E; lia.
Qed.

(** The loops of [post_load_pq_table] over pairs of centres, with their body evaluated. *)
Definition pair_items t : list (nat * F) :=
  range 0 256 ≫= fun i => range 0 256 ≫= fun j => range 0 (n_chunks t) ≫= fun c =>
    (fun d => (i * 256 * n_chunks t + j * n_chunks t + c, square (float_sub (tab t i d) (tab t j d)))%nat) <$> dims t c.

Lemma pair_key_inj n i j c i' j' c' :
  (j < 256)%nat -> (j' < 256)%nat -> (c < n)%nat -> (c' < n)%nat ->
  (i * 256 * n + j * n + c = i' * 256 * n + j' * n + c')%nat -> i = i' /\ j = j' /\ c = c'.
Proof.
  intros Hj Hj' Hc Hc' E. destruct (flat_inj n (i * 256 + j) (i' * 256 + j') c c') as [E1 ->]; [lia..|].
  apply flat_inj in E1 as [-> ->]; lia.
Qed.

Lemma vals_pair_items t i j c : (i < 256)%nat -> (j < 256)%nat -> (c < n_chunks t)%nat ->
  vals (i * 256 * n_chunks t + j * n_chunks t + c) (pair_items t) =
  (fun d => square (float_sub (tab t i d) (tab t j d))) <$> dims t c.
Proof.
  intros Hi Hj Hc. unfold pair_items.
  rewrite vals_bind, (bind_single _ _ i); [|apply NoDup_range | by apply elem_range; lia |].
  2:{ intros i' Hi' Hne. apply vals_none. intros it (j' & (c' & (d & -> & _)%list_elem_of_fmap
        & Hc'%elem_range)%list_elem_of_bind & Hj'%elem_range)%list_elem_of_bind E. cbn [fst] in E.
      apply pair_key_inj in E; lia. }
  rewrite vals_bind, (bind_single _ _ j); [|apply NoDup_range | by apply elem_range; lia |].
  2:{ intros j' Hj'%elem_range Hne. apply vals_none. intros it (c' & (d & -> & _)%list_elem_of_fmap
        & Hc'%elem_range)%list_elem_of_bind E. cbn [fst] in E. apply pair_key_inj in E; lia. }
  rewrite vals_bind, (bind_single _ _ c); [|apply NoDup_range | by apply elem_range; lia |].
  - apply vals_all.
  - intros c' Hc'%elem_range Hne. apply vals_miss. intros d _ E. apply pair_key_inj in E; lia.
Qed.

Lemma pair_loop t : table_ok t ->
  exists a, foldM (fun i a => foldM (fun j a => foldM (fun c a =>
      ds ← chunk_dims t c;
      foldM (fun d a =>
        x ← rd (tables t) (i * ndims t + d);
        y ← rd (tables t) (j * ndims t + d);
        upd float_add a (i * 256 * n_chunks t + j * n_chunks t + c) (square (float_sub x y))) ds a)
      (range 0 (n_chunks t)) a) (range 0 256) a) (range 0 256)
      (replicate (256 * 256 * n_chunks t) float_zero) = Ok a /\
    length a = (256 * 256 * n_chunks t)%nat /\
    forall i j c, (i < 256)%nat -> (j < 256)%nat -> (c < n_chunks t)%nat ->
      a !!! (i * 256 * n_chunks t + j * n_chunks t + c)%nat = sym_chunk t i j c.
Proof.
  intros Ht. set (n := n_chunks t).
  destruct (upds_zero float_add (pair_items t) (256 * 256 * n)) as (a & E & Hl & Hk).
  { apply Forall_forall. intros it (i & (j & (c & (d & -> & _)%list_elem_of_fmap & Hc%elem_range)%list_elem_of_bind
      & Hj%elem_range)%list_elem_of_bind & Hi%elem_range)%list_elem_of_bind. cbn [fst]. fold n. fold n in Hc.
    rewrite <- Nat.mul_add_distr_r. apply flat_lt; lia. }
  exists a. split; [|split; [done|]].
  - rewrite <- E. unfold pair_items, upds. rewrite foldM_bind. apply foldM_ext. intros i s Hi%elem_range.
    rewrite foldM_bind. apply foldM_ext. intros j s1 Hj%elem_range.
    rewrite foldM_bind. apply foldM_ext. intros c s2 Hc%elem_range. rewrite chunk_dims_ok by (done || lia).
    cbn [mbind outcome_bind]. rewrite foldM_fmap. apply foldM_ext. intros d s3 Hd.
    assert (d < ndims t)%nat by (apply (dims_in t c); [done | lia | done]). by rewrite !rd_tab by (done || lia).
  - intros i j c Hi Hj Hc. rewrite Hk.
    + unfold n. by rewrite vals_pair_items.
    + rewrite <- Nat.mul_add_distr_r. apply flat_lt; lia.
Qed.

Definition loaded t : Prop := table_ok t /\ transposed t /\ all_to_all t.

Lemma post_load_loaded t buf : table_ok t -> length buf = (256 * ndims t)%nat ->
  exists t', post_load_pq_table buf t = Ok t' /\ loaded t' /\
    t' = {| tables := tables t; centroid := centroid t; ndims := ndims t; n_chunks := n_chunks t;
            chunk_offsets := chunk_offsets t; rearrangement := rearrangement t;
            tables_T := tables_T t'; all_to_all_dists := all_to_all_dists t' |}.
Proof.
  intros Ht Hb. destruct (transpose_loop t buf Ht Hb) as (T & ET & HlT & HT).
  destruct (pair_loop t Ht) as (a & Ea & Hla & Ha). unfold post_load_pq_table. rewrite ET; cbn [mbind outcome_bind].
  rewrite Ea; cbn [mbind outcome_bind]. eexists. split; [done|]. split; [|done]. split; [exact Ht|]. by split; split.
Qed.
End Correct.

Section Queries.
Context {F : Type} `{!FloatArith F}.
Implicit Types t : FixedChunkPQTable F.

Lemma rd_centred {A} t (q : list F) d (k : F -> outcome A) :
  table_ok t -> length q = ndims t -> (d < ndims t)%nat ->
  (q' ← rd q (Z.to_nat (rearrangement t !!! d)); m ← rd (centroid t) (Z.to_nat (rearrangement t !!! d)); k (float_sub q' m)) =
  k (centred t q d).
Proof.
  intros Ht Hq Hd. pose proof (rearranged_in t d Ht Hd) as Hp. destruct Ht as (_ & Hc & _).
  by rewrite !rd_ok by lia.
Qed.

Definition chunk_items t (q : list F) : list (nat * F) :=
  range 0 (n_chunks t) ≫= fun c => dims t c ≫= fun j =>
    (fun i => (256 * c + i, square (float_sub (tab t i j) (centred t q j)))%nat) <$> range 0 256.

Lemma vals_chunk_items t q c i : (c < n_chunks t)%nat -> (i < 256)%nat ->
  vals (256 * c + i) (chunk_items t q) = (fun d => square (float_sub (tab t i d) (centred t q d))) <$> dims t c.
Proof.
  intros Hc Hi. unfold chunk_items.
  rewrite vals_bind, (bind_single _ _ c); [|apply NoDup_range | by apply elem_range; lia |].
  2:{ intros c' Hc' Hne. apply vals_none. intros it (j & (i' & -> & Hi'%elem_range)%list_elem_of_fmap & _)%list_elem_of_bind E.
      cbn [fst] in E. lia. }
  rewrite vals_bind, <- (bind_singletons (fun d => square (float_sub (tab t i d) (centred t q d)))).
  apply bind_ext_elem. intros d Hd.
  rewrite (vals_single _ _ _ _ i); [done | apply NoDup_range | by apply elem_range; lia | done |].
  intros i' _ E. lia.
Qed.

(** Entry [256 * c + i] of the table of a query is its distance to centre [i] in chunk [c]. *)
Lemma populate_ok t (q : list F) : loaded t -> length q = ndims t ->
  exists v, populate_chunk_distances t q = Ok v /\ length v = (256 * n_chunks t)%nat /\
    forall c i, (c < n_chunks t)%nat -> (i < 256)%nat -> v !!! (256 * c + i)%nat = chunk_dist t q c i.
Proof.
  intros (Ht & [HlT HT] & _) Hq. destruct (upds_zero float_add (chunk_items t q) (256 * n_chunks t)) as (v & E & Hl & Hk).
  { apply Forall_forall. intros it (c & (j & (i & -> & Hi%elem_range)%list_elem_of_fmap & _)%list_elem_of_bind
      & Hc%elem_range)%list_elem_of_bind. cbn [fst]. lia. }
  exists v. split; [|split; [done|]].
  - rewrite <- E. unfold populate_chunk_distances, chunk_items, upds. rewrite foldM_bind. apply foldM_ext.
    intros c s Hc%elem_range. rewrite chunk_dims_ok by (done || lia). cbn [mbind outcome_bind].
    rewrite foldM_bind. apply foldM_ext. intros j s1 Hj.
    assert (Hjn : (j < ndims t)%nat) by (apply (dims_in t c); [done | lia | done]).
    rewrite rd_ok by (destruct Ht as (_ & _ & _ & _ & -> & _); lia). cbn [mbind outcome_bind].
    rewrite foldM_fmap. apply foldM_ext. intros i s2 Hi%elem_range. rewrite (Nat.mul_comm 256 j), (rd_ok (tables_T t)) by (rewrite HlT; pose proof (flat_lt (ndims t) 256 j i); lia).
    cbn [mbind outcome_bind]. rewrite (rd_centred t q j (fun y => upd _ _ _ (square (float_sub _ y)))) by done.
    cbn [fst snd]. by rewrite HT by lia.
  - intros c i Hc Hi. rewrite Hk by lia. by rewrite vals_chunk_items.
Qed.

(** One entry per point, accumulated chunk by chunk. *)
Lemma accumulate_ok (n m : nat) (x : nat -> nat -> F) :
  exists v, foldM (fun c v => foldM (fun i v => upd float_add v i (x c i)) (range 0 m) v) (range 0 n)
    (replicate m float_zero) = Ok v /\ v = (fun i => float_sum ((fun c => x c i) <$> range 0 n)) <$> range 0 m.
Proof.
  rewrite (upds_nest float_add (fun _ i => i) x). set (items := _ ≫= _).
  destruct (upds_zero float_add items m) as (v & -> & Hl & Hk).
  { apply Forall_forall. intros it (c & (i & -> & Hi%elem_range)%list_elem_of_fmap & _)%list_elem_of_bind. simpl. lia. }
  exists v. split; [done|]. apply list_eq_same_length with (n := m); [by rewrite length_fmap; unfold range; rewrite length_seq; lia | done |].
  intros i y z Hi Hy Hz. rewrite list_lookup_fmap in Hz. unfold range in Hz. rewrite lookup_seq_lt in Hz by lia.
  cbn in Hz. injection Hz as <-. apply list_lookup_total_correct in Hy as <-. rewrite Hk by done. unfold items, float_sum. f_equal.
  rewrite vals_bind, <- bind_singletons. apply bind_ext_elem. intros c _.
  apply (vals_single _ _ _ _ i); [apply NoDup_range | by apply elem_range; lia | done |]. intros j _ Hj. done.
Qed.

(** Codes of [m] points, [n] bytes each. *)
Definition codes_ok (m n : nat) (codes : list Z) : Prop :=
  forall i c, (i < m)%nat -> (c < n)%nat -> exists b, codes !! (i * n + c)%nat = Some b /\ 0 <= b < 256.
Definition code_of (n : nat) (codes : list Z) (i c : nat) : nat := Z.to_nat (codes !!! (i * n + c)%nat).

Lemma code_byte m n codes i c : codes_ok m n codes -> (i < m)%nat -> (c < n)%nat ->
  rd codes (i * n + c) = Ok (codes !!! (i * n + c)%nat) /\ (code_of n codes i c < 256)%nat.
Proof.
  intros H Hi Hc. destruct (H i c Hi Hc) as (b & E & Hb). unfold code_of, rd.
  rewrite E, (list_lookup_total_correct _ _ _ E). split; [done | lia].
Qed.

Lemma pq_dist_lookup_ok t (q : list F) codes m v :
  length v = (256 * n_chunks t)%nat ->
  (forall c i, (c < n_chunks t)%nat -> (i < 256)%nat -> v !!! (256 * c + i)%nat = chunk_dist t q c i) ->
  codes_ok m (n_chunks t) codes ->
  pq_dist_lookup codes m (n_chunks t) v = Ok ((fun i => asym_dist t q (code_of (n_chunks t) codes i)) <$> range 0 m).
Proof.
  intros Hl Hv Hc. destruct (accumulate_ok (n_chunks t) m (fun c i => chunk_dist t q c (code_of (n_chunks t) codes i c))) as (d & E & ->).
  unfold asym_dist. rewrite <- E. apply foldM_ext. intros c s Hc'%elem_range. apply foldM_ext. intros i s' Hi%elem_range.
  rewrite (Nat.mul_comm _ i). destruct (code_byte _ _ _ i c Hc) as [-> Hb]; [lia..|]. cbn [mbind outcome_bind].
  fold (code_of (n_chunks t) codes i c). rewrite rd_ok by lia. cbn [mbind outcome_bind]. by rewrite Hv by lia.
Qed.

Lemma wr_block_ok (l : list Z) off b : (off + length b <= length l)%nat ->
  exists l', wr_block l off b = Ok l' /\ length l' = length l /\
    (forall k, (k < off)%nat -> l' !! k = l !! k) /\ forall k, (k < length b)%nat -> l' !! (off + k)%nat = b !! k.
Proof.
  intros H. unfold wr_block. rewrite bool_decide_eq_true_2 by done. eexists. split; [done|].
  split; [rewrite !length_app, length_take, length_drop; lia|]. split; intros k Hk.
  - rewrite lookup_app_l by (rewrite length_take; lia). by apply lookup_take_lt.
  - rewrite lookup_app_r, length_take by (rewrite length_take; lia). rewrite lookup_app_l by lia. f_equal. lia.
Qed.

(** [aggregate_coords] gathers the codes of the given points. *)
Lemma aggregate_ok ids n_ids all nd out npts :
  codes_ok npts nd all -> (0 < nd)%nat -> (n_ids <= length ids)%nat -> Forall (fun id => (Z.to_nat id < npts)%nat) ids ->
  (n_ids * nd <= length out)%nat ->
  exists out', aggregate_coords ids n_ids all nd out = Ok out' /\ length out' = length out /\
    forall i c, (i < n_ids)%nat -> (c < nd)%nat -> out' !! (i * nd + c)%nat = all !! (Z.to_nat (ids !!! i) * nd + c)%nat.
Proof.
  intros Hall Hnd Hn Hids Hout. unfold aggregate_coords. induction n_ids as [|n IH].
  - exists out. split; [done|]. split; [done|]. lia.
  - destruct IH as (o & Eo & Hlo & Ho); [lia..|]. rewrite range_S, foldM_app, Eo. cbn [mbind outcome_bind foldM].
    rewrite rd_ok by lia. cbn [mbind outcome_bind]. set (id := Z.to_nat (ids !!! n)).
    assert (Hid : (id < npts)%nat) by (rewrite Forall_forall in Hids; apply Hids, list_elem_of_lookup_total_2; lia).
    assert (Hblk : (id * nd + nd <= length all)%nat).
    { destruct (Hall id (nd - 1)%nat) as (b & E & _); [lia..|]. apply lookup_lt_Some in E. lia. }
    unfold rd_block. rewrite bool_decide_eq_true_2 by done. cbn [mbind outcome_bind]. set (b := take nd _).
    assert (Hlb : length b = nd) by (unfold b; rewrite length_take, length_drop; lia).
    destruct (wr_block_ok o (n * nd) b) as (o' & -> & Hl' & Hlt & Hin); [rewrite Hlb; lia|].
    exists o'. split; [done|]. split; [lia|]. intros i c Hi Hc. destruct (decide (i = n)) as [->|].
    + rewrite Hin by lia. unfold b. by rewrite lookup_take_lt, lookup_drop by lia.
    + rewrite Hlt by (apply flat_lt; lia). apply Ho; lia.
Qed.

Lemma alltoall_ok t src dsts count : loaded t -> codes_ok 1 (n_chunks t) src -> codes_ok count (n_chunks t) dsts ->
  compute_distances_alltoall t src dsts count =
  Ok ((fun i => sym_dist t (code_of (n_chunks t) src 0) (code_of (n_chunks t) dsts i)) <$> range 0 count).
Proof.
  intros (Ht & _ & Hla & Ha) Hs Hd. set (n := n_chunks t).
  destruct (accumulate_ok n count (fun c i => sym_chunk t (code_of n src 0 c) (code_of n dsts i c) c)) as (v & E & ->).
  unfold sym_dist. fold n. rewrite <- E. unfold compute_distances_alltoall. fold n.
  apply foldM_ext. intros c s Hc%elem_range. destruct (code_byte _ _ _ 0 c Hs) as [Es Hsb]; [fold n; lia..|].
  rewrite Nat.mul_0_l in Es. fold n in Es, Hsb. cbn [Nat.add] in Es. rewrite Es. cbn [mbind outcome_bind].
  apply foldM_ext. intros i s' Hi%elem_range. destruct (code_byte _ _ _ i c Hd) as [Ed Hdb]; [fold n; lia..|].
  fold n in Ed, Hdb. rewrite Ed. cbn [mbind outcome_bind].
  change (Z.to_nat (src !!! c)) with (code_of n src 0 c). change (Z.to_nat (dsts !!! (i * n + c)%nat)) with (code_of n dsts i c).
  rewrite rd_ok.
  - cbn [mbind outcome_bind]. by rewrite Ha by (fold n; lia).
  - rewrite Hla. fold n. rewrite <- Nat.mul_add_distr_r. apply flat_lt; lia.
Qed.
End Queries.

Section Encode.
Context {F : Type} `{!FloatArith F}.
Implicit Types t : FixedChunkPQTable F.

Lemma deflate_step_ok t fp c i s : table_ok t -> length fp = ndims t -> (c < n_chunks t)%nat -> (i < 256)%nat ->
  (c < length s.2)%nat ->
  deflate_step t fp c i s =
  Ok (if float_lt (chunk_dist t fp c i) s.1 then (chunk_dist t fp c i, <[c := Z.of_nat i]> s.2) else s).
Proof.
  intros Ht Hq Hc Hi Hs. unfold deflate_step. rewrite chunk_dims_ok by done. cbn [mbind outcome_bind].
  rewrite (foldM_pure _ (fun acc d => float_add acc (square (float_sub (tab t i d) (centred t fp d))))).
  - cbn [mbind outcome_bind]. rewrite <- foldl_fmap. fold (float_sum ((fun d => square (float_sub (tab t i d) (centred t fp d))) <$> dims t c)).
    fold (chunk_dist t fp c i). destruct s as [m out]; cbn [fst snd] in *.
    destruct (float_lt _ m); [|done]. destruct (lookup_lt_is_Some_2 out c Hs) as [y Hy]. unfold wr. by rewrite (upd_ok _ _ _ _ y Hy).
  - intros d acc Hd. assert (Hdn : (d < ndims t)%nat) by by apply (dims_in t c).
    rewrite rd_tab by done. cbn [mbind outcome_bind]. rewrite rd_ok by (destruct Ht as (_ & _ & _ & _ & -> & _); lia).
    cbn [mbind outcome_bind]. by rewrite (rd_centred t fp d (fun y => Ok (float_add acc (square (float_sub _ y))))).
Qed.

(** What the scan writes in [out[c]]. *)
Definition put (c : nat) (r : option nat) (out : list Z) : list Z :=
  match r with Some i => <[c := Z.of_nat i]> out | None => out end.

Lemma deflate_scan t fp c out ks : table_ok t -> length fp = ndims t -> (c < n_chunks t)%nat ->
  Forall (fun i => (i < 256)%nat) ks -> (c < length out)%nat ->
  foldM (deflate_step t fp c) ks (float_max, out) =
  Ok (let r := argmin_from (chunk_dist t fp c) ks (float_max, None) in (r.1, put c r.2 out)).
Proof.
  intros Ht Hq Hc Hks Hout. induction ks as [|i ks IH] using rev_ind; [done|].
  apply Forall_app in Hks as [Hks Hi]. apply Forall_cons in Hi as [Hi _]. rewrite foldM_app, IH by done.
  cbn [mbind outcome_bind foldM]. unfold argmin_from. rewrite foldl_app. fold (argmin_from (chunk_dist t fp c) ks (float_max, None)).
  set (r := argmin_from _ _ _). cbn zeta. rewrite deflate_step_ok; [|done|done|done|done|].
  - cbn [mbind outcome_bind fst snd foldl]. unfold argmin_step. destruct (float_lt _ r.1); [|done]. cbn [fst snd put].
    do 2 f_equal. destruct r.2; simpl; [by rewrite list_insert_insert_eq | done].
  - cbn [snd]. destruct r.2; simpl; [by rewrite length_insert | done].
Qed.

Lemma deflate_ok t fp out : table_ok t -> length fp = ndims t -> (n_chunks t <= length out)%nat ->
  exists out', deflate_vec t fp out = Ok out' /\ length out' = length out /\
    forall c, (c < n_chunks t)%nat ->
      out' !! c = put c (argmin_from (chunk_dist t fp c) (range 0 256) (float_max, None)).2 out !! c.
Proof.
  intros Ht Hq Hout. unfold deflate_vec.
  enough (forall n, (n <= n_chunks t)%nat -> exists out',
    foldM (fun c out => s ← foldM (deflate_step t fp c) (range 0 256) (float_max, out); Ok s.2) (range 0 n) out = Ok out' /\
    length out' = length out /\ forall c, out' !! c = if decide (c < n)%nat
      then put c (argmin_from (chunk_dist t fp c) (range 0 256) (float_max, None)).2 out !! c else out !! c) as H.
  { destruct (H (n_chunks t)) as (o & E & Hl & Ho); [done|]. exists o. split; [exact E|]. split; [done|].
    intros c Hc. by rewrite Ho, decide_True. }
  induction n as [|n IH]; intros Hn; [by exists out|]. destruct IH as (o & Eo & Hlo & Ho); [lia|].
  rewrite (range_S n), foldM_app, Eo. cbn [mbind outcome_bind foldM]. rewrite deflate_scan; [|done|done|lia| |lia].
  2:{ apply Forall_forall. intros i Hi%elem_range. lia. }
  cbn [mbind outcome_bind snd]. set (r := argmin_from _ _ _). eexists. split; [done|].
  split; [destruct r.2; simpl; [by rewrite length_insert | done]|]. intros c. destruct (decide (c = n)) as [->|Hne].
  - rewrite decide_True by lia. fold r. specialize (Ho n). rewrite decide_False in Ho by lia.
    destruct r.2; simpl; [by rewrite !list_lookup_insert_eq by lia | done].
  - assert (put n r.2 o !! c = o !! c) as ->
      by (destruct r.2; simpl; [by rewrite list_lookup_insert_ne by done | done]).
    rewrite Ho. destruct (decide (c < n)%nat); [by rewrite decide_True by lia | by rewrite decide_False by lia].
Qed.

Lemma range_split n l1 i l2 : range 0 n = l1 ++ i :: l2 -> (i < n)%nat /\ forall j, (j < i)%nat -> j ∈ l1.
Proof.
  intros E. assert (H : forall k, (k < n)%nat -> (l1 ++ i :: l2) !! k = Some k).
  { intros k Hk. rewrite <- E. unfold range. rewrite lookup_seq_lt by lia. done. }
  assert (Hl : (length l1 < n)%nat).
  { apply (f_equal length) in E. unfold range in E. rewrite length_app, length_seq in E. simpl in E. lia. }
  pose proof (H _ Hl) as Hi. rewrite list_lookup_middle in Hi by done. injection Hi as ->.
  split; [done|]. intros j Hj. pose proof (H j ltac:(lia)) as Hlk. rewrite lookup_app_l in Hlk by lia.
  by eapply list_elem_of_lookup_2.
Qed.
End Encode.

(** ** Properties *)
Section Properties.
Context {F : Type} `{!FloatArith F}.
Implicit Types t : FixedChunkPQTable F.

(** C19. From a loaded table, the batch computation a search does is the
    reference asymmetric distance: the table of the query, the gathered codes
    and the lookup give, for each identifier, the distance of the query to its
    code, chunk by chunk; and no access is outside an array. *)
Theorem pq_query_distances t buf q ids all npts out :
  table_ok t -> length buf = (256 * ndims t)%nat -> length q = ndims t -> (0 < n_chunks t)%nat ->
  codes_ok npts (n_chunks t) all -> Forall (fun id => (Z.to_nat id < npts)%nat) ids ->
  (length ids * n_chunks t <= length out)%nat ->
  exists t' v codes,
    post_load_pq_table buf t = Ok t' /\
    populate_chunk_distances t' q = Ok v /\
    aggregate_coords ids (length ids) all (n_chunks t') out = Ok codes /\
    pq_dist_lookup codes (length ids) (n_chunks t') v =
      Ok ((fun id => asym_dist t q (code_of (n_chunks t) all (Z.to_nat id))) <$> ids).
Proof.
  intros Ht Hb Hq Hn Hall Hids Hout. destruct (post_load_loaded t buf Ht Hb) as (t' & E & Hld & Et).
  exists t'. assert (Hnd : ndims t' = ndims t) by by rewrite Et. assert (Hnc : n_chunks t' = n_chunks t) by by rewrite Et.
  destruct (populate_ok t' q Hld) as (v & Ev & Hlv & Hv); [lia|].
  destruct (aggregate_ok ids (length ids) all (n_chunks t') out npts) as (codes & Ec & _ & Hc); [by rewrite Hnc | lia | done | done | by rewrite Hnc |].
  exists v, codes. split; [done|]. split; [done|]. split; [done|].
  rewrite (pq_dist_lookup_ok t' q codes (length ids) v Hlv Hv).
  - f_equal. apply list_eq. intros i. rewrite !list_lookup_fmap. unfold range. rewrite Nat.sub_0_r.
    destruct (decide (i < length ids)%nat) as [Hi|Hi].
    2:{ by rewrite lookup_seq_ge, lookup_ge_None_2 by lia. }
    rewrite lookup_seq_lt, (list_lookup_lookup_total_lt ids i Hi) by done. cbn [fmap option_fmap option_map Nat.add]. f_equal.
    unfold asym_dist. rewrite Hnc. f_equal. apply list_fmap_ext. intros k c Hk.
    apply list_elem_of_lookup_2, elem_range in Hk. unfold code_of.
    rewrite !list_lookup_total_alt, <- Hnc, Hc by lia. rewrite Hnc. rewrite Et at 1. by rewrite list_lookup_total_alt.
  - intros i c Hi Hcc. rewrite Hc by done. rewrite Hnc in Hcc |- *. apply Hall; [|done].
    rewrite Forall_forall in Hids. apply Hids, list_elem_of_lookup_total_2. done.
Qed.

(** The distances between codes that the merge uses are the reference
    symmetric distances, computed through the table of all pairs of centres. *)
Theorem pq_alltoall_distances t buf src dsts count :
  table_ok t -> length buf = (256 * ndims t)%nat ->
  codes_ok 1 (n_chunks t) src -> codes_ok count (n_chunks t) dsts ->
  exists t', post_load_pq_table buf t = Ok t' /\
    compute_distances_alltoall t' src dsts count =
      Ok ((fun i => sym_dist t (code_of (n_chunks t) src 0) (code_of (n_chunks t) dsts i)) <$> range 0 count).
Proof.
  intros Ht Hb Hs Hd. destruct (post_load_loaded t buf Ht Hb) as (t' & E & Hld & Et). exists t'. split; [done|].
  assert (Hnc : n_chunks t' = n_chunks t) by by rewrite Et.
  rewrite alltoall_ok by (done || by rewrite Hnc). unfold sym_dist. rewrite Hnc. by rewrite Et.
Qed.

(** C33. The encoder writes, for every chunk, the first centre that no centre is
    nearer than, in the very distances a search computes for that vector; a
    chunk none of whose centres is nearer than [FLT_MAX] keeps the byte that
    was in the output buffer. *)
Theorem pq_encode_nearest t buf fp out :
  table_ok t -> length buf = (256 * ndims t)%nat -> length fp = ndims t -> (n_chunks t <= length out)%nat ->
  exists t' v out',
    post_load_pq_table buf t = Ok t' /\ populate_chunk_distances t' fp = Ok v /\ deflate_vec t' fp out = Ok out' /\
    forall c, (c < n_chunks t)%nat ->
      let d i := v !!! (256 * c + i)%nat in
      (exists i, (i < 256)%nat /\ out' !! c = Some (Z.of_nat i) /\ float_lt (d i) float_max = true /\
         (forall j, (j < 256)%nat -> float_lt (d j) (d i) = false) /\ forall j, (j < i)%nat -> d j <> d i) \/
      (out' !! c = out !! c /\ forall j, (j < 256)%nat -> float_lt (d j) float_max = false).
Proof.
  intros Ht Hb Hq Hout. destruct (post_load_loaded t buf Ht Hb) as (t' & E & Hld & Et).
  assert (Hnd : ndims t' = ndims t) by by rewrite Et. assert (Hnc : n_chunks t' = n_chunks t) by by rewrite Et.
  destruct (populate_ok t' fp Hld) as (v & Ev & Hlv & Hv); [lia|].
  destruct (deflate_ok t' fp out) as (out' & Eo & Hlo & Ho); [apply Hld | lia | lia |].
  exists t', v, out'. split; [done|]. split; [done|]. split; [done|]. intros c Hc d. rewrite Hnc in Hv, Ho.
  assert (Hd : forall i, (i < 256)%nat -> d i = chunk_dist t' fp c i) by (intros i Hi; unfold d; by apply Hv).
  rewrite Ho by done. destruct (argmin_from_spec (chunk_dist t' fp c) float_max (range 0 256)) as [Hmin Hr].
  destruct (argmin_from _ _ _) as [m [i|]]; cbn [fst snd put] in *.
  - left. destruct Hr as (-> & Hlt & l1 & l2 & Hsplit & Hl1). apply range_split in Hsplit as [Hi Hbefore].
    exists i. split; [done|]. split; [apply list_lookup_insert_eq; lia|]. rewrite !Hd by done. split; [done|].
    split; [intros j Hj; rewrite Hd by done; apply Hmin, elem_range; lia|].
    intros j Hj. rewrite Hd by lia. by apply Hl1, Hbefore.
  - right. split; [done|]. subst m. intros j Hj. rewrite Hd by done. apply Hmin, elem_range. lia.
Qed.
End Properties.

(** ** A table of two chunks of one dimension each *)
Definition ex_table : FixedChunkPQTable Word := {|
  tables := (fun k : nat => float_of_nat k) <$> seq 0 512;
  centroid := [float_of_nat 1; float_of_nat 2];
  ndims := 2; n_chunks := 2; chunk_offsets := [0; 1; 2]; rearrangement := [1; 0];
  tables_T := []; all_to_all_dists := []
|}.

Lemma ex_table_ok : table_ok ex_table.
Proof. split_and!; try done; by apply (bool_decide_unpack _); vm_compute. Qed.

Lemma ex_codes_ok : codes_ok 2 2 [3; 7; 0; 255].
Proof.
  intros i c Hi Hc. assert (i * 2 + c < 4)%nat as H by lia. revert H. generalize (i * 2 + c)%nat. intros k Hk.
  destruct k as [|[|[|[|k]]]]; [eexists; split; [done | lia].. | lia].
Qed.

Lemma pq_query_distances_witness :
  exists t' v codes,
    post_load_pq_table (replicate 512 (to_word 7)) ex_table = Ok t' /\
    populate_chunk_distances t' [float_of_nat 4; float_of_nat 9] = Ok v /\
    aggregate_coords [1; 0; 1] 3 [3; 7; 0; 255] (n_chunks t') (replicate 9 0) = Ok codes /\
    pq_dist_lookup codes 3 (n_chunks t') v =
      Ok ((fun id => asym_dist ex_table [float_of_nat 4; float_of_nat 9] (code_of 2 [3; 7; 0; 255] (Z.to_nat id))) <$> [1; 0; 1]).
Proof.
  apply (pq_query_distances ex_table (replicate 512 (to_word 7)) [float_of_nat 4; float_of_nat 9] [1; 0; 1] [3; 7; 0; 255] 2 (replicate 9 0));
    [apply ex_table_ok | done | done | simpl; lia | apply ex_codes_ok | by apply (bool_decide_unpack _); vm_compute | simpl; lia].
Defined.

Lemma pq_alltoall_distances_witness :
  exists t', post_load_pq_table (replicate 512 (to_word 7)) ex_table = Ok t' /\
    compute_distances_alltoall t' [3; 7; 0; 255] [3; 7; 0; 255] 2 =
      Ok ((fun i => sym_dist ex_table (code_of 2 [3; 7; 0; 255] 0) (code_of 2 [3; 7; 0; 255] i)) <$> range 0 2).
Proof.
  apply (pq_alltoall_distances ex_table (replicate 512 (to_word 7)) [3; 7; 0; 255] [3; 7; 0; 255] 2);
    [apply ex_table_ok | done | | apply ex_codes_ok].
  intros i c Hi Hc. apply (ex_codes_ok i c); [lia | done].
Defined.

Lemma pq_encode_nearest_witness :
  exists t' v out',
    post_load_pq_table (replicate 512 (to_word 7)) ex_table = Ok t' /\
    populate_chunk_distances t' [float_of_nat 4; float_of_nat 9] = Ok v /\
    deflate_vec t' [float_of_nat 4; float_of_nat 9] [9; 9] = Ok out' /\
    forall c, (c < 2)%nat ->
      let d i := v !!! (256 * c + i)%nat in
      (exists i, (i < 256)%nat /\ out' !! c = Some (Z.of_nat i) /\ float_lt (d i) float_max = true /\
         (forall j, (j < 256)%nat -> float_lt (d j) (d i) = false) /\ forall j, (j < i)%nat -> d j <> d i) \/
      (out' !! c = [9; 9] !! c /\ forall j, (j < 256)%nat -> float_lt (d j) float_max = false).
Proof.
  apply (pq_encode_nearest ex_table (replicate 512 (to_word 7)) [float_of_nat 4; float_of_nat 9] [9; 9]);
    [apply ex_table_ok | done | done | simpl; lia].
Defined.

(** Dimension 0 of the table stands for coordinate 1, [9 - 2 = 7]; dimension 1
    for coordinate 0, [4 - 1 = 3].  Row [i] of the table is [2 i, 2 i + 1]. *)
Example encode_ex :
  deflate_vec ex_table [float_of_nat 4; float_of_nat 9] [0; 0] = Ok [3; 1] /\
  chunk_dist ex_table [float_of_nat 4; float_of_nat 9] 0 3 = float_of_nat 1.
Proof. split; by vm_compute. Qed.
