(* ===== verification/KMeans.v ===== *)
(** * k-means

    [src/src/utils/math_utils.cpp]: the closest centres of a set of points,
    Lloyd's iterations and the choice of the first centres.  A matrix is a flat
    array of rows.  The products and norms are those of BLAS, an argument
    ([sgemm], [snrm2]); what is modelled is what the program does with the
    matrix of distances they leave.

    The order in which the threads append the points of a block to the lists of
    the centres is an argument ([schedule]); random draws are arguments too. *)
From Stdlib Require Import SpecFloat.
From S2P Require Import Prelude FloatArith Arrays.

Section KMeans.
Context {F E : Type} `{!FloatArith F, !FloatArith E, !Widening F E}.

(** [cblas_sgemm] with row-major operands, the second one transposed, and
    [cblas_snrm2]: sizes, [alpha], the operands, [beta] and the result so far. *)
Context (sgemm : nat -> nat -> nat -> F -> list F -> list F -> F -> list F -> list F).
Context (snrm2 : list F -> F).

(** The row of [dim] elements at [data + i * dim]. *)
Definition row {A} (data : list A) (dim i : nat) : outcome (list A) :=
  if bool_decide (i * dim + dim <= length data)%nat then Ok (take dim (drop (i * dim) data)) else Crash.

Definition sq_diff (x y : F) : F := let d := float_sub x y in float_mul d d.

Definition calc_distance (vec_1 vec_2 : list F) (dim : nat) : outcome F :=
  foldM (fun j dist => x ← rd vec_1 j; y ← rd vec_2 j; Ok (float_add dist (sq_diff x y))) (range 0 dim) float_zero.

Definition compute_vecs_l2sq (data : list F) (num_points dim : nat) : outcome (list F) :=
  foldM (fun n l => r ← row data dim n; let x := snrm2 r in Ok (l ++ [float_mul x x])) (range 0 num_points) [].

(** ** The closest centres *)

(** The matrix of distances: norms of the points, norms of the centres, products. *)
Definition distance_matrix (data : list F) (num_points dim : nat) (centers : list F) (num_centers : nat)
    (docs_l2sq centers_l2sq : list F) (dist_matrix : list F) : list F :=
  let one := float_of_nat 1 in
  let m := sgemm num_points num_centers 1 one docs_l2sq (replicate num_centers one) float_zero dist_matrix in
  let m := sgemm num_points num_centers 1 one (replicate num_points one) centers_l2sq one m in
  sgemm num_points num_centers dim (float_sub float_zero (float_of_nat 2)) data centers one m.

(** [if (current[j] < min) { center_index[i] = j; min = current[j]; }] *)
Definition min_step (m : list F) (num_centers i j : nat) (s : F * list Z) : outcome (F * list Z) :=
  x ← rd m (i * num_centers + j);
  if float_lt x s.1 then out ← wr s.2 i (u32 (Z.of_nat j)); Ok (x, out) else Ok s.

(** [top] and [pop] of the queue of centres: the first one that no other is
    closer than. *)
Fixpoint extract_min (best : nat * F) (l : list (nat * F)) : (nat * F) * list (nat * F) :=
  match l with
  | [] => (best, [])
  | x :: l => if float_lt x.2 best.2 then let '(b, r) := extract_min x l in (b, best :: r)
              else let '(b, r) := extract_min best l in (b, x :: r)
  end.

Definition top_step (k i : nat) (j : nat) (s : list (nat * F) * list Z) : outcome (list (nat * F) * list Z) :=
  match s.1 with
  | [] => Crash
  | x :: l => let '(b, r) := extract_min x l in out ← wr s.2 (i * k + j) (u32 (Z.of_nat b.1)); Ok (r, out)
  end.

Definition compute_closest_centers_in_block (data : list F) (num_points dim : nat) (centers : list F) (num_centers : nat)
    (docs_l2sq centers_l2sq : list F) (center_index : list Z) (dist_matrix : list F) (k : nat) : outcome (list Z * list F) :=
  if bool_decide (num_centers < k)%nat then Ok (center_index, dist_matrix)
  else
    let m := distance_matrix data num_points dim centers num_centers docs_l2sq centers_l2sq dist_matrix in
    out ← (if bool_decide (k = 1)%nat then
        foldM (fun i out => s ← foldM (min_step m num_centers i) (range 0 num_centers) (float_max, out); Ok s.2)
          (range 0 num_points) center_index
      else
        foldM (fun i out =>
          queue ← foldM (fun j q => x ← rd m (i * num_centers + j); Ok (q ++ [(j, x)])) (range 0 num_centers) [];
          s ← foldM (top_step k i) (range 0 k) (queue, out); Ok s.2)
          (range 0 num_points) center_index);
    Ok (out, m).

(** [schedule b l]: the order of the points [l] of block [b] in the critical
    section. *)
Context (schedule : nat -> list nat -> list nat).

(** The largest block of points, [1 << 23]. *)
Definition PAR_BLOCK_SIZE (num_points : nat) : nat := Z.to_nat (Z.min (2 ^ 23) (Z.of_nat num_points)).

(** The copy of the indices of a block, and the lists of the centres. *)
Definition copy_center (blk par k : nat) (closest : list Z) (j : nat) (s : list Z * option (list (list nat))) :
    outcome (list Z * option (list (list nat))) :=
  foldM (fun l s =>
    c ← rd closest ((j - blk * par) * k + l);
    ivf ← wr s.1 (j * k + l) c;
    inverted ← match s.2 with
               | None => Ok None
               | Some ix => docs ← rd ix (Z.to_nat c); Ok (Some (<[Z.to_nat c := docs ++ [j]]> ix))
               end;
    Ok (ivf, inverted)) (range 0 k) s.

Record centers_state := {
  cl_block : list Z;                         (** the indices of a block *)
  cl_matrix : list F;
  cl_ivf : list Z;
  cl_inverted : option (list (list nat));
}.

Definition center_block (data : list F) (num_points dim : nat) (pivot_data : list F) (num_centers k : nat)
    (pts_norms pivs_norms : list F) (cur_blk : nat) (s : centers_state) : outcome centers_state :=
  let par := PAR_BLOCK_SIZE num_points in
  let num_pts_blk := Nat.min par (num_points - cur_blk * par) in
  '(idx, m) ← compute_closest_centers_in_block (drop (cur_blk * par * dim) data) num_pts_blk dim pivot_data num_centers
      (drop (cur_blk * par) pts_norms) pivs_norms (cl_block s) (cl_matrix s) k;
  '(ivf, inv) ← foldM (copy_center cur_blk par k idx)
      (schedule cur_blk (range (cur_blk * par) (Nat.min num_points ((cur_blk + 1) * par)))) (cl_ivf s, cl_inverted s);
  Ok {| cl_block := idx; cl_matrix := m; cl_ivf := ivf; cl_inverted := inv |}.

(** [garbage]: the contents of the new arrays. *)
Definition compute_closest_centers (garbage : nat -> list Z) (garbage_f : nat -> list F) (data : list F) (num_points dim : nat)
    (pivot_data : list F) (num_centers k : nat) (closest_centers_ivf : list Z) (inverted_index : option (list (list nat)))
    (pts_norms_squared : option (list F)) : outcome (list Z * option (list (list nat))) :=
  if bool_decide (num_centers < k)%nat then Ok (closest_centers_ivf, inverted_index)
  else if bool_decide (PAR_BLOCK_SIZE num_points = 0)%nat then Crash
  else
    let par := PAR_BLOCK_SIZE num_points in
    let n_blocks := (if bool_decide (num_points mod par = 0) then num_points / par else num_points / par + 1)%nat in
    pts ← match pts_norms_squared with Some p => Ok p | None => compute_vecs_l2sq data num_points dim end;
    pivs ← compute_vecs_l2sq pivot_data num_centers dim;
    s ← foldM (center_block data num_points dim pivot_data num_centers k pts pivs) (range 0 n_blocks)
      {| cl_block := garbage (par * k)%nat; cl_matrix := garbage_f (num_centers * par)%nat;
         cl_ivf := closest_centers_ivf; cl_inverted := inverted_index |};
    Ok (cl_ivf s, cl_inverted s).

(** ** Lloyd's iterations *)

(** [cluster_sum[j] += (double) current[j]] for the point [i]. *)
Definition add_point (data : list F) (dim i : nat) (s : list E) : outcome (list E) :=
  r ← row data dim i;
  foldM (fun j (s : list E) => x ← rd r j; upd (float_add (F:=E)) s j (widen (F:=F) (D:=E) x)) (range 0 dim) s.

(** The mean of the points of a cluster, summed in [double]. *)
Definition cluster_center (data : list F) (dim : nat) (docs : list nat) : outcome (list F) :=
  sum ← foldM (add_point data dim) docs (replicate dim (float_zero (F:=E)));
  Ok ((fun x : E => narrow (F:=F) (D:=E) (float_div x (float_of_nat (length docs)))) <$> (sum : list E)).

Definition new_center (data : list F) (dim : nat) (closest_docs : list (list nat)) (c : nat) (centers : list F) : outcome (list F) :=
  docs ← rd closest_docs c;
  if bool_decide (0 < length docs)%nat then
    m ← cluster_center data dim docs;
    foldM (fun i centers => x ← rd m i; wr centers (c * dim + i) x) (range 0 dim) centers
  else Ok centers.

Definition CHUNK_SIZE : Z := 2 * 8192.

Definition residual_of (data : list F) (num_points dim : nat) (centers : list F) (closest_center : list Z) : outcome F :=
  let chunk := Z.to_nat CHUNK_SIZE in
  let nchunks := (num_points / chunk + (if bool_decide (num_points mod chunk = 0) then 0 else 1))%nat in
  foldM (fun ch acc =>
    r ← foldM (fun d r =>
        x ← row data dim d;
        c ← rd closest_center d;
        y ← row centers dim (Z.to_nat c);
        dist ← calc_distance x y dim;
        Ok (float_add r dist)) (range (ch * chunk) (Nat.min num_points ((ch + 1) * chunk))) float_zero;
    Ok (float_add acc r)) (range 0 nchunks) float_zero.

Record lloyds_state := {
  ll_centers : list F;
  ll_docs : list (list nat);
  ll_center : list Z;
  ll_residual : F;
}.

Definition lloyds_iter (garbage : nat -> list Z) (garbage_f : nat -> list F) (data : list F) (num_points dim num_centers : nat)
    (docs_l2sq : list F) (s : lloyds_state) : outcome lloyds_state :=
  '(center, docs) ← compute_closest_centers garbage garbage_f data num_points dim (ll_centers s) num_centers 1 (ll_center s)
      (Some (replicate num_centers [])) (Some docs_l2sq);
  let docs := default [] docs in
  centers ← foldM (new_center data dim docs) (range 0 num_centers) (replicate (num_centers * dim) float_zero);
  residual ← residual_of data num_points dim centers center;
  Ok {| ll_centers := centers; ll_docs := docs; ll_center := center; ll_residual := residual |}.

(** [small x]: the quotient as a [double] is below 0.00001; [negligible x]: [x]
    is below the machine epsilon of [float]. *)
Context (small : E -> bool) (negligible : F -> bool).

(** [i] iterations were made; at most [n] are left. *)
Fixpoint run_lloyds_from (garbage : nat -> nat -> list Z) (garbage_f : nat -> nat -> list F) (n i : nat) (data : list F)
    (num_points dim num_centers : nat) (docs_l2sq : list F) (s : lloyds_state) : outcome lloyds_state :=
  match n with
  | O => Ok s
  | S n =>
      s' ← lloyds_iter (garbage i) (garbage_f i) data num_points dim num_centers docs_l2sq s;
      let r := ll_residual s' in
      if (negb (bool_decide (i = 0)%nat) && small (widen (F:=F) (D:=E) (float_div (float_sub (ll_residual s) r) r))) || negligible r then Ok s'
      else run_lloyds_from garbage garbage_f n (S i) data num_points dim num_centers docs_l2sq s'
  end.

Definition run_lloyds (garbage : nat -> nat -> list Z) (garbage_f : nat -> nat -> list F) (data : list F)
    (num_points dim : nat) (centers : list F) (num_centers max_reps : nat) (closest_center : list Z) : outcome lloyds_state :=
  docs_l2sq ← compute_vecs_l2sq data num_points dim;
  run_lloyds_from garbage garbage_f max_reps 0 data num_points dim num_centers docs_l2sq
    {| ll_centers := centers; ll_docs := replicate num_centers []; ll_center := closest_center; ll_residual := float_max |}.

(** ** The first centres *)
Definition copy_row (data : list F) (dim src : nat) (pivot_data : list F) (dst : nat) : outcome (list F) :=
  r ← row data dim src;
  foldM (fun i p => x ← rd r i; wr p (dst * dim + i) x) (range 0 dim) pivot_data.

(** [draw j]: the [j]-th random index below [num_points]. *)
Definition selecting_step (draw : nat -> nat) (data : list F) (dim j : nat) (s : list nat * list F) : outcome (list nat * list F) :=
  let tmp_pivot := draw j in
  if bool_decide (tmp_pivot ∈ s.1) then Ok s
  else p ← copy_row data dim tmp_pivot s.2 j; Ok (s.1 ++ [tmp_pivot], p).

Definition selecting_pivots (draw : nat -> nat) (data : list F) (num_points dim : nat) (pivot_data : list F) (num_centers : nat) :
    outcome (list F) :=
  s ← foldM (selecting_step draw data dim) (range 0 num_centers) ([], pivot_data); Ok s.2.

(** [x >= y] and [x == 0] in [double]. *)
Context (double_ge : E -> E -> bool) (is_zero : E -> bool).

Record pp_state := {
  pp_picked : list nat;
  pp_pivots : list F;
  pp_dist : list F;
  pp_tmp : nat;
  pp_sum_flag : bool;
}.

Definition dist_sum (num_points : nat) (dist : list F) : outcome E :=
  foldM (fun i (sum : E) => x ← rd dist i; Ok (float_add sum (widen (F:=F) (D:=E) x))) (range 0 num_points) float_zero.

(** One turn of the search: the point, the prefix sum, and whether it is found. *)
Definition dart_step (dist : list F) (dart_val : E) (i : nat) (s : nat * E * bool) : outcome (nat * E * bool) :=
  let '(_, prefix_sum, stop) := s in
  if stop then Ok s
  else
    x ← rd dist i;
    let next := float_add prefix_sum (widen (F:=F) (D:=E) x) in
    if double_ge dart_val prefix_sum && float_lt dart_val next then Ok (i, prefix_sum, true) else Ok (i, next, false).

(** The first point whose interval of the prefix sums holds [dart_val]; the last
    point when none does. *)
Definition dart_point (num_points : nat) (dist : list F) (dart_val : E) (tmp_pivot : nat) : outcome nat :=
  s ← foldM (dart_step dist dart_val) (range 0 num_points) (tmp_pivot, float_zero, false);
  Ok s.1.1.

Definition row_distance (data : list F) (dim i j : nat) : outcome F :=
  x ← row data dim i; y ← row data dim j; calc_distance x y dim.

(** The body of the loop, for one draw in [0, 1). *)
Definition kmeanspp_step (data : list F) (num_points dim : nat) (dart : E) (s : pp_state) : outcome pp_state :=
  sum ← dist_sum num_points (pp_dist s);
  let sum_flag := is_zero sum || pp_sum_flag s in
  tmp_pivot ← dart_point num_points (pp_dist s) (float_mul dart sum) (pp_tmp s);
  if bool_decide (tmp_pivot ∈ pp_picked s) && negb sum_flag
  then Ok {| pp_picked := pp_picked s; pp_pivots := pp_pivots s; pp_dist := pp_dist s; pp_tmp := tmp_pivot; pp_sum_flag := sum_flag |}
  else
    pivots ← copy_row data dim tmp_pivot (pp_pivots s) (length (pp_picked s));
    dist ← foldM (fun i dist =>
        d ← row_distance data dim i tmp_pivot; x ← rd dist i; wr dist i (if float_lt d x then d else x))
        (range 0 num_points) (pp_dist s);
    Ok {| pp_picked := pp_picked s ++ [tmp_pivot]; pp_pivots := pivots; pp_dist := dist; pp_tmp := tmp_pivot; pp_sum_flag := sum_flag |}.

(** [darts]: the draws; the result is [None] when they run out. *)
Fixpoint kmeanspp_loop (data : list F) (num_points dim num_centers : nat) (darts : list E) (s : pp_state) : outcome (option pp_state) :=
  if bool_decide (length (pp_picked s) < num_centers)%nat then
    match darts with
    | [] => Ok None
    | dart :: darts => s ← kmeanspp_step data num_points dim dart s; kmeanspp_loop data num_points dim num_centers darts s
    end
  else Ok (Some s).

Definition kmeanspp_selecting_pivots (draw : nat -> nat) (init_id : nat) (darts : list E) (data : list F) (num_points dim : nat)
    (pivot_data : list F) (num_centers : nat) : outcome (option (list F)) :=
  if bool_decide (2 ^ 23 < Z.of_nat num_points) then (p ← selecting_pivots draw data num_points dim pivot_data num_centers; Ok (Some (p : list F)))
  else
    pivots ← copy_row data dim init_id pivot_data 0;
    dist ← foldM (fun i l => d ← row_distance data dim i init_id; Ok (l ++ [d])) (range 0 num_points) [];
    r ← kmeanspp_loop data num_points dim num_centers darts
      {| pp_picked := [init_id]; pp_pivots := pivots; pp_dist := dist; pp_tmp := 0%nat; pp_sum_flag := false |};
    Ok (fmap (M:=option) pp_pivots r).
End KMeans.

(** ** Facts: one block *)

(** A loop whose [i]-th iteration changes only entry [i]. *)
Lemma own_loop {A} (f : nat -> list A -> outcome (list A)) (h : nat -> A -> A) n out : (n <= length out)%nat ->
  (forall i (o : list A) x, (i < n)%nat -> o !! i = Some x -> f i o = Ok (<[i := h i x]> o)) ->
  exists o, foldM f (range 0 n) out = Ok o /\ length o = length out /\
    forall i x, out !! i = Some x -> o !! i = Some (if decide (i < n)%nat then h i x else x).
Proof.
  intros Hn Hf. induction n as [|n IH]; [by exists out|]. destruct IH as (o & E & Hl & Ho); [lia | intros; apply Hf; [lia | done]|].
  destruct (lookup_lt_is_Some_2 out n) as [y Hy]; [lia|]. pose proof (Ho n y Hy) as Hoy. rewrite decide_False in Hoy by lia.
  rewrite range_S, foldM_app, E. cbn [mbind outcome_bind foldM]. rewrite (Hf n o y) by (done || lia). cbn [mbind outcome_bind].
  eexists. split; [done|]. split; [by rewrite length_insert|]. intros i x Hx. destruct (decide (i = n)) as [->|Hne].
  - rewrite list_lookup_insert_eq, decide_True by (apply lookup_lt_Some in Hoy; lia). congruence.
  - rewrite list_lookup_insert_ne by done. rewrite (Ho i x Hx). f_equal. do 2 case_decide; try done; lia.
Qed.

Section block.
Context {F : Type} `{!FloatArith F}.

(** The first centre at the least distance below [FLT_MAX]. *)
Definition nearest (m : list F) (nc i : nat) : option nat :=
  (argmin_from (fun j => m !!! (i * nc + j)%nat) (range 0 nc) (float_max, None)).2.

Definition set_center (r : option nat) (x : Z) : Z := match r with Some j => u32 (Z.of_nat j) | None => x end.

Lemma min_scan (m : list F) nc i out ks : (forall j, j ∈ ks -> (i * nc + j < length m)%nat) -> (i < length out)%nat ->
  foldM (min_step m nc i) ks (float_max, out) =
  Ok (let r := argmin_from (fun j => m !!! (i * nc + j)%nat) ks (float_max, None) in (r.1, alter (set_center r.2) i out)).
Proof.
  intros Hks Hi. assert (forall r, alter (set_center r) i out = match r with Some j => <[i := u32 (Z.of_nat j)]> out | None => out end) as Ha.
  { intros r. apply list_eq. intros p. destruct (decide (p = i)) as [->|Hne].
    - rewrite list_lookup_alter_eq. destruct (lookup_lt_is_Some_2 out i Hi) as [x Ex]. rewrite Ex. destruct r; [by rewrite list_lookup_insert_eq | done].
    - rewrite list_lookup_alter_ne by done. destruct r; [by rewrite list_lookup_insert_ne | done]. }
  cbn zeta. rewrite Ha. induction ks as [|j ks IH] using rev_ind; [done|]. rewrite foldM_app, IH by (intros; apply Hks; set_solver).
  cbn [mbind outcome_bind foldM]. unfold argmin_from. rewrite foldl_app. fold (argmin_from (fun j => m !!! (i * nc + j)%nat) ks (float_max, None)).
  set (r := argmin_from _ _ _). unfold min_step. rewrite rd_ok by (apply Hks; set_solver). cbn [mbind outcome_bind fst snd foldl].
  unfold argmin_step. destruct (float_lt _ r.1); cbn [fst snd]; [|done].
  assert (i < length match r.2 with Some j => <[i:=u32 (Z.of_nat j)]> out | None => out end)%nat as Hi' by (destruct r.2; by rewrite ?length_insert).
  destruct (lookup_lt_is_Some_2 _ _ Hi') as [y Hy]. unfold wr. rewrite (upd_ok _ _ _ _ _ Hy). cbn [mbind outcome_bind].
  do 2 f_equal. destruct r.2; [by rewrite list_insert_insert_eq | done].
Qed.

Lemma nearest_scan m nc i out : (i * nc + nc <= length m)%nat -> (i < length out)%nat ->
  (s ← foldM (min_step m nc i) (range 0 nc) (float_max, out); Ok s.2) = Ok (alter (set_center (nearest m nc i)) i out).
Proof. intros Hm Hi. rewrite min_scan; [done | | done]. intros j Hj%elem_range. lia. Qed.

(** [cs] are the closest [length cs] centres of point [i], in order. *)
Record closest (m : list F) (nc i : nat) (cs : list nat) : Prop := {
  cl_nodup : NoDup cs;
  cl_range : Forall (fun c => (c < nc)%nat) cs;
  cl_sorted : StronglySorted (fun c c' => float_lt (m !!! (i * nc + c')%nat) (m !!! (i * nc + c)%nat) = false) cs;
  cl_least : forall c c', c ∈ cs -> (c' < nc)%nat -> c' ∉ cs -> float_lt (m !!! (i * nc + c')%nat) (m !!! (i * nc + c)%nat) = false;
}.

Lemma nearest_closest m nc i j : nearest m nc i = Some j -> closest m nc i [j].
Proof.
  intros H. pose proof (argmin_from_spec (fun j => m !!! (i * nc + j)%nat) float_max (range 0 nc)) as [Hmin Hs]. unfold nearest in H.
  destruct (argmin_from _ _ _) as [d r]. cbn [fst snd] in *. subst r. destruct Hs as (-> & _ & l1 & l2 & El & _).
  assert (j < nc)%nat as Hj by (assert (j ∈ range 0 nc) as ?%elem_range by (rewrite El; set_solver); lia).
  constructor; [repeat constructor; set_solver | by constructor | repeat constructor |].
  intros c c' ->%list_elem_of_singleton Hc _. apply Hmin, elem_range. lia.
Qed.

Definition no_less (x y : nat * F) : Prop := float_lt y.2 x.2 = false.

Lemma extract_min_spec : forall l best b r, extract_min best l = (b, r) ->
  b :: r ≡ₚ best :: l /\ (b = best \/ float_lt b.2 best.2 = true) /\ Forall (no_less b) r.
Proof.
  induction l as [|x l IH]; intros best b r E; simpl in E; [injection E as <- <-; split_and!; [done | by left | constructor]|].
  destruct (float_lt x.2 best.2) eqn:Ex.
  - destruct (extract_min x l) as [b' r'] eqn:E'. injection E as -> <-. destruct (IH _ _ _ E') as (H1 & H2 & H3).
    assert (float_lt b.2 best.2 = true) as Hb by (destruct H2 as [->|H2]; [done | by apply (float_lt_trans _ x.2)]).
    split_and!; [rewrite Permutation_swap; by rewrite H1 | by right | constructor; [by apply float_lt_asym | done]].
  - destruct (extract_min best l) as [b' r'] eqn:E'. injection E as -> <-. destruct (IH _ _ _ E') as (H1 & H2 & H3).
    split_and!; [rewrite (Permutation_swap x b), H1; apply Permutation_swap | done |]. constructor; [|done]. unfold no_less.
    apply not_true_is_false. intros Hlt. destruct H2 as [->|H2]; [congruence|]. by rewrite (float_lt_trans _ _ _ Hlt H2) in Ex.
Qed.

(** The first [n] centres that the queue gives. *)
Lemma top_scan (k i : nat) : forall n (queue : list (nat * F)) (out : list Z), (n <= length queue)%nat -> (i * k + n <= length out)%nat ->
  exists cs rest o, foldM (top_step k i) (range 0 n) (queue, out) = Ok (rest, o) /\ length cs = n /\ cs ++ rest ≡ₚ queue /\
    StronglySorted no_less cs /\ (forall x y, x ∈ cs -> y ∈ rest -> no_less x y) /\ length o = length out /\
    (forall j x, cs !! j = Some x -> o !! (i * k + j)%nat = Some (u32 (Z.of_nat x.1))) /\
    (forall p, (p < i * k \/ i * k + n <= p)%nat -> o !! p = out !! p).
Proof.
  induction n as [|n IH]; intros queue out Hq Ho.
  { exists [], queue, out. split_and!; try done; constructor || by intros ? ? ?%elem_of_nil. }
  destruct (IH queue out) as (cs & rest & o & E & Hl & Hp & Hs & Hc & Hlo & Hin & Hout); [lia..|].
  rewrite range_S, foldM_app, E. cbn [mbind outcome_bind foldM]. unfold top_step; cbn [fst snd].
  destruct rest as [|x rest]; [apply Permutation_length in Hp; rewrite length_app in Hp; simpl in Hp; lia|].
  destruct (extract_min x rest) as [b r] eqn:Eb. destruct (extract_min_spec _ _ _ _ Eb) as (B1 & _ & B3).
  destruct (lookup_lt_is_Some_2 o (i * k + n)) as [y Hy]; [lia|]. unfold wr. rewrite (upd_ok _ _ _ _ _ Hy). cbn [mbind outcome_bind].
  exists (cs ++ [b]), r. eexists. split; [done|]. split_and!.
  - rewrite length_app. simpl. lia.
  - rewrite <- app_assoc. simpl. by rewrite B1.
  - apply StronglySorted_app_2; [|done | repeat constructor]. intros z w Hz ->%list_elem_of_singleton. apply Hc; [done|]. rewrite <- B1. set_solver.
  - intros z w [Hz| ->%list_elem_of_singleton]%elem_of_app Hw; [apply Hc; [done|]; rewrite <- B1; set_solver|].
    rewrite Forall_forall in B3. by apply B3.
  - by rewrite length_insert.
  - intros j z [Hj|[Hj Ez]]%lookup_app_Some.
    + pose proof (lookup_lt_Some _ _ _ Hj). rewrite list_lookup_insert_ne by lia. by apply Hin.
    + apply list_lookup_singleton_Some in Ez as [Ej ->]. replace j with n by lia. by rewrite list_lookup_insert_eq by lia.
  - intros p Hpp. rewrite list_lookup_insert_ne by lia. apply Hout. lia.
Qed.

Lemma queue_fill (m : list F) nc i : (i * nc + nc <= length m)%nat ->
  foldM (fun j q => x ← rd m (i * nc + j); Ok (q ++ [(j, x)])) (range 0 nc) [] = Ok ((fun j => (j, m !!! (i * nc + j)%nat)) <$> range 0 nc).
Proof.
  intros Hm. enough (forall n, (n <= nc)%nat -> foldM (fun j q => x ← rd m (i * nc + j); Ok (q ++ [(j, x)])) (range 0 n) [] =
    Ok ((fun j => (j, m !!! (i * nc + j)%nat)) <$> range 0 n)) as H by by apply H.
  induction n as [|n IH]; intros Hn; [done|]. rewrite range_S, foldM_app, IH by lia. cbn [mbind outcome_bind foldM].
  rewrite rd_ok by lia. cbn [mbind outcome_bind]. by rewrite fmap_app.
Qed.

Lemma queue_closest (m : list F) nc i cs rest : cs ++ rest ≡ₚ ((fun j => (j, m !!! (i * nc + j)%nat)) <$> range 0 nc) ->
  StronglySorted no_less cs -> (forall x y, x ∈ cs -> y ∈ rest -> no_less x y) -> closest m nc i cs.*1.
Proof.
  intros Hp Hs Hc. assert (forall x, x ∈ cs ++ rest -> (x.1 < nc)%nat /\ x.2 = m !!! (i * nc + x.1)%nat) as Hx.
  { intros x. rewrite Hp. intros (j & -> & Hj%elem_range)%list_elem_of_fmap. simpl. split; [lia | done]. }
  assert (NoDup (cs.*1 ++ rest.*1)) as Hnd.
  { rewrite <- fmap_app, Hp, <- list_fmap_compose. change (fst ∘ _) with (fun j : nat => j). rewrite list_fmap_id. apply NoDup_range. }
  constructor.
  - by apply NoDup_app in Hnd as (? & _).
  - apply Forall_fmap, Forall_forall. intros x Hx'. simpl. apply Hx. set_solver.
  - assert (forall x, x ∈ cs -> x ∈ cs ++ rest) as Hcs by set_solver. clear Hp Hnd Hc. induction cs as [|x cs IH]; [constructor|].
    apply StronglySorted_inv in Hs as [Hs Hx']. constructor; [apply IH; [done | intros z Hz; apply Hx; set_solver | set_solver]|].
    apply Forall_forall. intros c (y & -> & Hy)%list_elem_of_fmap.
    pose proof (proj1 (Forall_forall _ _) Hx' y Hy) as Hyx. unfold no_less in Hyx.
    destruct (Hx x) as [_ <-]; [set_solver|]. destruct (Hx y) as [_ <-]; [set_solver | done].
  - intros c c' (x & -> & Hxc)%list_elem_of_fmap Hc' Hn. assert (c' ∈ rest.*1) as (y & -> & Hy)%list_elem_of_fmap.
    { assert (c' ∈ (cs ++ rest).*1) as H; [|rewrite fmap_app in H; set_solver]. rewrite Hp, <- list_fmap_compose.
      change (fst ∘ _) with (fun j : nat => j). rewrite list_fmap_id. apply elem_range. lia. }
    pose proof (Hc x y Hxc Hy) as H. unfold no_less in H. destruct (Hx x) as [_ <-]; [set_solver|]. by destruct (Hx y) as [_ <-]; [set_solver|].
Qed.
End block.

(** ** Facts: all blocks *)

(** Segment [i] of [o] holds the identifiers [cs]. *)
Definition shows (k i : nat) (cs : list nat) (o : list Z) : Prop :=
  forall l c, cs !! l = Some c -> o !! (i * k + l)%nat = Some (u32 (Z.of_nat c)).

Lemma shows_same k i cs o o' : length cs = k -> shows k i cs o ->
  (forall p, (i * k <= p < i * k + k)%nat -> o' !! p = o !! p) -> shows k i cs o'.
Proof. intros Hl Hs Ho l c Hc. pose proof (lookup_lt_Some _ _ _ Hc). rewrite Ho by lia. by apply Hs. Qed.

(** A loop whose [i]-th iteration writes segment [i] only. *)
Lemma segment_loop k n (P : nat -> list nat -> Prop) (f : nat -> list Z -> outcome (list Z)) out : (n * k <= length out)%nat ->
  (forall i (o : list Z), (i < n)%nat -> length o = length out -> exists cs o', f i o = Ok o' /\ length o' = length o /\
    P i cs /\ length cs = k /\ shows k i cs o' /\ forall p, (p < i * k \/ i * k + k <= p)%nat -> o' !! p = o !! p) ->
  exists css o', foldM f (range 0 n) out = Ok o' /\ length o' = length out /\ length css = n /\
    forall i cs, css !! i = Some cs -> P i cs /\ length cs = k /\ shows k i cs o'.
Proof.
  intros Hn Hf. induction n as [|n IH]; [by exists [], out|].
  destruct IH as (css & o & E & Hl & Hc & Hs); [lia | intros i o Hi; apply Hf; lia|].
  destruct (Hf n o) as (cs & o' & E' & Hl' & HP & Hcs & Hsh & Ho); [lia | done|].
  exists (css ++ [cs]), o'. rewrite range_S, foldM_app, E. cbn [mbind outcome_bind foldM]. rewrite E'. cbn [mbind outcome_bind].
  split; [done|]. split; [by rewrite Hl'|]. split; [rewrite length_app; simpl; lia|].
  intros i cs' [Hi|[Hi Ei]]%lookup_app_Some.
  - destruct (Hs i cs' Hi) as (? & ? & ?). split_and!; try done. apply (shows_same _ _ _ o); try done.
    pose proof (lookup_lt_Some _ _ _ Hi). intros p Hp. apply Ho. nia.
  - apply list_lookup_singleton_Some in Ei as [Ei ->]. by replace i with n by lia.
Qed.

Section blocks.
Context {F E : Type} `{!FloatArith F, !FloatArith E, !Widening F E}.
Context (sgemm : nat -> nat -> nat -> F -> list F -> list F -> F -> list F -> list F) (snrm2 : list F -> F).

(** When [k = 1], every point of a block has a distance below [FLT_MAX]. *)
Definition assignable (k : nat) (m : list F) (nc np : nat) : Prop :=
  k = 1%nat -> forall i, (i < np)%nat -> is_Some (nearest m nc i).

Lemma block_closest data np dim centers nc d2 c2 idx m0 k :
  let m := distance_matrix sgemm data np dim centers nc d2 c2 m0 in
  (k <= nc)%nat -> (np * nc <= length m)%nat -> (np * k <= length idx)%nat -> assignable k m nc np ->
  exists css idx', compute_closest_centers_in_block sgemm data np dim centers nc d2 c2 idx m0 k = Ok (idx', m) /\
    length idx' = length idx /\ length css = np /\
    forall i cs, css !! i = Some cs -> closest m nc i cs /\ length cs = k /\ shows k i cs idx'.
Proof.
  intros m Hk Hm Hidx Ha. unfold compute_closest_centers_in_block. rewrite bool_decide_eq_false_2 by lia. fold m. cbn zeta.
  match goal with |- context [if bool_decide (k = 1)%nat then ?a else ?b] =>
    enough (exists css idx', (if bool_decide (k = 1)%nat then a else b) = Ok idx' /\ length idx' = length idx /\
      length css = np /\ forall i cs, css !! i = Some cs -> closest m nc i cs /\ length cs = k /\ shows k i cs idx')
      as (css & idx' & -> & ?) by (by exists css, idx') end.
  case_bool_decide as H1; apply segment_loop; try done; intros i o Hi Ho.
  - subst k. destruct (Ha eq_refl i Hi) as [j Hj]. exists [j]. eexists. rewrite nearest_scan by nia. split; [done|].
    split; [by rewrite length_alter|]. split; [by apply nearest_closest|]. split; [done|]. split.
    + intros l c [-> ->]%list_lookup_singleton_Some. replace (i * 1 + 0)%nat with i by lia. rewrite list_lookup_alter_eq, Hj.
      by destruct (lookup_lt_is_Some_2 o i) as [x ->]; [lia|].
    + intros p Hp. apply list_lookup_alter_ne. lia.
  - rewrite queue_fill by nia. cbn [mbind outcome_bind].
    destruct (top_scan k i k ((fun j => (j, m !!! (i * nc + j)%nat)) <$> range 0 nc) o)
      as (cs & rest & o' & E' & Hl & Hp & Hs & Hc & Hlo & Hin & Hout); [rewrite length_fmap, length_range; lia | nia|].
    rewrite E'. cbn [mbind outcome_bind snd]. exists cs.*1, o'. split; [done|]. split; [done|].
    split; [by apply (queue_closest _ _ _ cs rest)|]. split; [by rewrite length_fmap|]. split; [|exact Hout].
    intros l c Hlc. rewrite list_lookup_fmap in Hlc. destruct (cs !! l) as [x|] eqn:Ex; [|done]. injection Hlc as <-. by apply Hin.
Qed.

(** ** The lists of the centres *)

(** The points [ord] are appended to the lists of their centres. *)
Definition appended (sel : nat -> list nat) (ord : list nat) (a b : option (list (list nat))) : Prop :=
  match a, b with
  | None, None => True
  | Some ix, Some ix' => length ix' = length ix /\
      forall c docs, ix !! c = Some docs -> ix' !! c = Some (docs ++ filter (fun j => c ∈ sel j) ord)
  | _, _ => False
  end.

Lemma appended_nil sel a : appended sel [] a a.
Proof. destruct a; simpl; [|done]. split; [done|]. intros. by rewrite app_nil_r. Qed.

Lemma appended_app sel o1 o2 a b c : appended sel o1 a b -> appended sel o2 b c -> appended sel (o1 ++ o2) a c.
Proof.
  destruct a as [a|], b as [b|], c as [c|]; simpl; try done. intros [L1 H1] [L2 H2]. split; [by rewrite L2|].
  intros i docs Hd. rewrite filter_app, app_assoc. apply H2, H1, Hd.
Qed.

Lemma appended_ext sel sel' ord a b : (forall j, j ∈ ord -> sel j = sel' j) -> appended sel ord a b -> appended sel' ord a b.
Proof.
  intros Hs. destruct a as [a|], b as [b|]; simpl; try done. intros [L H]. split; [done|]. intros c docs Hd. rewrite (H c docs Hd).
  do 2 f_equal. clear H Hd. induction ord as [|j ord IH]; [done|]. rewrite !filter_cons, (Hs j) by set_solver.
  rewrite IH by set_solver. done.
Qed.

Definition sized (nc : nat) (a : option (list (list nat))) : Prop := match a with Some ix => length ix = nc | None => True end.

Lemma appended_sized sel ord nc a b : appended sel ord a b -> sized nc a -> sized nc b.
Proof. destruct a, b; simpl; try done. intros [-> _]. done. Qed.

(** One more centre of the point [j]. *)
Lemma append_one cs c j nc inv inv1 : appended (fun _ => cs) [j] inv inv1 -> sized nc inv -> (c < nc)%nat -> c ∉ cs ->
  exists inv2, match inv1 with
    | None => Ok None
    | Some ix => docs ← rd ix c; Ok (Some (<[c := docs ++ [j]]> ix))
    end = Ok inv2 /\ appended (fun _ => cs ++ [c]) [j] inv inv2.
Proof.
  destruct inv as [ix|], inv1 as [ix1|]; simpl; try done; [|intros; by exists None]. intros [L H] Hn Hc Hni.
  destruct (lookup_lt_is_Some_2 ix c) as [docs Hd]; [lia|]. pose proof (H c docs Hd) as Hd1.
  rewrite filter_cons_False, filter_nil, app_nil_r in Hd1 by done. unfold rd. rewrite Hd1. cbn [mbind outcome_bind].
  eexists. split; [done|]. split; [by rewrite length_insert|]. intros c' docs' Hd'. destruct (decide (c' = c)) as [->|Hne].
  - rewrite list_lookup_insert_eq by (apply lookup_lt_Some in Hd; lia). rewrite filter_cons_True by set_solver.
    rewrite filter_nil. congruence.
  - rewrite list_lookup_insert_ne, (H c' docs' Hd') by done. do 2 f_equal. rewrite !filter_cons, !filter_nil.
    do 2 case_decide; try done; set_solver.
Qed.

Section copy.
Context (blk par k nc : nat) (idx : list Z).
Hypothesis Hnc : Z.of_nat nc <= 2 ^ 32.

(** The identifiers [cs] of a point are distinct centres, in its segment of the block. *)
Definition listed (i : nat) (cs : list nat) : Prop :=
  shows k i cs idx /\ length cs = k /\ NoDup cs /\ Forall (fun c => (c < nc)%nat) cs.

Lemma copy_point j cs ivf inv : listed (j - blk * par) cs -> (j * k + k <= length ivf)%nat -> sized nc inv ->
  exists ivf' inv', copy_center blk par k idx j (ivf, inv) = Ok (ivf', inv') /\ length ivf' = length ivf /\ shows k j cs ivf' /\
    (forall p, (p < j * k \/ j * k + k <= p)%nat -> ivf' !! p = ivf !! p) /\ appended (fun _ => cs) [j] inv inv'.
Proof.
  intros (Hs & Hl & Hnd & Hlt) Hivf Hsz. unfold copy_center.
  enough (forall n, (n <= k)%nat -> exists ivf' inv',
    foldM (fun l s => c ← rd idx ((j - blk * par) * k + l); ivf ← wr s.1 (j * k + l) c;
      inverted ← match s.2 with None => Ok None | Some ix => docs ← rd ix (Z.to_nat c); Ok (Some (<[Z.to_nat c := docs ++ [j]]> ix)) end;
      Ok (ivf, inverted)) (range 0 n) (ivf, inv) = Ok (ivf', inv') /\ length ivf' = length ivf /\ shows k j (take n cs) ivf' /\
    (forall p, (p < j * k \/ j * k + n <= p)%nat -> ivf' !! p = ivf !! p) /\ appended (fun _ => take n cs) [j] inv inv') as Hg.
  { destruct (Hg k) as (v & w & H & ?); [lia|]. rewrite take_ge in * by lia. by exists v, w. }
  induction n as [|n IH]; intros Hn.
  { exists ivf, inv. split_and!; try done. destruct inv; simpl; [|done]. split; [done|]. intros. by rewrite filter_cons_False, filter_nil, app_nil_r by set_solver. }
  destruct IH as (v & w & E' & Hlv & Hsv & Hpv & Hw); [lia|]. destruct (lookup_lt_is_Some_2 cs n) as [c Hc]; [lia|].
  pose proof (Forall_lookup_1 _ _ _ _ Hlt Hc) as Hcn. simpl in Hcn.
  rewrite range_S, foldM_app, E'. cbn [mbind outcome_bind foldM fst snd]. rewrite (take_S_r _ _ _ Hc).
  assert (rd idx ((j - blk * par) * k + n) = Ok (Z.of_nat c)) as ->. { unfold rd. rewrite (Hs n c Hc). by rewrite u32_small by lia. }
  cbn [mbind outcome_bind]. destruct (lookup_lt_is_Some_2 v (j * k + n)) as [y Hy]; [lia|]. unfold wr. rewrite (upd_ok _ _ _ _ _ Hy).
  cbn [mbind outcome_bind]. rewrite Nat2Z.id.
  destruct (append_one (take n cs) c j nc inv w Hw Hsz Hcn) as (w2 & E2 & Hw2).
  { intros (m & Hm)%list_elem_of_lookup. apply lookup_take_Some in Hm as [Hm Hmn]. pose proof (NoDup_lookup _ _ _ _ Hnd Hm Hc). lia. }
  rewrite E2. cbn [mbind outcome_bind]. do 2 eexists. split; [done|]. split; [by rewrite length_insert|]. split.
  { intros l c' [Hc'|[Hl' Ec']]%lookup_app_Some.
    - apply lookup_lt_Some in Hc' as Hlt'. rewrite length_take in Hlt'. rewrite list_lookup_insert_ne by lia. by apply Hsv.
    - rewrite length_take in Hl', Ec'. apply list_lookup_singleton_Some in Ec' as [El ->]. replace l with n by lia.
      rewrite list_lookup_insert_eq by lia. by rewrite u32_small by lia. }
  split; [|done]. intros p Hp. rewrite list_lookup_insert_ne by lia. apply Hpv. lia.
Qed.

Lemma copy_points sel : forall sch ivf inv, (forall j, j ∈ sch -> listed (j - blk * par) (sel j) /\ (j * k + k <= length ivf)%nat) -> sized nc inv ->
  exists ivf' inv', foldM (copy_center blk par k idx) sch (ivf, inv) = Ok (ivf', inv') /\ length ivf' = length ivf /\
    (forall j, j ∈ sch -> shows k j (sel j) ivf') /\
    (forall p, (forall j, j ∈ sch -> (p < j * k \/ j * k + k <= p)%nat) -> ivf' !! p = ivf !! p) /\ appended sel sch inv inv'.
Proof.
  intros sch. induction sch as [|j sch IH] using rev_ind; intros ivf inv H Hsz.
  { exists ivf, inv. split_and!; [done..| |done|apply appended_nil]. intros j Hj. by apply elem_of_nil in Hj. }
  destruct (IH ivf inv) as (v & w & E' & Hl & Hs & Hp & Ha); [intros i Hi; apply H; set_solver | done|].
  destruct (H j) as [Hj Hlj]; [set_solver|].
  destruct (copy_point j (sel j) v w Hj) as (v' & w' & E2 & Hl2 & Hs2 & Hp2 & Ha2); [lia | by apply (appended_sized _ _ _ _ _ Ha)|].
  rewrite foldM_app, E'. cbn [mbind outcome_bind foldM]. rewrite E2. cbn [mbind outcome_bind].
  exists v', w'. split_and!; [done | by rewrite Hl2 | | |].
  - intros i Hi. destruct (decide (i = j)) as [->|Hne]; [done|]. assert (i ∈ sch) as Hi' by set_solver.
    apply (shows_same _ _ _ v); [apply (H i), Hi | by apply Hs|]. intros p Hpp. apply Hp2. nia.
  - intros p Hpp. rewrite Hp2 by (apply Hpp; set_solver). apply Hp. intros i Hi. apply Hpp. set_solver.
  - apply (appended_app _ _ _ _ w); [done|]. apply (appended_ext (fun _ => sel j)); [by intros i ->%list_elem_of_singleton | done].
Qed.
End copy.

(** ** All the blocks of a call *)
Section call.
Context (schedule : nat -> list nat -> list nat).
Context (sgemm_length : forall m n p al A B be C, length (sgemm m n p al A B be C) = length C).
Context (schedule_perm : forall b l, schedule b l ≡ₚ l).
Context (data : list F) (n dim : nat) (piv : list F) (nc k : nat) (pts pivs m0 : list F) (ivf0 : list Z) (inv0 : option (list (list nat))).

Local Abbreviation par := (PAR_BLOCK_SIZE n).

(** The matrix of distances after [b] blocks. *)
Fixpoint matrix_after (b : nat) : list F :=
  match b with
  | O => m0
  | S b => distance_matrix sgemm (drop (b * par * dim) data) (Nat.min par (n - b * par)) dim piv nc (drop (b * par) pts) pivs (matrix_after b)
  end.

Definition order (b : nat) : list nat := range 0 b ≫= fun b => schedule b (range (b * par) (Nat.min n ((b + 1) * par))).

(** The first [b] blocks are done: [css] are the centres of their points. *)
Record blocks_done (b : nat) (css : list (list nat)) (s : centers_state (F:=F)) : Prop := {
  bd_block : length (cl_block s) = (par * k)%nat;
  bd_matrix : cl_matrix s = matrix_after b;
  bd_ivf : length (cl_ivf s) = length ivf0;
  bd_length : length css = Nat.min n (b * par);
  bd_points i cs : css !! i = Some cs -> closest (matrix_after (S (i / par))) nc (i mod par) cs /\ length cs = k /\ shows k i cs (cl_ivf s);
  bd_inverted : appended (fun j => css !!! j) (order b) inv0 (cl_inverted s);
}.

Lemma length_matrix_after b : length (matrix_after b) = length m0.
Proof using sgemm_length. destruct b; [done|]. simpl. unfold distance_matrix. rewrite !sgemm_length. induction b; [done|]. simpl. unfold distance_matrix. by rewrite !sgemm_length. Qed.

Lemma par_bounds : (0 < n)%nat -> (0 < par <= n)%nat.
Proof. clear. unfold PAR_BLOCK_SIZE. lia. Qed.

Context (Hn : (0 < n)%nat) (Hk : (k <= nc)%nat) (Hnc : Z.of_nat nc <= 2 ^ 32).
Context (Hm0 : length m0 = (nc * par)%nat) (Hivf : (n * k <= length ivf0)%nat) (Hinv : sized nc inv0).

Lemma center_block_done b css s : blocks_done b css s -> (b * par < n)%nat -> assignable k (matrix_after (S b)) nc (Nat.min par (n - b * par)) ->
  exists css' s', center_block sgemm schedule data n dim piv nc k pts pivs b s = Ok s' /\ blocks_done (S b) (css ++ css') s'.
Proof.
  intros [D1 D2 D3 D4 D5 D6] Hb Ha. pose proof (par_bounds Hn) as Hpar. unfold center_block. rewrite D2.
  assert (length (matrix_after b) = (nc * par)%nat) as Hmb by by rewrite length_matrix_after.
  destruct (block_closest (drop (b * par * dim) data) (Nat.min par (n - b * par)) dim piv nc (drop (b * par) pts) pivs (cl_block s) (matrix_after b) k)
    as (css' & idx & E1 & Hl & Hc & Hs); [done | unfold distance_matrix; rewrite !sgemm_length, Hmb; nia | rewrite D1; nia | exact Ha|].
  cbn zeta in *. change (distance_matrix _ _ _ _ _ _ _ _ _) with (matrix_after (S b)) in *. rewrite E1. cbn [mbind outcome_bind].
  set (sch := schedule b (range (b * par) (Nat.min n ((b + 1) * par)))).
  assert (forall j, j ∈ sch -> (b * par <= j < Nat.min n ((b + 1) * par))%nat) as Hsch.
  { intros j. unfold sch. rewrite schedule_perm. apply elem_range. }
  assert (length css = (b * par)%nat) as Hcl by lia.
  assert (forall j, j ∈ sch -> exists cs, css' !! (j - b * par)%nat = Some cs /\ (css ++ css') !!! j = cs) as Hsel.
  { intros j Hj%Hsch. destruct (lookup_lt_is_Some_2 css' (j - b * par)) as [cs Ecs]; [nia|]. exists cs. split; [done|].
    apply list_lookup_total_correct. rewrite lookup_app_r by lia. by rewrite Hcl. }
  destruct (copy_points b par k nc idx Hnc (fun j => (css ++ css') !!! j) sch (cl_ivf s) (cl_inverted s)) as (v & w & E2 & Hlv & Hsv & Hpv & Hw).
  { intros j Hj. destruct (Hsel j Hj) as (cs & Ecs & ->). apply Hsch in Hj. split; [|rewrite D3; nia].
    destruct (Hs _ _ Ecs) as ([] & ? & ?). by split_and!. }
  { by apply (appended_sized _ _ _ _ _ D6). }
  rewrite E2. cbn [mbind outcome_bind]. exists css'. eexists. split; [done|]. constructor; cbn [cl_block cl_matrix cl_ivf cl_inverted].
  - by rewrite Hl. - done. - by rewrite Hlv. - rewrite length_app. nia.
  - intros i cs [Hi|[Hi Ei]]%lookup_app_Some.
    + pose proof (lookup_lt_Some _ _ _ Hi) as Hlt. destruct (D5 i cs Hi) as (? & ? & ?). split_and!; try done.
      apply (shows_same _ _ _ (cl_ivf s)); try done. intros p Hp. apply Hpv. intros j Hj%Hsch. nia.
    + pose proof (lookup_lt_Some _ _ _ Ei) as Hlt. rewrite Hcl in *. destruct (Hs _ _ Ei) as (Hc1 & Hc2 & _).
      assert (i / par = b /\ i mod par = (i - b * par))%nat as [-> ->].
      { assert (i = b * par + (i - b * par))%nat as -> by lia. rewrite Nat.div_add_l, Nat.div_small by lia. split; [lia|].
        rewrite Nat.add_comm, Nat.Div0.mod_add, Nat.mod_small; lia. }
      split_and!; try done. assert (i ∈ sch) as Hi' by (unfold sch; rewrite schedule_perm; apply elem_range; lia).
      destruct (Hsel i Hi') as (cs' & Ecs & E3). specialize (Hsv i Hi'). cbn beta in Hsv. rewrite E3 in Hsv. by replace cs with cs' by congruence.
  - unfold order. rewrite range_S, bind_app. cbn [mbind list_bind]. fold sch. rewrite app_nil_r. apply (appended_app _ _ _ _ (cl_inverted s)); [|done].
    apply (appended_ext (fun j => css !!! j)); [|done]. intros j (b' & Hj & Hb')%list_elem_of_bind. rewrite schedule_perm in Hj.
    apply elem_range in Hj, Hb'. symmetry. apply lookup_total_app_l. nia.
Qed.

Local Abbreviation n_blocks := (if bool_decide (n mod par = 0)%nat then n / par else n / par + 1)%nat.

Lemma blocks_cover : (n <= n_blocks * par)%nat /\ forall b, (b < n_blocks)%nat -> (b * par < n)%nat.
Proof using Hn.
  clear -Hn. pose proof (par_bounds Hn) as Hpar. pose proof (Nat.div_mod_eq n par) as Hdm. pose proof (Nat.mod_upper_bound n par) as Hmu.
  case_bool_decide; split; try nia; intros; nia.
Qed.

Lemma blocks_from_start (Hidx : list Z) : length Hidx = (par * k)%nat ->
  (forall b, (b * par < n)%nat -> assignable k (matrix_after (S b)) nc (Nat.min par (n - b * par))) ->
  forall B, (B <= n_blocks)%nat -> exists css s, foldM (center_block sgemm schedule data n dim piv nc k pts pivs) (range 0 B)
    {| cl_block := Hidx; cl_matrix := m0; cl_ivf := ivf0; cl_inverted := inv0 |} = Ok s /\ blocks_done B css s.
Proof using Hn Hk Hnc Hm0 Hivf Hinv sgemm_length schedule_perm.
  intros Hlen Ha B. induction B as [|B IH]; intros HB.
  - exists []. eexists. split; [done|]. constructor; cbn [cl_block cl_matrix cl_ivf cl_inverted]; try done; [simpl; lia | apply appended_nil].
  - destruct IH as (css & s & E1 & D); [lia|]. destruct (center_block_done B css s D) as (css' & s' & E2 & D').
    + apply blocks_cover. lia.
    + apply Ha. apply blocks_cover. lia.
    + exists (css ++ css'), s'. rewrite range_S, foldM_app, E1. cbn [mbind outcome_bind foldM]. by rewrite E2.
Qed.

Lemma order_perm B : (forall b, (b < B)%nat -> (b * par < n)%nat) -> order B ≡ₚ range 0 (Nat.min n (B * par)).
Proof using schedule_perm.
  clear -schedule_perm. induction B as [|B IH]; intros HB.
  { by replace (Nat.min n (0 * par)) with 0%nat by lia. }
  unfold order. rewrite range_S, bind_app. cbn [mbind list_bind]. fold (order B).
  rewrite app_nil_r, schedule_perm, IH by (intros; apply HB; lia). assert (B * par < n)%nat as HBn by (apply HB; lia).
  rewrite (Nat.min_r n (B * par)), <- (range_app 0) by lia. by replace ((B + 1) * par)%nat with (S B * par)%nat by lia.
Qed.

(** What a call leaves: [css] are the closest centres of the points. *)
Lemma compute_closest_centers_spec garbage garbage_f norms : 
  compute_vecs_l2sq snrm2 piv nc dim = Ok pivs ->
  match norms with Some p => Ok p | None => compute_vecs_l2sq snrm2 data n dim end = Ok pts ->
  length (garbage (par * k)%nat) = (par * k)%nat -> garbage_f (nc * par)%nat = m0 ->
  (forall b, (b * par < n)%nat -> assignable k (matrix_after (S b)) nc (Nat.min par (n - b * par))) ->
  exists css ivf inv, compute_closest_centers sgemm snrm2 schedule garbage garbage_f data n dim piv nc k ivf0 inv0 norms = Ok (ivf, inv) /\
    length ivf = length ivf0 /\ length css = n /\ order n_blocks ≡ₚ range 0 n /\ appended (fun j => css !!! j) (order n_blocks) inv0 inv /\
    forall i cs, css !! i = Some cs -> closest (matrix_after (S (i / par))) nc (i mod par) cs /\ length cs = k /\ shows k i cs ivf.
Proof using Hn Hk Hnc Hm0 Hivf Hinv sgemm_length schedule_perm.
  intros Hpivs Hpts Hg Hgf Ha. pose proof (par_bounds Hn) as Hpar. destruct blocks_cover as [Hcov Hlt].
  unfold compute_closest_centers. rewrite (bool_decide_eq_false_2 (nc < k)%nat), (bool_decide_eq_false_2 (par = 0)%nat) by lia. cbn zeta. rewrite Hpts, Hpivs.
  cbn [mbind outcome_bind]. rewrite Hgf. destruct (blocks_from_start _ Hg Ha n_blocks) as (css & s & E1 & []); [lia|]. rewrite E1.
  cbn [mbind outcome_bind]. exists css, (cl_ivf s), (cl_inverted s). split; [done|]. split; [done|]. split; [rewrite bd_length0; lia|].
  split; [|done]. rewrite order_perm by done. by rewrite Nat.min_l by lia.
Qed.
End call.
End blocks.

(** ** Facts: the means and the residual *)
Section means.
Context {F E : Type} `{!FloatArith F, !FloatArith E, !Widening F E}.

Lemma row_ok {A} (data : list A) dim i : (i * dim + dim <= length data)%nat -> row data dim i = Ok (take dim (drop (i * dim) data)).
Proof. intros H. unfold row. by rewrite bool_decide_eq_true_2. Qed.

Lemma rd_row {A} `{!Inhabited A} (data : list A) dim i j : (i * dim + dim <= length data)%nat -> (j < dim)%nat ->
  rd (take dim (drop (i * dim) data)) j = Ok (data !!! (i * dim + j)%nat).
Proof.
  intros H Hj. unfold rd. rewrite lookup_take_lt, lookup_drop by done.
  by rewrite (list_lookup_lookup_total_lt data (i * dim + j)) by lia.
Qed.

Lemma vecs_ok (snrm2 : list F -> F) data n dim : (n * dim <= length data)%nat -> exists p, compute_vecs_l2sq snrm2 data n dim = Ok p.
Proof.
  intros H. unfold compute_vecs_l2sq. induction n as [|n IH]; [by eexists|]. destruct IH as [p IH]; [lia|].
  rewrite range_S, foldM_app, IH. cbn [mbind outcome_bind foldM]. rewrite row_ok by lia. by eexists.
Qed.

(** The sum of coordinate [j] of the points [docs]. *)
Definition coord_sum (data : list F) (dim : nat) (docs : list nat) (j : nat) : E :=
  foldl (fun a d => float_add a (widen (F:=F) (D:=E) (data !!! (d * dim + j)%nat))) float_zero docs.

Lemma add_point_ok (data : list F) dim i (s : list E) : (i * dim + dim <= length data)%nat -> length s = dim ->
  exists s', add_point data dim i s = Ok s' /\ length s' = dim /\
    forall j x, s !! j = Some x -> s' !! j = Some (float_add x (widen (F:=F) (D:=E) (data !!! (i * dim + j)%nat))).
Proof.
  intros Hi Hs. unfold add_point. rewrite row_ok by done. cbn [mbind outcome_bind].
  destruct (own_loop (fun j (s : list E) => x ← rd (take dim (drop (i * dim) data)) j; upd (float_add (F:=E)) s j (widen (F:=F) (D:=E) x))
    (fun j x => float_add x (widen (F:=F) (D:=E) (data !!! (i * dim + j)%nat))) dim s) as (s' & E1 & Hl & H); [lia| |].
  - intros j o y Hj Hy. rewrite rd_row by done. cbn [mbind outcome_bind]. by rewrite (upd_ok _ _ _ _ _ Hy).
  - exists s'. split; [done|]. split; [lia|]. intros j x Hx. rewrite (H j x Hx), decide_True; [done|]. apply lookup_lt_Some in Hx. lia.
Qed.

Lemma cluster_center_ok (data : list F) dim docs : (forall d, d ∈ docs -> (d * dim + dim <= length data)%nat) ->
  exists m, cluster_center (E:=E) data dim docs = Ok m /\ length m = dim /\
    forall j, (j < dim)%nat -> m !! j = Some (narrow (F:=F) (D:=E) (float_div (coord_sum data dim docs j) (float_of_nat (length docs)))).
Proof.
  intros Hd. unfold cluster_center.
  assert (exists s : list E, foldM (add_point data dim) docs (replicate dim float_zero) = Ok s /\ length s = dim /\
    forall j, (j < dim)%nat -> s !! j = Some (coord_sum data dim docs j)) as (s & E1 & Hl & H).
  { induction docs as [|d docs IH] using rev_ind.
    - eexists. split; [done|]. split; [apply length_replicate|]. intros j Hj. by apply lookup_replicate_2.
    - destruct IH as (s & E1 & Hl & H); [intros; apply Hd; set_solver|].
      destruct (add_point_ok data dim d s) as (s' & E2 & Hl' & H'); [apply Hd; set_solver | done|].
      exists s'. rewrite foldM_app, E1. cbn [mbind outcome_bind foldM]. rewrite E2. split; [done|]. split; [done|].
      intros j Hj. rewrite (H' j _ (H j Hj)). unfold coord_sum. by rewrite foldl_app. }
  rewrite E1. cbn [mbind outcome_bind]. eexists. split; [done|]. split; [by rewrite length_fmap|]. intros j Hj. by rewrite list_lookup_fmap, (H j Hj).
Qed.

(** The copy of a row. *)
Lemma write_row (r : list F) dst dim p : length r = dim -> (dst * dim + dim <= length p)%nat ->
  exists p', foldM (fun i p => x ← rd r i; wr p (dst * dim + i) x) (range 0 dim) p = Ok p' /\ length p' = length p /\
    (forall i, (i < dim)%nat -> p' !! (dst * dim + i)%nat = r !! i) /\
    forall q, (q < dst * dim \/ dst * dim + dim <= q)%nat -> p' !! q = p !! q.
Proof.
  intros Hr Hp. enough (forall n, (n <= dim)%nat -> exists p', foldM (fun i p => x ← rd r i; wr p (dst * dim + i) x) (range 0 n) p = Ok p' /\
    length p' = length p /\ (forall i, (i < n)%nat -> p' !! (dst * dim + i)%nat = r !! i) /\
    forall q, (q < dst * dim \/ dst * dim + n <= q)%nat -> p' !! q = p !! q) as H by by apply H.
  induction n as [|n IH]; intros Hn; [exists p; split_and!; try done; lia|]. destruct IH as (o & E1 & Hl & Hi & Hq); [lia|].
  rewrite range_S, foldM_app, E1. cbn [mbind outcome_bind foldM]. destruct (lookup_lt_is_Some_2 r n) as [x Hx]; [lia|].
  unfold rd at 1. rewrite Hx. cbn [mbind outcome_bind]. destruct (lookup_lt_is_Some_2 o (dst * dim + n)) as [y Hy]; [lia|].
  unfold wr. rewrite (upd_ok _ _ _ _ _ Hy). cbn [mbind outcome_bind]. eexists. split; [done|]. split; [by rewrite length_insert|]. split.
  - intros i Hin. destruct (decide (i = n)) as [->|Hne]; [by rewrite list_lookup_insert_eq by lia|].
    rewrite list_lookup_insert_ne by lia. apply Hi. lia.
  - intros q Hqq. rewrite list_lookup_insert_ne by lia. apply Hq. lia.
Qed.

(** Coordinate [j] of the new centre of the points [docs]: the mean, or zero when there are none. *)
Definition mean_coord (data : list F) (dim : nat) (docs : list nat) (j : nat) : F :=
  match docs with [] => float_zero | _ => narrow (F:=F) (D:=E) (float_div (coord_sum data dim docs j) (float_of_nat (length docs))) end.

Lemma new_centers_ok (data : list F) dim lists : (forall docs d, docs ∈ lists -> d ∈ docs -> (d * dim + dim <= length data)%nat) ->
  exists cs, foldM (new_center (E:=E) data dim lists) (range 0 (length lists)) (replicate (length lists * dim) float_zero) = Ok cs /\
    length cs = (length lists * dim)%nat /\
    forall c docs j, lists !! c = Some docs -> (j < dim)%nat -> cs !! (c * dim + j)%nat = Some (mean_coord data dim docs j).
Proof.
  intros Hd. enough (forall n, (n <= length lists)%nat -> exists cs,
    foldM (new_center (E:=E) data dim lists) (range 0 n) (replicate (length lists * dim) float_zero) = Ok cs /\ length cs = (length lists * dim)%nat /\
    (forall c docs j, (c < n)%nat -> lists !! c = Some docs -> (j < dim)%nat -> cs !! (c * dim + j)%nat = Some (mean_coord data dim docs j)) /\
    forall q, (n * dim <= q < length lists * dim)%nat -> cs !! q = Some float_zero) as H.
  { destruct (H (length lists)) as (cs & E1 & Hl & Hc & _); [done|]. exists cs. split_and!; try done. intros c docs j Hdc.
    apply Hc; [by apply lookup_lt_Some in Hdc | done]. }
  induction n as [|n IH]; intros Hn.
  { eexists. split; [done|]. split; [apply length_replicate|]. split; [lia|]. intros q Hq. apply lookup_replicate_2. lia. }
  destruct IH as (o & E1 & Hl & Hc & Hq); [lia|]. destruct (lookup_lt_is_Some_2 lists n) as [docs Hdocs]; [lia|].
  rewrite range_S, foldM_app, E1. cbn [mbind outcome_bind foldM]. unfold new_center.
  assert (rd lists n = Ok docs) as -> by (unfold rd; by rewrite Hdocs). cbn [mbind outcome_bind].
  destruct docs as [|d docs]; simpl length; case_bool_decide; try lia.
  - exists o. split; [done|]. split; [done|]. split; [|intros; apply Hq; nia]. intros c docs j Hcn Hdc Hj.
    destruct (decide (c = n)) as [->|Hne]; [|apply Hc; [lia | done..]]. rewrite Hdocs in Hdc. injection Hdc as <-. simpl. apply Hq. nia.
  - destruct (cluster_center_ok data dim (d :: docs)) as (m & E2 & Hm & Hmj).
    { intros e He. apply (Hd (d :: docs)); [by apply (list_elem_of_lookup_2 _ n) | done]. }
    rewrite E2. cbn [mbind outcome_bind]. destruct (write_row m n dim o Hm) as (p & E3 & Hp & Hpi & Hpq); [nia|]. rewrite E3. cbn [mbind outcome_bind].
    exists p. split; [done|]. split; [lia|]. split.
    + intros c docs' j Hcn Hdc Hj. destruct (decide (c = n)) as [->|Hne].
      * rewrite Hdocs in Hdc. injection Hdc as <-. rewrite Hpi by done. by apply Hmj.
      * rewrite Hpq by nia. apply Hc; [lia | done..].
    + intros q Hqq. rewrite Hpq by nia. apply Hq. nia.
Qed.
End means.

(** ** Facts: the residual and one iteration *)
Section lloyds.
Context {F E : Type} `{!FloatArith F, !FloatArith E, !Widening F E}.

(** The squared distance of point [d] to centre [c]. *)
Definition point_dist (data : list F) (dim d : nat) (centers : list F) (c : nat) : F :=
  foldl (fun a j => float_add a (sq_diff (data !!! (d * dim + j)%nat) (centers !!! (c * dim + j)%nat))) float_zero (range 0 dim).

(** The sum over the points of a chunk, and the sum of the chunks. *)
Definition residual_sum (data : list F) (n dim : nat) (centers : list F) (sel : list nat) : F :=
  let chunk := Z.to_nat CHUNK_SIZE in
  foldl (fun acc ch => float_add acc
    (foldl (fun r d => float_add r (point_dist data dim d centers (sel !!! d))) float_zero (range (ch * chunk) (Nat.min n ((ch + 1) * chunk)))))
    float_zero (range 0 (n / chunk + (if bool_decide (n mod chunk = 0)%nat then 0 else 1))).

Lemma calc_distance_rows (data centers : list F) dim d c : (d * dim + dim <= length data)%nat -> (c * dim + dim <= length centers)%nat ->
  calc_distance (take dim (drop (d * dim) data)) (take dim (drop (c * dim) centers)) dim = Ok (point_dist data dim d centers c).
Proof.
  intros Hd Hc. unfold calc_distance. apply foldM_pure. intros j a Hj%elem_range. by rewrite !rd_row by (done || lia).
Qed.

Lemma residual_ok (data : list F) n dim centers nc center sel : (n * dim <= length data)%nat -> (nc * dim <= length centers)%nat ->
  length sel = n -> (forall d c, sel !! d = Some c -> (c < nc)%nat /\ center !! d = Some (Z.of_nat c)) ->
  residual_of data n dim centers center = Ok (residual_sum data n dim centers sel).
Proof.
  intros Hd Hc Hl Hs. unfold residual_of, residual_sum. apply foldM_pure. intros ch acc _.
  assert (forall d, d ∈ range (ch * Z.to_nat CHUNK_SIZE) (Nat.min n ((ch + 1) * Z.to_nat CHUNK_SIZE)) -> (d < n)%nat) as Hlt by (intros d ?%elem_range; lia).
  revert Hlt. generalize (range (ch * Z.to_nat CHUNK_SIZE) (Nat.min n ((ch + 1) * Z.to_nat CHUNK_SIZE))). intros ds Hlt.
  erewrite foldM_pure; [cbn [mbind outcome_bind]; reflexivity|]. intros d r Hin%Hlt. cbn beta.
  destruct (lookup_lt_is_Some_2 sel d) as [c Ec]; [lia|]. destruct (Hs d c Ec) as [Hcn Ecd].
  rewrite row_ok by nia. cbn [mbind outcome_bind]. unfold rd. rewrite Ecd. cbn [mbind outcome_bind]. rewrite Nat2Z.id, row_ok by nia.
  cbn [mbind outcome_bind]. rewrite calc_distance_rows by nia. cbn [mbind outcome_bind]. by rewrite (list_lookup_total_correct _ _ _ Ec).
Qed.

Context (sgemm : nat -> nat -> nat -> F -> list F -> list F -> F -> list F -> list F) (snrm2 : list F -> F).
Context (schedule : nat -> list nat -> list nat) (garbage : nat -> list Z) (garbage_f : nat -> list F).

(** The hypotheses on one iteration: the environment and the sizes of the arrays. *)
Record lloyds_ready (data : list F) (n dim nc : nat) (s : lloyds_state (F:=F)) : Prop := {
  lr_sgemm : forall m n p al A B be C, length (sgemm m n p al A B be C) = length C;
  lr_schedule : forall b l, schedule b l ≡ₚ l;
  lr_garbage : forall m, length (garbage m) = m;
  lr_garbage_f : forall m, length (garbage_f m) = m;
  lr_points : (0 < n)%nat;
  lr_centers : (0 < nc)%nat /\ Z.of_nat nc <= 2 ^ 32;
  lr_data : (n * dim <= length data)%nat;
  lr_means : length (ll_centers s) = (nc * dim)%nat;
  lr_center : (n <= length (ll_center s))%nat;
}.

(** The distances of the block of point [i]. *)
Definition block_distances (data : list F) (n dim nc : nat) (pts pivs : list F) (s : lloyds_state (F:=F)) (b : nat) : list F :=
  matrix_after sgemm data n dim (ll_centers s) nc pts pivs (garbage_f (nc * PAR_BLOCK_SIZE n)) (S b).

(** The single centre of every point. *)
Definition single (css : list (list nat)) : list nat := (fun cs => default 0%nat (head cs)) <$> css.

Lemma single_lookup css i c : (forall i cs, css !! i = Some cs -> length cs = 1%nat) -> single css !! i = Some c <-> css !! i = Some [c].
Proof.
  intros H. unfold single. rewrite list_lookup_fmap. destruct (css !! i) as [cs|] eqn:Ei; [|done]. specialize (H i cs Ei).
  destruct cs as [|x [|]]; simpl in *; try done. split; congruence.
Qed.

Lemma single_docs css n ord c : (forall i cs, css !! i = Some cs -> length cs = 1%nat) -> length css = n -> ord ≡ₚ range 0 n ->
  NoDup (filter (fun j => c ∈ css !!! j) ord) /\ forall i, i ∈ filter (fun j => c ∈ css !!! j) ord <-> single css !! i = Some c.
Proof.
  intros H Hl Ho. split; [apply NoDup_filter; rewrite Ho; apply NoDup_range|]. intros i.
  rewrite list_elem_of_filter, Ho, elem_range, single_lookup by done. split.
  - intros [Hc Hi]. destruct (lookup_lt_is_Some_2 css i) as [cs Ecs]; [lia|]. rewrite (list_lookup_total_correct _ _ _ Ecs) in Hc.
    specialize (H i cs Ecs). destruct cs as [|x [|]]; simpl in *; try done. rewrite Ecs. set_solver.
  - intros Ei. rewrite (list_lookup_total_correct _ _ _ Ei). apply lookup_lt_Some in Ei. split; [set_solver | lia].
Qed.

(** One iteration of [lloyds_iter] returns.  Every point gets a centre at the
    least of its distances; the list of a centre holds exactly its points, each
    once; the new centre is the mean of its points in [double], or zero when it
    has none; the result is the sum of the squared distances to the new centres. *)
Theorem lloyds_iter_correct data n dim nc pts pivs s :
  lloyds_ready data n dim nc s -> compute_vecs_l2sq snrm2 (ll_centers s) nc dim = Ok pivs ->
  (forall b, (b * PAR_BLOCK_SIZE n < n)%nat ->
     assignable 1 (block_distances data n dim nc pts pivs s b) nc (Nat.min (PAR_BLOCK_SIZE n) (n - b * PAR_BLOCK_SIZE n))) ->
  exists s' sel, lloyds_iter (E:=E) sgemm snrm2 schedule garbage garbage_f data n dim nc pts s = Ok s' /\ length sel = n /\
    (forall i c, sel !! i = Some c -> (c < nc)%nat /\ ll_center s' !! i = Some (Z.of_nat c) /\
       forall c', (c' < nc)%nat -> float_lt (block_distances data n dim nc pts pivs s (i / PAR_BLOCK_SIZE n) !!! (i mod PAR_BLOCK_SIZE n * nc + c')%nat)
         (block_distances data n dim nc pts pivs s (i / PAR_BLOCK_SIZE n) !!! (i mod PAR_BLOCK_SIZE n * nc + c)%nat) = false) /\
    length (ll_docs s') = nc /\
    (forall c docs, ll_docs s' !! c = Some docs -> NoDup docs /\ (forall i, i ∈ docs <-> sel !! i = Some c) /\
       forall j, (j < dim)%nat -> ll_centers s' !! (c * dim + j)%nat = Some (mean_coord (E:=E) data dim docs j)) /\
    ll_residual s' = residual_sum data n dim (ll_centers s') sel.
Proof.
  intros [R1 R2 R3 R4 R5 [R6 R7] R8 R9 R10] Hpivs Ha. unfold lloyds_iter.
  destruct (compute_closest_centers_spec sgemm snrm2 schedule R1 R2 data n dim (ll_centers s) nc 1 pts pivs (garbage_f (nc * PAR_BLOCK_SIZE n))
    (ll_center s) (Some (replicate nc [])) R5 R6 R7 (R4 _)) with (garbage := garbage) (garbage_f := garbage_f) (norms := Some pts)
    as (css & ivf & inv & E1 & Hl & Hc & Hord & Hap & Hcs); try done; [lia | simpl; by rewrite length_replicate|].
  rewrite E1. cbn [mbind outcome_bind]. clear E1. destruct inv as [lists|]; [|done]. destruct Hap as [Hll Hap]. rewrite length_replicate in Hll.
  assert (forall i cs, css !! i = Some cs -> length cs = 1%nat) as H1 by (intros i cs Ei; by apply (Hcs i)).
  change (default [] (Some lists)) with lists.
  destruct (new_centers_ok (E:=E) data dim lists) as (cs & E2 & Hlc & Hm).
  { intros docs d (c & Hdocs)%list_elem_of_lookup Hd. assert (c < nc)%nat as Hcn by (apply lookup_lt_Some in Hdocs; lia).
    pose proof (Hap c [] (lookup_replicate_2 _ _ _ Hcn)) as Hcd. assert (docs = filter (fun j => c ∈ css !!! j) (order schedule n
      (if bool_decide (n mod PAR_BLOCK_SIZE n = 0)%nat then n / PAR_BLOCK_SIZE n else n / PAR_BLOCK_SIZE n + 1)%nat)) as -> by (rewrite Hdocs in Hcd; by injection Hcd).
    apply list_elem_of_filter in Hd as [_ Hd]. rewrite Hord in Hd. apply elem_range in Hd. nia. }
  rewrite Hll in *. rewrite E2. cbn [mbind outcome_bind].
  assert (forall d c, single css !! d = Some c -> (c < nc)%nat /\ ivf !! d = Some (Z.of_nat c)) as Hsel.
  { intros d c Hd. apply single_lookup in Hd; [|done]. destruct (Hcs d [c] Hd) as ([_ Hr _ _] & _ & Hs). apply Forall_cons in Hr as [Hr _].
    split; [done|]. specialize (Hs 0%nat c eq_refl). replace (d * 1 + 0)%nat with d in Hs by lia. rewrite Hs. by rewrite u32_small by lia. }
  rewrite (residual_ok data n dim cs nc ivf (single css)); [|done | lia | unfold single; by rewrite length_fmap | exact Hsel].
  cbn [mbind outcome_bind]. eexists _, (single css). split; [reflexivity|]. cbn [ll_centers ll_docs ll_center ll_residual].
  split; [unfold single; by rewrite length_fmap|]. split; [|split; [done|]; split; [|done]].
  - intros i c Hi. destruct (Hsel i c Hi) as [Hcn Hiv]. split; [done|]. split; [done|]. intros c' Hc'. apply single_lookup in Hi; [|done].
    destruct (Hcs i [c] Hi) as ([_ _ _ Hleast] & _). destruct (decide (c' = c)) as [->|Hne]; [apply float_lt_irrefl|].
    apply Hleast; set_solver.
  - intros c docs Hdocs. assert (c < nc)%nat as Hcn by (apply lookup_lt_Some in Hdocs; lia).
    pose proof (Hap c [] (lookup_replicate_2 _ _ _ Hcn)) as Hcd. rewrite Hdocs in Hcd. injection Hcd as Hcd. simpl in Hcd.
    destruct (single_docs css n _ c H1 Hc Hord) as [Hnd Hin]. rewrite <- Hcd in Hnd, Hin. split; [done|]. split; [done|].
    intros j Hj. by apply (Hm c docs j).
Qed.

(** [run_lloyds] makes at most [max_reps] iterations: it returns when each of
    them does, in a state that every iteration keeps. *)
Lemma run_lloyds_from_ok (small : E -> bool) (negligible : F -> bool) gs gfs data n dim nc pts (I : lloyds_state -> Prop) :
  (forall i s, I s -> exists s', lloyds_iter (E:=E) sgemm snrm2 schedule (gs i) (gfs i) data n dim nc pts s = Ok s' /\ I s') ->
  forall reps i s, I s -> exists s', run_lloyds_from (E:=E) sgemm snrm2 schedule small negligible gs gfs reps i data n dim nc pts s = Ok s' /\ I s'.
Proof.
  intros Hstep reps. induction reps as [|reps IH]; intros i s Hs; cbn [run_lloyds_from]; [by exists s|].
  destruct (Hstep i s Hs) as (s1 & -> & H1). cbn [mbind outcome_bind]. cbn zeta. destruct (_ || _); [by exists s1 | by apply IH].
Qed.
End lloyds.

(** ** Facts: the first centres *)
Section pivots.
Context {F E : Type} `{!FloatArith F, !FloatArith E, !Widening F E}.

(** Row [j] of the centres is row [i] of the data. *)
Definition row_copied (data : list F) (dim i : nat) (p : list F) (j : nat) : Prop :=
  forall q, (q < dim)%nat -> p !! (j * dim + q)%nat = Some (data !!! (i * dim + q)%nat).

Lemma copy_row_ok (data : list F) dim src p dst : (src * dim + dim <= length data)%nat -> (dst * dim + dim <= length p)%nat ->
  exists p', copy_row data dim src p dst = Ok p' /\ length p' = length p /\ row_copied data dim src p' dst /\
    forall q, (q < dst * dim \/ dst * dim + dim <= q)%nat -> p' !! q = p !! q.
Proof.
  intros Hs Hd. unfold copy_row. rewrite row_ok by done. cbn [mbind outcome_bind].
  destruct (write_row (take dim (drop (src * dim) data)) dst dim p) as (p' & E1 & Hl & Hi & Hq); [rewrite length_take, length_drop; lia | done|].
  exists p'. split_and!; try done. intros q Hqd. rewrite Hi by done. rewrite lookup_take_lt, lookup_drop by done.
  apply list_lookup_lookup_total_lt. lia.
Qed.

(** A draw that was drawn before leaves its row as it was. *)
Lemma selecting_pivots_rows draw (data : list F) n dim p nc : (forall j, (j < nc)%nat -> (draw j < n)%nat) -> (n * dim <= length data)%nat ->
  (nc * dim <= length p)%nat ->
  exists p', selecting_pivots draw data n dim p nc = Ok p' /\ length p' = length p /\
    forall j, (j < nc)%nat -> if decide (draw j ∈ draw <$> range 0 j) then forall q, (q < dim)%nat -> p' !! (j * dim + q)%nat = p !! (j * dim + q)%nat
                     else row_copied data dim (draw j) p' j.
Proof.
  intros Hdr Hd Hp. enough (exists s, foldM (selecting_step draw data dim) (range 0 nc) ([], p) = Ok s /\
      length s.2 = length p /\ (forall x, x ∈ s.1 <-> x ∈ draw <$> range 0 nc) /\ (forall q, (nc * dim <= q)%nat -> s.2 !! q = p !! q) /\
      forall j, (j < nc)%nat -> if decide (draw j ∈ draw <$> range 0 j) then forall q, (q < dim)%nat -> s.2 !! (j * dim + q)%nat = p !! (j * dim + q)%nat
                     else row_copied data dim (draw j) s.2 j) as (s & E1 & Hl & _ & _ & Hj).
  { exists s.2. unfold selecting_pivots. rewrite E1. by split_and!. }
  induction nc as [|k IH]; [by exists ([], p); split_and!; try done; lia|].
  destruct IH as (s & E1 & Hl & Hx & Hq & Hj); [intros; apply Hdr; lia | lia|]. rewrite range_S, foldM_app, E1. cbn [mbind outcome_bind foldM].
  unfold selecting_step. cbn zeta. case_bool_decide as Hdk.
  - exists s. split_and!; [done | done | | intros; apply Hq; lia |].
    + intros x. rewrite fmap_app, elem_of_app, Hx. simpl. rewrite list_elem_of_singleton. rewrite Hx in Hdk. naive_solver.
    + intros j Hjk. destruct (decide (j = k)) as [->|Hne]; [|apply Hj; lia]. rewrite decide_True by by rewrite <- Hx. intros q Hqd. apply Hq. lia.
  - destruct (copy_row_ok data dim (draw k) s.2 k) as (p' & E2 & Hl' & Hr & Hq'); [specialize (Hdr k); nia | nia|]. rewrite E2. cbn [mbind outcome_bind].
    eexists. split; [done|]. cbn [fst snd]. split_and!; [by rewrite Hl' | | intros q Hqq; rewrite Hq' by lia; apply Hq; lia|].
    + intros x. rewrite fmap_app, !elem_of_app, Hx. done.
    + intros j Hjk. destruct (decide (j = k)) as [->|Hne]; [by rewrite decide_False by by rewrite <- Hx|]. specialize (Hj j ltac:(lia)).
      case_decide; intros q Hqd; rewrite Hq' by nia; by apply Hj.
Qed.

Context (double_ge : E -> E -> bool) (is_zero : E -> bool).

(** The rows chosen so far; they are distinct until a sum of distances is zero. *)
Record pp_ok (data : list F) (n dim nc : nat) (s : pp_state (F:=F)) : Prop := {
  pp_rows j i : pp_picked s !! j = Some i -> row_copied data dim i (pp_pivots s) j;
  pp_in i : i ∈ pp_picked s -> (i < n)%nat;
  pp_distinct : pp_sum_flag s = false -> NoDup (pp_picked s);
  pp_lengths : length (pp_pivots s) = (nc * dim)%nat /\ length (pp_dist s) = n;
}.

Lemma dart_point_lt n (dist : list F) dart tmp : (0 < n)%nat -> length dist = n -> exists i, dart_point (E:=E) double_ge n dist dart tmp = Ok i /\ (i < n)%nat.
Proof.
  intros Hn Hd. unfold dart_point.
  enough (forall k, (k <= n)%nat -> exists i p b, foldM (dart_step double_ge dist dart) (range 0 k) (tmp, float_zero, false) = Ok (i, p, b) /\ ((0 < k)%nat -> (i < n)%nat) /\ (b = true -> (0 < k)%nat)) as H.
  { destruct (H n) as (i & p & b & -> & ? & _); [done|]. exists i. split; [done | auto]. }
  induction k as [|k IH]; intros Hk; [do 3 eexists; split; [done|]; split; [lia | done]|]. destruct IH as (i & p & b & E1 & H1 & H2); [lia|].
  rewrite range_S, foldM_app, E1. cbn [mbind outcome_bind foldM]. unfold dart_step. destruct b; [do 3 eexists; split; [done|]; split; [auto | lia]|].
  rewrite rd_ok by lia. cbn [mbind outcome_bind]. cbn zeta. destruct (_ && _); cbn [mbind outcome_bind]; do 3 eexists; (split; [done|]); split; lia.
Qed.

Lemma row_distance_ok (data : list F) dim i j : (i * dim + dim <= length data)%nat -> (j * dim + dim <= length data)%nat ->
  row_distance data dim i j = Ok (point_dist data dim i data j).
Proof. intros Hi Hj. unfold row_distance. rewrite !row_ok by done. cbn [mbind outcome_bind]. by apply calc_distance_rows. Qed.

(** Another row is chosen. *)
Lemma pick_ok (data : list F) n dim nc s t flag : (n * dim <= length data)%nat -> pp_ok data n dim nc s ->
  (length (pp_picked s) < nc)%nat -> (t < n)%nat -> (flag = false -> pp_sum_flag s = false /\ t ∉ pp_picked s) ->
  exists s', (pivots ← copy_row data dim t (pp_pivots s) (length (pp_picked s));
    dist ← foldM (fun i dist => d ← row_distance data dim i t; x ← rd dist i; wr dist i (if float_lt d x then d else x)) (range 0 n) (pp_dist s);
    Ok {| pp_picked := pp_picked s ++ [t]; pp_pivots := pivots; pp_dist := dist; pp_tmp := t; pp_sum_flag := flag |}) = Ok s' /\
    pp_ok data n dim nc s' /\ length (pp_picked s') = S (length (pp_picked s)).
Proof.
  intros Hd [P1 P2 P3 [P4 P5]] Hlt Ht Hf.
  destruct (copy_row_ok data dim t (pp_pivots s) (length (pp_picked s))) as (p' & -> & Hl & Hr & Hq); [nia | nia|]. cbn [mbind outcome_bind].
  destruct (own_loop (fun i dist => d ← row_distance data dim i t; x ← rd dist i; wr dist i (if float_lt d x then d else x))
    (fun i x => if float_lt (point_dist data dim i data t) x then point_dist data dim i data t else x) n (pp_dist s)) as (d' & -> & Hd' & _); [lia| |].
  { intros i o x Hi Hx. rewrite row_distance_ok by nia. cbn [mbind outcome_bind]. unfold rd at 1. rewrite Hx. cbn [mbind outcome_bind].
    unfold wr. by rewrite (upd_ok _ _ _ _ _ Hx). }
  cbn [mbind outcome_bind]. eexists. split; [done|]. split; [|cbn [pp_picked]; rewrite length_app; simpl; lia].
  constructor; cbn [pp_picked pp_pivots pp_dist pp_sum_flag].
  - intros j i [Hj|[Hj Ei]]%lookup_app_Some.
    + pose proof (lookup_lt_Some _ _ _ Hj). intros q Hqd. rewrite Hq by nia. by apply P1.
    + apply list_lookup_singleton_Some in Ei as [Ej ->]. by replace j with (length (pp_picked s)) by lia.
  - intros i [Hi| ->%list_elem_of_singleton]%elem_of_app; [by apply P2 | done].
  - intros [Hs Hn]%Hf. apply NoDup_app. split; [by apply P3|]. split; [set_solver | apply NoDup_singleton].
  - lia.
Qed.

Lemma kmeanspp_step_ok (data : list F) n dim nc dart s : (0 < n)%nat -> (n * dim <= length data)%nat -> pp_ok data n dim nc s ->
  (length (pp_picked s) < nc)%nat -> exists s', kmeanspp_step (E:=E) double_ge is_zero data n dim dart s = Ok s' /\ pp_ok data n dim nc s' /\
    (length (pp_picked s') <= S (length (pp_picked s)))%nat.
Proof.
  intros Hn Hd Hok Hlt. pose proof Hok as [P1 P2 P3 [P4 P5]]. unfold kmeanspp_step.
  assert (exists sum, dist_sum (E:=E) n (pp_dist s) = Ok sum) as [sum ->].
  { unfold dist_sum. eexists. apply foldM_pure. intros i a Hi%elem_range. by rewrite rd_ok by lia. }
  cbn [mbind outcome_bind]. destruct (dart_point_lt n (pp_dist s) (float_mul dart sum) (pp_tmp s) Hn P5) as (t & -> & Ht). cbn [mbind outcome_bind].
  cbn zeta. destruct (bool_decide (t ∈ pp_picked s) && negb (is_zero sum || pp_sum_flag s)) eqn:Eb.
  - apply andb_true_iff in Eb as [_ Ef%negb_true_iff]. eexists. split; [done|]. split; [|simpl; lia].
    constructor; cbn [pp_picked pp_pivots pp_dist pp_sum_flag]; try done. intros _. apply P3. by apply orb_false_iff in Ef as [_ ?].
  - destruct (pick_ok data n dim nc s t (is_zero sum || pp_sum_flag s)) as (s' & E1 & Hs' & Hl); try done; [|exists s'; split; [exact E1 | split; [done | lia]]].
    intros Ef. split; [by apply orb_false_iff in Ef as [_ ?]|]. rewrite Ef, andb_true_r in Eb. by apply bool_decide_eq_false in Eb.
Qed.

(** [kmeanspp_selecting_pivots] fills every row of the centres from the data;
    they are different rows until the distances sum to zero. *)
Lemma kmeanspp_loop_ok (data : list F) n dim nc : (0 < n)%nat -> (n * dim <= length data)%nat -> forall darts s, pp_ok data n dim nc s ->
  (length (pp_picked s) <= nc)%nat -> exists r, kmeanspp_loop (E:=E) double_ge is_zero data n dim nc darts s = Ok r /\
    forall s', r = Some s' -> pp_ok data n dim nc s' /\ length (pp_picked s') = nc.
Proof.
  intros Hn Hd darts. induction darts as [|dart darts IH]; intros s Hs Hl; cbn [kmeanspp_loop]; case_bool_decide as Hlt.
  - by exists None.
  - exists (Some s). split; [done|]. intros s' [= <-]. split; [done | lia].
  - destruct (kmeanspp_step_ok data n dim nc dart s Hn Hd Hs Hlt) as (s1 & -> & Hs1 & Hl1). cbn [mbind outcome_bind]. apply IH; [done | lia].
  - exists (Some s). split; [done|]. intros s' [= <-]. split; [done | lia].
Qed.

Lemma kmeanspp_pivots_ok draw init darts (data : list F) n dim p nc : (0 < n)%nat -> Z.of_nat n <= 2 ^ 23 -> (n * dim <= length data)%nat ->
  length p = (nc * dim)%nat -> (0 < nc)%nat -> (init < n)%nat ->
  exists r, kmeanspp_selecting_pivots (E:=E) double_ge is_zero draw init darts data n dim p nc = Ok r /\
    forall p', r = Some p' -> length p' = (nc * dim)%nat /\ forall j, (j < nc)%nat -> exists i, (i < n)%nat /\ row_copied data dim i p' j.
Proof.
  intros Hn H23 Hd Hp Hnc Hi. unfold kmeanspp_selecting_pivots. rewrite bool_decide_eq_false_2 by lia.
  destruct (copy_row_ok data dim init p 0) as (p0 & -> & Hl0 & Hr0 & _); [nia | nia|]. cbn [mbind outcome_bind].
  assert (exists d, foldM (fun i l => d ← row_distance data dim i init; Ok (l ++ [d])) (range 0 n) [] = Ok d /\ length d = n) as (d & -> & Hdl).
  { enough (forall k, (k <= n)%nat -> exists d, foldM (fun i l => d ← row_distance data dim i init; Ok (l ++ [d])) (range 0 k) [] = Ok d /\ length d = k) as H by by apply H.
    induction k as [|k IH]; intros Hk; [by exists []|]. destruct IH as (d & E1 & El); [lia|]. rewrite range_S, foldM_app, E1. cbn [mbind outcome_bind foldM].
    rewrite row_distance_ok by nia. eexists. split; [done|]. rewrite length_app. simpl. lia. }
  cbn [mbind outcome_bind]. destruct (kmeanspp_loop_ok data n dim nc Hn Hd darts {| pp_picked := [init]; pp_pivots := p0; pp_dist := d; pp_tmp := 0; pp_sum_flag := false |})
    as (r & -> & Hr); [|simpl; lia|].
  { constructor; cbn [pp_picked pp_pivots pp_dist pp_sum_flag]; [| by intros i ->%list_elem_of_singleton | intros; apply NoDup_singleton | lia].
    by intros j i [-> ->]%list_lookup_singleton_Some. }
  cbn [mbind outcome_bind]. eexists. split; [done|]. intros p' Hp'. destruct r as [s'|]; [|done]. injection Hp' as <-.
  destruct (Hr s' eq_refl) as [[R1 R2 _ [R4 _]] Hl]. split; [done|]. intros j Hj. destruct (lookup_lt_is_Some_2 (pp_picked s') j) as [i Ei]; [lia|].
  exists i. split; [apply R2; by apply (list_elem_of_lookup_2 _ j) | by apply R1].
Qed.
End pivots.

(** ** A run *)

(** A product of matrices and a norm, for the witness. *)
Definition gemm (m n p : nat) (alpha : Word) (A B : list Word) (beta : Word) (C : list Word) : list Word :=
  imap (fun q c => if bool_decide (q < m * n)%nat then
      float_add (float_mul alpha (foldl (fun s l => float_add s (float_mul (A !!! (q / n * p + l)%nat) (B !!! (q mod n * p + l)%nat))) float_zero (range 0 p)))
        (float_mul beta c)
    else c) C.

Definition nrm2 (l : list Word) : Word := encode (SFsqrt 24 128 (decode (foldl (fun s x => float_add s (float_mul x x)) float_zero l))).

Definition four_points : list Word := float_of_nat <$> [0; 2; 8; 12]%nat.

(** Two centres at 0 and 8: the points 0 and 2 go to the first, 8 and 12 to the second. *)
Definition two_centers : lloyds_state := {|
  ll_centers := float_of_nat <$> [0; 8]%nat; ll_docs := [[]; []]; ll_center := replicate 4 9; ll_residual := float_max (F:=Word) |}.

Example lloyds_run :
  (s ← lloyds_iter (E:=spec_float) gemm nrm2 (fun _ l => reverse l) (fun m => replicate m 7) (fun m => replicate m float_zero) four_points 4 1 2
    (float_of_nat <$> [0; 4; 64; 144]%nat) two_centers; Ok (ll_centers s, ll_docs s, ll_center s)) =
  Ok (float_of_nat <$> [1; 10]%nat, [[1; 0]; [3; 2]]%nat, [0; 0; 1; 1]).
Proof. by vm_compute. Qed.

Lemma lloyds_iter_correct_witness : exists s' (sel : list nat),
  lloyds_iter (E:=spec_float) gemm nrm2 (fun _ l => reverse l) (fun m => replicate m 7) (fun m => replicate m float_zero) four_points 4 1 2
    (float_of_nat <$> [0; 4; 64; 144]%nat) two_centers = Ok s' /\ length sel = 4%nat.
Proof.
  destruct (lloyds_iter_correct gemm nrm2 (fun _ l => reverse l) (fun m => replicate m 7) (fun m => replicate m float_zero) four_points 4 1 2
    (float_of_nat <$> [0; 4; 64; 144]%nat) (float_of_nat <$> [0; 64]%nat) two_centers) as (s' & sel & H & Hl & _).
  - constructor.
    + intros. apply length_imap.
    + intros. apply reverse_Permutation.
    + intros. apply length_replicate.
    + intros. apply length_replicate.
    + lia.
    + split; [lia | done].
    + by vm_compute; lia.
    + done.
    + simpl. lia.
  - by vm_compute.
  - intros b Hb. assert (b = 0%nat) as -> by (change (PAR_BLOCK_SIZE 4) with 4%nat in Hb; lia). intros _ i Hi.
    change (Nat.min (PAR_BLOCK_SIZE 4) (4 - 0 * PAR_BLOCK_SIZE 4)) with 4%nat in Hi.
    do 4 (destruct i as [|i]; [vm_compute; by eexists|]). lia.
  - exists s', sel. exact (conj H Hl).
Defined.
