(* ===== verification/EarlyExit.v ===== *)
(** * The early exit of the parallel search

    [SlidingWindow] of [src/include/circular_buffer.h], [mean] and [variance] of
    [src/src/search/para_search.cpp] and the stability test of
    [compute_exact_dists_and_push] there, with the float operations of the
    source behind the class [StabilityOps].

    A [priority_queue] is the list of its elements from the top on (the program
    does not push NaN: distances of finite vectors), and [delayed] the list of
    its keys with their counts.  [top()] of an empty queue is undefined. *)
From Stdlib Require Import SpecFloat.
From S2P Require Import Prelude Neighbor Float32 FloatArith.

(** What the test needs beyond [FloatArith] of [float] ([F]) and [double] ([E]). *)
Class StabilityOps (F E : Type) := {
  dle : E -> E -> bool;
  deq : E -> E -> bool;
  fabs : F -> F;
  fsqrt : F -> F;
  f_infinity : F;
  tau_stable : F;
  epsilon : E;
}.

Section window.
Context {E : Type} `{!FloatArith E}.
Context (le eq : E -> E -> bool).

Record sliding := {
  w : nat;
  lo : list E;
  hi : list E;
  window : list E;
  delayed : list (E * nat);
}.

Definition SlidingWindow (window_size : nat) : sliding :=
  {| w := window_size; lo := []; hi := []; window := []; delayed := [] |}.

(** [priority_queue::push]: [before x y] says that [x] leaves the queue before [y]. *)
Fixpoint push_heap (before : E -> E -> bool) (x : E) (h : list E) : list E :=
  match h with
  | [] => [x]
  | y :: h' => if before x y then x :: h else y :: push_heap before x h'
  end.
Definition push_lo (x : E) (h : list E) : list E := push_heap (fun x y => float_lt y x) x h.
Definition push_hi (x : E) (h : list E) : list E := push_heap float_lt x h.

(** [delayed[x]++] *)
Fixpoint delay (x : E) (d : list (E * nat)) : list (E * nat) :=
  match d with
  | [] => [(x, 1%nat)]
  | (y, n) :: d => if eq x y then (y, S n) :: d else (y, n) :: delay x d
  end.

(** [delayed.count(x)], and [if (--delayed[x] == 0) delayed.erase(x)]. *)
Definition is_delayed (x : E) (d : list (E * nat)) : bool := existsb (fun e => eq x e.1) d.
Fixpoint undelay (x : E) (d : list (E * nat)) : list (E * nat) :=
  match d with
  | [] => []
  | (y, n) :: d => if eq x y then (if bool_decide (n - 1 = 0)%nat then d else (y, n - 1)%nat :: d) else (y, n) :: undelay x d
  end.

Fixpoint prune (h : list E) (d : list (E * nat)) : list E * list (E * nat) :=
  match h with
  | x :: h' => if is_delayed x d then prune h' (undelay x d) else (h, d)
  | [] => ([], d)
  end.

(** The two loops of [balance]. *)
Fixpoint lo_to_hi (l h : list E) : list E * list E :=
  match l with
  | x :: l' => if bool_decide (S (length h) < length l)%nat then lo_to_hi l' (push_hi x h) else (l, h)
  | [] => ([], h)
  end.
Fixpoint hi_to_lo (l h : list E) : list E * list E :=
  match h with
  | x :: h' => if bool_decide (length l < length h)%nat then hi_to_lo (push_lo x l) h' else (l, h)
  | [] => (l, [])
  end.

Definition set_heaps (l h : list E) (d : list (E * nat)) (s : sliding) : sliding :=
  {| w := w s; lo := l; hi := h; window := window s; delayed := d |}.
Definition set_window (v : list E) (s : sliding) : sliding :=
  {| w := w s; lo := lo s; hi := hi s; window := v; delayed := delayed s |}.

Definition balance (s : sliding) : sliding :=
  let '(l, h) := lo_to_hi (lo s) (hi s) in
  let '(l, h) := hi_to_lo l h in
  let '(l, d) := prune l (delayed s) in
  let '(h, d) := prune h d in
  set_heaps l h d s.

Definition top (h : list E) : outcome E := match h with x :: _ => Ok x | [] => Crash end.

Definition push (x : E) (s : sliding) : outcome sliding :=
  let s := set_window (window s ++ [x]) s in
  let below := match lo s with [] => true | t :: _ => le x t end in
  let s := if below then set_heaps (push_lo x (lo s)) (hi s) (delayed s) s
           else set_heaps (lo s) (push_hi x (hi s)) (delayed s) s in
  let s := balance s in
  if bool_decide (w s < length (window s))%nat then
    match window s with
    | [] => Crash
    | old :: v =>
        let s := set_window v s in
        t ← top (lo s);
        let d := delay old (delayed s) in
        if le old t
        then let '(l, d) := prune (lo s) d in Ok (balance (set_heaps l (hi s) d s))
        else let '(h, d) := prune (hi s) d in Ok (balance (set_heaps (lo s) h d s))
    end
  else Ok s.

Definition filled (s : sliding) : bool := bool_decide (w s <= length (window s))%nat.

Definition median (s : sliding) : outcome E :=
  if negb (filled s) then Ok float_zero
  else if Nat.odd (w s) then top (lo s)
  else a ← top (lo s); b ← top (hi s); Ok (float_div (float_add a b) (float_of_nat 2)).
End window.
Arguments sliding _ : clear implicits.

Section stability.
Context {F E : Type} `{!FloatArith F, !FloatArith E, !Widening F E, !StabilityOps F E}.

Definition mean (vals : list F) : F :=
  match vals with
  | [] => float_zero
  | _ => float_div (foldl float_add float_zero vals) (float_of_nat (length vals))
  end.

Definition variance (vals : list F) (mean_val : F) : F :=
  if bool_decide (length vals <= 1)%nat then float_zero
  else
    let accum := foldl (fun a v => let diff := float_sub v mean_val in float_add a (float_mul diff diff)) float_zero vals in
    float_div accum (float_of_nat (length vals - 1)).

(** [recentQ], [prev_median] and [median_history] of a search. *)
Record stability := { recentQ : sliding E; prev_median : F; median_history : list F }.

Definition median_window : nat := 5.

Definition init_stability : stability :=
  {| recentQ := SlidingWindow 10; prev_median := f_infinity; median_history := [] |}.

(** The test after an expansion at distance [d]. *)
Definition push_stability (st : stability) (d : F) : outcome (stability * bool) :=
  q ← push dle deq (widen d) (recentQ st);
  if filled q then
    m ← median q;
    let med : F := narrow m in
    let delta_med : F :=
      narrow (float_div (widen (fabs (float_sub med (prev_median st)))) (float_add (widen (prev_median st)) epsilon)) in
    let hist := median_history st ++ [med] in
    let hist := if bool_decide (median_window < length hist)%nat then drop 1 hist else hist in
    let meanM := mean hist in
    let stdM := fsqrt (variance hist meanM) in
    Ok ({| recentQ := q; prev_median := med; median_history := hist |},
        float_lt delta_med tau_stable && float_lt stdM (float_mul tau_stable meanM))
  else Ok ({| recentQ := q; prev_median := prev_median st; median_history := median_history st |}, false).
End stability.
Arguments stability _ _ : clear implicits.

(** ** Machine floats *)
Definition fold_sign (x : spec_float) : spec_float :=
  match x with
  | S754_zero _ => S754_zero false
  | S754_infinity _ => S754_infinity false
  | S754_nan => S754_nan
  | S754_finite _ m e => S754_finite false m e
  end.

#[global] Instance word_stability : StabilityOps Word spec_float := {|
  dle := SFleb;
  deq := SFeqb;
  fabs := fun x => encode (fold_sign (decode x));
  fsqrt := fun x => encode (SFsqrt prec emax (decode x));
  f_infinity := encode (S754_infinity false);
  tau_stable := to_word 1028443341;
  epsilon := S754_finite false 4722366482869645 (-72);
|}.

(** ** A window that is not full *)
Section short.
Context {E : Type} `{!FloatArith E}.
Context (le eq : E -> E -> bool).

Lemma balance_window s : window (balance eq s) = window s /\ w (balance eq s) = w s.
Proof.
  unfold balance. destruct (lo_to_hi _ _) as [l h]. destruct (hi_to_lo _ _) as [l1 h1].
  destruct (prune _ l1 _) as [l2 d]. by destruct (prune _ h1 _).
Qed.

(** Nothing is deleted before the window is full, and no queue is asked for its
    top. *)
Lemma push_short x s : (length (window s) < w s)%nat ->
  exists s', push le eq x s = Ok s' /\ window s' = window s ++ [x] /\ w s' = w s.
Proof.
  intros H. unfold push. destruct (match lo _ with [] => true | _ => _ end);
    match goal with |- context [balance eq ?s] => destruct (balance_window s) as [E1 E2]; cbn [set_heaps window w set_window] in E1, E2 end;
    rewrite E1, E2; (rewrite bool_decide_eq_false_2; [by eexists | rewrite length_app; simpl; lia]).
Qed.
End short.

Section quiet.
Context {F E : Type} `{!FloatArith F, !FloatArith E, !Widening F E, !StabilityOps F E}.

(** The first nine expansions never stop a search. *)
Lemma push_stability_short (st : stability F E) d : (S (length (window (recentQ st))) < w (recentQ st))%nat ->
  exists st', push_stability st d = Ok (st', false) /\ w (recentQ st') = w (recentQ st) /\
    length (window (recentQ st')) = S (length (window (recentQ st))).
Proof.
  intros H. unfold push_stability. destruct (push_short dle deq (widen d) (recentQ st)) as (q & -> & Ew & Es); [lia|].
  cbn [mbind outcome_bind]. unfold filled. rewrite Ew, Es, bool_decide_eq_false_2 by (rewrite length_app; simpl; lia).
  eexists. split; [done|]. simpl. by rewrite Ew, Es, length_app, Nat.add_1_r.
Qed.
End quiet.

(** ** Lazily deleted values

    [balance] compares the sizes of the queues with their deleted values, so a
    median can be off, and a queue can be empty when its top is asked for. *)
Definition double_of (z : Z) : spec_float := binary_normalize 53 1024 z 0 false.
Definition window_of (l : list Z) : outcome (sliding spec_float) :=
  foldM (fun x s => push SFleb SFeqb (double_of x) s) l (SlidingWindow 10).

(** The last ten are 0, 1, 10, 10, 12, 14, 14, 16, 16, 16: the median is 13. *)
Example median_wrong : (s ← window_of [15; 1; 16; 14; 14; 10; 12; 16; 16; 10; 0]; median s) = Ok (double_of 14).
Proof. by vm_compute. Qed.

Example window_traps :
  (s ← window_of [0; 1; -2; 3; 4; 5; 6; 7; 8; 9; -10; -11; -12; -13; 14; -15; -16; -17; -18; -19; -20; -21; 4; -1; 1; 1; -1; -4;
     -3; 3; 3; 10; 13; 3; 15; 13; 13; 11; 15; 20]; median s) = Crash.
Proof. by vm_compute. Qed.
