(* ===== verification/Pmem.v ===== *)
(** * Persistent memory

    The files of an index are mapped with DAX, so that a store is a store to
    the processor cache; [clwb] starts the write-back of one 64-byte line and
    [sfence] waits for the write-backs its thread has started
    ([LinuxAlignedFileReader::flush_dax] and [barrier_dax] of
    [src/utils/linux_aligned_file_reader.cpp], and [libpmem]'s
    [pmem_memcpy]).  A run is the list of these events in the order in which
    they reach the coherent memory.

    After a crash each cell holds a value it had at some moment of the run, no
    earlier than the last write-back of its line that a fence of the same
    thread has completed.  The moment is chosen for each cell on its own, so
    that data which was not flushed may be lost, kept or torn in any way. *)
From S2P Require Import Prelude Layout.

(** [Super] is the first sector of the graph file, [Graph] the rest. *)
Inductive pm_file := Graph | Super | Tags | Id2loc | Pq.
#[global] Instance pm_file_eq_dec : EqDecision pm_file.
Proof. solve_decision. Defined.

(** The bytes written by one indivisible store: the location table and the
    super block are arrays of aligned 32-bit words. *)
Definition cell_size (f : pm_file) : Z :=
  match f with Super | Id2loc => 4 | _ => 1 end.

Definition cell : Type := pm_file * Z.
Definition CACHE_LINE : Z := 64.
Definition line_of (c : cell) : pm_file * Z := (c.1, c.2 * cell_size c.1 / CACHE_LINE).

(** The threads: one insertion each, and the commit thread. *)
Inductive thread := Inserter (id : Z) | Committer.
#[global] Instance thread_eq_dec : EqDecision thread.
Proof. solve_decision. Defined.

Inductive pm_event :=
| Store (t : thread) (f : pm_file) (off : Z) (vals : list Z)
| Clwb (t : thread) (l : pm_file * Z)
| Sfence (t : thread).

Definition event_thread (e : pm_event) : thread :=
  match e with Store t _ _ _ | Clwb t _ | Sfence t => t end.

Definition pm_mem := cell -> Z.

(** The value a store gives to a cell, if it writes the cell. *)
Definition store_val (e : pm_event) (c : cell) : option Z :=
  match e with
  | Store _ f off vals =>
      if decide (f = c.1) then
        if off <=? c.2 then vals !! Z.to_nat (c.2 - off) else None
      else None
  | _ => None
  end.

Definition apply_event (m : pm_mem) (e : pm_event) : pm_mem :=
  fun c => default (m c) (store_val e c).

(** What a load returns after the run [tr]. *)
Definition coherent (m0 : pm_mem) (tr : list pm_event) : pm_mem := foldl apply_event m0 tr.

Definition is_sfence (t : thread) (e : pm_event) : bool :=
  match e with Sfence t' => bool_decide (t' = t) | _ => false end.

(** The number of events whose effect on line [l] is certainly durable. *)
Fixpoint durable_from (i : nat) (tr : list pm_event) (l : pm_file * Z) : nat :=
  match tr with
  | [] => 0
  | e :: tr =>
      let rest := durable_from (S i) tr l in
      match e with
      | Clwb t l' => if bool_decide (l' = l) && existsb (is_sfence t) tr
                     then Nat.max i rest else rest
      | _ => rest
      end
  end.
Definition durable_upto (tr : list pm_event) (l : pm_file * Z) : nat := durable_from 0 tr l.

(** [img] is a possible content of the media after a crash at the end of [tr]. *)
Definition crash_image (m0 : pm_mem) (tr : list pm_event) (img : pm_mem) : Prop :=
  forall c, exists n : nat, (durable_upto tr (line_of c) <= n <= length tr)%nat /\
    img c = coherent m0 (take n tr) c.

(** ** The flushing primitives *)

(** [flush_dax]: the file offset [p] stands for the mapped address, since
    mappings are page aligned. *)
Definition flush_dax (t : thread) (f : pm_file) (p size : Z) : list pm_event :=
  let flush_num := ROUND_UP size 64 / 64 in
  (fun i : nat => Clwb t (f, (p + Z.of_nat i * 64) / CACHE_LINE)) <$> seq 0 (Z.to_nat flush_num).

Definition barrier_dax (t : thread) : list pm_event := [Sfence t].

(** The loop of [libpmem]'s flush over the lines of a range of [n] cells. *)
Definition pmem_flush (t : thread) (f : pm_file) (off n : Z) : list pm_event :=
  let first := off * cell_size f / CACHE_LINE in
  let last := ((off + n) * cell_size f - 1) / CACHE_LINE in
  (fun i : nat => Clwb t (f, first + Z.of_nat i)) <$> seq 0 (Z.to_nat (last - first + 1)).

Inductive pmem_flags := PMEM_TRANSFER_CACHE | PMEM_TRANSFER | PMEM_PERSIST.

(** [pmem_memcpy] with the flag sets the program uses, and
    [pmem_memcpy_persist]. *)
Definition pmem_memcpy (t : thread) (f : pm_file) (off : Z) (vals : list Z) (flags : pmem_flags)
  : list pm_event :=
  Store t f off vals ::
  match flags with
  | PMEM_TRANSFER_CACHE => []
  | PMEM_TRANSFER => pmem_flush t f off (Z.of_nat (length vals))
  | PMEM_PERSIST => pmem_flush t f off (Z.of_nat (length vals)) ++ [Sfence t]
  end.

(** ** What a crash can and cannot lose *)

Lemma coherent_app m0 tr1 tr2 : coherent m0 (tr1 ++ tr2) = coherent (coherent m0 tr1) tr2.
Proof. unfold coherent. apply foldl_app. Qed.

(** The value of a cell is that of the last store that wrote it. *)
Lemma coherent_last m0 tr c :
  (coherent m0 tr c = m0 c /\ Forall (fun e => store_val e c = None) tr) \/
  exists tr1 e tr2 v, tr = tr1 ++ e :: tr2 /\ store_val e c = Some v /\ coherent m0 tr c = v /\
    Forall (fun e => store_val e c = None) tr2.
Proof.
  induction tr as [|e tr IH] using rev_ind; [left; split; [done | constructor]|].
  rewrite coherent_app. simpl. unfold apply_event.
  destruct (store_val e c) as [v|] eqn:Hv; simpl.
  - right. exists tr, e, [], v. split_and!; [done | done | done | constructor].
  - destruct IH as [[? ?]|(tr1 & e' & tr2 & v & -> & ? & ? & ?)].
    + left. split; [done|]. by apply Forall_app; split; [|constructor].
    + right. exists tr1, e', (tr2 ++ [e]), v. rewrite <- app_assoc.
      split_and!; try done. by apply Forall_app; split; [|constructor].
Qed.

(** A cell to which all stores give one value has it after the first store. *)
Lemma coherent_const m0 tr c v :
  Forall (fun e => store_val e c = None \/ store_val e c = Some v) tr ->
  Exists (fun e => store_val e c = Some v) tr -> coherent m0 tr c = v.
Proof.
  intros Hall Hex. destruct (coherent_last m0 tr c) as [[_ Hno]|(a & e & b & w & -> & He & -> & _)].
  - exfalso. rewrite Exists_exists in Hex. destruct Hex as (e & Hin & He).
    rewrite Forall_forall in Hno. rewrite Hno in He by done. discriminate.
  - rewrite Forall_forall in Hall. destruct (Hall e) as [H|H]; [set_solver | |]; congruence.
Qed.

Lemma durable_from_ge l t c b : forall (a : list pm_event) i,
  existsb (is_sfence t) b = true -> l = line_of c ->
  (i + length a <= durable_from i (a ++ Clwb t l :: b) l)%nat.
Proof.
  induction a as [|e a IH]; intros i Hb Hl; simpl.
  - rewrite bool_decide_eq_true_2, Hb by done. simpl. lia.
  - specialize (IH (S i) Hb Hl). destruct e; simpl; try lia.
    case_match; lia.
Qed.

Lemma existsb_sfence t tr : Sfence t ∈ tr -> existsb (is_sfence t) tr = true.
Proof.
  intros H. apply existsb_exists. exists (Sfence t). split; [by apply list_elem_of_In|].
  simpl. by apply bool_decide_eq_true_2.
Qed.

(** [flushed t c tr]: the run contains a write-back of the line of [c] and,
    later, a fence of the same thread. *)
Definition flushed (c : cell) (tr : list pm_event) : Prop :=
  exists t a b, tr = a ++ Clwb t (line_of c) :: b /\ Sfence t ∈ b.

Lemma flushed_app_r c tr1 tr2 : flushed c tr1 -> flushed c (tr1 ++ tr2).
Proof.
  intros (t & a & b & -> & H). exists t, a, (b ++ tr2). rewrite <- app_assoc. split; [done|].
  set_solver.
Qed.

Lemma flushed_app_l c tr1 tr2 : flushed c tr2 -> flushed c (tr1 ++ tr2).
Proof.
  intros (t & a & b & -> & H). exists t, (tr1 ++ a), b. by rewrite <- app_assoc.
Qed.

Lemma flushed_clwb t c l1 l2 l3 :
  Clwb t (line_of c) ∈ l1 -> flushed c (l1 ++ l2 ++ Sfence t :: l3).
Proof.
  intros Hin. apply list_elem_of_split in Hin as (x & y & ->).
  exists t, x, (y ++ l2 ++ Sfence t :: l3). rewrite <- !app_assoc. split; [done|]. set_solver.
Qed.

(** What was stored before a completed write-back is in every crash image,
    unless a later store replaced it. *)
Lemma crash_image_flushed m0 tr1 tr2 img c :
  crash_image m0 (tr1 ++ tr2) img -> flushed c tr2 ->
  exists p q, tr2 = p ++ q /\ img c = coherent m0 (tr1 ++ p) c.
Proof.
  intros Himg (t & a & b & -> & Hf). destruct (Himg c) as (n & [Hn1 Hn2] & ->).
  assert (length tr1 <= n)%nat as Hn.
  { pose proof (durable_from_ge (line_of c) t c b (tr1 ++ a) 0 (existsb_sfence _ _ Hf) eq_refl).
    unfold durable_upto in Hn1. rewrite app_assoc in Hn1. rewrite length_app in *. lia. }
  exists (take (n - length tr1) (a ++ Clwb t (line_of c) :: b)),
         (drop (n - length tr1) (a ++ Clwb t (line_of c) :: b)).
  rewrite take_drop. split; [done|]. rewrite take_app. f_equal. f_equal.
  by apply take_ge.
Qed.

Lemma crash_image_cut m0 tr img c :
  crash_image m0 tr img -> exists p q, tr = p ++ q /\ img c = coherent m0 p c.
Proof.
  intros Himg. destruct (Himg c) as (n & _ & ->). exists (take n tr), (drop n tr).
  by rewrite take_drop.
Qed.

(** A cell all of whose stores agree is durable once a store of it has been
    written back. *)
Lemma crash_image_const m0 tr1 tr2 img c v :
  crash_image m0 (tr1 ++ tr2) img ->
  Forall (fun e => store_val e c = None \/ store_val e c = Some v) (tr1 ++ tr2) ->
  Exists (fun e => store_val e c = Some v) tr1 -> flushed c tr2 -> img c = v.
Proof.
  intros Himg Hall Hex Hf. destruct (crash_image_flushed _ _ _ _ _ Himg Hf) as (p & q & -> & ->).
  apply coherent_const.
  - rewrite app_assoc in Hall. by apply Forall_app in Hall as [? _].
  - apply Exists_app. by left.
Qed.

(** Lines of a range of cells are written back by [pmem_flush]. *)
Lemma pmem_flush_covers t f off n i :
  0 <= i < n -> Clwb t (line_of (f, off + i)) ∈ pmem_flush t f off n.
Proof.
  intros Hi. unfold pmem_flush, line_of, CACHE_LINE; simpl.
  set (k := cell_size f). assert (0 < k) by (subst k; destruct f; simpl; lia).
  set (lo := off * k / 64). set (x := (off + i) * k / 64).
  assert (lo <= x) by (apply Z.div_le_mono; nia).
  assert (x <= ((off + n) * k - 1) / 64) by (apply Z.div_le_mono; nia).
  apply list_elem_of_fmap. exists (Z.to_nat (x - lo)). split.
  - do 2 f_equal. lia.
  - apply elem_of_seq. lia.
Qed.

(** The lines that [flush_dax] writes back. *)
Definition flush_dax_covers (p size b : Z) : bool :=
  (p / CACHE_LINE <=? b / CACHE_LINE) &&
  (b / CACHE_LINE <? p / CACHE_LINE + ROUND_UP size 64 / 64).

Lemma flush_dax_line p i : (p + i * 64) / CACHE_LINE = p / CACHE_LINE + i.
Proof. unfold CACHE_LINE. by rewrite Z.div_add by lia. Qed.

Lemma flush_dax_spec t p size b :
  Clwb t (line_of (Graph, b)) ∈ flush_dax t Graph p size <-> flush_dax_covers p size b = true.
Proof.
  unfold flush_dax, flush_dax_covers, line_of; simpl. rewrite Z.mul_1_r.
  rewrite andb_true_iff, Z.leb_le, Z.ltb_lt. setoid_rewrite list_elem_of_fmap.
  set (k := ROUND_UP size 64 / 64). split.
  - intros (i & Heq & Hi). apply elem_of_seq in Hi. injection Heq as Heq.
    rewrite flush_dax_line in Heq. lia.
  - intros [H1 H2]. exists (Z.to_nat (b / CACHE_LINE - p / CACHE_LINE)). split.
    + rewrite flush_dax_line. do 2 f_equal. lia.
    + apply elem_of_seq. lia.
Qed.

Lemma ROUND_UP_64 size : 0 < size -> ROUND_UP size 64 / 64 = (size + 63) / 64.
Proof.
  intros H. unfold ROUND_UP, DIV_ROUND_UP. destruct (Z.eqb_spec size 0); [lia|].
  rewrite Z.div_mul by lia. pose proof (Z.div_mod size 64 ltac:(lia)).
  pose proof (Z.mod_pos_bound size 64 ltac:(lia)).
  destruct (Z.eqb_spec (size mod 64) 0) as [E|E].
  - apply (Z.div_unique _ _ _ 63); lia.
  - apply (Z.div_unique _ _ _ (size mod 64 - 1)); lia.
Qed.

(** [flush_dax p size] writes back the [len] bytes at [p] exactly when they end
    in the lines counted from the line of [p]. *)
Lemma flush_dax_extent p size len :
  0 <= p -> 0 < size -> 0 < len ->
  (forall b, p <= b < p + len -> flush_dax_covers p size b = true) <->
  p mod 64 + len <= 64 * ((size + 63) / 64).
Proof.
  intros Hp Hs Hl. unfold flush_dax_covers, CACHE_LINE. rewrite ROUND_UP_64 by done.
  set (k := (size + 63) / 64).
  pose proof (Z.div_mod p 64 ltac:(lia)). pose proof (Z.mod_pos_bound p 64 ltac:(lia)).
  split.
  - intros Hall. specialize (Hall (p + len - 1) ltac:(lia)). zbool.
    pose proof (Z.div_mod (p + len - 1) 64 ltac:(lia)).
    pose proof (Z.mod_pos_bound (p + len - 1) 64 ltac:(lia)). nia.
  - intros Hk b Hb. apply andb_true_iff. rewrite Z.leb_le, Z.ltb_lt. split.
    + apply Z.div_le_mono; lia.
    + apply Z.div_lt_upper_bound; lia.
Qed.

Lemma durable_from_none l : forall tr i,
  (forall t, Clwb t l ∉ tr) -> durable_from i tr l = 0%nat.
Proof.
  induction tr as [|e tr IH]; intros i H; simpl; [done|].
  rewrite (IH (S i)) by (intros t Ht; apply (H t); set_solver).
  destruct e as [| t l' |]; [done | | done].
  rewrite bool_decide_eq_false_2; [done|]. intros ->. apply (H t). set_solver.
Qed.

Lemma durable_upto_le tr l : (durable_upto tr l <= length tr)%nat.
Proof.
  unfold durable_upto. enough (forall i, (durable_from i tr l <= i + length tr)%nat)
    as Hle by apply (Hle 0%nat).
  induction tr as [|e tr IH]; intros i; simpl; [lia|]. specialize (IH (S i)).
  destruct e; [lia | | lia]. case_match; lia.
Qed.

(** Everything may have reached the media. *)
Lemma crash_image_all m0 tr : crash_image m0 tr (coherent m0 tr).
Proof.
  intros c. exists (length tr). rewrite take_ge by done. split; [|done].
  split; [apply durable_upto_le | done].
Qed.

(** A line that was never written back may have kept its initial content. *)
Lemma crash_image_lost m0 tr c :
  (forall t, Clwb t (line_of c) ∉ tr) ->
  crash_image m0 tr (fun c' => if decide (c' = c) then m0 c else coherent m0 tr c').
Proof.
  intros Hno c'. destruct (decide (c' = c)) as [->|].
  - exists 0%nat. unfold durable_upto. rewrite durable_from_none by done. split; [lia | done].
  - apply crash_image_all.
Qed.

Lemma store_val_at t f off vals i v :
  vals !! i = Some v -> store_val (Store t f off vals) (f, off + Z.of_nat i) = Some v.
Proof.
  intros H. simpl. destruct (decide (f = f)); [|done].
  destruct (Z.leb_spec off (off + Z.of_nat i)); [|lia].
  replace (Z.to_nat (off + Z.of_nat i - off)) with i by lia. done.
Qed.

Lemma store_val_inv t f off vals c v :
  store_val (Store t f off vals) c = Some v ->
  c.1 = f /\ off <= c.2 < off + Z.of_nat (length vals) /\ vals !! Z.to_nat (c.2 - off) = Some v.
Proof.
  simpl. destruct (decide (f = c.1)); [|done]. destruct (Z.leb_spec off c.2); [|done].
  intros Hv. pose proof (lookup_lt_Some _ _ _ Hv). split_and!; [done | lia | lia | done].
Qed.

Lemma flush_dax_no_store t p size e c : e ∈ flush_dax t Graph p size -> store_val e c = None.
Proof. intros H. by apply list_elem_of_fmap in H as (? & -> & _). Qed.

Lemma pmem_memcpy_store t f off vals fl e c w :
  e ∈ pmem_memcpy t f off vals fl -> store_val e c = Some w -> e = Store t f off vals.
Proof.
  unfold pmem_memcpy. intros [->|He]%elem_of_cons; [done|]. intros Hw. exfalso.
  assert (e ∈ pmem_flush t f off (Z.of_nat (length vals)) ++ [Sfence t]) as H
    by (destruct fl; set_solver).
  apply elem_of_app in H as [H|H].
  - apply list_elem_of_fmap in H as (? & -> & _). done.
  - apply list_elem_of_singleton in H as ->. done.
Qed.

Lemma barrier_no_store t e c : e ∈ barrier_dax t -> store_val e c = None.
Proof. intros H. by apply list_elem_of_singleton in H as ->. Qed.

(** [flush_dax] followed by the barrier makes the bytes stored at [p]
    durable in every crash image if and only if they end within the
    [ceil(size/64)] lines counted from the line of [p]; the condition fails for
    an unaligned [p] even when [size] is the number of bytes stored. *)
Theorem flush_dax_durable_iff t m0 p size vals :
  0 <= p -> 0 < size -> (0 < length vals)%nat ->
  (forall i v, vals !! i = Some v -> m0 (Graph, p + Z.of_nat i) <> v) ->
  (forall img, crash_image m0 (Store t Graph p vals :: flush_dax t Graph p size ++ barrier_dax t) img ->
     forall i v, vals !! i = Some v -> img (Graph, p + Z.of_nat i) = v) <->
  p mod 64 + Z.of_nat (length vals) <= 64 * ((size + 63) / 64).
Proof.
  intros Hp Hs Hl Hdiff. rewrite <- (flush_dax_extent p size) by lia. split.
  - intros Hall b Hb. apply not_false_iff_true. intros Hc.
    destruct (lookup_lt_is_Some_2 vals (Z.to_nat (b - p)) ltac:(lia)) as [v Hv].
    assert (p + Z.of_nat (Z.to_nat (b - p)) = b) as Eb by lia.
    assert (forall t', Clwb t' (line_of (Graph, b)) ∉
      Store t Graph p vals :: flush_dax t Graph p size ++ barrier_dax t) as Hno.
    { intros t' Hin. apply elem_of_cons in Hin as [?|Hin]; [done|].
      apply elem_of_app in Hin as [Hin|Hin]; [|unfold barrier_dax in Hin; set_solver].
      assert (t' = t) as -> by (apply list_elem_of_fmap in Hin as (? & [= <- _] & _); done).
      apply flush_dax_spec in Hin. congruence. }
    specialize (Hall _ (crash_image_lost m0 _ _ Hno) _ _ Hv). simpl in Hall. rewrite Eb in Hall.
    rewrite decide_True in Hall by done. apply (Hdiff _ _ Hv). by rewrite Eb.
  - intros Hcov img Himg i v Hv. pose proof (lookup_lt_Some _ _ _ Hv).
    apply (crash_image_const m0 [Store t Graph p vals] (flush_dax t Graph p size ++ barrier_dax t) img);
      [done | | |].
    + apply Forall_cons. split; [right; by apply store_val_at|].
      apply Forall_app; split; [|by repeat constructor; left].
      apply Forall_fmap, Forall_true. by left.
    + constructor. by apply store_val_at.
    + specialize (Hcov (p + Z.of_nat i) ltac:(lia)). apply (flush_dax_spec t) in Hcov.
      apply list_elem_of_split in Hcov as (a & b & ->). exists t, a, (b ++ barrier_dax t).
      rewrite <- app_assoc. split; [done|]. unfold barrier_dax. set_solver.
Qed.

Lemma flush_dax_durable_witness :
  (forall img, crash_image (fun _ => 0)
      (Store Committer Graph 4100 (replicate 64 1) :: flush_dax Committer Graph 4100 64 ++ barrier_dax Committer) img ->
     forall i v, replicate 64 1 !! i = Some v -> img (Graph, 4100 + Z.of_nat i) = v) <->
  4100 mod 64 + Z.of_nat (length (replicate 64 1)) <= 64 * ((64 + 63) / 64).
Proof.
  apply (flush_dax_durable_iff Committer (fun _ => 0) 4100 64 (replicate 64 1)); [lia | lia | simpl; lia |].
  intros i v Hv. apply lookup_replicate in Hv as [-> _]. lia.
Defined.
