(* ===== verification/Node.v ===== *)
(** * Graph nodes in the graph file

    A node occupies one slot: the coordinates, the number of neighbours and
    the neighbour identifiers, the integers little-endian
    ([DiskNode] of [src/ssd_index.cpp], [offset_to_node_nhood] of
    [include/ssd_index.h]).  [disk_node] is the view a reader has of the bytes
    of a slot; [node_bytes] is what the insertion path stores there. *)
From S2P Require Import Prelude Layout.

Definition le32 (x : Z) : list Z :=
  [x mod 256; x / 256 mod 256; x / 65536 mod 256; x / 16777216 mod 256].

Definition of_le32 (b0 b1 b2 b3 : Z) : Z := b0 + 256 * b1 + 65536 * b2 + 16777216 * b3.

Lemma of_le32_le32 x : 0 <= x < 2 ^ 32 ->
  of_le32 (x mod 256) (x / 256 mod 256) (x / 65536 mod 256) (x / 16777216 mod 256) = x.
Proof.
  intros H. unfold of_le32.
  pose proof (Z.div_mod x 256 ltac:(lia)).
  pose proof (Z.div_mod (x / 256) 256 ltac:(lia)) as H1. rewrite Z.div_div in H1 by lia.
  pose proof (Z.div_mod (x / 65536) 256 ltac:(lia)) as H2. rewrite Z.div_div in H2 by lia.
  pose proof (Z.div_lt_upper_bound x 16777216 256 ltac:(lia) ltac:(lia)).
  pose proof (Z.div_pos x 16777216 ltac:(lia) ltac:(lia)).
  rewrite (Z.mod_small (x / 16777216)) by lia.
  change (256 * 256) with 65536 in *. change (65536 * 256) with 16777216 in *. lia.
Qed.

Record node := { coords : list Z; nbrs : list Z }.

(** The neighbour part: count, then identifiers. *)
Definition nhood_bytes (ids : list Z) : list Z :=
  le32 (u32 (Z.of_nat (length ids))) ++ (ids ≫= le32).

Definition node_bytes (n : node) : list Z := coords n ++ nhood_bytes (nbrs n).

(** The view of the slot at byte [off] of a file with content [m]. *)
Definition read_u32 (m : Z -> Z) (off : Z) : Z :=
  of_le32 (m off) (m (off + 1)) (m (off + 2)) (m (off + 3)).

Definition disk_node (g : geometry) (m : Z -> Z) (off : Z) : node :=
  let nh := off + offset_to_node_nhood g in
  {| coords := (fun i : nat => m (off + Z.of_nat i)) <$> seq 0 (Z.to_nat (offset_to_node_nhood g));
     nbrs := (fun i : nat => read_u32 m (nh + 4 + 4 * Z.of_nat i)) <$>
             seq 0 (Z.to_nat (read_u32 m nh)) |}.

(** A node that fits its slot. *)
Definition node_fits (g : geometry) (n : node) : Prop :=
  Z.of_nat (length (coords n)) = offset_to_node_nhood g /\
  offset_to_node_nhood g + 4 + 4 * Z.of_nat (length (nbrs n)) <= max_node_len g /\
  Z.of_nat (length (nbrs n)) < 2 ^ 32 /\
  Forall (fun id => 0 <= id < 2 ^ 32) (nbrs n).

Lemma length_bind_le32 ids : length (ids ≫= le32) = (4 * length ids)%nat.
Proof.
  induction ids as [|x ids IH]; [done|]. cbn [mbind list_bind]. rewrite length_app, IH. simpl. lia.
Qed.

Lemma length_node_bytes n :
  length (node_bytes n) = (length (coords n) + (4 + 4 * length (nbrs n)))%nat.
Proof. unfold node_bytes, nhood_bytes. by rewrite !length_app, length_bind_le32. Qed.

Lemma bind_le32_lookup ids i id k :
  ids !! i = Some id -> (k < 4)%nat -> (ids ≫= le32) !! (4 * i + k)%nat = le32 id !! k.
Proof.
  revert i. induction ids as [|x ids IH]; intros [|i] Hi Hk; simpl in Hi; try done.
  - injection Hi as ->. cbn [mbind list_bind]. by rewrite lookup_app_l by (simpl; lia).
  - cbn [mbind list_bind]. rewrite lookup_app_r by (simpl; lia). rewrite <- (IH i) by done.
    f_equal. simpl. lia.
Qed.

(** A word stored in the file is read back. *)
Lemma read_u32_le32 m off x :
  0 <= x < 2 ^ 32 ->
  (forall (k : nat) b, le32 x !! k = Some b -> m (off + Z.of_nat k) = b) -> read_u32 m off = x.
Proof.
  intros Hx Hm. unfold read_u32.
  pose proof (Hm 0%nat _ eq_refl) as H0. pose proof (Hm 1%nat _ eq_refl) as H1.
  pose proof (Hm 2%nat _ eq_refl) as H2. pose proof (Hm 3%nat _ eq_refl) as H3.
  change (Z.of_nat 0) with 0 in H0. change (Z.of_nat 1) with 1 in H1.
  change (Z.of_nat 2) with 2 in H2. change (Z.of_nat 3) with 3 in H3.
  rewrite Z.add_0_r in H0. rewrite H0, H1, H2, H3.
  by apply of_le32_le32.
Qed.

Section node_roundtrip.
Context (g : geometry) (n : node) (m : Z -> Z) (off : Z).
Context (Hn : node_fits g n).
Context (Hm : forall (i : nat) b, node_bytes n !! i = Some b -> m (off + Z.of_nat i) = b).
Abbreviation nh := (offset_to_node_nhood g).

Lemma stored_nhood i b : nhood_bytes (nbrs n) !! i = Some b -> m (off + nh + Z.of_nat i) = b.
Proof.
  intros Hb. destruct Hn as (Hc & _). rewrite <- (Hm (length (coords n) + i) b).
  - f_equal. lia.
  - unfold node_bytes. rewrite lookup_app_r by lia.
    by replace (length (coords n) + i - length (coords n))%nat with i by lia.
Qed.

Lemma stored_count : read_u32 m (off + nh) = Z.of_nat (length (nbrs n)).
Proof.
  destruct Hn as (_ & _ & Hlen & _). apply read_u32_le32; [lia|].
  intros k b Hk. apply stored_nhood. unfold nhood_bytes.
  rewrite u32_small by lia. rewrite lookup_app_l; [done|].
  apply lookup_lt_Some in Hk. done.
Qed.

Lemma stored_id i id : nbrs n !! i = Some id -> read_u32 m (off + nh + 4 + 4 * Z.of_nat i) = id.
Proof.
  intros Hi. destruct Hn as (_ & _ & _ & Hids). rewrite Forall_forall in Hids.
  apply read_u32_le32; [apply Hids; by eapply list_elem_of_lookup_2|].
  intros k b Hk. pose proof (lookup_lt_Some _ _ _ Hk) as Hk4. cbn in Hk4.
  replace (off + nh + 4 + 4 * Z.of_nat i + Z.of_nat k)
    with (off + nh + Z.of_nat (4 + (4 * i + k))) by lia.
  apply stored_nhood. unfold nhood_bytes. rewrite lookup_app_r by (cbn; lia).
  change (length (le32 (u32 (Z.of_nat (length (nbrs n)))))) with 4%nat.
  replace (4 + (4 * i + k) - 4)%nat with (4 * i + k)%nat by lia.
  rewrite <- Hk. by apply bind_le32_lookup.
Qed.

(** A reader sees the node whose bytes the slot holds. *)
Lemma disk_node_bytes : disk_node g m off = n.
Proof.
  destruct Hn as (Hc & _). unfold disk_node. rewrite stored_count, Nat2Z.id.
  pose proof stored_id as Hsid. destruct n as [cs ids]; simpl in *. f_equal; apply list_eq; intros i; rewrite list_lookup_fmap.
  - destruct (decide (i < length cs)%nat) as [Hi|Hi].
    + rewrite lookup_seq_lt by lia. cbn [fmap option_fmap option_map].
      destruct (lookup_lt_is_Some_2 cs i Hi) as [b Hb]. rewrite Hb. f_equal. apply Hm.
      unfold node_bytes; simpl. by rewrite lookup_app_l.
    + rewrite lookup_seq_ge, lookup_ge_None_2 by lia. done.
  - destruct (decide (i < length ids)%nat) as [Hi|Hi].
    + rewrite lookup_seq_lt by lia. cbn [fmap option_fmap option_map].
      destruct (lookup_lt_is_Some_2 ids i Hi) as [id Hid]. rewrite Hid. f_equal.
      by apply Hsid.
    + rewrite lookup_seq_ge, lookup_ge_None_2 by lia. done.
Qed.
End node_roundtrip.

(** ** Stores in a mapped file *)
(** [memcpy] to the mapped file. *)
Definition store (off : Z) (bytes : list Z) (m : Z -> Z) : Z -> Z :=
  fun a => if (off <=? a) && (a <? off + Z.of_nat (length bytes)) then bytes !!! Z.to_nat (a - off) else m a.

(** Count, coordinates and neighbours of the new version of a node. *)
Definition write_node (g : geometry) (off : Z) (nd : node) (m : Z -> Z) : Z -> Z :=
  let nh := off + offset_to_node_nhood g in
  store (nh + 4) (nbrs nd ≫= le32)
    (store off (coords nd) (store nh (le32 (u32 (Z.of_nat (length (nbrs nd))))) m)).

Lemma store_in off bs m (i : nat) b : bs !! i = Some b -> store off bs m (off + Z.of_nat i) = b.
Proof.
  intros Hb. pose proof (lookup_lt_Some _ _ _ Hb). unfold store.
  destruct (Z.leb_spec off (off + Z.of_nat i)); [|lia].
  destruct (Z.ltb_spec (off + Z.of_nat i) (off + Z.of_nat (length bs))); [|lia]. simpl.
  replace (Z.to_nat (off + Z.of_nat i - off)) with i by lia. by apply list_lookup_total_correct.
Qed.

Lemma store_out off bs m a : a < off \/ off + Z.of_nat (length bs) <= a -> store off bs m a = m a.
Proof.
  intros H. unfold store. destruct (Z.leb_spec off a); [|done].
  destruct (Z.ltb_spec a (off + Z.of_nat (length bs))); [lia | done].
Qed.

Lemma write_node_out g off nd m a : node_fits g nd -> a < off \/ off + max_node_len g <= a ->
  write_node g off nd m a = m a.
Proof.
  intros (Hc & Hl & _) Ha. unfold write_node.
  pose proof (u64_range (data_dim g * sizeof_T g)). unfold offset_to_node_nhood in *.
  rewrite !store_out; [done | | |]; rewrite ?length_bind_le32; simpl; lia.
Qed.

(** The new version is read back. *)
Lemma write_node_read g off nd m : node_fits g nd -> disk_node g (write_node g off nd m) off = nd.
Proof.
  intros Hf. pose proof Hf as (Hc & Hl & _). apply disk_node_bytes; [done|].
  intros i b. unfold node_bytes, nhood_bytes.
  pose proof (u64_range (data_dim g * sizeof_T g)). unfold write_node, offset_to_node_nhood in *.
  set (nh := u64 (data_dim g * sizeof_T g)) in *. set (cnt := le32 _). rewrite !lookup_app_Some.
  intros [Hb|(Hi & [Hb|(Hi2 & Hb)])].
  - pose proof (lookup_lt_Some _ _ _ Hb). rewrite store_out by lia. by apply store_in.
  - pose proof (lookup_lt_Some _ _ _ Hb) as Hlt. change (length cnt) with 4%nat in Hlt.
    rewrite !store_out by lia.
    replace (off + Z.of_nat i) with (off + nh + Z.of_nat (i - length (coords nd))) by lia. by apply store_in.
  - change (length cnt) with 4%nat in *.
    replace (off + Z.of_nat i) with (off + nh + 4 + Z.of_nat (i - length (coords nd) - 4)) by lia.
    by apply store_in.
Qed.

(** A reader of equal bytes, possibly at another address, sees the same node. *)
Lemma disk_node_move g m1 m2 o1 o2 : node_fits g (disk_node g m1 o1) ->
  (forall k, 0 <= k < max_node_len g -> m1 (o1 + k) = m2 (o2 + k)) -> disk_node g m2 o2 = disk_node g m1 o1.
Proof.
  intros (Hc & Hl & _) Hm. unfold disk_node in *. simpl in *. rewrite !length_fmap, !length_seq in *.
  pose proof (u64_range (data_dim g * sizeof_T g)). unfold offset_to_node_nhood in *.
  set (nh := u64 (data_dim g * sizeof_T g)) in *.
  assert (Hw : forall k, 0 <= k -> k + 4 <= max_node_len g -> read_u32 m2 (o2 + k) = read_u32 m1 (o1 + k)).
  { intros k H0 H4. unfold read_u32. rewrite <- !Z.add_assoc, !Hm by lia. done. }
  rewrite Hw by lia. f_equal; apply list_fmap_ext; intros i j Hj.
  - apply lookup_seq in Hj as [-> Hj]. symmetry. apply Hm. lia.
  - apply lookup_seq in Hj as [-> Hj]. specialize (Hw (nh + 4 + 4 * Z.of_nat (0 + i))).
    rewrite !Z.add_assoc in Hw. apply Hw; lia.
Qed.

Lemma disk_node_eq g m1 m2 off : (forall a, m1 a = m2 a) -> disk_node g m1 off = disk_node g m2 off.
Proof.
  intros H. unfold disk_node. assert (forall a, read_u32 m1 a = read_u32 m2 a) as Hw by (intros a; unfold read_u32; by rewrite !H).
  rewrite Hw. f_equal; apply list_fmap_ext; intros i j _; auto.
Qed.

(** A reader of another slot sees no difference. *)
Lemma disk_node_ext g m1 m2 off : node_fits g (disk_node g m1 off) ->
  (forall a, off <= a < off + max_node_len g -> m1 a = m2 a) -> disk_node g m2 off = disk_node g m1 off.
Proof. intros Hf Hm. apply disk_node_move; [done|]. intros k Hk. apply Hm. lia. Qed.

(** A write behaves the same at another address of another memory. *)
Lemma store_shift o1 o2 c bs m1 m2 k : m1 (o1 + k) = m2 (o2 + k) ->
  store (o1 + c) bs m1 (o1 + k) = store (o2 + c) bs m2 (o2 + k).
Proof.
  intros H. unfold store. replace (o1 + c <=? o1 + k) with (o2 + c <=? o2 + k) by lia.
  replace (o1 + k <? o1 + c + Z.of_nat (length bs)) with (o2 + k <? o2 + c + Z.of_nat (length bs)) by lia.
  replace (o1 + k - (o1 + c)) with (o2 + k - (o2 + c)) by lia. by rewrite H.
Qed.

Lemma write_node_shift g o1 o2 nd m1 m2 k : m1 (o1 + k) = m2 (o2 + k) ->
  write_node g o1 nd m1 (o1 + k) = write_node g o2 nd m2 (o2 + k).
Proof.
  intros H. unfold write_node. rewrite <- !Z.add_assoc. apply store_shift.
  rewrite <- (Z.add_0_r o1) at 1. rewrite <- (Z.add_0_r o2) at 1. apply store_shift. by apply store_shift.
Qed.

(** A node that fits its slot, with at most [range] different neighbours. *)
Definition node_good (g : geometry) (range : nat) (nd : node) : Prop :=
  node_fits g nd /\ NoDup (nbrs nd) /\ (length (nbrs nd) <= range)%nat.

Lemma slots_disjoint g l1 l2 a : geometry_wf g -> loc_ok l1 -> loc_ok l2 -> l1 <> l2 ->
  u_loc_offset g l1 <= a < u_loc_offset g l1 + max_node_len g -> a < u_loc_offset g l2 \/ u_loc_offset g l2 + max_node_len g <= a.
Proof.
  intros Hg H1 H2 Hne Ha. destruct (Z.lt_total l1 l2) as [H|[H|H]]; [|done|].
  - pose proof (node_ranges_disjoint g Hg l1 l2 H1 H2 H). lia.
  - pose proof (node_ranges_disjoint g Hg l2 l1 H2 H1 H). lia.
Qed.

