(* ===== verification/Versions.v ===== *)
(** * New versions of graph nodes

    Both the insertion ([src/update/direct_insert.cpp]) and the recovery loop
    ([src/ssd_index.cpp]) change a node by writing a new version of it to a
    location that nobody refers to.  [new_version] is this step on a mapped
    file, for any rule that gives the new neighbour list; [graph_of] is the
    graph that the location map and a file represent. *)
From S2P Require Import Prelude Cuckoo Layout PageAlloc Mapping Node.
Import Cuckoo.

Section versions.
Context (g : geometry).
Abbreviation off := (u_loc_offset g).

(** The node that each known identifier has. *)
Definition graph_of (st : map_state) (file : Z -> Z) : gmap Z node :=
  (fun loc => disk_node g file (off loc)) <$> id2loc_ st.

Definition new_version (st : map_state) (f : Z -> list Z -> outcome (list Z)) (nl : Z * Z) (m : Z -> Z)
  : outcome (Z -> Z) :=
  let '(id, new_loc) := nl in
  loc ← id2loc st id;
  let old := disk_node g m (off loc) in
  nhood ← f id (nbrs old);
  Ok (write_node g (off new_loc) {| coords := coords old; nbrs := nhood |} m).

(** [m'] has at [l] the version of [j] that follows the one of [m]. *)
Definition version_at (st : map_state) (f : Z -> list Z -> outcome (list Z)) (m m' : Z -> Z) (j l : Z) : Prop :=
  exists lj r, id2loc_ st !! j = Some lj /\ f j (nbrs (disk_node g m (off lj))) = Ok r /\
    disk_node g m' (off l) = {| coords := coords (disk_node g m (off lj)); nbrs := r |}.

(** What has to hold of an identifier whose version is replaced. *)
Definition replaceable (st : map_state) (f : Z -> list Z -> outcome (list Z)) (locs : list Z) (m : Z -> Z) (j : Z) : Prop :=
  exists lj r, id2loc_ st !! j = Some lj /\ loc_ok lj /\ lj ∉ locs /\
    node_fits g (disk_node g m (off lj)) /\ f j (nbrs (disk_node g m (off lj))) = Ok r /\
    node_fits g {| coords := coords (disk_node g m (off lj)); nbrs := r |}.

Context (Hg : geometry_wf g).
#[local] Arguments write_node : simpl never.
#[local] Arguments disk_node : simpl never.

Lemma new_version_ok st f j l m lj r :
  id2loc_ st !! j = Some lj -> f j (nbrs (disk_node g m (off lj))) = Ok r ->
  new_version st f (j, l) m =
    Ok (write_node g (off l) {| coords := coords (disk_node g m (off lj)); nbrs := r |} m).
Proof. intros E Er. unfold new_version, id2loc, find, find_fn. rewrite E. cbn. by rewrite Er. Qed.

(** A write to a slot does not touch another slot. *)
Lemma write_other_slot l l1 nd m a : loc_ok l -> loc_ok l1 -> l <> l1 -> node_fits g nd ->
  off l <= a < off l + max_node_len g -> write_node g (off l1) nd m a = m a.
Proof. intros. apply write_node_out; [done|]. by apply (slots_disjoint g l l1). Qed.

Lemma write_other_node l l1 nd m : loc_ok l -> loc_ok l1 -> l <> l1 -> node_fits g nd ->
  node_fits g (disk_node g m (off l)) -> disk_node g (write_node g (off l1) nd m) (off l) = disk_node g m (off l).
Proof. intros. apply disk_node_ext; [done|]. intros a Ha. symmetry. by apply (write_other_slot l). Qed.

Lemma replaceable_mono st f l1 locs m m1 j : replaceable st f (l1 :: locs) m j ->
  (forall l, loc_ok l -> l <> l1 -> node_fits g (disk_node g m (off l)) -> disk_node g m1 (off l) = disk_node g m (off l)) ->
  replaceable st f locs m1 j.
Proof.
  intros (lj & r & E & Hok & [Hn1 Hn]%not_elem_of_cons & Hf & Er & Hfr) Hs.
  exists lj, r. rewrite (Hs lj) by done. by split_and!.
Qed.

(** All replacements succeed, change no other slot, and each of the new slots
    holds the version that follows the one in the original file. *)
Lemma new_versions_spec st f nl : forall m,
  NoDup nl.*2 -> (forall l, l ∈ nl.*2 -> loc_ok l) -> (forall j, j ∈ nl.*1 -> replaceable st f nl.*2 m j) ->
  exists m', foldM (new_version st f) nl m = Ok m' /\
    (forall l a, loc_ok l -> l ∉ nl.*2 -> off l <= a < off l + max_node_len g -> m' a = m a) /\
    (forall j l, (j, l) ∈ nl -> version_at st f m m' j l).
Proof.
  induction nl as [|[j1 l1] nl IH]; intros m Hnd Hok Hj; cbn [foldM] in *.
  { exists m. split_and!; [done | done |]. intros j l H. by apply not_elem_of_nil in H. }
  cbn [fmap list_fmap fst snd] in *. apply NoDup_cons in Hnd as [Hni Hnd].
  assert (Hl1 : loc_ok l1) by (apply Hok; by left).
  destruct (Hj j1) as (lj1 & r1 & E1 & Hok1 & Hfree1 & Hf1 & Er1 & Hfit1); [by left|].
  rewrite (new_version_ok _ _ _ _ _ _ _ E1 Er1). cbn [mbind outcome_bind].
  set (nd1 := {| coords := _ |}) in *. set (m1 := write_node g (off l1) nd1 m).
  assert (Hsame : forall l, loc_ok l -> l <> l1 -> node_fits g (disk_node g m (off l)) ->
    disk_node g m1 (off l) = disk_node g m (off l)) by (intros; by apply write_other_node).
  destruct (IH m1 Hnd) as (m' & E & Hframe & Hver).
  { intros l Hl. apply Hok. by right. }
  { intros j Hin. apply (replaceable_mono st f l1 _ m); [|done]. apply Hj. by right. }
  exists m'. split; [done|]. split.
  - intros l a Hl [Hne Hnin]%not_elem_of_cons Ha. rewrite (Hframe l) by done. by apply (write_other_slot l).
  - intros j l [[= -> ->]|Hin]%elem_of_cons.
    + exists lj1, r1. split_and!; [done..|]. fold nd1.
      pose proof (write_node_read g (off l1) nd1 m Hfit1) as Hread. fold m1 in Hread.
      rewrite <- Hread. apply disk_node_ext; [by rewrite Hread|].
      intros a Ha. symmetry. by apply (Hframe l1).
    + destruct (Hver j l Hin) as (lj & r & Ej & Er & Hv).
      destruct (Hj j) as (lj' & r' & Ej' & Hokj & [Hne _]%not_elem_of_cons & Hfj & _);
        [apply elem_of_cons; right; apply list_elem_of_fmap; by exists (j, l)|].
      simplify_eq. rewrite Hsame in Er, Hv by done. by exists lj, r.
Qed.
End versions.
