(* ===== verification/Prune.v ===== *)
(** * Pruning of neighbour lists

    [src/utils/prune_neighbors.cpp]: the candidates of a node are reduced to
    at most [range] of them.  [occlude_list] keeps a candidate unless a closer
    one that was kept occludes it; the routines with "delta" in their name
    remove a single candidate from a list that is one too long. *)
From S2P Require Import Prelude Neighbor Float32.

Section prune.
Context {F : Type} `{!FloatOps F}.
Context (alpha : F) (range maxc : nat) (medoid : Z).

(** [compute_pq_dists] crashes when it is asked for so many distances. *)
Definition max_pq_count : Z := 32768.

(** ** Occlusion *)

(** [std::set<Neighbor>], the elements in order. *)
Fixpoint set_insert (x : Neighbor F) (rs : list (Neighbor F)) : list (Neighbor F) :=
  match rs with
  | [] => [x]
  | y :: rs' => if nb_lt x y then x :: rs
                else if nb_lt y x then y :: set_insert x rs' else rs
  end.

Section occlude.
(** The distance between two candidates: [dist_cmp->compare] on the
    coordinates that the search has collected, or [compute_pq_dists]. *)
Variable djk : Z -> Z -> outcome F.

(** The inner loop, on the candidates after [p]; [n] is what [maxc] leaves. *)
Fixpoint occlude_tail (p : Neighbor F) (n : nat) (pool : list (Neighbor F)) (occlude_factor : list F) : outcome (list F) :=
  match n, pool, occlude_factor with
  | S n, x :: pool, o :: occlude_factor =>
      o' ← (if dlt alpha o then Ok o
            else d ← djk (id p) (id x); Ok (std_max o (fdiv (distance x) d)));
      rest ← occlude_tail p n pool occlude_factor;
      Ok (o' :: rest)
  | _, _, _ => Ok occlude_factor
  end.

Definition factor_at (l : list F) (i : nat) : outcome F :=
  match l !! i with Some o => Ok o | None => Crash end.

(** One pass over the pool with the current [cur_alpha]. *)
Fixpoint occlude_scan (fuel start : nat) (cur_alpha : F) (pool : list (Neighbor F))
    (rs : list (Neighbor F)) (occlude_factor : list F) : outcome (list (Neighbor F) * list F) :=
  match fuel with
  | O => Crash
  | S fuel =>
      if bool_decide (length rs < range /\ start < length pool /\ start < maxc)%nat then
        p ← at_ pool start;
        o ← factor_at occlude_factor start;
        if dlt cur_alpha o then occlude_scan fuel (S start) cur_alpha pool rs occlude_factor
        else
          let fac := <[start := f_max]> occlude_factor in
          rest ← occlude_tail p (maxc - S start) (drop (S start) pool) (drop (S start) fac);
          occlude_scan fuel (S start) cur_alpha pool (set_insert p rs) (take (S start) fac ++ rest)
      else Ok (rs, occlude_factor)
  end.

Fixpoint occlude_rounds (fuel : nat) (cur_alpha : F) (pool rs : list (Neighbor F)) (occlude_factor : list F)
  : outcome (list (Neighbor F)) :=
  match fuel with
  | O => Crash
  | S fuel =>
      if negb (dlt alpha cur_alpha) && bool_decide (length rs < range)%nat then
        '(rs, fac) ← occlude_scan (S (length pool)) 0 cur_alpha pool rs occlude_factor;
        occlude_rounds fuel (mul_1_2f cur_alpha) pool rs fac
      else Ok rs
  end.

Definition occlude_list (fuel : nat) (pool : list (Neighbor F)) : outcome (list (Neighbor F)) :=
  if decide (pool = []) then Ok []
  else occlude_rounds fuel f_one pool [] (replicate (length pool) f_zero).
End occlude.

(** [coord_map.find(id)->second]; a missing entry is an invalid iterator. *)
Definition compare_coords (coord_map : gmap Z (list Z)) (compare : list Z -> list Z -> F) (p x : Z) : outcome F :=
  match coord_map !! x, coord_map !! p with
  | Some l, Some r => Ok (compare l r)
  | _, _ => Crash
  end.

(** The list is filled up with the closest candidates that are missing. *)
Fixpoint fill_up (pool : list (Neighbor F)) (pruned_list : list Z) : list Z :=
  match pool with
  | [] => pruned_list
  | x :: pool =>
      if bool_decide (length pruned_list < range)%nat then
        fill_up pool (if decide (id x ∈ pruned_list) then pruned_list else pruned_list ++ [id x])
      else pruned_list
  end.

Definition saturate (pool : list (Neighbor F)) (pruned_list : list Z) : list Z :=
  if dlt f_one alpha then fill_up pool pruned_list else pruned_list.

Definition prune_neighbors_pq (fuel : nat) (compute_pq_dists : Z -> Z -> F) (pool : list (Neighbor F)) (pruned_list : list Z)
  : outcome (list Z) :=
  if decide (pool = []) then Ok pruned_list else
  result ← occlude_list (fun p x => Ok (compute_pq_dists p x)) fuel pool;
  Ok (saturate pool (id <$> result)).

(** The far part of the result drops the medoid. *)
Fixpoint drop_medoid (i threshold : nat) (result : list (Neighbor F)) : list Z :=
  match result with
  | [] => []
  | x :: result =>
      if bool_decide (threshold < i)%nat && (id x =? medoid) then drop_medoid (S i) threshold result
      else id x :: drop_medoid (S i) threshold result
  end.

Definition prune_neighbors (fuel : nat) (coord_map : gmap Z (list Z)) (compare : list Z -> list Z -> F)
    (pool : list (Neighbor F)) (pruned_list : list Z) : outcome (list Z) :=
  if decide (pool = []) then Ok pruned_list else
  let pool := std_sort_nb pool in
  result ← occlude_list (compare_coords coord_map compare) fuel pool;
  Ok (saturate pool (drop_medoid 0 (length result * 3 / 4)%nat result)).

(** ** Facts *)

Implicit Types (x y p : Neighbor F) (rs xs : list (Neighbor F)) (fac : list F).

(** Enough rounds for [cur_alpha] to pass [alpha]. *)
Definition rounds_end (n : nat) : Prop := dlt alpha (Nat.iter n mul_1_2f f_one) = true.

Lemma nb_lt_same x y : nb_lt x y = false -> nb_lt y x = false -> id x = id y.
Proof.
  unfold nb_lt. rewrite !orb_false_iff. intros [H1 H1'] [H2 H2']. rewrite H2 in H1'. rewrite H1 in H2'.
  simpl in *. zbool. lia.
Qed.

Lemma set_insert_spec x rs :
  (forall y, y ∈ set_insert x rs -> y = x \/ y ∈ rs) /\ (forall y, y ∈ rs -> y ∈ set_insert x rs) /\
  (x ∈ set_insert x rs \/ exists y, y ∈ rs /\ id y = id x) /\ (length (set_insert x rs) <= S (length rs))%nat.
Proof.
  induction rs as [|y rs IH]; simpl; [set_solver|].
  destruct (nb_lt x y) eqn:E1; [set_solver|]. destruct (nb_lt y x) eqn:E2.
  - destruct IH as (H1 & H2 & H3 & H4). split_and!; [set_solver | set_solver | set_solver | simpl; lia].
  - pose proof (nb_lt_same _ _ E1 E2). split_and!; [set_solver | done | | simpl; lia]. right. exists y. set_solver.
Qed.

Definition nb_ltp (x y : Neighbor F) : Prop := nb_lt x y = true.

Lemma nb_ltp_le x y : nb_ltp x y -> nb_le x y.
Proof. unfold nb_ltp. intros H. destruct (nb_le_total x y) as [?|H']; [done|]. unfold nb_le in H'. congruence. Qed.

#[local] Instance nb_ltp_trans : Transitive nb_ltp.
Proof.
  intros x y z Hxy Hyz. unfold nb_ltp in *. destruct (nb_lt x z) eqn:E; [done|].
  assert (nb_le z y) as H by (transitivity x; [done | by apply nb_ltp_le]). unfold nb_le in H. congruence.
Qed.

Lemma set_insert_sorted x rs : StronglySorted nb_ltp rs -> StronglySorted nb_ltp (set_insert x rs).
Proof.
  induction rs as [|y rs IH]; simpl; intros Hs; [by repeat constructor|].
  pose proof Hs as Hs'. apply StronglySorted_inv in Hs' as [Hs' Hy].
  destruct (nb_lt x y) eqn:E1.
  - constructor; [done|]. constructor; [done|]. eapply Forall_impl; [exact Hy|]. intros z Hz. by transitivity y.
  - destruct (nb_lt y x) eqn:E2; [|done]. constructor; [by apply IH|].
    rewrite Forall_forall in *. intros z Hz. destruct (proj1 (set_insert_spec x rs) z Hz) as [->|?]; [done | by apply Hy].
Qed.

Lemma nb_ltp_NoDup rs : StronglySorted nb_ltp rs -> NoDup rs.
Proof.
  assert (Irreflexive nb_ltp).
  { intros x. unfold nb_ltp, nb_lt, complement. rewrite dlt_irrefl. simpl. intros ?. zbool. lia. }
  apply (StronglySorted_NoDup nb_ltp).
Qed.

(** *** The invariant of the occlusion passes *)
Section occlude_facts.
Context (djk : Z -> Z -> outcome F) (pool : list (Neighbor F)).
Context (Hnd : NoDup (id <$> pool)).
Context (Hd : forall x y, x ∈ pool -> y ∈ pool -> exists d, djk (id x) (id y) = Ok d).

(** [y] occludes [x] with the factor [q]. *)
Definition occludes (y x : Neighbor F) (q : F) : Prop :=
  exists d, djk (id y) (id x) = Ok d /\ fdiv (distance x) d = Some q.

Definition factor_ok (rs : list (Neighbor F)) (t : nat) (x : Neighbor F) (o : F) : Prop :=
  x ∈ rs \/ o = f_zero \/ exists s y, (s < t)%nat /\ pool !! s = Some y /\ y ∈ rs /\ occludes y x o.

Record occ_inv (rs : list (Neighbor F)) (fac : list F) : Prop := {
  oi_length : length fac = length pool;
  oi_sorted : StronglySorted nb_ltp rs;
  oi_pool : forall x, x ∈ rs -> x ∈ pool;
  oi_size : (length rs <= range)%nat;
  oi_factor : forall t x o, pool !! t = Some x -> fac !! t = Some o -> factor_ok rs t x o;
}.

(** Every candidate before [k] was kept or is occluded beyond [a]. *)
Definition covered (a : F) (k : nat) (rs : list (Neighbor F)) (fac : list F) : Prop :=
  forall t x o, (t < k)%nat -> (t < maxc)%nat -> pool !! t = Some x -> fac !! t = Some o ->
    x ∈ rs \/ dlt a o = true.

(** The set grows, and so do the factors of the candidates outside of it. *)
Definition grows (rs : list (Neighbor F)) (fac : list F) (rs' : list (Neighbor F)) (fac' : list F) : Prop :=
  (forall x, x ∈ rs -> x ∈ rs') /\
  forall t x o', pool !! t = Some x -> fac' !! t = Some o' -> x ∈ rs' \/ exists o, fac !! t = Some o /\ (o' = o \/ dlt o o' = true).

Lemma dlt_trans (a b c : F) : dlt a b = true -> dlt b c = true -> dlt a c = true.
Proof.
  intros H1 H2. destruct (dlt a c) eqn:E; [done|].
  pose proof (dlt_ntrans b c a (dlt_asym _ _ H2) E). congruence.
Qed.

Lemma grows_covered a k rs fac rs' fac' : grows rs fac rs' fac' -> covered a k rs fac -> covered a k rs' fac'.
Proof.
  intros [H1 H2] Hc t x o' Hk Hm Hx Ho'. destruct (H2 t x o' Hx Ho') as [?|(o & Ho & Hoo)]; [by left|].
  destruct (Hc t x o Hk Hm Hx Ho) as [?|?]; [left; by apply H1 | right]. destruct Hoo as [->|?]; [done|].
  by eapply dlt_trans.
Qed.

Lemma occlude_tail_spec p : forall n xs fac,
  p ∈ pool -> (forall x, x ∈ xs -> x ∈ pool) -> length fac = length xs ->
  exists fac', occlude_tail djk p n xs fac = Ok fac' /\ length fac' = length xs /\
    forall t x o', xs !! t = Some x -> fac' !! t = Some o' ->
      exists o, fac !! t = Some o /\ (o' = o \/ (dlt o o' = true /\ occludes p x o')).
Proof.
  induction n as [|n IH]; intros xs fac Hp Hxs Hl; cbn [occlude_tail].
  - exists fac. split_and!; [done | done |]. intros t x o' _ H. exists o'. eauto.
  - destruct xs as [|x xs], fac as [|o fac]; simpl in Hl; try lia.
    + exists []. split_and!; [done | done |]. intros t x o' ?. by rewrite lookup_nil in *.
    + assert (exists o', (if dlt alpha o then Ok o else d ← djk (id p) (id x); Ok (std_max o (fdiv (distance x) d))) = Ok o' /\
        (o' = o \/ (dlt o o' = true /\ occludes p x o'))) as (o' & -> & Ho').
      { destruct (dlt alpha o); [exists o; eauto|]. destruct (Hd p x Hp (Hxs x ltac:(set_solver))) as [d Ed].
        rewrite Ed. cbn [mbind outcome_bind]. eexists. split; [done|]. unfold std_max.
        destruct (fdiv (distance x) d) as [q|] eqn:Eq; [|by left]. destruct (dlt o q) eqn:El; [|by left].
        right. split; [done|]. by exists d. }
      cbn [mbind outcome_bind].
      destruct (IH xs fac Hp) as (fac' & -> & Hlen & Hof); [intros y Hy; apply Hxs; set_solver | lia |].
      cbn [mbind outcome_bind]. exists (o' :: fac'). split_and!; [done | simpl; lia |].
      intros [|t] y w Hy Hw; simpl in *; [simplify_eq; eauto | by apply Hof].
Qed.

Lemma pool_id_inj x y : x ∈ pool -> y ∈ pool -> id x = id y -> x = y.
Proof.
  intros (i & Hi)%list_elem_of_lookup (j & Hj)%list_elem_of_lookup E.
  assert (i = j) as <-; [|congruence].
  apply (NoDup_lookup _ _ _ (id x) Hnd); rewrite list_lookup_fmap; [by rewrite Hi | by rewrite Hj, E].
Qed.

Lemma set_insert_in p rs : p ∈ pool -> (forall x, x ∈ rs -> x ∈ pool) -> p ∈ set_insert p rs.
Proof.
  intros Hp Hrs. destruct (set_insert_spec p rs) as (_ & H2 & [?|(y & Hy & E)] & _); [done|].
  pose proof (pool_id_inj y p (Hrs y Hy) Hp E). subst y. by apply H2.
Qed.

Lemma grows_refl rs fac : grows rs fac rs fac.
Proof. split; [done|]. intros t x o _ Ho. right. eauto. Qed.

Lemma grows_trans rs1 f1 rs2 f2 rs3 f3 : grows rs1 f1 rs2 f2 -> grows rs2 f2 rs3 f3 -> grows rs1 f1 rs3 f3.
Proof.
  intros [A1 A2] [B1 B2]. split; [auto|]. intros t x o3 Hx H3.
  destruct (B2 t x o3 Hx H3) as [?|(o2 & H2 & E2)]; [by left|].
  destruct (A2 t x o2 Hx H2) as [?|(o1 & H1 & E1)]; [left; auto | right; exists o1; split; [done|]].
  destruct E1 as [->|E1], E2 as [->|E2]; eauto using dlt_trans.
Qed.

(** Selecting the candidate at [start]. *)
Lemma occlude_select start p rs fac :
  occ_inv rs fac -> pool !! start = Some p -> (length rs < range)%nat ->
  exists rest, occlude_tail djk p (maxc - S start) (drop (S start) pool) (drop (S start) (<[start := f_max]> fac)) = Ok rest /\
    let fac' := take (S start) (<[start := f_max]> fac) ++ rest in
    occ_inv (set_insert p rs) fac' /\ grows rs fac (set_insert p rs) fac' /\ p ∈ set_insert p rs.
Proof.
  intros [Hl Hs Hp Hz Hf] Hpool Hlt. assert (p ∈ pool) as Hpin by (by eapply list_elem_of_lookup_2).
  pose proof (lookup_lt_Some _ _ _ Hpool) as Hstart.
  destruct (occlude_tail_spec p (maxc - S start) (drop (S start) pool) (drop (S start) (<[start := f_max]> fac)) Hpin)
    as (rest & -> & Hlr & Hrest).
  { intros x Hx. by eapply subseteq_drop. }
  { by rewrite !length_drop, length_insert, Hl. }
  exists rest. split; [done|]. intros fac'.
  assert (length (take (S start) (<[start:=f_max]> fac)) = S start) as Hlt' by (rewrite length_take, length_insert; lia).
  assert (forall t x o', pool !! t = Some x -> fac' !! t = Some o' -> t = start \/
    exists o, fac !! t = Some o /\ (o' = o \/ ((start < t)%nat /\ dlt o o' = true /\ occludes p x o'))) as Hfac.
  { intros t x o' Hx Ho. destruct (decide (t = start)) as [?|Hne]; [by left | right]. subst fac'.
    destruct (decide (t < S start)%nat) as [Hts|Hts].
    - rewrite lookup_app_l, lookup_take_lt, list_lookup_insert_ne in Ho by lia. eauto.
    - rewrite lookup_app_r, Hlt' in Ho by lia.
      destruct (Hrest (t - S start)%nat x o') as (o & Hlo & Hoo); [|done|].
      { rewrite lookup_drop. by replace (S start + (t - S start))%nat with t by lia. }
      rewrite lookup_drop in Hlo. replace (S start + (t - S start))%nat with t in Hlo by lia.
      rewrite list_lookup_insert_ne in Hlo by lia. exists o. split; [done|].
      destruct Hoo as [?|[? ?]]; [by left | right; split_and!; [lia | done | done]]. }
  destruct (set_insert_spec p rs) as (H1 & H2 & _ & H4). pose proof (set_insert_in p rs Hpin Hp) as H3.
  split_and!; [constructor| |done].
  - subst fac'. rewrite length_app, Hlt', Hlr, length_drop. lia.
  - by apply set_insert_sorted.
  - intros x [->|?]%H1; auto.
  - lia.
  - intros t x o' Hx Ho. destruct (Hfac t x o' Hx Ho) as [->|(o & Hlo & [->|(Hst & Hlo' & Hocc)])].
    + left. by simplify_eq.
    + destruct (Hf t x o Hx Hlo) as [?|[?|(s & y & ? & ? & ? & ?)]]; [left; auto | right; by left | right; right].
      exists s, y. auto.
    + right; right. exists start, p. auto.
  - split; [auto|]. intros t x o' Hx Ho. destruct (Hfac t x o' Hx Ho) as [->|(o & Hlo & Hoo)]; [left; by simplify_eq | right].
    exists o. split; [done|]. destruct Hoo as [?|(_ & ? & _)]; [by left | by right].
Qed.

Lemma occlude_scan_spec a : forall fuel start rs fac,
  occ_inv rs fac -> covered a start rs fac -> (length pool - start < fuel)%nat ->
  exists rs' fac', occlude_scan djk fuel start a pool rs fac = Ok (rs', fac') /\ occ_inv rs' fac' /\
    grows rs fac rs' fac' /\ (length rs' = range \/ covered a (length pool) rs' fac').
Proof.
  induction fuel as [|fuel IH]; intros start rs fac Hi Hc Hf; [lia|]. cbn [occlude_scan].
  case_bool_decide as Hb.
  2: { exists rs, fac. split_and!; [done | done | apply grows_refl |]. pose proof (oi_size _ _ Hi).
       destruct (decide (length rs = range)) as [?|]; [by left | right].
       intros t x o _ Htm Hx Ho. apply (Hc t x o); [|done|done|done]. pose proof (lookup_lt_Some _ _ _ Hx). lia. }
  destruct Hb as (Hb1 & Hb2 & Hb3). destruct (lookup_lt_is_Some_2 pool start Hb2) as [p Hp].
  rewrite (at_Ok _ _ _ Hp). cbn [mbind outcome_bind].
  destruct (lookup_lt_is_Some_2 fac start) as [o Ho]; [by rewrite (oi_length _ _ Hi)|].
  unfold factor_at. rewrite Ho. cbn [mbind outcome_bind]. destruct (dlt a o) eqn:Ea.
  - destruct (IH (S start) rs fac Hi) as (rs' & fac' & ? & ? & ? & ?); [|lia|by exists rs', fac'].
    intros t x o' Ht Htm Hx Ho'. destruct (decide (t = start)) as [->|]; [right; by simplify_eq|]. apply (Hc t x o'); lia || done.
  - destruct (occlude_select start p rs fac Hi Hp Hb1) as (rest & -> & Hi' & Hg & Hin). cbn [mbind outcome_bind].
    set (fac1 := take (S start) (<[start := f_max]> fac) ++ rest) in *.
    destruct (IH (S start) (set_insert p rs) fac1 Hi') as (rs' & fac' & ? & ? & ? & ?); [|lia|].
    + intros t x o' Ht Htm Hx Ho'. destruct (decide (t = start)) as [->|]; [left; by simplify_eq|].
      apply (grows_covered a start rs fac _ _ Hg Hc t x o'); lia || done.
    + exists rs', fac'. split_and!; [done | done | by eapply grows_trans | done].
Qed.

Lemma occlude_rounds_spec n : rounds_end n -> forall fuel k rs fac,
  occ_inv rs fac -> (k <= n)%nat -> (n - k < fuel)%nat ->
  exists rs' fac', occlude_rounds djk fuel (Nat.iter k mul_1_2f f_one) pool rs fac = Ok rs' /\ occ_inv rs' fac' /\
    grows rs fac rs' fac' /\
    (length rs' = range \/ forall j, (k <= j)%nat ->
      (forall i, (k <= i <= j)%nat -> dlt alpha (Nat.iter i mul_1_2f f_one) = false) ->
      covered (Nat.iter j mul_1_2f f_one) (length pool) rs' fac').
Proof.
  intros Hn. induction fuel as [|fuel IH]; intros k rs fac Hi Hk Hf; [lia|]. cbn [occlude_rounds].
  destruct (dlt alpha (Nat.iter k mul_1_2f f_one)) eqn:Ea; cbn [negb andb].
  { exists rs, fac. split_and!; [done | done | apply grows_refl | right]. intros j Hj Hall.
    specialize (Hall k ltac:(lia)). congruence. }
  case_bool_decide as Hr.
  2: { exists rs, fac. pose proof (oi_size _ _ Hi). split_and!; [done | done | apply grows_refl | left; lia]. }
  assert (k <> n) by (intros ->; unfold rounds_end in Hn; congruence).
  destruct (occlude_scan_spec (Nat.iter k mul_1_2f f_one) (S (length pool)) 0 rs fac Hi)
    as (rs1 & fac1 & -> & Hi1 & Hg1 & Hc1); [intros t ? ? Ht; lia | lia |]. cbn [mbind outcome_bind].
  destruct (IH (S k) rs1 fac1 Hi1 ltac:(lia) ltac:(lia)) as (rs' & fac' & E & Hi' & Hg' & Hc').
  exists rs', fac'. split_and!; [exact E | done | by eapply grows_trans |].
  destruct Hc' as [?|Hc']; [by left|]. destruct Hc1 as [Hfull|Hc1].
  - left. pose proof (oi_size _ _ Hi'). pose proof (oi_sorted _ _ Hi1) as Hs1.
    assert (length rs1 <= length rs')%nat; [|lia].
    apply submseteq_length, NoDup_submseteq; [by apply nb_ltp_NoDup | apply Hg'].
  - right. intros j Hj Hall. destruct (decide (j = k)) as [->|]; [by eapply grows_covered|].
    apply Hc'; [lia|]. intros i Hij. apply Hall. lia.
Qed.

Lemma occ_inv_init : occ_inv [] (replicate (length pool) f_zero).
Proof.
  constructor; [apply length_replicate | constructor | set_solver | simpl; lia |].
  intros t x o _ [-> _]%lookup_replicate. right. by left.
Qed.
End occlude_facts.

(** *** The whole routines *)
Lemma alpha_nonneg k : dlt (Nat.iter k mul_1_2f f_one : F) f_zero = false.
Proof. induction k as [|k IH]; simpl; [apply f_one_nonneg | by apply mul_nonneg]. Qed.

(** What [occlude_list] promises. *)
Record occlude_post (djk : Z -> Z -> outcome F) (pool rs : list (Neighbor F)) : Prop := {
  op_sorted : StronglySorted nb_ltp rs;
  op_pool : forall x, x ∈ rs -> x ∈ pool;
  op_size : (length rs <= range)%nat;
  op_cover : length rs = range \/ forall j t x,
    (forall i, (i <= j)%nat -> dlt alpha (Nat.iter i mul_1_2f f_one) = false) ->
    (t < maxc)%nat -> pool !! t = Some x -> x ∉ rs ->
    exists s y q, (s < t)%nat /\ pool !! s = Some y /\ y ∈ rs /\ occludes djk y x q /\
      dlt (Nat.iter j mul_1_2f f_one) q = true;
}.

Lemma occlude_list_spec djk pool n fuel :
  NoDup (id <$> pool) -> (forall x y, x ∈ pool -> y ∈ pool -> exists d, djk (id x) (id y) = Ok d) ->
  rounds_end n -> (n < fuel)%nat ->
  exists rs, occlude_list djk fuel pool = Ok rs /\ occlude_post djk pool rs.
Proof.
  intros Hnd Hd Hn Hf. unfold occlude_list. case_decide as Hp.
  { subst. exists []. split; [done|]. constructor; [constructor | set_solver | simpl; lia |].
    right. intros j t x _ _ Hx. by rewrite lookup_nil in Hx. }
  destruct (occlude_rounds_spec djk pool Hnd Hd n Hn fuel 0 [] _ (occ_inv_init djk pool Hnd Hd)) as (rs & fac & E & Hi & _ & Hc);
    [lia | lia |]. exists rs. split; [exact E|]. destruct Hi as [Hl Hs Hpl Hz Hfac]. constructor; try done.
  destruct Hc as [?|Hc]; [by left | right]. intros j t x Hall Htm Hx Hnx.
  destruct (lookup_lt_is_Some_2 fac t) as [o Ho]; [rewrite Hl; by eapply lookup_lt_Some|].
  destruct (Hc j ltac:(lia) ltac:(intros i Hij; apply Hall; lia) t x o (lookup_lt_Some _ _ _ Hx) Htm Hx Ho) as [?|Hq]; [done|].
  destruct (Hfac t x o Hx Ho) as [?|[->|(s & y & ? & ? & ? & ?)]]; [done | by rewrite alpha_nonneg in Hq |].
  exists s, y, o. auto.
Qed.

Lemma occlude_post_ids djk pool rs : NoDup (id <$> pool) -> occlude_post djk pool rs ->
  NoDup (id <$> rs) /\ (forall i, i ∈ id <$> rs -> i ∈ id <$> pool).
Proof.
  intros Hnd [Hs Hp _ _]. split.
  - apply NoDup_fmap_2_strong; [|by apply nb_ltp_NoDup]. intros x y Hx Hy. apply (pool_id_inj pool Hnd); auto.
  - intros i (x & -> & Hx)%list_elem_of_fmap. apply list_elem_of_fmap. eauto.
Qed.

Lemma fill_up_spec : forall pool pl,
  NoDup pl -> (length pl <= range)%nat ->
  NoDup (fill_up pool pl) /\ (length (fill_up pool pl) <= range)%nat /\
  (forall i, i ∈ fill_up pool pl -> i ∈ pl \/ i ∈ id <$> pool) /\ (forall i, i ∈ pl -> i ∈ fill_up pool pl) /\
  (length (fill_up pool pl) = range \/ forall i, i ∈ id <$> pool -> i ∈ fill_up pool pl).
Proof.
  induction pool as [|x pool IH]; intros pl Hnd Hl; simpl; [split_and!; auto; right; set_solver|].
  case_bool_decide as Hb; [|split_and!; auto; left; lia].
  assert (exists pl', (if decide (id x ∈ pl) then pl else pl ++ [id x]) = pl' /\ NoDup pl' /\ (length pl' <= range)%nat /\
    forall i, i ∈ pl' <-> i ∈ pl \/ i = id x) as (pl' & -> & H1 & H2 & H3).
  { eexists. split; [done|]. case_decide; [split_and!; [done | done | set_solver]|].
    split_and!; [by apply NoDup_snoc | rewrite length_app; simpl; lia | set_solver]. }
  destruct (IH pl' H1 H2) as (A & B & C & D & E). split_and!; [done | done | | |].
  - intros i Hi. destruct (C i Hi) as [[?| ->]%H3|?]; set_solver.
  - intros i Hi. apply D, H3. by left.
  - destruct E as [?|E]; [by left | right]. intros i [->|Hi]%elem_of_cons; [apply D, H3; by right | by apply E].
Qed.

(** The list a pruning routine returns. *)
Record pruned_ok (ids res : list Z) : Prop := {
  po_nodup : NoDup res;
  po_subset : forall i, i ∈ res -> i ∈ ids;
  po_size : (length res <= range)%nat;
  po_saturated : dlt (f_one : F) alpha = true -> length res = Nat.min range (length ids);
}.

Lemma saturate_ok pool pl :
  NoDup (id <$> pool) -> NoDup pl -> (forall i, i ∈ pl -> i ∈ id <$> pool) -> (length pl <= range)%nat ->
  pruned_ok (id <$> pool) (saturate pool pl).
Proof.
  intros Hnd Hp Hin Hl. unfold saturate. destruct (dlt f_one alpha) eqn:Ea; [|by constructor; rewrite ?Ea].
  destruct (fill_up_spec pool pl Hp Hl) as (H1 & H2 & H3 & H4 & H5).
  assert (forall i, i ∈ fill_up pool pl -> i ∈ id <$> pool) as Hsub by (intros i [?|?]%H3; auto).
  constructor; auto. intros _.
  assert (length (fill_up pool pl) <= length (id <$> pool))%nat
    by (by apply submseteq_length, NoDup_submseteq).
  destruct H5 as [?|H5]; [lia|].
  assert (length (id <$> pool) <= length (fill_up pool pl))%nat by (by apply submseteq_length, NoDup_submseteq). lia.
Qed.

Lemma drop_medoid_sub : forall result i th, sublist (drop_medoid i th result) (id <$> result).
Proof.
  induction result as [|x result IH]; intros i th; simpl; [constructor|].
  case_match; [by constructor | by constructor].
Qed.

Lemma prune_neighbors_pq_spec compute_pq_dists pool pl n fuel :
  NoDup (id <$> pool) -> pool <> [] -> rounds_end n -> (n < fuel)%nat ->
  exists res, prune_neighbors_pq fuel compute_pq_dists pool pl = Ok res /\ pruned_ok (id <$> pool) res.
Proof.
  intros Hnd Hne Hn Hf. unfold prune_neighbors_pq. rewrite decide_False by done.
  destruct (occlude_list_spec (fun i j => Ok (compute_pq_dists i j)) pool n fuel Hnd) as (rs & -> & Hrs); [eauto | done | done |].
  cbn [mbind outcome_bind]. destruct (occlude_post_ids _ _ _ Hnd Hrs) as [H1 H2].
  eexists. split; [done|]. apply saturate_ok; [done | done | done |]. rewrite length_fmap. apply Hrs.
Qed.

Lemma prune_neighbors_spec coord_map compare pool pl n fuel :
  NoDup (id <$> pool) -> pool <> [] -> (forall x, x ∈ pool -> is_Some (coord_map !! id x)) ->
  rounds_end n -> (n < fuel)%nat ->
  exists res, prune_neighbors fuel coord_map compare pool pl = Ok res /\ pruned_ok (id <$> pool) res.
Proof.
  intros Hnd Hne Hc Hn Hf. unfold prune_neighbors. rewrite decide_False by done.
  pose proof (std_sort_nb_perm pool) as Hp. pose proof (fmap_Permutation id _ _ Hp) as Hids.
  assert (NoDup (id <$> std_sort_nb pool)) as Hnd' by (by rewrite Hids).
  destruct (occlude_list_spec (compare_coords coord_map compare) (std_sort_nb pool) n fuel Hnd') as (rs & -> & Hrs);
    [|done|done|].
  { intros x y Hx Hy. rewrite Hp in Hx, Hy. unfold compare_coords.
    destruct (Hc x Hx) as [? ->], (Hc y Hy) as [? ->]. eauto. }
  cbn [mbind outcome_bind]. destruct (occlude_post_ids _ _ _ Hnd' Hrs) as [H1 H2]. eexists. split; [done|].
  pose proof (drop_medoid_sub rs 0 (length rs * 3 / 4)%nat) as Hsub. pose proof (sublist_length _ _ Hsub) as Hlen.
  destruct (saturate_ok (std_sort_nb pool) (drop_medoid 0 (length rs * 3 / 4)%nat rs)) as [P1 P2 P3 P4].
  - done.
  - by eapply sublist_NoDup.
  - intros i Hi. apply H2. by eapply elem_of_sublist.
  - rewrite length_fmap in Hlen. pose proof (op_size _ _ _ Hrs). lia.
  - constructor; [done | | done |].
    + intros i Hi. rewrite <- Hids. by apply P2.
    + intros Ha. by rewrite (P4 Ha), Hids.
Qed.
End prune.

(** C34. The neighbour list chosen for a new vector ([prune_neighbors]): for
    candidates with different identifiers whose coordinates the search has
    collected, the loop over [cur_alpha] ends and the result consists of
    different candidates, at most [range] of them; with [alpha > 1] the list is
    filled up to [range] neighbours or to all candidates. *)
Theorem prune_neighbors_correct {F} `{!FloatOps F} (alpha : F) range maxc medoid coord_map compare pool pl n fuel :
  NoDup (id <$> pool) -> pool <> [] -> (forall x, x ∈ pool -> is_Some (coord_map !! id x)) ->
  rounds_end alpha n -> (n < fuel)%nat ->
  exists res, prune_neighbors alpha range maxc medoid fuel coord_map compare pool pl = Ok res /\
    pruned_ok alpha range (id <$> pool) res.
Proof. apply prune_neighbors_spec. Qed.

(** The neighbour list of an existing node is pruned on compressed vectors
    ([prune_neighbors_pq]) with the same guarantees. *)
Theorem prune_neighbors_pq_correct {F} `{!FloatOps F} (alpha : F) range maxc compute_pq_dists pool pl n fuel :
  NoDup (id <$> pool) -> pool <> [] -> rounds_end alpha n -> (n < fuel)%nat ->
  exists res, prune_neighbors_pq alpha range maxc fuel compute_pq_dists pool pl = Ok res /\
    pruned_ok alpha range (id <$> pool) res.
Proof. apply prune_neighbors_pq_spec. Qed.

(** C35. Diversity of the kept candidates: when fewer than [range] are kept,
    every candidate among the first [maxc] that was dropped is occluded, for
    every value [a] that [cur_alpha] took, by a closer kept one: its distance
    to the node is more than [a] times its distance to the kept one. *)
Theorem occlude_list_diverse {F} `{!FloatOps F} (alpha : F) range maxc djk pool n fuel :
  NoDup (id <$> pool) -> (forall x y, x ∈ pool -> y ∈ pool -> exists d, djk (id x) (id y) = Ok d) ->
  rounds_end alpha n -> (n < fuel)%nat ->
  exists rs, occlude_list alpha range maxc djk fuel pool = Ok rs /\ occlude_post alpha range maxc djk pool rs.
Proof. apply occlude_list_spec. Qed.

(** Four candidates on a line, in single precision with [alpha = 1.2f]. *)
Definition fnb (i d : Z) : Neighbor F32 := {| id := i; distance := lit d 0; flag := true; visited := false |}.
Definition line_pool : list (Neighbor F32) := [fnb 1 4; fnb 2 9; fnb 3 16; fnb 4 25].
Definition line_coords : gmap Z (list Z) := list_to_map [(1, [2]); (2, [3]); (3, [-4]); (4, [5])].
Definition line_compare (x y : list Z) : F32 := lit ((x !!! 0%nat - y !!! 0%nat) * (x !!! 0%nat - y !!! 0%nat)) 0.

Lemma line_nodup : NoDup (id <$> line_pool).
Proof. apply (bool_decide_unpack _). by vm_compute. Qed.

Lemma line_coords_ok x : x ∈ line_pool -> is_Some (line_coords !! id x).
Proof.
  assert (Forall (fun x => is_Some (line_coords !! id x)) line_pool) as H
    by (apply (bool_decide_unpack _); by vm_compute).
  rewrite Forall_forall in H. apply H.
Qed.

Lemma prune_neighbors_witness : exists res,
  prune_neighbors F32_1_2f 3 750 1 5 line_coords line_compare line_pool [] = Ok res /\
  pruned_ok F32_1_2f 3 (id <$> line_pool) res.
Proof.
  apply (prune_neighbors_correct F32_1_2f 3 750 1 line_coords line_compare line_pool [] 2 5).
  - exact line_nodup.
  - done.
  - exact line_coords_ok.
  - by vm_compute.
  - lia.
Defined.

Lemma prune_neighbors_pq_witness : exists res,
  prune_neighbors_pq F32_1_2f 2 750 5 (fun x y => lit (x + y) 0) line_pool [] = Ok res /\
  pruned_ok F32_1_2f 2 (id <$> line_pool) res.
Proof.
  apply (prune_neighbors_pq_correct F32_1_2f 2 750 (fun x y => lit (x + y) 0) line_pool [] 2 5).
  - exact line_nodup.
  - done.
  - by vm_compute.
  - lia.
Defined.

Lemma occlude_list_witness : exists rs,
  occlude_list F32_1_2f 4 750 (compare_coords line_coords line_compare) 5 line_pool = Ok rs /\
  occlude_post F32_1_2f 4 750 (compare_coords line_coords line_compare) line_pool rs.
Proof.
  apply (occlude_list_diverse F32_1_2f 4 750 (compare_coords line_coords line_compare) line_pool 2 5).
  - exact line_nodup.
  - intros x y [? Hx]%line_coords_ok [? Hy]%line_coords_ok. unfold compare_coords. rewrite Hx, Hy. eauto.
  - by vm_compute.
  - lia.
Defined.

Example line_pruned :
  match occlude_list F32_1_2f 4 750 (compare_coords line_coords line_compare) 5 line_pool with
  | Ok rs => (id <$> rs) = [1; 3] | Crash => False end /\
  prune_neighbors F32_1_2f 3 750 1 5 line_coords line_compare line_pool [] = Ok [1; 3; 2].
Proof. split; by vm_compute. Qed.
