(* ===== verification/DeltaPrune.v ===== *)
(** * Removing one neighbour from a list that is one too long

    The "delta" routines of [src/utils/prune_neighbors.cpp] and their use in
    [insert_phase_pm] of [src/update/direct_insert.cpp]: when the back edge to
    a new node makes a neighbour list exceed [range], one entry is evicted with
    the help of the triangle target - neighbour - entry.  Three compile-time
    variants build the new list; [nhood_pq] is the default, [nhood_delta]
    belongs to [DELTA_PRUNING] and [nhood_batch] to [BATCH_PRUNING].

    [dpq] is the distance of two compressed vectors.  A read past the end of a
    vector, and a loop that does not end within its fuel, are [Crash]. *)
From S2P Require Import Prelude Neighbor Float32 Prune.

Record TriangleNeighbor (F : Type) := { tri_id : Z; tgt_dis : F; tri_distance : F }.
Arguments tri_id {_} _.
Arguments tgt_dis {_} _.
Arguments tri_distance {_} _.

Section delta.
Context {F : Type} `{!FloatOps F}.
Context (alpha : F) (range maxc : nat) (dpq : Z -> Z -> F).
Abbreviation TN := (TriangleNeighbor F).

Definition tri_lt (x y : TN) : bool :=
  dlt (tri_distance x) (tri_distance y) ||
  (negb (dlt (tri_distance y) (tri_distance x)) && (tri_id x <? tri_id y)).
Definition tri_le (x y : TN) : Prop := tri_lt y x = false.
#[local] Instance tri_le_dec x y : Decision (tri_le x y).
Proof. unfold tri_le. apply _. Defined.

Definition std_sort_tri (l : list TN) : list TN := merge_sort tri_le l.

(** The body of the loop for one entry: the value given to [to_evict]. *)
Definition fast_test (tgt_nbr_dis cur_alpha : F) (i : nat) (x : TN) : option nat :=
  if is_zero (tri_distance x) then None
  else if dlt tgt_nbr_dis (tri_distance x) then
    if fgt (fdiv (tri_distance x) (tgt_dis x)) cur_alpha then Some i else None
  else if fgt (fdiv tgt_nbr_dis (tgt_dis x)) cur_alpha then Some range else None.

(** The entries from the last one down; [i] is the index of the head of the
    reversed pool. *)
Fixpoint fast_scan (tgt_nbr_dis cur_alpha : F) (rev_pool : list TN) : option nat :=
  match rev_pool with
  | [] => None
  | x :: rest =>
      match fast_test tgt_nbr_dis cur_alpha (length rest) x with
      | Some e => Some e
      | None => fast_scan tgt_nbr_dis cur_alpha rest
      end
  end.

(** The result is [to_evict], [None] for [-1]; [pruned] says whether it is set. *)
Fixpoint fast_delta_rounds (fuel : nat) (cur_alpha : F) (pool : list TN) (tgt_nbr_dis : F) : outcome (option nat) :=
  match fuel with
  | O => Crash
  | S fuel =>
      if dlt cur_alpha f_one_minus then Ok None
      else match fast_scan tgt_nbr_dis cur_alpha (rev pool) with
           | Some e => Ok (Some e)
           | None => fast_delta_rounds fuel (div_1_2f cur_alpha) pool tgt_nbr_dis
           end
  end.

Definition fast_delta_prune_neighbors_pq (fuel : nat) (pool : list TN) (tgt_nbr_dis : F) : outcome (option nat) :=
  fast_delta_rounds fuel alpha pool tgt_nbr_dis.

(** [finish]: the identifiers without the entry [to_evict]. *)
Definition finish (to_evict : nat) (pool : list TN) : list Z := delete to_evict (tri_id <$> pool).

(** The first entry after [p] that [p] occludes. *)
Fixpoint slow_scan (p : TN) (t : nat) (rest : list TN) : option nat :=
  match rest with
  | [] => None
  | x :: rest =>
      if fgt (fdiv (tri_distance x) (dpq (tri_id p) (tri_id x))) alpha then Some t else slow_scan p (S t) rest
  end.

Fixpoint slow_search (tgt_idx start : nat) (pool : list TN) : option nat :=
  match pool with
  | [] => None
  | p :: rest =>
      if bool_decide (start = tgt_idx) then slow_search tgt_idx (S start) rest
      else match slow_scan p (S start) rest with
           | Some t => Some t
           | None => slow_search tgt_idx (S start) rest
           end
  end.

Definition slow_delta_prune_neighbors_pq (pool : list TN) (tgt_idx : nat) : outcome (list Z) :=
  if bool_decide (length pool = S range) then
    Ok (finish (default (length pool - 1)%nat (slow_search tgt_idx 0 pool)) pool)
  else Crash.

Definition delta_prune_neighbors_pq (fuel : nat) (pool : list TN) (tgt_idx : nat) : outcome (list Z) :=
  match pool !! tgt_idx with
  | None => Crash
  | Some tgt =>
      to_evict ← fast_delta_prune_neighbors_pq fuel pool (tri_distance tgt);
      match to_evict with
      | Some e => Ok (finish (if bool_decide (e = range) then tgt_idx else e) pool)
      | None => slow_delta_prune_neighbors_pq pool tgt_idx
      end
  end.

(** ** The three variants of the update of a neighbour list *)
Definition tri_pool (target_id nbr_id : Z) (ids : list Z) : list TN :=
  std_sort_tri ((fun x => {| tri_id := x; tgt_dis := dpq target_id x; tri_distance := dpq nbr_id x |}) <$> ids).

(** The index of the target in the sorted pool; its absence ends the process. *)
Definition target_index (target_id : Z) (pool : list TN) : outcome nat :=
  match list_find (fun x => tri_id x = target_id) pool with Some (i, _) => Ok i | None => Crash end.

Definition nhood_pq (fuel : nat) (target_id nbr_id : Z) (nhood : list Z) : outcome (list Z) :=
  let pool := std_sort_nb ((fun x => {| id := x; distance := dpq nbr_id x; flag := false; visited := false |}) <$> nhood) in
  prune_neighbors_pq alpha range maxc fuel dpq pool [].

Definition nhood_delta (fuel : nat) (target_id nbr_id : Z) (nhood : list Z) : outcome (list Z) :=
  let pool := tri_pool target_id nbr_id nhood in
  tgt_idx ← target_index target_id pool;
  delta_prune_neighbors_pq fuel pool tgt_idx.

Definition PRUNE_BATCH_SIZE : nat := (range / 16)%nat.

(** [nhood[k]] to [nhood[k + PRUNE_BATCH_SIZE - 1]]. *)
Definition batch_ids (k : nat) (nhood : list Z) : outcome (list Z) :=
  if bool_decide (k + PRUNE_BATCH_SIZE <= length nhood)%nat then Ok (take PRUNE_BATCH_SIZE (drop k nhood)) else Crash.

(** [erase(begin() + i)]. *)
Definition erase (i : nat) (nhood : list Z) : outcome (list Z) :=
  if bool_decide (i < length nhood)%nat then Ok (delete i nhood) else Crash.

Fixpoint batch_loop (fuel afuel k : nat) (target_id nbr_id : Z) (nhood : list Z) : outcome (bool * list Z) :=
  match fuel with
  | O => Crash
  | S fuel =>
      if bool_decide (k < length nhood)%nat then
        ids ← batch_ids k nhood;
        to_evict ← fast_delta_prune_neighbors_pq afuel (tri_pool target_id nbr_id ids) (dpq target_id nbr_id);
        match to_evict with
        | Some e =>
            nhood ← (if bool_decide (e = range) then Ok (take (length nhood - 1) nhood) else erase (k + e) nhood);
            Ok (true, nhood)
        | None => batch_loop fuel afuel (k + PRUNE_BATCH_SIZE) target_id nbr_id nhood
        end
      else Ok (false, nhood)
  end.

Definition nhood_batch (fuel afuel : nat) (target_id nbr_id : Z) (nhood : list Z) : outcome (list Z) :=
  '(pruned, nhood) ← batch_loop fuel afuel 0 target_id nbr_id nhood;
  if pruned : bool then Ok nhood
  else
    let pool := tri_pool target_id nbr_id nhood in
    tgt_idx ← target_index target_id pool;
    slow_delta_prune_neighbors_pq pool tgt_idx.

(** ** Facts *)
Definition fast_end (n : nat) : Prop := dlt (Nat.iter n div_1_2f alpha) f_one_minus = true.

(** One entry of [ids] is missing in [res]. *)
Definition one_evicted (ids res : list Z) : Prop := exists x, x :: res ≡ₚ ids.

Lemma delete_one (l : list Z) i : (i < length l)%nat -> one_evicted l (delete i l).
Proof.
  intros Hi. destruct (lookup_lt_is_Some_2 l i Hi) as [x Hx]. exists x. symmetry. by apply delete_Permutation.
Qed.

Lemma fast_scan_range tn a : forall pool e,
  fast_scan tn a pool = Some e -> (e < length pool)%nat \/ e = range.
Proof.
  induction pool as [|x pool IH]; simpl; intros e H; [done|].
  destruct (fast_test tn a (length pool) x) as [w|] eqn:E.
  - injection H as <-. unfold fast_test in E. repeat case_match; simplify_eq; simpl; auto; lia.
  - destruct (IH e H); [left; lia | by right].
Qed.

Lemma fast_delta_total n : fast_end n -> forall fuel k pool tn,
  (k <= n)%nat -> (n - k < fuel)%nat ->
  exists r, fast_delta_rounds fuel (Nat.iter k div_1_2f alpha) pool tn = Ok r /\
    (forall e, r = Some e -> (e < length pool)%nat \/ e = range).
Proof.
  intros Hn. induction fuel as [|fuel IH]; intros k pool tn Hk Hf; [lia|]. cbn [fast_delta_rounds].
  destruct (dlt (Nat.iter k div_1_2f alpha) f_one_minus) eqn:E; [by exists None|].
  destruct (fast_scan tn (Nat.iter k div_1_2f alpha) (rev pool)) as [e|] eqn:Es.
  - exists (Some e). split; [done|]. intros e' ?. simplify_eq. apply fast_scan_range in Es. by rewrite length_rev in Es.
  - assert (k <> n) by (intros ->; unfold fast_end in Hn; congruence). apply (IH (S k)); lia.
Qed.

Lemma fast_delta_spec n fuel pool tn : fast_end n -> (n < fuel)%nat ->
  exists r, fast_delta_prune_neighbors_pq fuel pool tn = Ok r /\
    (forall e, r = Some e -> (e < length pool)%nat \/ e = range).
Proof. intros Hn Hf. apply (fast_delta_total n Hn fuel 0 pool tn); lia. Qed.

Lemma slow_scan_range p : forall rest t e, slow_scan p t rest = Some e -> (t <= e < t + length rest)%nat.
Proof.
  induction rest as [|x rest IH]; simpl; intros t e H; [done|]. case_match; [simplify_eq; lia|].
  apply IH in H. lia.
Qed.

Lemma slow_search_range tgt_idx : forall pool start e,
  slow_search tgt_idx start pool = Some e -> (start <= e < start + length pool)%nat.
Proof.
  induction pool as [|p pool IH]; simpl; intros start e H; [done|].
  case_bool_decide; [apply IH in H; lia|].
  destruct (slow_scan p (S start) pool) as [t|] eqn:E; [simplify_eq; apply slow_scan_range in E; lia | apply IH in H; lia].
Qed.

Lemma slow_delta_spec pool tgt_idx : length pool = S range ->
  exists e, (e < length pool)%nat /\ slow_delta_prune_neighbors_pq pool tgt_idx = Ok (finish e pool).
Proof.
  intros Hl. unfold slow_delta_prune_neighbors_pq. rewrite bool_decide_eq_true_2 by done. eexists. split; [|done].
  destruct (slow_search tgt_idx 0 pool) as [e|] eqn:E; simpl; [apply slow_search_range in E; lia | lia].
Qed.

Lemma finish_one e pool : (e < length pool)%nat -> one_evicted (tri_id <$> pool) (finish e pool).
Proof. intros He. apply delete_one. by rewrite length_fmap. Qed.

Lemma tri_pool_perm t i ids : tri_id <$> tri_pool t i ids ≡ₚ ids.
Proof.
  unfold tri_pool, std_sort_tri. rewrite (merge_sort_Permutation tri_le), <- list_fmap_compose. by rewrite list_fmap_id.
Qed.

Lemma length_tri_pool t i ids : length (tri_pool t i ids) = length ids.
Proof. rewrite <- (length_fmap tri_id). by rewrite tri_pool_perm. Qed.

Lemma target_index_spec t pool : t ∈ tri_id <$> pool ->
  exists i x, target_index t pool = Ok i /\ pool !! i = Some x /\ tri_id x = t.
Proof.
  intros (x & Hx & Hin)%list_elem_of_fmap. unfold target_index.
  destruct (list_find (fun x => tri_id x = t) pool) as [[i y]|] eqn:E.
  - apply list_find_Some in E as (? & ? & _). by exists i, y.
  - apply list_find_None in E. rewrite Forall_forall in E. by destruct (E x Hin).
Qed.

Lemma one_evicted_perm l l' res : l ≡ₚ l' -> one_evicted l res -> one_evicted l' res.
Proof. intros H [x Hx]. exists x. by rewrite Hx. Qed.

Lemma one_evicted_nodup ids res : one_evicted ids res -> NoDup ids ->
  NoDup res /\ (forall x, x ∈ res -> x ∈ ids) /\ S (length res) = length ids.
Proof.
  intros [x Hx] Hnd. rewrite <- Hx in Hnd. apply NoDup_cons in Hnd as [_ Hnd]. split_and!; [done | |].
  - intros y Hy. rewrite <- Hx. set_solver.
  - by rewrite <- Hx.
Qed.

Lemma nhood_delta_spec n fuel t i nhood :
  length nhood = S range -> t ∈ nhood -> fast_end n -> (n < fuel)%nat ->
  exists res, nhood_delta fuel t i nhood = Ok res /\ one_evicted nhood res.
Proof.
  intros Hl Ht Hn Hf. unfold nhood_delta. set (pool := tri_pool t i nhood).
  assert (length pool = S range) as Hlp by (subst pool; by rewrite length_tri_pool).
  destruct (target_index_spec t pool) as (ti & x & -> & Hti & _); [subst pool; by rewrite tri_pool_perm|].
  cbn [mbind outcome_bind]. unfold delta_prune_neighbors_pq. rewrite Hti.
  destruct (fast_delta_spec n fuel pool (tri_distance x) Hn Hf) as (r & -> & Hr). cbn [mbind outcome_bind].
  pose proof (lookup_lt_Some _ _ _ Hti) as Hlt. destruct r as [e|].
  - eexists. split; [done|]. apply (one_evicted_perm _ _ _ (tri_pool_perm t i nhood)), finish_one. fold pool.
    case_bool_decide; [done|]. destruct (Hr e eq_refl); [done | congruence].
  - destruct (slow_delta_spec pool ti Hlp) as (e & He & ->). eexists. split; [done|].
    by apply (one_evicted_perm _ _ _ (tri_pool_perm t i nhood)), finish_one.
Qed.

Lemma nhood_pq_spec n fuel t i nhood :
  NoDup nhood -> nhood <> [] -> rounds_end alpha n -> (n < fuel)%nat ->
  exists res, nhood_pq fuel t i nhood = Ok res /\ pruned_ok alpha range nhood res.
Proof.
  intros Hnd Hne Hn Hf. unfold nhood_pq.
  set (l := (fun x => {| id := x; distance := dpq i x; flag := false; visited := false |}) <$> nhood).
  pose proof (std_sort_nb_perm l) as Hp. pose proof (fmap_Permutation id _ _ Hp) as Hids.
  assert (id <$> l = nhood) as El by (subst l; rewrite <- list_fmap_compose; apply list_fmap_id).
  destruct (prune_neighbors_pq_spec alpha range maxc dpq (std_sort_nb l) [] n fuel) as (res & E & [P1 P2 P3 P4]).
  - rewrite Hids. by rewrite El.
  - intros E. rewrite E in Hp. apply Permutation_nil_l in Hp. subst l. by destruct nhood.
  - done.
  - done.
  - exists res. split; [exact E|]. constructor; [done | | done |].
    + intros x Hx. specialize (P2 x Hx). by rewrite Hids, El in P2.
    + intros Ha. by rewrite (P4 Ha), Hids, El.
Qed.

Lemma take_one (l : list Z) : l <> [] -> one_evicted l (take (length l - 1) l).
Proof.
  intros Hl. destruct (exists_last Hl) as (l' & x & ->). exists x.
  rewrite length_app. simpl. rewrite Nat.add_sub, take_app_length. symmetry. apply Permutation_app_comm.
Qed.

Lemma batch_loop_spec n afuel t i : fast_end n -> (n < afuel)%nat -> (0 < PRUNE_BATCH_SIZE)%nat ->
  forall fuel k nhood q, length nhood = (PRUNE_BATCH_SIZE * q)%nat -> nhood <> [] ->
  (exists j, k = (PRUNE_BATCH_SIZE * j)%nat) -> (length nhood - k < fuel)%nat ->
  exists pruned res, batch_loop fuel afuel k t i nhood = Ok (pruned, res) /\
    (if pruned : bool then one_evicted nhood res else res = nhood).
Proof.
  intros Hn Ha Hp. induction fuel as [|fuel IH]; intros k nhood q Hl Hne [j ->] Hf; [lia|]. cbn [batch_loop].
  set (B := PRUNE_BATCH_SIZE) in *. case_bool_decide as Hk; [|by exists false, nhood].
  assert (j < q)%nat as Hjq by nia. unfold batch_ids. fold B. rewrite bool_decide_eq_true_2 by nia. cbn [mbind outcome_bind].
  destruct (fast_delta_spec n afuel (tri_pool t i (take B (drop (B * j) nhood))) (dpq t i) Hn Ha) as (r & -> & Hr).
  cbn [mbind outcome_bind]. destruct r as [e|].
  - case_bool_decide as He; cbn [mbind outcome_bind]; [exists true; eexists; split; [done | by apply take_one]|].
    destruct (Hr e eq_refl) as [Hlt|?]; [|done]. rewrite length_tri_pool, length_take in Hlt. unfold erase.
    rewrite bool_decide_eq_true_2 by nia. cbn [mbind outcome_bind]. exists true. eexists. split; [done|]. apply delete_one. nia.
  - apply (IH (B * j + B)%nat nhood q); [done | done | exists (S j); lia | nia].
Qed.

Lemma nhood_batch_spec n fuel afuel t i nhood :
  length nhood = S range -> (0 < PRUNE_BATCH_SIZE)%nat -> (S range mod PRUNE_BATCH_SIZE = 0)%nat ->
  t ∈ nhood -> fast_end n -> (n < afuel)%nat -> (S range < fuel)%nat ->
  exists res, nhood_batch fuel afuel t i nhood = Ok res /\ one_evicted nhood res.
Proof.
  intros Hl Hp Hdiv Ht Hn Ha Hf. unfold nhood_batch.
  apply Nat.Lcm0.mod_divide in Hdiv as [q Hq].
  destruct (batch_loop_spec n afuel t i Hn Ha Hp fuel 0 nhood q) as (pruned & res & -> & Hres).
  - lia.
  - by destruct nhood.
  - exists 0%nat. lia.
  - lia.
  - cbn [mbind outcome_bind]. destruct pruned; [by exists res|]. subst res. set (pool := tri_pool t i nhood).
    destruct (target_index_spec t pool) as (ti & x & -> & _); [subst pool; by rewrite tri_pool_perm|].
    cbn [mbind outcome_bind]. destruct (slow_delta_spec pool ti) as (e & He & ->); [subst pool; by rewrite length_tri_pool|].
    eexists. split; [done|]. by apply (one_evicted_perm _ _ _ (tri_pool_perm t i nhood)), finish_one.
Qed.

(** *** Where the batches go wrong *)
Lemma batch_loop_past_end afuel t i nhood :
  (length nhood mod PRUNE_BATCH_SIZE <> 0)%nat ->
  (forall j, (PRUNE_BATCH_SIZE * j + PRUNE_BATCH_SIZE <= length nhood)%nat ->
    fast_delta_prune_neighbors_pq afuel (tri_pool t i (take PRUNE_BATCH_SIZE (drop (PRUNE_BATCH_SIZE * j) nhood))) (dpq t i)
      = Ok None) ->
  forall fuel j, (PRUNE_BATCH_SIZE * j <= length nhood)%nat ->
    batch_loop fuel afuel (PRUNE_BATCH_SIZE * j) t i nhood = Crash.
Proof.
  intros Hmod Hno. induction fuel as [|fuel IH]; intros j Hj; [done|]. cbn [batch_loop].
  assert (PRUNE_BATCH_SIZE * j <> length nhood)%nat as Hne.
  { intros E. apply Hmod. rewrite <- E, Nat.mul_comm. apply Nat.Div0.mod_mul. }
  rewrite bool_decide_eq_true_2 by lia. unfold batch_ids. case_bool_decide as Hb; [|done].
  cbn [mbind outcome_bind]. rewrite Hno by done. cbn [mbind outcome_bind].
  replace (PRUNE_BATCH_SIZE * j + PRUNE_BATCH_SIZE)%nat with (PRUNE_BATCH_SIZE * S j)%nat by lia. apply IH. lia.
Qed.

Lemma fast_delta_nil fuel a tn r : fast_delta_rounds fuel a [] tn = Ok r -> r = None.
Proof. revert a. induction fuel as [|fuel IH]; intros a; simpl; [done|]. case_match; [congruence | apply IH]. Qed.

Lemma batch_loop_empty afuel t i nhood : PRUNE_BATCH_SIZE = 0%nat -> nhood <> [] ->
  forall fuel, batch_loop fuel afuel 0 t i nhood = Crash.
Proof.
  intros HB Hne. induction fuel as [|fuel IH]; [done|]. cbn [batch_loop].
  rewrite bool_decide_eq_true_2 by (destruct nhood; [done | simpl; lia]).
  unfold batch_ids. rewrite HB. rewrite bool_decide_eq_true_2 by lia. cbn [mbind outcome_bind].
  change (tri_pool t i (take 0 (drop 0 nhood))) with (@nil TN).
  destruct (fast_delta_prune_neighbors_pq afuel [] (dpq t i)) as [r|] eqn:E; [|done]. cbn [mbind outcome_bind].
  apply fast_delta_nil in E as ->. rewrite ?HB. exact IH.
Qed.

(** *** The target is compared with itself *)
Lemma fast_scan_target tn a tgt : forall pool,
  tgt ∈ pool -> is_zero (tri_distance tgt) = false -> dlt tn (tri_distance tgt) = false ->
  fgt (fdiv tn (tgt_dis tgt)) a = true ->
  (forall x, x ∈ pool -> dlt tn (tri_distance x) = true -> fgt (fdiv (tri_distance x) (tgt_dis x)) a = false) ->
  fast_scan tn a pool = Some range.
Proof.
  intros pool Hin Hz Hle Hself. induction pool as [|x pool IH]; intros Hfar; [by apply not_elem_of_nil in Hin|]. simpl.
  destruct (fast_test tn a (length pool) x) as [e|] eqn:E.
  - unfold fast_test in E. destruct (is_zero (tri_distance x)); [done|].
    destruct (dlt tn (tri_distance x)) eqn:El; [rewrite (Hfar x) in E by (set_solver || done); done|].
    case_match; by simplify_eq.
  - apply elem_of_cons in Hin as [<-|Hin].
    + exfalso. unfold fast_test in E. by rewrite Hz, Hle, Hself in E.
    + apply IH; [done|]. intros y Hy. apply Hfar. set_solver.
Qed.
End delta.

(** C36. A list of [range + 1] neighbours with the new node among them loses
    exactly one entry in the [DELTA_PRUNING] variant, whatever the distances
    are, and no step fails. *)
Theorem delta_prune_correct {F} `{!FloatOps F} (alpha : F) range dpq n fuel t i nhood :
  length nhood = S range -> t ∈ nhood -> fast_end alpha n -> (n < fuel)%nat ->
  exists res, nhood_delta alpha range dpq fuel t i nhood = Ok res /\ one_evicted nhood res.
Proof. apply nhood_delta_spec. Qed.

(** C37. In the [BATCH_PRUNING] variant the same holds as for [DELTA_PRUNING]
    when the batch size [range / 16] is positive and divides [range + 1]. *)
Theorem batch_prune_correct {F} `{!FloatOps F} (alpha : F) range dpq n fuel afuel t i nhood :
  length nhood = S range -> (0 < PRUNE_BATCH_SIZE range)%nat -> (S range mod PRUNE_BATCH_SIZE range = 0)%nat ->
  t ∈ nhood -> fast_end alpha n -> (n < afuel)%nat -> (S range < fuel)%nat ->
  exists res, nhood_batch alpha range dpq fuel afuel t i nhood = Ok res /\ one_evicted nhood res.
Proof. apply nhood_batch_spec. Qed.

(** Otherwise [BATCH_PRUNING] is not safe: when the batch size does not
    divide the length of the list and no full batch evicts an entry, the loop
    reads past the end of the vector; and when [range < 16] the batch size is
    zero and the loop never ends. *)
Theorem batch_prune_unsafe {F} `{!FloatOps F} (alpha : F) range dpq fuel afuel t i nhood :
  nhood <> [] ->
  ((length nhood mod PRUNE_BATCH_SIZE range <> 0)%nat /\
   (forall j, (PRUNE_BATCH_SIZE range * j + PRUNE_BATCH_SIZE range <= length nhood)%nat ->
      fast_delta_prune_neighbors_pq alpha range afuel
        (tri_pool dpq t i (take (PRUNE_BATCH_SIZE range) (drop (PRUNE_BATCH_SIZE range * j) nhood))) (dpq t i)
        = Ok None)) \/ (range < 16)%nat ->
  nhood_batch alpha range dpq fuel afuel t i nhood = Crash.
Proof.
  intros Hne H. unfold nhood_batch.
  assert (batch_loop alpha range dpq fuel afuel 0 t i nhood = Crash) as ->; [|done].
  destruct H as [[Hmod Hno]|Hr].
  - pose proof (batch_loop_past_end alpha range dpq afuel t i nhood Hmod Hno fuel 0) as H.
    rewrite Nat.mul_0_r in H. apply H. lia.
  - apply batch_loop_empty; [|done]. unfold PRUNE_BATCH_SIZE. by apply Nat.div_small.
Qed.

(** The fast path compares the new node with itself: its distance to
    itself is zero, so the quotient exceeds every [alpha], and the new node is
    evicted whenever it occludes no farther neighbour; nothing else about the
    neighbours matters and the search for an entry of low quality is not
    reached. *)
Theorem delta_prune_evicts_new_node {F} `{!FloatOps F} (alpha : F) range dpq fuel pool tgt_idx tgt :
  pool !! tgt_idx = Some tgt -> is_zero (tri_distance tgt) = false ->
  fgt (fdiv (tri_distance tgt) (tgt_dis tgt)) alpha = true -> dlt alpha f_one_minus = false ->
  (forall x, x ∈ pool -> dlt (tri_distance tgt) (tri_distance x) = true ->
    fgt (fdiv (tri_distance x) (tgt_dis x)) alpha = false) ->
  delta_prune_neighbors_pq alpha range dpq (S fuel) pool tgt_idx = Ok (finish tgt_idx pool).
Proof.
  intros Ht Hz Hself Ha Hfar. unfold delta_prune_neighbors_pq. rewrite Ht.
  unfold fast_delta_prune_neighbors_pq. cbn [fast_delta_rounds]. rewrite Ha.
  rewrite (fast_scan_target range (tri_distance tgt) alpha tgt (rev pool)).
  - cbn [mbind outcome_bind]. by rewrite bool_decide_eq_true_2.
  - apply list_elem_of_In. rewrite <- in_rev. apply list_elem_of_In. by eapply list_elem_of_lookup_2.
  - done.
  - apply dlt_irrefl.
  - done.
  - intros x Hx. apply Hfar. apply list_elem_of_In, in_rev, list_elem_of_In in Hx. done.
Qed.

(** Distances for the witnesses: the new node is 0, its neighbour 100. *)
Definition tri_dpq (near far : Z) (a b : Z) : F32 :=
  if a =? b then lit 0 0
  else if (a =? 100) && (b =? 0) then lit 4 0
  else if a =? 0 then (if b =? 100 then lit 4 0 else lit near 0)
  else lit far 0.
Definition full_list (n : nat) : list Z := (Z.of_nat <$> seq 1 n) ++ [0].

Lemma fast_end_1_2 : fast_end F32_1_2f 3.
Proof. by vm_compute. Qed.

Lemma full_list_target n : 0 ∈ full_list n.
Proof. unfold full_list. apply elem_of_app. right. by apply list_elem_of_singleton. Qed.

Lemma delta_prune_witness : exists res,
  nhood_delta F32_1_2f 4 (tri_dpq 1 9) 5 0 100 (full_list 4) = Ok res /\ one_evicted (full_list 4) res.
Proof.
  apply (delta_prune_correct F32_1_2f 4 (tri_dpq 1 9) 3 5 0 100 (full_list 4)).
  - done.
  - apply full_list_target.
  - exact fast_end_1_2.
  - lia.
Defined.

Lemma batch_prune_witness : exists res,
  nhood_batch F32_1_2f 33 (tri_dpq 1 9) 50 5 0 100 (full_list 33) = Ok res /\ one_evicted (full_list 33) res.
Proof.
  apply (batch_prune_correct F32_1_2f 33 (tri_dpq 1 9) 3 50 5 0 100 (full_list 33)).
  - done.
  - apply (bool_decide_unpack _). by vm_compute.
  - done.
  - apply full_list_target.
  - exact fast_end_1_2.
  - lia.
  - lia.
Defined.

(** Every batch before the last one, checked by evaluation. *)
Definition no_eviction (l : list Z) (near far : Z) (k : nat) : bool :=
  bool_decide (fast_delta_prune_neighbors_pq F32_1_2f 32 5 (tri_pool (tri_dpq near far) 0 100 (take 2 (drop (2 * k) l)))
                 (tri_dpq near far 0 100) = Ok None).

Lemma batch_unsafe_witness : nhood_batch F32_1_2f 32 (tri_dpq 90 9) 50 5 0 100 (full_list 32) = Crash.
Proof.
  apply (batch_prune_unsafe F32_1_2f 32 (tri_dpq 90 9) 50 5 0 100 (full_list 32)).
  - done.
  - left. split; [done|]. intros k Hk.
    assert (Forall (fun k => no_eviction (full_list 32) 90 9 k = true) (seq 0 16)) as H
      by (apply (bool_decide_unpack _); by vm_compute).
    change (length (full_list 32)) with 33%nat in Hk. change (PRUNE_BATCH_SIZE 32) with 2%nat in Hk |- *.
    rewrite Forall_forall in H. assert (k ∈ seq 0 16) as Hin by (rewrite elem_of_seq; lia).
    exact (bool_decide_eq_true_1 _ (H k Hin)).
Defined.

Definition self_pool : list (TriangleNeighbor F32) :=
  [{| tri_id := 1; tgt_dis := lit 90 0; tri_distance := lit 2 0 |};
   {| tri_id := 0; tgt_dis := lit 0 0; tri_distance := lit 4 0 |};
   {| tri_id := 2; tgt_dis := lit 90 0; tri_distance := lit 9 0 |}].

Lemma self_eviction_witness : delta_prune_neighbors_pq F32_1_2f 2 (tri_dpq 90 9) 5 self_pool 1 = Ok (finish 1 self_pool).
Proof.
  apply (delta_prune_evicts_new_node F32_1_2f 2 (tri_dpq 90 9) 4 self_pool 1 {| tri_id := 0; tgt_dis := lit 0 0; tri_distance := lit 4 0 |}).
  - done.
  - by vm_compute.
  - by vm_compute.
  - by vm_compute.
  - intros x Hx. assert (Forall (fun x => dlt (lit 4 0) (tri_distance x) = true ->
      fgt (fdiv (tri_distance x) (tgt_dis x)) F32_1_2f = false) self_pool) as H
      by (repeat constructor; intros Hlt; (by vm_compute) || (by vm_compute in Hlt)).
    rewrite Forall_forall in H. exact (H x Hx).
Defined.

(** [BATCH_PRUNING] sorts the batch but erases by the position in the
    unsorted list: here the new node occludes the neighbour 1, at distance 9,
    and not the neighbour 2, at distance 5; the edge to 2 is removed and the
    edge to 1 stays. *)
Theorem batch_prune_wrong_neighbor :
  let dpq a b := if (a =? 0) && (b =? 1) then lit 1 0 else if (a =? 100) && (b =? 1) then lit 9 0
                 else if (a =? 100) && (b =? 2) then lit 5 0 else tri_dpq 90 9 a b in
  exists rest, full_list 33 = 1 :: 2 :: rest /\
    nhood_batch F32_1_2f 33 dpq 50 5 0 100 (full_list 33) = Ok (1 :: rest) /\
    fgt (fdiv (dpq 100 1) (dpq 0 1)) F32_1_2f = true /\ fgt (fdiv (dpq 100 2) (dpq 0 2)) f_one_minus = false.
Proof. eexists. split; [done|]. split_and!; by vm_compute. Qed.
