(* ===== verification/Recovery.v ===== *)
(** * Recovery

    What [SSDIndex::load] ([src/ssd_index.cpp]) does after a crash: it reads
    the persistent location table word by word, rebuilds [id2loc_] and
    [page_layout] from it, and then re-checks the vectors inserted since the
    checkpoint: every neighbour of such a vector gets the reverse edge, in a
    new copy at a new location.  The table of an index that never had one is
    built by [build_id2loc_mapping] ([src/update/dynamic_index.cpp]). *)
From S2P Require Import Prelude Cuckoo Layout PageAlloc Mapping Node Versions Neighbor Float32 Prune DeltaPrune.
Import Cuckoo.

(** ** Building the table *)
Definition entries_per_sector : Z := SECTOR_LEN / 4.

(** One sector of the identity table; the rest of the last one stays zero. *)
Definition id2loc_sector (npts s : Z) : list Z :=
  (fun i => let global_idx := s * entries_per_sector + i in
            if global_idx <? npts then u32 global_idx else 0) <$> seqZ 0 entries_per_sector.

Definition build_id2loc_mapping (npts : Z) : list Z :=
  seqZ 0 (DIV_ROUND_UP (npts * 4) SECTOR_LEN) ≫= id2loc_sector npts.

(** ** Reading the table *)
Record scan_state := {
  sc_id2loc : gmap Z Z;
  sc_loc2id : gmap Z Z;
  sc_num_points : Z;
  sc_max_id : Z;
  sc_max_loc : Z;
}.

(** The word of identifier [id]; location 0 stands for "none" except for
    identifier 0. *)
Definition scan_word (id loc : Z) (s : scan_state) : scan_state :=
  let s :=
    if (id =? 0) || negb (loc =? 0) then
      {| sc_id2loc := insert_or_assign id loc (sc_id2loc s);
         sc_loc2id := insert_or_assign loc id (sc_loc2id s);
         sc_num_points := sc_num_points s + 1; sc_max_id := id; sc_max_loc := sc_max_loc s |}
    else s in
  {| sc_id2loc := sc_id2loc s; sc_loc2id := sc_loc2id s; sc_num_points := sc_num_points s;
     sc_max_id := sc_max_id s; sc_max_loc := if sc_max_loc s <? loc then loc else sc_max_loc s |}.

Definition init_scan : scan_state :=
  {| sc_id2loc := ∅; sc_loc2id := ∅; sc_num_points := 0; sc_max_id := 0; sc_max_loc := 0 |}.

Definition scan_ids (words : list Z) : scan_state :=
  foldl (fun s '(id, loc) => scan_word id loc s) init_scan (zip (seqZ 0 (Z.of_nat (length words))) words).

(** ** Rebuilding the maps *)
Section recover.
Variable g : geometry.
Abbreviation nps := (nnodes_per_sector g).

Definition recover_page (s : scan_state) (i : Z) : PageArr :=
  (fun j : nat =>
     if bool_decide (j < Z.to_nat nps)%nat then
       default kInvalidID (find (u32 (i * nps + Z.of_nat j)) (sc_loc2id s))
     else kInvalidID) <$> seq 0 kMaxElemInAPage.

Definition recovered_sectors (s : scan_state) : Z := (sc_num_points s + nps - 1) / nps.

Record recovered := { rc_state : map_state; rc_num_points : Z; rc_cur_id : Z; rc_max_id : Z }.

Definition recover_layout (words : list Z) : recovered :=
  let s := scan_ids words in
  let pages := foldl (fun m i => insert_new (u32 (i + loc_sector_no g 0)) (recover_page s i) m) ∅
                 (seqZ 0 (recovered_sectors s)) in
  let cur := u32 (sc_max_loc s + 1) in
  let cur := if cur mod nps =? 0 then cur else cur + (nps - cur mod nps) in
  {| rc_state := {| id2loc_ := sc_id2loc s;
                    alloc_ := {| page_layout := pages; empty_pages := []; cur_loc := cur |};
                    id2loc_pm_queue := [] |};
     rc_num_points := sc_num_points s; rc_cur_id := u32 (sc_max_id s + 1); rc_max_id := sc_max_id s |}.
End recover.

(** ** Facts about the table *)

(** The words that recovery takes for locations. *)
Definition recorded (words : list Z) (id loc : Z) : Prop :=
  0 <= id /\ words !! Z.to_nat id = Some loc /\ (id = 0 \/ loc <> 0).

Record scanned (words : list Z) (s : scan_state) : Prop := {
  sd_ids : forall id loc, sc_id2loc s !! id = Some loc <-> recorded words id loc;
  sd_sound : forall id loc, sc_loc2id s !! loc = Some id -> recorded words id loc;
  sd_locs : forall id loc, recorded words id loc -> is_Some (sc_loc2id s !! loc);
  sd_num : sc_num_points s = Z.of_nat (size (sc_id2loc s));
  sd_max_id : forall id loc, recorded words id loc -> id <= sc_max_id s;
  sd_max_in : words = [] \/ exists loc, recorded words (sc_max_id s) loc;
  sd_max_loc : forall loc, loc ∈ words -> loc <= sc_max_loc s;
  sd_max_loc_in : sc_max_loc s = 0 \/ sc_max_loc s ∈ words;
}.

Lemma recorded_snoc words w id loc :
  recorded (words ++ [w]) id loc <->
  recorded words id loc \/ (id = Z.of_nat (length words) /\ loc = w /\ (id = 0 \/ w <> 0)).
Proof.
  unfold recorded. destruct (decide (Z.to_nat id < length words)%nat) as [Hl|Hl].
  - rewrite lookup_app_l by done. split; [tauto|]. intros [H|(-> & _)]; [done|lia].
  - destruct (decide (Z.to_nat id = length words)) as [He|He].
    + rewrite lookup_app_r, He, Nat.sub_diag by lia. rewrite lookup_ge_None_2 with (l := words) by lia.
      simpl. split.
      * intros (H0 & [= ->] & H). right. split_and!; [lia | done | done].
      * intros [(_ & ? & _)|(-> & -> & H)]; [done|]. split_and!; [lia | done | done].
    + rewrite !lookup_ge_None_2 by (rewrite ?length_app; simpl; lia). split; [naive_solver|].
      intros [(_ & ? & _)|(-> & _)]; [done | lia].
Qed.

Lemma recorded_lt words id loc : recorded words id loc -> 0 <= id < Z.of_nat (length words).
Proof. intros (H0 & H%lookup_lt_Some & _). lia. Qed.

Lemma scan_ids_snoc words w :
  scan_ids (words ++ [w]) = scan_word (Z.of_nat (length words)) w (scan_ids words).
Proof.
  unfold scan_ids. rewrite length_app. simpl length.
  rewrite Nat2Z.inj_add, seqZ_app, zip_with_app by (rewrite ?length_seqZ; lia).
  rewrite foldl_app. by rewrite Z.add_0_l.
Qed.

Lemma scan_ids_spec words : scanned words (scan_ids words).
Proof.
  induction words as [|w words IH] using rev_ind.
  { unfold scan_ids. split; simpl; try done; try naive_solver.
    all: try (intros *; unfold recorded; rewrite lookup_nil; naive_solver).
    intros loc H. by apply not_elem_of_nil in H. }
  rewrite scan_ids_snoc. destruct IH as [Hi Hs Hl Hn Hm Hmi Hx Hxi].
  set (s := scan_ids words) in *. set (n := Z.of_nat (length words)).
  assert (Hfresh : sc_id2loc s !! n = None).
  { destruct (sc_id2loc s !! n) as [l|] eqn:E; [|done]. apply Hi, recorded_lt in E. lia. }
  assert (Hmax : (forall loc, loc ∈ words ++ [w] -> loc <= if sc_max_loc s <? w then w else sc_max_loc s) /\
    ((if sc_max_loc s <? w then w else sc_max_loc s) = 0 \/
     (if sc_max_loc s <? w then w else sc_max_loc s) ∈ words ++ [w])).
  { destruct (Z.ltb_spec (sc_max_loc s) w); split.
    1,3: intros loc [H0| ->%list_elem_of_singleton]%elem_of_app; [specialize (Hx _ H0)|]; lia.
    - right. set_solver.
    - destruct Hxi; [by left | right; set_solver]. }
  unfold scan_word. destruct ((n =? 0) || negb (w =? 0)) eqn:E.
  - assert (Hrec : n = 0 \/ w <> 0) by (apply orb_true_iff in E as [E|E]; zbool; [by left | by right]).
    rewrite !insert_or_assign_eq.
    split; simpl; try apply Hmax.
    + intros id loc. rewrite recorded_snoc, lookup_insert_Some, Hi. split.
      * intros [[<- <-]|[Hne Hr]]; [by right | by left].
      * intros [Hr|(-> & -> & _)]; [right | by left]. split; [|done]. apply recorded_lt in Hr. lia.
    + intros id loc. rewrite recorded_snoc, lookup_insert_Some. intros [[<- <-]|[_ Hr]]; [by right | left; eauto].
    + intros id loc. rewrite recorded_snoc, lookup_insert. case_decide; [done|].
      intros [Hr|(-> & -> & _)]; [eauto | done].
    + rewrite map_size_insert_None by done. lia.
    + intros id loc. rewrite recorded_snoc. intros [Hr%recorded_lt|(-> & _)]; lia.
    + right. exists w. rewrite recorded_snoc. by right.
  - assert (Hrec : n <> 0 /\ w = 0) by (by zbool). destruct Hrec as [Hn0 ->].
    assert (Heq : forall id loc, recorded (words ++ [0]) id loc <-> recorded words id loc).
    { intros id loc. rewrite recorded_snoc. naive_solver lia. }
    split; simpl; try apply Hmax; try (intros *; rewrite Heq; eauto).
    + exact Hn.
    + destruct Hmi as [->|[l Hr]]; [done|]. right. exists l. by rewrite Heq.
Qed.

(** ** The recovered maps *)
Section layout.
Context (g : geometry) (Hg : geometry_wf g).
Abbreviation nps := (nnodes_per_sector g).

(** A table that recovery can read: identifiers have different locations, and
    the numbers fit into their types. *)
Record table_ok (words : list Z) : Prop := {
  tb_len : 0 < Z.of_nat (length words) < kAllocatedID;
  tb_range : forall loc, loc ∈ words -> 0 <= loc /\ loc + nps < 2 ^ 32 - 1;
  tb_inj : forall id1 id2 loc, recorded words id1 loc -> recorded words id2 loc -> id1 = id2;
}.

(** The locations lie in the pages that the number of points accounts for,
    which are the pages that recovery scans. *)
Definition table_dense (words : list Z) : Prop :=
  forall id loc, recorded words id loc -> loc < recovered_sectors g (scan_ids words) * nps.

Context (words : list Z) (Hw : table_ok words).
Let s := scan_ids words.
Let Hs : scanned words s := scan_ids_spec words.
Let r := recover_layout g words.
Abbreviation sectors := (recovered_sectors g s).

Lemma recovered_sectors_pos : 0 <= sectors.
Proof. unfold recovered_sectors. pose proof (nps_range g Hg). rewrite (sd_num _ _ Hs). apply Z.div_pos; lia. Qed.

Lemma recorded_range id loc : recorded words id loc -> 0 <= loc <= sc_max_loc s /\ loc + nps < 2 ^ 32 - 1.
Proof.
  intros (H0 & Hl%list_elem_of_lookup_2 & _). pose proof (tb_range _ Hw _ Hl). pose proof (sd_max_loc _ _ Hs _ Hl). lia.
Qed.

Lemma max_loc_range : 0 <= sc_max_loc s /\ sc_max_loc s + nps < 2 ^ 32 - 1.
Proof.
  destruct (sd_max_loc_in _ _ Hs) as [->|Hin]; [|by apply (tb_range _ Hw)].
  destruct (lookup_lt_is_Some_2 words 0) as [w0 E0%list_elem_of_lookup_2]; [pose proof (tb_len _ Hw); lia|].
  pose proof (tb_range _ Hw _ E0). lia.
Qed.

Lemma sc_loc2id_spec id loc : sc_loc2id s !! loc = Some id <-> recorded words id loc.
Proof.
  split; [apply (sd_sound _ _ Hs)|]. intros Hr. destruct (sd_locs _ _ Hs _ _ Hr) as [id' E].
  by rewrite (tb_inj _ Hw _ _ _ Hr (sd_sound _ _ Hs _ _ E)).
Qed.

(** There are at most as many recorded identifiers as locations up to the
    highest one. *)
Lemma num_points_max_loc : sc_num_points s <= sc_max_loc s + 1.
Proof.
  rewrite (sd_num _ _ Hs). rewrite <- length_map_to_list, <- (length_fmap snd).
  assert (length (snd <$> map_to_list (sc_id2loc s)) <= length (seqZ 0 (sc_max_loc s + 1)))%nat as Hle.
  { apply submseteq_length, NoDup_submseteq.
    - apply NoDup_fmap_2_strong; [|apply NoDup_map_to_list].
      intros [i1 l1] [i2 l2] H1%elem_of_map_to_list H2%elem_of_map_to_list E. simpl in E. subst l2.
      apply (sd_ids _ _ Hs) in H1, H2. by rewrite (tb_inj _ Hw _ _ _ H1 H2).
    - intros l ([i l'] & -> & H1%elem_of_map_to_list)%list_elem_of_fmap. simpl.
      apply (sd_ids _ _ Hs), recorded_range in H1. apply elem_of_seqZ. lia. }
  rewrite length_seqZ in Hle. pose proof max_loc_range. lia.
Qed.

(** The frontier of the allocator is the end of the page of the highest
    location. *)
Lemma recovered_cur_loc : exists q, cur_loc (alloc_ (rc_state r)) = q * nps /\ sectors <= q /\
  sc_max_loc s < q * nps <= sc_max_loc s + nps.
Proof.
  pose proof (nps_range g Hg). pose proof max_loc_range. pose proof num_points_max_loc as Hn.
  unfold r, recover_layout. cbn [rc_state alloc_ cur_loc]. fold s. rewrite u32_small by lia.
  set (x := sc_max_loc s + 1) in *.
  assert (Hlow : (sectors - 1) * nps < x).
  { unfold recovered_sectors. pose proof (Z.mul_div_le (sc_num_points s + nps - 1) nps ltac:(lia)). lia. }
  pose proof (Z.div_mod x nps ltac:(lia)). pose proof (Z.mod_pos_bound x nps ltac:(lia)). set (q := sectors) in *. clearbody q.
  destruct (Z.eqb_spec (x mod nps) 0); [exists (x / nps) | exists (x / nps + 1)]; split_and!; nia.
Qed.

Lemma scanned_pages_range : 0 <= sectors /\ sectors * nps < 2 ^ 32 - 1.
Proof.
  split; [apply recovered_sectors_pos|]. pose proof (nps_range g Hg). pose proof max_loc_range.
  destruct recovered_cur_loc as (q & _ & Hq & Hle). nia.
Qed.

Lemma recovered_pages p :
  page_layout (alloc_ (rc_state r)) !! p =
  if decide (1 <= p <= sectors) then Some (recover_page g s (p - 1)) else None.
Proof.
  pose proof scanned_pages_range as [? Hsm]. pose proof (nps_range g Hg).
  unfold r, recover_layout. cbn [rc_state alloc_ page_layout]. fold s in Hsm |- *.
  unfold seqZ. rewrite foldl_fmap.
  rewrite (foldl_insert_range insert_new 1 (fun i => u32 (Z.of_nat i + 0 + loc_sector_no g 0))
    (fun i => recover_page g s (Z.of_nat i + 0))).
  - rewrite lookup_empty. destruct (decide (1 <= p <= sectors)).
    + rewrite decide_True by lia. do 2 f_equal. lia.
    + by rewrite decide_False by lia.
  - intros. by apply insert_new_absent.
  - intros i Hi. split; [|done]. rewrite loc_sector_no_eq by (done || (split; lia)).
    rewrite Z.div_0_l by lia. rewrite u32_small by nia. lia.
Qed.

Lemma recovered_loc2id l : loc_ok l ->
  loc2id g (alloc_ (rc_state r)) l = if decide (l < sectors * nps) then default kInvalidID (sc_loc2id s !! l) else kInvalidID.
Proof.
  intros Hl. pose proof (nps_range g Hg). pose proof (nps_le_arr g Hg).
  pose proof (Z.div_mod l nps). pose proof (Z.mod_pos_bound l nps). pose proof (loc_div_range g Hg l Hl).
  rewrite loc2id_page, recovered_pages, loc_page_eq, loc_slot_eq by done.
  destruct (decide (1 <= 1 + l / nps <= sectors)) as [Hp|Hp].
  - rewrite decide_True by nia. unfold recover_page. rewrite list_lookup_total_alt, list_lookup_fmap, lookup_seq_lt by lia. simpl.
    rewrite bool_decide_eq_true_2 by lia.
    replace ((1 + l / nps - 1) * nps + Z.of_nat (Z.to_nat (l mod nps))) with l by lia.
    unfold find, find_fn. rewrite u32_small by (destruct Hl; lia). by destruct (sc_loc2id s !! l).
  - by rewrite decide_False by nia.
Qed.

Lemma recovered_alloc_inv : alloc_inv g (alloc_ (rc_state r)).
Proof.
  pose proof (nps_range g Hg). pose proof recovered_sectors_pos. pose proof max_loc_range.
  destruct recovered_cur_loc as (q & Ec & Hq & Hle). split.
  - intros p v. rewrite recovered_pages. case_decide; [|done]. intros [= <-].
    unfold recover_page. by rewrite length_fmap, length_seq.
  - intros p. rewrite recovered_pages, Ec, Z.div_mul by lia.
    case_decide; [lia | by intros [? ?]].
  - apply NoDup_nil_2.
  - intros p Hp. by apply not_elem_of_nil in Hp.
  - rewrite Ec. apply Z.mod_mul. lia.
  - rewrite Ec. lia.
Qed.

(** What the page table knows of a recorded identifier. *)
Lemma recovered_entry id loc : recorded words id loc ->
  0 <= id < kAllocatedID /\ loc_ok loc /\
  loc2id g (alloc_ (rc_state r)) loc = if decide (loc < sectors * nps) then id else kInvalidID.
Proof.
  intros Hr. pose proof (recorded_lt _ _ _ Hr). pose proof (tb_len _ Hw). pose proof (recorded_range _ _ Hr).
  pose proof (nps_range g Hg). assert (loc_ok loc) by (split; lia). split; [lia|]. split; [done|].
  rewrite recovered_loc2id by done. apply sc_loc2id_spec in Hr. by rewrite Hr.
Qed.

(** The maps agree exactly when the table is dense. *)
Lemma recovered_inv : table_dense words -> index_inv g (rc_state r).
Proof.
  intros Hd. split; [apply recovered_alloc_inv | |].
  - intros id loc E. apply (sd_ids _ _ Hs) in E. destruct (recovered_entry id loc E) as (? & ? & El).
    rewrite decide_True in El by by apply (Hd id). done.
  - intros loc id Hl. rewrite recovered_loc2id by done. case_decide; [|by intros <-].
    destruct (sc_loc2id s !! loc) as [id'|] eqn:E; simpl; [|by intros <-].
    intros -> _ _. apply (sd_ids _ _ Hs). by apply sc_loc2id_spec.
Qed.

Lemma dense_cur_loc : table_dense words -> cur_loc (alloc_ (rc_state r)) = sectors * nps.
Proof.
  intros Hd. pose proof (nps_range g Hg). destruct recovered_cur_loc as (q & -> & Hq & Hle).
  assert (forall i loc, words !! i = Some loc -> loc < sectors * nps) as Hall.
  { destruct (lookup_lt_is_Some_2 words 0) as [w0 E0]; [pose proof (tb_len _ Hw); lia|].
    assert (recorded words 0 w0) as H0 by (split_and!; [lia | done | by left]).
    pose proof (Hd _ _ H0) as H1. pose proof (recorded_range _ _ H0). fold s in H1.
    intros i loc E. destruct (Z.eq_dec loc 0) as [->|Hne]; [lia|].
    apply (Hd (Z.of_nat i)). split_and!; [lia | by rewrite Nat2Z.id | by right]. }
  assert (sc_max_loc s < sectors * nps); [|assert (q = sectors) as -> by (clear Hall; set (k := sectors) in *; clearbody k; nia); done].
  destruct (sd_max_loc_in _ _ Hs) as [->|[i Hi]%list_elem_of_lookup]; [|by apply (Hall i)].
  destruct (lookup_lt_is_Some_2 words 0) as [w0 E0]; [pose proof (tb_len _ Hw); lia|].
  pose proof (Hall _ _ E0). apply list_elem_of_lookup_2, (tb_range _ Hw) in E0. lia.
Qed.

Lemma recovered_inv_dense : index_inv g (rc_state r) -> table_dense words.
Proof.
  intros Hi id loc Hr. destruct (recovered_entry id loc Hr) as (Hid & _ & E). fold s.
  destruct (ii_fwd _ _ Hi id loc) as (_ & _ & E'); [by apply (sd_ids _ _ Hs)|].
  rewrite E' in E. case_decide; [done|]. unfold kInvalidID, kAllocatedID in *. lia.
Qed.
End layout.

(** ** The table of a fresh index *)
Section identity.
Context (g : geometry) (Hg : geometry_wf g) (npts : Z).
Context (Hn : 0 < npts /\ npts + nnodes_per_sector g + entries_per_sector < 2 ^ 32 - 1).
Let words := build_id2loc_mapping npts.
Let s := scan_ids words.
Let Hs : scanned words s := scan_ids_spec words.

Definition table_sectors : Z := DIV_ROUND_UP (npts * 4) SECTOR_LEN.

Lemma table_sectors_bounds : npts <= table_sectors * entries_per_sector < npts + entries_per_sector.
Proof.
  unfold table_sectors, DIV_ROUND_UP. change entries_per_sector with 1024. change SECTOR_LEN with 4096.
  pose proof (Z.div_mod (npts * 4) 4096 ltac:(lia)). pose proof (Z.mod_pos_bound (npts * 4) 4096 ltac:(lia)).
  destruct (Z.eqb_spec (npts * 4 mod 4096) 0); [lia|].
  assert (npts * 4 mod 4096 = 4 * (npts mod 1024)); [|lia].
  rewrite Z.mul_comm. change 4096 with (4 * 1024). by rewrite Z.mul_mod_distr_l.
Qed.

Lemma build_lookup : forall k, 0 <= k -> forall i : nat,
  (seqZ 0 k ≫= id2loc_sector npts) !! i =
  if decide (Z.of_nat i < k * entries_per_sector)
  then Some (if Z.of_nat i <? npts then u32 (Z.of_nat i) else 0) else None.
Proof.
  change entries_per_sector with 1024. intros k0 Hk0. pattern k0. apply natlike_ind; [| |done].
  { intros i. simpl. by rewrite decide_False by lia. }
  intros k Hk IH i. unfold Z.succ. rewrite seqZ_app by lia. rewrite bind_app. simpl seqZ.
  change (seqZ (0 + k) 1) with [0 + k]. cbn [mbind list_bind]. rewrite app_nil_r.
  assert (Hlen : length (seqZ 0 k ≫= id2loc_sector npts) = Z.to_nat (k * 1024)).
  { apply Nat.le_antisymm; apply Nat.nlt_ge; intros Hlt.
    - apply lookup_lt_is_Some_2 in Hlt as [x E]. rewrite IH, decide_False in E by lia. done.
    - assert (E := IH (length (seqZ 0 k ≫= id2loc_sector npts))). rewrite decide_True in E by lia.
      by rewrite lookup_ge_None_2 in E by lia. }
  destruct (decide (Z.of_nat i < k * 1024)) as [Hi|Hi].
  - rewrite lookup_app_l, IH by lia. by rewrite !decide_True by lia.
  - rewrite lookup_app_r, Hlen by lia. unfold id2loc_sector. change entries_per_sector with 1024. rewrite list_lookup_fmap.
    set (j := (i - Z.to_nat (k * 1024))%nat).
    assert (Hj : Z.of_nat i = (0 + k) * 1024 + (0 + Z.of_nat j)) by lia.
    destruct (decide (Z.of_nat i < (k + 1) * 1024)) as [Hi2|Hi2].
    + rewrite lookup_seqZ_lt by lia. simpl. by rewrite Hj.
    + by rewrite lookup_seqZ_ge by lia.
Qed.

Lemma words_lookup i : words !! i =
  if decide (Z.of_nat i < table_sectors * entries_per_sector)
  then Some (if Z.of_nat i <? npts then Z.of_nat i else 0) else None.
Proof.
  unfold words, build_id2loc_mapping. fold table_sectors. pose proof table_sectors_bounds as Ht.
  rewrite build_lookup by (change entries_per_sector with 1024 in Ht; lia).
  pose proof (nps_range g Hg). assert (entries_per_sector = 1024) by done.
  case_decide; [|done]. destruct (Z.ltb_spec (Z.of_nat i) npts); [|done]. by rewrite u32_small by lia.
Qed.

Lemma identity_recorded id loc : recorded words id loc <-> loc = id /\ 0 <= id < npts.
Proof.
  pose proof table_sectors_bounds. pose proof (nps_range g Hg). unfold recorded. rewrite words_lookup. split.
  - intros (Hid & E & Hr). case_decide; [|done]. injection E as <-. rewrite Z2Nat.id in * by done.
    destruct (Z.ltb_spec id npts); [done | destruct Hr; lia].
  - intros [-> H1]. split; [lia|]. rewrite Z2Nat.id by lia. rewrite decide_True by lia.
    destruct (Z.ltb_spec id npts); [|lia]. split; [done | lia].
Qed.

Lemma identity_num : sc_num_points s = npts.
Proof.
  rewrite (sd_num _ _ Hs). rewrite <- (size_dom (D := gset Z)).
  replace (dom (sc_id2loc s)) with (list_to_set (seqZ 0 npts) : gset Z).
  - rewrite size_list_to_set by apply NoDup_seqZ. rewrite length_seqZ. lia.
  - apply set_eq. intros id. rewrite elem_of_list_to_set, elem_of_seqZ, elem_of_dom. split.
    + intros Hid. exists id. apply (sd_ids _ _ Hs), identity_recorded. split; [done | lia].
    + intros [l Hl%(sd_ids _ _ Hs)%identity_recorded]. lia.
Qed.

Lemma identity_table_ok : table_ok g words.
Proof.
  pose proof table_sectors_bounds as Ht. pose proof (nps_range g Hg).
  assert (Hlen : Z.of_nat (length words) = table_sectors * entries_per_sector).
  { apply Z.le_antisymm; apply Z.nlt_ge; intros Hlt.
    - assert (E := words_lookup (Z.to_nat (table_sectors * entries_per_sector))).
      rewrite decide_False in E by lia. apply lookup_ge_None_1 in E. lia.
    - assert (E := words_lookup (length words)). rewrite decide_True in E by lia.
      by rewrite lookup_ge_None_2 in E. }
  assert (Hval : forall w, w ∈ words -> 0 <= w < npts).
  { intros w [i E]%list_elem_of_lookup. rewrite words_lookup in E. case_decide; [|done]. injection E as <-.
    destruct (Z.ltb_spec (Z.of_nat i) npts); lia. }
  split.
  - rewrite Hlen. unfold kAllocatedID. lia.
  - intros w Hw%Hval. lia.
  - intros id1 id2 loc [-> _]%identity_recorded [E _]%identity_recorded. done.
Qed.

Lemma identity_dense : table_dense g words.
Proof.
  intros id loc [-> Hid]%identity_recorded. pose proof (nps_range g Hg). unfold recovered_sectors.
  pose proof identity_num as E. unfold s in E. rewrite E.
  pose proof (num_sectors_bounds g Hg npts ltac:(change entries_per_sector with 1024 in Hn; lia)). lia.
Qed.

Lemma identity_max_id : sc_max_id s = npts - 1.
Proof.
  assert (H0 : recorded words (npts - 1) (npts - 1)) by (apply identity_recorded; lia).
  apply (sd_max_id _ _ Hs) in H0. destruct (sd_max_in _ _ Hs) as [E|[l Hl%identity_recorded]]; [|lia].
  pose proof (tb_len _ _ identity_table_ok) as Hl. rewrite E in Hl. simpl in Hl. lia.
Qed.
End identity.

(** ** Re-checking the vectors after the checkpoint *)

Section fix_ids.
Context {F : Type} `{!FloatOps F}.
Context (g : geometry) (alpha : F) (range : nat) (dpq : Z -> Z -> F) (fuel afuel : nat).
(** [deflate_vector]: the compressed form of a vector. *)
Context (deflate : list Z -> list Z) (n_chunks : Z).
(** The number of vectors whose compressed form is in [data]: the count in the
    file of the compressed vectors. *)
Context (n_data : Z).
Abbreviation nps := (nnodes_per_sector g).

Record fix_state := {
  fx_map : map_state;
  fx_file : Z -> Z;
  fx_pq : Z -> Z;
  fx_hints : list Z;
}.

(** The list of a neighbour with the re-checked vector in it.  The distances
    are between compressed vectors, at [id * n_chunks] of [data] each. *)
Definition fix_nhood (id nbr_id : Z) (old : list Z) : outcome (list Z) :=
  let nhood := if bool_decide (id ∈ old) then old else old ++ [id] in
  if bool_decide (range < length nhood)%nat then
    if forallb (fun j => j <? n_data) (id :: nbr_id :: nhood) then nhood_batch alpha range dpq fuel afuel id nbr_id nhood
    else Crash
  else Ok nhood.

Definition fix_neighbor (st : map_state) (id : Z) (nl : Z * Z) (m : Z -> Z) : outcome (Z -> Z) :=
  let '(neighbor_id, new_loc) := nl in
  neighbor_loc ← id2loc st neighbor_id;
  let neighbor := disk_node g m (u_loc_offset g neighbor_loc) in
  nhood ← fix_nhood id neighbor_id (nbrs neighbor);
  Ok (write_node g (u_loc_offset g new_loc) {| coords := coords neighbor; nbrs := nhood |} m).

(** The loop that switches [id2loc_] and collects the pages of the old
    versions. *)
Fixpoint fix_id2loc (nl : list (Z * Z)) (st : map_state) (orig hints : list Z)
  : outcome (map_state * list Z * list Z) :=
  match nl with
  | [] => Ok (st, orig, hints)
  | (id, loc) :: nl =>
      orig_loc ← id2loc st id;
      fix_id2loc nl (set_id2loc (insert_or_assign id (u32 loc) (id2loc_ st)) st) (orig ++ [orig_loc])
        (hints ++ [loc_sector_no g orig_loc])
  end.

(** The round trip of the list through a [std::set]. *)
Definition dedup_pages (hints : list Z) : list Z := std_set hints.

(** One iteration of the loop over the identifiers. *)
Definition fix_id (id : Z) (x : fix_state) : outcome fix_state :=
  loc ← id2loc (fx_map x) id;
  let nd := disk_node g (fx_file x) (u_loc_offset g loc) in
  let pq := store (id * n_chunks) (deflate (coords nd)) (fx_pq x) in
  '(new_locs, hints, _, a) ←
    alloc_loc_compact g (Z.of_nat (length (nbrs nd))) (fx_hints x) ∅ (alloc_ (fx_map x));
  let nl := zip (nbrs nd) new_locs in
  let st := set_alloc a (fx_map x) in
  m ← foldM (fix_neighbor st id) nl (fx_file x);
  '(st, orig_locs, hints) ← fix_id2loc nl st [] hints;
  Ok {| fx_map := set_alloc (erase_and_set_loc g orig_locs new_locs (nbrs nd) (alloc_ st)) st;
        fx_file := m; fx_pq := pq; fx_hints := dedup_pages hints |}.

(** [load] on persistent memory: the maps, then the vectors from the
    checkpoint on. *)
Definition recover (words : list Z) (file pq : Z -> Z) (ckpt_id : Z) : outcome fix_state :=
  let r := recover_layout g words in
  foldM fix_id (seqZ ckpt_id (rc_max_id r + 1 - ckpt_id))
    {| fx_map := rc_state r; fx_file := file; fx_pq := pq; fx_hints := [] |}.
End fix_ids.

#[local] Arguments fix_nhood : simpl never.
#[local] Arguments fix_neighbor : simpl never.
#[local] Arguments write_node : simpl never.
#[local] Arguments disk_node : simpl never.

(** *** One vector *)
Section fix_facts.
Context {F : Type} `{!FloatOps F}.
Context (g : geometry) (Hg : geometry_wf g) (alpha : F) (range : nat) (dpq : Z -> Z -> F) (fuel afuel : nat) (n_data : Z).
Context (Hfit : offset_to_node_nhood g + 4 + 4 * Z.of_nat range <= max_node_len g).
Context (Hprune : forall t i l, length l = S range -> t ∈ l ->
  exists r, nhood_batch alpha range dpq fuel afuel t i l = Ok r /\ one_evicted l r).
Abbreviation nps := (nnodes_per_sector g).
Abbreviation off := (u_loc_offset g).

Lemma range_small : Z.of_nat range < 2 ^ 32.
Proof.
  destruct Hg as [H1 H2 H3 H4]. unfold SECTOR_LEN in H4. pose proof (u64_range (data_dim g * sizeof_T g)).
  unfold offset_to_node_nhood in Hfit. nia.
Qed.

(** How the list [old] of a neighbour changes when [id] is re-checked. *)
Record list_fixed (id : Z) (old r : list Z) : Prop := {
  lf_in : id ∈ r \/ length r = range;
  lf_keep : forall a, a ∈ old -> a ∈ r \/ length r = range;
  lf_sub : r ⊆ old ++ [id];
  lf_nodup : NoDup r;
  lf_len : (length r <= range)%nat;
  lf_full : length old = range -> length r = range;
}.

Lemma fix_nhood_spec id nbr old : NoDup old -> (length old <= range)%nat ->
  id < n_data -> nbr < n_data -> (forall j, j ∈ old -> j < n_data) ->
  exists r, fix_nhood alpha range dpq fuel afuel n_data id nbr old = Ok r /\ list_fixed id old r.
Proof.
  intros Hnd Hlen Hid Hnbr Hold. unfold fix_nhood.
  destruct (bool_decide_reflect (id ∈ old)) as [Hin|Hin].
  { rewrite bool_decide_eq_false_2 by lia. exists old. split; [done|]. split; try done; [by left | by left | set_solver]. }
  assert (Hnd' : NoDup (old ++ [id])) by by apply NoDup_snoc.
  assert (Hl' : length (old ++ [id]) = S (length old)) by (rewrite length_app; simpl; lia).
  case_bool_decide as Hr.
  - assert (forallb (fun j => j <? n_data) (id :: nbr :: old ++ [id]) = true) as ->.
    { apply forallb_forall. intros j Hj%list_elem_of_In. apply Z.ltb_lt.
      rewrite !elem_of_cons, elem_of_app, list_elem_of_singleton in Hj. destruct Hj as [->|[->|[Hj| ->]]]; auto. }
    destruct (Hprune id nbr (old ++ [id])) as (r & E & x & Hp); [lia | set_solver |].
    exists r. split; [done|].
    assert (length r = range) by (apply Permutation_length in Hp; simpl in Hp; lia).
    pose proof Hnd' as Hnd2. rewrite <- Hp in Hnd2. apply NoDup_cons in Hnd2 as [_ Hnd2].
    split; [by right | by right | | done | lia | done]. intros a Ha. rewrite <- Hp. set_solver.
  - eexists. split; [done|]. split; [left | left | | | rewrite Hl'; lia | lia]; set_solver.
Qed.

Lemma fixed_fits id nd r : (node_good g range) nd -> 0 <= id < 2 ^ 32 -> list_fixed id (nbrs nd) r ->
  (node_good g range) {| coords := coords nd; nbrs := r |}.
Proof.
  intros ((Hc & Hl & _ & Hr) & _) Hid [_ _ Hsub Hnd Hlen _]. pose proof range_small.
  split_and!; [|done | done]. split_and!; simpl; [done | lia | lia |].
  rewrite Forall_forall in Hr |- *. intros x Hx%Hsub. apply elem_of_app in Hx as [Hx| ->%list_elem_of_singleton]; auto.
Qed.

(** [m'] has at [l] the new version of the node that [m] has at [lj]. *)
Definition version_of (id : Z) (m m' : Z -> Z) (lj l : Z) : Prop :=
  let old := disk_node g m (off lj) in
  exists r, list_fixed id (nbrs old) r /\ disk_node g m' (off l) = {| coords := coords old; nbrs := r |}.

Lemma fix_neighbors_spec st id nl m :
  0 <= id < 2 ^ 32 -> id < n_data -> NoDup nl.*2 -> (forall l, l ∈ nl.*2 -> loc_ok l) ->
  (forall j, j ∈ nl.*1 -> exists lj, id2loc_ st !! j = Some lj /\ loc_ok lj /\ lj ∉ nl.*2 /\
     node_good g range (disk_node g m (off lj)) /\ j < n_data /\ forall a, a ∈ nbrs (disk_node g m (off lj)) -> a < n_data) ->
  exists m', foldM (fix_neighbor g alpha range dpq fuel afuel n_data st id) nl m = Ok m' /\
    (forall l a, loc_ok l -> l ∉ nl.*2 -> off l <= a < off l + max_node_len g -> m' a = m a) /\
    (forall j l, (j, l) ∈ nl -> exists lj, id2loc_ st !! j = Some lj /\ version_of id m m' lj l).
Proof.
  intros Hid Hidn Hnd Hok Hj. pose (f := fix_nhood alpha range dpq fuel afuel n_data id).
  assert (Hspec : forall j lj, node_good g range (disk_node g m (off lj)) ->
    j < n_data -> (forall a, a ∈ nbrs (disk_node g m (off lj)) -> a < n_data) ->
    exists r, f j (nbrs (disk_node g m (off lj))) = Ok r /\ list_fixed id (nbrs (disk_node g m (off lj))) r).
  { intros j lj (_ & Hn & Hl) ? ?. by apply fix_nhood_spec. }
  destruct (new_versions_spec g Hg st f nl m Hnd Hok) as (m' & E & Hframe & Hver).
  { intros j Hin. destruct (Hj j Hin) as (lj & Ej & Hokj & Hfree & Hgood & Hjn & Han).
    destruct (Hspec j lj Hgood Hjn Han) as (r & Er & Hr).
    exists lj, r. split_and!; [done | done | done | apply Hgood | done | by apply (fixed_fits id _ _ Hgood Hid Hr)]. }
  exists m'. split; [exact E|]. split; [exact Hframe|]. intros j l Hin.
  destruct (Hver j l Hin) as (lj & r & Ej & Er & Hv). exists lj. split; [done|].
  destruct (Hj j) as (lj' & Ej' & _ & _ & Hgood & Hjn & Han); [apply list_elem_of_fmap; by exists (j, l)|]. simplify_eq.
  destruct (Hspec j lj Hgood Hjn Han) as (r' & Er' & Hr). assert (r' = r) as -> by congruence. by exists r.
Qed.

Lemma fix_id2loc_spec nl : forall st orig hints,
  NoDup nl.*1 -> (forall l, l ∈ nl.*2 -> loc_ok l) ->
  (forall id, id ∈ nl.*1 -> exists l, id2loc_ st !! id = Some l /\ loc_ok l) ->
  exists st' old pages,
    fix_id2loc g nl st orig hints = Ok (st', orig ++ old, hints ++ pages) /\
    alloc_ st' = alloc_ st /\ Forall2 (fun id l => id2loc_ st !! id = Some l) nl.*1 old /\
    (forall id l, (id, l) ∈ nl -> id2loc_ st' !! id = Some l) /\
    (forall id, id ∉ nl.*1 -> id2loc_ st' !! id = id2loc_ st !! id) /\
    Forall (fun p => 0 <= p < 2 ^ 32) pages.
Proof.
  induction nl as [|[id l] nl IH]; intros st orig hints Hnd Hok Hin; simpl in *.
  { exists st, [], []. rewrite !app_nil_r. split_and!; try done. intros id l H. by apply not_elem_of_nil in H. }
  apply NoDup_cons in Hnd as [Hni Hnd]. destruct (Hin id) as (lo & E & Hlo); [set_solver|].
  unfold id2loc, find, find_fn. rewrite E. cbn [fmap option_fmap option_map mbind outcome_bind].
  rewrite insert_or_assign_eq. rewrite (u32_small l) by (destruct (Hok l); [set_solver | lia]).
  set (st1 := set_id2loc _ st).
  assert (Hne : forall id', id' ∈ nl.*1 -> id2loc_ st1 !! id' = id2loc_ st !! id').
  { intros id' Hid'. simpl. rewrite lookup_insert_ne; [done | set_solver]. }
  destruct (IH st1 (orig ++ [lo]) (hints ++ [loc_sector_no g lo])) as (st' & old & pages & -> & Ha & Hf & Hset & Hfr & Hp);
    [done | set_solver | |].
  { intros id' Hid'. rewrite Hne by done. apply Hin. set_solver. }
  exists st', (lo :: old), (loc_sector_no g lo :: pages). rewrite <- !app_assoc. split_and!; [done | done | | | |].
  - constructor; [done|]. eapply Forall2_impl_elem; [exact Hf|]. intros id' l' Hid' _ E'. by rewrite <- E', Hne.
  - intros id' l' [[= -> ->]|Hin']%elem_of_cons; [|by apply Hset].
    rewrite Hfr by done. apply lookup_insert_eq.
  - intros id' [Hn1 Hn2]%not_elem_of_cons. rewrite Hfr by done. simpl. by rewrite lookup_insert_ne.
  - constructor; [|done]. rewrite loc_sector_no_eq by done. pose proof (loc_div_range g Hg lo Hlo). destruct Hlo. lia.
Qed.

(** *** The state between iterations *)
Abbreviation fix_one deflate n_chunks := (fix_id g alpha range dpq fuel afuel deflate n_chunks n_data).

Definition known (x : fix_state) (id : Z) : Prop := is_Some (id2loc_ (fx_map x) !! id).
Definition view (x : fix_state) (id : Z) : node :=
  disk_node g (fx_file x) (off (id2loc_ (fx_map x) !!! id)).

Record recover_inv (x : fix_state) : Prop := {
  ri_index : index_inv g (fx_map x);
  ri_good : forall id, known x id -> (node_good g range) (view x id);
  ri_nonempty : forall id, known x id -> nbrs (view x id) <> [];
  ri_nbrs : forall id j, known x id -> j ∈ nbrs (view x id) -> known x j;
  ri_hints : Forall (fun p => 0 <= p < 2 ^ 32) (fx_hints x);
  ri_data : forall id, known x id -> id < n_data;
}.

Record fix_post (deflate : list Z -> list Z) (n_chunks id : Z) (x x' : fix_state) : Prop := {
  fp_inv : recover_inv x';
  fp_known : forall j, known x' j <-> known x j;
  fp_coords : forall j, known x j -> coords (view x' j) = coords (view x j);
  fp_other : forall j, known x j -> j ∉ nbrs (view x id) -> view x' j = view x j;
  fp_fixed : forall j, j ∈ nbrs (view x id) -> list_fixed id (nbrs (view x j)) (nbrs (view x' j));
  fp_pq : fx_pq x' = store (id * n_chunks) (deflate (coords (view x id))) (fx_pq x);
  fp_loc : cur_loc (alloc_ (fx_map x')) < cur_loc (alloc_ (fx_map x)) + Z.of_nat range + nps;
}.

Lemma view_at x id l : id2loc_ (fx_map x) !! id = Some l -> view x id = disk_node g (fx_file x) (off l).
Proof. intros E. unfold view. by rewrite (lookup_total_correct _ _ _ E). Qed.

(** The maps after the neighbours [ids] have moved from [old] to [locs]. *)
Lemma fix_maps_spec st ids locs old a st2 need :
  index_inv g st -> NoDup ids -> alloc_post g (Z.of_nat (length ids)) (alloc_ st) locs need a ->
  Forall2 (fun id l => id2loc_ st !! id = Some l) ids old ->
  (forall id l, (id, l) ∈ zip ids locs -> id2loc_ st2 !! id = Some l) ->
  (forall id, id ∉ ids -> id2loc_ st2 !! id = id2loc_ st !! id) ->
  let st' := set_alloc (erase_and_set_loc g old locs ids a) st2 in
  index_inv g st' /\ cur_loc (alloc_ st') = cur_loc a.
Proof.
  intros Hst Hnd Hpost Hold Hset Hother st'.
  assert (Hlen : length locs = length ids) by (pose proof (ap_len _ _ _ _ _ _ Hpost); lia).
  pose proof (ap_res _ _ _ _ _ _ Hpost) as Hr. pose proof (ap_inv _ _ _ _ _ _ Hpost) as Hai.
  pose proof (index_inv_reserves g st locs a Hst Hr Hai) as Hst1.
  destruct (old_locs_spec g (set_alloc a st) ids old Hst1 Hnd Hold) as [Hond Holive].
  assert (Hids : forall id, id ∈ ids -> 0 <= id < kAllocatedID).
  { intros id Hid. destruct (Forall2_elem_l _ _ _ _ Hold Hid) as (l & _ & E). by destruct (ii_fwd _ _ Hst _ _ E). }
  assert (Hres : forall l, l ∈ locs -> loc_ok l /\ loc2id g a l = kAllocatedID).
  { intros l Hl. destruct (res_free _ _ _ _ Hr l Hl) as [Hok _]. split; [done|].
    rewrite (res_frame _ _ _ _ Hr) by done. by rewrite decide_True. }
  assert (Hdisj : old ## locs).
  { intros l Ho Hn. destruct (Holive l Ho) as [_ Hin]. destruct (Hres l Hn) as [_ E]. simpl in Hin.
    rewrite E in Hin. pose proof (Hids _ Hin). lia. }
  destruct (erase_and_set_loc_spec g Hg old locs ids a) as (Hi & Hc & Hnew & Hgone & Hframe);
    [done | done | apply Hr | done | done | | |].
  { intros l [Hl|Hl]%elem_of_app.
    - destruct (Holive l Hl) as [Hok Hin]. split; [done|]. pose proof (Hids _ Hin). simpl in *.
      unfold kInvalidID, kAllocatedID in *. lia.
    - destruct (Hres l Hl) as [Hok ->]. done. }
  { intros id Hid. pose proof (Hids _ Hid). unfold kInvalidID, kAllocatedID in *. lia. }
  split; [|done].
  apply (index_inv_moved g Hg (set_alloc a st) ids [] locs old st' Hst1 Hnd Hold).
  - intros id Hid. by apply not_elem_of_nil in Hid.
  - by rewrite app_nil_r.
  - done.
  - rewrite app_nil_r. split; simpl; try done.
    intros i id l E1 E2. apply Hset. apply list_elem_of_lookup. exists i. by apply lookup_zip_Some.
Qed.

(** What the readers of the two states see. *)
Definition moved_views (id : Z) (x x' : fix_state) : Prop :=
  (forall j, known x' j <-> known x j) /\
  (forall j, known x j -> j ∉ nbrs (view x id) -> view x' j = view x j) /\
  (forall j, j ∈ nbrs (view x id) -> exists r, list_fixed id (nbrs (view x j)) r /\
     view x' j = {| coords := coords (view x j); nbrs := r |}).

Lemma moved_views_intro id x x' locs :
  recover_inv x -> known x id ->
  let ids := nbrs (view x id) in
  length locs = length ids ->
  (forall l, l ∈ locs -> loc_ok l /\ loc2id g (alloc_ (fx_map x)) l = kInvalidID) ->
  (forall j l, (j, l) ∈ zip ids locs -> id2loc_ (fx_map x') !! j = Some l) ->
  (forall j, j ∉ ids -> id2loc_ (fx_map x') !! j = id2loc_ (fx_map x) !! j) ->
  (forall l a, loc_ok l -> l ∉ locs -> off l <= a < off l + max_node_len g -> fx_file x' a = fx_file x a) ->
  (forall j l, (j, l) ∈ zip ids locs -> exists lj, id2loc_ (fx_map x) !! j = Some lj /\
     version_of id (fx_file x) (fx_file x') lj l) ->
  moved_views id x x'.
Proof.
  intros Hx Hid ids Hlen Hfree Hset Hother Hframe Hver.
  assert (Hzip : forall j, j ∈ ids -> exists l, (j, l) ∈ zip ids locs).
  { intros j [i Hi]%list_elem_of_lookup. destruct (lookup_lt_is_Some_2 locs i) as [l Hl].
    { rewrite Hlen. by apply lookup_lt_Some in Hi. }
    exists l. apply list_elem_of_lookup. exists i. by apply lookup_zip_Some. }
  split_and!.
  - intros j. unfold known. destruct (decide (j ∈ ids)) as [Hj|Hj].
    + destruct (Hzip j Hj) as [l Hl]. destruct (Hver j l Hl) as (lj & E & _).
      rewrite (Hset j l Hl), E. split; eauto.
    + by rewrite Hother.
  - intros j [lj Ej] Hj. rewrite (view_at x j lj Ej), (view_at x' j lj) by by rewrite Hother.
    destruct (ii_fwd _ _ (ri_index _ Hx) _ _ Ej) as (Hr & Hok & El).
    apply disk_node_ext.
    + rewrite <- (view_at x j lj Ej). by apply (ri_good _ Hx); eexists.
    + intros a Ha. symmetry. apply (Hframe lj); [done | | done]. intros Hin.
      destruct (Hfree lj Hin) as [_ E]. unfold kInvalidID, kAllocatedID in *. lia.
  - intros j Hj. destruct (Hzip j Hj) as [l Hl]. destruct (Hver j l Hl) as (lj & Ej & r & Hr & Hv).
    exists r. rewrite (view_at x j lj Ej), (view_at x' j l) by by apply Hset. done.
Qed.

Lemma moved_views_inv id x x' :
  recover_inv x -> known x id -> moved_views id x x' -> index_inv g (fx_map x') ->
  Forall (fun p => 0 <= p < 2 ^ 32) (fx_hints x') -> recover_inv x'.
Proof.
  intros Hx Hid (Hk & Hsame & Hfix) Hi Hh.
  assert (Hidr : 0 <= id < 2 ^ 32).
  { destruct Hid as [l E]. destruct (ii_fwd _ _ (ri_index _ Hx) _ _ E) as ((? & ?) & _).
    unfold kAllocatedID in *. lia. }
  split; [done | | | | done | intros j Hj%Hk; by apply (ri_data _ Hx)].
  - intros j Hj%Hk. destruct (decide (j ∈ nbrs (view x id))) as [Hin|Hin].
    + destruct (Hfix j Hin) as (r & Hr & ->). apply (fixed_fits id); [by apply (ri_good _ Hx) | done | done].
    + rewrite Hsame by done. by apply (ri_good _ Hx).
  - intros j Hj%Hk. destruct (decide (j ∈ nbrs (view x id))) as [Hin|Hin].
    + destruct (Hfix j Hin) as (r & Hr & ->). simpl. intros ->.
      destruct (lf_in _ _ _ Hr) as [H|H]; [by apply not_elem_of_nil in H|]. simpl in H.
      destruct (ri_good _ Hx j Hj) as (_ & _ & Hlen). pose proof (ri_nonempty _ Hx j Hj) as Hne.
      destruct (nbrs (view x j)); [done | simpl in Hlen; lia].
    + rewrite Hsame by done. by apply (ri_nonempty _ Hx).
  - intros j a Hj%Hk Ha. apply Hk. destruct (decide (j ∈ nbrs (view x id))) as [Hin|Hin].
    + destruct (Hfix j Hin) as (r & Hr & E). rewrite E in Ha. simpl in Ha. apply (lf_sub _ _ _ Hr) in Ha.
      apply elem_of_app in Ha as [Ha| ->%list_elem_of_singleton]; [by apply (ri_nbrs _ Hx j) | done].
    + rewrite Hsame in Ha by done. by apply (ri_nbrs _ Hx j).
Qed.

Lemma fix_id_spec deflate n_chunks id x :
  recover_inv x -> known x id -> cur_loc (alloc_ (fx_map x)) + Z.of_nat range + nps < 2 ^ 32 ->
  exists x', fix_one deflate n_chunks id x = Ok x' /\ fix_post deflate n_chunks id x x'.
Proof.
  intros Hx Hid Hb. pose proof Hid as [loc E].
  destruct (ri_good _ Hx id Hid) as (Hf & Hnd & Hlen). pose proof (ri_nonempty _ Hx id Hid) as Hne.
  pose proof (ri_index _ Hx) as Hst. set (ids := nbrs (view x id)) in *.
  assert (Hn : 0 < Z.of_nat (length ids)) by (destruct ids; [done | simpl; lia]).
  destruct (alloc_loc_compact_spec g Hg (Z.of_nat (length ids)) (fx_hints x) ∅ (alloc_ (fx_map x)))
    as (locs & hints & need & a & Ea & Hpost & Hsub); [apply Hst | done | apply Hx | lia |].
  assert (Hll : length locs = length ids) by (pose proof (ap_len _ _ _ _ _ _ Hpost); lia).
  pose proof (ap_res _ _ _ _ _ _ Hpost) as Hr.
  assert (Hfst : (zip ids locs).*1 = ids) by (apply fst_zip; lia).
  assert (Hsnd : (zip ids locs).*2 = locs) by (apply snd_zip; lia).
  assert (Hidr : 0 <= id < 2 ^ 32) by (destruct (ii_fwd _ _ Hst _ _ E) as ((? & ?) & _); unfold kAllocatedID in *; lia).
  assert (Hknown : forall j, j ∈ ids -> exists lj, id2loc_ (fx_map x) !! j = Some lj /\ loc_ok lj /\ lj ∉ locs /\
    node_good g range (disk_node g (fx_file x) (off lj)) /\ j < n_data /\
    forall b, b ∈ nbrs (disk_node g (fx_file x) (off lj)) -> b < n_data).
  { intros j Hj. destruct (ri_nbrs _ Hx id j Hid Hj) as [lj Ej].
    destruct (ii_fwd _ _ Hst _ _ Ej) as (Hrj & Hok & El). exists lj. split; [done|]. split; [done|]. split.
    - intros Hin. destruct (res_free _ _ _ _ Hr lj Hin) as [_ E']. unfold kInvalidID, kAllocatedID in *. lia.
    - rewrite <- (view_at x j lj Ej). assert (known x j) as Hkj by by eexists. split_and!;
        [by apply (ri_good _ Hx) | by apply (ri_data _ Hx) | intros b Hbj; by apply (ri_data _ Hx), (ri_nbrs _ Hx j)]. }
  destruct (fix_neighbors_spec (set_alloc a (fx_map x)) id (zip ids locs) (fx_file x))
    as (m & Em & Hframe & Hver); [done | by apply (ri_data _ Hx) | rewrite Hsnd; apply Hr | rewrite Hsnd; intros l Hl; by apply (res_free _ _ _ _ Hr) | |].
  { rewrite Hfst, Hsnd. apply Hknown. }
  destruct (fix_id2loc_spec (zip ids locs) (set_alloc a (fx_map x)) [] hints)
    as (st2 & old & pages & E2 & Ha2 & Hold & Hset & Hother & Hpages);
    [by rewrite Hfst | rewrite Hsnd; intros l Hl; by apply (res_free _ _ _ _ Hr) | |].
  { rewrite Hfst. intros j Hj. destruct (Hknown j Hj) as (lj & ? & ? & _). by exists lj. }
  rewrite Hfst in Hold, Hother. rewrite Hsnd in Hframe.
  pose proof (eq_sym (view_at x id loc E)) as Hview.
  destruct (fix_maps_spec (fx_map x) ids locs old a st2 need Hst Hnd Hpost Hold Hset Hother) as [Hi2 Hc2].
  eexists. split.
  { unfold fix_id. unfold id2loc at 1, find, find_fn. rewrite E.
    cbn [fmap option_fmap option_map mbind outcome_bind]. cbv zeta. rewrite Hview. fold ids. rewrite Ea.
    cbn [mbind outcome_bind]. cbv beta iota. rewrite Em. cbn [mbind outcome_bind]. rewrite E2.
    cbn [mbind outcome_bind app]. rewrite Ha2. reflexivity. }
  set (x' := {| fx_map := _ |}).
  assert (Hmv : moved_views id x x').
  { apply (moved_views_intro id x x' locs); try done.
    intros l Hl. by apply (res_free _ _ _ _ Hr). }
  assert (Hx' : recover_inv x').
  { apply (moved_views_inv id x x'); try done. simpl. unfold dedup_pages. rewrite std_set_perm.
    apply Forall_forall. intros p Hp. rewrite elem_of_remove_dups in Hp. pose proof (ri_hints _ Hx) as Hh.
    rewrite Forall_forall in Hh, Hpages. apply elem_of_app in Hp as [Hp|Hp]; auto. }
  destruct Hmv as (Hk & Hsame & Hfix). split; [done | done | | done | | done | ].
  - intros j Hj. destruct (decide (j ∈ nbrs (view x id))) as [Hin|Hin]; [|by rewrite Hsame].
    by destruct (Hfix j Hin) as (r & _ & ->).
  - intros j Hj. by destruct (Hfix j Hj) as (r & Hr' & ->).
  - pose proof (ap_loc _ _ _ _ _ _ Hpost). simpl in Hc2 |- *. lia.
Qed.

(** *** The loop *)
Section loop.
Context (deflate : list Z -> list Z) (n_chunks : Z).
Context (Hpq : forall c, Z.of_nat (length (deflate c)) = n_chunks).

(** The edge from [a] to [b] has its reverse edge, or the list of [b] is full. *)
Definition reversed (x : fix_state) (a b : Z) : Prop :=
  a ∈ nbrs (view x b) \/ length (nbrs (view x b)) = range.

Record recovering (x0 : fix_state) (done_ : list Z) (x : fix_state) : Prop := {
  rv_inv : recover_inv x;
  rv_known : forall j, known x j <-> known x0 j;
  rv_coords : forall j, known x0 j -> coords (view x j) = coords (view x0 j);
  rv_sub : forall j, known x0 j -> nbrs (view x j) ⊆ nbrs (view x0 j) ++ done_;
  rv_closed : forall a b, a ∈ done_ -> b ∈ nbrs (view x a) -> reversed x a b;
  rv_pq : forall a (i : nat) v, a ∈ done_ -> deflate (coords (view x0 a)) !! i = Some v ->
    fx_pq x (a * n_chunks + Z.of_nat i) = v;
  rv_loc : cur_loc (alloc_ (fx_map x)) <=
    cur_loc (alloc_ (fx_map x0)) + Z.of_nat (length done_) * (Z.of_nat range + nps);
}.

Lemma reversed_mono id x x' a b : fix_post deflate n_chunks id x x' -> known x b ->
  reversed x a b -> reversed x' a b.
Proof.
  intros Hp Hb H. unfold reversed. destruct (decide (b ∈ nbrs (view x id))) as [Hin|Hin].
  - pose proof (fp_fixed _ _ _ _ _ Hp b Hin) as Hl. destruct H as [H|H];
      [by apply (lf_keep _ _ _ Hl) | right; by apply (lf_full _ _ _ Hl)].
  - by rewrite (fp_other _ _ _ _ _ Hp).
Qed.

Lemma closed_step id x x' done_ : recover_inv x -> known x id -> (forall a, a ∈ done_ -> known x a) ->
  fix_post deflate n_chunks id x x' ->
  (forall a b, a ∈ done_ -> b ∈ nbrs (view x a) -> reversed x a b) ->
  forall a b, a ∈ done_ ++ [id] -> b ∈ nbrs (view x' a) -> reversed x' a b.
Proof.
  intros Hx Hid Hdk Hp Hcl a b Ha Hb.
  assert (Hak : known x a) by (apply elem_of_app in Ha as [Ha| ->%list_elem_of_singleton]; auto).
  assert (Hnew : b ∈ nbrs (view x a) \/ (b = id /\ a ∈ nbrs (view x id))).
  { destruct (decide (a ∈ nbrs (view x id))) as [Hin|Hin].
    - apply (lf_sub _ _ _ (fp_fixed _ _ _ _ _ Hp a Hin)) in Hb.
      apply elem_of_app in Hb as [Hb| ->%list_elem_of_singleton]; [by left | by right].
    - rewrite (fp_other _ _ _ _ _ Hp) in Hb by done. by left. }
  destruct Hnew as [Hold|[-> Hin]].
  - apply elem_of_app in Ha as [Ha| ->%list_elem_of_singleton].
    + apply (reversed_mono id x); [done | by apply (ri_nbrs _ Hx a) | auto].
    + pose proof (fp_fixed _ _ _ _ _ Hp b Hold) as Hl. apply (lf_in _ _ _ Hl).
  - apply (reversed_mono id x); [done | done | by left].
Qed.

Lemma fix_loop_spec x0 ids :
  recover_inv x0 -> NoDup ids -> (forall id, id ∈ ids -> known x0 id) ->
  cur_loc (alloc_ (fx_map x0)) + Z.of_nat (length ids) * (Z.of_nat range + nps) < 2 ^ 32 ->
  exists x, foldM (fix_one deflate n_chunks) ids x0 = Ok x /\ recovering x0 ids x.
Proof.
  intros Hx0. induction ids as [|id ids IH] using rev_ind; intros Hnd Hk Hb.
  { exists x0. split; [done|]. split; try done; try set_solver. simpl. lia. }
  apply NoDup_app in Hnd as (Hnd & Hni & _). rewrite length_app in Hb. simpl in Hb.
  pose proof (nps_range g Hg).
  destruct IH as (x & E & Hx); [done | set_solver | lia |].
  assert (Hid0 : known x0 id) by (apply Hk; set_solver).
  assert (Hid : known x id) by by apply (rv_known _ _ _ Hx).
  pose proof (rv_loc _ _ _ Hx) as Hloc.
  destruct (fix_id_spec deflate n_chunks id x) as (x' & E' & Hp); [apply Hx | done | lia |].
  exists x'. rewrite foldM_app, E. cbn [mbind outcome_bind foldM]. rewrite E'. split; [done|]. split.
  - apply Hp.
  - intros j. rewrite (fp_known _ _ _ _ _ Hp). apply Hx.
  - intros j Hj. rewrite (fp_coords _ _ _ _ _ Hp) by (by apply (rv_known _ _ _ Hx)). by apply Hx.
  - intros j Hj. pose proof (rv_sub _ _ _ Hx j Hj) as Hs. destruct (decide (j ∈ nbrs (view x id))) as [Hin|Hin].
    + intros a Ha. apply (lf_sub _ _ _ (fp_fixed _ _ _ _ _ Hp j Hin)) in Ha.
      rewrite app_assoc. apply elem_of_app in Ha as [Ha|Ha]; apply elem_of_app; [left; by apply Hs | by right].
    + rewrite (fp_other _ _ _ _ _ Hp) by (done || by apply (rv_known _ _ _ Hx)).
      intros a Ha. rewrite app_assoc. apply elem_of_app. left. by apply Hs.
  - apply (closed_step id x x' ids); try done; [apply Hx | | apply Hx].
    intros a Ha. apply (rv_known _ _ _ Hx), Hk. set_solver.
  - intros a i v Ha Hv. pose proof (lookup_lt_Some _ _ _ Hv) as Hi. pose proof (Hpq (coords (view x0 a))) as Hla.
    rewrite (fp_pq _ _ _ _ _ Hp), (rv_coords _ _ _ Hx) by done.
    apply elem_of_app in Ha as [Ha| ->%list_elem_of_singleton]; [|by apply store_in].
    rewrite store_out; [by apply (rv_pq _ _ _ Hx)|]. rewrite Hpq.
    assert (a <> id) by (intros ->; apply (Hni id Ha); by apply list_elem_of_singleton). nia.
  - pose proof (fp_loc _ _ _ _ _ Hp). rewrite length_app. simpl. lia.
Qed.
End loop.
End fix_facts.

(** ** Properties *)

(** C29. Recovery of the maps from a location table in which identifiers have
    different locations.  Exactly the recorded identifiers get a location,
    their recorded one; the page table is well formed and knows the owners of
    the locations in the scanned pages and nothing else; the allocator starts
    at the first page behind every location, and the next identifier is beyond
    all recorded ones.  The two maps agree exactly when every location lies in
    a scanned page: the number of pages comes from the number of points, so an
    owner that sits in a later page is lost. *)
Theorem recover_layout_correct g words :
  geometry_wf g -> table_ok g words ->
  let r := recover_layout g words in
  let scanned_locs := recovered_sectors g (scan_ids words) * nnodes_per_sector g in
  (forall id loc, id2loc_ (rc_state r) !! id = Some loc <-> recorded words id loc) /\
  alloc_inv g (alloc_ (rc_state r)) /\
  (forall id loc, loc_ok loc -> id <> kInvalidID ->
     loc2id g (alloc_ (rc_state r)) loc = id <-> recorded words id loc /\ loc < scanned_locs) /\
  (forall id loc, recorded words id loc -> loc < cur_loc (alloc_ (rc_state r)) /\ id < rc_cur_id r) /\
  (index_inv g (rc_state r) <-> forall id loc, recorded words id loc -> loc < scanned_locs).
Proof.
  intros Hg Hw r sl. pose proof (scan_ids_spec words) as Hs. split; [apply Hs|]. split; [by apply recovered_alloc_inv|].
  split; [|split; [|split; [by apply recovered_inv_dense | by apply recovered_inv]]].
  - intros id loc Hl Hid. unfold r. rewrite recovered_loc2id by done. fold sl. rewrite <- (sc_loc2id_spec g words Hw).
    case_decide; [destruct (sc_loc2id _ !! loc)|]; simpl; naive_solver.
  - intros id loc Hr. split.
    + destruct (recovered_cur_loc g Hg words Hw) as (q & E & _ & Hq). unfold r. rewrite E.
      pose proof (recorded_range g words Hw _ _ Hr). lia.
    + pose proof (sd_max_id _ _ Hs _ _ Hr) as Hm. destruct (sd_max_in _ _ Hs) as [E|[l Hl]].
      { rewrite E in Hr. by destruct Hr as (_ & ? & _). }
      apply recorded_lt in Hl. pose proof (tb_len _ _ Hw). unfold kAllocatedID in *.
      simpl. rewrite u32_small; lia.
Qed.

Definition rec_geom : geometry :=
  {| max_node_len := 256; nnodes_per_sector := 16; data_dim := 1; sizeof_T := 1 |}.

Lemma rec_geom_wf : geometry_wf rec_geom.
Proof. by split; vm_compute. Qed.

(** Four points; 1, 2 and 3 have been moved. *)
Definition rec_words : list Z := [0; 2; 1; 5].

Lemma rec_recorded id loc : recorded rec_words id loc <-> (id, loc) ∈ [(0, 0); (1, 2); (2, 1); (3, 5)].
Proof.
  rewrite !elem_of_cons, elem_of_nil. unfold recorded, rec_words. split.
  - intros (H0 & E & _). assert (id = Z.of_nat (Z.to_nat id)) as -> by lia.
    revert E. generalize (Z.to_nat id). intros [|[|[|[|n]]]]; simpl; intros [=]; subst; auto 6.
  - intros [[= -> ->]|[[= -> ->]|[[= -> ->]|[[= -> ->]|[]]]]]; (split; [lia|]; split; [done|]);
      (by left) || (by right).
Qed.

Lemma rec_table_ok : table_ok rec_geom rec_words.
Proof.
  split.
  - unfold kAllocatedID. simpl. lia.
  - intros loc Hl. unfold rec_words in Hl. rewrite !elem_of_cons, elem_of_nil in Hl.
    change (nnodes_per_sector rec_geom) with 16. naive_solver lia.
  - intros id1 id2 loc. rewrite !rec_recorded, !elem_of_cons, !elem_of_nil.
    intros H1 H2. destruct_or!; simplify_eq; done.
Qed.

Lemma rec_dense : table_dense rec_geom rec_words.
Proof.
  intros id loc Hr. change (recovered_sectors rec_geom (scan_ids rec_words) * nnodes_per_sector rec_geom) with 16.
  apply rec_recorded in Hr. rewrite !elem_of_cons, elem_of_nil in Hr. destruct_or!; simplify_eq; done.
Qed.

Lemma recover_layout_witness :
  let r := recover_layout rec_geom rec_words in
  let scanned_locs := recovered_sectors rec_geom (scan_ids rec_words) * nnodes_per_sector rec_geom in
  (forall id loc, id2loc_ (rc_state r) !! id = Some loc <-> recorded rec_words id loc) /\
  alloc_inv rec_geom (alloc_ (rc_state r)) /\
  (forall id loc, loc_ok loc -> id <> kInvalidID ->
     loc2id rec_geom (alloc_ (rc_state r)) loc = id <-> recorded rec_words id loc /\ loc < scanned_locs) /\
  (forall id loc, recorded rec_words id loc -> loc < cur_loc (alloc_ (rc_state r)) /\ id < rc_cur_id r) /\
  (index_inv rec_geom (rc_state r) <-> forall id loc, recorded rec_words id loc -> loc < scanned_locs).
Proof. apply (recover_layout_correct rec_geom rec_words); [apply rec_geom_wf | apply rec_table_ok]. Defined.

(** Round trip: recovery of the table that [build_id2loc_mapping] writes
    gives the maps that [load_page_layout] builds for the same index, that is,
    the same location of every identifier, the same owner of every location
    and the same allocation frontier. *)
Theorem recover_built_table g npts :
  geometry_wf g -> 0 < npts -> npts + nnodes_per_sector g + entries_per_sector < 2 ^ 32 - 1 ->
  let r := recover_layout g (build_id2loc_mapping npts) in
  let st := load_page_layout g npts empty_map_state in
  id2loc_ (rc_state r) = id2loc_ st /\
  (forall l, loc_ok l -> loc2id g (alloc_ (rc_state r)) l = loc2id g (alloc_ st) l) /\
  cur_loc (alloc_ (rc_state r)) = cur_loc (alloc_ st) /\ rc_num_points r = npts /\ rc_cur_id r = npts.
Proof.
  intros Hg H0 H1 r st. pose proof (nps_range g Hg). assert (entries_per_sector = 1024) as He by done.
  assert (Hn : 0 <= npts /\ npts + nnodes_per_sector g < 2 ^ 32 - 1) by lia.
  pose proof (identity_table_ok g Hg npts (conj H0 H1)) as Hw.
  pose proof (scan_ids_spec (build_id2loc_mapping npts)) as Hs.
  assert (Hids : id2loc_ (rc_state r) = id2loc_ st).
  { apply map_eq. intros id. apply option_eq. intros loc. unfold st. rewrite loaded_ids by done.
    simpl. rewrite (sd_ids _ _ Hs), (identity_recorded g Hg npts (conj H0 H1)).
    case_decide; naive_solver. }
  split; [done|]. split; [|split; [|split]].
  - intros l Hl. unfold r, st. rewrite recovered_loc2id, loaded_loc2id by done.
    pose proof (identity_dense g Hg npts (conj H0 H1)) as Hd.
    destruct (sc_loc2id _ !! l) as [id|] eqn:E; simpl.
    + apply (sc_loc2id_spec g _ Hw) in E. rewrite decide_True by by apply (Hd id). apply (sc_loc2id_spec g _ Hw) in E. apply (sc_loc2id_spec g _ Hw), (identity_recorded g Hg npts (conj H0 H1)) in E as [-> E].
      destruct (Z.ltb_spec id npts); [done | lia].
    + destruct (Z.ltb_spec l npts); [|by case_decide]. exfalso.
      assert (recorded (build_id2loc_mapping npts) l l) as Hr
        by (apply (identity_recorded g Hg npts (conj H0 H1)); destruct Hl; lia).
      apply (sc_loc2id_spec g _ Hw) in Hr. by rewrite Hr in E.
  - unfold r, st. rewrite dense_cur_loc, loaded_cur_loc by (done || by apply (identity_dense g Hg npts (conj H0 H1))). unfold recovered_sectors.
    by rewrite (identity_num g Hg npts (conj H0 H1)).
  - apply (identity_num g Hg npts (conj H0 H1)).
  - simpl. rewrite (identity_max_id g Hg npts (conj H0 H1)). rewrite u32_small; lia.
Qed.

Lemma recover_built_table_witness :
  let r := recover_layout rec_geom (build_id2loc_mapping 1500) in
  let st := load_page_layout rec_geom 1500 empty_map_state in
  id2loc_ (rc_state r) = id2loc_ st /\
  (forall l, loc_ok l -> loc2id rec_geom (alloc_ (rc_state r)) l = loc2id rec_geom (alloc_ st) l) /\
  cur_loc (alloc_ (rc_state r)) = cur_loc (alloc_ st) /\ rc_num_points r = 1500 /\ rc_cur_id r = 1500.
Proof. apply (recover_built_table rec_geom 1500); [apply rec_geom_wf | lia | by vm_compute]. Defined.

(** The start of the re-checking loop. *)
Definition recovery_start (g : geometry) (words : list Z) (file pq : Z -> Z) : fix_state :=
  {| fx_map := rc_state (recover_layout g words); fx_file := file; fx_pq := pq; fx_hints := [] |}.

(** A graph file that fits a location table: the slots of the recorded
    identifiers hold nodes with at least one and at most [range] different
    recorded neighbours. *)
Definition graph_ok (g : geometry) (range : nat) (words : list Z) (file : Z -> Z) : Prop :=
  forall id loc, recorded words id loc ->
    let nd := disk_node g file (u_loc_offset g loc) in
    node_good g range nd /\ nbrs nd <> [] /\ forall j, j ∈ nbrs nd -> exists l, recorded words j l.

Lemma recovery_start_inv g range n_data words file pq :
  geometry_wf g -> table_ok g words -> table_dense g words -> graph_ok g range words file ->
  (forall id loc, recorded words id loc -> id < n_data) ->
  recover_inv g range n_data (recovery_start g words file pq).
Proof.
  intros Hg Hw Hd Hf Hn. pose proof (scan_ids_spec words) as Hs.
  assert (Hk : forall id, known (recovery_start g words file pq) id <-> exists l, recorded words id l).
  { intros id. split; intros [l H]; exists l; by apply (sd_ids _ _ Hs). }
  assert (Hv : forall id l, recorded words id l ->
    view g (recovery_start g words file pq) id = disk_node g file (u_loc_offset g l)).
  { intros id l Hr. apply (view_at g (recovery_start g words file pq)). by apply (sd_ids _ _ Hs). }
  split.
  - by apply recovered_inv.
  - intros id [l Hr]%Hk. rewrite (Hv id l) by done. by apply (Hf id l).
  - intros id [l Hr]%Hk. rewrite (Hv id l) by done. by apply (Hf id l).
  - intros id j [l Hr]%Hk. rewrite (Hv id l) by done. intros Hj. apply Hk. by apply (Hf id l).
  - constructor.
  - intros id [l Hr]%Hk. by apply (Hn id l).
Qed.

(** C7. Recovery repairs the graph.  The conditions: identifiers have
    different locations, in the pages that recovery scans (as many as the
    number of points needs); the slots of the recorded identifiers hold nodes
    with between 1 and [range] different recorded neighbours, and every
    identifier from the checkpoint on is recorded; [data] holds the compressed
    form of every recorded identifier, although the loop writes those of the
    re-checked ones only to the file; [range / 16] is positive and divides
    [range + 1], without which the batches read past the list; and there is
    room for the new copies.  Then recovery ends without a crash, the maps
    agree, no vector changes, the compressed form of every re-checked vector is
    in its place, and every edge out of a re-checked vector has its reverse
    edge unless the list of the neighbour is full.  Lists only gain re-checked
    identifiers. *)
Theorem recovery_correct {F} `{!FloatOps F} g (alpha : F) range dpq n fuel afuel deflate n_chunks n_data words file pq ckpt_id :
  geometry_wf g -> offset_to_node_nhood g + 4 + 4 * Z.of_nat range <= max_node_len g ->
  (0 < PRUNE_BATCH_SIZE range)%nat -> (S range mod PRUNE_BATCH_SIZE range = 0)%nat ->
  fast_end alpha n -> (n < afuel)%nat -> (S range < fuel)%nat ->
  (forall c, Z.of_nat (length (deflate c)) = n_chunks) ->
  table_ok g words -> table_dense g words -> graph_ok g range words file ->
  (forall id loc, recorded words id loc -> id < n_data) ->
  let r := recover_layout g words in
  let x0 := recovery_start g words file pq in
  let ids := seqZ ckpt_id (rc_max_id r + 1 - ckpt_id) in
  (forall id, id ∈ ids -> exists loc, recorded words id loc) ->
  cur_loc (alloc_ (rc_state r)) + Z.of_nat (length ids) * (Z.of_nat range + nnodes_per_sector g) < 2 ^ 32 ->
  exists x, recover g alpha range dpq fuel afuel deflate n_chunks n_data words file pq ckpt_id = Ok x /\
    recovering g range n_data deflate n_chunks x0 ids x.
Proof.
  intros Hg Hfit Hb0 Hb1 Hfe Haf Hfu Hdef Hw Hd Hf Hn r x0 ids Hids Hcap.
  apply (fix_loop_spec g Hg alpha range dpq fuel afuel n_data Hfit).
  - intros t i l Hl Ht. by apply (nhood_batch_spec alpha range dpq n).
  - exact Hdef.
  - by apply recovery_start_inv.
  - apply NoDup_seqZ.
  - intros id Hid. destruct (Hids id Hid) as [loc Hr]. exists loc. by apply (sd_ids _ _ (scan_ids_spec words)).
  - exact Hcap.
Qed.

(** The nodes of the four points; 3 was inserted after the checkpoint, and the
    reverse edge of its edge to 0 is missing. *)
Definition rec_nodes : list node :=
  [{| coords := [10]; nbrs := [1] |}; {| coords := [30]; nbrs := [1; 3] |}; {| coords := [20]; nbrs := [0; 2] |};
   {| coords := []; nbrs := [] |}; {| coords := []; nbrs := [] |}; {| coords := [40]; nbrs := [2; 0] |}].
Definition rec_file (a : Z) : Z :=
  match rec_nodes !! Z.to_nat ((a - SECTOR_LEN) / 256) with
  | Some nd => node_bytes nd !!! Z.to_nat ((a - SECTOR_LEN) mod 256)
  | None => 0
  end.

Lemma rec_node_good c ids : NoDup ids -> (length ids <= 16)%nat -> Forall (fun id => 0 <= id < 2 ^ 32) ids ->
  node_good rec_geom 16 {| coords := [c]; nbrs := ids |}.
Proof.
  intros Hnd Hlen Hr. split; [|done]. change (offset_to_node_nhood rec_geom) with 1.
  split; [done|]. split; [change (1 + 4 + 4 * Z.of_nat (length ids) <= 256); lia|]. split; [simpl; lia | done].
Qed.

Lemma rec_ids j : j ∈ [0; 1; 2; 3] -> exists l, recorded rec_words j l.
Proof.
  rewrite !elem_of_cons, elem_of_nil.
  intros [->|[->|[->|[->|[]]]]]; [exists 0 | exists 2 | exists 1 | exists 5]; apply rec_recorded;
    by apply (bool_decide_unpack _); vm_compute.
Qed.

Lemma rec_graph_ok : graph_ok rec_geom 16 rec_words rec_file.
Proof.
  assert (Hall : Forall (fun '(id, loc) => rec_nodes !! Z.to_nat loc = Some (disk_node rec_geom rec_file (u_loc_offset rec_geom loc)))
    [(0, 0); (1, 2); (2, 1); (3, 5)]) by (repeat (apply Forall_cons_2; [vm_compute; reflexivity|]); by apply Forall_nil_2).
  rewrite Forall_forall in Hall. intros id loc Hr nd. apply rec_recorded in Hr.
  assert (E : rec_nodes !! Z.to_nat loc = Some nd) by apply (Hall (id, loc) Hr). clearbody nd.
  rewrite !elem_of_cons, elem_of_nil in Hr.
  destruct_or!; try done; injection Hr as -> ->; cbn in E; injection E as <-; cbn; (split; [|split; [done|]]).
  1,3,5,7: (apply rec_node_good; [by apply (bool_decide_unpack _); vm_compute | simpl; lia | repeat constructor; lia]).
  all: intros j Hj; apply rec_ids; revert Hj; rewrite !elem_of_cons, !elem_of_nil; tauto.
Qed.

Lemma recovery_correct_witness : exists x,
  recover rec_geom F32_1_2f 16 (fun _ _ => lit 1 0) 18 5 (fun c => [c !!! 0%nat / 2]) 1 4 rec_words rec_file (fun _ => 0) 3 = Ok x /\
  recovering rec_geom 16 4 (fun c => [c !!! 0%nat / 2]) 1 (recovery_start rec_geom rec_words rec_file (fun _ => 0)) [3] x.
Proof.
  apply (recovery_correct rec_geom F32_1_2f 16 (fun _ _ => lit 1 0) 3 18 5 (fun c => [c !!! 0%nat / 2]) 1 4 rec_words
    rec_file (fun _ => 0) 3).
  - apply rec_geom_wf.
  - by vm_compute.
  - by apply (bool_decide_unpack _); vm_compute.
  - done.
  - exact fast_end_1_2.
  - lia.
  - lia.
  - done.
  - apply rec_table_ok.
  - apply rec_dense.
  - apply rec_graph_ok.
  - intros id loc Hr. apply recorded_lt in Hr. simpl in Hr. lia.
  - change (seqZ 3 (rc_max_id (recover_layout rec_geom rec_words) + 1 - 3)) with [3].
    intros id ->%list_elem_of_singleton. apply rec_ids. rewrite !elem_of_cons. tauto.
  - by vm_compute.
Defined.

(** The vectors after the checkpoint need not be in [data]: vector 17 was
    inserted when the file of the compressed vectors counted 17 of them, and
    its neighbour 0 has a full list. *)
Example fix_beyond_data :
  let fix_with n_data := fix_nhood F32_1_2f 16 (fun _ _ => lit 1 0) 18 5 n_data 17 0 (seqZ 1 16) in
  fix_with 17 = Crash /\ match fix_with 18 with Ok r => length r = 16%nat | Crash => False end.
Proof. by vm_compute. Qed.

(** A hole in the table ends recovery: when the first identifier to be
    re-checked has no location, [id2loc] traps, although the identifiers after
    it are intact.  Two insertions that were in flight at the crash are
    enough: the later one has its location on the media, the earlier has not. *)
Theorem recovery_crashes_on_hole {F} `{!FloatOps F} g (alpha : F) range dpq fuel afuel deflate n_chunks n_data words file pq ckpt_id :
  (forall loc, ~ recorded words ckpt_id loc) -> (exists id loc, recorded words id loc /\ ckpt_id <= id) ->
  recover g alpha range dpq fuel afuel deflate n_chunks n_data words file pq ckpt_id = Crash.
Proof.
  intros Hno (id & loc & Hr & Hle). pose proof (scan_ids_spec words) as Hs. unfold recover. cbv zeta.
  pose proof (sd_max_id _ _ Hs _ _ Hr) as Hm.
  change (rc_max_id (recover_layout g words)) with (sc_max_id (scan_ids words)).
  rewrite seqZ_cons by lia. cbn [foldM].
  assert (id2loc (rc_state (recover_layout g words)) ckpt_id = Crash) as E.
  { unfold id2loc, find, find_fn. simpl. destruct (sc_id2loc (scan_ids words) !! ckpt_id) as [l|] eqn:E; [|done].
    apply (sd_ids _ _ Hs) in E. by destruct (Hno l). }
  match goal with |- context [fix_id _ _ _ _ _ _ _ _ _ ?i ?x] => assert (fix_id g alpha range dpq fuel afuel deflate n_chunks n_data i x = Crash) as -> end; [|done].
  unfold fix_id. cbn [fx_map]. by rewrite E.
Qed.

Lemma recovery_hole_witness :
  recover rec_geom F32_1_2f 16 (fun _ _ => lit 1 0) 18 5 (fun c => [c !!! 0%nat / 2]) 1 4 [0; 2; 0; 5] rec_file (fun _ => 0) 2 = Crash.
Proof.
  apply (recovery_crashes_on_hole rec_geom F32_1_2f 16 (fun _ _ => lit 1 0) 18 5 (fun c => [c !!! 0%nat / 2]) 1 4 [0; 2; 0; 5]
    rec_file (fun _ => 0) 2).
  - intros loc (_ & E & H). simpl in E. injection E as <-. by destruct H.
  - exists 3, 5. split; [|lia]. split; [lia|]. split; [done | by right].
Defined.

(** The page table is rebuilt for as many pages as the number of points
    needs, not up to the highest location: a table whose fourth point lies in
    the second page gives a layout that does not know this point, and the
    program's own check [verify_id2loc] fails on it. *)
Theorem recovered_layout_misses_page :
  let r := recover_layout rec_geom [0; 1; 2; 19] in
  id2loc (rc_state r) 3 = Ok 19 /\ loc2id rec_geom (alloc_ (rc_state r)) 19 = kInvalidID /\
  verify_id2loc rec_geom (rc_state r) (Z.to_nat (rc_cur_id r)) = Crash.
Proof. split_and!; by vm_compute. Qed.
