(* ===== verification/Insert.v ===== *)
(** * The insert phase: data of the two paths

    [insert_phase] and [insert_phase_pm] of [src/update/direct_insert.cpp]
    after the search: reserve locations, read the pages of the neighbours,
    write the target and a new version of every neighbour, switch the
    locations.  The block path works on page images in [update_buf] and writes
    whole pages, adjacent ones in one request; the persistent-memory path
    writes to the mapped file, and to the page image as well where it has read
    one.  Both implement the same change of the graph ([insert_spec]).  The
    order in which the persistent-memory path makes its stores durable is in
    [SoftInsert]. *)
From S2P Require Import Prelude Cuckoo Layout PageAlloc Mapping Node Versions Neighbor Float32 Prune DeltaPrune.
Import Cuckoo.

Record IORequest := { offset : Z; len : Z; buf : Z }.

(** [memcpy] of [n] bytes between address spaces. *)
Definition copy (src : Z -> Z) (soff doff n : Z) (dst : Z -> Z) : Z -> Z :=
  fun a => if (doff <=? a) && (a <? doff + n) then src (soff + (a - doff)) else dst a.

(** [reader->read] into the buffers and [reader->write] to the file. *)
Definition read_all (file : Z -> Z) (reqs : list IORequest) (mem : Z -> Z) : Z -> Z :=
  foldl (fun mem r => copy file (offset r) (buf r) (len r) mem) mem reqs.
Definition write_all (mem : Z -> Z) (reqs : list IORequest) (file : Z -> Z) : Z -> Z :=
  foldl (fun file r => copy mem (buf r) (offset r) (len r) file) file reqs.

(** ** Coalescing of adjacent pages *)
Section coalesce.
Context (size_per_io : Z) (cc_ann : bool).

(** [start_idx] and the request at it, [i] and the requests from it on. *)
Fixpoint coalesce_loop (writes_4k : list IORequest) (i start_idx : Z) (start : IORequest) (cur_off : Z)
    (writes : list IORequest) : list IORequest :=
  match writes_4k with
  | w :: writes_4k =>
      if u64 (cur_off + size_per_io) =? offset w
      then coalesce_loop writes_4k (i + 1) start_idx start (offset w) writes
      else coalesce_loop writes_4k (i + 1) i w (offset w)
             (writes ++ [{| offset := offset start; len := u64 (size_per_io * (i - start_idx)); buf := buf start |}])
  | [] =>
      if cc_ann || negb (2 ^ 64 - 1 =? u64 (cur_off + size_per_io))
      then writes ++ [{| offset := offset start; len := u64 (size_per_io * (i - start_idx)); buf := buf start |}]
      else writes
  end.

Definition coalesce (writes_4k : list IORequest) : list IORequest :=
  match writes_4k with
  | [] => []
  | w :: rest => coalesce_loop rest 1 0 w (offset w) []
  end.
End coalesce.

(** ** The new neighbour list of an existing node *)
Inductive pruning := DELTA_PRUNING | BATCH_PRUNING | PQ_PRUNING.

Section update.
Context {F : Type} `{!FloatOps F}.
Context (alpha : F) (range maxc : nat) (dpq : Z -> Z -> F) (fuel afuel : nat) (mode : pruning).

Definition prune_nhood (target_id nbr_id : Z) (nhood : list Z) : outcome (list Z) :=
  match mode with
  | DELTA_PRUNING => nhood_delta alpha range dpq afuel target_id nbr_id nhood
  | BATCH_PRUNING => nhood_batch alpha range dpq fuel afuel target_id nbr_id nhood
  | PQ_PRUNING => nhood_pq alpha range maxc dpq afuel target_id nbr_id nhood
  end.

Definition updated_nhood (target_id nbr_id : Z) (old : list Z) : outcome (list Z) :=
  let nhood := old ++ [target_id] in
  if bool_decide (range < length nhood)%nat then prune_nhood target_id nbr_id nhood else Ok nhood.

(** ** The effect on the graph *)
Definition update_spec (target_id nbr : Z) (gr : gmap Z node) : outcome (gmap Z node) :=
  nd ← from_option Ok Crash (gr !! nbr);
  nhood ← updated_nhood target_id nbr (nbrs nd);
  Ok (<[nbr := {| coords := coords nd; nbrs := nhood |}]> gr).

Definition insert_spec (target_id : Z) (point : list Z) (new_nhood : list Z) (gr : gmap Z node) : outcome (gmap Z node) :=
  gr ← foldM (update_spec target_id) new_nhood gr;
  Ok (<[target_id := {| coords := point; nbrs := new_nhood |}]> gr).

(** ** The two paths *)
Context (g : geometry) (ann_large cc_ann : bool).

Record insert_state := { in_map : map_state; in_file : Z -> Z; in_tags : gmap Z Z }.

(** [pages_to_rmw_set] in order. *)
Definition pages_to_rmw (locs : list Z) : list Z := std_set (loc_sector_no g <$> locs).

(** A place of a page image: in [update_buf] or in the mapped file. *)
Inductive place := Dram (a : Z) | Pm (a : Z).

(** Reads of the pages of the neighbours, in [update_buf] from buffer [i]. *)
Fixpoint old_pages (st : map_state) (new_nhood : list Z) (i : Z) (reads : list IORequest) (page_buf_map : gmap Z place)
  : outcome (list IORequest * gmap Z place) :=
  match new_nhood with
  | [] => Ok (reads, page_buf_map)
  | x :: new_nhood =>
      loc ← id2loc st x;
      let page := loc_sector_no g loc in
      old_pages st new_nhood (i + 1)
        (reads ++ [{| offset := u64 (page * SECTOR_LEN); len := size_per_io g; buf := i * size_per_io g |}])
        (<[u32 page := Dram (i * size_per_io g)]> page_buf_map)
  end.

(** The pages that are modified: images of their own in the block path, read
    only when they hold nodes. *)
Fixpoint rmw_pages (need : gset Z) (pages : list Z) (i : Z) (writes_4k reads : list IORequest)
    (page_buf_map : gmap Z place) : list IORequest * list IORequest * gmap Z place :=
  match pages with
  | [] => (writes_4k, reads, page_buf_map)
  | p :: pages =>
      let off := u64 (p * SECTOR_LEN) in
      let req := {| offset := off; len := size_per_io g; buf := i * size_per_io g |} in
      rmw_pages need pages (i + 1) (writes_4k ++ [req])
        (if decide (off / SECTOR_LEN ∈ need) then reads ++ [req] else reads)
        (<[u32 (off / SECTOR_LEN) := Dram (i * size_per_io g)]> page_buf_map)
  end.

(** In the persistent-memory path a page without an image is used in place. *)
Fixpoint rmw_pages_pm (pages : list Z) (page_buf_map : gmap Z place) : gmap Z place :=
  match pages with
  | [] => page_buf_map
  | p :: pages =>
      let off := u64 (p * SECTOR_LEN) in
      rmw_pages_pm pages
        (match page_buf_map !! u32 (off / SECTOR_LEN) with
         | Some _ => page_buf_map
         | None => <[u32 (off / SECTOR_LEN) := Pm off]> page_buf_map
         end)
  end.

(** The place of the node slot of a location. *)
Definition node_place (page_buf_map : gmap Z place) (loc : Z) : outcome place :=
  match page_buf_map !! u32 (loc_sector_no g loc) with
  | Some (Dram b) => Ok (Dram (b + loc_sector_off g loc))
  | Some (Pm b) => Ok (Pm (b + loc_sector_off g loc))
  | None => Crash
  end.

(** The bound of a list of neighbours, and the bytes of [update_buf]
    ([init_query_buf]). *)
Definition MAX_N_EDGES : Z := 512.
Definition update_buf_size : Z := (2 * MAX_N_EDGES + 1) * SECTOR_LEN.

(** [update_buf] and the file. *)
Definition mems : Type := (Z -> Z) * (Z -> Z).

Definition node_view (ms : mems) (pl : place) : node :=
  match pl with Dram a => disk_node g ms.1 a | Pm a => disk_node g ms.2 a end.

(** The version is stored at its place and, in the persistent-memory path,
    copied to the mapped file when the place is a page image. *)
Definition put_node (shadow : bool) (pl : place) (loc : Z) (nd : node) (ms : mems) : mems :=
  match pl with
  | Dram a => (write_node g a nd ms.1,
               if shadow then write_node g (u_loc_offset g loc) nd ms.2 else ms.2)
  | Pm a => (ms.1, write_node g a nd ms.2)
  end.

Definition put_target (shadow : bool) (page_buf_map : gmap Z place) (loc : Z) (nd : node) (ms : mems) : outcome mems :=
  pl ← node_place page_buf_map loc;
  Ok (put_node shadow pl loc nd ms).

Definition update_neighbor (shadow : bool) (st : map_state) (page_buf_map : gmap Z place) (target_id : Z)
    (nl : Z * Z) (ms : mems) : outcome mems :=
  let '(nbr, loc) := nl in
  r_loc ← id2loc st nbr;
  r_pl ← node_place page_buf_map r_loc;
  let r_nbr_node := node_view ms r_pl in
  nhood ← updated_nhood target_id nbr (nbrs r_nbr_node);
  w_pl ← node_place page_buf_map loc;
  Ok (put_node shadow w_pl loc {| coords := coords r_nbr_node; nbrs := nhood |} ms).

(** The switch of the block path: the location table has no persistent copy. *)
Fixpoint switch_block (nhood locs : list Z) (st : map_state) (orig : list Z) : outcome (map_state * list Z) :=
  match nhood, locs with
  | id :: nhood, loc :: locs =>
      old ← id2loc st id;
      switch_block nhood locs (set_id2loc (insert_or_assign id (u32 loc) (id2loc_ st)) st) (orig ++ [old])
  | _, _ => Ok (st, orig)
  end.

Definition publish_block (target_id : Z) (new_nhood locs : list Z) (st : map_state) : outcome map_state :=
  let st := set_id2loc (insert_or_assign target_id (u32 (locs !!! length new_nhood)) (id2loc_ st)) st in
  '(st, orig_locs) ← switch_block new_nhood locs st [];
  Ok (set_alloc (erase_and_set_loc g orig_locs locs (new_nhood ++ [target_id]) (alloc_ st)) st).

(** The block path.  [update_buf] has any content; its images must fit, and the
    list is shorter than [MAX_N_EDGES]. *)
Definition insert_phase (update_buf : Z -> Z) (point : list Z) (tag target_id : Z) (new_nhood page_ref : list Z)
    (s : insert_state) : outcome insert_state :=
  let n := length new_nhood in
  '(locs, need, a) ← alloc_loc g ann_large (Z.of_nat n + 1) page_ref ∅ (alloc_ (in_map s));
  let st := set_alloc a (in_map s) in
  let pages := pages_to_rmw locs in
  if (MAX_N_EDGES <=? Z.of_nat n) || (update_buf_size <? Z.of_nat (n + length pages) * size_per_io g) then Crash
  else
    '(reads, page_buf_map) ← old_pages st new_nhood 0 [] ∅;
    let '(writes_4k, reads, page_buf_map) := rmw_pages need pages (Z.of_nat n) [] reads page_buf_map in
    let writes := coalesce (size_per_io g) cc_ann writes_4k in
    let ms := (read_all (in_file s) reads update_buf, in_file s) in
    ms ← put_target false page_buf_map (locs !!! n) {| coords := point; nbrs := new_nhood |} ms;
    ms ← foldM (update_neighbor false st page_buf_map target_id) (zip new_nhood locs) ms;
    st ← publish_block target_id new_nhood locs st;
    Ok {| in_map := st; in_file := write_all ms.1 writes ms.2; in_tags := insert_or_assign target_id tag (in_tags s) |}.

(** The persistent-memory path: only the old pages are in [update_buf]. *)
Definition insert_phase_pm (update_buf : Z -> Z) (point : list Z) (tag target_id : Z) (new_nhood page_ref : list Z)
    (s : insert_state) : outcome insert_state :=
  let n := length new_nhood in
  '(locs, _, a) ← alloc_loc g ann_large (Z.of_nat n + 1) page_ref ∅ (alloc_ (in_map s));
  let st := set_alloc a (in_map s) in
  if (MAX_N_EDGES <=? Z.of_nat n) || (update_buf_size <? Z.of_nat n * size_per_io g) then Crash
  else
    '(reads, page_buf_map) ← old_pages st new_nhood 0 [] ∅;
    let page_buf_map := rmw_pages_pm (pages_to_rmw locs) page_buf_map in
    let ms := (read_all (in_file s) reads update_buf, in_file s) in
    ms ← put_target true page_buf_map (locs !!! n) {| coords := point; nbrs := new_nhood |} ms;
    ms ← foldM (update_neighbor true st page_buf_map target_id) (zip new_nhood locs) ms;
    st ← publish g target_id new_nhood locs st;
    Ok {| in_map := st; in_file := ms.2; in_tags := insert_or_assign target_id tag (in_tags s) |}.
End update.

(** ** Facts on copies and requests *)
Lemma copy_in src soff doff n dst a : doff <= a < doff + n -> copy src soff doff n dst a = src (soff + (a - doff)).
Proof. intros H. unfold copy. destruct (Z.leb_spec doff a); [|lia]. destruct (Z.ltb_spec a (doff + n)); [done | lia]. Qed.

Lemma copy_out src soff doff n dst a : a < doff \/ doff + n <= a -> copy src soff doff n dst a = dst a.
Proof. intros H. unfold copy. destruct (Z.leb_spec doff a); [|done]. destruct (Z.ltb_spec a (doff + n)); [lia | done]. Qed.

Lemma copy_ext src soff doff n d1 d2 a : d1 a = d2 a -> copy src soff doff n d1 a = copy src soff doff n d2 a.
Proof. intros H. unfold copy. by destruct (_ && _). Qed.

Lemma write_all_ext mem reqs : forall f1 f2 a, f1 a = f2 a -> write_all mem reqs f1 a = write_all mem reqs f2 a.
Proof. induction reqs as [|r reqs IH]; intros f1 f2 a H; [done|]. apply IH. by apply copy_ext. Qed.

Lemma write_all_app mem r1 r2 f : write_all mem (r1 ++ r2) f = write_all mem r2 (write_all mem r1 f).
Proof. unfold write_all. by rewrite foldl_app. Qed.

(** Two adjacent requests are one. *)
Lemma copy_join src s d n k dst a : 0 <= n -> 0 <= k ->
  copy src (s + n) (d + n) k (copy src s d n dst) a = copy src s d (n + k) dst a.
Proof.
  intros Hn Hk. destruct (decide (d + n <= a < d + n + k)) as [H|H].
  - rewrite !copy_in by lia. f_equal. lia.
  - rewrite copy_out by lia. destruct (decide (d <= a < d + n)) as [H'|H'].
    + by rewrite !copy_in by lia.
    + by rewrite !copy_out by lia.
Qed.

Section coalesce_facts.
Context (size : Z) (cc_ann : bool) (Hsize : 0 < size < 2 ^ 32).

(** The [k]-th page request has the [k]-th buffer, and its page does not
    reach the end of the 64-bit offsets. *)
Definition paged (i : Z) (l : list IORequest) (b : Z) : Prop :=
  forall (k : nat) w, l !! k = Some w -> 0 <= offset w /\ offset w + size < 2 ^ 64 - 1 /\ len w = size /\ buf w = b + (i + Z.of_nat k) * size.

Lemma paged_tail i w l b : paged i (w :: l) b -> paged (i + 1) l b.
Proof. intros H k x Hx. destruct (H (S k) x Hx) as (? & ? & ? & ->). split_and!; try done. f_equal. lia. Qed.

Lemma coalesce_loop_spec mem : forall l i si start cur writes file b a,
  paged i l b -> 0 <= si < i -> i + Z.of_nat (length l) < 2 ^ 31 ->
  0 <= offset start -> cur = offset start + (i - 1 - si) * size -> cur + size < 2 ^ 64 - 1 -> buf start = b + si * size ->
  write_all mem (coalesce_loop size cc_ann l i si start cur writes) file a =
  write_all mem (writes ++ {| offset := offset start; len := (i - si) * size; buf := buf start |} :: l) file a.
Proof.
  induction l as [|w l IH]; intros i si start cur writes file b a Hp Hsi Hi Ho Hc Hb Hbuf; cbn [coalesce_loop].
  - rewrite (u64_small (cur + size)) by (rewrite Hc in *; nia).
    destruct (Z.eqb_spec (2 ^ 64 - 1) (cur + size)); [lia|]. rewrite orb_true_r.
    rewrite u64_small by (simpl in Hi; nia). by rewrite (Z.mul_comm size).
  - destruct (Hp 0%nat w eq_refl) as (Ho0 & Ho1 & Hlen & Hbw). simpl in Hbw, Hi. rewrite Z.add_0_r in Hbw.
    rewrite (u64_small (cur + size)) by (rewrite Hc in *; nia). destruct (Z.eqb_spec (cur + size) (offset w)) as [E|E].
    + rewrite (IH (i + 1) si start (offset w) writes file b a);
        [|by apply paged_tail in Hp | lia | lia | done | rewrite <- E, Hc; lia | lia | done].
      rewrite !write_all_app. cbn [write_all foldl]. apply write_all_ext. cbn [offset buf len].
      rewrite Hlen. rewrite <- E, Hbw, Hc, Hbuf.
      replace (offset start + (i - 1 - si) * size + size) with (offset start + (i - si) * size) by lia.
      replace (b + i * size) with (b + si * size + (i - si) * size) by lia.
      rewrite copy_join by nia. f_equal. lia.
    + rewrite (IH (i + 1) i w (offset w) _ file b a);
        [|by apply paged_tail in Hp | lia | lia | done | lia | lia | done].
      rewrite !write_all_app. cbn [write_all foldl offset buf len]. apply write_all_ext.
      rewrite (u64_small (size * _)) by nia. rewrite Hlen, (Z.mul_comm size). by replace ((i + 1 - i) * size) with size by lia.
Qed.

(** Writing the coalesced requests is writing the pages. *)
Lemma coalesce_correct mem l file b a : paged 0 l b -> Z.of_nat (length l) < 2 ^ 30 ->
  write_all mem (coalesce size cc_ann l) file a = write_all mem l file a.
Proof.
  intros Hp Hl. destruct l as [|w l]; [done|]. cbn [coalesce]. destruct (Hp 0%nat w eq_refl) as (H0 & H1 & H2 & H3).
  simpl in H3, Hl. rewrite (coalesce_loop_spec mem l 1 0 w (offset w) [] file b a);
    [|by apply paged_tail in Hp | lia | lia | done | lia | lia | lia].
  cbn [app write_all foldl offset buf len]. rewrite H2. by replace ((1 - 0) * size) with size by lia.
Qed.
End coalesce_facts.

(** ** Places of nodes *)
Section places.
Context (g : geometry) (Hg : geometry_wf g).
Abbreviation off := (u_loc_offset g).
Abbreviation page := (loc_sector_no g).

#[local] Arguments write_node : simpl never.
#[local] Arguments disk_node : simpl never.

Lemma io_page : size_per_io g = 4096.
Proof. by rewrite (size_per_io_eq g Hg). Qed.

Lemma page_range loc : loc_ok loc -> 1 <= page loc < 2 ^ 32.
Proof. intros H. rewrite loc_sector_no_eq by done. pose proof (loc_div_range g Hg loc H). destruct H. lia. Qed.

Lemma u32_page loc : loc_ok loc -> u32 (page loc) = page loc.
Proof. intros H%page_range. apply u32_small. lia. Qed.

Lemma page_off p : 0 <= p < 2 ^ 32 -> u64 (p * SECTOR_LEN) = p * 4096.
Proof. intros H. change SECTOR_LEN with 4096. apply u64_small. lia. Qed.

Lemma page_div p : p * 4096 / SECTOR_LEN = p.
Proof. change SECTOR_LEN with 4096. by rewrite Z.div_mul by lia. Qed.

(** A slot lies inside its page. *)
Lemma slot_in_page loc : loc_ok loc ->
  off loc = page loc * 4096 + loc_sector_off g loc /\ 0 <= loc_sector_off g loc /\
  loc_sector_off g loc + max_node_len g <= 4096.
Proof.
  intros H. pose proof (nps_range g Hg) as Hn. pose proof (page_range loc H). unfold u_loc_offset. rewrite (page_off (page loc)) by lia.
  rewrite loc_sector_off_eq by done. pose proof (Z.mod_pos_bound loc (nnodes_per_sector g) ltac:(lia)).
  destruct Hg as [_ _ Hlen Hfit]. change SECTOR_LEN with 4096 in Hfit.
  assert (0 <= loc mod nnodes_per_sector g * max_node_len g) by nia.
  assert (loc mod nnodes_per_sector g * max_node_len g + max_node_len g <= 4096) by nia.
  split_and!; [apply u64_small; lia | lia | lia].
Qed.

Lemma slot_page loc a : loc_ok loc -> off loc <= a < off loc + max_node_len g -> a / 4096 = page loc.
Proof.
  intros H Ha. destruct (slot_in_page loc H) as (E & H0 & H1). symmetry.
  apply (Z.div_unique _ _ _ (a - page loc * 4096)); lia.
Qed.

(** Every image has a buffer of its own; a page used in place is at its offset. *)
Record images_ok (pbm : gmap Z place) : Prop := {
  io_buf : forall p b, pbm !! p = Some (Dram b) -> exists i, b = i * 4096;
  io_inj : forall p q b, pbm !! p = Some (Dram b) -> pbm !! q = Some (Dram b) -> p = q;
  io_pm : forall p b, pbm !! p = Some (Pm b) -> b = p * 4096;
}.

(** The file as the insertion sees it: images where there are, the mapped
    file elsewhere. *)
Definition virt (pbm : gmap Z place) (ms : mems) (a : Z) : Z :=
  match pbm !! (a / 4096) with Some (Dram b) => ms.1 (b + a mod 4096) | _ => ms.2 a end.

Context (pbm : gmap Z place) (Hpbm : images_ok pbm).

Lemma virt_dram ms p b k : pbm !! p = Some (Dram b) -> 0 <= k < 4096 -> virt pbm ms (p * 4096 + k) = ms.1 (b + k).
Proof.
  intros E Hk. unfold virt. rewrite Z.div_add_l, (Z.div_small k), Z.add_0_r, E by lia.
  by rewrite (Z.add_comm (p * 4096)), Z.mod_add, Z.mod_small by lia.
Qed.

Lemma node_place_ok loc : loc_ok loc -> is_Some (pbm !! page loc) ->
  exists pl, node_place g pbm loc = Ok pl /\
    match pl with
    | Dram a => exists b, pbm !! page loc = Some (Dram b) /\ a = b + loc_sector_off g loc
    | Pm a => pbm !! page loc = Some (Pm (page loc * 4096)) /\ a = off loc
    end.
Proof.
  intros H [[b|b] E]; unfold node_place; rewrite u32_page, E by done; eexists; (split; [done|]); [by exists b|].
  pose proof (io_pm _ Hpbm _ _ E) as ->. split; [done|]. by destruct (slot_in_page loc H) as (-> & _).
Qed.

(** The reader of a place sees the node of the virtual file. *)
Lemma node_view_virt ms loc pl : loc_ok loc -> is_Some (pbm !! page loc) -> node_place g pbm loc = Ok pl ->
  node_fits g (disk_node g (virt pbm ms) (off loc)) -> node_view g ms pl = disk_node g (virt pbm ms) (off loc).
Proof.
  intros H Hp E Hf. destruct (node_place_ok loc H Hp) as (pl' & E' & Hpl). rewrite E in E'. injection E' as <-.
  destruct (slot_in_page loc H) as (Eo & H0 & H1).
  assert (forall k, 0 <= k < max_node_len g -> (off loc + k) / 4096 = page loc) as Hk
    by (intros k Hk; apply (slot_page loc); [done | lia]).
  destruct pl as [a|a]; apply disk_node_move; try done; intros k Hk'.
  - destruct Hpl as (b & Eb & ->). rewrite Eo.
    replace (page loc * 4096 + loc_sector_off g loc + k) with (page loc * 4096 + (loc_sector_off g loc + k)) by lia.
    rewrite (virt_dram _ _ b) by (done || lia). f_equal. lia.
  - destruct Hpl as [Eb ->]. unfold virt. rewrite Hk by done. by rewrite Eb.
Qed.

Lemma write_node_far loc nd m a : loc_ok loc -> node_fits g nd -> a / 4096 <> page loc ->
  write_node g (off loc) nd m a = m a.
Proof.
  intros H Hf Hne. apply write_node_out; [done|]. destruct (slot_in_page loc H) as (Eo & H0 & H1).
  destruct (Z.lt_ge_cases a (off loc)); [by left|].
  destruct (Z.lt_ge_cases a (off loc + max_node_len g)); [|by right].
  exfalso. apply Hne. apply (slot_page loc); [done | lia].
Qed.

(** Storing a version at its place writes it to the virtual file. *)
Lemma put_node_virt shadow ms loc pl nd a : loc_ok loc -> is_Some (pbm !! page loc) -> node_place g pbm loc = Ok pl ->
  node_fits g nd -> virt pbm (put_node g shadow pl loc nd ms) a = write_node g (off loc) nd (virt pbm ms) a.
Proof.
  intros H Hp E Hf. destruct (node_place_ok loc H Hp) as (pl' & E' & Hpl). rewrite E in E'. injection E' as <-.
  destruct (slot_in_page loc H) as (Eo & H0 & H1). pose proof (Z.div_mod a 4096 ltac:(lia)) as Ea.
  pose proof (Z.mod_pos_bound a 4096 ltac:(lia)) as Hm. destruct pl as [b1|b1].
  - destruct Hpl as (b & Eb & ->). destruct (decide (a / 4096 = page loc)) as [Hpa|Hpa].
    + unfold virt at 1. rewrite Hpa, Eb. simpl. pose proof (write_node_shift g (b + loc_sector_off g loc) (off loc) nd ms.1 (virt pbm ms) (a - off loc)) as Hs.
      replace (b + loc_sector_off g loc + (a - off loc)) with (b + a mod 4096) in Hs by lia.
      replace (off loc + (a - off loc)) with a in Hs by lia. apply Hs. unfold virt. by rewrite Hpa, Eb.
    + rewrite write_node_far by done. unfold virt. destruct (pbm !! (a / 4096)) as [[b'|b']|] eqn:Eb'; simpl.
      * destruct (io_buf _ Hpbm _ _ Eb) as [i ->]. destruct (io_buf _ Hpbm _ _ Eb') as [i' ->].
        apply write_node_out; [done|]. assert (i <> i') by (intros <-; by pose proof (io_inj _ Hpbm _ _ _ Eb Eb')). nia.
      * destruct shadow; [by apply write_node_far | done].
      * destruct shadow; [by apply write_node_far | done].
  - destruct Hpl as [Eb ->]. unfold virt at 1. destruct (pbm !! (a / 4096)) as [[b'|b']|] eqn:Eb'; simpl.
    + rewrite write_node_far; [by unfold virt; rewrite Eb' | done | done | intros Ea'; by rewrite Ea', Eb in Eb'].
    + pose proof (write_node_shift g (off loc) (off loc) nd ms.2 (virt pbm ms) (a - off loc)) as Hs.
      replace (off loc + (a - off loc)) with a in Hs by lia. apply Hs. unfold virt. by rewrite Eb'.
    + pose proof (write_node_shift g (off loc) (off loc) nd ms.2 (virt pbm ms) (a - off loc)) as Hs.
      replace (off loc + (a - off loc)) with a in Hs by lia. apply Hs. unfold virt. by rewrite Eb'.
Qed.

(** What it does to the mapped file: with shadow copies the version is always
    stored there; without, page images hide it. *)
Lemma put_node_shadow ms loc pl nd : loc_ok loc -> is_Some (pbm !! page loc) -> node_place g pbm loc = Ok pl ->
  (put_node g true pl loc nd ms).2 = write_node g (off loc) nd ms.2.
Proof.
  intros H Hp E. destruct (node_place_ok loc H Hp) as (pl' & E' & Hpl). rewrite E in E'. injection E' as <-.
  destruct pl as [a|a]; [done|]. by destruct Hpl as [_ ->].
Qed.

Lemma put_node_image ms loc pl nd : loc_ok loc -> (exists b, pbm !! page loc = Some (Dram b)) ->
  node_place g pbm loc = Ok pl -> (put_node g false pl loc nd ms).2 = ms.2.
Proof.
  intros H [b Eb] E. destruct (node_place_ok loc H (mk_is_Some _ _ Eb)) as (pl' & E' & Hpl).
  rewrite E in E'. injection E' as <-. destruct pl as [a|a]; [done|]. destruct Hpl as [E' _]. congruence.
Qed.

(** *** The loop over the neighbours *)
Section updates.
Context {F : Type} `{!FloatOps F} (alpha : F) (range maxc : nat) (dpq : Z -> Z -> F) (fuel afuel : nat) (mode : pruning).
Context (st : map_state) (target : Z).
Abbreviation rule := (updated_nhood alpha range maxc dpq fuel afuel mode target).
Abbreviation upd shadow := (update_neighbor alpha range maxc dpq fuel afuel mode g shadow st pbm target).

Definition has_image (l : Z) : Prop := is_Some (pbm !! page l).

(** One neighbour. *)
Lemma update_neighbor_sim shadow j l ms m : (forall a, virt pbm ms a = m a) -> loc_ok l -> has_image l ->
  replaceable g st rule [l] m j -> (forall lj, id2loc_ st !! j = Some lj -> has_image lj) ->
  exists nd ms', node_fits g nd /\ upd shadow (j, l) ms = Ok ms' /\
    new_version g st rule (j, l) m = Ok (write_node g (off l) nd m) /\
    (forall a, virt pbm ms' a = write_node g (off l) nd m a) /\
    (shadow = true -> ms'.2 = write_node g (off l) nd ms.2) /\
    (shadow = false -> (exists b, pbm !! page l = Some (Dram b)) -> ms'.2 = ms.2).
Proof.
  intros Hm Hl Hil (lj & r & Ej & Hok & Hne & Hf & Er & Hfr) Hij.
  assert (Hv : disk_node g (virt pbm ms) (off lj) = disk_node g m (off lj)) by (apply disk_node_ext; [done|]; intros; by rewrite Hm).
  destruct (node_place_ok lj Hok (Hij lj Ej)) as (rpl & Erp & _).
  destruct (node_place_ok l Hl Hil) as (wpl & Ewp & _).
  pose proof (node_view_virt ms lj rpl Hok (Hij lj Ej) Erp) as Hview. rewrite Hv in Hview. specialize (Hview Hf).
  exists {| coords := coords (disk_node g m (off lj)); nbrs := r |}.
  exists (put_node g shadow wpl l {| coords := coords (disk_node g m (off lj)); nbrs := r |} ms).
  split_and!; [done | | by apply new_version_ok | | |].
  - unfold update_neighbor, id2loc, find, find_fn. rewrite Ej. cbn [fmap option_fmap option_map mbind outcome_bind].
    rewrite Erp. cbn [mbind outcome_bind]. rewrite Hview, Er. cbn [mbind outcome_bind]. by rewrite Ewp.
  - intros a. rewrite put_node_virt by done. destruct (decide (off l <= a < off l + max_node_len g)) as [Ha|Ha].
    + pose proof (write_node_shift g (off l) (off l) {| coords := coords (disk_node g m (off lj)); nbrs := r |} (virt pbm ms) m (a - off l)) as Hs.
      replace (off l + (a - off l)) with a in Hs by lia. apply Hs, Hm.
    + rewrite !write_node_out by (done || lia). apply Hm.
  - intros ->. by apply put_node_shadow.
  - intros -> Hb. by apply put_node_image.
Qed.

Lemma updates_sim shadow nl : forall ms m,
  (forall a, virt pbm ms a = m a) -> NoDup nl.*2 -> (forall l, l ∈ nl.*2 -> loc_ok l /\ has_image l) ->
  (forall j, j ∈ nl.*1 -> replaceable g st rule nl.*2 m j /\ forall lj, id2loc_ st !! j = Some lj -> has_image lj) ->
  exists ms' m', foldM (upd shadow) nl ms = Ok ms' /\ foldM (new_version g st rule) nl m = Ok m' /\
    (forall a, virt pbm ms' a = m' a) /\
    (shadow = true -> (forall l, l ∈ nl.*2 -> disk_node g ms'.2 (off l) = disk_node g m' (off l)) /\
       forall l a, loc_ok l -> l ∉ nl.*2 -> off l <= a < off l + max_node_len g -> ms'.2 a = ms.2 a) /\
    (shadow = false -> (forall l, l ∈ nl.*2 -> exists b, pbm !! page l = Some (Dram b)) -> ms'.2 = ms.2).
Proof.
  induction nl as [|[j1 l1] nl IH]; intros ms m Hm Hnd Hl Hj; cbn [foldM].
  { exists ms, m. split_and!; try done. intros _. split; [|done]. intros l Hin. by apply not_elem_of_nil in Hin. }
  cbn [fmap list_fmap fst snd] in *. apply NoDup_cons in Hnd as [Hni Hnd].
  destruct (Hl l1) as [Hl1 Hi1]; [by left|]. destruct (Hj j1) as [Hr1 Hij1]; [by left|].
  destruct (update_neighbor_sim shadow j1 l1 ms m Hm Hl1 Hi1) as (nd & ms1 & Hfit & -> & -> & Hm1 & Hs & Hns); [|done|].
  { destruct Hr1 as (lj & r & ? & ? & Hn & ? & ? & ?). exists lj, r. split_and!; try done.
    intros ->%list_elem_of_singleton. apply Hn. by left. }
  cbn [mbind outcome_bind]. set (m1 := write_node g (off l1) nd m) in *.
  assert (Hrep : forall j, j ∈ nl.*1 -> replaceable g st rule nl.*2 m1 j /\ forall lj, id2loc_ st !! j = Some lj -> has_image lj).
  { intros j Hin. destruct (Hj j) as [Hr Hi]; [by right|]. split; [|done].
    apply (replaceable_mono g st rule l1 _ m); [done|]. intros. by apply write_other_node. }
  assert (Hl' : forall l, l ∈ nl.*2 -> loc_ok l /\ has_image l) by (intros l Hin; apply Hl; by right).
  destruct (IH ms1 m1 Hm1 Hnd Hl' Hrep) as (ms' & m' & E1 & E2 & Hm' & Hs' & Hns').
  exists ms', m'. split_and!; [done | done | done | |].
  - intros Es. destruct (Hs' Es) as [Hnew Hfr]. rewrite (Hs Es) in Hfr.
    destruct (new_versions_spec g Hg st rule nl m1 Hnd) as (m'' & E2' & Hfr' & _).
    { intros l Hin. by apply Hl'. } { intros j Hin. by apply Hrep. }
    rewrite E2 in E2'. injection E2' as <-. split.
    + intros l [->|Hin]%elem_of_cons; [|by apply Hnew].
      trans nd; [|symmetry].
      * rewrite <- (write_node_read g (off l1) nd ms.2) by done. apply disk_node_ext; [by rewrite write_node_read|].
        intros a Ha. symmetry. by apply (Hfr l1).
      * rewrite <- (write_node_read g (off l1) nd m) by done. apply disk_node_ext; [by rewrite write_node_read|].
        intros a Ha. symmetry. by apply (Hfr' l1).
    + intros l a Hok [Hne Hnin]%not_elem_of_cons Ha. rewrite (Hfr l) by done. by apply (write_other_slot g Hg l).
  - intros Es Hb. rewrite Hns'; [by apply Hns; [|apply Hb; left] | done |]. intros l Hin. apply Hb. by right.
Qed.
End updates.
End places.

(** ** The page images *)
Section images.
Context (g : geometry) (Hg : geometry_wf g).
Abbreviation page := (loc_sector_no g).

(** Buffers below [n] are in use; the images of the pages in [P] are read. *)
Record loaded (P : Z -> Prop) (n : Z) (reads : list IORequest) (pbm : gmap Z place) : Prop := {
  lo_place : forall p b, pbm !! p = Some (Dram b) -> exists k, 0 <= k < n /\ b = k * 4096;
  lo_inj : forall p q b, pbm !! p = Some (Dram b) -> pbm !! q = Some (Dram b) -> p = q;
  lo_pm : forall p b, pbm !! p = Some (Pm b) -> b = p * 4096;
  lo_reads : forall r, r ∈ reads -> len r = 4096 /\ exists k, 0 <= k < n /\ buf r = k * 4096;
  lo_bufs : NoDup (buf <$> reads);
  lo_cover : forall p b, pbm !! p = Some (Dram b) -> P p -> {| offset := p * 4096; len := 4096; buf := b |} ∈ reads;
}.

Lemma loaded_images P n reads pbm : loaded P n reads pbm -> images_ok pbm.
Proof. intros H. split; [|apply H | apply H]. intros p b E. destruct (lo_place _ _ _ _ H p b E) as (k & _ & ->). eauto. Qed.

Lemma loaded_empty P : loaded P 0 [] ∅.
Proof. by split; try (intros *; rewrite lookup_empty; done); [intros r H%not_elem_of_nil | apply NoDup_nil_2]. Qed.

(** A new image in buffer [n]. *)
Lemma loaded_step P n reads pbm p (rd : bool) : 0 <= n -> loaded P n reads pbm -> (rd = false -> ~ P p) ->
  loaded P (n + 1) (reads ++ if rd then [{| offset := p * 4096; len := 4096; buf := n * 4096 |}] else [])
    (<[p := Dram (n * 4096)]> pbm).
Proof.
  intros Hn [H1 H2 H3 H4 H5 H6] Hrd.
  assert (Hnew : forall q, pbm !! q <> Some (Dram (n * 4096))) by (intros q E; destruct (H1 q _ E); lia).
  split.
  - intros q b [[<- [= <-]]|[_ E]]%lookup_insert_Some; [exists n; lia|]. destruct (H1 q b E) as (k & ? & ->). exists k. lia.
  - intros q q' b [[<- [= <-]]|[Hq E]]%lookup_insert_Some [[<- ?]|[Hq' E']]%lookup_insert_Some; simplify_eq; try done.
    + by destruct (Hnew q').
    + by destruct (Hnew q).
    + by eapply H2.
  - intros q b [[<- [=]]|[_ E]]%lookup_insert_Some. by apply H3.
  - intros r [Hr|Hr]%elem_of_app.
    + destruct (H4 r Hr) as (? & k & ? & ?). split; [done|]. exists k. lia.
    + destruct rd; [|by apply not_elem_of_nil in Hr]. apply list_elem_of_singleton in Hr as ->. split; [done|]. exists n. simpl. lia.
  - rewrite fmap_app. destruct rd; [|by rewrite app_nil_r]. apply NoDup_snoc; [done|].
    intros (r & E & Hr)%list_elem_of_fmap. destruct (H4 r Hr) as (_ & k & ? & Ek). simpl in E. lia.
  - intros q b [[<- [= <-]]|[_ E]]%lookup_insert_Some HP; apply elem_of_app; [|left; auto].
    right. destruct rd; [by left | by destruct (Hrd eq_refl)].
Qed.

Lemma old_pages_spec P st nhood : forall i reads pbm, 0 <= i ->
  (forall x, x ∈ nhood -> exists l, id2loc_ st !! x = Some l /\ loc_ok l) -> loaded P i reads pbm ->
  exists reads' pbm', old_pages g st nhood i reads pbm = Ok (reads', pbm') /\
    loaded P (i + Z.of_nat (length nhood)) reads' pbm' /\
    (forall p, is_Some (pbm !! p) -> is_Some (pbm' !! p)) /\
    (forall p pl, pbm' !! p = Some pl -> pbm !! p = Some pl \/ exists b, pl = Dram b) /\
    (forall x l, x ∈ nhood -> id2loc_ st !! x = Some l -> is_Some (pbm' !! page l)).
Proof.
  induction nhood as [|x nhood IH]; intros i reads pbm Hi Hk Hl; cbn [old_pages].
  { exists reads, pbm. rewrite Z.add_0_r. split_and!; try done; [auto|]. intros x l H. by apply not_elem_of_nil in H. }
  destruct (Hk x) as (l & E & Hok); [by left|]. unfold id2loc, find, find_fn. rewrite E. cbn [fmap option_fmap option_map mbind outcome_bind].
  pose proof (page_range g Hg l Hok). rewrite (io_page g Hg), (page_off (page l)), u32_page by (done || lia).
  pose proof (loaded_step P i reads pbm (page l) true Hi Hl ltac:(done)) as Hl1.
  destruct (IH (i + 1) _ _ ltac:(lia) (fun y Hy => Hk y (list_elem_of_further _ _ _ Hy)) Hl1) as (reads' & pbm' & -> & Hl' & Hd & Hpl & Hc).
  exists reads', pbm'. split; [done|]. split; [by replace (i + Z.of_nat (length (x :: nhood))) with (i + 1 + Z.of_nat (length nhood)) by (cbn [length]; lia)|].
  split_and!.
  - intros p Hp. apply Hd. destruct (decide (p = page l)) as [->|Hne]; [rewrite lookup_insert_eq | rewrite lookup_insert_ne by done]; [by eexists | done].
  - intros p pl Ep. destruct (Hpl p pl Ep) as [E'|?]; [|by right].
    apply lookup_insert_Some in E' as [[_ <-]|[_ ?]]; [right; by eexists | by left].
  - intros y ly [->|Hy]%elem_of_cons Ey; [|by eapply Hc]. simplify_eq. apply Hd. rewrite lookup_insert_eq. by eexists.
Qed.

(** The write requests of the modified pages. *)
Definition page_writes (i : Z) (pages : list Z) : list IORequest :=
  imap (fun k p => {| offset := p * 4096; len := 4096; buf := (i + Z.of_nat k) * 4096 |}) pages.

Lemma page_writes_cons i p pages :
  page_writes i (p :: pages) = {| offset := p * 4096; len := 4096; buf := i * 4096 |} :: page_writes (i + 1) pages.
Proof.
  unfold page_writes. rewrite imap_cons. rewrite Z.add_0_r. f_equal. apply imap_ext. intros k q _. simpl. f_equal. lia.
Qed.

Lemma rmw_pages_spec (P : Z -> Prop) need pages : forall i w reads pbm, 0 <= i ->
  (forall p, p ∈ pages -> 1 <= p < 2 ^ 32 /\ (P p -> p ∈ need)) -> loaded P i reads pbm ->
  exists reads' pbm', rmw_pages g need pages i w reads pbm = (w ++ page_writes i pages, reads', pbm') /\
    loaded P (i + Z.of_nat (length pages)) reads' pbm' /\
    (forall p, is_Some (pbm !! p) -> is_Some (pbm' !! p)) /\
    (NoDup pages -> forall (k : nat) p, pages !! k = Some p -> pbm' !! p = Some (Dram ((i + Z.of_nat k) * 4096))) /\
    (forall p, p ∉ pages -> pbm' !! p = pbm !! p).
Proof.
  induction pages as [|p pages IH]; intros i w reads pbm Hi Hp Hl; cbn [rmw_pages].
  { exists reads, pbm. rewrite app_nil_r, Z.add_0_r. by split_and!. }
  destruct (Hp p) as [Hr Hn]; [by left|]. rewrite (io_page g Hg), (page_off p) by lia.
  rewrite page_div, (u32_small p) by lia.
  set (req := {| offset := p * 4096; len := 4096; buf := i * 4096 |}).
  assert ((if decide (p ∈ need) then reads ++ [req] else reads) = reads ++ if bool_decide (p ∈ need) then [req] else []) as ->
    by (case_decide; [by rewrite bool_decide_eq_true_2 | by rewrite bool_decide_eq_false_2, app_nil_r]).
  pose proof (loaded_step P i reads pbm p (bool_decide (p ∈ need)) Hi Hl) as Hl1. fold req in Hl1.
  destruct (IH (i + 1) (w ++ [req]) (reads ++ if bool_decide (p ∈ need) then [req] else []) (<[p := Dram (i * 4096)]> pbm))
    as (reads' & pbm' & -> & Hl' & Hd & Hk & Ho); [lia | | |].
  { intros q Hq. apply Hp. by right. }
  { apply Hl1. intros E. apply bool_decide_eq_false in E. auto. }
  exists reads', pbm'. rewrite page_writes_cons, <- app_assoc. split; [done|].
  split; [by replace (i + Z.of_nat (length (p :: pages))) with (i + 1 + Z.of_nat (length pages)) by (cbn [length]; lia)|].
  split_and!.
  - intros q Hq. apply Hd. destruct (decide (q = p)) as [->|Hne]; [rewrite lookup_insert_eq; by eexists | by rewrite lookup_insert_ne].
  - intros [Hni Hnd]%NoDup_cons [|k] q Eq; simpl in Eq.
    + injection Eq as <-. rewrite Ho by done. rewrite lookup_insert_eq. do 3 f_equal. lia.
    + rewrite (Hk Hnd k q Eq). do 3 f_equal. lia.
  - intros q [Hne Hnin]%not_elem_of_cons. rewrite Ho by done. by rewrite lookup_insert_ne.
Qed.

Lemma rmw_pages_pm_spec (P : Z -> Prop) n reads pages : forall pbm,
  (forall p, p ∈ pages -> 1 <= p < 2 ^ 32) -> loaded P n reads pbm ->
  loaded P n reads (rmw_pages_pm pages pbm) /\
  (forall p, is_Some (pbm !! p) \/ p ∈ pages -> is_Some (rmw_pages_pm pages pbm !! p)).
Proof.
  induction pages as [|p pages IH]; intros pbm Hp Hl; cbn [rmw_pages_pm].
  { split; [done|]. intros p [?|H%not_elem_of_nil]; done. }
  pose proof (Hp p ltac:(by left)). rewrite (page_off p) by lia. rewrite page_div, (u32_small p) by lia.
  destruct (pbm !! p) as [pl|] eqn:E.
  { destruct (IH pbm) as [H1 H2]; [intros q Hq; apply Hp; by right | done|]. split; [done|].
    intros q [Hq|[->|Hq]%elem_of_cons]; apply H2; [by left | left; by eexists | by right]. }
  destruct (IH (<[p := Pm (p * 4096)]> pbm)) as [H1 H2]; [intros q Hq; apply Hp; by right | |].
  { destruct Hl as [L1 L2 L3 L4 L5 L6]. split; try done.
    - intros q b [[_ [=]]|[_ ?]]%lookup_insert_Some. eauto.
    - intros q q' b [[_ [=]]|[_ ?]]%lookup_insert_Some [[_ [=]]|[_ ?]]%lookup_insert_Some. by apply (L2 q q' b).
    - intros q b [[<- [= <-]]|[_ ?]]%lookup_insert_Some; [done | by apply L3].
    - intros q b [[_ [=]]|[_ ?]]%lookup_insert_Some. auto. }
  split; [done|]. intros q Hq. apply H2. destruct (decide (q = p)) as [->|Hne]; [left; rewrite lookup_insert_eq; by eexists|].
  destruct Hq as [Hq|[?|Hq]%elem_of_cons]; [left; by rewrite lookup_insert_ne | done | by right].
Qed.

(** *** Reading and writing whole pages *)
Lemma read_all_out file reads : forall mem a,
  (forall r, r ∈ reads -> len r = 4096 /\ (a < buf r \/ buf r + 4096 <= a)) -> read_all file reads mem a = mem a.
Proof.
  induction reads as [|r reads IH]; intros mem a H; [done|]. cbn [read_all foldl].
  destruct (H r) as [Hl Ho]; [by left|]. unfold read_all in IH. rewrite IH by (intros r' Hr'; apply H; by right).
  apply copy_out. by rewrite Hl.
Qed.

Lemma read_all_in file reads : forall mem r k,
  (forall r, r ∈ reads -> len r = 4096 /\ exists i, buf r = i * 4096) -> NoDup (buf <$> reads) ->
  r ∈ reads -> 0 <= k < 4096 -> read_all file reads mem (buf r + k) = file (offset r + k).
Proof.
  induction reads as [|r0 reads IH]; intros mem r k Hr Hnd Hin Hk; [by apply not_elem_of_nil in Hin|].
  cbn [fmap list_fmap] in Hnd. apply NoDup_cons in Hnd as [Hni Hnd]. apply elem_of_cons in Hin as [->|Hin].
  - change (read_all file (r0 :: reads) mem) with (read_all file reads (copy file (offset r0) (buf r0) (len r0) mem)).
    destruct (Hr r0) as [Hl [i Ei]]; [by left|]. rewrite read_all_out.
    + rewrite copy_in by (rewrite Hl; lia). f_equal. lia.
    + intros r Hin. destruct (Hr r) as [Hlr [i' Ei']]; [by right|]. split; [done|].
      assert (i <> i'). { intros <-. apply Hni. apply list_elem_of_fmap. exists r. split; [congruence | done]. }
      nia.
  - apply IH; [intros r' Hr'; apply Hr; by right | done | done | done].
Qed.

Lemma write_pages_out mem pages : forall i file a, a / 4096 ∉ pages -> write_all mem (page_writes i pages) file a = file a.
Proof.
  induction pages as [|p pages IH]; intros i file a Ha; [done|]. rewrite page_writes_cons.
  apply not_elem_of_cons in Ha as [Hne Hni]. cbn [write_all foldl offset buf len]. unfold write_all in IH. rewrite IH by done.
  apply copy_out. pose proof (Z.div_mod a 4096 ltac:(lia)). pose proof (Z.mod_pos_bound a 4096 ltac:(lia)). nia.
Qed.

Lemma write_pages_in mem pages : forall i file (k : nat) p j, NoDup pages -> pages !! k = Some p -> 0 <= j < 4096 ->
  write_all mem (page_writes i pages) file (p * 4096 + j) = mem ((i + Z.of_nat k) * 4096 + j).
Proof.
  induction pages as [|p0 pages IH]; intros i file k p j Hnd Hk Hj; [done|].
  apply NoDup_cons in Hnd as [Hni Hnd]. rewrite page_writes_cons.
  change (write_all mem (?r :: ?l) file) with (write_all mem l (copy mem (buf r) (offset r) (len r) file)). destruct k as [|k].
  - injection Hk as ->. rewrite write_pages_out by (rewrite Z.div_add_l, (Z.div_small j), Z.add_0_r by lia; done).
    cbn [offset buf len]. rewrite copy_in by lia. f_equal. lia.
  - rewrite (IH (i + 1) _ k p j) by done. f_equal. lia.
Qed.

Lemma page_writes_paged i pages : (forall p, p ∈ pages -> 1 <= p < 2 ^ 32) -> paged 4096 0 (page_writes i pages) (i * 4096).
Proof.
  intros Hp k w E. unfold page_writes in E. rewrite list_lookup_imap in E.
  destruct (pages !! k) as [p|] eqn:Ep; [|done]. injection E as <-. cbn [offset buf len].
  pose proof (Hp p ltac:(by eapply list_elem_of_lookup_2)). split_and!; lia.
Qed.

(** The images show the file wherever they were read. *)
Lemma virt_loaded P n reads pbm file mem p k : loaded P n reads pbm -> (P p \/ forall b, pbm !! p <> Some (Dram b)) -> 0 <= k < 4096 ->
  virt pbm (read_all file reads mem, file) (p * 4096 + k) = file (p * 4096 + k).
Proof.
  intros Hl HP Hk. destruct (pbm !! p) as [[b|b]|] eqn:E.
  - rewrite (virt_dram pbm _ p b) by done. destruct HP as [HP|HP]; [|by destruct (HP b)].
    pose proof (read_all_in file reads mem _ k (fun r Hr => let '(conj H1 (ex_intro _ i (conj _ H2))) := lo_reads _ _ _ _ Hl r Hr in
      conj H1 (ex_intro _ i H2)) (lo_bufs _ _ _ _ Hl) (lo_cover _ _ _ _ Hl p b E HP) Hk) as Hin. exact Hin.
  - unfold virt. rewrite Z.div_add_l, (Z.div_small k), Z.add_0_r, E by lia. done.
  - unfold virt. rewrite Z.div_add_l, (Z.div_small k), Z.add_0_r, E by lia. done.
Qed.
End images.

(** ** The graph *)
Section graph.
Context {F : Type} `{!FloatOps F} (alpha : F) (range maxc : nat) (dpq : Z -> Z -> F) (fuel afuel : nat) (mode : pruning).
Context (g : geometry).
Abbreviation rule := (updated_nhood alpha range maxc dpq fuel afuel mode).
Abbreviation off := (u_loc_offset g).

(** The fuel and the parameters that each kind of pruning needs. *)
Definition mode_ok : Prop :=
  match mode with
  | DELTA_PRUNING => exists n, fast_end alpha n /\ (n < afuel)%nat
  | BATCH_PRUNING => (exists n, fast_end alpha n /\ (n < afuel)%nat) /\ (0 < PRUNE_BATCH_SIZE range)%nat /\
      (S range mod PRUNE_BATCH_SIZE range = 0)%nat /\ (S range < fuel)%nat
  | PQ_PRUNING => exists n, rounds_end alpha n /\ (n < afuel)%nat
  end.

(** Nodes fit their slots, hold at most [range] different identifiers, and
    these have nodes. *)
Definition graph_wf (gr : gmap Z node) : Prop :=
  map_Forall (fun id nd => 0 <= id < kAllocatedID /\ node_good g range nd /\ forall j, j ∈ nbrs nd -> is_Some (gr !! j)) gr.

Context (Hmode : mode_ok) (Hfit : offset_to_node_nhood g + 4 + 4 * Z.of_nat range <= max_node_len g)
  (Hrange : Z.of_nat range < 2 ^ 32).

Lemma prune_nhood_spec t i l : NoDup l -> length l = S range -> t ∈ l ->
  exists r, prune_nhood alpha range maxc dpq fuel afuel mode t i l = Ok r /\ NoDup r /\ r ⊆ l /\ (length r <= range)%nat.
Proof.
  intros Hnd Hl Ht. unfold prune_nhood, mode_ok in *.
  assert (Hone : forall r, one_evicted l r -> NoDup r /\ r ⊆ l /\ (length r <= range)%nat).
  { intros r Hr. destruct (one_evicted_nodup dpq l r Hr Hnd) as (? & ? & ?). split_and!; [done | done | lia]. }
  destruct mode.
  - destruct Hmode as (n & H1 & H2). destruct (nhood_delta_spec alpha range dpq n afuel t i l Hl Ht H1 H2) as (r & E & Hr). exists r. auto.
  - destruct Hmode as ((n & H1 & H2) & H3 & H4 & H5).
    destruct (nhood_batch_spec alpha range dpq n fuel afuel t i l Hl H3 H4 Ht H1 H2 H5) as (r & E & Hr). exists r. auto.
  - destruct Hmode as (n & H1 & H2). assert (l <> []) as Hne by by destruct l.
    destruct (nhood_pq_spec alpha range maxc dpq n afuel t i l Hnd Hne H1 H2) as (r & E & [P1 P2 P3 _]). exists r. by split_and!.
Qed.

Lemma updated_nhood_spec t i old : NoDup old -> (length old <= range)%nat -> t ∉ old ->
  exists r, rule t i old = Ok r /\ NoDup r /\ r ⊆ old ++ [t] /\ (length r <= range)%nat /\ ((length old < range)%nat -> r = old ++ [t]).
Proof.
  intros Hnd Hl Ht. unfold updated_nhood. assert (length (old ++ [t]) = S (length old)) as E by (rewrite length_app; simpl; lia).
  assert (NoDup (old ++ [t])) by by apply NoDup_snoc. case_bool_decide as Hb.
  - destruct (prune_nhood_spec t i (old ++ [t])) as (r & Er & ? & ? & ?); [done | lia | set_solver |].
    exists r. split_and!; try done. lia.
  - exists (old ++ [t]). split_and!; try done. lia.
Qed.

Lemma updated_good t i nd r : 0 <= t < kAllocatedID -> node_good g range nd -> rule t i (nbrs nd) = Ok r ->
  NoDup r -> r ⊆ nbrs nd ++ [t] -> (length r <= range)%nat -> node_good g range {| coords := coords nd; nbrs := r |}.
Proof.
  intros Ht ((Hc & Hl & _ & Hr) & _) _ Hnd Hsub Hlen. split_and!; [|done..]. unfold kAllocatedID in Ht. split_and!; simpl; [done | lia | lia |].
  rewrite Forall_forall in Hr |- *. intros x Hx%Hsub. apply elem_of_app in Hx as [Hx| ->%list_elem_of_singleton]; auto. lia.
Qed.

(** The loop of [insert_spec]. *)
Lemma update_specs_ok t nhood : forall gr, NoDup nhood ->
  (forall j, j ∈ nhood -> exists nd r, gr !! j = Some nd /\ rule t j (nbrs nd) = Ok r) ->
  exists gr', foldM (update_spec alpha range maxc dpq fuel afuel mode t) nhood gr = Ok gr' /\
    (forall j nd r, j ∈ nhood -> gr !! j = Some nd -> rule t j (nbrs nd) = Ok r ->
       gr' !! j = Some {| coords := coords nd; nbrs := r |}) /\
    (forall j, j ∉ nhood -> gr' !! j = gr !! j).
Proof.
  induction nhood as [|x nhood IH]; intros gr Hnd Hj; cbn [foldM].
  { exists gr. split_and!; [done | | done]. intros j nd r H. by apply not_elem_of_nil in H. }
  apply NoDup_cons in Hnd as [Hni Hnd]. destruct (Hj x) as (nd & r & E & Er); [by left|].
  assert (update_spec alpha range maxc dpq fuel afuel mode t x gr = Ok (<[x := {| coords := coords nd; nbrs := r |}]> gr)) as ->.
  { unfold update_spec. rewrite E. cbn [from_option mbind outcome_bind]. by rewrite Er. }
  cbn [mbind outcome_bind].
  destruct (IH (<[x := {| coords := coords nd; nbrs := r |}]> gr) Hnd) as (gr' & -> & Hin & Hout).
  { intros j Hin. destruct (Hj j) as (nd' & r' & E' & Er'); [by right|]. exists nd', r'.
    rewrite lookup_insert_ne by (by intros ->). done. }
  exists gr'. split_and!; [done | |].
  - intros j nd' r' [->|Hjn]%elem_of_cons E' Er'.
    + rewrite Hout by done. rewrite E in E'. injection E' as <-. rewrite Er in Er'. injection Er' as <-. apply lookup_insert_eq.
    + apply Hin; [done | by rewrite lookup_insert_ne by (by intros ->) | done].
  - intros j [Hne Hjn]%not_elem_of_cons. rewrite Hout by done. by rewrite lookup_insert_ne.
Qed.

(** What an insertion needs of its arguments. *)
Record insertable (gr : gmap Z node) (t : Z) (point nhood : list Z) : Prop := {
  ins_fresh : gr !! t = None;
  ins_id : 0 <= t < kAllocatedID;
  ins_nodup : NoDup nhood;
  ins_known : forall j, j ∈ nhood -> is_Some (gr !! j);
  ins_len : (length nhood <= range)%nat;
  ins_point : Z.of_nat (length point) = offset_to_node_nhood g;
}.

Lemma insertable_rule gr t point nhood j : graph_wf gr -> insertable gr t point nhood -> j ∈ nhood ->
  exists nd r, gr !! j = Some nd /\ node_good g range nd /\ rule t j (nbrs nd) = Ok r /\
    node_good g range {| coords := coords nd; nbrs := r |} /\ r ⊆ nbrs nd ++ [t] /\
    ((length (nbrs nd) < range)%nat -> r = nbrs nd ++ [t]).
Proof.
  intros Hw Hi Hj. destruct (ins_known _ _ _ _ Hi j Hj) as [nd E]. destruct (Hw j nd E) as (_ & Hgood & Hcl).
  destruct (updated_nhood_spec t j (nbrs nd)) as (r & Er & H1 & H2 & H3 & H4); [apply Hgood | apply Hgood | |].
  { intros Ht%Hcl. rewrite (ins_fresh _ _ _ _ Hi) in Ht. by destruct Ht. }
  exists nd, r. split_and!; try done. by eapply updated_good; [apply Hi|..].
Qed.

Lemma target_good gr t point nhood : graph_wf gr -> insertable gr t point nhood ->
  node_good g range {| coords := point; nbrs := nhood |}.
Proof.
  intros Hw [_ _ Hnd Hk Hl Hp]. split_and!; [|done..]. split_and!; simpl; [done | lia | lia |].
  rewrite Forall_forall. intros x Hx. destruct (Hk x Hx) as [nd E]. destruct (Hw x nd E) as (? & _). unfold kAllocatedID in *. lia.
Qed.

(** The abstract insertion succeeds and keeps the graph well-formed. *)
Lemma insert_spec_ok gr t point nhood : graph_wf gr -> insertable gr t point nhood ->
  exists gr', insert_spec alpha range maxc dpq fuel afuel mode t point nhood gr = Ok gr' /\ graph_wf gr' /\
    gr' !! t = Some {| coords := point; nbrs := nhood |} /\
    (forall j nd r, j ∈ nhood -> gr !! j = Some nd -> rule t j (nbrs nd) = Ok r ->
       gr' !! j = Some {| coords := coords nd; nbrs := r |}) /\
    (forall j, j ∉ nhood -> j <> t -> gr' !! j = gr !! j).
Proof.
  intros Hw Hi. destruct (update_specs_ok t nhood gr) as (gr1 & E & Hin & Hout); [apply Hi | |].
  { intros j Hj. destruct (insertable_rule gr t point nhood j Hw Hi Hj) as (nd & r & ? & _ & ? & _). eauto. }
  assert (Htn : t ∉ nhood) by (intros Ht%(ins_known _ _ _ _ Hi); rewrite (ins_fresh _ _ _ _ Hi) in Ht; by destruct Ht).
  unfold insert_spec. rewrite E. cbn [mbind outcome_bind]. eexists. split; [done|].
  assert (Hk : forall j, is_Some (gr !! j) -> is_Some (<[t := {| coords := point; nbrs := nhood |}]> gr1 !! j)).
  { intros j [nd Ej]. destruct (decide (j = t)) as [->|Hne]; [rewrite lookup_insert_eq; by eexists|]. rewrite lookup_insert_ne by done.
    destruct (decide (j ∈ nhood)) as [Hj|Hj]; [|rewrite Hout by done; by eexists].
    destruct (insertable_rule gr t point nhood j Hw Hi Hj) as (nd' & r & Ej' & _ & Er & _). rewrite (Hin j nd' r Hj Ej' Er). by eexists. }
  split_and!.
  - intros j nd [[<- <-]|[Hne Ej]]%lookup_insert_Some.
    { split; [apply Hi|]. split; [by eapply target_good|]. intros j Hj. apply Hk. by apply (ins_known _ _ _ _ Hi). }
    destruct (decide (j ∈ nhood)) as [Hj|Hj].
    + destruct (insertable_rule gr t point nhood j Hw Hi Hj) as (nd' & r & Ej' & _ & Er & Hgood & Hsub & _).
      rewrite (Hin j nd' r Hj Ej' Er) in Ej. injection Ej as <-. destruct (Hw j nd' Ej') as (Hr & _ & Hcl). split; [done|]. split; [done|].
      intros x Hx%Hsub. apply elem_of_app in Hx as [Hx| ->%list_elem_of_singleton]; [by apply Hk, Hcl | rewrite lookup_insert_eq; by eexists].
    + rewrite Hout in Ej by done. destruct (Hw j nd Ej) as (Hr & Hgood & Hcl). split_and!; [lia | lia | done |]. intros x Hx. by apply Hk, Hcl.
  - apply lookup_insert_eq.
  - intros j nd r Hj Ej Er. rewrite lookup_insert_ne by (by intros ->). by apply Hin.
  - intros j Hj Hne. rewrite lookup_insert_ne by done. by apply Hout.
Qed.
End graph.

(** ** The two paths implement [insert_spec] *)
Section phases.
Context {F : Type} `{!FloatOps F} (alpha : F) (range maxc : nat) (dpq : Z -> Z -> F) (fuel afuel : nat) (mode : pruning).
Context (g : geometry) (Hg : geometry_wf g).
Context (Hmode : mode_ok alpha range fuel afuel mode) (Hfit : offset_to_node_nhood g + 4 + 4 * Z.of_nat range <= max_node_len g).
Abbreviation rule := (updated_nhood alpha range maxc dpq fuel afuel mode).
Abbreviation upd := (update_neighbor alpha range maxc dpq fuel afuel mode g).
Abbreviation off := (u_loc_offset g).
Abbreviation page := (loc_sector_no g).
#[local] Arguments write_node : simpl never.
#[local] Arguments disk_node : simpl never.

Lemma list_bound_small : Z.of_nat range < 4096.
Proof.
  destruct Hg as [H1 H2 H3 H4]. unfold SECTOR_LEN in H4. pose proof (u64_range (data_dim g * sizeof_T g)).
  unfold offset_to_node_nhood in Hfit. nia.
Qed.

Lemma list_bound : Z.of_nat range < 2 ^ 32.
Proof. pose proof list_bound_small. lia. Qed.

(** *** The stores *)
Section stores.
Context (st : map_state) (target : Z) (nhood wl : list Z) (tl : Z) (point : list Z) (file : Z -> Z).
Context (pbm : gmap Z place) (Hpbm : images_ok pbm) (ms : mems).
Abbreviation nl := (zip nhood wl).
Abbreviation tnd := {| coords := point; nbrs := nhood |}.
Context (Hlen : length wl = length nhood) (Hnd : NoDup (wl ++ [tl])).
Context (Hlocs : forall l, l ∈ wl ++ [tl] -> loc_ok l /\ is_Some (pbm !! page l)).
Context (Htgt : node_fits g tnd).
Context (Hold : forall j, j ∈ nhood -> replaceable g st (rule target) (wl ++ [tl]) file j /\
  forall lj, id2loc_ st !! j = Some lj -> is_Some (pbm !! page lj) /\
    forall a, off lj <= a < off lj + max_node_len g -> virt pbm ms a = file a).

(** The slots hold the new versions. *)
Definition versions_in (f : Z -> Z) : Prop :=
  (forall j l, (j, l) ∈ nl -> version_at g st (rule target) file f j l) /\ disk_node g f (off tl) = tnd.

(** A slot that was not reserved has the bytes of [m]. *)
Definition slots_kept (m f : Z -> Z) : Prop :=
  forall l a, loc_ok l -> l ∉ wl ++ [tl] -> off l <= a < off l + max_node_len g -> f a = m a.

Lemma versions_in_eq f1 f2 : (forall a, f1 a = f2 a) -> versions_in f1 -> versions_in f2.
Proof.
  intros H [H1 H2]. split; [|by rewrite <- (disk_node_eq g f1)]. intros j l Hin. destruct (H1 j l Hin) as (lj & r & ? & ? & Hd).
  exists lj, r. split_and!; try done. by rewrite <- (disk_node_eq g f1).
Qed.

Lemma nl_ids : nl.*1 = nhood.
Proof. apply fst_zip. lia. Qed.
Lemma nl_locs : nl.*2 = wl.
Proof. apply snd_zip. lia. Qed.

Lemma tl_fresh : loc_ok tl /\ is_Some (pbm !! page tl) /\ tl ∉ wl.
Proof.
  split_and!; [apply Hlocs; set_solver | apply Hlocs; set_solver |]. apply NoDup_app in Hnd as (_ & H & _).
  intros Hin. apply (H tl Hin). by left.
Qed.

(** The virtual file after the target has been stored. *)
Lemma target_replaceable j m : (forall a, m a = write_node g (off tl) tnd (virt pbm ms) a) -> j ∈ nhood ->
  replaceable g st (rule target) wl m j /\
  forall lj, id2loc_ st !! j = Some lj -> disk_node g m (off lj) = disk_node g file (off lj).
Proof.
  intros Hm Hj. destruct (Hold j Hj) as [(lj & r & Ej & Hok & Hn & Hf & Er & Hfr) Hi]. destruct tl_fresh as (Htok & _ & _).
  destruct (Hi lj Ej) as [_ Hv]. assert (lj <> tl) by (intros ->; apply Hn; set_solver).
  assert (disk_node g m (off lj) = disk_node g file (off lj)) as E.
  { apply disk_node_ext; [done|]. intros a Ha. rewrite Hm. rewrite (write_other_slot g Hg lj) by done. symmetry. by apply Hv. }
  split; [|intros lj' Ej'; congruence]. exists lj, r. rewrite !E. split_and!; try done.
  intros Hin. apply Hn. set_solver.
Qed.

Lemma phase_stores shadow : exists ms1 ms',
  put_target g shadow pbm tl tnd ms = Ok ms1 /\ foldM (upd shadow st pbm target) nl ms1 = Ok ms' /\
  versions_in (virt pbm ms') /\ slots_kept (virt pbm ms) (virt pbm ms') /\
  (shadow = true -> versions_in ms'.2 /\ slots_kept ms.2 ms'.2) /\
  (shadow = false -> (forall l, l ∈ wl ++ [tl] -> exists b, pbm !! page l = Some (Dram b)) -> ms'.2 = ms.2).
Proof.
  destruct tl_fresh as (Htok & Htim & Htni). destruct (node_place_ok g Hg pbm Hpbm tl Htok Htim) as (pl & Epl & _).
  unfold put_target. rewrite Epl. cbn [mbind outcome_bind]. set (ms1 := put_node g shadow pl tl tnd ms).
  pose proof (fun a => put_node_virt g Hg pbm Hpbm shadow ms tl pl tnd a Htok Htim Epl Htgt) as Hv1. fold ms1 in Hv1.
  assert (Hnw : NoDup wl) by by apply NoDup_app in Hnd as (? & _ & _).
  assert (Hwl : forall l, l ∈ nl.*2 -> loc_ok l /\ is_Some (pbm !! page l)) by (rewrite nl_locs; intros l Hl; apply Hlocs; set_solver).
  destruct (updates_sim g Hg pbm Hpbm alpha range maxc dpq fuel afuel mode st target shadow nl ms1 (virt pbm ms1))
    as (ms' & m' & E1 & E2 & Hm' & Hs & Hns); [done | by rewrite nl_locs | done | |].
  { rewrite nl_ids, nl_locs. intros j Hj. destruct (target_replaceable j _ Hv1 Hj) as [Hr _]. split; [done|].
    intros lj Ej. by destruct (proj2 (Hold j Hj) lj Ej). }
  destruct (new_versions_spec g Hg st (rule target) nl (virt pbm ms1)) as (m'' & E2' & Hfr & Hver).
  { by rewrite nl_locs. } { intros l Hl. by apply Hwl. }
  { rewrite nl_ids, nl_locs. intros j Hj. by apply (target_replaceable j _ Hv1 Hj). }
  rewrite E2 in E2'. injection E2' as <-. rewrite nl_locs in *.
  assert (Hvf : versions_in m').
  { split.
    - intros j l Hin. destruct (Hver j l Hin) as (lj & r & Ej & Er & Hd). exists lj, r.
      assert (j ∈ nhood) as Hj by (rewrite <- nl_ids; apply list_elem_of_fmap; by exists (j, l)).
      destruct (target_replaceable j _ Hv1 Hj) as [_ E]. rewrite (E lj Ej) in Er, Hd. done.
    - rewrite <- (write_node_read g (off tl) tnd (virt pbm ms) Htgt). apply disk_node_ext; [by rewrite write_node_read|].
      intros a Ha. rewrite <- Hv1. symmetry. by apply (Hfr tl). }
  assert (Hkf : slots_kept (virt pbm ms) m').
  { intros l a Hl Hn Ha. rewrite (Hfr l) by (done || set_solver). rewrite Hv1. apply (write_other_slot g Hg l); try done. set_solver. }
  exists ms1, ms'. split; [done|]. split; [done|].
  split; [by apply (versions_in_eq m')|]. split; [intros l a Hl Hn Ha; rewrite Hm'; by apply (Hkf l)|]. split.
  - intros Es. destruct (Hs Es) as [Hnew Hkeep]. subst shadow.
    assert (ms1.2 = write_node g (off tl) tnd ms.2) as Hms1 by (by apply (put_node_shadow g Hg pbm Hpbm)). rewrite Hms1 in Hkeep. split; [split|].
    + intros j l Hin. destruct (proj1 Hvf j l Hin) as (lj & r & ? & ? & Hd). exists lj, r. split_and!; [done..|].
      rewrite Hnew; [done|]. rewrite <- nl_locs. apply list_elem_of_fmap. by exists (j, l).
    + rewrite <- (write_node_read g (off tl) tnd ms.2 Htgt). apply disk_node_ext; [by rewrite write_node_read|].
      intros a Ha. symmetry. by apply (Hkeep tl).
    + intros l a Hl Hn Ha. rewrite (Hkeep l) by (done || set_solver). apply (write_other_slot g Hg l); try done. set_solver.
  - intros Es Hb. rewrite Hns; [|done | intros l Hl; apply Hb; set_solver]. subst shadow. apply (put_node_image g Hg pbm Hpbm); try done.
    apply Hb. set_solver.
Qed.
End stores.

(** *** The graph afterwards *)
Lemma graph_of_lookup st f id : graph_of g st f !! id = (fun l => disk_node g f (off l)) <$> id2loc_ st !! id.
Proof. apply lookup_fmap. Qed.

Lemma graph_after st st' t nhood wl tl old file f' point :
  graph_wf range g (graph_of g st file) -> insertable range g (graph_of g st file) t point nhood ->
  length wl = length nhood -> switched g st (nhood ++ [t]) (wl ++ [tl]) old st' ->
  versions_in st t nhood wl tl point file f' ->
  (forall id l, id2loc_ st !! id = Some l -> disk_node g f' (off l) = disk_node g file (off l)) ->
  insert_spec alpha range maxc dpq fuel afuel mode t point nhood (graph_of g st file) = Ok (graph_of g st' f') /\
  graph_wf range g (graph_of g st' f').
Proof.
  intros Hw Hi Hlen Hsw [Hver Htl] Hkeep.
  destruct (insert_spec_ok alpha range maxc dpq fuel afuel mode g Hmode Hfit list_bound _ _ _ _ Hw Hi)
    as (gr' & -> & Hw' & Ht & Hin & Hout).
  assert (Hat : forall i id l, (nhood ++ [t]) !! i = Some id -> (wl ++ [tl]) !! i = Some l ->
    graph_of g st' f' !! id = Some (disk_node g f' (off l))).
  { intros i id l E1 E2. rewrite graph_of_lookup, (sw_map _ _ _ _ _ _ Hsw i id l E1 E2). done. }
  assert (gr' = graph_of g st' f') as <-; [|done]. apply map_eq. intros id. destruct (decide (id = t)) as [->|Hne].
  { rewrite Ht, (Hat (length nhood) t tl), Htl; [done | by rewrite lookup_app_r, Nat.sub_diag by lia |].
    rewrite lookup_app_r by lia. by replace (length nhood - length wl)%nat with 0%nat by lia. }
  destruct (decide (id ∈ nhood)) as [Hid|Hid].
  - apply list_elem_of_lookup in Hid as [i Hid]. destruct (lookup_lt_is_Some_2 wl i) as [l Hl]; [rewrite Hlen; by apply lookup_lt_Some in Hid|].
    destruct (Hver id l) as (lj & r & Ej & Er & Hd). { apply list_elem_of_lookup. exists i. by apply lookup_zip_Some. }
    rewrite (Hat i id l), Hd by by apply lookup_app_l_Some. apply Hin; [by eapply list_elem_of_lookup_2 | | done].
    by rewrite graph_of_lookup, Ej.
  - rewrite Hout by done. rewrite !graph_of_lookup, (sw_other _ _ _ _ _ _ Hsw) by set_solver.
    destruct (id2loc_ st !! id) as [l|] eqn:E; [|done]. simpl. by rewrite (Hkeep id l E).
Qed.

(** *** Reservation *)
Record insert_pre (s : insert_state) (t : Z) (point nhood hints : list Z) : Prop := {
  ip_index : index_inv g (in_map s);
  ip_graph : graph_wf range g (graph_of g (in_map s) (in_file s));
  ip_args : insertable range g (graph_of g (in_map s) (in_file s)) t point nhood;
  ip_hints : Forall (fun p => 0 <= p < 2 ^ 32) hints;
  ip_space : cur_loc (alloc_ (in_map s)) + (Z.of_nat (length nhood) + 1) + nnodes_per_sector g < 2 ^ 32;
  ip_edges : Z.of_nat (length nhood) < MAX_N_EDGES;
}.

Lemma graph_known st f id : is_Some (graph_of g st f !! id) <-> is_Some (id2loc_ st !! id).
Proof. rewrite graph_of_lookup. apply fmap_is_Some. Qed.

Lemma reserve ann_large s t point nhood hints : insert_pre s t point nhood hints ->
  exists wl tl need a, alloc_loc g ann_large (Z.of_nat (length nhood) + 1) hints ∅ (alloc_ (in_map s)) = Ok (wl ++ [tl], need, a) /\
    alloc_post g (Z.of_nat (length nhood) + 1) (alloc_ (in_map s)) (wl ++ [tl]) need a /\ length wl = length nhood /\
    ready g (set_alloc a (in_map s)) t nhood (wl ++ [tl]).
Proof.
  intros [Hi Hw Ha Hh Hs _].
  destruct (alloc_loc_spec g Hg ann_large (Z.of_nat (length nhood) + 1) hints ∅ (alloc_ (in_map s)))
    as (locs & need & a & E & Hpost); [apply Hi | lia | done | done |].
  assert (length locs = S (length nhood)) as Hl by (pose proof (ap_len _ _ _ _ _ _ Hpost); lia).
  destruct (exists_last (l := locs)) as (wl & tl & ->); [by destruct locs|]. rewrite length_app in Hl. simpl in Hl.
  exists wl, tl, need, a. split_and!; [done | done | lia |]. eapply ready_after_alloc; try done; [apply Ha | | apply Ha |].
  - intros id Hid. apply (graph_known _ (in_file s)). by apply (ins_known _ _ _ _ _ _ Ha).
  - pose proof (ins_fresh _ _ _ _ _ _ Ha) as Hf. rewrite graph_of_lookup in Hf. by apply fmap_None in Hf.
Qed.

(** A known identifier is outside the reserved slots and in a live page. *)
Lemma known_slot n s locs need a id lj : index_inv g (in_map s) -> alloc_post g n (alloc_ (in_map s)) locs need a ->
  id2loc_ (in_map s) !! id = Some lj -> loc_ok lj /\ lj ∉ locs /\ page_live g (alloc_ (in_map s)) (page lj).
Proof.
  intros Hi Hpost E. destruct (ii_fwd _ _ Hi _ _ E) as (Hr & Hok & El). split; [done|].
  assert (loc2id g (alloc_ (in_map s)) lj <> kInvalidID) as Hne by (rewrite El; unfold kInvalidID, kAllocatedID in *; lia). split.
  - intros Hin. by destruct (res_free _ _ _ _ (ap_res _ _ _ _ _ _ Hpost) lj Hin).
  - exists lj. split_and!; [done | | done]. by rewrite loc_page_eq, loc_sector_no_eq.
Qed.

(** The conditions of [phase_stores], for images of the pages of the neighbours
    that show the file. *)
Lemma old_versions n s t point nhood hints locs need a pbm ms :
  insert_pre s t point nhood hints -> alloc_post g n (alloc_ (in_map s)) locs need a ->
  (forall x l, x ∈ nhood -> id2loc_ (in_map s) !! x = Some l -> is_Some (pbm !! page l)) ->
  (forall id l a, id2loc_ (in_map s) !! id = Some l -> off l <= a < off l + max_node_len g -> virt pbm ms a = in_file s a) ->
  forall j, j ∈ nhood -> replaceable g (set_alloc a (in_map s)) (rule t) locs (in_file s) j /\
    forall lj, id2loc_ (set_alloc a (in_map s)) !! j = Some lj -> is_Some (pbm !! page lj) /\
      forall a, off lj <= a < off lj + max_node_len g -> virt pbm ms a = in_file s a.
Proof.
  intros [Hi Hw Ha _ _ _] Hpost Him Hv j Hj.
  destruct (insertable_rule alpha range maxc dpq fuel afuel mode g Hmode Hfit list_bound _ t point nhood j Hw Ha Hj)
    as (nd & r & E & Hgood & Er & Hgood' & _). rewrite graph_of_lookup in E. simpl in *.
  destruct (id2loc_ (in_map s) !! j) as [lj|] eqn:Ej; [|done]. injection E as <-. split.
  - destruct (known_slot n s locs need a j lj Hi Hpost Ej) as (Hok & Hn & _).
    exists lj, r. split_and!; [done | done | done | apply Hgood | done | apply Hgood'].
  - intros lj' [= <-]. split; [by apply (Him j)|]. intros b Hb. by apply (Hv j lj).
Qed.

(** Images that are read show the slots of known identifiers. *)
Lemma virt_known s P N reads pbm mem id l a : loaded P N reads pbm -> loc_ok l ->
  (P (page l) \/ forall b, pbm !! page l <> Some (Dram b)) -> id2loc_ (in_map s) !! id = Some l ->
  off l <= a < off l + max_node_len g -> virt pbm (read_all (in_file s) reads mem, in_file s) a = in_file s a.
Proof.
  intros Hl Hok HP E Ha. destruct (slot_in_page g Hg l Hok) as (Eo & H0 & H1).
  replace a with (page l * 4096 + (a - page l * 4096)) by lia. eapply virt_loaded; [done | done | lia].
Qed.

Lemma elem_pages l locs : l ∈ locs -> page l ∈ pages_to_rmw g locs.
Proof. intros H. apply elem_std_set. by apply list_elem_of_fmap_2. Qed.

Lemma pages_range locs p : (forall l, l ∈ locs -> loc_ok l) -> p ∈ pages_to_rmw g locs -> 1 <= p < 2 ^ 32.
Proof. intros H (l & -> & Hl)%elem_std_set%list_elem_of_fmap. apply (page_range g Hg). auto. Qed.

Lemma zip_locs (nhood wl : list Z) tl : length wl = length nhood -> zip nhood (wl ++ [tl]) = zip nhood wl.
Proof. intros H. rewrite zip_with_app_r, H, firstn_all, drop_all. by rewrite app_nil_r. Qed.

Lemma last_loc (nhood wl : list Z) tl : length wl = length nhood -> (wl ++ [tl]) !!! length nhood = tl.
Proof. intros <-. by apply list_lookup_total_middle. Qed.

(** The images fit [update_buf]. *)
Lemma buf_fits_pm (nhood : list Z) : Z.of_nat (length nhood) < MAX_N_EDGES ->
  (MAX_N_EDGES <=? Z.of_nat (length nhood)) || (update_buf_size <? Z.of_nat (length nhood) * size_per_io g) = false.
Proof.
  intros H. rewrite (io_page g Hg). unfold update_buf_size, MAX_N_EDGES, SECTOR_LEN in *.
  apply orb_false_iff. rewrite Z.leb_gt, Z.ltb_ge. lia.
Qed.

Lemma pages_count locs : (length (pages_to_rmw g locs) <= length locs)%nat.
Proof. unfold pages_to_rmw. etransitivity; [apply length_std_set | by rewrite length_fmap]. Qed.

Lemma buf_fits_block (nhood wl : list Z) tl : length wl = length nhood -> Z.of_nat (length nhood) < MAX_N_EDGES ->
  (MAX_N_EDGES <=? Z.of_nat (length nhood)) ||
    (update_buf_size <? Z.of_nat (length nhood + length (pages_to_rmw g (wl ++ [tl]))) * size_per_io g) = false.
Proof.
  intros Hl H. pose proof (pages_count (wl ++ [tl])) as Hp. rewrite length_app in Hp. simpl in Hp.
  rewrite (io_page g Hg). unfold update_buf_size, MAX_N_EDGES, SECTOR_LEN in *.
  apply orb_false_iff. rewrite Z.leb_gt, Z.ltb_ge. lia.
Qed.

(** The result of the publication of reserved locations. *)
Definition published ann_large s t nhood hints (st' : map_state) : Prop :=
  exists locs need a, alloc_loc g ann_large (Z.of_nat (length nhood) + 1) hints ∅ (alloc_ (in_map s)) = Ok (locs, need, a) /\
    publish g t nhood locs (set_alloc a (in_map s)) = Ok st'.

Definition implements s t point tag nhood (s' : insert_state) : Prop :=
  insert_spec alpha range maxc dpq fuel afuel mode t point nhood (graph_of g (in_map s) (in_file s)) =
    Ok (graph_of g (in_map s') (in_file s')) /\
  graph_wf range g (graph_of g (in_map s') (in_file s')) /\ index_inv g (in_map s') /\
  in_tags s' = <[t := tag]> (in_tags s).

Lemma insert_phase_pm_ok ann_large s t point tag nhood hints update_buf : insert_pre s t point nhood hints ->
  exists s', insert_phase_pm alpha range maxc dpq fuel afuel mode g ann_large update_buf point tag t nhood hints s = Ok s' /\
    implements s t point tag nhood s' /\ published ann_large s t nhood hints (in_map s').
Proof.
  intros Hpre. destruct (reserve ann_large s t point nhood hints Hpre) as (wl & tl & need & a & E & Hpost & Hlen & Hrd).
  pose proof Hpre as [Hi Hw Ha _ _ He]. set (st1 := set_alloc a (in_map s)) in *.
  destruct (old_pages_spec g Hg (fun _ => True) st1 nhood 0 [] ∅) as (reads & pbm0 & Eo & Hl0 & _ & _ & Him); [lia | | apply loaded_empty |].
  { intros x Hx. destruct (rd_known _ _ _ _ _ Hrd x Hx) as [l El]. exists l. split; [done|]. by destruct (known_slot _ _ _ _ _ _ _ Hi Hpost El). }
  assert (Hok : forall l, l ∈ wl ++ [tl] -> loc_ok l) by (intros l Hl; by destruct (rd_reserved _ _ _ _ _ Hrd l Hl)).
  destruct (rmw_pages_pm_spec (fun _ => True) (Z.of_nat (length nhood)) reads (pages_to_rmw g (wl ++ [tl])) pbm0) as [Hl1 Hdom];
    [intros p; by apply pages_range | exact Hl0 |].
  set (pbm := rmw_pages_pm _ pbm0) in *. set (ms := (read_all (in_file s) reads update_buf, in_file s)).
  assert (Hvk : forall id l b, id2loc_ (in_map s) !! id = Some l -> off l <= b < off l + max_node_len g -> virt pbm ms b = in_file s b).
  { intros id l b El Hb. destruct (known_slot _ _ _ _ _ _ _ Hi Hpost El) as (Hokl & _). eapply (virt_known s); [done | done | by left | done | done]. }
  destruct (phase_stores st1 t nhood wl tl point (in_file s) pbm (loaded_images _ _ _ _ Hl1) ms Hlen (rd_locs _ _ _ _ _ Hrd)) with (shadow := true)
    as (ms1 & ms' & E1 & E2 & _ & _ & Hs & _).
  { intros l Hl. split; [by apply Hok|]. apply Hdom. right. by apply elem_pages. }
  { by apply (target_good range g Hfit list_bound _ t point nhood Hw Ha). }
  { eapply old_versions; [done | done | | done]. intros x l Hx El. apply Hdom. left. by apply (Him x). }
  destruct (Hs eq_refl) as [Hver Hkeep].
  destruct (publish_spec g Hg st1 t nhood (wl ++ [tl]) Hrd) as (st' & old & Ep & Hi' & _ & Hsw & _).
  exists {| in_map := st'; in_file := ms'.2; in_tags := <[t := tag]> (in_tags s) |}. split; [|split].
  - unfold insert_phase_pm. rewrite E. cbn [mbind outcome_bind]. fold st1. rewrite buf_fits_pm by done. rewrite Eo. cbn [mbind outcome_bind]. fold pbm ms.
    rewrite last_loc, E1, zip_locs by done. cbn [mbind outcome_bind]. rewrite E2. cbn [mbind outcome_bind]. rewrite Ep. cbn [mbind outcome_bind]. by rewrite insert_or_assign_eq.
  - destruct (graph_after st1 st' t nhood wl tl old (in_file s) ms'.2 point Hw Ha Hlen Hsw Hver) as [Hspec Hwf]; [|by split].
    intros id l El. destruct (known_slot _ _ _ _ _ _ _ Hi Hpost El) as (Hokl & Hn & _). apply disk_node_ext.
    + assert (graph_of g (in_map s) (in_file s) !! id = Some (disk_node g (in_file s) (off l))) as Eg by (rewrite graph_of_lookup; by simpl in El; rewrite El).
      apply (Hw id _ Eg).
    + intros b Hb. symmetry. by apply (Hkeep l).
  - exists (wl ++ [tl]), need, a. done.
Qed.

(** *** The block path *)
Definition with_queue (q : list (Z * Z)) (st : map_state) : map_state :=
  {| id2loc_ := id2loc_ st; alloc_ := alloc_ st; id2loc_pm_queue := q |}.

Lemma switch_block_eq nhood : forall locs st orig,
  switch_block nhood locs st orig =
  match switch_neighbors nhood locs st orig with
  | Ok (st', old) => Ok (with_queue (id2loc_pm_queue st) st', old)
  | Crash => Crash
  end.
Proof.
  assert (forall nhood locs q st orig, switch_block nhood locs (with_queue q st) orig =
    match switch_neighbors nhood locs st orig with Ok (st', old) => Ok (with_queue q st', old) | Crash => Crash end) as H.
  { intros nh. induction nh as [|id nh IH]; intros [|l locs] q st orig; try done. cbn [switch_block switch_neighbors].
    unfold id2loc. simpl. destruct (find id (id2loc_ st)); [|done]. cbn [mbind outcome_bind]. by rewrite <- IH. }
  intros locs st orig. rewrite <- (H _ _ (id2loc_pm_queue st)). by destruct st.
Qed.

(** Without the queue both switches are the same. *)
Lemma publish_block_eq t nhood locs st :
  publish_block g t nhood locs st =
  match publish g t nhood locs st with Ok st' => Ok (with_queue (id2loc_pm_queue st) st') | Crash => Crash end.
Proof.
  unfold publish_block, publish. rewrite switch_block_eq. destruct (switch_neighbors _ _ _ _) as [[st' old]|]; [|done]. done.
Qed.

(** The write requests put the images of the modified pages into the file. *)
Lemma block_write cc_ann P N reads n pbm ms mem pages a :
  (forall p, p ∈ pages -> 1 <= p < 2 ^ 32) -> NoDup pages -> Z.of_nat (length pages) < 2 ^ 30 -> loaded P N reads pbm ->
  (forall (k : nat) p, pages !! k = Some p -> pbm !! p = Some (Dram ((n + Z.of_nat k) * 4096))) ->
  write_all ms (coalesce (size_per_io g) cc_ann (page_writes n pages)) mem a =
  (if decide (a / 4096 ∈ pages) then virt pbm (ms, mem) a else mem a).
Proof.
  intros Hp Hnd Hlen Hl Hk. rewrite (io_page g Hg).
  rewrite (coalesce_correct 4096 cc_ann ltac:(lia) ms _ mem (n * 4096) a (page_writes_paged n pages Hp))
    by (unfold page_writes; by rewrite length_imap).
  case_decide as Ha; [|by apply write_pages_out]. apply list_elem_of_lookup in Ha as [k Ha].
  pose proof (Z.div_mod a 4096 ltac:(lia)) as Ea. pose proof (Z.mod_pos_bound a 4096 ltac:(lia)).
  replace a with (a / 4096 * 4096 + a mod 4096) at 1 2 by lia.
  rewrite (write_pages_in ms pages n mem k _ _ Hnd Ha) by done. by rewrite (virt_dram pbm _ _ _ _ (Hk k _ Ha)).
Qed.

(** The images of the block path: every modified page has one, in the order
    of the pages, and those of live pages are read. *)
Lemma block_images s t point nhood hints locs need a :
  insert_pre s t point nhood hints -> alloc_post g (Z.of_nat (length nhood) + 1) (alloc_ (in_map s)) locs need a ->
  let st1 := set_alloc a (in_map s) in
  let n := Z.of_nat (length nhood) in
  let pages := pages_to_rmw g locs in
  exists reads0 pbm0 reads pbm N,
    old_pages g st1 nhood 0 [] ∅ = Ok (reads0, pbm0) /\
    rmw_pages g need pages n [] reads0 pbm0 = (page_writes n pages, reads, pbm) /\
    loaded (page_live g (alloc_ (in_map s))) N reads pbm /\
    (forall (k : nat) p, pages !! k = Some p -> pbm !! p = Some (Dram ((n + Z.of_nat k) * 4096))) /\
    (forall l, l ∈ locs -> exists b, pbm !! page l = Some (Dram b)) /\
    (forall x l, x ∈ nhood -> id2loc_ (in_map s) !! x = Some l -> is_Some (pbm !! page l)).
Proof.
  intros Hpre Hpost st1 n pages. set (P := page_live g (alloc_ (in_map s))). pose proof Hpre as [Hi Hw Ha _ _ _].
  assert (Hok : forall l, l ∈ locs -> loc_ok l) by (intros l Hl; by destruct (res_free _ _ _ _ (ap_res _ _ _ _ _ _ Hpost) l Hl)).
  destruct (old_pages_spec g Hg P st1 nhood 0 [] ∅) as (reads0 & pbm0 & Eo & Hl0 & _ & _ & Him); [lia | | apply loaded_empty |].
  { intros x Hx. apply (ins_known _ _ _ _ _ _ Ha), graph_known in Hx as [l El]. exists l. split; [done|].
    by destruct (known_slot _ _ _ _ _ _ _ Hi Hpost El). }
  destruct (rmw_pages_spec g Hg P need pages n [] reads0 pbm0) as (reads & pbm & Er & Hl1 & Hdom & Hk & _); [lia | | exact Hl0 |].
  { intros p Hp. split; [by apply (pages_range locs)|]. intros HP.
    apply elem_std_set, list_elem_of_fmap in Hp as (l & -> & Hl). specialize (Hok l Hl).
    rewrite loc_sector_no_eq, <- (loc_page_eq g Hg) in HP |- * by done. by apply (ap_read _ _ _ _ _ _ Hpost). }
  specialize (Hk (NoDup_std_set _)). exists reads0, pbm0, reads, pbm, (n + Z.of_nat (length pages)).
  split_and!; [done | exact Er | done | done | |].
  - intros l Hl. destruct (proj1 (list_elem_of_lookup pages (page l)) (elem_pages _ _ Hl)) as [k Ek]. eexists. by apply (Hk k).
  - intros x l Hx El. apply Hdom. by apply (Him x).
Qed.

(** The file after the block writes. *)
Lemma block_file s t point nhood hints wl tl need a cc_ann P N reads pbm mem ms' :
  let st1 := set_alloc a (in_map s) in
  let n := Z.of_nat (length nhood) in
  let pages := pages_to_rmw g (wl ++ [tl]) in
  let ms := (read_all (in_file s) reads mem, in_file s) in
  let f' := write_all ms'.1 (coalesce (size_per_io g) cc_ann (page_writes n pages)) ms'.2 in
  insert_pre s t point nhood hints -> length wl = length nhood ->
  alloc_post g (n + 1) (alloc_ (in_map s)) (wl ++ [tl]) need a -> loaded P N reads pbm ->
  (forall (k : nat) p, pages !! k = Some p -> pbm !! p = Some (Dram ((n + Z.of_nat k) * 4096))) ->
  (forall id l b, id2loc_ (in_map s) !! id = Some l -> off l <= b < off l + max_node_len g -> virt pbm ms b = in_file s b) ->
  (forall x l, x ∈ nhood -> id2loc_ (in_map s) !! x = Some l -> is_Some (pbm !! page l)) ->
  versions_in st1 t nhood wl tl point (in_file s) (virt pbm ms') -> slots_kept wl tl (virt pbm ms) (virt pbm ms') ->
  ms'.2 = in_file s ->
  versions_in st1 t nhood wl tl point (in_file s) f' /\
  (forall id l, id2loc_ st1 !! id = Some l -> disk_node g f' (off l) = disk_node g (in_file s) (off l)).
Proof.
  intros st1 n pages ms f' Hpre Hlen Hpost Hl Hk Hvk Him [Hver Htl] Hkeep Hfile. pose proof Hpre as [Hi Hw Ha _ _ _].
  assert (Hok : forall l, l ∈ wl ++ [tl] -> loc_ok l) by (intros l Hin; by destruct (res_free _ _ _ _ (ap_res _ _ _ _ _ _ Hpost) l Hin)).
  assert (Hsmall : Z.of_nat (length pages) < 2 ^ 30).
  { pose proof (length_std_set (loc_sector_no g <$> wl ++ [tl])) as H. rewrite length_fmap, length_app in H. simpl in H.
    pose proof list_bound_small. pose proof (ins_len _ _ _ _ _ _ Ha). subst pages. unfold pages_to_rmw. lia. }
  assert (Hf : forall b, f' b = if decide (b / 4096 ∈ pages) then virt pbm (ms'.1, ms'.2) b else ms'.2 b).
  { intros b. eapply block_write; [intros p; by apply pages_range | apply NoDup_std_set | done | done | done]. }
  assert (Hnew : forall l, l ∈ wl ++ [tl] -> node_fits g (disk_node g (virt pbm ms') (off l)) ->
    disk_node g f' (off l) = disk_node g (virt pbm ms') (off l)).
  { intros l Hin Hfits. apply disk_node_ext; [done|]. intros b Hb. rewrite Hf, decide_True; [by rewrite <- surjective_pairing|].
    rewrite (slot_page g Hg l) by auto. by apply elem_pages. }
  split; [split|].
  - intros j l Hin. destruct (Hver j l Hin) as (lj & r & Ej & Er & Hd). exists lj, r. split_and!; [done..|].
    assert (j ∈ nhood) as Hj by (rewrite <- (fst_zip nhood wl) by lia; apply list_elem_of_fmap; by exists (j, l)).
    destruct (old_versions _ s t point nhood hints _ need a pbm ms Hpre Hpost Him Hvk j Hj) as [(lj' & r' & Ej' & _ & _ & _ & Er' & Hfits) _].
    fold st1 in Ej'. assert (lj' = lj) as -> by congruence. assert (r' = r) as -> by congruence. rewrite Hnew; [done | | by rewrite Hd].
    apply elem_of_app. left. rewrite <- (snd_zip nhood wl) by lia. apply list_elem_of_fmap. by exists (j, l).
  - rewrite Hnew; [done | apply elem_of_app; right; by left |]. rewrite Htl. by apply (target_good range g Hfit list_bound _ t point nhood Hw Ha).
  - intros id l El. destruct (known_slot _ _ _ _ _ _ _ Hi Hpost El) as (Hokl & Hn & _). apply disk_node_ext.
    + assert (graph_of g (in_map s) (in_file s) !! id = Some (disk_node g (in_file s) (off l))) as Eg by (rewrite graph_of_lookup; by simpl in El; rewrite El).
      apply (Hw id _ Eg).
    + intros b Hb. rewrite Hf. case_decide; [|by rewrite Hfile].
      rewrite <- surjective_pairing. rewrite (Hkeep l b Hokl Hn Hb). symmetry. by apply (Hvk id l).
Qed.

Lemma index_inv_queue q st : index_inv g st -> index_inv g (with_queue q st).
Proof. intros [H1 H2 H3]. by split. Qed.

Lemma insert_phase_ok ann_large cc_ann s t point tag nhood hints update_buf : insert_pre s t point nhood hints ->
  exists s', insert_phase alpha range maxc dpq fuel afuel mode g ann_large cc_ann update_buf point tag t nhood hints s = Ok s' /\
    implements s t point tag nhood s' /\
    exists st', published ann_large s t nhood hints st' /\ in_map s' = with_queue (id2loc_pm_queue (in_map s)) st'.
Proof.
  intros Hpre. destruct (reserve ann_large s t point nhood hints Hpre) as (wl & tl & need & a & E & Hpost & Hlen & Hrd).
  destruct (block_images s t point nhood hints _ need a Hpre Hpost) as (reads0 & pbm0 & reads & pbm & N & Eo & Er & Hl & Hk & Himg & Him).
  pose proof Hpre as [Hi Hw Ha _ _ He]. set (st1 := set_alloc a (in_map s)) in *. set (ms := (read_all (in_file s) reads update_buf, in_file s)).
  assert (Hvk : forall id l b, id2loc_ (in_map s) !! id = Some l -> off l <= b < off l + max_node_len g -> virt pbm ms b = in_file s b).
  { intros id l b El Hb. destruct (known_slot _ _ _ _ _ _ _ Hi Hpost El) as (Hokl & _ & HP). eapply (virt_known s); [done | done | by left | done | done]. }
  destruct (phase_stores st1 t nhood wl tl point (in_file s) pbm (loaded_images _ _ _ _ Hl) ms Hlen (rd_locs _ _ _ _ _ Hrd)) with (shadow := false)
    as (ms1 & ms' & E1 & E2 & Hver & Hkeep & _ & Hfile).
  { intros l Hin. split; [by destruct (rd_reserved _ _ _ _ _ Hrd l Hin)|]. destruct (Himg l Hin) as [b ->]. by eexists. }
  { by apply (target_good range g Hfit list_bound _ t point nhood Hw Ha). }
  { by eapply old_versions. }
  specialize (Hfile eq_refl Himg).
  destruct (block_file s t point nhood hints wl tl need a cc_ann _ N reads pbm update_buf ms' Hpre Hlen Hpost Hl Hk Hvk Him Hver Hkeep Hfile) as [Hver' Hkeep'].
  destruct (publish_spec g Hg st1 t nhood (wl ++ [tl]) Hrd) as (st' & old & Ep & Hi' & _ & Hsw & _).
  set (f' := write_all _ _ _) in *.
  exists {| in_map := with_queue (id2loc_pm_queue (in_map s)) st'; in_file := f'; in_tags := <[t := tag]> (in_tags s) |}. split; [|split].
  - unfold insert_phase. cbv zeta. rewrite E. cbn [mbind outcome_bind]. fold st1. rewrite (buf_fits_block nhood wl tl Hlen He), Eo. cbn [mbind outcome_bind]. rewrite Er. fold ms.
    rewrite last_loc, E1, zip_locs by done. cbn [mbind outcome_bind]. rewrite E2. cbn [mbind outcome_bind].
    rewrite publish_block_eq, Ep. cbn [mbind outcome_bind]. by rewrite insert_or_assign_eq.
  - destruct (graph_after st1 st' t nhood wl tl old (in_file s) f' point Hw Ha Hlen Hsw Hver' Hkeep') as [Hspec Hwf].
    split; [exact Hspec|]. split; [exact Hwf|]. split; [by apply index_inv_queue | done].
  - exists st'. split; [|done]. by exists (wl ++ [tl]), need, a.
Qed.
End phases.

(** ** Properties *)
Section properties.
Context {F : Type} `{!FloatOps F} (alpha : F) (range maxc : nat) (dpq : Z -> Z -> F) (fuel afuel : nat) (mode : pruning).
Context (g : geometry).
Abbreviation spec := (insert_spec alpha range maxc dpq fuel afuel mode).

(** C5. The persistent-memory insert phase refines the abstract insertion.  On a
    consistent index whose graph is well-formed, inserting a fresh identifier
    with a list of known neighbours shorter than [MAX_N_EDGES] ends without a
    crash, provided that the lists of [range] neighbours fit a node, that
    32-bit locations are left ([insert_pre]) and that the compiled-in pruning
    rule cannot fail ([mode_ok]: its loop over alpha ends and, for batch
    pruning, [range / 16] is positive and divides [range + 1], which the usual
    ranges 32, 64, 96 and 128 do not satisfy).  The graph of the new state is
    the one [insert_spec] gives: the new vector with its list, the target
    added to the list of every neighbour by the pruning rule, every other node
    as before.  The maps stay in agreement, the graph stays well-formed and
    the tag is recorded, whatever [update_buf] held. *)
Theorem insert_phase_pm_refines ann_large s t point tag nhood hints update_buf :
  geometry_wf g -> mode_ok alpha range fuel afuel mode -> offset_to_node_nhood g + 4 + 4 * Z.of_nat range <= max_node_len g ->
  insert_pre range g s t point nhood hints ->
  exists s', insert_phase_pm alpha range maxc dpq fuel afuel mode g ann_large update_buf point tag t nhood hints s = Ok s' /\
    spec t point nhood (graph_of g (in_map s) (in_file s)) = Ok (graph_of g (in_map s') (in_file s')) /\
    graph_wf range g (graph_of g (in_map s') (in_file s')) /\ index_inv g (in_map s') /\
    in_tags s' = <[t := tag]> (in_tags s).
Proof.
  intros Hg Hm Hf Hp. destruct (insert_phase_pm_ok alpha range maxc dpq fuel afuel mode g Hg Hm Hf ann_large s t point tag nhood hints update_buf Hp)
    as (s' & E & Hi & _). by exists s'.
Qed.

(** C6. The block path and the persistent-memory path agree: from the same state
    and for any contents of their buffers, with or without the final request
    of the coalescing loop under [CC_ANN], both succeed, with the same
    locations, the same allocator state, the same graph and the same tags;
    only the queue for the persistent location table differs.  The conditions
    are those of [insert_phase_pm_refines]: a new list shorter than
    [MAX_N_EDGES], free 32-bit locations, and a pruning rule that cannot fail
    (for batch pruning [range / 16] positive and a divisor of [range + 1]). *)
Theorem insert_paths_agree ann_large cc_ann s t point tag nhood hints buf1 buf2 :
  geometry_wf g -> mode_ok alpha range fuel afuel mode -> offset_to_node_nhood g + 4 + 4 * Z.of_nat range <= max_node_len g ->
  insert_pre range g s t point nhood hints ->
  exists s1 s2,
    insert_phase alpha range maxc dpq fuel afuel mode g ann_large cc_ann buf1 point tag t nhood hints s = Ok s1 /\
    insert_phase_pm alpha range maxc dpq fuel afuel mode g ann_large buf2 point tag t nhood hints s = Ok s2 /\
    id2loc_ (in_map s1) = id2loc_ (in_map s2) /\ alloc_ (in_map s1) = alloc_ (in_map s2) /\
    id2loc_pm_queue (in_map s1) = id2loc_pm_queue (in_map s) /\
    graph_of g (in_map s1) (in_file s1) = graph_of g (in_map s2) (in_file s2) /\ in_tags s1 = in_tags s2.
Proof.
  intros Hg Hm Hf Hp.
  destruct (insert_phase_ok alpha range maxc dpq fuel afuel mode g Hg Hm Hf ann_large cc_ann s t point tag nhood hints buf1 Hp)
    as (s1 & E1 & (Hs1 & _ & _ & Ht1) & st' & (locs & need & a & Ea & Ep) & Hst).
  destruct (insert_phase_pm_ok alpha range maxc dpq fuel afuel mode g Hg Hm Hf ann_large s t point tag nhood hints buf2 Hp)
    as (s2 & E2 & (Hs2 & _ & _ & Ht2) & (locs' & need' & a' & Ea' & Ep')).
  assert (in_map s2 = st') as E. { rewrite Ea in Ea'. injection Ea' as <- <- <-. congruence. }
  exists s1, s2. rewrite Hst, E. split_and!; try done; [|congruence]. rewrite Hst, E in *. congruence.
Qed.

(** What the abstract insertion does to a well-formed graph: it always
    succeeds; the result is well-formed and has exactly the new identifier in
    addition; no stored vector changes; lists of nodes outside the new list
    are unchanged; the list of a neighbour gains nothing but the target, and
    does gain it when it is not full. *)
Theorem insert_spec_effect t point nhood gr :
  mode_ok alpha range fuel afuel mode -> offset_to_node_nhood g + 4 + 4 * Z.of_nat range <= max_node_len g ->
  Z.of_nat range < 2 ^ 32 -> graph_wf range g gr -> insertable range g gr t point nhood ->
  exists gr', spec t point nhood gr = Ok gr' /\ graph_wf range g gr' /\
    gr' !! t = Some {| coords := point; nbrs := nhood |} /\
    (forall j, is_Some (gr' !! j) <-> is_Some (gr !! j) \/ j = t) /\
    (forall j nd, gr !! j = Some nd -> exists nd', gr' !! j = Some nd' /\ coords nd' = coords nd /\
       (j ∉ nhood -> nd' = nd) /\ nbrs nd' ⊆ nbrs nd ++ [t] /\
       (j ∈ nhood -> (length (nbrs nd) < range)%nat -> t ∈ nbrs nd' /\ nbrs nd ⊆ nbrs nd')).
Proof.
  intros Hm Hf Hr Hw Hi.
  destruct (insert_spec_ok alpha range maxc dpq fuel afuel mode g Hm Hf Hr gr t point nhood Hw Hi) as (gr' & E & Hw' & Ht & Hin & Hout).
  assert (Hupd : forall j nd, gr !! j = Some nd -> exists nd', gr' !! j = Some nd' /\ coords nd' = coords nd /\
       (j ∉ nhood -> nd' = nd) /\ nbrs nd' ⊆ nbrs nd ++ [t] /\
       (j ∈ nhood -> (length (nbrs nd) < range)%nat -> t ∈ nbrs nd' /\ nbrs nd ⊆ nbrs nd')).
  { intros j nd Ej. assert (j <> t) by (intros ->; rewrite (ins_fresh _ _ _ _ _ _ Hi) in Ej; done).
    destruct (decide (j ∈ nhood)) as [Hj|Hj].
    - destruct (insertable_rule alpha range maxc dpq fuel afuel mode g Hm Hf Hr gr t point nhood j Hw Hi Hj)
        as (nd' & r & Ej' & _ & Er & _ & Hsub & Hfull). rewrite Ej in Ej'. injection Ej' as <-.
      exists {| coords := coords nd; nbrs := r |}. split_and!; [by apply Hin | done | done | done |].
      intros _ Hl. rewrite (Hfull Hl). simpl. split; [apply elem_of_app; right; by left | intros x Hx; apply elem_of_app; by left].
    - exists nd. rewrite Hout by done. split_and!; try done. intros x Hx. apply elem_of_app. by left. }
  exists gr'. split_and!; [done | done | done | | done]. intros j. split.
  - intros Hj. destruct (decide (j = t)) as [->|Hne]; [by right|]. left. destruct (decide (j ∈ nhood)) as [Hin'|Hn].
    + by apply (ins_known _ _ _ _ _ _ Hi).
    + by rewrite Hout in Hj by done.
  - intros [[nd Ej]| ->]; [|by rewrite Ht; eexists]. destruct (Hupd j nd Ej) as (nd' & -> & _). by eexists.
Qed.
End properties.

(** *** A small index: three points with coordinates of one byte, lists of at
    most two neighbours. *)
Definition ins_geom : geometry := {| max_node_len := 256; nnodes_per_sector := 16; data_dim := 1; sizeof_T := 1 |}.
Lemma ins_geom_wf : geometry_wf ins_geom.
Proof. by split; vm_compute. Qed.

Definition ins_nodes : list node :=
  [{| coords := [10]; nbrs := [1; 2] |}; {| coords := [20]; nbrs := [0] |}; {| coords := [30]; nbrs := [0; 1] |}].
Definition ins_file (a : Z) : Z :=
  match ins_nodes !! Z.to_nat ((a - SECTOR_LEN) / 256) with
  | Some nd => node_bytes nd !!! Z.to_nat ((a - SECTOR_LEN) mod 256)
  | None => 0
  end.
Definition ins_state : insert_state :=
  {| in_map := load_page_layout ins_geom 3 empty_map_state; in_file := ins_file; in_tags := ∅ |}.

Lemma ins_graph : graph_of ins_geom (in_map ins_state) ins_file = list_to_map (zip [0; 1; 2] ins_nodes).
Proof.
  apply map_eq. intros id. rewrite graph_of_lookup. unfold in_map, ins_state.
  rewrite (loaded_ids ins_geom ins_geom_wf 3) by (simpl; lia). case_decide as H.
  - assert (id = 0 \/ id = 1 \/ id = 2) as [->|[->| ->]] by lia; by vm_compute.
  - symmetry. apply not_elem_of_list_to_map. simpl. rewrite !not_elem_of_cons. split_and!; [lia | lia | lia |]. apply not_elem_of_nil.
Qed.

Lemma ins_graph_wf : graph_wf 2 ins_geom (graph_of ins_geom (in_map ins_state) (in_file ins_state)).
Proof.
  change (in_file ins_state) with ins_file. rewrite ins_graph. intros id nd Hnd. apply elem_of_list_to_map_2 in Hnd. simpl in Hnd.
  rewrite !elem_of_cons, elem_of_nil in Hnd. unfold kAllocatedID.
  assert (Hids : forall j, j ∈ [0; 1; 2] -> is_Some ((list_to_map (zip [0; 1; 2] ins_nodes) : gmap Z node) !! j)).
  { intros j. rewrite !elem_of_cons, elem_of_nil. intros [->|[->|[->|[]]]]; by eexists. }
  destruct_or!; try done; injection Hnd as -> ->; (split; [lia|]); (split; [split|]);
    try (split_and!; [done | by vm_compute | done | simpl; repeat constructor; lia]);
    try (split; [by apply (bool_decide_unpack _); vm_compute | simpl; lia]);
    (intros j Hj; apply Hids; simpl in Hj; rewrite !elem_of_cons, elem_of_nil in *; naive_solver).
Qed.

Lemma ins_pre : insert_pre 2 ins_geom ins_state 3 [40] [0; 2] [1].
Proof.
  split.
  - apply loaded_inv; [apply ins_geom_wf | simpl; lia].
  - apply ins_graph_wf.
  - change (in_file ins_state) with ins_file. rewrite ins_graph. split; [done | unfold kAllocatedID; lia | | | simpl; lia | done].
    + by apply (bool_decide_unpack _); vm_compute.
    + intros j. rewrite !elem_of_cons, elem_of_nil. intros [->|[->|[]]]; by eexists.
  - repeat constructor; lia.
  - by vm_compute.
  - by vm_compute.
Qed.

Lemma ins_mode_ok : mode_ok F32_1_2f 2 0 5 DELTA_PRUNING.
Proof. exists 3%nat. split; [exact fast_end_1_2 | lia]. Qed.

Abbreviation ins_dpq := (fun _ _ : Z => lit 1 0).

Lemma insert_phase_pm_witness : exists s',
  insert_phase_pm F32_1_2f 2 3 ins_dpq 0 5 DELTA_PRUNING ins_geom false (fun _ => 77) [40] 9 3 [0; 2] [1] ins_state = Ok s' /\
  insert_spec F32_1_2f 2 3 ins_dpq 0 5 DELTA_PRUNING 3 [40] [0; 2] (graph_of ins_geom (in_map ins_state) (in_file ins_state)) =
    Ok (graph_of ins_geom (in_map s') (in_file s')) /\
  graph_wf 2 ins_geom (graph_of ins_geom (in_map s') (in_file s')) /\ index_inv ins_geom (in_map s') /\
  in_tags s' = <[3 := 9]> (in_tags ins_state).
Proof.
  apply (insert_phase_pm_refines F32_1_2f 2 3 ins_dpq 0 5 DELTA_PRUNING ins_geom false ins_state 3 [40] 9 [0; 2] [1] (fun _ => 77)).
  - apply ins_geom_wf.
  - apply ins_mode_ok.
  - by vm_compute.
  - apply ins_pre.
Defined.

Lemma insert_paths_witness : exists s1 s2,
  insert_phase F32_1_2f 2 3 ins_dpq 0 5 DELTA_PRUNING ins_geom false true (fun _ => 77) [40] 9 3 [0; 2] [1] ins_state = Ok s1 /\
  insert_phase_pm F32_1_2f 2 3 ins_dpq 0 5 DELTA_PRUNING ins_geom false (fun _ => 0) [40] 9 3 [0; 2] [1] ins_state = Ok s2 /\
  id2loc_ (in_map s1) = id2loc_ (in_map s2) /\ alloc_ (in_map s1) = alloc_ (in_map s2) /\
  id2loc_pm_queue (in_map s1) = id2loc_pm_queue (in_map ins_state) /\
  graph_of ins_geom (in_map s1) (in_file s1) = graph_of ins_geom (in_map s2) (in_file s2) /\ in_tags s1 = in_tags s2.
Proof.
  apply (insert_paths_agree F32_1_2f 2 3 ins_dpq 0 5 DELTA_PRUNING ins_geom false true ins_state 3 [40] 9 [0; 2] [1]).
  - apply ins_geom_wf.
  - apply ins_mode_ok.
  - by vm_compute.
  - apply ins_pre.
Defined.

Lemma insert_spec_witness : exists gr',
  let gr := graph_of ins_geom (in_map ins_state) (in_file ins_state) in
  insert_spec F32_1_2f 2 3 ins_dpq 0 5 DELTA_PRUNING 3 [40] [0; 2] gr = Ok gr' /\ graph_wf 2 ins_geom gr' /\
    gr' !! 3 = Some {| coords := [40]; nbrs := [0; 2] |} /\
    (forall j, is_Some (gr' !! j) <-> is_Some (gr !! j) \/ j = 3) /\
    (forall j nd, gr !! j = Some nd -> exists nd', gr' !! j = Some nd' /\ coords nd' = coords nd /\
       (j ∉ [0; 2] -> nd' = nd) /\ nbrs nd' ⊆ nbrs nd ++ [3] /\
       (j ∈ [0; 2] -> (length (nbrs nd) < 2)%nat -> 3 ∈ nbrs nd' /\ nbrs nd ⊆ nbrs nd')).
Proof.
  apply (insert_spec_effect F32_1_2f 2 3 ins_dpq 0 5 DELTA_PRUNING ins_geom 3 [40] [0; 2]).
  - apply ins_mode_ok.
  - by vm_compute.
  - lia.
  - apply ins_graph_wf.
  - apply ins_pre.
Defined.
