(* ===== verification/BeamSearch.v ===== *)
(** * Beam search on the stored graph

    [do_beam_search] and [beam_search] of [src/search/beam_search.cpp].  The
    candidate pool [retset] is sorted by approximate distance; every round
    takes up to [beam_width] candidates that were not expanded, reads their
    nodes at their current locations, records their exact distances and puts
    their unvisited neighbours into the pool.

    The approximate and the exact distance of a query are functions of the
    identifier and of the coordinates; the entry points are those that the
    in-memory index or the medoid gives.

    The buffers of a query ([init_query_buf] of [include/ssd_index.h]) are
    fixed: a run that would leave one of them, or that reaches
    [assert(data_buf_idx < MAX_N_CMPS)], is a [Crash]. *)
From S2P Require Import Prelude Cuckoo Layout PageAlloc Mapping Node Neighbor CandidatePool.
Import Cuckoo.

(** [id2tag]: an identifier without an entry is its own tag. *)
Definition id2tag (tags : gmap Z Z) (id : Z) : Z :=
  match find id tags with Some ret => ret | None => id end.

(** ** The buffers of a query *)
Definition MAX_N_CMPS : Z := 16384.
Definition MAX_N_SECTOR_READS : nat := 512.
Definition MAX_N_COMPUTES : nat := 512.

(** The bytes of [sector_scratch] and the entries of [aligned_dist_scratch]. *)
Definition sector_scratch_size : Z := Z.of_nat MAX_N_SECTOR_READS * SECTOR_LEN.
Definition dist_scratch_size : Z := Z.of_nat MAX_N_COMPUTES * 512.

(** The vectors that [coord_scratch] may hold: the assertion allows
    [MAX_N_CMPS], the allocation counts bytes without the size of a
    coordinate. *)
Definition aligned_dim (g : geometry) : Z := ROUND_UP (data_dim g) 8.
Definition coord_alloc_size (g : geometry) : Z := ROUND_UP (MAX_N_CMPS * aligned_dim g) 256.
Definition coord_slots (g : geometry) : Z := Z.min MAX_N_CMPS (coord_alloc_size g / (aligned_dim g * sizeof_T g)).

Lemma ROUND_UP_pos X Y : 0 <= X -> 0 <= Y -> 0 <= ROUND_UP X Y.
Proof.
  intros HX HY. unfold ROUND_UP, DIV_ROUND_UP. case_match; [done|]. apply Z.mul_nonneg_nonneg; [|done].
  assert (0 <= X / Y) by (destruct (Z.eq_dec Y 0) as [->|]; [by rewrite Zdiv_0_r | apply Z.div_pos; lia]). case_match; lia.
Qed.

Lemma coord_slots_pos g : 0 <= data_dim g -> 0 <= sizeof_T g -> 0 <= coord_slots g.
Proof.
  intros Hd Hs. assert (0 <= aligned_dim g) as Ha by by apply ROUND_UP_pos. unfold coord_slots. apply Z.min_glb; [done|].
  assert (0 <= coord_alloc_size g) by (apply ROUND_UP_pos; [unfold MAX_N_CMPS; lia | done]).
  destruct (Z.eq_dec (aligned_dim g * sizeof_T g) 0) as [->|]; [by rewrite Zdiv_0_r | apply Z.div_pos; nia].
Qed.

Section search.
Context {D : Type} `{!DistOrd D}.
Context (g : geometry) (st : map_state) (m : Z -> Z) (cur_id : Z).
(** The number of vectors that fit [coord_scratch]. *)
Context (n_slots : Z).
Context (pq_dist : Z -> D) (exact_dist : list Z -> D).
Context (tags : gmap Z Z) (exclude_nodes : gset Z) (dyn_search_l : bool).
Context (original_l_search beam_width : nat) (deadline : nat -> bool).

Abbreviation search_state := (CandidatePool.search_state D).
Abbreviation candidate := (CandidatePool.candidate pq_dist).
Abbreviation init_search := (CandidatePool.init_search pq_dist original_l_search).
Abbreviation expand_neighbor := (CandidatePool.expand_neighbor cur_id pq_dist).

Definition read_node (i : Z) : outcome node :=
  loc ← id2loc st i;
  Ok (disk_node g m (u_loc_offset g loc)).

(** The candidate list grows with the entries that are excluded from the
    result ([dyn_search_l]). *)
Fixpoint dyn_scan (l : list (Neighbor D)) (cur tot : nat) : nat :=
  match l with
  | [] => cur
  | x :: l =>
      let tot := if decide (id2tag tags (id x) ∈ exclude_nodes) then tot else S tot in
      if negb (bool_decide (id2tag tags (id x) ∈ exclude_nodes)) && bool_decide (tot = original_l_search)
      then cur else dyn_scan l (S cur) tot
  end.

Definition dyn_update (s : search_state) : search_state :=
  if dyn_search_l then
    {| retset := retset s; visited_ids := visited_ids s; full_retset := full_retset s;
       l_search := Nat.max original_l_search (dyn_scan (retset s) 0 0 + 1) |}
  else s.

(** One expanded node; [data_buf_idx] is the number of nodes expanded so far. *)
Definition expand_node (i : Z) (sk : search_state * nat) : outcome (search_state * nat) :=
  let '(s, nk) := sk in
  n ← read_node i;
  if Z.of_nat (length (full_retset s)) <? n_slots then
    let nb := {| id := i; distance := exact_dist (coords n); flag := true; visited := false |} in
    if dist_scratch_size <? Z.of_nat (length (nbrs n)) then Crash
    else
      '(s, nk) ← foldM expand_neighbor (nbrs n)
        ({| retset := retset s; visited_ids := visited_ids s; full_retset := full_retset s ++ [nb];
            l_search := l_search s |}, nk);
      Ok (dyn_update s, nk)
  else Crash.

(** One round of the search. *)
Definition search_round (k : nat) (s : search_state) : outcome (search_state * nat) :=
  let '(frontier, tail) := select_frontier beam_width (drop k (retset s)) in
  let s1 := {| retset := take k (retset s) ++ tail; visited_ids := visited_ids s;
               full_retset := full_retset s; l_search := l_search s |} in
  if sector_scratch_size <? Z.of_nat (length frontier) * size_per_io g then Crash
  else
    '(s2, nk) ← foldM expand_node frontier (s1, length (retset s));
    Ok (s2, if bool_decide (nk <= k)%nat then nk else S k).

Fixpoint search_loop (fuel hops k : nat) (s : search_state) : outcome search_state :=
  match fuel with
  | O => Crash
  | S fuel =>
      if bool_decide (k < length (retset s))%nat then
        '(s, k) ← search_round k s;
        if deadline hops then Ok s else search_loop fuel (S hops) k s
      else Ok s
  end.

(** The array of the pool has [mem_L + 10 * l_search] entries, and grows with
    the pool once the entry points, [min mem_L l_search] of them or one, are
    in it. *)
Definition search_run (fuel : nat) (entries : list Z) : outcome search_state :=
  if bool_decide (length entries <= 10 * original_l_search)%nat
  then search_loop fuel 0 0 (init_search entries) else Crash.

(** The result: the expanded nodes by exact distance. *)
Definition do_beam_search (fuel : nat) (entries : list Z) : outcome (list (Neighbor D)) :=
  s ← search_run fuel entries;
  Ok (std_sort_nb (full_retset s)).

Definition beam_search (fuel k_search : nat) (entries : list Z) : outcome (list (Z * D)) :=
  expanded ← do_beam_search fuel entries;
  Ok ((fun x => (id2tag tags (id x), distance x)) <$>
      take (Nat.min original_l_search k_search) expanded).

(** ** The invariant of the search *)

(** The graph: known identifiers are in range and lead to known identifiers. *)
Definition known (i : Z) : Prop := is_Some (id2loc_ st !! i).
Record graph_ok : Prop := {
  go_range : forall i, known i -> i <= cur_id;
  go_nbrs : forall i n, read_node i = Ok n -> forall j, j ∈ nbrs n -> known j;
}.

(** The lists of the nodes are not longer than [d]. *)
Definition degrees_le (d : Z) : Prop := forall i n, read_node i = Ok n -> Z.of_nat (length (nbrs n)) <= d.

Definition n_known : nat := size (dom (id2loc_ st)).

(** A search that stays inside its buffers whatever it expands. *)
Record search_fits : Prop := {
  sf_graph : graph_ok;
  sf_degree : degrees_le dist_scratch_size;
  sf_width : Z.of_nat beam_width * size_per_io g <= sector_scratch_size;
  sf_slots : Z.of_nat n_known <= n_slots;
}.

Definition is_exact (x : Neighbor D) : Prop :=
  exists n, read_node (id x) = Ok n /\ distance x = exact_dist (coords n).

Abbreviation search_inv := (CandidatePool.search_inv known is_exact).
Abbreviation pool_top := (CandidatePool.pool_top pq_dist original_l_search).
Abbreviation expand_neighbors_spec := (CandidatePool.expand_neighbors_spec cur_id pq_dist known is_exact).
Abbreviation pool_top_neighbors := (CandidatePool.pool_top_neighbors cur_id pq_dist original_l_search known is_exact).
Abbreviation search_inv_expand := (CandidatePool.search_inv_expand known is_exact).
Abbreviation search_inv_select := (CandidatePool.search_inv_select known is_exact beam_width).

Lemma search_inv_dyn pend s : search_inv pend s -> search_inv pend (dyn_update s).
Proof. unfold dyn_update. by destruct dyn_search_l; [intros []|]. Qed.

Lemma known_dom i : known i -> i ∈ dom (id2loc_ st).
Proof. intros H. by apply elem_of_dom. Qed.

(** Every known identifier is expanded at most once. *)
Lemma expanded_count pend s : search_inv pend s -> (length (full_retset s) + length pend <= n_known)%nat.
Proof.
  intros Hs. rewrite <- (length_fmap id (full_retset s)), <- length_app.
  rewrite <- (size_list_to_set (C := gset Z)) by apply (sv_once _ _ Hs).
  apply subseteq_size. intros i Hi. apply elem_of_list_to_set in Hi.
  by apply known_dom, (sv_known _ _ Hs), (sv_done _ _ Hs).
Qed.

Lemma expand_node_spec pend s nk i :
  search_fits -> search_inv (i :: pend) s ->
  exists s' nk', expand_node i (s, nk) = Ok (s', nk') /\ search_inv pend s' /\ search_step s nk s' nk'.
Proof.
  intros [Hg Hdeg _ Hsl] Hs. unfold expand_node.
  assert (known i) as Hk by (apply (sv_known _ _ Hs), (sv_done _ _ Hs); set_solver).
  destruct (read_node i) as [n|] eqn:En.
  2: { exfalso. unfold read_node, id2loc, find, find_fn in En. destruct Hk as [loc Hloc].
       by rewrite Hloc in En. }
  cbn [mbind outcome_bind]. pose proof (expanded_count _ _ Hs) as Hn. cbn [length] in Hn.
  destruct (Z.ltb_spec (Z.of_nat (length (full_retset s))) n_slots) as [_|?]; [|lia].
  pose proof (Hdeg i n En). destruct (Z.ltb_spec dist_scratch_size (Z.of_nat (length (nbrs n)))) as [?|_]; [lia|].
  set (x := {| id := i; distance := exact_dist (coords n); flag := true; visited := false |}).
  assert (is_exact x) as Hex by (by exists n).
  destruct (expand_neighbors_spec pend (nbrs n) _ nk (search_inv_expand pend s i x Hs eq_refl Hex))
    as (s' & nk' & -> & H1 & [S1 S2 S3 S4] & F1).
  { intros j Hj. assert (known j) as Hkj by (by eapply go_nbrs). split; [done | by apply go_range]. }
  cbn [mbind outcome_bind]. exists (dyn_update s'), nk'. split; [done|]. split; [by apply search_inv_dyn|].
  assert (retset (dyn_update s') = retset s' /\ visited_ids (dyn_update s') = visited_ids s') as [Er Ev]
    by (unfold dyn_update; by destruct dyn_search_l).
  constructor; rewrite ?Er, ?Ev; done.
Qed.

Lemma expand_nodes_spec : forall l s nk,
  search_fits -> search_inv l s ->
  exists s' nk', foldM expand_node l (s, nk) = Ok (s', nk') /\ search_inv [] s' /\ search_step s nk s' nk'.
Proof.
  induction l as [|i l IH]; intros s nk Hg Hs; cbn [foldM].
  - exists s, nk. split_and!; auto using search_step_refl.
  - destruct (expand_node_spec l s nk i Hg Hs) as (s1 & n1 & -> & H1 & St1). cbn [mbind outcome_bind].
    destruct (IH s1 n1 Hg H1) as (s2 & n2 & -> & H2 & St2). exists s2, n2.
    split_and!; [done | done | by eapply search_step_trans].
Qed.

(** A frontier never outgrows the sectors of its reads. *)
Lemma frontier_fits (l : list (Neighbor D)) f tail : Z.of_nat beam_width * size_per_io g <= sector_scratch_size ->
  select_frontier beam_width l = (f, tail) -> (sector_scratch_size <? Z.of_nat (length f) * size_per_io g) = false.
Proof.
  intros Hw Hsel. destruct (select_length _ _ _ _ Hsel) as [_ Hl]. apply Z.ltb_ge.
  assert (0 <= size_per_io g) by apply u64_range. nia.
Qed.

Lemma search_round_spec k s :
  search_fits -> (0 < beam_width)%nat -> search_inv [] s -> expanded_below k s -> (k < length (retset s))%nat ->
  exists s' k', search_round k s = Ok (s', k') /\ search_inv [] s' /\ expanded_below k' s' /\
    visited_ids s ⊆ visited_ids s' /\
    (visited_ids s' = visited_ids s -> length (retset s') = length (retset s) /\ k' = S k).
Proof.
  intros Hg Hb Hs Hk Hlt. unfold search_round.
  destruct (select_frontier beam_width (drop k (retset s))) as [f tail] eqn:Hsel.
  pose proof (search_inv_select k s f tail Hs Hsel) as Hs1.
  rewrite (frontier_fits _ f tail (sf_width Hg) Hsel).
  destruct (expand_nodes_spec f _ (length (retset s)) Hg Hs1) as (s2 & nk & -> & H2 & [V S N P]).
  cbn [mbind outcome_bind]. simpl in *. eexists s2, _. split; [done|].
  assert (length tail = length (drop k (retset s))) as Hlen.
  { by apply (select_length _ _ _ _ Hsel). }
  assert (exists y l1, tail = y :: l1 /\ flag y = false) as (y & l1 & Etail & Hfy).
  { destruct (drop k (retset s)) as [|x l] eqn:Ed; [|by eapply select_head].
    apply (f_equal length) in Ed. rewrite length_drop in Ed. simpl in Ed. lia. }
  assert (forall x, x ∈ take (Datatypes.S k) (take k (retset s) ++ tail) -> flag x = false) as Hbelow.
  { intros x Hx. rewrite take_app, length_take in Hx. rewrite Nat.min_l in Hx by lia.
    rewrite take_take, Nat.min_r in Hx by lia. replace (Datatypes.S k - k)%nat with 1%nat in Hx by lia.
    subst tail. simpl in Hx. rewrite take_0 in Hx. apply elem_of_app in Hx as [Hx|Hx]; [by apply Hk|].
    by apply list_elem_of_singleton in Hx as ->. }
  split; [done|]. split_and!; [| done |].
  - intros x Hx. set (k' := if bool_decide (nk <= k)%nat then nk else Datatypes.S k) in Hx.
    assert (k' <= nk /\ k' <= Datatypes.S k)%nat as [Hk1 Hk2] by (subst k'; case_bool_decide; lia).
    apply (f_equal (take k')) in P. rewrite !take_take, !Nat.min_l in P by lia. rewrite P in Hx.
    apply Hbelow. replace k' with (k' `min` Datatypes.S k)%nat in Hx by lia. rewrite <- take_take in Hx.
    by eapply subseteq_take.
  - intros E. destruct (S E) as [-> ->]. rewrite bool_decide_eq_false_2 by lia.
    rewrite length_app, length_take, Hlen, length_drop. split; [lia | done].
Qed.

(** The measure: identifiers that were not visited, then the rest of the pool. *)
Definition search_measure (s : search_state) (k : nat) : nat := pool_measure n_known s k.
Definition search_fuel : nat := pool_fuel n_known.

Lemma search_loop_spec : forall fuel hops k s,
  search_fits -> (0 < beam_width)%nat -> search_inv [] s -> expanded_below k s ->
  (search_measure s k < fuel)%nat ->
  exists s', search_loop fuel hops k s = Ok s' /\ search_inv [] s' /\ visited_ids s ⊆ visited_ids s' /\
    ((forall h, deadline h = false) -> forall x, x ∈ retset s' -> flag x = false).
Proof.
  induction fuel as [|fuel IH]; intros hops k s Hg Hb Hs Hk Hm; [lia|]. cbn [search_loop].
  case_bool_decide as Hlt.
  - destruct (search_round_spec k s Hg Hb Hs Hk Hlt) as (s1 & k1 & -> & H1 & Hk1 & V1 & Hsame).
    cbn [mbind outcome_bind]. destruct (deadline hops) eqn:Ed.
    + exists s1. split_and!; try done. intros Hno. by rewrite Hno in Ed.
    + pose proof (measure_decreases known is_exact _ known_dom _ _ _ _ _ Hs H1 Hlt V1 Hsame). fold n_known in *. unfold search_measure in *.
      destruct (IH (S hops) k1 s1) as (s' & -> & ? & ? & ?); try done; [lia|].
      exists s'. split_and!; try done. set_solver.
  - exists s. split_and!; try done. intros _ x Hx. apply Hk. by rewrite take_ge by lia.
Qed.

(** Neighbours of expanded nodes were visited. *)
Definition expanded_closed (s : search_state) : Prop :=
  forall i n j, i ∈ id <$> full_retset s -> read_node i = Ok n -> j ∈ nbrs n -> j ∈ visited_ids s.

(** The properties of the pool that hold throughout a search with a fixed list size. *)
Lemma closest_node pend s nk i s' nk' :
  search_fits -> dyn_search_l = false -> search_inv (i :: pend) s -> pool_top s -> expanded_closed s ->
  expand_node i (s, nk) = Ok (s', nk') -> pool_top s' /\ expanded_closed s'.
Proof.
  intros [Hg _ _ _] Hdyn Hs Ht Hc H. unfold expand_node in H.
  destruct (read_node i) as [n|] eqn:En; [|done]. cbn [mbind outcome_bind] in H.
  destruct (_ <? n_slots); [|done]. destruct (dist_scratch_size <? _); [done|].
  set (x := {| id := i; distance := exact_dist (coords n); flag := true; visited := false |}) in H.
  set (s0 := {| retset := retset s; visited_ids := visited_ids s; full_retset := full_retset s ++ [x];
                l_search := l_search s |}) in H.
  assert (is_exact x) as Hex by (by exists n).
  pose proof (search_inv_expand pend s i x Hs eq_refl Hex) as H0. fold s0 in H0.
  assert (pool_top s0) as T0 by (destruct Ht; by constructor).
  assert (forall j, j ∈ nbrs n -> known j /\ j <= cur_id) as Hnb.
  { intros j Hj. assert (known j) as Hkj by (by eapply go_nbrs). split; [done | by apply go_range]. }
  destruct (expand_neighbors_spec pend (nbrs n) s0 nk H0 Hnb) as (s1 & n1 & E & H1 & _ & F1).
  destruct (pool_top_neighbors pend (nbrs n) s0 nk s1 n1 H0 T0 Hnb E) as (T1 & V1 & W1).
  rewrite E in H. cbn [mbind outcome_bind] in H. unfold dyn_update in H. rewrite Hdyn in H. simplify_eq.
  split; [done|]. intros j nj w. rewrite F1. simpl. rewrite fmap_app, elem_of_app, list_fmap_singleton, list_elem_of_singleton.
  intros [Hj| ->] Hn Hw; [|simpl in Hn; rewrite En in Hn; simplify_eq; by apply W1].
  apply V1. by apply (Hc j nj w).
Qed.

Lemma closest_nodes : forall l s nk s' nk',
  search_fits -> dyn_search_l = false -> search_inv l s -> pool_top s -> expanded_closed s ->
  foldM expand_node l (s, nk) = Ok (s', nk') -> pool_top s' /\ expanded_closed s'.
Proof.
  induction l as [|i l IH]; intros s nk s' nk' Hg Hdyn Hs Ht Hc H; cbn [foldM] in H.
  - by simplify_eq.
  - destruct (expand_node_spec l s nk i Hg Hs) as (s1 & n1 & E & H1 & _).
    destruct (closest_node l s nk i s1 n1 Hg Hdyn Hs Ht Hc E) as [T1 C1].
    rewrite E in H. by eapply (IH s1 n1).
Qed.

Lemma closest_select k s f tail :
  search_inv [] s -> select_frontier beam_width (drop k (retset s)) = (f, tail) ->
  pool_top s -> expanded_closed s ->
  let s1 := {| retset := take k (retset s) ++ tail; visited_ids := visited_ids s;
               full_retset := full_retset s; l_search := l_search s |} in
  pool_top s1 /\ expanded_closed s1.
Proof.
  intros Hs Hsel [P1 P2 P3 P4] Hc s1. split; [|done].
  pose proof (sv_nodup _ _ Hs) as Hnd. rewrite <- (take_drop k (retset s)), fmap_app in Hnd.
  apply NoDup_app in Hnd as (_ & _ & Hnd).
  destruct (select_frontier_spec _ _ _ _ Hsel Hnd) as (Htail & _).
  assert (Forall2 same_place (retset s) (retset s1)) as Hsame.
  { rewrite <- (take_drop k (retset s)) at 1. apply Forall2_app; [|done]. apply Forall_Forall2_diag, Forall_true. done. }
  pose proof (Forall2_length _ _ _ Hsame) as Hlen.
  assert (forall x, x ∈ retset s1 -> exists y, y ∈ retset s /\ same_place y x) as Hin.
  { intros x Hx. apply (Forall2_elem_r _ _ _ _ Hsame Hx). }
  constructor; [done | lia | |].
  - intros x (y & Hy & [-> ->])%Hin. by apply P3.
  - intros j Hj. rewrite (same_place_ids _ _ Hsame), <- Hlen. destruct (P4 j Hj) as [?|[? Hf]]; [by left | right].
    split; [done|]. intros x (y & Hy & [_ ->])%Hin. by apply Hf.
Qed.

Lemma closest_loop : forall fuel hops k s s',
  search_fits -> (0 < beam_width)%nat -> dyn_search_l = false -> search_inv [] s -> expanded_below k s ->
  pool_top s -> expanded_closed s -> search_loop fuel hops k s = Ok s' -> pool_top s' /\ expanded_closed s'.
Proof.
  induction fuel as [|fuel IH]; intros hops k s s' Hg Hb Hdyn Hs Hk Ht Hc H; [done|]. cbn [search_loop] in H.
  case_bool_decide as Hlt; [|by simplify_eq].
  destruct (search_round_spec k s Hg Hb Hs Hk Hlt) as (s1 & k1 & E & H1 & Hk1 & _ & _).
  rewrite E in H. cbn [mbind outcome_bind] in H.
  assert (pool_top s1 /\ expanded_closed s1) as [T1 C1].
  { unfold search_round in E. destruct (select_frontier beam_width (drop k (retset s))) as [f tail] eqn:Hsel.
    pose proof (search_inv_select k s f tail Hs Hsel) as Hs0.
    destruct (closest_select k s f tail Hs Hsel Ht Hc) as [T0 C0].
    destruct (sector_scratch_size <? _); [done|].
    destruct (foldM expand_node f _) as [[s2 nk]|] eqn:Ef; [|done]. cbn [mbind outcome_bind] in E. simplify_eq.
    by apply (closest_nodes f _ _ _ _ Hg Hdyn Hs0 T0 C0 Ef). }
  destruct (deadline hops); [by simplify_eq|]. by apply (IH _ _ _ _ Hg Hb Hdyn H1 Hk1 T1 C1 H).
Qed.

(** ** The whole search *)

Lemma search_result entries fuel :
  search_fits -> (0 < beam_width)%nat -> entries <> [] -> NoDup entries -> (forall i, i ∈ entries -> known i) ->
  (search_fuel <= fuel)%nat ->
  exists s, search_loop fuel 0 0 (init_search entries) = Ok s /\ search_inv [] s /\
    ((forall h, deadline h = false) -> forall x, x ∈ retset s -> flag x = false).
Proof.
  intros Hg Hb Hne Hnd Hk Hf. pose proof (init_search_inv pq_dist original_l_search known is_exact entries Hne Hnd Hk) as H0.
  pose proof (start_measure pq_dist original_l_search known is_exact _ entries known_dom H0). fold n_known in *. unfold search_fuel in *.
  destruct (search_loop_spec fuel 0 0 (init_search entries) Hg Hb H0) as (s & ? & ? & _ & ?); [|unfold search_measure; lia|by exists s].
  intros x. rewrite take_0. by intros ?%elem_of_nil.
Qed.

(** An executable form of [graph_ok]. *)
Definition graph_check : bool :=
  forallb (fun '(i, _) => (i <=? cur_id) &&
    match read_node i with
    | Ok n => forallb (fun j => bool_decide (is_Some (id2loc_ st !! j))) (nbrs n)
    | Crash => true
    end) (map_to_list (id2loc_ st)).

Definition degree_check (d : Z) : bool :=
  forallb (fun '(i, _) => match read_node i with Ok n => Z.of_nat (length (nbrs n)) <=? d | Crash => true end)
    (map_to_list (id2loc_ st)).

Lemma read_known i n : read_node i = Ok n -> known i.
Proof. unfold read_node, id2loc, find, find_fn, known. destruct (id2loc_ st !! i); [eauto | done]. Qed.

Lemma degree_check_ok d : degree_check d = true -> degrees_le d.
Proof.
  unfold degree_check. rewrite forallb_forall. intros H i n En. destruct (read_known i n En) as [l Hl].
  specialize (H (i, l)). rewrite <- list_elem_of_In, elem_of_map_to_list, En in H. by apply Z.leb_le, H.
Qed.

Lemma graph_check_ok : graph_check = true -> graph_ok.
Proof.
  intros H. unfold graph_check in H. rewrite forallb_forall in H.
  assert (forall i, known i -> (i <=? cur_id) = true /\
    match read_node i with
    | Ok n => forallb (fun j => bool_decide (is_Some (id2loc_ st !! j))) (nbrs n) = true | Crash => True end) as Hi.
  { intros i [l Hl]. specialize (H (i, l)). rewrite <- list_elem_of_In, elem_of_map_to_list in H.
    specialize (H Hl). simpl in H. apply andb_true_iff in H as [H1 H2]. split; [done|]. by destruct (read_node i). }
  constructor.
  - intros i Hk. destruct (Hi i Hk). by apply Z.leb_le.
  - intros i n En j Hj. pose proof (read_known i n En) as Hk.
    destruct (Hi i Hk) as [_ H2]. rewrite En in H2. rewrite forallb_forall in H2.
    apply list_elem_of_In in Hj. apply (bool_decide_eq_true_1 _ (H2 j Hj)).
Qed.
End search.

(** ** The buffer of coordinates

    The search with a buffer that is large enough decides the search with any
    buffer: it is the same run, cut by the assertion when it has expanded one
    node more than there are slots. *)
Section slots.
Context {D : Type} `{!DistOrd D}.
Context (g : geometry) (st : map_state) (m : Z -> Z) (cur_id : Z) (N n_slots : Z).
Context (pq_dist : Z -> D) (exact_dist : list Z -> D) (tags : gmap Z Z) (exclude : gset Z) (dyn : bool).
Context (L bw : nat) (deadline : nat -> bool).
Abbreviation state := (search_state D).
Abbreviation expand c := (expand_node g st m cur_id c pq_dist exact_dist tags exclude dyn L).
Abbreviation round c := (search_round g st m cur_id c pq_dist exact_dist tags exclude dyn L bw).
Abbreviation loop c := (search_loop g st m cur_id c pq_dist exact_dist tags exclude dyn L bw deadline).

Definition n_expanded (s : state) : Z := Z.of_nat (length (full_retset s)).
Definition cut {A} (s : state) (r : A) : outcome A := if n_expanded s <=? n_slots then Ok r else Crash.

Lemma cut_later {A} (s s' : state) (r : A) : n_expanded s <= n_expanded s' -> n_slots < n_expanded s -> cut s' r = Crash.
Proof. intros H1 H2. unfold cut. destruct (Z.leb_spec (n_expanded s') n_slots); [lia | done]. Qed.

Lemma neighbor_expanded i (sk sk' : state * nat) :
  expand_neighbor cur_id pq_dist i sk = Ok sk' -> full_retset sk'.1 = full_retset sk.1.
Proof.
  destruct sk as [s nk]. unfold expand_neighbor, push_neighbor. intros H. destruct (cur_id <? i); [done|].
  case_decide; [by simplify_eq|]. destruct (pool_push _ _ _ _) as [[r n]|]; [|done]. by simplify_eq/=.
Qed.

Lemma neighbors_expanded : forall l (sk sk' : state * nat),
  foldM (expand_neighbor cur_id pq_dist) l sk = Ok sk' -> full_retset sk'.1 = full_retset sk.1.
Proof.
  induction l as [|i l IH]; intros sk sk' H; cbn [foldM] in H; [by simplify_eq|].
  destruct (expand_neighbor _ _ i sk) as [sk1|] eqn:E; [|done]. rewrite (IH sk1 sk' H).
  by apply (neighbor_expanded i).
Qed.

Lemma expand_cut i s nk s' nk' : expand N i (s, nk) = Ok (s', nk') ->
  n_expanded s' = n_expanded s + 1 /\ expand n_slots i (s, nk) = cut s' (s', nk').
Proof.
  intros H. unfold expand_node in *. destruct (read_node g st m i) as [n|]; [|done]. cbn [mbind outcome_bind] in *.
  destruct (_ <? N); [|done]. destruct (dist_scratch_size <? _); [done|].
  destruct (foldM _ (nbrs n) _) as [[s1 n1]|] eqn:E; [|done]. cbn [mbind outcome_bind] in *. simplify_eq.
  apply neighbors_expanded in E. simpl in E.
  assert (n_expanded (dyn_update tags exclude dyn L s1) = n_expanded s + 1) as Hn.
  { unfold n_expanded, dyn_update. destruct dyn; simpl; rewrite E, length_app; simpl; lia. }
  split; [done|]. unfold cut. rewrite Hn. fold (n_expanded s).
  destruct (Z.ltb_spec (n_expanded s) n_slots), (Z.leb_spec (n_expanded s + 1) n_slots); (lia || done).
Qed.

Lemma expands_cut : forall f s nk s' nk', foldM (expand N) f (s, nk) = Ok (s', nk') ->
  n_expanded s <= n_expanded s' /\ (n_expanded s <= n_slots -> foldM (expand n_slots) f (s, nk) = cut s' (s', nk')).
Proof.
  induction f as [|i f IH]; intros s nk s' nk' H; cbn [foldM] in *.
  - simplify_eq. split; [lia|]. intros Hs. unfold cut. destruct (Z.leb_spec (n_expanded s') n_slots); [done | lia].
  - destruct (expand N i (s, nk)) as [[s1 n1]|] eqn:E; [|done]. cbn [mbind outcome_bind] in H.
    destruct (expand_cut i s nk s1 n1 E) as [Hn Hc]. destruct (IH s1 n1 s' nk' H) as [Hl Hr].
    split; [lia|]. intros _. rewrite Hc. unfold cut at 1. destruct (Z.leb_spec (n_expanded s1) n_slots); [by apply Hr|].
    symmetry. by apply (cut_later s1).
Qed.

Lemma round_cut k s s' k' : round N k s = Ok (s', k') ->
  n_expanded s <= n_expanded s' /\ (n_expanded s <= n_slots -> round n_slots k s = cut s' (s', k')).
Proof.
  intros H. unfold search_round in *. destruct (select_frontier bw (drop k (retset s))) as [f tail].
  destruct (sector_scratch_size <? _); [done|]. destruct (foldM _ f _) as [[s2 n2]|] eqn:E; [|done].
  cbn [mbind outcome_bind] in H. simplify_eq. destruct (expands_cut _ _ _ _ _ E) as [Hl Hc].
  split; [exact Hl|]. intros Hs. rewrite (Hc Hs). unfold cut. by destruct (_ <=? n_slots).
Qed.

Lemma loop_cut : forall fuel hops k s s', loop N fuel hops k s = Ok s' ->
  n_expanded s <= n_expanded s' /\ (n_expanded s <= n_slots -> loop n_slots fuel hops k s = cut s' s').
Proof.
  induction fuel as [|fuel IH]; intros hops k s s' H; [done|]. cbn [search_loop] in *.
  assert (forall s1 : state, n_expanded s1 <= n_slots -> Ok s1 = cut s1 s1) as Hend.
  { intros s1 Hs. unfold cut. destruct (Z.leb_spec (n_expanded s1) n_slots); [done | lia]. }
  case_bool_decide; [|simplify_eq; split; [lia | apply Hend]].
  destruct (round N k s) as [[s1 k1]|] eqn:E; [|done]. cbn [mbind outcome_bind] in H.
  destruct (round_cut k s s1 k1 E) as [Hl Hc]. destruct (deadline hops).
  - simplify_eq. split; [done|]. intros Hs. rewrite (Hc Hs). unfold cut. by destruct (_ <=? n_slots).
  - destruct (IH _ _ _ _ H) as [Hl' Hc']. split; [lia|]. intros Hs. rewrite (Hc Hs). unfold cut at 1.
    destruct (Z.leb_spec (n_expanded s1) n_slots); [by apply Hc' | symmetry; by apply (cut_later s1)].
Qed.

Lemma run_cut fuel entries s : 0 <= n_slots ->
  search_run g st m cur_id N pq_dist exact_dist tags exclude dyn L bw deadline fuel entries = Ok s ->
  search_run g st m cur_id n_slots pq_dist exact_dist tags exclude dyn L bw deadline fuel entries = cut s s.
Proof.
  unfold search_run. intros Hs H. case_bool_decide; [|done]. apply loop_cut in H as [_ H]. apply H. done.
Qed.
End slots.

(** The run of a search, with the number of slots as the only limit: it ends in
    [s] when the slots are enough for the nodes that [s] has expanded, and at
    the assertion otherwise. *)
Definition ends_in {D} `{!DistOrd D} g st m cur_id (pq_dist : Z -> D) exact_dist tags exclude dyn L bw deadline fuel entries
    (s : search_state D) : Prop :=
  forall n_slots, 0 <= n_slots ->
    search_run g st m cur_id n_slots pq_dist exact_dist tags exclude dyn L bw deadline fuel entries =
      (if Z.of_nat (length (full_retset s)) <=? n_slots then Ok s else Crash).

Section whole.
Context {D : Type} `{!DistOrd D}.
Context (g : geometry) (st : map_state) (m : Z -> Z) (cur_id : Z).
Context (pq_dist : Z -> D) (exact_dist : list Z -> D) (tags : gmap Z Z) (exclude : gset Z) (dyn : bool).
Context (L bw : nat) (deadline : nat -> bool) (fuel : nat) (entries : list Z).
Context (Hg : graph_ok g st m cur_id) (Hdeg : degrees_le g st m dist_scratch_size).
Context (Hbw : (0 < bw)%nat) (Hwidth : Z.of_nat bw * size_per_io g <= sector_scratch_size).
Context (Hne : entries <> []) (Hnd : NoDup entries) (Hlen : (length entries <= L)%nat).
Context (Hknown : forall i, i ∈ entries -> known st i) (Hfuel : (search_fuel st <= fuel)%nat).

(** With a slot for every known identifier the search ends. *)
Lemma large_fits : search_fits g st m cur_id (Z.of_nat (n_known st)) bw.
Proof using Hg Hdeg Hwidth. by constructor. Qed.

Lemma search_ends_in : exists s,
  ends_in g st m cur_id pq_dist exact_dist tags exclude dyn L bw deadline fuel entries s /\
  search_loop g st m cur_id (Z.of_nat (n_known st)) pq_dist exact_dist tags exclude dyn L bw deadline fuel 0 0
    (init_search pq_dist L entries) = Ok s /\
  search_inv (known st) (is_exact g st m exact_dist) [] s /\
  ((forall h, deadline h = false) -> forall x, x ∈ retset s -> flag x = false).
Proof using Hg Hdeg Hbw Hwidth Hne Hnd Hlen Hknown Hfuel.
  destruct (search_result g st m cur_id (Z.of_nat (n_known st)) pq_dist exact_dist tags exclude dyn L bw deadline
    entries fuel large_fits Hbw Hne Hnd Hknown Hfuel) as (s & E & Hs & Hd).
  exists s. split_and!; [|done..]. intros c Hc. apply (run_cut g st m cur_id (Z.of_nat (n_known st))); [done|].
  unfold search_run. rewrite bool_decide_eq_true_2 by lia. done.
Qed.
End whole.

(** C12. A search of a graph whose identifiers are known and lead to known
    identifiers ends after at most [search_fuel] rounds, and the only way in
    which it can fail is the assertion on [MAX_N_CMPS]: there is a sorted list
    [expanded], with every expanded identifier once and the exact distance of
    the vector that its current location holds, such that the search returns
    this list when it is not longer than the number of slots of
    [coord_scratch] ([coord_slots]: at most 16384, and 4096 for [float]), and
    crashes otherwise; [beam_search] returns the tags of its first
    [min l_search k_search] entries.  The conditions are those under which the
    other buffers suffice: at least one and at most [l_search] entry points,
    all different and known, a positive beam width whose reads fit the
    [MAX_N_SECTOR_READS] sectors, and lists of neighbours that fit
    [aligned_dist_scratch]. *)
Theorem beam_search_correct {D} `{!DistOrd D} g st m cur_id (pq_dist : Z -> D) exact_dist tags exclude dyn L bw deadline
    entries k_search fuel :
  graph_ok g st m cur_id -> degrees_le g st m dist_scratch_size ->
  (0 < bw)%nat -> Z.of_nat bw * size_per_io g <= sector_scratch_size ->
  entries <> [] -> NoDup entries -> (length entries <= L)%nat ->
  (forall i, i ∈ entries -> known st i) -> (search_fuel st <= fuel)%nat ->
  exists expanded,
    StronglySorted nb_le expanded /\ NoDup (id <$> expanded) /\
    Forall (is_exact g st m exact_dist) expanded /\ Forall (fun x => known st (id x)) expanded /\
    (forall n_slots, 0 <= n_slots ->
      do_beam_search g st m cur_id n_slots pq_dist exact_dist tags exclude dyn L bw deadline fuel entries =
        (if Z.of_nat (length expanded) <=? n_slots then Ok expanded else Crash) /\
      beam_search g st m cur_id n_slots pq_dist exact_dist tags exclude dyn L bw deadline fuel k_search entries =
        (if Z.of_nat (length expanded) <=? n_slots
         then Ok ((fun x => (id2tag tags (id x), distance x)) <$> take (L `min` k_search) expanded) else Crash)).
Proof.
  intros Hg Hdeg Hb Hw Hne Hnd Hl Hk Hf.
  destruct (search_ends_in g st m cur_id pq_dist exact_dist tags exclude dyn L bw deadline fuel entries
    Hg Hdeg Hb Hw Hne Hnd Hl Hk Hf) as (s & E & _ & Hs & _).
  exists (std_sort_nb (full_retset s)). pose proof (std_sort_nb_perm (full_retset s)) as Hp.
  split_and!; [apply std_sort_nb_strong | | | |].
  - rewrite Hp. pose proof (sv_once _ _ Hs) as Ho. by rewrite app_nil_r in Ho.
  - rewrite Hp. apply (sv_exact _ _ Hs).
  - rewrite Hp, Forall_forall. intros x Hx. apply (sv_known _ _ Hs), (sv_done _ _ Hs).
    rewrite app_nil_r. by apply list_elem_of_fmap_2.
  - intros c Hc. unfold beam_search, do_beam_search. rewrite (E c Hc), (Permutation_length Hp). by destruct (_ <=? c).
Qed.

(** C13. Without a deadline and with a fixed list size the search stops at a
    fixed point of greedy expansion: every candidate of the final pool was
    expanded, and a neighbour of any expanded node is itself expanded unless
    the pool is full with candidates that are all at least as close.  As in
    [beam_search_correct], the search returns its list when it fits
    [coord_scratch] and crashes otherwise, and the other buffers are large
    enough for the beam width, the lists of neighbours and the different
    known entry points. *)
Theorem beam_search_fixpoint {D} `{!DistOrd D} g st m cur_id (pq_dist : Z -> D) exact_dist tags exclude L bw entries fuel :
  graph_ok g st m cur_id -> degrees_le g st m dist_scratch_size ->
  (0 < bw)%nat -> Z.of_nat bw * size_per_io g <= sector_scratch_size ->
  entries <> [] -> NoDup entries -> (length entries <= L)%nat ->
  (forall i, i ∈ entries -> known st i) -> (search_fuel st <= fuel)%nat ->
  exists pool expanded,
    (forall n_slots, 0 <= n_slots ->
      do_beam_search g st m cur_id n_slots pq_dist exact_dist tags exclude false L bw (fun _ => false) fuel entries =
        (if Z.of_nat (length expanded) <=? n_slots then Ok expanded else Crash)) /\
    sorted_pool pool /\ (length pool <= L)%nat /\
    (forall x, x ∈ pool -> distance x = pq_dist (id x) /\ id x ∈ id <$> expanded) /\
    (forall i n j, i ∈ id <$> expanded -> read_node g st m i = Ok n -> j ∈ nbrs n ->
       j ∈ id <$> pool \/
       (length pool = L /\ forall x, x ∈ pool -> dlt (pq_dist j) (distance x) = false)).
Proof.
  intros Hg Hdeg Hb Hw Hne Hnd Hl Hk Hf.
  destruct (search_ends_in g st m cur_id pq_dist exact_dist tags exclude false L bw (fun _ => false) fuel entries
    Hg Hdeg Hb Hw Hne Hnd Hl Hk Hf) as (s & E & El & Hs & Hdone).
  destruct (closest_loop g st m cur_id (Z.of_nat (n_known st)) pq_dist exact_dist tags exclude false L bw (fun _ => false)
    fuel 0 0 (init_search pq_dist L entries) s (large_fits _ _ _ _ _ Hg Hdeg Hw) Hb eq_refl) as [T C];
    [by apply init_search_inv | by intros x ?%elem_of_nil | by apply pool_top_init | by intros ? ? ? ?%elem_of_nil | done |].
  pose proof (std_sort_nb_perm (full_retset s)) as Hp.
  exists (retset s), (std_sort_nb (full_retset s)).
  split_and!; [| apply (sv_sorted _ _ Hs) | apply T | |].
  - intros c Hc. unfold do_beam_search. rewrite (E c Hc), (Permutation_length Hp). by destruct (_ <=? c).
  - intros x Hx. split; [by apply T|]. rewrite Hp.
    pose proof (sv_old _ _ Hs x Hx (Hdone (fun _ => eq_refl) x Hx)) as Ho. by rewrite app_nil_r in Ho.
  - intros i n j Hi En Hj. rewrite Hp in Hi. apply (pt_closest _ T). by apply (C i n j).
Qed.

(** A path of four nodes, and the query that is closest to its end. *)
Definition path_geom : geometry :=
  {| max_node_len := 64; nnodes_per_sector := 16; data_dim := 1; sizeof_T := 1 |}.
Definition path_nodes : list node :=
  [{| coords := [10]; nbrs := [1] |}; {| coords := [20]; nbrs := [0; 2] |};
   {| coords := [30]; nbrs := [1; 3] |}; {| coords := [40]; nbrs := [2] |}].
Definition path_file (off : Z) : Z :=
  match path_nodes !! Z.to_nat ((off - SECTOR_LEN) / 64) with
  | Some n => node_bytes n !!! Z.to_nat ((off - SECTOR_LEN) mod 64)
  | None => 0
  end.
Definition path_map : map_state :=
  {| id2loc_ := list_to_map [(0, 0); (1, 1); (2, 2); (3, 3)]; alloc_ := {| page_layout := ∅; empty_pages := []; cur_loc := 4 |}; id2loc_pm_queue := [] |}.
Definition path_pq (i : Z) : Z := 41 - 10 * i.
Definition path_exact (c : list Z) : Z := Z.abs (39 - c !!! 0%nat).

Lemma path_geom_wf : geometry_wf path_geom.
Proof. by constructor; vm_compute. Qed.

Lemma path_graph_ok : graph_ok path_geom path_map path_file 3.
Proof. apply graph_check_ok. by vm_compute. Qed.

Lemma path_known i : i ∈ [0] -> known path_map i.
Proof. intros ->%list_elem_of_singleton. by eexists. Qed.

Lemma path_degrees d : 2 <= d -> degrees_le path_geom path_map path_file d.
Proof.
  intros Hd. assert (degrees_le path_geom path_map path_file 2) as H by (apply degree_check_ok; by vm_compute).
  intros i n En. specialize (H i n En). lia.
Qed.

Lemma beam_search_witness : exists expanded,
    StronglySorted nb_le expanded /\ NoDup (id <$> expanded) /\
    Forall (is_exact path_geom path_map path_file path_exact) expanded /\
    Forall (fun x => known path_map (id x)) expanded /\
    (forall n_slots, 0 <= n_slots ->
      do_beam_search path_geom path_map path_file 3 n_slots path_pq path_exact ∅ ∅ true 3 2 (fun h => bool_decide (h = 9)%nat) 30 [0] =
        (if Z.of_nat (length expanded) <=? n_slots then Ok expanded else Crash) /\
      beam_search path_geom path_map path_file 3 n_slots path_pq path_exact ∅ ∅ true 3 2 (fun h => bool_decide (h = 9)%nat) 30 2 [0] =
        (if Z.of_nat (length expanded) <=? n_slots
         then Ok ((fun x => (id2tag ∅ (id x), distance x)) <$> take (3 `min` 2) expanded) else Crash)).
Proof.
  apply (beam_search_correct path_geom path_map path_file 3 path_pq path_exact ∅ ∅ true 3 2 _ [0] 2 30).
  - apply graph_check_ok. by vm_compute.
  - by apply path_degrees.
  - lia.
  - by vm_compute.
  - done.
  - apply NoDup_singleton.
  - simpl; lia.
  - apply path_known.
  - apply (bool_decide_unpack _). by vm_compute.
Defined.

Lemma beam_search_fixpoint_witness : exists pool expanded,
    (forall n_slots, 0 <= n_slots ->
      do_beam_search path_geom path_map path_file 3 n_slots path_pq path_exact ∅ ∅ false 2 1 (fun _ => false) 30 [0] =
        (if Z.of_nat (length expanded) <=? n_slots then Ok expanded else Crash)) /\
    sorted_pool pool /\ (length pool <= 2)%nat /\
    (forall x, x ∈ pool -> distance x = path_pq (id x) /\ id x ∈ id <$> expanded) /\
    (forall i n j, i ∈ id <$> expanded -> read_node path_geom path_map path_file i = Ok n -> j ∈ nbrs n ->
       j ∈ id <$> pool \/
       (length pool = 2%nat /\ forall x, x ∈ pool -> dlt (path_pq j) (distance x) = false)).
Proof.
  apply (beam_search_fixpoint path_geom path_map path_file 3 path_pq path_exact ∅ ∅ 2 1 [0] 30).
  - apply graph_check_ok. by vm_compute.
  - by apply path_degrees.
  - lia.
  - by vm_compute.
  - done.
  - apply NoDup_singleton.
  - simpl; lia.
  - apply path_known.
  - apply (bool_decide_unpack _). by vm_compute.
Defined.

Example path_search :
  beam_search path_geom path_map path_file 3 (coord_slots path_geom) path_pq path_exact ∅ ∅ false 3 2 (fun _ => false) 30 2 [0]
    = Ok [(3, 1); (2, 9)].
Proof. by vm_compute. Qed.

(** With three slots the fourth expansion fails. *)
Example path_search_slots :
  do_beam_search path_geom path_map path_file 3 3 path_pq path_exact ∅ ∅ false 3 2 (fun _ => false) 30 [0] = Crash.
Proof. by vm_compute. Qed.

(** A coordinate of four bytes: a quarter of the vectors the assertion allows
    fits the allocation. *)
Example coord_slots_float :
  coord_slots {| max_node_len := 600; nnodes_per_sector := 6; data_dim := 96; sizeof_T := 4 |} = 4096 /\
  coord_slots {| max_node_len := 600; nnodes_per_sector := 6; data_dim := 96; sizeof_T := 1 |} = MAX_N_CMPS.
Proof. split; by vm_compute. Qed.
