(* ===== verification/PipeSearch.v ===== *)
(** * Pipelined search on the stored graph

    [do_pipe_search] and [pipe_search] of [src/search/pipe_search.cpp], in the
    configuration that [CMakeLists.txt] builds (overlapped initialisation and
    an adaptive pipeline width).  Reads of nodes are sent one at a time and
    stay in flight in a queue; the loop polls for completions, takes the
    finished reads off the front of the queue, sends the closest candidate
    that was not sent, and expands the closest candidate that has arrived.

    The device is an oracle: [hit n] says that the [n]-th request is finished
    as soon as it is sent (the page cache, persistent memory), and [arrives t
    j] that the poll number [t] finds the request in buffer [j] finished, in
    any order.  The buffers are [MAX_N_SECTOR_READS] sectors that are reused
    in turn; [sectors] gives the file offset whose bytes a buffer holds. *)
From S2P Require Import Prelude Cuckoo Layout PageAlloc Mapping Node Neighbor CandidatePool BeamSearch.
Import Cuckoo.


(** [io_t]: the candidate as it was sent, its page and location, its buffer
    and the completion flag of its request. *)
Record io_t (D : Type) := {
  nbr : Neighbor D;
  page_id : Z;
  io_loc : Z;
  slot : nat;
  finished : bool;
}.
Arguments nbr {_} _.
Arguments page_id {_} _.
Arguments io_loc {_} _.
Arguments slot {_} _.
Arguments finished {_} _.

(** The local state of a search: the pool, the requests in flight, the arrived
    nodes ([id_buf_map]: buffer and location), the buffers, and the counters of
    the adaptive width. *)
Record pipe_state (D : Type) := {
  ps : search_state D;
  on_flight_ios : list (io_t D);
  id_buf_map : gmap Z (nat * Z);
  sectors : gmap nat Z;
  n_ios : nat;
  cur_beam_width : Z;
  cur_n_in : Z;
  cur_tot : Z;
  max_marker : nat;
}.
Arguments ps {_} _.
Arguments on_flight_ios {_} _.
Arguments id_buf_map {_} _.
Arguments sectors {_} _.
Arguments n_ios {_} _.
Arguments cur_beam_width {_} _.
Arguments cur_n_in {_} _.
Arguments cur_tot {_} _.
Arguments max_marker {_} _.

(** [L] is the argument [l_search]; [slots] the number of buffers. *)
Section pipe.
Context {D : Type} `{!DistOrd D}.
Context (g : geometry) (st : map_state) (m : Z -> Z).
Context (pq_dist : Z -> D) (exact_dist : list Z -> D) (tags : gmap Z Z).
Context (L : nat) (beam_width : Z) (slots : nat).
Context (hit : nat -> bool) (arrives : nat -> nat -> bool).

Abbreviation pool_state := (search_state D).
Abbreviation pstate := (pipe_state D).
Abbreviation io := (io_t D).

(** ** Updates of parts of the state *)
Definition set_pool (r : list (Neighbor D)) (s : pool_state) : pool_state :=
  {| retset := r; visited_ids := visited_ids s; full_retset := full_retset s; l_search := l_search s |}.
Definition set_ps (p : pool_state) (s : pstate) : pstate :=
  {| ps := p; on_flight_ios := on_flight_ios s; id_buf_map := id_buf_map s; sectors := sectors s; n_ios := n_ios s;
     cur_beam_width := cur_beam_width s; cur_n_in := cur_n_in s; cur_tot := cur_tot s; max_marker := max_marker s |}.
Definition set_io (q : list io) (buf : gmap Z (nat * Z)) (sec : gmap nat Z) (n : nat) (s : pstate) : pstate :=
  {| ps := ps s; on_flight_ios := q; id_buf_map := buf; sectors := sec; n_ios := n;
     cur_beam_width := cur_beam_width s; cur_n_in := cur_n_in s; cur_tot := cur_tot s; max_marker := max_marker s |}.
Definition set_window (w n_in tot : Z) (s : pstate) : pstate :=
  {| ps := ps s; on_flight_ios := on_flight_ios s; id_buf_map := id_buf_map s; sectors := sectors s; n_ios := n_ios s;
     cur_beam_width := w; cur_n_in := n_in; cur_tot := tot; max_marker := max_marker s |}.
Definition set_marker (k : nat) (s : pstate) : pstate :=
  {| ps := ps s; on_flight_ios := on_flight_ios s; id_buf_map := id_buf_map s; sectors := sectors s; n_ios := n_ios s;
     cur_beam_width := cur_beam_width s; cur_n_in := cur_n_in s; cur_tot := cur_tot s; max_marker := k |}.

(** ** Sending *)

(** The file offset of the sector that a request reads. *)
Definition req_offset (loc : Z) : Z := u64 (u32 (loc_sector_no g loc) * SECTOR_LEN).

Definition send_read_req (item : Neighbor D) (s : pstate) : outcome pstate :=
  loc ← id2loc st (id item);
  let j := (n_ios s mod slots)%nat in
  let done := hit (n_ios s) in
  let sent := {| nbr := unflag item; page_id := u32 (loc_sector_no g loc); io_loc := loc; slot := j; finished := done |} in
  Ok (set_io (on_flight_ios s ++ [sent]) (id_buf_map s)
        (if done then <[j := req_offset loc]> (sectors s) else sectors s) (S (n_ios s)) s).

(** The identifier sent last must not be above the next one. *)
Definition lock_order_blocks (s : pstate) (i : Z) : bool :=
  match last (on_flight_ios s) with Some x => i <? id (nbr x) | None => false end.

(** [send_best_read_req] on the rest [l] of the pool. *)
Fixpoint send_best (n : nat) (l : list (Neighbor D)) (s : pstate) : outcome (list (Neighbor D) * pstate) :=
  match n, l with
  | S n', x :: l' =>
      if negb (flag x) || bool_decide (is_Some (id_buf_map s !! id x)) then
        '(l1, s1) ← send_best n l' s; Ok (unflag x :: l1, s1)
      else if lock_order_blocks s (id x) then Ok (l, s)
      else
        s1 ← send_read_req x s;
        '(l1, s2) ← send_best n' l' s1; Ok (unflag x :: l1, s2)
  | _, _ => Ok (l, s)
  end.

Definition send_best_read_req (n : nat) (s : pstate) : outcome pstate :=
  '(l, s1) ← send_best n (retset (ps s)) s;
  Ok (set_ps (set_pool l (ps s1)) s1).

(** ** Completion *)

(** The device finishes requests: their bytes are in their buffers. *)
Definition complete_io (t : nat) (x : io) : io :=
  {| nbr := nbr x; page_id := page_id x; io_loc := io_loc x; slot := slot x; finished := finished x || arrives t (slot x) |}.
Definition complete_sectors (t : nat) (q : list io) (sec : gmap nat Z) : gmap nat Z :=
  foldr (fun x sec => if negb (finished x) && arrives t (slot x) then <[slot x := req_offset (io_loc x)]> sec else sec) sec q.

(** The finished requests at the front of the queue, against the distance of
    the last candidate of the pool. *)
Fixpoint pop_finished (worst : D) (q : list io) (buf : gmap Z (nat * Z)) (n_in n_out : Z) :
    list io * gmap Z (nat * Z) * Z * Z :=
  match q with
  | x :: q' =>
      if finished x then
        let i := id (nbr x) in
        let buf := match buf !! i with Some _ => buf | None => <[i := (slot x, io_loc x)]> buf end in
        if negb (dlt worst (distance (nbr x))) then pop_finished worst q' buf (n_in + 1) n_out
        else pop_finished worst q' buf n_in (n_out + 1)
      else (q, buf, n_in, n_out)
  | [] => (q, buf, n_in, n_out)
  end.

Definition poll_all (t : nat) (s : pstate) : outcome (pstate * Z * Z) :=
  worst ← at_ (retset (ps s)) (length (retset (ps s)) - 1);
  let '(q, buf, n_in, n_out) :=
    pop_finished (distance worst) (complete_io t <$> on_flight_ios s) (id_buf_map s) 0 0 in
  Ok (set_io q buf (complete_sectors t (on_flight_ios s) (sectors s)) (n_ios s) s, n_in, n_out).

(** ** The width of the pipeline *)

(** [(cur_tot - cur_n_in) * 1.0 / cur_tot <= 0.1] on integers. *)
Definition few_wasted (tot n_in : Z) : bool := 10 * (tot - n_in) <=? tot.

Definition tune_width (n_in n_out : Z) (s : pstate) : pstate :=
  if bool_decide (5 <= max_marker s)%nat && (0 <? n_in + n_out) then
    let ins := cur_n_in s + n_in in
    let tot := cur_tot s + (n_in + n_out) in
    set_window (if few_wasted tot ins then Z.min beam_width (Z.max (cur_beam_width s + 1) 4) else cur_beam_width s) ins tot s
  else s.

(** ** Expansion *)

(** The neighbours that were not visited, each of them once. *)
Fixpoint fresh_nbrs (l : list Z) (vis : gset Z) : list Z * gset Z :=
  match l with
  | [] => ([], vis)
  | i :: l =>
      if decide (i ∈ vis) then fresh_nbrs l vis
      else let '(c, vis) := fresh_nbrs l ({[i]} ∪ vis) in (i :: c, vis)
  end.

Definition compute_and_push_nbrs (l : list Z) (sk : pool_state * nat) : outcome (pool_state * nat) :=
  let '(s, nk) := sk in
  let '(c, vis) := fresh_nbrs l (visited_ids s) in
  '(ret, nk) ← foldM (pool_push pq_dist (l_search s)) c (retset s, nk);
  Ok ({| retset := ret; visited_ids := vis; full_retset := full_retset s; l_search := l_search s |}, nk).

Definition compute_exact_dists_and_push (n : node) (i : Z) (s : pool_state) : pool_state :=
  {| retset := retset s; visited_ids := visited_ids s;
     full_retset := full_retset s ++ [{| id := i; distance := exact_dist (coords n); flag := true; visited := false |}];
     l_search := l_search s |}.

(** The first position whose entry satisfies [p]. *)
Fixpoint first_pos (p : Neighbor D -> bool) (l : list (Neighbor D)) : option nat :=
  match l with
  | [] => None
  | x :: l => if p x then Some O else S <$> first_pos p l
  end.

Definition arrived (s : pstate) (x : Neighbor D) : bool := bool_decide (is_Some (id_buf_map s !! id x)).

(** The node in a buffer: the bytes of the sector it holds, from the offset of
    the location on. *)
Definition buffered_node (s : pstate) (j : nat) (loc : Z) : outcome node :=
  match sectors s !! j with
  | Some off => Ok (disk_node g m (off + loc_sector_off g loc))
  | None => Crash
  end.

Definition expand_best (s : pstate) : outcome pstate :=
  match first_pos (fun x => negb (visited x) && arrived s x) (retset (ps s)) with
  | None => Ok s
  | Some k =>
      x ← at_ (retset (ps s)) k;
      match id_buf_map s !! id x with
      | None => Crash
      | Some (j, loc) =>
          let x' := {| id := id x; distance := distance x; flag := false; visited := true |} in
          let p := set_pool (<[k := x']> (retset (ps s))) (ps s) in
          n ← buffered_node s j loc;
          '(p', _) ← compute_and_push_nbrs (nbrs n) (compute_exact_dists_and_push n (id x) p, length (retset (ps s)));
          Ok (set_ps p' s)
      end
  end.

(** The result is the first candidate that was neither sent nor expanded. *)
Definition calc_best_node (s : pstate) : outcome (pstate * nat) :=
  s' ← expand_best s;
  Ok (s', default (length (retset (ps s')))
            (first_pos (fun x => negb (visited x) && flag x && negb (arrived s' x)) (retset (ps s')))).

(** ** The search *)

(** One iteration of the main loop. *)
Definition pipe_step (t : nat) (s : pstate) : outcome pstate :=
  '(s1, n_in, n_out) ← poll_all t s;
  let s2 := tune_width n_in n_out s1 in
  s3 ← (if Z.of_nat (length (on_flight_ios s2)) <? cur_beam_width s2 then send_best_read_req 1 s2 else Ok s2);
  '(s4, marker) ← calc_best_node s3;
  Ok (set_marker (Nat.max (max_marker s4) marker) s4).

(** [get_first_unvisited() != -1]. *)
Definition unvisited_left (s : pstate) : bool := existsb (fun x => negb (visited x)) (retset (ps s)).

Fixpoint pipe_loop (fuel t : nat) (s : pstate) : outcome pstate :=
  match fuel with
  | O => Crash
  | S fuel =>
      if unvisited_left s then s' ← pipe_step t s; pipe_loop fuel (S t) s' else Ok s
  end.

(** The entries with their distances: those that the index in memory returns,
    or the medoid.  The first requests are sent in the order of the entries;
    then, when the entries came from the index in memory, the distances are
    replaced and the pool is sorted. *)
Definition pipe_init (mem : bool) (entries : list (Z * D)) : outcome pstate :=
  let es := if mem then take L entries else entries in
  let s0 := {| ps := {| retset := (fun '(i, d) => {| id := i; distance := d; flag := true; visited := false |}) <$> es;
                        visited_ids := list_to_set es.*1; full_retset := []; l_search := L |};
               on_flight_ios := []; id_buf_map := ∅; sectors := ∅; n_ios := O;
               cur_beam_width := 4; cur_n_in := 0; cur_tot := 0; max_marker := O |} in
  s1 ← send_best_read_req 4 s0;
  Ok (if mem then
        set_ps (set_pool (std_sort_nb ((fun x => {| id := id x; distance := pq_dist (id x); flag := flag x; visited := visited x |})
                                         <$> retset (ps s1))) (ps s1)) s1
      else s1).

(** The final assertion: nothing is in flight. *)
Definition do_pipe_search (fuel : nat) (mem : bool) (entries : list (Z * D)) : outcome (list (Neighbor D)) :=
  if Z.of_nat slots <? beam_width then Crash else
  s ← pipe_init mem entries;
  s ← pipe_loop fuel 0 s;
  match on_flight_ios s with
  | [] => Ok (std_sort_nb (full_retset (ps s)))
  | _ => Crash
  end.

(** The copy of the results, with adjacent duplicates skipped. *)
Fixpoint copy_results (prev : option Z) (k : nat) (l : list (Neighbor D)) : list (Z * D) :=
  match k, l with
  | S k', x :: l' =>
      if bool_decide (prev = Some (id x)) then copy_results (Some (id x)) k l'
      else (id2tag tags (id x), distance x) :: copy_results (Some (id x)) k' l'
  | _, _ => []
  end.

Definition pipe_search (fuel k_search : nat) (mem : bool) (entries : list (Z * D)) : outcome (list (Z * D)) :=
  expanded ← do_pipe_search fuel mem entries;
  Ok (copy_results None k_search (take L expanded)).

(** ** Batches of neighbours

    Collecting the fresh neighbours first and inserting them afterwards is the
    same as treating them one by one. *)
Lemma fresh_push : forall l v s nk,
  foldM (push_neighbor pq_dist) l ({| retset := retset s; visited_ids := v; full_retset := full_retset s; l_search := l_search s |}, nk) =
  ('(ret, nk) ← foldM (pool_push pq_dist (l_search s)) (fst (fresh_nbrs l v)) (retset s, nk);
   Ok ({| retset := ret; visited_ids := snd (fresh_nbrs l v); full_retset := full_retset s; l_search := l_search s |}, nk)).
Proof using Type.
  induction l as [|i l IH]; intros v s nk; cbn [foldM fresh_nbrs]; [done|].
  destruct (decide (i ∈ v)) as [Hi|Hi].
  { assert (forall p : pool_state, visited_ids p = v -> push_neighbor pq_dist i (p, nk) = Ok (p, nk)) as ->
      by (intros p <-; simpl; by rewrite decide_True); [apply IH | done]. }
  pose proof (IH ({[i]} ∪ v)) as IH1. destruct (fresh_nbrs l ({[i]} ∪ v)) as [c w]. cbn [fst snd foldM] in *.
  assert (forall p : pool_state, visited_ids p = v -> push_neighbor pq_dist i (p, nk) =
    ('(ret, nk) ← pool_push pq_dist (l_search p) i (retset p, nk);
     Ok ({| retset := ret; visited_ids := {[i]} ∪ v; full_retset := full_retset p; l_search := l_search p |}, nk))) as ->
    by (intros p <-; simpl; by rewrite decide_False); [|done]. cbn [retset full_retset l_search].
  destruct (pool_push _ _ i _) as [[ret n]|]; [|done]. cbn [mbind outcome_bind].
  apply (IH1 {| retset := ret; visited_ids := v; full_retset := full_retset s; l_search := l_search s |} n).
Qed.

Lemma compute_and_push_nbrs_seq cur l s nk : (forall i, i ∈ l -> i <= cur) ->
  compute_and_push_nbrs l (s, nk) = foldM (expand_neighbor cur pq_dist) l (s, nk).
Proof using Type.
  intros Hl. transitivity (foldM (push_neighbor pq_dist) l (s, nk)).
  - destruct s as [r v f ls]. unfold compute_and_push_nbrs. cbn [visited_ids retset full_retset l_search].
    pose proof (fresh_push l v {| retset := r; visited_ids := v; full_retset := f; l_search := ls |} nk) as E. simpl in E. rewrite E.
    by destruct (fresh_nbrs l v).
  - revert s nk. induction l as [|i l IH]; intros s nk; [done|]. cbn [foldM].
    assert (forall sk, expand_neighbor cur pq_dist i sk = push_neighbor pq_dist i sk) as ->.
    { intros sk. unfold expand_neighbor. destruct (Z.ltb_spec cur i) as [Hi|_]; [|done]. specialize (Hl i (list_elem_of_here _ _)). clear -Hl Hi. lia. }
    destruct (push_neighbor pq_dist i (s, nk)) as [[s1 n1]|]; [|done]. cbn [mbind outcome_bind]. apply IH.
    intros j Hj. apply Hl. by right.
Qed.

(** ** The requests *)
Context (cur_id : Z) (Hgeom : geometry_wf g) (Hgraph : graph_ok g st m cur_id).
Context (Hloc : forall i loc, id2loc_ st !! i = Some loc -> loc_ok loc).

(** No more requests than this are in flight at any time. *)
Definition max_width : nat := Nat.max 4 (Z.to_nat beam_width).
Context (Hslots : (max_width + L <= slots)%nat).

Lemma slot_differs a b : (a < b)%nat -> (b < a + slots)%nat -> (a mod slots <> b mod slots)%nat.
Proof using Type.
  intros H1 H2 E. assert (slots <> 0)%nat as Hs by (clear -H1 H2; lia).
  pose proof (Nat.div_mod a slots Hs) as Ea. pose proof (Nat.div_mod b slots Hs) as Eb. rewrite E in Ea.
  destruct (le_lt_dec (b / slots) (a / slots)) as [Hq|Hq]; pose proof (Nat.mul_le_mono_l _ _ slots Hq) as Hm.
  - clear -H1 Ea Eb Hm. lia.
  - rewrite Nat.mul_succ_r in Hm. clear -H2 Ea Eb Hm. lia.
Qed.

Lemma req_offset_node loc : loc_ok loc -> req_offset loc + loc_sector_off g loc = u_loc_offset g loc.
Proof using Hgeom.
  clear Hslots. intros H. unfold req_offset. rewrite u32_loc_sector_no, loc_sector_off_eq, u_loc_offset_eq by done.
  pose proof (loc_div_range g Hgeom loc H). destruct H. unfold SECTOR_LEN. rewrite u64_small by lia. done.
Qed.

Definition flight_ids (s : pstate) : list Z := (fun x => id (nbr x)) <$> on_flight_ios s.
Definition sent (s : pstate) (i : Z) : Prop := i ∈ flight_ids s \/ is_Some (id_buf_map s !! i).

Record io_ok (sec : gmap nat Z) (x : io) : Prop := {
  io_at : id2loc_ st !! id (nbr x) = Some (io_loc x);
  io_data : finished x = true -> sec !! slot x = Some (req_offset (io_loc x));
}.

(** Reads are in flight in increasing order of their identifiers.  The queue is
    first-in first-out: as many requests as nodes have arrived were taken from
    it, and the ones in it have the numbers that follow. *)
Record io_inv (s : pstate) : Prop := {
  ii_order : StronglySorted Z.lt (flight_ids s);
  ii_window : (length (on_flight_ios s) <= max_width)%nat;
  ii_slots : slot <$> on_flight_ios s =
    (fun r => (r mod slots)%nat) <$> seq (size (id_buf_map s)) (length (on_flight_ios s));
  ii_flight : Forall (io_ok (sectors s)) (on_flight_ios s);
  ii_disj : forall i, i ∈ flight_ids s -> id_buf_map s !! i = None;
  ii_map : forall i v, id_buf_map s !! i = Some v -> id2loc_ st !! i = Some v.2;
  ii_count : n_ios s = (size (id_buf_map s) + length (on_flight_ios s))%nat;
}.

(** The sector of [i] is in its buffer, and at most [b] requests were sent since
    its own. *)
Definition live (s : pstate) (i : Z) (b : nat) : Prop :=
  exists r loc, id_buf_map s !! i = Some ((r mod slots)%nat, loc) /\ (r < size (id_buf_map s))%nat /\
    (n_ios s <= r + b)%nat /\ sectors s !! (r mod slots)%nat = Some (req_offset loc).

Lemma live_le s i b b' : (b <= b')%nat -> live s i b -> live s i b'.
Proof. intros Hb (r & loc & H1 & H2 & H3 & H4). exists r, loc. split_and!; try done. lia. Qed.

Lemma flight_slot s j : io_inv s -> j ∈ slot <$> on_flight_ios s ->
  exists r, j = (r mod slots)%nat /\ (size (id_buf_map s) <= r)%nat /\ (r < n_ios s)%nat.
Proof.
  intros Hs. rewrite (ii_slots _ Hs), list_elem_of_fmap. intros (r & -> & [H1 H2]%elem_of_seq). exists r.
  rewrite (ii_count _ Hs). lia.
Qed.

Lemma flight_slots_NoDup s : io_inv s -> NoDup (slot <$> on_flight_ios s).
Proof.
  intros Hs. rewrite (ii_slots _ Hs). apply NoDup_fmap_2_strong; [|apply NoDup_seq].
  intros a b [Ha1 Ha2]%elem_of_seq [Hb1 Hb2]%elem_of_seq E. pose proof (ii_window _ Hs). pose proof Hslots.
  destruct (lt_eq_lt_dec a b) as [[H1|H1]|H1]; [exfalso | done | exfalso].
  - apply (slot_differs a b); [done | lia | done].
  - apply (slot_differs b a); [done | lia | done].
Qed.

Lemma live_slot s i b : io_inv s -> live s i b -> (b <= slots)%nat ->
  exists r loc, id_buf_map s !! i = Some ((r mod slots)%nat, loc) /\ (r mod slots)%nat ∉ slot <$> on_flight_ios s.
Proof.
  intros Hs (r & loc & H1 & H2 & H3 & _) Hb. exists r, loc. split; [done|].
  intros (r' & E & Hr1 & Hr2)%(flight_slot s _ Hs). by apply (slot_differs r r'); [lia..|].
Qed.

Lemma lock_order_sorted s i : StronglySorted Z.lt (flight_ids s) -> i ∉ flight_ids s -> lock_order_blocks s i = false ->
  StronglySorted Z.lt (flight_ids s ++ [i]).
Proof.
  intros Hs Hi Hb. apply StronglySorted_app_2; [|done|repeat constructor].
  intros x y Hx ->%list_elem_of_singleton. unfold lock_order_blocks, flight_ids in *.
  destruct (on_flight_ios s) as [|z q _] using rev_ind; [by apply elem_of_nil in Hx|].
  rewrite last_snoc in Hb. rewrite fmap_app, list_fmap_singleton in *.
  apply Z.ltb_ge in Hb. assert (i <> id (nbr z)) by set_solver.
  apply elem_of_app in Hx as [Hx| ->%list_elem_of_singleton]; [|lia].
  pose proof (StronglySorted_app_1_elem_of _ _ _ _ _ Hs Hx (list_elem_of_here _ _)). lia.
Qed.

(** What sending [f] does. *)
Record sends (f : list Z) (s s' : pstate) : Prop := {
  sn_ps : ps s' = ps s;
  sn_map : id_buf_map s' = id_buf_map s;
  sn_width : cur_beam_width s' = cur_beam_width s;
  sn_flight : exists q, on_flight_ios s' = on_flight_ios s ++ q /\ (fun x => id (nbr x)) <$> q = f;
  sn_live : forall i b, live s i b -> (b + length f <= slots)%nat -> live s' i (b + length f);
}.

Lemma sends_ids f s s' : sends f s s' -> flight_ids s' = flight_ids s ++ f.
Proof. intros [_ _ _ (q & E & <-)]. unfold flight_ids. by rewrite E, fmap_app. Qed.

Lemma sends_sent f s s' i : sends f s s' -> sent s' i <-> i ∈ f \/ sent s i.
Proof. intros H. unfold sent. rewrite (sends_ids _ _ _ H), (sn_map _ _ _ H), elem_of_app. tauto. Qed.

Lemma sends_refl s : sends [] s s.
Proof.
  constructor; try done; [exists []; by rewrite app_nil_r|]. intros i b H _. by rewrite Nat.add_0_r.
Qed.

Lemma sends_trans f1 f2 s1 s2 s3 : sends f1 s1 s2 -> sends f2 s2 s3 -> sends (f1 ++ f2) s1 s3.
Proof.
  intros [P1 M1 W1 (q1 & E1 & F1) L1] [P2 M2 W2 (q2 & E2 & F2) L2]. constructor; try congruence.
  - exists (q1 ++ q2). by rewrite E2, E1, fmap_app, app_assoc, F1, F2.
  - intros i b Hl. rewrite length_app. intros Hb. rewrite Nat.add_assoc. apply L2; [apply L1; [done | lia] | lia].
Qed.

Lemma send_read_req_spec x s :
  io_inv s -> known st (id x) -> ~ sent s (id x) -> lock_order_blocks s (id x) = false ->
  (length (on_flight_ios s) < max_width)%nat ->
  exists s', send_read_req x s = Ok s' /\ io_inv s' /\ sends [id x] s s'.
Proof.
  intros Hs [loc Hl] Hns Hb Hn. pose proof Hs as [Ho Hw Hsl F Dj M C].
  unfold send_read_req, id2loc, find, find_fn. rewrite Hl. cbn [mbind outcome_bind]. set (j := (n_ios s mod slots)%nat).
  set (y := {| nbr := unflag x; page_id := u32 (loc_sector_no g loc); io_loc := loc; slot := j; finished := hit (n_ios s) |}).
  set (sec' := if hit (n_ios s) then <[j := req_offset loc]> (sectors s) else sectors s). eexists. split; [done|].
  assert (forall r, (r < n_ios s)%nat -> (n_ios s < r + slots)%nat -> sec' !! (r mod slots)%nat = sectors s !! (r mod slots)%nat) as Hsec.
  { intros r H1 H2. subst sec'. destruct (hit _); [|done]. apply lookup_insert_ne. intros E. by apply (slot_differs r (n_ios s)). }
  split; [constructor; simpl|].
  - unfold flight_ids; simpl. rewrite fmap_app. apply lock_order_sorted; [done | | done]. intros Hi. apply Hns. by left.
  - rewrite length_app. simpl. lia.
  - rewrite fmap_app, length_app, Nat.add_1_r, seq_S, fmap_app, Hsl. simpl. by rewrite <- C.
  - apply Forall_app. split; [|constructor; [|constructor]].
    + apply Forall_forall. intros z Hz. rewrite Forall_forall in F. destruct (F z Hz) as [F2 F3].
      constructor; [done|]. intros Hf. rewrite <- F3 by done.
      destruct (flight_slot s (slot z) Hs) as (r & -> & Hr1 & Hr2); [by apply list_elem_of_fmap_2|]. pose proof Hslots. apply Hsec; lia.
    + constructor; simpl; [done|]. subst sec'. intros ->. by rewrite lookup_insert_eq.
  - intros i. unfold flight_ids; simpl. rewrite fmap_app, elem_of_app. intros [Hi| ->%list_elem_of_singleton]; [by apply Dj|].
    simpl. destruct (id_buf_map s !! id x) eqn:E; [|done]. destruct Hns. right. by rewrite E.
  - done.
  - rewrite length_app. simpl. lia.
  - constructor; try done; [by exists [y]|]. intros i b (r & loc' & L1 & L2 & L3 & L4) Hb'. simpl in Hb'. exists r, loc'. simpl.
    split_and!; try done; [lia|]. rewrite Hsec; [done | lia | lia].
Qed.

Lemma unflag_id (x : Neighbor D) : flag x = false -> unflag x = x.
Proof. destruct x as [? ? f ?]; simpl. by intros ->. Qed.

Lemma unflag_mark f (x : Neighbor D) : flag x = false -> unflag x = mark f x.
Proof. intros H. unfold mark. case_decide; [done|]. by apply unflag_id. Qed.

(** [f] are identifiers of candidates of [l] that were not sent. *)
Definition chosen (f : list Z) (l : list (Neighbor D)) : Prop :=
  NoDup f /\ forall i, i ∈ f -> exists x, x ∈ l /\ id x = i /\ flag x = true.

Lemma chosen_nil l : chosen [] l.
Proof. split; [constructor|]. by intros i ?%elem_of_nil. Qed.

(** The candidates that are sent; nothing is skipped when nothing is in flight. *)
Lemma send_best_spec : forall l n s,
  io_inv s -> (forall x, x ∈ l -> known st (id x)) -> NoDup (id <$> l) ->
  (forall x, x ∈ l -> flag x = true -> ~ sent s (id x)) -> (length (on_flight_ios s) + n <= max_width)%nat ->
  exists f s', send_best n l s = Ok (mark f <$> l, s') /\ io_inv s' /\ sends f s s' /\ chosen f l /\ (length f <= n)%nat /\
    (on_flight_ios s = [] -> (0 < n)%nat -> (exists x, x ∈ l /\ flag x = true) -> f <> []).
Proof.
  assert (forall l s, io_inv s -> exists f s', Ok (l, s) = Ok (mark f <$> l, s') /\ io_inv s' /\ sends f s s' /\ chosen f l /\ f = []) as Hstop.
  { intros l s Hs. exists [], s. rewrite mark_nil. split_and!; auto using sends_refl, chosen_nil. }
  induction l as [|x l IH]; intros n s Hs Hk Hnd Hns Hn.
  { destruct n; simpl; (destruct (Hstop [] s Hs) as (f & s' & ? & ? & ? & ? & ->); exists [], s'; split_and!; try done; try (simpl; lia));
      by intros _ _ (x & ?%elem_of_nil & _). }
  destruct n as [|n]; simpl.
  { destruct (Hstop (x :: l) s Hs) as (f & s' & ? & ? & ? & ? & ->). exists [], s'. split_and!; try done; simpl; lia. }
  rewrite fmap_cons in Hnd. apply NoDup_cons in Hnd as [Hx Hnd].
  assert (forall y, y ∈ l -> id y <> id x) as Hne by (intros y Hy E; apply Hx; rewrite <- E; by apply list_elem_of_fmap_2).
  destruct (flag x) eqn:Ef; simpl.
  - pose proof (Hns x ltac:(set_solver) Ef) as Hnx. rewrite bool_decide_eq_false_2 by (intros ?; apply Hnx; by right).
    destruct (lock_order_blocks s (id x)) eqn:Eb.
    { destruct (Hstop (x :: l) s Hs) as (f & s' & ? & ? & ? & ? & ->). exists [], s'. split_and!; try done; [simpl; lia|].
      intros E. unfold lock_order_blocks in Eb. by rewrite E in Eb. }
    destruct (send_read_req_spec x s Hs (Hk x ltac:(set_solver)) Hnx Eb ltac:(lia)) as (s1 & -> & Hs1 & S1).
    cbn [mbind outcome_bind].
    destruct (IH n s1 Hs1 ltac:(set_solver) Hnd) as (f & s2 & -> & Hs2 & S2 & [C1 C2] & C3 & _).
    { intros y Hy Hfy [E|Hsy]%(sends_sent _ _ _ _ S1); [|by apply (Hns y ltac:(set_solver))].
      apply list_elem_of_singleton in E. by apply (Hne y). }
    { destruct (sn_flight _ _ _ S1) as (q & -> & Hq).
      apply (f_equal length) in Hq. rewrite length_fmap in Hq. rewrite length_app, Hq. simpl. lia. }
    assert (id x ∉ f) as Hxf by (intros (y & Hy & Hid & _)%C2; by apply (Hne y)).
    cbn [mbind outcome_bind]. rewrite <- (mark_cons f (id x) x l eq_refl Hx). exists (id x :: f), s2. split_and!; try done.
    + apply (sends_trans [id x] f _ _ _ S1 S2).
    + split; [by constructor|]. intros i [->|Hi]%elem_of_cons; [exists x; set_solver|]. destruct (C2 i Hi) as (y & ? & ?). exists y. set_solver.
    + simpl. lia.
  - destruct (IH (S n) s Hs ltac:(set_solver) Hnd ltac:(set_solver) Hn) as (f & s' & -> & Hs' & S1 & [C1 C2] & C3 & C4).
    cbn [mbind outcome_bind]. rewrite (unflag_mark f x Ef). exists f, s'. split_and!; try done.
    + split; [done|]. intros i Hi. destruct (C2 i Hi) as (y & ? & ?). exists y. set_solver.
    + intros E H0 (y & [->|Hy]%elem_of_cons & Hfy); [congruence|]. apply C4; eauto.
Qed.

(** ** Polling *)
Lemma pop_finished_spec worst : forall q buf a b q' buf' a' b',
  pop_finished worst q buf a b = (q', buf', a', b') ->
  NoDup ((fun x => id (nbr x)) <$> q) -> (forall x, x ∈ q -> buf !! id (nbr x) = None) ->
  exists p, q = p ++ q' /\ Forall (fun x => finished x = true) p /\ (p = [] -> forall x, head q = Some x -> finished x = false) /\
    (forall i v, buf' !! i = Some v -> buf !! i = Some v \/ exists x, x ∈ p /\ id (nbr x) = i /\ v = (slot x, io_loc x)) /\
    (forall i, is_Some (buf' !! i) <-> is_Some (buf !! i) \/ i ∈ (fun x => id (nbr x)) <$> p) /\
    size buf' = (size buf + length p)%nat.
Proof.
  induction q as [|x q IH]; intros buf a b q' buf' a' b' H Hnd Hbuf; simpl in H.
  { simplify_eq. exists []. split_and!; try done; try (simpl; lia); [by left | intros i; set_solver]. }
  destruct (finished x) eqn:Ef.
  2: { simplify_eq. exists []. split_and!; try done; try (simpl; lia); [by intros _ y [= <-] | by left | intros i; set_solver]. }
  rewrite (Hbuf x ltac:(set_solver)) in H. rewrite fmap_cons in Hnd. apply NoDup_cons in Hnd as [Hx Hnd].
  set (buf1 := <[id (nbr x) := (slot x, io_loc x)]> buf) in *.
  assert (exists a1 b1, pop_finished worst q buf1 a1 b1 = (q', buf', a', b')) as (a1 & b1 & H1)
    by (destruct (negb _) in H; eauto).
  destruct (IH buf1 a1 b1 _ _ _ _ H1 Hnd) as (p & -> & Hp & _ & Hi & Hdom & Hsz).
  { intros y Hy. subst buf1. rewrite lookup_insert_ne; [by apply Hbuf; set_solver|]. intros E. apply Hx. rewrite E.
    by apply (list_elem_of_fmap_2 (fun x => id (nbr x))). }
  exists (x :: p). split_and!; try done; [by constructor | | |].
  - intros i v [Hv|(y & ? & ? & ?)]%Hi; [|right; exists y; set_solver].
    subst buf1. apply lookup_insert_Some in Hv as [[<- <-]|[_ ?]]; [right; exists x; set_solver | by left].
  - intros i. rewrite Hdom. subst buf1. rewrite fmap_cons, elem_of_cons, lookup_insert_is_Some. destruct (decide (id (nbr x) = i)); naive_solver.
  - rewrite Hsz. subst buf1. rewrite map_size_insert_None by (apply Hbuf; set_solver). simpl. lia.
Qed.

Lemma complete_sectors_spec t sec : forall q, NoDup (slot <$> q) ->
  (forall j, j ∉ slot <$> q -> complete_sectors t q sec !! j = sec !! j) /\
  (forall x, x ∈ q -> complete_sectors t q sec !! slot x =
     if negb (finished x) && arrives t (slot x) then Some (req_offset (io_loc x)) else sec !! slot x).
Proof.
  induction q as [|x q IH]; intros Hnd; [split; [done | by intros x ?%elem_of_nil]|].
  rewrite fmap_cons in Hnd. apply NoDup_cons in Hnd as [Hx Hnd]. destruct (IH Hnd) as [H1 H2]. simpl. split.
  - intros j [Hj1 Hj2]%not_elem_of_cons. destruct (negb _ && _); [rewrite lookup_insert_ne by done|]; by apply H1.
  - intros y [->|Hy]%elem_of_cons.
    + destruct (negb _ && _); [by rewrite lookup_insert_eq | by apply H1].
    + assert (slot x <> slot y) by (intros E; apply Hx; rewrite E; by apply list_elem_of_fmap_2).
      destruct (negb (finished x) && _); [rewrite lookup_insert_ne by done|]; by apply H2.
Qed.

Lemma complete_ids t (q : list io) : (fun x => id (nbr x)) <$> (complete_io t <$> q) = (fun x : io => id (nbr x)) <$> q.
Proof. rewrite <- list_fmap_compose. by apply list_fmap_ext. Qed.

Lemma complete_slots t (q : list io) : slot <$> (complete_io t <$> q) = slot <$> q.
Proof. rewrite <- list_fmap_compose. by apply list_fmap_ext. Qed.

(** Finished requests have their data. *)
Lemma complete_ok t sec (q : list io) : NoDup (slot <$> q) -> Forall (io_ok sec) q ->
  Forall (io_ok (complete_sectors t q sec)) (complete_io t <$> q).
Proof.
  intros Hnd Hq. apply Forall_fmap, Forall_forall. intros x Hx. rewrite Forall_forall in Hq. destruct (Hq x Hx) as [H2 H3].
  constructor; simpl; [done|]. intros Hf. destruct (complete_sectors_spec t sec q Hnd) as [_ E]. rewrite (E x Hx).
  destruct (finished x); simpl in *; [by apply H3 | by rewrite Hf].
Qed.

(** A poll takes requests [p] from the front of the queue; when it takes none,
    the first one has not finished. *)
Record polls (t : nat) (p : list Z) (s s' : pstate) : Prop := {
  pl_ps : ps s' = ps s;
  pl_width : cur_beam_width s' = cur_beam_width s;
  pl_ios : n_ios s' = n_ios s;
  pl_flight : flight_ids s = p ++ flight_ids s';
  pl_map : forall i, is_Some (id_buf_map s' !! i) <-> is_Some (id_buf_map s !! i) \/ i ∈ p;
  pl_live : forall i b, (b <= slots)%nat -> live s i b -> live s' i b;
  pl_new : forall i, i ∈ p -> live s' i max_width;
  pl_wait : p = [] -> slot <$> on_flight_ios s' = slot <$> on_flight_ios s /\
    forall x, head (on_flight_ios s) = Some x -> arrives t (slot x) = false;
}.

(** The state after the requests [p] were taken from the queue. *)
Definition taken (t : nat) (s : pstate) (q : list io) (buf : gmap Z (nat * Z)) : pstate :=
  set_io q buf (complete_sectors t (on_flight_ios s) (sectors s)) (n_ios s) s.

Lemma taken_inv t s p q buf : io_inv s -> complete_io t <$> on_flight_ios s = p ++ q ->
  (forall i v, buf !! i = Some v -> id_buf_map s !! i = Some v \/ exists x, x ∈ p /\ id (nbr x) = i /\ v = (slot x, io_loc x)) ->
  (forall i, is_Some (buf !! i) <-> is_Some (id_buf_map s !! i) \/ i ∈ (fun x => id (nbr x)) <$> p) ->
  size buf = (size (id_buf_map s) + length p)%nat -> io_inv (taken t s q buf).
Proof.
  intros Hs Eq Hbuf Hdom Hsz. pose proof (flight_slots_NoDup s Hs) as Hnd. destruct Hs as [Ho Hw Hsl Hf Hd Hm Hc].
  pose proof (complete_ok t (sectors s) _ Hnd Hf) as Hok. rewrite Eq in Hok. apply Forall_app in Hok as [Hokp Hokq].
  pose proof (complete_ids t (on_flight_ios s)) as Hids. rewrite Eq, fmap_app in Hids.
  pose proof (complete_slots t (on_flight_ios s)) as Hss. rewrite Eq, fmap_app, Hsl in Hss.
  pose proof (f_equal length Eq) as Hlen. rewrite length_fmap, length_app in Hlen.
  unfold flight_ids in *. rewrite <- Hids in *. constructor; unfold flight_ids; simpl; try done.
  - by eapply StronglySorted_app_r.
  - lia.
  - rewrite Hlen, seq_app, fmap_app in Hss. rewrite Hsz. apply app_inj_1 in Hss as [_ ?]; [done|]. by rewrite !length_fmap, length_seq.
  - intros i Hi. apply eq_None_not_Some. rewrite Hdom. intros [Hb|Hip].
    + rewrite (Hd i) in Hb by set_solver. by destruct Hb.
    + apply (StronglySorted_NoDup Z.lt), NoDup_app in Ho as (_ & Hdi & _). by apply (Hdi i).
  - intros i v [Hb|(x & Hx & <- & ->)]%Hbuf; [by apply Hm|]. rewrite Forall_forall in Hokp. by apply Hokp.
  - lia.
Qed.

Lemma taken_live t s p q buf : io_inv s -> complete_io t <$> on_flight_ios s = p ++ q -> Forall (fun x => finished x = true) p ->
  (forall i v, buf !! i = Some v -> id_buf_map s !! i = Some v \/ exists x, x ∈ p /\ id (nbr x) = i /\ v = (slot x, io_loc x)) ->
  (forall i, is_Some (buf !! i) <-> is_Some (id_buf_map s !! i) \/ i ∈ (fun x => id (nbr x)) <$> p) ->
  size buf = (size (id_buf_map s) + length p)%nat ->
  (forall i b, (b <= slots)%nat -> live s i b -> live (taken t s q buf) i b) /\
  (forall i, i ∈ (fun x => id (nbr x)) <$> p -> live (taken t s q buf) i max_width).
Proof.
  intros Hs Eq Hfin Hbuf Hdom Hsz. pose proof (flight_slots_NoDup s Hs) as Hnd.
  destruct (complete_sectors_spec t (sectors s) _ Hnd) as [Hsec _].
  pose proof (complete_ids t (on_flight_ios s)) as Hids. rewrite Eq, fmap_app in Hids.
  assert (forall i, i ∈ (fun x => id (nbr x)) <$> p -> id_buf_map s !! i = None) as Hnew.
  { intros i Hi. apply (ii_disj _ Hs). unfold flight_ids. rewrite <- Hids. set_solver. }
  split.
  - intros i b Hb Hl. destruct (live_slot s i b Hs Hl Hb) as (r & loc & L1 & L2). pose proof Hl as (r' & loc' & K1 & K2 & K3 & K4).
    rewrite L1 in K1. injection K1 as Er <-. exists r', loc. simpl. rewrite <- Er, Hsec by done. rewrite <- Er in K4.
    split_and!; [|lia|done|done]. destruct (buf !! i) as [v|] eqn:E.
    + destruct (Hbuf i v E) as [E'|(x & Hx & <- & _)]; [congruence|]. rewrite Hnew in L1; [done|].
      by apply (list_elem_of_fmap_2 (fun x => id (nbr x))).
    + assert (is_Some (buf !! i)) as [? ?] by (apply Hdom; left; by rewrite L1). congruence.
  - intros i Hi. assert (is_Some (buf !! i)) as [v Hv] by (apply Hdom; by right).
    destruct (Hbuf i v Hv) as [E|(x & Hx & Hid & ->)]; [by rewrite Hnew in E|].
    pose proof (complete_ok t (sectors s) _ Hnd (ii_flight _ Hs)) as Hok. rewrite Eq in Hok. apply Forall_app in Hok as [Hok _].
    rewrite Forall_forall in Hok, Hfin. destruct (Hok x Hx) as [_ Hdata]. specialize (Hdata (Hfin x Hx)).
    apply list_elem_of_lookup in Hx as (k & Hk). pose proof (lookup_lt_Some _ _ _ Hk) as Hkl.
    pose proof (complete_slots t (on_flight_ios s)) as Hss. rewrite Eq, (ii_slots _ Hs) in Hss.
    apply (f_equal (fun l => l !! k)) in Hss. rewrite !list_lookup_fmap, lookup_app_l, Hk in Hss by done.
    pose proof (f_equal length Eq) as Hlen. rewrite length_fmap, length_app in Hlen.
    rewrite lookup_seq_lt in Hss by lia. simpl in Hss. injection Hss as Hslot.
    exists (size (id_buf_map s) + k)%nat, (io_loc x). simpl. rewrite <- Hslot. pose proof (ii_window _ Hs). pose proof (ii_count _ Hs).
    split_and!; [done | lia | lia | done].
Qed.

Lemma poll_all_spec t s : io_inv s -> retset (ps s) <> [] ->
  exists s' a b p, poll_all t s = Ok (s', a, b) /\ io_inv s' /\ polls t p s s'.
Proof.
  intros Hs Hne. unfold poll_all.
  destruct (lookup_lt_is_Some_2 (retset (ps s)) (length (retset (ps s)) - 1)) as [w Hw].
  { destruct (retset (ps s)); [done | simpl; lia]. }
  rewrite (at_Ok _ _ _ Hw). cbn [mbind outcome_bind].
  destruct (pop_finished (distance w) (complete_io t <$> on_flight_ios s) (id_buf_map s) 0 0) as [[[q buf] a] b] eqn:E.
  pose proof (complete_ids t (on_flight_ios s)) as Hids. pose proof (complete_slots t (on_flight_ios s)) as Hsl.
  destruct (pop_finished_spec _ _ _ _ _ _ _ _ _ E) as (p & Eq & Hp & Hwait & Hbuf & Hdom & Hsz).
  { rewrite Hids. by apply (StronglySorted_NoDup Z.lt), (ii_order _ Hs). }
  { intros x Hx. apply (ii_disj _ Hs). unfold flight_ids. rewrite <- Hids. by apply (list_elem_of_fmap_2 (fun x => id (nbr x))). }
  fold (taken t s q buf). eexists _, a, b, _. split; [done|]. split; [by apply (taken_inv t s p)|].
  destruct (taken_live t s p q buf Hs Eq Hp Hbuf Hdom Hsz) as [L1 L2].
  constructor; try done; unfold flight_ids; simpl.
  - rewrite <- Hids, Eq. apply fmap_app.
  - intros Hnil. apply fmap_nil_inv in Hnil as ->. rewrite Eq in Hsl. split; [done|]. intros x Hx.
    specialize (Hwait eq_refl (complete_io t x)). rewrite head_lookup, list_lookup_fmap, <- head_lookup, Hx in Hwait.
    specialize (Hwait eq_refl). simpl in Hwait. by apply orb_false_iff in Hwait as [_ ?].
Qed.

Lemma tune_width_spec a b s : 0 < beam_width ->
  0 < cur_beam_width s <= Z.of_nat max_width -> 0 < cur_beam_width (tune_width a b s) <= Z.of_nat max_width /\ ps (tune_width a b s) = ps s /\ n_ios (tune_width a b s) = n_ios s /\
  on_flight_ios (tune_width a b s) = on_flight_ios s /\ id_buf_map (tune_width a b s) = id_buf_map s /\
  sectors (tune_width a b s) = sectors s.
Proof.
  intros Hb Hw. unfold tune_width. destruct (_ && _); [|done]. simpl. split_and!; try done; destruct (few_wasted _ _); unfold max_width in *; lia.
Qed.

(** ** The invariant of the search

    Every candidate that was sent is in flight or has arrived; the expanded
    ones are marked; and when something is in flight, the last request is
    still in the pool or a candidate was not sent yet, so the loop goes on. *)
Record pipe_inv (s : pstate) : Prop := {
  pi_io : io_inv s;
  pi_search : exists pend, search_inv (known st) (is_exact g st m exact_dist) pend (ps s) /\
    forall i, i ∈ (id <$> full_retset (ps s)) ++ pend <-> sent s i;
  pi_arrived : forall i, i ∈ id <$> full_retset (ps s) -> is_Some (id_buf_map s !! i);
  pi_visited : forall x, x ∈ retset (ps s) -> visited x = true <-> id x ∈ id <$> full_retset (ps s);
  pi_width : 0 < cur_beam_width s <= Z.of_nat max_width;
  pi_top : pool_top pq_dist L (ps s);
  pi_closed : expanded_closed g st m (ps s);
  pi_wake : forall y, last (flight_ids s) = Some y ->
    y ∈ id <$> retset (ps s) \/ exists x, x ∈ retset (ps s) /\ flag x = true;
}.

(** A change of the requests and of the width alone. *)
Lemma pipe_inv_io s s' : pipe_inv s -> io_inv s' -> ps s' = ps s -> 0 < cur_beam_width s' <= Z.of_nat max_width ->
  (forall i, sent s' i <-> sent s i) -> (forall i, is_Some (id_buf_map s !! i) -> is_Some (id_buf_map s' !! i)) ->
  (forall y, last (flight_ids s') = Some y -> last (flight_ids s) = Some y) -> pipe_inv s'.
Proof.
  intros [H1 (pend & H2 & H3) H4 H5 H6 H7 H8 H9] Hio Hps Hw Hsent Hmap Hlast.
  constructor; rewrite ?Hps; try done.
  - exists pend. split; [done|]. intros i. by rewrite H3, Hsent.
  - intros i Hi. by apply Hmap, H4.
  - intros y Hy. by apply H9, Hlast.
Qed.

Lemma polls_inv t p s s' : pipe_inv s -> io_inv s' -> polls t p s s' -> pipe_inv s'.
Proof.
  intros Hs Hio [P W N F M _ _ _]. apply (pipe_inv_io s); try done.
  - rewrite W. apply (pi_width _ Hs).
  - intros i. unfold sent. rewrite M, F. set_solver.
  - intros i Hi. apply M. by left.
  - intros y Hy. rewrite F. destruct (flight_ids s') as [|z q _] using rev_ind; [done|].
    rewrite last_snoc in Hy. by rewrite app_assoc, last_snoc.
Qed.

(** An arrived candidate that is still to be expanded is in its buffer: since it
    was sent, at most [max_width] requests were sent before it arrived, and
    then one for each of the closer candidates that were expanded ([c] more
    inside an iteration). *)
Definition pool_live (c : nat) (s : pstate) : Prop :=
  forall k x, retset (ps s) !! k = Some x -> visited x = false -> is_Some (id_buf_map s !! id x) ->
    live s (id x) (max_width + n_visited (take k (retset (ps s))) + c).

Lemma pool_rank s k x : pipe_inv s -> retset (ps s) !! k = Some x -> (n_visited (take k (retset (ps s))) < L)%nat.
Proof.
  intros Hs Hk. pose proof (n_visited_le (take k (retset (ps s)))) as H. rewrite length_take in H.
  pose proof (lookup_lt_Some _ _ _ Hk). destruct (pi_top _ Hs). lia.
Qed.

Lemma polls_live t p s s' : pipe_inv s -> polls t p s s' -> pool_live 0 s -> pool_live 0 s'.
Proof.
  intros Hs P Hl k x. rewrite (pl_ps _ _ _ _ P). intros Hk Hv [Ha|Ha]%(pl_map _ _ _ _ P).
  - pose proof (pool_rank s k x Hs Hk). pose proof Hslots. apply (pl_live _ _ _ _ P); [lia | by apply Hl].
  - eapply live_le; [|by apply (pl_new _ _ _ _ P)]. lia.
Qed.

Lemma n_visited_mark f (l : list (Neighbor D)) k : n_visited (take k (mark f <$> l)) = n_visited (take k l).
Proof.
  rewrite <- fmap_take. generalize (take k l). clear. intros l. unfold n_visited.
  induction l as [|x l IH]; [done|]. rewrite fmap_cons, !filter_cons, mark_visited. case_decide; simpl; by rewrite IH.
Qed.

(** Sending keeps the invariant. *)
Lemma send_inv n s : pipe_inv s -> (length (on_flight_ios s) + n <= max_width)%nat -> pool_live 0 s -> (n <= 1)%nat ->
  exists f s', send_best_read_req n s = Ok s' /\ pipe_inv s' /\ pool_live 1 s' /\ chosen f (retset (ps s)) /\
    flight_ids s' = flight_ids s ++ f /\ id_buf_map s' = id_buf_map s /\
    retset (ps s') = mark f <$> retset (ps s) /\ full_retset (ps s') = full_retset (ps s) /\
    (on_flight_ios s = [] -> (0 < n)%nat -> (exists x, x ∈ retset (ps s) /\ flag x = true) -> f <> []).
Proof.
  intros Hinv Hn Hlive H1. pose proof Hinv as [Hio (pend & Hs & Hsent) Ha Hv Hw Ht Hc Hwk]. unfold send_best_read_req.
  destruct (send_best_spec (retset (ps s)) n s Hio) as (f & s1 & -> & Hio1 & S1 & [C1 C2] & Hfn & Hprog); [| | |done|].
  { intros x Hx. by apply (sv_known _ _ Hs), (sv_visited _ _ Hs), list_elem_of_fmap_2. }
  { apply (sv_nodup _ _ Hs). }
  { intros x Hx Hfx Hsx%Hsent. by apply (sv_new _ _ Hs x Hx Hfx). }
  pose proof (sends_ids _ _ _ S1) as Hids. pose proof (fun i => sends_sent _ _ _ i S1) as Hsi. destruct S1 as [P1 M1 W1 _ L1].
  cbn [mbind outcome_bind]. eexists f, _. split; [done|]. rewrite P1. split; [constructor; simpl; try done|].
  - destruct Hio1. by constructor.
  - exists (f ++ pend). split; [by apply search_inv_mark|]. intros i. unfold sent in *. simpl in *. rewrite M1 in *.
    specialize (Hsi i). specialize (Hsent i). unfold flight_ids in *. simpl. rewrite Hsi, <- Hsent. set_solver.
  - intros i Hi. rewrite M1. by apply Ha.
  - intros x (y & -> & Hy)%list_elem_of_fmap. rewrite mark_visited. destruct (mark_place f y) as [-> _]. by apply Hv.
  - by rewrite W1.
  - destruct Ht as [T1 T2 T3 T4]. constructor; simpl; rewrite ?length_fmap, ?mark_ids; try done.
    + intros x (y & -> & Hy)%list_elem_of_fmap. destruct (mark_place f y) as [-> ->]. by apply T3.
    + intros j Hj. destruct (T4 j Hj) as [?|[? Hf]]; [by left | right]. split; [done|].
      intros x (y & -> & Hy)%list_elem_of_fmap. destruct (mark_place f y) as [_ ->]. by apply Hf.
  - intros y. unfold flight_ids in *. simpl. rewrite Hids, mark_ids. destruct f as [|z f _] using rev_ind.
    + rewrite app_nil_r. rewrite mark_nil. apply Hwk.
    + rewrite app_assoc, last_snoc. intros [= ->]. left. destruct (C2 y) as (x & Hx & <- & _); [set_solver|].
      by apply list_elem_of_fmap_2.
  - split_and!; try done. intros k x Hk Hvx Hax. simpl in *. rewrite n_visited_mark.
    rewrite list_lookup_fmap in Hk. destruct (retset (ps s) !! k) as [y|] eqn:Ey; [|done]. injection Hk as <-.
    rewrite mark_visited in Hvx. destruct (mark_place f y) as [Hid _]. rewrite Hid, M1 in *.
    pose proof (pool_rank s k y Hinv Ey). pose proof Hslots.
    eapply (live_le _ _ (max_width + n_visited (take k (retset (ps s))) + 0 + length f)); [lia|].
    apply (L1 (id y)); [by apply Hlive | lia].
Qed.

(** ** Expansion *)
Lemma first_pos_spec p : forall l,
  match first_pos p l with
  | Some k => exists x, l !! k = Some x /\ p x = true /\ forall i y, l !! i = Some y -> (i < k)%nat -> p y = false
  | None => forall x, x ∈ l -> p x = false
  end.
Proof using Type.
  clear Hslots.
  induction l as [|x l IH]; simpl; [by intros x ?%elem_of_nil|]. destruct (p x) eqn:E; [exists x; split_and!; try done; lia|].
  destruct (first_pos p l); simpl.
  - destruct IH as (y & Hy & Ep & Hlt). exists y. split_and!; try done. intros [|i] z Hz Hi; [by simplify_eq/=|]. apply (Hlt i z Hz). lia.
  - intros y [->|?]%elem_of_cons; auto.
Qed.

Lemma arrived_node s i b : io_inv s -> live s i b ->
  exists j loc n, id_buf_map s !! i = Some (j, loc) /\ buffered_node s j loc = Ok n /\ read_node g st m i = Ok n.
Proof.
  intros Hs (r & loc & Hi & _ & _ & Hsec). pose proof (ii_map _ Hs i _ Hi) as Hl. unfold buffered_node.
  do 3 eexists. split; [done|]. rewrite Hsec. split; [done|]. unfold read_node, id2loc, find, find_fn. rewrite Hl. cbn [mbind outcome_bind snd].
  by rewrite req_offset_node by eauto.
Qed.

(** The entry at position [k] becomes an expanded one. *)
Definition visit (x : Neighbor D) : Neighbor D := {| id := id x; distance := distance x; flag := false; visited := true |}.

Lemma visit_elem l k x z : NoDup (id <$> l) -> l !! k = Some x ->
  z ∈ <[k := visit x]> l -> z = visit x \/ z ∈ l /\ id z <> id x.
Proof.
  intros Hnd Hk (j & Hj)%list_elem_of_lookup. pose proof (lookup_lt_Some _ _ _ Hk).
  destruct (decide (j = k)) as [->|Hne]; [rewrite list_lookup_insert_eq in Hj by done; left; congruence|].
  rewrite list_lookup_insert_ne in Hj by done. right. split; [by eapply list_elem_of_lookup_2|]. intros E. apply Hne.
  apply (NoDup_lookup (id <$> l) j k (id x)); [done | by rewrite list_lookup_fmap, Hj, <- E | by rewrite list_lookup_fmap, Hk].
Qed.

Lemma visit_ids (l : list (Neighbor D)) k x : l !! k = Some x -> id <$> <[k := visit x]> l = id <$> l.
Proof. intros Hk. rewrite list_fmap_insert. apply list_insert_id. by rewrite list_lookup_fmap, Hk. Qed.

Lemma visit_rank (l : list (Neighbor D)) k k' x : l !! k = Some x -> visited x = false -> (k < k')%nat ->
  n_visited (take k' (<[k := visit x]> l)) = S (n_visited (take k' l)).
Proof using Type.
  intros Hk Hv Hlt. pose proof (lookup_lt_Some _ _ _ Hk) as Hl. rewrite <- (take_drop_middle l k x Hk) at 2.
  rewrite insert_take_drop by done.
  assert (forall y : Neighbor D, take k' (take k l ++ y :: drop (S k) l) = take k l ++ y :: take (k' - k - 1) (drop (S k) l)) as E.
  { intros y. rewrite take_app, take_take, length_take, !Nat.min_r by (clear -Hlt Hl; lia). f_equal.
    rewrite Nat.min_l by (clear -Hlt Hl; lia). by destruct (k' - k)%nat eqn:E; [clear -E Hlt; lia|]; simpl; rewrite Nat.sub_0_r. }
  rewrite !E, !n_visited_app. unfold n_visited at 2 4. rewrite !filter_cons. simpl. rewrite Hv. simpl. clear. lia.
Qed.

Lemma visit_places (l : list (Neighbor D)) k x : l !! k = Some x -> Forall2 same_place l (<[k := visit x]> l).
Proof.
  intros Hk. apply Forall2_same_length_lookup_2; [by rewrite length_insert|]. intros j y z Hy Hz.
  destruct (decide (j = k)) as [->|Hne].
  - rewrite list_lookup_insert_eq in Hz by (by eapply lookup_lt_Some). simplify_eq. done.
  - rewrite list_lookup_insert_ne in Hz by done. simplify_eq. done.
Qed.

Lemma visit_search_inv P Q pend (p : pool_state) k x : search_inv P Q pend p -> retset p !! k = Some x -> flag x = false ->
  search_inv P Q pend (set_pool (<[k := visit x]> (retset p)) p).
Proof.
  intros [H1 H2 H3 H4 H5 H6 H7 H8 H9 H10] Hk Hf. pose proof (list_elem_of_lookup_2 _ _ _ Hk) as Hx.
  constructor; simpl; rewrite ?(visit_ids _ _ _ Hk); try done.
  - intros E. apply (f_equal length) in E. rewrite length_insert in E. by destruct (retset p).
  - by eapply same_place_sorted, H2; apply visit_places.
  - intros z [->|[Hz _]]%(visit_elem _ _ _ _ H3 Hk) Hfz; [by apply (H6 x) | by apply H6].
  - intros z [->|[Hz _]]%(visit_elem _ _ _ _ H3 Hk) Hfz; [done | by apply H7].
Qed.

Lemma visit_pool_top (p : pool_state) k x : pool_top pq_dist L p -> NoDup (id <$> retset p) -> retset p !! k = Some x ->
  pool_top pq_dist L (set_pool (<[k := visit x]> (retset p)) p).
Proof.
  intros [T1 T2 T3 T4] Hnd Hk. pose proof (list_elem_of_lookup_2 _ _ _ Hk) as Hx.
  constructor; simpl; rewrite ?length_insert, ?(visit_ids _ _ _ Hk); try done.
  - intros z [->|[Hz _]]%(visit_elem _ _ _ _ Hnd Hk); [by apply (T3 x) | by apply T3].
  - intros j Hj. destruct (T4 j Hj) as [?|[? Hf]]; [by left | right]. split; [done|].
    intros z [->|[Hz _]]%(visit_elem _ _ _ _ Hnd Hk); [by apply (Hf x) | by apply Hf].
Qed.

(** One expanded node: the pool after its neighbours. *)
Lemma expand_pool pend (p : pool_state) k x n :
  search_inv (known st) (is_exact g st m exact_dist) (id x :: pend) p -> pool_top pq_dist L p -> expanded_closed g st m p ->
  retset p !! k = Some x -> flag x = false -> read_node g st m (id x) = Ok n ->
  let p1 := compute_exact_dists_and_push n (id x) (set_pool (<[k := visit x]> (retset p)) p) in
  exists p' nk, compute_and_push_nbrs (nbrs n) (p1, length (retset p)) = Ok (p', nk) /\
    search_inv (known st) (is_exact g st m exact_dist) pend p' /\ pool_top pq_dist L p' /\ expanded_closed g st m p' /\
    id <$> full_retset p' = (id <$> full_retset p) ++ [id x] /\ visited_ids p ⊆ visited_ids p' /\ pool_grows p1 p'.
Proof.
  intros Hs Ht Hc Hk Hf Hn p1. pose proof (sv_nodup _ _ Hs) as Hnd.
  assert (forall j, j ∈ nbrs n -> known st j /\ j <= cur_id) as Hnb.
  { intros j Hj. assert (known st j) as Hkj by (by eapply go_nbrs). split; [done | by eapply go_range]. }
  assert (search_inv (known st) (is_exact g st m exact_dist) pend p1) as H1.
  { apply (search_inv_expand (known st) (is_exact g st m exact_dist) pend (set_pool (<[k := visit x]> (retset p)) p) (id x)); [|done|by exists n].
    by apply visit_search_inv. }
  assert (pool_top pq_dist L p1) as T1.
  { pose proof (visit_pool_top p k x Ht Hnd Hk) as []. by constructor. }
  destruct (expand_neighbors_spec cur_id pq_dist (known st) (is_exact g st m exact_dist) pend (nbrs n) p1 (length (retset p)) H1 Hnb)
    as (p' & nk & E & H2 & [V _ _ _] & F).
  destruct (pool_top_neighbors cur_id pq_dist L _ _ pend _ _ _ _ _ H1 T1 Hnb E) as (T2 & _ & W).
  pose proof (expand_neighbors_grows cur_id pq_dist L _ _ pend _ _ _ _ _ H1 T1 Hnb E) as Hgr.
  exists p', nk. rewrite (compute_and_push_nbrs_seq cur_id) by (intros j Hj; by apply Hnb).
  assert (id <$> full_retset p' = (id <$> full_retset p) ++ [id x]) as Ef by (rewrite F; simpl; by rewrite fmap_app).
  split_and!; try done. intros i nd j. rewrite Ef, elem_of_app, list_elem_of_singleton.
  intros [Hi| ->] Hnd' Hj; [by apply V; apply (Hc i nd j) | rewrite Hn in Hnd'; simplify_eq; by apply W].
Qed.

(** What an expansion leaves alone. *)
Definition same_io (s s' : pstate) : Prop :=
  on_flight_ios s' = on_flight_ios s /\ id_buf_map s' = id_buf_map s /\ n_ios s' = n_ios s /\ cur_beam_width s' = cur_beam_width s.

Lemma expand_best_None s : (forall x, x ∈ retset (ps s) -> negb (visited x) && arrived s x = false) -> expand_best s = Ok s.
Proof.
  intros H. unfold expand_best. pose proof (first_pos_spec (fun x => negb (visited x) && arrived s x) (retset (ps s))) as Hf.
  destruct (first_pos _ _) as [k|]; [|done]. destruct Hf as (x & Hx & E & _). apply list_elem_of_lookup_2 in Hx. by rewrite H in E.
Qed.

(** The invariant after an expansion. *)
Lemma expanded_inv s p' k x n pend' : pipe_inv s -> retset (ps s) !! k = Some x -> is_Some (id_buf_map s !! id x) ->
  search_inv (known st) (is_exact g st m exact_dist) pend' p' ->
  (forall i, i ∈ (id <$> full_retset (ps s)) ++ id x :: pend' <-> sent s i) ->
  pool_top pq_dist L p' -> expanded_closed g st m p' -> id <$> full_retset p' = (id <$> full_retset (ps s)) ++ [id x] ->
  pool_grows (compute_exact_dists_and_push n (id x) (set_pool (<[k := visit x]> (retset (ps s))) (ps s))) p' ->
  pipe_inv (set_ps p' s).
Proof.
  intros [Hio (pend & Hs & Hsent) Ha Hv Hw Ht Hc Hwk] Hk Hb Hs' Hsent' Ht' Hc' Hfull [G1 G2].
  pose proof (list_elem_of_lookup_2 _ _ _ Hk) as Hx. constructor; simpl; try done.
  - destruct Hio. by constructor.
  - exists pend'. split; [done|]. intros i. change (sent (set_ps p' s) i) with (sent s i). rewrite <- Hsent', Hfull. set_solver.
  - intros i. rewrite Hfull, elem_of_app, list_elem_of_singleton. intros [Hi| ->]; [by apply Ha | done].
  - intros y (i & Hi)%list_elem_of_lookup. rewrite Hfull, elem_of_app, list_elem_of_singleton.
    destruct (G1 i y Hi) as [(j & Hy1%list_elem_of_lookup_2 & _)|(_ & -> & Hyv)].
    + simpl in Hy1. destruct (visit_elem _ _ _ _ (sv_nodup _ _ Hs) Hk Hy1) as [->|[Hyr Hne]]; [simpl; naive_solver|].
      rewrite (Hv y Hyr). naive_solver.
    + split; [done|]. intros [Hi'| Hi']; exfalso; apply Hyv; simpl; [|rewrite Hi'; by apply (sv_visited _ _ Hs), list_elem_of_fmap_2].
      apply (sv_done _ _ Hs). set_solver.
  - intros y Hy. change (flight_ids (set_ps p' s)) with (flight_ids s) in Hy. destruct G2 as [E|?]; [|by right].
    rewrite E. simpl. rewrite (visit_ids _ _ _ Hk). destruct (Hwk y Hy) as [?|(z & Hz & Hzf)]; [by left | right].
    exists z. split; [|done]. apply list_elem_of_lookup in Hz as (i & Hi). apply list_elem_of_lookup. exists i.
    destruct (decide (i = k)) as [->|]; [|by rewrite list_lookup_insert_ne].
    exfalso. rewrite Hi in Hk. injection Hk as ->. apply (sv_new _ _ Hs x Hx Hzf), Hsent. by right.
Qed.

(** The other arrived candidates move no closer than the expansion allows. *)
Lemma expand_live s p' k x n : pipe_inv s -> pool_live 1 s -> retset (ps s) !! k = Some x -> visited x = false ->
  (forall i y, retset (ps s) !! i = Some y -> (i < k)%nat -> visited y = false -> is_Some (id_buf_map s !! id y) -> False) ->
  pool_grows (compute_exact_dists_and_push n (id x) (set_pool (<[k := visit x]> (retset (ps s))) (ps s))) p' ->
  pool_live 0 (set_ps p' s).
Proof.
  intros Hs Hlive Hk Hv Hfirst [G1 _] i y. simpl. intros Hy Hvy Hay.
  destruct (pi_search _ Hs) as (pend & Hsi & Hsent).
  destruct (G1 i y Hy) as [(i0 & Hi0 & En)|(_ & _ & Hnv)]; simpl in *.
  2: { destruct Hnv. apply (sv_done _ _ Hsi), Hsent. by right. }
  destruct (decide (i0 = k)) as [->|Hne].
  { rewrite list_lookup_insert_eq in Hi0 by (by eapply lookup_lt_Some). injection Hi0 as <-. done. }
  rewrite list_lookup_insert_ne in Hi0 by done.
  assert (k < i0)%nat as Hlt.
  { destruct (decide (i0 < k)%nat) as [H|]; [by destruct (Hfirst i0 y Hi0 H Hvy Hay) | lia]. }
  rewrite En, (visit_rank _ _ _ _ Hk Hv Hlt). destruct (Hlive i0 y Hi0 Hvy Hay) as (r & loc & L1 & L2 & L3 & L4).
  exists r, loc. simpl. split_and!; try done. lia.
Qed.

Lemma expand_inv_Some s : pipe_inv s -> pool_live 1 s -> (exists x, x ∈ retset (ps s) /\ negb (visited x) && arrived s x = true) ->
  exists s', expand_best s = Ok s' /\ pipe_inv s' /\ pool_live 0 s' /\ same_io s s' /\
    length (full_retset (ps s')) = S (length (full_retset (ps s))).
Proof.
  intros Hinv Hlive (x0 & Hx0 & E0). unfold expand_best.
  pose proof (first_pos_spec (fun x => negb (visited x) && arrived s x) (retset (ps s))) as Hf.
  destruct (first_pos _ _) as [k|]; [|by rewrite (Hf x0 Hx0) in E0]. clear x0 Hx0 E0. destruct Hf as (x & Hk & E & Hfirst).
  apply andb_true_iff in E as [Ev Ea]. apply negb_true_iff in Ev. apply bool_decide_eq_true_1 in Ea.
  rewrite (at_Ok _ _ _ Hk). cbn [mbind outcome_bind]. fold (visit x).
  destruct (arrived_node s (id x) _ (pi_io _ Hinv) (Hlive k x Hk Ev Ea)) as (j & loc & n & Hb & En & Hn).
  rewrite Hb, En. cbn [mbind outcome_bind]. pose proof Hinv as [Hio (pend & Hs & Hsent) Ha Hv Hw Ht Hc Hwk].
  pose proof (list_elem_of_lookup_2 _ _ _ Hk) as Hx. assert (sent s (id x)) as Hsx by (by right).
  assert (flag x = false) as Hfx by (destruct (flag x) eqn:E; [by apply Hsent, (sv_new _ _ Hs x Hx E) in Hsx | done]).
  assert (id x ∉ id <$> full_retset (ps s)) as Hnf by (intros Hi%(Hv x Hx); congruence).
  assert (exists pend', pend ≡ₚ id x :: pend') as (pend' & Hp).
  { apply Hsent, elem_of_app in Hsx as [?|Hin]; [done|]. apply list_elem_of_split in Hin as (l1 & l2 & ->).
    exists (l1 ++ l2). by rewrite Permutation_middle. }
  destruct (expand_pool pend' (ps s) k x n (search_inv_perm _ _ _ _ _ Hp Hs) Ht Hc Hk Hfx Hn)
    as (p' & nk & -> & Hs' & Ht' & Hc' & Hfull & HV & HG).
  cbn [mbind outcome_bind]. exists (set_ps p' s). split; [done|]. split.
  { apply (expanded_inv s p' k x n pend'); try done. intros i. by rewrite <- Hsent, Hp. }
  split; [|split; [done|]].
  - apply (expand_live s p' k x n); try done. intros i y Hi Hlt Hvy Hay. specialize (Hfirst i y Hi Hlt).
    rewrite Hvy in Hfirst. by apply bool_decide_eq_false_1 in Hfirst.
  - simpl. apply (f_equal length) in Hfull. rewrite length_app, !length_fmap in Hfull. simpl in Hfull. lia.
Qed.

(** ** Termination

    The work that is done: requests sent, nodes arrived, nodes expanded. *)
Definition work (s : pstate) : nat := (n_ios s + size (id_buf_map s) + length (full_retset (ps s)))%nat.
Definition n_nodes : nat := size (dom (id2loc_ st)).

Lemma sent_list s pend : pipe_inv s -> search_inv (known st) (is_exact g st m exact_dist) pend (ps s) ->
  (forall i, i ∈ (id <$> full_retset (ps s)) ++ pend <-> sent s i) ->
  n_ios s = length ((id <$> full_retset (ps s)) ++ pend).
Proof.
  intros Hp Hs Hsent. rewrite (ii_count _ (pi_io _ Hp)).
  assert (flight_ids s ++ (map_to_list (id_buf_map s)).*1 ≡ₚ (id <$> full_retset (ps s)) ++ pend) as E.
  { apply NoDup_Permutation; [|apply (sv_once _ _ Hs)|].
    - apply NoDup_app. split_and!; [apply (StronglySorted_NoDup Z.lt), (ii_order _ (pi_io _ Hp)) | | apply NoDup_fst_map_to_list].
      intros i Hi ((i' & v) & -> & Hv)%list_elem_of_fmap. apply elem_of_map_to_list in Hv. simpl in Hi.
      rewrite (ii_disj _ (pi_io _ Hp) _ Hi) in Hv. done.
    - intros i. rewrite Hsent. unfold sent. rewrite elem_of_app.
      assert (i ∈ (map_to_list (id_buf_map s)).*1 <-> is_Some (id_buf_map s !! i)) as ->; [|done].
      rewrite list_elem_of_fmap. split.
      + intros ((i' & v) & -> & Hv). apply elem_of_map_to_list in Hv. by exists v.
      + intros [v Hv]. exists (i, v). split; [done|]. by apply elem_of_map_to_list. }
  apply Permutation_length in E. rewrite <- E, length_app. unfold flight_ids. rewrite !length_fmap, length_map_to_list. lia.
Qed.

Lemma NoDup_known l : NoDup l -> (forall i, i ∈ l -> known st i) -> (length l <= n_nodes)%nat.
Proof.
  intros Hnd Hl. rewrite <- (size_list_to_set (C := gset Z)) by done. apply subseteq_size.
  intros i Hi%elem_of_list_to_set%Hl. by apply elem_of_dom.
Qed.

Lemma reads_bound s : pipe_inv s -> (n_ios s <= n_nodes)%nat.
Proof.
  intros Hp. destruct (pi_search _ Hp) as (pend & Hs & Hsent). rewrite (sent_list s pend Hp Hs Hsent).
  apply NoDup_known; [apply (sv_once _ _ Hs)|]. intros i Hi. by apply (sv_known _ _ Hs), (sv_done _ _ Hs).
Qed.

Lemma work_bound s : pipe_inv s -> (work s <= 3 * n_nodes)%nat.
Proof.
  intros Hp. pose proof (reads_bound s Hp). pose proof (ii_count _ (pi_io _ Hp)). unfold work.
  destruct (pi_search _ Hp) as (pend & Hs & _). pose proof (sv_once _ _ Hs) as Hnd. apply NoDup_app in Hnd as (Hnd & _).
  pose proof (NoDup_known _ Hnd ltac:(intros i Hi; apply (sv_known _ _ Hs), (sv_done _ _ Hs); set_solver)) as Hl.
  rewrite length_fmap in Hl. lia.
Qed.

Lemma set_marker_inv k s : pipe_inv s -> pipe_inv (set_marker k s).
Proof. intros Hs. apply (pipe_inv_io s); try done; [destruct (pi_io _ Hs); by constructor | apply Hs]. Qed.

Lemma tune_inv a b s : 0 < beam_width -> pipe_inv s -> pool_live 0 s ->
  pipe_inv (tune_width a b s) /\ pool_live 0 (tune_width a b s).
Proof.
  intros Hb Hs Hlive. destruct (tune_width_spec a b s Hb (pi_width _ Hs)) as (Hw & Hps & Hn & Hf & Hm & Hsec). split.
  - apply (pipe_inv_io s); try done.
    + destruct (pi_io _ Hs). constructor; unfold flight_ids in *; by rewrite ?Hn, ?Hf, ?Hm, ?Hsec.
    + intros i. unfold sent, flight_ids. by rewrite Hf, Hm.
    + intros i. by rewrite Hm.
    + intros y. unfold flight_ids. by rewrite Hf.
  - intros k x. unfold live. rewrite Hps, Hm, Hn, Hsec. apply Hlive.
Qed.

Lemma expand_inv s : pipe_inv s -> pool_live 1 s ->
  exists s', expand_best s = Ok s' /\ pipe_inv s' /\ pool_live 0 s' /\ same_io s s' /\ (work s <= work s')%nat /\
    (work s' = work s -> s' = s /\ forall x, x ∈ retset (ps s) -> visited x = false -> arrived s x = false).
Proof.
  intros Hs Hlive. destruct (existsb (fun x => negb (visited x) && arrived s x) (retset (ps s))) eqn:E.
  - apply existsb_exists in E as (x & Hx & E). apply list_elem_of_In in Hx.
    destruct (expand_inv_Some s Hs Hlive ltac:(eauto)) as (s' & H1 & H2 & H3 & H4 & H5). exists s'.
    pose proof H4 as (F1 & F2 & F3 & F4). unfold work. rewrite F2, F3, H5. split_and!; try done; lia.
  - assert (forall x, x ∈ retset (ps s) -> negb (visited x) && arrived s x = false) as Hnone.
    { intros x Hx. apply not_true_is_false. intros Ht. apply not_true_iff_false in E. apply E, existsb_exists.
      exists x. split; [by apply list_elem_of_In | done]. }
    assert (forall x, x ∈ retset (ps s) -> visited x = false -> arrived s x = false) as Hno.
    { intros x Hx Hv. specialize (Hnone x Hx). by rewrite Hv in Hnone. }
    exists s. split_and!; try done; [by apply expand_best_None|]. intros k x Hk Hv Ha.
    specialize (Hno x (list_elem_of_lookup_2 _ _ _ Hk) Hv). by apply bool_decide_eq_false_1 in Hno.
Qed.

Lemma send_one_inv s : pipe_inv s -> pool_live 0 s ->
  exists s', (if Z.of_nat (length (on_flight_ios s)) <? cur_beam_width s then send_best_read_req 1 s else Ok s) = Ok s' /\
    pipe_inv s' /\ pool_live 1 s' /\ id_buf_map s' = id_buf_map s /\ (work s <= work s')%nat /\
    (work s' = work s -> length (on_flight_ios s') = length (on_flight_ios s) /\
       (forall x, x ∈ retset (ps s) -> visited x = false -> exists x', x' ∈ retset (ps s') /\ id x' = id x /\ visited x' = false) /\
       (on_flight_ios s = [] -> forall x, x ∈ retset (ps s) -> flag x = false)).
Proof.
  intros Hs Hlive. destruct (Z.ltb_spec (Z.of_nat (length (on_flight_ios s))) (cur_beam_width s)) as [Hlt|Hge].
  - pose proof (pi_width _ Hs) as Hw.
    destruct (send_inv 1 s Hs ltac:(lia) Hlive ltac:(lia)) as (f & s' & -> & Hs' & Hlive' & _ & Hfl & Hm & Hr & Hfu & Hprog).
    pose proof (ii_count _ (pi_io _ Hs)) as C. pose proof (ii_count _ (pi_io _ Hs')) as C'.
    pose proof (f_equal length Hfl) as Hlen. unfold flight_ids in Hlen. rewrite length_app, !length_fmap in Hlen.
    exists s'. unfold work. rewrite Hm, Hfu in *. split_and!; try done; [lia|]. intros E.
    assert (f = []) as -> by (destruct f; [done | simpl in Hlen; lia]). split_and!; [simpl in Hlen; lia | |].
    + intros x Hx Hv. exists x. by rewrite Hr, mark_nil.
    + intros E0 x Hx. destruct (flag x) eqn:Ef; [|done]. by destruct (Hprog E0 ltac:(lia) ltac:(eauto)).
  - exists s. split_and!; try done.
    { intros k x Hk Hv Ha. eapply live_le; [|by apply Hlive]. lia. }
    intros _. split_and!; try done; [by eauto|].
    intros E. rewrite E in Hge. simpl in Hge. pose proof (pi_width _ Hs). lia.
Qed.

(** One iteration of the loop: it does not crash, and when it gets no work done
    the first request in flight has not finished. *)
Lemma pipe_step_spec t s : 0 < beam_width -> pipe_inv s -> pool_live 0 s -> unvisited_left s = true ->
  exists s', pipe_step t s = Ok s' /\ pipe_inv s' /\ pool_live 0 s' /\ (work s <= work s')%nat /\
    (work s' = work s -> slot <$> on_flight_ios s' = slot <$> on_flight_ios s /\
       exists y, head (on_flight_ios s) = Some y /\ arrives t (slot y) = false).
Proof.
  intros Hb Hs Hlive Hun. unfold pipe_step. destruct (pi_search _ Hs) as (pend & Hsi & Hsent).
  destruct (poll_all_spec t s (pi_io _ Hs) (sv_nonempty _ _ Hsi)) as (s1 & a & b & p & -> & Hio1 & P).
  cbn [mbind outcome_bind]. pose proof (polls_inv t p s s1 Hs Hio1 P) as Hs1. pose proof (polls_live t p s s1 Hs P Hlive) as Hl1.
  destruct P as [P1 P2 P3 P4 P5 _ _ P6]. destruct (tune_inv a b s1 Hb Hs1 Hl1) as [Hs2 Hl2].
  destruct (tune_width_spec a b s1 Hb (pi_width _ Hs1)) as (_ & T1 & T2 & T3 & T4 & _). set (s2 := tune_width a b s1) in *.
  destruct (send_one_inv s2 Hs2 Hl2) as (s3 & -> & Hs3 & Hl3 & S2 & S4 & S5). cbn [mbind outcome_bind].
  destruct (expand_inv s3 Hs3 Hl3) as (s4 & E4 & Hs4 & Hl4 & (F1 & F2 & F3 & F4) & F5 & F6). unfold calc_best_node. rewrite E4.
  cbn [mbind outcome_bind]. eexists. split; [done|]. split; [by apply set_marker_inv|]. split; [done|].
  pose proof (ii_count _ (pi_io _ Hs)) as C. pose proof (ii_count _ Hio1) as C1. pose proof (f_equal length P4) as Hl.
  unfold flight_ids in Hl. rewrite length_app, !length_fmap in Hl.
  assert (work s2 = work s + length p)%nat as W2 by (unfold work; rewrite T1, T2, T4, P1; lia).
  change (work (set_marker (Nat.max (max_marker s4) _) s4)) with (work s4). split; [lia|]. intros E.
  destruct p as [|i p]; [clear W2 | simpl in W2; lia]. destruct (P6 eq_refl) as [Psl Phd].
  assert (work s2 = work s) as W2 by (unfold work; rewrite T1, T2, T4, P1; simpl in Hl; lia).
  destruct (S5 ltac:(lia)) as (S6 & S7 & S8). destruct (F6 ltac:(lia)) as (-> & F7).
  split; [cbn [set_marker on_flight_ios]; by rewrite (ii_slots _ (pi_io _ Hs3)), S2, S6, <- (ii_slots _ (pi_io _ Hs2)), T3|].
  destruct (on_flight_ios s) as [|y r] eqn:Eq; [exfalso | exists y; split; [done | by apply Phd]].
  apply existsb_exists in Hun as (x & Hx & Hv). apply list_elem_of_In in Hx. apply negb_true_iff in Hv.
  assert (on_flight_ios s1 = []) as E1 by (destruct (on_flight_ios s1); done).
  assert (flag x = false) as Hfx by (apply S8; [congruence | by rewrite T1, P1]).
  destruct (S7 x) as (x' & Hx' & Hid & Hv'); [by rewrite T1, P1 | done |].
  pose proof (F7 x' Hx' Hv') as Ha. apply bool_decide_eq_false_1 in Ha. apply Ha. rewrite Hid, S2, T4. apply P5. left.
  destruct (proj1 (Hsent (id x)) (sv_old _ _ Hsi x Hx Hfx)) as [Hf|?]; [|done].
  unfold flight_ids in Hf. rewrite Eq in Hf. by apply elem_of_nil in Hf.
Qed.

(** Every buffer's request finishes within [d] polls. *)
Definition fair (d : nat) : Prop := forall t j, exists k, (k <= d)%nat /\ arrives (t + k)%nat j = true.

Lemma pipe_loop_spec d : 0 < beam_width -> fair d ->
  forall fuel A w t s, pipe_inv s -> pool_live 0 s -> (3 * n_nodes - work s <= A)%nat ->
  (exists k, (k <= w)%nat /\ forall y, head (on_flight_ios s) = Some y -> arrives (t + k)%nat (slot y) = true) ->
  (A * S d + w < fuel)%nat ->
  exists s', pipe_loop fuel t s = Ok s' /\ pipe_inv s' /\ unvisited_left s' = false.
Proof.
  intros Hb Hfair. induction fuel as [|fuel IH]; intros A w t s Hs Hlive HA (k & Hk & Hhd) Hf; [lia|]. cbn [pipe_loop].
  destruct (unvisited_left s) eqn:Hun; [|by exists s].
  destruct (pipe_step_spec t s Hb Hs Hlive Hun) as (s1 & -> & Hs1 & Hl1 & Hw & Hsame). cbn [mbind outcome_bind].
  pose proof (work_bound s1 Hs1) as Hwb. destruct (decide (work s1 = work s)) as [Ew|Ew].
  - destruct (Hsame Ew) as (Hsl & y & Hy & Hya). destruct k as [|k].
    { rewrite Nat.add_0_r in Hhd. by rewrite (Hhd y Hy) in Hya. }
    apply (IH A (w - 1)%nat (S t) s1 Hs1 Hl1); [lia | | lia]. exists k. split; [lia|]. intros z Hz.
    destruct (on_flight_ios s1) as [|z' q1], (on_flight_ios s) as [|y' q]; try done.
    injection Hz as <-. injection Hsl as -> _. replace (S t + k)%nat with (t + S k)%nat by lia. by apply Hhd.
  - apply (IH (A - 1)%nat d (S t) s1 Hs1 Hl1); [lia | | nia].
    destruct (on_flight_ios s1) as [|z q]; [exists 0%nat; split; [lia | done]|]. destruct (Hfair (S t) (slot z)) as (j & Hj & Ha).
    exists j. split; [done|]. by intros ? [= <-].
Qed.

(** When every candidate was expanded nothing is in flight. *)
Lemma quiescent s : pipe_inv s -> unvisited_left s = false -> on_flight_ios s = [] /\
  forall x, x ∈ retset (ps s) -> id x ∈ id <$> full_retset (ps s).
Proof.
  intros Hs Hun. assert (forall x, x ∈ retset (ps s) -> id x ∈ id <$> full_retset (ps s)) as Hall.
  { intros x Hx. apply (pi_visited _ Hs x Hx). destruct (visited x) eqn:E; [done|]. apply not_true_iff_false in Hun.
    destruct Hun. apply existsb_exists. exists x. split; [by apply list_elem_of_In | by rewrite E]. }
  split; [|done]. destruct (on_flight_ios s) as [|y q _] eqn:E using rev_ind; [done|exfalso].
  assert (id (nbr y) ∈ flight_ids s) as Hfl by (unfold flight_ids; rewrite E, fmap_app; set_solver).
  destruct (pi_search _ Hs) as (pend & Hsi & _). destruct (pi_wake _ Hs (id (nbr y))) as [Hin|(x & Hx & Hfx)].
  - unfold flight_ids. by rewrite E, fmap_app, list_fmap_singleton, last_snoc.
  - apply list_elem_of_fmap in Hin as (x & Hid & Hx). pose proof (pi_arrived _ Hs (id x) (Hall x Hx)) as Ha.
    rewrite <- Hid, (ii_disj _ (pi_io _ Hs) _ Hfl) in Ha. by destruct Ha.
  - apply (sv_new _ _ Hsi x Hx Hfx). apply elem_of_app. left. by apply Hall.
Qed.

(** ** The start *)
(** The arguments of a search: distinct known entries; without the index in
    memory there is one entry, the medoid with its approximate distance. *)
Record entries_ok (mem : bool) (entries : list (Z * D)) : Prop := {
  en_nonempty : entries <> [];
  en_nodup : NoDup entries.*1;
  en_known : forall i, i ∈ entries.*1 -> known st i;
  en_medoid : mem = false -> exists i, entries = [(i, pq_dist i)];
}.

Lemma start_inv s f (r : list (Neighbor D)) : io_inv s -> id_buf_map s = ∅ -> flight_ids s = f -> 0 < cur_beam_width s <= Z.of_nat max_width ->
  retset (ps s) = r -> full_retset (ps s) = [] -> visited_ids (ps s) = list_to_set (id <$> r) -> l_search (ps s) = L ->
  r <> [] -> NoDup (id <$> r) -> (forall i, i ∈ id <$> r -> known st i) -> sorted_pool r -> (length r <= L)%nat ->
  f ⊆ id <$> r ->
  (forall x, x ∈ r -> distance x = pq_dist (id x) /\ visited x = false /\ (flag x = true <-> id x ∉ f)) -> pipe_inv s.
Proof.
  intros Hio Hm Hf Hw Hr Hfull Hv HL Hne Hnd Hk Hsort Hlen Hsub Hx. constructor; rewrite ?Hr, ?Hfull; try done.
  - exists f. split; [constructor; rewrite ?Hr, ?Hfull, ?Hv; simpl; try done|].
    + intros i Hi. by apply elem_of_list_to_set.
    + intros i Hi%elem_of_list_to_set. by apply Hk.
    + intros x Hxr E. destruct (Hx x Hxr) as (_ & _ & H). destruct (decide (id x ∈ f)) as [?|n]; [done|]. by rewrite (proj2 H n) in E.
    + intros x Hxr E. by apply (Hx x Hxr).
    + rewrite <- Hf. apply (StronglySorted_NoDup Z.lt), (ii_order _ Hio).
    + intros i Hi. by apply elem_of_list_to_set, Hsub.
    + intros i. unfold sent. rewrite Hf, Hm, lookup_empty. simpl. split; [by left|]. by intros [?|[??]].
  - by intros i ?%elem_of_nil.
  - intros x Hxr. destruct (Hx x Hxr) as (_ & -> & _). split; [done|]. by intros ?%elem_of_nil.
  - constructor; rewrite ?Hr, ?Hv; try done.
    + intros x Hxr. by apply Hx.
    + intros j Hj%elem_of_list_to_set. by left.
  - intros i n j Hi. rewrite Hfull in Hi. by apply elem_of_nil in Hi.
  - intros y Hy. left. apply Hsub. rewrite <- Hf. apply last_Some in Hy as (l & ->). set_solver.
Qed.

(** The entries as the first requests are sent, and with their distances
    replaced. *)
Definition entry_nb (e : Z * D) : Neighbor D := {| id := e.1; distance := e.2; flag := true; visited := false |}.
Definition with_pq (x : Neighbor D) : Neighbor D :=
  {| id := id x; distance := pq_dist (id x); flag := flag x; visited := visited x |}.

Lemma start_entries mem entries : (0 < L)%nat -> entries_ok mem entries ->
  let es := if mem then take L entries else entries in
  es <> [] /\ (length es <= L)%nat /\ NoDup es.*1 /\ (forall i, i ∈ es.*1 -> known st i) /\ (mem = false -> exists i, es = [(i, pq_dist i)]).
Proof.
  intros HL [H1 H2 H3 H4] es. subst es. destruct mem; [|split_and!; try done; destruct (H4 eq_refl) as (i & ->); simpl; lia].
  rewrite fmap_take. split_and!; try done.
  - intros E. apply (f_equal length) in E. rewrite length_take in E. destruct entries; [done | simpl in E; lia].
  - rewrite length_take. lia.
  - rewrite <- (take_drop L entries.*1) in H2. by apply NoDup_app in H2 as (? & _).
  - intros i Hi. by apply H3, (subseteq_take L).
Qed.

(** The first pool: marked as [f] was sent, with approximate distances, sorted. *)
Lemma start_pool (mem : bool) (es : list (Z * D)) f : NoDup es.*1 -> (mem = false -> exists i, es = [(i, pq_dist i)]) ->
  let l := mark f <$> (entry_nb <$> es) in
  let r := if mem then std_sort_nb (with_pq <$> l) else l in
  id <$> r ≡ₚ es.*1 /\ sorted_pool r /\ length r = length es /\
  (forall x, x ∈ r -> distance x = pq_dist (id x) /\ visited x = false /\ (flag x = true <-> id x ∉ f)).
Proof.
  intros Hnd Hmed l r.
  assert (id <$> l = es.*1) as Hl by (subst l; rewrite mark_ids, <- list_fmap_compose; by apply list_fmap_ext).
  assert (forall x, x ∈ l -> visited x = false /\ (flag x = true <-> id x ∉ f)) as Hmk.
  { intros x (z & -> & (e & -> & _)%list_elem_of_fmap)%list_elem_of_fmap. rewrite mark_visited, mark_flag.
    destruct (mark_place f (entry_nb e)) as [-> _]. simpl. tauto. }
  destruct mem; subst r.
  - pose proof (std_sort_nb_perm (with_pq <$> l)) as Hp. split_and!.
    + rewrite Hp, <- list_fmap_compose. by change (id <$> l ≡ₚ es.*1); rewrite Hl.
    + apply std_sort_nb_sorted.
    + rewrite Hp. subst l. by rewrite !length_fmap.
    + intros x Hx. rewrite Hp in Hx. apply list_elem_of_fmap in Hx as (y & -> & Hy). split; [done|]. exact (Hmk y Hy).
  - destruct (Hmed eq_refl) as (i & ->). split_and!; [by rewrite Hl | repeat constructor | done |].
    intros x Hx. split; [|by apply Hmk]. apply list_elem_of_singleton in Hx as ->.
    by destruct (mark_place f (entry_nb (i, pq_dist i))) as [-> ->].
Qed.

Lemma pipe_init_spec mem entries : (0 < L)%nat -> entries_ok mem entries ->
  exists s, pipe_init mem entries = Ok s /\ pipe_inv s /\ pool_live 0 s.
Proof.
  intros HL Hen. destruct (start_entries mem entries HL Hen) as (E1 & E2 & E3 & E4 & E5). unfold pipe_init, send_best_read_req.
  set (es := if mem then take L entries else entries) in *. set (l0 := _ <$> es).
  assert (l0 = entry_nb <$> es) as El by (apply list_fmap_ext; by intros ? [? ?] ?).
  assert (id <$> l0 = es.*1) as Eid by (rewrite El, <- list_fmap_compose; by apply list_fmap_ext).
  set (s0 := {| ps := _; on_flight_ios := []; id_buf_map := ∅ |}).
  destruct (send_best_spec l0 4 s0) as (f & s1 & Es & Hio & S1 & [_ C2] & _).
  { constructor; try done; constructor || (simpl; lia). }
  { intros x Hx. apply E4. rewrite <- Eid. by apply list_elem_of_fmap_2. }
  { by rewrite Eid. }
  { intros x _ _ [?%elem_of_nil|[? ?]]; done. }
  { unfold max_width. simpl. lia. }
  change (retset (ps s0)) with l0. rewrite Es. cbn [mbind outcome_bind]. eexists. split; [done|].
  pose proof (sends_ids _ _ _ S1) as Hids. destruct S1 as [P1 M1 W1 _ _].
  split; [|intros k x _ _ Ha; exfalso;
    assert (is_Some ((∅ : gmap Z (nat * Z)) !! id x)) as [? ?] by (destruct mem; simpl in Ha; by rewrite M1 in Ha); done].
  destruct (start_pool mem es f E3 E5) as (R1 & R2 & R3 & R4). rewrite <- El in *.
  set (r := if mem then std_sort_nb (with_pq <$> (mark f <$> l0)) else mark f <$> l0) in *.
  apply (start_inv _ f r); try done.
  - destruct mem, Hio; by constructor.
  - by destruct mem.
  - by destruct mem.
  - unfold max_width. destruct mem; simpl; rewrite W1; simpl; lia.
  - by destruct mem.
  - destruct mem; simpl; by rewrite P1.
  - rewrite (list_to_set_perm_L (C := gset Z) _ _ R1). destruct mem; simpl; by rewrite P1.
  - destruct mem; simpl; by rewrite P1.
  - intros E. rewrite E in R3. by destruct es.
  - by rewrite R1.
  - intros i. rewrite R1. apply E4.
  - lia.
  - rewrite R1. intros i (x & Hx & <- & _)%C2. rewrite <- Eid. by apply list_elem_of_fmap_2.
Qed.

(** ** The whole search *)

(** The states at the iterations of a run. *)
Inductive pipe_run (mem : bool) (entries : list (Z * D)) : nat -> pstate -> Prop :=
| run_start s : pipe_init mem entries = Ok s -> pipe_run mem entries 0 s
| run_iteration t s s' :
    pipe_run mem entries t s -> unvisited_left s = true -> pipe_step t s = Ok s' -> pipe_run mem entries (S t) s'.

Lemma pipe_run_inv mem entries t s : 0 < beam_width -> (0 < L)%nat -> entries_ok mem entries ->
  pipe_run mem entries t s -> pipe_inv s /\ pool_live 0 s.
Proof.
  intros Hb HL Hen. induction 1 as [s E|t s s' _ [IH1 IH2] Hun E].
  - destruct (pipe_init_spec mem entries HL Hen) as (s1 & E1 & ? & ?). rewrite E1 in E. by simplify_eq.
  - destruct (pipe_step_spec t s Hb IH1 IH2 Hun) as (s1 & E1 & ? & ? & _). rewrite E1 in E. by simplify_eq.
Qed.

(** Enough iterations: three for every node (its request is sent, it arrives,
    it is expanded), each after at most [d] polls without work. *)
Definition pipe_fuel (d : nat) : nat := S (3 * n_nodes * S d + d).

Lemma pipe_result d mem entries fuel : 0 < beam_width -> (0 < L)%nat -> entries_ok mem entries -> fair d ->
  (pipe_fuel d <= fuel)%nat ->
  exists s, do_pipe_search fuel mem entries = Ok (std_sort_nb (full_retset (ps s))) /\ pipe_inv s /\
    forall x, x ∈ retset (ps s) -> id x ∈ id <$> full_retset (ps s).
Proof.
  intros Hb HL Hen Hfair Hf. unfold do_pipe_search. pose proof Hslots as Hs.
  destruct (Z.ltb_spec (Z.of_nat slots) beam_width) as [Hlt|_]; [unfold max_width in Hs; lia|].
  destruct (pipe_init_spec mem entries HL Hen) as (s0 & -> & Hs0 & Hl0). cbn [mbind outcome_bind].
  destruct (pipe_loop_spec d Hb Hfair fuel (3 * n_nodes) d 0 s0 Hs0 Hl0) as (s & -> & Hinv & Hun); [lia | | unfold pipe_fuel in Hf; lia |].
  - destruct (on_flight_ios s0) as [|y q]; [exists 0%nat; split; [lia | done]|]. destruct (Hfair 0%nat (slot y)) as (k & Hk & Ha).
    exists k. split; [done|]. by intros ? [= <-].
  - cbn [mbind outcome_bind]. destruct (quiescent s Hinv Hun) as [-> Hall]. by exists s.
Qed.

Lemma copy_results_NoDup : forall l k prev, NoDup (id <$> l) -> (forall x, head l = Some x -> prev <> Some (id x)) ->
  copy_results prev k l = (fun x => (id2tag tags (id x), distance x)) <$> take k l.
Proof.
  induction l as [|x l IH]; intros [|k] prev Hnd Hprev; try done. simpl.
  rewrite bool_decide_eq_false_2 by (by apply Hprev). f_equal. rewrite fmap_cons in Hnd. apply NoDup_cons in Hnd as [Hx Hnd].
  apply IH; [done|]. intros y Hy [= E]. apply Hx. rewrite E. destruct l as [|z l]; [done|]. injection Hy as ->. by left.
Qed.
End pipe.

(** C15. In every iteration of a search of a quiescent index whose list size and
    beam width fit the buffers, whatever the order in which the device
    finishes the reads: the reads in flight are in increasing order of their
    identifiers (the order in which insertions lock), there are at most
    [max 4 beam_width] of them, and the buffer of every arrived candidate that
    is still to be expanded holds the bytes of its node. *)
Theorem pipe_reads_safe {D} `{!DistOrd D} g st m (pq_dist : Z -> D) exact_dist L bw hit arrives cur_id mem entries t s :
  geometry_wf g -> graph_ok g st m cur_id -> (forall i loc, id2loc_ st !! i = Some loc -> loc_ok loc) ->
  0 < bw -> (0 < L)%nat -> (max_width bw + L <= MAX_N_SECTOR_READS)%nat -> entries_ok st pq_dist mem entries ->
  pipe_run g st m pq_dist exact_dist L bw MAX_N_SECTOR_READS hit arrives mem entries t s ->
  StronglySorted Z.lt (flight_ids s) /\ (length (on_flight_ios s) <= max_width bw)%nat /\
  (forall x, x ∈ retset (ps s) -> visited x = false -> is_Some (id_buf_map s !! id x) ->
     exists j loc n, id_buf_map s !! id x = Some (j, loc) /\ buffered_node g m s j loc = Ok n /\ read_node g st m (id x) = Ok n).
Proof.
  intros Hg Hgr Hloc Hb HL Hsl Hen Hrun.
  destruct (pipe_run_inv g st m pq_dist exact_dist L bw MAX_N_SECTOR_READS hit arrives cur_id Hg Hgr Hloc Hsl mem entries t s Hb HL Hen Hrun)
    as [Hs Hl].
  split_and!; [apply (ii_order _ _ _ _ _ (pi_io _ _ _ _ _ _ _ _ _ Hs)) | apply (ii_window _ _ _ _ _ (pi_io _ _ _ _ _ _ _ _ _ Hs)) |].
  intros x (k & Hk)%list_elem_of_lookup Hv Ha. by apply (arrived_node g st m bw MAX_N_SECTOR_READS Hg Hloc s (id x) _ (pi_io _ _ _ _ _ _ _ _ _ Hs) (Hl k x Hk Hv Ha)).
Qed.

(** C14. A pipelined search of a quiescent index, under the condition that the
    512 sector buffers are enough: the width of the pipeline (at least 4) plus
    the list size is at most 512.  The code does not check it, and beyond it a
    buffer is read into again while its candidate waits ([buffer_reused]).
    Then the search ends, whatever the order in which the device finishes the
    reads, when every read finishes within [d] polls:
    [pipe_fuel d] iterations are enough and the final assertion that nothing is
    in flight holds.  Its result is sorted, with every expanded identifier once
    and exact distances, and it is a fixed point of greedy expansion like that
    of the beam search: every candidate of the final pool was expanded, and a
    neighbour of an expanded node is in the pool unless the pool is full with
    candidates that are all at least as close.  [pipe_search] returns the tags
    of the first [min l_search k_search] entries. *)
Theorem pipe_search_correct {D} `{!DistOrd D} g st m (pq_dist : Z -> D) exact_dist tags L bw hit arrives cur_id d mem entries fuel k_search :
  geometry_wf g -> graph_ok g st m cur_id -> (forall i loc, id2loc_ st !! i = Some loc -> loc_ok loc) ->
  0 < bw -> (0 < L)%nat -> (max_width bw + L <= MAX_N_SECTOR_READS)%nat -> entries_ok st pq_dist mem entries ->
  fair arrives d -> (pipe_fuel st d <= fuel)%nat ->
  exists pool expanded,
    do_pipe_search g st m pq_dist exact_dist L bw MAX_N_SECTOR_READS hit arrives fuel mem entries = Ok expanded /\
    StronglySorted nb_le expanded /\ NoDup (id <$> expanded) /\ Forall (is_exact g st m exact_dist) expanded /\
    sorted_pool pool /\ (length pool <= L)%nat /\
    (forall x, x ∈ pool -> distance x = pq_dist (id x) /\ id x ∈ id <$> expanded) /\
    (forall i n j, i ∈ id <$> expanded -> read_node g st m i = Ok n -> j ∈ nbrs n ->
       j ∈ id <$> pool \/ (length pool = L /\ forall x, x ∈ pool -> dlt (pq_dist j) (distance x) = false)) /\
    pipe_search g st m pq_dist exact_dist tags L bw MAX_N_SECTOR_READS hit arrives fuel k_search mem entries =
      Ok ((fun x => (id2tag tags (id x), distance x)) <$> take (L `min` k_search) expanded).
Proof.
  intros Hg Hgr Hloc Hb HL Hsl Hen Hfair Hf.
  destruct (pipe_result g st m pq_dist exact_dist L bw MAX_N_SECTOR_READS hit arrives cur_id Hg Hgr Hloc Hsl d mem entries fuel Hb HL Hen Hfair Hf)
    as (s & E & Hs & Hall).
  destruct (pi_search _ _ _ _ _ _ _ _ _ Hs) as (pend & Hsi & _). destruct (pi_top _ _ _ _ _ _ _ _ _ Hs) as [T1 T2 T3 T4].
  pose proof (std_sort_nb_perm (full_retset (ps s))) as Hp.
  assert (NoDup (id <$> std_sort_nb (full_retset (ps s)))) as Hnd.
  { rewrite Hp. pose proof (sv_once _ _ Hsi) as Ho. by apply NoDup_app in Ho as (? & _). }
  exists (retset (ps s)), (std_sort_nb (full_retset (ps s))). unfold pipe_search. rewrite E. cbn [mbind outcome_bind].
  split_and!; [done | apply std_sort_nb_strong | done | rewrite Hp; apply (sv_exact _ _ Hsi) | apply (sv_sorted _ _ Hsi) | done | | |].
  - intros x Hx. split; [by apply T3|]. rewrite Hp. by apply Hall.
  - intros i n j Hi En Hj. rewrite Hp in Hi. by apply T4, (pi_closed _ _ _ _ _ _ _ _ _ Hs i n j).
  - f_equal. rewrite copy_results_NoDup; [by rewrite take_take, Nat.min_comm | by apply NoDup_take_ids | done].
Qed.

(** ** Concrete runs *)

(** Reads into even buffers finish on even polls, the others on odd ones; every
    third request is served from the cache. *)
Definition alternate (t j : nat) : bool := Nat.even (t + j).
Definition cached (n : nat) : bool := bool_decide (n mod 3 = 2)%nat.

Lemma alternate_fair : fair alternate 1.
Proof.
  intros t j. unfold alternate. destruct (Nat.even (t + j)) eqn:E.
  - exists 0%nat. rewrite Nat.add_0_r. split; [lia | done].
  - exists 1%nat. split; [lia|]. replace (t + 1 + j)%nat with (S (t + j)) by lia. rewrite Nat.even_succ. by rewrite <- Nat.negb_even, E.
Qed.

Lemma path_locs i loc : id2loc_ path_map !! i = Some loc -> loc_ok loc.
Proof.
  intros H. assert (map_Forall (fun _ l => 0 <= l < 2 ^ 32 - 1) (id2loc_ path_map)) as Hall by (apply (bool_decide_unpack _); by vm_compute).
  by apply (Hall i loc).
Qed.

Lemma path_entries : entries_ok path_map path_pq true [(1, 7); (0, 9)].
Proof.
  constructor; [done | apply (bool_decide_unpack _); by vm_compute | | done].
  intros i [->|[->|Hi%elem_of_nil]%elem_of_cons]%elem_of_cons; [by eexists | by eexists | done].
Qed.

Lemma path_run : exists s, pipe_run path_geom path_map path_file path_pq path_exact 3 2 MAX_N_SECTOR_READS cached alternate true [(1, 7); (0, 9)] 2 s.
Proof.
  eexists. eapply run_iteration; [eapply run_iteration; [apply run_start; by vm_compute | by vm_compute | by vm_compute] | by vm_compute | by vm_compute].
Qed.

Lemma pipe_reads_safe_witness : exists s : pipe_state Z,
  StronglySorted Z.lt (flight_ids s) /\ (length (on_flight_ios s) <= max_width 2)%nat /\
  (forall x, x ∈ retset (ps s) -> visited x = false -> is_Some (id_buf_map s !! id x) ->
     exists j loc n, id_buf_map s !! id x = Some (j, loc) /\ buffered_node path_geom path_file s j loc = Ok n /\
       read_node path_geom path_map path_file (id x) = Ok n).
Proof.
  destruct path_run as (s & Hrun). exists s.
  apply (pipe_reads_safe path_geom path_map path_file path_pq path_exact 3 2 cached alternate 3 true [(1, 7); (0, 9)] 2 s
    path_geom_wf path_graph_ok path_locs ltac:(lia) ltac:(lia)); [|apply path_entries | apply Hrun].
  apply (bool_decide_unpack _). by vm_compute.
Defined.

Lemma pipe_search_witness : exists pool expanded,
  do_pipe_search path_geom path_map path_file path_pq path_exact 3 2 MAX_N_SECTOR_READS cached alternate 30 true [(1, 7); (0, 9)] = Ok expanded /\
  StronglySorted nb_le expanded /\ NoDup (id <$> expanded) /\ Forall (is_exact path_geom path_map path_file path_exact) expanded /\
  sorted_pool pool /\ (length pool <= 3)%nat /\
  (forall x, x ∈ pool -> distance x = path_pq (id x) /\ id x ∈ id <$> expanded) /\
  (forall i n j, i ∈ id <$> expanded -> read_node path_geom path_map path_file i = Ok n -> j ∈ nbrs n ->
     j ∈ id <$> pool \/ (length pool = 3%nat /\ forall x, x ∈ pool -> dlt (path_pq j) (distance x) = false)) /\
  pipe_search path_geom path_map path_file path_pq path_exact ∅ 3 2 MAX_N_SECTOR_READS cached alternate 30 2 true [(1, 7); (0, 9)] =
    Ok ((fun x => (id2tag ∅ (id x), distance x)) <$> take (3 `min` 2) expanded).
Proof.
  apply (pipe_search_correct path_geom path_map path_file path_pq path_exact ∅ 3 2 cached alternate 3 1 true [(1, 7); (0, 9)] 30 2
    path_geom_wf path_graph_ok path_locs ltac:(lia) ltac:(lia)); [|apply path_entries | apply alternate_fair|];
    apply (bool_decide_unpack _); by vm_compute.
Defined.

Example path_pipe_search :
  pipe_search path_geom path_map path_file path_pq path_exact ∅ 3 2 MAX_N_SECTOR_READS cached alternate 30 2 true [(1, 7); (0, 9)]
    = Ok [(3, 1); (2, 9)].
Proof. by vm_compute. Qed.

(** Nothing ties the list size to the number of buffers.  With one node in a
    sector and four buffers, the fifth request, served at once, takes the
    buffer of a candidate that has arrived and waits: node 0 then gets the
    distance of node 4. *)
Definition wide_geom : geometry := {| max_node_len := 64; nnodes_per_sector := 1; data_dim := 1; sizeof_T := 1 |}.
Definition wide_file (off : Z) : Z :=
  let n := {| coords := [off / SECTOR_LEN]; nbrs := [] |} in node_bytes n !!! Z.to_nat (off mod SECTOR_LEN).
Definition wide_map : map_state :=
  {| id2loc_ := list_to_map [(0, 0); (1, 1); (2, 2); (3, 3); (4, 4)];
     alloc_ := {| page_layout := ∅; empty_pages := []; cur_loc := 5 |}; id2loc_pm_queue := [] |}.
Definition wide_search (slots : nat) : outcome (list (Z * Z)) :=
  l ← do_pipe_search wide_geom wide_map wide_file (fun i => i) (fun c => c !!! 0%nat) 5 2 slots (fun n => bool_decide (4 <= n)%nat)
    (fun _ _ => true) 40 true [(0, 0); (1, 1); (2, 2); (3, 3); (4, 4)];
  Ok ((fun x : Neighbor Z => (id x, distance x)) <$> (l : list (Neighbor Z))).

Example enough_buffers : wide_search 9 = Ok [(0, 1); (1, 2); (2, 3); (3, 4); (4, 5)].
Proof. by vm_compute. Qed.
Example buffer_reused : wide_search 4 = Ok [(1, 2); (2, 3); (3, 4); (0, 5); (4, 5)].
Proof. by vm_compute. Qed.
