(* ===== verification/PageSearch.v ===== *)
(** * Page search on the stored graph

    [page_search] of [src/search/page_search.cpp]: a search whose unit of
    reading is the page.  A candidate is expanded when its page arrives; the
    other nodes of the page are evaluated one round later, from a copy of the
    page, while the next pages are being read.  [page_visited] keeps a page
    from being read twice, so a candidate whose page was read for another one
    is not sent again: its node is among the others of that page.

    The index does not change during the search (the beam holds the locks of
    the vertices and of the pages between sending and arrival); reads complete
    before they are used. *)
From S2P Require Import Prelude Cuckoo Layout PageAlloc Mapping Node Neighbor CandidatePool BeamSearch PipeSearch.
Import Cuckoo.

(** [page_fnhood_t] and [io_ss_t]: the candidate, its page, the occupants of
    the page.  The buffer holds the bytes of the page. *)
Record page_read := { pr_id : Z; pr_page : Z; pr_layout : PageArr }.

Record page_state (D : Type) := {
  pool : search_state D;
  page_visited : gset Z;
  last_io_snapshot : list page_read;
}.
Arguments pool {_} _.
Arguments page_visited {_} _.
Arguments last_io_snapshot {_} _.

Section page_search.
Context {D : Type} `{!DistOrd D}.
Context (g : geometry) (st : map_state) (m : Z -> Z).
Context (pq_dist : Z -> D) (exact_dist : list Z -> D) (tags : gmap Z Z).
Context (L beam_width : nat).

Abbreviation pool_state := (search_state D).
Abbreviation push_exact := (compute_exact_dists_and_push exact_dist).

(** [std::vector<Neighbor> retset(4096)] does not grow. *)
Definition retset_size : Z := 4096.

(** [compute_and_push_nbrs], with the bounds of [dist_scratch] and of the pool. *)
Definition push_nbrs (l : list Z) (sk : pool_state * nat) : outcome (pool_state * nat) :=
  let '(s, nk) := sk in
  let '(c, vis) := fresh_nbrs l (visited_ids s) in
  if dist_scratch_size <? Z.of_nat (length c) then Crash
  else
    '(ret, nk) ← foldM (pool_push_in pq_dist retset_size (l_search s)) c (retset s, nk);
    Ok ({| retset := ret; visited_ids := vis; full_retset := full_retset s; l_search := l_search s |}, nk).

(** The slots of a page. *)
Definition page_slots : list nat := seq 0 (Z.to_nat (nnodes_per_sector g)).

(** The node in slot [j] of the page that was read. *)
Definition slot_node (page : Z) (j : nat) : node :=
  disk_node g m (u64 (page * SECTOR_LEN) + Z.of_nat j * max_node_len g).

(** The new beam: candidates that were not taken, on pages that were not read. *)
Fixpoint select_pages (bw : nat) (l : list (Neighbor D)) (pv : gset Z) : outcome (list Z * list (Neighbor D) * gset Z) :=
  match bw, l with
  | S bw', x :: l =>
      page ← id2page g st (id x);
      let pid := u32 page in
      if negb (bool_decide (pid ∈ pv)) && flag x then
        '(f, l', pv) ← select_pages bw' l ({[pid]} ∪ pv); Ok (id x :: f, unflag x :: l', pv)
      else
        '(f, l', pv) ← select_pages bw l pv; Ok (f, x :: l', pv)
  | _, _ => Ok ([], l, pv)
  end.

(** The requests of the beam, with the occupants of their pages. *)
Definition read_page (i : Z) (l : list page_read) : outcome (list page_read) :=
  page ← id2page g st i;
  match find page (page_layout (alloc_ st)) with
  | Some layout => Ok (l ++ [{| pr_id := i; pr_page := u32 page; pr_layout := layout |}])
  | None => Crash
  end.

(** The occupied slots of a page, without the candidate it was read for. *)
Definition other_slots (e : page_read) : list nat :=
  filter (fun j => pr_layout e !!! j <> pr_id e /\ pr_layout e !!! j <> kAllocatedID /\ pr_layout e !!! j <> kInvalidID)
    page_slots.

(** [vis_cand]: pairs of a distance and a position in the page, in the order of pairs. *)
Definition cand_le (x y : D * nat) : Prop :=
  dlt y.1 x.1 || (negb (dlt x.1 y.1) && bool_decide (y.2 < x.2)%nat) = false.
#[global] Instance cand_le_dec x y : Decision (cand_le x y).
Proof. unfold cand_le. apply _. Defined.

Definition vis_cand (e : page_read) : list (D * nat) :=
  merge_sort cand_le ((fun j => (exact_dist (coords (slot_node (pr_page e) j)), j)) <$> other_slots e).

(** The rest of a page that was read in the previous round. *)
Definition expand_rest (e : page_read) (sk : pool_state * nat) : outcome (pool_state * nat) :=
  let '(s, nk) := sk in
  let s := foldl (fun s j => push_exact (slot_node (pr_page e) j) (pr_layout e !!! j) s) s (other_slots e) in
  foldM (fun c sk => push_nbrs (nbrs (slot_node (pr_page e) c.2)) sk) (vis_cand e) (s, nk).

(** The candidate that a page was read for. *)
Definition expand_front (e : page_read) (sk : pool_state * nat) : outcome (pool_state * nat) :=
  foldM (fun j (sk : pool_state * nat) =>
    let '(s, nk) := sk in
    if pr_layout e !!! j =? pr_id e
    then let n := slot_node (pr_page e) j in push_nbrs (nbrs n) (push_exact n (pr_id e) s, nk)
    else Ok (s, nk)) page_slots sk.

Definition page_round (k : nat) (s : page_state D) : outcome (page_state D * nat) :=
  let n := length (retset (pool s)) in
  '(f, tail, pv) ← select_pages beam_width (drop k (retset (pool s))) (page_visited s);
  nhoods ← foldM read_page f [];
  '(p, nk) ← foldM expand_rest (last_io_snapshot s) (set_pool (take k (retset (pool s)) ++ tail) (pool s), n);
  '(p, nk) ← foldM expand_front nhoods (p, nk);
  Ok ({| pool := p; page_visited := pv; last_io_snapshot := nhoods |}, if bool_decide (nk <= k)%nat then nk else S k).

Fixpoint page_loop (fuel k : nat) (s : page_state D) : outcome (page_state D) :=
  match fuel with
  | O => Crash
  | S fuel =>
      if bool_decide (k < length (retset (pool s)))%nat then
        '(s, k) ← page_round k s; page_loop fuel k s
      else Ok s
  end.

(** The entries: the tags that the index in memory returned, at most
    [l_search], or the vertex 0. *)
Definition init_pages (entries : list Z) : page_state D :=
  {| pool := init_search pq_dist L entries; page_visited := ∅; last_io_snapshot := [] |}.

Definition do_page_search (fuel : nat) (entries : list Z) : outcome (list (Neighbor D)) :=
  if bool_decide (MAX_N_SECTOR_READS < beam_width)%nat || (retset_size <? Z.of_nat (length entries)) then Crash else
  s ← page_loop fuel 0 (init_pages entries);
  Ok (std_sort_nb (full_retset (pool s))).

Definition page_search (fuel k_search : nat) (entries : list Z) : outcome (list (Z * D)) :=
  expanded ← do_page_search fuel entries;
  Ok (copy_results tags None k_search expanded).
End page_search.

Section marks.
Context {D : Type}.

Lemma mark_skip f (l : list (Neighbor D)) : (forall x, x ∈ l -> id x ∉ f) -> mark f <$> l = l.
Proof.
  induction l as [|x l IH]; intros H; [done|]. rewrite fmap_cons, IH by set_solver. f_equal.
  unfold mark. by rewrite decide_False by (apply H; left).
Qed.
End marks.

Lemma fresh_length l : forall vis, (length (fresh_nbrs l vis).1 <= length l)%nat.
Proof.
  induction l as [|i l IH]; intros vis; [done|]. cbn [fresh_nbrs]. case_decide; [specialize (IH vis); simpl; lia|].
  specialize (IH ({[i]} ∪ vis)). destruct (fresh_nbrs l _). simpl in *. lia.
Qed.

(** ** Pages and their occupants *)
Section facts.
Context {D : Type} `{!DistOrd D}.
Context (g : geometry) (Hgeom : geometry_wf g) (st : map_state) (Hst : index_inv g st) (m : Z -> Z).

Abbreviation known := (known st).
Abbreviation node_at := (slot_node g m).
Abbreviation pslots := (page_slots g).

(** The page and the slot of a known identifier. *)
Definition page_of (i : Z) : Z := match id2loc_ st !! i with Some loc => loc_page g loc | None => 0 end.
Definition slot_of (i : Z) : nat := match id2loc_ st !! i with Some loc => loc_slot g loc | None => O end.

Lemma elem_page_slots j : j ∈ pslots <-> (j < Z.to_nat (nnodes_per_sector g))%nat.
Proof using Type. unfold page_slots. rewrite elem_of_seq. lia. Qed.

Lemma mapped_loc i loc : id2loc_ st !! i = Some loc ->
  loc_ok loc /\ page_of i = loc_page g loc /\ slot_of i = loc_slot g loc /\ i <> kInvalidID /\ i <> kAllocatedID /\
  loc2id g (alloc_ st) loc = i.
Proof using Hst.
  intros E. destruct (ii_fwd g st Hst i loc E) as (Hi & Hl & H2). unfold page_of, slot_of. rewrite E.
  unfold kInvalidID, kAllocatedID in *. split_and!; done || (clear -Hi; lia).
Qed.

Lemma page_of_sector loc : loc_ok loc -> loc_page g loc = loc_sector_no g loc /\ u32 (loc_sector_no g loc) = loc_sector_no g loc.
Proof using Hgeom.
  intros H. rewrite loc_page_eq, (u32_loc_sector_no g Hgeom), (loc_sector_no_eq g Hgeom) by done. done.
Qed.

Lemma id2page_known i : known i -> id2page g st i = Ok (page_of i) /\ u32 (page_of i) = page_of i.
Proof using Hgeom Hst.
  intros [loc E]. destruct (mapped_loc i loc E) as (Hl & -> & _ & _ & _ & _). destruct (page_of_sector loc Hl) as [-> ->].
  split; [|done]. unfold id2page, id2loc, find, find_fn. rewrite E. cbn [fmap option_fmap option_map mbind outcome_bind].
  destruct (Z.eqb_spec loc kInvalidID) as [->|]; [|done]. destruct Hl as [_ Hl]. exfalso. clear -Hl. unfold kInvalidID in Hl. lia.
Qed.

(** A known identifier is the occupant of its slot, and its node is there. *)
Lemma mapped_slot i : known i -> exists v, page_layout (alloc_ st) !! page_of i = Some v /\
  slot_of i ∈ pslots /\ v !!! slot_of i = i /\ read_node g st m i = Ok (node_at (page_of i) (slot_of i)).
Proof using Hgeom Hst.
  intros [loc E]. destruct (mapped_loc i loc E) as (Hl & Ep & Es & Hi1 & _ & H2). rewrite Ep, Es.
  rewrite loc2id_page in H2. destruct (page_layout (alloc_ st) !! loc_page g loc) as [v|] eqn:Ev; [|by subst].
  exists v. split; [done|]. split; [by apply elem_page_slots, loc_slot_lt|]. split; [done|].
  unfold read_node, id2loc, find, find_fn. rewrite E. cbn [fmap option_fmap option_map mbind outcome_bind]. f_equal. unfold slot_node. f_equal.
  rewrite (u_loc_offset_eq g Hgeom) by done. rewrite (loc_page_eq g Hgeom), (loc_slot_eq g Hgeom) by done.
  pose proof (nps_range g Hgeom) as Hn. pose proof (Z.mod_pos_bound loc (nnodes_per_sector g)) as Hm.
  pose proof (loc_div_range g Hgeom loc Hl) as Hd. destruct Hl as [Hl1 Hl2].
  rewrite Z2Nat.id by (clear -Hm Hn; lia). rewrite u64_small; [done|]. unfold SECTOR_LEN. clear -Hd Hl1 Hl2. lia.
Qed.

(** An occupied slot of a page holds a known identifier that belongs there. *)
Lemma occupant_known p v j : page_layout (alloc_ st) !! p = Some v -> j ∈ pslots ->
  v !!! j <> kAllocatedID -> v !!! j <> kInvalidID -> known (v !!! j) /\ page_of (v !!! j) = p /\ slot_of (v !!! j) = j.
Proof using Hgeom Hst.
  intros Ev Hj%elem_page_slots Ha Hi. destruct (page_bound g Hgeom (alloc_ st) p (ii_alloc g st Hst)) as [Hp1 Hp2]; [by eexists|].
  destruct (slot_loc_spec g Hgeom p j Hp1) as (Hl & Ep & Es); [clear -Hp2; lia | done |].
  assert (E : id2loc_ st !! (v !!! j) = Some (slot_loc g p j)).
  { apply (ii_bwd g st Hst); [done | | done | done]. by rewrite loc2id_page, Ep, Ev, Es. }
  destruct (mapped_loc _ _ E) as (_ & -> & -> & _). split; [by eexists | done].
Qed.

(** ** Selection *)
Lemma select_pages_spec : forall (l : list (Neighbor D)) bw pv, NoDup (id <$> l) -> (forall x, x ∈ l -> known (id x)) ->
  exists f pv', select_pages g st bw l pv = Ok (f, mark f <$> l, pv') /\
    NoDup f /\ (forall i, i ∈ f -> exists x, x ∈ l /\ id x = i /\ flag x = true) /\
    NoDup (page_of <$> f) /\ (forall i, i ∈ f -> page_of i ∉ pv) /\
    (forall p, p ∈ pv' <-> p ∈ pv \/ p ∈ page_of <$> f) /\
    ((0 < bw)%nat -> forall x, head l = Some x -> id x ∈ f \/ page_of (id x) ∈ pv \/ flag x = false).
Proof using Hgeom Hst.
  clear m. assert (Hnil : forall (l : list (Neighbor D)) (pv : gset Z), exists f pv', Ok (@nil Z, l, pv) = Ok (f, mark f <$> l, pv') /\
    NoDup f /\ (forall i, i ∈ f -> exists x : Neighbor D, x ∈ l /\ id x = i /\ flag x = true) /\
    NoDup (page_of <$> f) /\ (forall i, i ∈ f -> page_of i ∉ pv) /\
    (forall p, p ∈ pv' <-> p ∈ pv \/ p ∈ page_of <$> f)).
  { intros l pv. exists [], pv. rewrite mark_nil. split; [done|]. split; [apply NoDup_nil_2|]. split; [by intros i ?%elem_of_nil|].
    split; [apply NoDup_nil_2|]. split; [by intros i ?%elem_of_nil|]. intros p. simpl. rewrite elem_of_nil. tauto. }
  induction l as [|x l IH]; intros bw pv Hnd Hk.
  { destruct (Hnil [] pv) as (f & pv' & E & H). exists f, pv'. split; [by destruct bw|]. destruct H as (? & ? & ? & ? & ?).
    split_and!; try done. }
  destruct bw as [|bw].
  { destruct (Hnil (x :: l) pv) as (f & pv' & E & ? & ? & ? & ? & ?). exists f, pv'. split_and!; try done. intros. exfalso. lia. }
  simpl in Hnd. apply NoDup_cons in Hnd as [Hx Hnd]. cbn [select_pages].
  destruct (id2page_known (id x)) as [-> Hu]; [apply Hk; left|]. cbn [mbind outcome_bind]. rewrite Hu.
  assert (Hk' : forall y, y ∈ l -> known (id y)) by (intros y Hy; apply Hk; by right).
  destruct (negb (bool_decide (page_of (id x) ∈ pv)) && flag x) eqn:Eb.
  - apply andb_true_iff in Eb as [Ep Ef]. apply negb_true_iff, bool_decide_eq_false_1 in Ep.
    destruct (IH bw ({[page_of (id x)]} ∪ pv) Hnd Hk') as (f & pv' & -> & H1 & H2 & H3 & H4 & H5 & _). cbn [mbind outcome_bind].
    assert (Hxf : id x ∉ f) by (intros (y & Hy & E & _)%H2; apply Hx; rewrite <- E; by apply list_elem_of_fmap_2).
    exists (id x :: f), pv'. rewrite mark_cons by done. split; [done|]. split; [by constructor|]. split.
    { intros i [->|Hi]%elem_of_cons; [exists x; split; [left | done]|]. destruct (H2 i Hi) as (y & ? & ? & ?). exists y. split; [by right | done]. }
    split. { rewrite fmap_cons. constructor; [|done]. intros (i & E & Hi)%list_elem_of_fmap. apply (H4 i Hi). rewrite <- E. set_solver. }
    split. { intros i [->|Hi]%elem_of_cons; [done|]. specialize (H4 i Hi). set_solver. }
    split. { intros p. rewrite H5, fmap_cons. set_solver. }
    intros _ y [= <-]. left. left.
  - destruct (IH (S bw) pv Hnd Hk') as (f & pv' & -> & H1 & H2 & H3 & H4 & H5 & _). cbn [mbind outcome_bind].
    assert (Hxf : id x ∉ f) by (intros (y & Hy & E & _)%H2; apply Hx; rewrite <- E; by apply list_elem_of_fmap_2).
    exists f, pv'. rewrite fmap_cons. unfold mark at 2. rewrite decide_False by done. split; [done|]. split; [done|]. split.
    { intros i Hi. destruct (H2 i Hi) as (y & ? & ? & ?). exists y. split; [by right | done]. }
    split; [done|]. split; [done|]. split; [done|]. intros _ y [= <-]. right.
    apply andb_false_iff in Eb as [Eb|Eb]; [left | by right]. by apply negb_false_iff, bool_decide_eq_true_1 in Eb.
Qed.
End facts.

(** ** Expansion *)
Lemma foldM_single {A S} (f : A -> S -> outcome S) l x s :
  NoDup l -> x ∈ l -> (forall y s, y ∈ l -> y <> x -> f y s = Ok s) -> foldM f l s = f x s.
Proof.
  intros Hnd Hx H. apply list_elem_of_split in Hx as (l1 & l2 & ->).
  apply NoDup_app in Hnd as (_ & Hdis & Hnd). apply NoDup_cons in Hnd as [Hx2 _].
  assert (Hid : forall k s, (forall y, y ∈ k -> y ∈ l1 ++ x :: l2 /\ y <> x) -> foldM f k s = Ok s).
  { induction k as [|y k IH]; intros s' Hk; [done|]. cbn [foldM].
    destruct (Hk y (list_elem_of_here _ _)) as [Hy Hne]. rewrite (H y s' Hy Hne). cbn [mbind outcome_bind].
    apply IH. intros z Hz. apply Hk. by right. }
  rewrite foldM_app, Hid; [|set_solver]. cbn [mbind outcome_bind foldM]. destruct (f x s) as [s'|]; [|done].
  cbn [mbind outcome_bind]. apply Hid. intros y Hy. split; [set_solver|]. intros ->. done.
Qed.

Section expansion.
Context {D : Type} `{!DistOrd D}.
Context (g : geometry) (Hgeom : geometry_wf g) (st : map_state) (Hst : index_inv g st) (m : Z -> Z).
Context (cur_id : Z) (Hgraph : graph_ok g st m cur_id).
Context (Hdeg : degrees_le g st m dist_scratch_size).
Context (pq_dist : Z -> D) (exact_dist : list Z -> D) (L : nat) (HL : Z.of_nat L < retset_size).

Abbreviation pool_state := (search_state D).
Abbreviation known := (known st).
Abbreviation node_at := (slot_node g m).
Abbreviation page_of := (page_of g st).
Abbreviation slot_of := (slot_of g st).
Abbreviation ids p := (id <$> full_retset p).
Abbreviation push_all := (push_nbrs pq_dist).
Abbreviation push_exact := (compute_exact_dists_and_push exact_dist).

(** The pool, with the candidates that were taken in place of the evaluated
    nodes; [pend] are the taken candidates whose pages have not arrived. *)
Definition ghost (p : pool_state) (taken : list (Neighbor D)) : pool_state :=
  {| retset := retset p; visited_ids := visited_ids p; full_retset := taken; l_search := l_search p |}.

Record pool_inv (pend : list Z) (taken : list (Neighbor D)) (p : pool_state) : Prop := {
  pi_pool : search_inv known (fun _ => True) pend (ghost p taken);
  pi_top : pool_top pq_dist L (ghost p taken);
}.

(** The evaluated nodes: once each, with exact distances, their neighbours visited. *)
Record full_inv (p : pool_state) : Prop := {
  fi_once : NoDup (ids p);
  fi_exact : Forall (is_exact g st m exact_dist) (full_retset p);
  fi_known : forall i, i ∈ ids p -> known i;
}.

Lemma push_nbrs_ok pend taken p nk l :
  pool_inv pend taken p -> (forall j, j ∈ l -> known j) -> Z.of_nat (length l) <= dist_scratch_size ->
  exists p' nk', push_all l (p, nk) = Ok (p', nk') /\ pool_inv pend taken p' /\ search_step p nk p' nk' /\
    full_retset p' = full_retset p /\ (forall j, j ∈ l -> j ∈ visited_ids p').
Proof using Hgraph Hgeom Hst Hdeg HL.
  intros [Hi Ht] Hl Hlen. assert (Hlc : forall j, j ∈ l -> known j /\ j <= cur_id).
  { intros j Hj. split; [by apply Hl | by apply (go_range _ _ _ _ Hgraph), Hl]. }
  destruct (expand_neighbors_spec cur_id pq_dist known _ pend l (ghost p taken) nk Hi Hlc) as (q & nk' & E & Hq & [V S N P] & Hf).
  destruct (pool_top_neighbors cur_id pq_dist L known _ pend l (ghost p taken) nk q nk' Hi Ht Hlc E) as (Tq & _ & Vq).
  rewrite <- compute_and_push_nbrs_seq in E by (intros j Hj; by apply Hlc).
  unfold compute_and_push_nbrs in E. cbn [ghost visited_ids retset l_search full_retset] in E. unfold PageSearch.push_nbrs.
  pose proof (fresh_length l (visited_ids p)) as Hfl. destruct (fresh_nbrs l (visited_ids p)) as [c vis]. simpl in Hfl.
  destruct (Z.ltb_spec dist_scratch_size (Z.of_nat (length c))) as [Hd|_]; [exfalso; clear -Hd Hfl Hlen; lia|].
  destruct Ht as [Ht1 Ht2 _ _]. cbn [ghost l_search retset] in Ht1, Ht2.
  rewrite (pool_pushes_in pq_dist) by (rewrite ?Ht1; done). destruct (foldM _ c (retset p, nk)) as [[ret n]|]; [|done].
  cbn [mbind outcome_bind] in E |- *. injection E as <- <-. do 2 eexists. split; [done|]. split; [by split|].
  split; [|split; [done | exact Vq]]. by constructor.
Qed.

Lemma push_exact_ghost n i p taken : ghost (push_exact n i p) taken = ghost p taken.
Proof using Type. done. Qed.

Lemma pool_inv_exact pend taken n i p : pool_inv pend taken p -> pool_inv pend taken (push_exact n i p).
Proof using Type. intros [H1 H2]. by split. Qed.

(** The node of a known identifier is evaluated. *)
Lemma full_inv_push i p : full_inv p -> known i -> i ∉ ids p ->
  full_inv (push_exact (node_at (page_of i) (slot_of i)) i p).
Proof using Hgeom Hst m.
  intros [H1 H2 H3] Hk Hi. destruct (mapped_slot g Hgeom st Hst m i Hk) as (v & _ & _ & _ & E).
  constructor; cbn [compute_exact_dists_and_push full_retset].
  - rewrite fmap_app. apply NoDup_snoc; done.
  - apply Forall_app. split; [done|]. apply Forall_singleton. by eexists.
  - intros j. rewrite fmap_app, elem_of_app. cbn. rewrite list_elem_of_singleton. intros [Hj | ->]; [by apply H3 | done].
Qed.

(** *** The rest of a page *)
Record entry_ok (e : page_read) : Prop := {
  eo_layout : page_layout (alloc_ st) !! pr_page e = Some (pr_layout e);
  eo_known : known (pr_id e);
  eo_page : page_of (pr_id e) = pr_page e;
}.

Lemma other_slot e j : entry_ok e -> j ∈ other_slots g e ->
  known (pr_layout e !!! j) /\ page_of (pr_layout e !!! j) = pr_page e /\ slot_of (pr_layout e !!! j) = j /\ pr_layout e !!! j <> pr_id e.
Proof using Hgeom Hst m.
  intros [El _ _] ((Hne & Ha & Hi) & Hj)%list_elem_of_filter.
  destruct (occupant_known g Hgeom st Hst _ _ j El Hj Ha Hi) as (? & ? & ?). done.
Qed.

Lemma occupant_other e i : entry_ok e -> known i -> page_of i = pr_page e -> i <> pr_id e ->
  slot_of i ∈ other_slots g e /\ pr_layout e !!! slot_of i = i.
Proof using Hgeom Hst m.
  intros [El _ _] Hk Hp Hne. destruct (mapped_slot g Hgeom st Hst m i Hk) as (v & Ev & Hj & Hv & _).
  rewrite Hp, El in Ev. injection Ev as <-. split; [|done]. apply list_elem_of_filter. split; [|done]. rewrite Hv.
  destruct Hk as [loc E]. destruct (mapped_loc g st Hst i loc E) as (_ & _ & _ & ? & ? & _). done.
Qed.

Lemma NoDup_other e : NoDup (other_slots g e).
Proof using Type. apply NoDup_filter, NoDup_seq. Qed.

Abbreviation exact_all e js p := (foldl (fun s j => push_exact (node_at (pr_page e) j) (pr_layout e !!! j) s) p js).

Lemma exact_all_ok e js p pend taken : entry_ok e -> NoDup js -> (forall j, j ∈ js -> j ∈ other_slots g e) ->
  (forall j, j ∈ js -> pr_layout e !!! j ∉ ids p) -> full_inv p -> pool_inv pend taken p ->
  full_inv (exact_all e js p) /\ pool_inv pend taken (exact_all e js p) /\
  retset (exact_all e js p) = retset p /\ visited_ids (exact_all e js p) = visited_ids p /\
  ids (exact_all e js p) = ids p ++ ((fun j => pr_layout e !!! j) <$> js).
Proof using Hgeom Hst m.
  intros He. revert p. induction js as [|j js IH]; intros p Hnd Hjs Hnew Hf Hp.
  - cbn. rewrite app_nil_r. done.
  - apply NoDup_cons in Hnd as [Hj Hnd]. cbn [foldl].
    destruct (other_slot e j He) as (Hk & Epg & Esl & _); [apply Hjs; left|].
    pose proof (full_inv_push _ p Hf Hk) as Hf'. rewrite Epg, Esl in Hf'.
    destruct (IH (push_exact (node_at (pr_page e) j) (pr_layout e !!! j) p)) as (F & P & R & V & I).
    + done.
    + intros k Hk'. apply Hjs. by right.
    + intros k Hk'. cbn. rewrite fmap_app, elem_of_app. cbn. rewrite list_elem_of_singleton. intros [H|H].
      * revert H. apply Hnew. by right.
      * destruct (other_slot e k He) as (_ & _ & Ek & _); [apply Hjs; by right|]. rewrite H, Esl in Ek. by subst.
    + apply Hf', Hnew. left.
    + by apply pool_inv_exact.
    + split; [done|]. split; [done|]. split; [done|]. split; [done|]. rewrite I. cbn. by rewrite fmap_app, <- app_assoc.
Qed.

Lemma push_all_ok {I} (nb : I -> list Z) : forall (cs : list I) p nk pend taken,
  pool_inv pend taken p -> (forall c j, c ∈ cs -> j ∈ nb c -> known j) ->
  (forall c, c ∈ cs -> Z.of_nat (length (nb c)) <= dist_scratch_size) ->
  exists p' nk', foldM (fun c sk => push_all (nb c) sk) cs (p, nk) = Ok (p', nk') /\ pool_inv pend taken p' /\
    search_step p nk p' nk' /\ full_retset p' = full_retset p /\ (forall c j, c ∈ cs -> j ∈ nb c -> j ∈ visited_ids p').
Proof using Hgraph Hgeom Hst Hdeg HL.
  induction cs as [|c cs IH]; intros p nk pend taken Hp Hc Hd.
  - exists p, nk. split_and!; [done | done | apply search_step_refl | done |]. by intros c j ?%elem_of_nil.
  - cbn [foldM]. destruct (push_nbrs_ok pend taken p nk (nb c) Hp) as (p1 & n1 & -> & H1 & S1 & F1 & V1).
    { intros j. apply Hc. left. }
    { apply Hd. left. }
    cbn [mbind outcome_bind]. destruct (IH p1 n1 pend taken H1) as (p2 & n2 & -> & H2 & S2 & F2 & V2).
    { intros c' j Hc'. apply Hc. by right. }
    { intros c' Hc'. apply Hd. by right. }
    exists p2, n2. split_and!; [done | done | by eapply search_step_trans | congruence |].
    intros c' j [->|Hc']%elem_of_cons Hj; [|by apply (V2 c')]. apply (ss_visited _ _ _ _ S2). by apply V1.
Qed.

(** The neighbours of the evaluated nodes were visited. *)
Definition full_closed (p : pool_state) : Prop :=
  forall i n j, i ∈ ids p -> read_node g st m i = Ok n -> j ∈ nbrs n -> j ∈ visited_ids p.

Lemma read_at i : known i -> read_node g st m i = Ok (node_at (page_of i) (slot_of i)).
Proof using Hgeom Hst. intros Hk. by destruct (mapped_slot g Hgeom st Hst m i Hk) as (v & _ & _ & _ & E). Qed.

Lemma expand_rest_ok e p nk pend taken : entry_ok e -> pool_inv pend taken p -> full_inv p -> full_closed p ->
  pr_id e ∈ ids p -> (forall i, known i -> page_of i = pr_page e -> i <> pr_id e -> i ∉ ids p) ->
  exists p' nk', expand_rest g m pq_dist exact_dist e (p, nk) = Ok (p', nk') /\ pool_inv pend taken p' /\ full_inv p' /\ full_closed p' /\
    search_step p nk p' nk' /\ (forall i, i ∈ ids p' <-> i ∈ ids p \/ (known i /\ page_of i = pr_page e)).
Proof using Hgraph Hgeom Hst Hdeg HL.
  intros He Hp Hf Hcl Hid Hnew. unfold expand_rest.
  destruct (exact_all_ok e (other_slots g e) p pend taken He (NoDup_other e)) as (F1 & P1 & R1 & V1 & I1); [done | | done | done |].
  { intros j Hj. destruct (other_slot e j He Hj) as (? & ? & _ & ?). by apply Hnew. }
  set (p1 := exact_all e (other_slots g e) p) in *.
  assert (Hcand : forall d j, (d, j) ∈ vis_cand g m exact_dist e <-> j ∈ other_slots g e /\ d = exact_dist (coords (node_at (pr_page e) j))).
  { intros d j. unfold vis_cand. rewrite merge_sort_Permutation, list_elem_of_fmap. naive_solver. }
  assert (Hread : forall j, j ∈ other_slots g e -> read_node g st m (pr_layout e !!! j) = Ok (node_at (pr_page e) j)).
  { intros j Hj. destruct (other_slot e j He Hj) as (Hk & Epg & Esl & _). rewrite read_at by done. by rewrite Epg, Esl. }
  destruct (push_all_ok (fun c : D * nat => nbrs (node_at (pr_page e) c.2)) (vis_cand g m exact_dist e) p1 nk pend taken P1)
    as (p' & nk' & E & P' & S' & F' & V').
  { intros [d j] k (Hj & _)%Hcand Hk. by apply (go_nbrs _ _ _ _ Hgraph _ _ (Hread j Hj)). }
  { intros [d j] (Hj & _)%Hcand. by apply (Hdeg _ _ (Hread j Hj)). }
  assert (Hids : forall i, i ∈ ids p' <-> i ∈ ids p \/ (known i /\ page_of i = pr_page e)).
  { intros i. rewrite F', I1, elem_of_app. split.
    - intros [?|(j & -> & Hj)%list_elem_of_fmap]; [by left | right]. destruct (other_slot e j He Hj) as (? & ? & _). done.
    - intros [?|[Hk Hpg]]; [by left|]. destruct (decide (i = pr_id e)) as [->|Hne]; [by left | right].
      destruct (occupant_other e i He Hk Hpg Hne) as [Hj Hl]. apply list_elem_of_fmap. by exists (slot_of i). }
  exists p', nk'. split; [done|]. split; [done|]. split; [|split; [|split]].
  - destruct F1. constructor; rewrite F'; done.
  - intros i n j Hi Hn Hj. rewrite F', I1, elem_of_app in Hi. destruct Hi as [Hi|Hi].
    + apply (ss_visited _ _ _ _ S'). rewrite V1. by apply (Hcl i n j).
    + apply list_elem_of_fmap in Hi as (k & -> & Hk). rewrite Hread in Hn by done. injection Hn as <-.
      apply (V' (exact_dist (coords (node_at (pr_page e) k)), k) j); [by apply Hcand | done].
  - destruct S' as [S1 S2 S3 S4]. rewrite V1, R1 in *. by constructor.
  - exact Hids.
Qed.

Lemma expand_rests_ok pend taken : forall es p nk, Forall entry_ok es -> NoDup (pr_page <$> es) ->
  pool_inv pend taken p -> full_inv p -> full_closed p -> (forall e, e ∈ es -> pr_id e ∈ ids p) ->
  (forall e i, e ∈ es -> known i -> page_of i = pr_page e -> i <> pr_id e -> i ∉ ids p) ->
  exists p' nk', foldM (expand_rest g m pq_dist exact_dist) es (p, nk) = Ok (p', nk') /\ pool_inv pend taken p' /\ full_inv p' /\
    full_closed p' /\ search_step p nk p' nk' /\ (forall i, i ∈ ids p' <-> i ∈ ids p \/ (known i /\ page_of i ∈ pr_page <$> es)).
Proof using Hgraph Hgeom Hst Hdeg HL.
  induction es as [|e es IH]; intros p nk He Hnd Hp Hf Hcl Hin Hnew.
  - exists p, nk. split_and!; [done | done | done | done | apply search_step_refl |]. intros i. cbn. rewrite elem_of_nil. tauto.
  - apply Forall_cons in He as [He Hes]. rewrite fmap_cons in Hnd. apply NoDup_cons in Hnd as [Hpe Hnd]. cbn [foldM].
    destruct (expand_rest_ok e p nk pend taken He Hp Hf Hcl) as (p1 & n1 & -> & P1 & F1 & C1 & S1 & I1).
    { apply Hin. left. }
    { intros i. apply Hnew. left. }
    cbn [mbind outcome_bind]. destruct (IH p1 n1 Hes Hnd P1 F1 C1) as (p2 & n2 & -> & P2 & F2 & C2 & S2 & I2).
    { intros e' He'. apply I1. left. apply Hin. by right. }
    { intros e' i He' Hk Hpg Hne Hi. apply I1 in Hi as [Hi|[_ Hi]]; [by apply (Hnew e' i); [right|..]|].
      apply Hpe. rewrite <- Hi, Hpg. by apply list_elem_of_fmap_2. }
    exists p2, n2. split_and!; [done | done | done | done | by eapply search_step_trans |].
    intros i. rewrite I2, I1, fmap_cons, elem_of_cons. tauto.
Qed.

(** *** The candidate of a page *)
Lemma expand_front_ok e p nk pend taken : entry_ok e -> pool_inv (pr_id e :: pend) taken p -> full_inv p -> full_closed p ->
  pr_id e ∉ ids p ->
  exists p' nk', expand_front g m pq_dist exact_dist e (p, nk) = Ok (p', nk') /\
    pool_inv pend (taken ++ [candidate pq_dist (pr_id e)]) p' /\ full_inv p' /\
    full_closed p' /\ search_step p nk p' nk' /\ (forall i, i ∈ ids p' <-> i ∈ ids p \/ i = pr_id e).
Proof using Hgraph Hgeom Hst Hdeg HL.
  intros He [Hp Ht] Hf Hcl Hnew. pose proof He as [El Hk Epg]. set (i := pr_id e) in *.
  destruct (mapped_slot g Hgeom st Hst m i Hk) as (v & Ev & Hj & Hv & Hread). rewrite Epg, El in Ev. injection Ev as <-.
  rewrite Epg in Hread. set (n := node_at (pr_page e) (slot_of i)) in *.
  assert (P0 : pool_inv pend (taken ++ [candidate pq_dist i]) (push_exact n i p)).
  { split; [|by destruct Ht]. by apply (search_inv_expand known _ pend (ghost p taken) i (candidate pq_dist i)). }
  destruct (push_nbrs_ok pend _ (push_exact n i p) nk (nbrs n) P0) as (p' & nk' & E & P' & [S1 S2 S3 S4] & F' & V').
  { intros j. by apply (go_nbrs _ _ _ _ Hgraph _ _ Hread). }
  { by apply (Hdeg _ _ Hread). }
  assert (Hids : ids p' = ids p ++ [i]) by (rewrite F'; cbn; by rewrite fmap_app).
  exists p', nk'. split; [|split; [done|]; split; [|split; [|split]]].
  - unfold expand_front. fold i. rewrite (foldM_single _ _ (slot_of i)); [|apply NoDup_seq | done |].
    + rewrite Hv, Z.eqb_refl. exact E.
    + intros j [s k] Hj' Hne. fold i. destruct (Z.eqb_spec (pr_layout e !!! j) i) as [Ei|]; [|done]. exfalso. apply Hne.
      destruct Hk as [loc Eloc]. destruct (mapped_loc g st Hst i loc Eloc) as (_ & _ & _ & Hi1 & Hi2 & _).
      destruct (occupant_known g Hgeom st Hst _ _ j El Hj') as (_ & _ & Hs); [by rewrite Ei | by rewrite Ei |].
      by rewrite Ei in Hs.
  - pose proof (full_inv_push i p Hf Hk Hnew) as [A1 A2 A3]. rewrite Epg in A1, A2, A3. constructor; rewrite F'; done.
  - intros k n' j. rewrite Hids, elem_of_app, list_elem_of_singleton. intros [Hi | ->] Hn Hj'.
    + apply S1. by apply (Hcl k n' j).
    + fold i in Hn. rewrite Hread in Hn. injection Hn as <-. by apply V'.
  - by constructor.
  - intros k. by rewrite Hids, elem_of_app, list_elem_of_singleton.
Qed.

Lemma expand_fronts_ok : forall es p nk taken, Forall entry_ok es -> NoDup (pr_id <$> es) ->
  pool_inv (pr_id <$> es) taken p -> full_inv p -> full_closed p -> (forall e, e ∈ es -> pr_id e ∉ ids p) ->
  exists p' nk', foldM (expand_front g m pq_dist exact_dist) es (p, nk) = Ok (p', nk') /\
    pool_inv [] (taken ++ (candidate pq_dist ∘ pr_id <$> es)) p' /\ full_inv p' /\
    full_closed p' /\ search_step p nk p' nk' /\ (forall i, i ∈ ids p' <-> i ∈ ids p \/ i ∈ pr_id <$> es).
Proof using Hgraph Hgeom Hst Hdeg HL.
  induction es as [|e es IH]; intros p nk taken He Hnd Hp Hf Hcl Hnew.
  - exists p, nk. cbn. rewrite app_nil_r. split_and!; [done | done | done | done | apply search_step_refl |].
    intros i. rewrite elem_of_nil. tauto.
  - apply Forall_cons in He as [He Hes]. rewrite fmap_cons in Hnd, Hp. apply NoDup_cons in Hnd as [Hpe Hnd]. cbn [foldM].
    destruct (expand_front_ok e p nk _ taken He Hp Hf Hcl) as (p1 & n1 & -> & P1 & F1 & C1 & S1 & I1).
    { apply Hnew. left. }
    cbn [mbind outcome_bind]. destruct (IH p1 n1 _ Hes Hnd P1 F1 C1) as (p2 & n2 & -> & P2 & F2 & C2 & S2 & I2).
    { intros e' He' [Hi|Hi]%I1; [by apply (Hnew e'); [right|]|]. apply Hpe. rewrite <- Hi. by apply list_elem_of_fmap_2. }
    exists p2, n2. rewrite <- app_assoc in P2. split_and!; [done | done | done | done | by eapply search_step_trans |].
    intros i. rewrite I2, I1, fmap_cons, elem_of_cons. tauto.
Qed.

Lemma read_pages_ok : forall f l, (forall i, i ∈ f -> known i) ->
  exists nh, foldM (read_page g st) f l = Ok (l ++ nh) /\ Forall entry_ok nh /\ pr_id <$> nh = f /\ pr_page <$> nh = page_of <$> f.
Proof using Hgeom Hst m.
  induction f as [|i f IH]; intros l Hk; [exists []; rewrite app_nil_r; by split_and!|]. cbn [foldM].
  assert (Hi : known i) by (apply Hk; left). destruct (id2page_known g Hgeom st Hst i Hi) as [E Eu].
  destruct (mapped_slot g Hgeom st Hst m i Hi) as (v & Ev & _).
  assert (read_page g st i l = Ok (l ++ [{| pr_id := i; pr_page := page_of i; pr_layout := v |}])) as ->.
  { unfold read_page. rewrite E. cbn [mbind outcome_bind]. unfold find, find_fn. rewrite Ev.
    cbn [fmap option_fmap option_map]. by rewrite Eu. }
  cbn [mbind outcome_bind].
  destruct (IH (l ++ [{| pr_id := i; pr_page := page_of i; pr_layout := v |}])) as (nh & -> & H1 & H2 & H3).
  { intros j Hj. apply Hk. by right. }
  exists ({| pr_id := i; pr_page := page_of i; pr_layout := v |} :: nh). rewrite <- app_assoc. split; [done|].
  split; [by constructor|]. by rewrite !fmap_cons, H2, H3.
Qed.

(** *** A round *)
Lemma pool_top_mark p f : pool_top pq_dist L p -> pool_top pq_dist L (set_pool (mark f <$> retset p) p).
Proof using Type.
  intros [H1 H2 H3 H4]. constructor; cbn [set_pool l_search retset visited_ids]; rewrite ?length_fmap, ?mark_ids; [done | done | |].
  - intros x (y & -> & Hy)%list_elem_of_fmap. destruct (mark_place f y) as [-> ->]. by apply H3.
  - intros j Hj. destruct (H4 j Hj) as [?|[Hl Hx]]; [by left | right]. split; [done|].
    intros x (y & -> & Hy)%list_elem_of_fmap. destruct (mark_place f y) as [_ ->]. by apply Hx.
Qed.

Lemma pool_inv_select p taken f k : pool_inv [] taken p -> NoDup f ->
  (forall i, i ∈ f -> exists x, x ∈ drop k (retset p) /\ id x = i /\ flag x = true) ->
  take k (retset p) ++ (mark f <$> drop k (retset p)) = mark f <$> retset p /\ pool_inv f taken (set_pool (mark f <$> retset p) p).
Proof using Type.
  intros [Hi Ht] Hf Hin. split.
  - rewrite <- (take_drop k (retset p)) at 3. rewrite fmap_app. f_equal. symmetry. apply mark_skip. intros x Hx Hxf.
    destruct (Hin _ Hxf) as (y & Hy & E & _). pose proof (sv_nodup _ _ Hi) as Hnd. cbn [ghost retset] in Hnd.
    rewrite <- (take_drop k (retset p)), fmap_app in Hnd. apply NoDup_app in Hnd as (_ & Hd & _).
    apply (Hd (id x)); [by apply list_elem_of_fmap_2|]. rewrite <- E. by apply list_elem_of_fmap_2.
  - split; [|by apply (pool_top_mark (ghost p taken) f)].
    pose proof (search_inv_mark known (fun _ => True) [] (ghost p taken) f Hi Hf) as H. rewrite app_nil_r in H. apply H.
    intros i Hif. destruct (Hin i Hif) as (x & Hx & E). exists x. split; [by eapply subseteq_drop | done].
Qed.

Abbreviation pstate := (page_state D).

(** The state between two rounds; the first [k] candidates are evaluated. *)
Record round_inv (k : nat) (taken : list (Neighbor D)) (s : pstate) : Prop := {
  ri_pool : pool_inv [] taken (pool s);
  ri_full : full_inv (pool s);
  ri_closed : full_closed (pool s);
  ri_taken : forall i, i ∈ id <$> taken -> page_of i ∈ page_visited s;
  ri_read : forall i, i ∈ ids (pool s) -> page_of i ∈ page_visited s;
  ri_done : forall i, known i -> page_of i ∈ page_visited s -> page_of i ∉ pr_page <$> last_io_snapshot s -> i ∈ ids (pool s);
  ri_entries : Forall entry_ok (last_io_snapshot s);
  ri_pages : NoDup (pr_page <$> last_io_snapshot s);
  ri_front : forall e, e ∈ last_io_snapshot s -> pr_id e ∈ ids (pool s);
  ri_rest : forall e i, e ∈ last_io_snapshot s -> known i -> page_of i = pr_page e -> i <> pr_id e -> i ∉ ids (pool s);
  ri_prefix : forall x, x ∈ take k (retset (pool s)) -> id x ∈ ids (pool s);
}.

Context (beam_width : nat) (Hbw : (0 < beam_width)%nat).

(** What the pool is at the end of a round. *)
Lemma round_prefix k f (r r' : list (Neighbor D)) (full : list Z) nk :
  (k < length r)%nat -> take nk r' = take nk (mark f <$> r) ->
  (forall x, x ∈ take k r -> id x ∈ full) -> (forall x, r !! k = Some x -> id x ∈ full) ->
  forall x, x ∈ take (if bool_decide (nk <= k)%nat then nk else S k) r' -> id x ∈ full.
Proof using Type.
  intros Hk HP Hpre Hnext x Hx. set (k' := if bool_decide (nk <= k)%nat then nk else S k) in Hx.
  assert (k' <= nk /\ k' <= S k)%nat as [H1 H2] by (subst k'; case_bool_decide; clear -H; lia).
  apply (f_equal (take k')) in HP. rewrite !take_take, !Nat.min_l in HP by done. rewrite HP in Hx.
  rewrite <- fmap_take in Hx. apply list_elem_of_fmap in Hx as (y & -> & Hy). destruct (mark_place f y) as [-> _].
  apply list_elem_of_lookup in Hy as (j & Hj). apply lookup_take_Some in Hj as [Hj Hjk].
  destruct (decide (j < k)%nat).
  - apply Hpre, list_elem_of_lookup. exists j. by apply lookup_take_Some.
  - apply Hnext. by replace k with j by (clear -Hjk H2 n; lia).
Qed.

(** The invariant after a round that took [f] and evaluated the rest of the pages of the previous one. *)
Lemma round_next k taken s f pv nh p n :
  round_inv k taken s -> (k < length (retset (pool s)))%nat ->
  NoDup (page_of <$> f) -> (forall i, i ∈ f -> page_of i ∉ page_visited s) ->
  (forall q, q ∈ pv <-> q ∈ page_visited s \/ q ∈ page_of <$> f) ->
  (forall x, retset (pool s) !! k = Some x -> id x ∈ f \/ page_of (id x) ∈ page_visited s \/ flag x = false) ->
  Forall entry_ok nh -> pr_id <$> nh = f -> pr_page <$> nh = page_of <$> f ->
  pool_inv [] (taken ++ (candidate pq_dist ∘ pr_id <$> nh)) p -> full_inv p -> full_closed p ->
  (forall i, i ∈ ids p <-> i ∈ ids (pool s) \/ (known i /\ page_of i ∈ pr_page <$> last_io_snapshot s) \/ i ∈ f) ->
  take n (retset p) = take n (mark f <$> retset (pool s)) ->
  round_inv (if bool_decide (n <= k)%nat then n else S k) (taken ++ (candidate pq_dist ∘ pr_id <$> nh))
    {| pool := p; page_visited := pv; last_io_snapshot := nh |}.
Proof using Type.
  intros [Rp Rf Rc Rt Rr Rd Re Rpg Rfr Rrs Rpr] Hk Hf3 Hf4 Hpv Hnext Hnh Hnid Hnpg P2 F2 C2 Hids HP.
  assert (Hlast : forall q, q ∈ pr_page <$> last_io_snapshot s -> q ∈ page_visited s).
  { intros q (e & -> & He)%list_elem_of_fmap. rewrite Forall_forall in Re. rewrite <- (eo_page _ (Re e He)). apply Rr, Rfr, He. }
  assert (Hall : forall i, known i -> page_of i ∈ page_visited s -> i ∈ ids p).
  { intros i Hi Hpg. apply Hids. destruct (decide (page_of i ∈ pr_page <$> last_io_snapshot s)); [right; left; done|].
    left. by apply Rd. }
  assert (Hold : forall i, i ∈ ids p -> page_of i ∈ page_visited s \/ i ∈ f).
  { intros i [Hi|[[_ Hi]|Hi]]%Hids; [left; by apply Rr | left; by apply Hlast | by right]. }
  assert (Hnf : forall e, e ∈ nh -> pr_id e ∈ f) by (intros e He; rewrite <- Hnid; by apply list_elem_of_fmap_2).
  constructor; cbn [pool page_visited last_io_snapshot]; try done.
  - intros i. rewrite fmap_app, elem_of_app, Hpv. intros [Hi|Hi]; [left; by apply Rt | right].
    apply list_elem_of_fmap in Hi as (x & -> & Hx). apply list_elem_of_fmap in Hx as (e & -> & He). apply list_elem_of_fmap_2.
    by apply Hnf.
  - intros i [Hi|Hi]%Hold; apply Hpv; [by left | right; by apply list_elem_of_fmap_2].
  - intros i Hi [Hq|Hq]%Hpv Hn; [by apply Hall | rewrite Hnpg in Hn; done].
  - by rewrite Hnpg.
  - intros e He. apply Hids. right. right. by apply Hnf.
  - intros e i He Hi Hpg Hne [Hv|Hif]%Hold; pose proof (Hnf e He) as Hef; rewrite Forall_forall in Hnh;
      destruct (Hnh e He) as [_ _ Epg]; rewrite <- Epg in Hpg.
    + apply (Hf4 _ Hef). by rewrite <- Hpg.
    + apply Hne. apply list_elem_of_lookup in Hif as (a & Ha). apply list_elem_of_lookup in Hef as (b & Hb).
      assert (a = b) as -> by (apply (NoDup_lookup (page_of <$> f) a b (page_of i)); [done | |]; rewrite list_lookup_fmap, ?Ha, ?Hb; cbn; by rewrite ?Hpg).
      congruence.
  - apply (round_prefix k f (retset (pool s)) (retset p) (ids p) n Hk HP).
    + intros x Hx. apply Hids. left. by apply Rpr.
    + intros x Hx. pose proof (pi_pool _ _ _ Rp) as Hsi. assert (Hin : x ∈ retset (pool s)) by by eapply list_elem_of_lookup_2.
      assert (Hkx : known (id x)) by (apply (sv_known _ _ Hsi), (sv_visited _ _ Hsi); by apply list_elem_of_fmap_2).
      destruct (Hnext x Hx) as [Hi|[Hi|Hi]]; [apply Hids; right; by right | by apply Hall|].
      apply Hall; [done|]. apply Rt. pose proof (sv_old _ _ Hsi x Hin Hi) as Ho. by rewrite app_nil_r in Ho.
Qed.

Lemma page_round_ok k taken s : round_inv k taken s -> (k < length (retset (pool s)))%nat ->
  exists s' k' taken', page_round g st m pq_dist exact_dist beam_width k s = Ok (s', k') /\ round_inv k' taken' s' /\
    visited_ids (pool s) ⊆ visited_ids (pool s') /\
    (visited_ids (pool s') = visited_ids (pool s) -> length (retset (pool s')) = length (retset (pool s)) /\ k' = S k).
Proof using Hgraph Hgeom Hst Hbw Hdeg HL.
  intros [Rp Rf Rc Rt Rr Rd Re Rpg Rfr Rrs Rpr] Hk. unfold page_round.
  set (r := retset (pool s)) in *. pose proof (pi_pool _ _ _ Rp) as Hsi.
  assert (Hnd : NoDup (id <$> drop k r)).
  { pose proof (sv_nodup _ _ Hsi) as H. cbn [ghost retset] in H. fold r in H. rewrite <- (take_drop k r), fmap_app in H.
    by apply NoDup_app in H as (_ & _ & ?). }
  assert (Hkn : forall x, x ∈ r -> known (id x)).
  { intros x Hx. apply (sv_known _ _ Hsi), (sv_visited _ _ Hsi). by apply list_elem_of_fmap_2. }
  destruct (select_pages_spec g Hgeom st Hst (drop k r) beam_width (page_visited s) Hnd) as (f & pv & -> & Hf1 & Hf2 & Hf3 & Hf4 & Hpv & Hhead).
  { intros x Hx. apply Hkn. by eapply subseteq_drop. }
  cbn [mbind outcome_bind].
  destruct (pool_inv_select (pool s) taken f k Rp Hf1 Hf2) as [Emark P0]. fold r in Emark, P0. rewrite Emark.
  assert (Hfk : forall i, i ∈ f -> known i).
  { intros i (x & Hx & <- & _)%Hf2. apply Hkn. by eapply subseteq_drop. }
  destruct (read_pages_ok f [] Hfk) as (nh & -> & Hnh & Hnid & Hnpg). cbn [app mbind outcome_bind].
  set (p0 := set_pool (mark f <$> r) (pool s)) in *.
  assert (F0 : full_inv p0) by (by destruct Rf).
  destruct (expand_rests_ok f taken (last_io_snapshot s) p0 (length r) Re Rpg P0 F0 Rc Rfr Rrs)
    as (p1 & n1 & -> & P1 & F1 & C1 & S1 & I1). cbn [mbind outcome_bind].
  assert (Hlast : forall p, p ∈ pr_page <$> last_io_snapshot s -> p ∈ page_visited s).
  { intros p (e & -> & He)%list_elem_of_fmap. rewrite Forall_forall in Re. rewrite <- (eo_page _ (Re e He)). apply Rr, Rfr, He. }
  assert (Hnew : forall i, i ∈ f -> i ∉ ids p1).
  { intros i Hi [Hin|[_ Hin]]%I1; apply (Hf4 i Hi); [by apply Rr | by apply Hlast]. }
  rewrite <- Hnid in Hf1, P1. destruct (expand_fronts_ok nh p1 n1 taken Hnh Hf1 P1 F1 C1) as (p2 & n2 & -> & P2 & F2 & C2 & S2 & I2).
  { intros e He. apply Hnew. rewrite <- Hnid. by apply list_elem_of_fmap_2. }
  cbn [mbind outcome_bind]. pose proof (search_step_trans _ _ _ _ _ _ S1 S2) as [V SS N PP].
  do 2 eexists. exists (taken ++ (candidate pq_dist ∘ pr_id <$> nh)). split; [done|]. rewrite Hnid in I2.
  assert (Hids : forall i, i ∈ ids p2 <-> i ∈ ids (pool s) \/ (known i /\ page_of i ∈ pr_page <$> last_io_snapshot s) \/ i ∈ f).
  { intros i. rewrite I2, I1. tauto. }
  split; [|split; [exact V|]].
  2:{ intros E. cbn [pool] in E |- *. destruct (SS E) as [-> ->]. cbn [p0 set_pool retset]. rewrite length_fmap.
      split; [done|]. rewrite bool_decide_eq_false_2; [done|]. clear -Hk. lia. }
  apply (round_next k taken s f pv nh p2 n2); try done.
  intros x Hx. apply Hhead; [done|]. by rewrite head_lookup, lookup_drop, Nat.add_0_r.
Qed.

(** *** The search *)
Definition page_fuel : nat := pool_fuel (size (dom (id2loc_ st))).

Lemma page_known_dom i : known i -> i ∈ dom (id2loc_ st).
Proof using Type. intros H. by apply elem_of_dom. Qed.

Lemma page_loop_ok : forall fuel k taken s, round_inv k taken s ->
  (pool_measure (size (dom (id2loc_ st))) (ghost (pool s) taken) k < fuel)%nat ->
  exists s' taken', page_loop g st m pq_dist exact_dist beam_width fuel k s = Ok s' /\
    round_inv (length (retset (pool s'))) taken' s'.
Proof using Hgraph Hgeom Hst Hbw Hdeg HL.
  induction fuel as [|fuel IH]; intros k taken s Hs Hm; [exfalso; clear -Hm; lia|]. cbn [page_loop]. case_bool_decide as Hk.
  - destruct (page_round_ok k taken s Hs Hk) as (s1 & k1 & taken1 & -> & H1 & V1 & Hsame). cbn [mbind outcome_bind].
    apply (IH k1 taken1 s1 H1).
    pose proof (measure_decreases known (fun _ => True) _ page_known_dom [] (ghost (pool s) taken) (ghost (pool s1) taken1) k k1
      (pi_pool _ _ _ (ri_pool _ _ _ Hs)) (pi_pool _ _ _ (ri_pool _ _ _ H1)) Hk V1 Hsame) as Hd. clear -Hm Hd. lia.
  - exists s, taken. split; [done|]. destruct Hs as [? ? ? ? ? ? ? ? ? ? Hpre]. constructor; try done.
    intros x Hx. apply Hpre. rewrite take_ge by (clear -Hk; lia). by rewrite take_ge in Hx by done.
Qed.

Lemma init_round entries : entries <> [] -> NoDup entries -> (length entries <= L)%nat -> (forall i, i ∈ entries -> known i) ->
  round_inv 0 [] (init_pages pq_dist L entries).
Proof using Type.
  intros Hne Hnd Hl Hk. constructor; cbn [init_pages pool page_visited last_io_snapshot]; try (by constructor).
  - split; [by apply init_search_inv | by apply pool_top_init].
  - split; [constructor | done |]. by intros i ?%elem_of_nil.
  - by intros i n j ?%elem_of_nil.
  - by intros i ?%elem_of_nil.
  - by intros i ?%elem_of_nil.
  - intros i _ Hp. by apply not_elem_of_empty in Hp.
  - by intros e ?%elem_of_nil.
  - by intros e i ?%elem_of_nil.
  - intros x. rewrite take_0. by intros ?%elem_of_nil.
Qed.
End expansion.

(** C17. Page search, over index maps that agree, ends within [page_fuel] rounds
    without a crash, provided that [l_search] is below 4096, the fixed size of
    its pool, the beam width is positive and at most [MAX_N_SECTOR_READS], the
    lists of neighbours fit [aligned_dist_scratch], and there is at least one
    and at most [l_search] entry points, all different and known.  The nodes it evaluates, the candidates and the other
    occupants of the pages it read, are evaluated once each, at the vector
    that their current location holds.  It stops at a fixed point: although a
    page is read only once, every candidate of the final pool was evaluated,
    and a neighbour of any evaluated node is in the pool unless the pool is full
    with candidates that are all at least as close. *)
Theorem page_search_correct {D} `{!DistOrd D} g st m cur_id (pq_dist : Z -> D) exact_dist tags L bw entries k_search fuel :
  geometry_wf g -> index_inv g st -> graph_ok g st m cur_id -> degrees_le g st m dist_scratch_size ->
  (0 < bw <= MAX_N_SECTOR_READS)%nat -> Z.of_nat L < retset_size -> entries <> [] -> NoDup entries -> (length entries <= L)%nat ->
  (forall i, i ∈ entries -> known st i) -> (page_fuel st <= fuel)%nat ->
  exists pool expanded,
    do_page_search g st m pq_dist exact_dist L bw fuel entries = Ok expanded /\
    StronglySorted nb_le expanded /\ NoDup (id <$> expanded) /\ Forall (is_exact g st m exact_dist) expanded /\
    sorted_pool pool /\ (length pool <= L)%nat /\
    (forall x, x ∈ pool -> distance x = pq_dist (id x) /\ id x ∈ id <$> expanded) /\
    (forall i n j, i ∈ id <$> expanded -> read_node g st m i = Ok n -> j ∈ nbrs n ->
       j ∈ id <$> pool \/
       (length pool = L /\ forall x, x ∈ pool -> dlt (pq_dist j) (distance x) = false)) /\
    page_search g st m pq_dist exact_dist tags L bw fuel k_search entries =
      Ok ((fun x => (id2tag tags (id x), distance x)) <$> take k_search expanded).
Proof.
  intros Hg Hst Hgr Hdeg Hbw HL Hne Hnd Hl Hk Hf. pose proof (init_round g st m pq_dist exact_dist L entries Hne Hnd Hl Hk) as H0.
  destruct (page_loop_ok g Hg st Hst m cur_id Hgr Hdeg pq_dist exact_dist L HL bw ltac:(lia) fuel 0 [] (init_pages pq_dist L entries) H0)
    as (s & taken & E & [[Hsi Ht] [F1 F2 F3] Hc _ _ _ _ _ _ _ Hpre]).
  { pose proof (start_measure pq_dist L (known st) (fun _ => True) _ entries (page_known_dom st) (pi_pool _ _ _ _ _ _ (ri_pool _ _ _ _ _ _ _ _ _ H0))) as H.
    exact (Nat.lt_le_trans _ _ _ H Hf). }
  pose proof (std_sort_nb_perm (full_retset (pool s))) as Hp.
  exists (retset (pool s)), (std_sort_nb (full_retset (pool s))).
  assert (Edo : do_page_search g st m pq_dist exact_dist L bw fuel entries = Ok (std_sort_nb (full_retset (pool s)))).
  { unfold do_page_search. rewrite bool_decide_eq_false_2 by lia.
    destruct (Z.ltb_spec retset_size (Z.of_nat (length entries))); [lia|]. cbn [orb]. by rewrite E. }
  assert (Hnd' : NoDup (id <$> std_sort_nb (full_retset (pool s)))) by by rewrite Hp.
  split; [done|]. split; [apply std_sort_nb_strong|]. split; [done|]. split; [by rewrite Hp|].
  split; [apply (sv_sorted _ _ Hsi)|]. split; [apply (pt_length _ _ _ Ht)|]. split; [|split].
  - intros x Hx. split; [by apply (pt_dist _ _ _ Ht)|]. rewrite Hp. apply Hpre. by rewrite take_ge by done.
  - intros i n j Hi Hn Hj. rewrite Hp in Hi. by apply (pt_closest _ Ht j), (Hc i n j).
  - unfold page_search. rewrite Edo. cbn [mbind outcome_bind]. by rewrite copy_results_NoDup.
Qed.

(** A path of five nodes, two to a page. *)
Definition page_geom : geometry := {| max_node_len := 64; nnodes_per_sector := 2; data_dim := 1; sizeof_T := 1 |}.
Definition page_nodes : list node :=
  [{| coords := [10]; nbrs := [1] |}; {| coords := [20]; nbrs := [0; 2] |}; {| coords := [30]; nbrs := [1; 3] |};
   {| coords := [40]; nbrs := [2; 4] |}; {| coords := [50]; nbrs := [3] |}].
Definition page_file (off : Z) : Z :=
  match page_nodes !! Z.to_nat (2 * (off / SECTOR_LEN - 1) + (off mod SECTOR_LEN) / 64) with
  | Some n => node_bytes n !!! Z.to_nat (off mod 64)
  | None => 0
  end.
Definition page_map : map_state := load_page_layout page_geom 5 empty_map_state.
Definition page_pq (i : Z) : Z := 51 - 10 * i.
Definition page_exact (c : list Z) : Z := Z.abs (48 - c !!! 0%nat).

Lemma page_geom_wf : geometry_wf page_geom.
Proof. by constructor; vm_compute. Qed.

Lemma page_map_inv : index_inv page_geom page_map.
Proof. apply loaded_inv; [apply page_geom_wf | simpl; lia]. Qed.

Lemma page_graph_ok : graph_ok page_geom page_map page_file 4.
Proof. apply graph_check_ok. by vm_compute. Qed.

Lemma page_known i : i ∈ [0] -> known page_map i.
Proof. intros ->%list_elem_of_singleton. by eexists. Qed.

Lemma page_search_witness : exists pool expanded,
    do_page_search page_geom page_map page_file page_pq page_exact 3 1 40 [0] = Ok expanded /\
    StronglySorted nb_le expanded /\ NoDup (id <$> expanded) /\ Forall (is_exact page_geom page_map page_file page_exact) expanded /\
    sorted_pool pool /\ (length pool <= 3)%nat /\
    (forall x, x ∈ pool -> distance x = page_pq (id x) /\ id x ∈ id <$> expanded) /\
    (forall i n j, i ∈ id <$> expanded -> read_node page_geom page_map page_file i = Ok n -> j ∈ nbrs n ->
       j ∈ id <$> pool \/
       (length pool = 3%nat /\ forall x, x ∈ pool -> dlt (page_pq j) (distance x) = false)) /\
    page_search page_geom page_map page_file page_pq page_exact ∅ 3 1 40 2 [0] =
      Ok ((fun x => (id2tag ∅ (id x), distance x)) <$> take 2 expanded).
Proof.
  apply (page_search_correct page_geom page_map page_file 4 page_pq page_exact ∅ 3 1 [0] 2 40).
  - apply page_geom_wf.
  - apply page_map_inv.
  - apply page_graph_ok.
  - apply degree_check_ok. by vm_compute.
  - unfold MAX_N_SECTOR_READS. lia.
  - by vm_compute.
  - done.
  - apply NoDup_singleton.
  - simpl. lia.
  - apply page_known.
  - apply (bool_decide_unpack _). by vm_compute.
Defined.

(** Three pages are read; the nodes 1 and 3 are evaluated as the rest of their
    pages. *)
Example page_search_ex :
  page_search page_geom page_map page_file page_pq page_exact ∅ 3 1 40 3 [0] = Ok [(4, 2); (3, 8); (2, 18)].
Proof. by vm_compute. Qed.

(** The rest of the last page is never evaluated: node 1 is closer than node 0
    and on the page that was read for it, and is not in the result. *)
Example page_search_last :
  page_search page_geom page_map page_file (fun i => 10 * i) page_exact ∅ 1 1 40 9 [0] = Ok [(0, 38)] /\
  read_node page_geom page_map page_file 1 = Ok {| coords := [20]; nbrs := [0; 2] |} /\ page_exact [20] = 28.
Proof. by vm_compute. Qed.
