(* ===== verification/CoroSearch.v ===== *)
(** * Interleaved searches

    [coro_search] of [src/search/coro_search.cpp]: up to eight queries of one
    thread, each a state machine that sends a batch of reads and expands the
    nodes when all of them have arrived.  The thread visits the queries in
    turn; a visit polls the device, which finishes requests of any of the
    queries, and goes on when the batch of the visited query is not complete.

    The search is written for an index that was not updated: a node is read at
    the location that equals its identifier, and identifiers are returned in
    place of tags.  The buffers of a query ([CoroDataOne]) are arrays of fixed
    size: a vector of 512 coordinates for the query, 128 sectors, the vectors
    of the expanded nodes, 512 distances, and a pool of 4096 candidates.  A
    run that would leave one of them is a [Crash]. *)
From S2P Require Import Prelude Cuckoo Layout PageAlloc Mapping Node Neighbor CandidatePool BeamSearch PipeSearch PageSearch Arrays.
Import Cuckoo.

Definition kMaxCoroPerThread : nat := 8.
Definition kMaxVectorDim : Z := 512.

(** The bytes of [sectors], the coordinates of [data_buf], the entries of
    [dist_scratch] and of the pool, which [reset] sizes. *)
Definition coro_sectors_size : Z := SECTOR_LEN * 128.
Definition coro_data_size : Z := ROUND_UP (1024 * kMaxVectorDim) 256.
Definition coro_dists_size : Z := 512.
Definition coro_retset_size : Z := 4096.

(** [CoroDataOne]: the pool, the position, the batch and the completion flags
    of its requests.  [data_buf_idx] is the number of expanded nodes. *)
Record coro (D : Type) := {
  cs : search_state D;
  ck : nat;
  frontier : list Z;
  finished : list bool;
}.
Arguments cs {_} _.
Arguments ck {_} _.
Arguments frontier {_} _.
Arguments finished {_} _.

Section coro.
Context {D : Type} `{!DistOrd D}.
Context (g : geometry) (m : Z -> Z) (aligned_dim : Z).
(** The distances of each query. *)
Context (pq_dist : nat -> Z -> D) (exact_dist : nat -> list Z -> D).
Context (L beam_width : nat).
(** [arrives t v j]: the poll number [t] finds request [j] of query [v] finished. *)
Context (arrives : nat -> nat -> nat -> bool).

(** The node in the sector that was read for the identifier [i]. *)
Definition coro_node (i : Z) : node :=
  disk_node g m (u64 (loc_sector_no g i * SECTOR_LEN) + loc_sector_off g i).

Definition search_ends (c : coro D) : bool := bool_decide (length (retset (cs c)) <= ck c)%nat.

Definition issue_next_io_batch (c : coro D) : outcome (coro D) :=
  if search_ends c then Ok c
  else
    let '(f, tail) := select_frontier beam_width (drop (ck c) (retset (cs c))) in
    if coro_sectors_size <? Z.of_nat (length f) * size_per_io g then Crash
    else Ok {| cs := set_pool (take (ck c) (retset (cs c)) ++ tail) (cs c); ck := ck c;
               frontier := f; finished := replicate (length f) false |}.

(** [reader->poll]: requests of any query may be finished. *)
Definition poll (t : nat) (l : list (coro D)) : list (coro D) :=
  imap (fun v c => {| cs := cs c; ck := ck c; frontier := frontier c; finished := imap (fun j b => b || arrives t v j) (finished c) |}) l.

Definition io_finished (c : coro D) : bool := forallb (fun b => b) (finished c).

(** A neighbour goes into the pool of fixed size. *)
Definition coro_push (v : nat) (i : Z) (sk : search_state D * nat) : outcome (search_state D * nat) :=
  let '(s, nk) := sk in
  if decide (i ∈ visited_ids s) then Ok (s, nk) else
  '(ret, nk) ← pool_push_in (pq_dist v) coro_retset_size (l_search s) i (retset s, nk);
  Ok ({| retset := ret; visited_ids := {[i]} ∪ visited_ids s; full_retset := full_retset s; l_search := l_search s |}, nk).

Definition explore_node (v : nat) (i : Z) (sk : search_state D * nat) : outcome (search_state D * nat) :=
  let '(s, nk) := sk in
  let n := coro_node i in
  if (coro_data_size <? (Z.of_nat (length (full_retset s)) + 1) * aligned_dim) ||
     (coro_dists_size <? Z.of_nat (length (nbrs n))) then Crash
  else foldM (coro_push v) (nbrs n) (compute_exact_dists_and_push (exact_dist v) n i s, nk).

Definition explore_frontier (v : nat) (c : coro D) : outcome (coro D) :=
  '(s, nk) ← foldM (explore_node v) (frontier c) (cs c, length (retset (cs c)));
  Ok {| cs := s; ck := if bool_decide (nk <= ck c)%nat then nk else S (ck c);
        frontier := frontier c; finished := finished c |}.

(** A turn of the thread at query [v]; the state has the number of polls and
    whether all queries have finished. *)
Definition visit (v : nat) (s : nat * list (coro D) * bool) : outcome (nat * list (coro D) * bool) :=
  let '(t, l, all_finished) := s in
  c ← rd l v;
  if search_ends c then Ok (t, l, all_finished)
  else
    let l := poll t l in
    c ← rd l v;
    if io_finished c then
      c ← explore_frontier v c;
      c ← issue_next_io_batch c;
      Ok (S t, <[v := c]> l, false)
    else Ok (S t, l, false).

Fixpoint coro_loop (fuel t : nat) (l : list (coro D)) : outcome (list (coro D)) :=
  match fuel with
  | O => Crash
  | S fuel =>
      '(t, l, all_finished) ← foldM visit (seq 0 (length l)) (t, l, true);
      if all_finished : bool then Ok l else coro_loop fuel t l
  end.

Definition coro_init (v : nat) (entries : list Z) : coro D :=
  {| cs := init_search (pq_dist v) L entries; ck := 0; frontier := []; finished := [] |}.

(** The query and its entry points fit their buffers. *)
Definition query_fits (entries : list Z) : bool :=
  (aligned_dim <=? kMaxVectorDim) && (Z.of_nat (length entries) <=? coro_dists_size).

Definition first_batch (c : coro D) (l : list (coro D)) : outcome (list (coro D)) :=
  c ← issue_next_io_batch c; Ok (l ++ [c]).

Definition coro_results (k_search : nat) (c : coro D) : list (Z * D) :=
  copy_results ∅ None k_search (std_sort_nb (full_retset (cs c))).

(** [queries]: the entry points of each query. *)
Definition coro_search (fuel k_search : nat) (data_is_normalized : bool) (queries : list (list Z)) :
    outcome (list (list (Z * D))) :=
  if bool_decide (kMaxCoroPerThread < length queries)%nat || data_is_normalized || negb (forallb query_fits queries) then Crash
  else
    l ← foldM first_batch (imap coro_init queries) [];
    l ← coro_loop fuel 0 l;
    Ok (coro_results k_search <$> (l : list (coro D))).
End coro.

(** ** Each query is a beam search *)
Section refinement.
Context {D : Type} `{!DistOrd D}.
Context (g : geometry) (Hgeom : geometry_wf g) (st : map_state) (m : Z -> Z) (aligned_dim : Z) (Hdim : 0 <= aligned_dim).
Context (Hstatic : forall i loc, id2loc_ st !! i = Some loc -> loc = i /\ loc_ok i).
Context (cur_id n_slots : Z) (tags : gmap Z Z) (exclude : gset Z).
Context (pq_dist : nat -> Z -> D) (exact_dist : nat -> list Z -> D).
Context (L beam_width : nat) (Hdeg : degrees_le g st m coro_dists_size) (HL : Z.of_nat L < coro_retset_size).

Abbreviation pool_state := (search_state D).
Abbreviation beam_expand v := (expand_node g st m cur_id n_slots (pq_dist v) (exact_dist v) tags exclude false L).
Abbreviation beam_round v := (search_round g st m cur_id n_slots (pq_dist v) (exact_dist v) tags exclude false L beam_width).
Abbreviation beam_loop v := (search_loop g st m cur_id n_slots (pq_dist v) (exact_dist v) tags exclude false L beam_width (fun _ => false)).
Abbreviation coro_expand := (explore_node g m aligned_dim pq_dist exact_dist).

(** The vectors that fit the buffer of a query. *)
Definition fits (s : pool_state) : Prop := Z.of_nat (length (full_retset s)) * aligned_dim <= coro_data_size.

(** The pool stays inside its array. *)
Definition room (s : pool_state) : Prop := l_search s = L /\ (length (retset s) <= L)%nat.

Lemma read_same i n : read_node g st m i = Ok n -> coro_node g m i = n.
Proof using Hgeom Hstatic.
  unfold read_node, id2loc, find, find_fn. intros H. destruct (id2loc_ st !! i) as [loc|] eqn:E; [|done].
  destruct (Hstatic i loc E) as [-> Hl]. cbn in H. injection H as <-. unfold coro_node. f_equal.
  rewrite (u_loc_offset_eq g Hgeom), (loc_sector_off_eq g Hgeom), (loc_sector_no_eq g Hgeom) by done. f_equal.
  pose proof (loc_div_range g Hgeom i Hl) as Hd. destruct Hl as [_ Hl]. unfold SECTOR_LEN.
  apply u64_small. clear -Hd Hl. lia.
Qed.

Lemma push_one v i sk sk' : room sk.1 -> expand_neighbor cur_id (pq_dist v) i sk = Ok sk' ->
  coro_push pq_dist v i sk = Ok sk' /\ room sk'.1.
Proof using HL.
  destruct sk as [s nk]. intros [Hr1 Hr2] E. cbn [fst] in Hr1, Hr2. unfold expand_neighbor in E. destruct (cur_id <? i); [done|].
  unfold push_neighbor in E. unfold coro_push. case_decide; [by injection E as <-|].
  rewrite pool_push_in_eq by (rewrite Hr1; done).
  destruct (pool_push _ _ _ _) as [[r n]|] eqn:Ep; [|done]. cbn [mbind outcome_bind] in *. injection E as <-.
  split; [done|]. apply pool_push_length in Ep; [|by rewrite Hr1]. split; [done|]. cbn [fst] in Ep. by rewrite Hr1 in Ep.
Qed.

Lemma push_full v l : forall sk sk', room sk.1 -> foldM (expand_neighbor cur_id (pq_dist v)) l sk = Ok sk' ->
  foldM (coro_push pq_dist v) l sk = Ok sk' /\ room sk'.1.
Proof using HL.
  induction l as [|i l IH]; intros sk sk' Hr H; [by injection H as <-|]. cbn [foldM] in *.
  destruct (expand_neighbor cur_id (pq_dist v) i sk) as [sk1|] eqn:E; [|done]. cbn [mbind outcome_bind] in H.
  destruct (push_one v i sk sk1 Hr E) as [-> Hr1]. cbn [mbind outcome_bind]. by apply IH.
Qed.

Lemma expand_full v i s nk s' nk' : room s -> beam_expand v i (s, nk) = Ok (s', nk') ->
  length (full_retset s') = S (length (full_retset s)) /\ room s' /\
  (fits s' -> coro_expand v i (s, nk) = Ok (s', nk')).
Proof using Hgeom Hstatic Hdeg HL.
  intros Hr H. unfold expand_node in H. destruct (read_node g st m i) as [n|] eqn:En; [|done]. cbn [mbind outcome_bind] in H.
  destruct (_ <? n_slots); [|done]. destruct (dist_scratch_size <? _); [done|].
  destruct (foldM _ (nbrs n) _) as [[s1 n1]|] eqn:E; [|done]. cbn [mbind outcome_bind dyn_update] in H. injection H as <- <-.
  pose proof (neighbors_expanded _ _ _ _ _ E) as Ef. cbn [fst full_retset] in Ef.
  apply push_full in E as [Ep Hr']; [|exact Hr]. cbn [fst] in Hr'.
  assert (Hl : length (full_retset s1) = S (length (full_retset s))) by (rewrite Ef, length_app; cbn; clear; lia).
  split; [done|]. split; [done|]. intros Hfit. unfold explore_node. unfold fits in Hfit. rewrite Hl in Hfit.
  rewrite (read_same i n En). pose proof (Hdeg i n En) as Hd.
  destruct (Z.ltb_spec coro_data_size ((Z.of_nat (length (full_retset s)) + 1) * aligned_dim)) as [Hlt|_].
  { exfalso. clear -Hlt Hfit. lia. }
  destruct (Z.ltb_spec coro_dists_size (Z.of_nat (length (nbrs n)))) as [Hlt|_]; [exfalso; clear -Hlt Hd; lia|]. done.
Qed.

Lemma fits_le s s' : (length (full_retset s) <= length (full_retset s'))%nat -> fits s' -> fits s.
Proof using Hdim. unfold fits. intros Hl Hf. clear -Hl Hf Hdim. nia. Qed.

Lemma expand_all v : forall f s nk s' nk', room s -> foldM (beam_expand v) f (s, nk) = Ok (s', nk') ->
  (length (full_retset s) <= length (full_retset s'))%nat /\ room s' /\
  (fits s' -> foldM (coro_expand v) f (s, nk) = Ok (s', nk')).
Proof using Hgeom Hstatic Hdim Hdeg HL.
  induction f as [|i f IH]; intros s nk s' nk' Hr H; [by injection H as <- <-|]. cbn [foldM] in *.
  destruct (beam_expand v i (s, nk)) as [[s1 n1]|] eqn:E; [|done]. cbn [mbind outcome_bind] in H.
  destruct (expand_full v i s nk s1 n1 Hr E) as (Hl & Hr1 & He). destruct (IH s1 n1 s' nk' Hr1 H) as (Hl' & Hr' & He').
  split; [clear -Hl Hl'; lia|]. split; [done|].
  intros Hf. rewrite He by (by eapply fits_le). cbn [mbind outcome_bind]. by apply He'.
Qed.

(** The selection of a round. *)
Lemma select_pool k (s : pool_state) f tail : (k < length (retset s))%nat -> select_frontier beam_width (drop k (retset s)) = (f, tail) ->
  length (take k (retset s) ++ tail) = length (retset s).
Proof using Type.
  intros Hk Hsel. destruct (select_length _ _ _ _ Hsel) as [Ht _].
  rewrite length_app, length_take, Ht, length_drop. clear -Hk. lia.
Qed.

Lemma room_select k s f tail : (k < length (retset s))%nat -> select_frontier beam_width (drop k (retset s)) = (f, tail) ->
  room s -> room (set_pool (take k (retset s) ++ tail) s).
Proof using Type. intros Hk Hsel [H1 H2]. split; [done|]. cbn [set_pool retset]. by rewrite (select_pool k s f tail). Qed.

Lemma beam_loop_full v : forall F hops k s R, room s -> beam_loop v F hops k s = Ok R ->
  (length (full_retset s) <= length (full_retset R))%nat.
Proof using Hgeom Hstatic Hdim Hdeg HL.
  induction F as [|F IH]; intros hops k s R Hr H; [done|]. cbn [search_loop] in H. case_bool_decide as Hk; [|by injection H as <-].
  destruct (beam_round v k s) as [[s1 k1]|] eqn:E; [|done]. cbn [mbind outcome_bind] in H.
  unfold search_round in E. destruct (select_frontier _ _) as [f tail] eqn:Hsel. destruct (sector_scratch_size <? _); [done|].
  destruct (foldM _ f _) as [[s2 n2]|] eqn:Ef; [|done].
  injection E as <- <-. apply expand_all in Ef as (Hl & Hr2 & _); [|by apply (room_select k s f tail)].
  apply IH in H; [|done]. cbn [full_retset] in Hl. clear -Hl H. lia.
Qed.

(** *** The state of a query between two turns *)
Context (Hbw : Z.of_nat beam_width * size_per_io g <= coro_sectors_size) (arrives : nat -> nat -> nat -> bool) (d : nat).
Context (Hfair : forall t v j, exists k, (k < d)%nat /\ arrives (t + k) v j = true).

(** A batch is being read: the state is the one after the selection of a round
    of the beam search, which has [F] rounds left; it was sent before poll
    [sent]. *)
Record running (v : nat) (R : pool_state) (F sent t : nat) (c : coro D) : Prop := {
  rn_round : exists s hops tail, room s /\ beam_loop v F hops (ck c) s = Ok R /\ (ck c < length (retset s))%nat /\
    select_frontier beam_width (drop (ck c) (retset s)) = (frontier c, tail) /\
    cs c = set_pool (take (ck c) (retset s) ++ tail) s;
  rn_sent : (sent <= t)%nat;
  rn_arrived : forall j b, finished c !! j = Some b ->
    (exists t0, (sent <= t0 < t)%nat /\ arrives t0 v j = true) -> b = true;
}.

(** [P] bounds the number of turns the query still needs. *)
Definition synced (v : nat) (R : pool_state) (t P : nat) (c : coro D) : Prop :=
  (search_ends c = true /\ cs c = R) \/
  (search_ends c = false /\ exists F sent, running v R F sent t c /\ (F * S d <= P + Nat.min d (t - sent))%nat).

Lemma synced_weaken v R t P P' c : (P <= P')%nat -> synced v R t P c -> synced v R t P' c.
Proof using Type. intros HP [H|(H & F & sent & Hr & Hp)]; [by left | right]. split; [done|]. exists F, sent. split; [done | clear -HP Hp; lia]. Qed.

Lemma running_length v R F sent t c : running v R F sent t c -> search_ends c = false /\ (0 < F)%nat.
Proof using Type.
  intros [(s & hops & tail & _ & Hl & Hk & Hsel & Hc) _ _]. split; [|destruct F; [done | clear; lia]].
  unfold search_ends. apply bool_decide_eq_false_2. rewrite Hc. cbn [set_pool retset].
  rewrite (select_pool _ _ _ _ Hk Hsel). clear -Hk. lia.
Qed.

(** Sending the next batch. *)
Lemma issue_ok v R F hops t c : room (cs c) -> beam_loop v F hops (ck c) (cs c) = Ok R ->
  exists c', issue_next_io_batch g beam_width c = Ok c' /\ synced v R t (F * S d) c'.
Proof using Hbw.
  intros Hroom H. unfold issue_next_io_batch. destruct (search_ends c) eqn:Ee.
  - exists c. split; [done|]. left. split; [done|]. unfold search_ends in Ee. apply bool_decide_eq_true_1 in Ee.
    destruct F as [|F]; [done|]. cbn [search_loop] in H. rewrite bool_decide_eq_false_2 in H by (clear -Ee; lia). by injection H.
  - destruct (select_frontier beam_width _) as [f tail] eqn:Hsel. destruct (select_length _ _ _ _ Hsel) as [_ Hf].
    destruct (Z.ltb_spec coro_sectors_size (Z.of_nat (length f) * size_per_io g)) as [Hlt|_].
    { exfalso. assert (0 <= size_per_io g) as H0 by apply u64_range. clear -Hlt Hf Hbw H0. nia. }
    eexists. split; [done|]. right.
    unfold search_ends in Ee. apply bool_decide_eq_false_1 in Ee.
    assert (Hr : running v R F t t {| cs := set_pool (take (ck c) (retset (cs c)) ++ tail) (cs c); ck := ck c; frontier := f; finished := replicate (length f) false |}).
    { constructor; cbn [cs ck frontier finished]; [|done|].
      - exists (cs c), hops, tail. split; [done|]. split; [done|]. split; [clear -Ee; lia | done].
      - intros j b _ (t0 & Ht & _). exfalso. clear -Ht. lia. }
    split; [apply (running_length _ _ _ _ _ _ Hr)|]. exists F, t. split; [done | clear; lia].
Qed.

(** Expanding a batch is the round of the beam search. *)
Lemma explore_ok v R F sent t c : fits R -> running v R F sent t c ->
  exists c' hops, explore_frontier g m aligned_dim pq_dist exact_dist v c = Ok c' /\ room (cs c') /\
    beam_loop v (F - 1) hops (ck c') (cs c') = Ok R.
Proof using Hgeom Hstatic Hdim Hdeg HL.
  intros Hfit Hr. destruct (running_length _ _ _ _ _ _ Hr) as [_ HF]. destruct Hr as [(s & hops & tail & Hroom & Hl & Hk & Hsel & Hc) _ _].
  destruct F as [|F]; [exfalso; clear -HF; lia|]. replace (S F - 1)%nat with F by (clear; lia).
  cbn [search_loop] in Hl. rewrite bool_decide_eq_true_2 in Hl by done.
  destruct (beam_round v (ck c) s) as [[s1 k1]|] eqn:E; [|done]. cbn [mbind outcome_bind] in Hl.
  unfold search_round in E. rewrite Hsel in E. fold (set_pool (take (ck c) (retset s) ++ tail) s) in E. rewrite <- Hc in E.
  destruct (sector_scratch_size <? _); [done|]. destruct (foldM (beam_expand v) _ _) as [[s2 n2]|] eqn:Ef; [|done]. injection E as <- <-.
  assert (Hrc : room (cs c)) by (rewrite Hc; by apply (room_select (ck c) s (frontier c) tail)).
  pose proof (expand_all v _ _ _ _ _ Hrc Ef) as (_ & Hr2 & He). pose proof (beam_loop_full v _ _ _ _ _ Hr2 Hl) as Hle.
  assert (Hlen : length (retset (cs c)) = length (retset s)).
  { rewrite Hc. cbn [set_pool retset]. by apply (select_pool _ _ (frontier c)). }
  unfold explore_frontier. rewrite Hlen, He by (by eapply fits_le). cbn [mbind outcome_bind].
  eexists _, (S hops). split; [done|]. split; [exact Hr2 | exact Hl].
Qed.

(** A poll. *)
Definition polled (t v : nat) (c : coro D) : coro D :=
  {| cs := cs c; ck := ck c; frontier := frontier c; finished := imap (fun j b => b || arrives t v j) (finished c) |}.

Lemma running_poll v R F sent t c : running v R F sent t c -> running v R F sent (S t) (polled t v c).
Proof using Type.
  intros [H1 H2 H3]. constructor; cbn [polled cs ck frontier finished]; [done | clear -H2; lia |].
  intros j b Hb (t0 & Ht & Ha). rewrite list_lookup_imap in Hb. destruct (finished c !! j) as [b0|] eqn:E; [|done].
  injection Hb as <-. destruct (decide (t0 = t)) as [->|Hne]; [by rewrite Ha, orb_true_r|].
  rewrite (H3 j b0 E); [done|]. exists t0. split; [clear -Ht Hne; lia | done].
Qed.

Lemma synced_poll v R t P c : synced v R t P c -> synced v R (S t) P (polled t v c).
Proof using Type.
  intros [H|(H & F & sent & Hr & Hp)]; [by left | right]. split; [done|]. exists F, sent. split; [by apply running_poll|].
  clear -Hp. lia.
Qed.

(** When the batch is not complete after [d] polls, the device is not fair. *)
Lemma running_waits v R F sent t c : running v R F sent t c -> io_finished c = false -> (t - sent < d)%nat.
Proof using Hfair.
  intros [_ Hs Ha] Hio. destruct (decide (t - sent < d)%nat) as [|Hge]; [done|]. exfalso.
  assert (Ht : io_finished c = true); [|by rewrite Ht in Hio]. unfold io_finished. apply forallb_forall. intros b Hb.
  apply list_elem_of_In, list_elem_of_lookup in Hb as (j & Hj). apply (Ha j b Hj).
  destruct (Hfair sent v j) as (k & Hk & Hak). exists (sent + k)%nat. split; [clear -Hk Hge Hs; lia | done].
Qed.

(** *** All queries *)
Context (n : nat) (Rs : nat -> pool_state) (Hfits : forall v, (v < n)%nat -> fits (Rs v)).

Abbreviation turn := (visit g m aligned_dim pq_dist exact_dist beam_width arrives).
Abbreviation main_loop := (coro_loop g m aligned_dim pq_dist exact_dist beam_width arrives).

Definition all_synced (t : nat) (Q : nat -> nat) (l : list (coro D)) : Prop :=
  length l = n /\ forall v c, l !! v = Some c -> synced v (Rs v) t (Q v) c.

Lemma poll_lookup t (l : list (coro D)) v : poll arrives t l !! v = polled t v <$> l !! v.
Proof using Type. unfold poll. by rewrite list_lookup_imap. Qed.

Lemma visit_ok v t Q l af : (v < n)%nat -> all_synced t Q l ->
  exists t' l' af', turn v (t, l, af) = Ok (t', l', af') /\
    all_synced t' (fun w => if decide (w = v) then Q v - 1 else Q w)%nat l' /\
    (af' = true -> af = true /\ l' = l /\ exists c, l !! v = Some c /\ search_ends c = true) /\
    (Q v = 0%nat -> af' = af).
Proof using Hgeom Hstatic Hdim Hdeg HL Hbw Hfair Hfits.
  intros Hv [Hl Hs]. destruct (lookup_lt_is_Some_2 l v) as [c Hc]; [by rewrite Hl|]. pose proof (Hs v c Hc) as Hsc.
  unfold visit. assert (rd l v = Ok c) as -> by (unfold rd; by rewrite Hc). cbn [mbind outcome_bind]. destruct (search_ends c) eqn:Ee.
  - exists t, l, af. split; [done|]. split; [|split; [|done]].
    + split; [done|]. intros w cw Hw. case_decide as E; [|by apply Hs]. subst w. rewrite Hc in Hw. injection Hw as <-.
      destruct Hsc as [H|[H _]]; [by left | by rewrite Ee in H].
    + intros ->. split; [done|]. split; [done|]. by exists c.
  - destruct Hsc as [[H _]|(_ & F & sent & Hr & Hp)]; [by rewrite Ee in H|].
    pose proof (running_length _ _ _ _ _ _ Hr) as [_ HF]. pose proof (running_poll _ _ _ _ _ _ Hr) as Hr'.
    assert (HQ : (0 < Q v)%nat) by (clear -Hp HF; nia).
    assert (Hothers : forall w cw, w <> v -> poll arrives t l !! w = Some cw -> synced w (Rs w) (S t) (Q w) cw).
    { intros w cw Hw. rewrite poll_lookup. destruct (l !! w) as [c0|] eqn:E; [|done]. intros [= <-]. by apply synced_poll, Hs. }
    assert (rd (poll arrives t l) v = Ok (polled t v c)) as -> by (unfold rd; by rewrite poll_lookup, Hc). cbn [mbind outcome_bind].
    assert (Hlen : length (poll arrives t l) = n) by (unfold poll; by rewrite length_imap).
    destruct (io_finished (polled t v c)) eqn:Eio.
    + destruct (explore_ok v (Rs v) F sent (S t) (polled t v c) (Hfits v Hv) Hr') as (c1 & hops & -> & Hroom & Hb).
      cbn [mbind outcome_bind]. destruct (issue_ok v (Rs v) (F - 1) hops (S t) c1 Hroom Hb) as (c2 & -> & Hs2). cbn [mbind outcome_bind].
      do 3 eexists. split; [done|]. split; [|split; [done | clear -HQ; lia]]. split; [by rewrite length_insert|].
      intros w cw Hw. case_decide as E.
      * subst w. rewrite list_lookup_insert_eq in Hw by (by rewrite Hlen). injection Hw as <-.
        apply (synced_weaken _ _ _ ((F - 1) * S d)); [clear -Hp HF; nia | done].
      * rewrite list_lookup_insert_ne in Hw by done. by apply Hothers.
    + do 3 eexists. split; [done|]. split; [|split; [done | clear -HQ; lia]]. split; [done|].
      intros w cw Hw. case_decide as E; [|by apply Hothers]. subst w. rewrite poll_lookup, Hc in Hw. injection Hw as <-.
      right. split; [exact Ee|]. exists F, sent. split; [done|]. pose proof (running_waits _ _ _ _ _ _ Hr' Eio) as Hwait.
      pose proof (rn_sent _ _ _ _ _ _ Hr) as Hst. clear -Hp HF Hwait Hst. nia.
Qed.

Lemma pass_ok t Q l k : (k <= n)%nat -> all_synced t Q l ->
  exists t' l' af', foldM turn (seq 0 k) (t, l, true) = Ok (t', l', af') /\
    all_synced t' (fun w => if decide (w < k) then Q w - 1 else Q w)%nat l' /\
    (af' = true -> l' = l /\ forall v c, (v < k)%nat -> l !! v = Some c -> search_ends c = true) /\
    ((forall v, Q v = 0%nat) -> af' = true).
Proof using Hgeom Hstatic Hdim Hdeg HL Hbw Hfair Hfits.
  intros Hk Hs. induction k as [|k IH].
  - exists t, l, true. split; [done|]. split; [exact Hs|]. split; [|done]. intros _. split; [done|]. intros v c Hv. exfalso. clear -Hv. lia.
  - destruct IH as (t1 & l1 & a1 & E & Hs1 & Ha & H0); [clear -Hk; lia|]. rewrite seq_S, foldM_app, E. cbn [mbind outcome_bind foldM Nat.add].
    destruct (visit_ok k t1 _ l1 a1 Hk Hs1) as (t2 & l2 & a2 & -> & Hs2 & Ha2 & H02). cbn [mbind outcome_bind].
    exists t2, l2, a2. split; [done|]. split; [|split].
    + destruct Hs2 as [Hl2 Hs2]. split; [done|]. intros v c Hv. specialize (Hs2 v c Hv). cbn beta in Hs2. revert Hs2.
      destruct (decide (v = k)) as [->|Hne].
      * rewrite (decide_False (P := (k < k)%nat)) by (clear; lia). by rewrite decide_True by (clear; lia).
      * destruct (decide (v < k)%nat); [rewrite decide_True by (clear -l0; lia) | rewrite decide_False by (clear -Hne n0; lia)]; done.
    + intros ->. destruct (Ha2 eq_refl) as (-> & -> & c & Hc & Hend). destruct (Ha eq_refl) as [-> Hall]. split; [done|].
      intros v c' Hv Hc'. destruct (decide (v = k)) as [->|Hne]; [congruence|]. apply (Hall v c'); [clear -Hv Hne; lia | done].
    + intros HQ. rewrite H02; [by apply H0|]. rewrite decide_False by (clear; lia). apply HQ.
Qed.

Lemma coro_loop_ok : forall fuel P t l, (P < fuel)%nat -> all_synced t (fun _ => P) l ->
  exists l', main_loop fuel t l = Ok l' /\ length l' = n /\ forall v c, l' !! v = Some c -> cs c = Rs v.
Proof using Hgeom Hstatic Hdim Hdeg HL Hbw Hfair Hfits.
  induction fuel as [|fuel IH]; intros P t l HP Hs; [exfalso; clear -HP; lia|]. cbn [coro_loop].
  pose proof Hs as [Hl _]. rewrite Hl.
  destruct (pass_ok t (fun _ => P) l n (le_n n) Hs) as (t' & l' & af & -> & Hs' & Ha & H0). cbn [mbind outcome_bind].
  destruct af.
  - destruct (Ha eq_refl) as [-> Hall]. exists l. split; [done|]. split; [done|]. intros v c Hc. destruct Hs as [_ Hs].
    assert (Hv : (v < n)%nat) by (rewrite <- Hl; by eapply lookup_lt_Some).
    destruct (Hs v c Hc) as [[_ ?]|[He _]]; [done | by rewrite (Hall v c Hv Hc) in He].
  - destruct P as [|P]; [by specialize (H0 (fun _ => eq_refl))|]. apply (IH P t' l'); [clear -HP; lia|].
    destruct Hs' as [Hl' Hs']. split; [done|]. intros v c Hc. specialize (Hs' v c Hc). cbn beta in Hs'.
    rewrite decide_True in Hs' by (rewrite <- Hl'; by eapply lookup_lt_Some). by replace (S P - 1)%nat with P in Hs' by (clear; lia).
Qed.

Lemma first_batches_ok (Phi : nat -> coro D -> Prop) : forall (l acc : list (coro D)) off,
  (forall v c, l !! v = Some c -> exists c', issue_next_io_batch g beam_width c = Ok c' /\ Phi (off + v)%nat c') ->
  exists l', foldM (first_batch g beam_width) l acc = Ok (acc ++ l') /\ length l' = length l /\
    forall v c', l' !! v = Some c' -> Phi (off + v)%nat c'.
Proof using Type.
  induction l as [|c l IH]; intros acc off H; [exists []; rewrite app_nil_r; by split_and!|]. cbn [foldM].
  destruct (H 0%nat c eq_refl) as (c' & E & Hp). assert (first_batch g beam_width c acc = Ok (acc ++ [c'])) as -> by (unfold first_batch; by rewrite E).
  cbn [mbind outcome_bind].
  destruct (IH (acc ++ [c']) (S off)) as (l' & -> & Hl & Hl').
  { intros v c0 Hv. destruct (H (S v) c0 Hv) as (c1 & ? & Hp1). exists c1. split; [done|]. by rewrite Nat.add_succ_r in Hp1. }
  exists (c' :: l'). rewrite <- app_assoc. split; [done|]. split; [cbn; by rewrite Hl|].
  intros [|v] c0 Hv; [injection Hv as <-; done|]. specialize (Hl' v c0 Hv). by rewrite Nat.add_succ_r.
Qed.
End refinement.

(** The search of one query alone, for the comparison. *)
Definition alone {D} `{!DistOrd D} g st m cur_id n_slots (pq_dist : nat -> Z -> D) exact_dist tags exclude L bw F v entries :=
  do_beam_search g st m cur_id n_slots (pq_dist v) (exact_dist v) tags exclude false L bw (fun _ => false) F entries.

(** C18. Interleaving does not change results.  On an index that was not updated,
    for at most eight queries and any device that finishes every request within
    [d] polls, in any order and across queries, [coro_search] ends and returns
    for each query the nodes that [beam_search] expands for it alone, in
    the same order.  The conditions are those of the fixed buffers of a query:
    at most 512 coordinates, reads of a beam within 128 sectors, lists of at
    most 512 neighbours, fewer than 4096 places in the pool ([l_search]), at
    most [l_search] and 512 entry points, and expanded vectors that fit
    [data_buf]. *)
Theorem coro_search_refines_beam {D} `{!DistOrd D} g st m aligned_dim cur_id n_slots tags exclude (pq_dist : nat -> Z -> D) exact_dist
    L bw arrives d F fuel k_search queries results :
  geometry_wf g -> 0 <= aligned_dim <= kMaxVectorDim -> (forall i loc, id2loc_ st !! i = Some loc -> loc = i /\ loc_ok i) ->
  degrees_le g st m coro_dists_size -> Z.of_nat L < coro_retset_size ->
  Z.of_nat bw * size_per_io g <= coro_sectors_size -> (forall t v j, exists k, (k < d)%nat /\ arrives (t + k)%nat v j = true) ->
  (length queries <= kMaxCoroPerThread)%nat -> length results = length queries ->
  (forall v entries expanded, queries !! v = Some entries -> results !! v = Some expanded ->
     (length entries <= L)%nat /\ Z.of_nat (length entries) <= coro_dists_size /\
     alone g st m cur_id n_slots pq_dist exact_dist tags exclude L bw F v entries = Ok expanded /\
     Z.of_nat (length expanded) * aligned_dim <= coro_data_size) ->
  (F * S d < fuel)%nat ->
  coro_search g m aligned_dim pq_dist exact_dist L bw arrives fuel k_search false queries =
    Ok (copy_results ∅ None k_search <$> results).
Proof.
  intros Hg [Hdim Hdim'] Hst Hdeg HL Hbw Hfair Hq Hlen Hres Hfuel.
  set (loop v e := search_loop g st m cur_id n_slots (pq_dist v) (exact_dist v) tags exclude false L bw (fun _ => false) F 0 0 (init_search (pq_dist v) L e)).
  set (Rs v := match queries !! v with Some e => match loop v e with Ok R => R | Crash => init_search (pq_dist v) L e end
               | None => init_search (pq_dist v) L [] end).
  assert (HR : forall v e, queries !! v = Some e -> query_fits aligned_dim e = true /\ (length e <= L)%nat /\
    exists E, results !! v = Some E /\ loop v e = Ok (Rs v) /\ E = std_sort_nb (full_retset (Rs v)) /\ fits aligned_dim (Rs v)).
  { intros v e He. destruct (lookup_lt_is_Some_2 results v) as [E HE]; [rewrite Hlen; by eapply lookup_lt_Some|].
    destruct (Hres v e E He HE) as (Hl1 & Hl2 & Ha & Hf). split; [unfold query_fits; by rewrite andb_true_iff, !Z.leb_le|].
    split; [done|]. unfold alone, do_beam_search, search_run in Ha. case_bool_decide; [|done]. fold (loop v e) in Ha.
    destruct (loop v e) as [R|] eqn:El; [|done]. cbn [mbind outcome_bind] in Ha. injection Ha as <-. exists (std_sort_nb (full_retset R)).
    assert (Rs v = R) as -> by (unfold Rs; by rewrite He, El). split; [done|]. split; [done|]. split; [done|].
    unfold fits. by rewrite (Permutation_length (std_sort_nb_perm (full_retset R))) in Hf. }
  assert (Hqf : forallb (query_fits aligned_dim) queries = true).
  { apply forallb_forall. intros e He. apply list_elem_of_In, list_elem_of_lookup in He as [v He]. apply (HR v e He). }
  unfold coro_search. rewrite bool_decide_eq_false_2, Hqf by lia. cbn [orb negb].
  destruct (first_batches_ok g bw (fun v c => synced g st m cur_id n_slots tags exclude pq_dist exact_dist L bw arrives d v (Rs v) 0 (F * S d) c)
    (imap (coro_init pq_dist L) queries) [] 0) as (l & -> & Hl & Hs).
  { intros v c Hc. rewrite list_lookup_imap in Hc. destruct (queries !! v) as [e|] eqn:He; [|done]. injection Hc as <-.
    destruct (HR v e He) as (_ & Hle & E & _ & El & _).
    apply (issue_ok g st m cur_id n_slots tags exclude pq_dist exact_dist L bw Hbw arrives d v (Rs v) F 0); [|done].
    split; [done|]. cbn. by rewrite (Permutation_length (std_sort_nb_perm _)), length_fmap. }
  cbn [app mbind outcome_bind]. rewrite length_imap in Hl.
  destruct (coro_loop_ok g Hg st m aligned_dim Hdim Hst cur_id n_slots tags exclude pq_dist exact_dist L bw Hdeg HL Hbw arrives d Hfair
    (length queries) Rs) with (fuel := fuel) (P := (F * S d)%nat) (t := 0%nat) (l := l) as (l' & -> & Hl' & Hc); [|done|done|].
  { intros v Hv. destruct (lookup_lt_is_Some_2 queries v Hv) as [e He]. by destruct (HR v e He) as (_ & _ & ? & _ & _ & _ & ?). }
  cbn [mbind outcome_bind]. f_equal. apply list_eq. intros v. rewrite !list_lookup_fmap.
  destruct (queries !! v) as [e|] eqn:He.
  - destruct (HR v e He) as (_ & _ & E & -> & _ & -> & _). destruct (lookup_lt_is_Some_2 l' v) as [c Hcv]; [rewrite Hl'; by eapply lookup_lt_Some|].
    rewrite Hcv. cbn. unfold coro_results. by rewrite (Hc v c Hcv).
  - apply lookup_ge_None_1 in He. by rewrite (lookup_ge_None_2 results), (lookup_ge_None_2 l') by lia.
Qed.

(** Two queries on the path of four nodes; every request finishes at the third
    poll after a multiple of three. *)
Definition coro_pq (v : nat) (i : Z) : Z := if bool_decide (v = 0%nat) then path_pq i else 10 * i.
Definition coro_exact (v : nat) (c : list Z) : Z := if bool_decide (v = 0%nat) then path_exact c else Z.abs (11 - c !!! 0%nat).
Definition coro_arrives (t v j : nat) : bool := bool_decide (t mod 3 = 0)%nat.

Lemma coro_search_witness :
  coro_search path_geom path_file 1 coro_pq coro_exact 3 2 coro_arrives 200 2 false [[0]; [3]] =
    Ok (copy_results ∅ None 2 <$>
      [[{| id := 3; distance := 1; flag := true; visited := false |}; {| id := 2; distance := 9; flag := true; visited := false |};
        {| id := 1; distance := 19; flag := true; visited := false |}; {| id := 0; distance := 29; flag := true; visited := false |}];
       [{| id := 0; distance := 1; flag := true; visited := false |}; {| id := 1; distance := 9; flag := true; visited := false |};
        {| id := 2; distance := 19; flag := true; visited := false |}; {| id := 3; distance := 29; flag := true; visited := false |}]]).
Proof.
  apply (coro_search_refines_beam path_geom path_map path_file 1 3 100 ∅ ∅ coro_pq coro_exact 3 2 coro_arrives 3 40 200 2 [[0]; [3]]).
  - apply path_geom_wf.
  - unfold kMaxVectorDim. lia.
  - intros i loc H. apply elem_of_list_to_map_2 in H. rewrite !elem_of_cons in H.
    destruct H as [[= -> ->]|[[= -> ->]|[[= -> ->]|[[= -> ->]|H%elem_of_nil]]]]; done.
  - by apply path_degrees.
  - by vm_compute.
  - by vm_compute.
  - intros t v j. unfold coro_arrives. pose proof (Nat.mod_upper_bound t 3 ltac:(lia)) as Hm.
    destruct (t mod 3)%nat as [|[|[|k]]] eqn:E; [exists 0%nat | exists 2%nat | exists 1%nat | lia];
      (split; [lia|]; apply bool_decide_eq_true_2; rewrite <- Nat.Div0.add_mod_idemp_l, E; done).
  - unfold kMaxCoroPerThread. simpl. lia.
  - done.
  - intros [|[|v]] e x [= <-] [= <-]; (split; [simpl; lia | split; [by vm_compute | split; [by vm_compute | by vm_compute]]]).
  - simpl. lia.
Defined.
