(* ===== verification/ParaSearch.v ===== *)
(** * Parallel search of the stored graph

    [do_para_search], [do_para_search_sync] and [para_search] of
    [src/search/para_search.cpp], in the configuration that [CMakeLists.txt] and
    [build.sh] build (persistent memory, fine-grained reads, overlapped
    initialisation, adaptive width, early exit).  The searching thread chooses
    a candidate, reads its node, computes the exact distance and hands the
    approximate distances of the neighbours that were not visited to a worker;
    the tasks are collected in the order in which they were sent.

    The workers are an oracle: [arrives t j] says that poll number [t] finds the
    task in slot [j] finished.  In the variant for large indexes ([sync]) a task
    is finished when it is sent.  The early exit is an argument: a state of
    type [Exit] and the test [ee_push] on the distance of an expanded node
    ([EarlyExit] has the one of the program). *)
From Stdlib Require Import SpecFloat.
From S2P Require Import Prelude FloatArith EarlyExit Cuckoo Layout PageAlloc Mapping Node Neighbor CandidatePool BeamSearch PipeSearch.
Import Cuckoo.

(** The distances of a task have room for so many neighbours. *)
Definition MAX_DEGREE : nat := 512.

(** [comp_t]: the neighbours, which lie in the sector buffer [comp_buf], the
    slot for their distances, and whether the task is finished. *)
Record comp := { node_nbrs : list Z; comp_slot : nat; comp_buf : nat; comp_finished : bool }.

Record para_state (D Exit : Type) := {
  ps : search_state D;
  on_flight_comps : list comp;
  comp_idx : nat;      (** tasks sent so far *)
  sector_idx : nat;    (** nodes read so far *)
  cur_beam_width : Z;
  max_marker : Z;
  early_stop : bool;
  exit_state : Exit;
}.
Arguments ps {_ _} _.
Arguments on_flight_comps {_ _} _.
Arguments comp_idx {_ _} _.
Arguments sector_idx {_ _} _.
Arguments cur_beam_width {_ _} _.
Arguments max_marker {_ _} _.
Arguments early_stop {_ _} _.
Arguments exit_state {_ _} _.

Definition NO_EARLY_STOP_FLAG : Z := 0.
Definition EARLY_STOP_FLAG : Z := -1.
Definition LIKELY_EARLY_STOP_FLAG : Z := -2.

(** The conversion to [int]. *)
Definition s32 (x : Z) : Z := if x <? 2 ^ 31 then x else x - 2 ^ 32.

Section para.
Context {D Exit : Type} `{!DistOrd D}.
Context (g : geometry) (st : map_state) (m : Z -> Z).
Context (pq_dist : Z -> D) (exact_dist : list Z -> D) (tags : gmap Z Z).
Context (L k_search : nat) (beam_width : Z).
Context (ee_init : Exit) (ee_push : Exit -> D -> outcome (Exit * bool)).
Context (on_pm sync : bool) (arrives : nat -> nat -> bool).

Abbreviation pool_state := (search_state D).
Abbreviation pstate := (para_state D Exit).

Definition set_ps (p : pool_state) (s : pstate) : pstate :=
  {| ps := p; on_flight_comps := on_flight_comps s; comp_idx := comp_idx s; sector_idx := sector_idx s;
     cur_beam_width := cur_beam_width s; max_marker := max_marker s; early_stop := early_stop s; exit_state := exit_state s |}.
Definition set_comps (q : list comp) (c r : nat) (s : pstate) : pstate :=
  {| ps := ps s; on_flight_comps := q; comp_idx := c; sector_idx := r;
     cur_beam_width := cur_beam_width s; max_marker := max_marker s; early_stop := early_stop s; exit_state := exit_state s |}.
Definition set_control (b : Z) (k : Z) (stop : bool) (s : pstate) : pstate :=
  {| ps := ps s; on_flight_comps := on_flight_comps s; comp_idx := comp_idx s; sector_idx := sector_idx s;
     cur_beam_width := b; max_marker := k; early_stop := stop; exit_state := exit_state s |}.
Definition set_exit (e : Exit) (s : pstate) : pstate :=
  {| ps := ps s; on_flight_comps := on_flight_comps s; comp_idx := comp_idx s; sector_idx := sector_idx s;
     cur_beam_width := cur_beam_width s; max_marker := max_marker s; early_stop := early_stop s; exit_state := e |}.

(** ** Reading and expanding a node *)

(** The node in the buffer that was read.  The local variable for the location
    is an [int]. *)
Definition para_node (loc : Z) : node := disk_node g m (req_offset g loc + loc_sector_off g (u64 (s32 loc))).

(** A buffer that a task still refers to is not to be read into: the neighbours
    of the task would change. *)
Definition send_read_req (i : Z) (s : pstate) : outcome (node * nat * pstate) :=
  if negb on_pm then Crash
  else
    loc ← id2loc st i;
    let j := (sector_idx s mod MAX_N_SECTOR_READS)%nat in
    if bool_decide (j ∈ comp_buf <$> on_flight_comps s) then Crash
    else Ok (para_node loc, j, set_comps (on_flight_comps s) (comp_idx s) (S (sector_idx s)) s).

Definition send_compute_req (n : node) (buf : nat) (s : pstate) : outcome pstate :=
  let '(c, vis) := fresh_nbrs (nbrs n) (visited_ids (ps s)) in
  let p := {| retset := retset (ps s); visited_ids := vis; full_retset := full_retset (ps s); l_search := l_search (ps s) |} in
  let task := {| node_nbrs := c; comp_slot := (comp_idx s mod MAX_N_COMPUTES)%nat; comp_buf := buf; comp_finished := sync |} in
  if bool_decide (MAX_DEGREE < length c)%nat then Crash
  else Ok (set_ps p (set_comps (on_flight_comps s ++ [task]) (S (comp_idx s)) (sector_idx s) s)).

(** The exact distance, and the flag of the early exit. *)
Definition expand_exact (n : node) (i : Z) (s : pstate) : outcome (pstate * Z) :=
  let s := set_ps (compute_exact_dists_and_push exact_dist n i (ps s)) s in
  if Z.of_nat L / 2 <? max_marker s then
    '(e, is_stable) ← ee_push (exit_state s) (exact_dist (coords n));
    Ok (set_exit e s,
        if is_stable : bool
        then (if bool_decide (k_search < length (full_retset (ps s)))%nat then EARLY_STOP_FLAG else LIKELY_EARLY_STOP_FLAG)
        else NO_EARLY_STOP_FLAG)
  else Ok (s, NO_EARLY_STOP_FLAG).

Definition first_unvisited (s : pstate) : option nat := first_pos (fun x => negb (visited x)) (retset (ps s)).

(** The first unvisited position, or a flag; and whether a task was sent. *)
Definition calc_best_node (s : pstate) : outcome (pstate * Z * bool) :=
  let eager (s : pstate) := Z.of_nat (default (length (retset (ps s))) (first_unvisited s)) in
  match first_unvisited s with
  | None => Ok (s, eager s, false)
  | Some k =>
      if Z.of_nat (length (on_flight_comps s)) <? cur_beam_width s then
        x ← at_ (retset (ps s)) k;
        '(n, j, s) ← send_read_req (id x) s;
        let x' := {| id := id x; distance := distance x; flag := flag x; visited := true |} in
        let s := set_ps (set_pool (<[k := x']> (retset (ps s))) (ps s)) s in
        '(s, stop_flag) ← expand_exact n (id x) s;
        if negb (stop_flag =? NO_EARLY_STOP_FLAG) then Ok (s, stop_flag, false)
        else s ← send_compute_req n j s; Ok (s, eager s, true)
      else Ok (s, Z.of_nat k, false)
  end.

(** ** Collecting the tasks *)
Definition complete (t : nat) (c : comp) : comp :=
  {| node_nbrs := node_nbrs c; comp_slot := comp_slot c; comp_buf := comp_buf c;
     comp_finished := comp_finished c || (negb sync && arrives t (comp_slot c)) |}.

(** The finished tasks at the front; the number counts their neighbours. *)
Fixpoint pop_comps (q : list comp) (ret : list (Neighbor D)) (n : nat) : outcome (list comp * list (Neighbor D) * nat) :=
  match q with
  | c :: q' =>
      if comp_finished c then
        '(ret, _) ← foldM (pool_push pq_dist L) (node_nbrs c) (ret, O);
        pop_comps q' ret (n + length (node_nbrs c))
      else Ok (q, ret, n)
  | [] => Ok ([], ret, n)
  end.

Definition poll_all (t : nat) (s : pstate) : outcome (pstate * nat) :=
  '(q, ret, n) ← pop_comps (complete t <$> on_flight_comps s) (retset (ps s)) 0;
  Ok (set_ps (set_pool ret (ps s)) (set_comps q (comp_idx s) (sector_idx s) s), n).

(** ** The search *)
Definition visit_all (s : pstate) : pstate :=
  set_ps (set_pool ((fun x => {| id := id x; distance := distance x; flag := flag x; visited := true |}) <$> retset (ps s)) (ps s)) s.

Definition has_unvisited (s : pstate) : bool := bool_decide (is_Some (first_unvisited s)).

Definition para_step (t : nat) (s : pstate) : outcome pstate :=
  let unvisited := has_unvisited s in
  '(s, n) ← poll_all t s;
  if bool_decide (n = O) && negb unvisited then Ok s
  else if early_stop s then Ok (visit_all s)
  else
    '(s, marker, sent) ← calc_best_node s;
    let b := if bool_decide (n = O) && negb sent && unvisited
             then Z.min beam_width (Z.max (cur_beam_width s + 1) 4) else cur_beam_width s in
    Ok (set_control b (Z.max (max_marker s) marker) (early_stop s || (marker =? EARLY_STOP_FLAG)) s).

Fixpoint para_loop (fuel t : nat) (s : pstate) : outcome pstate :=
  match fuel with
  | O => Crash
  | S fuel =>
      if has_unvisited s || negb (bool_decide (on_flight_comps s = [])) then s ← para_step t s; para_loop fuel (S t) s
      else Ok s
  end.

(** The entries: those of the index in memory with the distances it returned,
    or the medoid. *)
Definition para_init (mem : bool) (entries : list (Z * D)) : pstate :=
  let es := if mem then take L entries else entries in
  let r := (fun '(i, d) => {| id := i; distance := d; flag := true; visited := false |}) <$> es in
  {| ps := {| retset := if mem then std_sort_nb r else r; visited_ids := list_to_set es.*1; full_retset := []; l_search := L |};
     on_flight_comps := []; comp_idx := O; sector_idx := O; cur_beam_width := 4; max_marker := 0; early_stop := false;
     exit_state := ee_init |}.

Definition do_para_search (fuel : nat) (mem : bool) (entries : list (Z * D)) : outcome (list (Neighbor D)) :=
  if Z.of_nat MAX_N_COMPUTES <? beam_width then Crash else
  s ← para_loop fuel 0 (para_init mem entries);
  Ok (std_sort_nb (full_retset (ps s))).

Definition para_search (fuel : nat) (mem : bool) (entries : list (Z * D)) : outcome (list (Z * D)) :=
  expanded ← do_para_search fuel mem entries;
  Ok (copy_results tags None k_search (take L expanded)).
End para.

(** The variant for large indexes: the searching thread computes the distances
    itself. *)
Definition do_para_search_sync {D Exit} `{!DistOrd D} g st m (pq_dist : Z -> D) exact_dist L k_search beam_width (ee_init : Exit) ee_push on_pm
    (fuel : nat) (mem : bool) (entries : list (Z * D)) : outcome (list (Neighbor D)) :=
  do_para_search g st m pq_dist exact_dist L k_search beam_width ee_init ee_push on_pm true (fun _ _ => false) fuel mem entries.

(** ** Facts *)
Section facts.
Context {D : Type} `{!DistOrd D}.
Context (g : geometry) (st : map_state) (m : Z -> Z) (cur_id : Z) (Hgraph : graph_ok g st m cur_id).
Context (pq_dist : Z -> D) (exact_dist : list Z -> D) (L : nat).
(** The entries; those of the index in memory come with distances of their own. *)
Context (entries : gset Z) (pdist : Z -> D) (Hpdist : forall i, i ∉ entries -> pdist i = pq_dist i).

Abbreviation pool_state := (search_state D).
Abbreviation known := (known st).
Abbreviation is_exact := (is_exact g st m exact_dist).
Abbreviation inv := (search_inv known is_exact []).
Abbreviation top := (pool_top pdist L).
Abbreviation read := (read_node g st m).

(** *** The pool *)
Lemma pool_push_ext i rk : i ∉ entries -> pool_push pq_dist L i rk = pool_push pdist L i rk.
Proof. intros Hi. unfold pool_push, candidate. by rewrite <- (Hpdist i Hi). Qed.

Lemma fresh_all : forall c (v : gset Z), NoDup c -> (forall i, i ∈ c -> i ∉ v) -> fresh_nbrs c v = (c, list_to_set c ∪ v).
Proof.
  clear.
  induction c as [|i c IH]; intros v Hnd Hc; simpl; [f_equal; set_solver|]. apply NoDup_cons in Hnd as [Hi Hnd].
  rewrite decide_False by (apply Hc; by left). rewrite IH; [f_equal; set_solver | done | set_solver].
Qed.

(** A candidate that is not in [vis] can be pushed. *)
Definition pushable (vis : gset Z) (c : list Z) : Prop :=
  NoDup c /\ forall i, i ∈ c -> known i /\ i ∉ vis /\ i ∉ entries.

Lemma push_comp (p : pool_state) c : inv p -> top p -> full_retset p = [] -> pushable (visited_ids p) c ->
  exists ret nk, foldM (pool_push pq_dist L) c (retset p, O) = Ok (ret, nk) /\
    let p' := {| retset := ret; visited_ids := list_to_set c ∪ visited_ids p; full_retset := []; l_search := L |} in
    inv p' /\ top p' /\ pool_grows p p'.
Proof.
  intros Hp Ht Hf [Hnd Hc]. assert (forall i, i ∈ c -> known i /\ i <= cur_id) as Hkc.
  { intros i (Hk & _)%Hc. split; [done | by eapply go_range]. }
  destruct (expand_neighbors_spec cur_id pdist known is_exact [] c p O Hp Hkc) as (p' & nk & E1 & H1 & _ & F1).
  destruct (pool_top_neighbors cur_id pdist L known is_exact [] c p O p' nk Hp Ht Hkc E1) as (T1 & _ & _).
  pose proof (expand_neighbors_grows cur_id pdist L known is_exact [] c p O p' nk Hp Ht Hkc E1) as G1.
  rewrite <- (compute_and_push_nbrs_seq pdist cur_id) in E1 by (intros i Hi; by apply Hkc).
  unfold compute_and_push_nbrs in E1. rewrite fresh_all in E1 by (done || intros i Hi; by apply Hc).
  assert (foldM (pool_push pdist (l_search p)) c (retset p, O) = foldM (pool_push pq_dist L) c (retset p, O)) as Ee.
  { rewrite (pt_size _ _ _ Ht). generalize (retset p, O). clear -Hc Hpdist. induction c as [|i c IH]; intros rk; [done|]. cbn [foldM].
    rewrite pool_push_ext by (apply Hc; by left). destruct (pool_push pdist L i rk); [|done]. cbn [mbind outcome_bind].
    apply IH. intros j Hj. apply Hc. by right. }
  rewrite Ee in E1. destruct (foldM _ c _) as [[ret nk']|]; [|done]. cbn [mbind outcome_bind] in E1.
  rewrite Hf, (pt_size _ _ _ Ht) in E1. injection E1 as <- _. by exists ret, nk'.
Qed.

Lemma pushable_app v c1 c2 : pushable v (c1 ++ c2) -> pushable v c1 /\ pushable (list_to_set c1 ∪ v) c2.
Proof.
  intros [(H1 & H2 & H3)%NoDup_app Hc]. split; (split; [done|]); intros i Hi; destruct (Hc i ltac:(set_solver)) as (? & ? & ?); set_solver.
Qed.

(** The tasks that a poll collects: the finished ones at the front. *)
Lemma pop_comps_spec : forall q (p : pool_state) n, inv p -> top p -> full_retset p = [] ->
  pushable (visited_ids p) (q ≫= node_nbrs) ->
  exists q1 q2 ret, q = q1 ++ q2 /\ Forall (fun c => comp_finished c = true) q1 /\
    (forall c, head q2 = Some c -> comp_finished c = false) /\
    pop_comps pq_dist L q (retset p) n = Ok (q2, ret, (n + length (q1 ≫= node_nbrs))%nat) /\
    let p' := {| retset := ret; visited_ids := list_to_set (q1 ≫= node_nbrs) ∪ visited_ids p; full_retset := []; l_search := L |} in
    inv p' /\ top p' /\ pool_grows p p'.
Proof.
  assert (forall q (p : pool_state) n, inv p -> top p -> full_retset p = [] -> (forall c, head q = Some c -> comp_finished c = false) ->
    pop_comps pq_dist L q (retset p) n = Ok (q, retset p, n) -> exists q1 q2 ret, q = q1 ++ q2 /\ Forall (fun c => comp_finished c = true) q1 /\
    (forall c, head q2 = Some c -> comp_finished c = false) /\
    pop_comps pq_dist L q (retset p) n = Ok (q2, ret, (n + length (q1 ≫= node_nbrs))%nat) /\
    let p' := {| retset := ret; visited_ids := list_to_set (q1 ≫= node_nbrs) ∪ visited_ids p; full_retset := []; l_search := L |} in
    inv p' /\ top p' /\ pool_grows p p') as Hstop.
  { intros q [r v f l] n Hp Ht Hf Hq E. exists [], q, r. simpl in *. subst f. rewrite Nat.add_0_r. pose proof (pt_size _ _ _ Ht) as El. simpl in El. subst l.
    replace (∅ ∪ v) with v by set_solver. split_and!; try done. apply pool_grows_refl. }
  induction q as [|c q IH]; intros p n Hp Ht Hf Hc; [by apply Hstop|].
  cbn [pop_comps]. destruct (comp_finished c) eqn:Ec; [|pose proof (Hstop (c :: q) p n Hp Ht Hf) as H; cbn [pop_comps] in H; rewrite Ec in H; apply H; [by intros ? [= <-] | done]].
  cbn [mbind list_bind] in Hc. destruct (pushable_app _ _ _ Hc) as [Hc1 Hc2].
  destruct (push_comp p (node_nbrs c) Hp Ht Hf Hc1) as (ret & nk & -> & H1 & T1 & G1). cbn [mbind outcome_bind].
  set (p1 := {| retset := ret; visited_ids := _ |}) in *.
  destruct (IH p1 (n + length (node_nbrs c))%nat H1 T1 eq_refl Hc2) as (q1 & q2 & ret2 & -> & F1 & F2 & E2 & H2 & T2 & G2).
  exists (c :: q1), q2, ret2. cbn [mbind list_bind]. change (retset p1) with ret in E2.
  replace (list_to_set (node_nbrs c ++ (q1 ≫= node_nbrs)) ∪ visited_ids p) with (list_to_set (q1 ≫= node_nbrs) ∪ visited_ids p1)
    by (subst p1; simpl; rewrite list_to_set_app_L; set_solver).
  split_and!; try done; [by constructor | rewrite E2, length_app; by rewrite Nat.add_assoc |].
  eapply pool_grows_trans, G2; [subst p1; simpl; set_solver | done].
Qed.

(** *** The invariant *)
Context {Exit : Type} (k_search : nat) (beam_width : Z) (Hbeam : 0 < beam_width).
Context (Hbuffers : (max_width beam_width + k_search < MAX_N_SECTOR_READS)%nat).
Context (ee_init : Exit) (ee_push : Exit -> D -> outcome (Exit * bool)) (sync : bool) (arrives : nat -> nat -> bool).
Context (Hgeom : geometry_wf g) (Hloc : forall i loc, id2loc_ st !! i = Some loc -> 0 <= loc < 2 ^ 31).
Context (Hdeg : forall i n, read i = Ok n -> (length (nbrs n) <= MAX_DEGREE)%nat).

Abbreviation pstate := (para_state D Exit).

(** The early exit after the distances [ds]; it is asked about every node at
    most once. *)
Definition exit_after (ds : list D) : outcome Exit := foldM (fun d e => '(e, _) ← ee_push e d; Ok e) ds ee_init.
Context (Hexit : forall ds, (length ds <= n_nodes st)%nat -> exists e, exit_after ds = Ok e).

(** The early exit does not stop a search of this index. *)
Definition never_stable : Prop := forall ds e d e' b,
  (length ds < n_nodes st)%nat -> exit_after ds = Ok e -> ee_push e d = Ok (e', b) -> b = false.

(** The identifiers whose distances are being computed. *)
Definition flight (s : pstate) : list Z := on_flight_comps s ≫= node_nbrs.

(** The pool with the identifiers that were offered to it. *)
Definition settled (s : pstate) : pool_state :=
  {| retset := retset (ps s); visited_ids := visited_ids (ps s) ∖ list_to_set (flight s); full_retset := []; l_search := l_search (ps s) |}.

(** The [q]-th task: its slot, and its buffer, which belongs to the [r]-th read. *)
Definition comp_at (s : pstate) (q : nat) (c : comp) : Prop :=
  comp_slot c = (q mod MAX_N_COMPUTES)%nat /\
  (sync = true -> comp_finished c = true) /\
  exists r, comp_buf c = (r mod MAX_N_SECTOR_READS)%nat /\ (q <= r < sector_idx s)%nat.

Definition expanded (s : pstate) : list Z := id <$> full_retset (ps s).

(** The neighbours of every expanded node were handed over. *)
Definition nothing_skipped (s : pstate) : Prop :=
  early_stop s = false /\ (forall x, x ∈ retset (ps s) -> visited x = true -> id x ∈ expanded s) /\
  (forall i n j, i ∈ expanded s -> read i = Ok n -> j ∈ nbrs n -> j ∈ visited_ids (ps s)).

Record para_inv (s : pstate) : Prop := {
  pa_pool : inv (settled s);
  pa_top : top (settled s);
  pa_flight : pushable (visited_ids (settled s)) (flight s) /\ forall i, i ∈ flight s -> i ∈ visited_ids (ps s);
  pa_entries : entries ⊆ visited_ids (ps s);
  pa_full : NoDup (expanded s) /\ Forall is_exact (full_retset (ps s)) /\ forall i, i ∈ expanded s -> i ∈ visited_ids (settled s);
  pa_unvisited : forall x, x ∈ retset (ps s) -> visited x = false -> id x ∉ expanded s;
  pa_width : 1 <= cur_beam_width s <= Z.of_nat (max_width beam_width) /\ (length (on_flight_comps s) <= max_width beam_width)%nat;
  pa_comps : (length (on_flight_comps s) <= comp_idx s)%nat /\
    Forall2 (comp_at s) (seq (comp_idx s - length (on_flight_comps s)) (length (on_flight_comps s))) (on_flight_comps s);
  pa_reads : sector_idx s = length (full_retset (ps s)) /\ (comp_idx s <= sector_idx s)%nat /\
    (early_stop s = false -> (sector_idx s <= comp_idx s + k_search)%nat);
  pa_exit : exists ds, (length ds <= length (full_retset (ps s)))%nat /\ exit_after ds = Ok (exit_state s);
  pa_all : comp_idx s = sector_idx s -> nothing_skipped s;
}.

Lemma para_node_read i loc : id2loc_ st !! i = Some loc -> read i = Ok (para_node g m loc).
Proof.
  intros H. unfold read_node, id2loc, find, find_fn. rewrite H. cbn [mbind outcome_bind]. f_equal. unfold para_node. pose proof (Hloc i loc H).
  assert (s32 loc = loc) as -> by (unfold s32; destruct (Z.ltb_spec loc (2 ^ 31)); lia). rewrite u64_small by lia.
  rewrite req_offset_node; [done | done | unfold loc_ok; lia].
Qed.

Lemma known_read i : known i -> exists loc, id2loc_ st !! i = Some loc /\ read i = Ok (para_node g m loc).
Proof. intros [loc H]. exists loc. split; [done|]. by apply para_node_read. Qed.

(** *** Marks *)
Definition same_flag (x y : Neighbor D) : Prop := same_place x y /\ flag y = flag x.

Lemma same_flag_elem r r' y : Forall2 same_flag r r' -> y ∈ r' -> exists x, x ∈ r /\ id y = id x /\ distance y = distance x /\ flag y = flag x.
Proof. intros H Hy. destruct (Forall2_elem_r _ _ _ _ H Hy) as (x & Hx & [[? ?] ?]). by exists x. Qed.

Lemma same_flag_inv r r' v l : Forall2 same_flag r r' ->
  inv {| retset := r; visited_ids := v; full_retset := []; l_search := l |} ->
  inv {| retset := r'; visited_ids := v; full_retset := []; l_search := l |}.
Proof.
  intros H [H1 H2 H3 H4 H5 H6 H7 H8 H9 H10]. assert (Forall2 same_place r r') as Hp by (eapply Forall2_impl; [done | by intros ? ? [? ?]]).
  constructor; simpl in *; rewrite ?(same_place_ids _ _ Hp); try done.
  - intros E. apply Forall2_length in Hp. rewrite E in Hp. by destruct r.
  - by eapply same_place_sorted.
  - intros y (x & Hx & -> & _ & ->)%(same_flag_elem _ _ _ H). by apply H6.
  - intros y (x & Hx & -> & _ & ->)%(same_flag_elem _ _ _ H). by apply H7.
Qed.

Lemma same_flag_top r r' v l : Forall2 same_flag r r' ->
  top {| retset := r; visited_ids := v; full_retset := []; l_search := l |} ->
  top {| retset := r'; visited_ids := v; full_retset := []; l_search := l |}.
Proof.
  intros H [T1 T2 T3 T4]. assert (Forall2 same_place r r') as Hp by (eapply Forall2_impl; [done | by intros ? ? [? ?]]).
  constructor; simpl in *; rewrite ?(same_place_ids _ _ Hp); try done.
  - apply Forall2_length in Hp. lia.
  - intros y (x & Hx & -> & -> & _)%(same_flag_elem _ _ _ H). by apply T3.
  - intros j [?|[E Hf]]%T4; [by left | right]. split; [apply Forall2_length in Hp; lia|].
    intros y (x & Hx & _ & -> & _)%(same_flag_elem _ _ _ H). by apply Hf.
Qed.

Definition seen (x : Neighbor D) : Neighbor D := {| id := id x; distance := distance x; flag := flag x; visited := true |}.

Lemma seen_insert (r : list (Neighbor D)) k x : r !! k = Some x -> Forall2 same_flag r (<[k := seen x]> r).
Proof.
  intros Hk. apply Forall2_same_length_lookup_2; [by rewrite length_insert|]. intros j y z Hy Hz.
  destruct (decide (j = k)) as [->|Hne].
  - rewrite list_lookup_insert_eq in Hz by (by eapply lookup_lt_Some). simplify_eq. done.
  - rewrite list_lookup_insert_ne in Hz by done. simplify_eq. done.
Qed.

Lemma seen_all (r : list (Neighbor D)) : Forall2 same_flag r (seen <$> r).
Proof. apply Forall2_fmap_r, Forall_Forall2_diag, Forall_true. done. Qed.

Lemma seen_elem (r : list (Neighbor D)) k x y : NoDup (id <$> r) -> r !! k = Some x -> y ∈ <[k := seen x]> r ->
  y = seen x \/ y ∈ r /\ id y <> id x.
Proof.
  intros Hnd Hk (j & Hj)%list_elem_of_lookup. pose proof (lookup_lt_Some _ _ _ Hk).
  destruct (decide (j = k)) as [->|Hne]; [rewrite list_lookup_insert_eq in Hj by done; left; congruence|].
  rewrite list_lookup_insert_ne in Hj by done. right. split; [by eapply list_elem_of_lookup_2|]. intros E. apply Hne.
  apply (NoDup_lookup (id <$> r) j k (id x)); [done | by rewrite list_lookup_fmap, Hj, <- E | by rewrite list_lookup_fmap, Hk].
Qed.

(** *** Collecting *)
Lemma complete_nbrs t q : (complete sync arrives t <$> q) ≫= node_nbrs = q ≫= node_nbrs.
Proof. induction q as [|c q IH]; [done|]. rewrite fmap_cons. cbn [mbind list_bind]. by f_equal. Qed.

Lemma settled_visited (v : gset Z) q1 q2 : NoDup (q1 ++ q2) -> (forall i, i ∈ q1 ++ q2 -> i ∈ v) ->
  list_to_set q1 ∪ v ∖ list_to_set (q1 ++ q2) = v ∖ list_to_set q2.
Proof.
  clear. intros (H1 & H2 & H3)%NoDup_app Hv. apply set_eq. intros i. rewrite elem_of_union, !elem_of_difference, !elem_of_list_to_set.
  specialize (H2 i). specialize (Hv i). rewrite elem_of_app in Hv. destruct (decide (i ∈ q1)); set_solver.
Qed.

(** What does not change while tasks are collected. *)
Definition same_work (s s' : pstate) : Prop :=
  full_retset (ps s') = full_retset (ps s) /\ visited_ids (ps s') = visited_ids (ps s) /\ comp_idx s' = comp_idx s /\ sector_idx s' = sector_idx s /\
  cur_beam_width s' = cur_beam_width s /\ early_stop s' = early_stop s /\ exit_state s' = exit_state s.

Lemma poll_inv s s' (q1 q2 : list comp) : para_inv s -> same_work s s' -> on_flight_comps s' = q2 -> flight s = (q1 ≫= node_nbrs) ++ (q2 ≫= node_nbrs) ->
  length (on_flight_comps s) = length (q1 ++ q2) -> Forall2 (comp_at s) (seq (comp_idx s - length (q1 ++ q2)) (length (q1 ++ q2))) (q1 ++ q2) ->
  l_search (ps s') = L -> inv (settled s') -> top (settled s') -> pool_grows (settled s) (settled s') -> para_inv s'.
Proof.
  intros [H1 H2 [[H3 H3'] H4] H5 H6 H7 H8 H9 H10 H11 H12] (W1 & W2 & W3 & W4 & W5 & W6 & W7) Eq2 Efl Elen Hat EL Hi Ht [G _].
  assert (visited_ids (settled s) ⊆ visited_ids (settled s')) as Hsub.
  { simpl. rewrite W2, Efl. unfold flight at 1. rewrite Eq2. clear. set_solver. }
  assert (forall i, i ∈ flight s' -> i ∈ flight s) as Hfl by (intros i; rewrite Efl; unfold flight; rewrite Eq2; clear; set_solver).
  assert (expanded s' = expanded s) as Ee by (unfold expanded; by rewrite W1).
  assert (forall x, x ∈ retset (ps s') -> x ∈ retset (ps s) \/ visited x = false /\ id x ∉ expanded s) as Hold.
  { intros x (k & Hk)%list_elem_of_lookup. destruct (G k x Hk) as [(j & Hj%list_elem_of_lookup_2 & _)|(_ & Hv & Hx)]; [by left|].
    right. split; [done|]. intros ?%H6. done. }
  constructor; rewrite ?Ee, ?W1, ?W2, ?W3, ?W4, ?W5, ?W6, ?W7; try done.
  - split; [|intros i Hi'; by apply H4, Hfl]. split.
    + rewrite Efl in H3. unfold flight. rewrite Eq2. by apply NoDup_app in H3 as (_ & _ & ?).
    + intros i Hi'. destruct (H3' i (Hfl i Hi')) as (? & ? & ?). split_and!; try done.
      simpl. clear -Hi'. set_solver.
  - destruct H6 as (? & ? & H6). split_and!; try done. intros i Hi'. apply Hsub. by apply H6.
  - intros x [Hx|[_ ?]]%Hold; [by apply H7 | done].
  - destruct H8. split; [done|]. rewrite Eq2. rewrite length_app in Elen. lia.
  - destruct H9 as [H9 _]. rewrite Eq2. rewrite Elen, length_app in H9. split; [lia|].
    apply (Forall2_impl (comp_at s)); [|intros q c (? & ? & r & ? & ?); split_and!; [done | done | exists r; by rewrite W4]].
    rewrite length_app, seq_app in Hat. apply Forall2_app_inv in Hat as [_ Hat]; [|by rewrite length_seq].
    replace (comp_idx s - length q2)%nat with (comp_idx s - (length q1 + length q2) + length q1)%nat by lia. done.
  - intros E. destruct (H12 E) as (K1 & K2 & K3). unfold nothing_skipped. rewrite Ee, W2, W6. split_and!; try done.
    intros x [Hx|[Hv _]]%Hold Hvx; [by apply K2 | congruence].
Qed.

Lemma poll_spec t s : para_inv s -> exists s' q1,
  poll_all pq_dist L sync arrives t s = Ok (s', length (q1 ≫= node_nbrs)) /\ para_inv s' /\ same_work s s' /\
  complete sync arrives t <$> on_flight_comps s = q1 ++ on_flight_comps s' /\
  (forall c, head (on_flight_comps s') = Some c -> comp_finished c = false) /\
  (q1 = [] -> retset (ps s') = retset (ps s)).
Proof.
  intros Hs. pose proof Hs as [H1 H2 [H3 H4] _ _ _ _ [H9 H9'] _ _ _]. unfold poll_all.
  destruct (pop_comps_spec (complete sync arrives t <$> on_flight_comps s) (settled s) 0 H1 H2 eq_refl) as (q1 & q2 & ret & Eq & _ & F2 & E & I & T & G).
  { by rewrite complete_nbrs. }
  change (retset (settled s)) with (retset (ps s)) in E. rewrite E. cbn [mbind outcome_bind].
  exists (set_ps (set_pool ret (ps s)) (set_comps q2 (comp_idx s) (sector_idx s) s)), q1. split; [done|].
  assert (flight s = (q1 ≫= node_nbrs) ++ (q2 ≫= node_nbrs)) as Efl by (unfold flight; by rewrite <- (complete_nbrs t), Eq, bind_app).
  assert (length (on_flight_comps s) = length (q1 ++ q2)) as Elen by (by rewrite <- Eq, length_fmap).
  assert (list_to_set (q1 ≫= node_nbrs) ∪ visited_ids (settled s) = visited_ids (ps s) ∖ list_to_set (q2 ≫= node_nbrs)) as Ev.
  { simpl. rewrite Efl. apply settled_visited; rewrite <- Efl; [apply H3 | done]. }
  rewrite Ev in I, T, G. pose proof (pt_size _ _ _ H2) as EL. simpl in EL.
  split_and!; try done.
  2: { intros ->. simpl in Eq. rewrite Eq in E. destruct q2 as [|c q2]; cbn [pop_comps] in E; [|rewrite (F2 c eq_refl) in E]; by injection E as <-. }
  apply (poll_inv s _ q1 q2); try done; try (by rewrite EL).
  - rewrite <- Elen, <- Eq. apply Forall2_fmap_r. apply (Forall2_impl (comp_at s)); [done|]. intros q c (? & Hf & ?). split_and!; try done. simpl. by intros ->%Hf.
  - unfold settled, flight. simpl. by rewrite EL.
  - unfold settled, flight. simpl. by rewrite EL.
Qed.

(** *** Expanding *)
Lemma first_unvisited_spec (s : pstate) :
  match first_unvisited s with
  | Some k => exists x, retset (ps s) !! k = Some x /\ visited x = false
  | None => forall x, x ∈ retset (ps s) -> visited x = true
  end.
Proof.
  unfold first_unvisited. pose proof (first_pos_spec (fun x => negb (visited x)) (retset (ps s))) as H. destruct (first_pos _ _) as [k|].
  - destruct H as (x & ? & Hv & _). exists x. by apply negb_true_iff in Hv.
  - intros x Hx. by apply negb_false_iff, H.
Qed.

Lemma has_unvisited_false (s : pstate) : has_unvisited s = false -> forall x, x ∈ retset (ps s) -> visited x = true.
Proof.
  unfold has_unvisited. intros H%bool_decide_eq_false_1. pose proof (first_unvisited_spec s) as Hs. destruct (first_unvisited s); [|done].
  destruct H. by eexists.
Qed.

(** The next read is into a buffer that no task refers to. *)
Lemma send_read_ok i s loc : para_inv s -> early_stop s = false -> (length (on_flight_comps s) < max_width beam_width)%nat ->
  id2loc_ st !! i = Some loc ->
  send_read_req g st m true i s = Ok (para_node g m loc, (sector_idx s mod MAX_N_SECTOR_READS)%nat,
    set_comps (on_flight_comps s) (comp_idx s) (S (sector_idx s)) s).
Proof.
  intros Hs He Hw Hl. unfold send_read_req, id2loc, find, find_fn. rewrite Hl. cbn [negb mbind outcome_bind].
  rewrite bool_decide_eq_false_2; [done|]. intros (c & Ec & Hc)%list_elem_of_fmap.
  destruct (pa_comps _ Hs) as [Hn Hat]. destruct (pa_reads _ Hs) as (_ & Hr1 & Hr2). specialize (Hr2 He).
  destruct (Forall2_elem_r _ _ _ _ Hat Hc) as (q & Hq%elem_of_seq & _ & _ & r & Er & Hr). rewrite Er in Ec.
  assert (MAX_N_SECTOR_READS <> 0)%nat as Hne by done. revert Ec Hbuffers Hne. generalize MAX_N_SECTOR_READS. intros M Ec HM Hne.
  pose proof (Nat.div_mod (sector_idx s) M Hne) as E1. pose proof (Nat.div_mod r M Hne) as E2. rewrite Ec in E1.
  destruct (le_lt_dec (sector_idx s / M) (r / M)) as [H|H]; pose proof (Nat.mul_le_mono_l _ _ M H) as Hm.
  - clear -E1 E2 Hm Hr. lia.
  - rewrite Nat.mul_succ_r in Hm. clear -E1 E2 Hm Hr Hq HM Hr1 Hr2 Hw. lia.
Qed.

(** A node was read: its candidate is marked, its exact distance recorded. *)
Definition read_state (k : nat) (x : Neighbor D) (n : node) (e : Exit) (s : pstate) : pstate :=
  {| ps := compute_exact_dists_and_push exact_dist n (id x) (set_pool (<[k := seen x]> (retset (ps s))) (ps s));
     on_flight_comps := on_flight_comps s; comp_idx := comp_idx s; sector_idx := S (sector_idx s);
     cur_beam_width := cur_beam_width s; max_marker := max_marker s; early_stop := early_stop s; exit_state := e |}.

Lemma expanded_length s : para_inv s -> (length (full_retset (ps s)) <= n_nodes st)%nat.
Proof.
  intros Hs. destruct (pa_full _ Hs) as (Hnd & _ & Hv). rewrite <- (length_fmap id). apply NoDup_known; [done|].
  intros i Hi. by apply (sv_known _ _ (pa_pool _ Hs)), Hv.
Qed.

Lemma expanded_room s k x : para_inv s -> retset (ps s) !! k = Some x -> visited x = false -> (length (full_retset (ps s)) < n_nodes st)%nat.
Proof.
  intros Hs Hk Hv. apply list_elem_of_lookup_2 in Hk. destruct (pa_full _ Hs) as (Hnd & _ & Hf).
  assert (S (length (expanded s)) <= n_nodes st)%nat as H; [|unfold expanded in H; rewrite length_fmap in H; lia].
  apply (NoDup_known st (id x :: expanded s)).
  - constructor; [by apply (pa_unvisited _ Hs) | done].
  - intros i [->|Hi]%elem_of_cons; apply (sv_known _ _ (pa_pool _ Hs)); [by apply (sv_visited _ _ (pa_pool _ Hs)), list_elem_of_fmap_2 | by apply Hf].
Qed.

(** The early exit is asked, or not; its flag. *)
Lemma expand_exact_spec s k x n : para_inv s -> retset (ps s) !! k = Some x -> visited x = false ->
  let s1 := set_ps (set_pool (<[k := seen x]> (retset (ps s))) (ps s)) (set_comps (on_flight_comps s) (comp_idx s) (S (sector_idx s)) s) in
  exists e f, expand_exact exact_dist L k_search ee_push n (id x) s1 = Ok (read_state k x n e s, f) /\
    (exists ds, (length ds <= S (length (full_retset (ps s))))%nat /\ exit_after ds = Ok e) /\
    (f = EARLY_STOP_FLAG \/ f = LIKELY_EARLY_STOP_FLAG /\ (S (length (full_retset (ps s))) <= k_search)%nat \/ f = NO_EARLY_STOP_FLAG) /\
    (never_stable -> f = NO_EARLY_STOP_FLAG).
Proof.
  intros Hs Hk Hv s1. destruct (pa_exit _ Hs) as (ds & Hds & Ee). pose proof (expanded_room s k x Hs Hk Hv) as Hroom.
  unfold expand_exact. change (exit_state (set_ps _ s1)) with (exit_state s).
  destruct (_ <? _); [|exists (exit_state s), NO_EARLY_STOP_FLAG; split_and!; [done | exists ds; split; [lia | done] | by right; right | done]].
  destruct (Hexit (ds ++ [exact_dist (coords n)])) as (e & E); [rewrite length_app; simpl; lia|]. pose proof E as E'.
  unfold exit_after in E'. rewrite foldM_app in E'. fold (exit_after ds) in E'. rewrite Ee in E'. cbn [mbind outcome_bind foldM] in E'.
  destruct (ee_push (exit_state s) (exact_dist (coords n))) as [[e1 b]|] eqn:Ep; [|done]. cbn [mbind outcome_bind] in *. injection E' as ->.
  exists e. eexists. split; [done|]. split; [exists (ds ++ [exact_dist (coords n)]); split; [rewrite length_app; simpl; lia | done]|].
  assert (length (full_retset (ps (set_ps (compute_exact_dists_and_push exact_dist n (id x) (ps s1)) s1))) = S (length (full_retset (ps s)))) as ->.
  { simpl. by rewrite length_app, Nat.add_1_r. }
  split; [|intros H; by rewrite (H ds _ _ _ _ ltac:(lia) Ee Ep)]. destruct b; [|by right; right].
  case_bool_decide; [by left | right; left]. split; [done | lia].
Qed.

Lemma settled_read k x n e s : settled (read_state k x n e s) =
  {| retset := <[k := seen x]> (retset (ps s)); visited_ids := visited_ids (settled s); full_retset := []; l_search := l_search (ps s) |}.
Proof. done. Qed.

(** The state after a read whose neighbours are not handed over. *)
Lemma read_inv s k x n e stop : para_inv s -> retset (ps s) !! k = Some x -> visited x = false -> read (id x) = Ok n ->
  (exists ds, (length ds <= S (length (full_retset (ps s))))%nat /\ exit_after ds = Ok e) ->
  (stop = false -> early_stop s = false /\ (S (sector_idx s) <= comp_idx s + k_search)%nat) ->
  para_inv (set_control (cur_beam_width s) (max_marker s) stop (read_state k x n e s)).
Proof.
  intros Hs Hk Hv Hn He Hst. destruct Hs as [H1 H2 H3 H4 H5 H6 H7 H8 H9 H10 H11].
  pose proof (list_elem_of_lookup_2 _ _ _ Hk) as Hx. pose proof (seen_insert _ _ _ Hk) as Hsf.
  assert (id <$> (full_retset (ps s) ++ [{| id := id x; distance := exact_dist (coords n); flag := true; visited := false |}]) = expanded s ++ [id x]) as Ee.
  { by rewrite fmap_app. }
  constructor; try done.
  - apply (same_flag_inv _ _ _ _ Hsf H1).
  - apply (same_flag_top _ _ _ _ Hsf H2).
  - unfold expanded. simpl. rewrite Ee. destruct H5 as (F1 & F2 & F3). split_and!.
    + apply NoDup_app. split_and!; [done | intros i Hi ->%list_elem_of_singleton; by apply (H6 x) | repeat constructor; set_solver].
    + apply Forall_app. split; [done|]. constructor; [|done]. by exists n.
    + intros i [Hi| ->%list_elem_of_singleton]%elem_of_app; [by apply F3|]. apply (sv_visited _ _ H1 (id x)), list_elem_of_fmap_2, Hx.
  - unfold expanded. simpl. rewrite Ee. intros y Hy Hyv.
    destruct (seen_elem _ _ _ _ (sv_nodup _ _ H1) Hk Hy) as [->|[Hy' Hne]]; [done|]. specialize (H6 y Hy' Hyv). set_solver.
  - destruct H8 as [H8 H8']. split; [done|]. eapply Forall2_impl; [apply H8'|]. intros q c (? & ? & r & ? & ?). split_and!; [done | done|]. exists r. simpl.
    split; [done | lia].
  - destruct H9 as (R1 & R2 & R3). simpl. rewrite length_app. simpl. split_and!; [lia | lia |]. intros ->. by apply Hst.
  - destruct He as (ds & ? & ?). exists ds. simpl. rewrite length_app. simpl. split; [lia | done].
  - simpl. intros E. destruct H9 as (_ & ? & _). lia.
Qed.

Lemma fresh_spec : forall l (v : gset Z) c vis, fresh_nbrs l v = (c, vis) ->
  NoDup c /\ vis = list_to_set c ∪ v /\ (length c <= length l)%nat /\ (forall i, i ∈ c -> i ∈ l /\ i ∉ v) /\ (forall i, i ∈ l -> i ∈ vis).
Proof.
  clear. induction l as [|i l IH]; intros v c vis E; simpl in E; [injection E as <- <-; split_and!; [constructor | set_solver | done | set_solver..]|].
  case_decide as Hi.
  - destruct (IH _ _ _ E) as (H1 & -> & H3 & H4 & H5). split_and!; [done | done | simpl; lia | set_solver | set_solver].
  - destruct (fresh_nbrs l _) as [c1 v1] eqn:E1. injection E as <- <-. destruct (IH _ _ _ E1) as (H1 & -> & H3 & H4 & H5).
    split_and!; [constructor; [set_solver | done] | set_solver | simpl; lia | set_solver | set_solver].
Qed.

(** The state after the neighbours [c] were handed over. *)
Definition sent_state (k : nat) (x : Neighbor D) (n : node) (e : Exit) (c : list Z) (s : pstate) : pstate :=
  {| ps := {| retset := <[k := seen x]> (retset (ps s)); visited_ids := list_to_set c ∪ visited_ids (ps s);
              full_retset := full_retset (ps s) ++ [{| id := id x; distance := exact_dist (coords n); flag := true; visited := false |}];
              l_search := l_search (ps s) |};
     on_flight_comps := on_flight_comps s ++ [{| node_nbrs := c; comp_slot := (comp_idx s mod MAX_N_COMPUTES)%nat;
                                                 comp_buf := (sector_idx s mod MAX_N_SECTOR_READS)%nat; comp_finished := sync |}];
     comp_idx := S (comp_idx s); sector_idx := S (sector_idx s);
     cur_beam_width := cur_beam_width s; max_marker := max_marker s; early_stop := early_stop s; exit_state := e |}.

Lemma send_compute_spec s k x n e : read (id x) = Ok n ->
  exists c, send_compute_req sync n (sector_idx s mod MAX_N_SECTOR_READS)%nat (read_state k x n e s) = Ok (sent_state k x n e c s) /\
    NoDup c /\ (forall i, i ∈ c -> i ∈ nbrs n /\ i ∉ visited_ids (ps s)) /\ (forall i, i ∈ nbrs n -> i ∈ (list_to_set c : gset Z) ∪ visited_ids (ps s)).
Proof.
  intros Hn. unfold send_compute_req. cbn [read_state ps compute_exact_dists_and_push set_pool visited_ids].
  destruct (fresh_nbrs (nbrs n) (visited_ids (ps s))) as [c vis] eqn:E. destruct (fresh_spec _ _ _ _ E) as (H1 & -> & H3 & H4 & H5).
  pose proof (Hdeg _ _ Hn). rewrite bool_decide_eq_false_2 by lia. by exists c.
Qed.

Lemma flight_sent k x n e c s : flight (sent_state k x n e c s) = flight s ++ c.
Proof. unfold flight. simpl. rewrite bind_app. simpl. by rewrite app_nil_r. Qed.

Lemma sent_settled k x n e c s : para_inv s -> (forall i, i ∈ c -> i ∉ visited_ids (ps s)) ->
  visited_ids (settled (sent_state k x n e c s)) = visited_ids (settled s).
Proof.
  intros Hs Hc. destruct (pa_flight _ Hs) as [_ Hf]. unfold settled; simpl. rewrite flight_sent. clear -Hc Hf.
  apply set_eq. intros i. rewrite !elem_of_difference, elem_of_union, !elem_of_list_to_set, elem_of_app.
  specialize (Hc i). specialize (Hf i). destruct (decide (i ∈ c)); naive_solver.
Qed.

Lemma sent_inv s k x n e c : para_inv s -> early_stop s = false -> retset (ps s) !! k = Some x -> visited x = false -> read (id x) = Ok n ->
  (exists ds, (length ds <= S (length (full_retset (ps s))))%nat /\ exit_after ds = Ok e) ->
  (length (on_flight_comps s) < max_width beam_width)%nat ->
  NoDup c -> (forall i, i ∈ c -> i ∈ nbrs n /\ i ∉ visited_ids (ps s)) -> (forall i, i ∈ nbrs n -> i ∈ (list_to_set c : gset Z) ∪ visited_ids (ps s)) ->
  para_inv (sent_state k x n e c s).
Proof.
  intros Hs Hst Hk Hv Hn He Hw Hc1 Hc2 Hc3.
  assert (forall i, i ∈ c -> i ∉ visited_ids (ps s)) as Hcv by (intros i Hi; by apply Hc2).
  pose proof (sent_settled k x n e c s Hs Hcv) as Ev.
  assert (settled (sent_state k x n e c s) = {| retset := <[k := seen x]> (retset (ps s)); visited_ids := visited_ids (settled s);
    full_retset := []; l_search := l_search (ps s) |}) as Es by (by rewrite <- Ev). pose proof (flight_sent k x n e c s) as Efl.
  destruct Hs as [H1 H2 [[H3 H3'] H3''] H4 H5 H6 H7 H8 H9 H10 H11].
  pose proof (list_elem_of_lookup_2 _ _ _ Hk) as Hx. pose proof (seen_insert _ _ _ Hk) as Hsf.
  assert (expanded (sent_state k x n e c s) = expanded s ++ [id x]) as Ee by (unfold expanded; simpl; by rewrite fmap_app).
  constructor; rewrite ?Ee, ?Efl; try done.
  - rewrite Es. apply (same_flag_inv _ _ _ _ Hsf H1).
  - rewrite Es. apply (same_flag_top _ _ _ _ Hsf H2).
  - rewrite Ev. split; [split|].
    + apply NoDup_app. split_and!; [done | | done]. intros i Hi Hi'. by apply (Hcv i), H3''.
    + intros i [Hi|Hi]%elem_of_app; [by apply H3'|]. destruct (Hc2 i Hi) as [Hin Hnv]. split_and!.
      * by eapply go_nbrs.
      * simpl. clear -Hnv. set_solver.
      * intros ?%H4. done.
    + intros i [Hi|Hi]%elem_of_app; simpl; [apply elem_of_union_r; by apply H3'' | apply elem_of_union_l; by apply elem_of_list_to_set].
  - simpl. clear -H4. set_solver.
  - rewrite Ev. destruct H5 as (F1 & F2 & F3). split_and!.
    + apply NoDup_app. split_and!; [done | intros i Hi ->%list_elem_of_singleton; by apply (H6 x) | repeat constructor; set_solver].
    + simpl. apply Forall_app. split; [done|]. constructor; [|done]. by exists n.
    + intros i [Hi| ->%list_elem_of_singleton]%elem_of_app; [by apply F3|]. apply (sv_visited _ _ H1 (id x)), list_elem_of_fmap_2, Hx.
  - intros y Hy Hyv. destruct (seen_elem _ _ _ _ (sv_nodup _ _ H1) Hk Hy) as [->|[Hy' Hne]]; [done|]. specialize (H6 y Hy' Hyv). set_solver.
  - destruct H7 as [H7 H7']. simpl. rewrite length_app. simpl. split; [done | lia].
  - destruct H8 as [H8 H8']. simpl. rewrite length_app, Nat.add_1_r. split; [lia|].
    replace (S (comp_idx s) - S (length (on_flight_comps s)))%nat with (comp_idx s - length (on_flight_comps s))%nat by lia.
    rewrite seq_S. apply Forall2_app.
    + eapply Forall2_impl; [apply H8'|]. intros q d (? & ? & r & ? & ?). split_and!; [done | done|]. exists r. simpl. split; [done | lia].
    + constructor; [|done]. replace (comp_idx s - length (on_flight_comps s) + length (on_flight_comps s))%nat with (comp_idx s) by lia.
      split_and!; [done | done |]. exists (sector_idx s). destruct H9. simpl. split; [done | lia].
  - destruct H9 as (R1 & R2 & R3). simpl. rewrite length_app. simpl. split_and!; [lia | lia |]. intros ?%R3. lia.
  - destruct He as (ds & ? & ?). exists ds. simpl. rewrite length_app. simpl. split; [lia | done].
  - simpl. intros [= E]. destruct (H11 E) as (K1 & K2 & K3). split_and!; [done | |]; rewrite Ee.
    + intros y Hy Hyv. destruct (seen_elem _ _ _ _ (sv_nodup _ _ H1) Hk Hy) as [->|[Hy' _]]; apply elem_of_app;
        [right; by apply list_elem_of_singleton | left; by apply K2].
    + intros i nd j [Hi| ->%list_elem_of_singleton]%elem_of_app Hnd Hj; simpl; [apply elem_of_union_r; by apply (K3 i nd j)|]. rewrite Hn in Hnd. injection Hnd as <-. by apply Hc3.
Qed.

(** *** An iteration *)
Lemma control_inv b k s : para_inv s -> 1 <= b <= Z.of_nat (max_width beam_width) -> para_inv (set_control b k (early_stop s) s).
Proof. intros [] Hb. constructor; try done. by split; [|apply pa_width0]. Qed.

(** The work that is done: nodes expanded, tasks collected. *)
Definition work (s : pstate) : nat := (length (full_retset (ps s)) + (comp_idx s - length (on_flight_comps s)))%nat.

Lemma para_work_bound s : para_inv s -> (work s <= 2 * n_nodes st)%nat.
Proof. intros Hs. pose proof (expanded_length s Hs). destruct (pa_reads _ Hs) as (? & ? & _). unfold work. lia. Qed.

Abbreviation calc s := (calc_best_node g st m exact_dist L k_search ee_push true sync s).

(** A node is expanded, or there is no candidate, or the width is used up. *)
Definition best_result (s s' : pstate) (mk : Z) (sent : bool) : Prop :=
  para_inv (set_control (cur_beam_width s) (max_marker s) (early_stop s || (mk =? EARLY_STOP_FLAG)) s') /\
  cur_beam_width s' = cur_beam_width s /\ early_stop s' = early_stop s /\
  (never_stable -> comp_idx s = sector_idx s -> comp_idx s' = sector_idx s') /\
  (work s' = S (work s) \/
   s' = s /\ sent = false /\ ((forall x, x ∈ retset (ps s) -> visited x = true) \/ cur_beam_width s <= Z.of_nat (length (on_flight_comps s)))).

Lemma calc_best_idle s mk : para_inv s -> 0 <= mk ->
  (forall x, x ∈ retset (ps s) -> visited x = true) \/ cur_beam_width s <= Z.of_nat (length (on_flight_comps s)) ->
  best_result s s mk false.
Proof.
  intros Hs Hm H. unfold best_result. assert (mk =? EARLY_STOP_FLAG = false) as -> by (unfold EARLY_STOP_FLAG; apply Z.eqb_neq; lia).
  rewrite orb_false_r. split_and!; try done; [apply control_inv; [done | apply Hs] | by right].
Qed.

Lemma calc_best_spec s : para_inv s -> early_stop s = false ->
  exists s' mk sent, calc s = Ok (s', mk, sent) /\ best_result s s' mk sent.
Proof.
  intros Hs Hst. unfold calc_best_node. pose proof (first_unvisited_spec s) as Hf. destruct (first_unvisited s) as [k|] eqn:Ek.
  2: { do 3 eexists. split; [done|]. apply calc_best_idle; [done | lia | by left]. }
  destruct Hf as (x & Hk & Hv). destruct (Z.ltb_spec (Z.of_nat (length (on_flight_comps s))) (cur_beam_width s)) as [Hw|Hw].
  2: { do 3 eexists. split; [done|]. apply calc_best_idle; [done | lia | by right]. }
  rewrite (at_Ok _ _ _ Hk). cbn [mbind outcome_bind]. pose proof (list_elem_of_lookup_2 _ _ _ Hk) as Hx.
  assert (length (on_flight_comps s) < max_width beam_width)%nat as Hw' by (destruct (pa_width _ Hs); lia).
  destruct (known_read (id x)) as (loc & Hl & Hn); [by apply (sv_known _ _ (pa_pool _ Hs)), (sv_visited _ _ (pa_pool _ Hs)), list_elem_of_fmap_2|].
  rewrite (send_read_ok (id x) s loc Hs Hst Hw' Hl). cbn [mbind outcome_bind]. fold (seen x).
  destruct (expand_exact_spec s k x (para_node g m loc) Hs Hk Hv) as (e & f & Ee & He & Hfl & Hnever). cbv zeta in Ee.
  cbn [set_comps ps] in Ee |- *. rewrite Ee. cbn [mbind outcome_bind]. destruct (pa_reads _ Hs) as (R1 & R2 & R3).
  destruct (f =? NO_EARLY_STOP_FLAG) eqn:Ef; cbn [negb].
  - destruct (send_compute_spec s k x (para_node g m loc) e Hn) as (c & -> & C1 & C2 & C3). cbn [mbind outcome_bind].
    do 3 eexists. split; [done|]. unfold best_result.
    match goal with |- context [?a =? EARLY_STOP_FLAG] => assert (a =? EARLY_STOP_FLAG = false) as -> by (unfold EARLY_STOP_FLAG; apply Z.eqb_neq; lia) end.
    rewrite orb_false_r. split_and!; try done.
    + apply (control_inv _ _ (sent_state k x (para_node g m loc) e c s)); [by apply sent_inv | apply Hs].
    + intros _ E. simpl. by rewrite E.
    + left. destruct (pa_comps _ Hs). unfold work. simpl. rewrite !length_app. simpl. lia.
  - do 3 eexists. split; [done|]. apply Z.eqb_neq in Ef. unfold best_result. split_and!; try done.
    + apply (read_inv s k x (para_node g m loc) e); try done. intros Hstop. split; [done|].
      destruct Hfl as [->|[[-> Hk']|?]]; [by rewrite orb_true_r in Hstop | lia | done].
    + intros Hnv. by destruct Ef; apply Hnever.
    + left. unfold work. simpl. rewrite length_app. simpl. lia.
Qed.

Lemma visit_all_inv s : para_inv s -> early_stop s = true -> para_inv (visit_all s).
Proof.
  intros [H1 H2 H3 H4 H5 H6 H7 H8 H9 H10 H11] He. pose proof (seen_all (retset (ps s))) as Hsf. constructor; try done.
  - apply (same_flag_inv _ _ _ _ Hsf H1).
  - apply (same_flag_top _ _ _ _ Hsf H2).
  - by intros x (y & -> & _)%list_elem_of_fmap.
  - intros E. destruct (H11 E) as [? _]. simpl in *. congruence.
Qed.

Abbreviation step t s := (para_step g st m pq_dist exact_dist L k_search beam_width ee_push true sync arrives t s).
Abbreviation loop fuel t s := (para_loop g st m pq_dist exact_dist L k_search beam_width ee_push true sync arrives fuel t s).

(** The task in slot [j] is not finished at poll [t]. *)
Definition pending (t j : nat) : Prop := sync || arrives t j = false.

(** What an iteration without work leaves: the task at the front is not
    finished; or the search was stopped and everything is marked. *)
Definition idle (t : nat) (s s' : pstate) : Prop :=
  comp_slot <$> on_flight_comps s' = comp_slot <$> on_flight_comps s /\
  ((exists c, head (on_flight_comps s) = Some c /\ pending t (comp_slot c)) \/
   on_flight_comps s' = [] /\ forall x, x ∈ retset (ps s') -> visited x = true).

Lemma poll_idle t (s s' : pstate) : para_inv s -> complete sync arrives t <$> on_flight_comps s = on_flight_comps s' ->
  (forall c, head (on_flight_comps s') = Some c -> comp_finished c = false) ->
  comp_slot <$> on_flight_comps s' = comp_slot <$> on_flight_comps s /\
  (on_flight_comps s <> [] -> exists c, head (on_flight_comps s) = Some c /\ pending t (comp_slot c)).
Proof.
  intros Hs E Hh. rewrite <- E in *. split; [by rewrite <- list_fmap_compose; apply list_fmap_ext|]. intros Hne.
  destruct (pa_comps _ Hs) as [_ Hat]. destruct (on_flight_comps s) as [|c q]; [done|]. exists c. split; [done|].
  specialize (Hh _ eq_refl). simpl in Hh. apply orb_false_iff in Hh as [Hf Ha]. inversion Hat as [|? ? ? ? (_ & Hsync & _)]; subst.
  unfold pending. destruct sync; [by rewrite Hsync in Hf | done].
Qed.

Lemma poll_work t (s s' : pstate) (q1 : list comp) : para_inv s -> same_work s s' -> complete sync arrives t <$> on_flight_comps s = q1 ++ on_flight_comps s' ->
  (work s' = work s + length q1)%nat.
Proof.
  intros Hs (W1 & _ & W3 & _) E. apply (f_equal length) in E. rewrite length_fmap, length_app in E. destruct (pa_comps _ Hs) as [H _].
  unfold work. rewrite W1, W3. lia.
Qed.

Lemma nonempty_comps (q1 : list comp) : length (q1 ≫= node_nbrs) <> O -> q1 <> [].
Proof. by destruct q1. Qed.

Lemma para_step_spec t s : para_inv s -> has_unvisited s = true \/ on_flight_comps s <> [] ->
  exists s', step t s = Ok s' /\ para_inv s' /\ (work s <= work s')%nat /\
    (never_stable -> comp_idx s = sector_idx s -> comp_idx s' = sector_idx s') /\ (work s' = work s -> idle t s s').
Proof.
  intros Hs Hrun. unfold para_step. destruct (poll_spec t s Hs) as (s1 & q1 & -> & Hs1 & Hsame & Eq & Hh & Hret). cbn [mbind outcome_bind].
  pose proof (poll_work t s s1 q1 Hs Hsame Eq) as Hw. pose proof Hsame as (W1 & _ & W3 & W4 & W5 & W6 & _).
  assert (never_stable -> comp_idx s = sector_idx s -> comp_idx s1 = sector_idx s1) as Hnv by (intros _; by rewrite W3, W4).
  assert (q1 = [] -> comp_slot <$> on_flight_comps s1 = comp_slot <$> on_flight_comps s /\
    (on_flight_comps s <> [] -> exists c, head (on_flight_comps s) = Some c /\ pending t (comp_slot c))) as Hidle.
  { intros ->. by apply poll_idle. }
  set (n := length (q1 ≫= node_nbrs)) in *. destruct (bool_decide (n = O) && negb (has_unvisited s)) eqn:Ec.
  { exists s1. split_and!; try done; [lia|]. intros Hw1. apply andb_true_iff in Ec as [_ Hu%negb_true_iff].
    destruct (Hidle ltac:(apply nil_length_inv; lia)) as [? Hp]. split; [done|]. left. apply Hp. destruct Hrun; [congruence | done]. }
  destruct (early_stop s1) eqn:Es.
  { exists (visit_all s1). split_and!; try done; [by apply visit_all_inv | change (work (visit_all s1)) with (work s1); lia |].
    change (work (visit_all s1)) with (work s1). intros Hw1. destruct (Hidle ltac:(apply nil_length_inv; lia)) as [E Hp]. split; [done|].
    destruct (decide (on_flight_comps s = [])) as [E0|]; [right|by left; apply Hp]. rewrite E0 in E. apply fmap_nil_inv in E.
    split; [done|]. by intros x (y & -> & _)%list_elem_of_fmap. }
  destruct (calc_best_spec s1 Hs1 Es) as (s2 & mk & sent & -> & B1 & B2 & B3 & B4 & B5). cbn [mbind outcome_bind].
  set (b := if _ : bool then _ else _). assert (1 <= b <= Z.of_nat (max_width beam_width)) as Hb.
  { subst b. destruct (pa_width _ Hs1) as [? _]. rewrite B2. case_match; [unfold max_width; lia | done]. }
  eexists. split; [done|]. split; [rewrite B3; by apply (control_inv b (Z.max (max_marker s2) mk) _ B1 Hb)|].
  assert (forall b k f, work (set_control b k f s2) = work s2) as -> by done. split; [destruct B5 as [->|(-> & _)]; lia|].
  split; [intros H1 H2; simpl; apply B4; [done | by apply Hnv]|]. intros Hw2. destruct B5 as [B5|(-> & _ & B5)]; [lia|].
  destruct (Hidle ltac:(apply nil_length_inv; lia)) as [E Hp]. split; [done|].
  destruct (decide (on_flight_comps s = [])) as [E0|]; [right|by left; apply Hp]. rewrite E0 in E. apply fmap_nil_inv in E.
  split; [done|]. destruct B5 as [B5|B5]; [done|]. rewrite E in B5. destruct (pa_width _ Hs1). simpl in B5. lia.
Qed.

(** Every task is finished within [d] polls. *)
Definition fair_comps (d : nat) : Prop := forall t j, exists k, (k <= d)%nat /\ sync || arrives (t + k)%nat j = true.

Lemma para_loop_spec d : fair_comps d ->
  forall fuel A w t s, para_inv s -> (2 * n_nodes st - work s <= A)%nat ->
  (exists k, (k <= w)%nat /\ forall c, head (on_flight_comps s) = Some c -> ~ pending (t + k)%nat (comp_slot c)) ->
  (A * S d + w + 1 < fuel)%nat ->
  exists s', loop fuel t s = Ok s' /\ para_inv s' /\ (forall x, x ∈ retset (ps s') -> visited x = true) /\ on_flight_comps s' = [] /\
    (never_stable -> comp_idx s = sector_idx s -> comp_idx s' = sector_idx s').
Proof.
  intros Hfair. assert (forall fuel t s, para_inv s -> (forall x, x ∈ retset (ps s) -> visited x = true) -> on_flight_comps s = [] ->
    (0 < fuel)%nat -> loop fuel t s = Ok s) as Hend.
  { intros [|fuel] t s Hs Hv Hq Hf; [lia|]. cbn [para_loop]. rewrite Hq. unfold has_unvisited. pose proof (first_unvisited_spec s) as H.
    destruct (first_unvisited s); [|by rewrite bool_decide_eq_false_2 by (by intros [? ?])]. destruct H as (x & Hx & Hvx).
    apply list_elem_of_lookup_2 in Hx. by rewrite (Hv x Hx) in Hvx. }
  induction fuel as [|fuel IH]; intros A w t s Hs HA (k & Hk & Hhd) Hf; [lia|]. cbn [para_loop].
  destruct (has_unvisited s || negb (bool_decide (on_flight_comps s = []))) eqn:Hrun.
  2: { apply orb_false_iff in Hrun as [Hu Hq%negb_false_iff]. apply bool_decide_eq_true_1 in Hq. exists s. split_and!; try done.
       by apply has_unvisited_false. }
  destruct (para_step_spec t s Hs) as (s1 & -> & Hs1 & Hw & Hnv & Hidle).
  { apply orb_true_iff in Hrun as [?|Hq%negb_true_iff]; [by left | right]. by apply bool_decide_eq_false_1 in Hq. }
  cbn [mbind outcome_bind]. pose proof (para_work_bound s1 Hs1) as Hwb. destruct (decide (work s1 = work s)) as [Ew|Ew].
  - destruct (Hidle Ew) as (Hsl & [(c & Hc & Hp)|[Hq Hv]]); [|exists s1; by rewrite (Hend fuel (S t) s1) by (done || lia)].
    destruct k as [|k]; [rewrite Nat.add_0_r in Hhd; by destruct (Hhd c Hc)|].
    destruct (IH A (w - 1)%nat (S t) s1 Hs1) as (s2 & ? & ? & ? & ? & ?); [lia | | lia | exists s2; split_and!; auto].
    exists k. split; [lia|]. intros z Hz. destruct (on_flight_comps s1) as [|z' q1], (on_flight_comps s) as [|y' q]; try done.
    injection Hz as ->. injection Hsl as -> _. replace (S t + k)%nat with (t + S k)%nat by lia. by apply Hhd.
  - destruct (IH (A - 1)%nat d (S t) s1 Hs1) as (s2 & ? & ? & ? & ? & ?); [lia | | nia | exists s2; split_and!; auto].
    destruct (on_flight_comps s1) as [|z q]; [exists 0%nat; split; [lia | done]|]. destruct (Hfair (S t) (comp_slot z)) as (j & Hj & Ha).
    exists j. split; [done|]. intros ? [= <-]. unfold pending. by rewrite Ha.
Qed.
End facts.

(** *** The start *)

(** The distance of a candidate in the pool: that of the index in memory for an
    entry, the approximate distance for the others. *)
Definition entry_dist {D} (pq_dist : Z -> D) (es : list (Z * D)) (i : Z) : D :=
  match (list_to_map es : gmap Z D) !! i with Some d => d | None => pq_dist i end.

Lemma entry_dist_other {D} (pq_dist : Z -> D) es i : i ∉ (list_to_set es.*1 : gset Z) -> entry_dist pq_dist es i = pq_dist i.
Proof. intros Hi. unfold entry_dist. rewrite not_elem_of_list_to_map_1; [done|]. by rewrite elem_of_list_to_set in Hi. Qed.

Lemma entry_candidates {D} (pq_dist : Z -> D) es : NoDup es.*1 ->
  (fun '(i, d) => {| id := i; distance := d; flag := true; visited := false |}) <$> es = candidate (entry_dist pq_dist es) <$> es.*1.
Proof.
  intros Hnd. rewrite <- list_fmap_compose. apply list_fmap_ext. intros k [i d] Hk. unfold candidate, entry_dist. simpl.
  by rewrite (elem_of_list_to_map_1 es i d Hnd (list_elem_of_lookup_2 _ _ _ Hk)).
Qed.

Section start.
Context {D Exit : Type} `{!DistOrd D}.
Context (st : map_state) (pq_dist : Z -> D) (L : nat) (HL : (0 < L)%nat) (ee_init : Exit).

Definition used (mem : bool) (entries : list (Z * D)) : list (Z * D) := if mem then take L entries else entries.

Lemma used_ok mem entries : entries_ok st pq_dist mem entries -> let es := used mem entries in
  es <> [] /\ (length es <= L)%nat /\ NoDup es.*1 /\ (forall i, i ∈ es.*1 -> known st i) /\ (mem = false -> exists x, es = [x]).
Proof using HL.
  intros Hen es. destruct (start_entries st pq_dist L 0 _ (le_n _) mem entries HL Hen) as (E1 & E2 & E3 & E4 & E5).
  split_and!; try done. intros Hm. destruct (E5 Hm) as (i & E). by exists (i, pq_dist i).
Qed.

Lemma para_init_pool mem entries : entries_ok st pq_dist mem entries -> let es := used mem entries in
  ps (para_init L ee_init mem entries) = init_search (entry_dist pq_dist es) L es.*1.
Proof using HL.
  intros Hen es. destruct (used_ok mem entries Hen) as (_ & _ & Hnd & _ & Hone). fold es in Hnd, Hone.
  unfold para_init, init_search. cbn [ps]. fold (used mem entries). fold es. rewrite (entry_candidates pq_dist es Hnd). destruct mem; [done|].
  destruct (Hone eq_refl) as (x & ->). done.
Qed.
End start.

Section result.
Context {D Exit : Type} `{!DistOrd D}.
Context (g : geometry) (st : map_state) (m : Z -> Z) (cur_id : Z) (Hgraph : graph_ok g st m cur_id).
Context (pq_dist : Z -> D) (exact_dist : list Z -> D) (L k_search : nat) (HL : (0 < L)%nat).
Context (beam_width : Z) (Hbeam : 0 < beam_width) (Hbuffers : (max_width beam_width + k_search < MAX_N_SECTOR_READS)%nat).
Context (ee_init : Exit) (ee_push : Exit -> D -> outcome (Exit * bool)) (sync : bool) (arrives : nat -> nat -> bool).
Context (Hgeom : geometry_wf g) (Hloc : forall i loc, id2loc_ st !! i = Some loc -> 0 <= loc < 2 ^ 31).
Context (Hdeg : forall i n, read_node g st m i = Ok n -> (length (nbrs n) <= MAX_DEGREE)%nat).
Context (Hexit : forall ds, (length ds <= n_nodes st)%nat -> exists e, exit_after ee_init ee_push ds = Ok e).
Context (mem : bool) (entries : list (Z * D)) (Hen : entries_ok st pq_dist mem entries).

Abbreviation es := (used L mem entries).
Abbreviation pdist := (entry_dist pq_dist es).
Abbreviation para_inv := (para_inv g st m exact_dist L (list_to_set es.*1) pdist k_search beam_width ee_init ee_push sync).

Lemma para_init_inv : para_inv (para_init L ee_init mem entries).
Proof.
  destruct (used_ok st pq_dist L HL mem entries Hen) as (E1 & E2 & E3 & E4 & _). pose proof (para_init_pool st pq_dist L HL ee_init mem entries Hen) as Ep.
  set (s := para_init L ee_init mem entries) in *. cbv zeta in Ep. assert (on_flight_comps s = []) as Eq by done.
  assert (settled s = init_search pdist L es.*1) as Es.
  { unfold settled, flight. rewrite Eq, Ep. unfold init_search. simpl. f_equal. clear. set_solver. }
  assert (forall x, x ∈ retset (ps s) -> visited x = false) as Hnv.
  { rewrite Ep. simpl. intros x Hx. rewrite std_sort_nb_perm in Hx. by apply list_elem_of_fmap in Hx as (i & -> & _). }
  assert (full_retset (ps s) = []) as Ef by (by rewrite Ep).
  constructor; unfold expanded, flight; rewrite ?Es, ?Eq, ?Ef; try done.
  - apply init_search_inv; [|done|done]. intros E. by destruct (used L mem entries).
  - apply pool_top_init. by rewrite length_fmap.
  - split; [split; [constructor | by intros i ?%elem_of_nil] | by intros i ?%elem_of_nil].
  - split_and!; [constructor | done | by intros i ?%elem_of_nil].
  - intros x _ _. apply not_elem_of_nil.
  - simpl. unfold max_width. split; lia.
  - simpl. split_and!; lia.
  - exists []. by split.
  - intros _. unfold nothing_skipped, expanded. rewrite Ef. split_and!; [done | | by intros i n j ?%elem_of_nil].
    intros x Hx Hv. by rewrite (Hnv x Hx) in Hv.
Qed.

(** Enough iterations: two for every node (it is expanded, its task is
    collected), each after at most [d] polls without work, and one that marks
    the rest when the search is stopped. *)
Definition para_fuel (d : nat) : nat := (2 * n_nodes st * S d + d + 2)%nat.

Lemma para_result d fuel : fair_comps sync arrives d -> (para_fuel d <= fuel)%nat ->
  exists s, do_para_search g st m pq_dist exact_dist L k_search beam_width ee_init ee_push true sync arrives fuel mem entries =
      Ok (std_sort_nb (full_retset (ps s))) /\ para_inv s /\ settled s = {| retset := retset (ps s); visited_ids := visited_ids (ps s); full_retset := []; l_search := L |} /\
    (forall x, x ∈ retset (ps s) -> visited x = true) /\ (never_stable st ee_init ee_push -> nothing_skipped g st m s).
Proof using All.
  intros Hfair Hf. unfold do_para_search, para_fuel in *. pose proof Hbuffers as Hbuf.
  destruct (Z.ltb_spec (Z.of_nat MAX_N_COMPUTES) beam_width) as [Hlt|_]; [exfalso; revert Hlt Hbuf; unfold max_width, MAX_N_COMPUTES, MAX_N_SECTOR_READS; lia|].
  destruct (para_loop_spec g st m cur_id Hgraph pq_dist exact_dist L (list_to_set es.*1) pdist (entry_dist_other pq_dist es) k_search beam_width
    Hbeam Hbuffers ee_init ee_push sync arrives Hgeom Hloc Hdeg Hexit d Hfair fuel (2 * n_nodes st) d 0 _ para_init_inv) as (s & -> & Hs & Hv & Hq & Hnv);
    [lia | by exists O; split; [lia|] | lia |].
  cbn [mbind outcome_bind]. exists s. split_and!; try done.
  - unfold settled, flight. rewrite Hq. pose proof (pt_size _ _ _ (pa_top _ _ _ _ _ _ _ _ _ _ _ _ _ Hs)) as E. simpl in E. rewrite E. f_equal. simpl. clear. set_solver.
  - intros Hnev. apply (pa_all _ _ _ _ _ _ _ _ _ _ _ _ _ Hs). by apply Hnv.
Qed.
End result.

(** C16. A parallel search of a quiescent index in persistent memory, under three
    conditions that the code does not check: no list is longer than 512, the
    size of a task's slot for distances; locations are below [2^31], since the
    search keeps them in an [int]; and the width (at least 4) plus [k_search] is
    below 512, the number of sector buffers, so that none is read into while a
    task uses it.  Then the search ends, whatever the order in which the workers
    finish their tasks, when every task finishes within [d] polls and the early
    exit does not trap ([para_fuel d] iterations are enough).  Its result is
    sorted, with
    every expanded identifier once and exact distances; its final pool is
    sorted and within the list size.  When the early exit does not stop it, it
    is a fixed point of greedy expansion: every candidate of the pool was
    expanded, and a neighbour of an expanded node is in the pool unless the
    pool is full with candidates that are all at least as close (an entry from
    the index in memory counts with the distance that index returned).
    [para_search] returns the tags of the first [min l_search k_search]
    entries.  With [sync] it is the variant for large indexes. *)
Theorem para_search_correct {D Exit} `{!DistOrd D} g st m cur_id (pq_dist : Z -> D) exact_dist tags L k_search bw (ee_init : Exit) ee_push
    sync arrives d mem entries fuel :
  geometry_wf g -> graph_ok g st m cur_id -> (forall i loc, id2loc_ st !! i = Some loc -> 0 <= loc < 2 ^ 31) ->
  (forall i n, read_node g st m i = Ok n -> (length (nbrs n) <= MAX_DEGREE)%nat) ->
  0 < bw -> (0 < L)%nat -> (max_width bw + k_search < MAX_N_SECTOR_READS)%nat -> entries_ok st pq_dist mem entries ->
  (forall ds, (length ds <= n_nodes st)%nat -> exists e, exit_after ee_init ee_push ds = Ok e) ->
  fair_comps sync arrives d -> (para_fuel st d <= fuel)%nat ->
  exists pool expanded,
    do_para_search g st m pq_dist exact_dist L k_search bw ee_init ee_push true sync arrives fuel mem entries = Ok expanded /\
    StronglySorted nb_le expanded /\ NoDup (id <$> expanded) /\ Forall (is_exact g st m exact_dist) expanded /\
    sorted_pool pool /\ (length pool <= L)%nat /\
    (forall x, x ∈ pool -> distance x = entry_dist pq_dist (used L mem entries) (id x)) /\
    (never_stable st ee_init ee_push ->
       (forall x, x ∈ pool -> id x ∈ id <$> expanded) /\
       (forall i n j, i ∈ id <$> expanded -> read_node g st m i = Ok n -> j ∈ nbrs n -> j ∈ id <$> pool \/
          (length pool = L /\ forall x, x ∈ pool -> dlt (entry_dist pq_dist (used L mem entries) j) (distance x) = false))) /\
    para_search g st m pq_dist exact_dist tags L k_search bw ee_init ee_push true sync arrives fuel mem entries =
      Ok ((fun x => (id2tag tags (id x), distance x)) <$> take (L `min` k_search) expanded).
Proof.
  intros Hg Hgr Hloc Hdeg Hb HL Hbuf Hen Hexit Hfair Hf.
  destruct (para_result g st m cur_id Hgr pq_dist exact_dist L k_search HL bw Hb Hbuf ee_init ee_push sync arrives Hg Hloc Hdeg Hexit mem entries Hen
    d fuel Hfair Hf) as (s & E & Hs & Eset & Hv & Hall).
  destruct Hs as [P1 P2 _ _ (F1 & F2 & _) _ _ _ _ _ _]. rewrite Eset in P1, P2. destruct P2 as [_ T2 T3 T4].
  pose proof (std_sort_nb_perm (full_retset (ps s))) as Hp.
  assert (NoDup (id <$> std_sort_nb (full_retset (ps s)))) as Hnd by (by rewrite Hp).
  exists (retset (ps s)), (std_sort_nb (full_retset (ps s))). unfold para_search. rewrite E. cbn [mbind outcome_bind].
  split_and!; [done | apply std_sort_nb_strong | done | by rewrite Hp | apply (sv_sorted _ _ P1) | done | done | |].
  - intros (_ & K2 & K3)%Hall. split; [intros x Hx; rewrite Hp; apply K2; [done | by apply Hv]|].
    intros i n j Hi En Hj. rewrite Hp in Hi. apply T4. by apply (K3 i n j).
  - f_equal. rewrite copy_results_NoDup; [by rewrite take_take, Nat.min_comm | by apply NoDup_take_ids | done].
Qed.

(** ** Concrete runs *)

(** The early exit of the program on the distances of the example. *)
Definition path_exit (e : stability Word spec_float) (d : Z) : outcome (stability Word spec_float * bool) :=
  push_stability e (float_of_nat (Z.to_nat d)).

Lemma path_exit_short : forall ds e, (length (window (recentQ e)) + length ds < w (recentQ e))%nat ->
  exists e', foldM (fun d e => '(e, _) ← path_exit e d; Ok e) ds e = Ok e' /\ w (recentQ e') = w (recentQ e) /\
    length (window (recentQ e')) = (length (window (recentQ e)) + length ds)%nat.
Proof.
  induction ds as [|d ds IH]; intros e H; cbn [foldM length] in *; [by exists e; rewrite Nat.add_0_r|].
  destruct (push_stability_short e (float_of_nat (Z.to_nat d))) as (e1 & E & W & N); [lia|]. change (path_exit e d = Ok (e1, false)) in E. rewrite E.
  cbn [mbind outcome_bind]. destruct (IH e1) as (e2 & -> & W2 & N2); [lia|]. exists e2. split_and!; [done | congruence | lia].
Qed.

Lemma path_exit_total ds : (length ds <= n_nodes path_map)%nat -> exists e, exit_after init_stability path_exit ds = Ok e.
Proof.
  intros H. assert (n_nodes path_map = 4)%nat as E by (apply (bool_decide_unpack _); by vm_compute). rewrite E in H.
  destruct (path_exit_short ds init_stability) as (e & ? & _); [simpl; lia | by exists e].
Qed.

Lemma path_locs_int i loc : id2loc_ path_map !! i = Some loc -> 0 <= loc < 2 ^ 31.
Proof.
  intros H. assert (map_Forall (fun _ l => 0 <= l < 2 ^ 31) (id2loc_ path_map)) as Hall by (apply (bool_decide_unpack _); by vm_compute).
  by apply (Hall i loc).
Qed.

Lemma path_degree i n : read_node path_geom path_map path_file i = Ok n -> (length (nbrs n) <= MAX_DEGREE)%nat.
Proof.
  unfold read_node, id2loc, find, find_fn. intros H. destruct (id2loc_ path_map !! i) as [loc|] eqn:E; [|done]. cbn [mbind outcome_bind] in H.
  assert (map_Forall (fun _ l => (length (nbrs (disk_node path_geom path_file (u_loc_offset path_geom l))) <= MAX_DEGREE)%nat) (id2loc_ path_map)) as Hall
    by (apply (bool_decide_unpack _); by vm_compute).
  injection H as <-. by apply (Hall i loc).
Qed.

Lemma path_never_stable : never_stable path_map init_stability path_exit.
Proof.
  intros ds e d e' b H He. assert (n_nodes path_map = 4)%nat as E by (apply (bool_decide_unpack _); by vm_compute). rewrite E in H.
  destruct (path_exit_short ds init_stability) as (e1 & E1 & W & N); [simpl; lia|]. unfold exit_after in He. rewrite E1 in He. injection He as ->.
  destruct (push_stability_short e (float_of_nat (Z.to_nat d))) as (e2 & E2 & _); [rewrite W, N; simpl; lia|].
  change (path_exit e d = Ok (e2, false)) in E2. rewrite E2. by intros [= _ <-].
Qed.

Lemma para_search_witness : exists pool expanded,
  do_para_search path_geom path_map path_file path_pq path_exact 3 2 2 init_stability path_exit true false alternate 30 true [(1, 7); (0, 9)] =
    Ok expanded /\
  StronglySorted nb_le expanded /\ NoDup (id <$> expanded) /\ Forall (is_exact path_geom path_map path_file path_exact) expanded /\
  sorted_pool pool /\ (length pool <= 3)%nat /\
  (forall x, x ∈ pool -> distance x = entry_dist path_pq (used 3 true [(1, 7); (0, 9)]) (id x)) /\
  (never_stable path_map init_stability path_exit ->
     (forall x, x ∈ pool -> id x ∈ id <$> expanded) /\
     (forall i n j, i ∈ id <$> expanded -> read_node path_geom path_map path_file i = Ok n -> j ∈ nbrs n -> j ∈ id <$> pool \/
        (length pool = 3%nat /\ forall x, x ∈ pool -> dlt (entry_dist path_pq (used 3 true [(1, 7); (0, 9)]) j) (distance x) = false))) /\
  para_search path_geom path_map path_file path_pq path_exact ∅ 3 2 2 init_stability path_exit true false alternate 30 true [(1, 7); (0, 9)] =
    Ok ((fun x => (id2tag ∅ (id x), distance x)) <$> take (3 `min` 2) expanded).
Proof.
  apply (para_search_correct path_geom path_map path_file 3 path_pq path_exact ∅ 3 2 2 init_stability path_exit false alternate 1 true
    [(1, 7); (0, 9)] 30 path_geom_wf path_graph_ok path_locs_int path_degree ltac:(lia) ltac:(lia));
    [apply (bool_decide_unpack _); by vm_compute | apply path_entries | apply path_exit_total | apply alternate_fair | apply (bool_decide_unpack _); by vm_compute].
Defined.

Example path_para_search (sync : bool) :
  para_search path_geom path_map path_file path_pq path_exact ∅ 3 2 2 init_stability path_exit true sync alternate 30 true [(1, 7); (0, 9)]
    = Ok [(3, 1); (2, 9)].
Proof. destruct sync; by vm_compute. Qed.

(** A likely stop skips the neighbours of the node that was just read, and the
    search goes on. *)
Definition once (n e : nat) (d : Z) : outcome (nat * bool) := Ok (S e, bool_decide (e = n)%nat).
Definition stopped_once (L n : nat) : outcome (list Z) :=
  l ← do_para_search path_geom path_map path_file path_pq path_exact L 4 2 0%nat (once n) true false alternate 30 true [(0, 9)];
  Ok (id <$> (l : list (Neighbor Z))).
Example likely_stop_skips : stopped_once 3 9 = Ok [3; 2; 1; 0] /\ stopped_once 3 0 = Ok [2; 1; 0].
Proof. split; by vm_compute. Qed.
