(* ===== verification/InPlace.v ===== *)
(** * In-place insertion: search phase and insert phase

    [search_phase] and [insert_in_place] of [src/update/direct_insert.cpp].
    The search phase takes the next identifier, stores the compressed vector
    in the growing in-memory array, searches the graph for the new vector and
    prunes the expanded nodes to the list of the new node; the insert phase
    then changes the graph ([Insert]).  [insert_in_place] composes the models
    of the beam search, of the pruning and of the insert phase. *)
From S2P Require Import Prelude Cuckoo Layout PageAlloc Mapping Node Versions Neighbor Float32 Prune DeltaPrune Insert CandidatePool BeamSearch.
Import Cuckoo.

(** ** The array of compressed vectors *)

(** [while (data.size() < need) data.resize(1.5 * data.size())] *)
Fixpoint grow (fuel : nat) (need : Z) (data : list Z) : outcome (list Z) :=
  if Z.of_nat (length data) <? need then
    match fuel with
    | O => Crash
    | S fuel => grow fuel need (resize (Z.to_nat (3 * Z.of_nat (length data) / 2)) 0 data)
    end
  else Ok data.

Definition publish_pq (fuel : nat) (n_chunks target_id : Z) (pq_coords data : list Z) : outcome (list Z) :=
  let pq_offset := u64 (target_id * n_chunks) in
  data ← grow fuel (u64 (pq_offset + n_chunks)) data;
  Ok (list_inserts (Z.to_nat pq_offset) pq_coords data).

Record index_state := {
  ix_ins : insert_state;
  ix_cur_id : Z;
  ix_data : list Z;
}.

Section in_place.
Context {F : Type} `{!FloatOps F}.
(** The index parameters: [range], [maxc], [alpha], [medoid], the search list
    size and the beam width of insertions, the geometry. *)
Context (alpha : F) (range maxc : nat) (medoid : Z) (l_index beam_width : nat).
Context (g : geometry) (ann_large cc_ann : bool) (mode : pruning).
(** [deflate_vector], [compute_pq_dists] between stored vectors and from a
    query, [dist_cmp->compare], and the entry points for a query. *)
Context (deflate : list Z -> list Z) (n_chunks : Z).
Context (dpq : Z -> Z -> F) (pq_dist : list Z -> Z -> F) (compare : list Z -> list Z -> F).
Context (entry_points : list Z -> list Z).
(** Bounds for the loops: search, alpha loop, batches, growth of the array. *)
Context (sfuel pfuel bfuel gfuel : nat).

(** [coord_map], filled at every expansion. *)
Definition add_coords (st : map_state) (file : Z -> Z) (x : Neighbor F) (m : gmap Z (list Z)) : outcome (gmap Z (list Z)) :=
  nd ← read_node g st file (id x);
  Ok (match m !! id x with Some _ => m | None => <[id x := coords nd]> m end).
Definition collect_coords (st : map_state) (file : Z -> Z) (expanded : list (Neighbor F)) : outcome (gmap Z (list Z)) :=
  foldM (add_coords st file) expanded ∅.

(** The pages of the expanded nodes, in the order of the expansion. *)
Definition add_page (st : map_state) (x : Neighbor F) (l : list Z) : outcome (list Z) :=
  loc ← id2loc st (id x);
  Ok (l ++ [u64 (loc_sector_no g loc * SECTOR_LEN) / SECTOR_LEN]).
Definition page_ref (st : map_state) (expanded : list (Neighbor F)) : outcome (list Z) :=
  foldM (add_page st) expanded [].

Definition search_phase (point : list Z) (tags : gmap Z Z) (deletion_set : gset Z) (s : index_state)
  : outcome (Z * list Z * list Z * index_state) :=
  let target_id := u32 (ix_cur_id s) in
  let cur_id := u64 (ix_cur_id s + 1) in
  let pq_coords := deflate point in
  data ← publish_pq gfuel n_chunks target_id pq_coords (ix_data s);
  let st := in_map (ix_ins s) in
  let file := in_file (ix_ins s) in
  r ← search_run g st file cur_id (coord_slots g) (pq_dist point) (compare point) tags deletion_set false l_index beam_width
        (fun _ => false) sfuel (entry_points point);
  hints ← page_ref st (full_retset r);
  let exp_node_info := std_sort_nb (full_retset r) in
  coord_map ← collect_coords st file (full_retset r);
  new_nhood ← prune_neighbors alpha range maxc medoid pfuel coord_map compare exp_node_info [];
  Ok (target_id, hints, new_nhood, {| ix_ins := ix_ins s; ix_cur_id := cur_id; ix_data := data |}).

(** [use_pm]: the index is on persistent memory and no baseline macro forces
    the block path. *)
Definition insert_in_place (use_pm : bool) (update_buf : Z -> Z) (point : list Z) (tag : Z) (deletion_set : gset Z)
    (s : index_state) : outcome (Z * index_state) :=
  '(target_id, hints, new_nhood, s) ← search_phase point (in_tags (ix_ins s)) deletion_set s;
  ins ← (if use_pm
         then insert_phase_pm alpha range maxc dpq bfuel pfuel mode g ann_large update_buf point tag target_id new_nhood hints (ix_ins s)
         else insert_phase alpha range maxc dpq bfuel pfuel mode g ann_large cc_ann update_buf point tag target_id new_nhood hints (ix_ins s));
  Ok (target_id, {| ix_ins := ins; ix_cur_id := ix_cur_id s; ix_data := ix_data s |}).
End in_place.

(** ** Growth of the array *)
Lemma grow_spec need : forall fuel data, 2 <= Z.of_nat (length data) -> need <= Z.of_nat (length data) + Z.of_nat fuel ->
  exists data', grow fuel need data = Ok data' /\ need <= Z.of_nat (length data') /\ (length data <= length data')%nat /\
    take (length data) data' = data.
Proof.
  induction fuel as [|fuel IH]; intros data H2 Hn; cbn [grow].
  - destruct (Z.ltb_spec (Z.of_nat (length data)) need); [lia|]. exists data. rewrite firstn_all. split_and!; [done | lia | lia | done].
  - destruct (Z.ltb_spec (Z.of_nat (length data)) need); [|exists data; rewrite firstn_all; split_and!; [done | lia | lia | done]].
    set (k := Z.to_nat (3 * Z.of_nat (length data) / 2)).
    assert (length data < k)%nat as Hk.
    { subst k. pose proof (Z.div_mod (3 * Z.of_nat (length data)) 2). pose proof (Z.mod_pos_bound (3 * Z.of_nat (length data)) 2). lia. }
    destruct (IH (resize k 0 data)) as (data' & -> & H1 & H3 & H4); [rewrite length_resize; lia | rewrite length_resize; lia |].
    rewrite length_resize in H3, H4. exists data'. split_and!; [done | done | lia |].
    replace (length data) with (Nat.min (length data) k) by lia. rewrite <- take_take, H4. by rewrite resize_ge, take_app_length by lia.
Qed.

(** A vector of one element never grows. *)
Lemma grow_stuck need data : (length data <= 1)%nat -> Z.of_nat (length data) < need -> forall fuel, grow fuel need data = Crash.
Proof.
  intros Hl Hn fuel. induction fuel as [|fuel IH]; cbn [grow]; destruct (Z.ltb_spec (Z.of_nat (length data)) need); try lia; [done|].
  replace (resize _ 0 data) with data; [done|]. destruct data as [|x [|y data]]; [done | done | simpl in Hl; lia].
Qed.

Lemma publish_pq_spec fuel n_chunks id pq data : 0 <= id < 2 ^ 32 -> 0 <= n_chunks < 2 ^ 31 -> Z.of_nat (length pq) = n_chunks ->
  2 <= Z.of_nat (length data) -> (id + 1) * n_chunks <= Z.of_nat (length data) + Z.of_nat fuel ->
  exists data', publish_pq fuel n_chunks id pq data = Ok data' /\
    (id + 1) * n_chunks <= Z.of_nat (length data') /\ (length data <= length data')%nat /\
    (forall (i : nat), (i < length pq)%nat -> data' !! Z.to_nat (id * n_chunks + Z.of_nat i) = pq !! i) /\
    (forall (i : nat), (i < length data)%nat -> Z.of_nat i < id * n_chunks \/ (id + 1) * n_chunks <= Z.of_nat i -> data' !! i = data !! i).
Proof.
  intros Hid Hc Hp H2 Hf. unfold publish_pq. rewrite (u64_small (id * n_chunks)) by nia. rewrite (u64_small (id * n_chunks + n_chunks)) by nia.
  destruct (grow_spec (id * n_chunks + n_chunks) fuel data H2) as (data' & -> & H3 & H4 & H5); [lia|]. cbn [mbind outcome_bind].
  eexists. split; [done|]. rewrite length_inserts. split_and!; [lia | done | |].
  - intros i Hi. rewrite Z2Nat.inj_add, Nat2Z.id by lia. rewrite list_lookup_inserts by lia. f_equal. lia.
  - intros i Hi Ho. assert (data !! i = data' !! i) as -> by (rewrite <- H5 at 1; by rewrite lookup_take_lt). destruct Ho.
    + apply list_lookup_inserts_lt. lia.
    + apply list_lookup_inserts_ge. lia.
Qed.

(** ** Search phase and composition *)
Section facts.
Context {F : Type} `{!FloatOps F}.
Context (alpha : F) (range maxc : nat) (medoid : Z) (l_index beam_width : nat).
Context (g : geometry) (deflate : list Z -> list Z) (n_chunks : Z).
Context (pq_dist : list Z -> Z -> F) (compare : list Z -> list Z -> F) (entry_points : list Z -> list Z).

(** A consistent index: the maps agree, the graph is well-formed, known
    identifiers are below [cur_id], and the array can grow. *)
Record index_ok (s : index_state) : Prop := {
  ok_index : index_inv g (in_map (ix_ins s));
  ok_graph : graph_wf range g (graph_of g (in_map (ix_ins s)) (in_file (ix_ins s)));
  ok_ids : forall i, is_Some (id2loc_ (in_map (ix_ins s)) !! i) -> i < ix_cur_id s;
  ok_cur : 0 <= ix_cur_id s;
  ok_data : 2 <= Z.of_nat (length (ix_data s));
}.

Lemma read_node_graph st file i nd : read_node g st file i = Ok nd <-> graph_of g st file !! i = Some nd.
Proof.
  rewrite graph_of_lookup. unfold read_node, id2loc, find, find_fn. destruct (id2loc_ st !! i); simpl; naive_solver.
Qed.

Lemma index_search_ok s cur : index_ok s -> ix_cur_id s <= cur -> graph_ok g (in_map (ix_ins s)) (in_file (ix_ins s)) cur.
Proof.
  intros Hs Hc. split.
  - intros i Hi. pose proof (ok_ids _ Hs i Hi). lia.
  - intros i n En j Hj. apply read_node_graph in En. destruct (ok_graph _ Hs i n En) as (_ & _ & Hcl). by eapply graph_known, Hcl.
Qed.

Lemma add_coords_ok st file (x : Neighbor F) m : known st (id x) ->
  exists m', add_coords g st file x m = Ok m' /\ is_Some (m' !! id x) /\ forall i, is_Some (m !! i) -> is_Some (m' !! i).
Proof.
  intros Hk. destruct (proj2 (graph_known g st file (id x)) Hk) as [nd En]. apply read_node_graph in En.
  unfold add_coords. rewrite En. cbn [mbind outcome_bind]. eexists. split; [done|].
  destruct (m !! id x) eqn:E; [split; [by rewrite E | done]|]. rewrite lookup_insert_eq. split; [by eexists|].
  intros i Hi. destruct (decide (i = id x)) as [->|Hne]; [rewrite lookup_insert_eq; by eexists | by rewrite lookup_insert_ne].
Qed.

Lemma collect_coords_ok st file (expanded : list (Neighbor F)) : (forall x, x ∈ expanded -> known st (id x)) ->
  exists m, collect_coords g st file expanded = Ok m /\ forall x, x ∈ expanded -> is_Some (m !! id x).
Proof.
  unfold collect_coords. intros Hk.
  assert (forall m, exists m', foldM (add_coords g st file) expanded m = Ok m' /\ (forall i, is_Some (m !! i) -> is_Some (m' !! i)) /\
    forall x, x ∈ expanded -> is_Some (m' !! id x)) as H; [|destruct (H ∅) as (m & ? & _ & ?); by exists m].
  induction expanded as [|x l IH]; intros m; cbn [foldM].
  { exists m. split_and!; [done | done |]. intros x H. by apply not_elem_of_nil in H. }
  destruct (add_coords_ok st file x m (Hk x ltac:(by left))) as (m1 & -> & H1 & H2). cbn [mbind outcome_bind].
  destruct (IH (fun y Hy => Hk y ltac:(by right)) m1) as (m2 & E & H3 & H4). exists m2. split_and!; [done | auto |].
  intros y [->|Hy]%elem_of_cons; auto.
Qed.

Lemma page_ref_ok st (expanded : list (Neighbor F)) : geometry_wf g -> index_inv g st -> (forall x, x ∈ expanded -> known st (id x)) ->
  exists l, page_ref g st expanded = Ok l /\ Forall (fun p => 0 <= p < 2 ^ 32) l.
Proof.
  intros Hg Hi Hk. apply (foldM_inv (Forall (fun p => 0 <= p < 2 ^ 32))); [|constructor].
  intros x l Hx Hl. destruct (Hk x Hx) as [lx Ex]. unfold add_page, id2loc, find, find_fn. rewrite Ex. cbn [fmap option_fmap option_map mbind outcome_bind].
  eexists. split; [done|]. apply Forall_app. split; [done|]. constructor; [|constructor].
  destruct (ii_fwd _ _ Hi _ _ Ex) as (_ & Hok & _). pose proof (page_range g Hg lx Hok). rewrite page_off, page_div by lia. lia.
Qed.

Context (Hg : geometry_wf g) (n pfuel sfuel gfuel : nat) (Hn : rounds_end alpha n) (Hpf : (n < pfuel)%nat).
Context (Hbw : (0 < beam_width)%nat) (Hwidth : Z.of_nat beam_width * size_per_io g <= sector_scratch_size).
Context (Hfit : offset_to_node_nhood g + 4 + 4 * Z.of_nat range <= max_node_len g).
Context (Hdim : 0 <= data_dim g) (Hsize : 0 <= sizeof_T g).
Context (Hdef : forall p, Z.of_nat (length (deflate p)) = n_chunks) (Hch : 0 <= n_chunks < 2 ^ 31).

(** What the search leaves to the insertion: the pages of the expanded nodes,
    and the list of neighbours. *)
Lemma expanded_known st (ex : Neighbor F -> Prop) r : search_inv (known st) ex [] r -> forall x, x ∈ full_retset r -> known st (id x).
Proof.
  intros Hr x Hx. apply (sv_known _ _ Hr), (sv_done _ _ Hr). rewrite app_nil_r. by apply list_elem_of_fmap_2.
Qed.

Lemma hints_ok s (ex : Neighbor F -> Prop) r : index_ok s -> search_inv (known (in_map (ix_ins s))) ex [] r ->
  exists hints, page_ref g (in_map (ix_ins s)) (full_retset r) = Ok hints /\ Forall (fun p => 0 <= p < 2 ^ 32) hints.
Proof. intros Hs Hr. apply page_ref_ok; [done | apply Hs | by eapply expanded_known]. Qed.

Lemma choose_ok st file (cmp : list Z -> list Z -> F) (ex : Neighbor F -> Prop) r :
  search_inv (known st) ex [] r -> (forall x, x ∈ retset r -> flag x = false) ->
  exists cm nhood, collect_coords g st file (full_retset r) = Ok cm /\
    prune_neighbors alpha range maxc medoid pfuel cm cmp (std_sort_nb (full_retset r)) [] = Ok nhood /\
    NoDup nhood /\ (length nhood <= range)%nat /\ (forall j, j ∈ nhood -> known st j) /\
    (dlt f_one alpha = true -> (0 < range)%nat -> nhood <> []).
Proof.
  intros Hr Hdone. pose proof (expanded_known _ _ _ Hr) as Hfull.
  destruct (collect_coords_ok st file (full_retset r) Hfull) as (cm & Ec & Hcm).
  pose proof (std_sort_nb_perm (full_retset r)) as Hp. pose proof (fmap_Permutation id _ _ Hp) as Hids.
  assert (Hfne : full_retset r <> []).
  { destruct (retset r) as [|x l] eqn:Er; [by destruct (sv_nonempty _ _ Hr)|]. intros E.
    pose proof (sv_old _ _ Hr x) as Ho. rewrite Er, E in Ho.
    apply (not_elem_of_nil (id x)), Ho; [by left|]. apply Hdone. by left. }
  destruct (prune_neighbors_spec alpha range maxc medoid cm cmp (std_sort_nb (full_retset r)) [] n pfuel) as (nhood & E & [P1 P2 P3 P4]); [| | |done|done|].
  { rewrite Hids. pose proof (sv_once _ _ Hr) as Ho. by rewrite app_nil_r in Ho. }
  { intros E. rewrite E in Hp. by apply Permutation_nil_l in Hp. }
  { intros x Hx. rewrite Hp in Hx. by apply Hcm. }
  exists cm, nhood. split_and!; try done.
  - intros j Hj%P2. rewrite Hids in Hj. apply list_elem_of_fmap in Hj as (x & -> & Hx). by apply Hfull.
  - intros Ha H0 ->. specialize (P4 Ha). rewrite Hids, length_fmap in P4. destruct (full_retset r); [done|]. simpl in P4. lia.
Qed.

(** Lists that fit a node fit the buffer of distances. *)
Lemma index_degrees s : index_ok s -> degrees_le g (in_map (ix_ins s)) (in_file (ix_ins s)) dist_scratch_size.
Proof.
  intros Hs i nd En. apply read_node_graph in En. destruct (ok_graph _ Hs i nd En) as (_ & (_ & _ & Hl) & _).
  pose proof (list_bound_small range g Hg Hfit). unfold dist_scratch_size, MAX_N_COMPUTES. lia.
Qed.

(** The search of an insertion ends in [r]. *)
Definition insertion_search point tags del (s : index_state) (r : search_state F) : Prop :=
  ends_in g (in_map (ix_ins s)) (in_file (ix_ins s)) (ix_cur_id s + 1) (pq_dist point) (compare point) tags del false l_index beam_width
    (fun _ => false) sfuel (entry_points point) r.

Abbreviation phase := (search_phase alpha range maxc medoid l_index beam_width g deflate n_chunks pq_dist compare entry_points sfuel pfuel gfuel).

(** The search phase finds a list of distinct known neighbours, unless the
    search expands more nodes than [coord_scratch] has room for. *)
Lemma search_phase_ok point tags del s : index_ok s -> ix_cur_id s < kAllocatedID ->
  let entries := entry_points point in
  entries <> [] -> NoDup entries -> (length entries <= l_index)%nat -> (forall i, i ∈ entries -> known (in_map (ix_ins s)) i) ->
  (search_fuel (in_map (ix_ins s)) <= sfuel)%nat -> (ix_cur_id s + 1) * n_chunks <= Z.of_nat (length (ix_data s)) + Z.of_nat gfuel ->
  exists r, insertion_search point tags del s r /\
    if Z.of_nat (length (full_retset r)) <=? coord_slots g then
      exists hints nhood data,
        phase point tags del s = Ok (ix_cur_id s, hints, nhood, {| ix_ins := ix_ins s; ix_cur_id := ix_cur_id s + 1; ix_data := data |}) /\
        publish_pq gfuel n_chunks (ix_cur_id s) (deflate point) (ix_data s) = Ok data /\
        Forall (fun p => 0 <= p < 2 ^ 32) hints /\ NoDup nhood /\ (length nhood <= range)%nat /\
        (forall j, j ∈ nhood -> known (in_map (ix_ins s)) j) /\ (dlt f_one alpha = true -> (0 < range)%nat -> nhood <> [])
    else phase point tags del s = Crash.
Proof.
  intros Hs Hlt entries Hne Hnd Hle Hk Hsf Hgf. pose proof (ok_cur _ Hs). unfold kAllocatedID in Hlt.
  destruct (search_ends_in g (in_map (ix_ins s)) (in_file (ix_ins s)) (ix_cur_id s + 1) (pq_dist point) (compare point) tags del false l_index beam_width
    (fun _ => false) sfuel entries) as (r & Hend & _ & Hr & Hdone); [by apply (index_search_ok s); [done | lia] | by apply index_degrees | done..|].
  exists r. split; [done|].
  destruct (publish_pq_spec gfuel n_chunks (ix_cur_id s) (deflate point) (ix_data s)) as (data & Ed & _); [lia | lia | done | apply Hs | done |].
  assert (0 <= coord_slots g) as Hslots by by apply coord_slots_pos.
  assert (Hphase : phase point tags del s =
    (r ← (if Z.of_nat (length (full_retset r)) <=? coord_slots g then Ok r else Crash);
     hints ← page_ref g (in_map (ix_ins s)) (full_retset r);
     coord_map ← collect_coords g (in_map (ix_ins s)) (in_file (ix_ins s)) (full_retset r);
     new_nhood ← prune_neighbors alpha range maxc medoid pfuel coord_map compare (std_sort_nb (full_retset r)) [];
     Ok (ix_cur_id s, hints, new_nhood, {| ix_ins := ix_ins s; ix_cur_id := ix_cur_id s + 1; ix_data := data |}))).
  { unfold search_phase. rewrite (u32_small (ix_cur_id s)), (u64_small (ix_cur_id s + 1)) by lia.
    rewrite Ed. cbn [mbind outcome_bind]. fold entries. by rewrite (Hend _ Hslots). }
  rewrite Hphase. destruct (Z.of_nat (length (full_retset r)) <=? coord_slots g); [|done]. cbn [mbind outcome_bind].
  destruct (hints_ok s _ r Hs Hr) as (hints & -> & Hh). cbn [mbind outcome_bind].
  destruct (choose_ok _ (in_file (ix_ins s)) compare _ r Hr (Hdone (fun _ => eq_refl))) as (cm & nhood & -> & E & Hrest). cbn [mbind outcome_bind]. rewrite E. cbn [mbind outcome_bind].
  exists hints, nhood, data. split; [done|]. split; [done|]. split; [exact Hh | exact Hrest].
Qed.
End facts.

(** ** Properties *)

(** What [insert_in_place] did: the returned identifier is the old [cur_id];
    the new graph is the abstract insertion of the vector with the chosen list
    of distinct known neighbours; the index is consistent again; the
    compressed vector is in its place and the others are unchanged. *)
Record inserted {F} `{!FloatOps F} (alpha : F) (range maxc : nat) (dpq : Z -> Z -> F) (bfuel pfuel : nat) (mode : pruning)
    (g : geometry) (deflate : list Z -> list Z) (n_chunks : Z) (point : list Z) (tag : Z) (s : index_state) (t : Z) (s' : index_state) : Prop := {
  is_id : t = ix_cur_id s /\ ix_cur_id s' = ix_cur_id s + 1;
  is_graph : exists nhood, NoDup nhood /\ (length nhood <= range)%nat /\ nhood <> [] /\
    insert_spec alpha range maxc dpq bfuel pfuel mode t point nhood (graph_of g (in_map (ix_ins s)) (in_file (ix_ins s))) =
      Ok (graph_of g (in_map (ix_ins s')) (in_file (ix_ins s')));
  is_node : exists nd, graph_of g (in_map (ix_ins s')) (in_file (ix_ins s')) !! t = Some nd /\ coords nd = point;
  is_ok : index_ok range g s';
  is_tag : in_tags (ix_ins s') = <[t := tag]> (in_tags (ix_ins s));
  is_pq : forall i : nat, (i < length (deflate point))%nat -> ix_data s' !! Z.to_nat (t * n_chunks + Z.of_nat i) = deflate point !! i;
  is_pq_others : forall i : nat, (i < length (ix_data s))%nat -> Z.of_nat i < t * n_chunks -> ix_data s' !! i = ix_data s !! i;
}.

(** The insertion of a list that the search phase has chosen. *)
Lemma insert_chosen {F} `{!FloatOps F} (alpha : F) range maxc g ann_large cc_ann mode deflate n_chunks dpq pfuel bfuel gfuel
    (use_pm : bool) update_buf point tag s nhood hints data :
  geometry_wf g -> offset_to_node_nhood g + 4 + 4 * Z.of_nat range <= max_node_len g -> mode_ok alpha range bfuel pfuel mode ->
  (forall p, Z.of_nat (length (deflate p)) = n_chunks) -> 0 <= n_chunks < 2 ^ 31 -> index_ok range g s -> ix_cur_id s < kAllocatedID ->
  (ix_cur_id s + 1) * n_chunks <= Z.of_nat (length (ix_data s)) + Z.of_nat gfuel ->
  publish_pq gfuel n_chunks (ix_cur_id s) (deflate point) (ix_data s) = Ok data ->
  insert_pre range g (ix_ins s) (ix_cur_id s) point nhood hints -> nhood <> [] ->
  exists t s', (ins ← (if use_pm
      then insert_phase_pm alpha range maxc dpq bfuel pfuel mode g ann_large update_buf point tag (ix_cur_id s) nhood hints (ix_ins s)
      else insert_phase alpha range maxc dpq bfuel pfuel mode g ann_large cc_ann update_buf point tag (ix_cur_id s) nhood hints (ix_ins s));
    Ok (ix_cur_id s, {| ix_ins := ins; ix_cur_id := ix_cur_id s + 1; ix_data := data |})) = Ok (t, s') /\
    inserted alpha range maxc dpq bfuel pfuel mode g deflate n_chunks point tag s t s'.
Proof.
  intros Hg Hfit Hm Hdef Hch Hs Hid Hgf Ed Hpre Hne. pose proof (ok_cur _ _ _ Hs) as H0. set (ins := ix_ins s) in *. set (t := ix_cur_id s) in *.
  assert (exists ins', (if use_pm then insert_phase_pm alpha range maxc dpq bfuel pfuel mode g ann_large update_buf point tag t nhood hints ins
      else insert_phase alpha range maxc dpq bfuel pfuel mode g ann_large cc_ann update_buf point tag t nhood hints ins) = Ok ins' /\
      implements alpha range maxc dpq bfuel pfuel mode g ins t point tag nhood ins') as (ins' & Ei & Hspec & Hwf & Hinv & Ht).
  { destruct use_pm.
    - destruct (insert_phase_pm_ok alpha range maxc dpq bfuel pfuel mode g Hg Hm Hfit ann_large ins t point tag nhood hints update_buf Hpre) as (i' & ? & ? & _). eauto.
    - destruct (insert_phase_ok alpha range maxc dpq bfuel pfuel mode g Hg Hm Hfit ann_large cc_ann ins t point tag nhood hints update_buf Hpre) as (i' & ? & ? & _). eauto. }
  exists t, {| ix_ins := ins'; ix_cur_id := t + 1; ix_data := data |}. split; [by rewrite Ei|].
  pose proof (ip_args _ _ _ _ _ _ _ Hpre) as Hargs.
  destruct (insert_spec_ok alpha range maxc dpq bfuel pfuel mode g Hm Hfit (list_bound range g Hg Hfit) _ t point nhood (ip_graph _ _ _ _ _ _ _ Hpre) Hargs)
    as (gr' & Eg & _ & Htgt & Hin & Hout). fold ins in Eg. rewrite Hspec in Eg. injection Eg as <-.
  destruct (publish_pq_spec gfuel n_chunks t (deflate point) (ix_data s)) as (data' & Ed' & H1 & H2 & H3 & H4); [unfold kAllocatedID in Hid; lia | done | done | apply Hs | done |].
  rewrite Ed in Ed'. injection Ed' as <-. split; simpl; [done | | by eexists | | done | done |].
  - exists nhood. split_and!; try done; apply Hargs.
  - split; simpl; [done | done | | lia | pose proof (ok_data _ _ _ Hs); lia].
    intros i Hi. destruct (decide (i = t)) as [->|Hit]; [lia|]. enough (i < t) by lia. apply (ok_ids _ _ _ Hs).
    apply (graph_known g _ (in_file ins)). apply (graph_known g _ (in_file ins')) in Hi. destruct (decide (i ∈ nhood)) as [Hin'|Hn'].
    + by apply (ins_known _ _ _ _ _ _ Hargs).
    + by rewrite Hout in Hi.
  - intros i Hi Hlt. apply H4; [done | by left].
Qed.

(** C4. In-place insertion is correct end to end.  From a consistent index with
    at least one entry point, on either path, the insertion of a vector either
    succeeds, and the result is as [inserted] says, or crashes because its
    search expands more nodes than [coord_scratch] has room for (the assertion
    on [MAX_N_CMPS]); after a success the index is consistent again, so that
    insertions can be repeated until the identifiers or the 32-bit locations
    are used up.  The search is the beam search ([BEAM_SEARCH], the mode of
    insertions), with a width whose reads fit the sectors of a query and at
    most [l_index] different known entry points.  The parameters are such that
    the rest cannot fail: alpha is above 1 and its loop ends, [range] is
    positive, below [MAX_N_EDGES] and fits a node, and the pruning rule is safe
    ([mode_ok]: for batch pruning, [range / 16] is positive and divides
    [range + 1], which 32, 64, 96 and 128 do not satisfy). *)
Theorem insert_in_place_correct {F} `{!FloatOps F} (alpha : F) range maxc medoid l_index beam_width g ann_large cc_ann mode
    deflate n_chunks dpq pq_dist compare entry_points n sfuel pfuel bfuel gfuel use_pm update_buf point tag del s :
  geometry_wf g -> 0 <= data_dim g -> 0 <= sizeof_T g -> offset_to_node_nhood g + 4 + 4 * Z.of_nat range <= max_node_len g ->
  mode_ok alpha range bfuel pfuel mode -> dlt f_one alpha = true -> (0 < range)%nat -> Z.of_nat range < MAX_N_EDGES ->
  (0 < beam_width)%nat -> Z.of_nat beam_width * size_per_io g <= sector_scratch_size ->
  rounds_end alpha n -> (n < pfuel)%nat ->
  (forall p, Z.of_nat (length (deflate p)) = n_chunks) -> 0 <= n_chunks < 2 ^ 31 ->
  Z.of_nat (length point) = offset_to_node_nhood g ->
  index_ok range g s -> ix_cur_id s < kAllocatedID ->
  cur_loc (alloc_ (in_map (ix_ins s))) + (Z.of_nat range + 1) + nnodes_per_sector g < 2 ^ 32 ->
  entry_points point <> [] -> NoDup (entry_points point) -> (length (entry_points point) <= l_index)%nat ->
  (forall i, i ∈ entry_points point -> known (in_map (ix_ins s)) i) ->
  (search_fuel (in_map (ix_ins s)) <= sfuel)%nat ->
  (ix_cur_id s + 1) * n_chunks <= Z.of_nat (length (ix_data s)) + Z.of_nat gfuel ->
  let result := insert_in_place alpha range maxc medoid l_index beam_width g ann_large cc_ann mode deflate n_chunks dpq pq_dist compare
    entry_points sfuel pfuel bfuel gfuel use_pm update_buf point tag del s in
  exists r, insertion_search l_index beam_width g pq_dist compare entry_points sfuel point (in_tags (ix_ins s)) del s r /\
    if Z.of_nat (length (full_retset r)) <=? coord_slots g
    then exists t s', result = Ok (t, s') /\ inserted alpha range maxc dpq bfuel pfuel mode g deflate n_chunks point tag s t s'
    else result = Crash.
Proof.
  intros Hg Hdd Hsz Hfit Hm Ha Hr He Hbw Hwidth Hn Hpf Hdef Hch Hpt Hs Hid Hcap Hene Hend Hel Hek Hsf Hgf result.
  destruct (search_phase_ok alpha range maxc medoid l_index beam_width g deflate n_chunks pq_dist compare entry_points Hg n pfuel sfuel gfuel Hn Hpf
    Hbw Hwidth Hfit Hdd Hsz Hdef Hch point (in_tags (ix_ins s)) del s Hs Hid Hene Hend Hel Hek Hsf Hgf) as (r & Hsr & H).
  exists r. split; [done|]. unfold result, insert_in_place. pose proof (ok_cur _ _ _ Hs) as H0.
  destruct (_ <=? coord_slots g); [|by rewrite H]. destruct H as (hints & nhood & data & -> & Ed & Hh & Hnd & Hlen & Hk & Hne).
  cbn [mbind outcome_bind ix_ins ix_cur_id ix_data]. apply insert_chosen with (hints := hints) (gfuel := gfuel); try done; [|by apply Hne].
  split; [apply Hs | apply Hs | | done | lia | lia]. split; [| done | done | | done | done].
  - destruct (graph_of g (in_map (ix_ins s)) (in_file (ix_ins s)) !! ix_cur_id s) eqn:Eg; [|done].
    pose proof (ok_ids _ _ _ Hs (ix_cur_id s) (proj1 (graph_known g _ (in_file (ix_ins s)) (ix_cur_id s)) (mk_is_Some _ _ Eg))). lia.
  - intros j Hj. by apply graph_known, Hk.
Qed.

(** *** The small index of [Insert], with codes of two bytes. *)
Definition ip_state : index_state := {| ix_ins := ins_state; ix_cur_id := 3; ix_data := [5; 7; 10; 7; 15; 7] |}.
Definition ip_deflate (c : list Z) : list Z := [c !!! 0%nat / 2; 7].

Lemma ip_known i : known (in_map ins_state) i <-> 0 <= i < 3.
Proof.
  unfold known, in_map, ins_state. rewrite (loaded_ids ins_geom ins_geom_wf 3) by (simpl; lia).
  case_decide; split; [done | by eexists | by intros [? ?] | lia].
Qed.

Lemma ip_state_ok : index_ok 2 ins_geom ip_state.
Proof.
  split; [apply ins_pre | apply ins_graph_wf | | done | done]. intros i Hi. apply ip_known in Hi. simpl. lia.
Qed.

Lemma insert_in_place_witness :
  let result := insert_in_place F32_1_2f 2 3 0 4 2 ins_geom false true DELTA_PRUNING ip_deflate 2 ins_dpq (fun _ _ => lit 1 0) (fun _ _ => lit 1 0)
    (fun _ => [0]) 17 5 0 10 false (fun _ => 77) [40] 9 ∅ ip_state in
  exists r, insertion_search 4 2 ins_geom (fun _ _ => lit 1 0) (fun _ _ => lit 1 0) (fun _ => [0]) 17 [40] (in_tags (ix_ins ip_state)) ∅ ip_state r /\
    if Z.of_nat (length (full_retset r)) <=? coord_slots ins_geom
    then exists t s', result = Ok (t, s') /\ inserted F32_1_2f 2 3 ins_dpq 0 5 DELTA_PRUNING ins_geom ip_deflate 2 [40] 9 ip_state t s'
    else result = Crash.
Proof.
  apply (insert_in_place_correct F32_1_2f 2 3 0 4 2 ins_geom false true DELTA_PRUNING ip_deflate 2 ins_dpq (fun _ _ => lit 1 0)
    (fun _ _ => lit 1 0) (fun _ => [0]) 2 17 5 0 10 false (fun _ => 77) [40] 9 ∅ ip_state).
  - apply ins_geom_wf.
  - by vm_compute.
  - by vm_compute.
  - by vm_compute.
  - apply ins_mode_ok.
  - by vm_compute.
  - lia.
  - by vm_compute.
  - lia.
  - by vm_compute.
  - by vm_compute.
  - lia.
  - done.
  - lia.
  - done.
  - apply ip_state_ok.
  - done.
  - by vm_compute.
  - done.
  - by apply (bool_decide_unpack _); vm_compute.
  - simpl; lia.
  - intros i ->%list_elem_of_singleton. by apply ip_known.
  - by vm_compute.
  - by vm_compute.
Defined.

(** On the small index the insertion succeeds. *)
Example insert_in_place_runs :
  match insert_in_place F32_1_2f 2 3 0 4 2 ins_geom false true DELTA_PRUNING ip_deflate 2 ins_dpq (fun _ _ => lit 1 0) (fun _ _ => lit 1 0)
    (fun _ => [0]) 17 5 0 10 false (fun _ => 77) [40] 9 ∅ ip_state with Ok (t, s') => t = 3 /\ ix_cur_id s' = 4 | Crash => False end.
Proof. vm_compute. done. Qed.

(** The loop that makes room in the array of compressed vectors ends exactly
    when there is room already or the array has at least two elements: an
    index that starts with fewer bytes hangs at its first insertion. *)
Theorem pq_growth_terminates need data :
  (exists fuel data', grow fuel need data = Ok data') <->
  need <= Z.of_nat (length data) \/ 2 <= Z.of_nat (length data).
Proof.
  split.
  - intros (fuel & data' & E). destruct (Z.le_gt_cases need (Z.of_nat (length data))) as [|H1]; [by left|].
    destruct (Z.le_gt_cases 2 (Z.of_nat (length data))) as [|H2]; [by right|]. rewrite grow_stuck in E; [done | lia | lia].
  - intros [H|H].
    + exists 0%nat, data. cbn [grow]. destruct (Z.ltb_spec (Z.of_nat (length data)) need); [lia | done].
    + destruct (grow_spec need (Z.to_nat need) data H) as (data' & E & _); [lia|]. by exists (Z.to_nat need), data'.
Qed.
