(* ===== verification/MemIndex.v ===== *)
(** * The in-memory graph index: data and search

    [Index] of [include/index.h] and [src/index.cpp]: the graph over vectors in
    memory from which the stored graph is made, and that finds the entry points
    of a search of the stored graph.  Here: its data, [iterate_to_fixed_point]
    and the searches that read its result.

    Coordinates are lists of words; [compare] is [_distance->compare]. *)
From S2P Require Import Prelude Neighbor CandidatePool Float32.

(** The fields that the operations use; [mdata] are the rows of [_data]. *)
Record mem_index := {
  final_graph : list (list Z);
  mdata : list (list Z);
  nd : Z;
  max_points : Z;
  num_frozen_pts : Z;
  width : Z;
  ep : Z;
  dynamic_index : bool;
  enable_tags : bool;
  saturate_graph : bool;
  tag_to_location : gmap Z Z;
  location_to_tag : gmap Z Z;
  delete_set : gset Z;
  empty_slots : gset Z;
  lazy_done : bool;
  eager_done : bool;
  data_compacted : bool;
}.

Definition total_points (ix : mem_index) : Z := max_points ix + num_frozen_pts ix.

(** The row of a location; a location is checked before it is read. *)
Definition row (ix : mem_index) (i : Z) : list Z := mdata ix !!! Z.to_nat i.

(** [_final_graph[n]]; beyond the end the access is undefined. *)
Definition list_of (ix : mem_index) (n : Z) : outcome (list Z) :=
  match final_graph ix !! Z.to_nat n with Some l => Ok l | None => Crash end.

Section search.
Context {F : Type} `{!FloatOps F}.
Context (compare : list Z -> list Z -> F).

(** What [resize] and the loop after it put into the array. *)
Definition filler : Neighbor F := {| id := 0; distance := f_max; flag := false; visited := false |}.

Section query.
Context (ix : mem_index) (node_coords : list Z) (Lsize : nat).

Definition entry (id : Z) : Neighbor F :=
  {| id := id; distance := compare (row ix id) node_coords; flag := true; visited := false |}.

Fixpoint init_loop (ids : list Z) (pool : list (Neighbor F)) (inserted : gset Z) : list (Neighbor F) * gset Z :=
  match ids with
  | [] => (pool, inserted)
  | i :: ids =>
      let '(pool, inserted) := if decide (i ∈ inserted) then (pool, inserted) else (pool ++ [entry i], {[i]} ∪ inserted) in
      if bool_decide (length pool = Lsize) then (pool, inserted) else init_loop ids pool inserted
  end.

(** The valid part of [best_L_nodes] is [retset]; the entry after the last
    one of a full array, to which candidates are evicted, is [spare]. *)
Record fix_state := { fs : search_state F; spare : Neighbor F }.

Definition query_dist (i : Z) : F := compare node_coords (row ix i).

Definition add_neighbor (i : Z) (t : fix_state * nat) : outcome (fix_state * nat) :=
  let '({| fs := s; spare := sp |}, nk) := t in
  if decide (i ∈ visited_ids s) then Ok ({| fs := s; spare := sp |}, nk) else
  let vis := {[i]} ∪ visited_ids s in
  let dist := query_dist i in
  let l := length (retset s) in
  last ← at_ (retset s) (l - 1);
  if negb (dlt dist (distance last)) && bool_decide (l = Lsize) then
    Ok ({| fs := {| retset := retset s; visited_ids := vis; full_retset := full_retset s; l_search := l_search s |}; spare := sp |}, nk)
  else
    '(arr, r) ← InsertIntoPool (retset s) {| id := i; distance := dist; flag := true; visited := false |};
    let ret' := if bool_decide (l < Lsize)%nat then take (S l) (arr ++ [filler]) else take l arr in
    let sp' := if bool_decide (l < Lsize)%nat then sp else default sp (arr !! l) in
    Ok ({| fs := {| retset := ret'; visited_ids := vis; full_retset := full_retset s; l_search := l_search s |}; spare := sp' |},
        if bool_decide (r < nk)%nat then r else nk).

(** The list of an expanded node, with the check of its identifiers. *)
Definition neighbors_of (n : Z) : outcome (list Z) :=
  l ← list_of ix n;
  if forallb (fun j => j <? total_points ix) l then Ok l else Crash.

Definition fix_step (neighbors_of : Z -> outcome (list Z)) (ret_frozen : bool) (k : nat) (t : fix_state) : outcome (fix_state * nat) :=
  let s := fs t in
  x ← at_ (retset s) k;
  if flag x then
    let x := unflag x in
    let hidden := (id x =? ep ix) && (0 <? num_frozen_pts ix) && negb ret_frozen in
    let s := {| retset := <[k := x]> (retset s); visited_ids := visited_ids s;
                full_retset := if hidden then full_retset s else full_retset s ++ [x]; l_search := l_search s |} in
    des ← neighbors_of (id x);
    '(t, nk) ← foldM add_neighbor des ({| fs := s; spare := spare t |}, length (retset s));
    Ok (t, if bool_decide (nk <= k)%nat then nk else S k)
  else Ok (t, S k).

Fixpoint fix_loop (neighbors_of : Z -> outcome (list Z)) (ret_frozen : bool) (fuel k : nat) (t : fix_state) : outcome fix_state :=
  match fuel with
  | O => Crash
  | S fuel =>
      if bool_decide (k < length (retset (fs t)))%nat then
        '(t, k) ← fix_step neighbors_of ret_frozen k t; fix_loop neighbors_of ret_frozen fuel k t
      else Ok t
  end.

Definition best_L_nodes (t : fix_state) : list (Neighbor F) :=
  retset (fs t) ++ replicate (Lsize - length (retset (fs t))) filler ++ [spare t].

(** The result: the array [best_L_nodes] and [expanded_nodes_info]. *)
Definition iterate_to_fixed_point (fuel : nat) (init_ids : list Z) (ret_frozen : bool)
  : outcome (list (Neighbor F) * list (Neighbor F)) :=
  let '(pool, inserted) := init_loop init_ids [] ∅ in
  t ← fix_loop neighbors_of ret_frozen fuel 0
        {| fs := {| retset := std_sort_nb pool; visited_ids := inserted; full_retset := []; l_search := Lsize |}; spare := filler |};
  Ok (best_L_nodes t, full_retset (fs t)).

(** [search] with tags: the entries that have a tag, up to [K] of them. *)
Fixpoint collect_tags (K : nat) (best : list (Neighbor F)) (acc : list (Z * F)) : list (Z * F) :=
  match best with
  | [] => acc
  | x :: best =>
      let acc := match location_to_tag ix !! id x with Some tag => acc ++ [(tag, distance x)] | None => acc end in
      if bool_decide (length acc = K) then acc else collect_tags K best acc
  end.

Definition search_tags (fuel K : nat) : outcome (list (Z * F)) :=
  '(best, _) ← iterate_to_fixed_point fuel [ep ix] false;
  Ok (collect_tags K best []).

(** [search] with identifiers: the start node of a dynamic index is left out. *)
Fixpoint collect_ids (K : nat) (best : list (Neighbor F)) (acc : list (Z * F)) : list (Z * F) :=
  match best with
  | [] => acc
  | x :: best =>
      let acc := if id x <? max_points ix then acc ++ [(id x, distance x)] else acc in
      if bool_decide (length acc = K) then acc else collect_ids K best acc
  end.

Definition search_ids (fuel K : nat) : outcome (list (Z * F)) :=
  '(best, _) ← iterate_to_fixed_point fuel [ep ix] true;
  Ok (collect_ids K best []).

(** [search] from given start nodes. *)
Definition search_from (fuel K : nat) (init_ids : list Z) : outcome (list (Z * F)) :=
  '(best, _) ← iterate_to_fixed_point fuel (if decide (init_ids = []) then [ep ix] else init_ids) true;
  Ok ((fun x => (id x, distance x)) <$> (if bool_decide (K = 0)%nat then best else take K best)).

(** [search_with_tags]: [indices] and [dist_interim] have [L] entries, and
    all are read; those that [search] did not write are not initialised. *)
Fixpoint tags_of (K : nat) (found : list (Z * F)) (acc : list (Z * F)) : list (Z * F) :=
  match found with
  | [] => acc
  | (i, d) :: found =>
      match location_to_tag ix !! i with
      | Some tag => let acc := acc ++ [(tag, d)] in if bool_decide (length acc = K) then acc else tags_of K found acc
      | None => tags_of K found acc
      end
  end.

Definition search_with_tags (fuel K : nat) : outcome (list (Z * F)) :=
  found ← search_ids fuel Lsize;
  if bool_decide (length found < Lsize)%nat then Crash else Ok (tags_of K found []).

(** [search_with_tags_fast]: the same loop without the check of the
    identifiers; entry [i] of the result is written if position [i] of the
    array has a tag. *)
Definition search_with_tags_fast (fuel : nat) : outcome (list (option (Z * F))) :=
  t ← fix_loop (list_of ix) true fuel 0
        {| fs := {| retset := [entry (ep ix)]; visited_ids := {[ep ix]}; full_retset := []; l_search := Lsize |}; spare := filler |};
  Ok ((fun x => tag ← location_to_tag ix !! id x; Some (tag, distance x)) <$> take Lsize (best_L_nodes t)).
End query.
End search.

(** ** Correctness of the search *)
Record mem_graph_ok (ix : mem_index) : Prop := {
  mg_frozen : 0 <= num_frozen_pts ix;
  mg_length : Z.of_nat (length (final_graph ix)) = total_points ix;
  mg_ids : Forall (Forall (fun j => 0 <= j < total_points ix)) (final_graph ix);
}.

Section facts.
Context {F : Type} `{!FloatOps F}.
Context (compare : list Z -> list Z -> F) (compare_sym : forall x y, compare x y = compare y x).
Context (ix : mem_index) (q : list Z) (Lsize : nat) (ret_frozen : bool).

Definition in_index (i : Z) : Prop := 0 <= i < total_points ix.
Definition indices : gset Z := list_to_set (seqZ 0 (total_points ix)).

Lemma in_indices i : in_index i -> i ∈ indices.
Proof. intros H. apply elem_of_list_to_set, elem_of_seqZ. unfold in_index in H. lia. Qed.

Definition exact_to_query (x : Neighbor F) : Prop := distance x = query_dist compare ix q (id x) /\ flag x = false.

(** A set of vectors that contains the lists of its members. *)
Context (P : Z -> Prop) (P_index : forall i, P i -> in_index i).

Abbreviation inv := (search_inv P exact_to_query).
Abbreviation top := (pool_top (query_dist compare ix q) Lsize).

(** A candidate of the pool is marked as expanded. *)
Lemma mark_one_ids (l : list (Neighbor F)) k x : l !! k = Some x -> id <$> <[k := unflag x]> l = id <$> l.
Proof. intros Hx. rewrite list_fmap_insert. apply list_insert_id. by rewrite list_lookup_fmap, Hx. Qed.

Lemma elem_of_mark (l : list (Neighbor F)) k x y : l !! k = Some x -> NoDup (id <$> l) -> y ∈ <[k := unflag x]> l ->
  y = unflag x \/ (y ∈ l /\ id y <> id x).
Proof.
  intros Hx Hnd (j & Hy)%list_elem_of_lookup. destruct (decide (j = k)) as [->|Hne].
  - left. rewrite list_lookup_insert_eq in Hy by (by eapply lookup_lt_Some). congruence.
  - right. rewrite list_lookup_insert_ne in Hy by done. split; [by eapply list_elem_of_lookup_2|]. intros E. apply Hne.
    apply (NoDup_lookup _ _ _ (id y) Hnd); rewrite list_lookup_fmap; [by rewrite Hy | by rewrite Hx, E].
Qed.

Lemma mark_inv hid s k x : inv hid s -> retset s !! k = Some x -> flag x = true ->
  inv (id x :: hid) {| retset := <[k := unflag x]> (retset s); visited_ids := visited_ids s; full_retset := full_retset s; l_search := l_search s |}.
Proof.
  intros [Hne Hso Hnd Hv Hk Ho Hn Hon Hd He] Hx Hf. pose proof (mark_one_ids _ _ _ Hx) as Hids.
  assert (Hxin : x ∈ retset s) by (by eapply list_elem_of_lookup_2).
  assert (Hperm : forall i, i ∈ (id <$> full_retset s) ++ id x :: hid <-> i = id x \/ i ∈ (id <$> full_retset s) ++ hid)
    by (intros i; rewrite !elem_of_app, elem_of_cons; tauto).
  constructor; cbn [retset visited_ids full_retset l_search]; rewrite ?Hids; try done.
  - intros E. apply (f_equal length) in E. rewrite length_insert in E. by destruct (retset s).
  - apply (same_place_sorted (retset s)); [|done]. rewrite Forall2_lookup. intros i.
    destruct (decide (i = k)) as [->|Hi].
    + rewrite Hx, list_lookup_insert_eq by (by eapply lookup_lt_Some). by constructor.
    + rewrite list_lookup_insert_ne by done. destruct (retset s !! i); by constructor.
  - intros y [->|[Hy _]]%(elem_of_mark _ _ x y Hx Hnd) Hfy; apply Hperm; [by left | right; by apply Ho].
  - intros y Hy Hfy. rewrite Hperm. destruct (elem_of_mark _ _ x y Hx Hnd Hy) as [->|[Hy' Hne']]; [done|].
    intros [?|?]; [done|]. by apply (Hn y Hy' Hfy).
  - rewrite <- Permutation_middle. constructor; [by apply Hn | done].
  - intros i [->|Hi]%Hperm; [apply Hv, list_elem_of_fmap; eauto | by apply Hd].
Qed.

Lemma mark_top s k x full : top s -> NoDup (id <$> retset s) -> retset s !! k = Some x ->
  top {| retset := <[k := unflag x]> (retset s); visited_ids := visited_ids s; full_retset := full; l_search := l_search s |}.
Proof.
  intros [H1 H2 H3 H4] Hnd Hx. assert (Hxin : x ∈ retset s) by (by eapply list_elem_of_lookup_2).
  constructor; cbn [retset visited_ids full_retset l_search]; rewrite ?length_insert; try done.
  - intros y [->|[Hy _]]%(elem_of_mark _ _ x y Hx Hnd); [by apply (H3 x) | by apply H3].
  - intros j Hj. rewrite (mark_one_ids _ _ _ Hx). destruct (H4 j Hj) as [?|[? Hfar]]; [by left | right]. split; [done|].
    intros y [->|[Hy _]]%(elem_of_mark _ _ x y Hx Hnd); [by apply (Hfar x) | by apply Hfar].
Qed.

Lemma pool_size (addr : list (Neighbor F)) nn arr r : InsertIntoPool addr nn = Ok (arr, r) ->
  (arr = addr /\ r = S (length addr)) \/ length arr = S (length addr).
Proof.
  assert (Hins : forall i, length (insert_at i nn addr) = S (length addr)).
  { intros i. unfold insert_at. rewrite length_app, length_take. cbn [length]. rewrite length_drop. lia. }
  unfold InsertIntoPool. destruct (at_ addr 0) as [x0|]; [|done]. cbn [mbind outcome_bind].
  destruct (dlt _ _); [intros [= <- _]; right; apply Hins|]. destruct (at_ addr _) as [xk|]; [|done]. cbn [mbind outcome_bind].
  destruct (dlt _ _); [intros [= <- _]; right; apply Hins|]. destruct (bsearch _ _ _ _ _) as [[l0 r0]|]; [|done]. cbn [mbind outcome_bind].
  destruct (dup_scan _ _ _) as [[l1|]|]; [|intros [= <- <-]; by left|done]. cbn [mbind outcome_bind].
  destruct (at_ addr l1); [|done]. cbn [mbind outcome_bind]. destruct (at_ addr r0); [|done]. cbn [mbind outcome_bind].
  destruct (_ || _); intros [= <- <-]; [by left | right; apply Hins].
Qed.

(** The step of this search is the step of the other searches. *)
Lemma add_neighbor_sim i s nk s' nk' sp : l_search s = Lsize ->
  expand_neighbor (total_points ix - 1) (query_dist compare ix q) i (s, nk) = Ok (s', nk') ->
  exists sp', add_neighbor compare ix q Lsize i ({| fs := s; spare := sp |}, nk) = Ok ({| fs := s'; spare := sp' |}, nk') /\
    l_search s' = Lsize.
Proof.
  intros HL. unfold expand_neighbor, push_neighbor, pool_push, add_neighbor. destruct (_ <? i); [done|]. rewrite HL.
  case_decide; [intros [= <- <-]; eauto|]. destruct (at_ _ _) as [last|]; [|done]. cbn [mbind outcome_bind].
  destruct (negb _ && _); cbn [mbind outcome_bind]; [intros [= <- <-]; eauto|]. fold (candidate (query_dist compare ix q) i).
  destruct (InsertIntoPool _ _) as [[arr r]|] eqn:Ei; [|done]. cbn [mbind outcome_bind].
  case_bool_decide as Hl; cbn [andb]; [case_bool_decide as Hr; [done|]|]; cbn [mbind outcome_bind];
    intros [= <- <-]; eexists; (split; [|reflexivity]); [|done].
  destruct (pool_size _ _ _ _ Ei) as [[-> ->]|E]; [lia|]. by rewrite take_app_le by lia.
Qed.

Lemma add_neighbors_sim l : forall s nk s' nk' sp, l_search s = Lsize ->
  foldM (expand_neighbor (total_points ix - 1) (query_dist compare ix q)) l (s, nk) = Ok (s', nk') ->
  exists sp', foldM (add_neighbor compare ix q Lsize) l ({| fs := s; spare := sp |}, nk) = Ok ({| fs := s'; spare := sp' |}, nk').
Proof.
  induction l as [|i l IH]; intros s nk s' nk' sp HL; cbn [foldM]; [intros [= <- <-]; eauto|].
  destruct (expand_neighbor _ _ i (s, nk)) as [[s1 n1]|] eqn:E; [|done]. cbn [mbind outcome_bind]. intros E2.
  destruct (add_neighbor_sim i s nk s1 n1 sp HL E) as (sp1 & -> & HL1). cbn [mbind outcome_bind]. by apply (IH s1 n1 s' nk' sp1).
Qed.

Context (Hok : mem_graph_ok ix) (P_closed : forall i l j, P i -> list_of ix i = Ok l -> j ∈ l -> P j).

Lemma list_known n l : list_of ix n = Ok l -> forall j, j ∈ l -> in_index j.
Proof.
  unfold list_of. destruct (final_graph ix !! Z.to_nat n) as [l'|] eqn:E; [|done]. intros [= <-] j Hj.
  pose proof (mg_ids _ Hok) as H. rewrite Forall_lookup in H. specialize (H _ _ E). rewrite Forall_forall in H. by apply H.
Qed.

Lemma list_of_known n : in_index n -> exists l, list_of ix n = Ok l /\ neighbors_of ix n = Ok l.
Proof.
  intros [H1 H2]. unfold neighbors_of. destruct (lookup_lt_is_Some_2 (final_graph ix) (Z.to_nat n)) as [l Hl].
  { pose proof (mg_length _ Hok). lia. }
  assert (list_of ix n = Ok l) as E by (unfold list_of; by rewrite Hl). exists l. rewrite E. split; [done|]. cbn [mbind outcome_bind].
  rewrite (proj2 (forallb_forall _ _)); [done|]. intros j Hj. apply list_elem_of_In in Hj.
  destruct (list_known n l E j Hj). lia.
Qed.

(** [hid] is the start node when it is kept out of the result. *)
Definition hides (hid : list Z) : Prop := hid = [] \/ (hid = [ep ix] /\ ret_frozen = false /\ 0 < num_frozen_pts ix).

Record fix_inv (hid : list Z) (s : search_state F) : Prop := {
  fi_inv : inv hid s;
  fi_top : top s;
  fi_hid : hides hid;
  fi_closed : forall i l j, i ∈ (id <$> full_retset s) ++ hid -> list_of ix i = Ok l -> j ∈ l -> j ∈ visited_ids s;
}.

(** Marking and recording a candidate. *)
Lemma record_step hid s k x : fix_inv hid s -> retset s !! k = Some x -> flag x = true ->
  let x' := unflag x in
  let hidden := (id x =? ep ix) && (0 <? num_frozen_pts ix) && negb ret_frozen in
  let s1 := {| retset := <[k := x']> (retset s); visited_ids := visited_ids s;
               full_retset := if hidden then full_retset s else full_retset s ++ [x']; l_search := l_search s |} in
  exists hid', inv hid' s1 /\ top s1 /\ hides hid' /\
    forall i, i ∈ (id <$> full_retset s1) ++ hid' -> i = id x \/ i ∈ (id <$> full_retset s) ++ hid.
Proof.
  intros [Hi Ht Hh _] Hx Hf x' hidden s1. pose proof (mark_inv hid s k x Hi Hx Hf) as Hm.
  pose proof (mark_top s k x (full_retset s1) Ht (sv_nodup _ _ Hi) Hx) as Ht1.
  assert (Hxin : x ∈ retset s) by (by eapply list_elem_of_lookup_2). unfold s1 in *.
  destruct hidden eqn:Eh; unfold hidden in Eh.
  - exists (id x :: hid). split; [exact Hm|]. split; [exact Ht1|]. apply andb_true_iff in Eh as [[E1%Z.eqb_eq E2%Z.ltb_lt]%andb_true_iff E3]. split.
    + right. destruct ret_frozen; [done|]. destruct Hh as [->|[-> _]]; [by rewrite E1|]. exfalso.
      apply (sv_new _ _ Hi x Hxin Hf). apply elem_of_app. right. rewrite E1. by left.
    + intros i. cbn [full_retset]. rewrite !elem_of_app, elem_of_cons. tauto.
  - exists hid. split; [|split; [exact Ht1|split; [done|]]].
    + apply (search_inv_expand P exact_to_query hid _ (id x) x' Hm); [done|]. split; [|done]. simpl.
      by apply (pt_dist _ _ _ Ht).
    + intros i. cbn [full_retset]. rewrite fmap_app, !elem_of_app, list_fmap_singleton, list_elem_of_singleton. simpl. tauto.
Qed.

(** The two ways of reading a list agree on a graph in order. *)
Context (nb : Z -> outcome (list Z)) (Hnb : forall n l, in_index n -> list_of ix n = Ok l -> nb n = Ok l).

Lemma fix_step_spec hid k t : fix_inv hid (fs t) -> expanded_below k (fs t) -> (k < length (retset (fs t)))%nat ->
  exists t' k' hid', fix_step compare ix q Lsize nb ret_frozen k t = Ok (t', k') /\ fix_inv hid' (fs t') /\ expanded_below k' (fs t') /\
    visited_ids (fs t) ⊆ visited_ids (fs t') /\
    (visited_ids (fs t') = visited_ids (fs t) -> length (retset (fs t')) = length (retset (fs t)) /\ k' = S k) /\
    (forall i, i ∈ id <$> full_retset (fs t) -> i ∈ id <$> full_retset (fs t')) /\
    (ret_frozen = true -> forall x, retset (fs t) !! k = Some x -> flag x = true -> id x ∈ id <$> full_retset (fs t')).
Proof.
  intros Hi Hk Hlt. destruct t as [s sp]. cbn [fs] in *. unfold fix_step. cbn [fs spare].
  destruct (lookup_lt_is_Some_2 _ _ Hlt) as [x Hx]. rewrite (at_Ok _ _ _ Hx). cbn [mbind outcome_bind].
  destruct (flag x) eqn:Hf.
  2: { exists {| fs := s; spare := sp |}, (S k), hid. cbn [fs]. split_and!; try done; [|intros _ y Hy Hfy; congruence]. intros y Hy.
       rewrite (take_S_r _ _ x) in Hy by done. apply elem_of_app in Hy as [Hy|Hy]; [by apply Hk|]. by apply list_elem_of_singleton in Hy as ->. }
  destruct (record_step hid s k x Hi Hx Hf) as (hid' & Hi1 & Ht1 & Hh1 & Hfull). cbv zeta in *.
  set (s1 := {| retset := <[k:=unflag x]> (retset s); visited_ids := visited_ids s; full_retset := _; l_search := l_search s |}) in *.
  assert (HPx : P (id x)).
  { apply (sv_known _ _ (fi_inv _ _ Hi)), (sv_visited _ _ (fi_inv _ _ Hi)), list_elem_of_fmap. exists x. split; [done|]. by eapply list_elem_of_lookup_2. }
  pose proof (P_index _ HPx) as Hxin. change (id (unflag x)) with (id x).
  destruct (list_of_known (id x) Hxin) as (l & El & _). rewrite (Hnb _ _ Hxin El). cbn [mbind outcome_bind].
  assert (Hl : forall i, i ∈ l -> P i /\ i <= total_points ix - 1).
  { intros i H. pose proof (list_known _ _ El i H) as Hin. split; [by apply (P_closed (id x) l)|]. unfold in_index in Hin. lia. }
  destruct (expand_neighbors_spec (total_points ix - 1) (query_dist compare ix q) P exact_to_query hid' l s1 (length (retset s1)) Hi1 Hl)
    as (s2 & nk & E2 & Hi2 & [V S0 N Hpre] & F2).
  destruct (pool_top_neighbors (total_points ix - 1) (query_dist compare ix q) Lsize P exact_to_query hid' l s1 (length (retset s1)) s2 nk Hi1 Ht1 Hl E2)
    as (Ht2 & Hv2 & Hin2).
  destruct (add_neighbors_sim l s1 (length (retset s1)) s2 nk sp (pt_size _ _ _ Ht1) E2) as (sp' & ->). cbn [mbind outcome_bind].
  exists {| fs := s2; spare := sp' |}, (if bool_decide (nk <= k)%nat then nk else S k), hid'. cbn [fs]. split; [done|].
  assert (Hlen : length (retset s1) = length (retset s)) by apply length_insert.
  split_and!; [split; [done..|]| |exact V| | |].
  - intros i l' j Hin E Hj. rewrite F2 in Hin. destruct (Hfull i Hin) as [->|Hold].
    + rewrite El in E. injection E as <-. by apply Hin2.
    + apply V. by apply (fi_closed _ _ Hi i l' j).
  - intros y Hy. set (k' := if bool_decide (nk <= k)%nat then nk else S k) in Hy.
    assert (k' <= nk /\ k' <= S k)%nat as [Hk1 Hk2] by (subst k'; case_bool_decide; lia).
    apply (f_equal (take k')) in Hpre. rewrite !take_take, !Nat.min_l in Hpre by lia. rewrite Hpre in Hy.
    assert (y ∈ take (S k) (retset s1)) as Hy'.
    { replace k' with (k' `min` S k)%nat in Hy by lia. rewrite <- take_take in Hy. by eapply subseteq_take. }
    unfold s1 in Hy'. cbn [retset] in Hy'. rewrite (take_S_r _ _ (unflag x)) in Hy' by (apply list_lookup_insert_eq; lia).
    rewrite take_insert_ge in Hy' by lia. apply elem_of_app in Hy' as [Hy'|Hy']; [by apply Hk|]. by apply list_elem_of_singleton in Hy' as ->.
  - intros E. destruct (S0 E) as [E1 ->]. rewrite bool_decide_eq_false_2 by lia. rewrite E1. done.
  - intros i H. rewrite F2. unfold s1. cbn [full_retset]. destruct (_ && _); [done|]. rewrite fmap_app. apply elem_of_app. by left.
  - intros Hr y Hy _. assert (y = x) as -> by congruence. rewrite F2. unfold s1. cbn [full_retset]. rewrite Hr, andb_false_r, fmap_app.
    apply elem_of_app. right. by left.
Qed.

Lemma P_indices i : P i -> i ∈ indices.
Proof using P_index. intros H. by apply in_indices, P_index. Qed.

Lemma fix_loop_ends : forall fuel hid k t, fix_inv hid (fs t) -> expanded_below k (fs t) ->
  (pool_measure (size indices) (fs t) k < fuel)%nat ->
  exists t' hid', fix_loop compare ix q Lsize nb ret_frozen fuel k t = Ok t' /\ fix_inv hid' (fs t') /\
    (forall x, x ∈ retset (fs t') -> flag x = false) /\
    (forall i, i ∈ id <$> full_retset (fs t) -> i ∈ id <$> full_retset (fs t')) /\
    (ret_frozen = true -> forall x, retset (fs t) !! k = Some x -> flag x = true -> id x ∈ id <$> full_retset (fs t')).
Proof.
  induction fuel as [|fuel IH]; intros hid k t Hi Hk Hm; [lia|]. cbn [fix_loop]. case_bool_decide as Hlt.
  - destruct (fix_step_spec hid k t Hi Hk Hlt) as (t1 & k1 & hid1 & -> & H1 & Hk1 & V1 & Hsame & Hmon & Hfst). cbn [mbind outcome_bind].
    assert (pool_measure (size indices) (fs t1) k1 < pool_measure (size indices) (fs t) k)%nat.
    { pose proof (visited_le P exact_to_query indices P_indices _ _ (fi_inv _ _ H1)).
      pose proof (pool_le_visited P exact_to_query _ _ (fi_inv _ _ H1)). unfold pool_measure.
      destruct (decide (visited_ids (fs t1) = visited_ids (fs t))) as [E|E].
      - destruct (Hsame E) as [-> ->]. rewrite E. lia.
      - assert (size (visited_ids (fs t)) < size (visited_ids (fs t1)))%nat by (apply subset_size; set_solver). nia. }
    destruct (IH hid1 k1 t1 H1 Hk1) as (t' & hid' & E & H' & Hall & Hmon' & Hfst'); [lia|]. exists t', hid'. split_and!; try done; [auto|].
    intros Hr x Hx Hf. by apply Hmon', Hfst.
  - exists t, hid. split_and!; try done.
    + intros x Hx. apply Hk. by rewrite take_ge by lia.
    + intros _ x Hx. apply lookup_lt_Some in Hx. lia.
Qed.

(** ** The initial array *)
Lemma entry_candidate i : entry compare ix q i = candidate (query_dist compare ix q) i.
Proof. unfold entry, candidate, query_dist. by rewrite compare_sym. Qed.

Lemma init_loop_all ids : forall pool ins, NoDup ids -> (forall i, i ∈ ids -> i ∉ ins) -> (length pool + length ids <= Lsize)%nat ->
  exists ins', init_loop compare ix q Lsize ids pool ins = (pool ++ (candidate (query_dist compare ix q) <$> ids), ins') /\
    forall i, i ∈ ins' <-> i ∈ ins \/ i ∈ ids.
Proof.
  induction ids as [|i ids IH]; intros pool ins Hnd Hd Hl; cbn [init_loop].
  - exists ins. rewrite app_nil_r. split; [done|]. intros i. rewrite elem_of_nil. tauto.
  - apply NoDup_cons in Hnd as [Hi Hnd]. rewrite decide_False by (apply Hd; by left). rewrite entry_candidate. cbn [length] in Hl.
    case_bool_decide as HL.
    + rewrite length_app in HL. cbn [length] in HL. destruct ids; [|cbn [length] in Hl; lia]. eexists. split; [done|].
      intros j. rewrite elem_of_union, elem_of_singleton, list_elem_of_singleton. tauto.
    + destruct (IH (pool ++ [candidate (query_dist compare ix q) i]) ({[i]} ∪ ins) Hnd) as (ins' & -> & Hin).
      * intros j Hj. rewrite not_elem_of_union, not_elem_of_singleton. split; [by intros -> | apply Hd; by right].
      * rewrite length_app. cbn [length]. lia.
      * exists ins'. rewrite <- app_assoc. split; [done|]. intros j. rewrite Hin, elem_of_union, elem_of_singleton, elem_of_cons. tauto.
Qed.

(** What a search ends with. *)
Record fixpoint (pool expanded : list (Neighbor F)) : Prop := {
  fp_sorted : sorted_pool pool;
  fp_nodup : NoDup (id <$> pool);
  fp_size : (0 < length pool <= Lsize)%nat;
  fp_pool : forall x, x ∈ pool -> in_index (id x) /\ distance x = query_dist compare ix q (id x) /\
    (id x ∈ id <$> expanded \/ (id x = ep ix /\ ret_frozen = false /\ 0 < num_frozen_pts ix));
  fp_once : NoDup (id <$> expanded);
  fp_exact : forall x, x ∈ expanded -> in_index (id x) /\ exact_to_query x;
  fp_closed : forall i l j, i ∈ (id <$> expanded) \/ i ∈ (id <$> pool) -> list_of ix i = Ok l -> j ∈ l ->
    j ∈ id <$> pool \/ (length pool = Lsize /\ forall x, x ∈ pool -> dlt (query_dist compare ix q j) (distance x) = false);
}.

Lemma fix_inv_fixpoint hid s : fix_inv hid s -> (forall x, x ∈ retset s -> flag x = false) -> fixpoint (retset s) (full_retset s).
Proof.
  intros [Hi Ht Hh Hc] Hall. assert (Hin : forall i, i ∈ id <$> retset s -> i ∈ (id <$> full_retset s) ++ hid).
  { intros i (x & -> & Hx)%list_elem_of_fmap. apply (sv_old _ _ Hi x Hx), (Hall x Hx). }
  split.
  - apply (sv_sorted _ _ Hi).
  - apply (sv_nodup _ _ Hi).
  - pose proof (sv_nonempty _ _ Hi). split; [destruct (retset s); [done | cbn [length]; lia] | apply Ht].
  - intros x Hx. assert (Hid : id x ∈ id <$> retset s) by (apply list_elem_of_fmap; eauto). split_and!.
    + apply P_index, (sv_known _ _ Hi), (sv_visited _ _ Hi), Hid.
    + by apply Ht.
    + apply Hin, elem_of_app in Hid as [?|Hid]; [by left | right]. destruct Hh as [->|(-> & -> & ?)]; [by apply elem_of_nil in Hid|].
      by apply list_elem_of_singleton in Hid as ->.
  - pose proof (sv_once _ _ Hi) as H. by apply NoDup_app in H as (? & _).
  - intros x Hx. pose proof (sv_exact _ _ Hi) as He. rewrite Forall_forall in He. split; [|by apply He].
    apply P_index, (sv_known _ _ Hi), (sv_done _ _ Hi), elem_of_app. left. apply list_elem_of_fmap. eauto.
  - intros i l j Hor El Hj. apply (pt_closest _ Ht), (Hc i l j); [|done|done]. destruct Hor as [?|?]; [apply elem_of_app; by left | by apply Hin].
Qed.

Lemma start_loop entries ins fuel : entries <> [] -> NoDup entries -> (length entries <= Lsize)%nat -> (forall i, i ∈ entries -> P i) ->
  (forall i, i ∈ ins <-> i ∈ entries) -> (pool_fuel (Z.to_nat (total_points ix)) <= fuel)%nat ->
  exists t, fix_loop compare ix q Lsize nb ret_frozen fuel 0
      {| fs := {| retset := std_sort_nb (candidate (query_dist compare ix q) <$> entries); visited_ids := ins; full_retset := []; l_search := Lsize |};
         spare := filler |} = Ok t /\
    fixpoint (retset (fs t)) (full_retset (fs t)) /\ (ret_frozen = true -> forall i, entries = [i] -> i ∈ id <$> full_retset (fs t)) /\
    forall x, x ∈ full_retset (fs t) -> P (id x).
Proof.
  intros Hne Hnd Hl Hk Hins Hf. replace ins with (list_to_set entries : gset Z) by (apply leibniz_equiv; intros i; rewrite elem_of_list_to_set; by rewrite Hins).
  pose proof (init_search_inv (query_dist compare ix q) Lsize P exact_to_query entries Hne Hnd Hk) as Hi.
  pose proof (start_measure (query_dist compare ix q) Lsize P exact_to_query indices entries P_indices Hi) as Hm.
  assert (Hu : size indices = Z.to_nat (total_points ix)).
  { unfold indices. rewrite size_list_to_set by apply NoDup_seqZ. apply length_seqZ. }
  rewrite <- Hu in Hf. destruct (fix_loop_ends fuel [] 0 {| fs := init_search (query_dist compare ix q) Lsize entries; spare := filler |})
    as (t & hid & E & Hi' & Hall & _ & Hfst).
  - split; [done | by apply pool_top_init | by left |]. intros i l j H. by apply elem_of_nil in H.
  - intros x. rewrite take_0. by intros ?%elem_of_nil.
  - cbn [fs]. lia.
  - exists t. split; [exact E|]. split; [by eapply fix_inv_fixpoint|]. split.
    + intros Hr i ->. apply (Hfst Hr (candidate (query_dist compare ix q) i)); done.
    + intros x Hx. apply (sv_known _ _ (fi_inv _ _ Hi')), (sv_done _ _ (fi_inv _ _ Hi')), elem_of_app. left. by apply list_elem_of_fmap_2.
Qed.
End facts.

Lemma neighbors_of_ok ix : mem_graph_ok ix -> forall n l, in_index ix n -> list_of ix n = Ok l -> neighbors_of ix n = Ok l.
Proof. intros Hok n l Hn El. destruct (list_of_known ix Hok n Hn) as (l' & El' & E). congruence. Qed.

Section searches.
Context {F : Type} `{!FloatOps F}.
Context (compare : list Z -> list Z -> F) (compare_sym : forall x y, compare x y = compare y x).
Context (ix : mem_index) (Hok : mem_graph_ok ix) (q : list Z) (Lsize fuel : nat).
Context (Hfuel : (pool_fuel (Z.to_nat (total_points ix)) <= fuel)%nat).

Lemma index_closed i l j : in_index ix i -> list_of ix i = Ok l -> j ∈ l -> in_index ix j.
Proof. intros _ El Hj. exact (list_known ix Hok i l El j Hj). Qed.

(** [P]: any set that contains the start nodes and the lists of its members
    contains all that is expanded. *)
Lemma iterate_within (P : Z -> Prop) ret_frozen entries : (forall i, P i -> in_index ix i) ->
  (forall i l j, P i -> list_of ix i = Ok l -> j ∈ l -> P j) -> entries <> [] -> NoDup entries -> (length entries <= Lsize)%nat ->
  (forall i, i ∈ entries -> P i) ->
  exists pool sp expanded, iterate_to_fixed_point compare ix q Lsize fuel entries ret_frozen =
      Ok (pool ++ replicate (Lsize - length pool) filler ++ [sp], expanded) /\
    fixpoint compare ix q Lsize ret_frozen pool expanded /\
    (ret_frozen = true -> forall i, entries = [i] -> i ∈ id <$> expanded) /\ forall x, x ∈ expanded -> P (id x).
Proof.
  intros HP1 HP2 Hne Hnd Hl Hk. unfold iterate_to_fixed_point.
  destruct (init_loop_all compare compare_sym ix q Lsize entries [] ∅ Hnd) as (ins & -> & Hins); [set_solver | simpl; lia |].
  destruct (start_loop compare compare_sym ix q Lsize ret_frozen P HP1 Hok HP2 (neighbors_of ix) (neighbors_of_ok ix Hok) entries ins fuel Hne Hnd Hl Hk)
    as (t & E & Hfp & Hfst & HPx); [set_solver | done |].
  cbn [app]. rewrite E. cbn [mbind outcome_bind]. exists (retset (fs t)), (spare t), (full_retset (fs t)). by split_and!.
Qed.

Lemma collect_ids_take K l1 : forall l2 acc, l1 <> [] -> Forall (fun x : Neighbor F => id x < max_points ix) l1 ->
  (length acc + length l1 = K)%nat -> collect_ids ix K (l1 ++ l2) acc = acc ++ ((fun x => (id x, distance x)) <$> l1).
Proof.
  induction l1 as [|x l1 IH]; intros l2 acc Hne Hall HK; [done|]. apply Forall_cons in Hall as [Hx Hall]. cbn [collect_ids app].
  rewrite (proj2 (Z.ltb_lt _ _) Hx), length_app. cbn [length] in *. destruct (decide (l1 = [])) as [->|Hne1].
  - rewrite bool_decide_eq_true_2 by (simpl in *; lia). done.
  - rewrite bool_decide_eq_false_2 by (destruct l1; [done | simpl in *; lia]). rewrite IH; [by rewrite <- app_assoc | done | done |].
    rewrite length_app. cbn [length]. lia.
Qed.

Definition tagged (x : Z * F) : option (Z * F) := tag ← location_to_tag ix !! x.1; Some (tag, x.2).

Lemma tags_of_take K found : forall acc, (length acc < K)%nat -> tags_of ix K found acc = acc ++ take (K - length acc) (omap tagged found).
Proof.
  induction found as [|[i d] found IH]; intros acc HK; cbn [tags_of omap list_omap]; [by rewrite take_nil, app_nil_r|].
  unfold tagged at 1. cbn [fst snd]. destruct (location_to_tag ix !! i) as [tag|]; simpl; [|by apply IH].
  destruct (K - length acc)%nat as [|m] eqn:Em; [lia|]. cbn [take]. case_bool_decide as Hl; rewrite length_app in Hl; cbn [length] in Hl.
  - replace m with 0%nat by lia. by rewrite take_0.
  - rewrite IH by (rewrite length_app; cbn [length]; lia). rewrite <- app_assoc, length_app. cbn [length]. by replace (K - (length acc + 1))%nat with m by lia.
Qed.

Lemma search_with_tags_spec K : num_frozen_pts ix = 0 -> in_index ix (ep ix) -> (0 < Lsize)%nat -> (0 < K)%nat ->
  exists pool expanded, fixpoint compare ix q Lsize true pool expanded /\ ep ix ∈ id <$> expanded /\
    search_with_tags compare ix q Lsize fuel K =
      Ok (take K (omap tagged ((fun x => (id x, distance x)) <$> pool ++ replicate (Lsize - length pool) filler))).
Proof.
  intros Hfr Hep HL HK. destruct (iterate_within (in_index ix) true [ep ix]) as (pool & sp & expanded & E & Hfp & Hfst & _);
    [done | apply index_closed | done | apply NoDup_singleton | cbn [length]; lia | by intros i ->%list_elem_of_singleton |].
  exists pool, expanded. split; [done|]. split; [by apply Hfst|]. unfold search_with_tags, search_ids. rewrite E. cbn [mbind outcome_bind].
  pose proof (fp_size _ _ _ _ _ _ _ Hfp) as Hs. rewrite app_assoc.
  rewrite collect_ids_take; cbn [app].
  - rewrite bool_decide_eq_false_2; [|rewrite length_fmap, length_app, length_replicate; lia].
    rewrite tags_of_take by done. cbn [length]. by rewrite Nat.sub_0_r.
  - intros Hnil. apply app_eq_nil in Hnil as [-> _]. cbn [length] in Hs. lia.
  - unfold in_index, total_points in Hep. apply Forall_app. split.
    + apply Forall_forall. intros x Hx. destruct (fp_pool _ _ _ _ _ _ _ Hfp x Hx) as [[_ H] _]. unfold total_points in H. lia.
    + apply Forall_forall. intros x Hx. apply elem_of_replicate in Hx as [-> _]. simpl. lia.
  - cbn [length]. rewrite length_app, length_replicate. lia.
Qed.
End searches.

(** C27. The search of the in-memory graph always ends and never reads outside
    of its arrays: on a graph whose identifiers are in range it returns, within
    [pool_fuel] steps, an array whose valid part is sorted, has no duplicates
    and the exact distances; every entry of it was expanded (the start node of
    a dynamic index may be kept out of the list), and a neighbour of an
    expanded node is in the pool unless the pool is full with candidates that
    are all at least as close. *)
Theorem iterate_to_fixed_point_correct {F} `{!FloatOps F} (compare : list Z -> list Z -> F) ix q Lsize fuel ret_frozen entries :
  (forall x y, compare x y = compare y x) -> mem_graph_ok ix ->
  entries <> [] -> NoDup entries -> (length entries <= Lsize)%nat -> (forall i, i ∈ entries -> in_index ix i) ->
  (pool_fuel (Z.to_nat (total_points ix)) <= fuel)%nat ->
  exists pool sp expanded, iterate_to_fixed_point compare ix q Lsize fuel entries ret_frozen =
      Ok (pool ++ replicate (Lsize - length pool) filler ++ [sp], expanded) /\
    fixpoint compare ix q Lsize ret_frozen pool expanded.
Proof.
  intros Hsym Hok Hne Hnd Hl Hk Hf.
  destruct (iterate_within compare Hsym ix Hok q Lsize fuel Hf (in_index ix) ret_frozen entries (fun _ H => H) (index_closed ix Hok) Hne Hnd Hl Hk) as (pool & sp & expanded & E & Hfp & _).
  by exists pool, sp, expanded.
Qed.

Section tagged.
Context {F : Type} `{!FloatOps F} (ix : mem_index).
Abbreviation answer pool := (omap (tagged ix) ((fun x : Neighbor F => (id x, distance x)) <$> pool)).

Lemma elem_of_answer (pool : list (Neighbor F)) e : e ∈ answer pool ->
  exists x, x ∈ pool /\ location_to_tag ix !! id x = Some e.1 /\ e.2 = distance x.
Proof.
  intros ([i d] & (x & Ex & Hx)%list_elem_of_fmap & E)%list_elem_of_omap. injection Ex as -> ->. exists x. split; [done|].
  unfold tagged in E. cbn [fst snd] in E. destruct (location_to_tag ix !! id x); [|done]. by injection E as <-.
Qed.

Lemma answer_nodup (pool : list (Neighbor F)) :
  (forall i j t, location_to_tag ix !! i = Some t -> location_to_tag ix !! j = Some t -> i = j) ->
  NoDup (id <$> pool) -> NoDup (answer pool).*1.
Proof.
  intros Hinj. induction pool as [|x pool IH]; intros Hnd; [constructor|]. apply NoDup_cons in Hnd as [Hx Hnd].
  cbn [fmap list_fmap omap list_omap]. unfold tagged at 1. cbn [fst snd].
  destruct (location_to_tag ix !! id x) as [t|] eqn:Et; simpl; [|by apply IH]. constructor; [|by apply IH].
  intros (e & -> & He)%list_elem_of_fmap. destruct (elem_of_answer pool e He) as (y & Hy & Hty & _). apply Hx.
  rewrite (Hinj _ _ _ Et Hty). by apply list_elem_of_fmap_2.
Qed.

Lemma answer_sorted (pool : list (Neighbor F)) : sorted_pool pool -> StronglySorted (fun x y : Z * F => dlt y.2 x.2 = false) (answer pool).
Proof.
  induction 1 as [|x pool _ IH Hx]; [constructor|]. cbn [fmap list_fmap omap list_omap]. unfold tagged at 1. cbn [fst snd].
  destruct (location_to_tag ix !! id x); simpl; [|done]. constructor; [done|]. apply Forall_forall. intros e He.
  destruct (elem_of_answer pool e He) as (y & Hy & _ & ->). rewrite Forall_forall in Hx. by apply Hx.
Qed.
End tagged.

(** [search_with_tags] on a static index: if the search fills its pool the
    answer is the tags of the closest [K] tagged entries of the pool, in order
    of distance and without duplicates; in general the positions that the
    search left empty are read as vector 0 at the largest distance. *)
Theorem search_with_tags_correct {F} `{!FloatOps F} (compare : list Z -> list Z -> F) ix q Lsize fuel K :
  (forall x y, compare x y = compare y x) -> mem_graph_ok ix -> num_frozen_pts ix = 0 -> in_index ix (ep ix) ->
  (0 < Lsize)%nat -> (0 < K)%nat -> (pool_fuel (Z.to_nat (total_points ix)) <= fuel)%nat ->
  (forall i j t, location_to_tag ix !! i = Some t -> location_to_tag ix !! j = Some t -> i = j) ->
  exists pool expanded, fixpoint compare ix q Lsize true pool expanded /\
    search_with_tags compare ix q Lsize fuel K =
      Ok (take K (omap (tagged ix) ((fun x => (id x, distance x)) <$> pool ++ replicate (Lsize - length pool) filler))) /\
    (length pool = Lsize -> exists found, search_with_tags compare ix q Lsize fuel K = Ok found /\
       NoDup found.*1 /\ StronglySorted (fun x y => dlt y.2 x.2 = false) found).
Proof.
  intros Hsym Hok Hfr Hep HL HK Hf Hinj.
  destruct (search_with_tags_spec compare Hsym ix Hok q Lsize fuel Hf K Hfr Hep HL HK) as (pool & expanded & Hfp & _ & E).
  exists pool, expanded. split; [done|]. split; [done|]. intros Hfull. eexists. split; [exact E|]. rewrite Hfull, Nat.sub_diag.
  cbn [replicate]. rewrite app_nil_r. split.
  - eapply sublist_NoDup; [|apply (fmap_sublist fst), sublist_take]. apply answer_nodup; [done|]. apply Hfp.
  - apply StronglySorted_take, answer_sorted, Hfp.
Qed.

(** A path of four vectors on a line, and a query near its end. *)
Definition line_compare (x y : list Z) : F32 := lit (Z.abs (x !!! 0%nat - y !!! 0%nat)) 0.
Definition line_index : mem_index := {|
  final_graph := [[1]; [0; 2]; [1; 3]; [2]]; mdata := [[10]; [20]; [30]; [40]]; nd := 4; max_points := 4; num_frozen_pts := 0;
  width := 2; ep := 0; dynamic_index := false; enable_tags := true; saturate_graph := false;
  tag_to_location := list_to_map [(7, 0); (8, 1); (9, 2); (6, 3)]; location_to_tag := list_to_map [(0, 7); (1, 8); (2, 9); (3, 6)];
  delete_set := ∅; empty_slots := ∅; lazy_done := false; eager_done := false; data_compacted := true |}.

Lemma line_sym x y : line_compare x y = line_compare y x.
Proof. unfold line_compare. f_equal. lia. Qed.

Lemma line_ok : mem_graph_ok line_index.
Proof. split; [done..|]. repeat constructor; simpl; lia. Qed.

Lemma iterate_witness : exists pool sp expanded, iterate_to_fixed_point line_compare line_index [39] 2 30 [0] true =
      Ok (pool ++ replicate (2 - length pool) filler ++ [sp], expanded) /\
    fixpoint line_compare line_index [39] 2 true pool expanded.
Proof.
  apply (iterate_to_fixed_point_correct line_compare line_index [39] 2 30 true [0]); try done.
  - apply line_sym.
  - apply line_ok.
  - apply NoDup_singleton.
  - cbn [length]. lia.
  - intros i ->%list_elem_of_singleton. done.
  - apply (bool_decide_unpack _). by vm_compute.
Defined.

Lemma search_with_tags_witness : exists pool expanded, fixpoint line_compare line_index [39] 2 true pool expanded /\
    search_with_tags line_compare line_index [39] 2 30 2 =
      Ok (take 2 (omap (tagged line_index) ((fun x => (id x, distance x)) <$> pool ++ replicate (2 - length pool) filler))) /\
    (length pool = 2%nat -> exists found, search_with_tags line_compare line_index [39] 2 30 2 = Ok found /\
       NoDup found.*1 /\ StronglySorted (fun x y => @dlt F32 float_ord y.2 x.2 = false) found).
Proof.
  apply (search_with_tags_correct line_compare line_index [39] 2 30 2); try done || lia.
  - apply line_sym.
  - apply line_ok.
  - apply (bool_decide_unpack _). by vm_compute.
  - intros i j t. unfold line_index; cbn [location_to_tag].
    intros Hi%elem_of_list_to_map_2 Hj%elem_of_list_to_map_2. set_solver.
Defined.

(** With a list longer than the graph, the tag of vector 0 fills the answer. *)
Example short_pool_repeats_vector_0 : exists found,
  search_with_tags line_compare line_index [39] 6 60 6 = Ok found /\ found.*1 = [6; 9; 8; 7; 7; 7].
Proof. eexists. split; [by vm_compute | done]. Qed.
