(* ===== verification/MemBuild.v ===== *)
(** * Building the in-memory graph

    [occlude_list], [prune_neighbors], [inter_insert], [link],
    [calculate_entry_point] and [build] of [src/index.cpp].  The nodes are
    linked one after the other, in any order: the interleaving of the threads
    of [#pragma omp parallel for] inside the linking of a node is not
    modelled. *)
From S2P Require Import Prelude Neighbor CandidatePool Float32 Prune MemIndex.

Definition with_graph (g : list (list Z)) (w : Z) (ix : mem_index) : mem_index := {|
  final_graph := g; mdata := mdata ix; nd := nd ix; max_points := max_points ix;
  num_frozen_pts := num_frozen_pts ix; width := w; ep := ep ix; dynamic_index := dynamic_index ix;
  enable_tags := enable_tags ix; saturate_graph := saturate_graph ix; tag_to_location := tag_to_location ix;
  location_to_tag := location_to_tag ix; delete_set := delete_set ix; empty_slots := empty_slots ix;
  lazy_done := lazy_done ix; eager_done := eager_done ix; data_compacted := data_compacted ix |}.

Definition set_list (i : Z) (l : list Z) (ix : mem_index) : outcome mem_index :=
  if decide (Z.to_nat i < length (final_graph ix))%nat
  then Ok (with_graph (<[Z.to_nat i := l]> (final_graph ix)) (width ix) ix) else Crash.

Definition assert_ (b : bool) : outcome unit := if b then Ok tt else Crash.

Definition set_width (w : Z) (ix : mem_index) : mem_index := with_graph (final_graph ix) w ix.

Definition set_start (e : Z) (saturate : bool) (ix : mem_index) : mem_index := {|
  final_graph := final_graph ix; mdata := mdata ix; nd := nd ix; max_points := max_points ix;
  num_frozen_pts := num_frozen_pts ix; width := width ix; ep := e; dynamic_index := dynamic_index ix;
  enable_tags := enable_tags ix; saturate_graph := saturate; tag_to_location := tag_to_location ix;
  location_to_tag := location_to_tag ix; delete_set := delete_set ix; empty_slots := empty_slots ix;
  lazy_done := lazy_done ix; eager_done := eager_done ix; data_compacted := data_compacted ix |}.

Section build.
Context {F : Type} `{!FloatOps F}.
Context (compare : list Z -> list Z -> F).
(** The parameters [alpha], [R], [C], [L]; bounds for the loops. *)
Context (alpha : F) (range maxc Lsize : nat) (sfuel pfuel : nat).

(** ** Pruning *)
Section occlude.
Context (djk : Z -> Z -> outcome F).

Fixpoint mem_occlude_scan (fuel start : nat) (cur_alpha : F) (pool : list (Neighbor F))
    (result : list (Neighbor F)) (occlude_factor : list F) : outcome (list (Neighbor F) * list F) :=
  match fuel with
  | O => Crash
  | S fuel =>
      if bool_decide (length result < range /\ start < length pool /\ start < maxc)%nat then
        p ← at_ pool start;
        o ← factor_at occlude_factor start;
        if dlt cur_alpha o then mem_occlude_scan fuel (S start) cur_alpha pool result occlude_factor
        else
          let fac := <[start := f_max]> occlude_factor in
          rest ← occlude_tail alpha djk p (maxc - S start) (drop (S start) pool) (drop (S start) fac);
          mem_occlude_scan fuel (S start) cur_alpha pool (result ++ [p]) (take (S start) fac ++ rest)
      else Ok (result, occlude_factor)
  end.

Fixpoint mem_occlude_rounds (fuel : nat) (cur_alpha : F) (pool result : list (Neighbor F)) (occlude_factor : list F)
  : outcome (list (Neighbor F)) :=
  match fuel with
  | O => Crash
  | S fuel =>
      if negb (dlt alpha cur_alpha) && bool_decide (length result < range)%nat then
        '(result, fac) ← mem_occlude_scan (S (length pool)) 0 cur_alpha pool result occlude_factor;
        mem_occlude_rounds fuel (mul_1_2f cur_alpha) pool result fac
      else Ok result
  end.

Definition mem_occlude_list (fuel : nat) (pool : list (Neighbor F)) : outcome (list (Neighbor F)) :=
  if decide (pool = []) then Ok []
  else mem_occlude_rounds fuel f_one pool [] (replicate (length pool) f_zero).
End occlude.

(** [_distance->compare] between two candidates. *)
Definition row_dist (ix : mem_index) (p x : Z) : outcome F := Ok (compare (row ix x) (row ix p)).

Fixpoint fill_graph (location : Z) (pool : list (Neighbor F)) (pruned_list : list Z) : list Z :=
  match pool with
  | [] => pruned_list
  | x :: pool =>
      if bool_decide (length pruned_list < range)%nat then
        fill_graph location pool (if decide (id x ∈ pruned_list \/ id x = location) then pruned_list else pruned_list ++ [id x])
      else pruned_list
  end.

Definition mem_prune_neighbors (ix : mem_index) (location : Z) (pool : list (Neighbor F)) : outcome (list Z * mem_index) :=
  if decide (pool = []) then Crash else
  let ix := set_width (Z.max (width ix) (Z.of_nat range)) ix in
  let pool := std_sort_nb pool in
  result ← mem_occlude_list (row_dist ix) pfuel pool;
  let pruned_list := filter (fun i => i <> location) (id <$> result) in
  Ok (if saturate_graph ix && dlt f_one alpha then fill_graph location pool pruned_list else pruned_list, ix).

(** ** Linking *)

(** [SLACK_FACTOR * range], truncated. *)
Definition SLACK : nat := Z.to_nat (13 * Z.of_nat range / 10).

(** The list of a node as a pool for pruning. *)
Fixpoint dummy_pool (ix : mem_index) (des : Z) (l : list Z) (dummy_visited : gset Z) : list (Neighbor F) :=
  match l with
  | [] => []
  | j :: l =>
      if decide (j ∉ dummy_visited /\ j <> des)
      then {| id := j; distance := compare (row ix des) (row ix j); flag := true; visited := false |}
             :: dummy_pool ix des l ({[j]} ∪ dummy_visited)
      else dummy_pool ix des l dummy_visited
  end.

Definition add_reverse (n des : Z) (ix : mem_index) : outcome mem_index :=
  des_pool ← list_of ix des;
  if decide (n ∈ des_pool) then Ok ix
  else if bool_decide (length des_pool < SLACK)%nat then set_list des (des_pool ++ [n]) ix
  else
    '(new_out_neighbors, ix) ← mem_prune_neighbors ix des (dummy_pool ix des (des_pool ++ [n]) ∅);
    set_list des new_out_neighbors ix.

Definition inter_insert (n : Z) (pruned_list : list Z) (ix : mem_index) : outcome mem_index :=
  _ ← assert_ (n <? nd ix + num_frozen_pts ix);
  _ ← assert_ (bool_decide (pruned_list <> []));
  foldM (add_reverse n) pruned_list ix.

Definition get_expanded_nodes (ix : mem_index) (node_id : Z) (init_ids : list Z) : outcome (list (Neighbor F)) :=
  '(_, expanded) ← iterate_to_fixed_point compare ix (row ix node_id) Lsize sfuel (if decide (init_ids = []) then [ep ix] else init_ids) true;
  Ok expanded.

Definition link_node (node : Z) (ix : mem_index) : outcome mem_index :=
  pool ← get_expanded_nodes ix node [ep ix];
  '(pruned_list, ix) ← mem_prune_neighbors ix node (filter (fun x => id x <> node) pool);
  ix ← set_list node pruned_list ix;
  inter_insert node pruned_list ix.

(** The final cleanup of a node. *)
Definition cleanup_node (node : Z) (ix : mem_index) : outcome mem_index :=
  l ← list_of ix node;
  if bool_decide (range < length l)%nat then
    '(new_out_neighbors, ix) ← mem_prune_neighbors ix node (dummy_pool ix node l ∅);
    set_list node new_out_neighbors ix
  else Ok ix.

(** ** The start node

    [dist i] is the distance of vector [i] from the centroid; the updates of
    the 256 minima come in any order. *)
Definition kDistNum : nat := 256.

Definition update_min (dist : Z -> F) (i : Z) (b : Z * F) : Z * F := if dlt (dist i) b.2 then (i, dist i) else b.

Definition add_dist (dist : Z -> F) (atomic_dists : list (Z * F)) (i : Z) : list (Z * F) :=
  alter (update_min dist i) (Z.to_nat ((i / 65536) mod Z.of_nat kDistNum)) atomic_dists.

Definition calculate_entry_point (dist : Z -> F) (order : list Z) : Z :=
  let atomic_dists := foldl (add_dist dist) (replicate kDistNum (0, f_max)) order in
  (foldl (fun m b => if dlt b.2 m.2 then b else m) (0, f_max) atomic_dists).1.

(** [link]: [order] and [order'] are the orders in which the nodes are
    processed by the two loops. *)
Definition link (dist : Z -> F) (saturate : bool) (order_ep order order' : list Z) (ix : mem_index) : outcome mem_index :=
  let ix := set_start (if 0 <? num_frozen_pts ix then max_points ix else calculate_entry_point dist order_ep) saturate ix in
  ix ← foldM link_node order ix;
  foldM cleanup_node order' ix.
End build.

(** ** The two prunings select the same candidates *)
Section agree.
Context {F : Type} `{!FloatOps F} (alpha : F) (range maxc : nat) (djk : Z -> Z -> outcome F) (pool : list (Neighbor F)).
Context (Hnd : NoDup (id <$> pool)) (Hmax : dlt alpha f_max = true).

Lemma set_insert_perm (x : Neighbor F) rs : (forall y, y ∈ rs -> id y <> id x) -> set_insert x rs ≡ₚ x :: rs.
Proof.
  induction rs as [|y rs IH]; intros Hne; cbn [set_insert]; [done|]. destruct (nb_lt x y) eqn:E1; [done|].
  destruct (nb_lt y x) eqn:E2.
  - rewrite IH by (intros z Hz; apply Hne; by right). apply Permutation_swap.
  - exfalso. apply (Hne y); [by left|]. symmetry. by apply nb_lt_same.
Qed.

(** A selected candidate is never selected again. *)
Record same_selection (rs' rs : list (Neighbor F)) (fac : list F) : Prop := {
  sl_perm : rs' ≡ₚ rs;
  sl_pool : forall x, x ∈ rs -> x ∈ pool;
  sl_factor : forall t x, pool !! t = Some x -> x ∈ rs -> fac !! t = Some f_max;
}.

Lemma tail_keeps_max p : forall n (xs : list (Neighbor F)) fac fac', occlude_tail alpha djk p n xs fac = Ok fac' ->
  forall t, fac !! t = Some f_max -> fac' !! t = Some f_max.
Proof.
  induction n as [|n IH]; intros xs fac fac'; cbn [occlude_tail]; [by intros [= <-]|].
  destruct xs as [|x xs]; [by intros [= <-]|]. destruct fac as [|o fac]; [by intros [= <-]|].
  destruct (if dlt alpha o then _ else _) as [o'|] eqn:Eo; [|done]. cbn [mbind outcome_bind].
  destruct (occlude_tail alpha djk p n xs fac) as [rest|] eqn:Er; [|done]. cbn [mbind outcome_bind]. intros [= <-] [|t] Ht.
  - injection Ht as ->. rewrite Hmax in Eo. by injection Eo as <-.
  - by apply (IH xs fac rest).
Qed.

Lemma tail_length p : forall n (xs : list (Neighbor F)) fac fac', occlude_tail alpha djk p n xs fac = Ok fac' -> length fac' = length fac.
Proof.
  induction n as [|n IH]; intros xs fac fac'; cbn [occlude_tail]; [by intros [= <-]|].
  destruct xs as [|x xs]; [by intros [= <-]|]. destruct fac as [|o fac]; [by intros [= <-]|].
  destruct (if dlt alpha o then _ else _) as [o'|]; [|done]. cbn [mbind outcome_bind].
  destruct (occlude_tail alpha djk p n xs fac) as [rest|] eqn:Er; [|done]. cbn [mbind outcome_bind]. intros [= <-]. simpl. f_equal. by eapply IH.
Qed.

Lemma below_max cur : dlt alpha cur = false -> dlt cur f_max = true.
Proof. intros H. destruct (dlt cur f_max) eqn:E; [done|]. pose proof (dlt_ntrans f_max cur alpha E H). congruence. Qed.

Lemma select_same start p rs' rs fac rest : same_selection rs' rs fac -> pool !! start = Some p -> p ∉ rs -> (start < length fac)%nat ->
  occlude_tail alpha djk p (maxc - S start) (drop (S start) pool) (drop (S start) (<[start := f_max]> fac)) = Ok rest ->
  same_selection (rs' ++ [p]) (set_insert p rs) (take (S start) (<[start := f_max]> fac) ++ rest).
Proof.
  intros [Hp Hin Hf] Hx Hnp Hl Et. assert (p ∈ pool) as Hpin by (by eapply list_elem_of_lookup_2).
  assert (Hlen : length (take (S start) (<[start := f_max]> fac)) = S start) by (rewrite length_take, length_insert; lia).
  pose proof (set_insert_spec p rs) as (S1 & _). split.
  - rewrite set_insert_perm; [by rewrite Hp, Permutation_app_comm|]. intros y Hy E. apply Hnp.
    by rewrite <- (pool_id_inj pool Hnd y p (Hin y Hy) Hpin E).
  - intros x [->|Hx']%S1; [done | by apply Hin].
  - intros t x Ht Hxr. assert (t = start \/ fac !! t = Some f_max) as Hor.
    { apply S1 in Hxr as [->|?]; [left | right; by apply (Hf t x)].
      apply (NoDup_lookup _ _ _ (id p) Hnd); rewrite list_lookup_fmap; [by rewrite Ht | by rewrite Hx]. }
    assert (Hins : <[start := f_max]> fac !! t = Some f_max).
    { destruct Hor as [->|?]; [by apply list_lookup_insert_eq|]. destruct (decide (t = start)) as [->|]; [by apply list_lookup_insert_eq|].
      by rewrite list_lookup_insert_ne. }
    destruct (decide (t < S start)%nat).
    + by rewrite lookup_app_l, lookup_take_lt by lia.
    + rewrite lookup_app_r, Hlen by lia. apply (tail_keeps_max _ _ _ _ _ Et). rewrite lookup_drop. by replace (S start + (t - S start))%nat with t by lia.
Qed.

Lemma scan_same cur : dlt alpha cur = false -> forall fuel start rs' rs fac r f, same_selection rs' rs fac -> length fac = length pool ->
  occlude_scan alpha range maxc djk fuel start cur pool rs fac = Ok (r, f) ->
  exists r', mem_occlude_scan alpha range maxc djk fuel start cur pool rs' fac = Ok (r', f) /\ same_selection r' r f /\ length f = length pool.
Proof.
  intros Hcur. induction fuel as [|fuel IH]; intros start rs' rs fac r f Hs Hl; cbn [occlude_scan mem_occlude_scan]; [done|].
  rewrite (Permutation_length (sl_perm _ _ _ Hs)). case_bool_decide as Hb; [|intros [= <- <-]; by exists rs'].
  destruct Hb as (Hb1 & Hb2 & _). destruct (lookup_lt_is_Some_2 pool start Hb2) as [p Hp]. rewrite (at_Ok _ _ _ Hp). cbn [mbind outcome_bind].
  destruct (lookup_lt_is_Some_2 fac start) as [o Ho]; [lia|]. unfold factor_at. rewrite Ho. cbn [mbind outcome_bind].
  destruct (dlt cur o) eqn:Eo; [by apply IH|].
  destruct (occlude_tail _ _ _ _ _ _) as [rest|] eqn:Et; [|done]. cbn [mbind outcome_bind]. apply IH.
  - apply select_same; [done | done | | lia | done]. intros Hin. rewrite (sl_factor _ _ _ Hs _ _ Hp Hin) in Ho. injection Ho as <-.
    by rewrite (below_max cur Hcur) in Eo.
  - rewrite length_app, (tail_length _ _ _ _ _ Et), length_take, length_drop, length_insert. lia.
Qed.

Lemma rounds_same : forall fuel cur rs' rs fac r, same_selection rs' rs fac -> length fac = length pool ->
  occlude_rounds alpha range maxc djk fuel cur pool rs fac = Ok r ->
  exists r', mem_occlude_rounds alpha range maxc djk fuel cur pool rs' fac = Ok r' /\ r' ≡ₚ r.
Proof.
  induction fuel as [|fuel IH]; intros cur rs' rs fac r Hs Hl; cbn [occlude_rounds mem_occlude_rounds]; [done|].
  rewrite (Permutation_length (sl_perm _ _ _ Hs)). destruct (negb (dlt alpha cur) && _) eqn:Ec.
  - apply andb_true_iff in Ec as [Hc%negb_true_iff _].
    destruct (occlude_scan _ _ _ _ _ _ _ _ _ _) as [[r1 f1]|] eqn:Es; [|done]. cbn [mbind outcome_bind].
    destruct (scan_same cur Hc _ _ _ _ _ _ _ Hs Hl Es) as (r1' & -> & Hs1 & Hl1). cbn [mbind outcome_bind]. by apply IH.
  - intros [= <-]. exists rs'. split; [done | apply Hs].
Qed.

Lemma occlude_same fuel r : occlude_list alpha range maxc djk fuel pool = Ok r ->
  exists r', mem_occlude_list alpha range maxc djk fuel pool = Ok r' /\ r' ≡ₚ r.
Proof.
  unfold occlude_list, mem_occlude_list. case_decide; [intros [= <-]; by exists []|]. apply rounds_same; [|apply length_replicate].
  split; [done | by intros x ?%elem_of_nil | by intros t x _ ?%elem_of_nil].
Qed.
End agree.

(** ** Pruning and reverse edges *)
Section facts.
Context {F : Type} `{!FloatOps F}.
Context (compare : list Z -> list Z -> F) (compare_sym : forall x y, compare x y = compare y x).
Context (alpha : F) (range maxc Lsize : nat) (sfuel pfuel nr : nat).
(** The parameters make sense: [1 <= alpha < FLT_MAX], lists of at least one
    entry, pools of at least two; [nr] rounds of the loop over [alpha] are enough. *)
Record params_ok : Prop := {
  pk_alpha : dlt alpha f_one = false;
  pk_max : dlt alpha f_max = true;
  pk_range : (0 < range)%nat;
  pk_maxc : (0 < maxc)%nat;
  pk_L : (1 < Lsize)%nat;
  pk_rounds : rounds_end alpha nr;
  pk_fuel : (nr < pfuel)%nat;
}.
Context (Hpar : params_ok).

Lemma fill_graph_spec loc : forall (pool : list (Neighbor F)) pl, NoDup pl -> (length pl <= range)%nat -> loc ∉ pl ->
  NoDup (fill_graph range loc pool pl) /\ (length (fill_graph range loc pool pl) <= range)%nat /\
  (forall i, i ∈ pl -> i ∈ fill_graph range loc pool pl) /\
  (forall i, i ∈ fill_graph range loc pool pl -> i <> loc /\ (i ∈ pl \/ i ∈ id <$> pool)).
Proof.
  induction pool as [|x pool IH]; intros pl Hnd Hl Hloc; cbn [fill_graph].
  - split_and!; try done. intros i Hi. split; [by intros ->|by left].
  - case_bool_decide as Hb; [|split_and!; try done; intros i Hi; split; [by intros ->|by left]].
    assert (exists pl', (if decide (id x ∈ pl \/ id x = loc) then pl else pl ++ [id x]) = pl' /\ NoDup pl' /\ (length pl' <= range)%nat /\ loc ∉ pl' /\
      forall i, i ∈ pl' -> i ∈ pl \/ i = id x) as (pl' & Epl & H1 & H2 & H3 & H4).
    { eexists. split; [done|]. case_decide as Hd; [by split_and!; [..|left]|]. rewrite length_app. cbn [length].
      split_and!; [|lia | |].
      - apply NoDup_app. split_and!; [done | |apply NoDup_singleton]. intros i Hi ->%list_elem_of_singleton. tauto.
      - rewrite elem_of_app, list_elem_of_singleton. intros [?| ->]; [done|tauto].
      - intros i. rewrite elem_of_app, list_elem_of_singleton. tauto. }
    assert (Hsub : forall i, i ∈ pl -> i ∈ pl').
    { intros i Hi. rewrite <- Epl. case_decide; [done|]. apply elem_of_app. by left. }
    rewrite Epl. destruct (IH pl' H1 H2 H3) as (A & B & C & D). split_and!; [done | done | auto |].
    intros i Hi. destruct (D i Hi) as [Hne Hor]. split; [done|]. rewrite fmap_cons, elem_of_cons. destruct Hor as [[?| ->]%H4|?]; tauto.
Qed.

Lemma mem_prune_ok ix loc pool : pool <> [] -> NoDup (id <$> pool) -> (forall x, x ∈ pool -> id x <> loc) ->
  exists res, mem_prune_neighbors compare alpha range maxc pfuel ix loc pool = Ok (res, set_width (Z.max (width ix) (Z.of_nat range)) ix) /\
    NoDup res /\ (length res <= range)%nat /\ res <> [] /\ forall i, i ∈ res -> i <> loc /\ i ∈ id <$> pool.
Proof.
  intros Hne Hnd Hloc. unfold mem_prune_neighbors. rewrite decide_False by done. cbv zeta.
  pose proof (std_sort_nb_perm pool) as Hp. set (ix' := set_width _ ix).
  assert (Hnd' : NoDup (id <$> std_sort_nb pool)) by (by rewrite Hp).
  destruct (occlude_list_spec alpha range maxc (row_dist compare ix') (std_sort_nb pool) nr pfuel Hnd') as (rs & E & Hpost);
    [intros x y _ _; by eexists | apply Hpar | apply Hpar |].
  destruct (occlude_same alpha range maxc (row_dist compare ix') (std_sort_nb pool) Hnd' (pk_max Hpar) pfuel rs E) as (rs' & -> & Hperm).
  cbn [mbind outcome_bind]. destruct (occlude_post_ids alpha range maxc _ _ _ Hnd' Hpost) as [Hrsnd Hrsin].
  assert (Hids : forall i, i ∈ id <$> rs' -> i ∈ id <$> pool) by (intros i Hi; rewrite Hperm in Hi; apply Hrsin in Hi; by rewrite Hp in Hi).
  assert (Ef : filter (fun i => i <> loc) (id <$> rs') = id <$> rs').
  { apply filter_all, Forall_forall. intros i (x & -> & Hx)%Hids%list_elem_of_fmap. by apply Hloc. }
  rewrite Ef. assert (Hlen : (length (id <$> rs') <= range)%nat) by (rewrite length_fmap, (Permutation_length Hperm); apply Hpost).
  assert (Hnd2 : NoDup (id <$> rs')) by (by rewrite Hperm).
  assert (Hloc2 : loc ∉ id <$> rs') by (intros (x & E' & Hx)%Hids%list_elem_of_fmap; by apply (Hloc x)).
  assert (Hne2 : exists i, i ∈ id <$> rs').
  { destruct rs' as [|x rs']; [|exists (id x); by left]. exfalso. apply Permutation_nil_l in Hperm. subst rs.
    destruct (op_cover _ _ _ _ _ _ Hpost) as [H|H]; [pose proof (pk_range Hpar); simpl in H; lia|].
    destruct (std_sort_nb pool) as [|x l] eqn:Es; [by apply Permutation_nil_l in Hp|].
    destruct (H 0%nat 0%nat x) as (s & _ & _ & Hs & _); [|apply Hpar|done|by intros ?%elem_of_nil|lia].
    intros i Hi. replace i with 0%nat by lia. apply (pk_alpha Hpar). }
  destruct (fill_graph_spec loc (std_sort_nb pool) (id <$> rs') Hnd2 Hlen Hloc2) as (A & B & C & D).
  destruct (saturate_graph ix' && dlt f_one alpha); (eexists; split; [reflexivity|]; split_and!; [done|done| |]).
  - intros E'. destruct Hne2 as [i Hi%C]. rewrite E' in Hi. by apply elem_of_nil in Hi.
  - intros i [? [Hi|Hi]]%D; (split; [done|]); [by apply Hids | by rewrite Hp in Hi].
  - intros E'. destruct Hne2 as [i Hi]. rewrite E' in Hi. by apply elem_of_nil in Hi.
  - intros i Hi. split; [by intros ->|by apply Hids].
Qed.

Lemma dummy_pool_ids ix des l : forall vis, NoDup (id <$> dummy_pool compare ix des l vis) /\
  forall i, i ∈ id <$> dummy_pool compare ix des l vis <-> i ∈ l /\ i ∉ vis /\ i <> des.
Proof.
  induction l as [|j l IH]; intros vis; cbn [dummy_pool]; [split; [constructor|]; intros i; rewrite !elem_of_nil; tauto|].
  destruct (decide (j ∉ vis /\ j <> des)) as [[Hj1 Hj2]|Hj].
  - destruct (IH ({[j]} ∪ vis)) as [H1 H2]. rewrite fmap_cons. cbn [id]. split.
    + constructor; [|done]. rewrite H2, not_elem_of_union, not_elem_of_singleton. tauto.
    + intros i. rewrite !elem_of_cons, H2, not_elem_of_union, not_elem_of_singleton. destruct (decide (i = j)) as [->|]; tauto.
  - destruct (IH vis) as [H1 H2]. split; [done|]. intros i. rewrite H2, elem_of_cons. destruct (decide (i = j)) as [->|]; tauto.
Qed.

(** Linking changes the graph and the width only. *)
Definition frame (ix ix' : mem_index) : Prop := ix' = with_graph (final_graph ix') (width ix') ix.

Lemma frame_refl ix : frame ix ix.
Proof. by destruct ix. Qed.

Lemma frame_trans ix1 ix2 ix3 : frame ix1 ix2 -> frame ix2 ix3 -> frame ix1 ix3.
Proof. unfold frame. intros E1 E2. rewrite E2. by rewrite E1. Qed.

(** The lists: known identifiers, no duplicates, no self loops, bounded. *)
Record linked (ix : mem_index) : Prop := {
  lk_ok : mem_graph_ok ix;
  lk_lists : forall i l, final_graph ix !! i = Some l -> NoDup l /\ Z.of_nat i ∉ l /\ (length l <= SLACK range)%nat;
}.

Definition keeps (ix ix' : mem_index) : Prop :=
  forall i l, final_graph ix !! i = Some l -> l <> [] -> exists l', final_graph ix' !! i = Some l' /\ l' <> [].

Lemma keeps_trans ix1 ix2 ix3 : keeps ix1 ix2 -> keeps ix2 ix3 -> keeps ix1 ix3.
Proof. intros H1 H2 i l Hl Hne. destruct (H1 i l Hl Hne) as (l2 & Hl2 & Hne2). by apply (H2 i l2). Qed.

Lemma range_slack : (range <= SLACK range)%nat.
Proof. unfold SLACK. pose proof (Z.div_le_lower_bound (13 * Z.of_nat range) 10 (Z.of_nat range)). lia. Qed.

Lemma list_of_Some ix i l : list_of ix i = Ok l <-> final_graph ix !! Z.to_nat i = Some l.
Proof. unfold list_of. destruct (final_graph ix !! Z.to_nat i); split; congruence. Qed.

Lemma set_list_ok ix i l : linked ix -> in_index ix i -> NoDup l -> i ∉ l -> (length l <= SLACK range)%nat -> (forall j, j ∈ l -> in_index ix j) ->
  l <> [] -> exists ix', set_list i l ix = Ok ix' /\ frame ix ix' /\ linked ix' /\ keeps ix ix' /\ list_of ix' i = Ok l /\
    (forall j, j <> i -> 0 <= j -> list_of ix' j = list_of ix j) /\ width ix' = width ix.
Proof.
  intros Hlk Hi Hnd Hil Hlen Hin Hne. destruct Hlk as [[Hf Hl Hids] Hls]. destruct Hi as [Hi0 Hi1].
  assert (Hlt : (Z.to_nat i < length (final_graph ix))%nat) by lia.
  unfold set_list. rewrite decide_True by done. eexists. split; [reflexivity|]. split_and!; try done.
  - split; [split|]; cbn [final_graph with_graph]; [done | by rewrite length_insert | |].
    + change (total_points (with_graph _ _ ix)) with (total_points ix). apply Forall_insert; [done|]. apply Forall_forall. exact Hin.
    + intros j l'. destruct (decide (j = Z.to_nat i)) as [->|Hj].
      * rewrite list_lookup_insert_eq by done. intros [= <-]. rewrite Z2Nat.id by done. done.
      * rewrite list_lookup_insert_ne by done. apply Hls.
  - intros j l' Hj Hne'. cbn [final_graph with_graph]. destruct (decide (j = Z.to_nat i)) as [->|Hji].
    + rewrite list_lookup_insert_eq by done. by exists l.
    + rewrite list_lookup_insert_ne by done. by exists l'.
  - apply list_of_Some. cbn [final_graph with_graph]. by apply list_lookup_insert_eq.
  - intros j Hj Hj0. unfold list_of. cbn [final_graph with_graph]. rewrite list_lookup_insert_ne; [done|]. lia.
Qed.

(** Same graph, wider. *)
Lemma widen_ok ix w : linked ix -> frame ix (set_width w ix) /\ linked (set_width w ix) /\ keeps ix (set_width w ix).
Proof. intros [[Hf Hl Hids] Hls]. split_and!; [done | by split; [split|] | by intros i l Hl' Hne; exists l]. Qed.

Lemma prune_and_set ix node pool : linked ix -> in_index ix node -> pool <> [] -> NoDup (id <$> pool) ->
  (forall x, x ∈ pool -> id x <> node /\ in_index ix (id x)) ->
  exists res ix1 ix', mem_prune_neighbors compare alpha range maxc pfuel ix node pool = Ok (res, ix1) /\ set_list node res ix1 = Ok ix' /\
    frame ix ix' /\ linked ix' /\ keeps ix ix' /\ list_of ix' node = Ok res /\ res <> [] /\ (length res <= range)%nat /\
    (forall i, i ∈ res -> i <> node /\ i ∈ id <$> pool) /\ (forall j, j <> node -> 0 <= j -> list_of ix' j = list_of ix j).
Proof.
  intros Hlk Hn Hne Hnd Hids. destruct (mem_prune_ok ix node pool Hne Hnd) as (res & E & H1 & H2 & H3 & H4); [intros x Hx; by apply Hids|].
  destruct (widen_ok ix (Z.max (width ix) (Z.of_nat range)) Hlk) as (F1 & L1 & K1).
  set (ix1 := set_width _ ix) in *. pose proof range_slack.
  destruct (set_list_ok ix1 node res L1) as (ix' & Es & F2 & L2 & K2 & E2 & O2 & _); [done|done| |lia| |done|].
  - intros Hin. by destruct (H4 node Hin).
  - intros j [_ (x & -> & Hx)%list_elem_of_fmap]%H4. by apply Hids.
  - exists res, ix1, ix'. by split_and!.
Qed.

Lemma frame_index ix ix' i : frame ix ix' -> in_index ix' i <-> in_index ix i.
Proof. intros ->. done. Qed.

(** A set of nodes that contains the lists of its members. *)
Definition within (P : Z -> Prop) (ix : mem_index) : Prop :=
  forall i l, final_graph ix !! i = Some l -> P (Z.of_nat i) -> Forall P l.

Lemma within_set (P : Z -> Prop) ix ix' des l l' n : (forall j, j <> des -> 0 <= j -> list_of ix' j = list_of ix j) -> 0 <= des ->
  list_of ix des = Ok l -> list_of ix' des = Ok l' -> (forall j, j ∈ l' -> j ∈ l \/ j = n) -> P n -> within P ix -> within P ix'.
Proof.
  intros Ho Hd El El' Hsub Hn Hw i li Hi HPi. destruct (decide (Z.of_nat i = des)) as [E|Hne].
  - assert (Ei : i = Z.to_nat des) by lia. apply list_of_Some in El, El'. rewrite <- Ei in El, El'. rewrite Hi in El'. injection El' as ->.
    pose proof (Hw i l El HPi) as HP. rewrite Forall_forall in HP |- *. intros j [Hj| ->]%Hsub; [by apply HP | done].
  - apply (Hw i); [|done]. assert (Ei : list_of ix' (Z.of_nat i) = Ok li) by (apply list_of_Some; by rewrite Nat2Z.id).
    rewrite Ho in Ei by lia. apply list_of_Some in Ei. by rewrite Nat2Z.id in Ei.
Qed.

(** The reverse edge. *)
Lemma add_reverse_ok ix n des : linked ix -> in_index ix n -> in_index ix des -> n <> des ->
  exists ix', add_reverse compare alpha range maxc pfuel n des ix = Ok ix' /\ frame ix ix' /\ linked ix' /\ keeps ix ix' /\
    (exists l, list_of ix' des = Ok l /\ l <> []) /\ (forall j, j <> des -> 0 <= j -> list_of ix' j = list_of ix j) /\
    (forall P, P n -> within P ix -> within P ix').
Proof.
  intros Hlk Hn Hd Hne. unfold add_reverse. destruct (list_of_known ix (lk_ok _ Hlk) des Hd) as (l & El & _). rewrite El. cbn [mbind outcome_bind].
  pose proof (proj1 (list_of_Some _ _ _) El) as Hl. destruct (lk_lists _ Hlk _ _ Hl) as (Hnd & Hself & Hlen). rewrite Z2Nat.id in Hself by (destruct Hd; done).
  pose proof (list_known ix (lk_ok _ Hlk) des l El) as Hin.
  case_decide as Hin'; [exists ix; split_and!; try done; [apply frame_refl | by intros i l' ? ?; exists l' | exists l; split; [done|intros ->; by apply elem_of_nil in Hin']]|].
  case_bool_decide as Hs.
  - destruct (set_list_ok ix des (l ++ [n]) Hlk Hd) as (ix' & E & F1 & L1 & K1 & E1 & O1 & _).
    + apply NoDup_app. split_and!; [done | by intros i Hi ->%list_elem_of_singleton | apply NoDup_singleton].
    + rewrite elem_of_app, list_elem_of_singleton. intros [?|?]; [done | by apply Hne].
    + rewrite length_app. cbn [length]. lia.
    + intros j. rewrite elem_of_app, list_elem_of_singleton. intros [?| ->]; [by apply Hin | done].
    + by intros [_ ?]%app_eq_nil.
    + exists ix'. split_and!; try done; [exists (l ++ [n]); split; [done|]; by intros [_ ?]%app_eq_nil|].
      intros P HPn. apply (within_set P ix ix' des l (l ++ [n]) n O1); [by destruct Hd | done | done | | done].
      intros j. by rewrite elem_of_app, list_elem_of_singleton.
  - destruct (dummy_pool_ids ix des (l ++ [n]) ∅) as [Hdn Hdi]. set (pool := dummy_pool compare ix des (l ++ [n]) ∅) in *.
    assert (Hpn : n ∈ id <$> pool) by (apply Hdi; split_and!; [apply elem_of_app; right; by left | set_solver | done]).
    destruct (prune_and_set ix des pool Hlk Hd) as (res & ix1 & ix' & -> & Es & F1 & L1 & K1 & E1 & N1 & _ & R1 & O1).
    + intros Hp. rewrite Hp in Hpn. by apply elem_of_nil in Hpn.
    + done.
    + intros x Hx. assert (id x ∈ id <$> pool) as (Hx1 & _ & Hx3)%Hdi by (by apply list_elem_of_fmap_2). split; [done|].
      apply elem_of_app in Hx1 as [?|Hx1]; [by apply Hin | by apply list_elem_of_singleton in Hx1 as ->].
    + cbn [mbind outcome_bind]. rewrite Es. exists ix'. split_and!; try done; [by exists res|].
      intros P HPn. apply (within_set P ix ix' des l res n O1); [by destruct Hd | done | done | | done].
      intros j [_ (Hj & _)%Hdi]%R1. by rewrite elem_of_app, list_elem_of_singleton in Hj.
Qed.

Lemma reverse_all_ok n l : forall ix, linked ix -> in_index ix n -> (forall j, j ∈ l -> in_index ix j /\ j <> n) ->
  exists ix', foldM (add_reverse compare alpha range maxc pfuel n) l ix = Ok ix' /\ frame ix ix' /\ linked ix' /\ keeps ix ix' /\
    (forall j, j ∈ l -> exists l', list_of ix' j = Ok l' /\ l' <> []) /\ (forall j, j ∉ l -> 0 <= j -> list_of ix' j = list_of ix j) /\
    (forall P, P n -> within P ix -> within P ix').
Proof.
  induction l as [|d l IH]; intros ix Hlk Hn Hl; cbn [foldM].
  - exists ix. split_and!; try done; [apply frame_refl | by intros i l' ? ?; exists l' | by intros j ?%elem_of_nil].
  - destruct (Hl d ltac:(by left)) as [Hd Hdn].
    destruct (add_reverse_ok ix n d Hlk Hn Hd (not_eq_sym Hdn)) as (ix1 & -> & F1 & L1 & K1 & (l1 & E1 & N1) & O1 & W1). cbn [mbind outcome_bind].
    destruct (IH ix1 L1) as (ix' & -> & F2 & L2 & K2 & E2 & O2 & W2).
    + by apply (frame_index _ _ _ F1).
    + intros j Hj. destruct (Hl j ltac:(by right)). split; [by apply (frame_index _ _ _ F1) | done].
    + exists ix'. split_and!; try done; [by eapply frame_trans | by eapply keeps_trans | | |auto].
      * intros j [->|Hj]%elem_of_cons; [|by apply E2]. destruct (K2 _ l1 (proj1 (list_of_Some _ _ _) E1) N1) as (l' & Hl' & N'). exists l'.
        split; [by apply list_of_Some | done].
      * intros j Hj Hj0. apply not_elem_of_cons in Hj as [? ?]. by rewrite O2, O1.
Qed.

Definition in_use (ix : mem_index) (i : Z) : Prop := in_index ix i /\ i < nd ix + num_frozen_pts ix.

Lemma inter_insert_ok n l ix : linked ix -> in_use ix n -> (forall j, j ∈ l -> in_index ix j /\ j <> n) -> l <> [] ->
  exists ix', inter_insert compare alpha range maxc pfuel n l ix = Ok ix' /\ frame ix ix' /\ linked ix' /\ keeps ix ix' /\
    (forall j, j ∈ l -> exists l', list_of ix' j = Ok l' /\ l' <> []) /\ (forall j, j ∉ l -> 0 <= j -> list_of ix' j = list_of ix j) /\
    (forall P, P n -> within P ix -> within P ix').
Proof.
  intros Hlk [Hn Hlt] Hl Hne. unfold inter_insert. rewrite (proj2 (Z.ltb_lt _ _) Hlt), bool_decide_eq_true_2 by done.
  cbn [assert_ mbind outcome_bind]. by apply reverse_all_ok.
Qed.

(** ** Linking a node *)
Definition ep_linked (ix : mem_index) : Prop := exists l, list_of ix (ep ix) = Ok l /\ l <> [].
Definition fuel_ok (ix : mem_index) : Prop := (pool_fuel (Z.to_nat (total_points ix)) <= sfuel)%nat.

Lemma two_ids (pool : list (Neighbor F)) i : NoDup (id <$> pool) -> (1 < length pool)%nat -> exists j, j ∈ id <$> pool /\ j <> i.
Proof.
  intros Hnd Hl. destruct pool as [|x [|y pool]]; cbn [length] in Hl; try lia. rewrite !fmap_cons in *.
  apply NoDup_cons in Hnd as [Hx _]. destruct (decide (id x = i)) as [<-|?]; [|exists (id x); split; [by left | done]].
  exists (id y). split; [by right; left|]. intros E. apply Hx. rewrite E. by left.
Qed.

Lemma expanded_ok ix node : linked ix -> in_index ix (ep ix) -> fuel_ok ix ->
  exists pool, get_expanded_nodes compare Lsize sfuel ix node [ep ix] = Ok pool /\ NoDup (id <$> pool) /\
    (forall x, x ∈ pool -> in_index ix (id x)) /\ ep ix ∈ id <$> pool /\
    (ep_linked ix -> exists j, j ∈ id <$> pool /\ j <> ep ix) /\ (list_of ix (ep ix) = Ok [] -> forall x, x ∈ pool -> id x = ep ix).
Proof.
  intros Hlk Hep Hf. unfold get_expanded_nodes. rewrite decide_False by done. pose proof (lk_ok _ Hlk) as Hok. pose proof (pk_L Hpar) as HL.
  set (P := fun i => in_index ix i /\ (list_of ix (ep ix) = Ok [] -> i = ep ix)).
  destruct (iterate_within compare compare_sym ix Hok (row ix node) Lsize sfuel Hf P true [ep ix]) as (pool & sp & expanded & -> & Hfp & Hfst & HP).
  - by intros i [? _].
  - intros i l j [Hi Hempty] El Hj. split; [by apply (list_known ix Hok i l El)|]. intros E. rewrite (Hempty E), E in El. injection El as <-.
    by apply elem_of_nil in Hj.
  - done.
  - apply NoDup_singleton.
  - cbn [length]. lia.
  - intros i ->%list_elem_of_singleton. by split.
  - cbn [mbind outcome_bind]. exists expanded. pose proof (Hfst eq_refl (ep ix) eq_refl) as Hin. split_and!; try done.
    + apply (fp_once _ _ _ _ _ _ _ Hfp).
    + intros x Hx. by apply HP.
    + assert (Hexp : forall j, j ∈ id <$> pool -> j ∈ id <$> expanded).
      { intros j (x & -> & Hx)%list_elem_of_fmap. destruct (fp_pool _ _ _ _ _ _ _ Hfp x Hx) as (_ & _ & [?|(_ & ? & _)]); done. }
      intros (l & El & Hne). destruct l as [|j l]; [done|].
      destruct (fp_closed _ _ _ _ _ _ _ Hfp (ep ix) (j :: l) j (or_introl Hin) El ltac:(by left)) as [Hj|[Hfull _]].
      * exists j. split; [by apply Hexp|]. apply list_of_Some in El. destruct (lk_lists _ Hlk _ _ El) as (_ & Hself & _).
        rewrite Z2Nat.id in Hself by (destruct Hep; done). intros ->. apply Hself. by left.
      * destruct (two_ids pool (ep ix)) as (i & Hi & Hne'); [apply Hfp | lia |]. exists i. split; [by apply Hexp | done].
    + intros E x Hx. by apply HP.
Qed.

Lemma link_node_ok ix node : linked ix -> in_use ix node -> in_index ix (ep ix) -> fuel_ok ix -> node <> ep ix \/ ep_linked ix ->
  exists ix', link_node compare alpha range maxc Lsize sfuel pfuel node ix = Ok ix' /\ frame ix ix' /\ linked ix' /\ keeps ix ix' /\ ep_linked ix' /\
    exists l, list_of ix' node = Ok l /\ l <> [].
Proof.
  intros Hlk [Hn Hlt] Hep Hf Hor. unfold link_node. destruct (expanded_ok ix node Hlk Hep Hf) as (pool & -> & Hnd & Hin & Hepin & H2 & H1).
  cbn [mbind outcome_bind]. set (pool' := filter (fun x => id x <> node) pool).
  assert (Hpool : forall x, x ∈ pool' <-> x ∈ pool /\ id x <> node) by (intros x; unfold pool'; rewrite list_elem_of_filter; tauto).
  assert (Hne : exists x, x ∈ pool').
  { assert (exists j, j ∈ id <$> pool /\ j <> node) as (j & (x & -> & Hx)%list_elem_of_fmap & Hj); [|exists x; by apply Hpool].
    destruct (decide (node = ep ix)) as [->|?]; [|by exists (ep ix)]. apply H2. by destruct Hor. }
  destruct (prune_and_set ix node pool' Hlk Hn) as (res & ix1 & ix2 & -> & Es & F1 & L1 & K1 & E1 & N1 & _ & R1 & O1).
  - intros E. destruct Hne as [x Hx]. rewrite E in Hx. by apply elem_of_nil in Hx.
  - unfold pool'. eapply sublist_NoDup; [exact Hnd|]. apply (fmap_sublist id), sublist_filter.
  - intros x [Hx Hxn]%Hpool. split; [done | by apply Hin].
  - cbn [mbind outcome_bind]. rewrite Es. cbn [mbind outcome_bind].
    assert (Hres : forall j, j ∈ res -> in_index ix2 j /\ j <> node).
    { intros j Hj. destruct (R1 j Hj) as [? (x & -> & Hx)%list_elem_of_fmap]. split; [|done]. apply (frame_index _ _ _ F1), Hin. by apply Hpool in Hx as []. }
    destruct (inter_insert_ok node res ix2 L1) as (ix' & -> & F2 & L2 & K2 & E2 & O2 & _); [split; [by apply (frame_index _ _ _ F1) | by rewrite F1] | exact Hres | done |].
    exists ix'. assert (F3 : frame ix ix') by (by eapply frame_trans). assert (Eep : ep ix' = ep ix) by (by rewrite F3).
    split_and!; try done; [by eapply keeps_trans | |].
    + destruct (list_of_known ix (lk_ok _ Hlk) (ep ix) Hep) as (le & Ele & _). unfold ep_linked. rewrite Eep. destruct (decide (le = [])) as [->|Hle].
      * apply E2. destruct res as [|j res]; [done|]. destruct (R1 j ltac:(by left)) as [_ (x & -> & Hx)%list_elem_of_fmap].
        apply Hpool in Hx as [Hx _]. rewrite <- (H1 Ele x Hx). by left.
      * destruct (keeps_trans _ _ _ K1 K2 _ le (proj1 (list_of_Some _ _ _) Ele) Hle) as (l' & Hl' & ?). exists l'. split; [by apply list_of_Some | done].
    + exists res. split; [|done]. rewrite O2; [done | by intros [_ ?]%Hres | by destruct Hn].
Qed.

Lemma link_all order : forall ix, linked ix -> in_index ix (ep ix) -> fuel_ok ix -> Forall (in_use ix) order ->
  ep_linked ix \/ head order <> Some (ep ix) ->
  exists ix', foldM (link_node compare alpha range maxc Lsize sfuel pfuel) order ix = Ok ix' /\ frame ix ix' /\ linked ix' /\ keeps ix ix' /\
    forall node, node ∈ order -> exists l, list_of ix' node = Ok l /\ l <> [].
Proof.
  induction order as [|node order IH]; intros ix Hlk Hep Hf Hall Hor; cbn [foldM].
  - exists ix. split_and!; try done; [apply frame_refl | by intros i l' ? ?; exists l' | by intros j ?%elem_of_nil].
  - apply Forall_cons in Hall as [Hn Hall]. cbn [head] in Hor.
    destruct (link_node_ok ix node Hlk Hn Hep Hf) as (ix1 & -> & F1 & L1 & K1 & Ep1 & (l & El & Nl)); [naive_solver|].
    cbn [mbind outcome_bind]. assert (Eep : ep ix1 = ep ix) by (by rewrite F1).
    destruct (IH ix1 L1) as (ix' & -> & F2 & L2 & K2 & H2).
    + rewrite Eep. by apply (frame_index _ _ _ F1).
    + unfold fuel_ok in *. by rewrite F1.
    + eapply Forall_impl; [exact Hall|]. intros j. unfold in_use. by rewrite F1.
    + by left.
    + exists ix'. split_and!; try done; [by eapply frame_trans | by eapply keeps_trans |].
      intros j [->|Hj]%elem_of_cons; [|by apply H2]. destruct (K2 _ l (proj1 (list_of_Some _ _ _) El) Nl) as (l' & ? & ?). exists l'.
      split; [by apply list_of_Some | done].
Qed.

Lemma cleanup_node_ok ix node : linked ix -> in_index ix node ->
  exists ix', cleanup_node compare alpha range maxc pfuel node ix = Ok ix' /\ frame ix ix' /\ linked ix' /\ keeps ix ix' /\
    (exists l, list_of ix' node = Ok l /\ (length l <= range)%nat) /\ (forall j, j <> node -> 0 <= j -> list_of ix' j = list_of ix j).
Proof.
  intros Hlk Hn. unfold cleanup_node. destruct (list_of_known ix (lk_ok _ Hlk) node Hn) as (l & El & _). rewrite El. cbn [mbind outcome_bind].
  case_bool_decide as Hb.
  2: { exists ix. split_and!; try done; [apply frame_refl | by intros i l' ? ?; exists l' | exists l; split; [done | lia]]. }
  pose proof (proj1 (list_of_Some _ _ _) El) as Hl. destruct (lk_lists _ Hlk _ _ Hl) as (Hnd & Hself & Hlen). rewrite Z2Nat.id in Hself by (destruct Hn; done).
  pose proof (list_known ix (lk_ok _ Hlk) node l El) as Hin.
  destruct (dummy_pool_ids ix node l ∅) as [Hdn Hdi]. set (pool := dummy_pool compare ix node l ∅) in *.
  destruct (prune_and_set ix node pool Hlk Hn) as (res & ix1 & ix' & -> & Es & F1 & L1 & K1 & E1 & N1 & R1 & _ & O1).
  - intros Hp. destruct l as [|j l]; [cbn [length] in Hb; lia|]. assert (j ∈ id <$> pool) as Hj.
    { apply Hdi. split_and!; [by left | set_solver |]. intros ->. apply Hself. by left. }
    rewrite Hp in Hj. by apply elem_of_nil in Hj.
  - done.
  - intros x Hx. assert (id x ∈ id <$> pool) as (Hx1 & _ & Hx3)%Hdi by (by apply list_elem_of_fmap_2). split; [done | by apply Hin].
  - cbn [mbind outcome_bind]. rewrite Es. exists ix'. split_and!; try done. by exists res.
Qed.

Lemma cleanup_all order : forall ix, linked ix -> Forall (in_index ix) order ->
  exists ix', foldM (cleanup_node compare alpha range maxc pfuel) order ix = Ok ix' /\ frame ix ix' /\ linked ix' /\ keeps ix ix' /\
    (forall node, node ∈ order -> exists l, list_of ix' node = Ok l /\ (length l <= range)%nat) /\
    (forall j l, 0 <= j -> list_of ix j = Ok l -> (length l <= range)%nat -> exists l', list_of ix' j = Ok l' /\ (length l' <= range)%nat).
Proof.
  induction order as [|node order IH]; intros ix Hlk Hall; cbn [foldM].
  - exists ix. split_and!; try done; [apply frame_refl | by intros i l' ? ?; exists l' | by intros j ?%elem_of_nil | by intros j l; exists l].
  - apply Forall_cons in Hall as [Hn Hall]. destruct (cleanup_node_ok ix node Hlk Hn) as (ix1 & -> & F1 & L1 & K1 & (l & El & Rl) & O1).
    cbn [mbind outcome_bind]. destruct (IH ix1 L1) as (ix' & -> & F2 & L2 & K2 & R2 & S2).
    + eapply Forall_impl; [exact Hall|]. intros j. by apply (frame_index _ _ _ F1).
    + exists ix'. split_and!; try done; [by eapply frame_trans | by eapply keeps_trans | |].
      * intros j [->|Hj]%elem_of_cons; [|by apply R2]. apply (S2 node l); [by destruct Hn | done..].
      * intros j lj Hj Ej Rj. destruct (decide (j = node)) as [->|Hne]; [by apply (S2 node l)|]. apply (S2 j lj); [done | by rewrite O1 | done].
Qed.

(** The first node to be linked finds nothing but the start node. *)
Lemma link_node_crash ix : linked ix -> in_index ix (ep ix) -> fuel_ok ix -> list_of ix (ep ix) = Ok [] ->
  link_node compare alpha range maxc Lsize sfuel pfuel (ep ix) ix = Crash.
Proof.
  intros Hlk Hep Hf Hnil. unfold link_node. destruct (expanded_ok ix (ep ix) Hlk Hep Hf) as (pool & -> & _ & _ & _ & _ & H1).
  cbn [mbind outcome_bind]. unfold mem_prune_neighbors. rewrite decide_True; [done|]. apply filter_none, Forall_forall. intros x Hx Hne.
  by apply Hne, H1.
Qed.
End facts.

(** ** The start node *)
Section entry_point.
Context {F : Type} `{!FloatOps F} (dist : Z -> F).

Lemma min_spec (l : list (Z * F)) : forall m, let r := foldl (fun m b => if dlt b.2 m.2 then b else m) m l in
  (r = m \/ r ∈ l) /\ dlt m.2 r.2 = false /\ forall b, b ∈ l -> dlt b.2 r.2 = false.
Proof.
  induction l as [|b l IH]; intros m; cbn [foldl].
  - split_and!; [by left | | by intros b ?%elem_of_nil]. destruct (dlt m.2 m.2) eqn:E; [|done]. by rewrite (dlt_asym _ _ E) in E.
  - destruct (IH (if dlt b.2 m.2 then b else m)) as (H1 & H2 & H3). cbv zeta in *. set (r := foldl _ _ l) in *.
    assert (dlt b.2 r.2 = false /\ dlt m.2 r.2 = false) as [Hb Hm].
    { destruct (dlt b.2 m.2) eqn:E; split; try done.
      - apply (dlt_ntrans r.2 b.2 m.2); [done | by apply dlt_asym].
      - by apply (dlt_ntrans r.2 m.2 b.2). }
    split_and!; [|done|].
    + rewrite elem_of_cons. destruct H1 as [->|?]; [|tauto]. destruct (dlt b.2 m.2); tauto.
    + intros b' [->|Hb']%elem_of_cons; [done | by apply H3].
Qed.

Definition bucket (i : Z) : nat := Z.to_nat ((i / 65536) mod Z.of_nat kDistNum).

Lemma bucket_lt i : (bucket i < kDistNum)%nat.
Proof. unfold bucket. pose proof (Z.mod_pos_bound (i / 65536) (Z.of_nat kDistNum)). unfold kDistNum in *. lia. Qed.

Record minima (seen : list Z) (t : list (Z * F)) : Prop := {
  mn_length : length t = kDistNum;
  mn_from : forall b, b ∈ t -> b = (0, f_max) \/ (b.1 ∈ seen /\ b.2 = dist b.1);
  mn_least : forall i, i ∈ seen -> exists b, t !! bucket i = Some b /\ dlt (dist i) b.2 = false;
}.

Lemma minima_all order : forall seen t, minima seen t -> minima (seen ++ order) (foldl (add_dist dist) t order).
Proof.
  induction order as [|i order IH]; intros seen t Hm; cbn [foldl]; [by rewrite app_nil_r|].
  replace (seen ++ i :: order) with ((seen ++ [i]) ++ order) by (by rewrite <- app_assoc). apply IH. destruct Hm as [Hl Hf Hle].
  unfold add_dist. fold (bucket i). split.
  - by rewrite length_alter.
  - intros b (j & Hj)%list_elem_of_lookup. destruct (decide (j = bucket i)) as [->|Hne].
    + rewrite list_lookup_alter_eq in Hj. destruct (t !! bucket i) as [b0|] eqn:Eb; [|done]. injection Hj as <-. unfold update_min.
      destruct (dlt (dist i) b0.2); [right; split; [apply elem_of_app; right; by left | done]|].
      destruct (Hf b0 (list_elem_of_lookup_2 _ _ _ Eb)) as [?|[? ?]]; [by left | right]. split; [apply elem_of_app; by left | done].
    + rewrite list_lookup_alter_ne in Hj by done. destruct (Hf b (list_elem_of_lookup_2 _ _ _ Hj)) as [?|[? ?]]; [by left | right].
      split; [apply elem_of_app; by left | done].
  - intros j Hj. assert (Hor : j = i \/ j ∈ seen) by (apply elem_of_app in Hj as [?|?%list_elem_of_singleton]; tauto). clear Hj.
    destruct (lookup_lt_is_Some_2 t (bucket i)) as [b0 Hb0]; [rewrite Hl; apply bucket_lt|].
    destruct (decide (bucket j = bucket i)) as [E|Hne].
    + exists (update_min dist i b0). rewrite E, list_lookup_alter_eq, Hb0. split; [done|]. unfold update_min.
      assert (Hi : dlt (dist i) (if dlt (dist i) b0.2 then (i, dist i) else b0).2 = false).
      { destruct (dlt (dist i) b0.2) eqn:E'; [|done]. cbn [snd]. destruct (dlt (dist i) (dist i)) eqn:E2; [|done]. by rewrite (dlt_asym _ _ E2) in E2. }
      destruct Hor as [->|Hj]; [done|]. destruct (Hle j Hj) as (b & Hb & Hbj). rewrite E, Hb0 in Hb. injection Hb as <-.
      destruct (dlt (dist i) b0.2) eqn:E'; [|done]. cbn [snd] in *. apply (dlt_ntrans (dist i) b0.2 (dist j)); [by apply dlt_asym | done].
    + destruct Hor as [->|Hj]; [done|]. destruct (Hle j Hj) as (b & Hb & ?). exists b. by rewrite list_lookup_alter_ne.
Qed.

Lemma calculate_entry_point_spec order : let r := calculate_entry_point dist order in
  (r = 0 /\ forall i, i ∈ order -> dlt (dist i) f_max = false) \/ (r ∈ order /\ forall i, i ∈ order -> dlt (dist i) (dist r) = false).
Proof.
  unfold calculate_entry_point. assert (Hm : minima order (foldl (add_dist dist) (replicate kDistNum (0, f_max)) order)).
  { apply (minima_all order []). split; [apply length_replicate | | by intros i ?%elem_of_nil]. intros b [-> _]%elem_of_replicate. by left. }
  set (t := foldl (add_dist dist) _ order) in *. destruct (min_spec t (0, f_max)) as (H1 & H2 & H3). cbv zeta in *. set (r := foldl _ _ t) in *.
  assert (Hle : forall i, i ∈ order -> dlt (dist i) r.2 = false).
  { intros i Hi. destruct (mn_least _ _ Hm i Hi) as (b & Hb & Hib). apply (dlt_ntrans r.2 b.2 (dist i)); [|done].
    apply H3. by eapply list_elem_of_lookup_2. }
  assert (Hr : r = (0, f_max) \/ (r.1 ∈ order /\ r.2 = dist r.1)) by (destruct H1 as [->|H1]; [by left | by apply (mn_from _ _ Hm)]).
  destruct Hr as [->|[Hin E]]; [left | right].
  - by split.
  - split; [done|]. intros i Hi. rewrite <- E. by apply Hle.
Qed.
End entry_point.

(** ** What the construction guarantees *)

(** The two prunings of the repository agree: whenever the pruning of the
    disk index (which keeps its selection in an ordered set) selects
    candidates from a pool without duplicates, the pruning of the in-memory
    index (which appends to a vector) selects the same ones, in the same
    number of rounds. *)
Theorem occlude_lists_agree {F} `{!FloatOps F} alpha range maxc djk (pool : list (Neighbor F)) n fuel :
  NoDup (id <$> pool) -> dlt alpha f_max = true ->
  (forall x y, x ∈ pool -> y ∈ pool -> exists d, djk (id x) (id y) = Ok d) -> rounds_end alpha n -> (n < fuel)%nat ->
  exists rs rs', occlude_list alpha range maxc djk fuel pool = Ok rs /\ mem_occlude_list alpha range maxc djk fuel pool = Ok rs' /\
    rs' ≡ₚ rs /\ occlude_post alpha range maxc djk pool rs.
Proof.
  intros Hnd Hm Hd Hn Hf. destruct (occlude_list_spec alpha range maxc djk pool n fuel Hnd Hd Hn Hf) as (rs & E & Hp).
  destruct (occlude_same alpha range maxc djk pool Hnd Hm fuel rs E) as (rs' & E' & Hperm). by exists rs, rs'.
Qed.

Definition line_pool : list (Neighbor F32) :=
  [ {| id := 1; distance := lit 100 0; flag := true; visited := false |};
    {| id := 2; distance := lit 400 0; flag := true; visited := false |};
    {| id := 3; distance := lit 900 0; flag := true; visited := false |} ].

Lemma occlude_lists_agree_witness : exists rs rs',
  occlude_list F32_1_2f 3 750 (row_dist line_compare line_index) 5 line_pool = Ok rs /\
  mem_occlude_list F32_1_2f 3 750 (row_dist line_compare line_index) 5 line_pool = Ok rs' /\ rs' ≡ₚ rs /\
  occlude_post F32_1_2f 3 750 (row_dist line_compare line_index) line_pool rs.
Proof.
  apply (occlude_lists_agree F32_1_2f 3 750 (row_dist line_compare line_index) line_pool 2 5); [|by vm_compute | | by vm_compute | lia].
  - apply (bool_decide_unpack _). by vm_compute.
  - intros x y _ _. by eexists.
Defined.

(** [calculate_entry_point] returns, for every order in which the threads
    deliver their distances, a vector that is at least as close to the
    centroid as every other, or vector 0 when no distance is below the
    largest [float]. *)
Theorem calculate_entry_point_correct {F} `{!FloatOps F} (dist : Z -> F) order : let r := calculate_entry_point dist order in
  (r = 0 /\ forall i, i ∈ order -> dlt (dist i) f_max = false) \/ (r ∈ order /\ forall i, i ∈ order -> dlt (dist i) (dist r) = false).
Proof. apply calculate_entry_point_spec. Qed.

Definition start_node {F} `{!FloatOps F} (dist : Z -> F) order_ep (ix : mem_index) : Z :=
  if 0 <? num_frozen_pts ix then max_points ix else calculate_entry_point dist order_ep.

Section linking.
Context {F : Type} `{!FloatOps F} (compare : list Z -> list Z -> F) (compare_sym : forall x y, compare x y = compare y x).
Context (alpha : F) (range maxc Lsize sfuel pfuel nr : nat) (Hpar : params_ok alpha range maxc Lsize pfuel nr).

Lemma set_start_ok e saturate ix : linked range ix -> linked range (set_start e saturate ix).
Proof. intros [[Hf Hl Hids] Hls]. split; [split|]; done. Qed.

Lemma start_node_in_index dist order_ep ix : 0 <= num_frozen_pts ix -> 0 <= max_points ix -> 0 < total_points ix ->
  Forall (in_index ix) order_ep -> in_index ix (start_node dist order_ep ix).
Proof.
  intros Hf Hm Ht Hall. unfold start_node. destruct (Z.ltb_spec 0 (num_frozen_pts ix)); [split; unfold total_points; lia|].
  destruct (calculate_entry_point_spec dist order_ep) as [[-> _]|[Hin _]]; [split; lia|]. rewrite Forall_forall in Hall. by apply Hall.
Qed.

Lemma link_ok dist saturate order_ep order order' ix : linked range ix ->
  (pool_fuel (Z.to_nat (total_points ix)) <= sfuel)%nat ->
  0 <= num_frozen_pts ix -> 0 <= max_points ix -> 0 < total_points ix ->
  Forall (in_index ix) order_ep -> Forall (in_use ix) order -> Forall (in_use ix) order' ->
  head order <> Some (start_node dist order_ep ix) ->
  exists ix', link compare alpha range maxc Lsize sfuel pfuel dist saturate order_ep order order' ix = Ok ix' /\
    linked range ix' /\ ix' = with_graph (final_graph ix') (width ix') (set_start (start_node dist order_ep ix) saturate ix) /\
    forall node, node ∈ order -> node ∈ order' -> exists l, list_of ix' node = Ok l /\ l <> [] /\ (length l <= range)%nat.
Proof.
  intros Hlk Hf Hfr Hmp Htp Hoe Ho Ho' Hhd. unfold link. fold (start_node dist order_ep ix).
  set (ix0 := set_start (start_node dist order_ep ix) saturate ix).
  assert (L0 : linked range ix0) by (by apply set_start_ok).
  destruct (link_all compare compare_sym alpha range maxc Lsize sfuel pfuel nr Hpar order ix0 L0) as (ix1 & -> & F1 & L1 & _ & N1);
    [exact (start_node_in_index dist order_ep ix Hfr Hmp Htp Hoe) | done | done | by right |].
  cbn [mbind outcome_bind].
  destruct (cleanup_all compare compare_sym alpha range maxc Lsize pfuel nr Hpar order' ix1 L1) as (ix2 & -> & F2 & L2 & K2 & R2 & _).
  - eapply Forall_impl; [exact Ho'|]. intros j [Hj _]. by apply (frame_index _ _ _ F1).
  - exists ix2. split_and!; [done | done | by rewrite F2, F1 |].
    intros node Hin Hin'. destruct (R2 node Hin') as (l & El & Rl), (N1 node Hin) as (l1 & El1 & Nl1).
    destruct (K2 _ l1 (proj1 (list_of_Some _ _ _) El1) Nl1) as (l' & El' & Nl'). apply list_of_Some in El'.
    exists l'. split_and!; [done | done |]. congruence.
Qed.
End linking.

(** C26. Linking builds a well-formed graph, whatever the orders in which the
    nodes are visited: if the first node to be linked is not the start node
    then no list is pruned from an empty pool, the lists that result have
    identifiers in range, no duplicates and no self loops, and every node that
    was linked and cleaned up has between one and [R] neighbours. *)
Theorem link_correct {F} `{!FloatOps F} (compare : list Z -> list Z -> F) alpha range maxc Lsize sfuel pfuel nr
    dist saturate order_ep order order' ix :
  (forall x y, compare x y = compare y x) -> params_ok alpha range maxc Lsize pfuel nr -> linked range ix ->
  (pool_fuel (Z.to_nat (total_points ix)) <= sfuel)%nat ->
  0 <= num_frozen_pts ix -> 0 <= max_points ix -> 0 < total_points ix ->
  Forall (in_index ix) order_ep -> Forall (in_use ix) order -> Forall (in_use ix) order' ->
  head order <> Some (start_node dist order_ep ix) ->
  exists ix', link compare alpha range maxc Lsize sfuel pfuel dist saturate order_ep order order' ix = Ok ix' /\
    linked range ix' /\ ep ix' = start_node dist order_ep ix /\ mdata ix' = mdata ix /\
    forall node, node ∈ order -> node ∈ order' -> exists l, list_of ix' node = Ok l /\ l <> [] /\ (length l <= range)%nat.
Proof.
  intros Hsym Hpar Hlk Hf Hfr Hmp Htp Hoe Ho Ho' Hhd.
  destruct (link_ok compare Hsym alpha range maxc Lsize sfuel pfuel nr Hpar dist saturate order_ep order order' ix) as (ix' & E & Hlk' & Fr & Hl); [done..|].
  exists ix'. split_and!; [done | done | by rewrite Fr | by rewrite Fr | done].
Qed.

(** C40. Linking fails when it begins with the start node and the start node
    has no neighbours yet: its search finds nothing but itself, and pruning an
    empty pool ends the process.  This is the sequential build of a file whose
    medoid is vector 0, or of a file with one vector. *)
Theorem link_crashes {F} `{!FloatOps F} (compare : list Z -> list Z -> F) alpha range maxc Lsize sfuel pfuel nr
    dist saturate order_ep order order' ix :
  (forall x y, compare x y = compare y x) -> params_ok alpha range maxc Lsize pfuel nr -> linked range ix ->
  (pool_fuel (Z.to_nat (total_points ix)) <= sfuel)%nat ->
  0 <= num_frozen_pts ix -> 0 <= max_points ix -> 0 < total_points ix ->
  Forall (in_index ix) order_ep -> head order = Some (start_node dist order_ep ix) ->
  list_of ix (start_node dist order_ep ix) = Ok [] ->
  link compare alpha range maxc Lsize sfuel pfuel dist saturate order_ep order order' ix = Crash.
Proof.
  intros Hsym Hpar Hlk Hf Hfr Hmp Htp Hoe Hhd Hnil. unfold link. fold (start_node dist order_ep ix).
  destruct order as [|node order]; [done|]. cbn [head] in Hhd. injection Hhd as ->. cbn [foldM].
  set (ix0 := set_start (start_node dist order_ep ix) saturate ix).
  change (start_node dist order_ep ix) with (ep ix0).
  rewrite (link_node_crash compare Hsym alpha range maxc Lsize sfuel pfuel nr Hpar ix0); [done | by apply set_start_ok | | done | exact Hnil].
  exact (start_node_in_index dist order_ep ix Hfr Hmp Htp Hoe).
Qed.

(** Four vectors on a line, before linking. *)
Definition bare_index : mem_index := with_graph (replicate 4 []) 0 line_index.
Definition to_centre (i : Z) : F32 := line_compare (row bare_index i) [25].

Lemma line_params : params_ok F32_1_2f 2 750 2 5 2.
Proof. split; [by vm_compute | by vm_compute | lia | lia | lia | by vm_compute | lia]. Qed.

Lemma bare_linked : linked 2 bare_index.
Proof.
  split; [split; [done..|]; by repeat constructor|]. intros i l Hl. change (replicate 4 [] !! i = Some l) in Hl.
  apply lookup_replicate in Hl as [-> _]. split_and!; [constructor | by intros ?%elem_of_nil | cbn [length]; lia].
Qed.

Lemma bare_order : Forall (in_index bare_index) [0; 1; 2; 3].
Proof. repeat constructor; by vm_compute. Qed.

Lemma bare_in_use : Forall (in_use bare_index) [0; 1; 2; 3].
Proof. repeat constructor; by vm_compute. Qed.

Lemma link_correct_witness : exists ix',
  link line_compare F32_1_2f 2 750 2 30 5 to_centre false [0; 1; 2; 3] [0; 1; 2; 3] [0; 1; 2; 3] bare_index = Ok ix' /\
  linked 2 ix' /\ ep ix' = start_node to_centre [0; 1; 2; 3] bare_index /\ mdata ix' = mdata bare_index /\
  forall node, node ∈ [0; 1; 2; 3] -> node ∈ [0; 1; 2; 3] -> exists l, list_of ix' node = Ok l /\ l <> [] /\ (length l <= 2)%nat.
Proof.
  apply (link_correct line_compare F32_1_2f 2 750 2 30 5 2);
    [apply line_sym | apply line_params | apply bare_linked | | done | done | done | apply bare_order | apply bare_in_use | apply bare_in_use |];
    apply (bool_decide_unpack _); by vm_compute.
Defined.

Lemma link_crashes_witness :
  link line_compare F32_1_2f 2 750 2 30 5 (fun i => line_compare (row bare_index i) [10]) false [0; 1; 2; 3] [0; 1; 2; 3] [0; 1; 2; 3]
    bare_index = Crash.
Proof.
  apply (link_crashes line_compare F32_1_2f 2 750 2 30 5 2);
    [apply line_sym | apply line_params | apply bare_linked | | done | done | done | apply bare_order | |];
    apply (bool_decide_unpack _); by vm_compute.
Defined.
