(* ===== verification/MemUpdate.v ===== *)
(** * Updating the in-memory graph

    The incremental operations of [src/index.cpp]: tags, reserving and growing,
    [insert_point], lazy deletion.  One operation at a time: the locks of
    [Index] order the operations. *)
From S2P Require Import Prelude Neighbor CandidatePool Float32 Prune MemIndex MemBuild.

(** Writing the fields. *)
Definition with_data (d : list (list Z)) (ix : mem_index) : mem_index := {|
  final_graph := final_graph ix; mdata := d; nd := nd ix; max_points := max_points ix;
  num_frozen_pts := num_frozen_pts ix; width := width ix; ep := ep ix; dynamic_index := dynamic_index ix;
  enable_tags := enable_tags ix; saturate_graph := saturate_graph ix; tag_to_location := tag_to_location ix;
  location_to_tag := location_to_tag ix; delete_set := delete_set ix; empty_slots := empty_slots ix;
  lazy_done := lazy_done ix; eager_done := eager_done ix; data_compacted := data_compacted ix |}.

Definition with_tags (t2l l2t : gmap Z Z) (ix : mem_index) : mem_index := {|
  final_graph := final_graph ix; mdata := mdata ix; nd := nd ix; max_points := max_points ix;
  num_frozen_pts := num_frozen_pts ix; width := width ix; ep := ep ix; dynamic_index := dynamic_index ix;
  enable_tags := enable_tags ix; saturate_graph := saturate_graph ix; tag_to_location := t2l;
  location_to_tag := l2t; delete_set := delete_set ix; empty_slots := empty_slots ix;
  lazy_done := lazy_done ix; eager_done := eager_done ix; data_compacted := data_compacted ix |}.

(** [_nd], [_delete_set], [_empty_slots] and the flags. *)
Definition with_slots (n : Z) (del emp : gset Z) (lazy eager compacted : bool) (ix : mem_index) : mem_index := {|
  final_graph := final_graph ix; mdata := mdata ix; nd := n; max_points := max_points ix;
  num_frozen_pts := num_frozen_pts ix; width := width ix; ep := ep ix; dynamic_index := dynamic_index ix;
  enable_tags := enable_tags ix; saturate_graph := saturate_graph ix; tag_to_location := tag_to_location ix;
  location_to_tag := location_to_tag ix; delete_set := del; empty_slots := emp;
  lazy_done := lazy; eager_done := eager; data_compacted := compacted |}.

Definition with_points (m e : Z) (ix : mem_index) : mem_index := {|
  final_graph := final_graph ix; mdata := mdata ix; nd := nd ix; max_points := m;
  num_frozen_pts := num_frozen_pts ix; width := width ix; ep := e; dynamic_index := dynamic_index ix;
  enable_tags := enable_tags ix; saturate_graph := saturate_graph ix; tag_to_location := tag_to_location ix;
  location_to_tag := location_to_tag ix; delete_set := delete_set ix; empty_slots := empty_slots ix;
  lazy_done := lazy_done ix; eager_done := eager_done ix; data_compacted := data_compacted ix |}.

(** [set_row]: a row is written with [memset] and [memcpy]. *)
Definition set_row (i : Z) (v : list Z) (ix : mem_index) : outcome mem_index :=
  if decide (Z.to_nat i < length (mdata ix))%nat then Ok (with_data (<[Z.to_nat i := v]> (mdata ix)) ix) else Crash.

(** The slots from [_nd] to the end. *)
Definition free_slots (ix : mem_index) : gset Z := list_to_set (seqZ (nd ix) (max_points ix - nd ix)).

(** ** Tags *)
Definition get_vector_by_tag (tag : Z) (ix : mem_index) : option (list Z) := row ix <$> tag_to_location ix !! tag.

Definition get_active_tags (ix : mem_index) : gset Z := dom (tag_to_location ix).

Definition enable_delete (ix : mem_index) : outcome mem_index :=
  _ ← assert_ (enable_tags ix);
  let emp := if data_compacted ix then empty_slots ix ∪ free_slots ix else empty_slots ix in
  Ok (with_slots (nd ix) (delete_set ix) emp false false (data_compacted ix) ix).

(** The three statements that forget a tag. *)
Definition drop_tag (tag l : Z) (ix : mem_index) : mem_index :=
  with_tags (delete tag (tag_to_location ix)) (delete l (location_to_tag ix))
    (with_slots (nd ix) ({[l]} ∪ delete_set ix) (empty_slots ix) true (eager_done ix) (data_compacted ix) ix).

Definition set_lazy (ix : mem_index) : mem_index :=
  with_slots (nd ix) (delete_set ix) (empty_slots ix) true (eager_done ix) (data_compacted ix) ix.

(** [lazy_delete] of one tag, with its return code. *)
Definition lazy_delete (tag : Z) (ix : mem_index) : outcome (Z * mem_index) :=
  if eager_done ix && negb (data_compacted ix) then Ok (-2, ix) else
  match tag_to_location ix !! tag with
  | None => Ok (-1, set_lazy ix)
  | Some l => _ ← assert_ (l <? max_points ix); Ok (0, drop_tag tag l ix)
  end.

(** [lazy_delete] of a set of tags, in the order of the iteration: the tags
    that were not found are collected. *)
Definition delete_tag (tag : Z) (t : mem_index * list Z) : mem_index * list Z :=
  match tag_to_location t.1 !! tag with
  | None => (t.1, t.2 ++ [tag])
  | Some l => (drop_tag tag l t.1, t.2)
  end.

Definition lazy_delete_all (tags failed_tags : list Z) (ix : mem_index) : Z * mem_index * list Z :=
  if bool_decide (0 < length failed_tags)%nat then (-3, ix, failed_tags)
  else if eager_done ix && negb (data_compacted ix) then (-2, ix, failed_tags)
  else let '(ix, failed_tags) := foldl (fun t tag => delete_tag tag t) (set_lazy ix, failed_tags) tags in (0, ix, failed_tags).

(** ** Slots *)
Section slots.
(** The order in which [_empty_slots] is iterated; [_aligned_dim]. *)
Context (set_order : gset Z -> list Z) (aligned_dim : nat).

(** [None] is the return value -1. *)
Definition reserve_location (ix : mem_index) : outcome (option Z * mem_index) :=
  if max_points ix <=? nd ix then Ok (None, ix)
  else if data_compacted ix then
    Ok (Some (nd ix), with_slots (nd ix + 1) (delete_set ix) (empty_slots ix ∖ {[nd ix]}) (lazy_done ix) (eager_done ix) (data_compacted ix) ix)
  else
    _ ← assert_ (bool_decide (size (empty_slots ix) <> 0%nat));
    _ ← assert_ (Z.of_nat (size (empty_slots ix)) + nd ix =? max_points ix);
    match set_order (empty_slots ix) with
    | [] => Crash
    | l :: _ => Ok (Some l, with_slots (nd ix + 1) (delete_set ix ∖ {[l]}) (empty_slots ix ∖ {[l]}) (lazy_done ix) (eager_done ix) (data_compacted ix) ix)
    end.

(** The first [n] lists with [old] renamed. *)
Definition rename_in (old new : Z) (n : nat) (g : list (list Z)) : list (list Z) :=
  ((fun l : list Z => (fun j => if decide (j = old) then new else j) <$> l) <$> take n g) ++ drop n g.

(** The copy of the list takes its length from the list of slot [_nd]. *)
Definition reposition_point (old new : Z) (ix : mem_index) : outcome mem_index :=
  let g := rename_in old new (Z.to_nat (nd ix)) (final_graph ix) in
  if decide (Z.to_nat new < length g)%nat then
    let g := <[Z.to_nat new := []]> g in
    match g !! Z.to_nat (nd ix), g !! Z.to_nat old with
    | Some l_nd, Some l_old =>
        if decide (length l_nd <= length l_old)%nat then
          let g := <[Z.to_nat new := take (length l_nd) l_old]> g in
          let g := <[Z.to_nat old := []]> g in
          let v := row ix old in
          ix ← set_row new v (with_graph g (width ix) ix);
          set_row old (replicate aligned_dim 0) ix
        else Crash
    | _, _ => Crash
    end
  else Crash.

Definition reposition_frozen_point_to_end (ix : mem_index) : outcome mem_index :=
  if (num_frozen_pts ix =? 0) || (nd ix =? max_points ix) then Ok ix
  else
    ix ← reposition_point (nd ix) (max_points ix) ix;
    Ok (with_points (max_points ix) (u32 (max_points ix)) ix).

(** [std::vector::resize] of the graph, and the longer array of rows; the new
    rows are not initialised, and are not read before they are written. *)
Definition resize_list {A} (n : nat) (x : A) (l : list A) : list A := take n l ++ replicate (n - length l) x.

Definition resize (new_max_points : Z) (ix : mem_index) : outcome mem_index :=
  _ ← assert_ (bool_decide (size (empty_slots ix) = 0%nat));
  let n := Z.to_nat (u32 (new_max_points + 1)) in
  let ix := with_data (resize_list n [] (mdata ix)) ix in
  let ix := with_graph (resize_list n [] (final_graph ix)) (width ix) ix in
  ix ← reposition_point (u32 (max_points ix)) new_max_points ix;
  let ix := with_points new_max_points new_max_points ix in
  Ok (with_slots (nd ix) (delete_set ix) (empty_slots ix ∪ free_slots ix) (lazy_done ix) (eager_done ix) (data_compacted ix) ix).
End slots.

(** [(size_t) (_max_points * 1.5f)]: [round24] rounds to a multiple of a power
    of two with 24 bits, ties to even. *)
Definition round24 (x : Z) : Z :=
  let d := 2 ^ Z.max 0 (Z.log2 x - 23) in
  let q := x / d in
  let r := x mod d in
  (if 2 * r <? d then q else if d <? 2 * r then q + 1 else if Z.even q then q else q + 1) * d.

Definition grown (max_points : Z) : Z := u32 (round24 (3 * round24 max_points) / 2).


(** The rounding is that of binary32. *)
Definition float_int (x : Z) : option Z :=
  match f32 (lit x 0) with SpecFloat.S754_finite false m e => Some (Z.shiftl (Zpos m) e) | _ => None end.
Example round24_is_float : Forall (fun x => float_int x = Some (round24 x))
  [1; 5; 16777215; 16777217; 16777219; 33554434; 123456789; 999999999; 4294967295; 123456789123].
Proof. repeat constructor. Qed.

(** ** Insertion *)
Section insert.
Context {F : Type} `{!FloatOps F}.
Context (compare : list Z -> list Z -> F) (alpha : F) (range maxc Lsize sfuel pfuel : nat).
Context (set_order : gset Z -> list Z) (dim aligned_dim : nat).

Definition padded (point : list Z) : list Z := take dim point ++ replicate (aligned_dim - dim) 0.

Fixpoint erase_id (location : Z) (pool : list (Neighbor F)) : list (Neighbor F) :=
  match pool with
  | [] => []
  | x :: pool => if decide (id x = location) then pool else x :: erase_id location pool
  end.

(** A slot, after growing the index if it is full. *)
Definition reserve_or_grow (ix : mem_index) : outcome (Z * mem_index) :=
  '(loc, ix) ← reserve_location set_order ix;
  match loc with
  | Some l => Ok (l, ix)
  | None =>
      ix ← (if max_points ix <=? nd ix then resize aligned_dim (grown (max_points ix)) ix else Ok ix);
      '(loc, ix) ← reserve_location set_order ix;
      match loc with Some l => Ok (l, ix) | None => Crash end
  end.

Definition link_point (location : Z) (ix : mem_index) : outcome mem_index :=
  pool ← get_expanded_nodes compare Lsize sfuel ix location [];
  '(pruned_list, ix) ← mem_prune_neighbors compare alpha range maxc pfuel ix location (erase_id location pool);
  _ ← assert_ (Z.of_nat (length (final_graph ix)) =? total_points ix);
  _ ← assert_ (bool_decide (pruned_list <> []));
  ix ← set_list location pruned_list ix;
  _ ← assert_ (bool_decide (length pruned_list <= range)%nat);
  inter_insert compare alpha range maxc pfuel location pruned_list ix.

Definition insert_point (point : list Z) (tag : Z) (ix : mem_index) : outcome mem_index :=
  let ix := match tag_to_location ix !! tag with
            | Some l => if enable_tags ix then drop_tag tag l ix else ix
            | None => ix
            end in
  '(location, ix) ← reserve_or_grow ix;
  let ix := with_tags (<[tag := location]> (tag_to_location ix)) (<[location := tag]> (location_to_tag ix)) ix in
  ix ← set_row location (padded point) ix;
  link_point location ix.
End insert.

(** ** The invariant of a dynamic index *)
Definition live (ix : mem_index) (i : Z) : Prop := 0 <= i < nd ix \/ i = max_points ix.

Record dyn_ok (range : nat) (ix : mem_index) : Prop := {
  dy_linked : linked range ix;
  dy_rows : Z.of_nat (length (mdata ix)) = total_points ix;
  dy_frozen : num_frozen_pts ix = 1;
  dy_ep : ep ix = max_points ix;
  dy_flags : dynamic_index ix = true /\ enable_tags ix = true /\ eager_done ix = false /\ data_compacted ix = true;
  dy_nd : 0 <= nd ix <= max_points ix;
  dy_max : 0 < max_points ix < 2 ^ 32 - 1;
  dy_tags : forall t l, tag_to_location ix !! t = Some l <-> location_to_tag ix !! l = Some t;
  (** The slots below [_nd] have a tag or are deleted; the others are free. *)
  dy_slots : forall l, 0 <= l < nd ix <-> is_Some (location_to_tag ix !! l) \/ l ∈ delete_set ix;
  dy_disj : forall l, l ∈ delete_set ix -> location_to_tag ix !! l = None;
  dy_empty : empty_slots ix = free_slots ix;
  (** A node that is in use refers to nodes that are in use. *)
  dy_live : within (live ix) ix;
  dy_bare : forall i, nd ix <= i < max_points ix -> list_of ix i = Ok [];
  dy_lazy : delete_set ix <> ∅ -> lazy_done ix = true;
}.

Lemma elem_free_slots ix i : i ∈ free_slots ix <-> nd ix <= i < max_points ix.
Proof. unfold free_slots. rewrite elem_of_list_to_set, elem_of_seqZ. lia. Qed.

Lemma drop_tag_ok range ix tag l : dyn_ok range ix -> tag_to_location ix !! tag = Some l -> dyn_ok range (drop_tag tag l ix).
Proof.
  intros [Hlk Hr Hfr Hep Hfl Hnd Hmx Ht Hs Hd He Hlv Hb Hl] Htag. pose proof (proj1 (Ht _ _) Htag) as Hloc.
  split; try done; unfold drop_tag; cbn [tag_to_location location_to_tag delete_set with_tags with_slots nd].
  - by destruct Hlk as [[? ? ?] ?].
  - intros t i. rewrite !lookup_delete_Some, Ht. split; intros [Hne Hi]; (split; [|done]).
    + intros ->. rewrite Hloc in Hi. congruence.
    + intros ->. apply Ht in Hi. congruence.
  - intros i. rewrite Hs, elem_of_union, elem_of_singleton. destruct (decide (i = l)) as [->|Hne].
    + rewrite Hloc. split; [by right; left | by left; eexists].
    + rewrite lookup_delete_ne by done. split; [intros [?|?]; [by left | by right; right] | intros [?|[?|?]]; [by left | done | by right]].
  - intros i [->%elem_of_singleton|Hi]%elem_of_union; [apply lookup_delete_eq|]. destruct (decide (i = l)) as [->|?]; [apply lookup_delete_eq|].
    rewrite lookup_delete_ne by done. by apply Hd.
Qed.

(** Changing the graph only. *)
Lemma relink_ok range ix ix' : dyn_ok range ix -> frame ix ix' -> linked range ix' -> within (live ix) ix' ->
  (forall i, nd ix <= i < max_points ix -> list_of ix' i = list_of ix i) -> dyn_ok range ix'.
Proof.
  intros [Hlk Hr Hfr Hep Hfl Hnd Hmx Ht Hs Hd He Hlv Hb Hl] F Lk W O. rewrite F in *. split; try done.
  intros i Hi. cbn [with_graph nd max_points] in Hi. rewrite O by done. by apply Hb.
Qed.

Lemma set_row_ok range ix i v : dyn_ok range ix -> in_index ix i ->
  exists ix', set_row i v ix = Ok ix' /\ dyn_ok range ix' /\ ix' = with_data (<[Z.to_nat i := v]> (mdata ix)) ix.
Proof.
  intros [Hlk Hr Hfr Hep Hfl Hnd Hmx Ht Hs Hd He Hlv Hb Hl] Hi. unfold set_row. unfold in_index in Hi. rewrite decide_True by lia.
  eexists. split; [done|]. split; [|done]. split; try done; [by destruct Hlk as [[? ? ?] ?]|].
  cbn [mdata with_data]. by rewrite length_insert.
Qed.

(** ** Growing *)
Lemma round24_low x : 0 < x -> 2 ^ 24 * x - x <= 2 ^ 24 * round24 x.
Proof.
  intros Hx. unfold round24. set (k := Z.max 0 (Z.log2 x - 23)). set (d := 2 ^ k).
  assert (Hd : 0 < d) by (apply Z.pow_pos_nonneg; lia).
  pose proof (Z.div_mod x d ltac:(lia)) as E. pose proof (Z.mod_pos_bound x d Hd) as Hr.
  set (q := x / d) in *. set (r := x mod d) in *. destruct (Z.log2_spec x Hx) as [Hlo _].
  assert (Hk : k = 0 \/ 2 ^ 23 * d <= x).
  { destruct (decide (k = 0)) as [?|Hk]; [by left | right]. unfold d. rewrite <- Z.pow_add_r by lia.
    replace (23 + k) with (Z.log2 x) by lia. done. }
  assert (Hb : 2 * r <= d -> 2 ^ 24 * x - x <= 2 ^ 24 * (q * d)).
  { intros Hr2. destruct Hk as [Hk|Hk]; [|nia]. assert (d = 1) by (unfold d; by rewrite Hk). nia. }
  destruct (2 * r <? d) eqn:E1; [apply Z.ltb_lt in E1; apply Hb; lia|]. destruct (d <? 2 * r) eqn:E2; [apply Z.ltb_lt in E2; nia|].
  apply Z.ltb_ge in E1, E2. destruct (Z.even q); [apply Hb; lia | nia].
Qed.

Lemma round24_high x : 0 < x -> 2 ^ 24 * round24 x <= 2 ^ 24 * x + x.
Proof.
  intros Hx. unfold round24. set (k := Z.max 0 (Z.log2 x - 23)). set (d := 2 ^ k).
  assert (Hd : 0 < d) by (apply Z.pow_pos_nonneg; lia).
  pose proof (Z.div_mod x d ltac:(lia)) as E. pose proof (Z.mod_pos_bound x d Hd) as Hr.
  set (q := x / d) in *. set (r := x mod d) in *. destruct (Z.log2_spec x Hx) as [Hlo _].
  assert (Hk : d = 1 \/ 2 ^ 23 * d <= x).
  { destruct (decide (k = 0)) as [Hk|Hk]; [left; unfold d; by rewrite Hk | right]. unfold d. rewrite <- Z.pow_add_r by lia.
    replace (23 + k) with (Z.log2 x) by lia. done. }
  assert (Hb : d <= 2 * r -> 2 ^ 24 * ((q + 1) * d) <= 2 ^ 24 * x + x).
  { intros Hr2. destruct Hk as [Hk|Hk]; nia. }
  destruct (2 * r <? d) eqn:E1; [nia|]. destruct (d <? 2 * r) eqn:E2; [apply Z.ltb_lt in E2; apply Hb; lia|].
  apply Z.ltb_ge in E1, E2. destruct (Z.even q); [nia | apply Hb; lia].
Qed.

Lemma grown_more n : 2 <= n <= 2 ^ 31 -> n < grown n < 2 ^ 32 - 1.
Proof.
  intros Hn. pose proof (round24_low n). pose proof (round24_high n). set (a := round24 n) in *.
  pose proof (round24_low (3 * a)). pose proof (round24_high (3 * a)). unfold grown. fold a. set (b := round24 (3 * a)) in *.
  destruct (decide (n < 4)) as [Hlt|Hge].
  - assert (n = 2 \/ n = 3) as [E|E] by lia; subst a b; rewrite E; by vm_compute.
  - pose proof (Z.div_mod b 2 ltac:(lia)). pose proof (Z.mod_pos_bound b 2 ltac:(lia)). rewrite u32_small; lia.
Qed.

(** ** Renaming *)
Lemma rename_lookup old new n g i : rename_in old new n g !! i =
  (if decide (i < n)%nat then (fun l : list Z => (fun j => if decide (j = old) then new else j) <$> l) <$> g !! i else g !! i).
Proof.
  unfold rename_in. destruct (decide (i < n)%nat) as [Hi|Hi].
  - destruct (decide (i < length g)%nat) as [Hl|Hl].
    + rewrite lookup_app_l by (rewrite length_fmap, length_take; lia). by rewrite list_lookup_fmap, lookup_take_lt.
    + rewrite lookup_ge_None_2; [|rewrite length_app, length_fmap, length_take, length_drop; lia]. by rewrite lookup_ge_None_2 by lia.
  - destruct (decide (i < length g)%nat) as [Hl|Hl].
    + rewrite lookup_app_r by (rewrite length_fmap, length_take; lia). rewrite length_fmap, length_take, lookup_drop. f_equal. lia.
    + rewrite !lookup_ge_None_2; [done | lia | rewrite length_app, length_fmap, length_take, length_drop; lia].
Qed.

Lemma length_rename old new n g : length (rename_in old new n g) = length g.
Proof. unfold rename_in. rewrite length_app, length_fmap, length_take, length_drop. lia. Qed.

Definition renamed (old new : Z) (l : list Z) : list Z := (fun j => if decide (j = old) then new else j) <$> l.

Lemma elem_of_renamed old new l i : i ∈ renamed old new l <-> (i ∈ l /\ i <> old) \/ (old ∈ l /\ i = new).
Proof.
  unfold renamed. rewrite list_elem_of_fmap. split.
  - intros (j & -> & Hj). case_decide as Hd; [subst; by right | by left].
  - intros [[Hi Hne]|[Ho ->]]; [exists i; by rewrite decide_False | exists old; by rewrite decide_True].
Qed.

Lemma renamed_nodup old new l : new ∉ l -> NoDup l -> NoDup (renamed old new l).
Proof.
  intros Hnew. apply NoDup_fmap_2_strong. intros x y Hx Hy. do 2 case_decide; [congruence | by intros -> | by intros -> | done].
Qed.

Lemma renamed_absent old new l : old ∉ l -> renamed old new l = l.
Proof.
  intros Ho. unfold renamed. rewrite <- (list_fmap_id l) at 2. apply list_fmap_ext. intros i x Hx. apply decide_False.
  intros ->. by apply Ho, list_elem_of_lookup_2 with i.
Qed.

(** Moving the point of slot [old] to slot [new]. *)
Record moved (old new : Z) (l : list Z) (ix ix' : mem_index) : Prop := {
  mv_frame : ix' = with_data (mdata ix') (with_graph (final_graph ix') (width ix) ix);
  mv_length : length (final_graph ix') = length (final_graph ix);
  mv_rows_length : length (mdata ix') = length (mdata ix);
  mv_new : list_of ix' new = Ok l /\ row ix' new = row ix old;
  mv_old : list_of ix' old = Ok [];
  mv_low : forall i li, 0 <= i < old -> list_of ix i = Ok li -> list_of ix' i = Ok (renamed old new li);
  mv_high : forall i, old < i -> i <> new -> list_of ix' i = list_of ix i;
  mv_rows : forall i, 0 <= i -> i <> old -> i <> new -> row ix' i = row ix i;
}.

Lemma reposition_nd aligned_dim new ix l : 0 <= nd ix < new -> new < Z.of_nat (length (final_graph ix)) -> new < Z.of_nat (length (mdata ix)) ->
  list_of ix (nd ix) = Ok l ->
  exists ix', reposition_point aligned_dim (nd ix) new ix = Ok ix' /\ moved (nd ix) new l ix ix'.
Proof.
  intros Hn Hg Hm Hl. apply list_of_Some in Hl. unfold reposition_point. rewrite decide_True by (rewrite length_rename; lia).
  rewrite list_lookup_insert_ne, rename_lookup, decide_False, Hl by lia. cbn beta iota. rewrite decide_True by lia.
  rewrite firstn_all, list_insert_insert_eq. unfold set_row. cbn [mdata with_graph]. rewrite decide_True by lia. cbn [mbind outcome_bind].
  cbn [mdata with_data]. rewrite decide_True by (rewrite length_insert; lia).
  eexists. split; [reflexivity|]. split; unfold row, list_of; cbn [final_graph mdata with_data with_graph].
  - done.
  - by rewrite !length_insert, length_rename.
  - by rewrite !length_insert.
  - rewrite list_lookup_insert_ne by lia. rewrite list_lookup_insert_eq by (rewrite length_rename; lia). split; [done|].
    rewrite list_lookup_total_insert_ne by lia. by rewrite list_lookup_total_insert_eq by lia.
  - by rewrite list_lookup_insert_eq by (rewrite length_insert, length_rename; lia).
  - intros i li Hi Hli. rewrite !list_lookup_insert_ne by lia. rewrite rename_lookup, decide_True by lia.
    destruct (final_graph ix !! Z.to_nat i); [|done]. by injection Hli as ->.
  - intros i Hi Hne. rewrite !list_lookup_insert_ne by lia. by rewrite rename_lookup, decide_False by lia.
  - intros i Hi H1 H2. by rewrite !list_lookup_total_insert_ne by lia.
Qed.

Lemma resize_list_lookup {A} n (x : A) l i : (length l <= n)%nat -> (i < n)%nat ->
  resize_list n x l !! i = Some (default x (l !! i)).
Proof.
  intros Hl Hi. unfold resize_list. rewrite take_ge by lia. destruct (decide (i < length l)%nat) as [Hlt|Hge].
  - rewrite lookup_app_l by lia. by destruct (lookup_lt_is_Some_2 l i Hlt) as [y ->].
  - rewrite lookup_app_r, lookup_replicate_2 by lia. by rewrite lookup_ge_None_2 by lia.
Qed.

Lemma resize_list_length {A} n (x : A) l : (length l <= n)%nat -> length (resize_list n x l) = n.
Proof. intros Hl. unfold resize_list. rewrite take_ge, length_app, length_replicate by lia. lia. Qed.


Lemma resize_moves range aligned_dim ix new : dyn_ok range ix -> nd ix = max_points ix -> max_points ix < new < 2 ^ 32 - 1 ->
  exists ix1 ix2 l, resize aligned_dim new ix = Ok (with_slots (nd ix) (delete_set ix) (free_slots (with_points new new ix2)) (lazy_done ix) (eager_done ix)
      (data_compacted ix) (with_points new new ix2)) /\ list_of ix (nd ix) = Ok l /\ moved (nd ix) new l ix1 ix2 /\
    ix1 = with_graph (final_graph ix1) (width ix) (with_data (mdata ix1) ix) /\
    Z.of_nat (length (final_graph ix1)) = new + 1 /\ Z.of_nat (length (mdata ix1)) = new + 1 /\
    (forall i, 0 <= i <= nd ix -> list_of ix1 i = list_of ix i /\ row ix1 i = row ix i) /\
    (forall i, nd ix < i <= new -> list_of ix1 i = Ok []).
Proof.
  intros Hok Hfull Hnew. destruct Hok as [Hlk Hr Hfr Hep Hfl Hnd Hmx Ht Hs Hd He Hlv Hb Hl]. destruct Hlk as [[Hf0 Hlen Hids] Hls].
  assert (Hemp : empty_slots ix = ∅).
  { rewrite He. apply leibniz_equiv. intros i. rewrite elem_free_slots. split; [lia | set_solver]. }
  unfold total_points in *. rewrite Hfr in *. unfold resize. rewrite Hemp, size_empty. cbn [assert_ mbind outcome_bind].
  rewrite (u32_small (new + 1)) by lia. set (n := Z.to_nat (new + 1)). assert (Hn : Z.of_nat n = new + 1) by lia. clearbody n.
  cbn [max_points with_graph with_data]. rewrite u32_small by lia.
  destruct (lookup_lt_is_Some_2 (final_graph ix) (Z.to_nat (nd ix))) as [l El]; [lia|].
  set (ix1 := with_graph _ _ _).
  assert (Hg1 : forall i, (i < n)%nat -> final_graph ix1 !! i = Some (default [] (final_graph ix !! i))).
  { intros i. apply resize_list_lookup. cbn [final_graph with_data]. lia. }
  assert (Hm1 : forall i, (i < n)%nat -> mdata ix1 !! i = Some (default [] (mdata ix !! i))) by (intros i; apply resize_list_lookup; lia).
  assert (Hgl : length (final_graph ix1) = n) by (apply resize_list_length; cbn [final_graph with_data]; lia).
  assert (Hml : length (mdata ix1) = n) by (apply resize_list_length; lia).
  assert (Efr : ix1 = with_graph (final_graph ix1) (width ix) (with_data (mdata ix1) ix)) by done.
  assert (E1 : nd ix1 = nd ix) by done. clearbody ix1. rewrite <- Hfull, <- E1.
  destruct (reposition_nd aligned_dim new ix1 l) as (ix2 & -> & Hmv); [lia | lia | lia | |].
  { apply list_of_Some. rewrite Hg1 by lia. by rewrite E1, El. }
  cbn [mbind outcome_bind]. exists ix1, ix2, l. rewrite E1 in *. split_and!; try done; try lia.
  - assert (nd ix2 = nd ix /\ delete_set ix2 = delete_set ix /\ empty_slots ix2 = ∅ /\ lazy_done ix2 = lazy_done ix /\
      eager_done ix2 = eager_done ix /\ data_compacted ix2 = data_compacted ix) as (F1 & F2 & F3 & F4 & F5 & F6)
      by (rewrite (mv_frame _ _ _ _ _ Hmv), Efr; done).
    cbn [nd delete_set empty_slots lazy_done eager_done data_compacted with_points]. by rewrite F1, F2, F3, F4, F5, F6, (left_id_L ∅ (∪)).
  - by apply list_of_Some.
  - intros i Hi. split.
    + unfold list_of. rewrite Hg1 by lia. destruct (lookup_lt_is_Some_2 (final_graph ix) (Z.to_nat i)) as [li ->]; [lia | done].
    + unfold row. apply list_lookup_total_correct. rewrite Hm1 by lia. f_equal.
      destruct (lookup_lt_is_Some_2 (mdata ix) (Z.to_nat i)) as [li Eli]; [lia|]. rewrite Eli. symmetry. by apply list_lookup_total_correct.
  - intros i Hi. apply list_of_Some. rewrite Hg1 by lia. by rewrite (lookup_ge_None_2 (final_graph ix)) by lia.
Qed.

Lemma list_of_nat ix (i : nat) l : final_graph ix !! i = Some l <-> list_of ix (Z.of_nat i) = Ok l.
Proof. rewrite list_of_Some. by rewrite Nat2Z.id. Qed.

(** A graph is well formed if its lists are. *)
Definition good_list (range : nat) (ix : mem_index) (i : Z) (l : list Z) : Prop :=
  NoDup l /\ i ∉ l /\ (length l <= SLACK range)%nat /\ Forall (in_index ix) l.

Lemma linked_intro range ix : 0 <= num_frozen_pts ix -> Z.of_nat (length (final_graph ix)) = total_points ix ->
  (forall i l, in_index ix i -> list_of ix i = Ok l -> good_list range ix i l) -> linked range ix.
Proof.
  intros Hf Hl Hg. assert (H : forall i l, final_graph ix !! i = Some l -> good_list range ix (Z.of_nat i) l).
  { intros i l Hi. apply Hg; [|by apply list_of_nat]. apply lookup_lt_Some in Hi. unfold in_index. lia. }
  split; [split|]; [done | done | |].
  - apply Forall_lookup_2. intros i l Hi. by destruct (H i l Hi) as (_ & _ & _ & ?).
  - intros i l Hi. by destruct (H i l Hi) as (? & ? & ? & _).
Qed.

Lemma linked_list range ix i l : linked range ix -> in_index ix i -> list_of ix i = Ok l -> good_list range ix i l.
Proof.
  intros [[Hf Hl Hids] Hls] Hi Hli. apply list_of_Some in Hli. destruct (Hls _ _ Hli) as (? & ? & ?).
  rewrite Z2Nat.id in * by (destruct Hi; done). split_and!; try done. rewrite Forall_lookup in Hids. by apply (Hids _ _ Hli).
Qed.

Lemma good_nil range ix i : good_list range ix i [].
Proof. split_and!; [constructor | by intros ?%elem_of_nil | cbn [length]; lia | constructor]. Qed.

Lemma within_intro (P : Z -> Prop) ix : (forall i, P i -> 0 <= i) -> (forall i l, P i -> list_of ix i = Ok l -> Forall P l) -> within P ix.
Proof. intros H0 H i l Hi HP. apply (H (Z.of_nat i)); [done | by apply list_of_nat]. Qed.

Lemma within_list (P : Z -> Prop) ix i l : within P ix -> 0 <= i -> P i -> list_of ix i = Ok l -> Forall P l.
Proof. intros H Hi HP Hl. apply list_of_Some in Hl. apply (H _ _ Hl). by rewrite Z2Nat.id. Qed.

(** The frozen point has a new number. *)
Lemma renamed_good range ix ix' i l new : good_list range ix i l -> ~ in_index ix new -> i <> new ->
  (forall j, in_index ix j -> j <> max_points ix -> in_index ix' j) -> in_index ix' new ->
  good_list range ix' i (renamed (max_points ix) new l).
Proof.
  intros (H1 & H2 & H3 & H4) Hnew Hi Hin Hin'. rewrite Forall_forall in H4. split_and!.
  - apply renamed_nodup; [|done]. intros ?%H4. done.
  - rewrite elem_of_renamed. intros [[? _]|[_ ?]]; done.
  - unfold renamed. by rewrite length_fmap.
  - apply Forall_forall. intros j [[Hj Hne]|[_ ->]]%elem_of_renamed; [apply Hin; [by apply H4 | done] | done].
Qed.

Lemma resize_ok range aligned_dim ix new : dyn_ok range ix -> nd ix = max_points ix -> max_points ix < new < 2 ^ 32 - 1 ->
  exists ix', resize aligned_dim new ix = Ok ix' /\ dyn_ok range ix' /\ max_points ix' = new /\ nd ix' = nd ix /\
    tag_to_location ix' = tag_to_location ix /\ location_to_tag ix' = location_to_tag ix /\ delete_set ix' = delete_set ix /\
    (forall i, 0 <= i < nd ix -> row ix' i = row ix i).
Proof.
  intros Hok Hfull Hnew. destruct (resize_moves range aligned_dim ix new Hok Hfull Hnew) as (ix1 & ix2 & l & -> & El & Hmv & Efr & Hgl & Hml & Hlow & Hhigh).
  destruct Hok as [Hlk Hr Hfr Hep Hfl Hnd Hmx Ht Hs Hd He Hlv Hb Hl]. unfold total_points in *.
  eexists. split; [reflexivity|]. set (ix' := with_slots _ _ _ _ _ _ _).
  assert (Eg : forall i, list_of ix' i = list_of ix2 i) by done. assert (Er : forall i, row ix' i = row ix2 i) by done.
  assert (Em : mdata ix' = mdata ix2 /\ final_graph ix' = final_graph ix2) by done.
  assert (Ei : ix' = with_slots (nd ix) (delete_set ix) (empty_slots ix') (lazy_done ix) (eager_done ix) (data_compacted ix)
     (with_points new new (with_data (mdata ix') (with_graph (final_graph ix') (width ix) ix)))).
  { unfold ix'. rewrite (mv_frame _ _ _ _ _ Hmv), Efr. done. }
  assert (Ee : empty_slots ix' = free_slots ix').
  { unfold ix', free_slots. cbn [empty_slots with_slots nd max_points with_points]. by rewrite (mv_frame _ _ _ _ _ Hmv), Efr. }
  clearbody ix'. destruct Em as [Em1 Em2].
  assert (Hmp : max_points ix' = new /\ nd ix' = nd ix /\ num_frozen_pts ix' = 1 /\ ep ix' = new) by (rewrite Ei; done).
  destruct Hmp as (E1 & E2 & E3 & E4).
  assert (Hrows : forall i, 0 <= i < nd ix -> row ix' i = row ix i).
  { intros i Hi. rewrite Er, (mv_rows _ _ _ _ _ Hmv) by lia. apply Hlow. lia. }
  assert (Hlow' : forall i li, 0 <= i < nd ix -> list_of ix i = Ok li -> list_of ix' i = Ok (renamed (max_points ix) new li)).
  { intros i li Hi Hli. rewrite Eg, <- Hfull. apply (mv_low _ _ _ _ _ Hmv); [done|]. destruct (Hlow i) as [-> _]; [lia | done]. }
  assert (Hmid : forall i, nd ix <= i < new -> list_of ix' i = Ok []).
  { intros i Hi. rewrite Eg. destruct (decide (i = nd ix)) as [->|]; [apply Hmv|]. rewrite (mv_high _ _ _ _ _ Hmv) by lia. apply Hhigh. lia. }
  assert (Hend : list_of ix' new = Ok l) by (rewrite Eg; apply Hmv).
  assert (Hlg : good_list range ix (nd ix) l) by (apply linked_list; [done | unfold in_index, total_points; lia | done]).
  assert (Hin : forall j, in_index ix j -> j <> max_points ix -> in_index ix' j) by (unfold in_index, total_points; lia).
  assert (Hnew' : in_index ix' new) by (unfold in_index, total_points; lia).
  assert (Hll : forall i li, in_index ix i -> i <> nd ix -> list_of ix i = Ok li -> good_list range ix' i (renamed (max_points ix) new li)).
  { intros i li Hi Hne Hli. apply renamed_good; [by apply linked_list | unfold in_index, total_points; lia | unfold in_index, total_points in Hi; lia | done | done]. }
  split_and!; try done; [|by rewrite Ei..].
  split; rewrite ?E1, ?E2, ?E3, ?E4; try done; try (by rewrite Ei); try lia.
  - apply linked_intro; [lia | unfold total_points; rewrite Em2, (mv_length _ _ _ _ _ Hmv); lia |].
    intros i li Hi Hli. unfold in_index, total_points in Hi.
    destruct (decide (i < nd ix)) as [Hlt|Hge]; [|destruct (decide (i = new)) as [->|Hne]].
    + destruct (list_of_known ix (lk_ok _ _ Hlk) i) as (l0 & El0 & _); [unfold in_index, total_points; lia|].
      rewrite (Hlow' i l0) in Hli by (done || lia). injection Hli as <-. apply Hll; [unfold in_index, total_points; lia | lia | done].
    + rewrite Hend in Hli. injection Hli as <-. destruct Hlg as (A & B & C & D). rewrite Forall_forall in D. split_and!; try done.
      * intros Hn. specialize (D _ Hn). unfold in_index, total_points in D. lia.
      * apply Forall_forall. intros j Hj. apply Hin; [by apply D|]. intros ->. apply B. by rewrite Hfull.
    + rewrite Hmid in Hli by lia. injection Hli as <-. apply good_nil.
  - unfold total_points. rewrite Em1, (mv_rows_length _ _ _ _ _ Hmv). lia.
  - apply within_intro; [unfold live; lia|]. unfold live. rewrite E1, E2. intros i li [Hi| ->] Hli.
    + destruct (list_of_known ix (lk_ok _ _ Hlk) i) as (l0 & El0 & _); [unfold in_index, total_points; lia|].
      rewrite (Hlow' i l0) in Hli by (done || lia). injection Hli as <-.
      pose proof (within_list (live ix) ix i l0 Hlv ltac:(lia) ltac:(by left) El0) as HF. rewrite Forall_forall in HF |- *.
      intros j [[Hj Hne]|[_ ->]]%elem_of_renamed; [|by right]. destruct (HF j Hj); [by left | done].
    + rewrite Hend in Hli. injection Hli as <-. rewrite <- Hfull in *. destruct Hlg as (_ & B & _ & D). rewrite Forall_forall in D |- *.
      intros j Hj. left. specialize (D j Hj). unfold in_index, total_points in D. destruct (decide (j = nd ix)) as [->|]; [done | lia].
Qed.

(** ** Reserving a slot *)
Definition bump (ix : mem_index) : mem_index :=
  with_slots (nd ix + 1) (delete_set ix) (empty_slots ix ∖ {[nd ix]}) (lazy_done ix) (eager_done ix) (data_compacted ix) ix.

Record same_points (ix ix' : mem_index) : Prop := {
  sp_nd : nd ix' = nd ix;
  sp_t2l : tag_to_location ix' = tag_to_location ix;
  sp_l2t : location_to_tag ix' = location_to_tag ix;
  sp_del : delete_set ix' = delete_set ix;
  sp_rows : forall i, 0 <= i < nd ix -> row ix' i = row ix i;
}.

Lemma reserve_free range set_order ix : dyn_ok range ix -> nd ix < max_points ix -> reserve_location set_order ix = Ok (Some (nd ix), bump ix).
Proof.
  intros Hok Hlt. destruct (dy_flags _ _ Hok) as (_ & _ & _ & Hc). unfold reserve_location. rewrite (proj2 (Z.leb_gt _ _) Hlt), Hc.
  unfold bump. by rewrite Hc.
Qed.

Definition room (ix : mem_index) : Prop := nd ix < max_points ix \/ 2 <= max_points ix <= 2 ^ 31.
Definition next_max (ix : mem_index) : Z := if max_points ix <=? nd ix then grown (max_points ix) else max_points ix.

Lemma reserve_or_grow_ok range set_order aligned_dim ix : dyn_ok range ix -> room ix ->
  exists ix', reserve_or_grow set_order aligned_dim ix = Ok (nd ix, bump ix') /\ dyn_ok range ix' /\ max_points ix' = next_max ix /\
    nd ix < max_points ix' /\ same_points ix ix'.
Proof.
  intros Hok Hroom. unfold reserve_or_grow, next_max. destruct (Z.leb_spec (max_points ix) (nd ix)) as [Hfull|Hlt].
  - pose proof (dy_nd _ _ Hok). destruct Hroom as [?|Hm]; [lia|]. pose proof (grown_more (max_points ix) Hm) as Hg.
    assert (E0 : reserve_location set_order ix = Ok (None, ix)) by (unfold reserve_location; by rewrite (proj2 (Z.leb_le _ _) Hfull)).
    rewrite E0. cbn [mbind outcome_bind]. rewrite (proj2 (Z.leb_le _ _) Hfull).
    destruct (resize_ok range aligned_dim ix (grown (max_points ix)) Hok) as (ix' & -> & Hok' & E1 & E2 & E3 & E4 & E5 & E6); [lia | lia |].
    cbn [mbind outcome_bind]. rewrite (reserve_free range set_order ix' Hok') by lia. cbn [mbind outcome_bind]. rewrite E2.
    exists ix'. split_and!; [by rewrite <- E2 | done | done | lia | by split].
  - rewrite (reserve_free range set_order ix Hok Hlt). cbn [mbind outcome_bind]. exists ix. by split_and!.
Qed.

Definition with_tag (tag l : Z) (ix : mem_index) : mem_index := with_tags (<[tag := l]> (tag_to_location ix)) (<[l := tag]> (location_to_tag ix)) ix.

Lemma take_slot_ok range ix tag : dyn_ok range ix -> nd ix < max_points ix -> tag_to_location ix !! tag = None ->
  dyn_ok range (with_tag tag (nd ix) (bump ix)).
Proof.
  intros [Hlk Hr Hfr Hep Hfl Hnd Hmx Ht Hs Hd He Hlv Hb Hl] Hlt Htag.
  assert (Hfree : location_to_tag ix !! nd ix = None /\ nd ix ∉ delete_set ix).
  { split; [destruct (location_to_tag ix !! nd ix) eqn:E; [|done]; assert (0 <= nd ix < nd ix); [|lia]; apply Hs; left; by rewrite E |].
    intros Hin. assert (0 <= nd ix < nd ix); [|lia]. apply Hs. by right. }
  destruct Hfree as [Hf1 Hf2].
  split; try done; unfold with_tag, bump; cbn [tag_to_location location_to_tag delete_set empty_slots with_tags with_slots nd max_points].
  - by destruct Hlk as [[? ? ?] ?].
  - lia.
  - intros t i. destruct (decide (t = tag)) as [->|Hne].
    + rewrite lookup_insert_eq. destruct (decide (i = nd ix)) as [->|Hi]; [by rewrite lookup_insert_eq|]. rewrite lookup_insert_ne by done.
      split; [congruence|]. intros H%Ht. congruence.
    + rewrite lookup_insert_ne by done. destruct (decide (i = nd ix)) as [->|Hi]; [|by rewrite lookup_insert_ne].
      rewrite lookup_insert_eq. split; [intros H%Ht; congruence | congruence].
  - intros i. destruct (decide (i = nd ix)) as [->|Hi].
    + rewrite lookup_insert_eq. split; [by left; eexists | lia].
    + rewrite lookup_insert_ne, <- Hs by done. lia.
  - intros i Hi. rewrite lookup_insert_ne by (by intros <-). by apply Hd.
  - rewrite He. apply leibniz_equiv. intros i. rewrite elem_of_difference, elem_of_singleton, elem_free_slots.
    unfold free_slots. cbn [nd max_points with_tags with_slots]. rewrite elem_of_list_to_set, elem_of_seqZ. lia.
  - apply within_intro; unfold live; cbn [nd max_points with_tags with_slots]; [lia|]. intros i l Hi Hli.
    destruct (decide (i = nd ix)) as [->|Hne].
    + assert (E : list_of ix (nd ix) = Ok []) by (apply Hb; lia). change (list_of ix (nd ix) = Ok l) in Hli. rewrite E in Hli. injection Hli as <-. constructor.
    + change (list_of ix i = Ok l) in Hli. eapply Forall_impl; [apply (within_list (live ix) ix i l Hlv ltac:(lia) ltac:(unfold live; lia) Hli)|].
      unfold live. intros j. lia.
  - intros i Hi. apply Hb. lia.
Qed.

(** ** Linking a new point *)
Section link_point.
Context {F : Type} `{!FloatOps F}.
Context (compare : list Z -> list Z -> F) (compare_sym : forall x y, compare x y = compare y x).
Context (alpha : F) (range maxc Lsize sfuel pfuel nr : nat) (Hpar : params_ok alpha range maxc Lsize pfuel nr).

Lemma erase_id_spec l (pool : list (Neighbor F)) : NoDup (id <$> pool) ->
  NoDup (id <$> erase_id l pool) /\ forall x, x ∈ erase_id l pool <-> x ∈ pool /\ id x <> l.
Proof.
  induction pool as [|y pool IH]; cbn [erase_id]; intros Hnd; [split; [constructor|]; intros x; rewrite !elem_of_nil; tauto|].
  apply NoDup_cons in Hnd as [Hy Hnd]. destruct (IH Hnd) as [I1 I2]. case_decide as Hd.
  - split; [done|]. intros x. rewrite elem_of_cons. split; [|intros [[->|?] ?]; done]. intros Hx. split; [by right|]. intros E. apply Hy.
    rewrite Hd, <- E. by apply list_elem_of_fmap_2.
  - split.
    + rewrite fmap_cons. constructor; [|done]. intros (x & E & Hx)%list_elem_of_fmap. apply I2 in Hx as [Hx _]. apply Hy. rewrite E.
      by apply list_elem_of_fmap_2.
    + intros x. rewrite !elem_of_cons, I2. split; [intros [->|[? ?]]; tauto | tauto].
Qed.

Lemma live_in_index ix i : dyn_ok range ix -> live ix i -> in_index ix i.
Proof. intros Hok. pose proof (dy_nd _ _ Hok). pose proof (dy_frozen _ _ Hok). unfold live, in_index, total_points. lia. Qed.

Lemma expanded_live ix node : dyn_ok range ix -> (pool_fuel (Z.to_nat (total_points ix)) <= sfuel)%nat ->
  exists pool, get_expanded_nodes compare Lsize sfuel ix node [] = Ok pool /\ NoDup (id <$> pool) /\ (forall x, x ∈ pool -> live ix (id x)) /\
    max_points ix ∈ id <$> pool.
Proof.
  intros Hok Hf. unfold get_expanded_nodes. rewrite decide_True by done. pose proof (pk_L _ _ _ _ _ _ Hpar).
  pose proof (dy_nd _ _ Hok). pose proof (dy_ep _ _ Hok) as Hep.
  destruct (iterate_within compare compare_sym ix (lk_ok _ _ (dy_linked _ _ Hok)) (row ix node) Lsize sfuel Hf (live ix) true [ep ix])
    as (pool & sp & expanded & -> & Hfp & Hfst & HP).
  - intros i. by apply live_in_index.
  - intros i l j Hi Hl Hj. pose proof (within_list (live ix) ix i l (dy_live _ _ Hok) ltac:(unfold live in Hi; lia) Hi Hl) as HF.
    rewrite Forall_forall in HF. by apply HF.
  - done.
  - apply NoDup_singleton.
  - cbn [length]. lia.
  - intros i ->%list_elem_of_singleton. by right.
  - cbn [mbind outcome_bind]. exists expanded. split_and!; [done | apply Hfp | done |]. rewrite <- Hep. by apply Hfst.
Qed.

Lemma set_list_inv i l ix ix' : set_list i l ix = Ok ix' ->
  length (final_graph ix') = length (final_graph ix) /\ total_points ix' = total_points ix.
Proof. unfold set_list. case_decide; [|done]. intros [= <-]. split; [apply length_insert | done]. Qed.

Lemma link_point_ok ix l : dyn_ok range ix -> 0 <= l < nd ix -> (pool_fuel (Z.to_nat (total_points ix)) <= sfuel)%nat ->
  exists ix', link_point compare alpha range maxc Lsize sfuel pfuel l ix = Ok ix' /\ frame ix ix' /\ dyn_ok range ix' /\
    exists out, list_of ix' l = Ok out /\ out <> [] /\ (length out <= range)%nat.
Proof.
  intros Hok Hl Hf. pose proof (dy_linked _ _ Hok) as Hlk. pose proof (dy_nd _ _ Hok) as Hnd. pose proof (dy_frozen _ _ Hok) as Hfr.
  unfold link_point. destruct (expanded_live ix l Hok Hf) as (pool & -> & Hpn & Hlive & Hep). cbn [mbind outcome_bind].
  destruct (erase_id_spec l pool Hpn) as [He1 He2]. set (pool' := erase_id l pool) in *.
  assert (Hli : in_index ix l) by (apply live_in_index; [done | by left]).
  destruct (prune_and_set compare alpha range maxc Lsize pfuel nr Hpar ix l pool' Hlk Hli) as (res & ix1 & ix2 & -> & Es & F1 & L1 & K1 & E1 & N1 & R1 & S1 & O1).
  - intros E. apply list_elem_of_fmap in Hep as (x & Ex & Hx). assert (x ∈ pool') as Hx' by (apply He2; split; [done | lia]).
    rewrite E in Hx'. by apply elem_of_nil in Hx'.
  - done.
  - intros x [Hx Hne]%He2. split; [done|]. by apply live_in_index, Hlive.
  - cbn [mbind outcome_bind]. destruct (set_list_inv _ _ _ _ Es) as [Eg Et]. pose proof (mg_length _ (lk_ok _ _ L1)) as Hlen.
    rewrite Eg, Et in Hlen. rewrite (proj2 (Z.eqb_eq _ _) Hlen), bool_decide_eq_true_2, Es by done. cbn [assert_ mbind outcome_bind].
    rewrite bool_decide_eq_true_2 by done. cbn [assert_ mbind outcome_bind].
    assert (Hres : forall j, j ∈ res -> live ix j /\ j <> l).
    { intros j Hj. destruct (S1 j Hj) as [? (x & -> & [Hx _]%He2)%list_elem_of_fmap]. split; [by apply Hlive | done]. }
    assert (W1 : within (live ix) ix2).
    { apply within_intro; [unfold live; lia|]. intros i li Hi Hli'. destruct (decide (i = l)) as [->|Hne].
      - rewrite E1 in Hli'. injection Hli' as <-. apply Forall_forall. intros j Hj. by apply Hres.
      - assert (0 <= i) by (unfold live in Hi; lia). rewrite O1 in Hli' by done. by apply (within_list _ ix i li (dy_live _ _ Hok)). }
    destruct (inter_insert_ok compare compare_sym alpha range maxc Lsize pfuel nr Hpar l res ix2 L1) as (ix' & -> & F2 & L2 & K2 & E2 & O2 & W2).
    + split; [by apply (frame_index _ _ _ F1) | rewrite F1; cbn; lia].
    + intros j Hj. destruct (Hres j Hj). split; [apply (frame_index _ _ _ F1); by apply live_in_index | done].
    + done.
    + exists ix'. split; [done|]. assert (F3 : frame ix ix') by (by eapply frame_trans). split; [done|]. split.
      * apply (relink_ok range ix ix' Hok F3 L2); [apply W2; [by left | done]|]. intros i Hi.
        rewrite O2, O1; [done | lia | lia | intros Hi'; apply Hres in Hi' as [? _]; unfold live in *; lia | lia].
      * exists res. split; [|done]. rewrite O2; [done | by intros [_ ?]%Hres | lia].
Qed.
End link_point.

(** The old point of a tag is deleted lazily. *)
Definition forget_tag (tag : Z) (ix : mem_index) : mem_index :=
  match tag_to_location ix !! tag with Some l => drop_tag tag l ix | None => ix end.

Lemma forget_tag_ok range ix tag : dyn_ok range ix -> dyn_ok range (forget_tag tag ix) /\ tag_to_location (forget_tag tag ix) !! tag = None.
Proof.
  intros Hok. unfold forget_tag. destruct (tag_to_location ix !! tag) as [l|] eqn:E; [|done].
  split; [by apply drop_tag_ok | apply lookup_delete_eq].
Qed.

Lemma forget_tag_frame tag ix : nd (forget_tag tag ix) = nd ix /\ max_points (forget_tag tag ix) = max_points ix /\
  mdata (forget_tag tag ix) = mdata ix /\ forall l, <[tag := l]> (tag_to_location (forget_tag tag ix)) = <[tag := l]> (tag_to_location ix).
Proof.
  unfold forget_tag. destruct (tag_to_location ix !! tag) as [l|] eqn:E; [|done]. split_and!; try done. intros l'. apply insert_delete_eq.
Qed.

(** C23. Inserting a point into a dynamic index whose slots have room or can
    grow always succeeds, keeps the invariant of the index (the two tag maps
    are inverse, every slot is tagged, deleted or free, no node in use refers
    to a free slot, lists are bounded), puts the point into slot [_nd], gives
    it between one and [R] neighbours, and leaves the other points as they
    were; the earlier point of the same tag is marked as deleted. *)
Theorem insert_point_correct {F} `{!FloatOps F} (compare : list Z -> list Z -> F) alpha range maxc Lsize sfuel pfuel nr
    set_order dim aligned_dim point tag ix :
  (forall x y, compare x y = compare y x) -> params_ok alpha range maxc Lsize pfuel nr ->
  dyn_ok range ix -> room ix -> (pool_fuel (Z.to_nat (next_max ix + 1)) <= sfuel)%nat ->
  exists ix', insert_point compare alpha range maxc Lsize sfuel pfuel set_order dim aligned_dim point tag ix = Ok ix' /\
    dyn_ok range ix' /\ nd ix' = nd ix + 1 /\ max_points ix' = next_max ix /\
    tag_to_location ix' = <[tag := nd ix]> (tag_to_location ix) /\
    delete_set ix' = delete_set (forget_tag tag ix) /\
    row ix' (nd ix) = padded dim aligned_dim point /\ (forall i, 0 <= i < nd ix -> row ix' i = row ix i) /\
    exists out, list_of ix' (nd ix) = Ok out /\ out <> [] /\ (length out <= range)%nat.
Proof.
  intros Hsym Hpar Hok Hroom Hf. destruct (dy_flags _ _ Hok) as (_ & Hen & _). unfold insert_point. rewrite Hen. fold (forget_tag tag ix).
  destruct (forget_tag_ok range ix tag Hok) as [Hok0 Htag0]. destruct (forget_tag_frame tag ix) as (En & Em & Ed & Et).
  set (ix0 := forget_tag tag ix) in *. assert (Hroom0 : room ix0) by (unfold room in *; by rewrite En, Em).
  assert (Enm : next_max ix0 = next_max ix) by (unfold next_max; by rewrite En, Em).
  destruct (reserve_or_grow_ok range set_order aligned_dim ix0 Hok0 Hroom0) as (ix1 & -> & Hok1 & Em1 & Hlt & [S1 S2 S3 S4 S5]).
  cbn [mbind outcome_bind]. rewrite <- S1 in Hlt.
  assert (Htag1 : tag_to_location ix1 !! tag = None) by (by rewrite S2).
  pose proof (take_slot_ok range ix1 tag Hok1 Hlt Htag1) as Hok2. fold (with_tag tag (nd ix0) (bump ix1)). rewrite <- S1.
  set (ix2 := with_tag tag (nd ix1) (bump ix1)) in *. pose proof (dy_nd _ _ Hok1) as Hnd.
  assert (Hi : 0 <= nd ix1 < nd ix2) by (cbn; lia).
  destruct (set_row_ok range ix2 (nd ix1) (padded dim aligned_dim point) Hok2) as (ix3 & -> & Hok3 & E3); [apply (live_in_index range); [done | by left]|].
  cbn [mbind outcome_bind]. pose proof (dy_frozen _ _ Hok3) as Hfr. pose proof (dy_rows _ _ Hok2) as Hrows.
  assert (nd ix3 = nd ix1 + 1 /\ max_points ix3 = next_max ix) as [En3 Em3] by (rewrite E3, <- Enm, <- Em1; done).
  destruct (link_point_ok compare Hsym alpha range maxc Lsize sfuel pfuel nr Hpar ix3 (nd ix1) Hok3) as (ix' & -> & Fr & Hok' & Hout);
    [lia | unfold total_points; by rewrite Em3, Hfr |].
  assert (Erow : forall i, row ix' i = <[Z.to_nat (nd ix1) := padded dim aligned_dim point]> (mdata ix1) !!! Z.to_nat i) by (intros i; by rewrite Fr, E3).
  change (Z.of_nat (length (mdata ix1)) = total_points ix2) in Hrows. pose proof (dy_rows _ _ Hok1) as Hrows1. unfold total_points in Hrows1. pose proof (dy_frozen _ _ Hok1).
  exists ix'. rewrite <- En, <- S1 in *. split_and!; try done; try (by rewrite Fr).
  - rewrite Fr, E3. cbn. rewrite S2. apply Et.
  - rewrite Fr, E3. exact S4.
  - rewrite Erow. apply list_lookup_total_insert_eq. lia.
  - intros i Hii. rewrite Erow, list_lookup_total_insert_ne by lia. fold (row ix1 i). rewrite S5 by lia. unfold row. by rewrite Ed.
Qed.

(** An index for two points on a line, before the first insertion. *)
Definition empty_index (m : nat) : mem_index := {|
  final_graph := replicate (S m) []; mdata := replicate m [] ++ [[25]]; nd := 0; max_points := Z.of_nat m; num_frozen_pts := 1;
  width := 0; ep := Z.of_nat m; dynamic_index := true; enable_tags := true; saturate_graph := false;
  tag_to_location := ∅; location_to_tag := ∅; delete_set := ∅; empty_slots := list_to_set (seqZ 0 (Z.of_nat m));
  lazy_done := false; eager_done := false; data_compacted := true |}.

Lemma empty_index_ok m : (0 < m)%nat -> Z.of_nat m < 2 ^ 32 - 1 -> dyn_ok 2 (empty_index m).
Proof.
  intros Hm Hmx. assert (Hl : forall i l, list_of (empty_index m) i = Ok l -> l = []).
  { intros i l Hi%list_of_Some. by apply lookup_replicate in Hi as [-> _]. }
  assert (Hlk : linked 2 (empty_index m)).
  { apply linked_intro; [done | unfold total_points; cbn [final_graph empty_index max_points num_frozen_pts]; rewrite length_replicate; lia |].
    intros i l _ ->%Hl. apply good_nil. }
  split; cbn [nd max_points empty_index num_frozen_pts delete_set location_to_tag tag_to_location]; try done; try lia.
  - unfold total_points. cbn [mdata empty_index max_points num_frozen_pts]. rewrite length_app, length_replicate. cbn [length]. lia.
  - intros l. rewrite lookup_empty. split; [lia | intros [[? ?]|?]; [done | set_solver]].
  - unfold free_slots. cbn [nd max_points empty_index empty_slots]. by rewrite Z.sub_0_r.
  - apply within_intro; [unfold live; cbn; lia|]. intros i l _ ->%Hl. constructor.
  - intros i Hi. apply list_of_Some. cbn [final_graph empty_index]. apply lookup_replicate_2. lia.
Qed.

Lemma insert_point_witness : exists ix',
  insert_point line_compare F32_1_2f 2 750 2 30 5 elements 1 8 [7] 42 (empty_index 2) = Ok ix' /\
  dyn_ok 2 ix' /\ nd ix' = nd (empty_index 2) + 1 /\ max_points ix' = next_max (empty_index 2) /\
  tag_to_location ix' = <[42 := nd (empty_index 2)]> (tag_to_location (empty_index 2)) /\
  delete_set ix' = delete_set (forget_tag 42 (empty_index 2)) /\
  row ix' (nd (empty_index 2)) = padded 1 8 [7] /\ (forall i, 0 <= i < nd (empty_index 2) -> row ix' i = row (empty_index 2) i) /\
  exists out, list_of ix' (nd (empty_index 2)) = Ok out /\ out <> [] /\ (length out <= 2)%nat.
Proof.
  apply (insert_point_correct line_compare F32_1_2f 2 750 2 30 5 2);
    [apply line_sym | apply line_params | apply empty_index_ok; lia | left; cbn; lia | apply (bool_decide_unpack _); by vm_compute].
Defined.

(** Three insertions into an index for two points. *)
Example index_grows : exists ix',
  foldM (fun p => insert_point line_compare F32_1_2f 2 750 2 60 5 elements 1 1 [p] p) [7; 30; 40] (empty_index 2) = Ok ix' /\
  max_points ix' = 3 /\ mdata ix' = [[7]; [30]; [40]; [25]] /\ final_graph ix' = [[3]; [3; 2]; [1]; [0; 1]].
Proof. eexists. split; [by vm_compute|]. split_and!; by vm_compute. Qed.

(** ** An index that cannot grow *)
Lemma resize_inv aligned_dim n ix ix' : resize aligned_dim n ix = Ok ix' -> max_points ix' = n /\ nd ix' = nd ix.
Proof.
  unfold resize. intros (? & _ & H)%bind_Ok_inv. apply bind_Ok_inv in H as (ix2 & H & [= <-]). split; [done|]. cbn.
  unfold reposition_point in H. destruct (decide _) in H; [|done]. destruct (_ !! _) in H; [|done]. destruct (_ !! _) in H; [|done]. destruct (decide _) in H; [|done].
  apply bind_Ok_inv in H as (ix3 & Ha & Hb). unfold set_row in Ha, Hb. destruct (decide _) in Ha; [|done]. injection Ha as <-.
  destruct (decide _) in Hb; [|done]. by injection Hb as <-.
Qed.

(** A full index for one point cannot grow: 1.5 times one is truncated to
    one, and the insertion ends the process after the second try to reserve a
    slot. *)
Theorem insert_into_full_index_of_one {F} `{!FloatOps F} (compare : list Z -> list Z -> F) alpha range maxc Lsize sfuel pfuel
    set_order dim aligned_dim point tag ix :
  max_points ix = 1 -> 1 <= nd ix ->
  insert_point compare alpha range maxc Lsize sfuel pfuel set_order dim aligned_dim point tag ix = Crash.
Proof.
  intros Hm Hn. unfold insert_point. set (ix0 := match tag_to_location ix !! tag with Some _ => _ | None => _ end).
  assert (max_points ix0 = 1 /\ nd ix0 = nd ix) as [Hm0 Hn0] by (unfold ix0; destruct (_ !! _); [destruct (enable_tags ix)|]; done).
  assert (Hnone : forall ix1, max_points ix1 = 1 -> nd ix1 = nd ix -> reserve_location set_order ix1 = Ok (None, ix1)).
  { intros ix1 E1 E2. unfold reserve_location. by rewrite E1, E2, (proj2 (Z.leb_le _ _) Hn). }
  unfold reserve_or_grow. rewrite (Hnone ix0 Hm0 Hn0). cbn [mbind outcome_bind]. rewrite Hm0, Hn0, (proj2 (Z.leb_le _ _) Hn).
  change (grown 1) with 1. destruct (resize aligned_dim 1 ix0) as [ix1|] eqn:E; [|done]. apply resize_inv in E as [E1 E2].
  cbn [mbind outcome_bind]. rewrite (Hnone ix1) by congruence. done.
Qed.

Definition full_index : mem_index := with_tag 42 0 (bump (empty_index 1)).

Lemma insert_into_full_index_witness :
  insert_point line_compare F32_1_2f 2 750 2 30 5 elements 1 8 [9] 43 full_index = Crash.
Proof. apply insert_into_full_index_of_one; [done | by apply Z.leb_le]. Defined.

(** ** Lazy deletion *)
Lemma set_lazy_ok range ix : dyn_ok range ix -> dyn_ok range (set_lazy ix).
Proof. intros [Hlk Hr Hfr Hep Hfl Hnd Hmx Ht Hs Hd He Hlv Hb Hl]. by split; try done; destruct Hlk as [[? ? ?] ?]. Qed.

Lemma filter_ext_in {A} (P Q : A -> Prop) `{!forall x, Decision (P x), !forall x, Decision (Q x)} (l : list A) :
  (forall x, x ∈ l -> P x <-> Q x) -> filter P l = filter Q l.
Proof.
  induction l as [|x l IH]; intros Hpq; [done|]. rewrite !filter_cons. pose proof (Hpq x ltac:(by left)). rewrite IH by (intros y Hy; apply Hpq; by right).
  do 2 case_decide; tauto.
Qed.

Lemma filter_delete_tag (m : gmap Z Z) tag tags :
  filter (fun tl => tl.1 ∉ tags) (delete tag m) = filter (fun tl => tl.1 ∉ tag :: tags) m.
Proof.
  apply map_eq. intros t. apply option_eq. intros l. rewrite !map_lookup_filter_Some, lookup_delete_Some. cbn [fst].
  rewrite not_elem_of_cons. naive_solver.
Qed.

Lemma delete_tags_ok range tags : forall ix failed, dyn_ok range ix -> NoDup tags ->
  exists ix', foldl (fun t tag => delete_tag tag t) (ix, failed) tags = (ix', failed ++ filter (fun t => tag_to_location ix !! t = None) tags) /\
    dyn_ok range ix' /\ tag_to_location ix' = filter (fun tl => tl.1 ∉ tags) (tag_to_location ix) /\ mdata ix' = mdata ix /\
    final_graph ix' = final_graph ix /\ nd ix' = nd ix /\
    (forall l, l ∈ delete_set ix' <-> l ∈ delete_set ix \/ exists t, t ∈ tags /\ tag_to_location ix !! t = Some l).
Proof.
  induction tags as [|tag tags IH]; intros ix failed Hok Hnd; cbn [foldl].
  - exists ix. rewrite filter_nil, app_nil_r. split_and!; try done.
    + symmetry. apply map_filter_id. intros i x _. apply not_elem_of_nil.
    + intros l. split; [by left | intros [?|(t & ?%elem_of_nil & _)]; done].
  - apply NoDup_cons in Hnd as [Hni Hnd]. unfold delete_tag at 2. cbn [fst snd]. rewrite filter_cons.
    destruct (tag_to_location ix !! tag) as [l|] eqn:E.
    + rewrite decide_False by done. destruct (IH (drop_tag tag l ix) failed) as (ix' & -> & Hok' & Et & Ed & Eg & En & Hdel); [by apply drop_tag_ok | done |].
      assert (Hlk : forall t, t ∈ tags -> tag_to_location (drop_tag tag l ix) !! t = tag_to_location ix !! t).
      { intros t Ht. apply lookup_delete_ne. by intros <-. }
      exists ix'. split_and!; try done.
      * do 2 f_equal. apply filter_ext_in. intros t Ht. by rewrite Hlk.
      * rewrite Et. apply filter_delete_tag.
      * intros l'. rewrite Hdel. change (delete_set (drop_tag tag l ix)) with ({[l]} ∪ delete_set ix). rewrite elem_of_union, elem_of_singleton. split.
        -- intros [[->|?]|(t & Ht & Hl)]; [right; exists tag; split; [by left | done] | by left |]. rewrite Hlk in Hl by done. right. exists t. split; [by right | done].
        -- intros [?|(t & [->|Ht]%elem_of_cons & Hl)]; [tauto | left; left; congruence |]. right. exists t. by rewrite Hlk.
    + rewrite decide_True by done. destruct (IH ix (failed ++ [tag]) Hok Hnd) as (ix' & -> & Hok' & Et & Ed & Eg & En & Hdel).
      exists ix'. rewrite <- app_assoc. split_and!; try done.
      * rewrite Et. rewrite <- filter_delete_tag. by rewrite delete_id.
      * intros l. rewrite Hdel. split; intros [?|(t & Ht & Hl)]; [by left | right; exists t; split; [by right | done] | by left |].
        apply elem_of_cons in Ht as [->|Ht]; [congruence|]. right. by exists t.
Qed.

(** Deleting a set of tags, in any order of the iteration, forgets the
    tags that exist, marks exactly their slots as deleted, reports the tags
    that do not exist, keeps the invariant, and touches neither the vectors
    nor the graph; deleting a single tag is the same with a return code. *)
Theorem lazy_delete_correct range ix tags : dyn_ok range ix -> NoDup tags ->
  (exists ix', lazy_delete_all tags [] ix = (0, ix', filter (fun t => tag_to_location ix !! t = None) tags) /\
    dyn_ok range ix' /\ tag_to_location ix' = filter (fun tl => tl.1 ∉ tags) (tag_to_location ix) /\
    mdata ix' = mdata ix /\ final_graph ix' = final_graph ix /\ nd ix' = nd ix /\
    forall l, l ∈ delete_set ix' <-> l ∈ delete_set ix \/ exists t, t ∈ tags /\ tag_to_location ix !! t = Some l) /\
  (forall tag, lazy_delete tag ix = Ok (if decide (is_Some (tag_to_location ix !! tag)) then 0 else -1, (lazy_delete_all [tag] [] ix).1.2)).
Proof.
  intros Hok Hnd. destruct (dy_flags _ _ Hok) as (_ & _ & He & _). unfold lazy_delete_all, lazy_delete. rewrite He. split.
  - cbn [length andb]. rewrite bool_decide_eq_false_2 by lia. destruct (delete_tags_ok range tags (set_lazy ix) [] (set_lazy_ok range ix Hok) Hnd) as (ix' & -> & H).
    by exists ix'.
  - intros tag. cbn [andb length]. rewrite bool_decide_eq_false_2 by lia. cbn [foldl]. unfold delete_tag. cbn [fst snd set_lazy tag_to_location with_slots].
    destruct (tag_to_location ix !! tag) as [l|] eqn:E; [|done].
    rewrite decide_True by done. pose proof (dy_slots _ _ Hok l) as Hs. pose proof (dy_nd _ _ Hok). apply (dy_tags _ _ Hok) in E.
    rewrite (proj2 (Z.ltb_lt _ _)); [done|]. assert (0 <= l < nd ix) by (apply Hs; left; by eexists). lia.
Qed.

Lemma lazy_delete_witness :
  (exists ix', lazy_delete_all [42; 43] [] full_index = (0, ix', filter (fun t => tag_to_location full_index !! t = None) [42; 43]) /\
    dyn_ok 2 ix' /\ tag_to_location ix' = filter (fun tl => tl.1 ∉ [42; 43]) (tag_to_location full_index) /\
    mdata ix' = mdata full_index /\ final_graph ix' = final_graph full_index /\ nd ix' = nd full_index /\
    forall l, l ∈ delete_set ix' <-> l ∈ delete_set full_index \/ exists t, t ∈ [42; 43] /\ tag_to_location full_index !! t = Some l) /\
  (forall tag, lazy_delete tag full_index =
     Ok (if decide (is_Some (tag_to_location full_index !! tag)) then 0 else -1, (lazy_delete_all [tag] [] full_index).1.2)).
Proof.
  apply lazy_delete_correct.
  - apply (take_slot_ok 2 (empty_index 1) 42); [apply empty_index_ok; lia | done | done].
  - apply (bool_decide_unpack _). by vm_compute.
Defined.
