(* ===== verification/MemCompact.v ===== *)
(** * Consolidating the in-memory graph

    [consolidate_deletes], [compact_data] and [consolidate] of
    [src/index.cpp]: the nodes that are in use stop referring to deleted nodes,
    then the points move down to the first slots.  The blocks of
    [consolidate_deletes] run in parallel; here the nodes are processed in any
    order. *)
From S2P Require Import Prelude Neighbor CandidatePool Float32 Prune MemIndex MemBuild MemUpdate.

Section consolidate.
Context {F : Type} `{!FloatOps F}.
Context (compare : list Z -> list Z -> F) (alpha : F) (range maxc pfuel : nat).
(** The orders in which the hash sets and maps are iterated. *)
Context (set_order : gset Z -> list Z) (map_order : gmap Z Z -> list (Z * Z)).

(** ** [consolidate_deletes] *)

(** The neighbours of a node, and those of its deleted neighbours; whether
    there is a deleted one. *)
Fixpoint candidates (ix : mem_index) (l : list Z) (candidate_set : gset Z) (modify : bool) : outcome (gset Z * bool) :=
  match l with
  | [] => Ok (candidate_set, modify)
  | ngh :: l =>
      if decide (ngh ∈ delete_set ix) then
        out ← list_of ix ngh;
        candidates ix l (candidate_set ∪ list_to_set (filter (fun j => j ∉ delete_set ix) out)) true
      else candidates ix l ({[ngh]} ∪ candidate_set) modify
  end.

Definition expanded_nghr (ix : mem_index) (i j : Z) : Neighbor F :=
  {| id := j; distance := compare (row ix i) (row ix j); flag := true; visited := false |}.

Definition prune_candidates (ix : mem_index) (i : Z) (candidate_set : gset Z) : outcome (list Z) :=
  let expanded_nghrs := std_sort_nb (expanded_nghr ix i <$> (set_order candidate_set : list Z)) in
  result ← mem_occlude_list alpha range maxc (row_dist compare ix) pfuel expanded_nghrs;
  Ok (filter (fun j => j <> i /\ j ∉ delete_set ix) (id <$> (result : list (Neighbor F)))).

(** The new list of a node, if it changes. *)
Definition new_list (ix : mem_index) (i : Z) : outcome (option (list Z)) :=
  l ← list_of ix i;
  '((candidate_set, modify) : gset Z * bool) ← candidates ix l ∅ false;
  if modify then (l ← prune_candidates ix i candidate_set; Ok (Some l)) else Ok None.

Definition consolidate_node (i : Z) (ix : mem_index) : outcome mem_index :=
  if decide (i ∉ delete_set ix /\ i ∉ empty_slots ix) then
    l ← new_list ix i;
    match l with Some l => set_list i l ix | None => Ok ix end
  else Ok ix.

(** The return value is the number of points that remain. *)
Definition consolidate_deletes (order : list Z) (ix : mem_index) : outcome (Z * mem_index) :=
  if eager_done ix then Ok (0, ix) else
  _ ← assert_ (enable_tags ix);
  _ ← assert_ (Z.of_nat (size (delete_set ix)) <=? nd ix);
  _ ← assert_ (Z.of_nat (size (empty_slots ix)) + nd ix =? max_points ix);
  ix ← foldM consolidate_node order ix;
  let n := nd ix - Z.of_nat (size (delete_set ix)) in
  Ok (n, with_slots n (delete_set ix) (empty_slots ix ∪ delete_set ix) (lazy_done ix) (eager_done ix)
           (bool_decide (size (delete_set ix) = 0%nat)) ix).

(** ** [compact_data] *)

(** [new_location], one entry for each old location. *)
Fixpoint assign (ix : mem_index) (olds : list Z) (new_counter : Z) : list Z :=
  match olds with
  | [] => []
  | old :: olds =>
      if decide (is_Some (location_to_tag ix !! old)) then new_counter :: assign ix olds (new_counter + 1)
      else max_points ix :: assign ix olds new_counter
  end.

Definition new_location (ix : mem_index) : list Z := assign ix (seqZ 0 (total_points ix)) 0.

Definition at_loc (nl : list Z) (i : Z) : outcome Z := match nl !! Z.to_nat i with Some n => Ok n | None => Crash end.

(** The replacement for a deleted start node is taken among its neighbours that
    are in the set of deleted nodes, and must not be in it. *)
Definition replace_start (ix : mem_index) : outcome mem_index :=
  if decide (ep ix ∈ delete_set ix) then
    l ← list_of ix (ep ix);
    match filter (fun i => i ∈ delete_set ix) l with
    | [] => Crash
    | e :: _ => if e =? ep ix then Crash else _ ← assert_ (bool_decide (e ∉ delete_set ix)); Ok (with_points (max_points ix) e ix)
    end
  else Ok ix.

Fixpoint renumber (nl : list Z) (l : list Z) : outcome (list Z) :=
  match l with
  | [] => Ok []
  | j :: l => n ← at_loc nl j; if j <? n then Crash else (l ← renumber nl l; Ok (n :: l))
  end.

Definition move_point (nl : list Z) (old : Z) (ix : mem_index) : outcome mem_index :=
  n ← at_loc nl old;
  if (n <? max_points ix) || (old =? max_points ix) then
    l ← list_of ix old;
    l ← renumber nl l;
    ix ← set_list old l ix;
    if n =? old then Ok ix
    else
      _ ← assert_ (n <? old);
      l' ← list_of ix n;
      ix ← set_list n l ix;
      ix ← set_list old l' ix;
      set_row n (row ix old) ix
  else set_list old [] ix.

(** [_tag_to_location] is filled from [_location_to_tag], and back. *)
Definition fill_tags (nl : list Z) (ix : mem_index) : outcome mem_index :=
  t2l ← foldM (fun lt m => n ← at_loc nl lt.1; Ok (<[lt.2 := n]> m)) (map_order (location_to_tag ix)) ∅;
  Ok (with_tags t2l (foldl (fun m tl => <[tl.2 := tl.1]> m) ∅ (map_order t2l)) ix).

Definition compact_data (ix : mem_index) : outcome mem_index :=
  if negb (dynamic_index ix) then Ok ix
  else if negb (lazy_done ix) && negb (eager_done ix) then Ok ix
  else if data_compacted ix then Ok ix
  else
    let nl := new_location ix in
    ix ← replace_start ix;
    ix ← foldM (move_point nl) (seqZ 0 (max_points ix + 1)) ix;
    ix ← fill_tags nl ix;
    ix ← foldM (fun old ix => set_list old [] ix) (seqZ (nd ix) (max_points ix - nd ix)) ix;
    Ok (with_slots (nd ix) ∅ (free_slots ix) false false true ix).

Definition consolidate (order : list Z) (ix : mem_index) : outcome mem_index :=
  '(_, ix) ← consolidate_deletes order ix;
  compact_data ix.
End consolidate.

(** ** The new lists *)
Section lists.
Context {F : Type} `{!FloatOps F}.
Context (compare : list Z -> list Z -> F) (alpha : F) (range maxc Lsize pfuel nr : nat).
Context (Hpar : params_ok alpha range maxc Lsize pfuel nr).
Context (set_order : gset Z -> list Z) (set_order_perm : forall s, set_order s ≡ₚ elements s).

(** [j] is a neighbour of [i], or of a deleted neighbour of [i]. *)
Definition bypass (ix : mem_index) (i j : Z) : Prop :=
  j ∉ delete_set ix /\ exists l, list_of ix i = Ok l /\
    (j ∈ l \/ exists d out, d ∈ l /\ d ∈ delete_set ix /\ list_of ix d = Ok out /\ j ∈ out).

Lemma candidates_spec ix : mem_graph_ok ix -> forall l cs modify, Forall (in_index ix) l ->
  exists cs' modify', candidates ix l cs modify = Ok (cs', modify') /\
    (modify' = true <-> modify = true \/ exists d, d ∈ l /\ d ∈ delete_set ix) /\
    forall j, j ∈ cs' <-> j ∈ cs \/ (j ∉ delete_set ix /\ (j ∈ l \/ exists d out, d ∈ l /\ d ∈ delete_set ix /\ list_of ix d = Ok out /\ j ∈ out)).
Proof.
  intros Hok. induction l as [|n l IH]; intros cs modify Hall; cbn [candidates].
  - exists cs, modify. split_and!; [done | split; [by left|]; intros [?|(d & ?%elem_of_nil & _)]; done |].
    intros j. split; [by left|]. intros [?|(_ & [?%elem_of_nil|(d & out & ?%elem_of_nil & _)])]; done.
  - apply Forall_cons in Hall as [Hn Hall]. case_decide as Hd.
    + destruct (list_of_known ix Hok n Hn) as (out & Eo & _). rewrite Eo. cbn [mbind outcome_bind].
      edestruct (IH (cs ∪ list_to_set (filter (fun j => j ∉ delete_set ix) out)) true Hall) as (cs' & m' & -> & Hm & Hcs).
      exists cs', m'. split_and!; [done | rewrite Hm; split; [right; exists n; split; [by left | done] | by left] |].
      intros j. rewrite Hcs, elem_of_union, elem_of_list_to_set, list_elem_of_filter. split.
      * intros [[?|[Hj1 Hj2]]|(Hj & [?|(d & o & ? & ? & ? & ?)])]; [by left | right; split; [done|] ..].
        -- right. exists n, out. split_and!; [by left | done..].
        -- left. by right.
        -- right. exists d, o. split_and!; [by right | done..].
      * intros [?|(Hj & [[->|?]%elem_of_cons|(d & o & [->|?]%elem_of_cons & ? & Eo' & ?)])]; [by left; left | done | right; split; [done | by left] | |].
        -- left. right. split; [done|]. congruence.
        -- right. split; [done|]. right. by exists d, o.
    + destruct (IH ({[n]} ∪ cs) modify Hall) as (cs' & m' & -> & Hm & Hcs). exists cs', m'. split_and!; [done | |].
      * rewrite Hm. split; [intros [?|(d & ? & ?)]; [by left | right; exists d; split; [by right | done]]|].
        intros [?|(d & [->|?]%elem_of_cons & ?)]; [by left | done | right; by exists d].
      * intros j. rewrite Hcs, elem_of_union, elem_of_singleton. split.
        -- intros [[->|?]|(Hj & [?|(d & o & ? & ?)])]; [right; split; [done | left; by left] | by left | right; split; [done|] ..].
           ++ left. by right.
           ++ right. exists d, o. split; [by right | done].
        -- intros [?|(Hj & [[->|?]%elem_of_cons|(d & o & [->|?]%elem_of_cons & Hd' & ?)])]; [left; by right | left; by left | right; split; [done | by left] | done |].
           right. split; [done|]. right. by exists d, o.
Qed.

Lemma expanded_ids ix i (cs : gset Z) : NoDup (id <$> std_sort_nb (expanded_nghr compare ix i <$> set_order cs)) /\
  forall j, j ∈ id <$> std_sort_nb (expanded_nghr compare ix i <$> set_order cs) <-> j ∈ cs.
Proof.
  assert (E : id <$> (expanded_nghr compare ix i <$> set_order cs) = set_order cs).
  { rewrite <- list_fmap_compose. rewrite <- (list_fmap_id (set_order cs)) at 2. by apply list_fmap_ext. }
  rewrite std_sort_nb_perm, E, set_order_perm. split; [apply NoDup_elements|]. intros j. by rewrite std_sort_nb_perm, E, set_order_perm, elem_of_elements.
Qed.

Lemma prune_candidates_spec ix i cs : exists l', prune_candidates compare alpha range maxc pfuel set_order ix i cs = Ok l' /\
  NoDup l' /\ (length l' <= range)%nat /\ forall j, j ∈ l' -> j <> i /\ j ∉ delete_set ix /\ j ∈ cs.
Proof.
  unfold prune_candidates. destruct (expanded_ids ix i cs) as [Hnd Hids]. set (pool := std_sort_nb _) in *.
  destruct (occlude_list_spec alpha range maxc (row_dist compare ix) pool nr pfuel Hnd) as (rs & E & Hpost);
    [intros x y _ _; by eexists | apply Hpar | apply Hpar |].
  destruct (occlude_same alpha range maxc (row_dist compare ix) pool Hnd (pk_max _ _ _ _ _ _ Hpar) pfuel rs E) as (rs' & -> & Hperm).
  cbn [mbind outcome_bind]. destruct (occlude_post_ids alpha range maxc _ _ _ Hnd Hpost) as [Hrsnd Hrsin].
  eexists. split; [reflexivity|]. split_and!.
  - apply NoDup_filter. by rewrite Hperm.
  - etrans; [apply length_filter|]. rewrite length_fmap, (Permutation_length Hperm). apply Hpost.
  - intros j [[? ?] Hj]%list_elem_of_filter. split_and!; [done..|]. rewrite Hperm in Hj. by apply Hids, Hrsin.
Qed.

Lemma new_list_spec ix i l : linked range ix -> in_index ix i -> list_of ix i = Ok l ->
  exists r, new_list compare alpha range maxc pfuel set_order ix i = Ok r /\
    match r with
    | None => forall d, d ∈ l -> d ∉ delete_set ix
    | Some l' => NoDup l' /\ i ∉ l' /\ (length l' <= range)%nat /\ forall j, j ∈ l' -> bypass ix i j
    end.
Proof.
  intros Hlk Hi Hl. unfold new_list. rewrite Hl. cbn [mbind outcome_bind]. destruct (linked_list range ix i l Hlk Hi Hl) as (_ & _ & _ & Hin).
  destruct (candidates_spec ix (lk_ok _ _ Hlk) l ∅ false Hin) as (cs & m & -> & Hm & Hcs). cbn [mbind outcome_bind]. destruct m.
  - destruct (prune_candidates_spec ix i cs) as (l' & -> & H1 & H2 & H3). cbn [mbind outcome_bind]. exists (Some l'). split; [done|].
    split_and!; [done | by intros [? _]%H3 | done |]. intros j (_ & Hj & Hc)%H3. split; [done|]. exists l. split; [done|].
    apply Hcs in Hc as [?%elem_of_empty|[_ ?]]; done.
  - exists None. split; [done|]. intros d Hd Hdel. enough (false = true) by done. apply Hm. right. by exists d.
Qed.

(** The deleted nodes keep their lists, so a node's new list does not depend on
    the nodes that were processed before it. *)
Definition same_deleted (ix ix' : mem_index) : Prop := forall d, d ∈ delete_set ix -> list_of ix' d = list_of ix d.

Lemma candidates_ext ix ix' l : frame ix ix' -> same_deleted ix ix' -> forall cs modify, candidates ix' l cs modify = candidates ix l cs modify.
Proof.
  intros F1 Hs. assert (Ed : delete_set ix' = delete_set ix) by (by rewrite F1).
  induction l as [|n l IH]; intros cs modify; cbn [candidates]; [done|]. rewrite Ed. case_decide as Hd; [|apply IH]. rewrite (Hs n Hd).
  destruct (list_of ix n) as [out|]; [|done]. cbn [mbind outcome_bind]. apply IH.
Qed.

Lemma new_list_ext ix ix' i : frame ix ix' -> same_deleted ix ix' -> list_of ix' i = list_of ix i ->
  new_list compare alpha range maxc pfuel set_order ix' i = new_list compare alpha range maxc pfuel set_order ix i.
Proof.
  intros F1 Hs Ei. unfold new_list. rewrite Ei. destruct (list_of ix i) as [l|]; [|done]. cbn [mbind outcome_bind]. rewrite (candidates_ext ix ix' l F1 Hs).
  destruct (candidates ix l ∅ false) as [[cs m]|]; [|done]. cbn [mbind outcome_bind]. unfold prune_candidates, expanded_nghr, row_dist, row. by rewrite F1.
Qed.

(** The list of a node after the consolidation. *)
Definition skipped (ix : mem_index) (i : Z) : Prop := i ∈ delete_set ix \/ i ∈ empty_slots ix.

Definition final_list (ix : mem_index) (i : Z) : outcome (list Z) :=
  match new_list compare alpha range maxc pfuel set_order ix i with
  | Ok (Some l) => if decide (skipped ix i) then list_of ix i else Ok l
  | _ => list_of ix i
  end.

Lemma set_list_any i l ix : in_index ix i -> Z.of_nat (length (final_graph ix)) = total_points ix ->
  exists ix', set_list i l ix = Ok ix' /\ frame ix ix' /\ width ix' = width ix /\ length (final_graph ix') = length (final_graph ix) /\ list_of ix' i = Ok l /\
    forall j, 0 <= j -> j <> i -> list_of ix' j = list_of ix j.
Proof.
  intros [Hi0 Hi] Hlen. unfold set_list. rewrite decide_True by lia. eexists. split; [reflexivity|]. split_and!; [done | done | | |].
  - apply length_insert.
  - apply list_of_Some. cbn [final_graph with_graph]. apply list_lookup_insert_eq. lia.
  - intros j Hj Hne. unfold list_of. cbn [final_graph with_graph]. by rewrite list_lookup_insert_ne by lia.
Qed.

Lemma consolidate_node_spec ix0 ix i : linked range ix0 -> frame ix0 ix -> length (final_graph ix) = length (final_graph ix0) ->
  same_deleted ix0 ix -> in_index ix0 i -> list_of ix i = list_of ix0 i ->
  exists ix', consolidate_node compare alpha range maxc pfuel set_order i ix = Ok ix' /\ width ix' = width ix /\ frame ix0 ix' /\
    length (final_graph ix') = length (final_graph ix0) /\ list_of ix' i = final_list ix0 i /\
    forall j, 0 <= j -> j <> i -> list_of ix' j = list_of ix j.
Proof.
  intros Hlk F1 Hlen Hs Hi Ei. destruct (list_of_known ix0 (lk_ok _ _ Hlk) i Hi) as (l & El & _).
  destruct (new_list_spec ix0 i l Hlk Hi El) as (r & Er & _). unfold consolidate_node, final_list. rewrite (new_list_ext ix0 ix i F1 Hs Ei), Er.
  assert (delete_set ix = delete_set ix0 /\ empty_slots ix = empty_slots ix0) as [-> ->] by (by rewrite F1).
  case_decide as Hd; [|exists ix; split_and!; try done; destruct r; [rewrite decide_True by (unfold skipped; destruct (decide (i ∈ delete_set ix0)), (decide (i ∈ empty_slots ix0)); tauto)|]; done].
  cbn [mbind outcome_bind]. destruct r as [l'|]; [|by exists ix].
  destruct (set_list_any i l' ix) as (ix' & -> & F2 & W2 & L2 & E2 & O2); [by apply (frame_index _ _ _ F1) | |].
  - rewrite Hlen. pose proof (mg_length _ (lk_ok _ _ Hlk)) as ->. by rewrite F1.
  - exists ix'. split_and!; try done; [by eapply frame_trans | by rewrite L2, Hlen |]. rewrite decide_False; [done|]. unfold skipped. tauto.
Qed.

Lemma consolidate_all ix0 order : linked range ix0 -> (forall d, d ∈ delete_set ix0 -> 0 <= d) -> Forall (in_index ix0) order -> NoDup order -> forall ix,
  frame ix0 ix -> length (final_graph ix) = length (final_graph ix0) -> same_deleted ix0 ix ->
  (forall i, i ∈ order -> list_of ix i = list_of ix0 i) ->
  exists ix', foldM (consolidate_node compare alpha range maxc pfuel set_order) order ix = Ok ix' /\ width ix' = width ix /\ frame ix0 ix' /\
    length (final_graph ix') = length (final_graph ix0) /\
    (forall i, i ∈ order -> list_of ix' i = final_list ix0 i) /\ (forall i, 0 <= i -> i ∉ order -> list_of ix' i = list_of ix i).
Proof.
  intros Hlk Hdel. induction order as [|i order IH]; intros Hin Hnd ix F1 Hlen Hs Ho; cbn [foldM].
  - exists ix. split_and!; try done. by intros i ?%elem_of_nil.
  - apply Forall_cons in Hin as [Hi Hin]. apply NoDup_cons in Hnd as [Hni Hnd].
    destruct (consolidate_node_spec ix0 ix i Hlk F1 Hlen Hs Hi) as (ix1 & -> & W1 & F2 & Hlen1 & E1 & O1); [apply Ho; by left|].
    cbn [mbind outcome_bind]. pose proof Hin as Hin'. rewrite Forall_forall in Hin'.
    destruct (IH Hin Hnd ix1 F2 Hlen1) as (ix' & -> & W2 & F3 & Hlen' & E2 & O2).
    + intros d Hd. destruct (decide (d = i)) as [->|Hne].
      * rewrite E1. unfold final_list. destruct (new_list _ _ _ _ _ _ ix0 i) as [[l|]|]; [|done|done]. rewrite decide_True; [done | by left].
      * rewrite O1 by (done || by apply Hdel). by apply Hs.
    + intros j Hj. rewrite O1; [apply Ho; by right | by apply Hin' | by intros ->].
    + exists ix'. split_and!; try done; [by rewrite W2 | |].
      * intros j [->|Hj]%elem_of_cons; [|by apply E2]. rewrite O2 by (done || apply Hi). done.
      * intros j Hj0 Hj. apply not_elem_of_cons in Hj as [? ?]. by rewrite O2, O1.
Qed.

(** ** The consolidated index *)
Record consolidated (ix ix' : mem_index) : Prop := {
  cn_frame : ix' = with_slots (nd ix - Z.of_nat (size (delete_set ix))) (delete_set ix) (empty_slots ix ∪ delete_set ix) (lazy_done ix) (eager_done ix)
    (bool_decide (size (delete_set ix) = 0%nat)) (with_graph (final_graph ix') (width ix) ix);
  cn_length : length (final_graph ix') = length (final_graph ix);
  cn_lists : forall i, in_index ix i -> list_of ix' i = final_list ix i;
}.

Lemma list_of_inj ix ix' : length (final_graph ix') = length (final_graph ix) -> Z.of_nat (length (final_graph ix)) = total_points ix ->
  (forall i, in_index ix i -> list_of ix' i = list_of ix i) -> final_graph ix' = final_graph ix.
Proof.
  intros Hl Ht H. apply list_eq. intros i. destruct (decide (i < length (final_graph ix))%nat) as [Hi|Hi].
  - specialize (H (Z.of_nat i)). unfold list_of, in_index in H. rewrite Nat2Z.id in H. specialize (H ltac:(lia)).
    destruct (final_graph ix' !! i), (final_graph ix !! i); congruence.
  - by rewrite !lookup_ge_None_2 by lia.
Qed.

Lemma free_count ix : dyn_ok range ix -> Z.of_nat (size (empty_slots ix)) + nd ix = max_points ix.
Proof.
  intros Hok. rewrite (dy_empty _ _ Hok). unfold free_slots. rewrite size_list_to_set by apply NoDup_seqZ. rewrite length_seqZ.
  pose proof (dy_nd _ _ Hok). lia.
Qed.

Lemma deleted_in ix d : dyn_ok range ix -> d ∈ delete_set ix -> 0 <= d < nd ix.
Proof. intros Hok Hd. apply (dy_slots _ _ Hok). by right. Qed.

Lemma deleted_count ix : dyn_ok range ix -> Z.of_nat (size (delete_set ix)) <= nd ix.
Proof.
  intros Hok. pose proof (dy_nd _ _ Hok). assert (Hs : (size (delete_set ix) <= size (list_to_set (seqZ 0 (nd ix)) : gset Z))%nat).
  { apply subseteq_size. intros d Hd%(deleted_in ix d Hok). apply elem_of_list_to_set, elem_of_seqZ. lia. }
  rewrite size_list_to_set, length_seqZ in Hs by apply NoDup_seqZ. lia.
Qed.

Lemma consolidate_deletes_ok ix order : dyn_ok range ix -> order ≡ₚ seqZ 0 (total_points ix) ->
  exists ix', consolidate_deletes compare alpha range maxc pfuel set_order order ix = Ok (nd ix', ix') /\ consolidated ix ix'.
Proof.
  intros Hok Hord. destruct (dy_flags _ _ Hok) as (_ & Ht & He & _). pose proof (dy_linked _ _ Hok) as Hlk.
  unfold consolidate_deletes. rewrite He, Ht, (proj2 (Z.leb_le _ _) (deleted_count ix Hok)), (proj2 (Z.eqb_eq _ _) (free_count ix Hok)).
  cbn [assert_ mbind outcome_bind].
  assert (Hin : forall i, i ∈ order <-> in_index ix i) by (intros i; rewrite Hord, elem_of_seqZ; unfold in_index; lia).
  destruct (consolidate_all ix order Hlk) with ix as (ix1 & -> & W1 & F1 & Hlen & E1 & _); try done; try apply frame_refl.
  - intros d Hd%(deleted_in ix d Hok). lia.
  - apply Forall_forall. intros i. apply Hin.
  - rewrite Hord. apply NoDup_seqZ.
  - cbn [mbind outcome_bind]. set (ix2 := with_slots _ _ _ _ _ _ ix1). exists ix2. split; [done|].
    split; [unfold ix2; rewrite <- W1; by rewrite F1 | done |]. intros i Hi. apply (E1 i), Hin, Hi.
Qed.

(** The result does not depend on the order. *)
Lemma consolidated_inj ix ix1 ix2 : Z.of_nat (length (final_graph ix)) = total_points ix -> consolidated ix ix1 -> consolidated ix ix2 -> ix1 = ix2.
Proof.
  intros Ht C1 C2. assert (E : final_graph ix1 = final_graph ix2).
  { apply list_of_inj.
    - by rewrite (cn_length _ _ C1), (cn_length _ _ C2).
    - rewrite (cn_length _ _ C2), Ht. by rewrite (cn_frame _ _ C2).
    - intros i Hi. assert (in_index ix i) by (by rewrite (cn_frame _ _ C2) in Hi). by rewrite (cn_lists _ _ C1), (cn_lists _ _ C2). }
  rewrite (cn_frame _ _ C1), E. symmetry. apply C2.
Qed.
End lists.

(** ** New locations *)
Section ranks.
Context (ix : mem_index).

Definition tagged_loc (i : Z) : Prop := is_Some (location_to_tag ix !! i).
#[global] Instance tagged_loc_dec i : Decision (tagged_loc i).
Proof. unfold tagged_loc. apply _. Defined.

(** The number of tagged locations below [i]. *)
Definition rank (i : Z) : Z := Z.of_nat (length (filter tagged_loc (seqZ 0 i))).
Definition new_loc (i : Z) : Z := if decide (tagged_loc i) then rank i else max_points ix.

Lemma rank_0 : rank 0 = 0.
Proof. done. Qed.

Lemma rank_S i : 0 <= i -> rank (i + 1) = rank i + (if decide (tagged_loc i) then 1 else 0).
Proof.
  intros Hi. unfold rank. rewrite seqZ_app, filter_app, length_app by lia. replace (seqZ (0 + i) 1) with [i] by (by rewrite Z.add_0_l).
  rewrite filter_cons, filter_nil. case_decide; cbn [length]; lia.
Qed.

Lemma rank_bound i : 0 <= i -> 0 <= rank i <= i.
Proof. intros Hi. unfold rank. pose proof (length_filter tagged_loc (seqZ 0 i)) as H. rewrite length_seqZ in H. lia. Qed.

Lemma rank_mono i j : 0 <= i <= j -> rank i <= rank j.
Proof.
  intros [Hi Hj]. replace j with (i + Z.of_nat (Z.to_nat (j - i))) by lia. induction (Z.to_nat (j - i)) as [|n IH]; [by rewrite Z.add_0_r|].
  replace (i + Z.of_nat (S n)) with ((i + Z.of_nat n) + 1) by lia. rewrite rank_S by lia. case_decide; lia.
Qed.

Lemma rank_lt i j : 0 <= i < j -> tagged_loc i -> rank i < rank j.
Proof. intros Hi Ht. pose proof (rank_mono (i + 1) j). rewrite rank_S, decide_True in * by (done || lia). lia. Qed.

Lemma rank_onto (n : nat) k : 0 <= k < rank (Z.of_nat n) -> exists l, 0 <= l < Z.of_nat n /\ tagged_loc l /\ rank l = k.
Proof.
  induction n as [|n IH]; [change (rank (Z.of_nat 0)) with 0; lia|]. rewrite Nat2Z.inj_succ, <- Z.add_1_r, rank_S by lia. intros Hk.
  destruct (decide (k < rank (Z.of_nat n))).
  - destruct IH as (i & Hi1 & Hi2 & Hi3); [lia|]. exists i. split_and!; try done; lia.
  - destruct (decide (tagged_loc (Z.of_nat n))); [|lia]. exists (Z.of_nat n). split_and!; try done; lia.
Qed.

Lemma assign_ranks (n : nat) : forall a, 0 <= a -> assign ix (seqZ a (Z.of_nat n)) (rank a) = new_loc <$> seqZ a (Z.of_nat n).
Proof.
  induction n as [|n IH]; intros a Ha; [done|]. rewrite seqZ_cons by lia. cbn [assign]. rewrite fmap_cons. unfold new_loc at 1.
  replace (Z.pred (Z.of_nat (S n))) with (Z.of_nat n) by lia. pose proof (rank_S a Ha) as Hr. fold (tagged_loc a).
  assert (E : forall x y : list Z, x = y -> forall h, h :: x = h :: y) by congruence.
  rewrite <- Z.add_1_r. revert Hr. destruct (decide (tagged_loc a)); intros Hr; apply E; rewrite <- IH by lia; f_equal; lia.
Qed.

Lemma new_location_at i : 0 <= i < total_points ix -> at_loc (new_location ix) i = Ok (new_loc i).
Proof.
  intros Hi. unfold at_loc, new_location. pose proof (assign_ranks (Z.to_nat (total_points ix)) 0 ltac:(lia)) as E.
  rewrite Z2Nat.id, rank_0 in E by lia. rewrite E, list_lookup_fmap, lookup_seqZ_lt by lia. cbn. do 2 f_equal. lia.
Qed.
End ranks.

(** ** Moving the points *)
Definition refers (ix : mem_index) (j : Z) : Prop := (tagged_loc ix j /\ 0 <= j < max_points ix) \/ j = max_points ix.

Record compactable (range : nat) (ix : mem_index) : Prop := {
  cp_frozen : num_frozen_pts ix = 1;
  cp_ep : ep ix = max_points ix /\ ep ix ∉ delete_set ix;
  cp_max : 0 < max_points ix < 2 ^ 32 - 1;
  cp_length : Z.of_nat (length (final_graph ix)) = total_points ix;
  cp_rows : Z.of_nat (length (mdata ix)) = total_points ix;
  cp_flags : dynamic_index ix = true /\ enable_tags ix = true /\ lazy_done ix = true /\ eager_done ix = false /\ data_compacted ix = false;
  cp_tags : forall t l, tag_to_location ix !! t = Some l <-> location_to_tag ix !! l = Some t;
  cp_tagged : forall i, tagged_loc ix i -> 0 <= i < max_points ix;
  cp_nd : nd ix = rank ix (max_points ix);
  cp_lists : forall i l, refers ix i -> list_of ix i = Ok l -> NoDup l /\ i ∉ l /\ (length l <= SLACK range)%nat /\ Forall (refers ix) l;
}.

Section moving.
Context (range : nat) (ix : mem_index) (Hc : compactable range ix).

Lemma refers_in j : refers ix j -> 0 <= j < total_points ix.
Proof. pose proof (cp_max _ _ Hc). pose proof (cp_frozen _ _ Hc). unfold refers, total_points. lia. Qed.

Lemma end_untagged : ~ tagged_loc ix (max_points ix).
Proof. intros H%(cp_tagged _ _ Hc). lia. Qed.

Lemma new_loc_tagged i : tagged_loc ix i -> new_loc ix i = rank ix i.
Proof. intros H. unfold new_loc. by rewrite decide_True. Qed.

Lemma new_loc_end : new_loc ix (max_points ix) = max_points ix.
Proof. unfold new_loc. rewrite decide_False; [done | apply end_untagged]. Qed.

Lemma new_loc_le j : refers ix j -> new_loc ix j <= j.
Proof. intros [[H1 H2]| ->]; [rewrite new_loc_tagged by done; apply rank_bound; lia | rewrite new_loc_end; lia]. Qed.

Lemma rank_below_end i : tagged_loc ix i -> 0 <= rank ix i < max_points ix.
Proof. intros H. pose proof (cp_tagged _ _ Hc i H). pose proof (rank_bound ix i). lia. Qed.

Lemma renumber_ok l : Forall (refers ix) l -> renumber (new_location ix) l = Ok (new_loc ix <$> l).
Proof.
  induction 1 as [|j l Hj _ IH]; [done|]. cbn [renumber]. rewrite new_location_at by (by apply refers_in). cbn [mbind outcome_bind].
  rewrite (proj2 (Z.ltb_ge _ _) (new_loc_le j Hj)), IH. done.
Qed.

(** After the locations below [k]. *)
Record moving (k : Z) (ix' : mem_index) : Prop := {
  mo_frame : ix' = with_data (mdata ix') (with_graph (final_graph ix') (width ix) ix);
  mo_length : length (final_graph ix') = length (final_graph ix) /\ length (mdata ix') = length (mdata ix);
  mo_done : forall i l, tagged_loc ix i -> i < k -> list_of ix i = Ok l -> list_of ix' (rank ix i) = Ok (new_loc ix <$> l) /\ row ix' (rank ix i) = row ix i;
  mo_rest : forall i, k <= i -> list_of ix' i = list_of ix i /\ row ix' i = row ix i;
}.

Lemma moving_index k ix' i : moving k ix' -> in_index ix' i <-> in_index ix i.
Proof. intros Hm. by rewrite (mo_frame _ _ Hm). Qed.

Lemma moving_room k ix' i : moving k ix' -> in_index ix i -> (Z.to_nat i < length (final_graph ix'))%nat /\ (Z.to_nat i < length (mdata ix'))%nat.
Proof.
  intros Hm [Hi Hj]. destruct (mo_length _ _ Hm) as [-> ->]. pose proof (cp_length _ _ Hc). pose proof (cp_rows _ _ Hc). lia.
Qed.

(** Writing a list and a row. *)
Lemma put_list i l ix' : 0 <= i -> (Z.to_nat i < length (final_graph ix'))%nat ->
  set_list i l ix' = Ok (with_graph (<[Z.to_nat i := l]> (final_graph ix')) (width ix') ix').
Proof. intros Hi Hl. unfold set_list. by rewrite decide_True. Qed.

Lemma list_of_put i j l g w ix' : 0 <= i -> 0 <= j -> (Z.to_nat i < length g)%nat ->
  list_of (with_graph (<[Z.to_nat i := l]> g) w ix') j = if decide (j = i) then Ok l else list_of (with_graph g w ix') j.
Proof.
  intros Hi Hj Hl. unfold list_of. cbn [final_graph with_graph]. case_decide as Hd.
  - rewrite Hd. by rewrite list_lookup_insert_eq.
  - by rewrite list_lookup_insert_ne by lia.
Qed.

Lemma row_put i j v ix' : 0 <= i -> 0 <= j -> (Z.to_nat i < length (mdata ix'))%nat ->
  row (with_data (<[Z.to_nat i := v]> (mdata ix')) ix') j = if decide (j = i) then v else row ix' j.
Proof.
  intros Hi Hj Hl. unfold row. cbn [mdata with_data]. case_decide as Hd.
  - rewrite Hd. by apply list_lookup_total_insert_eq.
  - by rewrite list_lookup_total_insert_ne by lia.
Qed.

(** A location without a tag is emptied. *)
Lemma move_untagged k ix' : moving k ix' -> 0 <= k < max_points ix -> ~ tagged_loc ix k ->
  exists ix'', move_point (new_location ix) k ix' = Ok ix'' /\ moving (k + 1) ix''.
Proof.
  intros Hm Hk Ht. pose proof (cp_frozen _ _ Hc) as Hfr. assert (Em : max_points ix' = max_points ix) by (by rewrite (mo_frame _ _ Hm)).
  unfold move_point. rewrite new_location_at by (unfold total_points; lia). cbn [mbind outcome_bind]. unfold new_loc. rewrite decide_False by done.
  rewrite Em, Z.ltb_irrefl, (proj2 (Z.eqb_neq k (max_points ix))) by lia. cbn [orb].
  destruct (moving_room k ix' k Hm) as [Hg Hd]; [unfold in_index, total_points; lia|]. rewrite put_list by (done || lia).
  eexists. split; [reflexivity|]. split.
  - by rewrite (mo_frame _ _ Hm).
  - cbn [final_graph mdata with_graph]. rewrite length_insert. apply (mo_length _ _ Hm).
  - intros i l Hi Hlt Hl. assert (i <> k) by (by intros ->). pose proof (cp_tagged _ _ Hc i Hi). pose proof (rank_bound ix i ltac:(lia)).
    rewrite list_of_put, decide_False by (done || lia). destruct (mo_done _ _ Hm i l Hi) as [E1 E2]; [lia | done|]. split; [exact E1 | exact E2].
  - intros i Hi. rewrite list_of_put, decide_False by (done || lia). destruct (mo_rest _ _ Hm i) as [E1 E2]; [lia|]. split; [exact E1 | exact E2].
Qed.

(** A tagged location moves down. *)
Lemma move_tagged k ix' : moving k ix' -> tagged_loc ix k -> exists ix'', move_point (new_location ix) k ix' = Ok ix'' /\ moving (k + 1) ix''.
Proof.
  intros Hm Ht. pose proof (cp_frozen _ _ Hc) as Hfr. assert (Em : max_points ix' = max_points ix) by (by rewrite (mo_frame _ _ Hm)).
  pose proof (cp_tagged _ _ Hc k Ht) as Hk. pose proof (rank_below_end k Ht) as Hr. pose proof (rank_bound ix k ltac:(lia)) as Hrk.
  assert (Hkin : in_index ix k) by (unfold in_index, total_points; lia).
  unfold move_point. rewrite new_location_at by done. cbn [mbind outcome_bind]. rewrite new_loc_tagged by done.
  rewrite Em, (proj2 (Z.ltb_lt (rank ix k) (max_points ix))) by lia. cbn [orb].
  destruct (moving_room k ix' k Hm Hkin) as [Hg Hd]. destruct (moving_room k ix' (rank ix k) Hm) as [Hg2 Hd2]; [unfold in_index, total_points; lia|].
  destruct (mo_rest _ _ Hm k ltac:(lia)) as [El Er]. rewrite El.
  destruct (lookup_lt_is_Some_2 (final_graph ix) (Z.to_nat k)) as [l Hl]; [pose proof (cp_length _ _ Hc); unfold in_index in Hkin; lia|].
  apply list_of_Some in Hl. rewrite Hl. cbn [mbind outcome_bind]. rewrite renumber_ok by (apply (cp_lists _ _ Hc k l); [left; split; [done | lia] | done]).
  cbn [mbind outcome_bind]. rewrite put_list by (done || lia). cbn [mbind outcome_bind].
  set (l' := new_loc ix <$> l). set (g1 := <[Z.to_nat k := l']> (final_graph ix')).
  assert (Hlow : forall i, tagged_loc ix i -> i < k -> 0 <= rank ix i < rank ix k).
  { intros i Hi Hlt. pose proof (cp_tagged _ _ Hc i Hi). pose proof (rank_bound ix i ltac:(lia)). pose proof (rank_lt ix i k ltac:(lia) Hi). lia. }
  destruct (Z.eqb_spec (rank ix k) k) as [E|Hne].
  - eexists. split; [reflexivity|]. split.
    + by rewrite (mo_frame _ _ Hm).
    + cbn [final_graph mdata with_graph]. unfold g1. rewrite length_insert. apply (mo_length _ _ Hm).
    + intros i li Hi Hlt Hli. destruct (decide (i = k)) as [->|Hik].
      * rewrite Hl in Hli. injection Hli as <-. unfold g1. rewrite list_of_put, decide_True by (done || lia). split; [done|]. rewrite E. exact Er.
      * destruct (mo_done _ _ Hm i li Hi) as [E1 E2]; [lia | done |]. pose proof (Hlow i Hi ltac:(lia)). unfold g1.
        rewrite list_of_put, decide_False by (done || lia). split; [exact E1 | exact E2].
    + intros i Hi. destruct (mo_rest _ _ Hm i ltac:(lia)) as [E1 E2]. unfold g1. rewrite list_of_put, decide_False by (done || lia). split; [exact E1 | exact E2].
  - rewrite (proj2 (Z.ltb_lt (rank ix k) k)) by lia. cbn [assert_ mbind outcome_bind].
    assert (Hg1 : length g1 = length (final_graph ix')) by apply length_insert.
    destruct (lookup_lt_is_Some_2 g1 (Z.to_nat (rank ix k))) as [lr Hlr]; [lia|].
    match goal with |- context [list_of ?s (rank ix k)] => assert (Elr : list_of s (rank ix k) = Ok lr) by (by apply list_of_Some) end.
    rewrite Elr. cbn [mbind outcome_bind]. rewrite put_list by (cbn [final_graph with_graph]; lia). cbn [mbind outcome_bind].
    rewrite put_list by (cbn [final_graph with_graph]; rewrite ?length_insert; lia). cbn [mbind outcome_bind]. unfold set_row.
    rewrite decide_True by done. eexists. split; [reflexivity|].
    change (moving (k + 1) (with_data (<[Z.to_nat (rank ix k) := row ix' k]> (mdata ix'))
      (with_graph (<[Z.to_nat k := lr]> (<[Z.to_nat (rank ix k) := l']> g1)) (width ix') ix'))).
    set (ix'' := with_data _ _).
    assert (EL : forall j, 0 <= j -> list_of ix'' j = if decide (j = k) then Ok lr else if decide (j = rank ix k) then Ok l' else list_of ix' j).
    { intros j Hj. transitivity (list_of (with_graph (<[Z.to_nat k := lr]> (<[Z.to_nat (rank ix k) := l']> g1)) (width ix') ix') j); [done|].
      rewrite list_of_put by (rewrite ?length_insert; lia). case_decide as Hjk; [done|]. rewrite list_of_put by lia. case_decide; [done|].
      unfold g1. rewrite list_of_put, decide_False by (done || lia). done. }
    assert (ER : forall j, 0 <= j -> row ix'' j = if decide (j = rank ix k) then row ix' k else row ix' j).
    { intros j Hj. transitivity (row (with_data (<[Z.to_nat (rank ix k) := row ix' k]> (mdata ix')) ix') j); [done|]. apply row_put; lia. }
    split.
    + unfold ix''. by rewrite (mo_frame _ _ Hm).
    + unfold ix'', g1. cbn [final_graph mdata with_graph with_data]. rewrite !length_insert. apply (mo_length _ _ Hm).
    + intros i li Hi Hlt Hli. destruct (decide (i = k)) as [->|Hik].
      * rewrite Hl in Hli. injection Hli as <-. rewrite EL, ER by lia. rewrite decide_False by done. by rewrite !decide_True.
      * pose proof (Hlow i Hi ltac:(lia)). rewrite EL, ER, !decide_False by lia. apply (mo_done _ _ Hm i li Hi); [lia | done].
    + intros i Hi. rewrite EL, ER, !decide_False by lia. apply (mo_rest _ _ Hm i). lia.
Qed.

(** The list of the start node is renumbered in its place. *)
Lemma move_end ix' : moving (max_points ix) ix' ->
  exists ix'' l, move_point (new_location ix) (max_points ix) ix' = Ok ix'' /\
    ix'' = with_data (mdata ix'') (with_graph (final_graph ix'') (width ix) ix) /\
    length (final_graph ix'') = length (final_graph ix) /\ length (mdata ix'') = length (mdata ix) /\
    list_of ix (max_points ix) = Ok l /\ list_of ix'' (max_points ix) = Ok (new_loc ix <$> l) /\
    (forall j, 0 <= j < max_points ix -> list_of ix'' j = list_of ix' j) /\ (forall j, 0 <= j -> row ix'' j = row ix' j).
Proof.
  intros Hm. pose proof (cp_frozen _ _ Hc) as Hfr. assert (Em : max_points ix' = max_points ix) by (by rewrite (mo_frame _ _ Hm)).
  pose proof (cp_max _ _ Hc). pose proof (cp_length _ _ Hc). assert (Hin : in_index ix (max_points ix)) by (unfold in_index, total_points; lia).
  unfold move_point. rewrite new_location_at by done. cbn [mbind outcome_bind]. rewrite new_loc_end, Em, Z.eqb_refl, orb_true_r.
  destruct (mo_rest _ _ Hm (max_points ix) ltac:(lia)) as [El Er]. rewrite El. destruct (moving_room _ ix' _ Hm Hin) as [Hg Hd].
  destruct (lookup_lt_is_Some_2 (final_graph ix) (Z.to_nat (max_points ix))) as [l Hl]; [unfold in_index in Hin; lia|].
  apply list_of_Some in Hl. rewrite Hl. cbn [mbind outcome_bind]. rewrite renumber_ok by (apply (cp_lists _ _ Hc (max_points ix) l); [by right | done]).
  cbn [mbind outcome_bind]. rewrite put_list by (done || lia). cbn [mbind outcome_bind]. eexists _, l. split; [reflexivity|]. split_and!.
  - by rewrite (mo_frame _ _ Hm).
  - cbn [final_graph with_graph]. rewrite length_insert. apply (mo_length _ _ Hm).
  - apply (mo_length _ _ Hm).
  - done.
  - rewrite list_of_put, decide_True by (done || lia). done.
  - intros j Hj. rewrite list_of_put, decide_False by (done || lia). done.
  - done.
Qed.

Lemma moving_start : moving 0 ix.
Proof. split; [by destruct ix | done | | done]. intros i l Hi. pose proof (cp_tagged _ _ Hc i Hi). lia. Qed.

Lemma move_all (n : nat) : Z.of_nat n <= max_points ix -> exists ix', foldM (move_point (new_location ix)) (seqZ 0 (Z.of_nat n)) ix = Ok ix' /\ moving (Z.of_nat n) ix'.
Proof.
  induction n as [|n IH]; intros Hn; [exists ix; split; [done | apply moving_start]|]. rewrite Nat2Z.inj_succ, <- Z.add_1_r in *.
  destruct IH as (ix1 & E1 & M1); [lia|]. rewrite seqZ_app, foldM_app, E1 by lia. cbn [mbind outcome_bind].
  replace (seqZ (0 + Z.of_nat n) 1) with [Z.of_nat n] by done. cbn [foldM].
  destruct (decide (tagged_loc ix (Z.of_nat n))) as [Ht|Ht].
  - destruct (move_tagged (Z.of_nat n) ix1 M1 Ht) as (ix2 & -> & M2). by exists ix2.
  - destruct (move_untagged (Z.of_nat n) ix1 M1) as (ix2 & -> & M2); [lia | done|]. by exists ix2.
Qed.

(** ** Tags *)
Lemma insert_all_lookup {A} (kvs : list (Z * A)) : forall (m : gmap Z A) k v, NoDup kvs.*1 ->
  foldl (fun m kv => <[kv.1 := kv.2]> m) m kvs !! k = Some v <-> (k, v) ∈ kvs \/ (k ∉ kvs.*1 /\ m !! k = Some v).
Proof.
  induction kvs as [|[k' v'] kvs IH]; intros m k v Hnd; cbn [foldl].
  - rewrite elem_of_nil. cbn. pose proof (not_elem_of_nil k). tauto.
  - cbn [fmap list_fmap] in *. apply NoDup_cons in Hnd as [Hk' Hnd]. rewrite IH by done. cbn [fst snd]. rewrite !elem_of_cons. destruct (decide (k = k')) as [->|Hne].
    + rewrite lookup_insert_eq. split.
      * intros [?|[_ [= <-]]]; [by left; right | left; by left].
      * intros [[[= <-]|?]|[H _]]; [by right | by left |]. exfalso. apply H. by left.
    + rewrite lookup_insert_ne by done. split.
      * intros [?|[? ?]]; [by left; right | right; split; [by intros [?|?] | done]].
      * intros [[[= <- _]|?]|[? ?]]; [done | by left | right; split; [|done]]. intros ?. tauto.
Qed.

Context (map_order : gmap Z Z -> list (Z * Z)) (map_order_perm : forall m, map_order m ≡ₚ map_to_list m).

Lemma elem_of_order (m : gmap Z Z) kv : kv ∈ map_order m <-> m !! kv.1 = Some kv.2.
Proof using map_order_perm. rewrite map_order_perm. destruct kv as [k v]. by rewrite elem_of_map_to_list. Qed.

Lemma swapped_fst (m : gmap Z Z) : (forall i j t, m !! i = Some t -> m !! j = Some t -> i = j) ->
  NoDup ((fun kv : Z * Z => (kv.2, kv.1)) <$> map_order m).*1.
Proof using map_order_perm.
  intros Hinj. rewrite <- list_fmap_compose, map_order_perm. apply NoDup_fmap_2_strong; [|apply NoDup_map_to_list].
  intros [i t] [j t'] Hi%elem_of_map_to_list Hj%elem_of_map_to_list [= ->]. by rewrite (Hinj _ _ _ Hi Hj).
Qed.

Lemma swap_all (m : gmap Z Z) (l : list (Z * Z)) : foldl (fun m kv => <[kv.2 := kv.1]> m) m l = foldl (fun m kv => <[kv.1 := kv.2]> m) m ((fun kv : Z * Z => (kv.2, kv.1)) <$> l).
Proof. revert m. induction l as [|[a b] l IH]; intros m; [done|]. cbn [foldl]. apply IH. Qed.

Lemma insert_located (l : list (Z * Z)) : Forall (fun lt => 0 <= lt.1 < total_points ix) l -> forall m : gmap Z Z,
  foldM (fun lt m => n ← at_loc (new_location ix) lt.1; Ok (<[lt.2 := n]> m)) l m =
  Ok (foldl (fun m kv => <[kv.1 := kv.2]> m) m ((fun lt : Z * Z => (lt.2, new_loc ix lt.1)) <$> l)).
Proof.
  induction 1 as [|lt l Hlt _ IH]; intros m; [done|]. cbn [foldM]. rewrite new_location_at by done. cbn [mbind outcome_bind]. rewrite IH. done.
Qed.

Lemma fill_tags_ok ix' : location_to_tag ix' = location_to_tag ix ->
  exists t2l l2t, fill_tags map_order (new_location ix) ix' = Ok (with_tags t2l l2t ix') /\
    (forall t n, t2l !! t = Some n <-> exists l, tag_to_location ix !! t = Some l /\ n = rank ix l) /\
    (forall t n, t2l !! t = Some n <-> l2t !! n = Some t).
Proof using Hc map_order_perm.
  intros El. unfold fill_tags. rewrite El. pose proof (cp_frozen _ _ Hc) as Hfr.
  assert (Hl2t : forall l t, location_to_tag ix !! l = Some t -> tagged_loc ix l /\ 0 <= l < max_points ix).
  { intros l t Hl. assert (tagged_loc ix l) as Ht by (by exists t). split; [done | by apply (cp_tagged _ _ Hc)]. }
  rewrite insert_located.
  2: { apply Forall_forall. intros [l t] Hl%elem_of_order. cbn [fst snd] in *. apply Hl2t in Hl as [_ Hl]. unfold total_points. lia. }
  cbn [mbind outcome_bind]. set (t2l := foldl _ _ _). assert (Ht2l : forall t n, t2l !! t = Some n <-> exists l, tag_to_location ix !! t = Some l /\ n = rank ix l).
  { intros t n. unfold t2l. rewrite insert_all_lookup.
    - rewrite lookup_empty, list_elem_of_fmap. split.
      + intros [([l t'] & [= -> ->] & Hl%elem_of_order)|[_ ?]]; [|done]. exists l. cbn [fst snd] in *. split; [by apply (cp_tags _ _ Hc)|].
        apply new_loc_tagged. by exists t'.
      + intros (l & Hl & ->). apply (cp_tags _ _ Hc) in Hl. left. exists (l, t). split; [|by apply elem_of_order].
        cbn [fst snd]. rewrite new_loc_tagged by (by exists t). done.
    - pose proof (swapped_fst (location_to_tag ix)) as H. rewrite <- list_fmap_compose in *. apply H. intros i j t' Hi Hj.
      apply (cp_tags _ _ Hc) in Hi, Hj. congruence. }
  eexists t2l, _. split; [reflexivity|]. split; [done|]. intros t n. rewrite swap_all, insert_all_lookup.
  - rewrite lookup_empty, list_elem_of_fmap. split.
    + intros H. left. exists (t, n). split; [done | by apply elem_of_order].
    + intros [([t' n'] & [= -> ->] & H%elem_of_order)|[_ ?]]; done.
  - apply swapped_fst. intros t1 t2 n' (l1 & H1 & E1)%Ht2l (l2 & H2 & E2)%Ht2l.
    apply (cp_tags _ _ Hc) in H1, H2. assert (l1 = l2) as ->; [|congruence].
    destruct (Hl2t _ _ H1) as [T1 B1], (Hl2t _ _ H2) as [T2 B2]. 
    destruct (Z.lt_trichotomy l1 l2) as [Hlt|[Heq|Hlt]]; [|done|]; exfalso.
    + pose proof (rank_lt ix l1 l2 ltac:(lia) T1). lia.
    + pose proof (rank_lt ix l2 l1 ltac:(lia) T2). lia.
Qed.

(** ** Clearing the rest *)
Lemma clear_lists (n : nat) : forall a ix', 0 <= a -> a + Z.of_nat n <= Z.of_nat (length (final_graph ix')) ->
  exists ix'', foldM (fun old ix => set_list old [] ix) (seqZ a (Z.of_nat n)) ix' = Ok ix'' /\ ix'' = with_graph (final_graph ix'') (width ix') ix' /\
    length (final_graph ix'') = length (final_graph ix') /\ forall j, 0 <= j -> list_of ix'' j = if decide (a <= j < a + Z.of_nat n) then Ok [] else list_of ix' j.
Proof.
  induction n as [|n IH]; intros a ix' Ha Hl.
  - exists ix'. split; [done|]. split; [by destruct ix'|]. split; [done|]. intros j Hj. by rewrite decide_False by lia.
  - rewrite seqZ_cons by lia. replace (Z.pred (Z.of_nat (S n))) with (Z.of_nat n) by lia. cbn [foldM]. rewrite put_list by lia. cbn [mbind outcome_bind].
    destruct (IH (Z.succ a) (with_graph (<[Z.to_nat a := []]> (final_graph ix')) (width ix') ix')) as (ix'' & -> & F1 & L1 & E1);
      [lia | cbn [final_graph with_graph]; rewrite length_insert; lia |].
    exists ix''. split; [done|]. split; [by rewrite F1|]. split; [rewrite L1; apply length_insert|]. intros j Hj. rewrite E1 by done.
    rewrite list_of_put by lia. destruct (decide (j = a)) as [->|Hne].
    + rewrite decide_False by lia. by rewrite decide_True by lia.
    + destruct (decide (Z.succ a <= j < Z.succ a + Z.of_nat n)); [by rewrite decide_True by lia | by rewrite decide_False by lia].
Qed.

(** ** The compacted index *)
Lemma new_loc_inj a b : refers ix a -> refers ix b -> new_loc ix a = new_loc ix b -> a = b.
Proof.
  intros [[Ta Ha]| ->] [[Tb Hb]| ->]; rewrite ?new_loc_end; try done.
  - rewrite !new_loc_tagged by done. intros E. destruct (Z.lt_trichotomy a b) as [Hlt|[?|Hlt]]; [|done|].
    + pose proof (rank_lt ix a b ltac:(lia) Ta). lia.
    + pose proof (rank_lt ix b a ltac:(lia) Tb). lia.
  - rewrite new_loc_tagged by done. pose proof (rank_below_end a Ta). lia.
  - rewrite new_loc_tagged by done. pose proof (rank_below_end b Tb). lia.
Qed.

Lemma new_loc_live j : refers ix j -> 0 <= new_loc ix j < nd ix \/ new_loc ix j = max_points ix.
Proof.
  intros [[Tj Hj]| ->]; [left | right; apply new_loc_end]. rewrite new_loc_tagged, (cp_nd _ _ Hc) by done.
  pose proof (rank_lt ix j (max_points ix) ltac:(lia) Tj). pose proof (rank_bound ix j ltac:(lia)). lia.
Qed.

Lemma moved_list i l : refers ix i -> list_of ix i = Ok l ->
  NoDup (new_loc ix <$> l) /\ new_loc ix i ∉ new_loc ix <$> l /\ (length (new_loc ix <$> l) <= SLACK range)%nat /\
  Forall (fun j => 0 <= j < nd ix \/ j = max_points ix) (new_loc ix <$> l).
Proof.
  intros Hi Hl. destruct (cp_lists _ _ Hc i l Hi Hl) as (H1 & H2 & H3 & H4). rewrite Forall_forall in H4. split_and!.
  - apply NoDup_fmap_2_strong; [|done]. intros a b Ha Hb. apply new_loc_inj; by apply H4.
  - intros (j & E & Hj)%list_elem_of_fmap. apply H2. by rewrite (new_loc_inj i j Hi (H4 j Hj) E).
  - by rewrite length_fmap.
  - apply Forall_fmap, Forall_forall. intros j Hj. apply new_loc_live. by apply H4.
Qed.

(** What [compact_data] establishes. *)
Record compacted (ix' : mem_index) : Prop := {
  ct_nd : nd ix' = nd ix /\ max_points ix' = max_points ix;
  ct_deleted : delete_set ix' = ∅;
  ct_tags : forall t n, tag_to_location ix' !! t = Some n <-> exists l, tag_to_location ix !! t = Some l /\ n = rank ix l;
  ct_points : forall i l, tagged_loc ix i -> list_of ix i = Ok l ->
    row ix' (rank ix i) = row ix i /\ list_of ix' (rank ix i) = Ok (new_loc ix <$> l);
  ct_start : forall l, list_of ix (max_points ix) = Ok l -> list_of ix' (max_points ix) = Ok (new_loc ix <$> l);
}.

Lemma compact_data_runs : exists ix', compact_data map_order ix = Ok ix' /\ compacted ix' /\
  (exists t2l l2t, ix' = with_slots (nd ix) ∅ (free_slots ix) false false true
     (with_tags t2l l2t (with_data (mdata ix') (with_graph (final_graph ix') (width ix) ix))) /\ forall t n, t2l !! t = Some n <-> l2t !! n = Some t) /\
  length (final_graph ix') = length (final_graph ix) /\ length (mdata ix') = length (mdata ix) /\
  (forall j, nd ix <= j < max_points ix -> list_of ix' j = Ok []).
Proof using Hc map_order_perm.
  destruct (cp_flags _ _ Hc) as (Ed & Et & El & Ee & Ec). destruct (cp_ep _ _ Hc) as [_ Hep]. pose proof (cp_max _ _ Hc) as Hmx.
  pose proof (cp_frozen _ _ Hc) as Hfr. pose proof (cp_length _ _ Hc) as Hlen. pose proof (rank_bound ix (max_points ix) ltac:(lia)) as Hnd. rewrite <- (cp_nd _ _ Hc) in Hnd.
  unfold compact_data. rewrite Ed, El, Ec. cbn [negb andb]. unfold replace_start. rewrite decide_False by done. cbn [mbind outcome_bind].
  destruct (move_all (Z.to_nat (max_points ix)) ltac:(lia)) as (ix1 & E1 & M1). rewrite Z2Nat.id in E1, M1 by lia.
  rewrite seqZ_app, foldM_app, E1 by lia. cbn [mbind outcome_bind]. replace (seqZ (0 + max_points ix) 1) with [max_points ix] by (by rewrite Z.add_0_l). cbn [foldM].
  destruct (move_end ix1 M1) as (ix2 & l & -> & F2 & G2 & D2 & Hl & E2 & O2 & R2). cbn [mbind outcome_bind].
  destruct (fill_tags_ok ix2) as (t2l & l2t & -> & Ht1 & Ht2); [by rewrite F2|]. cbn [mbind outcome_bind].
  set (ix3 := with_tags t2l l2t ix2). assert (nd ix3 = nd ix /\ max_points ix3 = max_points ix) as [-> ->] by (unfold ix3; by rewrite F2).
  destruct (clear_lists (Z.to_nat (max_points ix - nd ix)) (nd ix) ix3) as (ix4 & E4 & F4 & L4 & O4); [lia | change (final_graph ix3) with (final_graph ix2); unfold total_points in Hlen; lia |].
  rewrite Z2Nat.id in E4, O4 by lia. rewrite E4. cbn [mbind outcome_bind]. assert (E3 : final_graph ix3 = final_graph ix2 /\ mdata ix3 = mdata ix2) by done.
  assert (Fr : ix4 = with_tags t2l l2t (with_data (mdata ix4) (with_graph (final_graph ix4) (width ix) ix))) by (rewrite F4; unfold ix3; by rewrite F2).
  assert (Hrow : forall j, 0 <= j -> row ix4 j = row ix1 j) by (intros j Hj; rewrite F4; change (row ix2 j = row ix1 j); by apply R2).
  eexists. split; [reflexivity|]. split_and!.
  - split; cbn [nd max_points delete_set tag_to_location with_slots].
    + by rewrite Fr.
    + done.
    + intros t n. rewrite Fr. apply Ht1.
    + intros i li Hi Hli. pose proof (cp_tagged _ _ Hc i Hi) as Hb. destruct (mo_done _ _ M1 i li Hi ltac:(lia) Hli) as [A B].
      pose proof (rank_lt ix i (max_points ix) ltac:(lia) Hi) as Hlt. rewrite <- (cp_nd _ _ Hc) in Hlt. pose proof (rank_below_end i Hi).
      split; [change (row ix4 (rank ix i) = row ix i); rewrite Hrow by lia; exact B|].
      change (list_of ix4 (rank ix i) = Ok (new_loc ix <$> li)). rewrite O4, decide_False by lia.
      change (list_of ix2 (rank ix i) = Ok (new_loc ix <$> li)). by rewrite O2 by lia.
    + intros l' Hl'. rewrite Hl in Hl'. injection Hl' as <-. change (list_of ix4 (max_points ix) = Ok (new_loc ix <$> l)). rewrite O4, decide_False by lia. exact E2.
  - exists t2l, l2t. split; [|done]. unfold free_slots. by rewrite Fr.
  - cbn [final_graph with_slots]. rewrite L4. by destruct E3 as [-> _].
  - cbn [mdata with_slots]. rewrite F4. exact D2.
  - intros j Hj. change (list_of ix4 j = Ok []). by rewrite O4, decide_True by lia.
Qed.

Lemma compact_data_ok : exists ix', compact_data map_order ix = Ok ix' /\ compacted ix' /\ dyn_ok range ix'.
Proof using Hc map_order_perm.
  destruct compact_data_runs as (ix' & -> & Hct & (t2l & l2t & Fr & Ht) & Hg & Hd & Hb). exists ix'. split; [done|]. split; [done|].
  pose proof (cp_max _ _ Hc) as Hmx. pose proof (cp_frozen _ _ Hc) as Hfr. pose proof (cp_length _ _ Hc) as Hlen.
  pose proof (rank_bound ix (max_points ix) ltac:(lia)) as Hnd. rewrite <- (cp_nd _ _ Hc) in Hnd. destruct (cp_ep _ _ Hc) as [Hep _].
  destruct Hct as [[En Em] Ed Htl Hpt Hst]. assert (Ef : num_frozen_pts ix' = 1 /\ ep ix' = max_points ix) by (rewrite Fr; done). destruct Ef as [Ef Ee].
  assert (Htp : total_points ix' = total_points ix) by (unfold total_points; by rewrite Em, Ef, Hfr).
  assert (Ht' : forall t n, tag_to_location ix' !! t = Some n <-> location_to_tag ix' !! n = Some t) by (rewrite Fr; done).
  assert (Hslot : forall n, 0 <= n < nd ix -> exists i, tagged_loc ix i /\ rank ix i = n).
  { intros n Hn. rewrite (cp_nd _ _ Hc) in Hn. destruct (rank_onto ix (Z.to_nat (max_points ix)) n) as (i & _ & Hi & E); [by rewrite Z2Nat.id by lia|]. by exists i. }
  assert (Hlists : forall j l, 0 <= j < nd ix \/ j = max_points ix -> list_of ix' j = Ok l ->
    NoDup l /\ j ∉ l /\ (length l <= SLACK range)%nat /\ Forall (fun j => 0 <= j < nd ix \/ j = max_points ix) l).
  { intros j l Hj Hl. assert (exists i li, refers ix i /\ list_of ix i = Ok li /\ new_loc ix i = j /\ l = new_loc ix <$> li) as (i & li & Hi & Hli & <- & ->).
    { assert (Hk : forall i, 0 <= i < total_points ix -> exists li, list_of ix i = Ok li).
      { intros i Hi. destruct (lookup_lt_is_Some_2 (final_graph ix) (Z.to_nat i)) as [li E]; [lia|]. exists li. by apply list_of_Some. }
      destruct Hj as [Hj| ->].
      - destruct (Hslot j Hj) as (i & Hi & <-). pose proof (cp_tagged _ _ Hc i Hi). destruct (Hk i) as [li Hli]; [unfold total_points; lia|].
        destruct (Hpt i li Hi Hli) as [_ E]. exists i, li. split_and!; [by left | done | by apply new_loc_tagged | congruence].
      - destruct (Hk (max_points ix)) as [li Hli]; [unfold total_points; lia|]. exists (max_points ix), li.
        split_and!; [by right | done | apply new_loc_end | rewrite (Hst li Hli) in Hl; congruence]. }
    by apply moved_list. }
  split; rewrite ?En, ?Em, ?Ed, ?Ef, ?Ee; try done; try lia.
  - apply linked_intro; [lia | by rewrite Hg, Htp |]. intros i l Hi Hl. destruct (decide (nd ix <= i < max_points ix)) as [Hr|Hr].
    + rewrite Hb in Hl by done. injection Hl as <-. apply good_nil.
    + destruct (Hlists i l) as (A & B & C & D); [unfold in_index in Hi; rewrite Htp in Hi; unfold total_points in Hi; lia | done |]. split_and!; try done.
      eapply Forall_impl; [exact D|]. intros j Hj. cbv beta in Hj. unfold in_index. rewrite Htp. unfold total_points. lia.
  - by rewrite Hd, Htp, <- (cp_rows _ _ Hc).
  - destruct (cp_flags _ _ Hc) as (A & B & _). by rewrite Fr.
  - intros n. split.
    + intros Hn. left. destruct (Hslot n Hn) as (i & [t Hi] & <-). exists t. apply Ht', Htl. exists i. split; [by apply (cp_tags _ _ Hc) | done].
    + intros [[t Hn]|?]; [|set_solver]. apply Ht', Htl in Hn as (i & Hi & ->). apply (cp_tags _ _ Hc) in Hi. assert (Ti : tagged_loc ix i) by (by exists t).
      pose proof (rank_below_end i Ti). pose proof (cp_tagged _ _ Hc i Ti). pose proof (rank_lt ix i (max_points ix) ltac:(lia) Ti). rewrite (cp_nd _ _ Hc). lia.
  - rewrite Fr. done.
  - apply within_intro; unfold live; rewrite En, Em; [lia|]. intros i l Hi Hl. by apply (Hlists i l).
Qed.
End moving.

(** ** From consolidation to compaction *)
Lemma filter_split {A} (P : A -> Prop) `{!forall x, Decision (P x)} (l : list A) :
  (length (filter P l) + length (filter (fun x => ~ P x) l) = length l)%nat.
Proof. induction l as [|x l IH]; [done|]. rewrite !filter_cons. case_decide; case_decide; try tauto; cbn [length]; lia. Qed.

Lemma tag_count range ix : dyn_ok range ix -> nd ix - Z.of_nat (size (delete_set ix)) = rank ix (max_points ix).
Proof.
  intros Hok. pose proof (dy_nd _ _ Hok) as Hnd. pose proof (dy_slots _ _ Hok) as Hs.
  assert (E : rank ix (max_points ix) = rank ix (nd ix)).
  { unfold rank. replace (max_points ix) with (nd ix + (max_points ix - nd ix)) by lia. rewrite seqZ_app, filter_app, length_app by lia.
    rewrite (filter_none _ (seqZ (0 + nd ix) _)); [cbn [length]; lia|]. apply Forall_forall. intros i Hi Ht. apply elem_of_seqZ in Hi.
    assert (0 <= i < nd ix) by (apply Hs; by left). lia. }
  rewrite E. unfold rank. pose proof (filter_split (tagged_loc ix) (seqZ 0 (nd ix))) as Hsp. rewrite length_seqZ in Hsp.
  assert (Hd : delete_set ix = list_to_set (filter (fun i => ~ tagged_loc ix i) (seqZ 0 (nd ix)))).
  { apply leibniz_equiv. intros i. rewrite elem_of_list_to_set, list_elem_of_filter, elem_of_seqZ. split.
    - intros Hi. pose proof (dy_disj _ _ Hok i Hi). assert (0 <= i < nd ix) by (apply Hs; by right). split; [|lia]. intros [t Ht]. congruence.
    - intros [Hn Hi]. assert (0 <= i < nd ix) as [?|?]%Hs by lia; done. }
  rewrite Hd, size_list_to_set by (apply NoDup_filter, NoDup_seqZ).
  lia.
Qed.

Section composed.
Context {F : Type} `{!FloatOps F}.
Context (compare : list Z -> list Z -> F) (alpha : F) (range maxc Lsize pfuel nr : nat).
Context (Hpar : params_ok alpha range maxc Lsize pfuel nr).
Context (set_order : gset Z -> list Z) (set_order_perm : forall s, set_order s ≡ₚ elements s).
Context (ix : mem_index) (Hok : dyn_ok range ix).
Abbreviation final i := (final_list compare alpha range maxc pfuel set_order ix i).

Lemma refers_live i : refers ix i <-> live ix i /\ i ∉ delete_set ix.
Proof.
  pose proof (dy_nd _ _ Hok) as Hnd. pose proof (dy_slots _ _ Hok) as Hs. split.
  - intros [[Ht Hi]| ->].
    + split; [left; apply Hs; by left|]. intros Hd. pose proof (dy_disj _ _ Hok i Hd). destruct Ht. congruence.
    + split; [by right|]. intros Hd. assert (0 <= max_points ix < nd ix) by (apply Hs; by right). lia.
  - intros [[Hi| ->] Hd]; [left | by right]. split; [|lia]. apply Hs in Hi as [?|?]; done.
Qed.

Lemma bypass_refers i j : live ix i -> bypass ix i j -> refers ix j.
Proof.
  intros Hi (Hj & l & Hl & Hor). apply refers_live. split; [|done]. pose proof (dy_nd _ _ Hok).
  pose proof (within_list (live ix) ix i l (dy_live _ _ Hok) ltac:(unfold live in Hi; lia) Hi Hl) as HF. rewrite Forall_forall in HF.
  destruct Hor as [?|(d & out & Hd & _ & Ho & Hjo)]; [by apply HF|]. pose proof (HF d Hd) as Hld.
  pose proof (within_list (live ix) ix d out (dy_live _ _ Hok) ltac:(unfold live in Hld; lia) Hld Ho) as HF2. rewrite Forall_forall in HF2. by apply HF2.
Qed.

(** The list of a node that stays. *)
Lemma final_list_ok i : refers ix i -> exists l, final i = Ok l /\ NoDup l /\ i ∉ l /\ (length l <= SLACK range)%nat /\ forall j, j ∈ l -> bypass ix i j.
Proof using Hpar set_order_perm Hok.
  intros Hi. pose proof Hi as [Hlv Hnd]%refers_live. pose proof (dy_linked _ _ Hok) as Hlk. assert (Hin : in_index ix i) by (by apply (live_in_index range)).
  destruct (list_of_known ix (lk_ok _ _ Hlk) i Hin) as (l & El & _). destruct (linked_list range ix i l Hlk Hin El) as (G1 & G2 & G3 & _).
  destruct (new_list_spec compare alpha range maxc Lsize pfuel nr Hpar set_order set_order_perm ix i l Hlk Hin El) as (r & Er & Hr).
  unfold final_list. rewrite Er. destruct r as [l'|].
  - destruct Hr as (H1 & H2 & H3 & H4). exists l'. rewrite decide_False.
    + split_and!; try done. etrans; [exact H3 | apply range_slack].
    + intros [?|He]; [done|]. rewrite (dy_empty _ _ Hok), elem_free_slots in He. unfold live in Hlv. lia.
  - exists l. split_and!; try done. intros j Hj. split; [by apply Hr|]. exists l. split; [done | by left].
Qed.

Lemma consolidated_compactable ix' : delete_set ix <> ∅ -> consolidated compare alpha range maxc pfuel set_order ix ix' -> compactable range ix'.
Proof using Hpar set_order_perm Hok.
  intros Hne [F1 Hlen Hl]. destruct (dy_flags _ _ Hok) as (A & B & C & _). pose proof (dy_nd _ _ Hok) as Hnd.
  assert (Hr : forall i, refers ix' i <-> refers ix i) by (intros i; by rewrite F1).
  split; try (rewrite F1; apply Hok).
  - rewrite F1. split; [apply Hok|]. cbn [ep delete_set with_slots with_graph]. rewrite (dy_ep _ _ Hok). intros Hd%(deleted_in range ix _ Hok). lia.
  - rewrite Hlen, F1. apply (lk_ok _ _ (dy_linked _ _ Hok)).
  - rewrite F1. split_and!; [done | done | by apply (dy_lazy _ _ Hok) | done |]. cbn [data_compacted with_slots]. apply bool_decide_eq_false_2.
    intros E%size_empty_iff. apply Hne. by apply leibniz_equiv.
  - intros i Ht. rewrite F1 in Ht |- *. assert (0 <= i < nd ix) by (apply (dy_slots _ _ Hok); by left). cbn [max_points with_slots with_graph]. lia.
  - pose proof (tag_count range ix Hok) as E. rewrite F1. exact E.
  - intros i l Hi Hli. apply Hr in Hi. pose proof Hi as [Hlv _]%refers_live. rewrite Hl in Hli by (by apply (live_in_index range)).
    destruct (final_list_ok i Hi) as (l' & E & H1 & H2 & H3 & H4). rewrite E in Hli. injection Hli as <-. split_and!; try done.
    apply Forall_forall. intros j Hj. apply Hr. by apply (bypass_refers i), H4.
Qed.

Context (map_order : gmap Z Z -> list (Z * Z)) (map_order_perm : forall m, map_order m ≡ₚ map_to_list m).

Lemma consolidate_nothing ix' : delete_set ix = ∅ -> consolidated compare alpha range maxc pfuel set_order ix ix' ->
  compact_data map_order ix' = Ok ix' /\ final_graph ix' = final_graph ix /\ dyn_ok range ix'.
Proof using Hpar set_order_perm Hok.
  intros He [F1 Hlen Hl]. pose proof (dy_linked _ _ Hok) as Hlk.
  assert (Eg : final_graph ix' = final_graph ix).
  { apply list_of_inj; [done | apply Hlk |]. intros i Hi. rewrite Hl by done. unfold final_list.
    destruct (list_of_known ix (lk_ok _ _ Hlk) i Hi) as (l & El & _).
    unfold new_list. rewrite El. cbn [mbind outcome_bind]. destruct (linked_list range ix i l Hlk Hi El) as (_ & _ & _ & Hin).
    destruct (candidates_spec ix (lk_ok _ _ Hlk) l ∅ false Hin) as (cs & m & -> & Hm & _). cbn [mbind outcome_bind]. destruct m; [|done].
    exfalso. destruct (proj1 Hm eq_refl) as [?|(d & _ & Hd)]; [done|]. rewrite He in Hd. by apply elem_of_empty in Hd. }
  rewrite Eg, He, size_empty, Z.sub_0_r, (right_id_L ∅ (∪)) in F1. destruct (dy_flags _ _ Hok) as (A & B & C & D).
  assert (E : ix' = ix) by (rewrite F1; destruct ix; cbn in *; subst; done). rewrite E. split_and!; try done.
  unfold compact_data. rewrite A, D. by destruct (lazy_done ix), (eager_done ix).
Qed.
End composed.

(** The node [n] of the result is the node [j] of the given index. *)
Definition same_point (ix ix' : mem_index) (j n : Z) : Prop :=
  (j = max_points ix /\ n = max_points ix') \/
  exists t, tag_to_location ix !! t = Some j /\ tag_to_location ix' !! t = Some n.

(** The points that have a tag, and their neighbours, after a consolidation. *)
Definition points_kept (ix ix' : mem_index) : Prop :=
  forall t l, tag_to_location ix !! t = Some l ->
    exists n out, tag_to_location ix' !! t = Some n /\ row ix' n = row ix l /\ list_of ix' n = Ok out /\
      forall k, k ∈ out -> exists j, bypass ix l j /\ same_point ix ix' j k.

Section kept.
Context {F : Type} `{!FloatOps F} (compare : list Z -> list Z -> F) (alpha : F) (range maxc Lsize pfuel nr : nat).
Context (Hpar : params_ok alpha range maxc Lsize pfuel nr).
Context (set_order : gset Z -> list Z) (Hso : forall s, set_order s ≡ₚ elements s).
Context (map_order : gmap Z Z -> list (Z * Z)) (Hmo : forall m, map_order m ≡ₚ map_to_list m).
Context (ix ixc : mem_index) (Hok : dyn_ok range ix) (Hc : consolidated compare alpha range maxc pfuel set_order ix ixc).

Lemma tag_refers t l : tag_to_location ix !! t = Some l -> refers ix l.
Proof using Hok.
  intros Hl. apply (dy_tags _ _ Hok) in Hl. left. assert (tagged_loc ix l) as T by (by exists t). split; [done|].
  assert (0 <= l < nd ix) by (apply (dy_slots _ _ Hok); by left). pose proof (dy_nd _ _ Hok). lia.
Qed.

Lemma kept_unchanged : delete_set ix = ∅ -> exists ix', compact_data map_order ixc = Ok ix' /\ dyn_ok range ix' /\ delete_set ix' = ∅ /\
  nd ix' = nd ix - Z.of_nat (size (delete_set ix)) /\ points_kept ix ix'.
Proof using Hpar Hso Hok Hc.
  intros He. destruct (consolidate_nothing compare alpha range maxc Lsize pfuel nr Hpar set_order Hso ix Hok map_order ixc He Hc) as (E & Eg & Hok').
  assert (Et : tag_to_location ixc = tag_to_location ix /\ delete_set ixc = ∅ /\ nd ixc = nd ix - Z.of_nat (size (delete_set ix)) /\ mdata ixc = mdata ix)
    by (rewrite (cn_frame _ _ _ _ _ _ _ _ Hc); done).
  destruct Et as (Et & Ed & En & Em). exists ixc. do 4 (split; [done|]).
  intros t l Hl. pose proof (tag_refers t l Hl) as Hr. pose proof Hr as [Hlv _]%(refers_live range ix Hok).
  destruct (list_of_known ix (lk_ok _ _ (dy_linked _ _ Hok)) l) as (out & Eo & _); [by apply (live_in_index range)|].
  exists l, out. rewrite Et. split_and!; [done | unfold row; by rewrite Em | unfold list_of in *; by rewrite Eg |].
  intros k Hk. assert (bypass ix l k) as Hb by (split; [rewrite He; apply not_elem_of_empty | exists out; split; [done | by left]]).
  exists k. split; [done|]. destruct (bypass_refers range ix Hok l k Hlv Hb) as [[[t' Ht'] _]| ->].
  - right. apply (dy_tags _ _ Hok) in Ht'. exists t'. by rewrite Et.
  - left. split; [done|]. by rewrite (cn_frame _ _ _ _ _ _ _ _ Hc).
Qed.

Lemma kept_compacted : delete_set ix <> ∅ -> exists ix', compact_data map_order ixc = Ok ix' /\ dyn_ok range ix' /\ delete_set ix' = ∅ /\
  nd ix' = nd ix - Z.of_nat (size (delete_set ix)) /\ points_kept ix ix'.
Proof using Hpar Hso Hmo Hok Hc.
  intros Hne. pose proof (consolidated_compactable compare alpha range maxc Lsize pfuel nr Hpar set_order Hso ix Hok ixc Hne Hc) as Hcp.
  destruct (compact_data_ok range ixc Hcp map_order Hmo) as (ix' & E & Hct & Hok'). exists ix'. do 2 (split; [done|]).
  destruct Hct as [[En Em] Ed Htl Hpt Hst]. pose proof (cn_frame _ _ _ _ _ _ _ _ Hc) as Fc.
  assert (Et : tag_to_location ixc = tag_to_location ix /\ location_to_tag ixc = location_to_tag ix /\ nd ixc = nd ix - Z.of_nat (size (delete_set ix)) /\
    max_points ixc = max_points ix /\ forall i, row ixc i = row ix i) by (rewrite Fc; done).
  destruct Et as (Et & El & Enc & Emc & Erow). split; [done|]. split; [by rewrite En|].
  intros t l Hl. pose proof (tag_refers t l Hl) as Hr. pose proof Hr as [Hlv _]%(refers_live range ix Hok).
  destruct (final_list_ok compare alpha range maxc Lsize pfuel nr Hpar set_order Hso ix Hok l Hr) as (out & Eo & _ & _ & _ & Hb).
  assert (Tl : tagged_loc ixc l) by (exists t; rewrite El; by apply (dy_tags _ _ Hok)).
  assert (Eoc : list_of ixc l = Ok out) by (rewrite (cn_lists _ _ _ _ _ _ _ _ Hc); [done | by apply (live_in_index range)]).
  destruct (Hpt l out Tl Eoc) as [R1 R2]. exists (rank ixc l), (new_loc ixc <$> out).
  split; [apply Htl; exists l; by rewrite Et|]. split; [by rewrite R1|]. split; [done|].
  intros k (j & -> & Hj)%list_elem_of_fmap. exists j. split; [by apply Hb|]. pose proof (bypass_refers range ix Hok l j Hlv (Hb j Hj)) as [[[t' Ht'] _]| ->].
  - right. exists t'. apply (dy_tags _ _ Hok) in Ht'. split; [done|]. apply Htl. exists j. rewrite Et. split; [done|]. apply new_loc_tagged. exists t'. rewrite El.
    by apply (dy_tags _ _ Hok).
  - left. split; [done|]. rewrite <- Emc at 1. rewrite (new_loc_end range ixc Hcp). by rewrite Em.
Qed.
End kept.

(** C24. Consolidating a dynamic index, with the nodes processed in any order
    and with any iteration order of the hash sets and maps, always succeeds
    with the same result: no deleted points are left, the invariant holds, and
    every tag has kept its vector.  The neighbours of a point are former
    neighbours, or former neighbours of deleted former neighbours, under their
    new numbers. *)
Theorem consolidate_correct {F} `{!FloatOps F} (compare : list Z -> list Z -> F) alpha range maxc Lsize pfuel nr set_order map_order ix :
  params_ok alpha range maxc Lsize pfuel nr -> (forall s, set_order s ≡ₚ elements s) -> (forall m, map_order m ≡ₚ map_to_list m) ->
  dyn_ok range ix ->
  exists ix', (forall order, order ≡ₚ seqZ 0 (total_points ix) ->
      consolidate compare alpha range maxc pfuel set_order map_order order ix = Ok ix') /\
    dyn_ok range ix' /\ delete_set ix' = ∅ /\ nd ix' = nd ix - Z.of_nat (size (delete_set ix)) /\ points_kept ix ix'.
Proof.
  intros Hpar Hso Hmo Hok. pose proof (mg_length _ (lk_ok _ _ (dy_linked _ _ Hok))) as Hlen.
  destruct (consolidate_deletes_ok compare alpha range maxc Lsize pfuel nr Hpar set_order Hso ix _ Hok (reflexivity _)) as (ixc & _ & Hc).
  assert (exists ix', compact_data map_order ixc = Ok ix' /\ dyn_ok range ix' /\ delete_set ix' = ∅ /\
    nd ix' = nd ix - Z.of_nat (size (delete_set ix)) /\ points_kept ix ix') as (ix' & E & H).
  { destruct (decide (delete_set ix = ∅)); [by eapply kept_unchanged | by eapply kept_compacted]. }
  exists ix'. split; [|done]. intros order Hord.
  destruct (consolidate_deletes_ok compare alpha range maxc Lsize pfuel nr Hpar set_order Hso ix order Hok Hord) as (ix1 & E1 & C1).
  unfold consolidate. rewrite E1. cbn [mbind outcome_bind]. by rewrite (consolidated_inj compare alpha range maxc pfuel set_order ix ix1 ixc Hlen C1 Hc).
Qed.

(** Two points, the first one deleted. *)
Definition two_points : mem_index := with_tag 43 1 (bump (with_tag 42 0 (bump (empty_index 2)))).

Lemma two_points_ok : dyn_ok 2 two_points.
Proof.
  apply (take_slot_ok 2 (with_tag 42 0 (bump (empty_index 2))) 43); [|done | done].
  apply (take_slot_ok 2 (empty_index 2) 42); [apply empty_index_ok; lia | done | done].
Qed.

Lemma consolidate_witness : exists ix', (forall order, order ≡ₚ seqZ 0 (total_points (drop_tag 42 0 two_points)) ->
    consolidate line_compare F32_1_2f 2 750 5 elements map_to_list order (drop_tag 42 0 two_points) = Ok ix') /\
  dyn_ok 2 ix' /\ delete_set ix' = ∅ /\ nd ix' = nd (drop_tag 42 0 two_points) - Z.of_nat (size (delete_set (drop_tag 42 0 two_points))) /\
  points_kept (drop_tag 42 0 two_points) ix'.
Proof.
  apply (consolidate_correct line_compare F32_1_2f 2 750 2 5 2);
    [apply line_params | by intros s | by intros m | apply drop_tag_ok; [apply two_points_ok | by vm_compute]].
Defined.

(** Three points, the middle one deleted. *)
Example consolidate_bypasses : exists ix ix',
  foldM (fun p => insert_point line_compare F32_1_2f 2 750 2 60 5 elements 1 1 [p] p) [10; 20; 30] (empty_index 4) = Ok ix /\
  consolidate line_compare F32_1_2f 2 750 5 elements map_to_list [4; 3; 2; 1; 0] (lazy_delete_all [20] [] ix).1.2 = Ok ix' /\
  final_graph ix = [[4; 1]; [4; 0]; [4]; []; [1; 2]] /\
  final_graph ix' = [[4]; [4]; []; []; [1]] /\ mdata ix' = [[10]; [30]; [30]; []; [25]].
Proof. do 2 eexists. split; [by vm_compute|]. split; [by vm_compute|]. split_and!; by vm_compute. Qed.
