(* ===== verification/Files.v ===== *)
(** * Files

    A file is the list of its bytes.  [pwrite] and the stream operations of the
    standard library, and the binary format of the data files
    ([include/utils.h]): two 32-bit words, the number of rows and of columns,
    and the rows ([save_bin], [load_bin], [get_bin_metadata]). *)
From S2P Require Import Prelude Layout Node.

(** [pwrite] extends a file with zeros up to the offset. *)
Definition pwrite (f : list Z) (w : nat * list Z) : list Z :=
  let '(off, data) := w in
  let f := f ++ replicate (off - length f) 0 in
  take off f ++ data ++ drop (off + length data) f.

Definition covers (w : nat * list Z) (p : nat) : Prop := (w.1 <= p < w.1 + length w.2)%nat.

Lemma pwrite_length f off data : length (pwrite f (off, data)) = Nat.max (length f) (off + length data)%nat.
Proof. simpl. rewrite !length_app, length_take, length_drop, !length_app, length_replicate. lia. Qed.

Lemma pwrite_in f w p : covers w p -> pwrite f w !! p = w.2 !! (p - w.1)%nat.
Proof.
  destruct w as [off data]. unfold covers; simpl. intros Hp.
  assert (length (take off (f ++ replicate (off - length f) 0)) = off) as Hl
    by (rewrite length_take, length_app, length_replicate; lia).
  rewrite lookup_app_r by lia. rewrite Hl. by rewrite lookup_app_l by lia.
Qed.

Lemma pwrite_out f w p b : ~ covers w p -> f !! p = Some b -> pwrite f w !! p = Some b.
Proof.
  destruct w as [off data]. unfold covers; simpl. intros Hp Hb. pose proof (lookup_lt_Some _ _ _ Hb) as Hlt.
  assert (length (take off (f ++ replicate (off - length f) 0)) = off) as Hl
    by (rewrite length_take, length_app, length_replicate; lia).
  assert ((f ++ replicate (off - length f) 0) !! p = Some b) as Hf by (by rewrite lookup_app_l).
  destruct (decide (p < off)%nat) as [Hlo|Hlo].
  - rewrite lookup_app_l by lia. by rewrite lookup_take_lt.
  - rewrite lookup_app_r by lia. rewrite Hl, lookup_app_r by lia. rewrite lookup_drop.
    by replace (off + length data + (p - off - length data))%nat with p by lia.
Qed.


Lemma pwrite_lookup f off data p :
  pwrite f (off, data) !! p =
  if decide (off <= p < off + length data)%nat then data !! (p - off)%nat
  else if decide (length f <= p < off)%nat then Some 0 else f !! p.
Proof.
  unfold pwrite. set (f' := f ++ replicate (off - length f) 0).
  assert (length (take off f') = off) as Hl by (unfold f'; rewrite length_take, length_app, length_replicate; lia).
  assert (Hf' : forall q, f' !! q = if decide (length f <= q < off)%nat then Some 0 else f !! q).
  { intros q. unfold f'. destruct (decide (q < length f)%nat).
    - rewrite decide_False by lia. by rewrite lookup_app_l.
    - rewrite lookup_app_r by lia. case_decide.
      + by rewrite lookup_replicate_2 by lia.
      + rewrite (lookup_ge_None_2 f) by lia. apply lookup_ge_None_2. rewrite length_replicate. lia. }
  case_decide as Hin.
  - rewrite lookup_app_r by lia. rewrite Hl. by rewrite lookup_app_l by lia.
  - rewrite <- Hf'. destruct (decide (p < off)%nat).
    + rewrite lookup_app_l by lia. by rewrite lookup_take_lt.
    + rewrite lookup_app_r by lia. rewrite Hl, lookup_app_r by lia. rewrite lookup_drop. f_equal. lia.
Qed.

(** A write at the end of a file appends. *)
Lemma pwrite_end f data : pwrite f (length f, data) = f ++ data.
Proof.
  unfold pwrite. rewrite Nat.sub_diag. simpl. rewrite app_nil_r, firstn_all.
  rewrite drop_ge by lia. by rewrite app_nil_r.
Qed.

(** ** Input streams

    [std::ifstream]: what is left to read, [None] once a read has hit the end
    of the file; after that every operation fails. *)
Definition ifstream : Type := option (list Z).

Definition ifs_read (n : nat) (s : ifstream) : list Z * ifstream :=
  match s with
  | Some rest => (take n rest, if bool_decide (n <= length rest)%nat then Some (drop n rest) else None)
  | None => ([], None)
  end.

(** [seekg(n, cur)] forward. *)
Definition ifs_skip (n : nat) (s : ifstream) : ifstream := drop n <$> s.

(** ** The binary format *)
Definition bytes_at (f : list Z) : Z -> Z := fun a => f !!! Z.to_nat a.

(** The two words of the header; [npts] and [dim] go through [int]. *)
Definition bin_header (npts ndims : Z) : list Z := le32 (u32 npts) ++ le32 (u32 ndims).

(** [data]: the bytes of the rows, [size] the size of an element. *)
Definition save_bin (size : Z) (data : list Z) (npts ndims : Z) (offset : nat) (f : list Z) : list Z * Z :=
  let f := pwrite f (offset, bin_header npts ndims) in
  let n := Z.to_nat (u64 (npts * ndims * size)) in
  (pwrite f ((offset + 8)%nat, take n data), u64 (u64 (npts * ndims * size) + 8)).

Definition load_bin (size : Z) (f : list Z) (offset : nat) : Z * Z * list Z :=
  let s := ifs_skip offset (Some f) in
  let '(b1, s) := ifs_read 4 s in
  let '(b2, s) := ifs_read 4 s in
  let npts := read_u32 (bytes_at b1) 0 in
  let dim := read_u32 (bytes_at b2) 0 in
  let n := Z.to_nat (u64 (npts * dim * size)) in
  let '(b, _) := ifs_read n s in
  (* [data.resize(npts * dim)] *)
  (npts, dim, b ++ replicate (n - length b) 0).

(** [size_t] from [int]: the sign is extended. *)
Definition size_of_int (x : Z) : Z := if x <? 2 ^ 31 then x else x + (2 ^ 64 - 2 ^ 32).

Definition get_bin_metadata (f : list Z) (offset : nat) : Z * Z :=
  let s := ifs_skip offset (Some f) in
  let '(b1, s) := ifs_read 4 s in
  let '(b2, _) := ifs_read 4 s in
  (size_of_int (read_u32 (bytes_at b1) 0), size_of_int (read_u32 (bytes_at b2) 0)).

Lemma length_le32 x : length (le32 x) = 4%nat.
Proof. done. Qed.

(** Four bytes read back as a word. *)
Lemma read_u32_bytes x : 0 <= x < 2 ^ 32 -> read_u32 (bytes_at (le32 x)) 0 = x.
Proof.
  intros Hx. apply read_u32_le32; [done|]. intros k b Hk. unfold bytes_at.
  rewrite Z.add_0_l, Nat2Z.id. by apply list_lookup_total_correct.
Qed.

Lemma ifs_read_app n a b : length a = n -> ifs_read n (Some (a ++ b)) = (a, Some b).
Proof.
  intros <-. unfold ifs_read. rewrite take_app_length, drop_app_length.
  by rewrite bool_decide_eq_true_2 by (rewrite length_app; lia).
Qed.

(** A file that holds [data] in the binary format at [offset]. *)
Definition bin_at (f : list Z) (offset : nat) (npts ndims : Z) (data : list Z) : Prop :=
  exists rest, drop offset f = bin_header npts ndims ++ data ++ rest.

Lemma save_bin_at size data npts ndims offset f :
  Z.of_nat (length data) = npts * ndims * size -> npts * ndims * size < 2 ^ 64 ->
  bin_at (save_bin size data npts ndims offset f).1 offset npts ndims data.
Proof.
  intros Hl Hs. unfold save_bin. cbn [fst]. rewrite u64_small by lia. rewrite take_ge by lia.
  set (f1 := pwrite f (offset, bin_header npts ndims)).
  exists (drop (offset + 8 + length data) f1).
  apply list_eq. intros i. rewrite lookup_drop, pwrite_lookup.
  assert (Hh : length (bin_header npts ndims) = 8%nat) by done.
  assert (Hf1 : (offset + 8 <= length f1)%nat) by (unfold f1; rewrite pwrite_length, Hh; lia).
  case_decide as E1.
  - rewrite lookup_app_r by lia. rewrite lookup_app_l by lia. f_equal. lia.
  - rewrite decide_False by lia. destruct (decide (i < 8)%nat).
    + rewrite lookup_app_l by lia. unfold f1. rewrite pwrite_lookup, decide_True by lia. f_equal. lia.
    + rewrite lookup_app_r, lookup_app_r, lookup_drop by lia. f_equal. lia.
Qed.

Lemma load_bin_at size f offset npts ndims data :
  bin_at f offset npts ndims data -> 0 <= npts < 2 ^ 32 -> 0 <= ndims < 2 ^ 32 ->
  Z.of_nat (length data) = npts * ndims * size -> npts * ndims * size < 2 ^ 64 ->
  load_bin size f offset = (npts, ndims, data).
Proof.
  intros [rest E] Hn Hd Hl Hs. unfold load_bin, ifs_skip. cbn [fmap option_fmap option_map]. rewrite E.
  unfold bin_header. rewrite <- !app_assoc. rewrite (ifs_read_app 4) by done. rewrite (ifs_read_app 4) by done.
  rewrite !u32_small by lia. rewrite !read_u32_bytes by lia. rewrite u64_small by lia.
  rewrite ifs_read_app by lia. replace (Z.to_nat (npts * ndims * size) - length data)%nat with 0%nat by lia.
  by rewrite app_nil_r.
Qed.

Lemma get_bin_metadata_at f offset npts ndims data :
  bin_at f offset npts ndims data -> 0 <= npts < 2 ^ 32 -> 0 <= ndims < 2 ^ 32 ->
  get_bin_metadata f offset = (size_of_int npts, size_of_int ndims).
Proof.
  intros [rest E] Hn Hd. unfold get_bin_metadata, ifs_skip. cbn [fmap option_fmap option_map]. rewrite E.
  unfold bin_header. rewrite <- !app_assoc. rewrite (ifs_read_app 4) by done. rewrite (ifs_read_app 4) by done.
  rewrite !u32_small by lia. by rewrite !read_u32_bytes by lia.
Qed.

(** Round trip of the binary format: what [save_bin] writes at an offset of
    any file, [load_bin] reads back, rows and both counts, and
    [get_bin_metadata] agrees with it on the counts if and only if they are
    below [2^31] (it widens the header as a signed integer). *)
Theorem save_load_bin size data npts ndims offset f :
  0 <= npts < 2 ^ 32 -> 0 <= ndims < 2 ^ 32 ->
  Z.of_nat (length data) = npts * ndims * size -> npts * ndims * size < 2 ^ 64 ->
  let f' := (save_bin size data npts ndims offset f).1 in
  load_bin size f' offset = (npts, ndims, data) /\
  (get_bin_metadata f' offset = (npts, ndims) <-> npts < 2 ^ 31 /\ ndims < 2 ^ 31).
Proof.
  intros Hn Hd Hl Hs f'. pose proof (save_bin_at size data npts ndims offset f Hl Hs) as Hat. fold f' in Hat.
  split; [by apply load_bin_at|]. rewrite (get_bin_metadata_at _ _ _ _ _ Hat Hn Hd). unfold size_of_int.
  destruct (Z.ltb_spec npts (2 ^ 31)), (Z.ltb_spec ndims (2 ^ 31)); (split; [intros [=]|]; lia || (intros; f_equal; lia)).
Qed.

Lemma save_load_bin_witness :
  let f' := (save_bin 4 (le32 7 ++ le32 300) 2 1 3 [9; 9]).1 in
  load_bin 4 f' 3 = (2, 1, le32 7 ++ le32 300) /\
  (get_bin_metadata f' 3 = (2, 1) <-> 2 < 2 ^ 31 /\ 1 < 2 ^ 31).
Proof. apply (save_load_bin 4 (le32 7 ++ le32 300) 2 1 3 [9; 9]); [lia | lia | done | lia]. Defined.

(** ** Words *)
(** [reader.read] of [n] words. *)
Definition words (n : nat) (bs : list Z) : list Z := (fun i : nat => read_u32 (bytes_at bs) (4 * Z.of_nat i)) <$> seq 0 n.

Definition ids32 (l : list Z) : Prop := Forall (fun id => 0 <= id < 2 ^ 32) l.

Lemma words_bytes l : ids32 l -> words (length l) (l ≫= le32) = l.
Proof.
  unfold ids32. rewrite Forall_forall. intros Hl. apply list_eq. intros i. unfold words. rewrite list_lookup_fmap.
  destruct (decide (i < length l)%nat) as [Hi|Hi].
  - rewrite lookup_seq_lt by lia. destruct (lookup_lt_is_Some_2 l i Hi) as [x Hx]. rewrite Hx. simpl. f_equal.
    apply read_u32_le32; [apply Hl; by eapply list_elem_of_lookup_2|]. intros k b Hk. unfold bytes_at.
    apply list_lookup_total_correct. rewrite <- Hk. pose proof (lookup_lt_Some _ _ _ Hk) as Hk4. cbn in Hk4.
    rewrite <- (bind_le32_lookup l i x k Hx Hk4). f_equal. lia.
  - rewrite lookup_seq_ge, lookup_ge_None_2 by lia. done.
Qed.

#[global] Arguments pwrite : simpl never.
