(* ===== verification/CachedIO.v ===== *)
(** * Buffered sequential files

    [cached_ifstream] and [cached_ofstream] of [include/cached_io.h].  Their
    clients ([DiskLayout]) are written against the interfaces [ByteReader] and
    [ByteWriter], which promise the behaviour of an unbuffered file; the two
    classes and the unbuffered file itself are instances. *)
From S2P Require Import Prelude Layout Node Files.

(** ** Interfaces *)
Class ByteReader (S : Type) := {
  rd_read : nat -> S -> outcome (list Z * S);
  rd_ok : S -> Prop;
  rd_rest : S -> list Z;
  rd_read_ok : forall n s, rd_ok s -> (n <= length (rd_rest s))%nat ->
    exists s', rd_read n s = Ok (take n (rd_rest s), s') /\ rd_ok s' /\ rd_rest s' = drop n (rd_rest s);
  rd_read_end : forall n s, rd_ok s -> (length (rd_rest s) < n)%nat -> rd_read n s = Crash;
}.

(** [wr_file]: the content of the file once the writer is closed. *)
Class ByteWriter (S : Type) := {
  wr_write : list Z -> S -> S;
  wr_reset : S -> S;
  wr_ok : S -> Prop;
  wr_file : S -> list Z;
  wr_pos : S -> nat;
  wr_write_ok : forall bs s, wr_ok s ->
    wr_ok (wr_write bs s) /\ wr_file (wr_write bs s) = pwrite (wr_file s) (wr_pos s, bs) /\
    wr_pos (wr_write bs s) = (wr_pos s + length bs)%nat;
  wr_reset_ok : forall s, wr_ok s ->
    wr_ok (wr_reset s) /\ wr_file (wr_reset s) = wr_file s /\ wr_pos (wr_reset s) = 0%nat;
}.

(** The unbuffered reader: what is left of the file. *)
#[export, program] Instance list_reader : ByteReader (list Z) := {
  rd_read n s := if bool_decide (n <= length s)%nat then Ok (take n s, drop n s) else Crash;
  rd_ok _ := True;
  rd_rest s := s;
}.
Next Obligation. intros n s _ Hn. simpl. rewrite bool_decide_eq_true_2 by done. by eexists. Qed.
Next Obligation. intros n s _ Hn. simpl in *. by rewrite bool_decide_eq_false_2 by lia. Qed.

(** The unbuffered writer: the file and the position. *)
#[export, program] Instance list_writer : ByteWriter (list Z * nat) := {
  wr_write bs s := (pwrite s.1 (s.2, bs), (s.2 + length bs)%nat);
  wr_reset s := (s.1, 0%nat);
  wr_ok _ := True;
  wr_file s := s.1;
  wr_pos s := s.2;
}.
Solve All Obligations with done.

(** ** [cached_ifstream] *)
Module Reader.
(** [pos] is [reader.tellg()]; the first [cur_off] bytes of the cache have been
    handed out. *)
Record cached_ifstream := {
  file : list Z;
  pos : nat;
  cache_buf : list Z;
  cache_size : nat;
  cur_off : nat;
}.
Definition fsize (s : cached_ifstream) : nat := length (file s).

(** An empty cache is refused by [assert(cacheSize > 0)]; behind the end of the
    file the subtraction from [fsize] would wrap around. *)
Definition open (f : list Z) (cacheSize : nat) (initial_offset : nat) : outcome cached_ifstream :=
  if bool_decide (cacheSize = 0)%nat || bool_decide (length f < initial_offset)%nat then Crash
  else
    let size := Nat.min cacheSize (length f - initial_offset) in
    Ok {| file := f; pos := initial_offset + size; cache_buf := take size (drop initial_offset f);
          cache_size := size; cur_off := 0 |}.

Definition read (n_bytes : nat) (s : cached_ifstream) : outcome (list Z * cached_ifstream) :=
  if bool_decide (n_bytes <= cache_size s - cur_off s)%nat then
    Ok (take n_bytes (drop (cur_off s) (cache_buf s)),
        {| file := file s; pos := pos s; cache_buf := cache_buf s; cache_size := cache_size s;
           cur_off := cur_off s + n_bytes |})
  else
    let cached_bytes := (cache_size s - cur_off s)%nat in
    if bool_decide (fsize s - pos s < n_bytes - cached_bytes)%nat then Crash
    else
      let read_buf := take cached_bytes (drop (cur_off s) (cache_buf s)) ++
                      take (n_bytes - cached_bytes) (drop (pos s) (file s)) in
      let pos1 := (pos s + (n_bytes - cached_bytes))%nat in
      let size_left := (fsize s - pos1)%nat in
      if bool_decide (cache_size s <= size_left)%nat then
        Ok (read_buf, {| file := file s; pos := pos1 + cache_size s;
                         cache_buf := take (cache_size s) (drop pos1 (file s));
                         cache_size := cache_size s; cur_off := 0 |})
      else
        Ok (read_buf, {| file := file s; pos := pos1; cache_buf := cache_buf s;
                         cache_size := cache_size s; cur_off := cache_size s |}).

(** The stream is inside its file and its cache is full. *)
Record wf (s : cached_ifstream) : Prop := {
  wf_len : length (cache_buf s) = cache_size s;
  wf_off : (cur_off s <= cache_size s)%nat;
  wf_pos : (pos s <= fsize s)%nat;
}.

Definition rest (s : cached_ifstream) : list Z := drop (cur_off s) (cache_buf s) ++ drop (pos s) (file s).

Lemma reader_open_wf f c i : (0 < c)%nat -> (i <= length f)%nat -> exists s, open f c i = Ok s /\ wf s /\ rest s = drop i f.
Proof.
  intros Hc Hi. unfold open. rewrite !bool_decide_eq_false_2 by lia. eexists. split; [done|]. split.
  - split; simpl; [rewrite length_take, length_drop; lia | lia | unfold fsize; simpl; lia].
  - unfold rest. simpl. rewrite drop_0, <- drop_drop. apply take_drop.
Qed.

Lemma length_rest s : wf s -> length (rest s) = (cache_size s - cur_off s + (fsize s - pos s))%nat.
Proof. intros [Hl Ho Hp]. unfold rest, fsize in *. rewrite length_app, !length_drop. lia. Qed.

Lemma read_ok n s : wf s -> (n <= length (rest s))%nat ->
  exists s', read n s = Ok (take n (rest s), s') /\ rest s' = drop n (rest s) /\ wf s'.
Proof.
  intros Hw Hn. rewrite length_rest in Hn by done. destruct Hw as [Hl Ho Hp]. unfold read.
  assert (Hc : length (drop (cur_off s) (cache_buf s)) = (cache_size s - cur_off s)%nat) by (rewrite length_drop; lia).
  case_bool_decide as Hcase.
  - eexists. split; [unfold rest; by rewrite take_app_le by lia|]. split; [|split; simpl; [done | lia | done]].
    unfold rest. simpl. by rewrite drop_app_le, drop_drop by lia.
  - rewrite bool_decide_eq_false_2 by lia. set (m := (n - (cache_size s - cur_off s))%nat).
    assert (Htake : take n (rest s) = take (cache_size s - cur_off s) (drop (cur_off s) (cache_buf s)) ++
                                      take m (drop (pos s) (file s))).
    { unfold rest. rewrite take_app. rewrite (take_ge (drop _ _)) by lia. rewrite (take_ge (drop _ (cache_buf s))) by lia.
      by rewrite Hc. }
    assert (Hdrop : drop n (rest s) = drop (pos s + m) (file s)).
    { unfold rest. rewrite drop_app_ge by lia. by rewrite Hc, drop_drop. }
    rewrite <- Htake. rewrite Hdrop. case_bool_decide as Hleft; (eexists; split; [done|]); unfold rest, fsize in *; simpl.
    + split; [rewrite drop_0, <- (drop_drop (file s) (cache_size s) (pos s + m)); apply take_drop|].
      split; unfold fsize; simpl; [rewrite length_take, length_drop; lia | lia | lia].
    + rewrite drop_ge by lia. split; [done|]. split; unfold fsize; simpl; lia.
Qed.

Lemma read_end n s : wf s -> (length (rest s) < n)%nat -> read n s = Crash.
Proof.
  intros Hw Hn. rewrite length_rest in Hn by done. unfold read.
  rewrite bool_decide_eq_false_2 by lia. by rewrite bool_decide_eq_true_2 by lia.
Qed.
End Reader.

#[export, program] Instance cached_reader : ByteReader Reader.cached_ifstream := {
  rd_read := Reader.read;
  rd_ok := Reader.wf;
  rd_rest := Reader.rest;
}.
Next Obligation. intros n s Hw Hn. destruct (Reader.read_ok n s Hw Hn) as (s' & ? & ? & ?). by exists s'. Qed.
Next Obligation. apply Reader.read_end. Qed.

(** ** [cached_ofstream] *)
Module Writer.
(** [cache] holds the first [cur_off] bytes of [cache_buf]. *)
Record cached_ofstream := {
  file : list Z;
  pos : nat;
  cache : list Z;
  cache_size : nat;
  fsize : nat;
}.

Definition open (f : list Z) (cache_size initial_offset : nat) : outcome cached_ofstream :=
  if bool_decide (cache_size = 0)%nat then Crash
  else Ok {| file := f; pos := initial_offset; cache := []; cache_size := cache_size; fsize := initial_offset |}.

(** [writer.write]. *)
Definition put (bs : list Z) (s : cached_ofstream) : cached_ofstream :=
  {| file := pwrite (file s) (pos s, bs); pos := pos s + length bs; cache := cache s; cache_size := cache_size s;
     fsize := fsize s + length bs |}.

Definition flush_cache (s : cached_ofstream) : cached_ofstream :=
  let s := put (cache s) s in
  {| file := file s; pos := pos s; cache := []; cache_size := cache_size s; fsize := fsize s |}.

Definition write (bs : list Z) (s : cached_ofstream) : cached_ofstream :=
  if bool_decide (length bs <= cache_size s - length (cache s))%nat then
    {| file := file s; pos := pos s; cache := cache s ++ bs; cache_size := cache_size s; fsize := fsize s |}
  else put bs (flush_cache s).

Definition reset (s : cached_ofstream) : cached_ofstream :=
  let s := flush_cache s in
  {| file := file s; pos := 0; cache := cache s; cache_size := cache_size s; fsize := fsize s |}.

Definition close (s : cached_ofstream) : cached_ofstream :=
  if bool_decide (0 < length (cache s))%nat then flush_cache s else s.

Definition wf (s : cached_ofstream) : Prop := (pos s <= length (file s))%nat.
Definition contents (s : cached_ofstream) : list Z := pwrite (file s) (pos s, cache s).

Lemma pwrite_nil f p : (p <= length f)%nat -> pwrite f (p, []) = f.
Proof.
  intros Hp. unfold pwrite. replace (p - length f)%nat with 0%nat by lia. simpl. rewrite app_nil_r, Nat.add_0_r.
  apply take_drop.
Qed.

Lemma pwrite_app f p a b : (p <= length f)%nat -> pwrite (pwrite f (p, a)) ((p + length a)%nat, b) = pwrite f (p, a ++ b).
Proof.
  intros Hp. apply list_eq. intros i. rewrite !pwrite_lookup, length_app, pwrite_length.
  repeat case_decide; try lia; try done.
  - rewrite lookup_app_r by lia. f_equal. lia.
  - by rewrite lookup_app_l by lia.
Qed.

Lemma writer_open_wf f c i : (0 < c)%nat -> (i <= length f)%nat ->
  exists s, open f c i = Ok s /\ wf s /\ contents s = f /\ (pos s + length (cache s) = i)%nat.
Proof.
  intros Hc Hi. unfold open. rewrite bool_decide_eq_false_2 by lia. eexists. split; [done|]. unfold wf, contents. simpl.
  split; [done|]. split; [by apply pwrite_nil | lia].
Qed.

Lemma contents_close s : wf s -> file (close s) = contents s.
Proof.
  intros Hw. unfold close, contents. case_bool_decide as Hc; [done|].
  destruct (cache s) eqn:E; [by rewrite pwrite_nil | simpl in Hc; lia].
Qed.

Lemma write_ok bs s : wf s -> wf (write bs s) /\ contents (write bs s) = pwrite (contents s) ((pos s + length (cache s))%nat, bs) /\
  (pos (write bs s) + length (cache (write bs s)) = pos s + length (cache s) + length bs)%nat.
Proof.
  intros Hw. unfold wf, write, contents in *. case_bool_decide as Hc; simpl.
  - split; [done|]. rewrite length_app. split; [by rewrite pwrite_app | lia].
  - split; [rewrite !pwrite_length; lia|]. split; [|lia].
    rewrite pwrite_nil by (rewrite !pwrite_length; lia). done.
Qed.
End Writer.

#[export, program] Instance cached_writer : ByteWriter Writer.cached_ofstream := {
  wr_write := Writer.write;
  wr_reset := Writer.reset;
  wr_ok := Writer.wf;
  wr_file := Writer.contents;
  wr_pos s := (Writer.pos s + length (Writer.cache s))%nat;
}.
Next Obligation. apply Writer.write_ok. Qed.
Next Obligation.
  intros s Hw. unfold Writer.wf, Writer.reset, Writer.contents in *. simpl. split; [lia|].
  split; [by rewrite Writer.pwrite_nil by lia | done].
Qed.

(** ** Runs of a client *)

(** A client that reads blocks of the sizes [ns]. *)
Fixpoint read_blocks {S} `{!ByteReader S} (ns : list nat) (s : S) : outcome (list (list Z)) :=
  match ns with
  | [] => Ok []
  | n :: ns => '(b, s) ← rd_read n s; bs ← read_blocks ns s; Ok (b :: bs)
  end.

Inductive write_op := Write (bs : list Z) | Reset.
Definition run_op {S} `{!ByteWriter S} (s : S) (o : write_op) : S :=
  match o with Write bs => wr_write bs s | Reset => wr_reset s end.

(** Two readers with the same bytes left cannot be told apart, nor two writers
    with the same content and position. *)
Lemma read_blocks_same {S1 S2} `{!ByteReader S1, !ByteReader S2} ns : forall (s1 : S1) (s2 : S2),
  rd_ok s1 -> rd_ok s2 -> rd_rest s1 = rd_rest s2 -> read_blocks ns s1 = read_blocks ns s2.
Proof.
  induction ns as [|n ns IH]; intros s1 s2 H1 H2 E; simpl; [done|].
  destruct (decide (n <= length (rd_rest s1))%nat) as [Hn|Hn].
  - destruct (rd_read_ok n s1 H1 Hn) as (s1' & -> & H1' & E1). rewrite E in Hn.
    destruct (rd_read_ok n s2 H2 Hn) as (s2' & -> & H2' & E2). cbn [mbind outcome_bind].
    rewrite E. by rewrite (IH s1' s2') by congruence.
  - rewrite (rd_read_end n s1), (rd_read_end n s2) by (done || rewrite <- ?E; lia). done.
Qed.

Lemma run_ops_same {S1 S2} `{!ByteWriter S1, !ByteWriter S2} ops : forall (s1 : S1) (s2 : S2),
  wr_ok s1 -> wr_ok s2 -> wr_file s1 = wr_file s2 -> wr_pos s1 = wr_pos s2 ->
  wr_file (foldl run_op s1 ops) = wr_file (foldl run_op s2 ops).
Proof.
  induction ops as [|o ops IH]; intros s1 s2 H1 H2 Ef Ep; simpl; [done|]. apply IH; destruct o as [bs|]; simpl.
  all: try (by apply wr_write_ok); try (by apply wr_reset_ok).
  - rewrite (proj1 (proj2 (wr_write_ok bs s1 H1))), (proj1 (proj2 (wr_write_ok bs s2 H2))). by rewrite Ef, Ep.
  - rewrite (proj1 (proj2 (wr_reset_ok s1 H1))), (proj1 (proj2 (wr_reset_ok s2 H2))). done.
  - rewrite (proj2 (proj2 (wr_write_ok bs s1 H1))), (proj2 (proj2 (wr_write_ok bs s2 H2))). by rewrite Ep.
  - rewrite (proj2 (proj2 (wr_reset_ok s1 H1))), (proj2 (proj2 (wr_reset_ok s2 H2))). done.
Qed.

Lemma run_ops_ok {S} `{!ByteWriter S} ops : forall s : S, wr_ok s -> wr_ok (foldl run_op s ops).
Proof.
  induction ops as [|[bs|] ops IH]; intros s Hs; cbn [foldl run_op]; [done | |]; apply IH;
    [by apply wr_write_ok | by apply wr_reset_ok].
Qed.

(** C38. The buffered files refine unbuffered ones: opened with caches that are
    not empty, which both constructors assert, at an offset inside the file, a
    client that reads any sequence of blocks through [cached_ifstream] gets
    the blocks of the file one after the other, and a trap exactly if it reads
    beyond the end; and after any sequence of [write] and [reset] on
    [cached_ofstream], [close] leaves the file that the same operations on an
    unbuffered file give.  An empty cache is a crash. *)
Theorem cached_io_refines f rcache roff wcache woff ns ops :
  (roff <= length f)%nat -> (woff <= length f)%nat ->
  (if bool_decide (rcache = 0)%nat then Reader.open f rcache roff = Crash
   else exists r, Reader.open f rcache roff = Ok r /\ read_blocks ns r = read_blocks ns (drop roff f)) /\
  (if bool_decide (wcache = 0)%nat then Writer.open f wcache woff = Crash
   else exists w, Writer.open f wcache woff = Ok w /\
     Writer.file (Writer.close (foldl run_op w ops)) = (foldl run_op (f, woff) ops : list Z * nat).1).
Proof.
  intros Hr Hw. split; case_bool_decide as Hc.
  - by subst.
  - destruct (Reader.reader_open_wf f rcache roff) as (r & -> & H1 & H2); [lia | done |]. exists r. split; [done|]. by apply read_blocks_same.
  - by subst.
  - destruct (Writer.writer_open_wf f wcache woff) as (w & -> & H1 & H2 & H3); [lia | done |]. exists w. split; [done|].
    rewrite Writer.contents_close by exact (run_ops_ok ops w H1).
    change (wr_file (foldl run_op w ops) = wr_file (foldl run_op ((f, woff) : list Z * nat) ops)).
    by apply run_ops_same.
Qed.

Lemma cached_io_witness :
  let f := [1; 2; 3; 4; 5; 6; 7] in
  let ops := [Write [10; 11]; Write [12; 13]; Reset; Write [14]] in
  (if bool_decide (2 = 0)%nat then Reader.open f 2 0 = Crash
   else exists r, Reader.open f 2 0 = Ok r /\ read_blocks [1; 3; 2; 1]%nat r = read_blocks [1; 3; 2; 1]%nat (drop 0 f)) /\
  (if bool_decide (3 = 0)%nat then Writer.open f 3 2 = Crash
   else exists w, Writer.open f 3 2 = Ok w /\
     Writer.file (Writer.close (foldl run_op w ops)) = (foldl run_op (f, 2%nat) ops : list Z * nat).1).
Proof. apply cached_io_refines; simpl; lia. Defined.
