(* ===== verification/DiskLayout.v ===== *)
(** * Building the graph file

    [create_disk_layout] of [src/utils/aux_utils.cpp] lays the vectors and the
    in-memory graph out in sectors, behind a first sector with the metadata
    that [SSDIndex::load] ([src/ssd_index.cpp]) reads when it opens the index.
    The vectors are read through [cached_ifstream] and the sectors written
    through [cached_ofstream], of which only the interfaces are used. *)
From S2P Require Import Prelude Layout Node Files CachedIO.

Definition le64 (x : Z) : list Z := le32 (x mod 2 ^ 32) ++ le32 (x / 2 ^ 32).
Definition read_u64 (m : Z -> Z) (off : Z) : Z := read_u32 m off + 2 ^ 32 * read_u32 m (off + 4).

(** What a short read leaves of a zeroed buffer of [n] bytes. *)
Definition zero_pad (n : nat) (bs : list Z) : list Z := bs ++ replicate (n - length bs) 0.

Section layout.
Context {RS : Type} `{!ByteReader RS} {WS : Type} `{!ByteWriter WS}.
(** [sizeof(T)] *)
Variable sizeof_T : Z.

Section nodes.
Variable ndims width : Z.
Definition coord_len : nat := Z.to_nat (u64 (ndims * sizeof_T)).
Definition node_len : Z := u64 (u64 ((width + 1) * 4) + u64 (ndims * sizeof_T)).

(** One node from the two input files: its list is cut to [width], and a node
    without neighbours ends the process when nodes share sectors ([check]). *)
Definition read_node (check : bool) (vamana : ifstream) (base : RS) : outcome (list Z * ifstream * RS) :=
  let '(b, vamana) := ifs_read 4 vamana in
  let nnbrs := read_u32 (bytes_at (zero_pad 4 b)) 0 in
  if check && (nnbrs =? 0) then Crash else
  let n := Z.min nnbrs width in
  let '(nhood, vamana) := ifs_read (Z.to_nat (4 * n)) vamana in
  let vamana := if width <? nnbrs then ifs_skip (Z.to_nat (4 * (nnbrs - width))) vamana else vamana in
  '(coords, base) ← rd_read coord_len base;
  Ok (coords ++ le32 n ++ zero_pad (Z.to_nat (4 * n)) nhood, vamana, base).

(** The nodes of one sector. *)
Fixpoint fill_sector (slots : nat) (sector_node_id : nat) (n_left : nat) (vamana : ifstream) (base : RS)
    (sector_buf : list Z) : outcome (list Z * nat * ifstream * RS) :=
  match slots, n_left with
  | S slots, S n_left =>
      '(node, vamana, base) ← read_node true vamana base;
      let sector_node_buf := (sector_node_id * Z.to_nat node_len)%nat in
      let node_buf := pwrite (replicate (Z.to_nat node_len) 0) (0%nat, node) in
      fill_sector slots (S sector_node_id) n_left vamana base (pwrite sector_buf (sector_node_buf, node_buf))
  | _, _ => Ok (sector_buf, n_left, vamana, base)
  end.

Fixpoint write_sectors (nnodes_per_sector n_sectors n_left : nat) (vamana : ifstream) (base : RS) (w : WS) : outcome WS :=
  match n_sectors with
  | O => Ok w
  | S n_sectors =>
      '(buf, n_left, vamana, base) ←
        fill_sector nnodes_per_sector 0 n_left vamana base (replicate (Z.to_nat SECTOR_LEN) 0);
      write_sectors nnodes_per_sector n_sectors n_left vamana base (wr_write buf w)
  end.

(** Nodes that are larger than a sector. *)
Fixpoint write_multi (n_left : nat) (vamana : ifstream) (base : RS) (w : WS) : outcome WS :=
  match n_left with
  | O => Ok w
  | S n_left =>
      '(node, vamana, base) ← read_node false vamana base;
      let buf := replicate (Z.to_nat (DIV_ROUND_UP node_len SECTOR_LEN * SECTOR_LEN)) 0 in
      write_multi n_left vamana base (wr_write (pwrite buf (0%nat, node)) w)
  end.
End nodes.

(** [base_file] is open at its beginning, [mem_index_file] is the content of the
    graph, [w] the writer on the new file.  The result is the graph file. *)
Definition create_disk_layout (base : RS) (mem_index_file : list Z) (w : WS) : outcome (list Z) :=
  '(b, base) ← rd_read 4 base;
  let npts := read_u32 (bytes_at b) 0 in
  '(b, base) ← rd_read 4 base;
  let ndims := read_u32 (bytes_at b) 0 in
  let '(_, v) := ifs_read 8 (Some mem_index_file) in
  let '(b, v) := ifs_read 4 v in
  let width := read_u32 (bytes_at b) 0 in
  let '(b, v) := ifs_read 4 v in
  let medoid := read_u32 (bytes_at b) 0 in
  let '(b, v) := ifs_read 8 v in
  let frozen_num := read_u64 (bytes_at b) 0 in
  let frozen_loc := if frozen_num =? 1 then medoid else 0 in
  let max_node_len := node_len ndims width in
  let nnodes_per_sector := SECTOR_LEN / max_node_len in
  let n_sectors := if 0 <? nnodes_per_sector then ROUND_UP npts nnodes_per_sector / nnodes_per_sector
                   else u64 (npts * DIV_ROUND_UP max_node_len SECTOR_LEN) in
  let disk_index_file_size := u64 (u64 (n_sectors + 1) * SECTOR_LEN) in
  let meta := [npts; ndims; medoid; max_node_len; nnodes_per_sector; frozen_num; frozen_loc;
               disk_index_file_size; disk_index_file_size] in
  let w := wr_write (replicate (Z.to_nat SECTOR_LEN) 0) w in
  w ← (if 0 <? nnodes_per_sector
       then write_sectors ndims width (Z.to_nat nnodes_per_sector) (Z.to_nat n_sectors) (Z.to_nat npts) v base w
       else write_multi ndims width (Z.to_nat npts) v base w);
  Ok (save_bin 8 (meta ≫= le64) (Z.of_nat (length meta)) 1 0 (wr_file w)).1.
End layout.

(** ** Opening the index *)
Record index_meta := {
  md_ckpt : Z;
  md_nnodes : Z;
  md_medoid : Z;
  md_range : Z;
  md_geometry : geometry;
}.

(** The metadata that [load] reads with the new format; a page with more than
    sixteen nodes is refused. *)
Definition load_metadata (sizeof_T : Z) (f : list Z) : option index_meta :=
  let m := bytes_at f in
  let disk_ndims := read_u64 m 16 in
  let max_node_len := read_u64 m 32 in
  let nnodes_per_sector := read_u64 m 40 in
  let max_degree := u64 (u64 (max_node_len - u64 (disk_ndims * sizeof_T)) / 4 - 1) in
  if Z.of_nat kMaxElemInAPage <? nnodes_per_sector then None
  else Some {| md_ckpt := read_u32 m 0; md_nnodes := read_u64 m 8; md_medoid := read_u64 m 24; md_range := max_degree;
               md_geometry := {| max_node_len := max_node_len; nnodes_per_sector := nnodes_per_sector;
                                 data_dim := disk_ndims; sizeof_T := sizeof_T |} |}.

(** ** Facts *)

(** The bytes [bs] stand at [off]. *)
Definition holds (f : list Z) (off : nat) (bs : list Z) : Prop :=
  forall i b, bs !! i = Some b -> f !! (off + i)%nat = Some b.

Lemma holds_pwrite f off bs : holds (pwrite f (off, bs)) off bs.
Proof.
  intros i b Hb. pose proof (lookup_lt_Some _ _ _ Hb). rewrite pwrite_lookup, decide_True by lia.
  rewrite <- Hb. f_equal. lia.
Qed.

Lemma holds_same f f' off bs (n : nat) : holds f off bs -> (off + length bs <= n)%nat ->
  (forall p, (p < n)%nat -> f' !! p = f !! p) -> holds f' off bs.
Proof. intros H Hn Hf i b Hb. pose proof (lookup_lt_Some _ _ _ Hb). rewrite Hf by lia. by apply H. Qed.

Lemma holds_bytes_at f (off : nat) bs i b : holds f off bs -> bs !! i = Some b ->
  bytes_at f (Z.of_nat off + Z.of_nat i) = b.
Proof.
  intros H Hb. unfold bytes_at. replace (Z.to_nat (Z.of_nat off + Z.of_nat i)) with (off + i)%nat by lia.
  apply list_lookup_total_correct. by apply H.
Qed.

Section facts.
Context {RS : Type} `{!ByteReader RS} {WS : Type} `{!ByteWriter WS}.
Context (sizeof_T ndims width : Z).
Context (Hnd : 0 <= ndims < 2 ^ 32) (HT : 0 < sizeof_T < 2 ^ 16) (Hwd : 0 < width < 2 ^ 32).
Abbreviation L := (Z.to_nat (ndims * sizeof_T)).
Abbreviation M := (Z.to_nat (node_len sizeof_T ndims width)).

Lemma coord_len_eq : coord_len sizeof_T ndims = L.
Proof. unfold coord_len. rewrite u64_small; [done | nia]. Qed.

Lemma node_len_eq : node_len sizeof_T ndims width = (width + 1) * 4 + ndims * sizeof_T.
Proof. unfold node_len. rewrite (u64_small (ndims * _)) by nia. rewrite (u64_small (_ * 4)) by lia. rewrite u64_small; nia. Qed.

(** A vector with its list in the input, and what is stored of it. *)
Record input_ok (nd : node) : Prop := {
  io_coords : length (coords nd) = L;
  io_some : nbrs nd <> [];
  io_count : Z.of_nat (length (nbrs nd)) < 2 ^ 32;
  io_ids : Forall (fun id => 0 <= id < 2 ^ 32) (nbrs nd);
}.

Definition stored (nd : node) : node := {| coords := coords nd; nbrs := take (Z.to_nat width) (nbrs nd) |}.

Lemma length_stored nd : input_ok nd -> (length (node_bytes (stored nd)) <= M)%nat.
Proof.
  intros [Hc _ _ _]. rewrite length_node_bytes. simpl. rewrite Hc, length_take, node_len_eq. lia.
Qed.

Lemma read_node_spec check nd vrest (base : RS) brest :
  input_ok nd -> rd_ok base -> rd_rest base = coords nd ++ brest ->
  exists base', read_node sizeof_T ndims width check (Some (nhood_bytes (nbrs nd) ++ vrest)) base =
      Ok (node_bytes (stored nd), Some vrest, base') /\ rd_ok base' /\ rd_rest base' = brest.
Proof.
  intros [Hc Hne Hcnt Hids] Hb Hrest. unfold read_node, nhood_bytes. rewrite <- app_assoc.
  rewrite (ifs_read_app 4) by done. rewrite u32_small by lia.
  change (zero_pad 4 (le32 (Z.of_nat (length (nbrs nd))))) with (le32 (Z.of_nat (length (nbrs nd)))).
  rewrite read_u32_bytes by lia. set (len := Z.of_nat (length (nbrs nd))) in *.
  assert (len <> 0) by (subst len; destruct (nbrs nd); [done | simpl; lia]).
  destruct (Z.eqb_spec len 0) as [|_]; [done|]. rewrite andb_false_r.
  set (n := Z.to_nat (Z.min len width)).
  assert (Hsplit : nbrs nd ≫= le32 = (take n (nbrs nd) ≫= le32) ++ (drop n (nbrs nd) ≫= le32)).
  { rewrite <- bind_app. by rewrite take_drop. }
  rewrite Hsplit, <- app_assoc. rewrite ifs_read_app by (rewrite length_bind_le32, length_take; lia).
  assert (Hskip : (if width <? len then ifs_skip (Z.to_nat (4 * (len - width))) (Some ((drop n (nbrs nd) ≫= le32) ++ vrest))
                   else Some ((drop n (nbrs nd) ≫= le32) ++ vrest)) = Some vrest).
  { destruct (Z.ltb_spec width len).
    - unfold ifs_skip. cbn [fmap option_fmap option_map]. f_equal.
      rewrite drop_app_length'; [done|]. rewrite length_bind_le32, length_drop. lia.
    - rewrite (drop_ge (nbrs nd)) by lia. done. }
  rewrite Hskip. rewrite coord_len_eq.
  destruct (rd_read_ok L base Hb) as (base' & E & Hb' & Hr'); [rewrite Hrest, length_app; lia|].
  rewrite E, Hrest in *. rewrite <- Hc, take_app_length, drop_app_length in *. cbn [mbind outcome_bind].
  exists base'. split; [|done]. do 3 f_equal. unfold node_bytes, nhood_bytes, stored. cbn [coords nbrs].
  assert (Z.min len width = Z.of_nat (length (take (Z.to_nat width) (nbrs nd)))) as Emin by (rewrite length_take; lia).
  rewrite <- Emin. rewrite u32_small by lia. do 2 f_equal.
  unfold zero_pad. rewrite length_bind_le32, length_take.
  replace (Z.to_nat (4 * Z.min len width) - 4 * Nat.min n (length (nbrs nd)))%nat with 0%nat by lia.
  rewrite app_nil_r. assert (take n (nbrs nd) = take (Z.to_nat width) (nbrs nd)) as ->; [|done].
  destruct (decide (width < len)); [by replace n with (Z.to_nat width) by lia | by rewrite !take_ge by lia].
Qed.

Definition vbytes (nodes : list node) : list Z := nodes ≫= (fun nd => nhood_bytes (nbrs nd)).
Definition bbytes (nodes : list node) : list Z := nodes ≫= coords.

Lemma node_buf_len nd : input_ok nd -> length (pwrite (replicate M 0) (0%nat, node_bytes (stored nd))) = M.
Proof. intros H. rewrite pwrite_length, length_replicate. pose proof (length_stored nd H). lia. Qed.

Lemma fill_sector_spec slots : forall k nodes vrest (base : RS) brest buf,
  Forall input_ok nodes -> rd_ok base -> rd_rest base = bbytes nodes ++ brest ->
  ((k + slots) * M <= length buf)%nat ->
  exists buf' base', fill_sector sizeof_T ndims width slots k (length nodes) (Some (vbytes nodes ++ vrest)) base buf =
      Ok (buf', (length nodes - slots)%nat, Some (vbytes (drop slots nodes) ++ vrest), base') /\
    rd_ok base' /\ rd_rest base' = bbytes (drop slots nodes) ++ brest /\ length buf' = length buf /\
    (forall p, (p < k * M)%nat -> buf' !! p = buf !! p) /\
    (forall j nd, (j < slots)%nat -> nodes !! j = Some nd -> holds buf' ((k + j) * M) (node_bytes (stored nd))).
Proof.
  induction slots as [|slots IH]; intros k nodes vrest base brest buf Hok Hb Hrest Hlen.
  { exists buf, base. rewrite Nat.sub_0_r. split_and!; [done.. |]. lia. }
  destruct nodes as [|nd nodes].
  { exists buf, base. split_and!; [done.. |]. intros j nd _ H. by rewrite lookup_nil in H. }
  apply Forall_cons in Hok as [Hnd1 Hok]. cbn [fill_sector length].
  unfold vbytes, bbytes in *. cbn [mbind list_bind] in *. rewrite <- app_assoc in Hrest |- *.
  destruct (read_node_spec true nd ((nodes ≫= fun nd => nhood_bytes (nbrs nd)) ++ vrest) base _ Hnd1 Hb Hrest)
    as (base1 & -> & Hb1 & Hrest1). cbn [mbind outcome_bind].
  pose proof (node_buf_len nd Hnd1) as Hnb. set (nb := pwrite _ (0%nat, _)) in *.
  destruct (IH (S k) nodes vrest base1 brest (pwrite buf ((k * M)%nat, nb))) as (buf' & base' & E & Hb' & Hr' & Hl' & Hlow & Hin);
    [done | done | done | rewrite pwrite_length; lia |].
  rewrite pwrite_length in Hl'. exists buf', base'. split; [exact E|]. split; [done|]. split; [done|]. split; [lia|]. split.
  - intros p Hp. rewrite Hlow by lia. rewrite pwrite_lookup. rewrite decide_False by lia. rewrite decide_False by lia. done.
  - intros [|j] nd' Hj Hnd'; simpl in Hnd'.
    + injection Hnd' as <-. apply (holds_same (pwrite buf ((k * M)%nat, nb)) _ _ _ (S k * M)); [| | exact Hlow].
      * rewrite Nat.add_0_r. intros i b Hi. pose proof (lookup_lt_Some _ _ _ Hi). pose proof (length_stored nd Hnd1).
        apply (holds_pwrite buf (k * M) nb). unfold nb.
        replace i with (0 + i)%nat by lia. by apply holds_pwrite.
      * pose proof (length_stored nd Hnd1). lia.
    + replace ((k + S j) * M)%nat with ((S k + j) * M)%nat by lia. apply Hin; [lia | done].
Qed.

(** A writer at the end of its file. *)
Definition at_end (w : WS) : Prop := wr_ok w /\ wr_pos w = length (wr_file w).

Lemma write_at_end bs w : at_end w -> at_end (wr_write bs w) /\ wr_file (wr_write bs w) = wr_file w ++ bs.
Proof.
  intros [Hw Hp]. destruct (wr_write_ok bs w Hw) as (Hw' & Hf & Hp'). rewrite Hp, pwrite_end in Hf.
  split; [|done]. split; [done|]. rewrite Hf, Hp', Hp, length_app. done.
Qed.

Lemma holds_app_l f g off bs : holds f off bs -> holds (f ++ g) off bs.
Proof. intros H i b Hb. apply H in Hb. rewrite lookup_app_l; [done|]. by eapply lookup_lt_Some. Qed.

Lemma holds_app_r f g off bs : holds g off bs -> holds (f ++ g) (length f + off) bs.
Proof. intros H i b Hb. rewrite lookup_app_r by lia. rewrite <- (H i b Hb). f_equal. lia. Qed.

Abbreviation SL := (Z.to_nat SECTOR_LEN).

Lemma write_sectors_spec N : (0 < N)%nat -> (N * M <= SL)%nat ->
  forall n nodes vrest (base : RS) brest (w : WS),
  Forall input_ok nodes -> rd_ok base -> rd_rest base = bbytes nodes ++ brest ->
  (length nodes <= n * N)%nat -> at_end w ->
  exists w' out, write_sectors sizeof_T ndims width N n (length nodes) (Some (vbytes nodes ++ vrest)) base w = Ok w' /\
    at_end w' /\ wr_file w' = wr_file w ++ out /\ length out = (n * SL)%nat /\
    (forall j nd, nodes !! j = Some nd -> holds out (j / N * SL + j mod N * M) (node_bytes (stored nd))).
Proof.
  intros HN HNM. induction n as [|n IH]; intros nodes vrest base brest w Hok Hb Hrest Hlen Hw.
  { exists w, []. rewrite app_nil_r. split_and!; try done. intros j nd Hj.
    apply lookup_lt_Some in Hj. simpl in Hlen. lia. }
  cbn [write_sectors].
  destruct (fill_sector_spec N 0 nodes vrest base brest (replicate SL 0)) as (buf & base1 & -> & Hb1 & Hr1 & Hl1 & _ & Hin);
    [done | done | done | rewrite length_replicate; lia |]. cbn [mbind outcome_bind].
  rewrite length_replicate in Hl1. destruct (write_at_end buf w Hw) as [Hw1 Hf1].
  rewrite <- length_drop. destruct (IH (drop N nodes) vrest base1 brest (wr_write buf w))
    as (w' & out & E & Hw' & Hf' & Hlo & Hin'); [by apply Forall_drop | done | done | rewrite length_drop; lia | done |].
  exists w', (buf ++ out). split; [exact E|]. split; [done|].
  split; [by rewrite Hf', Hf1, <- app_assoc|]. split; [rewrite length_app; lia|].
  intros j nd Hj. destruct (decide (j < N)%nat) as [HjN|HjN].
  - rewrite Nat.div_small, Nat.mod_small by done. apply holds_app_l. by apply Hin.
  - assert (Hj' : drop N nodes !! (j - N)%nat = Some nd) by (rewrite lookup_drop, <- Hj; f_equal; lia).
    apply Hin' in Hj'.
    replace (j / N * SL + j mod N * M)%nat with (length buf + ((j - N) / N * SL + (j - N) mod N * M))%nat;
      [by apply holds_app_r|].
    assert (Ej : j = (1 * N + (j - N))%nat) by lia. rewrite Hl1. rewrite Ej at 3 4.
    rewrite Nat.div_add_l, (Nat.add_comm (1 * N)), Nat.Div0.mod_add by lia. lia.
Qed.

Abbreviation S_multi := (Z.to_nat (DIV_ROUND_UP (node_len sizeof_T ndims width) SECTOR_LEN * SECTOR_LEN)).

Lemma multi_size : (M <= S_multi)%nat.
Proof.
  rewrite node_len_eq. set (X := (width + 1) * 4 + ndims * sizeof_T). unfold DIV_ROUND_UP.
  change SECTOR_LEN with 4096. pose proof (Z.div_mod X 4096 ltac:(lia)). pose proof (Z.mod_pos_bound X 4096 ltac:(lia)).
  destruct (Z.eqb_spec (X mod 4096) 0); lia.
Qed.

Lemma write_multi_spec nodes : forall vrest (base : RS) brest (w : WS),
  Forall input_ok nodes -> rd_ok base -> rd_rest base = bbytes nodes ++ brest -> at_end w ->
  exists w' out, write_multi sizeof_T ndims width (length nodes) (Some (vbytes nodes ++ vrest)) base w = Ok w' /\
    at_end w' /\ wr_file w' = wr_file w ++ out /\ length out = (length nodes * S_multi)%nat /\
    (forall j nd, nodes !! j = Some nd -> holds out (j * S_multi) (node_bytes (stored nd))).
Proof.
  induction nodes as [|nd nodes IH]; intros vrest base brest w Hok Hb Hrest Hw.
  { exists w, []. rewrite app_nil_r. by split_and!. }
  apply Forall_cons in Hok as [Hnd1 Hok]. cbn [write_multi length].
  unfold vbytes, bbytes in *. cbn [mbind list_bind] in *. rewrite <- app_assoc in Hrest |- *.
  destruct (read_node_spec false nd ((nodes ≫= fun nd => nhood_bytes (nbrs nd)) ++ vrest) base _ Hnd1 Hb Hrest)
    as (base1 & -> & Hb1 & Hrest1). cbn [mbind outcome_bind].
  set (buf := pwrite _ (0%nat, node_bytes (stored nd))).
  assert (Hbuf : length buf = S_multi).
  { unfold buf. rewrite pwrite_length, length_replicate. pose proof (length_stored nd Hnd1). pose proof multi_size. lia. }
  destruct (write_at_end buf w Hw) as [Hw1 Hf1].
  destruct (IH vrest base1 brest (wr_write buf w)) as (w' & out & E & Hw' & Hf' & Hlo & Hin'); [done..|].
  exists w', (buf ++ out). split; [exact E|]. split; [done|].
  split; [by rewrite Hf', Hf1, <- app_assoc|]. split; [rewrite length_app; lia|].
  intros [|j] nd' Hj; simpl in Hj.
  - injection Hj as <-. apply holds_app_l. apply holds_pwrite.
  - replace (S j * S_multi)%nat with (length buf + j * S_multi)%nat by lia. by apply holds_app_r, Hin'.
Qed.
End facts.

(** *** Metadata words *)
Lemma length_le64 x : length (le64 x) = 8%nat.
Proof. done. Qed.

Lemma holds_sub f off a b c : holds f off (a ++ b ++ c) -> holds f (off + length a) b.
Proof.
  intros H i x Hx. rewrite <- Nat.add_assoc. apply H. rewrite lookup_app_r by lia.
  replace (length a + i - length a)%nat with i by lia. rewrite lookup_app_l; [done|]. by eapply lookup_lt_Some.
Qed.

Lemma read_u32_holds f off x : 0 <= x < 2 ^ 32 -> holds f off (le32 x) -> read_u32 (bytes_at f) (Z.of_nat off) = x.
Proof. intros Hx H. apply read_u32_le32; [done|]. intros k b Hk. by apply (holds_bytes_at f off (le32 x)). Qed.

Lemma read_u64_holds f off x : 0 <= x < 2 ^ 64 -> holds f off (le64 x) -> read_u64 (bytes_at f) (Z.of_nat off) = x.
Proof.
  intros Hx H. unfold read_u64. pose proof (Z.div_mod x (2 ^ 32) ltac:(lia)). pose proof (Z.mod_pos_bound x (2 ^ 32) ltac:(lia)).
  assert (0 <= x / 2 ^ 32 < 2 ^ 32) by (split; [apply Z.div_pos; lia | apply Z.div_lt_upper_bound; lia]).
  rewrite (read_u32_holds f off (x mod 2 ^ 32)); [|done|].
  - replace (Z.of_nat off + 4) with (Z.of_nat (off + 4)) by lia.
    rewrite (read_u32_holds f (off + 4) (x / 2 ^ 32)); [lia | done|].
    apply (holds_sub f off (le32 (x mod 2 ^ 32)) (le32 (x / 2 ^ 32)) []). by rewrite app_nil_r.
  - intros i b Hi. apply H. unfold le64. rewrite lookup_app_l; [done|]. by eapply lookup_lt_Some.
Qed.

Lemma read_word_list f off l k x : l !! k = Some x -> 0 <= x < 2 ^ 64 -> holds f off (l ≫= le64) ->
  read_u64 (bytes_at f) (Z.of_nat (off + 8 * k)) = x.
Proof.
  intros Hk Hx H. apply read_u64_holds; [done|]. revert off k Hk H.
  induction l as [|y l IH]; intros off k Hk H; [by rewrite lookup_nil in Hk|].
  cbn [mbind list_bind] in H. destruct k as [|k]; simpl in Hk.
  - injection Hk as ->. apply (holds_sub f off [] (le64 x) (l ≫= le64)) in H. cbn [length] in H.
    by replace (off + 8 * 0)%nat with (off + 0)%nat by lia.
  - replace (off + 8 * S k)%nat with (off + 8 + 8 * k)%nat by lia. apply IH; [done|].
    pose proof (holds_sub f off (le64 y) (l ≫= le64) []) as H'. rewrite app_nil_r in H'. by apply H'.
Qed.

Lemma length_bind_le64 l : length (l ≫= le64) = (8 * length l)%nat.
Proof. induction l as [|x l IH]; [done|]. cbn [mbind list_bind]. rewrite length_app, IH, length_le64. simpl. lia. Qed.

(** *** The finished file *)
Section finished.
Context (sizeof_T ndims width : Z).
Context (Hnd : 0 <= ndims < 2 ^ 32) (HT : 0 < sizeof_T < 2 ^ 16) (Hwd : 0 < width < 2 ^ 32).
Abbreviation len := (node_len sizeof_T ndims width).
Context (Hlen : len < 2 ^ 31).

Definition layout_geometry : geometry :=
  Build_geometry len (SECTOR_LEN / len) ndims sizeof_T.
Abbreviation g := layout_geometry.

Lemma stored_fits nd : input_ok sizeof_T ndims nd -> node_fits g (stored width nd).
Proof.
  intros [Hc Hne Hcnt Hids]. pose proof (node_len_eq sizeof_T ndims width Hnd HT Hwd) as El.
  unfold node_fits, offset_to_node_nhood. simpl. rewrite (u64_small (ndims * sizeof_T)) by nia. rewrite El, Hc, length_take.
  split_and!; [nia | lia | lia |]. by apply Forall_take.
Qed.

(** Where location [i] is in the file. *)
Lemma layout_offset i : 0 <= i < 2 ^ 32 ->
  u_loc_offset g i = SECTOR_LEN +
    (if 0 <? SECTOR_LEN / len then i / (SECTOR_LEN / len) * SECTOR_LEN + i mod (SECTOR_LEN / len) * len
     else i * (DIV_ROUND_UP len SECTOR_LEN * SECTOR_LEN)).
Proof.
  intros Hi. pose proof (node_len_eq sizeof_T ndims width Hnd HT Hwd) as El.
  assert (Hpos : 0 < len) by (rewrite El; nia).
  pose proof (Z.mul_div_le SECTOR_LEN len Hpos) as Hfit. pose proof (Z.div_pos SECTOR_LEN len ltac:(done) Hpos) as Hnps.
  unfold u_loc_offset, loc_sector_no, loc_sector_off, g. cbn [nnodes_per_sector max_node_len].
  set (N := SECTOR_LEN / len) in *. change SECTOR_LEN with 4096 in *.
  destruct (Z.ltb_spec 0 N) as [HN|HN].
  - destruct (Z.eqb_spec N 0); [lia|].
    pose proof (Z.div_le_upper_bound i N i ltac:(lia) ltac:(nia)). pose proof (Z.div_pos i N ltac:(lia) HN).
    pose proof (Z.mod_pos_bound i N HN).
    rewrite (u64_small (1 + _)) by lia. rewrite (u64_small (_ * 4096)) by lia.
    rewrite (u64_small (_ * len)) by nia. rewrite u64_small by nia. lia.
  - destruct (Z.eqb_spec N 0); [|lia]. set (D := DIV_ROUND_UP len 4096).
    assert (HD : 0 <= D <= 2 ^ 19).
    { unfold D, DIV_ROUND_UP. pose proof (Z.div_lt_upper_bound len 4096 (2 ^ 19) ltac:(lia) ltac:(lia)).
      pose proof (Z.div_pos len 4096 ltac:(lia) ltac:(lia)). destruct (len mod 4096 =? 0); lia. }
    clearbody D. assert (0 <= i * D <= (2 ^ 32 - 1) * 2 ^ 19) by (split; [nia | apply Z.mul_le_mono_nonneg; lia]).
    rewrite (u64_small (i * D)) by lia. rewrite (u64_small (1 + _)) by lia.
    rewrite (u64_small (_ * 4096)) by lia. rewrite u64_small by lia. lia.
Qed.

Lemma layout_offset_ge i : 0 <= i < 2 ^ 32 -> SECTOR_LEN <= u_loc_offset g i.
Proof.
  intros Hi. rewrite layout_offset by done. pose proof (node_len_eq sizeof_T ndims width Hnd HT Hwd) as El.
  assert (Hpos : 0 < len) by (rewrite El; nia). change SECTOR_LEN with 4096.
  destruct (Z.ltb_spec 0 (4096 / len)) as [HN|HN].
  - pose proof (Z.div_pos i (4096 / len) ltac:(lia) HN). pose proof (Z.mod_pos_bound i (4096 / len) HN). nia.
  - unfold DIV_ROUND_UP. pose proof (Z.div_pos len 4096 ltac:(lia) ltac:(lia)). destruct (len mod 4096 =? 0); nia.
Qed.

Lemma layout_read f i nd : input_ok sizeof_T ndims nd -> 0 <= i < 2 ^ 32 ->
  holds f (Z.to_nat (u_loc_offset g i)) (node_bytes (stored width nd)) ->
  disk_node g (bytes_at f) (u_loc_offset g i) = stored width nd.
Proof.
  intros Hok Hi H. apply disk_node_bytes; [by apply stored_fits|]. intros k b Hb.
  pose proof (u64_range (u64 (loc_sector_no g i * SECTOR_LEN) + loc_sector_off g i)) as Hr.
  fold (u_loc_offset g i) in Hr. rewrite <- (Z2Nat.id (u_loc_offset g i)) by lia. by eapply holds_bytes_at.
Qed.

Lemma sectors_enough npts N : 0 <= npts -> 0 < N -> npts <= ROUND_UP npts N / N * N /\ ROUND_UP npts N / N <= npts + 1.
Proof.
  intros Hn HN. unfold ROUND_UP, DIV_ROUND_UP. destruct (Z.eqb_spec npts 0) as [->|].
  - rewrite Z.div_same by lia. lia.
  - rewrite Z.div_mul by lia. pose proof (Z.div_mod npts N ltac:(lia)). pose proof (Z.mod_pos_bound npts N HN).
    pose proof (Z.div_le_upper_bound npts N npts ltac:(lia) ltac:(nia)).
    destruct (Z.eqb_spec (npts mod N) 0); lia.
Qed.

(** The metadata that is written at the end. *)
Definition layout_meta (npts medoid frozen n_sectors : Z) : list Z :=
  let size := u64 (u64 (n_sectors + 1) * SECTOR_LEN) in
  [npts; ndims; medoid; len; SECTOR_LEN / len; frozen; if frozen =? 1 then medoid else 0; size; size].

Definition finish_layout (meta F : list Z) : list Z := (save_bin 8 (meta ≫= le64) (Z.of_nat (length meta)) 1 0 F).1.

Lemma finish_layout_spec meta F : length meta = 9%nat -> (80 <= length F)%nat ->
  let f := finish_layout meta F in
  holds f 0 (le32 9) /\ holds f 8 (meta ≫= le64) /\ (forall p, (80 <= p)%nat -> f !! p = F !! p).
Proof.
  intros Hm HF f. unfold f, finish_layout, save_bin. cbn [fst]. rewrite Hm.
  change (Z.to_nat (u64 (Z.of_nat 9 * 1 * 8))) with 72%nat. change (0 + 8)%nat with 8%nat.
  rewrite take_ge by (rewrite length_bind_le64; lia).
  assert (Hd : length (meta ≫= le64) = 72%nat) by (rewrite length_bind_le64; lia).
  split_and!.
  - intros i b Hb. pose proof (lookup_lt_Some _ _ _ Hb) as Hi. change (length (le32 9)) with 4%nat in Hi.
    rewrite pwrite_lookup, decide_False by lia. rewrite pwrite_length. rewrite decide_False by lia.
    change (0 + i)%nat with i. rewrite pwrite_lookup.
    rewrite decide_True by (change (length (bin_header (Z.of_nat 9) 1)) with 8%nat; lia).
    rewrite Nat.sub_0_r. unfold bin_header. rewrite lookup_app_l by done. exact Hb.
  - apply holds_pwrite.
  - intros p Hp. rewrite pwrite_lookup, Hd, decide_False by lia. rewrite pwrite_length. rewrite decide_False by lia.
    rewrite pwrite_lookup. change (length (bin_header _ _)) with 8%nat.
    rewrite decide_False by lia. by rewrite decide_False by lia.
Qed.

Lemma load_layout npts medoid frozen n_sectors f :
  0 <= npts < 2 ^ 32 -> 0 <= medoid < 2 ^ 32 -> 0 <= frozen < 2 ^ 64 -> SECTOR_LEN / len <= 16 ->
  holds f 0 (le32 9) -> holds f 8 (layout_meta npts medoid frozen n_sectors ≫= le64) ->
  load_metadata sizeof_T f =
    Some {| md_ckpt := 9; md_nnodes := npts; md_medoid := medoid; md_range := width; md_geometry := layout_geometry |}.
Proof.
  intros Hn Hm Hf HN H0 H8. pose proof (node_len_eq sizeof_T ndims width Hnd HT Hwd) as El.
  assert (0 < len) by (rewrite El; nia). pose proof (Z.div_pos SECTOR_LEN len ltac:(done) ltac:(lia)).
  pose proof (read_word_list f 8 (layout_meta npts medoid frozen n_sectors)) as Hr.
  pose proof (Hr 0%nat npts eq_refl ltac:(lia) H8) as R0. pose proof (Hr 1%nat ndims eq_refl ltac:(lia) H8) as R1.
  pose proof (Hr 2%nat medoid eq_refl ltac:(lia) H8) as R2. pose proof (Hr 3%nat len eq_refl ltac:(lia) H8) as R3.
  pose proof (Hr 4%nat (SECTOR_LEN / len) eq_refl ltac:(lia) H8) as R4.
  change (Z.of_nat (8 + 8 * 0)) with 8 in R0. change (Z.of_nat (8 + 8 * 1)) with 16 in R1.
  change (Z.of_nat (8 + 8 * 2)) with 24 in R2. change (Z.of_nat (8 + 8 * 3)) with 32 in R3.
  change (Z.of_nat (8 + 8 * 4)) with 40 in R4.
  unfold load_metadata. rewrite R0, R1, R2, R3, R4.
  pose proof (read_u32_holds f 0 9 ltac:(lia) H0) as R9. change (Z.of_nat 0) with 0 in R9. rewrite R9.
  change (Z.of_nat kMaxElemInAPage) with 16. destruct (Z.ltb_spec 16 (SECTOR_LEN / len)); [lia|]. do 2 f_equal.
  rewrite (u64_small (ndims * sizeof_T)) by nia. rewrite El.
  replace ((width + 1) * 4 + ndims * sizeof_T - ndims * sizeof_T) with ((width + 1) * 4) by lia.
  rewrite (u64_small (_ * 4)) by lia. rewrite Z.div_mul by lia. rewrite u64_small by lia. lia.
Qed.
End finished.

(** The content of [mem_index_file]. *)
Definition vamana_file (index_size width medoid frozen : Z) (nodes : list node) (rest : list Z) : list Z :=
  le64 index_size ++ le32 width ++ le32 medoid ++ le64 frozen ++ vbytes nodes ++ rest.

Section build.
Context {RS : Type} `{!ByteReader RS} {WS : Type} `{!ByteWriter WS}.
Context (sizeof_T ndims width : Z).
Context (Hnd : 0 <= ndims < 2 ^ 32) (HT : 0 < sizeof_T < 2 ^ 16) (Hwd : 0 < width < 2 ^ 32).
Abbreviation len := (node_len sizeof_T ndims width).
Context (Hlen : len < 2 ^ 31).
Abbreviation g := (layout_geometry sizeof_T ndims width).
Context (nodes : list node) (Hok : Forall (input_ok sizeof_T ndims) nodes) (Hnodes : Z.of_nat (length nodes) < 2 ^ 32).

(** Both branches: every node is where its location says, and the file has the
    empty first sector in front. *)
Lemma write_nodes_spec n_sectors vrest (base : RS) brest (w : WS) :
  rd_ok base -> rd_rest base = bbytes nodes ++ brest -> at_end w -> wr_file w = replicate (Z.to_nat SECTOR_LEN) 0 ->
  let npts := Z.of_nat (length nodes) in
  let N := SECTOR_LEN / len in
  n_sectors = (if 0 <? N then ROUND_UP npts N / N else u64 (npts * DIV_ROUND_UP len SECTOR_LEN)) ->
  exists w', (if 0 <? N
      then write_sectors sizeof_T ndims width (Z.to_nat N) (Z.to_nat n_sectors) (Z.to_nat npts) (Some (vbytes nodes ++ vrest)) base w
      else write_multi sizeof_T ndims width (Z.to_nat npts) (Some (vbytes nodes ++ vrest)) base w) = Ok w' /\
    (Z.to_nat SECTOR_LEN <= length (wr_file w'))%nat /\
    forall i nd, nodes !! i = Some nd ->
      holds (wr_file w') (Z.to_nat (u_loc_offset g (Z.of_nat i))) (node_bytes (stored width nd)).
Proof.
  intros Hb Hrest Hw Hf npts N Hns. unfold npts. rewrite Nat2Z.id.
  pose proof (node_len_eq sizeof_T ndims width Hnd HT Hwd) as El. assert (Hpos : 0 < len) by (rewrite El; nia).
  pose proof (Z.mul_div_le SECTOR_LEN len Hpos) as Hfit. pose proof (Z.div_pos SECTOR_LEN len ltac:(done) Hpos) as HN0.
  fold N in Hfit, HN0.
  assert (Hoff : forall i nd, nodes !! i = Some nd -> u_loc_offset g (Z.of_nat i) = SECTOR_LEN +
    (if 0 <? N then Z.of_nat i / N * SECTOR_LEN + Z.of_nat i mod N * len else Z.of_nat i * (DIV_ROUND_UP len SECTOR_LEN * SECTOR_LEN))).
  { intros i nd Hi. apply lookup_lt_Some in Hi. apply layout_offset; try done. lia. }
  destruct (Z.ltb_spec 0 N) as [HN|HN].
  - destruct (sectors_enough npts N ltac:(lia) HN) as [Hen _].
    destruct (write_sectors_spec sizeof_T ndims width Hnd HT Hwd (Z.to_nat N) ltac:(lia) ltac:(lia) (Z.to_nat n_sectors)
      nodes vrest base brest w) as (w' & out & E & _ & Hf' & _ & Hin); [done..| rewrite Hns; lia | done |].
    exists w'. split; [exact E|]. split; [rewrite Hf', Hf, length_app, length_replicate; lia|].
    intros i nd Hi. rewrite (Hoff i nd Hi), Hf', Hf.
    assert (Ez : Z.to_nat (SECTOR_LEN + (Z.of_nat i / N * SECTOR_LEN + Z.of_nat i mod N * len)) =
      (length (replicate (Z.to_nat SECTOR_LEN) 0) + (i / Z.to_nat N * Z.to_nat SECTOR_LEN + i mod Z.to_nat N * Z.to_nat len))%nat).
    { rewrite length_replicate. apply Nat2Z.inj. rewrite Z2Nat.id.
      - rewrite !Nat2Z.inj_add, !Nat2Z.inj_mul, Nat2Z.inj_div, Nat2Z.inj_mod, !Z2Nat.id by (done || lia). done.
      - pose proof (Z.div_pos (Z.of_nat i) N ltac:(lia) HN). pose proof (Z.mod_pos_bound (Z.of_nat i) N HN).
        change SECTOR_LEN with 4096. nia. }
    rewrite Ez. apply holds_app_r. by apply Hin.
  - destruct (write_multi_spec sizeof_T ndims width Hnd HT Hwd nodes vrest base brest w)
      as (w' & out & E & _ & Hf' & _ & Hin); [done..|].
    exists w'. split; [exact E|]. split; [rewrite Hf', Hf, length_app, length_replicate; lia|].
    intros i nd Hi. rewrite (Hoff i nd Hi), Hf', Hf.
    replace (Z.to_nat (SECTOR_LEN + Z.of_nat i * (DIV_ROUND_UP len SECTOR_LEN * SECTOR_LEN))) with
      (length (replicate (Z.to_nat SECTOR_LEN) 0) + i * Z.to_nat (DIV_ROUND_UP len SECTOR_LEN * SECTOR_LEN))%nat;
      [by apply holds_app_r, Hin|].
    rewrite length_replicate.
    assert (0 <= DIV_ROUND_UP len SECTOR_LEN * SECTOR_LEN).
    { unfold DIV_ROUND_UP. pose proof (Z.div_pos len SECTOR_LEN ltac:(lia) ltac:(done)).
      change SECTOR_LEN with 4096 in *. destruct (len mod 4096 =? 0); lia. }
    change (Z.to_nat SECTOR_LEN) with (Z.to_nat 4096). change SECTOR_LEN with 4096 at 3. lia.
Qed.

Lemma create_disk_layout_spec index_size medoid frozen vrest brest (base : RS) (w : WS) :
  0 <= medoid < 2 ^ 32 -> 0 <= frozen < 2 ^ 64 ->
  rd_ok base -> rd_rest base = bin_header (Z.of_nat (length nodes)) ndims ++ bbytes nodes ++ brest ->
  at_end w -> wr_file w = [] ->
  exists f, create_disk_layout sizeof_T base (vamana_file index_size width medoid frozen nodes vrest) w = Ok f /\
    (forall i nd, nodes !! i = Some nd ->
       disk_node g (bytes_at f) (u_loc_offset g (Z.of_nat i)) = stored width nd) /\
    (SECTOR_LEN / len <= 16 -> load_metadata sizeof_T f =
       Some {| md_ckpt := 9; md_nnodes := Z.of_nat (length nodes); md_medoid := medoid; md_range := width; md_geometry := g |}).
Proof.
  intros Hm Hfr Hb Hrest Hw Hf. unfold bin_header in Hrest. rewrite !u32_small in Hrest by lia. rewrite <- app_assoc in Hrest.
  unfold create_disk_layout.
  destruct (rd_read_ok 4 base Hb) as (base1 & -> & Hb1 & Hr1); [rewrite Hrest; simpl; lia|]. rewrite Hrest in *.
  cbn [mbind outcome_bind]. change (take 4 (le32 ?x ++ ?r)) with (le32 x). change (drop 4 (le32 ?x ++ ?r)) with r in Hr1.
  destruct (rd_read_ok 4 base1 Hb1) as (base2 & -> & Hb2 & Hr2); [rewrite Hr1; simpl; lia|]. rewrite Hr1 in *.
  cbn [mbind outcome_bind]. change (take 4 (le32 ?x ++ ?r)) with (le32 x). change (drop 4 (le32 ?x ++ ?r)) with r in Hr2.
  rewrite !read_u32_bytes by lia. unfold vamana_file.
  rewrite (ifs_read_app 8) by done. rewrite !(ifs_read_app 4) by done. rewrite (ifs_read_app 8) by done.
  rewrite !read_u32_bytes by lia.
  assert (read_u64 (bytes_at (le64 frozen)) 0 = frozen) as -> by (apply (read_u64_holds (le64 frozen) 0); [done|]; by intros i b).
  destruct (write_at_end (replicate (Z.to_nat SECTOR_LEN) 0) w Hw) as [Hw1 Hf1]. rewrite Hf in Hf1.
  destruct (write_nodes_spec _ vrest base2 brest _ Hb2 Hr2 Hw1 Hf1 eq_refl) as (w' & -> & Hlw & Hin).
  cbn [mbind outcome_bind]. cbv zeta.
  set (ns := if 0 <? SECTOR_LEN / len then ROUND_UP (Z.of_nat (length nodes)) (SECTOR_LEN / len) / (SECTOR_LEN / len)
             else u64 (Z.of_nat (length nodes) * DIV_ROUND_UP len SECTOR_LEN)).
  exists (finish_layout (layout_meta sizeof_T ndims width (Z.of_nat (length nodes)) medoid frozen ns) (wr_file w')).
  split; [reflexivity|].
  destruct (finish_layout_spec (layout_meta sizeof_T ndims width (Z.of_nat (length nodes)) medoid frozen ns) (wr_file w'))
    as (H0 & H8 & Hsame); [done | etrans; [|exact Hlw]; by apply (bool_decide_unpack _); vm_compute |].
  split.
  - intros i nd Hi. pose proof (lookup_lt_Some _ _ _ Hi). rewrite Forall_forall in Hok.
    apply layout_read; try done; [apply Hok; by eapply list_elem_of_lookup_2 | lia |].
    assert (80 <= Z.to_nat (u_loc_offset g (Z.of_nat i)))%nat.
    { pose proof (layout_offset_ge sizeof_T ndims width Hnd HT Hwd Hlen (Z.of_nat i) ltac:(lia)).
      change SECTOR_LEN with 4096 in *. lia. }
    intros k b Hk. apply (Hin i nd Hi) in Hk. rewrite <- Hk. apply Hsame. lia.
  - intros HN. by apply (load_layout sizeof_T ndims width Hnd HT Hwd Hlen (Z.of_nat (length nodes)) medoid frozen ns); [lia|..].
Qed.
End build.

(** The tag file: [None] when no name is given, [Some None] when there is no such
    file.  An index with a frozen point must have tags; the counts are refused
    only if both differ. *)
Definition write_tags (sizeof_Tag npts frozen_num : Z) (tag_file : option (option (list Z))) : outcome (option (list Z)) :=
  match tag_file with
  | None => if 0 <? frozen_num then Crash else Ok None
  | Some None => Crash
  | Some (Some f) =>
      let '(nr, nc, mem_index_tags) := load_bin sizeof_Tag f 0 in
      if negb (nr =? npts) && negb (nc =? 1) then Crash
      else Ok (Some (save_bin sizeof_Tag mem_index_tags nr nc 0 []).1)
  end.

(** The files that the function opens, with caches of given sizes, and those
    that it writes: the graph file and the tag file. *)
Definition create_disk_layout_files (sizeof_T sizeof_Tag : Z) (base_file mem_index_file : list Z) (tag_file : option (option (list Z)))
    (rcache wcache : nat) : outcome (list Z * option (list Z)) :=
  base_reader ← Reader.open base_file rcache 0;
  diskann_writer ← Writer.open [] wcache 0;
  f ← create_disk_layout sizeof_T base_reader mem_index_file diskann_writer;
  tags ← write_tags sizeof_Tag (read_u32 (bytes_at base_file) 0) (read_u64 (bytes_at mem_index_file) 16) tag_file;
  Ok (f, tags).

(** The tags of [n] vectors that are given, and the file that is written: none
    without a frozen point, or a file of [n] tags, which is copied. *)
Inductive tags_given (sizeof_Tag n frozen : Z) : option (option (list Z)) -> option (list Z) -> Prop :=
| tags_none : frozen = 0 -> tags_given sizeof_Tag n frozen None None
| tags_copied t data : bin_at t 0 n 1 data -> Z.of_nat (length data) = n * 1 * sizeof_Tag -> n * 1 * sizeof_Tag < 2 ^ 64 ->
    tags_given sizeof_Tag n frozen (Some (Some t)) (Some (bin_header n 1 ++ data)).

Lemma write_tags_given sizeof_Tag n frozen tag_file tags : 0 <= n < 2 ^ 32 -> tags_given sizeof_Tag n frozen tag_file tags ->
  write_tags sizeof_Tag n frozen tag_file = Ok tags.
Proof.
  intros Hn [->|t data Ht Hl Hs]; [done|]. unfold write_tags. rewrite (load_bin_at sizeof_Tag t 0 n 1 data) by (done || lia).
  rewrite Z.eqb_refl. cbn [negb andb]. do 2 f_equal. unfold save_bin. cbn [fst]. rewrite u64_small by lia. rewrite take_ge by lia.
  change 0%nat with (length (@nil Z)) at 1. rewrite pwrite_end. cbn [app].
  replace (0 + 8)%nat with (length (bin_header n 1)) by done. by rewrite pwrite_end.
Qed.

(** The two words that decide about the tags. *)
Lemma base_points n d rest : 0 <= n < 2 ^ 32 -> read_u32 (bytes_at (bin_header n d ++ rest)) 0 = n.
Proof.
  intros Hn. apply (read_u32_holds (bin_header n d ++ rest) 0); [done|]. unfold bin_header. rewrite u32_small, <- app_assoc by done.
  intros i b Hb. by apply lookup_app_l_Some.
Qed.

Lemma graph_frozen index_size width medoid frozen nodes rest : 0 <= frozen < 2 ^ 64 ->
  read_u64 (bytes_at (vamana_file index_size width medoid frozen nodes rest)) 16 = frozen.
Proof.
  intros Hf. apply (read_u64_holds (vamana_file index_size width medoid frozen nodes rest) 16); [done|].
  unfold vamana_file. intros i b Hb. rewrite lookup_app_r by (simpl; lia). rewrite lookup_app_r by (simpl; lia).
  rewrite lookup_app_r by (simpl; lia).
  replace (16 + i - length (le64 index_size) - length (le32 width) - length (le32 medoid))%nat with i by (simpl; lia).
  by apply lookup_app_l_Some.
Qed.

(** C28. The graph file that [create_disk_layout] writes is read back: whatever
    the sizes of the buffers, opened by [load], which allows at most 16 nodes in
    a sector, it yields the metadata it was given ([range] included), and [disk_node] at location [i] yields the
    [i]-th vector with the first [width] of its neighbours, both when a sector
    holds several nodes and when a node takes several sectors.  The tags, which
    an index with a frozen point must have, are copied. *)
Theorem create_disk_layout_correct sizeof_T sizeof_Tag ndims width nodes index_size medoid frozen tag_file tags vrest brest rcache wcache :
  0 <= ndims < 2 ^ 32 -> 0 < sizeof_T < 2 ^ 16 -> 0 < width < 2 ^ 32 -> node_len sizeof_T ndims width < 2 ^ 31 ->
  Forall (input_ok sizeof_T ndims) nodes -> Z.of_nat (length nodes) < 2 ^ 32 ->
  0 <= medoid < 2 ^ 32 -> 0 <= frozen < 2 ^ 64 -> (0 < rcache)%nat -> (0 < wcache)%nat ->
  tags_given sizeof_Tag (Z.of_nat (length nodes)) frozen tag_file tags ->
  let g := layout_geometry sizeof_T ndims width in
  let base_file := bin_header (Z.of_nat (length nodes)) ndims ++ bbytes nodes ++ brest in
  exists f, create_disk_layout_files sizeof_T sizeof_Tag base_file (vamana_file index_size width medoid frozen nodes vrest) tag_file
      rcache wcache = Ok (f, tags) /\
    (forall i nd, nodes !! i = Some nd ->
       disk_node g (bytes_at f) (u_loc_offset g (Z.of_nat i)) = stored width nd) /\
    (nnodes_per_sector g <= 16 -> load_metadata sizeof_T f =
       Some {| md_ckpt := 9; md_nnodes := Z.of_nat (length nodes); md_medoid := medoid; md_range := width; md_geometry := g |}).
Proof.
  intros Hnd HT Hwd Hlen Hok Hn Hm Hf Hrc Hwc Htags g base_file. unfold create_disk_layout_files.
  destruct (Reader.reader_open_wf base_file rcache 0) as (r & -> & H1 & H2); [done | lia |]. cbn [mbind outcome_bind].
  destruct (Writer.writer_open_wf [] wcache 0) as (w & -> & H3 & H4 & H5); [done | done |]. cbn [mbind outcome_bind].
  destruct (create_disk_layout_spec sizeof_T ndims width Hnd HT Hwd Hlen nodes Hok Hn index_size medoid frozen vrest brest r w)
    as (f & -> & Hnodes & Hmeta); [done | done | done | done | split; [done | simpl; by rewrite H5, H4] | done |].
  cbn [mbind outcome_bind]. unfold base_file. rewrite base_points, graph_frozen by (done || lia).
  rewrite (write_tags_given _ _ _ _ tags) by (done || lia). by exists f.
Qed.

Definition small_nodes : list node :=
  [{| coords := replicate 300 1; nbrs := [1; 2; 3] |}; {| coords := replicate 300 2; nbrs := [0] |}; {| coords := replicate 300 3; nbrs := [3; 1] |};
   {| coords := replicate 300 4; nbrs := [0; 1] |}].

Definition small_tags : list Z := bin_header 4 1 ++ le32 5 ++ le32 6 ++ le32 7 ++ le32 8.

Lemma create_disk_layout_witness :
  let g := layout_geometry 1 300 2 in
  let base_file := bin_header 4 300 ++ bbytes small_nodes ++ [] in
  exists f, create_disk_layout_files 1 4 base_file (vamana_file 24 2 1 1 small_nodes []) (Some (Some small_tags)) 3 5000 = Ok (f, Some small_tags) /\
    (forall i nd, small_nodes !! i = Some nd -> disk_node g (bytes_at f) (u_loc_offset g (Z.of_nat i)) = stored 2 nd) /\
    (nnodes_per_sector g <= 16 -> load_metadata 1 f =
       Some {| md_ckpt := 9; md_nnodes := 4; md_medoid := 1; md_range := 2; md_geometry := g |}).
Proof.
  apply (create_disk_layout_correct 1 4 300 2 small_nodes 24 1 1 (Some (Some small_tags)) (Some small_tags) [] [] 3 5000); try lia; try done.
  - repeat constructor; simpl; lia || done.
  - apply (tags_copied 4 4 1 small_tags (le32 5 ++ le32 6 ++ le32 7 ++ le32 8)); [by exists [] | done | done].
Defined.
