(* ===== verification/PQFiles.v ===== *)
(** * The files of the product quantizer

    [generate_pq_pivots] ([src/utils/partition_and_pq.cpp]) splits the
    dimensions into chunks and, after k-means, writes the centres, the
    centroid, the rearrangement and the chunk offsets into one file behind a
    table of offsets; [load_pq_pivots_new] and [load_pq_centroid_bin]
    ([include/pq_table.h]) read it.

    A read that hits the end of the file leaves undefined values behind: the
    model ends the run there. *)
From S2P Require Import Prelude Layout Node Neighbor Files DiskLayout FloatArith Arrays PQTable.

Definition METADATA_SIZE : nat := 4096.
Definition NUM_PQ_CENTROIDS : Z := 256.
Definition NUM_PQ_OFFSETS : Z := 5.

(** ** Chunks *)
Section Chunks.
Context {F : Type} `{!FloatArith F}.

Record chunking := {
  bin_to_dims : list (list nat);
  cur_num_high : nat;
  cur_bin_threshold : nat;
}.

(** The scan for the first least-loaded chunk with room; the initial value is
    not the number of a chunk. *)
Definition best_bin (num_pq_chunks : nat) (bin_loads : list F) (s : chunking) : outcome nat :=
  r ← foldM (fun b (r : nat * F) =>
    load ← rd bin_loads b;
    dims ← rd (bin_to_dims s) b;
    Ok (if float_lt load r.2 && bool_decide (length dims < cur_bin_threshold s)%nat then (b, load) else r))
    (range 0 num_pq_chunks) (S num_pq_chunks, float_max);
  Ok r.1.

Definition assign_dim (low_val high_val max_num_high num_pq_chunks : nat) (d : nat) (s : chunking) : outcome chunking :=
  cur_best ← best_bin num_pq_chunks (replicate num_pq_chunks float_zero) s;
  dims ← rd (bin_to_dims s) cur_best;
  let bins := <[cur_best := dims ++ [d]]> (bin_to_dims s) in
  if bool_decide (length (dims ++ [d]) = high_val) then
    let n := S (cur_num_high s) in
    Ok {| bin_to_dims := bins; cur_num_high := n;
          cur_bin_threshold := if bool_decide (n = max_num_high) then low_val else cur_bin_threshold s |}
  else Ok {| bin_to_dims := bins; cur_num_high := cur_num_high s; cur_bin_threshold := cur_bin_threshold s |}.

(** The division is undefined for zero chunks. *)
Definition assign_chunks (dim num_pq_chunks : nat) : outcome (list nat * list nat) :=
  if bool_decide (num_pq_chunks = 0)%nat then Crash
  else
    let low_val := (dim / num_pq_chunks)%nat in
    let high_val := if bool_decide (dim mod num_pq_chunks = 0)%nat then low_val else S low_val in
    let max_num_high := (dim - low_val * num_pq_chunks)%nat in
    s ← foldM (assign_dim low_val high_val max_num_high num_pq_chunks) (range 0 dim)
      {| bin_to_dims := replicate num_pq_chunks []; cur_num_high := 0; cur_bin_threshold := high_val |};
    r ← foldM (fun b (r : list nat * list nat) =>
      dims ← rd (bin_to_dims s) b;
      offsets ← (if bool_decide (0 < b)%nat then
          o ← rd r.2 (b - 1);
          prev ← rd (bin_to_dims s) (b - 1);
          Ok (r.2 ++ [(o + length prev)%nat])
        else Ok r.2);
      Ok (r.1 ++ dims, offsets)) (range 0 num_pq_chunks) ([], [0%nat]);
    Ok (r.1, r.2 ++ [dim]).
End Chunks.

(** ** The pivot file *)

(** [load_bin_impl]: the counts and the bytes of the data. *)
Definition load_bin_impl (size : Z) (f : list Z) (offset : nat) : outcome (Z * Z * list Z) :=
  let '(npts, dim, data) := load_bin size f offset in
  if bool_decide (offset + 8 + Z.to_nat (u64 (npts * dim * size)) <= length f)%nat then Ok (npts, dim, data) else Crash.

Definition words64 (n : nat) (bs : list Z) : list Z := (fun i : nat => read_u64 (bytes_at bs) (8 * Z.of_nat i)) <$> seq 0 n.

(** [pivots], [centroid]: the floats as words. *)
Definition write_pivots (num_centers dim : Z) (pivots centroid rearrangement chunk_offsets : list Z) (f : list Z) : list Z :=
  let c0 := Z.of_nat METADATA_SIZE in
  let '(f, n0) := save_bin 4 (pivots ≫= le32) num_centers dim (Z.to_nat c0) f in
  let c1 := u64 (c0 + n0) in
  let '(f, n1) := save_bin 4 (centroid ≫= le32) dim 1 (Z.to_nat c1) f in
  let c2 := u64 (c1 + n1) in
  let '(f, n2) := save_bin 4 (rearrangement ≫= le32) (Z.of_nat (length rearrangement)) 1 (Z.to_nat c2) f in
  let c3 := u64 (c2 + n2) in
  let '(f, n3) := save_bin 4 (chunk_offsets ≫= le32) (Z.of_nat (length chunk_offsets)) 1 (Z.to_nat c3) f in
  let c4 := u64 (c3 + n3) in
  (save_bin 8 ([c0; c1; c2; c3; c4] ≫= le64) 5 1 0 f).1.

Section Load.
Context {F : Type} `{!FloatArith F} `{!FloatBits F}.

Definition check (b : bool) : outcome () := if b then Ok () else Crash.

Definition load_pq_pivots_new (f : list Z) (num_chunks : Z) (offset : Z) : outcome (FixedChunkPQTable F) :=
  '(nr, nc, d) ← load_bin_impl 8 f (Z.to_nat offset);
  let file_offset_data := words64 (Z.to_nat (nr * nc)) d in
  _ ← check (nr =? NUM_PQ_OFFSETS);
  o0 ← rd file_offset_data 0;
  '(nr, nc, d) ← load_bin_impl 4 f (Z.to_nat (u64 (o0 + offset)));
  let tables := words (Z.to_nat (nr * nc)) d in
  _ ← check (nr =? NUM_PQ_CENTROIDS);
  let ndims := nc in
  o1 ← rd file_offset_data 1;
  '(nr, nc, d) ← load_bin_impl 4 f (Z.to_nat (u64 (o1 + offset)));
  let centroid := words (Z.to_nat (nr * nc)) d in
  _ ← check ((nr =? ndims) && (nc =? 1));
  o2 ← rd file_offset_data 2;
  '(nr, nc, d) ← load_bin_impl 4 f (Z.to_nat (u64 (o2 + offset)));
  let rearrangement := words (Z.to_nat (nr * nc)) d in
  _ ← check ((nr =? ndims) && (nc =? 1));
  o3 ← rd file_offset_data 3;
  '(nr, nc, d) ← load_bin_impl 4 f (Z.to_nat (u64 (o3 + offset)));
  let chunk_offsets := words (Z.to_nat (nr * nc)) d in
  _ ← check ((nr =? u64 (num_chunks + 1)) && (nc =? 1));
  Ok {| tables := float_of_bits <$> tables; centroid := float_of_bits <$> centroid;
        ndims := Z.to_nat ndims; n_chunks := Z.to_nat num_chunks;
        chunk_offsets := chunk_offsets; rearrangement := rearrangement;
        tables_T := []; all_to_all_dists := [] |}.

Definition load_pq_centroid_bin (buf : list F) (f : list Z) (num_chunks offset : Z) : outcome (FixedChunkPQTable F) :=
  t ← load_pq_pivots_new f num_chunks offset;
  post_load_pq_table buf t.
End Load.

(** ** Facts: the chunks *)

(** First dimension of chunk [b]: the first [r] chunks have one dimension more. *)
Definition chunk_start (low r b : nat) : nat := b * low + Nat.min b r.

Lemma chunk_start_S low r b : chunk_start low r (S b) = (chunk_start low r b + low + if decide (b < r) then 1 else 0)%nat.
Proof. unfold chunk_start. case_decide; lia. Qed.

Lemma chunk_start_mono low r b b' : (b <= b')%nat -> (chunk_start low r b <= chunk_start low r b')%nat.
Proof. unfold chunk_start. intros. nia. Qed.

Section ChunkFacts.
Context {F : Type} `{!FloatArith F}.
Context (low r n : nat) (Hlow : (0 < low)%nat) (Hr : (r < n)%nat).

Abbreviation high := (if bool_decide (r = 0)%nat then low else S low).
Abbreviation start := (chunk_start low r).
Abbreviation dim := (start n).

(** After the dimensions below [d], with chunk [b] being filled. *)
Record chunk_inv (d b : nat) (s : chunking) : Prop := {
  ci_len : length (bin_to_dims s) = n;
  ci_bins : forall b', (b' < n)%nat -> bin_to_dims s !! b' = Some (range (start b') (Nat.min d (start (S b'))));
  ci_cur : (b <= n)%nat /\ (start b <= d)%nat /\ ((b < n)%nat -> (d < start (S b))%nat);
  ci_high : cur_num_high s = if bool_decide (r = 0)%nat then b else Nat.min b r;
  ci_thr : cur_bin_threshold s = if bool_decide (r = 0 \/ b < r)%nat then high else low;
}.

Lemma best_bin_ok d b s : chunk_inv d b s -> (b < n)%nat -> best_bin n (replicate n float_zero) s = Ok b.
Proof.
  intros [Hl Hb (_ & Hbd & Hdb) _ Ht] Hbn. specialize (Hdb Hbn). unfold best_bin.
  enough (forall m, (m <= n)%nat -> foldM (fun b (r : nat * F) =>
    load ← rd (replicate n float_zero) b; dims ← rd (bin_to_dims s) b;
    Ok (if float_lt load r.2 && bool_decide (length dims < cur_bin_threshold s)%nat then (b, load) else r))
    (range 0 m) (S n, float_max) = Ok (if decide (b < m)%nat then (b, float_zero) else (S n, float_max))) as H.
  { rewrite H by done. by rewrite decide_True. }
  induction m as [|m IH]; intros Hm; [done|]. rewrite range_S, foldM_app, IH by lia. cbn [mbind outcome_bind foldM].
  unfold rd. rewrite lookup_replicate_2, Hb by lia. cbn [mbind outcome_bind]. rewrite length_range, Ht.
  destruct (decide (b < m)%nat) as [Hbm|Hbm]; cbn [snd].
  - rewrite float_lt_irrefl. by rewrite decide_True by lia.
  - rewrite float_zero_max. cbn [andb]. pose proof (chunk_start_S low r m). pose proof (chunk_start_S low r b).
    destruct (decide (b = m)) as [->|Hne].
    + rewrite (decide_True (P := (m < S m)%nat)) by lia. rewrite bool_decide_eq_true_2; [done|].
      repeat case_bool_decide; repeat case_decide; lia.
    + rewrite (decide_False (P := (b < S m)%nat)) by lia. rewrite bool_decide_eq_false_2; [done|].
      pose proof (chunk_start_mono low r (S m) b). repeat case_bool_decide; repeat case_decide; lia.
Qed.

Lemma assign_dim_ok d s : (d < dim)%nat -> (exists b, chunk_inv d b s) ->
  exists s', assign_dim low high r n d s = Ok s' /\ exists b, chunk_inv (S d) b s'.
Proof.
  intros Hd [b H]. assert (Hbn : (b < n)%nat).
  { destruct (ci_cur _ _ _ H) as (Hb & Hbd & _). destruct (decide (b = n)) as [->|]; lia. }
  unfold assign_dim. rewrite (best_bin_ok _ _ _ H Hbn). destruct H as [Hl Hb (_ & Hbd & Hdb) Hh Ht]. specialize (Hdb Hbn).
  cbn [mbind outcome_bind]. unfold rd. rewrite Hb by done. cbn [mbind outcome_bind].
  pose proof (chunk_start_S low r b) as HS. rewrite (Nat.min_l d) by lia. rewrite <- range_snoc by done.
  rewrite length_range.
  assert (Hbins : forall b', (b' < n)%nat -> <[b := range (start b) (S d)]> (bin_to_dims s) !! b' =
    Some (range (start b') (Nat.min (S d) (start (S b'))))).
  { intros b' Hb'. destruct (decide (b' = b)) as [->|Hne].
    - rewrite list_lookup_insert_eq by lia. do 2 f_equal. lia.
    - rewrite list_lookup_insert_ne, Hb by done. f_equal. destruct (decide (b' < b)%nat) as [Hlt|Hge].
      + pose proof (chunk_start_mono low r (S b') b ltac:(lia)). f_equal. lia.
      + pose proof (chunk_start_mono low r (S b) b' ltac:(lia)). unfold range.
        pose proof (chunk_start_mono low r b' (S b') ltac:(lia)).
        replace (Nat.min d (start (S b')) - start b')%nat with 0%nat by lia.
        by replace (Nat.min (S d) (start (S b')) - start b')%nat with 0%nat by lia. }
  pose proof (chunk_start_S low r (S b)) as HSS.
  destruct (decide (S d - start b = high)%nat) as [Efull|Efull];
    [rewrite bool_decide_eq_true_2 by done | rewrite bool_decide_eq_false_2 by done]; eexists; (split; [done|]).
  - exists (S b). split; cbn [bin_to_dims cur_num_high cur_bin_threshold]; [by rewrite length_insert | done | | |].
    + repeat case_bool_decide; repeat case_decide; lia.
    + rewrite Hh. repeat case_bool_decide; repeat case_decide; lia.
    + rewrite Ht, Hh. repeat case_bool_decide; repeat case_decide; lia.
  - destruct (decide (S d < start (S b))%nat).
    + exists b. split; cbn [bin_to_dims cur_num_high cur_bin_threshold]; [by rewrite length_insert | done | lia | done | done].
    + exists (S b). split; cbn [bin_to_dims cur_num_high cur_bin_threshold]; [by rewrite length_insert | done | | |].
      * repeat case_bool_decide; repeat case_decide; lia.
      * rewrite Hh. repeat case_bool_decide; repeat case_decide; lia.
      * rewrite Ht. repeat case_bool_decide; repeat case_decide; lia.
Qed.

Lemma concat_ok s b : chunk_inv dim b s ->
  foldM (fun b (r : list nat * list nat) =>
    dims ← rd (bin_to_dims s) b;
    offsets ← (if bool_decide (0 < b)%nat then
        o ← rd r.2 (b - 1);
        prev ← rd (bin_to_dims s) (b - 1);
        Ok (r.2 ++ [(o + length prev)%nat])
      else Ok r.2);
    Ok (r.1 ++ dims, offsets)) (range 0 n) ([], [0%nat]) = Ok (range 0 dim, start <$> range 0 n).
Proof.
  intros [Hl Hb _ _ _]. assert (Hbin : forall b', (b' < n)%nat -> rd (bin_to_dims s) b' = Ok (range (start b') (start (S b')))).
  { intros b' Hb'. unfold rd. rewrite Hb by done. pose proof (chunk_start_mono low r (S b') n ltac:(lia)). do 2 f_equal. lia. }
  set (body := fun _ => _). enough (forall m, (m <= n)%nat -> foldM body (range 0 m) ([], [0%nat]) =
    Ok (range 0 (start m), start <$> range 0 (Nat.max m 1))) as H.
  { rewrite H by done. by replace (Nat.max n 1) with n by lia. }
  induction m as [|m IH]; intros Hm; [done|]. rewrite range_S, foldM_app, IH by lia. cbn [mbind outcome_bind foldM].
  unfold body. rewrite (Hbin m) by lia. cbn [mbind outcome_bind fst snd].
  assert (Happ : range 0 (start m) ++ range (start m) (start (S m)) = range 0 (start (S m))).
  { symmetry. apply range_app. pose proof (chunk_start_mono low r m (S m)). lia. }
  destruct m as [|m].
  - cbn [mbind outcome_bind]. by rewrite <- Happ.
  - rewrite bool_decide_eq_true_2 by lia. replace (S m - 1)%nat with m by lia. rewrite Hbin by lia. unfold rd at 1.
    rewrite list_lookup_fmap, lookup_range by lia. cbn [fmap option_fmap option_map mbind outcome_bind]. rewrite Happ.
    do 2 f_equal. replace (Nat.max (S m) 1) with (S m) by lia. replace (Nat.max (S (S m)) 1) with (S (S m)) by lia.
    rewrite (range_S (S m)), fmap_app. cbn [fmap list_fmap]. rewrite length_range.
    pose proof (chunk_start_mono low r m (S m)). do 3 f_equal. cbn [Nat.add]. lia.
Qed.

Lemma assign_loop : exists s b, foldM (assign_dim low high r n) (range 0 dim)
  {| bin_to_dims := replicate n []; cur_num_high := 0; cur_bin_threshold := high |} = Ok s /\ chunk_inv dim b s.
Proof.
  enough (forall d, (d <= dim)%nat -> exists s b, foldM (assign_dim low high r n) (range 0 d)
    {| bin_to_dims := replicate n []; cur_num_high := 0; cur_bin_threshold := high |} = Ok s /\ chunk_inv d b s) as H.
  { by apply H. }
  induction d as [|d IH]; intros Hd.
  - eexists _, 0%nat. split; [done|]. pose proof (chunk_start_S low r 0) as HS. split; cbn [bin_to_dims cur_num_high cur_bin_threshold].
    + apply length_replicate.
    + intros b' Hb'. by rewrite lookup_replicate_2.
    + split; [lia|]. split; [done|]. unfold chunk_start in *. intros. case_decide; lia.
    + case_bool_decide; lia.
    + repeat case_bool_decide; lia.
  - destruct IH as (s & b & E & Hs); [lia|]. rewrite range_S, foldM_app, E. cbn [mbind outcome_bind foldM].
    destruct (assign_dim_ok d s) as (s' & -> & b' & Hs'); [lia | by exists b|]. by exists s', b'.
Qed.
End ChunkFacts.

Lemma assign_chunks_ok F `{!FloatArith F} dim n : (0 < n <= dim)%nat ->
  assign_chunks (F := F) dim n = Ok (range 0 dim, chunk_start (dim / n) (dim mod n) <$> range 0 (S n)).
Proof.
  intros Hn. set (low := (dim / n)%nat). set (r := (dim mod n)%nat).
  assert (Hdiv : (dim = n * low + r)%nat) by apply Nat.div_mod_eq.
  assert (Hr : (r < n)%nat) by (apply Nat.mod_upper_bound; lia).
  assert (Hlow : (0 < low)%nat) by (apply Nat.div_str_pos; lia).
  assert (Hdim : dim = chunk_start low r n) by (unfold chunk_start; lia).
  unfold assign_chunks. rewrite bool_decide_eq_false_2 by lia. fold low. fold r.
  replace (dim - low * n)%nat with r by lia.
  destruct (assign_loop low r n Hlow Hr) as (s & b & E & Hs). rewrite <- Hdim in E. rewrite E. cbn [mbind outcome_bind].
  rewrite (concat_ok low r n Hlow Hr s b Hs). cbn [mbind outcome_bind fst snd]. rewrite <- Hdim.
  rewrite range_S, fmap_app. cbn [fmap list_fmap]. by rewrite <- Hdim.
Qed.

(** C21. The chunks that the code assigns are consecutive and balanced.  (The
    comment above the assignment says otherwise: for 6 dimensions in 3 chunks it
    gives the bins [[[0,3],[1,4],[2,5]]] and the rearrangement
    [[0,3,1,4,2,5]]; the code gives [[[0,1],[2,3],[4,5]]] and the identity,
    [chunks_of_6_3].)  For any number of chunks up to the dimension, no access of the assignment is out of
    bounds, the rearrangement is the identity, the offsets start at 0, end at
    the dimension, and every chunk has the quotient of dimension and number of
    chunks, the first (dimension modulo chunks) of them one more. *)
Theorem pq_chunks_balanced F `{!FloatArith F} dim n : (0 < n <= dim)%nat ->
  exists offsets, assign_chunks (F := F) dim n = Ok (seq 0 dim, offsets) /\
    length offsets = S n /\ offsets !! 0%nat = Some 0%nat /\ offsets !! n = Some dim /\
    forall b, (b < n)%nat -> exists lo hi, offsets !! b = Some lo /\ offsets !! S b = Some hi /\
      hi = (lo + (dim / n + if bool_decide (b < dim mod n) then 1 else 0))%nat.
Proof.
  intros Hn. rewrite (assign_chunks_ok F dim n Hn).
  exists (chunk_start (dim / n) (dim mod n) <$> range 0 (S n)). split; [unfold range; by rewrite !Nat.sub_0_r|].
  rewrite length_fmap, length_range. split; [lia|].
  assert (H : forall b, (b <= n)%nat -> (chunk_start (dim / n) (dim mod n) <$> range 0 (S n)) !! b = Some (chunk_start (dim / n) (dim mod n) b)).
  { intros b Hb. rewrite list_lookup_fmap, lookup_range by lia. done. }
  rewrite !H by lia. split; [done|]. split.
  - f_equal. unfold chunk_start. pose proof (Nat.div_mod_eq dim n). pose proof (Nat.mod_upper_bound dim n ltac:(lia)). lia.
  - intros b Hb. do 2 eexists. split; [apply H; lia|]. split; [apply H; lia|]. rewrite chunk_start_S.
    case_decide; case_bool_decide; lia.
Qed.

Example chunks_of_6_3 : assign_chunks (F := Word) 6 3 = Ok ([0; 1; 2; 3; 4; 5]%nat, [0; 2; 4; 6]%nat).
Proof. by vm_compute. Qed.

Lemma pq_chunks_balanced_witness :
  exists offsets, assign_chunks (F := Word) 6 4 = Ok (seq 0 6, offsets) /\
    length offsets = 5%nat /\ offsets !! 0%nat = Some 0%nat /\ offsets !! 4%nat = Some 6%nat /\
    forall b, (b < 4)%nat -> exists lo hi, offsets !! b = Some lo /\ offsets !! S b = Some hi /\
      hi = (lo + (1 + if bool_decide (b < 2) then 1 else 0))%nat.
Proof. apply (pq_chunks_balanced Word 6 4). lia. Defined.

(** ** Facts: the file *)
Definition agree (P : nat -> Prop) (f f' : list Z) : Prop :=
  (length f <= length f')%nat /\ forall p, P p -> (p < length f)%nat -> f' !! p = f !! p.

Lemma pwrite_agree f off w : agree (fun p => (p < off)%nat \/ (off + length w <= p)%nat) f (pwrite f (off, w)).
Proof.
  split; [rewrite pwrite_length; lia|]. intros p Hp Hf. rewrite pwrite_lookup, decide_False by lia. by rewrite decide_False by lia.
Qed.

Lemma holds_agree (P : nat -> Prop) f f' off bs : agree P f f' -> holds f off bs ->
  (forall p, (off <= p < off + length bs)%nat -> P p) -> holds f' off bs.
Proof.
  intros [_ H] Hb HP i b Hi. pose proof (lookup_lt_Some _ _ _ Hi). pose proof (Hb i b Hi) as Hf.
  rewrite H; [done | apply HP; lia | by eapply lookup_lt_Some].
Qed.

Lemma save_bin_holds size data npts ndims off f :
  Z.of_nat (length data) = npts * ndims * size -> npts * ndims * size < 2 ^ 63 ->
  let f' := (save_bin size data npts ndims off f).1 in
  holds f' off (bin_header npts ndims ++ data) /\
  agree (fun p => (p < off)%nat \/ (off + 8 + length data <= p)%nat) f f' /\
  (save_bin size data npts ndims off f).2 = Z.of_nat (length data) + 8.
Proof.
  intros Hl Hs. unfold save_bin. cbn [fst snd]. rewrite !u64_small by lia. rewrite take_ge by lia.
  set (h := bin_header npts ndims). assert (Hh : length h = 8%nat) by done. set (f1 := pwrite f (off, h)).
  assert (H1 : agree (fun p => (p < off)%nat \/ (off + 8 <= p)%nat) f f1) by (rewrite <- Hh; apply pwrite_agree).
  pose proof (pwrite_agree f1 (off + 8) data) as H2. split_and!; [|split|lia].
  - intros i b Hb. destruct (decide (i < 8)%nat).
    + rewrite lookup_app_l in Hb by lia. destruct H2 as [_ H2]. assert (f1 !! (off + i)%nat = Some b) as E by by apply (holds_pwrite f off h).
      rewrite H2; [done | lia | by eapply lookup_lt_Some].
    + rewrite lookup_app_r, Hh in Hb by lia. replace (off + i)%nat with (off + 8 + (i - 8))%nat by lia.
      by apply (holds_pwrite f1 (off + 8) data).
  - destruct H1, H2. lia.
  - intros p Hp Hf. destruct H1 as [Hle H1], H2 as [_ H2]. rewrite H2, H1; [done | lia | done | lia | lia].
Qed.

Lemma load_bin_holds size f off npts ndims data :
  holds f off (bin_header npts ndims ++ data) -> 0 <= npts < 2 ^ 32 -> 0 <= ndims < 2 ^ 32 ->
  Z.of_nat (length data) = npts * ndims * size -> npts * ndims * size < 2 ^ 63 ->
  load_bin_impl size f off = Ok (npts, ndims, data).
Proof.
  intros H Hn Hd Hl Hs. set (bs := bin_header npts ndims ++ data) in H.
  assert (Hbs : length bs = (8 + length data)%nat) by (unfold bs; by rewrite length_app).
  assert (Hlen : (off + length bs <= length f)%nat).
  { destruct (lookup_lt_is_Some_2 bs (length bs - 1)) as [b Hb]; [lia|]. apply H, lookup_lt_Some in Hb. lia. }
  assert (Hat : bin_at f off npts ndims data).
  { exists (drop (off + length bs) f). rewrite app_assoc. fold bs. apply list_eq. intros i. rewrite lookup_drop.
    destruct (decide (i < length bs)%nat) as [Hi|Hi].
    - rewrite lookup_app_l by done. destruct (lookup_lt_is_Some_2 bs i Hi) as [b Hb]. rewrite Hb. by apply H.
    - rewrite lookup_app_r, lookup_drop by lia. f_equal. lia. }
  unfold load_bin_impl. rewrite (load_bin_at size f off npts ndims data Hat Hn Hd Hl) by lia.
  rewrite u64_small by lia. by rewrite bool_decide_eq_true_2 by lia.
Qed.

Lemma words64_bytes l : Forall (fun x => 0 <= x < 2 ^ 64) l -> words64 (length l) (l ≫= le64) = l.
Proof.
  rewrite Forall_forall. intros Hl. apply list_eq. intros i. unfold words64. rewrite list_lookup_fmap.
  destruct (decide (i < length l)%nat) as [Hi|Hi].
  - rewrite lookup_seq_lt by lia. destruct (lookup_lt_is_Some_2 l i Hi) as [x Hx]. rewrite Hx. cbn [fmap option_fmap option_map]. f_equal.
    replace (8 * Z.of_nat (0 + i)) with (Z.of_nat (0 + 8 * i)) by lia.
    apply (read_word_list _ 0 l i); [done | by eapply Hl, list_elem_of_lookup_2|]. by intros k b Hk.
  - by rewrite lookup_seq_ge, lookup_ge_None_2 by lia.
Qed.

(** The file has the five parts, and the table of offsets points at them. *)
Lemma write_pivots_holds nc dim (p c r o f : list Z) :
  0 <= nc < 2 ^ 10 -> 0 <= dim < 2 ^ 32 -> Z.of_nat (length p) = nc * dim -> Z.of_nat (length c) = dim ->
  Z.of_nat (length r) < 2 ^ 32 -> Z.of_nat (length o) < 2 ^ 32 ->
  exists o1 o2 o3 o4 : nat, let f' := write_pivots nc dim p c r o f in
    Z.of_nat o4 < 2 ^ 60 /\ (o1 <= o4)%nat /\ (o2 <= o4)%nat /\ (o3 <= o4)%nat /\
    holds f' 0 (bin_header 5 1 ++ ([4096; Z.of_nat o1; Z.of_nat o2; Z.of_nat o3; Z.of_nat o4] ≫= le64)) /\
    holds f' 4096 (bin_header nc dim ++ (p ≫= le32)) /\ holds f' o1 (bin_header dim 1 ++ (c ≫= le32)) /\
    holds f' o2 (bin_header (Z.of_nat (length r)) 1 ++ (r ≫= le32)) /\
    holds f' o3 (bin_header (Z.of_nat (length o)) 1 ++ (o ≫= le32)).
Proof.
  intros Hnc Hdim Hp Hc Hr Ho. unfold write_pivots.
  pose proof (length_bind_le32 p). pose proof (length_bind_le32 c). pose proof (length_bind_le32 r). pose proof (length_bind_le32 o).
  assert (Z.of_nat (length p) < 2 ^ 42) by nia. clear Hnc.
  change (Z.of_nat METADATA_SIZE) with 4096. change (Z.to_nat 4096) with 4096%nat.
  destruct (save_bin_holds 4 (p ≫= le32) nc dim 4096 f) as (A1 & G1 & E1); [lia..|].
  destruct (save_bin 4 (p ≫= le32) nc dim 4096 f) as [f1 n0]. cbn [fst snd] in *. subst n0.
  set (o1 := (4096 + 8 + length (p ≫= le32))%nat).
  replace (u64 (4096 + _)) with (Z.of_nat o1) by (rewrite u64_small; lia). rewrite Nat2Z.id.
  destruct (save_bin_holds 4 (c ≫= le32) dim 1 o1 f1) as (A2 & G2 & E2); [lia..|].
  destruct (save_bin 4 (c ≫= le32) dim 1 o1 f1) as [f2 n1]. cbn [fst snd] in *. subst n1.
  set (o2 := (o1 + 8 + length (c ≫= le32))%nat).
  replace (u64 (Z.of_nat o1 + _)) with (Z.of_nat o2) by (rewrite u64_small; lia). rewrite Nat2Z.id.
  destruct (save_bin_holds 4 (r ≫= le32) (Z.of_nat (length r)) 1 o2 f2) as (A3 & G3 & E3); [lia..|].
  destruct (save_bin 4 (r ≫= le32) _ 1 o2 f2) as [f3 n2]. cbn [fst snd] in *. subst n2.
  set (o3 := (o2 + 8 + length (r ≫= le32))%nat).
  replace (u64 (Z.of_nat o2 + _)) with (Z.of_nat o3) by (rewrite u64_small; lia). rewrite Nat2Z.id.
  destruct (save_bin_holds 4 (o ≫= le32) (Z.of_nat (length o)) 1 o3 f3) as (A4 & G4 & E4); [lia..|].
  destruct (save_bin 4 (o ≫= le32) _ 1 o3 f3) as [f4 n3]. cbn [fst snd] in *. subst n3.
  set (o4 := (o3 + 8 + length (o ≫= le32))%nat).
  replace (u64 (Z.of_nat o3 + _)) with (Z.of_nat o4) by (rewrite u64_small; lia).
  set (cum := [4096; _; _; _; _]). destruct (save_bin_holds 8 (cum ≫= le64) 5 1 0 f4) as (A5 & G5 & _); [done..|].
  exists o1, o2, o3, o4. cbn zeta.
  assert (Hlen : length (cum ≫= le64) = 40%nat) by done. rewrite Hlen in G5.
  assert (forall n d bs, length (bin_header n d ++ bs) = (8 + length bs)%nat) as Lh by (intros; by rewrite length_app).
  split_and!; [lia | lia | lia | lia | exact A5 | ..].
  - apply (holds_agree _ _ _ _ _ G5); [|intros q; rewrite Lh; lia]. apply (holds_agree _ _ _ _ _ G4); [|intros q; rewrite Lh; lia].
    apply (holds_agree _ _ _ _ _ G3); [|intros q; rewrite Lh; lia]. by apply (holds_agree _ _ _ _ _ G2); [|intros q; rewrite Lh; lia].
  - apply (holds_agree _ _ _ _ _ G5); [|intros q; rewrite Lh; lia]. apply (holds_agree _ _ _ _ _ G4); [|intros q; rewrite Lh; lia].
    by apply (holds_agree _ _ _ _ _ G3); [|intros q; rewrite Lh; lia].
  - apply (holds_agree _ _ _ _ _ G5); [|intros q; rewrite Lh; lia]. by apply (holds_agree _ _ _ _ _ G4); [|intros q; rewrite Lh; lia].
  - by apply (holds_agree _ _ _ _ _ G5); [|intros q; rewrite Lh; lia].
Qed.

(** ** The round trip *)
Section RoundTrip.
Context {F : Type} `{!FloatArith F} `{!FloatBits F}.

Lemma bits_range (l : list F) : ids32 (float_bits <$> l).
Proof using Type. apply Forall_fmap, Forall_forall. intros x _. apply float_bits_range. Qed.

Lemma bits_back (l : list F) : float_of_bits <$> (float_bits <$> l) = l.
Proof using Type. induction l as [|x l IH]; simpl; [done|]. rewrite float_of_bits_bits. f_equal. exact IH. Qed.

Lemma load_words f off npts (l : list Z) : holds f off (bin_header npts 1 ++ (l ≫= le32)) ->
  ids32 l -> Z.of_nat (length l) = npts -> npts < 2 ^ 32 ->
  load_bin_impl 4 f off = Ok (npts, 1, l ≫= le32) /\ words (Z.to_nat (npts * 1)) (l ≫= le32) = l.
Proof using Type.
  intros H Hl Hn Hs. split; [apply load_bin_holds; [done | lia | lia | rewrite length_bind_le32; lia | lia]|].
  rewrite <- Hn, Z.mul_1_r, Nat2Z.id. by apply words_bytes.
Qed.

Lemma bind_eq {A B} (m : outcome A) (k : A -> outcome B) a r : m = Ok a -> k a = r -> m ≫= k = r.
Proof using Type. by intros -> <-. Qed.

Lemma offsets_back o1 o2 o3 o4 : 0 <= o1 < 2 ^ 64 -> 0 <= o2 < 2 ^ 64 -> 0 <= o3 < 2 ^ 64 -> 0 <= o4 < 2 ^ 64 ->
  words64 (Z.to_nat (5 * 1)) ([4096; o1; o2; o3; o4] ≫= le64) = [4096; o1; o2; o3; o4].
Proof using Type.
  intros H1 H2 H3 H4. apply (words64_bytes [4096; o1; o2; o3; o4]).
  repeat (apply Forall_cons; split; [lia|]). by apply Forall_nil.
Qed.

Lemma load_pivots_ok dim n (tabs cent : list F) (r o f : list Z) :
  0 <= dim < 2 ^ 32 -> 0 <= n < 2 ^ 32 - 1 ->
  Z.of_nat (length tabs) = 256 * dim -> Z.of_nat (length cent) = dim ->
  Z.of_nat (length r) = dim -> Z.of_nat (length o) = n + 1 -> ids32 r -> ids32 o ->
  load_pq_pivots_new (write_pivots 256 dim (float_bits <$> tabs) (float_bits <$> cent) r o f) n 0 =
    Ok {| tables := tabs; centroid := cent; ndims := Z.to_nat dim; n_chunks := Z.to_nat n;
          chunk_offsets := o; rearrangement := r; tables_T := []; all_to_all_dists := [] |}.
Proof using Type.
  intros Hdim Hn Ht Hc Hr Ho Ir Io.
  destruct (write_pivots_holds 256 dim (float_bits <$> tabs) (float_bits <$> cent) r o f)
    as (o1 & o2 & o3 & o4 & Hb & H1 & H2 & H3 & A0 & A1 & A2 & A3 & A4); rewrite ?length_fmap; [lia..|].
  set (f' := write_pivots _ _ _ _ _ _ _) in *. clearbody f'. unfold load_pq_pivots_new.
  destruct (load_words f' o1 dim _ A2 (bits_range cent)) as [L1 W1]; [by rewrite length_fmap | lia|].
  rewrite Hr in A3. destruct (load_words f' o2 dim _ A3 Ir Hr) as [L2 W2]; [lia|].
  rewrite Ho in A4. destruct (load_words f' o3 (n + 1) _ A4 Io Ho) as [L3 W3]; [lia|].
  eapply bind_eq; [apply (load_bin_holds 8 f' 0 5 1 _ A0); rewrite ?length_bind_le32; done || lia|]. cbv beta iota zeta.
  rewrite offsets_back by lia.
  eapply bind_eq; [done|]. cbv beta. eapply bind_eq; [done|]. cbv beta. rewrite !Z.add_0_r.
  eapply bind_eq; [rewrite u64_small by lia; apply (load_bin_holds 4 f' 4096 256 dim _ A1); rewrite ?length_bind_le32, ?length_fmap; lia|].
  cbv beta iota zeta. eapply bind_eq; [done|]. cbv beta. eapply bind_eq; [done|]. cbv beta. rewrite !Z.add_0_r.
  eapply bind_eq; [rewrite u64_small, Nat2Z.id by lia; exact L1|].
  cbv beta iota zeta. eapply bind_eq; [by rewrite Z.eqb_refl|]. cbv beta. eapply bind_eq; [done|]. cbv beta. rewrite !Z.add_0_r.
  eapply bind_eq; [rewrite u64_small, Nat2Z.id by lia; exact L2|].
  cbv beta iota zeta. eapply bind_eq; [by rewrite Z.eqb_refl|]. cbv beta. eapply bind_eq; [done|]. cbv beta. rewrite !Z.add_0_r.
  eapply bind_eq; [rewrite u64_small, Nat2Z.id by lia; exact L3|].
  cbv beta iota zeta. eapply bind_eq; [by rewrite u64_small, Z.eqb_refl by lia|]. cbv beta.
  replace (Z.to_nat (256 * dim)) with (length (float_bits <$> tabs)) by (rewrite length_fmap; lia).
  by rewrite W1, W2, W3, words_bytes, !bits_back by apply bits_range.
Qed.

(** C20. Round trip of the pivot file: what [generate_pq_pivots] writes for any
    centres and centroid, over any old content of the file, with the chunks
    it assigned, [load_pq_pivots_new] reads back unchanged, and the table it
    makes has every offset and every rearranged dimension in range. *)
Theorem pq_pivots_roundtrip (dim n : nat) (tabs cent : list F) (f : list Z) :
  (0 < n <= dim)%nat -> Z.of_nat dim < 2 ^ 32 - 1 ->
  length tabs = (256 * dim)%nat -> length cent = dim ->
  exists rearr offs t, assign_chunks (F := F) dim n = Ok (rearr, offs) /\
    load_pq_pivots_new (write_pivots 256 (Z.of_nat dim) (float_bits <$> tabs) (float_bits <$> cent)
      (Z.of_nat <$> rearr) (Z.of_nat <$> offs) f) (Z.of_nat n) 0 = Ok t /\
    t = {| tables := tabs; centroid := cent; ndims := dim; n_chunks := n;
           chunk_offsets := Z.of_nat <$> offs; rearrangement := Z.of_nat <$> rearr;
           tables_T := []; all_to_all_dists := [] |} /\ table_ok t.
Proof using Type.
  intros Hn Hdim Ht Hc. rewrite (assign_chunks_ok F dim n Hn). do 3 eexists. split; [done|].
  assert (Hstart : forall b, (b <= n)%nat -> (chunk_start (dim / n) (dim mod n) b <= dim)%nat).
  { intros b Hb. pose proof (chunk_start_mono (dim / n) (dim mod n) b n Hb). unfold chunk_start in *.
    pose proof (Nat.div_mod_eq dim n). pose proof (Nat.mod_upper_bound dim n ltac:(lia)). lia. }
  rewrite load_pivots_ok; rewrite ?length_fmap, ?length_range; [|lia..| |].
  - rewrite !Nat2Z.id. split; [done|]. split; [done|]. unfold table_ok;
    cbn [tables centroid ndims n_chunks chunk_offsets rearrangement].
    rewrite !length_fmap, !length_range. split_and!; [done | done | by rewrite Nat.sub_0_r | | by rewrite Nat.sub_0_r |].
    + rewrite !Forall_fmap. apply Forall_forall. intros b Hb%elem_range. unfold compose.
      rewrite Nat2Z.id. apply Hstart. lia.
    + apply Forall_fmap, Forall_forall. intros p Hp%elem_range. cbn. lia.
  - apply Forall_fmap, Forall_forall. intros p Hp%elem_range. cbn. lia.
  - rewrite <- list_fmap_compose. apply Forall_fmap, Forall_forall. intros b Hb%elem_range.
    pose proof (Hstart b ltac:(lia)). cbn -[chunk_start]. lia.
Qed.
End RoundTrip.

Lemma pq_pivots_roundtrip_witness :
  exists rearr offs (t : FixedChunkPQTable Word), assign_chunks (F := Word) 3 2 = Ok (rearr, offs) /\
    load_pq_pivots_new (write_pivots 256 3 (float_bits <$> replicate 768 (to_word 5)) (float_bits <$> [to_word 1; to_word 2; to_word 3])
      (Z.of_nat <$> rearr) (Z.of_nat <$> offs) [1; 2; 3]) 2 0 = Ok t /\
    t = {| tables := replicate 768 (to_word 5); centroid := [to_word 1; to_word 2; to_word 3]; ndims := 3; n_chunks := 2;
           chunk_offsets := Z.of_nat <$> offs; rearrangement := Z.of_nat <$> rearr;
           tables_T := []; all_to_all_dists := [] |} /\ table_ok t.
Proof. apply (pq_pivots_roundtrip 3 2 (replicate 768 (to_word 5)) [to_word 1; to_word 2; to_word 3] [1; 2; 3]); [lia | lia | done | done]. Defined.
