(* ===== verification/MemFiles.v ===== *)
(** * Saving and loading the in-memory graph

    [save] and [load] of [src/index.cpp] with the functions that they call: the
    graph, the vectors, the tags and the deleted slots, in files of their own
    or one behind the other in one file.  The frozen point, which a dynamic
    index keeps at the end, is moved behind the points that are in use for the
    time of the save.

    A vector is a list of words of [sizeT] bytes, a tag a word of [sizeTag]
    bytes, the least significant byte first. *)
From S2P Require Import Prelude Layout Node Neighbor CandidatePool Float32 Prune MemIndex MemBuild MemUpdate Files CachedIO DiskLayout.

(** ** Words of any size *)
Fixpoint le_n (n : nat) (x : Z) : list Z :=
  match n with O => [] | S n => x mod 256 :: le_n n (x / 256) end.

Fixpoint un_le (bs : list Z) : Z :=
  match bs with [] => 0 | b :: bs => b + 256 * un_le bs end.

(** The first [n] words of a buffer. *)
Fixpoint elems (size n : nat) (bs : list Z) : list Z :=
  match n with O => [] | S n => un_le (take size bs) :: elems size n (drop size bs) end.

Section files.
(** The sizes of [T] and of [TagT], [_dim], [_aligned_dim], the order in which a set is iterated. *)
Context (sizeT sizeTag dim aligned_dim : nat) (set_order : gset Z -> list Z).

(** The first [dim] words of a row as bytes; words that were never written are zero. *)
Definition row_bytes (r : list Z) : list Z := zero_pad (dim * sizeT) (take (dim * sizeT) (r ≫= le_n sizeT)).

(** [_nd + _num_frozen_pts] *)
Definition used_points (ix : mem_index) : nat := Z.to_nat (nd ix + num_frozen_pts ix).

(** ** Saving *)
Definition save_tags (offset : nat) (ix : mem_index) (f : list Z) : outcome (list Z * Z) :=
  if negb (enable_tags ix) then Ok (f, 0) else
  let tag_data := ((fun i => default 0 (location_to_tag ix !! i)) <$> seqZ 0 (nd ix)) ++ replicate (Z.to_nat (num_frozen_pts ix)) 0 in
  tag_data ← (if 0 <? num_frozen_pts ix
              then if decide (Z.to_nat (ep ix) < length tag_data)%nat then Ok (<[Z.to_nat (ep ix) := 0]> tag_data) else Crash
              else Ok tag_data);
  Ok (save_bin (Z.of_nat sizeTag) (tag_data ≫= le_n sizeTag) (nd ix + num_frozen_pts ix) 1 offset f).

(** [save_data_in_base_dimensions] of the rows. *)
Definition save_data (offset : nat) (ix : mem_index) (f : list Z) : outcome (list Z * Z) :=
  if decide (used_points ix <= length (mdata ix))%nat then
    Ok (pwrite f (offset, bin_header (nd ix + num_frozen_pts ix) (Z.of_nat dim) ++ (take (used_points ix) (mdata ix) ≫= row_bytes)),
        u64 (8 + (nd ix + num_frozen_pts ix) * Z.of_nat dim * Z.of_nat sizeT))
  else Crash.

(** The length that a list adds to the file. *)
Definition list_size (l : list Z) : Z := 4 * u32 (u32 (Z.of_nat (length l)) + 1).

Definition graph_size (lists : list (list Z)) : Z := foldl (fun s l => u64 (s + list_size l)) 24 lists.

Definition max_degree (lists : list (list Z)) : Z :=
  foldl (fun m l => if m <? Z.of_nat (length l) then u32 (Z.of_nat (length l)) else m) 0 lists.

(** The header is written twice: the size and the largest degree are known
    behind the lists only. *)
Definition save_graph (offset : nat) (ix : mem_index) (f : list Z) : outcome (list Z * Z) :=
  if decide (used_points ix <= length (final_graph ix))%nat then
    let lists := take (used_points ix) (final_graph ix) in
    let f := pwrite f (offset, le64 24 ++ le32 (u32 (width ix)) ++ le32 (u32 (ep ix)) ++ le64 (num_frozen_pts ix) ++ (lists ≫= nhood_bytes)) in
    let f := pwrite f (offset, le64 (graph_size lists) ++ le32 (max_degree lists)) in
    Ok (f, graph_size lists)
  else Crash.

(** Nothing is written, and no file made, without a deleted slot. *)
Definition save_delete_list (offset : nat) (ix : mem_index) (f : option (list Z)) : option (list Z) * Z :=
  if bool_decide (size (delete_set ix) = 0%nat) then (f, 0) else
  let '(f, n) := save_bin 4 (set_order (delete_set ix) ≫= le32) (Z.of_nat (size (delete_set ix))) 1 offset (default [] f) in (Some f, n).

(** The list of the frozen point and its vector move to slot [_nd], which
    keeps what stands behind the [_dim] words; not if the list is empty. *)
Definition compact_frozen_point (ix : mem_index) : outcome mem_index :=
  if (nd ix <? max_points ix) && (0 <? num_frozen_pts ix) then
    let ix := with_points (max_points ix) (u32 (nd ix)) ix in
    l ← list_of ix (max_points ix);
    if bool_decide (l = []) then Ok ix else
    let g := rename_in (max_points ix) (nd ix) (Z.to_nat (nd ix)) (final_graph ix) in
    let g := <[Z.to_nat (max_points ix) := []]> (<[Z.to_nat (nd ix) := l]> g) in
    ix ← set_row (nd ix) (take dim (row ix (max_points ix)) ++ drop dim (row ix (nd ix))) (with_graph g (width ix) ix);
    set_row (max_points ix) (replicate aligned_dim 0) ix
  else Ok ix.

(** The files of one index; a file that does not exist is [None]. *)
Record index_files := { graph_file : list Z; data_file : option (list Z); tags_file : option (list Z); del_file : option (list Z) }.

Definition save_files (ix : mem_index) : outcome index_files :=
  '(g, _) ← save_graph 0 ix [];
  '(d, _) ← save_data 0 ix [];
  '(t, _) ← save_tags 0 ix [];
  Ok {| graph_file := g; data_file := Some d; tags_file := if enable_tags ix then Some t else None;
        del_file := (save_delete_list 0 ix None).1 |}.

Definition METADATA_SIZE : nat := 4096.

Definition save_one_file (ix : mem_index) : outcome (list Z) :=
  let c0 := Z.of_nat METADATA_SIZE in
  '(f, n) ← save_graph (Z.to_nat c0) ix [];
  let c1 := u64 (c0 + n) in
  '(f, n) ← save_data (Z.to_nat c1) ix f;
  let c2 := u64 (c1 + n) in
  '(f, n) ← save_tags (Z.to_nat c2) ix f;
  let c3 := u64 (c2 + n) in
  let '(f, n) := save_delete_list (Z.to_nat c3) ix (Some f) in
  let c4 := u64 (c3 + n) in
  Ok (save_bin 8 ([c0; c1; c2; c3; c4] ≫= le64) 5 1 0 (default [] f)).1.

(** [save]; [write] is one of the two. *)
Definition save {A} (write : mem_index -> outcome A) (ix : mem_index) : outcome (A * mem_index) :=
  ix ← compact_frozen_point ix;
  files ← write ix;
  ix ← reposition_frozen_point_to_end aligned_dim ix;
  Ok (files, ix).

(** ** Loading *)
(** One pass of the loop over the tags. *)
Definition load_tag (t : Z * Z) (ix : mem_index) : mem_index :=
  if bool_decide (t.1 ∈ delete_set ix) then ix
  else with_tags (<[t.2 := t.1]> (tag_to_location ix)) (<[t.1 := t.2]> (location_to_tag ix)) ix.

Definition load_tags (tags : option (list Z)) (offset : nat) (ix : mem_index) : outcome (Z * mem_index) :=
  if negb (enable_tags ix) then Ok (0, ix) else
  match tags with
  | None => Crash
  | Some f =>
      let '(file_num_points, file_dim, bytes) := load_bin (Z.of_nat sizeTag) f offset in
      if negb (file_dim =? 1) then Crash else
      let tag_data := elems sizeTag (Z.to_nat file_num_points) bytes in
      let num_data_points := u32 (if 0 <? num_frozen_pts ix then file_num_points - 1 else file_num_points) in
      if decide (Z.to_nat num_data_points <= length tag_data)%nat
      then Ok (file_num_points, foldl (fun ix t => load_tag t ix) ix (zip (seqZ 0 num_data_points) tag_data))
      else Crash
  end.

(** [copy_aligned_data_from_file]: a row that the stream does not fill keeps
    what it held. *)
Definition read_row (i : Z) (n : nat) (t : ifstream * mem_index) : outcome (ifstream * mem_index) :=
  let '(b, s) := ifs_read (n * sizeT) t.1 in
  let r := elems sizeT n (b ++ drop (length b) (row t.2 i ≫= le_n sizeT)) in
  ix ← set_row i (r ++ replicate (aligned_dim - n) 0) t.2;
  Ok (s, ix).

Definition copy_aligned_data (f : list Z) (offset : nat) (ix : mem_index) : outcome mem_index :=
  let s := ifs_skip offset (Some f) in
  let '(b1, s) := ifs_read 4 s in
  let '(b2, s) := ifs_read 4 s in
  let npts := read_u32 (bytes_at b1) 0 in
  let n := Z.to_nat (read_u32 (bytes_at b2) 0) in
  '(_, ix) ← foldM (fun i => read_row i n) (seqZ 0 npts) (s, ix);
  Ok ix.

Definition load_data (data : option (list Z)) (offset : nat) (ix : mem_index) : outcome (Z * mem_index) :=
  match data with
  | None => Crash
  | Some f =>
      let '(file_num_points, file_dim) := get_bin_metadata f offset in
      let ix := with_slots (nd ix) (delete_set ix) ∅ (lazy_done ix) (eager_done ix) (data_compacted ix) ix in
      if negb (file_dim =? Z.of_nat dim) then Crash else
      ix ← (if max_points ix + num_frozen_pts ix <? file_num_points then resize aligned_dim file_num_points ix else Ok ix);
      ix ← copy_aligned_data f offset ix;
      Ok (read_u32 (bytes_at (take 4 (drop offset f))) 0, ix)
  end.

Definition load_delete_set (f : list Z) (offset : nat) (ix : mem_index) : outcome mem_index :=
  let '(npts, ndim, bytes) := load_bin 4 f offset in
  _ ← assert_ (ndim =? 1);
  Ok (with_slots (nd ix) (list_to_set (words (Z.to_nat npts) bytes) ∪ delete_set ix) (empty_slots ix)
        (lazy_done ix) (eager_done ix) (data_compacted ix) ix).

(** The loop of [load_graph] with [room] lists ahead of it: one more would be
    written beyond the end of [_final_graph]. *)
Fixpoint load_lists (room : nat) (expected_file_size bytes_read nodes : Z) (s : ifstream) (g : list (list Z)) : outcome (Z * list (list Z)) :=
  if bytes_read =? expected_file_size then Ok (nodes, g) else
  match room with
  | O => Crash
  | S room =>
      let '(b, s) := ifs_read 4 s in
      let k := read_u32 (bytes_at (zero_pad 4 b)) 0 in
      let '(b, s) := ifs_read (Z.to_nat (4 * k)) s in
      let tmp := words (Z.to_nat k) (zero_pad (Z.to_nat (4 * k)) b) in
      load_lists room expected_file_size (u64 (bytes_read + 4 * (k + 1))) (u32 (nodes + 1)) s (<[Z.to_nat nodes := tmp]> g)
  end.

Definition load_graph (f : list Z) (expected_num_points : Z) (offset : nat) (ix : mem_index) : outcome (Z * mem_index) :=
  let s := ifs_skip offset (Some f) in
  let '(b, s) := ifs_read 8 s in
  let expected_file_size := read_u64 (bytes_at b) 0 in
  let '(b, s) := ifs_read 4 s in
  let w := read_u32 (bytes_at b) 0 in
  let '(b, s) := ifs_read 4 s in
  let e := read_u32 (bytes_at b) 0 in
  let '(b, s) := ifs_read 8 s in
  let file_frozen_pts := read_u64 (bytes_at b) 0 in
  if negb (file_frozen_pts =? num_frozen_pts ix) then Crash else
  let enough := u64 (expected_num_points - num_frozen_pts ix) in
  let more := max_points ix <? enough in
  let g := if more then resize_list (Z.to_nat expected_num_points) [] (final_graph ix) else final_graph ix in
  let m := if more then enough else max_points ix in
  '(nodes, g) ← load_lists (length g) expected_file_size 24 0 s g;
  Ok (nodes, with_points m e (with_graph g w ix)).

(** The end of [load]: the counts are compared and the points set up. *)
Definition finish_load (data_pts graph_pts tags_pts : Z) (ix : mem_index) : outcome mem_index :=
  if negb (data_pts =? graph_pts) || (negb (data_pts =? tags_pts) && enable_tags ix) then Crash else
  let n := u64 (data_pts - num_frozen_pts ix) in
  let ix := with_slots n (delete_set ix) ∅ (negb (bool_decide (size (delete_set ix) = 0%nat))) (eager_done ix) (data_compacted ix) ix in
  let ix := with_slots n (delete_set ix) (free_slots ix) (lazy_done ix) (eager_done ix) (data_compacted ix) ix in
  reposition_frozen_point_to_end aligned_dim ix.

Definition load_files (files : index_files) (ix : mem_index) : outcome mem_index :=
  '(data_pts, ix) ← load_data (data_file files) 0 ix;
  ix ← match del_file files with Some f => load_delete_set f 0 ix | None => Ok ix end;
  '(tags_pts, ix) ← load_tags (tags_file files) 0 ix;
  '(graph_pts, ix) ← load_graph (graph_file files) data_pts 0 ix;
  finish_load data_pts graph_pts tags_pts ix.

Definition load_one_file (f : list Z) (ix : mem_index) : outcome mem_index :=
  let '(_, _, bytes) := load_bin 8 f 0 in
  let c (k : Z) := read_u64 (bytes_at bytes) (8 * k) in
  '(data_pts, ix) ← load_data (Some f) (Z.to_nat (c 1)) ix;
  '(graph_pts, ix) ← load_graph f data_pts (Z.to_nat (c 0)) ix;
  ix ← (if negb (c 3 =? c 4) then load_delete_set f (Z.to_nat (c 3)) ix else Ok ix);
  '(tags_pts, ix) ← load_tags (Some f) (Z.to_nat (c 2)) ix;
  finish_load data_pts graph_pts tags_pts ix.
End files.

(** The constructor: the rows are not initialised. *)
Definition new_index (m : Z) (dynamic tags : bool) : mem_index :=
  let frozen := if dynamic then 1 else 0 in
  let m := if m =? 0 then 1 else m in {|
  final_graph := replicate (Z.to_nat (m + frozen)) []; mdata := replicate (Z.to_nat (m + 1)) []; nd := 0; max_points := m;
  num_frozen_pts := frozen; width := 0; ep := u32 m; dynamic_index := dynamic; enable_tags := dynamic || tags;
  saturate_graph := false; tag_to_location := ∅; location_to_tag := ∅; delete_set := ∅; empty_slots := ∅;
  lazy_done := false; eager_done := false; data_compacted := true |}.

(** ** Facts: words *)
Lemma length_le_n n x : length (le_n n x) = n.
Proof. revert x. induction n as [|n IH]; intros x; simpl; [done|]. by rewrite IH. Qed.

Lemma un_le_n n : forall x, 0 <= x < 256 ^ Z.of_nat n -> un_le (le_n n x) = x.
Proof.
  induction n as [|n IH]; intros x Hx; [simpl in *; lia|]. cbn [le_n un_le].
  rewrite Nat2Z.inj_succ, Z.pow_succ_r in Hx by lia. rewrite IH; [pose proof (Z.div_mod x 256); lia|].
  split; [apply Z.div_pos; lia | apply Z.div_lt_upper_bound; lia].
Qed.

(** A word of [n] bytes. *)
Definition word (n : nat) (x : Z) : Prop := 0 <= x < 256 ^ Z.of_nat n.

Lemma length_bind_le_n n l : length (l ≫= le_n n) = (length l * n)%nat.
Proof.
  induction l as [|x l IH]; [done|]. cbn [mbind list_bind]. rewrite length_app, length_le_n, IH. simpl. lia.
Qed.

Lemma elems_bytes n l rest : Forall (word n) l -> elems n (length l) ((l ≫= le_n n) ++ rest) = l.
Proof.
  induction 1 as [|x l Hx _ IH]; [done|]. cbn [length elems mbind list_bind].
  rewrite <- app_assoc, take_app_length', drop_app_length' by (by rewrite length_le_n).
  rewrite IH. by rewrite un_le_n.
Qed.

Lemma length_elems size n bs : length (elems size n bs) = n.
Proof. revert bs. induction n as [|n IH]; intros bs; simpl; [done|]. by rewrite IH. Qed.

(** The bytes of a full row are the bytes of its first words. *)
Lemma row_bytes_full sizeT dim r : (dim <= length r)%nat -> row_bytes sizeT dim r = take dim r ≫= le_n sizeT.
Proof.
  intros Hl. unfold row_bytes, zero_pad.
  assert (take (dim * sizeT) (r ≫= le_n sizeT) = take dim r ≫= le_n sizeT) as ->.
  { rewrite <- (take_drop dim r) at 1. rewrite bind_app, take_app_length'; [done|].
    by rewrite length_bind_le_n, length_take, Nat.min_l by done. }
  rewrite length_bind_le_n, length_take, Nat.min_l, Nat.sub_diag by done. apply app_nil_r.
Qed.

(** ** Facts: the graph of a file *)
Definition graph_at (f : list Z) (offset : nat) (w e frozen : Z) (lists : list (list Z)) : Prop :=
  exists rest, drop offset f = le64 (graph_size lists) ++ le32 w ++ le32 e ++ le64 frozen ++ (lists ≫= nhood_bytes) ++ rest.

Definition short_list (l : list Z) : Prop := Z.of_nat (length l) < 2 ^ 30 /\ ids32 l.

Lemma list_size_eq l : short_list l -> list_size l = Z.of_nat (length (nhood_bytes l)).
Proof.
  intros [Hl _]. unfold list_size, nhood_bytes. rewrite length_app, length_bind_le32, !u32_small by (rewrite ?u32_small by lia; lia).
  change (length (le32 _)) with 4%nat. lia.
Qed.

Lemma graph_size_from lists : Forall short_list lists -> forall s, 0 <= s -> s + Z.of_nat (length (lists ≫= nhood_bytes)) < 2 ^ 64 ->
  foldl (fun s l => u64 (s + list_size l)) s lists = s + Z.of_nat (length (lists ≫= nhood_bytes)).
Proof.
  induction 1 as [|l lists Hl _ IH]; intros s Hs Hb; [simpl; lia|]. cbn [foldl]. cbn [mbind list_bind] in Hb |- *.
  rewrite length_app in *. rewrite (list_size_eq l Hl), u64_small by lia.
  rewrite IH by lia. lia.
Qed.

Lemma graph_size_eq lists : Forall short_list lists -> 24 + Z.of_nat (length (lists ≫= nhood_bytes)) < 2 ^ 64 ->
  graph_size lists = 24 + Z.of_nat (length (lists ≫= nhood_bytes)).
Proof. intros. unfold graph_size. by apply graph_size_from. Qed.

(** What a write leaves behind its beginning. *)
Lemma drop_pwrite f off d : drop off (pwrite f (off, d)) = d ++ drop (off + length d) f.
Proof.
  apply list_eq. intros p. rewrite lookup_drop, pwrite_lookup. destruct (decide (p < length d)%nat).
  - rewrite decide_True, lookup_app_l by lia. f_equal. lia.
  - rewrite decide_False, lookup_app_r, lookup_drop by lia. rewrite decide_False by lia. f_equal. lia.
Qed.

Lemma drop_pwrite_low f off off' d : (off' + length d <= off)%nat -> drop off (pwrite f (off', d)) = drop off f.
Proof.
  intros Hl. apply list_eq. intros p. rewrite !lookup_drop, pwrite_lookup. by rewrite !decide_False by lia.
Qed.

Lemma drop_pwrite_twice f off a b c : length b = length a -> 
  drop off (pwrite (pwrite f (off, a ++ c)) (off, b)) = b ++ c ++ drop (off + length (a ++ c)) f.
Proof.
  intros Hl. rewrite drop_pwrite. f_equal. rewrite Hl, <- drop_drop, drop_pwrite, <- app_assoc. by rewrite drop_app_length.
Qed.

Lemma save_graph_at offset ix f lists : take (used_points ix) (final_graph ix) = lists -> length lists = used_points ix ->
  0 <= ep ix < 2 ^ 32 ->
  exists f', save_graph offset ix f = Ok (f', graph_size lists) /\ graph_at f' offset (max_degree lists) (ep ix) (num_frozen_pts ix) lists /\
    f' = pwrite (pwrite f (offset, le64 24 ++ le32 (u32 (width ix)) ++ le32 (u32 (ep ix)) ++ le64 (num_frozen_pts ix) ++ (lists ≫= nhood_bytes)))
           (offset, le64 (graph_size lists) ++ le32 (max_degree lists)).
Proof.
  intros El Hl Hep. unfold save_graph. rewrite El, decide_True.
  - eexists. split; [reflexivity|]. split; [|reflexivity]. eexists.
    rewrite (app_assoc (le64 24)), drop_pwrite_twice by done. rewrite (u32_small (ep ix)) by done. by rewrite <- !app_assoc.
  - rewrite <- Hl, <- El, length_take. lia.
Qed.

Lemma read_nhood l rest : short_list l ->
  exists s, ifs_read 4 (Some (nhood_bytes l ++ rest)) = (le32 (Z.of_nat (length l)), Some s) /\
    ifs_read (4 * length l) (Some s) = (l ≫= le32, Some rest).
Proof.
  intros [Hl _]. exists ((l ≫= le32) ++ rest). unfold nhood_bytes. rewrite u32_small, <- app_assoc by lia. split.
  - by rewrite ifs_read_app.
  - rewrite ifs_read_app; [done|]. by rewrite length_bind_le32.
Qed.

(** The loop puts the lists one behind the other. *)
Lemma load_lists_spec size rest lists : Forall short_list lists -> forall room k bytes g,
  (length lists <= room)%nat -> (k + room = length g)%nat -> Z.of_nat (length g) < 2 ^ 32 -> 0 <= bytes ->
  bytes + Z.of_nat (length (lists ≫= nhood_bytes)) = size -> size < 2 ^ 64 ->
  load_lists room size bytes (Z.of_nat k) (Some ((lists ≫= nhood_bytes) ++ rest)) g =
    Ok (Z.of_nat (k + length lists), take k g ++ lists ++ drop (k + length lists) g).
Proof.
  induction 1 as [|l lists Hl Hls IH]; intros room k bytes g Hr Hk Hg Hb0 Hb Hs.
  - cbn in Hb. assert (bytes =? size = true) as E by lia. destruct room; cbn [load_lists]; rewrite E, Nat.add_0_r; simpl; by rewrite take_drop.
  - cbn [mbind list_bind] in Hb |- *. rewrite length_app in Hb.
    destruct room as [|room]; [simpl in Hr; lia|]. pose proof (list_size_eq l Hl) as Esz. destruct Hl as [Hl Hid].
    assert (length (nhood_bytes l) = 4 + 4 * length l)%nat as Elen by (unfold nhood_bytes; by rewrite length_app, length_bind_le32).
    cbn [load_lists]. assert (bytes =? size = false) as -> by lia.
    rewrite <- app_assoc. destruct (read_nhood l ((lists ≫= nhood_bytes) ++ rest) (conj Hl Hid)) as (s & -> & E2).
    change (zero_pad 4 (le32 ?x)) with (le32 x). rewrite read_u32_bytes by lia.
    replace (Z.to_nat (4 * Z.of_nat (length l))) with (4 * length l)%nat by lia. rewrite E2. unfold zero_pad.
    rewrite length_bind_le32, Nat.sub_diag. cbn [replicate]. rewrite app_nil_r, !Nat2Z.id, words_bytes by done. rewrite u32_small, u64_small by lia.
    replace (Z.of_nat k + 1) with (Z.of_nat (S k)) by lia. simpl in Hr. rewrite (IH room (S k)); rewrite ?length_insert; [|lia..].
    replace (k + length (l :: lists))%nat with (S k + length lists)%nat by (simpl; lia).
    rewrite (take_S_r _ _ l) by (apply list_lookup_insert_eq; lia).
    rewrite take_insert_ge, drop_insert_lt by lia. by rewrite <- app_assoc.
Qed.

Lemma read_u64_le64 x : 0 <= x < 2 ^ 64 -> read_u64 (bytes_at (le64 x)) 0 = x.
Proof. intros Hx. apply (read_u64_holds (le64 x) 0); [done|]. by intros i b. Qed.

Lemma load_graph_at f n offset w e lists ix : graph_at f offset w e (num_frozen_pts ix) lists -> Forall short_list lists ->
  24 + Z.of_nat (length (lists ≫= nhood_bytes)) < 2 ^ 64 -> 0 <= w < 2 ^ 32 -> 0 <= e < 2 ^ 32 -> 0 <= num_frozen_pts ix < 2 ^ 32 ->
  num_frozen_pts ix <= n < 2 ^ 32 -> n - num_frozen_pts ix <= max_points ix ->
  (length lists <= length (final_graph ix))%nat -> Z.of_nat (length (final_graph ix)) < 2 ^ 32 ->
  load_graph f n offset ix = Ok (Z.of_nat (length lists),
    with_points (max_points ix) e (with_graph (lists ++ drop (length lists) (final_graph ix)) w ix)).
Proof.
  intros [rest E] Hls Hs Hw He Hf Hn Hm Hl Hg. unfold load_graph, ifs_skip. cbn [fmap option_fmap option_map]. rewrite E.
  rewrite (ifs_read_app 8) by done. rewrite !(ifs_read_app 4) by done. rewrite (ifs_read_app 8) by done.
  rewrite !read_u64_le64 by (rewrite ?graph_size_eq by done; lia). rewrite !read_u32_bytes by lia.
  rewrite Z.eqb_refl. cbn [negb]. rewrite (u64_small (n - _)) by lia. assert (max_points ix <? n - num_frozen_pts ix = false) as -> by lia.
  change 0 with (Z.of_nat 0). rewrite (load_lists_spec _ _ lists Hls); try lia; [|by rewrite graph_size_eq | by rewrite graph_size_eq].
  done.
Qed.

(** ** Facts: vectors *)
Definition full_row (sizeT dim : nat) (r : list Z) : Prop := length r = dim /\ Forall (word sizeT) r.

Definition pad (aligned_dim : nat) (r : list Z) : list Z := r ++ replicate (aligned_dim - length r) 0.

(** A dynamic index without points. *)
Record blank (m : Z) (ix : mem_index) : Prop := {
  bl_graph : final_graph ix = replicate (Z.to_nat (m + 1)) [];
  bl_rows : length (mdata ix) = Z.to_nat (m + 1);
  bl_counts : nd ix = 0 /\ max_points ix = m /\ num_frozen_pts ix = 1;
  bl_flags : dynamic_index ix = true /\ enable_tags ix = true /\ eager_done ix = false /\ data_compacted ix = true;
  bl_tags : tag_to_location ix = ∅ /\ location_to_tag ix = ∅ /\ delete_set ix = ∅;
}.

Lemma new_index_blank m tags : 0 < m -> blank m (new_index m true tags).
Proof.
  intros Hm. unfold new_index. assert (m =? 0 = false) as -> by lia. split; cbn [final_graph mdata nd max_points]; try done.
  by rewrite length_replicate.
Qed.

Lemma blank_data m d ix : blank m ix -> length d = length (mdata ix) -> blank m (with_data d ix).
Proof. intros [] Hd. split; cbn [mdata with_data]; try done. by rewrite Hd. Qed.

Lemma blank_empty m ix : blank m ix ->
  blank m (with_slots (nd ix) (delete_set ix) ∅ (lazy_done ix) (eager_done ix) (data_compacted ix) ix).
Proof. by intros []. Qed.

Lemma resize_blank aligned_dim m n ix : blank m ix -> empty_slots ix = ∅ -> 0 < m < n -> n < 2 ^ 32 - 1 ->
  exists ix', resize aligned_dim n ix = Ok ix' /\ blank n ix'.
Proof.
  intros [Hg Hr (Hn & Hm & Hf) Hfl Ht] He Hmn Hb. unfold resize. rewrite He, bool_decide_true by apply size_empty. cbn [assert_ mbind outcome_bind].
  rewrite (u32_small (n + 1)) by lia. cbv zeta. cbn [max_points with_graph with_data mdata final_graph]. rewrite (u32_small (max_points ix)) by lia.
  set (g := resize_list _ _ (final_graph ix)). set (d := resize_list _ _ (mdata ix)).
  assert (g = replicate (Z.to_nat (n + 1)) []) as Eg.
  { unfold g. rewrite Hg. unfold resize_list. rewrite take_replicate, length_replicate, Nat.min_r, <- replicate_add by lia. f_equal. lia. }
  assert (length d = Z.to_nat (n + 1)) as Ed by (unfold d; rewrite resize_list_length; lia).
  unfold reposition_point. cbn [nd final_graph with_graph with_data]. rewrite Hn. unfold rename_in. change (Z.to_nat 0) with 0%nat. rewrite take_0, drop_0. cbn [fmap list_fmap app].
  assert (Hid : forall k, <[k := []]> g = g).
  { intros k. rewrite Eg. destruct (decide (k < Z.to_nat (n + 1))%nat).
    - apply list_insert_id, lookup_replicate. done.
    - rewrite list_insert_ge; [done|]. rewrite length_replicate. lia. }
  assert (Hl : forall k, (k < Z.to_nat (n + 1))%nat -> g !! k = Some []) by (intros k Hk; rewrite Eg; by apply lookup_replicate).
  rewrite decide_True by (rewrite Eg, length_replicate; lia).
  rewrite Hid, !Hl by lia. cbn beta iota. rewrite decide_True by done. cbn [length take]. rewrite !Hid.
  unfold set_row. cbn [mdata with_graph with_data]. rewrite decide_True by lia. cbn [mbind outcome_bind mdata with_graph with_data].
  rewrite decide_True by (rewrite ?length_insert; lia). cbn [mbind outcome_bind].
  eexists. split; [reflexivity|]. split; cbn [final_graph mdata nd max_points with_slots with_points with_data]; try done. by rewrite !length_insert, Ed.
Qed.

Lemma read_row_spec sizeT aligned_dim dim i r rest ix : full_row sizeT dim r -> (Z.to_nat i < length (mdata ix))%nat ->
  read_row sizeT aligned_dim i dim (Some ((r ≫= le_n sizeT) ++ rest), ix) =
    Ok (Some rest, with_data (<[Z.to_nat i := pad aligned_dim r]> (mdata ix)) ix).
Proof.
  intros [Hl Hw] Hi. unfold read_row. cbn [fst snd]. rewrite ifs_read_app by (rewrite length_bind_le_n; lia).
  rewrite <- Hl, elems_bytes by done. unfold set_row. by rewrite decide_True.
Qed.

Lemma read_rows_spec sizeT aligned_dim dim rest rows : Forall (full_row sizeT dim) rows -> forall k ix,
  (k + length rows <= length (mdata ix))%nat ->
  foldM (fun i => read_row sizeT aligned_dim i dim) (seqZ (Z.of_nat k) (Z.of_nat (length rows)))
      (Some ((rows ≫= (fun r => r ≫= le_n sizeT)) ++ rest), ix) =
    Ok (Some rest, with_data (take k (mdata ix) ++ (pad aligned_dim <$> rows) ++ drop (k + length rows) (mdata ix)) ix).
Proof.
  induction 1 as [|r rows Hr _ IH]; intros k ix Hk.
  - cbn. rewrite Nat.add_0_r, take_drop. by destruct ix.
  - rewrite seqZ_cons by (simpl; lia). cbn [foldM mbind list_bind]. rewrite <- app_assoc, read_row_spec by (done || simpl in Hk; lia).
    cbn [mbind outcome_bind]. replace (Z.succ (Z.of_nat k)) with (Z.of_nat (S k)) by lia.
    replace (Z.pred (Z.of_nat (length (r :: rows)))) with (Z.of_nat (length rows)) by (simpl; lia). simpl in Hk.
    rewrite IH by (cbn [mdata with_data]; rewrite length_insert; lia). rewrite Nat2Z.id. cbn [mdata with_data].
    replace (k + length (r :: rows))%nat with (S k + length rows)%nat by (simpl; lia).
    rewrite (take_S_r _ _ (pad aligned_dim r)) by (apply list_lookup_insert_eq; lia).
    rewrite take_insert_ge, drop_insert_lt by lia. by rewrite <- app_assoc.
Qed.

Lemma copy_aligned_data_at sizeT dim aligned_dim f offset rows ix :
  bin_at f offset (Z.of_nat (length rows)) (Z.of_nat dim) (rows ≫= (fun r => r ≫= le_n sizeT)) ->
  Forall (full_row sizeT dim) rows -> Z.of_nat (length rows) < 2 ^ 32 -> Z.of_nat dim < 2 ^ 32 -> (length rows <= length (mdata ix))%nat ->
  copy_aligned_data sizeT aligned_dim f offset ix = Ok (with_data ((pad aligned_dim <$> rows) ++ drop (length rows) (mdata ix)) ix).
Proof.
  intros [rest E] Hrows Hr Hd Hl. unfold copy_aligned_data, ifs_skip. cbn [fmap option_fmap option_map]. rewrite E. unfold bin_header. rewrite <- !app_assoc.
  rewrite !(ifs_read_app 4) by done. rewrite !u32_small, !read_u32_bytes, Nat2Z.id by lia.
  pose proof (read_rows_spec sizeT aligned_dim dim rest rows Hrows 0%nat ix ltac:(lia)) as E2. change (Z.of_nat 0) with 0 in E2. unfold ifstream in *. rewrite E2.
  by rewrite take_0.
Qed.

Lemma load_data_at sizeT dim aligned_dim m f offset rows ix :
  bin_at f offset (Z.of_nat (length rows)) (Z.of_nat dim) (rows ≫= (fun r => r ≫= le_n sizeT)) ->
  Forall (full_row sizeT dim) rows -> (0 < length rows)%nat -> Z.of_nat (length rows) < 2 ^ 31 -> Z.of_nat dim < 2 ^ 31 ->
  blank m ix -> 0 < m < 2 ^ 32 - 2 ->
  let m' := if m + 1 <? Z.of_nat (length rows) then Z.of_nat (length rows) else m in
  exists ix', load_data sizeT dim aligned_dim (Some f) offset ix = Ok (Z.of_nat (length rows), ix') /\ blank m' ix' /\
    take (length rows) (mdata ix') = pad aligned_dim <$> rows.
Proof.
  intros Hf Hrows H0 Hr Hd Hb Hm m'. unfold load_data. rewrite (get_bin_metadata_at _ _ _ _ _ Hf) by lia. unfold size_of_int.
  assert (Z.of_nat (length rows) <? 2 ^ 31 = true) as -> by lia. assert (Z.of_nat dim <? 2 ^ 31 = true) as -> by lia.
  rewrite Z.eqb_refl. cbn [negb]. apply blank_empty in Hb as Hb0. set (ix0 := with_slots _ _ _ _ _ _ _) in *.
  destruct (bl_counts _ _ Hb0) as (_ & -> & ->).
  assert (exists ix1, (if m + 1 <? Z.of_nat (length rows) then resize aligned_dim (Z.of_nat (length rows)) ix0 else Ok ix0) = Ok ix1 /\ blank m' ix1 /\
    Z.of_nat (length rows) <= m' + 1) as (ix1 & -> & Hb1 & Hm').
  { unfold m'. destruct (Z.ltb_spec (m + 1) (Z.of_nat (length rows))) as [Hlt|]; [|by exists ix0].
    destruct (resize_blank aligned_dim m (Z.of_nat (length rows)) ix0 Hb0 eq_refl) as (ix1 & E & H1); [lia..|].
    exists ix1. split; [done|]. split; [done | lia]. }
  cbn [mbind outcome_bind]. pose proof (bl_rows _ _ Hb1) as Hl1. rewrite (copy_aligned_data_at sizeT dim aligned_dim f offset rows) by (done || lia).
  destruct Hf as [rest E]. rewrite E. unfold bin_header. rewrite <- !app_assoc, u32_small by lia. cbn [mbind outcome_bind].
  change (take 4 (le32 ?x ++ ?r)) with (le32 x). rewrite read_u32_bytes by lia. eexists. split; [reflexivity|]. split.
  - apply blank_data; [done|]. rewrite length_app, length_fmap, length_drop. lia.
  - cbn [mdata with_data]. apply take_app_length'. by rewrite length_fmap.
Qed.

(** ** Facts: tags and deleted slots *)
(** The state of the maps after the first [n] tags. *)
Definition tags_below (loc : gmap Z Z) (n : Z) (t2l l2t : gmap Z Z) : Prop :=
  (forall i, l2t !! i = if decide (i < n) then loc !! i else None) /\
  (forall t l, t2l !! t = Some l <-> loc !! l = Some t /\ l < n).

Lemma load_tag_step (t2l0 loc : gmap Z Z) n t2l l2t ix :
  (forall t l, t2l0 !! t = Some l <-> loc !! l = Some t) ->
  (n ∈ delete_set ix <-> loc !! n = None) -> tags_below loc n t2l l2t ->
  exists t2l' l2t', load_tag (n, default 0 (loc !! n)) (with_tags t2l l2t ix) = with_tags t2l' l2t' ix /\ tags_below loc (n + 1) t2l' l2t'.
Proof.
  intros Hinv Hd [H1 H2]. unfold load_tag. cbn [fst snd delete_set with_tags tag_to_location location_to_tag].
  destruct (loc !! n) as [t|] eqn:E; cbn [default].
  - rewrite bool_decide_false by (rewrite Hd; done). eexists _, _. split; [reflexivity|]. split.
    + intros i. destruct (decide (i = n)) as [->|].
      * rewrite lookup_insert_eq, decide_True by lia. done.
      * rewrite lookup_insert_ne, H1 by done. repeat case_decide; done || lia.
    + intros t' l. destruct (decide (t' = t)) as [->|].
      * rewrite lookup_insert_eq. apply Hinv in E as E0. split; [intros [= <-]; split; [done | lia]|].
        intros [Hl _]. apply Hinv in Hl. by rewrite E0 in Hl.
      * rewrite lookup_insert_ne, H2 by done. split; [intros []; split; [done | lia]|]. intros [Hl Hb]. split; [done|].
        destruct (decide (l = n)) as [->|]; [by rewrite E in Hl; simplify_eq | lia].
  - rewrite bool_decide_true by (by apply Hd). exists t2l, l2t. split; [done|]. split.
    + intros i. rewrite H1. repeat case_decide; try done; [lia|]. by replace i with n by lia.
    + intros t' l. rewrite H2. split; [intros []; split; [done | lia]|]. intros [Hl Hb]. split; [done|].
      destruct (decide (l = n)) as [->|]; [by rewrite E in Hl | lia].
Qed.

Lemma load_tag_all (t2l0 loc : gmap Z Z) (n : nat) ix :
  (forall t l, t2l0 !! t = Some l <-> loc !! l = Some t) -> (forall l, is_Some (loc !! l) -> 0 <= l < Z.of_nat n) ->
  (forall l, 0 <= l < Z.of_nat n -> l ∈ delete_set ix <-> loc !! l = None) ->
  tag_to_location ix = ∅ -> location_to_tag ix = ∅ ->
  foldl (fun ix t => load_tag t ix) ix (zip (seqZ 0 (Z.of_nat n)) ((fun i => default 0 (loc !! i)) <$> seqZ 0 (Z.of_nat n))) = with_tags t2l0 loc ix.
Proof.
  intros Hinv Hb Hd E1 E2.
  assert (exists t2l l2t, foldl (fun ix t => load_tag t ix) ix (zip (seqZ 0 (Z.of_nat n)) ((fun i => default 0 (loc !! i)) <$> seqZ 0 (Z.of_nat n))) =
    with_tags t2l l2t ix /\ tags_below loc (Z.of_nat n) t2l l2t) as (t2l & l2t & -> & H1 & H2).
  { assert (forall k : nat, (k <= n)%nat -> exists t2l l2t, foldl (fun ix t => load_tag t ix) ix
      (zip (seqZ 0 (Z.of_nat k)) ((fun i => default 0 (loc !! i)) <$> seqZ 0 (Z.of_nat k))) = with_tags t2l l2t ix /\
      tags_below loc (Z.of_nat k) t2l l2t) as H; [|by apply H].
    induction k as [|k IH]; intros Hk.
    - exists ∅, ∅. split; [destruct ix; cbn in *; by subst|]. split; [intros i; rewrite lookup_empty; case_decide; [|done]|].
      + symmetry. apply eq_None_not_Some. intros Hi. apply Hb in Hi. lia.
      + intros t l. rewrite lookup_empty. split; [done|]. intros [Hl ?]. specialize (Hb l ltac:(by eexists)). lia.
    - destruct IH as (t2l & l2t & E & H); [lia|]. replace (Z.of_nat (S k)) with (Z.of_nat k + 1) by lia.
      rewrite seqZ_app, fmap_app, zip_with_app, foldl_app, E by (rewrite ?length_fmap; lia || done).
      apply (load_tag_step t2l0); [done | apply Hd; lia | done]. }
  f_equal; apply map_eq.
  - intros t. apply option_eq. intros l. rewrite H2, Hinv. split; [by intros []|]. intros Hl. split; [done|]. apply Hb. by eexists.
  - intros i. rewrite H1. case_decide; [done|]. symmetry. apply eq_None_not_Some. intros Hi. apply Hb in Hi. lia.
Qed.

Lemma word_zero n : word n 0.
Proof. split; [done|]. apply Z.pow_pos_nonneg; lia. Qed.

Lemma load_tags_at sizeTag f offset (t2l0 loc : gmap Z Z) (n : nat) ix :
  bin_at f offset (Z.of_nat (S n)) 1 ((((fun i => default 0 (loc !! i)) <$> seqZ 0 (Z.of_nat n)) ++ [0]) ≫= le_n sizeTag) ->
  (forall t l, t2l0 !! t = Some l <-> loc !! l = Some t) -> (forall l, is_Some (loc !! l) -> 0 <= l < Z.of_nat n) ->
  (forall l, 0 <= l < Z.of_nat n -> l ∈ delete_set ix <-> loc !! l = None) ->
  (forall l t, loc !! l = Some t -> word sizeTag t) ->
  tag_to_location ix = ∅ -> location_to_tag ix = ∅ -> enable_tags ix = true -> num_frozen_pts ix = 1 ->
  Z.of_nat (S n) < 2 ^ 32 -> Z.of_nat (S n) * Z.of_nat sizeTag < 2 ^ 64 ->
  load_tags sizeTag (Some f) offset ix = Ok (Z.of_nat (S n), with_tags t2l0 loc ix).
Proof.
  intros Hf Hinv Hb Hd Hw E1 E2 He Hfr Hn Hs. unfold load_tags. rewrite He. cbn [negb].
  set (tags := ((fun i => default 0 (loc !! i)) <$> seqZ 0 (Z.of_nat n)) ++ [0]) in *.
  assert (length tags = S n) as Hl by (unfold tags; rewrite length_app, length_fmap, length_seqZ; simpl; lia).
  assert (0 <= Z.of_nat (S n) * Z.of_nat sizeTag) as H0 by nia.
  rewrite (load_bin_at _ _ _ _ _ _ Hf); try lia; [|rewrite length_bind_le_n, Hl; lia].
  cbn [negb Z.eqb Pos.eqb]. rewrite Hfr. assert (0 <? 1 = true) as -> by done. rewrite u32_small by lia. rewrite Nat2Z.id.
  assert (elems sizeTag (S n) (tags ≫= le_n sizeTag) = tags) as ->.
  { rewrite <- Hl, <- (app_nil_r (_ ≫= _)). apply elems_bytes. apply Forall_app. split.
    - apply Forall_fmap, Forall_forall. intros i _. simpl. destruct (loc !! i) eqn:E; [by apply (Hw i) | apply word_zero].
    - constructor; [apply word_zero | done]. }
  rewrite decide_True by lia. do 2 f_equal. replace (Z.of_nat (S n) - 1) with (Z.of_nat n) by lia.
  rewrite <- (load_tag_all t2l0 loc n ix) by done. f_equal. unfold tags.
  rewrite <- (app_nil_r (seqZ 0 (Z.of_nat n))) at 1. rewrite zip_with_app by (by rewrite length_fmap).
  by rewrite zip_with_nil_l, app_nil_r.
Qed.

Lemma save_tags_at sizeTag offset ix f (n : nat) : enable_tags ix = true -> num_frozen_pts ix = 1 -> ep ix = nd ix -> nd ix = Z.of_nat n ->
  Z.of_nat (S n) < 2 ^ 32 -> Z.of_nat (S n) * Z.of_nat sizeTag < 2 ^ 64 ->
  exists f' k, save_tags sizeTag offset ix f = Ok (f', k) /\ k = u64 (Z.of_nat (S n) * Z.of_nat sizeTag + 8) /\
    f' = pwrite (pwrite f (offset, bin_header (Z.of_nat (S n)) 1)) ((offset + 8)%nat,
           (((fun i => default 0 (location_to_tag ix !! i)) <$> seqZ 0 (Z.of_nat n)) ++ [0]) ≫= le_n sizeTag).
Proof.
  intros He Hf Hep Hn Hb Hs. unfold save_tags. rewrite He, Hf, Hep, Hn. cbn [negb]. assert (0 <? 1 = true) as -> by done.
  set (tags := _ <$> seqZ 0 (Z.of_nat n)). assert (length tags = n) as Hl by (unfold tags; rewrite length_fmap, length_seqZ; lia).
  rewrite decide_True by (rewrite length_app, Hl, length_replicate; lia). cbn [mbind outcome_bind].
  change (replicate (Z.to_nat 1) 0) with [0]. rewrite Nat2Z.id. rewrite <- Hl, list_insert_id by (by apply list_lookup_middle).
  replace (Z.of_nat (length tags) + 1) with (Z.of_nat (S (length tags))) by lia.
  unfold save_bin. rewrite Z.mul_1_r. assert (0 <= Z.of_nat (S n) * Z.of_nat sizeTag) by nia. rewrite Hl in *.
  rewrite (u64_small (_ * _)) by lia. rewrite firstn_all2; [by eexists _, _|].
  rewrite length_bind_le_n, length_app, Hl. cbn [length]. lia.
Qed.

Lemma load_delete_at f offset (l : list Z) ix : bin_at f offset (Z.of_nat (length l)) 1 (l ≫= le32) -> ids32 l -> Z.of_nat (length l) < 2 ^ 32 ->
  load_delete_set f offset ix = Ok (with_slots (nd ix) (list_to_set l ∪ delete_set ix) (empty_slots ix) (lazy_done ix) (eager_done ix) (data_compacted ix) ix).
Proof.
  intros Hf Hl Hn. unfold load_delete_set. rewrite (load_bin_at _ _ _ _ _ _ Hf) by (rewrite ?length_bind_le32; lia).
  cbn [Z.eqb Pos.eqb assert_ mbind outcome_bind]. by rewrite Nat2Z.id, words_bytes.
Qed.

(** ** Facts: the frozen point behind the points *)
Lemma renamed_renamed M n m' l : (n ∉ l \/ n = M) -> renamed n m' (renamed M n l) = renamed M m' l.
Proof.
  intros H. unfold renamed. rewrite <- list_fmap_compose. apply list_fmap_ext. intros i j Hj. simpl.
  apply list_elem_of_lookup_2 in Hj. destruct (decide (j = M)) as [->|]; [by rewrite decide_True|].
  destruct (decide (j = n)) as [->|]; [|done]. by destruct H.
Qed.

Lemma renamed_same M l : renamed M M l = l.
Proof. unfold renamed. rewrite <- (list_fmap_id l) at 2. apply list_fmap_ext. intros i j _. simpl. by case_decide. Qed.

Lemma with_points_same ix d :
  with_points (max_points ix) (ep ix) (with_data d (with_graph (final_graph ix) (width ix) ix)) = with_data d ix.
Proof. by destruct ix. Qed.

Section saved.
Context (range sizeT sizeTag dim aligned_dim : nat).

(** What the files can hold. *)
Record storable (ix : mem_index) : Prop := {
  st_rows : forall i, live ix i -> (dim <= length (row ix i))%nat /\ Forall (word sizeT) (take dim (row ix i));
  st_tags : forall l t, location_to_tag ix !! l = Some t -> word sizeTag t;
  st_frozen : nd ix < max_points ix -> list_of ix (max_points ix) <> Ok [];
  st_counts : nd ix + 1 < 2 ^ 31 /\ Z.of_nat dim < 2 ^ 31 /\ Z.of_nat (SLACK range) < 2 ^ 30;
  st_bytes : 4096 + 24 + (nd ix + 1) * (4 * (Z.of_nat (SLACK range) + 1) + Z.of_nat dim * Z.of_nat sizeT + Z.of_nat sizeTag + 4) + 24 < 2 ^ 64;
}.

Record packed (ix ixc : mem_index) : Prop := {
  pk_frame : ixc = with_points (max_points ix) (nd ix) (with_data (mdata ixc) (with_graph (final_graph ixc) (width ix) ix));
  pk_length : length (final_graph ixc) = length (final_graph ix) /\ length (mdata ixc) = length (mdata ix);
  pk_low : forall i l, 0 <= i < nd ix -> list_of ix i = Ok l -> list_of ixc i = Ok (renamed (max_points ix) (nd ix) l);
  pk_frozen : list_of ixc (nd ix) = list_of ix (max_points ix);
  pk_high : forall i, nd ix < i -> i <> max_points ix -> list_of ixc i = list_of ix i;
  pk_bare : nd ix < max_points ix -> list_of ixc (max_points ix) = Ok [];
  pk_rows : forall i, 0 <= i < nd ix -> row ixc i = row ix i;
  pk_frozen_row : take dim (row ixc (nd ix)) = take dim (row ix (max_points ix)) /\ (dim <= length (row ixc (nd ix)))%nat;
}.

Lemma compact_frozen_point_spec ix : dyn_ok range ix -> storable ix ->
  exists ixc, compact_frozen_point dim aligned_dim ix = Ok ixc /\ packed ix ixc.
Proof.
  intros Hok Hst. pose proof (dy_nd _ _ Hok) as Hnd. pose proof (dy_max _ _ Hok) as Hmax. pose proof (dy_frozen _ _ Hok) as Hf.
  pose proof (mg_length _ (lk_ok _ _ (dy_linked _ _ Hok))) as Hlen. pose proof (dy_rows _ _ Hok) as Hrl. unfold total_points in *.
  destruct (st_rows _ Hst (max_points ix)) as [Hfr _]; [by right|].
  destruct (list_of_known ix (lk_ok _ _ (dy_linked _ _ Hok)) (max_points ix)) as (l & El & _); [unfold in_index, total_points; lia|].
  unfold compact_frozen_point. rewrite Hf. assert (0 <? 1 = true) as -> by done. rewrite andb_true_r.
  destruct (Z.ltb_spec (nd ix) (max_points ix)) as [Hlt|Hge].
  - change (list_of (with_points ?a ?b ix) ?n) with (list_of ix n). cbn [max_points with_points]. rewrite El. cbn [mbind outcome_bind].
    pose proof (st_frozen _ Hst Hlt) as Hne. rewrite bool_decide_false by congruence.
    change (row (with_points ?a ?b ix) ?n) with (row ix n). rewrite u32_small by lia. unfold set_row.
    cbn [mdata nd final_graph width with_graph with_points max_points]. rewrite decide_True by lia.
    cbn [mbind outcome_bind mdata with_data with_graph with_points max_points]. rewrite decide_True by (rewrite length_insert; lia).
    eexists. split; [reflexivity|]. apply list_of_Some in El.
    split; unfold row, list_of; cbn [final_graph mdata nd max_points with_points with_graph with_data].
    + done.
    + by rewrite !length_insert, length_rename.
    + intros i li Hi Hli. rewrite !list_lookup_insert_ne by lia. rewrite rename_lookup, decide_True by lia.
      destruct (final_graph ix !! Z.to_nat i); [|done]. by injection Hli as ->.
    + rewrite list_lookup_insert_ne by lia. rewrite list_lookup_insert_eq by (rewrite length_rename; lia). by rewrite El.
    + intros i Hi Hne'. rewrite !list_lookup_insert_ne by lia. by rewrite rename_lookup, decide_False by lia.
    + intros _. by rewrite list_lookup_insert_eq by (rewrite length_insert, length_rename; lia).
    + intros i Hi. by rewrite !list_lookup_total_insert_ne by lia.
    + rewrite list_lookup_total_insert_ne by lia. rewrite list_lookup_total_insert_eq by lia. unfold row in Hfr.
      rewrite take_app_le, firstn_firstn, Nat.min_id, length_app, length_take by (rewrite length_take; lia). split; [done | lia].
  - assert (nd ix = max_points ix) as E by lia. exists ix. split; [done|]. pose proof (dy_ep _ _ Hok) as Hep.
    split; rewrite ?E; try done; try lia.
    + rewrite <- Hep at 2. rewrite with_points_same. by destruct ix.
    + intros i li _ Hli. by rewrite renamed_same.
Qed.

(** After the save everything is where it was. *)
Lemma reposition_packed ix ixc : dyn_ok range ix -> storable ix -> packed ix ixc ->
  exists ix1, reposition_frozen_point_to_end aligned_dim ixc = Ok ix1 /\ ix1 = with_data (mdata ix1) ix /\ length (mdata ix1) = length (mdata ix) /\
    forall i, live ix i -> take dim (row ix1 i) = take dim (row ix i) /\ (dim <= length (row ix1 i))%nat.
Proof.
  intros Hok Hst Hp. pose proof (dy_nd _ _ Hok) as Hnd. pose proof (dy_max _ _ Hok) as Hmax. pose proof (dy_frozen _ _ Hok) as Hf.
  pose proof (mg_length _ (lk_ok _ _ (dy_linked _ _ Hok))) as Hlen. pose proof (dy_rows _ _ Hok) as Hrl. unfold total_points in *.
  destruct (pk_length _ _ Hp) as [Hlg Hlm]. pose proof (pk_frame _ _ Hp) as Fr. pose proof (pk_frozen_row _ _ Hp) as [Hfr Hfl].
  assert (nd ixc = nd ix /\ max_points ixc = max_points ix /\ num_frozen_pts ixc = 1) as (En & Em & Ef) by (by rewrite Fr).
  unfold reposition_frozen_point_to_end. rewrite En, Em, Ef. cbn [Z.eqb orb].
  destruct (Z.eqb_spec (nd ix) (max_points ix)) as [E|Hne].
  - exists ixc. split; [done|]. assert (final_graph ixc = final_graph ix) as Eg.
    { apply list_eq. intros i. destruct (decide (i < length (final_graph ix))%nat) as [Hin|]; [|by rewrite !lookup_ge_None_2 by lia].
      destruct (lookup_lt_is_Some_2 (final_graph ix) i) as [l Hl]; [done|]. rewrite Hl. apply list_of_nat. apply list_of_nat in Hl.
      destruct (decide (Z.of_nat i = nd ix)) as [Ei|]; [by rewrite Ei, (pk_frozen _ _ Hp), <- E, <- Ei|].
      rewrite (pk_low _ _ Hp _ l) by (done || lia). by rewrite <- E, renamed_same. }
    split; [rewrite Fr at 1; rewrite Eg, E; rewrite <- (dy_ep _ _ Hok) at 2; apply with_points_same|]. split; [done|].
    intros i [Hi| ->]; [|by rewrite E in Hfr, Hfl]. rewrite (pk_rows _ _ Hp) by done. split; [done|]. apply (st_rows _ Hst). by left.
  - destruct (list_of_known ix (lk_ok _ _ (dy_linked _ _ Hok)) (max_points ix)) as (l & El & _); [unfold in_index, total_points; lia|].
    assert (list_of ixc (nd ix) = Ok l) as Elc by (by rewrite (pk_frozen _ _ Hp)). rewrite <- En in Elc.
    destruct (reposition_nd aligned_dim (max_points ix) ixc l) as (ix1 & E1 & Hm); [lia..|done|]. rewrite En in E1, Hm. rewrite E1. cbn [mbind outcome_bind].
    pose proof (mv_frame _ _ _ _ _ Hm) as Fr1. assert (max_points ix1 = max_points ix) as -> by (by rewrite Fr1).
    eexists. split; [reflexivity|]. rewrite u32_small by lia.
    assert (final_graph ix1 = final_graph ix) as Eg.
    { apply list_eq. intros i. pose proof (mv_length _ _ _ _ _ Hm). destruct (decide (i < length (final_graph ix))%nat) as [Hin|]; [|by rewrite !lookup_ge_None_2 by lia].
      destruct (lookup_lt_is_Some_2 (final_graph ix) i) as [li Hl]; [done|]. rewrite Hl. apply list_of_nat. apply list_of_nat in Hl.
      destruct (decide (Z.of_nat i = max_points ix)) as [Ei|Hi1]; [rewrite Ei in *; rewrite (proj1 (mv_new _ _ _ _ _ Hm)); congruence|].
      destruct (decide (Z.of_nat i = nd ix)) as [Ei|Hi2].
      - rewrite Ei in *. rewrite (mv_old _ _ _ _ _ Hm), <- Hl. symmetry. apply (dy_bare _ _ Hok). lia.
      - destruct (decide (Z.of_nat i < nd ix)).
        + rewrite (mv_low _ _ _ _ _ Hm (Z.of_nat i) (renamed (max_points ix) (nd ix) li)); [|lia | by apply (pk_low _ _ Hp); [lia|]].
          rewrite renamed_renamed; [by rewrite renamed_same|]. left. intros Hnl.
          pose proof (within_list _ _ (Z.of_nat i) _ (dy_live _ _ Hok) ltac:(lia) ltac:(left; lia) Hl) as Hall. rewrite Forall_forall in Hall.
          destruct (Hall _ Hnl); lia.
        + by rewrite (mv_high _ _ _ _ _ Hm), (pk_high _ _ Hp) by lia. }
    split.
    { cbn [mdata with_points]. etrans; [|apply with_points_same]. rewrite (dy_ep _ _ Hok). rewrite Fr1 at 1. rewrite Eg. generalize (mdata ix1). intros d. by rewrite Fr. }
    pose proof (mv_rows_length _ _ _ _ _ Hm). split; [cbn; lia|]. intros i [Hi| ->].
    + change (row (with_points ?a ?b ix1) ?n) with (row ix1 n). rewrite (mv_rows _ _ _ _ _ Hm), (pk_rows _ _ Hp) by lia.
      split; [done|]. apply (st_rows _ Hst). by left.
    + change (row (with_points ?a ?b ix1) ?n) with (row ix1 n). by rewrite (proj2 (mv_new _ _ _ _ _ Hm)).
Qed.

(** ** Facts: what the files hold *)
Lemma max_degree_from lists : Forall short_list lists -> forall m, 0 <= m < 2 ^ 32 ->
  let r := foldl (fun m l => if m <? Z.of_nat (length l) then u32 (Z.of_nat (length l)) else m) m lists in
  m <= r < 2 ^ 32 /\ Forall (fun l : list Z => Z.of_nat (length l) <= r) lists.
Proof.
  induction 1 as [|l lists [Hl _] _ IH]; intros m Hm; cbn [foldl]; [split; [lia | done]|].
  destruct (Z.ltb_spec m (Z.of_nat (length l))).
  - rewrite u32_small by lia. destruct (IH (Z.of_nat (length l))) as [H1 H2]; [lia|]. split; [lia|]. constructor; [lia | done].
  - destruct (IH m Hm) as [H1 H2]. split; [lia|]. constructor; [lia | done].
Qed.

Lemma max_degree_spec lists : Forall short_list lists ->
  0 <= max_degree lists < 2 ^ 32 /\ Forall (fun l => Z.of_nat (length l) <= max_degree lists) lists.
Proof. intros H. by apply (max_degree_from lists H 0). Qed.

Section contents.
Context (ix ixc : mem_index) (Hok : dyn_ok range ix) (Hst : storable ix) (Hp : packed ix ixc).

Definition points : nat := S (Z.to_nat (nd ix)).
Definition kept_lists : list (list Z) := take points (final_graph ixc).
Definition kept_rows : list (list Z) := take dim <$> take points (mdata ixc).
Definition kept_tags : list Z := ((fun i => default 0 (location_to_tag ix !! i)) <$> seqZ 0 (Z.of_nat (Z.to_nat (nd ix)))) ++ [0].

Lemma packed_counts : Z.of_nat points = nd ix + 1 /\ used_points ixc = points /\ num_frozen_pts ixc = 1 /\ ep ixc = nd ix /\
  nd ixc = nd ix /\ max_points ixc = max_points ix /\ (points <= length (final_graph ixc))%nat /\ (points <= length (mdata ixc))%nat.
Proof.
  pose proof (dy_nd _ _ Hok). pose proof (dy_frozen _ _ Hok) as Hf. destruct (pk_length _ _ Hp).
  pose proof (mg_length _ (lk_ok _ _ (dy_linked _ _ Hok))). pose proof (dy_rows _ _ Hok). unfold total_points, points, used_points in *.
  rewrite (pk_frame _ _ Hp). cbn [nd num_frozen_pts ep max_points with_points with_data with_graph]. rewrite Hf.
  rewrite <- (pk_frame _ _ Hp). split_and!; try done; lia.
Qed.

(** The lists, as those of the index with the frozen point renamed. *)
Lemma kept_list i l : live ix i -> list_of ix i = Ok l ->
  kept_lists !! Z.to_nat (if decide (i = max_points ix) then nd ix else i) = Some (renamed (max_points ix) (nd ix) l).
Proof.
  intros Hi Hl. destruct packed_counts as (Hn & _ & _ & _ & _ & _ & Hlg & _). unfold kept_lists. pose proof (dy_nd _ _ Hok).
  assert (0 <= i) by (destruct Hi; lia). case_decide as Ei.
  - rewrite lookup_take_lt by lia. apply list_of_Some. rewrite (pk_frozen _ _ Hp), <- Ei, Hl. f_equal. rewrite Ei. symmetry. apply renamed_absent.
    rewrite <- Ei. apply (linked_list range ix i l (dy_linked _ _ Hok)); [|done]. unfold in_index, total_points.
    pose proof (dy_frozen _ _ Hok). destruct Hi; lia.
  - destruct Hi as [Hi|]; [|done]. rewrite lookup_take_lt by lia. apply list_of_Some. by apply (pk_low _ _ Hp).
Qed.

Lemma kept_row i : live ix i ->
  kept_rows !! Z.to_nat (if decide (i = max_points ix) then nd ix else i) = Some (take dim (row ix i)) /\ full_row sizeT dim (take dim (row ix i)).
Proof.
  intros Hi. destruct packed_counts as (Hn & _ & _ & _ & _ & _ & _ & Hlm). pose proof (dy_nd _ _ Hok).
  destruct (st_rows _ Hst i Hi) as [Hr1 Hr2]. split; [|split; [rewrite length_take; lia | done]].
  assert (Hrow : forall k, 0 <= k <= nd ix -> kept_rows !! Z.to_nat k = Some (take dim (row ixc k))).
  { intros k Hk. unfold kept_rows. rewrite list_lookup_fmap, lookup_take_lt by lia.
    destruct (lookup_lt_is_Some_2 (mdata ixc) (Z.to_nat k)) as [r Er]; [lia|]. rewrite Er. simpl. unfold row.
    by rewrite (list_lookup_total_correct _ _ _ Er). }
  case_decide as Ei.
  - rewrite Hrow, Ei by lia. f_equal. apply (pk_frozen_row _ _ Hp).
  - destruct Hi as [Hi|]; [|done]. rewrite Hrow by lia. by rewrite (pk_rows _ _ Hp).
Qed.

(** Every saved slot is that of a point. *)
Lemma kept_slot k : (k < points)%nat -> exists i, live ix i /\ Z.to_nat (if decide (i = max_points ix) then nd ix else i) = k.
Proof.
  unfold points. intros Hk. pose proof (dy_nd _ _ Hok). destruct (decide (Z.of_nat k = nd ix)) as [E|].
  - exists (max_points ix). split; [by right|]. rewrite decide_True by done. lia.
  - exists (Z.of_nat k). split; [left; lia|]. rewrite decide_False by lia. lia.
Qed.

Lemma kept_lists_ok : Forall short_list kept_lists /\ length kept_lists = points /\
  Forall (fun l => (length l <= SLACK range)%nat) kept_lists.
Proof.
  destruct packed_counts as (Hn & _ & _ & _ & _ & _ & Hlg & _). destruct (st_counts _ Hst) as (Hn31 & _ & Hsl).
  assert (length kept_lists = points) as Hl by (unfold kept_lists; rewrite length_take; lia).
  assert (Forall (fun l => (length l <= SLACK range)%nat /\ ids32 l) kept_lists) as H.
  { apply Forall_lookup_2. intros k l Hk. destruct (kept_slot k) as (i & Hi & Ek); [rewrite <- Hl; by eapply lookup_lt_Some|].
    pose proof (dy_nd _ _ Hok). pose proof (dy_frozen _ _ Hok). pose proof (dy_max _ _ Hok).
    assert (in_index ix i) as Hin by (unfold in_index, total_points; destruct Hi; lia).
    destruct (list_of_known ix (lk_ok _ _ (dy_linked _ _ Hok)) i Hin) as (l0 & El & _).
    rewrite <- Ek, (kept_list i l0 Hi El) in Hk. injection Hk as <-.
    destruct (linked_list range ix i l0 (dy_linked _ _ Hok) Hin El) as (_ & _ & Hlen & Hids). split; [unfold renamed; by rewrite length_fmap|].
    apply Forall_forall. intros j [[Hj _]|[_ ->]]%elem_of_renamed; [|lia]. rewrite Forall_forall in Hids. apply Hids in Hj.
    unfold in_index, total_points in Hj. lia. }
  split_and!; [|done|]; (eapply Forall_impl; [exact H|]); [|by intros l [? _]]. intros l [? ?]. split; [lia | done].
Qed.

Lemma kept_rows_ok : Forall (full_row sizeT dim) kept_rows /\ length kept_rows = points /\
  (take points (mdata ixc) ≫= row_bytes sizeT dim) = kept_rows ≫= (fun r => r ≫= le_n sizeT).
Proof.
  destruct packed_counts as (Hn & _ & _ & _ & _ & _ & _ & Hlm).
  assert (length kept_rows = points) as Hl by (unfold kept_rows; rewrite length_fmap, length_take; lia).
  assert (Forall (full_row sizeT dim) kept_rows) as H.
  { apply Forall_lookup_2. intros k r Hk. destruct (kept_slot k) as (i & Hi & Ek); [rewrite <- Hl; by eapply lookup_lt_Some|].
    destruct (kept_row i Hi) as [E Hfull]. rewrite <- Ek, E in Hk. by injection Hk as <-. }
  split_and!; [done..|]. unfold kept_rows in H |- *. clear - H. induction (take points (mdata ixc)) as [|r l IH]; [done|].
  cbn [fmap list_fmap mbind list_bind] in H |- *. inversion H as [|? ? [Hr _] H']; subst. rewrite length_take in Hr.
  rewrite row_bytes_full by lia. f_equal. by apply IH.
Qed.

(** The three parts at their places. *)
Record image (g d t : list Z) (og od ot : nat) : Prop := {
  im_graph : graph_at g og (max_degree kept_lists) (nd ix) 1 kept_lists;
  im_data : bin_at d od (Z.of_nat points) (Z.of_nat dim) (kept_rows ≫= (fun r => r ≫= le_n sizeT));
  im_tags : bin_at t ot (Z.of_nat points) 1 (kept_tags ≫= le_n sizeTag);
}.

Lemma length_bind_bound (l : list (list Z)) (f : list Z -> list Z) (c : nat) : Forall (fun x => (length (f x) <= c)%nat) l -> (length (l ≫= f) <= length l * c)%nat.
Proof. induction 1 as [|x l Hx _ IH]; [done|]. cbn [mbind list_bind length]. rewrite length_app. lia. Qed.

Lemma image_sizes : 24 + Z.of_nat (length (kept_lists ≫= nhood_bytes)) <= 24 + (nd ix + 1) * (4 * (Z.of_nat (SLACK range) + 1)) /\
  length (kept_rows ≫= (fun r => r ≫= le_n sizeT)) = (points * (dim * sizeT))%nat /\ length (kept_tags ≫= le_n sizeTag) = (points * sizeTag)%nat.
Proof.
  destruct packed_counts as (Hn & _). destruct kept_lists_ok as (_ & Hl & Hb). destruct kept_rows_ok as (Hr & Hlr & _). split_and!.
  - pose proof (length_bind_bound kept_lists nhood_bytes (4 * (SLACK range + 1))) as H. rewrite Hl in H.
    assert (length (kept_lists ≫= nhood_bytes) <= points * (4 * (SLACK range + 1)))%nat; [|nia]. apply H. eapply Forall_impl; [exact Hb|].
    intros l Hle. cbn beta in *. unfold nhood_bytes. rewrite length_app, length_bind_le32. change (length (le32 _)) with 4%nat. lia.
  - rewrite <- Hlr. clear - Hr. induction Hr as [|r l [Hr _] _ IH]; [done|]. cbn [mbind list_bind length]. rewrite length_app, length_bind_le_n, Hr, IH. simpl. lia.
  - rewrite length_bind_le_n. unfold kept_tags, points. rewrite length_app, length_fmap, length_seqZ. cbn [length]. lia.
Qed.

(** ** Facts: writing the parts *)
Abbreviation G := (graph_size kept_lists).
Abbreviation rows_bytes := (kept_rows ≫= (fun r => r ≫= le_n sizeT)).
Abbreviation tags_bytes := (kept_tags ≫= le_n sizeTag).

Lemma part_sizes : G = 24 + Z.of_nat (length (kept_lists ≫= nhood_bytes)) /\ 0 <= G /\
  Z.of_nat points * Z.of_nat dim * Z.of_nat sizeT = Z.of_nat (length rows_bytes) /\
  Z.of_nat points * Z.of_nat sizeTag = Z.of_nat (length tags_bytes) /\
  4096 + G + (8 + Z.of_nat (length rows_bytes)) + (8 + Z.of_nat (length tags_bytes)) + (nd ix + 1) * 4 + 8 < 2 ^ 64.
Proof.
  destruct image_sizes as (H1 & H2 & H3). destruct packed_counts as (Hn & _). destruct kept_lists_ok as (Hls & _ & _).
  pose proof (st_bytes _ Hst) as Hb. rewrite H2, H3, !Nat2Z.inj_mul, Hn. pose proof (dy_nd _ _ Hok).
  assert (0 <= (nd ix + 1) * Z.of_nat dim * Z.of_nat sizeT) by (apply Z.mul_nonneg_nonneg; [apply Z.mul_nonneg_nonneg|]; lia).
  assert (0 <= (nd ix + 1) * Z.of_nat sizeTag) by (apply Z.mul_nonneg_nonneg; lia).
  rewrite graph_size_eq by (done || lia). split_and!; lia.
Qed.

Lemma save_graph_part offset f : exists f', save_graph offset ixc f = Ok (f', G) /\
  graph_at f' offset (max_degree kept_lists) (nd ix) 1 kept_lists /\ ((length f <= offset)%nat -> Z.of_nat (length f') = Z.of_nat offset + G).
Proof.
  destruct packed_counts as (Hn & Eu & Ef & Ee & _ & _ & _). destruct kept_lists_ok as (Hls & Hl & _). pose proof (dy_nd _ _ Hok). pose proof (dy_max _ _ Hok).
  destruct (save_graph_at offset ixc f kept_lists) as (f' & -> & Hat & ->); [by rewrite Eu | by rewrite Eu | lia |].
  rewrite Ee, Ef in *. eexists. split; [reflexivity|]. split; [done|]. intros Hlf.
  rewrite !pwrite_length, !length_app, !length_le64, !length_le32. destruct part_sizes as (-> & _). lia.
Qed.

(** Behind the end of a file, a part is appended. *)
Lemma pwrite_bin f npts ndims (data : list Z) :
  pwrite (pwrite f (length f, bin_header npts ndims)) ((length f + 8)%nat, data) = f ++ bin_header npts ndims ++ data.
Proof.
  rewrite pwrite_end. replace (length f + 8)%nat with (length (f ++ bin_header npts ndims)) by (rewrite length_app; done).
  by rewrite pwrite_end, <- app_assoc.
Qed.

Lemma bin_at_last f npts ndims data : bin_at (f ++ bin_header npts ndims ++ data) (length f) npts ndims data.
Proof. exists []. by rewrite drop_app_length, app_nil_r. Qed.

Lemma save_data_part f : exists k, save_data sizeT dim (length f) ixc f = Ok (f ++ bin_header (Z.of_nat points) (Z.of_nat dim) ++ rows_bytes, k) /\
  k = 8 + Z.of_nat (length rows_bytes).
Proof.
  destruct packed_counts as (Hn & Eu & Ef & _ & En & _ & _ & Hlm). destruct kept_rows_ok as (_ & _ & Eb). destruct part_sizes as (_ & H0 & Hd & _ & Hb).
  unfold save_data. rewrite Eu, decide_True by done. rewrite Ef, En, <- Hn, Eb, pwrite_end, Hd. eexists. split; [done|]. apply u64_small. pose proof (dy_nd _ _ Hok). lia.
Qed.

Lemma save_tags_part f : exists k, save_tags sizeTag (length f) ixc f = Ok (f ++ bin_header (Z.of_nat points) 1 ++ tags_bytes, k) /\
  k = 8 + Z.of_nat (length tags_bytes).
Proof.
  destruct packed_counts as (Hn & _ & Ef & Ee & En & _). destruct part_sizes as (_ & H0 & _ & Ht & Hb). pose proof (dy_nd _ _ Hok).
  destruct (dy_flags _ _ Hok) as (_ & Het & _). destruct (st_counts _ Hst).
  assert (enable_tags ixc = true /\ location_to_tag ixc = location_to_tag ix) as [Hen El] by (by rewrite (pk_frame _ _ Hp)).
  destruct (save_tags_at sizeTag (length f) ixc f (Z.to_nat (nd ix))) as (f' & k & -> & -> & ->); [done | done | by rewrite Ee | lia | fold points; lia | |].
  { fold points. lia. }
  fold points. rewrite El. fold kept_tags. rewrite pwrite_bin. eexists. split; [done|]. rewrite Ht, u64_small by lia. lia.
Qed.

Context (set_order : gset Z -> list Z) (Hso : forall s, set_order s ≡ₚ elements s).
Abbreviation dels := (set_order (delete_set ix)).

Lemma dels_ok : length dels = size (delete_set ix) /\ ids32 dels /\ Z.of_nat (length dels) <= nd ix /\ list_to_set dels = delete_set ix.
Proof using Hok Hso.
  assert (length dels = size (delete_set ix)) as Hl by (rewrite (Hso _); done). pose proof (dy_nd _ _ Hok). pose proof (dy_max _ _ Hok).
  assert (forall l, l ∈ dels -> 0 <= l < nd ix) as Hd.
  { intros l. rewrite (Hso _), elem_of_elements. intros Hin. apply (dy_slots _ _ Hok). by right. }
  split_and!; [done | | |].
  - apply Forall_forall. intros l Hin%Hd. lia.
  - rewrite Hl. assert (size (delete_set ix) <= length (seqZ 0 (nd ix)))%nat as H1; [|rewrite length_seqZ in H1; lia].
    rewrite <- (size_list_to_set (C := gset Z) (seqZ 0 (nd ix))) by apply NoDup_seqZ. apply subseteq_size. intros l Hin.
    apply elem_of_list_to_set, elem_of_seqZ. assert (0 <= l < nd ix); [|lia]. apply Hd. rewrite (Hso _). by apply elem_of_elements.
  - apply set_eq. intros l. by rewrite elem_of_list_to_set, (Hso _), elem_of_elements.
Qed.

Lemma save_delete_part offset f : delete_set ix <> ∅ -> length (default [] f) = offset ->
  exists k, save_delete_list set_order offset ixc f = (Some (default [] f ++ bin_header (Z.of_nat (length dels)) 1 ++ (dels ≫= le32)), k) /\
    k = 8 + 4 * Z.of_nat (length dels).
Proof.
  intros Hne <-. destruct dels_ok as (Hl & _ & Hb & _). assert (delete_set ixc = delete_set ix) as Ed by (by rewrite (pk_frame _ _ Hp)).
  destruct (st_counts _ Hst). unfold save_delete_list. rewrite Ed, bool_decide_false by (by intros ?%size_empty_inv%leibniz_equiv). rewrite <- Hl. unfold save_bin.
  rewrite (u64_small (_ * _ * 4)) by lia. rewrite firstn_all2 by (rewrite length_bind_le32; lia). rewrite pwrite_bin.
  eexists. split; [done|]. rewrite u64_small by lia. lia.
Qed.

Lemma save_delete_none offset f : delete_set ix = ∅ -> save_delete_list set_order offset ixc f = (f, 0).
Proof.
  intros E. unfold save_delete_list. assert (delete_set ixc = delete_set ix) as -> by (by rewrite (pk_frame _ _ Hp)).
  by rewrite E, bool_decide_true by apply size_empty.
Qed.

Definition dels_at (f : list Z) (offset : nat) : Prop := bin_at f offset (Z.of_nat (length dels)) 1 (dels ≫= le32).

Lemma save_files_image : exists files d t, save_files sizeT sizeTag dim set_order ixc = Ok files /\ image (graph_file files) d t 0 0 0 /\
  data_file files = Some d /\ tags_file files = Some t /\
  if decide (delete_set ix = ∅) then del_file files = None else exists f, del_file files = Some f /\ dels_at f 0.
Proof.
  destruct (save_graph_part 0 []) as (g & Eg & Hg & _). destruct (save_data_part []) as (kd & Ed & _). destruct (save_tags_part []) as (kt & Et & _).
  change (length []) with 0%nat in Ed, Et. cbn [app] in Ed, Et. unfold save_files. rewrite Eg. cbn [mbind outcome_bind]. rewrite Ed. cbn [mbind outcome_bind]. rewrite Et. cbn [mbind outcome_bind].
  destruct (dy_flags _ _ Hok) as (_ & Het & _). assert (enable_tags ixc = true) as -> by (by rewrite (pk_frame _ _ Hp)).
  eexists _, _, _. split; [reflexivity|]. cbn [graph_file data_file tags_file del_file]. split_and!; [|done|done|].
  - split; [done | |]; apply (bin_at_last []).
  - case_decide as E; [by rewrite save_delete_none|]. destruct (save_delete_part 0 None E eq_refl) as (k & -> & _).
    eexists. split; [reflexivity|]. apply (bin_at_last []).
Qed.

(** The table in front of the parts does not touch them. *)
Definition table (cs : list Z) : list Z := cs ≫= le64.

Lemma put_table cs f : length cs = 5%nat -> Forall (fun c => 0 <= c < 2 ^ 64) cs ->
  let f' := (save_bin 8 (table cs) 5 1 0 f).1 in
  load_bin 8 f' 0 = (5, 1, table cs) /\ (forall k c, cs !! k = Some c -> read_u64 (bytes_at (table cs)) (8 * Z.of_nat k) = c) /\
  forall offset, (METADATA_SIZE <= offset)%nat -> drop offset f' = drop offset f.
Proof.
  intros Hl Hc f'. assert (length (table cs) = 40%nat) as Hlt by (unfold table; rewrite length_bind_le64; lia). split_and!.
  - apply load_bin_at; [apply save_bin_at; [by rewrite Hlt | done] | done | done | by rewrite Hlt | done].
  - intros k c Hk. rewrite Forall_lookup in Hc. replace (8 * Z.of_nat k) with (Z.of_nat (0 + 8 * k)) by lia. apply (read_word_list (table cs) 0 cs k c Hk (Hc _ _ Hk)). by intros i b.
  - intros offset Ho. unfold f', save_bin. cbn [fst]. unfold METADATA_SIZE in Ho.
    rewrite !drop_pwrite_low; [done | cbn; lia |]. rewrite length_take, Hlt. lia.
Qed.

Lemma save_one_file_image : exists f cs, save_one_file sizeT sizeTag dim set_order ixc = Ok f /\ length cs = 5%nat /\
  load_bin 8 f 0 = (5, 1, table cs) /\ (forall k c, cs !! k = Some c -> read_u64 (bytes_at (table cs)) (8 * Z.of_nat k) = c) /\
  image f f f (Z.to_nat (cs !!! 0%nat)) (Z.to_nat (cs !!! 1%nat)) (Z.to_nat (cs !!! 2%nat)) /\
  if decide (delete_set ix = ∅) then cs !!! 3%nat = cs !!! 4%nat else cs !!! 3%nat <> cs !!! 4%nat /\ dels_at f (Z.to_nat (cs !!! 3%nat)).
Proof.
  destruct part_sizes as (_ & HG0 & _ & _ & Hb). destruct dels_ok as (_ & _ & Hdn & _). pose proof (dy_nd _ _ Hok).
  destruct (save_graph_part METADATA_SIZE []) as (f1 & E1 & Hg & Hl1). specialize (Hl1 (Nat.le_0_l _)).
  destruct (save_data_part f1) as (kd & E2 & Ekd). set (f2 := f1 ++ _) in E2.
  destruct (save_tags_part f2) as (kt & E3 & Ekt). set (f3 := f2 ++ _) in E3.
  assert (Z.of_nat (length f2) = Z.of_nat (length f1) + kd) as Hl2 by (unfold f2; rewrite !length_app, Ekd; change (length (bin_header _ _)) with 8%nat; lia).
  assert (Z.of_nat (length f3) = Z.of_nat (length f2) + kt) as Hl3 by (unfold f3; rewrite !length_app, Ekt; change (length (bin_header _ _)) with 8%nat; lia).
  assert (Z.of_nat METADATA_SIZE = 4096) as EM by done.
  assert (exists f4 k4, save_delete_list set_order (length f3) ixc (Some f3) = (Some (f3 ++ f4), k4) /\ 0 <= k4 <= 8 + 4 * nd ix /\
    if decide (delete_set ix = ∅) then k4 = 0 else 0 < k4 /\ f4 = bin_header (Z.of_nat (length dels)) 1 ++ (dels ≫= le32)) as (f4 & k4 & E4 & Hk4 & Hdel).
  { case_decide as E; [exists [], 0; rewrite app_nil_r, save_delete_none by done; split_and!; done || lia|].
    destruct (save_delete_part (length f3) (Some f3) E eq_refl) as (k & -> & ->). eexists _, _. split; [reflexivity|]. split_and!; done || lia. }
  set (cs := [4096; Z.of_nat (length f1); Z.of_nat (length f2); Z.of_nat (length f3); Z.of_nat (length f3) + k4]).
  exists (save_bin 8 (table cs) 5 1 0 (f3 ++ f4)).1, cs.
  destruct (put_table cs (f3 ++ f4)) as (Ht1 & Ht2 & Hdrop); [done | repeat constructor; lia|].
  split.
  { unfold save_one_file. cbv zeta. change (Z.to_nat (Z.of_nat METADATA_SIZE)) with METADATA_SIZE. rewrite E1. cbn [mbind outcome_bind].
    rewrite EM, (u64_small (4096 + G)) by lia. replace (4096 + G) with (Z.of_nat (length f1)) by lia. rewrite Nat2Z.id, E2. cbn [mbind outcome_bind].
    rewrite (u64_small (_ + kd)) by lia. rewrite <- Hl2, Nat2Z.id, E3. cbn [mbind outcome_bind].
    rewrite (u64_small (_ + kt)) by lia. rewrite <- Hl3, Nat2Z.id, E4. rewrite u64_small by lia. done. }
  split_and!; [done..| |].
  - cbn [list_lookup_total lookup_total cs]. rewrite !Nat2Z.id. split.
    + destruct Hg as [rest Hg]. unfold graph_at. rewrite Hdrop by (change (Z.to_nat 4096) with METADATA_SIZE; done).
      change (Z.to_nat 4096) with METADATA_SIZE. unfold f3, f2. rewrite <- !app_assoc, drop_app_le, Hg by lia. eexists. by rewrite <- !app_assoc.
    + unfold bin_at. rewrite Hdrop by lia. unfold f3, f2. rewrite <- !app_assoc, drop_app_length. by eexists.
    + unfold bin_at. rewrite Hdrop by lia. unfold f3. rewrite <- !app_assoc, drop_app_length. by eexists.
  - cbn [list_lookup_total lookup_total cs]. case_decide; [lia|]. destruct Hdel as [? ->]. split; [lia|]. unfold dels_at, bin_at.
    rewrite Nat2Z.id, Hdrop, drop_app_length by lia. exists []. by rewrite app_nil_r.
Qed.

(** ** Facts: putting the parts together *)
(** The size of the loaded index in an index made for [m] points. *)
Definition loaded_max (m : Z) : Z := if m <? nd ix then nd ix + 1 else m.

Lemma loaded_max_bounds m : 0 < m < 2 ^ 32 - 2 -> 0 < loaded_max m < 2 ^ 32 - 1 /\ nd ix <= loaded_max m.
Proof. pose proof (dy_nd _ _ Hok). destruct (st_counts _ Hst). unfold loaded_max. case_match; lia. Qed.

(** The loaded index before its frozen point is moved to the end. *)
Record assembled (m' : Z) (a : mem_index) : Prop := {
  as_graph : final_graph a = kept_lists ++ replicate (Z.to_nat (m' + 1) - points) [];
  as_rows : length (mdata a) = Z.to_nat (m' + 1) /\ take points (mdata a) = pad aligned_dim <$> kept_rows;
  as_counts : max_points a = m' /\ num_frozen_pts a = 1 /\ ep a = nd ix;
  as_flags : dynamic_index a = true /\ enable_tags a = true /\ eager_done a = false /\ data_compacted a = true;
  as_tags : tag_to_location a = tag_to_location ix /\ location_to_tag a = location_to_tag ix /\ delete_set a = delete_set ix;
}.

(** The loaded index: the frozen point, at [max_points ix] in [ix], is at
    [max_points ix'] in [ix']. *)
Record reloaded (m : Z) (ix' : mem_index) : Prop := {
  rl_nd : nd ix' = nd ix;
  rl_max : max_points ix' = loaded_max m;
  rl_tags : tag_to_location ix' = tag_to_location ix /\ location_to_tag ix' = location_to_tag ix /\ delete_set ix' = delete_set ix;
  rl_lists : forall i l, live ix i -> list_of ix i = Ok l ->
    list_of ix' (if decide (i = max_points ix) then max_points ix' else i) = Ok (renamed (max_points ix) (max_points ix') l);
  rl_rows : forall i, live ix i -> row ix' (if decide (i = max_points ix) then max_points ix' else i) = pad aligned_dim (take dim (row ix i));
}.

(** The state that the invariant speaks about. *)
Record settled (m' : Z) (ix' : mem_index) : Prop := {
  se_lengths : length (final_graph ix') = Z.to_nat (m' + 1) /\ length (mdata ix') = Z.to_nat (m' + 1);
  se_counts : num_frozen_pts ix' = 1 /\ ep ix' = m';
  se_flags : dynamic_index ix' = true /\ enable_tags ix' = true /\ eager_done ix' = false /\ data_compacted ix' = true;
  se_bare : forall i, nd ix <= i < m' -> list_of ix' i = Ok [];
  se_slots : empty_slots ix' = free_slots ix' /\ lazy_done ix' = negb (bool_decide (size (delete_set ix') = 0%nat));
}.

Lemma live_cases m ix' i' : reloaded m ix' -> live ix' i' -> exists i l, live ix i /\ list_of ix i = Ok l /\
  i' = (if decide (i = max_points ix) then max_points ix' else i) /\ list_of ix' i' = Ok (renamed (max_points ix) (max_points ix') l).
Proof.
  intros Hr Hi. pose proof (dy_nd _ _ Hok). pose proof (dy_frozen _ _ Hok). unfold live in Hi. rewrite (rl_nd _ _ Hr) in Hi.
  assert (exists i, live ix i /\ i' = (if decide (i = max_points ix) then max_points ix' else i)) as (i & Hl & Ei).
  { destruct Hi as [Hi| ->]; [exists i'; split; [by left|]; by rewrite decide_False by lia|]. exists (max_points ix).
    split; [by right|]. by rewrite decide_True. }
  destruct (list_of_known ix (lk_ok _ _ (dy_linked _ _ Hok)) i) as (l & El & _); [unfold in_index, total_points; destruct Hl; lia|].
  exists i, l. split_and!; try done. rewrite Ei. by apply (rl_lists _ _ Hr).
Qed.

(** Renamed lists stay good. *)
Lemma renamed_live m' i l : live ix i -> list_of ix i = Ok l -> nd ix <= m' ->
  let i' := if decide (i = max_points ix) then m' else i in
  NoDup (renamed (max_points ix) m' l) /\ i' ∉ renamed (max_points ix) m' l /\ (length (renamed (max_points ix) m' l) <= SLACK range)%nat /\
  Forall (fun j => 0 <= j < nd ix \/ j = m') (renamed (max_points ix) m' l).
Proof.
  intros Hi El Hm i'. pose proof (dy_nd _ _ Hok). pose proof (dy_frozen _ _ Hok).
  assert (in_index ix i) as Hin by (unfold in_index, total_points; destruct Hi; lia).
  destruct (linked_list range ix i l (dy_linked _ _ Hok) Hin El) as (H1 & H2 & H3 & _).
  pose proof (within_list _ _ i _ (dy_live _ _ Hok) ltac:(destruct Hi; lia) Hi El) as Hl. rewrite Forall_forall in Hl.
  assert (Hm' : m' ∈ l -> m' = max_points ix) by (intros Hj%Hl; destruct Hj; lia). split_and!.
  - destruct (decide (m' = max_points ix)) as [->|]; [by rewrite renamed_same|]. apply renamed_nodup; [|done]. intros ?%Hm'. done.
  - rewrite elem_of_renamed. unfold i'. case_decide as Ei.
    + intros [[Hj Hne]|[Hj _]]; [by apply Hm' in Hj | by rewrite <- Ei in Hj].
    + intros [[Hj _]|[Hj E]]; [done|]. destruct Hi; lia.
  - unfold renamed. by rewrite length_fmap.
  - apply Forall_forall. intros j [[Hj Hne]|[_ ->]]%elem_of_renamed; [|by right]. destruct (Hl j Hj); [by left | done].
Qed.

Lemma reloaded_ok m ix' : 0 < m < 2 ^ 32 - 2 -> reloaded m ix' -> settled (loaded_max m) ix' -> dyn_ok range ix'.
Proof.
  intros Hm Hr Hs. pose proof (rl_max _ _ Hr) as Em. rewrite <- Em in Hs. pose proof (rl_nd _ _ Hr) as En. pose proof (dy_nd _ _ Hok).
  destruct (st_counts _ Hst) as (Hn31 & _). destruct (se_counts _ _ Hs) as [Ef Ee]. destruct (se_lengths _ _ Hs) as [Hlg Hlm].
  destruct (rl_tags _ _ Hr) as (Et & El & Ed). destruct (se_slots _ _ Hs) as [Es Ez].
  pose proof (loaded_max_bounds m Hm) as [Hmx Hnm]. rewrite <- Em in Hmx, Hnm.
  assert (Hlive : forall i l, live ix' i -> list_of ix' i = Ok l -> NoDup l /\ i ∉ l /\ (length l <= SLACK range)%nat /\ Forall (live ix') l).
  { intros i' l' Hi' El'. destruct (live_cases m ix' i' Hr Hi') as (i & l & Hi & Eli & -> & E2). rewrite E2 in El'. injection El' as <-.
    destruct (renamed_live (max_points ix') i l Hi Eli Hnm) as (? & ? & ? & Hf). split_and!; try done.
    eapply Forall_impl; [exact Hf|]. intros j. unfold live. by rewrite En. }
  assert (linked range ix') as Hlk.
  { apply linked_intro; [lia | unfold total_points; lia|]. intros i l Hi Eli. unfold in_index, total_points in Hi.
    destruct (decide (nd ix <= i < max_points ix')) as [Hf|Hf].
    - rewrite (se_bare _ _ Hs) in Eli by done. injection Eli as <-. apply good_nil.
    - destruct (Hlive i l) as (? & ? & ? & Hf'); [unfold live; lia | done|]. split_and!; try done. eapply Forall_impl; [exact Hf'|].
      intros j. unfold live, in_index, total_points. lia. }
  split; rewrite ?Et, ?El, ?Ed, ?En, ?Es; try done.
  - unfold total_points. lia.
  - apply (se_flags _ _ Hs).
  - lia.
  - apply (dy_tags _ _ Hok).
  - apply (dy_slots _ _ Hok).
  - apply (dy_disj _ _ Hok).
  - apply within_intro; [unfold live; lia|]. intros i l Hi Eli. by destruct (Hlive i l Hi Eli) as (_ & _ & _ & ?).
  - intros i Hi. by apply (se_bare _ _ Hs).
  - intros Hne. rewrite Ez, Ed. rewrite bool_decide_false; [done|]. by intros ?%size_empty_inv%leibniz_equiv.
Qed.

(** The loaded index with its frozen point still behind the points. *)
Record placed (m' : Z) (b : mem_index) : Prop := {
  pl_counts : nd b = nd ix /\ max_points b = m' /\ num_frozen_pts b = 1 /\ ep b = nd ix;
  pl_flags : dynamic_index b = true /\ enable_tags b = true /\ eager_done b = false /\ data_compacted b = true;
  pl_tags : tag_to_location b = tag_to_location ix /\ location_to_tag b = location_to_tag ix /\ delete_set b = delete_set ix;
  pl_slots : empty_slots b = free_slots b /\ lazy_done b = negb (bool_decide (size (delete_set b) = 0%nat));
  pl_lengths : length (final_graph b) = Z.to_nat (m' + 1) /\ length (mdata b) = Z.to_nat (m' + 1);
  pl_lists : forall i l, live ix i -> list_of ix i = Ok l ->
    list_of b (if decide (i = max_points ix) then nd ix else i) = Ok (renamed (max_points ix) (nd ix) l);
  pl_rows : forall i, live ix i -> row b (if decide (i = max_points ix) then nd ix else i) = pad aligned_dim (take dim (row ix i));
  pl_bare : forall i, nd ix < i <= m' -> list_of b i = Ok [];
}.

Lemma assembled_placed m' a b : assembled m' a -> nd ix <= m' ->
  b = with_slots (nd ix) (delete_set a) (list_to_set (seqZ (nd ix) (max_points a - nd ix))) (negb (bool_decide (size (delete_set a) = 0%nat))) (eager_done a) (data_compacted a) a -> placed m' b.
Proof.
  intros Ha Hm ->. destruct packed_counts as (Hn & _). destruct kept_lists_ok as (_ & Hl & _). pose proof (dy_nd _ _ Hok).
  destruct (as_counts _ _ Ha) as (Em & Ef & Ee). pose proof (as_flags _ _ Ha). pose proof (as_tags _ _ Ha). split; try done.
  - cbn [final_graph mdata with_slots]. rewrite (as_graph _ _ Ha), length_app, length_replicate. split; [lia | apply (as_rows _ _ Ha)].
  - intros i l Hi El. apply list_of_Some. cbn [final_graph with_slots]. rewrite (as_graph _ _ Ha), lookup_app_l; [by apply kept_list|].
    rewrite Hl. case_decide; [lia|]. destruct Hi; lia.
  - intros i Hi. destruct (as_rows _ _ Ha) as [Hla Er]. destruct (kept_row i Hi) as [E _]. unfold row at 1.
    set (k := Z.to_nat (if decide (i = max_points ix) then nd ix else i)) in *.
    assert (k < points)%nat by (unfold k; case_decide; [lia | destruct Hi; lia]).
    apply list_lookup_total_correct. cbn [mdata with_slots]. rewrite <- (lookup_take_lt _ points) by done. by rewrite Er, list_lookup_fmap, E.
  - intros i Hi. apply list_of_Some. cbn [final_graph with_slots]. rewrite (as_graph _ _ Ha), lookup_app_r by lia. apply lookup_replicate_2. lia.
Qed.

(** The renamed list of a point, renamed once more. *)
Lemma renamed_twice i l m' : live ix i -> list_of ix i = Ok l ->
  renamed (nd ix) m' (renamed (max_points ix) (nd ix) l) = renamed (max_points ix) m' l.
Proof.
  intros Hi Hl. apply renamed_renamed. destruct (decide (nd ix = max_points ix)); [by right|]. left. intros Hin. pose proof (dy_nd _ _ Hok).
  pose proof (within_list _ _ i _ (dy_live _ _ Hok) ltac:(destruct Hi; lia) Hi Hl) as Hall. rewrite Forall_forall in Hall.
  destruct (Hall _ Hin); lia.
Qed.

Lemma placed_full m b : placed (loaded_max m) b -> nd ix = loaded_max m -> reloaded m b /\ settled (loaded_max m) b.
Proof.
  intros Hb E. destruct (pl_counts _ _ Hb) as (Bn & Bm & Bf & Be). rewrite <- E in *. split.
  - split; rewrite ?Bm, ?Bn; try done; [apply (pl_tags _ _ Hb) | apply (pl_lists _ _ Hb) | apply (pl_rows _ _ Hb)].
  - split; [apply (pl_lengths _ _ Hb) | done | apply (pl_flags _ _ Hb) | lia | apply (pl_slots _ _ Hb)].
Qed.

Lemma placed_moved m b c l : placed (loaded_max m) b -> list_of ix (max_points ix) = Ok l -> nd ix < loaded_max m ->
  moved (nd ix) (loaded_max m) (renamed (max_points ix) (nd ix) l) b c ->
  let ix' := with_points (loaded_max m) (loaded_max m) c in reloaded m ix' /\ settled (loaded_max m) ix'.
Proof.
  intros Hb Eli Hlt Hc ix'. pose proof (dy_nd _ _ Hok). destruct (pl_counts _ _ Hb) as (Bn & Bm & Bf & _).
  pose proof (mv_frame _ _ _ _ _ Hc) as Fr. pose proof (mv_length _ _ _ _ _ Hc). pose proof (mv_rows_length _ _ _ _ _ Hc).
  destruct (pl_tags _ _ Hb) as (Bt & Bl & Bd). pose proof (pl_flags _ _ Hb). destruct (pl_slots _ _ Hb) as [Bs Bz]. destruct (pl_lengths _ _ Hb).
  assert (Hlist : forall i, list_of ix' i = list_of c i) by done. assert (Hrow : forall i, row ix' i = row c i) by done.
  assert (nd c = nd ix /\ tag_to_location c = tag_to_location ix /\ location_to_tag c = location_to_tag ix /\ delete_set c = delete_set ix /\
    num_frozen_pts c = 1 /\ empty_slots c = free_slots b /\ lazy_done c = negb (bool_decide (size (delete_set ix) = 0%nat))) as (Cn & Ct & Cl & Cd & Cf & Cs & Cz)
    by (rewrite Fr; cbn; rewrite Bt, Bl, Bd, Bf, Bn, Bs, Bz, Bd; done).
  split.
  - split; unfold ix'; cbn [nd max_points tag_to_location location_to_tag delete_set with_points]; fold ix'; [done..| |].
    + intros i li Hi Hli. rewrite Hlist. pose proof (pl_lists _ _ Hb i li Hi Hli) as E0. case_decide as Ei.
      * rewrite (proj1 (mv_new _ _ _ _ _ Hc)). subst i. rewrite Eli in Hli. injection Hli as ->.
        rewrite !renamed_absent; [done|..]; apply (linked_list range ix (max_points ix) li (dy_linked _ _ Hok)); try done; unfold in_index, total_points; rewrite (dy_frozen _ _ Hok); lia.
      * destruct Hi as [Hi|]; [|done]. rewrite (mv_low _ _ _ _ _ Hc i _ Hi E0). f_equal. apply (renamed_twice i); [by left | done].
    + intros i Hi. rewrite Hrow. pose proof (pl_rows _ _ Hb i Hi) as E0. case_decide as Ei.
      * by rewrite (proj2 (mv_new _ _ _ _ _ Hc)).
      * destruct Hi as [Hi|]; [|done]. by rewrite (mv_rows _ _ _ _ _ Hc) by lia.
  - split; unfold ix'; cbn [nd max_points final_graph mdata num_frozen_pts ep with_points dynamic_index enable_tags eager_done data_compacted]; fold ix'.
    + split; congruence.
    + done.
    + by rewrite Fr.
    + intros i Hi. rewrite Hlist. destruct (decide (i = nd ix)) as [->|]; [apply (mv_old _ _ _ _ _ Hc)|].
      rewrite (mv_high _ _ _ _ _ Hc) by lia. apply (pl_bare _ _ Hb). lia.
    + split; unfold free_slots, ix'; cbn [nd max_points empty_slots lazy_done delete_set with_points].
      * rewrite Cs, Cn. unfold free_slots. by rewrite Bn, Bm.
      * by rewrite Cz, Cd.
Qed.

Lemma finish_load_spec m a : 0 < m < 2 ^ 32 - 2 -> assembled (loaded_max m) a ->
  exists ix', finish_load aligned_dim (Z.of_nat points) (Z.of_nat points) (Z.of_nat points) a = Ok ix' /\
    reloaded m ix' /\ settled (loaded_max m) ix'.
Proof.
  intros Hm Ha. destruct packed_counts as (Hn & _). destruct (st_counts _ Hst) as (Hn31 & _). pose proof (dy_nd _ _ Hok).
  destruct (as_counts _ _ Ha) as (Em & Ef & Ee).
  pose proof (loaded_max_bounds m Hm) as Hnm.
  unfold finish_load. rewrite Z.eqb_refl. cbn [negb orb andb]. rewrite Ef, Hn, u64_small by lia. replace (nd ix + 1 - 1) with (nd ix) by lia. cbv zeta.
  set (b := with_slots (nd ix) (delete_set _) (free_slots _) _ _ _ _).
  assert (placed (loaded_max m) b) as Hb by (apply (assembled_placed _ a); done || lia). clearbody b.
  destruct (pl_counts _ _ Hb) as (Bn & Bm & Bf & _). destruct (pl_lengths _ _ Hb). unfold reposition_frozen_point_to_end. rewrite Bf. cbn [Z.eqb orb].
  destruct (Z.eqb_spec (nd b) (max_points b)) as [E|Hne]; [exists b; split; [done|]; apply placed_full; [done | lia]|].
  destruct (list_of_known ix (lk_ok _ _ (dy_linked _ _ Hok)) (max_points ix)) as (l & Eli & _); [unfold in_index, total_points; rewrite (dy_frozen _ _ Hok); lia|].
  pose proof (pl_lists _ _ Hb (max_points ix) l ltac:(by right) Eli) as E0. rewrite decide_True in E0 by done.
  destruct (reposition_nd aligned_dim (max_points b) b (renamed (max_points ix) (nd ix) l)) as (c & Ec & Hc); [lia..|by rewrite Bn|].
  rewrite Ec. cbn [mbind outcome_bind]. assert (max_points c = loaded_max m) as -> by (by rewrite (mv_frame _ _ _ _ _ Hc)).
  rewrite Bn, Bm in Hc. rewrite u32_small by lia. eexists. split; [reflexivity|]. apply (placed_moved m b c l); done || lia.
Qed.

(** Loading from the three parts. *)
Lemma load_rows_part d od m ix0 : bin_at d od (Z.of_nat points) (Z.of_nat dim) rows_bytes -> blank m ix0 -> 0 < m < 2 ^ 32 - 2 ->
  exists a, load_data sizeT dim aligned_dim (Some d) od ix0 = Ok (Z.of_nat points, a) /\ blank (loaded_max m) a /\
    take points (mdata a) = pad aligned_dim <$> kept_rows.
Proof.
  intros Hd Hb Hm. destruct kept_rows_ok as (Hrows & Hl & _). destruct packed_counts as (Hn & _). destruct (st_counts _ Hst) as (Hn31 & Hd31 & _).
  pose proof (dy_nd _ _ Hok). pose proof (load_data_at sizeT dim aligned_dim m d od kept_rows ix0) as H1. rewrite Hl in H1. cbv zeta in H1.
  assert ((if m + 1 <? Z.of_nat points then Z.of_nat points else m) = loaded_max m) as Em by (unfold loaded_max; repeat case_match; lia).
  rewrite Em in H1. apply H1; done || lia.
Qed.

Lemma load_graph_part g og a m' : graph_at g og (max_degree kept_lists) (nd ix) 1 kept_lists ->
  max_points a = m' -> num_frozen_pts a = 1 -> final_graph a = replicate (Z.to_nat (m' + 1)) [] -> nd ix <= m' < 2 ^ 32 - 1 ->
  load_graph g (Z.of_nat points) og a = Ok (Z.of_nat points,
    with_points m' (nd ix) (with_graph (kept_lists ++ replicate (Z.to_nat (m' + 1) - points) []) (max_degree kept_lists) a)).
Proof.
  intros Hg Em Ef Eg Hm. destruct kept_lists_ok as (Hls & Hl & _). destruct packed_counts as (Hn & _). pose proof (dy_nd _ _ Hok).
  destruct part_sizes as (EG & HG0 & _ & _ & Hb). destruct (max_degree_spec kept_lists Hls) as [Hmd _]. destruct (st_counts _ Hst).
  rewrite (load_graph_at g (Z.of_nat points) og (max_degree kept_lists) (nd ix) kept_lists a); rewrite ?Ef, ?Eg, ?length_replicate; try done; try lia.
  by rewrite Hl, Em, drop_replicate.
Qed.

Lemma load_tags_part t ot a : bin_at t ot (Z.of_nat points) 1 tags_bytes -> tag_to_location a = ∅ -> location_to_tag a = ∅ ->
  delete_set a = delete_set ix -> enable_tags a = true -> num_frozen_pts a = 1 ->
  load_tags sizeTag (Some t) ot a = Ok (Z.of_nat points, with_tags (tag_to_location ix) (location_to_tag ix) a).
Proof.
  intros Ht E1 E2 Ed He Ef. destruct packed_counts as (Hn & _). pose proof (dy_nd _ _ Hok). destruct (st_counts _ Hst).
  destruct part_sizes as (_ & HG0 & _ & Et & Hb). unfold points in *.
  assert (forall l, 0 <= l < nd ix <-> is_Some (location_to_tag ix !! l) \/ l ∈ delete_set ix) as Hs by apply (dy_slots _ _ Hok).
  apply load_tags_at; rewrite ?Ed; try done; try lia.
  - apply (dy_tags _ _ Hok).
  - intros l Hl. assert (0 <= l < nd ix) by (apply Hs; by left). lia.
  - intros l Hl. split; [apply (dy_disj _ _ Hok)|]. intros E. destruct (proj1 (Hs l) ltac:(lia)) as [[? ?]|]; [congruence | done].
  - apply (st_tags _ Hst).
Qed.

Lemma load_dels_part f o a : dels_at f o -> delete_set a = ∅ ->
  load_delete_set f o a = Ok (with_slots (nd a) (delete_set ix) (empty_slots a) (lazy_done a) (eager_done a) (data_compacted a) a).
Proof.
  intros Hf Ea. destruct dels_ok as (_ & Hids & Hb & Es). destruct (st_counts _ Hst). rewrite (load_delete_at f o dels a) by (done || lia).
  by rewrite Ea, Es, (right_id_L ∅ (∪)).
Qed.

Definition result_ok (m : Z) (r : outcome mem_index) : Prop := exists ix', r = Ok ix' /\ reloaded m ix' /\ dyn_ok range ix'.

Lemma finish_ok m a : 0 < m < 2 ^ 32 - 2 -> assembled (loaded_max m) a ->
  result_ok m (finish_load aligned_dim (Z.of_nat points) (Z.of_nat points) (Z.of_nat points) a).
Proof. intros Hm Ha. destruct (finish_load_spec m a Hm Ha) as (ix' & E & Hr & Hs). exists ix'. split_and!; [done..|]. by apply (reloaded_ok m). Qed.

Lemma load_files_ok files d t m ix0 : image (graph_file files) d t 0 0 0 -> data_file files = Some d -> tags_file files = Some t ->
  (if decide (delete_set ix = ∅) then del_file files = None else exists f, del_file files = Some f /\ dels_at f 0) ->
  blank m ix0 -> 0 < m < 2 ^ 32 - 2 -> result_ok m (load_files sizeT sizeTag dim aligned_dim files ix0).
Proof.
  intros [Hg Hd Ht] Ed Et Hdel Hb Hm. destruct (load_rows_part d 0 m ix0 Hd Hb Hm) as (a & Ea & Hba & Hrows).
  destruct Hba as [Ag Ar (An & Am & Af) Afl (At1 & At2 & At3)].
  pose proof (loaded_max_bounds m Hm) as [Hmx Hnm].
  unfold load_files. rewrite Ed, Et, Ea. cbn [mbind outcome_bind].
  assert (exists a1, match del_file files with Some f => load_delete_set f 0 a | None => Ok a end = Ok a1 /\
    exists emp, a1 = with_slots (nd a) (delete_set ix) emp (lazy_done a) (eager_done a) (data_compacted a) a) as (a1 & -> & emp & ->).
  { case_decide as E.
    - rewrite Hdel. exists a. split; [done|]. exists (empty_slots a). rewrite E, <- At3. by destruct a.
    - destruct Hdel as (f & -> & Hf). rewrite (load_dels_part f 0 a Hf At3). eexists. split; [done|]. by eexists. }
  cbn [mbind outcome_bind]. rewrite (load_tags_part t 0) by (done || apply Afl). cbn [mbind outcome_bind].
  rewrite (load_graph_part _ 0 _ (loaded_max m)) by (done || lia). cbn [mbind outcome_bind].
  apply finish_ok; [done|]. by split.
Qed.

Lemma load_one_file_ok f cs m ix0 : length cs = 5%nat -> load_bin 8 f 0 = (5, 1, table cs) ->
  (forall k c, cs !! k = Some c -> read_u64 (bytes_at (table cs)) (8 * Z.of_nat k) = c) ->
  image f f f (Z.to_nat (cs !!! 0%nat)) (Z.to_nat (cs !!! 1%nat)) (Z.to_nat (cs !!! 2%nat)) ->
  (if decide (delete_set ix = ∅) then cs !!! 3%nat = cs !!! 4%nat else cs !!! 3%nat <> cs !!! 4%nat /\ dels_at f (Z.to_nat (cs !!! 3%nat))) ->
  blank m ix0 -> 0 < m < 2 ^ 32 - 2 -> result_ok m (load_one_file sizeT sizeTag dim aligned_dim f ix0).
Proof.
  intros Hl5 Et Hc [Hg Hd Ht] Hdel Hb Hm. destruct (load_rows_part _ _ m ix0 Hd Hb Hm) as (a & Ea & Hba & Hrows).
  destruct Hba as [Ag Ar (An & Am & Af) Afl (At1 & At2 & At3)].
  pose proof (loaded_max_bounds m Hm) as [Hmx Hnm].
  unfold load_one_file. rewrite Et.
  assert (Hc' : forall (k : Z) (i : nat), k = Z.of_nat i -> (i < 5)%nat -> read_u64 (bytes_at (table cs)) (8 * k) = cs !!! i).
  { intros k i -> Hi. destruct (lookup_lt_is_Some_2 cs i) as [c Ec]; [lia|]. by rewrite (Hc _ _ Ec), (list_lookup_total_correct _ _ _ Ec). }
  rewrite (Hc' 0 0%nat), (Hc' 1 1%nat), (Hc' 2 2%nat), (Hc' 3 3%nat), (Hc' 4 4%nat) by lia. rewrite Ea. cbn [mbind outcome_bind].
  rewrite (load_graph_part f _ a (loaded_max m) Hg) by (done || lia). cbn [mbind outcome_bind].
  set (a1 := with_points _ _ _).
  assert (exists emp, (if negb (cs !!! 3%nat =? cs !!! 4%nat) then load_delete_set f (Z.to_nat (cs !!! 3%nat)) a1 else Ok a1) =
    Ok (with_slots (nd a) (delete_set ix) emp (lazy_done a) (eager_done a) (data_compacted a) a1)) as (emp & ->).
  { case_decide as E.
    - rewrite Hdel, Z.eqb_refl. exists (empty_slots a). rewrite E, <- At3. by destruct a.
    - destruct Hdel as [Hne Hf]. apply Z.eqb_neq in Hne. rewrite Hne. cbn [negb]. rewrite (load_dels_part f _ a1 Hf At3). by eexists. }
  cbn [mbind outcome_bind]. rewrite (load_tags_part f) by (done || apply Afl). cbn [mbind outcome_bind].
  apply finish_ok; [done|]. by split.
Qed.
End contents.
End saved.

#[global] Arguments reloaded : clear implicits.

(** Saving leaves the index as it was; only what stands behind the [dim] words of
    the frozen vector may be different. *)
Definition unchanged (dim : nat) (ix ix1 : mem_index) : Prop :=
  ix1 = with_data (mdata ix1) ix /\ forall i, live ix i -> take dim (row ix1 i) = take dim (row ix i).

Lemma new_index_any m tags : 0 <= m -> blank (Z.max 1 m) (new_index m true tags).
Proof.
  intros Hm. destruct (decide (m = 0)) as [->|]; [by apply (new_index_blank 1)|].
  replace (Z.max 1 m) with m by lia. apply new_index_blank. lia.
Qed.

(** C25. Round trip of the in-memory index.  A dynamic index that is well formed,
    and whose frozen point has neighbours unless every slot is taken, is saved
    in files of its own or in one file; saving keeps the lists, the maps and
    the numbers of the index and the first [dim] words of every live row; the
    words behind them pad the row to the aligned dimension, and those of the
    frozen point can change.  What [load] makes
    of the files in a new index, for any number of points announced to the
    constructor (zero included), is well formed again: it has the same points,
    tags and deleted slots, the same coordinates with zeros behind them, and the
    same lists with the frozen point under its new number. *)
Theorem save_load_correct range sizeT sizeTag dim aligned_dim set_order ix m :
  (forall s, set_order s ≡ₚ elements s) -> dyn_ok range ix -> storable range sizeT sizeTag dim ix -> 0 <= m < 2 ^ 32 - 2 ->
  let reads r := exists ix', r = Ok ix' /\ reloaded dim aligned_dim ix (Z.max 1 m) ix' /\ dyn_ok range ix' in
  (exists files ix1, save dim aligned_dim (save_files sizeT sizeTag dim set_order) ix = Ok (files, ix1) /\ unchanged dim ix ix1 /\
     reads (load_files sizeT sizeTag dim aligned_dim files (new_index m true true))) /\
  (exists f ix1, save dim aligned_dim (save_one_file sizeT sizeTag dim set_order) ix = Ok (f, ix1) /\ unchanged dim ix ix1 /\
     reads (load_one_file sizeT sizeTag dim aligned_dim f (new_index m true true))).
Proof.
  intros Hso Hok Hst Hm reads. destruct (compact_frozen_point_spec range sizeT sizeTag dim aligned_dim ix Hok Hst) as (ixc & Ec & Hp).
  destruct (reposition_packed range sizeT sizeTag dim aligned_dim ix ixc Hok Hst Hp) as (ix1 & E1 & Fr & _ & Hrows).
  assert (unchanged dim ix ix1) as Hun by (split; [done | intros i Hi; by apply Hrows]).
  pose proof (new_index_any m true ltac:(lia)) as Hb. unfold save. rewrite Ec. cbn [mbind outcome_bind]. split.
  - destruct (save_files_image range sizeT sizeTag dim ix ixc Hok Hst Hp set_order Hso) as (files & d & t & Es & Him & Ed & Et & Hdel).
    exists files, ix1. rewrite Es. cbn [mbind outcome_bind]. rewrite E1. split_and!; [done..|].
    apply (load_files_ok range sizeT sizeTag dim aligned_dim ix ixc Hok Hst Hp set_order Hso files d t); done || lia.
  - destruct (save_one_file_image range sizeT sizeTag dim ix ixc Hok Hst Hp set_order Hso) as (f & cs & Es & Hl & Ht & Hc & Him & Hdel).
    exists f, ix1. rewrite Es. cbn [mbind outcome_bind]. rewrite E1. split_and!; [done..|].
    apply (load_one_file_ok range sizeT sizeTag dim aligned_dim ix ixc Hok Hst Hp set_order Hso f cs); done || lia.
Qed.

(** Three slots, the first deleted, the second in use, and the frozen point. *)
Definition stored_index : mem_index := {|
  final_graph := [[3]; [3; 0]; []; [0; 1]]; mdata := [[258; 7]; [3; 4]; []; [300; 5]]; nd := 2; max_points := 3; num_frozen_pts := 1;
  width := 0; ep := 3; dynamic_index := true; enable_tags := true; saturate_graph := false;
  tag_to_location := {[43 := 1]}; location_to_tag := {[1 := 43]}; delete_set := {[0]}; empty_slots := {[2]};
  lazy_done := true; eager_done := false; data_compacted := true |}.

Lemma stored_index_lists (P : Z -> list Z -> Prop) : P 0 [3] -> P 1 [3; 0] -> P 2 [] -> P 3 [0; 1] ->
  forall i l, in_index stored_index i -> list_of stored_index i = Ok l -> P i l.
Proof.
  intros H0 H1 H2 H3 i l Hi Hl. unfold in_index, total_points in Hi. cbn in Hi.
  assert (i = 0 \/ i = 1 \/ i = 2 \/ i = 3) as [-> | [-> | [-> | ->]]] by lia; cbn in Hl; by injection Hl as <-.
Qed.

Lemma stored_index_ok : dyn_ok 2 stored_index.
Proof.
  assert (linked 2 stored_index) as Hlk.
  { apply linked_intro; [done..|]. apply (stored_index_lists (good_list 2 stored_index)).
    all: split_and!; [by apply (bool_decide_unpack _); vm_compute..|].
    all: apply Forall_forall; intros j Hj; unfold in_index, total_points; cbn; set_solver by lia. }
  split; try done.
  - intros t l. cbn. rewrite !lookup_singleton_Some. naive_solver.
  - intros l. cbn. rewrite elem_of_singleton. unfold is_Some. setoid_rewrite lookup_singleton_Some. split; [|intros [[t [<- _]]| ->]; lia].
    intros Hl. destruct (decide (l = 1)) as [->|]; [left; by eexists | right; lia].
  - intros l. cbn. rewrite elem_of_singleton. by intros ->.
  - apply within_intro; [unfold live; cbn; lia|]. intros i l Hi Hl. assert (in_index stored_index i) as Hin by (unfold live in Hi; unfold in_index, total_points; cbn in *; lia).
    revert i l Hin Hl Hi. apply (stored_index_lists (fun i l => live stored_index i -> Forall (live stored_index) l)); intros _; repeat constructor; unfold live; cbn; lia.
  - intros i Hi. cbn in Hi. by replace i with 2 by lia.
Qed.

Lemma stored_index_storable : storable 2 2 1 2 stored_index.
Proof.
  split; try done; try (by cbn; lia).
  - intros i Hi. unfold live in Hi. cbn in Hi. assert (i = 0 \/ i = 1 \/ i = 3) as [-> | [-> | ->]] by lia; (split; [by apply (bool_decide_unpack _); vm_compute|]).
    + change (Forall (word 2) [258; 7]). repeat (constructor; [by split|]). constructor.
    + change (Forall (word 2) [3; 4]). repeat (constructor; [by split|]). constructor.
    + change (Forall (word 2) [300; 5]). repeat (constructor; [by split|]). constructor.
  - intros l t. cbn. rewrite lookup_singleton_Some. by intros [<- <-].
Qed.

Lemma save_load_witness : 
  let reads r := exists ix', r = Ok ix' /\ reloaded 2 8 stored_index (Z.max 1 0) ix' /\ dyn_ok 2 ix' in
  (exists files ix1, save 2 8 (save_files 2 1 2 elements) stored_index = Ok (files, ix1) /\ unchanged 2 stored_index ix1 /\
     reads (load_files 2 1 2 8 files (new_index 0 true true))) /\
  (exists f ix1, save 2 8 (save_one_file 2 1 2 elements) stored_index = Ok (f, ix1) /\ unchanged 2 stored_index ix1 /\
     reads (load_one_file 2 1 2 8 f (new_index 0 true true))).
Proof. apply (save_load_correct 2 2 1 2 8 elements stored_index 0); [done | apply stored_index_ok | apply stored_index_storable | lia]. Defined.

(** The bytes of the four files. *)
Example stored_files : exists ix1, save 2 8 (save_files 2 1 2 elements) stored_index = Ok ({|
    graph_file := le64 56 ++ le32 2 ++ le32 2 ++ le64 1 ++ ([1; 2; 2; 2; 0; 2; 0; 1] ≫= le32);
    data_file := Some (le32 3 ++ le32 2 ++ [2; 1; 7; 0; 3; 0; 4; 0; 44; 1; 5; 0]);
    tags_file := Some (le32 3 ++ le32 1 ++ [0; 43; 0]);
    del_file := Some (le32 1 ++ le32 1 ++ le32 0) |}, ix1).
Proof. eexists. by vm_compute. Qed.

(** An index without a point, whose frozen point has a vector but no list: the
    save loses the vector. *)
Example save_forgets_start : exists files ix1,
  save 1 8 (save_files 2 1 1 elements) (empty_index 2) = Ok (files, ix1) /\
  row (empty_index 2) (max_points (empty_index 2)) = [25] /\ row ix1 (max_points ix1) = [] /\
  data_file files = Some (le32 1 ++ le32 1 ++ [0; 0]).
Proof. eexists _, _. split; [by vm_compute|]. by split_and!. Qed.
