(* ===== verification/MemPipeline.v ===== *)
(** * From the vectors to the stored graph

    [build] of [src/index.cpp], in its two forms, and the way of a file of
    vectors to a graph file that [build_disk_index] of [src/utils/aux_utils.cpp]
    takes when the vectors fit in memory: build, save, lay out. *)
From S2P Require Import Prelude Layout Node Neighbor CandidatePool Float32 Prune MemIndex MemBuild MemUpdate Files CachedIO DiskLayout MemFiles.

Section build.
Context {F : Type} `{!FloatOps F}.
Context (compare : list Z -> list Z -> F) (alpha : F) (range maxc Lsize sfuel pfuel : nat).
Context (sizeT sizeTag dim aligned_dim : nat).
(** The distance of row [i] from the centroid of the rows. *)
Context (centre_dist : list (list Z) -> Z -> F).
(** [saturate_graph], and the orders in which the parallel loops visit the points. *)
Context (saturate : bool) (order_ep order order' : list Z).

Definition points_dist (ix : mem_index) : Z -> F := centre_dist (take (Z.to_nat (nd ix)) (mdata ix)).

(** The frozen point is a copy of the entry point. *)
Definition generate_frozen_point (ix : mem_index) : outcome mem_index :=
  if num_frozen_pts ix =? 0 then Ok ix
  else if nd ix =? 0 then set_row (max_points ix) (replicate aligned_dim 0) ix
  else set_row (max_points ix) (row ix (calculate_entry_point (points_dist ix) order_ep)) ix.

Definition set_nd (n : Z) (ix : mem_index) : mem_index :=
  with_slots n (delete_set ix) (empty_slots ix) (lazy_done ix) (eager_done ix) (data_compacted ix) ix.

(** The checks of the file and the copy of its vectors. *)
Definition load_points (file : option (list Z)) (num_points_to_load : Z) (ix : mem_index) : outcome mem_index :=
  match file with
  | None => Crash
  | Some f =>
      let '(file_num_points, file_dim) := get_bin_metadata f 0 in
      if (max_points ix <? file_num_points) || (file_num_points <? num_points_to_load) then Crash
      else if negb (file_dim =? Z.of_nat dim) then Crash
      else ix ← copy_aligned_data sizeT aligned_dim f 0 ix; Ok (set_nd num_points_to_load ix)
  end.

Definition put_tag (t : Z * Z) (ix : mem_index) : mem_index :=
  with_tags (<[t.2 := t.1]> (tag_to_location ix)) (<[t.1 := t.2]> (location_to_tag ix)) ix.

Definition put_tags (tags : list Z) (ix : mem_index) : mem_index :=
  foldl (fun ix t => put_tag t ix) ix (zip (seqZ 0 (Z.of_nat (length tags))) tags).

(** The graph, and its largest degree. *)
Definition finish_build (ix : mem_index) : outcome mem_index :=
  ix ← generate_frozen_point ix;
  ix ← link compare alpha range maxc Lsize sfuel pfuel (points_dist ix) saturate order_ep order order' ix;
  let mx := foldl (fun m (l : list Z) => Z.max m (Z.of_nat (length l))) 0 (take (Z.to_nat (nd ix)) (final_graph ix)) in
  Ok (with_graph (final_graph ix) (Z.max (u32 mx) (width ix)) ix).

(** [build] with the tags in a vector. *)
Definition build_tagged (file : option (list Z)) (num_points_to_load : Z) (tags : list Z) (ix : mem_index) : outcome mem_index :=
  ix ← load_points file num_points_to_load ix;
  if enable_tags ix && negb (Z.of_nat (length tags) =? num_points_to_load) then Crash
  else finish_build (if enable_tags ix then put_tags tags ix else ix).

(** [build] with the name of a tag file or [nullptr]; a file that does not
    exist is [None]. *)
Definition build (file : option (list Z)) (num_points_to_load : Z) (tag_filename : option (option (list Z))) (ix : mem_index) : outcome mem_index :=
  ix ← load_points file num_points_to_load ix;
  if enable_tags ix then
    match tag_filename with
    | None => finish_build (put_tags (seqZ 0 num_points_to_load) ix)
    | Some None => Crash
    | Some (Some f) =>
        let '(npts, _, bytes) := load_bin (Z.of_nat sizeTag) f 0 in
        if negb (npts =? num_points_to_load) then Crash
        else finish_build (put_tags (elems sizeTag (Z.to_nat npts) bytes) ix)
    end
  else finish_build ix.
End build.

(** ** Facts *)
Lemma max_degree_le c lists : 0 <= c -> Forall (fun l : list Z => Z.of_nat (length l) <= c) lists -> c < 2 ^ 32 ->
  max_degree lists <= c.
Proof.
  intros Hc Hl Hb. unfold max_degree. assert (H : forall m, 0 <= m <= c -> foldl (fun m (l : list Z) => if m <? Z.of_nat (length l) then u32 (Z.of_nat (length l)) else m) m lists <= c).
  { induction Hl as [|l lists Hl _ IH]; intros m Hm; cbn [foldl]; [lia|]. apply IH. destruct (_ <? _); [rewrite u32_small by lia|]; lia. }
  by apply H.
Qed.

(** The vectors and the lists as the nodes of a stored graph. *)
Definition as_node (sizeT : nat) (r l : list Z) : node := {| coords := r ≫= le_n sizeT; nbrs := l |}.

Lemma as_nodes_bytes sizeT (rows lists : list (list Z)) : length rows = length lists ->
  bbytes (zip_with (as_node sizeT) rows lists) = (rows ≫= (fun r => r ≫= le_n sizeT)) /\
  vbytes (zip_with (as_node sizeT) rows lists) = (lists ≫= nhood_bytes).
Proof.
  unfold bbytes, vbytes. revert lists. induction rows as [|r rows IH]; intros [|l lists] Hl; try done.
  destruct (IH lists) as [E1 E2]; [by injection Hl|]. cbn [zip_with mbind list_bind]. by rewrite E1, E2.
Qed.

(** The file of a static index. *)
Lemma save_static sizeT sizeTag dim aligned_dim set_order ix (lists : list (list Z)) : num_frozen_pts ix = 0 -> nd ix = max_points ix -> 0 <= nd ix ->
  final_graph ix = lists -> nd ix = Z.of_nat (length lists) -> (length lists <= length (mdata ix))%nat -> 0 <= ep ix < 2 ^ 32 ->
  exists files, save dim aligned_dim (save_files sizeT sizeTag dim set_order) ix = Ok (files, ix) /\
    exists rest, graph_file files = le64 (graph_size lists) ++ le32 (max_degree lists) ++ le32 (ep ix) ++ le64 0 ++ (lists ≫= nhood_bytes) ++ rest.
Proof.
  intros Ef En H0 Eg El Hm Hep. unfold save, compact_frozen_point. rewrite Ef, andb_false_r. cbn [mbind outcome_bind].
  assert (used_points ix = length lists) as Eu by (unfold used_points; lia).
  destruct (save_graph_at 0 ix [] lists) as (g & E1 & Hg & _); [by rewrite Eu, Eg, firstn_all | done | done |].
  unfold save_files. rewrite E1. cbn [mbind outcome_bind]. unfold save_data. rewrite Eu, decide_True by done. cbn [mbind outcome_bind].
  unfold save_tags. rewrite Ef. unfold reposition_frozen_point_to_end. rewrite Ef. cbn [Z.ltb Z.compare Z.eqb orb].
  destruct (enable_tags ix); cbn [negb mbind outcome_bind]; eexists; (split; [reflexivity|]); cbn [graph_file]; rewrite Ef in Hg; exact Hg.
Qed.

Section pipeline.
Context {F : Type} `{!FloatOps F}.
Context (compare : list Z -> list Z -> F) (compare_sym : forall x y, compare x y = compare y x).
Context (alpha : F) (range maxc Lsize sfuel pfuel nr : nat) (Hpar : params_ok alpha range maxc Lsize pfuel nr).
Context (sizeT sizeTag dim aligned_dim : nat) (centre_dist : list (list Z) -> Z -> F).
Context (saturate tags : bool) (order_ep order order' : list Z).
Context (rows : list (list Z)) (brest : list Z).

Definition vectors_file : list Z :=
  bin_header (Z.of_nat (length rows)) (Z.of_nat dim) ++ (rows ≫= (fun r => r ≫= le_n sizeT)) ++ brest.
Abbreviation n := (Z.of_nat (length rows)).
Definition medoid : Z := calculate_entry_point (centre_dist (pad aligned_dim <$> rows)) order_ep.

Record build_input : Prop := {
  bi_rows : Forall (full_row sizeT dim) rows;
  bi_counts : 0 < n < 2 ^ 31 /\ Z.of_nat dim < 2 ^ 31 /\ 0 < Z.of_nat sizeT < 2 ^ 16;
  bi_node : (Z.of_nat range + 1) * 4 + Z.of_nat dim * Z.of_nat sizeT < 2 ^ 31;
  bi_fuel : (pool_fuel (length rows) <= sfuel)%nat;
  bi_orders : order_ep ≡ₚ seqZ 0 n /\ order ≡ₚ seqZ 0 n /\ order' ≡ₚ seqZ 0 n;
  bi_start : head order <> Some medoid;
}.
Context (Hin : build_input).

Abbreviation built := (build compare alpha range maxc Lsize sfuel pfuel sizeT sizeTag dim aligned_dim centre_dist saturate order_ep order order').

Lemma load_points_spec : exists ix, load_points sizeT dim aligned_dim (Some vectors_file) n (new_index n false tags) = Ok ix /\
  final_graph ix = replicate (length rows) [] /\ take (length rows) (mdata ix) = pad aligned_dim <$> rows /\ (length rows < length (mdata ix))%nat /\
  nd ix = n /\ max_points ix = n /\ num_frozen_pts ix = 0 /\ enable_tags ix = tags /\ width ix = 0.
Proof using Hin.
  destruct (bi_counts Hin) as (Hn & Hd & _). assert (bin_at vectors_file 0 n (Z.of_nat dim) (rows ≫= (fun r => r ≫= le_n sizeT))) as Hat by (by exists brest).
  unfold load_points. rewrite (get_bin_metadata_at _ _ _ _ _ Hat) by lia. unfold size_of_int.
  assert (n <? 2 ^ 31 = true) as -> by lia. assert (Z.of_nat dim <? 2 ^ 31 = true) as -> by lia.
  unfold new_index. assert (n =? 0 = false) as -> by lia. cbn [max_points]. rewrite Z.ltb_irrefl, Z.eqb_refl. cbn [orb negb].
  assert (length (replicate (Z.to_nat (n + 1)) (@nil Z)) = S (length rows)) as Hl by (rewrite length_replicate; lia).
  rewrite (copy_aligned_data_at sizeT dim aligned_dim _ 0 rows); [|done|apply (bi_rows Hin)|lia|lia|cbn [mdata]; lia].
  cbn [mbind outcome_bind]. eexists. split; [reflexivity|]. unfold set_nd. cbn [final_graph mdata nd max_points num_frozen_pts enable_tags width with_slots with_data].
  split_and!; try done.
  - by rewrite Z.add_0_r, Nat2Z.id.
  - apply take_app_length'. by rewrite length_fmap.
  - rewrite length_app, length_fmap, length_drop. lia.
Qed.

Lemma put_tags_frame l : forall ix, exists t1 t2, put_tags l ix = with_tags t1 t2 ix.
Proof using.
  intros ix. unfold put_tags. generalize (zip (seqZ 0 (Z.of_nat (length l))) l). intros ts. revert ix.
  induction ts as [|t ts IH]; intros ix; [exists (tag_to_location ix), (location_to_tag ix); by destruct ix|].
  cbn [foldl]. destruct (IH (put_tag t ix)) as (t1 & t2 & ->). by exists t1, t2.
Qed.

Definition built_list (i : Z) (l : list Z) : Prop :=
  l <> [] /\ (length l <= range)%nat /\ NoDup l /\ i ∉ l /\ Forall (fun j => 0 <= j < n) l.

(** Building from the loaded points. *)
Lemma finish_build_spec ix : final_graph ix = replicate (length rows) [] -> take (length rows) (mdata ix) = pad aligned_dim <$> rows ->
  (length rows < length (mdata ix))%nat -> nd ix = n /\ max_points ix = n /\ num_frozen_pts ix = 0 ->
  exists ix', finish_build compare alpha range maxc Lsize sfuel pfuel aligned_dim centre_dist saturate order_ep order order' ix = Ok ix' /\
    nd ix' = n /\ max_points ix' = n /\ num_frozen_pts ix' = 0 /\ mdata ix' = mdata ix /\ ep ix' = medoid /\ length (final_graph ix') = length rows /\
    forall i l, final_graph ix' !! i = Some l -> built_list (Z.of_nat i) l.
Proof using Hin Hpar compare_sym.
  intros Eg Er Hlr (En & Em & Ef). destruct (bi_orders Hin) as (O1 & O2 & O3). destruct (bi_counts Hin) as (Hn & _).
  assert (points_dist centre_dist ix = centre_dist (pad aligned_dim <$> rows)) as Ed by (unfold points_dist; by rewrite En, Nat2Z.id, Er).
  assert (start_node (points_dist centre_dist ix) order_ep ix = medoid) as Es by (unfold start_node; by rewrite Ef, Ed).
  assert (linked range ix) as Hlk.
  { apply linked_intro; [lia | rewrite Eg, length_replicate; unfold total_points; lia|]. intros i l _ Hl. apply list_of_Some in Hl.
    rewrite Eg in Hl. apply lookup_replicate in Hl as [-> _]. apply good_nil. }
  assert (Hall : forall o (P : Z -> Prop), o ≡ₚ seqZ 0 n -> (forall i, 0 <= i < n -> P i) -> Forall P o).
  { intros o P Ho H. rewrite Ho. apply Forall_forall. intros i Hi%elem_of_seqZ. apply H. lia. }
  destruct (link_ok compare compare_sym alpha range maxc Lsize sfuel pfuel nr Hpar (points_dist centre_dist ix) saturate order_ep order order' ix)
    as (ix' & E & Hlk' & Fr & Hls).
  - done.
  - unfold total_points. rewrite Em, Ef, Z.add_0_r, Nat2Z.id. apply (bi_fuel Hin).
  - lia.
  - lia.
  - unfold total_points. lia.
  - apply Hall; [done|]. unfold in_index, total_points. lia.
  - apply Hall; [done|]. unfold in_use, in_index, total_points. lia.
  - apply Hall; [done|]. unfold in_use, in_index, total_points. lia.
  - rewrite Es. apply (bi_start Hin).
  - assert (nd ix' = n /\ max_points ix' = n /\ num_frozen_pts ix' = 0 /\ mdata ix' = mdata ix /\ ep ix' = medoid) as (En' & Em' & Ef' & Ed' & Ee')
      by (rewrite Fr; cbn; by rewrite Es).
    unfold finish_build, generate_frozen_point. rewrite Ef. cbn [Z.eqb mbind outcome_bind]. rewrite E. cbn [mbind outcome_bind].
    eexists. split; [reflexivity|]. cbn [nd max_points num_frozen_pts mdata ep final_graph with_graph].
    pose proof (mg_length _ (lk_ok _ _ Hlk')) as Hl'. unfold total_points in Hl'. split_and!; try done; [lia|].
    intros i l Hi. pose proof (lookup_lt_Some _ _ _ Hi). assert (Z.of_nat i ∈ seqZ 0 n) as Hseq by (apply elem_of_seqZ; lia).
    destruct (Hls (Z.of_nat i)) as (l' & El' & Hne & Hle); [by rewrite O2 | by rewrite O3 |]. apply list_of_nat in Hi.
    assert (l' = l) as -> by congruence. assert (in_index ix' (Z.of_nat i)) as Hi' by (unfold in_index, total_points; lia).
    destruct (linked_list range ix' _ l Hlk' Hi' Hi) as (? & ? & _ & Hf). split_and!; try done.
    eapply Forall_impl; [exact Hf|]. intros j. unfold in_index, total_points. lia.
Qed.

(** The nodes that the layout reads. *)
Lemma built_nodes lists : length lists = length rows -> (forall i l, lists !! i = Some l -> built_list (Z.of_nat i) l) ->
  0 < max_degree lists <= Z.of_nat range /\
  Forall (input_ok (Z.of_nat sizeT) (Z.of_nat dim)) (zip_with (as_node sizeT) rows lists) /\
  forall i r l, rows !! i = Some r -> lists !! i = Some l -> stored (max_degree lists) (as_node sizeT r l) = as_node sizeT r l.
Proof using Hin.
  intros Hl Hls. destruct (bi_counts Hin) as (Hn & Hd & _). pose proof (bi_node Hin) as Hnode. pose proof (bi_rows Hin) as Hrows.
  assert (0 <= Z.of_nat dim * Z.of_nat sizeT) by (apply Z.mul_nonneg_nonneg; lia).
  assert (forall l, l ∈ lists -> l <> [] /\ (length l <= range)%nat /\ Forall (fun j => 0 <= j < n) l) as Hin'.
  { intros l [i Hi]%list_elem_of_lookup_1. destruct (Hls i l Hi) as (? & ? & _ & _ & ?). done. }
  assert (forall l, l ∈ lists -> short_list l) as Hsh.
  { intros l Hi. destruct (Hin' l Hi) as (_ & Hle & Hf). split; [lia|]. eapply Forall_impl; [exact Hf|]. intros j. cbn. lia. }
  destruct (max_degree_spec lists) as [Hw Hmax]; [by apply Forall_forall|]. rewrite Forall_forall in Hmax.
  assert (max_degree lists <= Z.of_nat range) as Hwr.
  { apply max_degree_le; [lia | | lia]. apply Forall_forall. intros l Hi. destruct (Hin' l Hi) as (_ & ? & _). lia. }
  split_and!; [|done| |].
  - destruct lists as [|[|j l] lists]; [cbn in Hl; lia | by destruct (Hin' []) as [? _]; [left|] |].
    specialize (Hmax (j :: l) ltac:(left)). cbn [length] in Hmax. lia.
  - apply Forall_lookup_2. intros i nd Hi. apply lookup_zip_with_Some in Hi as (r & l & -> & Hr & Hli).
    rewrite Forall_lookup in Hrows. destruct (Hrows i r Hr) as [Hlr _]. apply list_elem_of_lookup_2 in Hli. destruct (Hin' l Hli) as (? & ? & Hf). destruct (Hsh l Hli).
    split; cbn [coords nbrs as_node]; [|done|lia|done]. rewrite length_bind_le_n, Hlr. lia.
  - intros i r l _ Hli. apply list_elem_of_lookup_2 in Hli. unfold stored, as_node. cbn [coords nbrs]. f_equal. apply firstn_all2. specialize (Hmax l Hli). lia.
Qed.

Lemma medoid_in : 0 <= medoid < n.
Proof using Hin.
  destruct (bi_orders Hin) as (O1 & _). destruct (bi_counts Hin) as (Hn & _).
  assert (H : forall i, i ∈ order_ep -> 0 <= i < n) by (intros i; rewrite O1, elem_of_seqZ; lia).
  destruct (calculate_entry_point_spec (centre_dist (pad aligned_dim <$> rows)) order_ep) as [[E _]|[Hi _]]; unfold medoid; [rewrite E; lia | by apply H].
Qed.
End pipeline.

(** C3. The way of a file of vectors to the stored graph.  A build from the
    file, whose first visited vector is not the medoid, succeeds; the index is
    saved without a change, and the layout of the saved graph, read with
    buffers of any size, succeeds too.  The graph file, when a sector holds at
    most 16 nodes, opens with the metadata of the input, the medoid as its
    entry, and the largest degree as its range; at location [i] it holds the bytes of vector [i] and its whole list in the
    index, which has between one and [R] members, all of them vectors other
    than [i], and none twice. *)
Theorem build_store_correct {F} `{!FloatOps F} (compare : list Z -> list Z -> F) alpha range maxc Lsize sfuel pfuel nr
    sizeT sizeTag dim aligned_dim centre_dist saturate tags order_ep order order' rows brest set_order rcache wcache :
  (forall x y, compare x y = compare y x) -> params_ok alpha range maxc Lsize pfuel nr ->
  build_input range sfuel sizeT dim aligned_dim centre_dist order_ep order order' rows ->
  (0 < rcache)%nat -> (0 < wcache)%nat ->
  let n := Z.of_nat (length rows) in
  let file := vectors_file sizeT dim rows brest in
  exists ix' files f,
    build compare alpha range maxc Lsize sfuel pfuel sizeT sizeTag dim aligned_dim centre_dist saturate order_ep order order'
      (Some file) n None (new_index n false tags) = Ok ix' /\
    save dim aligned_dim (save_files sizeT sizeTag dim set_order) ix' = Ok (files, ix') /\
    create_disk_layout_files (Z.of_nat sizeT) (Z.of_nat sizeTag) file (graph_file files) None rcache wcache = Ok (f, None) /\
    let w := max_degree (final_graph ix') in
    let g := layout_geometry (Z.of_nat sizeT) (Z.of_nat dim) w in
    0 < w <= Z.of_nat range /\
    (nnodes_per_sector g <= 16 -> load_metadata (Z.of_nat sizeT) f =
       Some {| md_ckpt := 9; md_nnodes := n; md_medoid := medoid aligned_dim centre_dist order_ep rows; md_range := w; md_geometry := g |}) /\
    forall i r, rows !! i = Some r -> exists l, list_of ix' (Z.of_nat i) = Ok l /\ built_list range rows (Z.of_nat i) l /\
      disk_node g (bytes_at f) (u_loc_offset g (Z.of_nat i)) = as_node sizeT r l.
Proof.
  intros Hsym Hpar Hin Hrc Hwc n file. destruct (bi_counts _ _ _ _ _ _ _ _ _ _ Hin) as (Hn & Hd & HT). pose proof (bi_node _ _ _ _ _ _ _ _ _ _ Hin) as Hnode.
  destruct (load_points_spec range sfuel sizeT dim aligned_dim centre_dist tags order_ep order order' rows brest Hin)
    as (ix0 & El & Eg & Er & Hlr & En & Em & Ef & Et & _).
  assert (exists ix1, build compare alpha range maxc Lsize sfuel pfuel sizeT sizeTag dim aligned_dim centre_dist saturate order_ep order order'
      (Some file) n None (new_index n false tags) = finish_build compare alpha range maxc Lsize sfuel pfuel aligned_dim centre_dist saturate order_ep order order' ix1 /\
    exists t1 t2, ix1 = with_tags t1 t2 ix0) as (ix1 & -> & t1 & t2 & ->).
  { unfold build. fold n file in El. rewrite El. cbn [mbind outcome_bind]. destruct (enable_tags ix0).
    - destruct (put_tags_frame (seqZ 0 n) ix0) as (t1 & t2 & ->). eexists. split; [done|]. by exists t1, t2.
    - exists ix0. split; [done|]. exists (tag_to_location ix0), (location_to_tag ix0). by destruct ix0. }
  destruct (finish_build_spec compare Hsym alpha range maxc Lsize sfuel pfuel nr Hpar sizeT dim aligned_dim centre_dist saturate order_ep order order'
    rows Hin (with_tags t1 t2 ix0)) as (ix' & -> & En' & Em' & Ef' & Ed' & Ee' & Elen & Hls); [done..|].
  destruct (built_nodes range sfuel sizeT dim aligned_dim centre_dist order_ep order order' rows Hin (final_graph ix') Elen Hls) as (Hw & Hio & Hst).
  pose proof (medoid_in range sfuel sizeT dim aligned_dim centre_dist order_ep order order' rows Hin) as Hmed.
  destruct (save_static sizeT sizeTag dim aligned_dim set_order ix' (final_graph ix')) as (files & Es & rest & Egf);
    [done | lia | lia | done | by rewrite En', Elen | rewrite Ed', Elen; cbn [mdata with_tags]; lia | rewrite Ee'; lia |].
  destruct (as_nodes_bytes sizeT rows (final_graph ix')) as [Eb Ev]; [done|]. assert (length (zip_with (as_node sizeT) rows (final_graph ix')) = length rows) as Eln
    by (rewrite length_zip_with, Elen; lia).
  destruct (Reader.reader_open_wf file rcache 0) as (rd & Erd & R1 & R2); [done | lia |].
  destruct (Writer.writer_open_wf [] wcache 0) as (wr & Ewr & W1 & W2 & W3); [done | done |].
  destruct (create_disk_layout_spec (Z.of_nat sizeT) (Z.of_nat dim) (max_degree (final_graph ix')) ltac:(lia) ltac:(lia) ltac:(lia)
    ltac:(rewrite node_len_eq by lia; lia) (zip_with (as_node sizeT) rows (final_graph ix')) Hio ltac:(lia)
    (graph_size (final_graph ix')) (ep ix') 0 rest brest rd wr) as (f & Ef1 & Hnodes & Hmeta).
  { rewrite Ee'. lia. } { done. } { done. } { rewrite Eln, Eb. exact R2. } { split; [done|]. simpl. by rewrite W3, W2. } { done. }
  assert (graph_file files = vamana_file (graph_size (final_graph ix')) (max_degree (final_graph ix')) (ep ix') 0 (zip_with (as_node sizeT) rows (final_graph ix')) rest) as Evf
    by (unfold vamana_file; by rewrite Ev).
  exists ix', files, f. split; [done|]. split; [done|].
  split; [unfold create_disk_layout_files; rewrite Erd; cbn [mbind outcome_bind]; rewrite Ewr; cbn [mbind outcome_bind]; rewrite Evf, Ef1, graph_frozen by lia; done|]. intros w g. split; [exact Hw|]. split.
  - intros HN. rewrite (Hmeta HN), Eln, Ee'. done.
  - intros i r Hr. destruct (lookup_lt_is_Some_2 (final_graph ix') i) as [l Hl]; [rewrite Elen; by eapply lookup_lt_Some|].
    exists l. split_and!; [by apply list_of_nat | by apply Hls |]. rewrite <- (Hst i r l) by done. apply Hnodes.
    apply lookup_zip_with_Some. by exists r, l.
Qed.

(** Three vectors of two words, read in the order 1, 0, 2. *)
Definition plane_compare (x y : list Z) : F32 :=
  lit (Z.abs (x !!! 0%nat - y !!! 0%nat) + Z.abs (x !!! 1%nat - y !!! 1%nat)) 0.
Definition three_rows : list (list Z) := [[10; 1]; [300; 2]; [600; 5]].
Definition centre (rows : list (list Z)) (i : Z) : F32 := plane_compare (rows !!! Z.to_nat i) [100; 3].

Lemma build_store_witness :
  let n := Z.of_nat (length three_rows) in
  let file := vectors_file 2 2 three_rows [9] in
  exists ix' files f,
    build plane_compare F32_1_2f 2 750 2 30 5 2 1 2 8 centre true [0; 1; 2] [1; 0; 2] [0; 1; 2]
      (Some file) n None (new_index n false true) = Ok ix' /\
    save 2 8 (save_files 2 1 2 elements) ix' = Ok (files, ix') /\
    create_disk_layout_files 2 1 file (graph_file files) None 5 7 = Ok (f, None) /\
    let w := max_degree (final_graph ix') in
    let g := layout_geometry 2 2 w in
    0 < w <= 2 /\
    (nnodes_per_sector g <= 16 -> load_metadata 2 f =
       Some {| md_ckpt := 9; md_nnodes := n; md_medoid := medoid 8 centre [0; 1; 2] three_rows; md_range := w; md_geometry := g |}) /\
    forall i r, three_rows !! i = Some r -> exists l, list_of ix' (Z.of_nat i) = Ok l /\ built_list 2 three_rows (Z.of_nat i) l /\
      disk_node g (bytes_at f) (u_loc_offset g (Z.of_nat i)) = as_node 2 r l.
Proof.
  apply (build_store_correct plane_compare F32_1_2f 2 750 2 30 5 2 2 1 2 8 centre true true [0; 1; 2] [1; 0; 2] [0; 1; 2] three_rows [9] elements 5 7).
  - intros x y. unfold plane_compare. f_equal. lia.
  - apply line_params.
  - split.
    + repeat (constructor; [split; [done | repeat (constructor; [by split|]); constructor]|]). constructor.
    + done.
    + done.
    + apply (bool_decide_unpack _); by vm_compute.
    + split_and!; [done | apply perm_swap | done].
    + apply (bool_decide_unpack _); by vm_compute.
  - lia.
  - lia.
Defined.
