(* ===== verification/MergeShards.v ===== *)
(** * Merging the graphs of the shards

    [read_idmap] and [merge_shards] of [src/utils/aux_utils.cpp].  A data set
    that does not fit in memory is cut into overlapping shards; a graph is
    built for each, over the positions in the shard, and the graphs are merged
    into one: the list of a vector is the union of its renamed lists, in
    random order, cut to [max_degree].  The graphs are read through
    [cached_ifstream] and the result is written through [cached_ofstream],
    of which only the interfaces are used. *)
From S2P Require Import Prelude Layout Node Files CachedIO DiskLayout.

Definition read_idmap (f : list Z) : outcome (list Z) :=
  let '(b1, s) := ifs_read 4 (Some f) in
  let '(b2, s) := ifs_read 4 s in
  let npts32 := read_u32 (bytes_at b1) 0 in
  let dim := read_u32 (bytes_at b2) 0 in
  if negb (dim =? 1) || negb (Z.of_nat (length f) =? u64 (npts32 * 4 + 2 * 4)) then Crash
  else
    let '(b, _) := ifs_read (Z.to_nat (npts32 * 4)) s in
    Ok (words (Z.to_nat npts32) b).

(** The order of [node_shard]. *)
Definition pair_lt (x y : Z * Z) : bool := (x.1 <? y.1) || ((x.1 =? y.1) && (x.2 <? y.2)).
Definition pair_le (x y : Z * Z) : Prop := pair_lt y x = false.
#[global] Instance pair_le_dec : RelDecision pair_le := fun x y => decide (pair_lt y x = false).

Definition node_shard (idmaps : list (list Z)) : list (Z * Z) :=
  merge_sort pair_le (concat (imap (fun shard idmap => (fun id => (u32 id, u32 (Z.of_nat shard))) <$> idmap) idmaps)).

(** [idmap[i]]; beyond the end the access is undefined. *)
Definition rename (idmap : list Z) (i : Z) : outcome Z :=
  match idmap !! Z.to_nat i with Some id => Ok id | None => Crash end.

Section merge.
Context {RS : Type} `{!ByteReader RS} {WS : Type} `{!ByteWriter WS}.
(** [std::shuffle] with the random generator, at its [k]-th use. *)
Context (shuffle : nat -> list Z -> list Z).
Context (max_degree : Z).

Definition rd_u32 (r : RS) : outcome (Z * RS) :=
  '(b, r) ← rd_read 4 r; Ok (read_u32 (bytes_at b) 0, r).

Definition rd_nhood (r : RS) : outcome (list Z * RS) :=
  '(n, r) ← rd_u32 r;
  '(b, r) ← rd_read (Z.to_nat (n * 4)) r;
  Ok (words (Z.to_nat n) b, r).

(** A loop over the shards with their readers. *)
Fixpoint each {X A} (f : X -> RS -> outcome (A * RS)) (xs : list X) (rs : list RS) : outcome (list A * list RS) :=
  match xs, rs with
  | x :: xs, r :: rs =>
      '(a, r) ← f x r;
      '(l, rs) ← each f xs rs;
      Ok (a :: l, r :: rs)
  | _, _ => Ok ([], [])
  end.

(** The start node of a shard, renamed; a shard with a frozen point is refused. *)
Definition read_medoid (idmap : list Z) (r : RS) : outcome (Z * RS) :=
  '(medoid, r) ← rd_u32 r;
  '(b, r) ← rd_read 8 r;
  let vamana_index_frozen := read_u64 (bytes_at b) 0 in
  if vamana_index_frozen =? 0 then
    medoid ← rename idmap medoid;
    Ok (medoid, r)
  else Crash.

Record merge_state := {
  ms_cur_id : Z;
  final_nhood : list Z;
  nhood_set : gset Z;
  ms_readers : list RS;
  ms_writer : WS;
  merged_index_size : Z;
  ms_shuffles : nat;
}.

(** The list of the current node is shuffled, cut and written. *)
Definition write_nhood (s : merge_state) : WS * Z :=
  let final := shuffle (ms_shuffles s) (final_nhood s) in
  let nnbrs := u32 (Z.min (Z.of_nat (length final)) max_degree) in
  (wr_write (take (Z.to_nat nnbrs) final ≫= le32) (wr_write (le32 nnbrs) (ms_writer s)),
   u64 (merged_index_size s + (4 + nnbrs * 4))).

Definition flush_node (node_id : Z) (s : merge_state) : merge_state :=
  let '(w, size) := write_nhood s in
  {| ms_cur_id := node_id; final_nhood := []; nhood_set := nhood_set s ∖ list_to_set (final_nhood s);
     ms_readers := ms_readers s; ms_writer := w; merged_index_size := size; ms_shuffles := S (ms_shuffles s) |}.

Definition add_renamed (idmap : list Z) (j : Z) (fs : list Z * gset Z) : outcome (list Z * gset Z) :=
  id ← rename idmap j;
  if decide (id ∈ fs.2) then Ok fs else Ok (fs.1 ++ [id], {[id]} ∪ fs.2).

Definition merge_entry (idmaps : list (list Z)) (e : Z * Z) (s : merge_state) : outcome merge_state :=
  let '(node_id, shard_id) := e in
  let s := if ms_cur_id s <? node_id then flush_node node_id s else s in
  match idmaps !! Z.to_nat shard_id, ms_readers s !! Z.to_nat shard_id with
  | Some idmap, Some r =>
      '(shard_nhood, r) ← rd_nhood r;
      '(final, set) ← foldM (add_renamed idmap) shard_nhood (final_nhood s, nhood_set s);
      Ok {| ms_cur_id := ms_cur_id s; final_nhood := final; nhood_set := set;
            ms_readers := <[Z.to_nat shard_id := r]> (ms_readers s); ms_writer := ms_writer s;
            merged_index_size := merged_index_size s; ms_shuffles := ms_shuffles s |}
  | _, _ => Crash
  end.

(** The merged graph and the file with the start nodes. *)
Definition merge_shards (idmap_files : list (list Z)) (readers : list RS) (w : WS) : outcome (list Z * list Z) :=
  idmaps ← foldM (fun f l => m ← read_idmap f; Ok (l ++ [m])) idmap_files [];
  '(_, readers) ← each (fun _ => rd_read 8) idmaps readers;
  let w := wr_write (le64 24) w in
  '(_, readers) ← each (fun _ => rd_u32) idmaps readers;
  let w := wr_write (le32 max_degree) w in
  '(medoids, readers) ← each read_medoid idmaps readers;
  let w := match last medoids with Some medoid => wr_write (le32 medoid) w | None => w end in
  let medoid_file := le32 (u32 (Z.of_nat (length idmaps))) ++ le32 1 ++ (medoids ≫= le32) in
  let w := wr_write (le64 0) w in
  s ← foldM (merge_entry idmaps) (node_shard idmaps)
    {| ms_cur_id := 0; final_nhood := []; nhood_set := ∅; ms_readers := readers; ms_writer := w;
       merged_index_size := 24; ms_shuffles := 0 |};
  let '(w, size) := write_nhood s in
  Ok (wr_file (wr_write (le64 size) (wr_reset w)), medoid_file).
End merge.

#[global] Arguments merge_state _ _ : clear implicits.

(** ** Reading *)
Lemma read_idmap_ok l : ids32 l -> Z.of_nat (length l) < 2 ^ 32 ->
  read_idmap (bin_header (Z.of_nat (length l)) 1 ++ (l ≫= le32)) = Ok l.
Proof.
  intros Hl Hn. unfold read_idmap, bin_header. rewrite !u32_small by lia. rewrite <- app_assoc.
  rewrite !ifs_read_app by done. rewrite !read_u32_bytes by lia.
  assert (Z.of_nat (length (le32 (Z.of_nat (length l)) ++ le32 1 ++ (l ≫= le32))) = Z.of_nat (length l) * 4 + 2 * 4) as ->
    by (rewrite !length_app, length_bind_le32; simpl; lia).
  rewrite (u64_small (_ * 4 + 2 * 4)) by lia. simpl. rewrite Z.eqb_refl. simpl.
  rewrite take_ge by (rewrite length_bind_le32; lia). by rewrite Nat2Z.id, words_bytes.
Qed.

(** A file that is not a map of identifiers is refused. *)
Lemma read_idmap_crash f : Z.of_nat (length f) <> u64 (read_u32 (bytes_at (take 4 f)) 0 * 4 + 2 * 4) -> read_idmap f = Crash.
Proof.
  intros H. unfold read_idmap. simpl. destruct (bool_decide (4 <= length f)%nat); simpl;
    destruct (Z.eqb_spec (Z.of_nat (length f)) (u64 (read_u32 (bytes_at (take 4 f)) 0 * 4 + 2 * 4))); try done; by rewrite orb_true_r.
Qed.

Section reading.
Context {RS : Type} `{!ByteReader RS}.

Lemma rd_take (r : RS) n a b : rd_ok r -> rd_rest r = a ++ b -> length a = n ->
  exists r', rd_read n r = Ok (a, r') /\ rd_ok r' /\ rd_rest r' = b.
Proof.
  intros Hr E <-. destruct (rd_read_ok (length a) r Hr) as (r' & E' & Hr' & Hrest); [rewrite E, length_app; lia|].
  rewrite E, take_app_length in E'. rewrite E, drop_app_length in Hrest. by exists r'.
Qed.

Lemma rd_u32_ok (r : RS) x b : rd_ok r -> rd_rest r = le32 x ++ b -> 0 <= x < 2 ^ 32 ->
  exists r', rd_u32 r = Ok (x, r') /\ rd_ok r' /\ rd_rest r' = b.
Proof.
  intros Hr E Hx. destruct (rd_take r 4 (le32 x) b Hr E eq_refl) as (r' & E' & ? & ?). exists r'. unfold rd_u32. rewrite E'.
  cbn [mbind outcome_bind]. by rewrite read_u32_bytes.
Qed.

Lemma rd_nhood_ok (r : RS) ids b : rd_ok r -> rd_rest r = nhood_bytes ids ++ b -> ids32 ids -> Z.of_nat (length ids) < 2 ^ 32 ->
  exists r', rd_nhood r = Ok (ids, r') /\ rd_ok r' /\ rd_rest r' = b.
Proof.
  intros Hr E Hids Hn. unfold nhood_bytes in E. rewrite u32_small, <- app_assoc in E by lia.
  destruct (rd_u32_ok r _ _ Hr E) as (r1 & E1 & Hr1 & Hb1); [lia|].
  destruct (rd_take r1 (4 * length ids) (ids ≫= le32) b Hr1 Hb1 (length_bind_le32 ids)) as (r2 & E2 & ? & ?). exists r2.
  unfold rd_nhood. rewrite E1. cbn [mbind outcome_bind]. replace (Z.to_nat (Z.of_nat (length ids) * 4)) with (4 * length ids)%nat by lia.
  rewrite E2. cbn [mbind outcome_bind]. by rewrite Nat2Z.id, words_bytes.
Qed.

(** A loop over the shards reads the same part of every file. *)
Lemma each_ok {SH X A} (get : SH -> X) (f : X -> RS -> outcome (A * RS)) (v : SH -> A) (hd tl : SH -> list Z) (shs : list SH) : forall rs,
  (forall s r b, s ∈ shs -> rd_ok r -> rd_rest r = hd s ++ b -> exists r', f (get s) r = Ok (v s, r') /\ rd_ok r' /\ rd_rest r' = b) ->
  Forall2 (fun s r => rd_ok r /\ rd_rest r = hd s ++ tl s) shs rs ->
  exists rs', each f (get <$> shs) rs = Ok (v <$> shs, rs') /\ Forall2 (fun s r => rd_ok r /\ rd_rest r = tl s) shs rs'.
Proof.
  induction shs as [|s shs IH]; intros rs Hf Hrs.
  - apply Forall2_nil_inv_l in Hrs as ->. exists []. by split.
  - apply Forall2_cons_inv_l in Hrs as (r & rs' & [Hr E] & Hrs & ->).
    destruct (Hf s r (tl s) ltac:(by left) Hr E) as (r1 & E1 & Hr1 & Hb1). cbn [each fmap list_fmap]. rewrite E1. cbn [mbind outcome_bind].
    destruct (IH rs') as (rs2 & E2 & Hrs2); [intros y r2 b2 Hy; apply Hf; by right | done |].
    rewrite E2. cbn [mbind outcome_bind]. exists (r1 :: rs2). split; [done|]. by constructor.
Qed.
End reading.

(** ** What is merged *)

(** A shard: the vectors it holds, and the graph over them. *)
Record shard := {
  sh_size : Z; sh_width : Z; sh_medoid : Z;
  sh_ids : list Z;
  sh_lists : list (list Z);
}.

Definition idmap_file (s : shard) : list Z := bin_header (Z.of_nat (length (sh_ids s))) 1 ++ (sh_ids s ≫= le32).
Definition shard_graph (s : shard) : list Z :=
  le64 (sh_size s) ++ le32 (sh_width s) ++ le32 (sh_medoid s) ++ le64 0 ++ (sh_lists s ≫= nhood_bytes).

Record shard_ok (s : shard) : Prop := {
  so_ids : ids32 (sh_ids s);
  so_sorted : StronglySorted Z.lt (sh_ids s);
  so_small : Z.of_nat (length (sh_ids s)) < 2 ^ 32;
  so_lists : length (sh_lists s) = length (sh_ids s);
  so_refs : Forall (fun l => Z.of_nat (length l) < 2 ^ 32 /\ Forall (fun j => 0 <= j < Z.of_nat (length (sh_ids s))) l) (sh_lists s);
  so_medoid : 0 <= sh_medoid s < Z.of_nat (length (sh_ids s));
  so_width : 0 <= sh_width s < 2 ^ 32;
}.

Definition renamed (s : shard) (j : Z) : Z := sh_ids s !!! Z.to_nat j.

(** The lists left to read when the vectors below [k] are done. *)
Definition nodes_from (k : Z) (s : shard) : list (Z * list Z) := filter (fun p => k <= p.1) (zip (sh_ids s) (sh_lists s)).

(** The neighbours of [k] in a shard, as vectors of the whole set. *)
Definition shard_list (k : Z) (s : shard) : list Z :=
  renamed s <$> mjoin (filter (fun p => p.1 = k) (zip (sh_ids s) (sh_lists s))).*2.

Definition add_new (l : list Z) (x : Z) : list Z := if decide (x ∈ l) then l else l ++ [x].
Definition union_list (k : Z) (shs : list shard) : list Z := foldl add_new [] (shs ≫= shard_list k).

Definition merged_list (shuffle : nat -> list Z -> list Z) (max_degree : Z) (shs : list shard) (k : nat) : list Z :=
  take (Z.to_nat max_degree) (shuffle k (union_list (Z.of_nat k) shs)).

(** ** The order of the nodes *)
Lemma pair_le_spec x y : pair_le x y <-> x.1 < y.1 \/ (x.1 = y.1 /\ x.2 <= y.2).
Proof.
  unfold pair_le, pair_lt. destruct (Z.ltb_spec y.1 x.1), (Z.eqb_spec y.1 x.1), (Z.ltb_spec y.2 x.2); simpl;
    split; intros; try done; lia.
Qed.

#[global] Instance pair_le_trans : Transitive pair_le.
Proof. intros x y z. rewrite !pair_le_spec. lia. Qed.
#[global] Instance pair_le_total : Total pair_le.
Proof. intros x y. rewrite !pair_le_spec. lia. Qed.
#[global] Instance pair_le_antisymm : AntiSymm (=) pair_le.
Proof. intros [x1 x2] [y1 y2]. rewrite !pair_le_spec. simpl. intros. f_equal; lia. Qed.

#[global] Instance shard_inhabited : Inhabited shard := populate {| sh_size := 0; sh_width := 0; sh_medoid := 0; sh_ids := []; sh_lists := [] |}.

(** The shards that hold [k], and the pairs of the vectors [0 .. n - 1]. *)
Definition holder (shs : list shard) (k : Z) (i : nat) : list (Z * Z) :=
  if decide (k ∈ sh_ids (shs !!! i)) then [(k, Z.of_nat i)] else [].
Definition holders (shs : list shard) (n : nat) (k : Z) : list (Z * Z) := seq 0 n ≫= holder shs k.
Definition pairs (shs : list shard) (n : nat) : list (Z * Z) := seq 0 n ≫= (fun k : nat => holders shs (length shs) (Z.of_nat k)).

(** The shards together hold the vectors [0 .. n - 1]. *)
Definition covering (shs : list shard) (n : nat) : Prop :=
  forall k, 0 <= k < Z.of_nat n <-> exists i s, shs !! i = Some s /\ k ∈ sh_ids s.

Lemma sorted_bind_seq {B} (R : relation B) (f : nat -> list B) n m :
  (forall x y a b, (x < y)%nat -> a ∈ f x -> b ∈ f y -> R a b) -> (forall x, StronglySorted R (f x)) ->
  StronglySorted R (seq n m ≫= f).
Proof.
  intros H Hf. revert n. induction m as [|m IH]; intros n; [constructor|]. simpl. apply StronglySorted_app. split_and!; try done.
  intros a b Ha (y & Hb & Hy)%list_elem_of_bind. apply elem_of_seq in Hy. apply (H n y); [lia|done..].
Qed.

Lemma elem_of_holder shs k i e : e ∈ holder shs k i <-> e = (k, Z.of_nat i) /\ k ∈ sh_ids (shs !!! i).
Proof. unfold holder. case_decide; rewrite ?list_elem_of_singleton, ?elem_of_nil; naive_solver. Qed.

Lemma elem_of_holders shs k n e :
  e ∈ holders shs n k <-> exists i, e = (k, Z.of_nat i) /\ k ∈ sh_ids (shs !!! i) /\ (i < n)%nat.
Proof.
  unfold holders. rewrite list_elem_of_bind. split.
  - intros (i & [-> Hk]%elem_of_holder & Hi%elem_of_seq). exists i. split_and!; [done..|lia].
  - intros (i & -> & Hk & Hi). exists i. split; [by apply elem_of_holder | apply elem_of_seq; lia].
Qed.

Lemma elem_of_pairs shs n k i :
  covering shs n -> (k, i) ∈ pairs shs n <-> exists s, shs !! Z.to_nat i = Some s /\ 0 <= i /\ k ∈ sh_ids s.
Proof.
  intros Hc. unfold pairs. rewrite list_elem_of_bind. split.
  - intros (k' & (j & Ee & Hk & Hj)%elem_of_holders & _). injection Ee as -> ->. rewrite Nat2Z.id.
    destruct (lookup_lt_is_Some_2 shs j Hj) as [s Hs]. exists s. split_and!; [done|lia|]. by rewrite (list_lookup_total_correct _ _ _ Hs) in Hk.
  - intros (s & Hs & Hi & Hk). pose proof (lookup_lt_Some _ _ _ Hs). assert (0 <= k < Z.of_nat n) by (apply Hc; eauto).
    exists (Z.to_nat k). split; [|apply elem_of_seq; lia]. rewrite Z2Nat.id by lia. apply elem_of_holders. exists (Z.to_nat i).
    rewrite Z2Nat.id by lia. split_and!; [done| |done]. by rewrite (list_lookup_total_correct _ _ _ Hs).
Qed.

Lemma pairs_sorted shs n : StronglySorted pair_le (pairs shs n).
Proof.
  apply sorted_bind_seq.
  - intros x y a b Hxy (i & -> & _)%elem_of_holders (j & -> & _)%elem_of_holders. apply pair_le_spec. simpl. lia.
  - intros k. apply sorted_bind_seq.
    + intros x y a b Hxy [-> _]%elem_of_holder [-> _]%elem_of_holder. apply pair_le_spec. simpl. lia.
    + intros i. unfold holder. case_decide; repeat constructor.
Qed.

Lemma NoDup_pairs shs n : NoDup (pairs shs n).
Proof.
  apply NoDup_bind; [| |apply NoDup_seq].
  - intros x y e _ _ (i & -> & _)%elem_of_holders (j & E & _)%elem_of_holders. injection E. lia.
  - intros k _. apply NoDup_bind; [| |apply NoDup_seq].
    + intros x y e _ _ [-> _]%elem_of_holder [E _]%elem_of_holder. injection E. lia.
    + intros i _. unfold holder. case_decide; [apply NoDup_singleton | constructor].
Qed.

Lemma concat_fmap {A B} (f : A -> list B) (l : list A) : concat (f <$> l) = l ≫= f.
Proof. induction l as [|x l IH]; [done|]. cbn. by rewrite IH. Qed.

(** The pairs in the order in which the code collects them. *)
Lemma collected idmaps :
  concat (imap (fun sh idmap => (fun id => (u32 id, u32 (Z.of_nat sh))) <$> idmap) idmaps) =
  seq 0 (length idmaps) ≫= (fun i => (fun id => (u32 id, u32 (Z.of_nat i))) <$> idmaps !!! i).
Proof.
  rewrite <- concat_fmap. f_equal.
  rewrite <- (imap_seq_0 idmaps (fun i => (fun id => (u32 id, u32 (Z.of_nat i))) <$> idmaps !!! i)).
  apply imap_ext. intros i m Hi. simpl. by rewrite (list_lookup_total_correct _ _ _ Hi).
Qed.

Lemma node_shard_pairs shs n : Forall shard_ok shs -> covering shs n -> Z.of_nat (length shs) < 2 ^ 32 ->
  node_shard (sh_ids <$> shs) = pairs shs n.
Proof.
  intros Hok Hc Hlen. apply (StronglySorted_unique pair_le); [apply StronglySorted_merge_sort; apply _ | apply pairs_sorted |].
  unfold node_shard. rewrite merge_sort_Permutation, collected, length_fmap.
  assert (Hids : forall i s id, shs !! i = Some s -> id ∈ sh_ids s -> u32 id = id).
  { intros i s id Hs Hid. apply u32_small. rewrite Forall_forall in Hok. pose proof (so_ids _ (Hok _ (list_elem_of_lookup_2 _ _ _ Hs))) as H.
    unfold ids32 in H. rewrite Forall_forall in H. by apply H. }
  assert (Hat : forall i s, shs !! i = Some s -> (sh_ids <$> shs) !!! i = sh_ids s)
    by (intros i s Hs; apply list_lookup_total_correct; by rewrite list_lookup_fmap, Hs).
  apply NoDup_Permutation; [|apply NoDup_pairs|].
  - apply NoDup_bind; [| |apply NoDup_seq].
    + intros x y e Hx%elem_of_seq Hy%elem_of_seq (a & -> & _)%list_elem_of_fmap (b & E & _)%list_elem_of_fmap.
      injection E. rewrite !u32_small by lia. lia.
    + intros i Hi%elem_of_seq. destruct (lookup_lt_is_Some_2 shs i) as [s Hs]; [lia|]. rewrite (Hat i s Hs).
      apply NoDup_fmap_2_strong.
      * intros a b Ha Hb E. injection E. by rewrite (Hids i s a), (Hids i s b).
      * rewrite Forall_forall in Hok. pose proof (so_sorted _ (Hok _ (list_elem_of_lookup_2 _ _ _ Hs))) as H. clear -H.
        induction H as [|x l _ IH Hx]; constructor; [|done]. rewrite Forall_forall in Hx. intros Hin. specialize (Hx _ Hin). lia.
  - intros [k i]. rewrite elem_of_pairs, list_elem_of_bind by done. split.
    + intros (j & (id & E & Hid)%list_elem_of_fmap & Hj%elem_of_seq). injection E as -> ->.
      destruct (lookup_lt_is_Some_2 shs j) as [s Hs]; [lia|]. rewrite (Hat j s Hs) in Hid.
      rewrite (Hids j s id), u32_small, Nat2Z.id by (done || lia). exists s. split_and!; [done|lia|done].
    + intros (s & Hs & Hi & Hk). pose proof (lookup_lt_Some _ _ _ Hs). exists (Z.to_nat i). split; [|apply elem_of_seq; lia].
      rewrite (Hat _ s Hs). apply list_elem_of_fmap. exists k. rewrite (Hids _ s k), u32_small, Z2Nat.id by (done || lia). done.
Qed.

(** ** The lists of a shard, one by one *)
Lemma from_all k (z : list (Z * list Z)) : Forall (fun i => k <= i) z.*1 -> filter (fun p => k <= p.1) z = z.
Proof. rewrite Forall_fmap. apply filter_all. Qed.

Lemma next_list k (z : list (Z * list Z)) : StronglySorted Z.lt z.*1 -> k ∈ z.*1 ->
  exists l, filter (fun p => k <= p.1) z = (k, l) :: filter (fun p => k + 1 <= p.1) z /\ filter (fun p => p.1 = k) z = [(k, l)].
Proof.
  induction z as [|[i l] z IH]; intros Hz Hk; [by apply elem_of_nil in Hk|].
  change ((i, l) :: z).*1 with (i :: z.*1) in Hk, Hz. apply StronglySorted_inv in Hz as [Hz Hi]. apply elem_of_cons in Hk as [<-|Hk].
  - exists l. rewrite filter_cons_True by (simpl; lia). rewrite (filter_cons_False _ (k, l)) by (simpl; lia). rewrite filter_cons_True by done.
    rewrite !from_all by (eapply Forall_impl; [exact Hi|]; simpl; lia). split; [done|]. f_equal. apply filter_none.
    rewrite Forall_fmap in Hi. eapply Forall_impl; [exact Hi|]. simpl. lia.
  - rewrite Forall_forall in Hi. pose proof (Hi k Hk) as Hik. destruct (IH Hz Hk) as (l' & E1 & E2). exists l'.
    rewrite !filter_cons_False by (simpl; lia). done.
Qed.

Lemma no_list k (z : list (Z * list Z)) : k ∉ z.*1 ->
  filter (fun p => k <= p.1) z = filter (fun p => k + 1 <= p.1) z /\ filter (fun p => p.1 = k) z = [].
Proof.
  intros Hk. assert (Hne : Forall (fun p => p.1 <> k) z).
  { apply Forall_forall. intros p Hp <-. apply Hk, list_elem_of_fmap. by exists p. }
  split; [|by apply filter_none]. clear Hk. induction Hne as [|p z Hp _ IH]; [done|]. rewrite !filter_cons, IH.
  repeat case_decide; done || lia.
Qed.

Lemma shard_zip s : shard_ok s -> (zip (sh_ids s) (sh_lists s)).*1 = sh_ids s.
Proof. intros H. apply fst_zip. by rewrite (so_lists _ H). Qed.

Lemma shard_next s k : shard_ok s -> k ∈ sh_ids s ->
  exists l, nodes_from k s = (k, l) :: nodes_from (k + 1) s /\ shard_list k s = renamed s <$> l /\ l ∈ sh_lists s.
Proof.
  intros H Hk. destruct (next_list k (zip (sh_ids s) (sh_lists s))) as (l & E1 & E2);
    [rewrite shard_zip by done; by apply so_sorted | by rewrite shard_zip|].
  exists l. split; [done|]. unfold shard_list. rewrite E2. simpl. rewrite app_nil_r. split; [done|].
  assert ((k, l) ∈ zip (sh_ids s) (sh_lists s)) as Hin.
  { assert ((k, l) ∈ nodes_from k s) as Hin by (unfold nodes_from; rewrite E1; by left).
    unfold nodes_from in Hin. apply list_elem_of_filter in Hin. apply Hin. }
  by apply elem_of_zip_r in Hin.
Qed.

Lemma shard_skip s k : shard_ok s -> k ∉ sh_ids s -> nodes_from k s = nodes_from (k + 1) s /\ shard_list k s = [].
Proof.
  intros H Hk. destruct (no_list k (zip (sh_ids s) (sh_lists s))) as [E1 E2]; [by rewrite shard_zip|].
  unfold nodes_from, shard_list. by rewrite E1, E2.
Qed.

(** A neighbour, renamed, is added to the list and to the set. *)
Lemma add_renamed_ok s j (final : list Z) : 0 <= j < Z.of_nat (length (sh_ids s)) ->
  add_renamed (sh_ids s) j (final, list_to_set final) = Ok (add_new final (renamed s j), list_to_set (add_new final (renamed s j))).
Proof.
  intros Hj. destruct (lookup_lt_is_Some_2 (sh_ids s) (Z.to_nat j)) as [x Hx]; [lia|].
  assert (renamed s j = x) as -> by (by apply list_lookup_total_correct).
  unfold add_renamed, rename, add_new. rewrite Hx. cbn [mbind outcome_bind fst snd].
  destruct (decide (x ∈ (list_to_set final : gset Z))) as [Hin|Hin]; rewrite elem_of_list_to_set in Hin.
  - by rewrite decide_True.
  - rewrite decide_False by done. do 2 f_equal. apply leibniz_equiv. rewrite list_to_set_app, list_to_set_singleton. apply union_comm.
Qed.

Lemma add_renamed_all s l : Forall (fun j => 0 <= j < Z.of_nat (length (sh_ids s))) l -> forall final : list Z,
  foldM (add_renamed (sh_ids s)) l (final, list_to_set final) =
    Ok (foldl add_new final (renamed s <$> l), list_to_set (foldl add_new final (renamed s <$> l))).
Proof.
  induction 1 as [|j l Hj _ IH]; intros final; [done|]. cbn [foldM fmap list_fmap foldl].
  rewrite add_renamed_ok by done. cbn [mbind outcome_bind]. apply IH.
Qed.

(** ** The loop *)
Section loop.
Context {RS : Type} `{!ByteReader RS} {WS : Type} `{!ByteWriter WS}.
Context (shuffle : nat -> list Z -> list Z) (max_degree : Z) (shs : list shard) (n : nat).
Context (Hok : Forall shard_ok shs) (Hmax : 0 <= max_degree < 2 ^ 32) (Hsize : 24 + Z.of_nat n * (4 + 4 * max_degree) < 2 ^ 64).

Abbreviation idmaps := (sh_ids <$> shs).
Abbreviation merged := (merged_list shuffle max_degree shs).

(** The lists of the vectors below [k]. *)
Definition merged_bytes (k : nat) : list Z := seq 0 k ≫= (fun i => nhood_bytes (merged i)).

(** Vector [k] is being merged and the first [m] shards were looked at; [H]
    are the bytes in front of the lists. *)
Record merging (H : list Z) (k m : nat) (st : merge_state RS WS) : Prop := {
  mg_cur : ms_cur_id st = Z.of_nat k;
  mg_final : final_nhood st = union_list (Z.of_nat k) (take m shs);
  mg_set : nhood_set st = list_to_set (final_nhood st);
  mg_readers : forall i s, shs !! i = Some s -> exists r, ms_readers st !! i = Some r /\ rd_ok r /\
    rd_rest r = (nodes_from (if decide (i < m)%nat then Z.of_nat k + 1 else Z.of_nat k) s).*2 ≫= nhood_bytes;
  mg_writer : at_end (ms_writer st);
  mg_file : wr_file (ms_writer st) = H ++ merged_bytes k;
  mg_size : merged_index_size st = 24 + Z.of_nat (length (merged_bytes k));
  mg_shuffles : ms_shuffles st = k;
}.

Lemma union_list_snoc k m s : shs !! m = Some s -> union_list k (take (S m) shs) = foldl add_new (union_list k (take m shs)) (shard_list k s).
Proof. intros Hs. unfold union_list. rewrite (take_S_r _ _ s) by done. rewrite bind_app, foldl_app. simpl. by rewrite app_nil_r. Qed.

Lemma length_nhood_bytes ids : length (nhood_bytes ids) = (4 + 4 * length ids)%nat.
Proof. unfold nhood_bytes. by rewrite length_app, length_bind_le32. Qed.

Lemma merged_bytes_length k : Z.of_nat (length (merged_bytes k)) <= Z.of_nat k * (4 + 4 * max_degree).
Proof.
  induction k as [|k IH]; [simpl; lia|]. unfold merged_bytes in *. rewrite seq_S, bind_app, length_app, Nat2Z.inj_add. cbn [mbind list_bind].
  rewrite app_nil_r, length_nhood_bytes. assert (length (merged (0 + k)) <= Z.to_nat max_degree)%nat by (unfold merged_list; rewrite length_take; lia).
  assert (Z.of_nat (length (merged (0 + k))) <= max_degree) by lia. nia.
Qed.

(** The list that is written. *)
Lemma write_nhood_ok H k st : merging H k (length shs) st -> (k < n)%nat ->
  let '(w, size) := write_nhood shuffle max_degree st in
  at_end w /\ wr_file w = H ++ merged_bytes (S k) /\ size = 24 + Z.of_nat (length (merged_bytes (S k))).
Proof.
  intros M Hk. unfold write_nhood. rewrite (mg_shuffles _ _ _ _ M), (mg_final _ _ _ _ M), (take_ge shs) by done.
  set (final := shuffle k (union_list (Z.of_nat k) shs)).
  assert (Em : take (Z.to_nat (u32 (Z.min (Z.of_nat (length final)) max_degree))) final = merged k).
  { rewrite u32_small by lia. unfold merged_list. fold final. destruct (Z.min_spec (Z.of_nat (length final)) max_degree) as [[? ->]|[? ->]]; [|done].
    rewrite Nat2Z.id, !take_ge by lia. done. }
  assert (En : Z.of_nat (length (merged k)) = Z.min (Z.of_nat (length final)) max_degree).
  { unfold merged_list. fold final. rewrite length_take. lia. }
  assert (Eb : merged_bytes (S k) = merged_bytes k ++ le32 (u32 (Z.min (Z.of_nat (length final)) max_degree)) ++ (merged k ≫= le32)).
  { unfold merged_bytes. rewrite seq_S, bind_app. cbn [mbind list_bind]. rewrite app_nil_r. change (0 + k)%nat with k. unfold nhood_bytes at 2. by rewrite En. }
  destruct (write_at_end (le32 (u32 (Z.min (Z.of_nat (length final)) max_degree))) _ (mg_writer _ _ _ _ M)) as [Hw1 Hf1].
  destruct (write_at_end (merged k ≫= le32) _ Hw1) as [Hw2 Hf2]. rewrite Em. split; [done|].
  split; [by rewrite Hf2, Hf1, (mg_file _ _ _ _ M), Eb, <- !app_assoc|]. pose proof (merged_bytes_length (S k)) as Hl.
  rewrite (mg_size _ _ _ _ M). rewrite Eb, !length_app, length_bind_le32 in *. change (length (le32 ?x)) with 4%nat in *.
  rewrite (u32_small (Z.min _ _)) in * by lia. rewrite u64_small by nia. lia.
Qed.

Lemma flush_ok H k st : merging H k (length shs) st -> (S k < n)%nat -> merging H (S k) 0 (flush_node shuffle max_degree (Z.of_nat (S k)) st).
Proof.
  intros M Hk. pose proof (write_nhood_ok H k st M ltac:(lia)) as W. unfold flush_node.
  destruct (write_nhood shuffle max_degree st) as [w size]. destruct W as (Hw & Hf & Hs).
  split; cbn [ms_cur_id final_nhood nhood_set ms_readers ms_writer merged_index_size ms_shuffles]; try done.
  - rewrite (mg_set _ _ _ _ M). apply leibniz_equiv. rewrite list_to_set_nil. apply difference_diag.
  - intros i s Hi. destruct (mg_readers _ _ _ _ M i s Hi) as (r & Hr & Hro & Hrest). pose proof (lookup_lt_Some _ _ _ Hi).
    exists r. rewrite decide_True in Hrest by done. rewrite decide_False by lia. rewrite Nat2Z.inj_succ. by split_and!.
  - by rewrite (mg_shuffles _ _ _ _ M).
Qed.

(** One shard: read if it holds the vector. *)
Lemma shard_step H k m s st : merging H k m st -> shs !! m = Some s ->
  exists st', foldM (merge_entry shuffle max_degree idmaps) (holder shs (Z.of_nat k) m) st = Ok st' /\ merging H k (S m) st'.
Proof.
  intros M Hs. pose proof (mg_readers _ _ _ _ M) as Hrs. pose proof (lookup_lt_Some _ _ _ Hs) as Hm.
  assert (Hsok : shard_ok s) by (rewrite Forall_forall in Hok; apply Hok; by eapply list_elem_of_lookup_2).
  unfold holder. rewrite (list_lookup_total_correct _ _ _ Hs). destruct (decide (Z.of_nat k ∈ sh_ids s)) as [Hin|Hin].
  - destruct (shard_next s (Z.of_nat k) Hsok Hin) as (l & En & El & Hl).
    destruct (Hrs m s Hs) as (r & Hr & Hrok & Hrest).
    rewrite decide_False, En in Hrest by lia. cbn [fmap list_fmap mbind list_bind snd] in Hrest.
    pose proof (so_refs _ Hsok) as Hrefs. rewrite Forall_forall in Hrefs. destruct (Hrefs l Hl) as [Hll Href]. pose proof (so_small _ Hsok) as Hsm.
    destruct (rd_nhood_ok r l _ Hrok Hrest) as (r' & Er & Hr' & Hrest'); [eapply Forall_impl; [exact Href|]; simpl; lia | done |].
    eexists. split.
    + cbn [foldM]. unfold merge_entry. rewrite (mg_cur _ _ _ _ M), Z.ltb_irrefl, Nat2Z.id, list_lookup_fmap, Hs, Hr. cbn [fmap option_fmap option_map].
      rewrite Er. cbn [mbind outcome_bind]. rewrite (mg_set _ _ _ _ M), add_renamed_all by done. cbn [mbind outcome_bind]. reflexivity.
    + split; cbn [ms_cur_id final_nhood nhood_set ms_readers ms_writer merged_index_size ms_shuffles]; try apply M.
      * by rewrite (union_list_snoc _ _ _ Hs), El, (mg_final _ _ _ _ M).
      * done.
      * intros i s' Hi. destruct (decide (i = m)) as [->|Hne].
        -- rewrite Hs in Hi. injection Hi as <-. exists r'. rewrite list_lookup_insert_eq by (by eapply lookup_lt_Some).
           rewrite decide_True by lia. done.
        -- rewrite list_lookup_insert_ne by done. destruct (Hrs i s' Hi) as (ri & Hri & Hrest''). exists ri. split; [done|].
           rewrite (decide_ext _ (i < m)%nat) by lia. done.
  - exists st. destruct (shard_skip s (Z.of_nat k) Hsok Hin) as [En El]. split; [done|]. split; try apply M.
    + rewrite (union_list_snoc _ _ _ Hs), El. apply M.
    + intros i s' Hi. destruct (Hrs i s' Hi) as (ri & Hri & Hri' & Hrest). exists ri. split_and!; [done..|]. rewrite Hrest.
      destruct (decide (i = m)) as [->|Hne].
      * rewrite Hs in Hi. injection Hi as <-. rewrite decide_False, decide_True by lia. by rewrite En.
      * by rewrite (decide_ext (i < S m)%nat (i < m)%nat) by lia.
Qed.

Lemma shards_step H k m st : merging H k 0 st -> (m <= length shs)%nat ->
  exists st', foldM (merge_entry shuffle max_degree idmaps) (holders shs m (Z.of_nat k)) st = Ok st' /\ merging H k m st'.
Proof.
  intros M. induction m as [|m IH]; intros Hm; [by exists st|]. destruct IH as (st1 & E1 & M1); [lia|].
  destruct (lookup_lt_is_Some_2 shs m Hm) as [s Hs]. destruct (shard_step H k m s st1 M1 Hs) as (st2 & E2 & M2). exists st2.
  unfold holders in *. rewrite seq_S, bind_app, foldM_app, E1. cbn [mbind outcome_bind list_bind]. rewrite app_nil_r. done.
Qed.

Lemma entry_flush id i st : ms_cur_id st < id ->
  merge_entry shuffle max_degree idmaps (id, i) st = merge_entry shuffle max_degree idmaps (id, i) (flush_node shuffle max_degree id st).
Proof.
  intros H. unfold merge_entry. rewrite (proj2 (Z.ltb_lt _ _) H). unfold flush_node. destruct (write_nhood _ _ st) as [w size].
  cbn [ms_cur_id]. by rewrite Z.ltb_irrefl.
Qed.

Lemma next_node H k st : covering shs n -> merging H k (length shs) st -> (S k < n)%nat ->
  exists st', foldM (merge_entry shuffle max_degree idmaps) (holders shs (length shs) (Z.of_nat (S k))) st = Ok st' /\
    merging H (S k) (length shs) st'.
Proof.
  intros Hc M Hk. destruct (shards_step H (S k) (length shs) _ (flush_ok H k st M Hk) (le_n _)) as (st' & E & M').
  exists st'. split; [|done]. rewrite <- E. destruct (proj1 (Hc (Z.of_nat (S k))) ltac:(lia)) as (i & s & Hs & Hin).
  assert ((Z.of_nat (S k), Z.of_nat i) ∈ holders shs (length shs) (Z.of_nat (S k))) as Hi.
  { apply elem_of_holders. exists i. rewrite (list_lookup_total_correct _ _ _ Hs). split_and!; [done..|by eapply lookup_lt_Some]. }
  destruct (holders shs (length shs) (Z.of_nat (S k))) as [|e l] eqn:Eh; [by apply elem_of_nil in Hi|].
  assert (e ∈ holders shs (length shs) (Z.of_nat (S k))) as (j & -> & _)%elem_of_holders by (rewrite Eh; by left).
  cbn [foldM]. rewrite (entry_flush _ _ st); [done|]. rewrite (mg_cur _ _ _ _ M). lia.
Qed.

Lemma loop_ok H k st : covering shs n -> merging H 0 0 st -> (k < n)%nat ->
  exists st', foldM (merge_entry shuffle max_degree idmaps) (pairs shs (S k)) st = Ok st' /\ merging H k (length shs) st'.
Proof.
  intros Hc M. unfold pairs. induction k as [|k IH]; intros Hk.
  - cbn [seq mbind list_bind]. rewrite app_nil_r. by apply shards_step.
  - destruct IH as (st1 & E1 & M1); [lia|]. destruct (next_node H k st1 Hc M1 Hk) as (st2 & E2 & M2). exists st2.
    rewrite seq_S, bind_app, foldM_app, E1. cbn [mbind outcome_bind list_bind]. rewrite app_nil_r. done.
Qed.

Definition merged_nodes (cs : nat -> list Z) : list node := (fun k => {| coords := cs k; nbrs := merged k |}) <$> seq 0 n.

Lemma read_idmaps l : Forall shard_ok l -> forall acc,
  foldM (fun f l => m ← read_idmap f; Ok (l ++ [m])) (idmap_file <$> l) acc = Ok (acc ++ (sh_ids <$> l)).
Proof.
  induction 1 as [|s l Hs _ IH]; intros acc; [by rewrite app_nil_r|]. cbn [foldM fmap list_fmap].
  assert (read_idmap (idmap_file s) = Ok (sh_ids s)) as -> by (apply read_idmap_ok; apply Hs). cbn [mbind outcome_bind]. by rewrite IH, <- app_assoc.
Qed.

(** The start node of a shard, as a vector of the whole set. *)
Definition start_node (s : shard) : Z := renamed s (sh_medoid s).

(** The headers of the graphs, up to the lists. *)
Lemma read_headers (rs : list RS) : Forall2 (fun s r => rd_ok r /\ rd_rest r = shard_graph s) shs rs ->
  exists rs1 rs2 rs3, each (fun _ => rd_read 8) idmaps rs = Ok ((fun s => le64 (sh_size s)) <$> shs, rs1) /\
    each (fun _ => rd_u32) idmaps rs1 = Ok (sh_width <$> shs, rs2) /\
    each read_medoid idmaps rs2 = Ok (start_node <$> shs, rs3) /\
    Forall2 (fun s r => rd_ok r /\ rd_rest r = sh_lists s ≫= nhood_bytes) shs rs3.
Proof.
  intros Hrs. rewrite Forall_forall in Hok.
  destruct (each_ok sh_ids (fun _ => rd_read 8) (fun s => le64 (sh_size s)) (fun s => le64 (sh_size s))
    (fun s => le32 (sh_width s) ++ le32 (sh_medoid s) ++ le64 0 ++ (sh_lists s ≫= nhood_bytes)) shs rs) as (rs1 & E1 & Hrs1);
    [intros s r b _ Hr E; by apply rd_take | exact Hrs |].
  destruct (each_ok sh_ids (fun _ => rd_u32) sh_width (fun s => le32 (sh_width s))
    (fun s => le32 (sh_medoid s) ++ le64 0 ++ (sh_lists s ≫= nhood_bytes)) shs rs1) as (rs2 & E2 & Hrs2);
    [intros s r b Hs Hr E; apply rd_u32_ok; [done..|by apply Hok] | exact Hrs1 |].
  destruct (each_ok sh_ids read_medoid start_node (fun s => le32 (sh_medoid s) ++ le64 0)
    (fun s => sh_lists s ≫= nhood_bytes) shs rs2) as (rs3 & E3 & Hrs3).
  - intros s r b Hs Hr E. rewrite <- app_assoc in E. pose proof (so_small _ (Hok s Hs)). pose proof (so_medoid _ (Hok s Hs)) as Hm.
    destruct (rd_u32_ok r _ _ Hr E) as (r1 & Er1 & Hr1 & Hb1); [lia|]. destruct (rd_take r1 8 (le64 0) b Hr1 Hb1 eq_refl) as (r2 & Er2 & Hr2 & Hb2).
    exists r2. unfold read_medoid. rewrite Er1. cbn [mbind outcome_bind]. rewrite Er2. cbn [mbind outcome_bind].
    assert (read_u64 (bytes_at (le64 0)) 0 =? 0 = true) as -> by by vm_compute. unfold rename.
    destruct (lookup_lt_is_Some_2 (sh_ids s) (Z.to_nat (sh_medoid s))) as [x Hx]; [lia|]. rewrite Hx.
    assert (start_node s = x) as -> by (by apply list_lookup_total_correct). done.
  - eapply Forall2_impl; [exact Hrs2|]. intros s r [? E]. split; [done|]. by rewrite <- app_assoc.
  - by exists rs1, rs2, rs3.
Qed.

Lemma merging_start H (rs : list RS) (w : WS) :
  Forall2 (fun s r => rd_ok r /\ rd_rest r = sh_lists s ≫= nhood_bytes) shs rs -> at_end w -> wr_file w = H ->
  merging H 0 0 {| ms_cur_id := 0; final_nhood := []; nhood_set := ∅; ms_readers := rs; ms_writer := w;
                   merged_index_size := 24; ms_shuffles := 0 |}.
Proof.
  intros Hrs Hw Hf. split; cbn [ms_cur_id final_nhood nhood_set ms_readers ms_writer merged_index_size ms_shuffles]; try done.
  - intros i s Hs. destruct (Forall2_lookup_l _ _ _ i s Hrs Hs) as (r & Hr & Hro & Hrest). exists r. split_and!; [done..|].
    rewrite Forall_forall in Hok. pose proof (Hok s (list_elem_of_lookup_2 _ _ _ Hs)) as Hs'. rewrite decide_False by lia. unfold nodes_from.
    rewrite from_all; [rewrite snd_zip by (by rewrite (so_lists _ Hs')); done|]. rewrite shard_zip by done.
    eapply Forall_impl; [apply so_ids, Hs'|]. simpl. lia.
  - unfold merged_bytes. simpl. by rewrite app_nil_r.
Qed.

Lemma pwrite_head a b c : length a = length c -> pwrite (a ++ b) (0%nat, c) = c ++ b.
Proof. intros E. unfold pwrite. rewrite Nat.sub_0_l. cbn [replicate take Nat.add app]. by rewrite app_nil_r, <- E, drop_app_length. Qed.

Lemma merge_shards_spec (rs : list RS) (w : WS) s0 cs : covering shs n -> (0 < n)%nat -> Z.of_nat (length shs) < 2 ^ 32 ->
  last shs = Some s0 -> Forall2 (fun s r => rd_ok r /\ rd_rest r = shard_graph s) shs rs -> at_end w -> wr_file w = [] ->
  let size := 24 + Z.of_nat (length (merged_bytes n)) in
  merge_shards shuffle max_degree (idmap_file <$> shs) rs w =
    Ok (vamana_file size max_degree (start_node s0) 0 (merged_nodes cs) [],
        bin_header (Z.of_nat (length shs)) 1 ++ ((start_node <$> shs) ≫= le32)).
Proof.
  intros Hc Hn Hlen Hlast Hrs Hw Hf size. unfold merge_shards. rewrite read_idmaps by done. cbn [mbind outcome_bind app].
  destruct (read_headers rs Hrs) as (rs1 & rs2 & rs3 & -> & E2 & E3 & Hrs3). cbn [mbind outcome_bind]. rewrite E2. cbn [mbind outcome_bind].
  rewrite E3. cbn [mbind outcome_bind]. rewrite fmap_last, Hlast. cbn [fmap option_fmap option_map].
  destruct (write_at_end (le64 24) w Hw) as [Hw1 Hf1]. destruct (write_at_end (le32 max_degree) _ Hw1) as [Hw2 Hf2].
  destruct (write_at_end (le32 (start_node s0)) _ Hw2) as [Hw3 Hf3]. destruct (write_at_end (le64 0) _ Hw3) as [Hw4 Hf4].
  rewrite (node_shard_pairs shs n) by done.
  destruct (loop_ok _ (n - 1) _ Hc (merging_start _ _ _ Hrs3 Hw4 Hf4)) as (st & E & M); [lia|].
  replace (S (n - 1)) with n in E by lia. cbv zeta. rewrite E. cbn [mbind outcome_bind].
  pose proof (write_nhood_ok _ _ _ M ltac:(lia)) as W. destruct (write_nhood shuffle max_degree st) as [w' size'].
  destruct W as (Hw' & Hf' & Es). replace (S (n - 1)) with n in * by lia. subst size'. fold size.
  destruct (wr_reset_ok w' (proj1 Hw')) as (Hr & Hrf & Hrp). destruct (wr_write_ok (le64 size) _ Hr) as (_ & -> & _). rewrite Hrp, Hrf, Hf'.
  rewrite Hf3, Hf2, Hf1, Hf. cbn [app]. do 2 f_equal.
  - rewrite <- !app_assoc. rewrite pwrite_head by done. unfold vamana_file, vbytes, merged_nodes, merged_bytes.
    rewrite list_fmap_bind. by rewrite app_nil_r.
  - unfold bin_header. rewrite length_fmap. by rewrite <- app_assoc.
Qed.
End loop.

(** ** What the merged lists hold *)
Lemma foldl_add_new l : forall acc, NoDup acc -> NoDup (foldl add_new acc l) /\ forall x, x ∈ foldl add_new acc l <-> x ∈ acc \/ x ∈ l.
Proof.
  induction l as [|y l IH]; intros acc Hacc; [split; [done|]; intros x; rewrite elem_of_nil; tauto|]. cbn [foldl]. unfold add_new at 2 4.
  case_decide as Hy.
  - destruct (IH acc Hacc) as [H1 H2]. split; [done|]. intros x. rewrite H2, elem_of_cons. naive_solver.
  - destruct (IH (acc ++ [y])) as [H1 H2].
    + apply NoDup_app. split_and!; [done| |apply NoDup_singleton]. by intros x Hx ->%list_elem_of_singleton.
    + split; [done|]. intros x. rewrite H2, elem_of_app, list_elem_of_singleton, elem_of_cons. tauto.
Qed.

Lemma union_list_spec k shs : NoDup (union_list k shs) /\ forall x, x ∈ union_list k shs <-> exists s, s ∈ shs /\ x ∈ shard_list k s.
Proof.
  unfold union_list. destruct (foldl_add_new (shs ≫= shard_list k) [] (NoDup_nil_2)) as [H1 H2]. split; [done|].
  intros x. rewrite H2, elem_of_nil, list_elem_of_bind. naive_solver.
Qed.

Lemma merged_list_spec shuffle max_degree shs k : (forall i l, shuffle i l ≡ₚ l) ->
  NoDup (merged_list shuffle max_degree shs k) /\ (length (merged_list shuffle max_degree shs k) <= Z.to_nat max_degree)%nat /\
  (forall x, x ∈ merged_list shuffle max_degree shs k -> exists s, s ∈ shs /\ x ∈ shard_list (Z.of_nat k) s) /\
  ((length (union_list (Z.of_nat k) shs) <= Z.to_nat max_degree)%nat ->
   forall s x, s ∈ shs -> x ∈ shard_list (Z.of_nat k) s -> x ∈ merged_list shuffle max_degree shs k).
Proof.
  intros Hs. unfold merged_list. destruct (union_list_spec (Z.of_nat k) shs) as [Hnd Hin].
  pose proof (Hs k (union_list (Z.of_nat k) shs)) as Hp. split_and!.
  - eapply sublist_NoDup; [|apply sublist_take]. by rewrite Hp.
  - rewrite length_take. lia.
  - intros x Hx. apply Hin. rewrite <- Hp. by eapply elem_of_take in Hx as (i & Hi%list_elem_of_lookup_2 & _).
  - intros Hl s x Hx1 Hx2. rewrite take_ge by (by rewrite Hp). rewrite Hp. apply Hin. by exists s.
Qed.

(** The files that [merge_shards] opens, with caches of given sizes. *)
Fixpoint open_all (rcache : nat) (files : list (list Z)) : outcome (list Reader.cached_ifstream) :=
  match files with
  | [] => Ok []
  | f :: files => r ← Reader.open f rcache 0; rs ← open_all rcache files; Ok (r :: rs)
  end.

Definition merge_shards_files (shuffle : nat -> list Z -> list Z) (max_degree : Z) (idmap_files vamana_files : list (list Z))
    (rcache wcache : nat) : outcome (list Z * list Z) :=
  vamana_readers ← open_all rcache vamana_files;
  diskann_writer ← Writer.open [] wcache 0;
  merge_shards shuffle max_degree idmap_files vamana_readers diskann_writer.

Lemma open_all_ok rcache shs : (0 < rcache)%nat -> exists rs, open_all rcache (shard_graph <$> shs) = Ok rs /\
  Forall2 (fun s r => rd_ok r /\ rd_rest r = shard_graph s) shs rs.
Proof.
  intros Hc. induction shs as [|s shs (rs & IH & Hrs)]; [by exists []|]. rewrite fmap_cons. cbn [open_all].
  destruct (Reader.reader_open_wf (shard_graph s) rcache 0) as (r & -> & H1 & H2); [done | lia |]. cbn [mbind outcome_bind].
  rewrite IH. cbn [mbind outcome_bind].
  exists (r :: rs). split; [done|]. by constructor.
Qed.

(** C39. [merge_shards] writes the union of the shards: whatever the sizes of
    the buffers, if the shards have no frozen points and hold the vectors
    [0 .. n - 1] between them, the files are the graph (in the format that
    [create_disk_layout] reads) whose [k]-th list is [merged_list], with the
    true file size in its first word, and the renamed start nodes; each list
    has no duplicates and at most [max_degree] entries, all of them neighbours
    of [k] in some shard, and all of these if they fit. *)
Theorem merge_shards_correct shuffle max_degree shs n s0 cs rcache wcache :
  Forall shard_ok shs -> covering shs n -> (0 < n)%nat -> Z.of_nat (length shs) < 2 ^ 32 -> last shs = Some s0 ->
  0 <= max_degree < 2 ^ 32 -> 24 + Z.of_nat n * (4 + 4 * max_degree) < 2 ^ 64 -> (forall i l, shuffle i l ≡ₚ l) ->
  (0 < rcache)%nat -> (0 < wcache)%nat ->
  let f := vamana_file (24 + Z.of_nat (length (merged_bytes shuffle max_degree shs n))) max_degree (start_node s0) 0
             (merged_nodes shuffle max_degree shs n cs) [] in
  merge_shards_files shuffle max_degree (idmap_file <$> shs) (shard_graph <$> shs) rcache wcache =
    Ok (f, bin_header (Z.of_nat (length shs)) 1 ++ ((start_node <$> shs) ≫= le32)) /\
  length f = (24 + length (merged_bytes shuffle max_degree shs n))%nat /\
  forall k, let l := merged_list shuffle max_degree shs k in
    NoDup l /\ (length l <= Z.to_nat max_degree)%nat /\
    (forall x, x ∈ l -> exists s, s ∈ shs /\ x ∈ shard_list (Z.of_nat k) s) /\
    ((length (union_list (Z.of_nat k) shs) <= Z.to_nat max_degree)%nat ->
     forall s x, s ∈ shs -> x ∈ shard_list (Z.of_nat k) s -> x ∈ l).
Proof.
  intros Hok Hc Hn Hlen Hlast Hmax Hsize Hsh Hrc Hwc f. split; [|split].
  - unfold merge_shards_files. destruct (open_all_ok rcache shs Hrc) as (rs & -> & Hrs). cbn [mbind outcome_bind].
    destruct (Writer.writer_open_wf [] wcache 0) as (w & -> & W1 & W2 & W3); [done | done |]. cbn [mbind outcome_bind].
    apply merge_shards_spec; try done. split; [done|]. simpl. by rewrite W3, W2.
  - unfold f, vamana_file, vbytes, merged_nodes, merged_bytes. rewrite list_fmap_bind, app_nil_r, !length_app. reflexivity.
  - intros k. by apply merged_list_spec.
Qed.

(** Three vectors in two shards that share the second one. *)
Definition shard_a : shard := {| sh_size := 48; sh_width := 2; sh_medoid := 0; sh_ids := [0; 1]; sh_lists := [[1]; [0]] |}.
Definition shard_b : shard := {| sh_size := 48; sh_width := 2; sh_medoid := 1; sh_ids := [1; 2]; sh_lists := [[1]; [0]] |}.

Lemma merge_shards_witness :
  let f := vamana_file (24 + Z.of_nat (length (merged_bytes (fun _ => reverse) 1 [shard_a; shard_b] 3))) 1 2 0
             (merged_nodes (fun _ => reverse) 1 [shard_a; shard_b] 3 (fun _ => [])) [] in
  merge_shards_files (fun _ => reverse) 1 (idmap_file <$> [shard_a; shard_b]) (shard_graph <$> [shard_a; shard_b]) 3 5 = Ok (f, bin_header 2 1 ++ ((start_node <$> [shard_a; shard_b]) ≫= le32)) /\
  merged_list (fun _ => reverse) 1 [shard_a; shard_b] 1 = [2].
Proof.
  split; [|reflexivity]. apply (merge_shards_correct (fun _ => reverse) 1 [shard_a; shard_b] 3 shard_b (fun _ => []) 3 5); try done || lia.
  - repeat constructor; simpl; try lia; repeat constructor; simpl; lia.
  - intros k. split.
    + intros Hk. destruct (decide (k = 2)) as [->|]; [exists 1%nat, shard_b; split; [done|]; by right; left|].
      exists 0%nat, shard_a. split; [done|]. destruct (decide (k = 0)) as [->|]; [by left|]. replace k with 1 by lia. by right; left.
    + intros (i & s & Hs & Hk). destruct i as [|[|i]]; [injection Hs as <- | injection Hs as <- | done]; cbn in Hk;
        rewrite !elem_of_cons, elem_of_nil in Hk; lia.
  - intros i l. apply reverse_Permutation.
Defined.
