(* ===== verification/Partition.v ===== *)
(** * Samples and shards of a data file

    [src/src/utils/partition_and_pq.cpp]: the random samples of a data file,
    and the cut of the file into overlapping shards, one for each centre, with
    the maps of identifiers that [MergeShards] reads.  Random draws are
    arguments; the closest centres are those of [KMeans]; the data file is read
    through the interface of [CachedIO] or as a stream. *)
From S2P Require Import Prelude Layout Node FloatArith Arrays KMeans Files CachedIO DiskLayout MergeShards.

Section Sample.
(** [size]: the bytes of an element; [sample i]: the [i]-th draw is below the rate. *)
Context (size : nat) (sample : nat -> bool).

(** A read into a buffer: a short one leaves the end of the buffer as it was. *)
Definition read_into (n : nat) (buf : list Z) (s : ifstream) : list Z * ifstream :=
  let '(b, s) := ifs_read n s in (b ++ drop (length b) buf, s).

Record sampling := {
  sp_reader : ifstream;
  sp_row : list Z;                           (** [cur_row] *)
  sp_data : list Z;                          (** the file of samples *)
  sp_ids : list Z;                           (** the file of identifiers *)
  sp_count : Z;                              (** [num_sampled_pts_u32] *)
}.

Definition sample_row (nd i : nat) (s : sampling) : sampling :=
  if sample i then
    let '(row, r) := read_into (size * nd) (sp_row s) (sp_reader s) in
    {| sp_reader := r; sp_row := row; sp_data := sp_data s ++ row; sp_ids := sp_ids s ++ le32 (u32 (Z.of_nat i));
       sp_count := u32 (sp_count s + 1) |}
  else {| sp_reader := ifs_skip (size * nd) (sp_reader s); sp_row := sp_row s; sp_data := sp_data s; sp_ids := sp_ids s; sp_count := sp_count s |}.

(** The two files that [gen_random_slice] writes. *)
Definition gen_random_slice_files (base_file : list Z) (offset : nat) : list Z * list Z :=
  let s := ifs_skip offset (Some base_file) in
  let '(b1, s) := ifs_read 4 s in
  let '(b2, s) := ifs_read 4 s in
  let npts := Z.to_nat (read_u32 (bytes_at b1) 0) in
  let nd_u32 := read_u32 (bytes_at b2) 0 in
  let nd := Z.to_nat nd_u32 in
  let s := foldl (fun s i => sample_row nd i s) {| sp_reader := s; sp_row := replicate (size * nd) 0;
             sp_data := le32 0 ++ le32 nd_u32; sp_ids := le32 0 ++ le32 1; sp_count := 0 |} (range 0 npts) in
  let '(data, count) := if sp_count s =? 0 then (sp_data s ++ sp_row s, 1) else (sp_data s, sp_count s) in
  (pwrite data (0%nat, le32 count), pwrite (sp_ids s) (0%nat, le32 count)).

Context {F : Type} (of_bytes : list Z -> F).

(** The elements of a row, as floats. *)
Definition floats_of (n : nat) (row : list Z) : list F := (fun d => of_bytes (take size (drop (d * size) row))) <$> range 0 n.

Record mem_sampling := {
  ms_reader : ifstream;
  ms_row : list Z;                           (** [cur_vector_T] *)
  ms_vectors : list (list F);                (** [sampled_vectors] *)
}.

Definition sample_vector (ndims i : nat) (s : mem_sampling) : mem_sampling :=
  if sample i then
    let '(row, r) := read_into (ndims * size) (ms_row s) (ms_reader s) in
    {| ms_reader := r; ms_row := row; ms_vectors := ms_vectors s ++ [floats_of ndims row] |}
  else {| ms_reader := ifs_skip (ndims * size) (ms_reader s); ms_row := ms_row s; ms_vectors := ms_vectors s |}.

(** The samples in memory, their number and their dimension. *)
Definition gen_random_slice (data_file : list Z) : list F * nat * nat :=
  let '(b1, s) := ifs_read 4 (Some data_file) in
  let '(b2, s) := ifs_read 4 s in
  let npts := Z.to_nat (read_u32 (bytes_at b1) 0) in
  let ndims := Z.to_nat (read_u32 (bytes_at b2) 0) in
  let s := foldl (fun s i => sample_vector ndims i s) {| ms_reader := s; ms_row := replicate (ndims * size) 0; ms_vectors := [] |} (range 0 npts) in
  let vectors := match ms_vectors s with [] => [floats_of ndims (ms_row s)] | vs => vs end in
  (mjoin vectors, length vectors, ndims).

(** ** What the samples are *)

(** A data file of [n] rows of [nd] elements. *)
Definition data_file (nd : nat) (rows : list (list Z)) : list Z := bin_header (Z.of_nat (length rows)) (Z.of_nat nd) ++ mjoin rows.

Definition sampled (n : nat) : list nat := filter (fun i => sample i = true) (range 0 n).

Lemma rows_drop (w : nat) (rows : list (list Z)) i row : Forall (fun r => length r = w) rows -> rows !! i = Some row ->
  mjoin (drop i rows) = row ++ mjoin (drop (S i) rows) /\ length row = w.
Proof.
  intros Hw Hi. rewrite (drop_S rows row i Hi). split; [done|]. by apply (Forall_lookup_1 _ _ _ _ Hw Hi).
Qed.

Lemma ifs_read_row (w : nat) (rows : list (list Z)) i row : Forall (fun r => length r = w) rows -> rows !! i = Some row ->
  ifs_read w (Some (mjoin (drop i rows))) = (row, Some (mjoin (drop (S i) rows))).
Proof. intros Hw Hi. destruct (rows_drop w rows i row Hw Hi) as [-> Hl]. by apply ifs_read_app. Qed.

Lemma ifs_skip_row (w : nat) (rows : list (list Z)) i row : Forall (fun r => length r = w) rows -> rows !! i = Some row ->
  ifs_skip w (Some (mjoin (drop i rows))) = Some (mjoin (drop (S i) rows)).
Proof.
  intros Hw Hi. destruct (rows_drop w rows i row Hw Hi) as [-> Hl]. unfold ifs_skip. cbn [fmap option_fmap option_map].
  by rewrite drop_app_length' by done.
Qed.

Lemma sampled_S n : sampled (S n) = sampled n ++ (if sample n then [n] else []).
Proof.
  unfold sampled. rewrite range_S, filter_app. f_equal. rewrite filter_cons, filter_nil. destruct (sample n); by case_decide.
Qed.

Lemma read_into_row (w : nat) (rows : list (list Z)) i row buf : Forall (fun r => length r = w) rows -> rows !! i = Some row -> length buf = w ->
  read_into w buf (Some (mjoin (drop i rows))) = (row, Some (mjoin (drop (S i) rows))).
Proof.
  intros Hw Hi Hb. unfold read_into. rewrite (ifs_read_row w rows i row Hw Hi). destruct (rows_drop w rows i row Hw Hi) as [_ Hl].
  rewrite drop_ge by lia. by rewrite app_nil_r.
Qed.

Lemma samples_loop nd rows n d0 i0 : Forall (fun r => length r = size * nd)%nat rows -> Z.of_nat (length rows) < 2 ^ 32 -> (n <= length rows)%nat ->
  exists row, foldl (fun s i => sample_row nd i s) {| sp_reader := Some (mjoin rows); sp_row := replicate (size * nd) 0; sp_data := d0; sp_ids := i0; sp_count := 0 |} (range 0 n) =
    {| sp_reader := Some (mjoin (drop n rows)); sp_row := row; sp_data := d0 ++ mjoin ((fun i => rows !!! i) <$> sampled n);
       sp_ids := i0 ++ ((Z.of_nat <$> sampled n) ≫= le32); sp_count := Z.of_nat (length (sampled n)) |} /\
    length row = (size * nd)%nat /\ (sampled n = [] -> row = replicate (size * nd) 0).
Proof.
  intros Hw Hlt. induction n as [|n IH]; intros Hn.
  { exists (replicate (size * nd) 0). simpl. rewrite !app_nil_r. split_and!; [done | apply length_replicate | done]. }
  destruct IH as (row & E & Hl & Hr); [lia|]. destruct (lookup_lt_is_Some_2 rows n) as [x Hx]; [lia|].
  assert (length (sampled n) <= n)%nat as Hsn. { unfold sampled. etrans; [apply length_filter|]. by rewrite length_range, Nat.sub_0_r. }
  rewrite range_S, foldl_app, E. cbn [foldl]. unfold sample_row. cbn [sp_reader sp_row sp_data sp_ids sp_count]. rewrite sampled_S. destruct (sample n).
  - rewrite (read_into_row _ _ _ x) by done. exists x. rewrite !fmap_app, join_app, bind_app, length_app. simpl. rewrite (list_lookup_total_correct _ _ _ Hx).
    rewrite !app_nil_r, !app_assoc, !u32_small by lia. replace (Z.of_nat (length (sampled n) + 1)) with (Z.of_nat (length (sampled n)) + 1) by lia.
    split; [done|]. split; [by apply (rows_drop _ rows n)|]. intros C. by apply app_eq_nil in C as [_ ?].
  - rewrite (ifs_skip_row _ _ _ x) by done. exists row. by rewrite !app_nil_r.
Qed.

(** The count at the head of a file. *)
Lemma pwrite_count x y l : pwrite (le32 x ++ l) (0%nat, le32 y) = le32 y ++ l.
Proof using. unfold pwrite. cbn [Nat.sub replicate]. by rewrite app_nil_r. Qed.

(** [gen_random_slice]: for a data file at [offset], the sample is again a
    data file, of the rows drawn, with a file that maps its rows to their
    identifiers; when no row is drawn it is one row of zeros, and the file of
    identifiers announces one entry that it does not have. *)
Theorem gen_random_slice_correct nd rows pre :
  Forall (fun r => length r = size * nd)%nat rows -> Z.of_nat (length rows) < 2 ^ 32 -> Z.of_nat nd < 2 ^ 32 ->
  let ids := sampled (length rows) in
  gen_random_slice_files (pre ++ data_file nd rows) (length pre) =
    if decide (ids = []) then (data_file nd [replicate (size * nd) 0], bin_header 1 1)
    else (data_file nd ((fun i => rows !!! i) <$> ids), bin_header (Z.of_nat (length ids)) 1 ++ ((Z.of_nat <$> ids) ≫= le32)).
Proof.
  intros Hw Hr Hd ids. unfold gen_random_slice_files, ifs_skip. cbn [fmap option_fmap option_map]. rewrite drop_app_length.
  unfold data_file at 1, bin_header at 1. rewrite <- app_assoc, !ifs_read_app by done. rewrite !u32_small by lia. rewrite !read_u32_bytes by lia.
  rewrite !Nat2Z.id. destruct (samples_loop nd rows (length rows) (le32 0 ++ le32 (Z.of_nat nd)) (le32 0 ++ le32 1)) as (row & -> & Hl & Hz); [done..|].
  fold ids in Hz |- *. cbn [sp_reader sp_row sp_data sp_ids sp_count].
  assert (Z.of_nat (length ids) < 2 ^ 32) as Hid.
  { assert (length ids <= length rows)%nat; [|lia]. unfold ids, sampled. etrans; [apply length_filter|]. by rewrite length_range, Nat.sub_0_r. }
  case_decide as Hids.
  - rewrite Hids. rewrite (Hz Hids). change (Z.of_nat (length (@nil nat)) =? 0) with true. cbv beta iota zeta. rewrite <- !app_assoc, !pwrite_count. unfold data_file, bin_header. cbn [length].
    change (u32 (Z.of_nat 1)) with 1. change (u32 1) with 1. rewrite u32_small by lia. simpl. by rewrite !app_nil_r.
  - destruct (Z.eqb_spec (Z.of_nat (length ids)) 0) as [E|_]; [destruct ids; done|]. cbv beta iota zeta. rewrite <- !app_assoc, !pwrite_count.
    unfold data_file, bin_header. rewrite length_fmap, !u32_small by lia. by rewrite <- !app_assoc.
Qed.
End Sample.

(** ** Shards *)
Definition MAX_BLOCK_SIZE : nat := Z.to_nat 16384.

Lemma MAX_BLOCK_SIZE_eq : Z.of_nat MAX_BLOCK_SIZE = 16384.
Proof. done. Qed.
#[local] Opaque MAX_BLOCK_SIZE.

(** [DIV_ROUND_UP(num_points, block_size)]. *)
Definition num_blocks (x y : nat) : nat := (x / y + if bool_decide (x mod y = 0)%nat then 0 else 1)%nat.

(** The two files of a shard, and the number of its points. *)
Record shard_files := {
  sf_data : list Z;
  sf_idmap : list Z;
  sf_count : Z;
}.

Section Shards.
Context {F : Type} `{!FloatArith F}.
Context (sgemm : nat -> nat -> nat -> F -> list F -> list F -> F -> list F -> list F) (snrm2 : list F -> F).
Context (schedule : nat -> nat -> list nat -> list nat) (garbage : nat -> nat -> list Z) (garbage_f : nat -> nat -> list F).
Context {RS : Type} `{!ByteReader RS}.
Context (size : nat) (of_bytes : list Z -> F).

Definition add_point_to_shard (row : list Z) (id : nat) (s : shard_files) (_ : ()) : shard_files :=
  {| sf_data := sf_data s ++ row; sf_idmap := sf_idmap s ++ le32 (u32 (Z.of_nat id)); sf_count := sf_count s + 1 |}.

(** The point [p] of a block goes to its [k_base] shards. *)
Definition shard_point (block : list Z) (dim start_id k_base : nat) (closest : list Z) (p : nat) (shards : list shard_files) :
    outcome (list shard_files) :=
  foldM (fun p1 shards =>
    shard_id ← rd closest (p * k_base + p1);
    upd (add_point_to_shard (take (size * dim) (drop (p * (size * dim)) block)) (start_id + p)) shards (Z.to_nat shard_id) ())
    (range 0 k_base) shards.

Record sharding := {
  sd_reader : RS;
  sd_closest : list Z;                       (** [block_closest_centers] *)
  sd_shards : list shard_files;
}.

Definition shard_block (pivots : list F) (num_points dim num_centers k_base block_size block : nat) (s : sharding) : outcome sharding :=
  let start_id := (block * block_size)%nat in
  let cur_blk_size := (Nat.min ((block + 1) * block_size) num_points - start_id)%nat in
  '(data, r) ← rd_read (size * (cur_blk_size * dim)) (sd_reader s);
  '(closest, _) ← compute_closest_centers sgemm snrm2 (schedule block) (garbage block) (garbage_f block)
      (floats_of size of_bytes (cur_blk_size * dim) data) cur_blk_size dim pivots num_centers k_base (sd_closest s) None None;
  shards ← foldM (shard_point data dim start_id k_base closest) (range 0 cur_blk_size) (sd_shards s);
  Ok {| sd_reader := r; sd_closest := closest; sd_shards := shards |}.

(** [None]: the dimensions differ and the call returns -1. *)
Definition shard_data_into_clusters (r : RS) (pivots : list F) (num_centers dim k_base : nat) : outcome (option (list (list Z * list Z))) :=
  '(npts32, r) ← rd_u32 r;
  '(basedim32, r) ← rd_u32 r;
  let num_points := Z.to_nat npts32 in
  if negb (basedim32 =? Z.of_nat dim) then Ok None
  else
    let block_size := Nat.min MAX_BLOCK_SIZE num_points in
    if bool_decide (block_size = 0)%nat then Crash
    else
      s ← foldM (shard_block pivots num_points dim num_centers k_base block_size) (range 0 (num_blocks num_points block_size))
        {| sd_reader := r; sd_closest := replicate (block_size * k_base) 0;
           sd_shards := replicate num_centers {| sf_data := le32 0 ++ le32 basedim32; sf_idmap := le32 0 ++ le32 1; sf_count := 0 |} |};
      Ok (Some ((fun s => (pwrite (sf_data s) (0%nat, le32 (u32 (sf_count s))), pwrite (sf_idmap s) (0%nat, le32 (u32 (sf_count s))))) <$> sd_shards s)).

(** ** What the shards hold *)
Context (rows : list (list Z)) (dim nc k : nat).

(** The files of a shard of the points [ids], before the counts are written. *)
Definition files_of (ids : list nat) : shard_files := {|
  sf_data := le32 0 ++ le32 (Z.of_nat dim) ++ mjoin ((fun i => rows !!! i) <$> ids);
  sf_idmap := le32 0 ++ le32 1 ++ ((fun i => u32 (Z.of_nat i)) <$> ids) ≫= le32;
  sf_count := Z.of_nat (length ids) |}.

Definition files_for (held : nat -> list nat) : list shard_files := (fun c => files_of (held c)) <$> range 0 nc.

Lemma files_for_ext h h' : (forall c, (c < nc)%nat -> h c = h' c) -> files_for h = files_for h'.
Proof using. intros H. unfold files_for. apply list_fmap_ext. intros i c Hc. by rewrite H by (apply list_elem_of_lookup_2 in Hc; apply elem_range in Hc; lia). Qed.

(** The points below [m] that have [c] among their centres. *)
Definition held (css : list (list nat)) (m c : nat) : list nat := filter (fun i => c ∈ css !!! i) (range 0 m).

Lemma held_S css m c : held css (S m) c = held css m c ++ (if decide (c ∈ css !!! m) then [m] else []).
Proof. unfold held. rewrite range_S, filter_app. f_equal. Qed.

Lemma held_app css css' m c : (m <= length css)%nat -> held (css ++ css') m c = held css m c.
Proof.
  intros Hm. unfold held. assert (forall i, i ∈ range 0 m -> (css ++ css') !!! i = css !!! i) as H.
  { intros i Hi%elem_range. apply lookup_total_app_l. lia. }
  induction (range 0 m) as [|i l IH]; [done|]. rewrite !filter_cons, (H i) by set_solver. rewrite IH by set_solver. done.
Qed.

Lemma files_snoc ids i : add_point_to_shard (rows !!! i) i (files_of ids) () = files_of (ids ++ [i]).
Proof.
  unfold add_point_to_shard, files_of. cbn [sf_data sf_idmap sf_count]. f_equal.
  - rewrite fmap_app, join_app. simpl. by rewrite app_nil_r.
  - rewrite fmap_app, bind_app. simpl. done.
  - rewrite length_app. simpl. lia.
Qed.

Lemma shard_point_ok block start closest p cs h : Z.of_nat nc <= 2 ^ 32 -> shows k p cs closest -> length cs = k -> NoDup cs -> Forall (fun c => (c < nc)%nat) cs ->
  take (size * dim) (drop (p * (size * dim)) block) = rows !!! (start + p)%nat ->
  shard_point block dim start k closest p (files_for h) = Ok (files_for (fun c => h c ++ if decide (c ∈ cs) then [(start + p)%nat] else [])).
Proof.
  intros Hnc Hs Hl Hnd Hlt Hrow. unfold shard_point. rewrite Hrow.
  enough (forall n, (n <= k)%nat -> foldM (fun p1 shards => shard_id ← rd closest (p * k + p1);
      upd (add_point_to_shard (rows !!! (start + p)%nat) (start + p)) shards (Z.to_nat shard_id) ()) (range 0 n) (files_for h) =
      Ok (files_for (fun c => h c ++ if decide (c ∈ take n cs) then [(start + p)%nat] else []))) as H.
  { rewrite (H k) by done. by rewrite take_ge by lia. }
  induction n as [|n IH]; intros Hn.
  { cbn [foldM range seq Nat.sub]. f_equal. apply files_for_ext. intros c _. by rewrite decide_False, app_nil_r by (simpl; set_solver). }
  rewrite range_S, foldM_app, IH by lia. cbn [mbind outcome_bind foldM]. destruct (lookup_lt_is_Some_2 cs n) as [c Hc]; [lia|].
  pose proof (Forall_lookup_1 _ _ _ _ Hlt Hc) as Hcn. cbn beta in Hcn. unfold rd at 1. rewrite (Hs n c Hc). cbn [mbind outcome_bind].
  rewrite u32_small, Nat2Z.id by lia.
  assert (c ∉ take n cs) as Hni.
  { intros (q & Hq)%list_elem_of_lookup. apply lookup_take_Some in Hq as [Hq Hqn]. pose proof (NoDup_lookup _ _ _ _ Hnd Hq Hc). lia. }
  erewrite upd_ok; [|unfold files_for; rewrite list_lookup_fmap, lookup_range by lia; reflexivity]. cbn [mbind outcome_bind].
  f_equal. rewrite decide_False, app_nil_r by done. rewrite files_snoc. apply list_eq. intros c'. unfold files_for. simpl.
  destruct (decide (c' = c)) as [->|Hne].
  - rewrite list_lookup_insert_eq by (rewrite length_fmap, length_range; lia). rewrite list_lookup_fmap, lookup_range by lia. simpl.
    rewrite decide_True; [done|]. rewrite (take_S_r _ _ _ Hc). set_solver.
  - rewrite list_lookup_insert_ne by done. rewrite !list_lookup_fmap. destruct (range 0 nc !! c') as [q|] eqn:Eq; [|done]. simpl.
    assert (q = c') as -> by (pose proof (lookup_lt_Some _ _ _ Eq) as Hq; rewrite length_range in Hq; rewrite lookup_range in Eq by done; by injection Eq).
    do 3 f_equal. rewrite (take_S_r _ _ _ Hc). do 2 case_decide; try done; set_solver.
Qed.

Context (pivots : list F).

Local Abbreviation n := (length rows).
Local Abbreviation bs := (Nat.min MAX_BLOCK_SIZE n).
Local Abbreviation blk b := (Nat.min ((b + 1) * bs) n - b * bs)%nat.

Definition block_rows (b : nat) : list (list Z) := take (blk b) (drop (b * bs) rows).
Definition block_floats (b : nat) : list F := floats_of size of_bytes (blk b * dim) (mjoin (block_rows b)).

(** [cs] are the centres closest to the [i]-th point of block [b]. *)
Definition nearest_centers (b i : nat) (cs : list nat) : Prop :=
  exists pts pivs, compute_vecs_l2sq snrm2 (block_floats b) (blk b) dim = Ok pts /\ compute_vecs_l2sq snrm2 pivots nc dim = Ok pivs /\
    closest (matrix_after sgemm (block_floats b) (blk b) dim pivots nc pts pivs (garbage_f b (nc * PAR_BLOCK_SIZE (blk b))) 1) nc i cs.

(** The environment and the sizes. *)
Record shards_ready : Prop := {
  sr_sgemm : forall m n p al A B be C, length (sgemm m n p al A B be C) = length C;
  sr_schedule : forall b b' l, schedule b b' l ≡ₚ l;
  sr_garbage : forall b m, length (garbage b m) = m;
  sr_garbage_f : forall b m, length (garbage_f b m) = m;
  sr_rows : Forall (fun r => length r = size * dim)%nat rows;
  sr_points : (0 < length rows)%nat /\ Z.of_nat (length rows) < 2 ^ 32;
  sr_dim : Z.of_nat dim < 2 ^ 32;
  sr_centers : (1 < k <= nc)%nat /\ Z.of_nat nc <= 2 ^ 32;
  sr_pivots : (nc * dim <= length pivots)%nat;
}.
Context (Hready : shards_ready).

Lemma join_drop (w : nat) (rs : list (list Z)) p : Forall (fun r => length r = w) rs -> drop (p * w) (mjoin rs) = mjoin (drop p rs).
Proof using.
  clear. revert rs. induction p as [|p IH]; intros [|r rs] H; simpl; rewrite ?drop_0, ?drop_nil; try done.
  apply Forall_cons in H as [Hr H]. rewrite <- (IH rs H). change (mjoin (r :: rs)) with (r ++ mjoin rs). by rewrite <- drop_drop, drop_app_length' by done.
Qed.

Lemma join_take (w : nat) (rs : list (list Z)) p : Forall (fun r => length r = w) rs -> take (p * w) (mjoin rs) = mjoin (take p rs).
Proof using.
  clear. revert rs. induction p as [|p IH]; intros [|r rs] H; simpl; rewrite ?take_nil; try done.
  apply Forall_cons in H as [Hr H]. change (mjoin (r :: rs)) with (r ++ mjoin rs). change (mjoin (r :: take p rs)) with (r ++ mjoin (take p rs)).
  rewrite <- (IH rs H). rewrite take_app, (take_ge r) by lia. do 2 f_equal. lia.
Qed.

Lemma join_length (w : nat) (rs : list (list Z)) : Forall (fun r => length r = w) rs -> length (mjoin rs) = (length rs * w)%nat.
Proof using. clear. induction 1 as [|r rs Hr _ IH]; [done|]. change (mjoin (r :: rs)) with (r ++ mjoin rs). rewrite length_app, IH. simpl. lia. Qed.

Lemma join_row (w : nat) (rs : list (list Z)) p r : Forall (fun r => length r = w) rs -> rs !! p = Some r -> take w (drop (p * w) (mjoin rs)) = r.
Proof using.
  intros H Hp. rewrite (join_drop w rs p H). destruct (rows_drop w rs p r H Hp) as [-> <-]. by rewrite take_app_length.
Qed.

Lemma shard_points_ok css start closest (block : list Z) m : Z.of_nat nc <= 2 ^ 32 ->
  (forall p, (p < m)%nat -> shows k p (css !!! (start + p)%nat) closest /\ length (css !!! (start + p)%nat) = k /\ NoDup (css !!! (start + p)%nat) /\
     Forall (fun c => (c < nc)%nat) (css !!! (start + p)%nat) /\ take (size * dim) (drop (p * (size * dim)) block) = rows !!! (start + p)%nat) ->
  foldM (shard_point block dim start k closest) (range 0 m) (files_for (held css start)) = Ok (files_for (held css (start + m))).
Proof.
  clear Hready. intros Hnc. induction m as [|m IH]; intros H; [by rewrite Nat.add_0_r|]. rewrite range_S, foldM_app, IH by (intros; apply H; lia).
  cbn [mbind outcome_bind foldM]. destruct (H m) as (H1 & H2 & H3 & H4 & H5); [lia|].
  rewrite (shard_point_ok _ _ _ _ _ _ Hnc H1 H2 H3 H4 H5). cbn [mbind outcome_bind]. f_equal. apply files_for_ext. intros c _.
  replace (start + S m)%nat with (S (start + m)) by lia. by rewrite held_S.
Qed.

Lemma div_mod_block (i b m : nat) : (b * m <= i < b * m + m)%nat -> (i / m = b /\ i mod m = i - b * m)%nat.
Proof using.
  clear. intros H. assert (i = b * m + (i - b * m))%nat as E by lia. split.
  - symmetry. by apply (Nat.div_unique i m b (i - b * m)); lia.
  - symmetry. by apply (Nat.mod_unique i m b (i - b * m)); lia.
Qed.

(** The blocks below [b] are done. *)
Record shards_done (b : nat) (css : list (list nat)) (s : sharding) : Prop := {
  dn_reader : rd_ok (sd_reader s) /\ rd_rest (sd_reader s) = mjoin (drop (b * bs) rows);
  dn_closest : length (sd_closest s) = (bs * k)%nat;
  dn_length : length css = Nat.min n (b * bs);
  dn_css i cs : css !! i = Some cs -> length cs = k /\ NoDup cs /\ Forall (fun c => (c < nc)%nat) cs /\ nearest_centers (i / bs) (i mod bs) cs;
  dn_shards : sd_shards s = files_for (held css (length css));
}.

Lemma shard_block_ok b css s : shards_done b css s -> (b * bs < n)%nat -> exists css' s',
  shard_block pivots n dim nc k bs b s = Ok s' /\ shards_done (S b) (css ++ css') s'.
Proof.
  destruct Hready as [R1 R2 R3 R4 R5 [R6 R7] R8 [R9 R10] R11]. intros [[D1 D2] D3 D4 D5 D6] Hb. unfold shard_block. cbn zeta.
  pose proof MAX_BLOCK_SIZE_eq as Hmax. assert (0 < bs)%nat as Hbs by lia.
  assert ((b + 1) * bs = b * bs + bs)%nat as Hbb by lia. assert (0 < blk b <= bs)%nat as Hblk by (rewrite Hbb; lia).
  assert (length css = b * bs)%nat as Hcl by lia.
  assert (Forall (fun r => length r = size * dim)%nat (drop (b * bs) rows)) as Hwd by by apply Forall_drop.
  assert (length (block_rows b) = blk b) as Hbl by (unfold block_rows; rewrite length_take, length_drop; lia).
  assert (size * (blk b * dim) = blk b * (size * dim))%nat as Hsz by lia.
  destruct (rd_read_ok (size * (blk b * dim)) (sd_reader s) D1) as (r' & E1 & Hr1 & Hr2).
  { rewrite D2, (join_length (size * dim)), length_drop by done. nia. }
  rewrite D2, Hsz in E1, Hr2. rewrite (join_take _ _ _ Hwd) in E1. rewrite (join_drop _ _ _ Hwd), drop_drop in Hr2. fold (block_rows b) in E1.
  rewrite Hsz, E1. cbn [mbind outcome_bind]. fold (block_floats b).
  assert (length (block_floats b) = blk b * dim)%nat as Hfl by (unfold block_floats, floats_of; rewrite length_fmap, length_range; lia).
  destruct (vecs_ok snrm2 (block_floats b) (blk b) dim) as [pts Hpts]; [lia|]. destruct (vecs_ok snrm2 pivots nc dim) as [pivs Hpivs]; [done|].
  assert (PAR_BLOCK_SIZE (blk b) = blk b) as Hpar by (unfold PAR_BLOCK_SIZE; lia).
  destruct (compute_closest_centers_spec sgemm snrm2 (schedule b) R1 (R2 b) (block_floats b) (blk b) dim pivots nc k pts pivs
    (garbage_f b (nc * PAR_BLOCK_SIZE (blk b))) (sd_closest s) None) with (garbage := garbage b) (garbage_f := garbage_f b) (norms := @None (list F))
    as (css' & ivf & inv & E2 & Hl & Hc & _ & _ & Hcs);
    [lia | lia | done | apply R4 | rewrite D3; nia | done | done | done | apply R3 | done | intros b' _ ?; lia |].
  rewrite E2. cbn [mbind outcome_bind]. rewrite D6, Hcl.
  assert (forall p, (p < blk b)%nat -> exists cs, css' !! p = Some cs /\ (css ++ css') !!! (b * bs + p)%nat = cs) as Hsel.
  { intros p Hp. destruct (lookup_lt_is_Some_2 css' p) as [cs Ecs]; [lia|]. exists cs. split; [done|]. apply list_lookup_total_correct.
    rewrite lookup_app_r by lia. by replace (b * bs + p - length css)%nat with p by lia. }
  rewrite (files_for_ext _ (held (css ++ css') (b * bs))) by (intros; by rewrite held_app by lia).
  rewrite shard_points_ok; [|done|].
  - cbn [mbind outcome_bind]. exists css'. eexists. split; [done|]. constructor; cbn [sd_reader sd_closest sd_shards].
    + split; [done|]. rewrite Hr2. f_equal. destruct (decide ((b + 1) * bs <= n)%nat); [f_equal; lia|]. by rewrite !drop_ge by lia.
    + by rewrite Hl.
    + rewrite length_app, Hcl, Hc. replace (S b * bs)%nat with ((b + 1) * bs)%nat by lia. lia.
    + intros i cs [Hi|[Hi Ei]]%lookup_app_Some; [by apply D5|]. pose proof (lookup_lt_Some _ _ _ Ei) as Hlt. rewrite Hcl in *.
      assert (i / bs = b /\ i mod bs = i - b * bs)%nat as [-> ->] by (apply div_mod_block; lia).
      destruct (Hcs _ _ Ei) as (Hn & Hk & _). rewrite Hpar, Nat.div_small, Nat.mod_small in Hn by lia.
      split; [done|]. split; [by apply Hn|]. split; [by apply Hn|]. exists pts, pivs. split; [exact Hpts|]. split; [exact Hpivs|]. by rewrite Hpar.
    + f_equal. rewrite length_app. f_equal. lia.
  - intros p Hp. destruct (Hsel p Hp) as (cs & Ecs & ->). destruct (Hcs _ _ Ecs) as ([Hnd Hin _ _] & Hk & Hsh).
    split; [exact Hsh|]. split; [exact Hk|]. split; [exact Hnd|]. split; [exact Hin|].
    assert (block_rows b !! p = Some (rows !!! (b * bs + p)%nat)) as Hrow.
    { unfold block_rows. rewrite lookup_take_lt, lookup_drop by lia. apply list_lookup_lookup_total_lt. lia. }
    apply (join_row (size * dim)); [unfold block_rows; apply Forall_take; exact Hwd | exact Hrow].
Qed.

Lemma shard_blocks_ok r B : rd_ok r -> rd_rest r = mjoin rows -> (forall b, (b < B)%nat -> (b * bs < n)%nat) -> exists css s,
  foldM (shard_block pivots n dim nc k bs) (range 0 B) {| sd_reader := r; sd_closest := replicate (bs * k) 0; sd_shards := files_for (fun _ => []) |} = Ok s /\
  shards_done B css s.
Proof.
  intros Hr1 Hr2. induction B as [|B IH]; intros HB.
  - exists []. eexists. split; [done|]. constructor; cbn [sd_reader sd_closest sd_shards]; try done; [apply length_replicate | simpl; lia].
  - destruct IH as (css & s & E & D); [intros; apply HB; lia|]. destruct (shard_block_ok B css s D) as (css' & s' & E' & D'); [apply HB; lia|].
    exists (css ++ css'), s'. rewrite range_S, foldM_app, E. cbn [mbind outcome_bind foldM]. by rewrite E'.
Qed.

Lemma blocks_round (m : nat) : (0 < m)%nat -> (n <= num_blocks n m * m)%nat /\ forall b, (b < num_blocks n m)%nat -> (b * m < n)%nat.
Proof using.
  clear. intros Hm. pose proof (Nat.div_mod_eq n m). pose proof (Nat.mod_upper_bound n m). unfold num_blocks. case_bool_decide; split; try nia; intros; nia.
Qed.

Lemma held_length css m c : (length (held css m c) <= m)%nat.
Proof using. clear. unfold held. etrans; [apply length_filter|]. rewrite length_range. lia. Qed.

Lemma held_sorted css m c : StronglySorted Z.lt (Z.of_nat <$> held css m c).
Proof using.
  clear. induction m as [|m IH]; [constructor|]. rewrite held_S, fmap_app. case_decide; [|by rewrite app_nil_r].
  apply StronglySorted_app_2; [|done | repeat constructor]. intros x y (i & -> & Hi)%list_elem_of_fmap ->%list_elem_of_singleton.
  apply list_elem_of_filter in Hi as [_ Hi]. apply elem_range in Hi. lia.
Qed.

(** A point of [m] points is in as many shards as it has centres. *)
Lemma held_count css m i cs : (i < m)%nat -> css !! i = Some cs -> NoDup cs -> Forall (fun c => (c < nc)%nat) cs ->
  length (filter (fun c => i ∈ held css m c) (range 0 nc)) = length cs.
Proof using.
  clear. intros Hi Ecs Hnd Hlt. apply Permutation_length, NoDup_Permutation; [apply NoDup_filter, NoDup_range | done|]. intros c.
  rewrite list_elem_of_filter. unfold held. rewrite list_elem_of_filter, !elem_range, (list_lookup_total_correct _ _ _ Ecs).
  rewrite Forall_forall in Hlt. split; [tauto|]. intros Hc. split; [split; [done | lia]|]. specialize (Hlt c Hc). lia.
Qed.

(** The map of identifiers of the points [ids]. *)
Definition idmap_of (ids : list nat) : list Z := bin_header (Z.of_nat (length ids)) 1 ++ ((Z.of_nat <$> ids) ≫= le32).

Lemma files_final ids : Z.of_nat (length ids) < 2 ^ 32 -> Z.of_nat dim < 2 ^ 32 -> Forall (fun i => Z.of_nat i < 2 ^ 32) ids ->
  (pwrite (sf_data (files_of ids)) (0%nat, le32 (u32 (sf_count (files_of ids)))), pwrite (sf_idmap (files_of ids)) (0%nat, le32 (u32 (sf_count (files_of ids))))) =
  (data_file dim ((fun i => rows !!! i) <$> ids), idmap_of ids).
Proof using.
  clear. intros Hl Hd Hids. unfold files_of. cbn [sf_data sf_idmap sf_count]. rewrite !pwrite_count. unfold data_file, idmap_of, bin_header.
  rewrite length_fmap, (u32_small (Z.of_nat dim)), (u32_small 1) by lia. rewrite <- !app_assoc. do 4 f_equal.
  clear Hl. induction Hids as [|i ids Hi _ IH]; [done|]. rewrite !fmap_cons, u32_small by lia. by f_equal.
Qed.

(** [shard_data_into_clusters]: every point of the data file goes to the
    shards of its [k] closest centres, and to no other; the file of a shard
    holds the rows of its points in order, with its own header, and its map
    of identifiers is the increasing list that [read_idmap] reads back. *)
Theorem shard_data_correct r : rd_ok r -> rd_rest r = data_file dim rows ->
  exists css, length css = n /\
    (forall i cs, css !! i = Some cs -> length cs = k /\ nearest_centers (i / bs) (i mod bs) cs) /\
    shard_data_into_clusters r pivots nc dim k =
      Ok (Some ((fun c => (data_file dim ((fun i => rows !!! i) <$> held css n c), idmap_of (held css n c))) <$> range 0 nc)) /\
    (forall c, read_idmap (idmap_of (held css n c)) = Ok (Z.of_nat <$> held css n c) /\ StronglySorted Z.lt (Z.of_nat <$> held css n c)) /\
    (forall i, (i < n)%nat -> length (filter (fun c => i ∈ held css n c) (range 0 nc)) = k).
Proof.
  intros Hr1 Hr2. pose proof Hready as [_ _ _ _ _ [R6 R7] R8 _ _]. unfold shard_data_into_clusters.
  unfold data_file, bin_header in Hr2. rewrite !u32_small, <- app_assoc in Hr2 by lia.
  destruct (rd_u32_ok r _ _ Hr1 Hr2) as (r1 & -> & Hr3 & Hr4); [lia|]. cbn [mbind outcome_bind].
  destruct (rd_u32_ok r1 _ _ Hr3 Hr4) as (r2 & -> & Hr5 & Hr6); [lia|]. cbn [mbind outcome_bind]. cbn zeta. rewrite Z.eqb_refl, Nat2Z.id.
  pose proof MAX_BLOCK_SIZE_eq as Hmax. assert (0 < bs)%nat as Hbs by lia. rewrite bool_decide_eq_false_2 by lia. cbn [negb].
  assert (replicate nc {| sf_data := le32 0 ++ le32 (Z.of_nat dim); sf_idmap := le32 0 ++ le32 1; sf_count := 0 |} = files_for (fun _ => [])) as ->.
  { unfold files_for. apply list_eq. intros c. rewrite list_lookup_fmap. destruct (decide (c < nc)%nat).
    - rewrite lookup_replicate_2, lookup_range by lia. done.
    - rewrite !lookup_ge_None_2; [done | rewrite length_range; lia | rewrite length_replicate; lia]. }
  destruct (blocks_round bs Hbs) as [Hcov Hlt]. destruct (shard_blocks_ok r2 _ Hr5 Hr6 Hlt) as (css & s & -> & [_ _ D3 D4 D5]). cbn [mbind outcome_bind].
  assert (length css = n) as Hcl by (rewrite D3; apply Nat.min_l, Hcov). rewrite Hcl in D5. rewrite D5.
  assert (forall c, Z.of_nat (length (held css n c)) < 2 ^ 32) as Hsmall by (intros c; pose proof (held_length css n c); lia).
  assert (forall c, Forall (fun i => Z.of_nat i < 2 ^ 32) (held css n c)) as Hids.
  { intros c. apply Forall_forall. intros i [_ Hi]%list_elem_of_filter. apply elem_range in Hi. lia. }
  exists css. split; [done|]. split; [intros i cs Hi; destruct (D4 i cs Hi) as (Hk & _ & _ & Hn); exact (conj Hk Hn)|]. split; [|split].
  - do 2 f_equal. unfold files_for. rewrite <- list_fmap_compose. apply list_fmap_ext. intros i c _. simpl. by apply files_final.
  - intros c. split; [|apply held_sorted]. unfold idmap_of. rewrite <- (length_fmap Z.of_nat). apply read_idmap_ok; [|by rewrite length_fmap].
    apply Forall_fmap. eapply Forall_impl; [apply (Hids c)|]. simpl. intros. lia.
  - intros i Hi. destruct (lookup_lt_is_Some_2 css i) as [cs Ecs]; [lia|]. destruct (D4 i cs Ecs) as (<- & Hnd & Hin & _). by apply held_count.
Qed.
End Shards.

(** The shards cover the data set, as [MergeShards] needs of the graphs that are
    built on them. *)
Lemma shards_cover css nc shs : (forall i cs, css !! i = Some cs -> cs <> [] /\ Forall (fun c => (c < nc)%nat) cs) -> length shs = nc ->
  (forall c s, shs !! c = Some s -> sh_ids s = Z.of_nat <$> held css (length css) c) -> covering shs (length css).
Proof.
  intros Hcss Hl Hs k. split.
  - intros Hk. destruct (lookup_lt_is_Some_2 css (Z.to_nat k)) as [cs Ecs]; [lia|]. destruct (Hcss _ _ Ecs) as [Hne Hlt].
    destruct cs as [|c cs]; [done|]. apply Forall_cons in Hlt as [Hc _]. destruct (lookup_lt_is_Some_2 shs c) as [s Es]; [lia|].
    exists c, s. split; [done|]. rewrite (Hs c s Es). apply list_elem_of_fmap. exists (Z.to_nat k). split; [lia|].
    unfold held. rewrite list_elem_of_filter, (list_lookup_total_correct _ _ _ Ecs), elem_range. split; [set_solver | lia].
  - intros (c & s & Es & Hk). rewrite (Hs c s Es) in Hk. apply list_elem_of_fmap in Hk as (i & -> & Hi).
    apply list_elem_of_filter in Hi as [_ Hi]. apply elem_range in Hi. lia.
Qed.

(** ** Runs *)
Lemma gen_random_slice_correct_witness :
  gen_random_slice_files 2 Nat.even ([9; 9; 9] ++ data_file 1 [[1; 0]; [2; 0]; [3; 0]]) 3 =
    (data_file 1 [[1; 0]; [3; 0]], bin_header 2 1 ++ le32 0 ++ le32 2).
Proof.
  refine (eq_trans (gen_random_slice_correct 2 Nat.even 1 [[1; 0]; [2; 0]; [3; 0]] [9; 9; 9] _ _ _) _); [repeat constructor | done | done | done].
Defined.

(** No row is drawn: the map of identifiers is refused. *)
Example no_sample : gen_random_slice_files 2 (fun _ => false) (data_file 1 [[1; 0]; [2; 0]]) 0 = (data_file 1 [[0; 0]], bin_header 1 1) /\
  read_idmap (bin_header 1 1) = Crash.
Proof. done. Qed.

Definition byte_float (b : list Z) : Word := float_of_nat (Z.to_nat (b !!! 0%nat)).

(** The points 0, 5, 9 and 1, and centres at 0, 4 and 9. *)
Example shard_run : shard_data_into_clusters gemm nrm2 (fun _ _ l => l) (fun _ m => replicate m 7) (fun _ m => replicate m float_zero) 1 byte_float
    (data_file 1 [[0]; [5]; [9]; [1]]) (float_of_nat <$> [0; 4; 9]%nat) 3 1 2 =
  Ok (Some [(data_file 1 [[0]; [1]], idmap_of [0; 3]%nat); (data_file 1 [[0]; [5]; [9]; [1]], idmap_of [0; 1; 2; 3]%nat);
            (data_file 1 [[5]; [9]], idmap_of [1; 2]%nat)]).
Proof. vm_compute. done. Qed.

Lemma shard_data_correct_witness : exists css : list (list nat), length css = 4%nat /\
  forall i, (i < 4)%nat -> length (filter (fun c => i ∈ held css 4 c) (range 0 3)) = 2%nat.
Proof.
  destruct (shard_data_correct (RS := list Z) gemm nrm2 (fun _ _ l => l) (fun _ m => replicate m 7) (fun _ m => replicate m float_zero) 1 byte_float
    [[0]; [5]; [9]; [1]] 1 3 2 (float_of_nat <$> [0; 4; 9]%nat)) with (r := data_file 1 [[0]; [5]; [9]; [1]]) as (css & Hl & _ & _ & _ & Hc).
  - constructor; try done; try (simpl; lia); intros; try apply length_imap; try apply length_replicate; repeat constructor.
  - done.
  - done.
  - exists css. exact (conj Hl Hc).
Defined.
