(* ===== verification/DynamicIndex.v ===== *)
(** * The dynamic index

    [DynamicSSDIndex] of [src/update/dynamic_index.cpp]: the two deletion sets
    that take turns, the search that filters deleted tags out of the result of
    the graph search, and the copy of the index files that the constructor
    makes before the index is changed. *)
From S2P Require Import Prelude Cuckoo Layout PageAlloc Mapping Node Neighbor CandidatePool PipeSearch PageSearch EarlyExit ParaSearch.
From S2P Require Import BeamSearch Files.

(** ** Lazy deletion *)

(** [false] and [true] are the indices 0 and 1 of the pairs of the class. *)
Record del_state := {
  active_delete_set : bool;
  deletion_sets : bool -> gset Z;
  deleted_tags : bool -> list Z;
  active_del : bool -> bool;
}.

Definition upd {A} (f : bool -> A) (i : bool) (x : A) : bool -> A :=
  fun j => if bool_decide (j = i) then x else f j.

Definition init_del : del_state :=
  {| active_delete_set := false; deletion_sets := fun _ => ∅; deleted_tags := fun _ => [];
     active_del := fun i => negb i |}.

(** A set that is not active is only reported. *)
Definition lazy_delete (tag : Z) (s : del_state) : del_state :=
  let a := active_delete_set s in
  if decide (tag ∈ deletion_sets s a) then s
  else {| active_delete_set := a; deletion_sets := upd (deletion_sets s) a ({[tag]} ∪ deletion_sets s a);
          deleted_tags := upd (deleted_tags s) a (deleted_tags s a ++ [tag]); active_del := active_del s |}.

(** The compare-and-exchange leaves a set that is already active as it is. *)
Definition save_del_set (s : del_state) : del_state :=
  let cur := active_delete_set s in
  let nxt := negb cur in
  {| active_delete_set := nxt; deletion_sets := upd (deletion_sets s) nxt ∅;
     deleted_tags := upd (deleted_tags s) nxt [];
     active_del := upd (upd (active_del s) nxt true) cur false |}.

(** What [merge] passes to [merge_deletes]. *)
Definition merge_args (s : del_state) : list Z * gset Z :=
  (deleted_tags s (negb (active_delete_set s)), deletion_sets s (negb (active_delete_set s))).

Inductive del_op := LazyDelete (tag : Z) | SaveDelSet.

Definition run_del (o : del_op) (s : del_state) : del_state :=
  match o with LazyDelete t => lazy_delete t s | SaveDelSet => save_del_set s end.

Definition run_dels (ops : list del_op) (s : del_state) : del_state := foldl (fun s o => run_del o s) s ops.

(** ** Search *)

(** The loop over [best_vec]; [pos] is the number of results so far. *)
Fixpoint search_filter {D} (K : nat) (deletion_set : gset Z) (best_vec : list (Z * D)) (pos : nat) : list (Z * D) :=
  match best_vec with
  | [] => []
  | x :: best_vec =>
      let out := if decide (x.1 ∈ deletion_set) then [] else [x] in
      let pos := (pos + length out)%nat in
      if bool_decide (pos = K) then out else out ++ search_filter K deletion_set best_vec pos
  end.

(** The arrays [result_tags] and [result_distances], which every graph search
    fills, and the filter that follows. *)
Definition result_size : Z := 4096.

Definition filter_result {D} (K : nat) (deletion_set : gset Z) (result : list (Z * D)) : outcome (list (Z * D)) :=
  if result_size <? Z.of_nat (length result) then Crash else Ok (search_filter K deletion_set result 0).

Inductive search_mode := BEAM_SEARCH | PAGE_SEARCH | PIPE_SEARCH | PARA_SEARCH.

(** What the graph searches meet: the clock of the beam search, the device and
    the cache of the pipelined search, the workers and the early exit of the
    parallel one; [mem] says that the entries come from the index in memory. *)
Record search_env (D Exit : Type) := {
  deadline : nat -> bool;
  hit : nat -> bool;
  io_arrives : nat -> nat -> bool;
  comp_arrives : nat -> nat -> bool;
  ee_init : Exit;
  ee_push : Exit -> D -> outcome (Exit * bool);
  on_pm : bool;
  sync : bool;
  mem : bool;
}.
Arguments deadline {_ _} _.
Arguments hit {_ _} _.
Arguments io_arrives {_ _} _.
Arguments comp_arrives {_ _} _.
Arguments ee_init {_ _} _.
Arguments ee_push {_ _} _.
Arguments on_pm {_ _} _.
Arguments sync {_ _} _.
Arguments mem {_ _} _.

Section search.
Context {D Exit : Type} `{!DistOrd D}.
Context (g : geometry) (st : map_state) (m : Z -> Z) (cur_id : Z) (pq_dist : Z -> D) (exact_dist : list Z -> D) (tags : gmap Z Z).
Context (env : search_env D Exit) (fuel : nat).

(** The search of the chosen mode, for [search_L] results. *)
Definition graph_search (mode : search_mode) (deletion_set : gset Z) (dyn_search_l : bool) (search_L beam_width : nat)
    (entries : list (Z * D)) : outcome (list (Z * D)) :=
  match mode with
  | BEAM_SEARCH => beam_search g st m cur_id (coord_slots g) pq_dist exact_dist tags deletion_set dyn_search_l search_L beam_width
                     (deadline env) fuel search_L entries.*1
  | PAGE_SEARCH => page_search g st m pq_dist exact_dist tags search_L beam_width fuel search_L entries.*1
  | PIPE_SEARCH => pipe_search g st m pq_dist exact_dist tags search_L (Z.of_nat beam_width) MAX_N_SECTOR_READS (hit env) (io_arrives env)
                     fuel search_L (mem env) entries
  | PARA_SEARCH => para_search g st m pq_dist exact_dist tags search_L search_L (Z.of_nat beam_width) (ee_init env) (ee_push env)
                     (on_pm env) (sync env) (comp_arrives env) fuel (mem env) entries
  end.

Definition search (mode : search_mode) (s : del_state) (dyn_search_l : bool) (search_L beam_width K : nat) (entries : list (Z * D)) :
    outcome (list (Z * D)) :=
  let deletion_set := deletion_sets s (active_delete_set s) in
  result ← graph_search mode deletion_set dyn_search_l search_L beam_width entries;
  filter_result K deletion_set result.
End search.

(** ** Copying the index files *)
Definition BLOCK_SIZE : Z := 64 * 1024 * 1024.
Definition MAX_THREADS : Z := 32.
Definition BUFFER_SIZE : Z := 16 * 1024 * 1024.

Section copy.
(** The number of bytes that a [pread] and a [pwrite] at an offset transfer when
    they are asked for some number of bytes. *)
Variables pread_len pwrite_len : nat -> nat -> nat.

(** The writes of one thread, with the bytes it has reported to [progress].
    The result of [pwrite] is ignored: the loop goes on behind the bytes that
    were read. *)
Fixpoint copy_loop (fuel : nat) (src : list Z) (offset size copied : nat) : outcome (list (nat * list Z) * nat) :=
  match fuel with
  | O => Crash
  | S fuel =>
      if bool_decide (copied < size)%nat then
        let to_read := Z.to_nat (Z.min BUFFER_SIZE (Z.of_nat (size - copied))) in
        let r := pread_len (offset + copied) to_read in
        if bool_decide (r = 0)%nat then Ok ([], copied)
        else
          let buffer := take r (drop (offset + copied) src) in
          let w := ((offset + copied)%nat, take (pwrite_len (offset + copied) r) buffer) in
          '(rest, copied) ← copy_loop fuel src offset size (copied + r);
          Ok (w :: rest, copied)
      else Ok ([], copied)
  end.

Definition copy_block (src : list Z) (offset size : nat) : outcome (list (nat * list Z) * nat) :=
  copy_loop (S size) src offset size 0.

Definition num_threads (filesize : nat) : nat :=
  Z.to_nat (Z.min MAX_THREADS (u64 (u64 (Z.of_nat filesize + BLOCK_SIZE) - 1) / BLOCK_SIZE)).

(** The first byte of block [i]. *)
Definition block_offset (filesize i : nat) : nat :=
  Z.to_nat (u64 (Z.of_nat i * Z.of_nat filesize) / Z.of_nat (num_threads filesize)).

(** The run of thread [i]. *)
Definition thread_writes (src : list Z) (i : nat) : outcome (list (nat * list Z) * nat) :=
  let n := length src in
  copy_block src (block_offset n i) (block_offset n (S i) - block_offset n i).

(** The file that results when the writes happen in the order [ws]. *)
Definition run_writes (ws : list (nat * list Z)) : list Z := foldl pwrite [] ws.

(** The runs of all threads. *)
Definition threads_run (src : list Z) (runs : list (list (nat * list Z) * nat)) : Prop :=
  Forall2 (fun i w => thread_writes src i = Ok w) (seq 0 (num_threads (length src))) runs.

(** A run of [parallel_copy_file]: a small file is copied at once; otherwise the
    writes of all threads happen in some order.  The progress thread, which is
    joined at the end, stops when all bytes of the file were reported. *)
Inductive parallel_copy_file (src : list Z) : list Z -> Prop :=
| copy_small : Z.of_nat (length src) <= BLOCK_SIZE -> parallel_copy_file src src
| copy_large runs ws :
    BLOCK_SIZE < Z.of_nat (length src) -> threads_run src runs ->
    (length src <= sum_list (snd <$> runs))%nat ->
    ws ≡ₚ concat (fst <$> runs) -> parallel_copy_file src (run_writes ws).
End copy.

(** ** Deletion sets *)
Record del_inv (s : del_state) : Prop := {
  di_nodup : forall i, NoDup (deleted_tags s i);
  di_same : forall i, list_to_set (deleted_tags s i) = deletion_sets s i;
  di_active : active_del s (active_delete_set s) = true;
  di_inactive : active_del s (negb (active_delete_set s)) = false;
}.

Lemma upd_eq {A} (f : bool -> A) i x : upd f i x i = x.
Proof. unfold upd. by rewrite bool_decide_eq_true_2. Qed.
Lemma upd_ne {A} (f : bool -> A) i j x : j <> i -> upd f i x j = f j.
Proof. intros H. unfold upd. by rewrite bool_decide_eq_false_2. Qed.

Lemma init_del_inv : del_inv init_del.
Proof. constructor; simpl; [intros; constructor | done | done | done]. Qed.

Lemma lazy_delete_inv t s : del_inv s -> del_inv (lazy_delete t s).
Proof.
  intros [H1 H2 H3 H4]. unfold lazy_delete. case_decide as Ht; [by constructor|]. constructor; simpl; try done.
  - intros i. destruct (decide (i = active_delete_set s)) as [->|]; [rewrite upd_eq | by rewrite upd_ne].
    apply NoDup_snoc; [done|]. intros Hin. apply Ht. rewrite <- H2. by apply elem_of_list_to_set.
  - intros i. destruct (decide (i = active_delete_set s)) as [->|]; [rewrite !upd_eq | by rewrite !upd_ne].
    rewrite list_to_set_app_L, H2. set_solver.
Qed.

Lemma negb_ne b : negb b <> b.
Proof. by destruct b. Qed.

Lemma save_del_set_inv s : del_inv s -> del_inv (save_del_set s).
Proof.
  intros [H1 H2 H3 H4]. pose proof (negb_ne (active_delete_set s)) as Hne. constructor; simpl.
  - intros i. destruct (decide (i = negb (active_delete_set s))) as [->|];
      [rewrite upd_eq; constructor | by rewrite upd_ne].
  - intros i. destruct (decide (i = negb (active_delete_set s))) as [->|]; [by rewrite !upd_eq | by rewrite !upd_ne].
  - rewrite upd_ne by done. by rewrite upd_eq.
  - rewrite negb_involutive. by rewrite upd_eq.
Qed.

Lemma run_dels_inv ops : forall s, del_inv s -> del_inv (run_dels ops s).
Proof.
  induction ops as [|[t|] ops IH]; intros s Hs; [done | |]; simpl; apply IH;
    [by apply lazy_delete_inv | by apply save_del_set_inv].
Qed.

(** The tags of a run that contains no swap. *)
Definition del_tags (ts : list Z) : list del_op := LazyDelete <$> ts.

Lemma run_del_tags ts : forall s, let s' := run_dels (del_tags ts) s in
  active_delete_set s' = active_delete_set s /\
  deletion_sets s' (active_delete_set s) = list_to_set ts ∪ deletion_sets s (active_delete_set s) /\
  deletion_sets s' (negb (active_delete_set s)) = deletion_sets s (negb (active_delete_set s)).
Proof.
  induction ts as [|t ts IH]; intros s; simpl; [split_and!; [done | set_solver | done]|].
  destruct (IH (lazy_delete t s)) as (A & B & C). unfold run_dels in *. rewrite A.
  unfold lazy_delete in *. case_decide as Ht; simpl in *.
  - split_and!; [done | rewrite B; set_solver | done].
  - rewrite upd_eq in B. rewrite upd_ne in C by apply negb_ne. split_and!; [done | rewrite B; set_solver | done].
Qed.

Lemma run_dels_app a b s : run_dels (a ++ b) s = run_dels b (run_dels a s).
Proof. unfold run_dels. apply foldl_app. Qed.

(** ** The filter *)
Lemma search_filter_take {D} K del (best : list (Z * D)) : forall pos, (pos < K)%nat ->
  search_filter K del best pos = take (K - pos) (filter (fun x => x.1 ∉ del) best).
Proof.
  induction best as [|x best IH]; intros pos Hp; cbn [search_filter]; [by rewrite filter_nil, take_nil|].
  destruct (decide (x.1 ∈ del)) as [Hd|Hd]; cbn [length].
  - rewrite filter_cons_False by tauto. rewrite Nat.add_0_r, bool_decide_eq_false_2 by lia. by apply IH.
  - rewrite filter_cons_True by done. case_bool_decide as HK.
    + replace (K - pos)%nat with 1%nat by lia. simpl. by rewrite take_0.
    + replace (K - pos)%nat with (S (K - (pos + 1))) by lia. cbn [app take]. f_equal. apply IH. lia.
Qed.

(** ** Copying *)
(** The write takes its bytes from the same place of the source. *)
Definition write_ok (src : list Z) (w : nat * list Z) : Prop :=
  (w.1 + length w.2 <= length src)%nat /\ forall p, covers w p -> w.2 !! (p - w.1)%nat = src !! p.

Lemma run_writes_covered src ws : forall f,
  Forall (write_ok src) ws -> (length f <= length src)%nat ->
  (length (foldl pwrite f ws) <= length src)%nat /\
  forall p, (f !! p = src !! p \/ Exists (fun w => covers w p) ws) -> (p < length src)%nat ->
    foldl pwrite f ws !! p = src !! p.
Proof.
  induction ws as [|w ws IH]; intros f Hws Hf; simpl.
  - split; [done|]. by intros p [?|?%Exists_nil].
  - apply Forall_cons in Hws as [[Hw1 Hw2] Hws]. destruct (IH (pwrite f w) Hws) as [IH1 IH2].
    { destruct w as [off data]. rewrite pwrite_length. simpl in *. lia. }
    split; [done|]. intros p Hp Hlt. apply IH2; [|done].
    destruct (decide (w.1 <= p < w.1 + length w.2)%nat) as [Hc|Hc]; [left; rewrite pwrite_in by done; by apply Hw2|].
    destruct Hp as [Hp|Hp]; [left | apply Exists_cons in Hp as [?|?]; [done | by right]].
    destruct (lookup_lt_is_Some_2 src p Hlt) as [b Hb]. rewrite Hb in *. by apply pwrite_out.
Qed.

Section copying.
Variables pread_len pwrite_len : nat -> nat -> nat.
Context (src : list Z).
Hypothesis Hpread : forall off n, (0 < n)%nat -> (off + n <= length src)%nat -> (1 <= pread_len off n <= n)%nat.
Hypothesis Hpwrite : forall off n, pwrite_len off n = n.

Lemma copy_loop_spec offset size : (offset + size <= length src)%nat -> forall fuel copied,
  (copied <= size)%nat -> (size - copied < fuel)%nat ->
  exists ws, copy_loop pread_len pwrite_len fuel src offset size copied = Ok (ws, size) /\ Forall (write_ok src) ws /\
    forall p, (offset + copied <= p < offset + size)%nat -> Exists (fun w => covers w p) ws.
Proof.
  intros Hsz. induction fuel as [|fuel IH]; intros copied Hc Hf; [lia|]. cbn [copy_loop].
  case_bool_decide as Hlt; [|exists []; replace copied with size by lia; split_and!; [done | constructor | lia]].
  set (n := Z.to_nat (Z.min BUFFER_SIZE (Z.of_nat (size - copied)))).
  assert (1 <= n <= size - copied)%nat as Hn by (subst n; unfold BUFFER_SIZE; lia).
  pose proof (Hpread (offset + copied) n ltac:(lia) ltac:(lia)) as Hr. set (r := pread_len (offset + copied) n) in *.
  rewrite bool_decide_eq_false_2 by lia. destruct (IH (copied + r)%nat) as (ws & -> & Hws & Hcov); [lia | lia |].
  cbn [mbind outcome_bind]. rewrite Hpwrite, take_take, Nat.min_id.
  exists (((offset + copied)%nat, take r (drop (offset + copied) src)) :: ws). split; [done|].
  assert (length (take r (drop (offset + copied) src)) = r) as Hlen by (rewrite length_take, length_drop; lia).
  split.
  - constructor; [|done]. split; [cbn [fst snd]; rewrite Hlen; lia|]. intros p Hp. cbn [fst snd]. unfold covers in Hp; cbn [fst snd] in Hp. rewrite Hlen in Hp.
    rewrite lookup_take_lt by lia. rewrite lookup_drop. f_equal. lia.
  - intros p Hp. destruct (decide (p < offset + (copied + r))%nat) as [?|?].
    + apply Exists_cons_hd. unfold covers. cbn [fst snd]. rewrite Hlen. lia.
    + apply Exists_cons_tl. apply Hcov. lia.
Qed.
End copying.

(** The blocks cover the file. *)
Lemma cover_blocks (f : nat -> nat) n p : f 0%nat = 0%nat -> (p < f n)%nat ->
  exists i, (i < n)%nat /\ (f i <= p < f (S i))%nat.
Proof.
  intros H0. induction n as [|n IH]; [lia|]. intros Hp. destruct (decide (p < f n)%nat) as [Hlt|?].
  - destruct (IH Hlt) as (i & ? & ?). exists i. lia.
  - exists n. lia.
Qed.

Lemma num_threads_range n : BLOCK_SIZE < Z.of_nat n -> Z.of_nat n < 2 ^ 58 -> (0 < num_threads n <= 32)%nat.
Proof.
  unfold num_threads, MAX_THREADS. change BLOCK_SIZE with 67108864. intros H1 H2.
  rewrite (u64_small (Z.of_nat n + _)) by lia. rewrite u64_small by lia.
  assert (1 <= (Z.of_nat n + 67108864 - 1) / 67108864) as Hq by (apply Z.div_le_lower_bound; lia).
  set (q := (Z.of_nat n + 67108864 - 1) / 67108864) in *. clearbody q. lia.
Qed.

Section block_offsets.
Context (n : nat) (H1 : BLOCK_SIZE < Z.of_nat n) (H2 : Z.of_nat n < 2 ^ 58).

Lemma block_offset_eq i : (i <= 32)%nat -> Z.of_nat (block_offset n i) = Z.of_nat i * Z.of_nat n / Z.of_nat (num_threads n).
Proof.
  intros Hi. pose proof (num_threads_range n H1 H2). unfold block_offset.
  assert (0 <= Z.of_nat i * Z.of_nat n <= 32 * Z.of_nat n) by nia. rewrite u64_small by lia.
  apply Z2Nat.id, Z.div_pos; lia.
Qed.

Lemma block_offset_mono i j : (i <= j)%nat -> (j <= 32)%nat -> (block_offset n i <= block_offset n j)%nat.
Proof.
  intros Hij Hj. pose proof (num_threads_range n H1 H2). apply Nat2Z.inj_le. rewrite !block_offset_eq by lia.
  apply Z.div_le_mono; nia.
Qed.

Lemma block_offset_last : block_offset n (num_threads n) = n.
Proof.
  pose proof (num_threads_range n H1 H2). apply Nat2Z.inj. rewrite block_offset_eq by lia. rewrite Z.mul_comm.
  apply Z.div_mul. lia.
Qed.

Lemma block_offset_first : block_offset n 0 = 0%nat.
Proof. reflexivity. Qed.
End block_offsets.

(** A thread copies its block. *)
Section threads.
Variables pread_len pwrite_len : nat -> nat -> nat.
Context (src : list Z) (Hbig : BLOCK_SIZE < Z.of_nat (length src)) (Hsz : Z.of_nat (length src) < 2 ^ 58).
Context (Hpread : forall off n, (0 < n)%nat -> (off + n <= length src)%nat -> (1 <= pread_len off n <= n)%nat).
Context (Hpwrite : forall off n, pwrite_len off n = n).
Abbreviation n := (num_threads (length src)).
Abbreviation first := (block_offset (length src)).

Lemma thread_spec i : (i < n)%nat -> exists ws,
  thread_writes pread_len pwrite_len src i = Ok (ws, (first (S i) - first i)%nat) /\ Forall (write_ok src) ws /\
  (first i <= first (S i))%nat /\ forall p, (first i <= p < first (S i))%nat -> Exists (fun w => covers w p) ws.
Proof using Hbig Hsz Hpread Hpwrite.
  intros Hi. pose proof (num_threads_range _ Hbig Hsz).
  pose proof (block_offset_mono _ Hbig Hsz i (S i) ltac:(lia) ltac:(lia)) as Hle.
  pose proof (block_offset_mono _ Hbig Hsz (S i) n ltac:(lia) ltac:(lia)) as Hle'.
  rewrite block_offset_last in Hle' by done.
  destruct (copy_loop_spec pread_len pwrite_len src Hpread Hpwrite (first i) (first (S i) - first i) ltac:(lia)
    (S (first (S i) - first i)) 0 ltac:(lia) ltac:(lia)) as (ws & E & Hws & Hcov).
  exists ws. split_and!; [exact E | done | done |]. intros p Hp. apply Hcov. lia.
Qed.

(** The blocks of the first [k] threads. *)
Lemma threads_progress : forall k, (k <= n)%nat -> exists runs,
  Forall2 (fun i w => thread_writes pread_len pwrite_len src i = Ok w) (seq 0 k) runs /\ sum_list (snd <$> runs) = first k.
Proof using Hbig Hsz Hpread Hpwrite.
  induction k as [|k IH]; intros Hk; [exists []; split; [constructor | by rewrite block_offset_first]|].
  destruct (IH ltac:(lia)) as (runs & Hruns & Hsum). destruct (thread_spec k ltac:(lia)) as (ws & E & _ & Hle & _).
  exists (runs ++ [(ws, (first (S k) - first k)%nat)]). rewrite seq_S. split.
  - apply Forall2_app; [done|]. by repeat constructor.
  - rewrite fmap_app, sum_list_with_app. unfold sum_list in *. rewrite Hsum. simpl. lia.
Qed.

(** The writes of all threads together. *)
Lemma threads_writes runs : threads_run pread_len pwrite_len src runs ->
  Forall (write_ok src) (concat (fst <$> runs)) /\
  forall p, (p < length src)%nat -> Exists (fun w => covers w p) (concat (fst <$> runs)).
Proof using Hbig Hsz Hpread Hpwrite.
  intros Hruns. split.
  - apply Forall_concat, Forall_forall. intros ws (r & -> & Hr)%list_elem_of_fmap.
    apply list_elem_of_lookup in Hr as (i & Hr). destruct (Forall2_lookup_r _ _ _ _ _ Hruns Hr) as (j & Hj & E).
    apply lookup_seq in Hj as [-> Hj]. simpl in E. destruct (thread_spec i Hj) as (ws & E' & Hws & _).
    rewrite E in E'. by injection E' as ->.
  - intros p Hp. destruct (cover_blocks first n p) as (i & Hi & Hcov); [apply block_offset_first | by rewrite block_offset_last |].
    destruct (thread_spec i Hi) as (ws & E & _ & _ & Hc).
    destruct (Forall2_lookup_l _ _ _ _ _ Hruns (proj2 (lookup_seq _ _ _ _) (conj eq_refl Hi))) as (r & Hr & E').
    simpl in E'. rewrite E in E'. injection E' as <-. specialize (Hc p Hcov). rewrite Exists_exists in Hc |- *.
    destruct Hc as (y & Hy & Hyp). exists y. split; [|done]. apply list_elem_of_lookup_2 in Hr.
    apply list_elem_of_In, in_concat. exists ws. split; [|by apply list_elem_of_In].
    apply list_elem_of_In, list_elem_of_fmap. eexists. split; [|exact Hr]. done.
Qed.
End threads.

(** C31. [parallel_copy_file] makes an identical copy, in whatever order the
    writes of its threads take effect and however the reads are split, provided
    that a read inside the file returns between one and the requested number
    of bytes and that every [pwrite] is complete, which the code does not
    check ([short_write_lost]).  A file of more than one block is copied by its
    threads: each of them finishes, and together they report every byte, so
    that the progress thread ends. *)
Theorem parallel_copy_correct pread_len pwrite_len src :
  Z.of_nat (length src) < 2 ^ 58 ->
  (forall off n, (0 < n)%nat -> (off + n <= length src)%nat -> (1 <= pread_len off n <= n)%nat) ->
  (forall off n, pwrite_len off n = n) ->
  (BLOCK_SIZE < Z.of_nat (length src) -> exists runs, threads_run pread_len pwrite_len src runs /\
     sum_list (snd <$> runs) = length src /\ parallel_copy_file pread_len pwrite_len src (run_writes (concat (fst <$> runs)))) /\
  (forall dst, parallel_copy_file pread_len pwrite_len src dst -> dst = src).
Proof.
  intros Hsz Hp Hw. split.
  - intros Hb. destruct (threads_progress pread_len pwrite_len src Hb Hsz Hp Hw (num_threads (length src)) (le_n _)) as (runs & Hr & Hs).
    rewrite block_offset_last in Hs by done. exists runs. split; [done|]. split; [done|]. apply copy_large with (runs := runs); [done | exact Hr | rewrite Hs; lia | done].
  - intros dst [|runs ws Hb Hruns _ Hperm]; [done|].
    destruct (threads_writes pread_len pwrite_len src Hb Hsz Hp Hw runs Hruns) as [Hok Hcov].
    rewrite <- Hperm in Hok. destruct (run_writes_covered src ws [] Hok) as [HA HB]; [simpl; lia|].
    apply list_eq. intros p. destruct (decide (p < length src)%nat) as [Hlt|Hge].
    2: { rewrite !lookup_ge_None_2; [done | lia | unfold run_writes; lia]. }
    apply HB; [right | done]. rewrite Hperm. by apply Hcov.
Qed.

(** A file of two blocks, which is read at most seven bytes at a time. *)
Definition large_file : list Z := replicate (Z.to_nat (BLOCK_SIZE + 1)) 7.

Lemma large_file_length : Z.of_nat (length large_file) = BLOCK_SIZE + 1.
Proof. unfold large_file. rewrite length_replicate. apply Z2Nat.id. unfold BLOCK_SIZE. lia. Qed.

Lemma parallel_copy_witness : BLOCK_SIZE < Z.of_nat (length large_file) /\
  (BLOCK_SIZE < Z.of_nat (length large_file) -> exists runs, threads_run (fun _ n => Nat.min 7 n) (fun _ n => n) large_file runs /\
     sum_list (snd <$> runs) = length large_file /\
     parallel_copy_file (fun _ n => Nat.min 7 n) (fun _ n => n) large_file (run_writes (concat (fst <$> runs)))) /\
  (forall dst, parallel_copy_file (fun _ n => Nat.min 7 n) (fun _ n => n) large_file dst -> dst = large_file).
Proof.
  split; [rewrite large_file_length; lia|]. apply (parallel_copy_correct (fun _ n => Nat.min 7 n) (fun _ n => n) large_file).
  - rewrite large_file_length. unfold BLOCK_SIZE. lia.
  - intros off n Hn _. lia.
  - done.
Defined.

(** A write that is cut short loses the rest of the buffer, and the thread
    still reports the whole block. *)
Example short_write_lost :
  copy_block (fun _ n => n) (fun _ n => Nat.min 3 n) [1; 2; 3; 4; 5] 0 5 = Ok ([(0%nat, [1; 2; 3])], 5%nat).
Proof. by vm_compute. Qed.

(** The two deletion sets: after any sequence of deletions and swaps the
    list and the set of each pair agree, no tag is listed twice, exactly the
    active set accepts deletions, and the set that a swap hands to the merge is
    exactly the set of tags deleted since the swap before it. *)
Theorem deletion_sets_correct ops ts :
  del_inv (run_dels ops init_del) /\
  let s := run_dels (ops ++ [SaveDelSet] ++ del_tags ts ++ [SaveDelSet]) init_del in
  del_inv s /\ (merge_args s).2 = list_to_set ts /\
  NoDup (merge_args s).1 /\ (forall t, t ∈ (merge_args s).1 <-> t ∈ ts).
Proof.
  split; [apply run_dels_inv, init_del_inv|]. intros s.
  assert (del_inv s) as Hs by apply run_dels_inv, init_del_inv. split; [done|].
  assert ((merge_args s).2 = list_to_set ts) as Hset.
  { subst s. rewrite !run_dels_app. set (s0 := run_dels ops init_del). simpl.
    destruct (run_del_tags ts (save_del_set s0)) as (A & B & C). simpl in *. unfold merge_args; simpl.
    rewrite A, negb_involutive, upd_ne by apply negb_ne.
    rewrite B, upd_eq. set_solver. }
  split; [done|]. split; [apply (di_nodup _ Hs)|]. intros t.
  rewrite <- (elem_of_list_to_set (C := gset Z) t ts), <- Hset. unfold merge_args; simpl.
  rewrite <- (di_same _ Hs). by rewrite elem_of_list_to_set.
Qed.

(** C32. A search in the dynamic index returns, in every mode, the first [K] of
    the results of the graph search whose tags are not in the active deletion
    set, in the order of that search, provided that there are at most 4096, the
    size of the arrays of results.  In the mode [BEAM_SEARCH], with a list size
    of at most 4096 and under the conditions of [beam_search_correct], these
    are in the order of their exact distances, and the search can fail only
    with the graph search, which crashes exactly when it expands more nodes
    than [coord_scratch] has room for. *)
Theorem dynamic_search_correct {D Exit} `{!DistOrd D} g st m cur_id (pq_dist : Z -> D) exact_dist tags (env : search_env D Exit) s dyn L bw
    entries K fuel :
  graph_ok g st m cur_id -> degrees_le g st m dist_scratch_size -> 0 <= coord_slots g ->
  (0 < bw)%nat -> Z.of_nat bw * size_per_io g <= sector_scratch_size ->
  entries <> [] -> NoDup entries.*1 -> (length entries <= L)%nat -> Z.of_nat L <= result_size ->
  (forall i, i ∈ entries.*1 -> known st i) -> (search_fuel st <= fuel)%nat -> (0 < K)%nat ->
  let del := deletion_sets s (active_delete_set s) in
  let searched mode := search g st m cur_id pq_dist exact_dist tags env fuel mode s dyn L bw K entries in
  (forall mode result,
     graph_search g st m cur_id pq_dist exact_dist tags env fuel mode del dyn L bw entries = Ok result ->
     Z.of_nat (length result) <= result_size -> searched mode = Ok (take K (filter (fun x => x.1 ∉ del) result))) /\
  exists expanded,
    StronglySorted nb_le expanded /\ NoDup (id <$> expanded) /\ Forall (is_exact g st m exact_dist) expanded /\
    do_beam_search g st m cur_id (coord_slots g) pq_dist exact_dist tags del dyn L bw (deadline env) fuel entries.*1 =
      (if Z.of_nat (length expanded) <=? coord_slots g then Ok expanded else Crash) /\
    searched BEAM_SEARCH =
      (if Z.of_nat (length expanded) <=? coord_slots g
       then Ok (take K (filter (fun x => x.1 ∉ del) ((fun x => (id2tag tags (id x), distance x)) <$> take L expanded)))
       else Crash).
Proof.
  intros Hg Hdeg Hsl Hb Hw Hne Hnd Hl HL Hk Hf HK del searched.
  assert (Hfilter : forall result : list (Z * D), Z.of_nat (length result) <= result_size ->
    filter_result K del result = Ok (take K (filter (fun x => x.1 ∉ del) result))).
  { intros result Hr. unfold filter_result. destruct (Z.ltb_spec result_size (Z.of_nat (length result))); [lia|].
    by rewrite search_filter_take, Nat.sub_0_r by lia. }
  split; [intros mode result E Hr; unfold searched, search; fold del; rewrite E; by apply Hfilter|].
  assert (Hne' : entries.*1 <> []) by (by destruct entries).
  destruct (search_ends_in g st m cur_id pq_dist exact_dist tags del dyn L bw (deadline env) fuel entries.*1 Hg Hdeg Hb Hw Hne' Hnd
    ltac:(by rewrite length_fmap) Hk Hf) as (st' & E & _ & Hs & _). specialize (E _ Hsl).
  pose proof (std_sort_nb_perm (full_retset st')) as Hp. exists (std_sort_nb (full_retset st')).
  assert (Ed : do_beam_search g st m cur_id (coord_slots g) pq_dist exact_dist tags del dyn L bw (deadline env) fuel entries.*1 =
    (if Z.of_nat (length (std_sort_nb (full_retset st'))) <=? coord_slots g then Ok (std_sort_nb (full_retset st')) else Crash)).
  { unfold do_beam_search. rewrite E, (Permutation_length Hp). by destruct (_ <=? coord_slots g). }
  split; [apply std_sort_nb_strong|]. split; [rewrite Hp; pose proof (sv_once _ _ Hs) as Ho; by rewrite app_nil_r in Ho|].
  split; [rewrite Hp; apply (sv_exact _ _ Hs)|]. split; [exact Ed|].
  unfold searched, search, graph_search, beam_search. fold del. rewrite Ed.
  destruct (Z.of_nat (length (std_sort_nb (full_retset st'))) <=? coord_slots g); [|done].
  cbn [mbind outcome_bind]. rewrite Nat.min_id. apply Hfilter. rewrite length_fmap, length_take. lia.
Qed.

Definition path_deleted : del_state := run_dels [LazyDelete 3] init_del.

(** Every request is served at once, every task takes one poll, and the early
    exit never triggers. *)
Definition path_env : search_env Z unit :=
  {| deadline := fun _ => false; hit := fun _ => true; io_arrives := fun _ _ => true; comp_arrives := fun _ _ => true;
     ee_init := tt; ee_push := fun e _ => Ok (e, false); on_pm := true; sync := false; mem := false |}.

Lemma dynamic_search_witness :
  let del := deletion_sets path_deleted (active_delete_set path_deleted) in
  let searched mode := search path_geom path_map path_file 3 path_pq path_exact ∅ path_env 30 mode path_deleted true 3 2 2 [(0, path_pq 0)] in
  (forall mode result,
     graph_search path_geom path_map path_file 3 path_pq path_exact ∅ path_env 30 mode del true 3 2 [(0, path_pq 0)] = Ok result ->
     Z.of_nat (length result) <= result_size -> searched mode = Ok (take 2 (filter (fun x => x.1 ∉ del) result))) /\
  exists expanded,
    StronglySorted nb_le expanded /\ NoDup (id <$> expanded) /\ Forall (is_exact path_geom path_map path_file path_exact) expanded /\
    do_beam_search path_geom path_map path_file 3 (coord_slots path_geom) path_pq path_exact ∅ del true 3 2 (deadline path_env) 30
      [(0, path_pq 0)].*1 =
      (if Z.of_nat (length expanded) <=? coord_slots path_geom then Ok expanded else Crash) /\
    searched BEAM_SEARCH =
      (if Z.of_nat (length expanded) <=? coord_slots path_geom
       then Ok (take 2 (filter (fun x => x.1 ∉ del) ((fun x => (id2tag ∅ (id x), distance x)) <$> take 3 expanded)))
       else Crash).
Proof.
  apply (dynamic_search_correct path_geom path_map path_file 3 path_pq path_exact ∅ path_env path_deleted true 3 2 [(0, path_pq 0)] 2 30).
  - apply graph_check_ok. by vm_compute.
  - by apply path_degrees.
  - by vm_compute.
  - lia.
  - by vm_compute.
  - done.
  - apply NoDup_singleton.
  - simpl; lia.
  - by vm_compute.
  - apply path_known.
  - apply (bool_decide_unpack _). by vm_compute.
  - lia.
Defined.

Example path_search_deleted :
  Forall (fun mode => search path_geom path_map path_file 3 path_pq path_exact ∅ path_env 30 mode path_deleted true 3 2 2 [(0, path_pq 0)] =
                        Ok [(2, 9); (1, 19)]) [BEAM_SEARCH; PIPE_SEARCH; PARA_SEARCH].
Proof. by repeat constructor; vm_compute. Qed.

(** A merge starts by swapping the deletion sets, and the graph keeps its
    deleted nodes until it ends: in between a search filters by the new, empty
    set, so that a tag whose deletion was complete is returned again. *)
Theorem deleted_tag_returns_during_merge :
  let searched s := search path_geom path_map path_file 3 path_pq path_exact ∅ path_env 30 BEAM_SEARCH s true 3 2 2 [(0, path_pq 0)] in
  let before := run_dels [LazyDelete 3] init_del in
  let during := run_dels [LazyDelete 3; SaveDelSet] init_del in
  searched before = Ok [(2, 9); (1, 19)] /\ searched during = Ok [(3, 1); (2, 9)] /\
  (merge_args during).2 = {[3]}.
Proof. split_and!; by vm_compute. Qed.
