(* ===== verification/Merge.v ===== *)
(** * Merging deletions

    [SSDIndex::merge_deletes] of [src/update/delete_merge.cpp].  A first pass
    over the locations gives the nodes that are not deleted new, dense
    identifiers and remembers the filtered neighbours of the deleted ones; a
    second pass writes every remaining node at the location of its new
    identifier, with the neighbours of deleted neighbours in their place, by
    way of a buffer that holds two batches; then the maps are replaced.

    The passes run in parallel chunk by chunk: the order inside a chunk is
    arbitrary, and so is the order in which an [std::unordered_set] lists its
    elements ([uset_order]). *)
From S2P Require Import Prelude Cuckoo Layout PageAlloc Mapping Node Neighbor Float32 Prune CandidatePool BeamSearch.
Import Cuckoo.

Definition SECTORS_PER_POPULATE : Z := 128.
Definition SECTORS_PER_MERGE : Z := 65536.

Section merge.
Context {F : Type} `{!FloatOps F}.
Context (g : geometry) (st : map_state) (m : Z -> Z) (tags : gmap Z Z) (deleted : gset Z).
Context (n_sampled_nbrs : nat) (alpha : F) (range maxc pfuel : nat) (dpq : Z -> Z -> F).
Context (uset_order : gset Z -> list Z) (n_chunks : nat) (data : Z -> list Z).
Abbreviation nps := (nnodes_per_sector g).
Abbreviation loc2id := (PageAlloc.loc2id g (alloc_ st)).

Definition n_sectors : Z := (cur_loc (alloc_ st) + nps - 1) / nps.

(** The locations of a chunk of [S] sectors, and the number of chunks. *)
Definition chunk_locs (S j : Z) : list Z :=
  let loc_st := j * S * nps in
  let loc_ed := Z.min (cur_loc (alloc_ st)) (Z.min (j * S + S) n_sectors * nps) in
  seqZ loc_st (loc_ed - loc_st).

Definition num_chunks (S : Z) : nat := Z.to_nat ((n_sectors + S - 1) / S).

(** A run of a pass: the chunks in order, each in some order. *)
Definition pass_run (S : Z) (run : list (list Z)) : Prop :=
  Forall2 (fun j locs => locs ≡ₚ chunk_locs S (Z.of_nat j)) (seq 0 (num_chunks S)) run.

(** ** First pass *)
Record pop_state := {
  id_map : gmap Z Z;
  deleted_nhoods : gmap Z (list Z);
  new_npoints : Z;
}.

Definition is_deleted (id : Z) : bool := bool_decide (id2tag tags id ∈ deleted).

Definition node_at (loc : Z) : node := disk_node g m (u_loc_offset g loc).

(** The neighbours that are kept for a deleted node. *)
Definition filtered_nhood (loc : Z) : list Z :=
  take n_sampled_nbrs (filter (fun j => is_deleted j = false) (nbrs (node_at loc))).

Definition populate (loc : Z) (s : pop_state) : pop_state :=
  let id := loc2id loc in
  if id =? kInvalidID then s
  else if is_deleted id then
    {| id_map := id_map s; deleted_nhoods := insert_new id (filtered_nhood loc) (deleted_nhoods s);
       new_npoints := new_npoints s |}
  else
    {| id_map := insert_new id (new_npoints s) (id_map s); deleted_nhoods := deleted_nhoods s;
       new_npoints := new_npoints s + 1 |}.

Definition populate_all (locs : list Z) : pop_state :=
  foldl (fun s loc => populate loc s) {| id_map := ∅; deleted_nhoods := ∅; new_npoints := 0 |} locs.

(** ** Second pass *)
Section second_pass.
Variable p : pop_state.

Definition find_trap {V} (k : Z) (t : gmap Z V) : outcome V :=
  match find k t with Some v => Ok v | None => Crash end.

(** The set of neighbours with the deleted ones bypassed. *)
Definition add_nbr (nbr : Z) (s : gset Z) : outcome (gset Z) :=
  if is_deleted nbr then nhoods ← find_trap nbr (deleted_nhoods p); Ok (list_to_set nhoods ∪ s)
  else Ok ({[nbr]} ∪ s).

Definition bypassed (id : Z) (nd : node) : outcome (gset Z) :=
  s ← foldM add_nbr (nbrs nd) ∅;
  Ok (s ∖ {[id]}).

Definition prune_merged (id : Z) (nhood : list Z) : outcome (list Z) :=
  if bool_decide (range < length nhood)%nat then
    if max_pq_count <=? Z.of_nat (length nhood) then Crash else
    let pool := (fun x => {| id := x; distance := dpq id x; flag := false; visited := false |}) <$> nhood in
    prune_neighbors_pq alpha range maxc pfuel dpq (take maxc (std_sort_nb pool)) []
  else Ok nhood.

Fixpoint map_ids (l : list Z) : outcome (list Z) :=
  match l with
  | [] => Ok []
  | x :: l => y ← find_trap x (id_map p); r ← map_ids l; Ok (y :: r)
  end.

(** The node that is written for the node [id] at [loc]. *)
Definition merged_node (id loc : Z) : outcome node :=
  s ← bypassed id (node_at loc);
  nhood ← prune_merged id (uset_order s);
  nhood ← map_ids nhood;
  Ok {| coords := coords (node_at loc); nbrs := nhood |}.

(** [wbuf] by slot, [out] by location of the new file. *)
Record merge_state := {
  wbuf : gmap Z node;
  out : gmap Z node;
  wb_id : Z;
  n_used_id : Z;
  new_tags : list Z;
  pq_coords : list (list Z);
}.

Definition batch : Z := SECTORS_PER_MERGE * nps.
Definition kVecInWBuf : Z := 2 * batch.

Definition init_merge : merge_state :=
  {| wbuf := ∅; out := ∅; wb_id := 0; n_used_id := 0; new_tags := replicate (Z.to_nat (new_npoints p)) 0;
     pq_coords := replicate (Z.to_nat (new_npoints p)) (replicate n_chunks 0) |}.

Definition merge_node (loc : Z) (s : merge_state) : outcome merge_state :=
  let id := loc2id loc in
  if id =? kInvalidID then Ok s
  else if is_deleted id then Ok s
  else
    nd ← merged_node id loc;
    new_id ← find_trap id (id_map p);
    Ok {| wbuf := <[new_id mod kVecInWBuf := nd]> (wbuf s); out := out s; wb_id := wb_id s;
          n_used_id := n_used_id s + 1; new_tags := <[Z.to_nat new_id := id2tag tags id]> (new_tags s);
          pq_coords := <[Z.to_nat new_id := data id]> (pq_coords s) |}.

(** One batch of the buffer goes to the new file; slots that were never filled
    have no content. *)
Definition write_back (s : merge_state) : merge_state :=
  let b := (wb_id s mod kVecInWBuf) / batch * batch in
  let id_delta := Z.min batch (n_used_id s - wb_id s) in
  let slots := seqZ 0 (ROUND_UP id_delta nps) in
  {| wbuf := wbuf s;
     out := foldl (fun o i => match wbuf s !! (b + i) with
                              | Some nd => <[wb_id s + i := nd]> o
                              | None => delete (wb_id s + i) o
                              end) (out s) slots;
     wb_id := wb_id s + id_delta; n_used_id := n_used_id s; new_tags := new_tags s; pq_coords := pq_coords s |}.

Definition merge_chunk (locs : list Z) (s : merge_state) : outcome merge_state :=
  s ← foldM merge_node locs s;
  Ok (if batch <=? n_used_id s - wb_id s then write_back s else s).

(** [while (wb_id < n_used_id) write_back();] *)
Fixpoint flush_rest (fuel : nat) (s : merge_state) : outcome merge_state :=
  match fuel with
  | O => Crash
  | S fuel => if wb_id s <? n_used_id s then flush_rest fuel (write_back s) else Ok s
  end.

(** The start node moves to a neighbour while it is deleted; an empty list has
    no first element. *)
Fixpoint live_medoid (fuel : nat) (medoid : Z) : outcome Z :=
  match fuel with
  | O => Crash
  | S fuel =>
      if is_deleted medoid then
        nhoods ← find_trap medoid (deleted_nhoods p);
        match nhoods with x :: _ => live_medoid fuel x | [] => Crash end
      else Ok medoid
  end.
End second_pass.

(** The maps after the merge: the identity on the new identifiers. *)
Definition install (n : Z) (new_tags : list Z) : gmap Z Z * map_state :=
  foldl (fun '(tg, s) i =>
      (insert_or_assign i (new_tags !!! Z.to_nat i) tg,
       set_alloc (set_loc2id g i i (alloc_ s)) (set_id2loc (insert_or_assign i i (id2loc_ s)) s)))
    (∅, set_alloc (set_layout ∅ (alloc_ st)) (set_id2loc ∅ st)) (seqZ 0 n).

Record merged := {
  mg_file : gmap Z node;
  mg_tags : gmap Z Z;
  mg_state : map_state;
  mg_pq : list (list Z);
  mg_medoid : Z;
  mg_npoints : Z;
}.

Definition merge_deletes (medoid : Z) (run1 run2 : list (list Z)) : outcome merged :=
  let p := populate_all (concat run1) in
  s ← foldM (merge_chunk p) run2 (init_merge p);
  s ← flush_rest 3 s;
  medoid ← live_medoid p 3 medoid;
  medoid ← find_trap medoid (id_map p);
  let '(tg, st') := install (new_npoints p) (new_tags s) in
  Ok {| mg_file := out s; mg_tags := tg; mg_state := st'; mg_pq := pq_coords s; mg_medoid := medoid;
        mg_npoints := new_npoints p |}.

(** ** The state that is merged *)

(** [j] takes part in the new neighbour list of the node at [loc]: a remaining
    neighbour, or a kept neighbour of a deleted neighbour. *)
Definition reaches (loc j : Z) : Prop :=
  j <> loc2id loc /\
  ((is_deleted j = false /\ j ∈ nbrs (node_at loc)) \/
   exists d, is_deleted d = true /\ d ∈ nbrs (node_at loc) /\
     exists loc', id2loc_ st !! d = Some loc' /\ j ∈ filtered_nhood loc').

(** The start node [x] after the merge: the old one, or the first remaining
    neighbour of a deleted one. *)
Definition new_start (medoid x : Z) : Prop :=
  if is_deleted medoid then exists loc, id2loc_ st !! medoid = Some loc /\ head (filtered_nhood loc) = Some x else x = medoid.

(** No insertion is in flight: no slot is reserved, and the neighbours of every
    node are known; no list that is merged reaches the bound of
    [compute_pq_dists]. *)
Record mergeable : Prop := {
  mb_geometry : geometry_wf g;
  mb_index : index_inv g st;
  mb_settled : forall loc, loc_ok loc -> loc2id loc <> kAllocatedID;
  mb_graph : forall loc, loc_ok loc -> loc2id loc <> kInvalidID -> forall j, j ∈ nbrs (node_at loc) -> is_Some (id2loc_ st !! j);
  mb_uset : forall s, uset_order s ≡ₚ elements s;
  mb_alpha : exists n, rounds_end alpha n /\ (n < pfuel)%nat;
  mb_short : forall loc l, loc_ok loc -> loc2id loc <> kInvalidID -> NoDup l -> (forall j, j ∈ l -> reaches loc j) ->
    Z.of_nat (length l) < max_pq_count;
}.

(** The identifiers that remain, in the order of their locations. *)
Definition remains (id : Z) : Prop := id <> kInvalidID /\ is_deleted id = false.
#[local] Instance remains_dec id : Decision (remains id).
Proof. unfold remains. apply _. Defined.
Definition live_ids (locs : list Z) : list Z := filter remains (PageAlloc.loc2id g (alloc_ st) <$> locs).

Lemma live_ids_app a b : live_ids (a ++ b) = live_ids a ++ live_ids b.
Proof. unfold live_ids. by rewrite fmap_app, filter_app. Qed.

Lemma live_ids_perm a b : a ≡ₚ b -> live_ids a ≡ₚ live_ids b.
Proof. unfold live_ids. by intros ->. Qed.

Lemma elem_of_live_ids locs id : id ∈ live_ids locs <-> remains id /\ exists loc, loc ∈ locs /\ loc2id loc = id.
Proof.
  unfold live_ids. rewrite list_elem_of_filter, list_elem_of_fmap. naive_solver.
Qed.

Section facts.
Context (H : mergeable).

Lemma loc2id_inj l1 l2 : loc_ok l1 -> loc_ok l2 -> loc2id l1 = loc2id l2 -> loc2id l1 <> kInvalidID -> l1 = l2.
Proof.
  intros H1 H2 E Hi. pose proof (ii_bwd g st (mb_index H) l1 _ H1 eq_refl Hi (mb_settled H l1 H1)) as E1.
  assert (id2loc_ st !! loc2id l1 = Some l2) as E2.
  { apply (ii_bwd g st (mb_index H)); [done | done | done | by apply (mb_settled H)]. }
  congruence.
Qed.

(** *** Chunks *)
Lemma n_sectors_eq : cur_loc (alloc_ st) = n_sectors * nps /\ 0 <= n_sectors.
Proof.
  pose proof (ii_alloc _ _ (mb_index H)) as Ha. pose proof (nps_range g (mb_geometry H)).
  pose proof (inv_aligned _ _ Ha) as Hm. pose proof (inv_frontier _ _ Ha). pose proof (Z.div_mod (cur_loc (alloc_ st)) nps ltac:(lia)) as E.
  rewrite Hm, Z.add_0_r in E. set (q := cur_loc (alloc_ st) / nps) in *.
  assert (n_sectors = q) as ->; [|nia]. unfold n_sectors. rewrite E.
  symmetry. apply (Z.div_unique _ _ _ (nps - 1)); nia.
Qed.

Lemma chunk_locs_eq S j : 0 < S -> 0 <= j ->
  chunk_locs S j = seqZ (j * S * nps) ((Z.min (j * S + S) n_sectors - j * S) * nps).
Proof.
  intros HS Hj. pose proof n_sectors_eq as [E ?]. pose proof (nps_range g (mb_geometry H)). unfold chunk_locs. f_equal.
  rewrite E. nia.
Qed.

Lemma concat_chunks S n : 0 < S ->
  concat ((fun j : nat => chunk_locs S (Z.of_nat j)) <$> seq 0 n) = seqZ 0 (Z.min (Z.of_nat n * S) n_sectors * nps).
Proof.
  intros HS. pose proof n_sectors_eq as [_ Hn]. pose proof (nps_range g (mb_geometry H)).
  induction n as [|n IH]; [simpl; by rewrite Z.min_l by lia|].
  rewrite seq_S, fmap_app, concat_app, IH. cbn [fmap list_fmap concat]. rewrite app_nil_r.
  rewrite chunk_locs_eq by lia. destruct (Z.le_gt_cases (Z.of_nat n * S) n_sectors) as [Hle|Hgt].
  - rewrite (Z.min_l (Z.of_nat n * S)) by lia. rewrite <- seqZ_app by nia. f_equal. nia.
  - rewrite !(Z.min_r _ n_sectors) by nia. rewrite (seqZ_nil _ ((n_sectors - _) * _)) by nia. by rewrite app_nil_r.
Qed.

Lemma run_prefix S run k : 0 < S -> pass_run S run ->
  concat (take k run) ≡ₚ seqZ 0 (Z.min (Z.of_nat (Nat.min k (num_chunks S)) * S) n_sectors * nps).
Proof.
  intros HS Hrun. rewrite <- concat_chunks by done.
  assert (length run = num_chunks S) as Hl by (apply Forall2_length in Hrun; by rewrite length_seq in Hrun).
  assert (take k (seq 0 (num_chunks S)) = seq 0 (Nat.min k (num_chunks S))) as <-.
  { rewrite take_seq. done. }
  assert (Forall2 (fun j locs => locs ≡ₚ chunk_locs S (Z.of_nat j)) (take k (seq 0 (num_chunks S))) (take k run)) as Hk
    by (by apply Forall2_take).
  induction Hk as [|j locs js run' Hj _ IH]; [done|]. simpl. by rewrite Hj, IH.
Qed.

Lemma run_prefix_min S run k : 0 < S -> pass_run S run ->
  concat (take k run) ≡ₚ seqZ 0 (Z.min (Z.of_nat k * S) n_sectors * nps).
Proof.
  intros HS Hrun. rewrite (run_prefix S run k HS Hrun). pose proof n_sectors_eq as [_ Hn].
  assert (n_sectors <= Z.of_nat (num_chunks S) * S) as Hc.
  { unfold num_chunks. pose proof (Z.div_mod (n_sectors + S - 1) S ltac:(lia)).
    pose proof (Z.mod_pos_bound (n_sectors + S - 1) S HS).
    pose proof (Z.div_pos (n_sectors + S - 1) S ltac:(lia) HS). rewrite Z2Nat.id by done. nia. }
  assert (Z.min (Z.of_nat (k `min` num_chunks S) * S) n_sectors = Z.min (Z.of_nat k * S) n_sectors) as ->; [|done].
  destruct (Nat.le_gt_cases k (num_chunks S)) as [?|?]; [by rewrite Nat.min_l|]. rewrite Nat.min_r by lia. nia.
Qed.

Lemma run_all S run : 0 < S -> pass_run S run -> concat run ≡ₚ seqZ 0 (cur_loc (alloc_ st)).
Proof.
  intros HS Hrun. pose proof n_sectors_eq as [-> Hn].
  rewrite <- (take_ge run (Nat.max (length run) (Z.to_nat n_sectors))) by lia.
  rewrite (run_prefix_min S run _ HS Hrun). by rewrite Z.min_r by nia.
Qed.

Lemma loc_range_ok loc : 0 <= loc < cur_loc (alloc_ st) -> loc_ok loc.
Proof. pose proof (inv_frontier _ _ (ii_alloc _ _ (mb_index H))). unfold loc_ok. lia. Qed.

Lemma run_locs S run loc : 0 < S -> pass_run S run -> loc ∈ concat run <-> 0 <= loc < cur_loc (alloc_ st).
Proof. intros HS Hrun. rewrite (run_all S run HS Hrun), elem_of_seqZ. lia. Qed.

Lemma run_nodup S run : 0 < S -> pass_run S run -> NoDup (concat run).
Proof. intros HS Hrun. rewrite (run_all S run HS Hrun). apply NoDup_seqZ. Qed.

(** The prefixes of the two passes see the same locations. *)
Lemma prefixes_agree run1 run2 j : pass_run SECTORS_PER_POPULATE run1 -> pass_run SECTORS_PER_MERGE run2 ->
  concat (take (512 * j) run1) ≡ₚ concat (take j run2).
Proof.
  intros H1 H2. rewrite (run_prefix_min SECTORS_PER_POPULATE run1) by done. rewrite (run_prefix_min SECTORS_PER_MERGE run2) by done.
  unfold SECTORS_PER_POPULATE, SECTORS_PER_MERGE.
  by replace (Z.of_nat (512 * j) * 128) with (Z.of_nat j * 65536) by lia.
Qed.

(** *** The first pass *)
Record populated (locs : list Z) (p : pop_state) : Prop := {
  pp_count : new_npoints p = Z.of_nat (length (live_ids locs));
  pp_map : forall id n, id_map p !! id = Some n <-> exists i, n = Z.of_nat i /\ live_ids locs !! i = Some id;
  pp_nhoods : forall loc, loc ∈ locs -> loc2id loc <> kInvalidID -> is_deleted (loc2id loc) = true ->
    deleted_nhoods p !! loc2id loc = Some (filtered_nhood loc);
  pp_fresh : forall id, is_Some (deleted_nhoods p !! id) -> exists loc, loc ∈ locs /\ loc2id loc = id /\ id <> kInvalidID;
}.

Lemma populate_snoc locs loc p :
  NoDup (locs ++ [loc]) -> (forall l, l ∈ locs ++ [loc] -> loc_ok l) -> populated locs p ->
  populated (locs ++ [loc]) (populate loc p).
Proof.
  intros Hnd Hok [P1 P2 P3 P4]. apply NoDup_app in Hnd as (_ & Hdis & _).
  assert (forall l, l ∈ locs -> loc2id l = loc2id loc -> loc2id loc = kInvalidID) as Hnew.
  { intros l Hl E. destruct (decide (loc2id loc = kInvalidID)) as [?|Hi]; [done|]. exfalso.
    assert (l = loc) as -> by (apply loc2id_inj; [apply Hok; set_solver | apply Hok; set_solver | done | by rewrite E]).
    by apply (Hdis loc Hl), list_elem_of_singleton. }
  unfold populate. destruct (Z.eqb_spec (loc2id loc) kInvalidID) as [Ei|Ei].
  { assert (live_ids (locs ++ [loc]) = live_ids locs) as El.
    { rewrite live_ids_app. unfold live_ids at 2. cbn [fmap list_fmap]. rewrite filter_cons_False, filter_nil; [apply app_nil_r|].
      intros [? _]. done. }
    constructor; rewrite ?El; try done.
    - intros l [Hl|Hl]%elem_of_app Hli Hd; [by apply P3|]. apply list_elem_of_singleton in Hl. by subst l.
    - intros id Hid. destruct (P4 id Hid) as (l & ? & ? & ?). exists l. set_solver. }
  destruct (is_deleted (loc2id loc)) eqn:Ed.
  - assert (live_ids (locs ++ [loc]) = live_ids locs) as El.
    { rewrite live_ids_app. unfold live_ids at 2. cbn [fmap list_fmap]. rewrite filter_cons_False, filter_nil; [apply app_nil_r|].
      intros [_ ?]. congruence. }
    assert (deleted_nhoods p !! loc2id loc = None) as Hn.
    { destruct (deleted_nhoods p !! loc2id loc) eqn:E; [|done]. exfalso.
      destruct (P4 _ (mk_is_Some _ _ E)) as (lw & Hl & El' & _). by apply Ei, (Hnew lw). }
    constructor; simpl; rewrite ?El, ?insert_new_absent by done; try done.
    + intros l [Hl|Hl]%elem_of_app Hli Hd.
      * rewrite lookup_insert_ne; [by apply P3|]. intros E. by apply Ei, (Hnew l).
      * apply list_elem_of_singleton in Hl. subst l. by rewrite lookup_insert_eq.
    + intros id. destruct (decide (id = loc2id loc)) as [->|Hne]; [exists loc; set_solver|].
      rewrite lookup_insert_ne by done. intros Hid. destruct (P4 id Hid) as (l & ? & ? & ?). exists l. set_solver.
  - assert (live_ids (locs ++ [loc]) = live_ids locs ++ [loc2id loc]) as El.
    { rewrite live_ids_app. f_equal. unfold live_ids. cbn [fmap list_fmap]. rewrite filter_cons_True, filter_nil; [done|]. by split. }
    assert (loc2id loc ∉ live_ids locs) as Hnl.
    { rewrite elem_of_live_ids. intros (_ & l & Hl & E). by apply Ei, (Hnew l). }
    assert (id_map p !! loc2id loc = None) as Hn.
    { destruct (id_map p !! loc2id loc) as [n|] eqn:E; [|done]. exfalso. apply P2 in E as (i & _ & Hi).
      apply Hnl. by eapply list_elem_of_lookup_2. }
    constructor; simpl; rewrite ?El, ?insert_new_absent by done.
    + rewrite P1, length_app. simpl. lia.
    + intros id n. destruct (decide (id = loc2id loc)) as [->|Hne].
      * rewrite lookup_insert_eq. split.
        -- intros [= <-]. exists (length (live_ids locs)). split; [done|]. rewrite lookup_app_r by lia. by rewrite Nat.sub_diag.
        -- intros (i & -> & Hi). apply lookup_app_Some in Hi as [Hi|[Hi1 Hi2]].
           ++ exfalso. apply Hnl. by eapply list_elem_of_lookup_2.
           ++ apply list_lookup_singleton_Some in Hi2 as [Hi2 _]. rewrite P1. do 2 f_equal. lia.
      * rewrite lookup_insert_ne by done. rewrite P2. split; intros (i & -> & Hi); exists i; (split; [done|]).
        -- rewrite lookup_app_l; [done | by eapply lookup_lt_Some].
        -- apply lookup_app_Some in Hi as [?|[_ Hi2]]; [done|]. apply list_lookup_singleton_Some in Hi2 as [_ ?]. by subst.
    + intros l [Hl|Hl]%elem_of_app Hli Hd; [by apply P3|]. apply list_elem_of_singleton in Hl. subst l. congruence.
    + intros id Hid. destruct (P4 id Hid) as (l & ? & ? & ?). exists l. set_solver.
Qed.

Lemma populate_all_spec locs : NoDup locs -> (forall l, l ∈ locs -> loc_ok l) -> populated locs (populate_all locs).
Proof.
  induction locs as [|loc locs IH] using rev_ind; intros Hnd Hok.
  - constructor; simpl; [done | | set_solver |].
    + intros id n. rewrite lookup_empty. split; [done|]. intros (i & _ & Hi). change (live_ids []) with (@nil Z) in Hi. by rewrite lookup_nil in Hi.
    + intros id [? E]. by rewrite lookup_empty in E.
  - unfold populate_all. rewrite foldl_app. simpl. apply populate_snoc; [done | done |].
    apply IH; [by apply NoDup_app in Hnd as [? _] | intros l Hl; apply Hok; set_solver].
Qed.

(** *** The node that is written *)

(** What the new file holds for a node, with the new identifiers [im]. *)
Record merged_post (im : gmap Z Z) (loc : Z) (nd : node) : Prop := {
  mp_coords : coords nd = coords (node_at loc);
  mp_nbrs : exists nhood, Forall2 (fun j n => im !! j = Some n) nhood (nbrs nd) /\ NoDup nhood /\
    (forall j, j ∈ nhood -> reaches loc j) /\ (length nhood <= range)%nat /\
    (forall l, NoDup l -> (forall j, j ∈ l <-> reaches loc j) -> (length l <= range)%nat -> nhood ≡ₚ l);
}.

Lemma find_trap_Some {V} k (t : gmap Z V) v : t !! k = Some v -> find_trap k t = Ok v.
Proof. intros E. unfold find_trap, find, find_fn. by rewrite E. Qed.

Lemma known_loc id : is_Some (id2loc_ st !! id) ->
  exists loc, id2loc_ st !! id = Some loc /\ loc2id loc = id /\ loc_ok loc /\ 0 <= loc < cur_loc (alloc_ st) /\ id <> kInvalidID.
Proof.
  intros [loc E]. destruct (ii_fwd _ _ (mb_index H) _ _ E) as (Hid & Hok & El). exists loc.
  assert (id <> kInvalidID) as Hi by (unfold kInvalidID, kAllocatedID in *; lia).
  split_and!; try done; [apply Hok|]. destruct (Z.lt_ge_cases loc (cur_loc (alloc_ st))) as [?|Hge]; [done|].
  pose proof (loc2id_fresh g (mb_geometry H) (alloc_ st) loc (ii_alloc _ _ (mb_index H)) Hok Hge). congruence.
Qed.

Lemma remaining_known loc : loc_ok loc -> loc2id loc <> kInvalidID -> id2loc_ st !! loc2id loc = Some loc.
Proof. intros Hok Hi. apply (ii_bwd _ _ (mb_index H)); [done | done | done | by apply (mb_settled H)]. Qed.

Section with_pass.
Context (locs : list Z) (p : pop_state) (Hp : populated locs p).
Hypothesis Hlocs : forall loc, loc ∈ locs <-> 0 <= loc < cur_loc (alloc_ st).

Lemma remaining_mapped id : is_Some (id2loc_ st !! id) -> is_deleted id = false -> is_Some (id_map p !! id).
Proof.
  intros Hk Hd. destruct (known_loc id Hk) as (loc & _ & El & _ & Hr & Hi).
  assert (id ∈ live_ids locs) as Hin by (apply elem_of_live_ids; split; [done|]; exists loc; by rewrite Hlocs).
  apply list_elem_of_lookup in Hin as [i Hi']. exists (Z.of_nat i). apply (pp_map _ _ Hp). eauto.
Qed.

Lemma deleted_kept id : is_Some (id2loc_ st !! id) -> is_deleted id = true ->
  exists loc, id2loc_ st !! id = Some loc /\ deleted_nhoods p !! id = Some (filtered_nhood loc).
Proof.
  intros Hk Hd. destruct (known_loc id Hk) as (loc & E & El & _ & Hr & Hi). exists loc. split; [done|].
  rewrite <- El. apply (pp_nhoods _ _ Hp); [by apply Hlocs | by rewrite El | by rewrite El].
Qed.

Lemma reaches_known loc j : loc_ok loc -> loc2id loc <> kInvalidID -> reaches loc j ->
  is_Some (id2loc_ st !! j) /\ is_deleted j = false.
Proof.
  intros Hok Hi [_ [[Hd Hj]|(d & Hd & Hin & loc' & E & Hj)]].
  - split; [by apply (mb_graph H loc)|done].
  - unfold filtered_nhood in Hj. apply subseteq_take, list_elem_of_filter in Hj as [Hjd Hj].
    destruct (ii_fwd _ _ (mb_index H) _ _ E) as (Hid & Hok' & El). split; [|done].
    apply (mb_graph H loc'); [done | | done]. unfold kInvalidID, kAllocatedID in *. lia.
Qed.

Lemma bypassed_spec loc : loc_ok loc -> loc2id loc <> kInvalidID ->
  exists s, bypassed p (loc2id loc) (node_at loc) = Ok s /\ forall j, j ∈ s <-> reaches loc j.
Proof.
  intros Hok Hi. unfold bypassed.
  assert (forall l s0, (forall d, d ∈ l -> is_Some (id2loc_ st !! d)) ->
    exists s, foldM (add_nbr p) l s0 = Ok s /\ forall j, j ∈ s <-> j ∈ s0 \/ (is_deleted j = false /\ j ∈ l) \/
      exists d, is_deleted d = true /\ d ∈ l /\ exists loc', id2loc_ st !! d = Some loc' /\ j ∈ filtered_nhood loc') as Hf.
  { induction l as [|d l IH]; intros s0 Hl; cbn [foldM].
    { exists s0. split; [done|]. intros j. split; [by left|]. intros [?|[[_ ?]|(d & _ & ? & _)]]; set_solver. }
    assert (exists s1, add_nbr p d s0 = Ok s1 /\ forall j, j ∈ s1 <-> j ∈ s0 \/ (is_deleted d = false /\ j = d) \/
      (is_deleted d = true /\ exists loc', id2loc_ st !! d = Some loc' /\ j ∈ filtered_nhood loc')) as (s1 & -> & H1).
    { unfold add_nbr. destruct (is_deleted d) eqn:Ed.
      - destruct (deleted_kept d (Hl d ltac:(set_solver)) Ed) as (loc' & E & En).
        unfold find_trap, find, find_fn. rewrite En. cbn. eexists. split; [done|]. intros j.
        rewrite elem_of_union, elem_of_list_to_set. naive_solver.
      - eexists. split; [done|]. intros j. rewrite elem_of_union, elem_of_singleton. naive_solver. }
    cbn [mbind outcome_bind]. destruct (IH s1) as (s & -> & Hs); [set_solver|]. exists s. split; [done|].
    intros j. rewrite Hs, H1. setoid_rewrite elem_of_cons. split.
    - intros [[?|[[? ->]|[? ?]]]|[[? ?]|(d' & ? & ? & ?)]]; [by left | right; left; auto | right; right; exists d; auto
        | right; left; auto | right; right; exists d'; auto].
    - intros [?|[[? [->|?]]|(d' & Hd' & [->|?] & Hx)]]; [auto | left; right; left; auto | right; left; auto
        | left; right; right; auto | right; right; exists d'; auto]. }
  destruct (Hf (nbrs (node_at loc)) ∅ (mb_graph H loc Hok Hi)) as (s & -> & Hs). cbn [mbind outcome_bind].
  eexists. split; [done|]. intros j. rewrite elem_of_difference, Hs, elem_of_singleton. unfold reaches. set_solver.
Qed.

Lemma prune_merged_spec id l : NoDup l -> Z.of_nat (length l) < max_pq_count -> exists r, prune_merged id l = Ok r /\
  NoDup r /\ (forall j, j ∈ r -> j ∈ l) /\ (length r <= range)%nat /\ ((length l <= range)%nat -> r = l).
Proof.
  intros Hl Hsh. unfold prune_merged. case_bool_decide as Hb; [|exists l; split_and!; auto; lia].
  destruct (Z.leb_spec max_pq_count (Z.of_nat (length l))) as [|_]; [lia|].
  set (pool := (fun x => {| id := x; distance := dpq id x; flag := false; visited := false |}) <$> l).
  assert (Neighbor.id <$> pool = l) as El by (subst pool; rewrite <- list_fmap_compose; apply list_fmap_id).
  pose proof (std_sort_nb_perm pool) as Hperm. pose proof (fmap_Permutation Neighbor.id _ _ Hperm) as Hids. rewrite El in Hids.
  assert (forall j, j ∈ Neighbor.id <$> take maxc (std_sort_nb pool) -> j ∈ l) as Hsub.
  { intros j Hj. rewrite <- Hids. rewrite fmap_take in Hj. by eapply subseteq_take. }
  destruct (mb_alpha H) as (n & Hn & Hf). destruct (decide (take maxc (std_sort_nb pool) = [])) as [E|E].
  - rewrite E. exists []. split; [done|]. split_and!; [constructor | set_solver | simpl; lia | lia].
  - destruct (prune_neighbors_pq_spec alpha range maxc dpq (take maxc (std_sort_nb pool)) [] n pfuel) as (r & Er & [R1 R2 R3 _]);
      [|done|done|done|].
    + apply NoDup_take_ids. by rewrite Hids.
    + exists r. split; [exact Er|]. split_and!; [done | intros j Hj; by apply Hsub, R2 | done | lia].
Qed.

Lemma map_ids_spec l : (forall j, j ∈ l -> is_Some (id_map p !! j)) ->
  exists r, map_ids p l = Ok r /\ Forall2 (fun j n => id_map p !! j = Some n) l r.
Proof.
  induction l as [|j l IH]; intros Hl; simpl; [by exists []|].
  destruct (Hl j ltac:(set_solver)) as [n En]. unfold find_trap at 1, find, find_fn. rewrite En. cbn [mbind outcome_bind fmap option_fmap option_map].
  destruct IH as (r & -> & Hr); [set_solver|]. cbn [mbind outcome_bind]. exists (n :: r). split; [done|]. by constructor.
Qed.

Lemma merged_node_spec loc : loc_ok loc -> loc2id loc <> kInvalidID ->
  exists nd, merged_node p (loc2id loc) loc = Ok nd /\ merged_post (id_map p) loc nd.
Proof.
  intros Hok Hi. unfold merged_node. destruct (bypassed_spec loc Hok Hi) as (s & -> & Hs). cbn [mbind outcome_bind].
  pose proof (mb_uset H s) as Hu.
  assert (NoDup (uset_order s)) as Hnd by (rewrite Hu; apply NoDup_elements).
  assert (forall j, j ∈ uset_order s <-> reaches loc j) as Hin by (intros j; rewrite Hu, elem_of_elements; apply Hs).
  destruct (prune_merged_spec (loc2id loc) (uset_order s) Hnd) as (r & -> & R1 & R2 & R3 & R4).
  { apply (mb_short H loc); [done | done | done | by apply Hin]. }
  cbn [mbind outcome_bind].
  destruct (map_ids_spec r) as (ns & -> & Hns).
  { intros j Hj%R2%Hin. destruct (reaches_known loc j Hok Hi Hj). by apply remaining_mapped. }
  cbn [mbind outcome_bind]. eexists. split; [done|]. constructor; [done|]. exists r. split_and!; try done.
  - intros j Hj. by apply Hin, R2.
  - intros l Hl Hlr Hlen. assert (uset_order s ≡ₚ l) as Hperm.
    { apply NoDup_Permutation; [done | done|]. intros j. by rewrite Hin, Hlr. }
    rewrite R4; [done|]. by rewrite Hperm.
Qed.

(** *** The second pass *)
Abbreviation B := batch.

Lemma batch_pos : 0 < B /\ B = 65536 * nps.
Proof. pose proof (nps_range g (mb_geometry H)). unfold batch, SECTORS_PER_MERGE. lia. Qed.

(** [id] gets the new identifier [n] and the node [nd]. *)
Definition places (id n : Z) (nd : node) : Prop :=
  id_map p !! id = Some n /\ exists loc, loc_ok loc /\ loc2id loc = id /\ id <> kInvalidID /\ merged_node p id loc = Ok nd.

Lemma places_fun id1 id2 n nd1 nd2 : places id1 n nd1 -> places id2 n nd2 -> id1 = id2 /\ nd1 = nd2.
Proof.
  intros (M1 & l1 & O1 & E1 & I1 & N1) (M2 & l2 & O2 & E2 & I2 & N2).
  apply (pp_map _ _ Hp) in M1 as (i & Hi & L1). apply (pp_map _ _ Hp) in M2 as (j & Hj & L2).
  assert (i = j) as <- by lia. assert (id1 = id2) as <- by congruence. split; [done|].
  assert (l1 = l2) as <- by (apply loc2id_inj; congruence). congruence.
Qed.

(** [base] nodes belong to complete chunks, [done_] are those of the current one. *)
Record pass_inv (base : Z) (done_ : list Z) (s : merge_state) : Prop := {
  pi_used : n_used_id s = base + Z.of_nat (length done_);
  pi_wb : 0 <= wb_id s <= base;
  pi_aligned : wb_id s mod B = 0;
  pi_out : forall id n nd, places id n nd -> n < wb_id s -> out s !! n = Some nd;
  pi_buf : forall id n nd, places id n nd -> wb_id s <= n -> n < base \/ id ∈ done_ -> wbuf s !! (n mod kVecInWBuf) = Some nd;
  pi_tags_len : length (new_tags s) = length (live_ids locs);
  pi_pq_len : length (pq_coords s) = length (live_ids locs);
  pi_tags : forall id n, id_map p !! id = Some n -> n < base \/ id ∈ done_ -> new_tags s !! Z.to_nat n = Some (id2tag tags id);
  pi_pq : forall id n, id_map p !! id = Some n -> n < base \/ id ∈ done_ -> pq_coords s !! Z.to_nat n = Some (data id);
}.

Lemma id_map_range id n : id_map p !! id = Some n -> 0 <= n < Z.of_nat (length (live_ids locs)).
Proof. intros (i & -> & Hi)%(pp_map _ _ Hp). apply lookup_lt_Some in Hi. lia. Qed.

Lemma id_map_inj id1 id2 n : id_map p !! id1 = Some n -> id_map p !! id2 = Some n -> id1 = id2.
Proof.
  intros (i & E1 & Hi)%(pp_map _ _ Hp) (j & E2 & Hj)%(pp_map _ _ Hp). assert (i = j) as <- by lia. congruence.
Qed.

Lemma mod_inj a b K : 0 < K -> a mod K = b mod K -> Z.abs (a - b) < K -> a = b.
Proof.
  intros HK E Hab. pose proof (Z.div_mod a K ltac:(lia)). pose proof (Z.div_mod b K ltac:(lia)).
  assert (a / K = b / K) by nia. nia.
Qed.

(** One remaining node of a chunk whose new identifiers lie in
    [[base, base + B)]. *)
Lemma merge_node_live base done_ loc s n :
  loc_ok loc -> remains (loc2id loc) -> id_map p !! loc2id loc = Some n -> base <= n < base + B ->
  base - wb_id s < B -> (forall id n', id ∈ done_ -> id_map p !! id = Some n' -> base <= n' < base + B) ->
  pass_inv base done_ s -> exists s', merge_node p loc s = Ok s' /\ pass_inv base (done_ ++ [loc2id loc]) s' /\ wb_id s' = wb_id s.
Proof.
  intros Hok [Hi Hd] Hn Hrng Hwb Hdone [I1 I2 I3 I4 I5 I6 I7 I8 I9]. pose proof batch_pos as [HB _].
  destruct (merged_node_spec loc Hok Hi) as (nd & End & _). unfold merge_node.
  rewrite (proj2 (Z.eqb_neq _ _) Hi), Hd, End. cbn [mbind outcome_bind]. unfold find_trap, find, find_fn. rewrite Hn. cbn.
  eexists. split; [done|]. pose proof (id_map_range _ _ Hn). split; [constructor; simpl | done].
  - rewrite I1, length_app. simpl. lia.
  - done.
  - done.
  - done.
  - intros id n' nd' Hpl Hge Hor. destruct (Z.eq_dec n' n) as [->|Hne].
    + rewrite lookup_insert_eq. f_equal. apply (places_fun (loc2id loc) id n nd nd'); [|done].
      split; [done|]. by exists loc.
    + assert (n' < base \/ id ∈ done_) as Hor'.
      { destruct Hor as [?|[?|Hl]%elem_of_app]; [by left | by right|]. apply list_elem_of_singleton in Hl as ->.
        destruct Hpl as [Hpl _]. congruence. }
      rewrite lookup_insert_ne; [by apply (I5 id)|]. intros E. apply Hne. symmetry. apply (mod_inj _ _ kVecInWBuf); [unfold kVecInWBuf; lia | done|].
      assert (n' < base + B); [|unfold kVecInWBuf; lia]. destruct Hor' as [?|Hin]; [lia|]. destruct Hpl as [Hm _].
      by apply (Hdone id n' Hin Hm).
  - by rewrite length_insert.
  - by rewrite length_insert.
  - intros id n' Hm Hor. destruct (Z.eq_dec n' n) as [->|Hne].
    + rewrite (id_map_inj id (loc2id loc) n Hm Hn). apply list_lookup_insert_eq. lia.
    + pose proof (id_map_range _ _ Hm). rewrite list_lookup_insert_ne by lia. apply I8; [done|].
      destruct Hor as [?|[?|Hl]%elem_of_app]; [by left | by right|]. apply list_elem_of_singleton in Hl as ->. congruence.
  - intros id n' Hm Hor. destruct (Z.eq_dec n' n) as [->|Hne].
    + rewrite (id_map_inj id (loc2id loc) n Hm Hn). apply list_lookup_insert_eq. lia.
    + pose proof (id_map_range _ _ Hm). rewrite list_lookup_insert_ne by lia. apply I9; [done|].
      destruct Hor as [?|[?|Hl]%elem_of_app]; [by left | by right|]. apply list_elem_of_singleton in Hl as ->. congruence.
Qed.

Lemma merge_nodes_spec base : forall todo done_ s,
  (forall loc, loc ∈ todo -> loc_ok loc) ->
  (forall id n, id ∈ done_ ++ live_ids todo -> id_map p !! id = Some n -> base <= n < base + B) ->
  (forall id, id ∈ live_ids todo -> is_Some (id_map p !! id)) ->
  base - wb_id s < B -> pass_inv base done_ s ->
  exists s', foldM (merge_node p) todo s = Ok s' /\ pass_inv base (done_ ++ live_ids todo) s' /\ wb_id s' = wb_id s.
Proof.
  induction todo as [|loc todo IH]; intros done_ s Hok Hrng Hm Hwb Hs; cbn [foldM].
  { exists s. unfold live_ids; simpl. rewrite filter_nil, app_nil_r. done. }
  change (loc :: todo) with ([loc] ++ todo) in Hrng, Hm |- *. rewrite live_ids_app in *.
  assert (loc_ok loc) as Hl by (apply Hok; set_solver).
  destruct (decide (remains (loc2id loc))) as [Hr|Hr].
  - assert (live_ids [loc] = [loc2id loc]) as E1.
    { unfold live_ids. cbn [fmap list_fmap]. by rewrite filter_cons_True, filter_nil. }
    rewrite E1 in *. destruct (Hm (loc2id loc) ltac:(set_solver)) as [n Hn].
    destruct (merge_node_live base done_ loc s n Hl Hr Hn) as (s1 & -> & H1 & W1).
    + apply (Hrng (loc2id loc)); [set_solver | done].
    + done.
    + intros id n' Hin. apply Hrng. set_solver.
    + done.
    + cbn [mbind outcome_bind]. destruct (IH (done_ ++ [loc2id loc]) s1) as (s' & -> & H2 & W2).
      * intros l Hin. apply Hok. set_solver.
      * intros id n' Hin. apply Hrng. set_solver.
      * intros id Hin. apply Hm. set_solver.
      * lia.
      * done.
      * exists s'. rewrite app_assoc. split_and!; [done | done | lia].
  - assert (live_ids [loc] = []) as E1.
    { unfold live_ids. cbn [fmap list_fmap]. by rewrite filter_cons_False, filter_nil. }
    rewrite E1 in *. assert (merge_node p loc s = Ok s) as ->.
    { unfold merge_node. destruct (Z.eqb_spec (loc2id loc) kInvalidID); [done|].
      destruct (is_deleted (loc2id loc)) eqn:Ed; [done|]. by destruct Hr. }
    cbn [mbind outcome_bind]. apply IH; [intros l Hin; apply Hok; set_solver | done | intros id Hin; apply Hm; set_solver | done | done].
Qed.

(** *** Writing a batch *)
Lemma write_slots (w : gmap Z node) b0 wb cnt : 0 <= cnt -> forall (o : gmap Z node) n,
  foldl (fun (o : gmap Z node) i => match w !! (b0 + i) with Some nd => <[wb + i := nd]> o | None => delete (wb + i) o end) o (seqZ 0 cnt) !! n
  = if decide (wb <= n < wb + cnt) then w !! (b0 + (n - wb)) else o !! n.
Proof.
  intros Hc o n. rewrite <- (Z2Nat.id cnt) by done. generalize (Z.to_nat cnt) as k. induction k as [|k IH].
  - simpl. by rewrite decide_False by lia.
  - rewrite Nat2Z.inj_succ, <- Z.add_1_r, seqZ_app, foldl_app, Z.add_0_l by lia.
    change (seqZ (Z.of_nat k) 1) with [Z.of_nat 0 + Z.of_nat k]. rewrite Z.add_0_l. cbn [foldl].
    destruct (Z.eq_dec n (wb + Z.of_nat k)) as [->|Hne].
    + rewrite decide_True by lia. replace (b0 + (wb + Z.of_nat k - wb)) with (b0 + Z.of_nat k) by lia.
      destruct (w !! (b0 + Z.of_nat k)) as [nd|]; [by rewrite lookup_insert_eq | by rewrite lookup_delete_eq].
    + assert (forall o' : gmap Z node, (match w !! (b0 + Z.of_nat k) with Some nd => <[wb + Z.of_nat k := nd]> o'
        | None => delete (wb + Z.of_nat k) o' end) !! n = o' !! n) as ->.
      { intros o'. destruct (w !! (b0 + Z.of_nat k)); [by rewrite lookup_insert_ne | by rewrite lookup_delete_ne]. }
      rewrite IH. repeat case_decide; done || lia.
Qed.

Lemma slot_base K x : 0 < K -> x mod K = 0 -> x mod (2 * K) = x mod (2 * K) / K * K /\ 0 <= x mod (2 * K) <= K.
Proof.
  intros HK Hx. pose proof (Z.mod_pos_bound x (2 * K) ltac:(lia)) as Hb. set (y := x mod (2 * K)) in *.
  assert (y mod K = 0) as Hy.
  { subst y. rewrite (Z.mul_comm 2), Z.rem_mul_r by lia. rewrite Hx, Z.add_0_l, Z.mul_comm. by apply Z.mod_mul; lia. }
  pose proof (Z.div_mod y K ltac:(lia)) as E. rewrite Hy, Z.add_0_r in E. set (q := y / K) in *.
  assert (q < 2) by nia. split; nia.
Qed.

Lemma round_up_batch d : 0 < d <= B -> d <= ROUND_UP d nps <= B.
Proof.
  intros Hd. pose proof (nps_range g (mb_geometry H)). destruct batch_pos as [_ HB]. unfold ROUND_UP, DIV_ROUND_UP.
  rewrite (proj2 (Z.eqb_neq d 0)) by lia. pose proof (Z.div_mod d nps ltac:(lia)). pose proof (Z.mod_pos_bound d nps ltac:(lia)).
  set (q := d / nps) in *. destruct (Z.eqb_spec (d mod nps) 0) as [E|E]; [lia|].
  assert (q < 65536) by (apply (Z.mul_lt_mono_pos_l nps); lia).
  assert ((q + 1) * nps <= 65536 * nps) by (apply Z.mul_le_mono_nonneg_r; lia). lia.
Qed.

Lemma write_back_spec base s : base - wb_id s < 2 * B -> wb_id s < base -> pass_inv base [] s ->
  wb_id (write_back s) = wb_id s + Z.min B (base - wb_id s) /\
  (wb_id (write_back s) mod B = 0 -> pass_inv base [] (write_back s)) /\
  (forall id n nd, places id n nd -> n < wb_id (write_back s) -> out (write_back s) !! n = Some nd) /\
  new_tags (write_back s) = new_tags s /\ pq_coords (write_back s) = pq_coords s /\ n_used_id (write_back s) = n_used_id s.
Proof.
  intros Hw Hlt [I1 I2 I3 I4 I5 I6 I7 I8 I9]. destruct batch_pos as [HB _]. simpl in I1. rewrite Z.add_0_r in I1.
  assert (forall id n nd, places id n nd -> n < wb_id (write_back s) -> out (write_back s) !! n = Some nd) as Hout.
  { intros id n nd Hpl Hn. simpl in *. rewrite I1 in *. set (d := Z.min B (base - wb_id s)) in *.
    pose proof (round_up_batch d ltac:(lia)) as Hr. rewrite write_slots by lia. case_decide as Hc.
    - rewrite <- (I5 id n nd Hpl); [|lia|left; lia]. f_equal.
      destruct (slot_base B (wb_id s) HB I3) as [Hal Hm]. fold kVecInWBuf in Hal, Hm. rewrite <- Hal.
      pose proof (Z.div_mod (wb_id s) kVecInWBuf ltac:(unfold kVecInWBuf; lia)) as E.
      apply (Z.mod_unique _ _ (wb_id s / kVecInWBuf)); [left; unfold kVecInWBuf in *; lia | lia].
    - apply (I4 id); [done | lia]. }
  split; [simpl; by rewrite I1|]. split; [|by split_and!].
  intros Hal. constructor; simpl in *; try done; [lia | rewrite I1; lia |].
  intros id n nd Hpl Hge Hor. apply (I5 id); [done | lia | done].
Qed.

Lemma init_merge_inv : pass_inv 0 [] (init_merge p).
Proof.
  assert (forall id n, id_map p !! id = Some n -> n < 0 \/ id ∈ @nil Z -> False) as Hno.
  { intros id n Hm [?|?%elem_of_nil]; [|done]. pose proof (id_map_range _ _ Hm). lia. }
  constructor; simpl; try (by rewrite length_replicate, (pp_count _ _ Hp), Nat2Z.id); try done.
  - intros id n nd [Hm _] Hn. pose proof (id_map_range _ _ Hm). lia.
  - intros id n nd [Hm _] _ Hor. by destruct (Hno id n Hm Hor).
  - intros id n Hm Hor. by destruct (Hno id n Hm Hor).
  - intros id n Hm Hor. by destruct (Hno id n Hm Hor).
Qed.

Lemma live_ids_nodup : NoDup (live_ids locs).
Proof.
  apply NoDup_alt. intros i j id Hi Hj.
  assert (id_map p !! id = Some (Z.of_nat i)) as E1 by (apply (pp_map _ _ Hp); eauto).
  assert (id_map p !! id = Some (Z.of_nat j)) as E2 by (apply (pp_map _ _ Hp); eauto).
  rewrite E1 in E2. injection E2. lia.
Qed.

(** The new identifiers of a prefix of the first pass are an initial segment. *)
Lemma prefix_ids a b id n : locs = a ++ b -> id_map p !! id = Some n ->
  id ∈ live_ids a <-> n < Z.of_nat (length (live_ids a)).
Proof.
  intros El Hm. pose proof Hm as (i & -> & Hi)%(pp_map _ _ Hp). pose proof live_ids_nodup as Hnd.
  rewrite El, live_ids_app in Hi, Hnd. split.
  - intros (j & Hj)%list_elem_of_lookup.
    assert (i = j) as <-; [|apply lookup_lt_Some in Hj; lia].
    apply (NoDup_lookup _ _ _ id Hnd Hi). by apply lookup_app_l_Some.
  - intros Hn. rewrite lookup_app_l in Hi by lia. by eapply list_elem_of_lookup_2.
Qed.

Section runs.
Context (run1 run2 : list (list Z)).
Context (H1 : pass_run SECTORS_PER_POPULATE run1) (H2 : pass_run SECTORS_PER_MERGE run2) (Hl : locs = concat run1).
Definition seen (j : nat) : list Z := live_ids (concat (take j run2)).
Definition base (j : nat) : Z := Z.of_nat (length (seen j)).

Lemma seen_ids j id n : id_map p !! id = Some n -> id ∈ seen j <-> n < base j.
Proof.
  intros Hm. pose proof (live_ids_perm _ _ (prefixes_agree run1 run2 j H1 H2)) as Hperm.
  unfold base, seen. rewrite <- Hperm.
  apply (prefix_ids _ (concat (drop (512 * j) run1))); [|done]. by rewrite Hl, <- concat_app, take_drop.
Qed.

Lemma seen_S j chunk : run2 !! j = Some chunk -> seen (S j) = seen j ++ live_ids chunk.
Proof.
  intros Hj. unfold seen. rewrite (take_S_r _ _ _ Hj), concat_app, live_ids_app. simpl. by rewrite app_nil_r.
Qed.

Lemma chunk_small j chunk : run2 !! j = Some chunk -> base (S j) <= base j + B.
Proof.
  intros Hj. unfold base. rewrite (seen_S j chunk Hj), length_app.
  assert (Z.of_nat (length chunk) <= B) as Hc.
  { destruct (Forall2_lookup_r _ _ _ _ _ H2 Hj) as (i & Hi & ->). apply lookup_seq in Hi as [-> _].
    pose proof batch_pos as [? HB]. pose proof (nps_range g (mb_geometry H)).
    rewrite chunk_locs_eq by (unfold SECTORS_PER_MERGE; lia). rewrite length_seqZ. unfold SECTORS_PER_MERGE.
    rewrite HB. nia. }
  assert (length (live_ids chunk) <= length chunk)%nat; [|lia].
  unfold live_ids. rewrite <- (length_fmap (PageAlloc.loc2id g (alloc_ st)) chunk). apply length_filter.
Qed.

Lemma remaining_in_run loc : loc ∈ concat run2 -> loc_ok loc.
Proof. intros Hin. apply loc_range_ok. by apply (run_locs SECTORS_PER_MERGE run2 loc). Qed.

Lemma merge_chunks_spec k : (k <= length run2)%nat ->
  exists s, foldM (merge_chunk p) (take k run2) (init_merge p) = Ok s /\ pass_inv (base k) [] s /\ base k - wb_id s < B.
Proof.
  induction k as [|k IH]; intros Hk.
  - exists (init_merge p). split; [done|]. unfold base, seen. simpl. split; [apply init_merge_inv | apply batch_pos].
  - destruct IH as (s & E & Hs & Hw); [lia|].
    destruct (lookup_lt_is_Some_2 run2 k ltac:(lia)) as [chunk Hchunk].
    rewrite (take_S_r _ _ _ Hchunk), foldM_app, E. cbn [mbind outcome_bind foldM]. unfold merge_chunk.
    assert (forall loc, loc ∈ chunk -> loc_ok loc) as Hok.
    { intros loc Hin. apply remaining_in_run, list_elem_of_In, in_concat. exists chunk. split; apply list_elem_of_In; [|done].
      by eapply list_elem_of_lookup_2. }
    assert (forall id, id ∈ live_ids chunk -> is_Some (id_map p !! id)) as Hm.
    { intros id (Hr & loc & Hin & El)%elem_of_live_ids. apply remaining_mapped; [|apply Hr]. exists loc. rewrite <- El.
      apply remaining_known; [by apply Hok | rewrite El; apply Hr]. }
    assert (forall id n, id ∈ live_ids chunk -> id_map p !! id = Some n -> base k <= n < base k + B) as Hrng.
    { intros id n Hin Hn. pose proof (chunk_small k chunk Hchunk).
      assert (id ∈ seen (S k)) as Hs1 by (rewrite (seen_S k chunk Hchunk); set_solver).
      apply (seen_ids (S k) id n Hn) in Hs1. split; [|lia].
      destruct (Z.lt_ge_cases n (base k)) as [Hlt|?]; [|done]. apply (seen_ids k id n Hn) in Hlt. exfalso.
      assert (NoDup (seen (S k))) as Hnd.
      { unfold seen. rewrite <- (live_ids_perm _ _ (prefixes_agree run1 run2 (S k) H1 H2)).
        pose proof live_ids_nodup as Hnd. rewrite Hl, <- (take_drop (512 * S k) run1), concat_app, live_ids_app in Hnd.
        by apply NoDup_app in Hnd as [? _]. }
      rewrite (seen_S k chunk Hchunk) in Hnd. apply NoDup_app in Hnd as (_ & Hd & _). by apply (Hd id). }
    destruct (merge_nodes_spec (base k) chunk [] s Hok Hrng Hm Hw Hs) as (s1 & -> & Hs1 & W1). cbn [mbind outcome_bind].
    assert (pass_inv (base (S k)) [] s1) as Hs2.
    { destruct Hs1 as [I1 I2 I3 I4 I5 I6 I7 I8 I9].
      assert (base (S k) = base k + Z.of_nat (length (live_ids chunk))) as Eb
        by (unfold base; rewrite (seen_S k chunk Hchunk), length_app; lia).
      assert (forall id n, id_map p !! id = Some n -> n < base (S k) \/ id ∈ @nil Z -> n < base k \/ id ∈ live_ids chunk) as Hor.
      { intros id n Hn [Hlt|?%elem_of_nil]; [|done]. apply (seen_ids (S k) id n Hn) in Hlt.
        rewrite (seen_S k chunk Hchunk), elem_of_app in Hlt. destruct Hlt as [Hlt|?]; [left; by apply (seen_ids k id n Hn) | by right]. }
      constructor; simpl in *; try done; try lia.
      - intros id n nd Hpl Hge Ho. apply (I5 id); [done | done |]. apply Hor; [apply Hpl | done].
      - intros id n Hn Ho. apply I8; [done | by apply Hor].
      - intros id n Hn Ho. apply I9; [done | by apply Hor]. }
    pose proof (chunk_small k chunk Hchunk). pose proof (pi_used _ _ _ Hs2) as Eu. simpl in Eu.
    eexists. split; [done|]. destruct (Z.leb_spec B (n_used_id s1 - wb_id s1)) as [Hge|Hlt]; [|split; [done | lia]].
    pose proof (pi_wb _ _ _ Hs2). pose proof batch_pos as [HB _].
    destruct (write_back_spec (base (S k)) s1) as (Wb & Hinv & _); [lia | lia | done |].
    rewrite Z.min_l in Wb by lia. split; [apply Hinv; rewrite Wb | lia].
    rewrite <- Zplus_mod_idemp_l, (pi_aligned _ _ _ Hs2), Z.add_0_l. apply Z.mod_same. lia.
Qed.

(** The file and the tables are complete when the passes end. *)
Record file_post (s : merge_state) : Prop := {
  fp_out : forall id n nd, places id n nd -> out s !! n = Some nd;
  fp_len : length (new_tags s) = length (live_ids locs);
  fp_tags : forall id n, id_map p !! id = Some n -> new_tags s !! Z.to_nat n = Some (id2tag tags id);
  fp_pq : forall id n, id_map p !! id = Some n -> pq_coords s !! Z.to_nat n = Some (data id);
}.

Lemma second_pass_spec : exists s s', foldM (merge_chunk p) run2 (init_merge p) = Ok s /\ flush_rest 3 s = Ok s' /\ file_post s'.
Proof.
  destruct (merge_chunks_spec (length run2)) as (s & E & Hs & Hw); [done|]. rewrite take_ge in E by done.
  assert (base (length run2) = Z.of_nat (length (live_ids locs))) as Eb.
  { unfold base, seen. rewrite take_ge, Hl by done. f_equal. apply Permutation_length, live_ids_perm.
    rewrite (run_all SECTORS_PER_MERGE run2), (run_all SECTORS_PER_POPULATE run1) by done. done. }
  assert (forall id n, id_map p !! id = Some n -> n < base (length run2)) as Hlt
    by (intros id n Hm; pose proof (id_map_range _ _ Hm); lia).
  pose proof Hs as [I1 I2 I3 I4 I5 I6 I7 I8 I9]. simpl in I1. exists s.
  destruct (Z.ltb_spec (wb_id s) (n_used_id s)) as [Hlt'|Hge].
  - destruct (write_back_spec (base (length run2)) s) as (W1 & _ & W3 & W4 & W5 & W6); [lia | lia | done |].
    rewrite Z.min_r in W1 by lia. exists (write_back s). split; [done|]. split.
    + cbn [flush_rest]. rewrite (proj2 (Z.ltb_lt _ _) Hlt'), W1, W6, I1.
      by rewrite (proj2 (Z.ltb_ge _ _)) by lia.
    + constructor; rewrite ?W4, ?W5.
      * intros id n nd Hpl. apply (W3 id); [done|]. rewrite W1. pose proof (Hlt id n (proj1 Hpl)). lia.
      * done.
      * intros id n Hm. apply I8; [done | left; by apply (Hlt id)].
      * intros id n Hm. apply I9; [done | left; by apply (Hlt id)].
  - exists s. split; [done|]. split; [cbn [flush_rest]; by rewrite (proj2 (Z.ltb_ge _ _)) by lia|]. constructor; [|done| |].
    + intros id n nd Hpl. apply (I4 id); [done|]. pose proof (Hlt id n (proj1 Hpl)). lia.
    + intros id n Hm. apply I8; [done | left; by apply (Hlt id)].
    + intros id n Hm. apply I9; [done | left; by apply (Hlt id)].
Qed.
End runs.

Lemma live_medoid_spec medoid : is_Some (id2loc_ st !! medoid) ->
  (forall loc, id2loc_ st !! medoid = Some loc -> is_deleted medoid = true -> filtered_nhood loc <> []) ->
  exists x, live_medoid p 3 medoid = Ok x /\ is_Some (id2loc_ st !! x) /\ is_deleted x = false /\ new_start medoid x.
Proof.
  intros Hk Hne. unfold new_start. cbn [live_medoid]. destruct (is_deleted medoid) eqn:Ed; [|by exists medoid].
  destruct (deleted_kept medoid Hk Ed) as (loc & E & En). rewrite (find_trap_Some _ _ _ En). cbn [mbind outcome_bind].
  destruct (filtered_nhood loc) as [|x rest] eqn:Ef; [by destruct (Hne loc E eq_refl)|].
  assert (x ∈ filtered_nhood loc) as Hin by (rewrite Ef; set_solver). unfold filtered_nhood in Hin.
  apply subseteq_take, list_elem_of_filter in Hin as [Hx Hin]. rewrite Hx. exists x.
  split_and!; [done | | done | exists loc; by rewrite Ef].
  destruct (ii_fwd _ _ (mb_index H) _ _ E) as (Hid & Hok & El).
  apply (mb_graph H loc); [done | | done]. unfold kInvalidID, kAllocatedID in *. lia.
Qed.
End with_pass.

Lemma install_spec tgs : forall k, Z.of_nat k <= cur_loc (alloc_ st) ->
  let '(tg, s) := install (Z.of_nat k) tgs in
  (forall i, 0 <= i < Z.of_nat k -> tg !! i = Some (tgs !!! Z.to_nat i)) /\
  (forall i, id2loc_ s !! i = if decide (0 <= i < Z.of_nat k) then Some i else None) /\
  (forall l, loc_ok l -> PageAlloc.loc2id g (alloc_ s) l = if decide (l < Z.of_nat k) then l else kInvalidID) /\
  (forall q v, page_layout (alloc_ s) !! q = Some v -> length v = kMaxElemInAPage).
Proof.
  unfold install. induction k as [|k IH]; intros Hk.
  - simpl. split_and!; [lia | | | by intros q v ?].
    + intros i. by rewrite lookup_empty, decide_False by lia.
    + intros l [? ?]. rewrite decide_False by lia. by rewrite loc2id_page.
  - rewrite Nat2Z.inj_succ, <- Z.add_1_r, seqZ_app, foldl_app, Z.add_0_l by lia.
    change (seqZ (Z.of_nat k) 1) with [Z.of_nat 0 + Z.of_nat k]. rewrite Z.add_0_l. cbn [foldl].
    specialize (IH ltac:(lia)). destruct (foldl _ _ (seqZ 0 (Z.of_nat k))) as [tg s]. destruct IH as (IH1 & IH2 & IH3 & IH4).
    assert (loc_ok (Z.of_nat k)) as Hok by (apply loc_range_ok; lia).
    simpl. split_and!.
    + intros i Hi. rewrite insert_or_assign_eq. destruct (Z.eq_dec i (Z.of_nat k)) as [->|?];
        [by rewrite lookup_insert_eq | rewrite lookup_insert_ne by done; apply IH1; lia].
    + intros i. rewrite insert_or_assign_eq. destruct (Z.eq_dec i (Z.of_nat k)) as [->|?];
        [rewrite lookup_insert_eq, decide_True by lia; done | rewrite lookup_insert_ne, IH2 by done; repeat case_decide; done || lia].
    + intros l Hlo. rewrite set_loc2id_lookup by (done || apply (mb_geometry H)). rewrite u32_small by (destruct Hok; lia).
      rewrite IH3 by done. repeat case_decide; done || lia.
    + intros q v. by apply (set_loc2id_lens g (mb_geometry H)).
Qed.
End facts.

(** What a merge promises, with [im] the new identifier of each remaining one. *)
Record merge_post (medoid : Z) (im : gmap Z Z) (r : merged) : Prop := {
  mp_domain : forall id, is_Some (im !! id) <-> is_Some (id2loc_ st !! id) /\ is_deleted id = false;
  mp_inj : forall id1 id2 n, im !! id1 = Some n -> im !! id2 = Some n -> id1 = id2;
  mp_dense : forall n, 0 <= n < mg_npoints r <-> exists id, im !! id = Some n;
  mp_node : forall id loc n, id2loc_ st !! id = Some loc -> im !! id = Some n ->
    exists nd, mg_file r !! n = Some nd /\ merged_post im loc nd;
  mp_tags : forall id n, im !! id = Some n -> mg_tags r !! n = Some (id2tag tags id);
  mp_pq : forall id n, im !! id = Some n -> mg_pq r !! Z.to_nat n = Some (data id);
  mp_id2loc : forall i, id2loc_ (mg_state r) !! i = if decide (0 <= i < mg_npoints r) then Some i else None;
  mp_loc2id : forall l, loc_ok l ->
    PageAlloc.loc2id g (alloc_ (mg_state r)) l = if decide (l < mg_npoints r) then l else kInvalidID;
  mp_medoid : exists id, im !! id = Some (mg_medoid r) /\ new_start medoid id;
}.

Lemma merge_deletes_spec medoid run1 run2 :
  mergeable -> pass_run SECTORS_PER_POPULATE run1 -> pass_run SECTORS_PER_MERGE run2 ->
  is_Some (id2loc_ st !! medoid) ->
  (forall loc, id2loc_ st !! medoid = Some loc -> is_deleted medoid = true -> filtered_nhood loc <> []) ->
  exists r im, merge_deletes medoid run1 run2 = Ok r /\ merge_post medoid im r.
Proof.
  intros H H1 H2 Hmed Hne. unfold merge_deletes. set (p := populate_all (concat run1)).
  assert (forall loc, loc ∈ concat run1 <-> 0 <= loc < cur_loc (alloc_ st)) as Hlocs
    by (intros loc; by apply (run_locs H SECTORS_PER_POPULATE)).
  assert (populated (concat run1) p) as Hp.
  { apply populate_all_spec; [done | by apply (run_nodup H SECTORS_PER_POPULATE) |].
    intros l Hl%Hlocs. by apply loc_range_ok. }
  destruct (second_pass_spec H (concat run1) p Hp Hlocs run1 run2 H1 H2 eq_refl) as (s & s' & -> & Es' & [F1 F2 F3 F4]).
  cbn [mbind outcome_bind]. rewrite Es'. cbn [mbind outcome_bind].
  destruct (live_medoid_spec H (concat run1) p Hp Hlocs medoid Hmed Hne) as (x & -> & Hxk & Hxd & Hstart). cbn [mbind outcome_bind].
  destruct (remaining_mapped H (concat run1) p Hp Hlocs x Hxk Hxd) as [nx Hnx].
  rewrite (find_trap_Some _ _ _ Hnx). cbn [mbind outcome_bind].
  assert (forall id n, id_map p !! id = Some n -> remains id /\ exists loc, loc_ok loc /\ loc2id loc = id) as Hback.
  { intros id n (i & _ & Hi)%(pp_map _ _ Hp). apply list_elem_of_lookup_2, elem_of_live_ids in Hi as (Hr & loc & Hin & El).
    split; [done|]. exists loc. split; [|done]. by apply (loc_range_ok H), Hlocs. }
  pose proof (pp_count _ _ Hp) as Hcnt. rewrite Hcnt.
  assert (Z.of_nat (length (live_ids (concat run1))) <= cur_loc (alloc_ st)) as Hle.
  { assert (length (live_ids (concat run1)) <= length (concat run1))%nat as Hle1
      by (unfold live_ids; rewrite <- (length_fmap (PageAlloc.loc2id g (alloc_ st)) (concat run1)); apply length_filter).
    pose proof (Permutation_length (run_all H SECTORS_PER_POPULATE run1 eq_refl H1)) as Hle2. rewrite length_seqZ in Hle2.
    pose proof (inv_frontier _ _ (ii_alloc _ _ (mb_index H))). lia. }
  pose proof (install_spec H (new_tags s') (length (live_ids (concat run1))) Hle) as Hinst.
  destruct (install _ (new_tags s')) as [tg st']. destruct Hinst as (G1 & G2 & G3 & _).
  eexists _, (id_map p). split; [done|]. constructor; simpl; try done.
  - intros id. split; [|intros [? ?]; by apply (remaining_mapped H (concat run1) p Hp Hlocs)].
    intros [n Hn]. destruct (Hback id n Hn) as ([Hi Hd] & loc & Hok & El). split; [|done]. exists loc. rewrite <- El.
    apply remaining_known; [done | done | by rewrite El].
  - intros id1 id2 n Hm1 Hm2. by apply (id_map_inj (concat run1) p Hp id1 id2 n).
  - intros n. split.
    + intros Hn. destruct (lookup_lt_is_Some_2 (live_ids (concat run1)) (Z.to_nat n)) as [id Hid]; [lia|].
      exists id. apply (pp_map _ _ Hp). exists (Z.to_nat n). split; [lia | done].
    + intros [id Hid]. apply (id_map_range (concat run1) p Hp id n Hid).
  - intros id loc n Hloc Hn. destruct (ii_fwd _ _ (mb_index H) _ _ Hloc) as (Hid & Hok & El).
    assert (loc2id loc <> kInvalidID) as Hi by (rewrite El; unfold kInvalidID, kAllocatedID in *; lia).
    destruct (merged_node_spec H (concat run1) p Hp Hlocs loc Hok Hi) as (nd & End & Hpost).
    exists nd. split; [|done]. apply (F1 id n nd). split; [done|]. exists loc. rewrite <- El. done.
  - intros id n Hn. pose proof (id_map_range (concat run1) p Hp id n Hn). rewrite G1 by lia.
    by rewrite (list_lookup_total_correct _ _ _ (F3 id n Hn)).
  - by exists x.
Qed.
End merge.

(** C22. [merge_deletes] on a settled index, for every order in which its
    parallel loops take the locations of a chunk: the remaining identifiers get
    the new identifiers [0 .. n-1], each once; the new file holds for each of
    them the old coordinates and a list of different new identifiers, at most
    [range], of remaining neighbours and of neighbours of deleted neighbours
    (all of them when they fit); tags and compressed vectors move along and the
    maps become the identity.  The start node is the old one if it remains and
    otherwise its first remaining neighbour, which it must have.  No lookup
    fails and no slot of the write buffer is overwritten before it was written
    out, provided that no merged list reaches the 32768 entries at which
    [compute_pq_dists] crashes ([mb_short]). *)
Theorem merge_deletes_correct {F} `{!FloatOps F} g st m tags deleted n_sampled (alpha : F) range maxc pfuel dpq uset_order
    n_chunks data medoid run1 run2 :
  mergeable g st m tags deleted n_sampled alpha pfuel uset_order ->
  pass_run g st SECTORS_PER_POPULATE run1 -> pass_run g st SECTORS_PER_MERGE run2 ->
  is_Some (id2loc_ st !! medoid) ->
  (forall loc, id2loc_ st !! medoid = Some loc -> is_deleted tags deleted medoid = true ->
     filtered_nhood g m tags deleted n_sampled loc <> []) ->
  exists r im, merge_deletes g st m tags deleted n_sampled alpha range maxc pfuel dpq uset_order n_chunks data medoid run1 run2
      = Ok r /\ merge_post g st m tags deleted n_sampled range data medoid im r.
Proof. apply merge_deletes_spec. Qed.

(** The path of four nodes without its second node; the first pass takes the
    locations from the last to the first. *)
Definition merge_map : map_state := load_page_layout path_geom 4 empty_map_state.
Definition merge_run1 : list (list Z) := [reverse (seqZ 0 16)].
Definition merge_run2 : list (list Z) := [seqZ 0 16].
Definition merge_demo : outcome merged :=
  merge_deletes path_geom merge_map path_file ∅ {[1]} 20 F32_1_2f 32 750 5 (fun _ _ => lit 1 0) elements 1 (fun id => [id]) 0
    merge_run1 merge_run2.

Lemma merge_map_loc2id l : loc_ok l -> PageAlloc.loc2id path_geom (alloc_ merge_map) l = if l <? 4 then l else kInvalidID.
Proof. intros Hl. apply (loaded_loc2id path_geom path_geom_wf 4); [by split; vm_compute | done]. Qed.

Lemma merge_map_inv : index_inv path_geom merge_map.
Proof. apply (loaded_inv path_geom path_geom_wf 4). by split; vm_compute. Qed.

Lemma merge_map_nbrs loc j : loc_ok loc -> PageAlloc.loc2id path_geom (alloc_ merge_map) loc <> kInvalidID ->
  j ∈ nbrs (node_at path_geom path_file loc) -> j ∈ [0; 1; 2; 3].
Proof.
  intros Hl. rewrite merge_map_loc2id by done. destruct (Z.ltb_spec loc 4) as [Hlt|]; [|done]. intros _.
  assert (Forall (fun loc => Forall (fun j => j ∈ [0; 1; 2; 3]) (nbrs (node_at path_geom path_file loc))) (seqZ 0 4)) as Hall
    by (apply (bool_decide_unpack _); by vm_compute).
  rewrite Forall_forall in Hall. specialize (Hall loc ltac:(apply elem_of_seqZ; destruct Hl; lia)).
  rewrite Forall_forall in Hall. by apply Hall.
Qed.

Lemma merge_map_mergeable : mergeable path_geom merge_map path_file ∅ {[1]} 20 F32_1_2f 5 elements.
Proof.
  constructor.
  - exact path_geom_wf.
  - apply merge_map_inv.
  - intros loc Hl. rewrite merge_map_loc2id by done. destruct (Z.ltb_spec loc 4); [|done].
    unfold kAllocatedID. destruct Hl. lia.
  - intros loc Hl Hi j Hj. pose proof (merge_map_nbrs loc j Hl Hi Hj) as Hin. rewrite !elem_of_cons, elem_of_nil in Hin.
    destruct Hin as [->|[->|[->|[->|[]]]]]; by eexists.
  - done.
  - exists 2%nat. split; [by vm_compute | lia].
  - intros loc l Hl Hi Hnd Hr. assert (l ⊆+ [0; 1; 2; 3]) as Hsub.
    { apply NoDup_submseteq; [done|]. intros j Hj. destruct (Hr j Hj) as [_ [[_ Hn]|(d & _ & _ & loc' & E & Hn)]]; [by apply (merge_map_nbrs loc)|].
      apply subseteq_take, list_elem_of_filter in Hn as [_ Hn]. destruct (ii_fwd _ _ merge_map_inv _ _ E) as (Hd & Hok & El).
      apply (merge_map_nbrs loc'); [done | | done]. unfold kInvalidID, kAllocatedID in *. lia. }
    apply submseteq_length in Hsub. simpl in Hsub. unfold max_pq_count. lia.
Qed.

Lemma merge_deletes_witness : exists r im, merge_demo = Ok r /\
  merge_post path_geom merge_map path_file ∅ {[1]} 20 32 (fun id => [id]) 0 im r.
Proof.
  apply (merge_deletes_correct path_geom merge_map path_file ∅ {[1]} 20 F32_1_2f 32 750 5 (fun _ _ => lit 1 0) elements 1
    (fun id => [id]) 0 merge_run1 merge_run2).
  - exact merge_map_mergeable.
  - constructor; [|constructor]. change (chunk_locs path_geom merge_map SECTORS_PER_POPULATE (Z.of_nat 0)) with (seqZ 0 16).
    apply reverse_Permutation.
  - by constructor.
  - by exists 0.
  - intros loc _ Hd. by vm_compute in Hd.
Defined.

(** The nodes 3, 2 and 0 become 0, 1 and 2. *)
Example merge_demo_file :
  match merge_demo with
  | Ok r => mg_file r !! 2 = Some {| coords := [10]; nbrs := [1] |} /\ mg_tags r !! 2 = Some 0 /\ mg_medoid r = 2
  | Crash => False
  end.
Proof. by vm_compute. Qed.

(** [final_merge] does not call [reload]: the maps follow the new file while
    the reader is still open on the old one.  Here the vector 10, whose new
    identifier is 2, is stored correctly in the new file, but the index reads
    the vector 30 for it. *)
Theorem merged_index_reads_old_file :
  match merge_demo with
  | Ok r => mg_file r !! 2 = Some {| coords := [10]; nbrs := [1] |} /\
            read_node path_geom (mg_state r) path_file 2 = Ok {| coords := [30]; nbrs := [1; 3] |}
  | Crash => False
  end.
Proof. by vm_compute. Qed.
