(* ===== verification/SoftInsert.v ===== *)
(** * Soft Insert on persistent memory, and the commit thread

    [insert_phase_pm] ([src/update/direct_insert.cpp]) builds the new versions
    of the target and of its neighbours in slots nobody refers to and then
    switches the location table, so that two orders hold on the media:
    vector and tag before the location of the vector; neighbour versions and
    the location of the vector before the locations of the neighbours.  The
    locations of the neighbours are written later by [insert_commit_thread],
    which also writes the compressed vector and advances the checkpoint (ISS).

    An insertion is modelled as the list of its persistent-memory events and
    queue operations; [step] interleaves any number of insertions with the
    commit thread.  Pruning of an over-full neighbour list is a parameter. *)
From S2P Require Import Prelude Layout Pmem Node.

(** The arguments of one insertion, with the locations that [alloc_loc]
    returned and the nodes read from the pages of the neighbours. *)
Record insert_args := {
  target_id : Z;
  point : list Z;
  tag : list Z;
  new_nhood : list Z;
  locs : list Z;
  nbr_old : list node;
  in_pq_coords : list Z;
}.

(** A version of a graph node in a slot. *)
Record version := { v_id : Z; v_loc : Z; v_node : node }.

Inductive op :=
| Pm (e : pm_event)
| PushLoc (id loc : Z)
| PushTask (id : Z) (pq : list Z)
| Drain
| CommitPush (id : Z)
| IntervalTest
| ProcessQueue
| Halt.

Definition pm_of (o : op) : option pm_event := match o with Pm e => Some e | _ => None end.
Definition pm_events (l : list op) : list pm_event := omap pm_of l.

Definition COMMIT_INTERVAL : Z := 1000.

(** [commit_queue] is a min-heap; its elements in the order in which they
    leave it. *)
Fixpoint heap_push (x : Z) (q : list Z) : list Z :=
  match q with
  | [] => [x]
  | y :: q' => if x <=? y then x :: q else y :: heap_push x q'
  end.

Fixpoint process_commit_queue (cur_ckpt_id : Z) (q : list Z) (ckpt : bool) : Z * list Z * bool :=
  match q with
  | smallest_commit_id :: q' =>
      if cur_ckpt_id =? smallest_commit_id
      then process_commit_queue (u32 (smallest_commit_id + 1)) q' true
      else (cur_ckpt_id, q, ckpt)
  | [] => (cur_ckpt_id, q, ckpt)
  end.

(** The checkpoint written when the queue advanced. *)
Definition write_checkpoint (cur_ckpt_id : Z) : list pm_event :=
  barrier_dax Committer ++ pmem_memcpy Committer Super 0 [u32 cur_ckpt_id] PMEM_PERSIST.

(** One iteration of the commit thread. *)
Definition commit_task_ops (id : Z) (pq : list Z) : list op :=
  (Pm <$> pmem_memcpy Committer Pq (id * Z.of_nat (length pq)) pq PMEM_PERSIST) ++
  [Drain; CommitPush id; IntervalTest].

(** The batch of postponed location entries. *)
Definition id2loc_batch (q : list (Z * Z)) : list pm_event :=
  q ≫= fun '(id, loc) => pmem_memcpy Committer Id2loc id [loc] PMEM_TRANSFER.

Record sys := MkSys {
  trace : list pm_event;
  threads : gmap Z (list op);
  pm_queue : list (Z * Z);
  commit_tasks : list (option (Z * list Z));
  commit_prog : list op;
  commit_queue : list Z;
  ckpt_id : Z;
  n_tasks : Z;
}.

Section soft_insert.
Context (g : geometry) (enable_tags : bool) (range : Z).
Variable prune : Z -> Z -> list Z -> list Z.

Definition target_loc (a : insert_args) : Z := locs a !!! length (new_nhood a).

Definition target_version (a : insert_args) : version :=
  {| v_id := target_id a; v_loc := target_loc a;
     v_node := {| coords := point a; nbrs := new_nhood a |} |}.

(** The new version of a neighbour: the target is appended and the list is
    pruned when it exceeds the out-degree bound. *)
Definition updated_node (a : insert_args) (id : Z) (old : node) : node :=
  let nhood := nbrs old ++ [target_id a] in
  {| coords := coords old;
     nbrs := if range <? Z.of_nat (length nhood) then prune (target_id a) id nhood else nhood |}.

Definition nbr_versions (a : insert_args) : list version :=
  (fun '(id, (loc, old)) => {| v_id := id; v_loc := loc; v_node := updated_node a id old |}) <$>
  zip (new_nhood a) (zip (locs a) (nbr_old a)).

(** The stores of one version: count, coordinates, neighbour identifiers. *)
Definition node_stores (t : thread) (v : version) : list pm_event :=
  let node_buf := u_loc_offset g (v_loc v) in
  let nhood := node_buf + offset_to_node_nhood g in
  Store t Graph nhood (le32 (u32 (Z.of_nat (length (nbrs (v_node v)))))) ::
  pmem_memcpy t Graph node_buf (coords (v_node v)) PMEM_TRANSFER_CACHE ++
  pmem_memcpy t Graph (nhood + 4) (nbrs (v_node v) ≫= le32) PMEM_TRANSFER_CACHE.

(** The length the code flushes. *)
Definition node_len (v : version) : Z :=
  u64 (data_dim g * sizeof_T g + Z.of_nat (length (nbrs (v_node v))) * 4).

Definition flush_node (t : thread) (v : version) : list pm_event :=
  flush_dax t Graph (u_loc_offset g (v_loc v)) (node_len v).

(** Target node, tag, first barrier. *)
Definition vec_phase (a : insert_args) : list pm_event :=
  let t := Inserter (target_id a) in
  node_stores t (target_version a) ++ flush_node t (target_version a) ++
  (if enable_tags
   then pmem_memcpy t Tags (target_id a * Z.of_nat (length (tag a))) (tag a) PMEM_PERSIST else []) ++
  barrier_dax t.

(** New versions of the neighbours, written to the cache. *)
Definition nbr_phase (a : insert_args) : list pm_event :=
  nbr_versions a ≫= node_stores (Inserter (target_id a)).

(** Location of the target, write-back of the neighbours, second barrier. *)
Definition loc_phase (a : insert_args) : list pm_event :=
  let t := Inserter (target_id a) in
  pmem_memcpy t Id2loc (target_id a) [u32 (target_loc a)] PMEM_TRANSFER ++
  (nbr_versions a ≫= flush_node t) ++ barrier_dax t.

(** The neighbours' location entries handed to the commit thread. *)
Definition nbr_locs (a : insert_args) : list (Z * Z) :=
  (fun v => (v_id v, u32 (v_loc v))) <$> nbr_versions a.

Definition insert_events (a : insert_args) : list pm_event :=
  vec_phase a ++ nbr_phase a ++ loc_phase a.

Definition insert_phase_pm (a : insert_args) : list op :=
  (Pm <$> insert_events a) ++
  ((fun '(id, loc) => PushLoc id loc) <$> nbr_locs a) ++
  [PushTask (target_id a) (in_pq_coords a)].

Definition init_sys (ins : list insert_args) (ckpt0 : Z) : sys :=
  MkSys [] (list_to_map ((fun a => (target_id a, insert_phase_pm a)) <$> ins)) [] [] [] [] ckpt0 0.

(** One step of an insertion or of the commit thread. *)
Inductive step : sys -> sys -> Prop :=
| step_pm tr th q ts cp cq ck n id e p :
    th !! id = Some (Pm e :: p) ->
    step (MkSys tr th q ts cp cq ck n) (MkSys (tr ++ [e]) (<[id := p]> th) q ts cp cq ck n)
| step_push_loc tr th q ts cp cq ck n id i l p :
    th !! id = Some (PushLoc i l :: p) ->
    step (MkSys tr th q ts cp cq ck n) (MkSys tr (<[id := p]> th) (q ++ [(i, l)]) ts cp cq ck n)
| step_push_task tr th q ts cp cq ck n id i pq p :
    th !! id = Some (PushTask i pq :: p) ->
    step (MkSys tr th q ts cp cq ck n) (MkSys tr (<[id := p]> th) q (ts ++ [Some (i, pq)]) cp cq ck n)
| step_terminate tr th q ts cp cq ck n :
    step (MkSys tr th q ts cp cq ck n) (MkSys tr th q (ts ++ [None]) cp cq ck n)
| step_task tr th q ts cq ck n id pq :
    step (MkSys tr th q (Some (id, pq) :: ts) [] cq ck n)
         (MkSys tr th q ts (commit_task_ops id pq) cq ck n)
| step_halt tr th q ts cq ck n :
    step (MkSys tr th q (None :: ts) [] cq ck n) (MkSys tr th q ts [ProcessQueue; Halt] cq ck n)
| step_commit_pm tr th q ts e cp cq ck n :
    step (MkSys tr th q ts (Pm e :: cp) cq ck n) (MkSys (tr ++ [e]) th q ts cp cq ck n)
| step_drain tr th q ts cp cq ck n :
    step (MkSys tr th q ts (Drain :: cp) cq ck n)
         (MkSys tr th [] ts ((Pm <$> id2loc_batch q) ++ cp) cq ck n)
| step_commit_push tr th q ts id cp cq ck n :
    step (MkSys tr th q ts (CommitPush id :: cp) cq ck n)
         (MkSys tr th q ts cp (heap_push id cq) ck n)
| step_interval tr th q ts cp cq ck n :
    step (MkSys tr th q ts (IntervalTest :: cp) cq ck n)
         (MkSys tr th q ts
            ((if negb (n =? 0) && (n mod COMMIT_INTERVAL =? 0) then [ProcessQueue] else []) ++ cp)
            cq ck (n + 1))
| step_process tr th q ts cp cq ck n cur cq' ckpt :
    process_commit_queue ck cq false = (cur, cq', ckpt) ->
    step (MkSys tr th q ts (ProcessQueue :: cp) cq ck n)
         (MkSys tr th q ts ((Pm <$> (if ckpt then write_checkpoint cur else [])) ++ cp) cq' cur n)
| step_timer tr th q ts cp cq ck n :
    step (MkSys tr th q ts cp cq ck n) (MkSys tr th q ts cp cq ck 0).

Definition reachable (ins : list insert_args) (ckpt0 : Z) (s : sys) : Prop :=
  rtc step (init_sys ins ckpt0) s.
End soft_insert.
