(* ===== verification/CrashConsistency.v ===== *)
(** * Crash consistency of Soft Insert

    For every interleaving of insertions and the commit thread, and for every
    content the media may have after a crash: a location entry that is no
    longer the initial one names a version whose written-back bytes are all
    there; if it is the location of an inserted vector its tag is there, and if
    it is the location of a relocated neighbour the location of the vector that
    caused the relocation is there too. *)
From S2P Require Import Prelude Layout Pmem Node SoftInsert.

(** ** Events of one thread *)
Definition by_thread (t : thread) (tr : list pm_event) : list pm_event :=
  filter (fun e => event_thread e = t) tr.

Lemma by_thread_app t tr1 tr2 : by_thread t (tr1 ++ tr2) = by_thread t tr1 ++ by_thread t tr2.
Proof. apply filter_app. Qed.

Lemma by_thread_snoc_eq t tr e :
  event_thread e = t -> by_thread t (tr ++ [e]) = by_thread t tr ++ [e].
Proof. intros H. rewrite by_thread_app. f_equal. unfold by_thread. by rewrite filter_cons_True. Qed.

Lemma by_thread_snoc_ne t tr e : event_thread e <> t -> by_thread t (tr ++ [e]) = by_thread t tr.
Proof.
  intros H. rewrite by_thread_app. unfold by_thread at 2. rewrite filter_cons_False by done.
  apply app_nil_r.
Qed.

(** The whole run can be cut wherever the events of one thread can. *)
Lemma by_thread_split t tr l1 l2 :
  by_thread t tr = l1 ++ l2 ->
  exists tr1 tr2, tr = tr1 ++ tr2 /\ by_thread t tr1 = l1 /\ by_thread t tr2 = l2.
Proof.
  revert l1. induction tr as [|e tr IH]; intros l1 H.
  - symmetry in H. apply app_nil in H as [-> ->]. by exists [], [].
  - unfold by_thread in H. destruct (decide (event_thread e = t)) as [E|E].
    + rewrite filter_cons_True in H by done. destruct l1 as [|x l1]; simpl in H.
      * exists [], (e :: tr). split_and!; [done | done |]. unfold by_thread.
        by rewrite filter_cons_True.
      * injection H as <- H. destruct (IH _ H) as (tr1 & tr2 & -> & <- & <-).
        exists (e :: tr1), tr2. split_and!; [done | | done]. unfold by_thread.
        by rewrite filter_cons_True.
    + rewrite filter_cons_False in H by done. destruct (IH _ H) as (tr1 & tr2 & -> & <- & <-).
      exists (e :: tr1), tr2. split_and!; [done | | done]. unfold by_thread.
      by rewrite filter_cons_False.
Qed.

Lemma by_thread_elem t tr e : e ∈ by_thread t tr -> e ∈ tr.
Proof. unfold by_thread. rewrite list_elem_of_filter. tauto. Qed.

Lemma flushed_by_thread t c tr : flushed c (by_thread t tr) -> flushed c tr.
Proof.
  intros (t' & a & b & H & Hf). apply by_thread_split in H as (tr1 & tr2 & -> & _ & H).
  change (Clwb t' (line_of c) :: b) with ([Clwb t' (line_of c)] ++ b) in H.
  apply by_thread_split in H as (tr3 & tr4 & -> & H3 & H4).
  assert (Clwb t' (line_of c) ∈ tr3) as Hin.
  { apply (by_thread_elem t). rewrite H3. set_solver. }
  apply list_elem_of_split in Hin as (x & y & ->).
  exists t', (tr1 ++ x), (y ++ tr4). split; [by rewrite <- !app_assoc|].
  apply elem_of_app; right. apply (by_thread_elem t). by rewrite H4.
Qed.

(** A cell that thread [t] stored in [S] and wrote back in [F] holds one of the
    stored values in every later crash image. *)
Lemma stored_flushed_last m0 t tr1 tr2 S F c img :
  by_thread t tr1 = S ++ F -> crash_image m0 (tr1 ++ tr2) img ->
  Exists (fun e => is_Some (store_val e c)) S -> flushed c F ->
  exists p e q, tr1 ++ tr2 = p ++ e :: q /\ store_val e c = Some (img c).
Proof.
  intros Hby Himg Hex Hf. apply by_thread_split in Hby as (x & y & -> & Hx & Hy).
  assert (flushed c (y ++ tr2)) as Hfl by (apply flushed_app_r, (flushed_by_thread t); by rewrite Hy).
  rewrite <- app_assoc in *. destruct (crash_image_flushed _ _ _ _ _ Himg Hfl) as (p & q & Hpq & ->).
  rewrite Exists_exists in Hex. destruct Hex as (st & Hst & w & Hw).
  rewrite <- Hx in Hst. apply by_thread_elem in Hst.
  destruct (coherent_last m0 (x ++ p) c) as [[_ Hno]|(l1 & e & l2 & w' & Heq & He & -> & _)].
  - exfalso. rewrite Forall_forall in Hno. specialize (Hno st ltac:(set_solver)). congruence.
  - exists l1, e, (l2 ++ q). split; [|done]. rewrite Hpq, app_assoc, Heq. by rewrite <- app_assoc.
Qed.

(** ** Position in a program *)

(** The elements before the first one that satisfies [P] are a prefix of
    whatever precedes any element that satisfies it. *)
Lemma prefix_before {A} (P : A -> Prop) (l1 l2 d r : list A) o :
  l1 ++ l2 = d ++ o :: r -> Forall (fun x => ~ P x) l1 -> P o -> l1 `prefix_of` d.
Proof.
  revert d. induction l1 as [|x l1 IH]; intros d H Hf Ho; [by exists d|].
  apply Forall_cons in Hf as [Hx Hf]. destruct d as [|y d]; simpl in H; injection H as -> H.
  - done.
  - apply prefix_cons. by eapply IH.
Qed.

Lemma pm_events_app l1 l2 : pm_events (l1 ++ l2) = pm_events l1 ++ pm_events l2.
Proof. apply omap_app. Qed.

Lemma pm_events_Pm l : pm_events (Pm <$> l) = l.
Proof.
  induction l as [|e l IH]; [done|].
  change (pm_events (Pm <$> e :: l)) with (e :: pm_events (Pm <$> l)). by rewrite IH.
Qed.

Lemma elem_pm_events e l : e ∈ pm_events l <-> Pm e ∈ l.
Proof.
  unfold pm_events. rewrite list_elem_of_omap. split.
  - intros (o & Ho & H). destruct o; simplify_eq/=. done.
  - intros H. by exists (Pm e).
Qed.

Lemma prefix_app_l' {A} (l d x : list A) : l `prefix_of` d -> l `prefix_of` d ++ x.
Proof. intros [k ->]. exists (k ++ x). by rewrite <- app_assoc. Qed.

(** Right-associate appends. *)
Ltac app_norm := repeat (rewrite <- app_assoc || rewrite <- app_comm_cons); cbn [app].

(** ** Histories: what holds of each event and of the run before it *)
Definition history (P : list pm_event -> pm_event -> Prop) (tr : list pm_event) : Prop :=
  forall tr1 e tr2, tr = tr1 ++ e :: tr2 -> P tr1 e.

Lemma history_nil P : history P [].
Proof. intros tr1 e tr2 H. by apply app_cons_not_nil in H. Qed.

Lemma history_snoc P tr e : history P tr -> P tr e -> history P (tr ++ [e]).
Proof.
  intros H He tr1 e' tr2 Heq. destruct tr2 as [|x tr2 _] using rev_ind.
  - apply app_inj_tail in Heq as [-> ->]. done.
  - rewrite app_comm_cons, app_assoc in Heq. apply app_inj_tail in Heq as [-> _]. by eapply H.
Qed.

Section crash.
Context (g : geometry) (Hg : geometry_wf g).
Context (enable_tags : bool) (range : Z) (prune : Z -> Z -> list Z -> list Z).
Context (ins : list insert_args).

Abbreviation nbr_versions := (SoftInsert.nbr_versions range prune).
Abbreviation nbr_locs := (SoftInsert.nbr_locs range prune).
Abbreviation vec_phase := (SoftInsert.vec_phase g enable_tags).
Abbreviation nbr_phase := (SoftInsert.nbr_phase g range prune).
Abbreviation loc_phase := (SoftInsert.loc_phase g range prune).
Abbreviation insert_events := (SoftInsert.insert_events g enable_tags range prune).
Abbreviation insert_phase_pm := (SoftInsert.insert_phase_pm g enable_tags range prune).
Abbreviation step := (SoftInsert.step).
Abbreviation reachable := (SoftInsert.reachable g enable_tags range prune).

Definition versions (a : insert_args) : list version := nbr_versions a ++ [target_version a].

(** The insertions of a run: each has its own identifier and its own slots
    (no slot is used twice during the run), nodes fit their slots, tags and
    compressed vectors have one size. *)
Record run_wf (m0 : pm_mem) : Prop := {
  rw_ids : NoDup (target_id <$> ins);
  rw_locs : NoDup (v_loc <$> (ins ≫= versions));
  rw_fit : forall a v, a ∈ ins -> v ∈ versions a -> loc_ok (v_loc v) /\ node_fits g (v_node v);
  rw_tag : exists k, forall a, a ∈ ins -> length (tag a) = k;
  rw_pq : exists k, forall a, a ∈ ins -> length (in_pq_coords a) = k;
  rw_fresh : forall a v, a ∈ ins -> v ∈ versions a -> m0 (Id2loc, v_id v) <> u32 (v_loc v);
}.

(** ** The owner of a cell

    [cell_owned c w]: [w] is what some insertion of the run stores in [c]. *)
Definition cell_owned (c : cell) (w : Z) : Prop :=
  match c.1 with
  | Graph => exists a v, a ∈ ins /\ v ∈ versions a /\ u_loc_offset g (v_loc v) <= c.2 /\
      node_bytes (v_node v) !! Z.to_nat (c.2 - u_loc_offset g (v_loc v)) = Some w
  | Tags => exists a, a ∈ ins /\ target_id a * Z.of_nat (length (tag a)) <= c.2 /\
      tag a !! Z.to_nat (c.2 - target_id a * Z.of_nat (length (tag a))) = Some w
  | Pq => exists a, a ∈ ins /\ target_id a * Z.of_nat (length (in_pq_coords a)) <= c.2 /\
      in_pq_coords a !! Z.to_nat (c.2 - target_id a * Z.of_nat (length (in_pq_coords a))) = Some w
  | Super | Id2loc => False
  end.

(** Elements of a table with entries of one size do not overlap. *)
Lemma table_disjoint (k : nat) (i j b : Z) (l1 l2 : list Z) x y :
  length l1 = k -> length l2 = k ->
  i * Z.of_nat k <= b -> l1 !! Z.to_nat (b - i * Z.of_nat k) = Some x ->
  j * Z.of_nat k <= b -> l2 !! Z.to_nat (b - j * Z.of_nat k) = Some y -> i = j.
Proof.
  intros H1 H2 Hi Hx Hj Hy. apply lookup_lt_Some in Hx, Hy. nia.
Qed.

Lemma NoDup_fmap_eq {A B} (f : A -> B) (l : list A) x y :
  NoDup (f <$> l) -> x ∈ l -> y ∈ l -> f x = f y -> x = y.
Proof.
  intros Hnd Hx Hy Heq. apply list_elem_of_lookup in Hx as [i Hi].
  apply list_elem_of_lookup in Hy as [j Hj].
  assert (i = j) as ->; [|congruence].
  eapply NoDup_lookup; [exact Hnd | |]; rewrite list_lookup_fmap.
  - by rewrite Hi.
  - rewrite Hj. simpl. by rewrite Heq.
Qed.

Section owned.
Context (m0 : pm_mem) (Hrun : run_wf m0).

Lemma version_at a v b w :
  a ∈ ins -> v ∈ versions a -> u_loc_offset g (v_loc v) <= b ->
  node_bytes (v_node v) !! Z.to_nat (b - u_loc_offset g (v_loc v)) = Some w ->
  b < u_loc_offset g (v_loc v) + max_node_len g.
Proof.
  intros Ha Hv Hle Hb. destruct (rw_fit _ Hrun a v Ha Hv) as [_ (Hc & Hlen & _)].
  apply lookup_lt_Some in Hb. rewrite length_node_bytes in Hb. lia.
Qed.

Lemma versions_disjoint a1 v1 a2 v2 b w1 w2 :
  a1 ∈ ins -> v1 ∈ versions a1 -> a2 ∈ ins -> v2 ∈ versions a2 ->
  u_loc_offset g (v_loc v1) <= b -> u_loc_offset g (v_loc v2) <= b ->
  node_bytes (v_node v1) !! Z.to_nat (b - u_loc_offset g (v_loc v1)) = Some w1 ->
  node_bytes (v_node v2) !! Z.to_nat (b - u_loc_offset g (v_loc v2)) = Some w2 -> v1 = v2.
Proof.
  intros Ha1 Hv1 Ha2 Hv2 Hb1 Hb2 Hw1 Hw2.
  pose proof (version_at _ _ _ _ Ha1 Hv1 Hb1 Hw1). pose proof (version_at _ _ _ _ Ha2 Hv2 Hb2 Hw2).
  destruct (rw_fit _ Hrun _ _ Ha1 Hv1) as [Hl1 _]. destruct (rw_fit _ Hrun _ _ Ha2 Hv2) as [Hl2 _].
  apply (NoDup_fmap_eq v_loc (ins ≫= versions)); [apply (rw_locs _ Hrun) | | |].
  1,2: apply list_elem_of_bind; eauto.
  destruct (Z.lt_trichotomy (v_loc v1) (v_loc v2)) as [Hlt|[Heq|Hlt]]; [|done|].
  - pose proof (node_ranges_disjoint g Hg _ _ Hl1 Hl2 Hlt). lia.
  - pose proof (node_ranges_disjoint g Hg _ _ Hl2 Hl1 Hlt). lia.
Qed.

Lemma cell_owned_fun c w1 w2 : cell_owned c w1 -> cell_owned c w2 -> w1 = w2.
Proof.
  destruct c as [[] b]; unfold cell_owned; simpl; try done.
  - intros (a1 & v1 & Ha1 & Hv1 & Hb1 & Hw1) (a2 & v2 & Ha2 & Hv2 & Hb2 & Hw2).
    assert (v1 = v2) as -> by exact (versions_disjoint _ _ _ _ b _ _ Ha1 Hv1 Ha2 Hv2 Hb1 Hb2 Hw1 Hw2).
    congruence.
  - destruct (rw_tag _ Hrun) as [k Hk].
    intros (a1 & Ha1 & Hb1 & Hw1) (a2 & Ha2 & Hb2 & Hw2).
    pose proof (Hk _ Ha1) as K1. pose proof (Hk _ Ha2) as K2. rewrite K1 in Hb1, Hw1. rewrite K2 in Hb2, Hw2.
    pose proof (table_disjoint k _ _ b _ _ _ _ K1 K2 Hb1 Hw1 Hb2 Hw2) as E.
    apply (NoDup_fmap_eq _ _ _ _ (rw_ids _ Hrun) Ha1 Ha2) in E as ->. congruence.
  - destruct (rw_pq _ Hrun) as [k Hk].
    intros (a1 & Ha1 & Hb1 & Hw1) (a2 & Ha2 & Hb2 & Hw2).
    pose proof (Hk _ Ha1) as K1. pose proof (Hk _ Ha2) as K2. rewrite K1 in Hb1, Hw1. rewrite K2 in Hb2, Hw2.
    pose proof (table_disjoint k _ _ b _ _ _ _ K1 K2 Hb1 Hw1 Hb2 Hw2) as E.
    apply (NoDup_fmap_eq _ _ _ _ (rw_ids _ Hrun) Ha1 Ha2) in E as ->. congruence.
Qed.

(** An event stores only what the owner of the cell does; [Id2loc] and
    [Super] are shared. *)
Definition event_ok (e : pm_event) : Prop :=
  forall c w, store_val e c = Some w -> c.1 <> Id2loc -> c.1 <> Super -> cell_owned c w.

(** A cell with an owner that thread [t] stored in [S] and wrote back in [F]
    is in every later crash image. *)
Lemma stored_flushed_durable t tr1 tr2 S F c w img :
  by_thread t tr1 = S ++ F -> Forall event_ok (tr1 ++ tr2) ->
  crash_image m0 (tr1 ++ tr2) img ->
  Exists (fun e => store_val e c = Some w) S -> flushed c F -> cell_owned c w -> img c = w.
Proof.
  intros Hby Hok Himg Hex Hf Hown. apply by_thread_split in Hby as (x & y & -> & Hx & Hy).
  apply (crash_image_const m0 x (y ++ tr2) img c w).
  - by rewrite app_assoc.
  - rewrite app_assoc. eapply Forall_impl; [exact Hok|]. intros e He.
    destruct (store_val e c) as [w'|] eqn:E; [|by left]. right. f_equal.
    apply (cell_owned_fun c); [|done]. apply (He c w' E); intros Ec; unfold cell_owned in Hown; by rewrite Ec in Hown.
  - rewrite Exists_exists in *. destruct Hex as (e & He & Hv). exists e. split; [|done].
    apply (by_thread_elem t). by rewrite Hx.
  - apply flushed_app_r, (flushed_by_thread t). by rewrite Hy.
Qed.

(** ** The events of one insertion *)
Lemma node_stores_val t a v e c w :
  a ∈ ins -> v ∈ versions a -> e ∈ node_stores g t v -> store_val e c = Some w ->
  c.1 = Graph /\ u_loc_offset g (v_loc v) <= c.2 /\
  node_bytes (v_node v) !! Z.to_nat (c.2 - u_loc_offset g (v_loc v)) = Some w.
Proof.
  intros Ha Hv He Hw. destruct (rw_fit _ Hrun a v Ha Hv) as [_ (Hc & _)].
  set (off := u_loc_offset g (v_loc v)) in *. set (nh := offset_to_node_nhood g) in *.
  unfold node_stores in He. fold off nh in He. unfold node_bytes, nhood_bytes.
  apply elem_of_cons in He as [->|He];
    [|apply elem_of_app in He as [He|He]; apply list_elem_of_singleton in He as ->];
    apply store_val_inv in Hw as (Hf & Hr & Hw); split_and!; try done; try lia.
  - rewrite lookup_app_r by lia. rewrite lookup_app_l by (cbn [length le32] in *; lia).
    rewrite <- Hw. f_equal. lia.
  - rewrite lookup_app_l; [done | lia].
  - rewrite lookup_app_r by lia. rewrite lookup_app_r by (cbn [length le32] in *; lia).
    rewrite <- Hw. f_equal. cbn [length le32]. lia.
Qed.

Lemma node_stores_complete t a v i b :
  a ∈ ins -> v ∈ versions a -> node_bytes (v_node v) !! i = Some b ->
  Exists (fun e => store_val e (Graph, u_loc_offset g (v_loc v) + Z.of_nat i) = Some b)
         (node_stores g t v).
Proof.
  intros Ha Hv Hb. destruct (rw_fit _ Hrun a v Ha Hv) as [_ (Hc & _)].
  set (off := u_loc_offset g (v_loc v)). unfold node_stores. fold off.
  unfold node_bytes, nhood_bytes in Hb. set (nh := offset_to_node_nhood g) in *.
  apply lookup_app_Some in Hb as [Hb|[Hi Hb]]; [|apply lookup_app_Some in Hb as [Hb|[Hi' Hb]]].
  - apply Exists_cons_tl, Exists_app. left. constructor. by apply store_val_at.
  - apply Exists_cons_hd.
    replace (off + Z.of_nat i) with (off + nh + Z.of_nat (i - length (coords (v_node v)))) by lia.
    by apply store_val_at.
  - apply Exists_cons_tl, Exists_app. right. constructor. cbn [length le32] in *.
    replace (off + Z.of_nat i) with (off + nh + 4 + Z.of_nat (i - length (coords (v_node v)) - 4)) by lia.
    by apply store_val_at.
Qed.

Lemma target_in_versions a : target_version a ∈ versions a.
Proof. unfold versions. set_solver. Qed.
Lemma nbr_in_versions a v : v ∈ nbr_versions a -> v ∈ versions a.
Proof. unfold versions. set_solver. Qed.

(** Stores before the location of the target: into owned cells only. *)
Lemma vec_phase_store a e c w :
  a ∈ ins -> e ∈ vec_phase a -> store_val e c = Some w ->
  (c.1 = Graph \/ c.1 = Tags) /\ cell_owned c w.
Proof.
  intros Ha He Hw. unfold SoftInsert.vec_phase in He. rewrite !elem_of_app in He.
  destruct He as [He|[He|[He|He]]].
  - destruct (node_stores_val _ a _ _ _ _ Ha (target_in_versions a) He Hw) as (Hf & Hb & Hn).
    split; [by left|]. unfold cell_owned. rewrite Hf.
    exists a, (target_version a). split_and!; try done. apply target_in_versions.
  - by rewrite (flush_dax_no_store _ _ _ _ _ He) in Hw.
  - destruct enable_tags; [|set_solver]. rewrite (pmem_memcpy_store _ _ _ _ _ _ _ _ He Hw) in Hw.
    apply store_val_inv in Hw as (Hf & Hr & Hw). split; [by right|]. unfold cell_owned. rewrite Hf.
    exists a. split_and!; [done | lia | done].
  - by rewrite (barrier_no_store _ _ _ He) in Hw.
Qed.

Lemma nbr_phase_store a e c w :
  a ∈ ins -> e ∈ nbr_phase a -> store_val e c = Some w -> c.1 = Graph /\ cell_owned c w.
Proof.
  intros Ha He Hw. unfold SoftInsert.nbr_phase in He. apply list_elem_of_bind in He as (v & He & Hv).
  apply nbr_in_versions in Hv.
  destruct (node_stores_val _ a _ _ _ _ Ha Hv He Hw) as (Hf & Hb & Hn).
  split; [done|]. unfold cell_owned. rewrite Hf. by exists a, v.
Qed.

Lemma loc_phase_store a e c w :
  e ∈ loc_phase a -> store_val e c = Some w -> c = (Id2loc, target_id a) /\ w = u32 (target_loc a).
Proof.
  intros He Hw. unfold SoftInsert.loc_phase in He. rewrite !elem_of_app in He.
  destruct He as [He|[He|He]].
  - rewrite (pmem_memcpy_store _ _ _ _ _ _ _ _ He Hw) in Hw.
    apply store_val_inv in Hw as (Hf & Hr & Hw). destruct c as [f i]; simpl in *.
    assert (i = target_id a) as -> by lia. rewrite Z.sub_diag in Hw. simpl in Hw. split; congruence.
  - apply list_elem_of_bind in He as (v & He & _). by rewrite (flush_dax_no_store _ _ _ _ _ He) in Hw.
  - by rewrite (barrier_no_store _ _ _ He) in Hw.
Qed.

Lemma insert_event_ok a e : a ∈ ins -> e ∈ insert_events a -> event_ok e.
Proof.
  intros Ha He c w Hw Hc1 Hc2. unfold SoftInsert.insert_events in He. rewrite !elem_of_app in He.
  destruct He as [He|[He|He]].
  - by eapply vec_phase_store.
  - by eapply nbr_phase_store.
  - destruct (loc_phase_store _ _ _ _ He Hw) as [-> _]. done.
Qed.

(** ** What is durable after the barriers *)
Definition node_durable (img : pm_mem) (v : version) : Prop :=
  forall i b, node_bytes (v_node v) !! i = Some b ->
    flush_dax_covers (u_loc_offset g (v_loc v)) (node_len g v) (u_loc_offset g (v_loc v) + Z.of_nat i) = true ->
    img (Graph, u_loc_offset g (v_loc v) + Z.of_nat i) = b.

Definition tag_durable (img : pm_mem) (a : insert_args) : Prop :=
  enable_tags = true -> forall i b, tag a !! i = Some b ->
    img (Tags, target_id a * Z.of_nat (length (tag a)) + Z.of_nat i) = b.

Lemma owned_node a v i b :
  a ∈ ins -> v ∈ versions a -> node_bytes (v_node v) !! i = Some b ->
  cell_owned (Graph, u_loc_offset g (v_loc v) + Z.of_nat i) b.
Proof.
  intros Ha Hv Hb. exists a, v. simpl. split_and!; [done | done | lia |]. rewrite <- Hb. f_equal. lia.
Qed.

Section durable.
Context (a : insert_args) (tr1 tr2 : list pm_event) (img : pm_mem).
Context (Ha : a ∈ ins) (Hok : Forall event_ok (tr1 ++ tr2)) (Himg : crash_image m0 (tr1 ++ tr2) img).
Abbreviation t := (Inserter (target_id a)).

Lemma vec_node_durable : vec_phase a `prefix_of` by_thread t tr1 -> node_durable img (target_version a).
Proof.
  intros [suf Hby] i b Hb Hcov. unfold SoftInsert.vec_phase in Hby. rewrite <- app_assoc in Hby.
  eapply (stored_flushed_durable t tr1 tr2 _ _ _ _ _ Hby); [done | done | | |].
  - eapply node_stores_complete; [done | apply target_in_versions | done].
  - rewrite <- !app_assoc. apply flushed_clwb. by apply flush_dax_spec.
  - by apply (owned_node a); [| apply target_in_versions |].
Qed.

Lemma vec_tag_durable : vec_phase a `prefix_of` by_thread t tr1 -> tag_durable img a.
Proof.
  intros [suf Hby] Ht i b Hb. unfold SoftInsert.vec_phase in Hby. rewrite Ht in Hby.
  unfold pmem_memcpy in Hby. rewrite <- !app_comm_cons in Hby.
  set (st := Store _ Tags _ _) in Hby. set (fl := pmem_flush _ Tags _ _) in Hby.
  assert (by_thread t tr1 = ((node_stores g t (target_version a) ++ flush_node g t (target_version a)) ++ [st]) ++ (fl ++ [] ++ Sfence t :: barrier_dax t ++ suf)) as Hby'.
  { rewrite Hby. by app_norm. }
  eapply (stored_flushed_durable t tr1 tr2 _ _ _ _ _ Hby'); [done | done | | |].
  - apply Exists_app. right. constructor. by apply store_val_at.
  - apply flushed_clwb, pmem_flush_covers. apply lookup_lt_Some in Hb. lia.
  - exists a. simpl. split_and!; [done | lia |]. rewrite <- Hb. f_equal. lia.
Qed.

Lemma nbr_node_durable v :
  insert_events a `prefix_of` by_thread t tr1 -> v ∈ nbr_versions a -> node_durable img v.
Proof.
  intros [suf Hby] Hv i b Hb Hcov. pose proof (nbr_in_versions _ _ Hv) as Hv'.
  unfold SoftInsert.insert_events in Hby. rewrite <- !app_assoc, app_assoc in Hby.
  eapply (stored_flushed_durable t tr1 tr2 _ _ _ _ _ Hby); [done | done | | |].
  - apply Exists_app. right. unfold SoftInsert.nbr_phase. pose proof (node_stores_complete t _ _ _ _ Ha Hv' Hb) as Hex.
    rewrite Exists_exists in *. destruct Hex as (e & He & Hw). exists e. split; [|done].
    apply list_elem_of_bind. eauto.
  - unfold SoftInsert.loc_phase. rewrite <- !app_assoc. apply flushed_app_l.
    apply (flushed_clwb t _ _ []). apply list_elem_of_bind. exists v. split; [|done].
    by apply flush_dax_spec.
  - by apply (owned_node a).
Qed.

(** The location of the target is durable: it is one of the stored ones. *)
Lemma target_loc_stored :
  insert_events a `prefix_of` by_thread t tr1 ->
  exists p e q, tr1 ++ tr2 = p ++ e :: q /\ store_val e (Id2loc, target_id a) = Some (img (Id2loc, target_id a)).
Proof.
  intros [suf Hby]. unfold SoftInsert.insert_events, SoftInsert.loc_phase, pmem_memcpy in Hby.
  set (st := Store t Id2loc _ _) in Hby. set (fl := pmem_flush t Id2loc _ _) in Hby.
  set (nf := nbr_versions a ≫= _) in Hby.
  assert (by_thread t tr1 = (vec_phase a ++ nbr_phase a ++ [st]) ++ (fl ++ nf ++ Sfence t :: suf)) as Hby'.
  { rewrite Hby. by app_norm. }
  apply (stored_flushed_last m0 t tr1 tr2 _ _ _ img Hby'); [done | |].
  - rewrite !Exists_app. right. right. constructor. exists (u32 (target_loc a)).
    pose proof (store_val_at t Id2loc (target_id a) [u32 (target_loc a)] 0 _ eq_refl) as Hw.
    by rewrite Z.add_0_r in Hw.
  - apply flushed_clwb. pose proof (pmem_flush_covers t Id2loc (target_id a) 1 0 ltac:(lia)) as Hc.
    by rewrite Z.add_0_r in Hc.
Qed.
End durable.

(** ** The invariant of the system *)

(** The insertion [a] has executed its second barrier. *)
Definition fenced (a : insert_args) (tr : list pm_event) : Prop :=
  insert_events a `prefix_of` by_thread (Inserter (target_id a)) tr.

(** [(id, loc)] may be written to the location table: it is a neighbour's
    entry of an insertion past its second barrier. *)
Definition pushed (tr : list pm_event) (id loc : Z) : Prop :=
  exists a, a ∈ ins /\ (id, loc) ∈ nbr_locs a /\ fenced a tr.

Definition loc_store_ok (tr : list pm_event) (e : pm_event) : Prop :=
  forall id w, store_val e (Id2loc, id) = Some w ->
    pushed tr id w \/
    exists a, a ∈ ins /\ id = target_id a /\ w = u32 (target_loc a) /\
      vec_phase a `prefix_of` by_thread (Inserter (target_id a)) tr.

Definition commit_event_ok (tr : list pm_event) (e : pm_event) : Prop :=
  event_thread e = Committer /\ event_ok e /\
  forall id w, store_val e (Id2loc, id) = Some w -> pushed tr id w.

Record sys_inv (s : sys) : Prop := {
  si_threads : forall a, a ∈ ins -> exists done rest,
    insert_phase_pm a = done ++ rest /\ threads s !! target_id a = Some rest /\
    by_thread (Inserter (target_id a)) (trace s) = pm_events done;
  si_dom : forall id p, threads s !! id = Some p -> exists a, a ∈ ins /\ target_id a = id;
  si_queue : forall id loc, (id, loc) ∈ pm_queue s -> pushed (trace s) id loc;
  si_tasks : forall id pq, Some (id, pq) ∈ commit_tasks s ->
    exists a, a ∈ ins /\ id = target_id a /\ pq = in_pq_coords a;
  si_commit : forall e, e ∈ pm_events (commit_prog s) -> commit_event_ok (trace s) e;
  si_history : history (fun tr e => event_ok e /\ loc_store_ok tr e) (trace s);
}.

Lemma fenced_app a tr x : fenced a tr -> fenced a (tr ++ x).
Proof. unfold fenced. rewrite by_thread_app. apply prefix_app_l'. Qed.

Lemma pushed_app tr x id loc : pushed tr id loc -> pushed (tr ++ x) id loc.
Proof. intros (a & ? & ? & ?). exists a. eauto using fenced_app. Qed.

Lemma commit_event_ok_app tr x e : commit_event_ok tr e -> commit_event_ok (tr ++ x) e.
Proof. intros (? & ? & H). split_and!; [done | done |]. eauto using pushed_app. Qed.

Lemma insert_events_thread a e : e ∈ insert_events a -> event_thread e = Inserter (target_id a).
Proof.
  assert (forall f off vals fl, e ∈ pmem_memcpy (Inserter (target_id a)) f off vals fl ->
    event_thread e = Inserter (target_id a)) as Hcpy.
  { intros f off vals fl. unfold pmem_memcpy, pmem_flush. intros [->|H]%elem_of_cons; [done|].
    destruct fl; rewrite ?elem_of_app, ?list_elem_of_fmap in H; set_solver. }
  assert (forall v, e ∈ node_stores g (Inserter (target_id a)) v ->
    event_thread e = Inserter (target_id a)) as Hnode.
  { intros v. unfold node_stores. intros [->|[H|H]%elem_of_app]%elem_of_cons; eauto. }
  assert (forall v, e ∈ flush_node g (Inserter (target_id a)) v ->
    event_thread e = Inserter (target_id a)) as Hfl.
  { intros v H. by apply list_elem_of_fmap in H as (? & -> & _). }
  unfold SoftInsert.insert_events, SoftInsert.vec_phase, SoftInsert.nbr_phase, SoftInsert.loc_phase.
  rewrite !elem_of_app, !list_elem_of_bind. unfold barrier_dax. rewrite !list_elem_of_singleton.
  intros H. destruct_or!; subst; eauto; [destruct enable_tags; set_solver| |]; naive_solver.
Qed.

Lemma pm_events_push l : pm_events ((fun '(id, loc) => PushLoc id loc) <$> l) = [].
Proof. induction l as [|[] l IH]; [done|]. exact IH. Qed.

(** What an insertion has executed when its next operation is known. *)
Lemma next_pm a done e rest :
  insert_phase_pm a = done ++ Pm e :: rest ->
  insert_events a = pm_events done ++ e :: pm_events rest.
Proof.
  intros H. apply (f_equal pm_events) in H. unfold SoftInsert.insert_phase_pm in H.
  rewrite !pm_events_app, pm_events_Pm, pm_events_push in H.
  change (pm_events (Pm e :: rest)) with (e :: pm_events rest) in H. rewrite <- H.
  change (pm_events [PushTask (target_id a) (in_pq_coords a)]) with (@nil pm_event).
  by rewrite !app_nil_r.
Qed.

Lemma next_push a done o rest :
  insert_phase_pm a = done ++ o :: rest -> pm_of o = None -> insert_events a `prefix_of` pm_events done.
Proof.
  intros H Ho. unfold SoftInsert.insert_phase_pm in H.
  apply (prefix_before (fun o => pm_of o = None)) in H as [k ->]; [| |done].
  - exists (pm_events k). by rewrite pm_events_app, pm_events_Pm.
  - apply Forall_fmap, Forall_true. intros e. done.
Qed.

(** The store of the target's location comes after the first barrier. *)
Lemma insert_loc_store_ok a d e r tr :
  a ∈ ins -> insert_events a = d ++ e :: r -> by_thread (Inserter (target_id a)) tr = d ->
  loc_store_ok tr e.
Proof.
  intros Ha Heq Hd id w Hw. right. exists a.
  assert (e ∈ insert_events a) as He by (rewrite Heq; set_solver).
  assert (e ∈ loc_phase a) as Hl.
  { unfold SoftInsert.insert_events in He. rewrite !elem_of_app in He. destruct He as [He|[He|He]]; [| |done].
    - by destruct (vec_phase_store _ _ _ _ Ha He Hw) as [[?|?] _].
    - by destruct (nbr_phase_store _ _ _ _ Ha He Hw) as [? _]. }
  destruct (loc_phase_store _ _ _ _ Hl Hw) as [[= ->] ->]. split_and!; [done | done | done |].
  rewrite Hd. unfold SoftInsert.insert_events in Heq.
  eapply (prefix_before (fun e => is_Some (store_val e (Id2loc, target_id a)))); [exact Heq | | by exists (u32 (target_loc a))].
  apply Forall_forall. intros x Hx [w' Hw'].
  by destruct (vec_phase_store _ _ _ _ Ha Hx Hw') as [[?|?] _].
Qed.

(** An insertion takes its next step. *)
Lemma si_threads_step (s : sys) a o p tr' th' :
  sys_inv s -> a ∈ ins -> threads s !! target_id a = Some (o :: p) ->
  th' = <[target_id a := p]> (threads s) ->
  tr' = trace s ++ option_list (pm_of o) ->
  (forall a', a' ∈ ins -> exists done rest,
    insert_phase_pm a' = done ++ rest /\ th' !! target_id a' = Some rest /\
    by_thread (Inserter (target_id a')) tr' = pm_events done) /\
  (forall id q, th' !! id = Some q -> exists a, a ∈ ins /\ target_id a = id).
Proof.
  intros Hs Ha Hth -> ->. split.
  - intros a' Ha'. destruct (si_threads _ Hs a' Ha') as (dn & rest & Hp & Hr & Hby).
    destruct (decide (target_id a' = target_id a)) as [E|E].
    + apply (NoDup_fmap_eq _ _ _ _ (rw_ids _ Hrun) Ha' Ha) in E as ->.
      rewrite Hth in Hr. injection Hr as <-. exists (dn ++ [o]), p.
      rewrite lookup_insert_eq, <- app_assoc, pm_events_app. split_and!; [done | done |].
      rewrite by_thread_app, Hby. f_equal. destruct o; try done. simpl.
      apply next_pm in Hp. pose proof (insert_events_thread a e ltac:(rewrite Hp; set_solver)) as Ht.
      unfold by_thread. by rewrite filter_cons_True.
    + exists dn, rest. rewrite lookup_insert_ne by done. split_and!; [done | done |].
      rewrite by_thread_app, Hby. destruct o; simpl; try apply app_nil_r.
      destruct (si_threads _ Hs a Ha) as (dn2 & rest2 & Hp2 & Hr2 & _).
      rewrite Hth in Hr2. injection Hr2 as <-. apply next_pm in Hp2.
      pose proof (insert_events_thread a e ltac:(rewrite Hp2; set_solver)) as Ht.
      unfold by_thread. rewrite filter_cons_False by congruence. apply app_nil_r.
  - intros id q Hq. destruct (decide (id = target_id a)) as [->|E]; [by exists a|].
    rewrite lookup_insert_ne in Hq by done. by eapply si_dom.
Qed.

(** Facts about the run survive its extension. *)
Lemma si_mono (s : sys) x :
  sys_inv s ->
  (forall id loc, (id, loc) ∈ pm_queue s -> pushed (trace s ++ x) id loc) /\
  (forall e, e ∈ pm_events (commit_prog s) -> commit_event_ok (trace s ++ x) e).
Proof.
  intros Hs. split.
  - intros. by apply pushed_app, (si_queue _ Hs).
  - intros. by apply commit_event_ok_app, (si_commit _ Hs).
Qed.

Lemma next_fenced (s : sys) a o p :
  sys_inv s -> a ∈ ins -> threads s !! target_id a = Some (o :: p) -> pm_of o = None ->
  fenced a (trace s) /\ o ∈ insert_phase_pm a.
Proof.
  intros Hs Ha Hth Ho. destruct (si_threads _ Hs a Ha) as (dn & rest & Hp & Hr & Hby).
  rewrite Hth in Hr. injection Hr as <-. split.
  - unfold fenced. rewrite Hby. by eapply next_push.
  - rewrite Hp. set_solver.
Qed.

Lemma sys_inv_init ckpt0 : sys_inv (init_sys g enable_tags range prune ins ckpt0).
Proof.
  constructor; simpl.
  - intros a Ha. exists [], (insert_phase_pm a). split_and!; [done | | done].
    apply elem_of_list_to_map.
    + rewrite <- list_fmap_compose. apply (rw_ids _ Hrun).
    + apply list_elem_of_fmap. by exists a.
  - intros id p H. apply elem_of_list_to_map_2, list_elem_of_fmap in H as (a & [= -> _] & Ha). eauto.
  - set_solver.
  - set_solver.
  - set_solver.
  - apply history_nil.
Qed.

Lemma sys_inv_pm tr th q ts cp cq ck n id e p :
  sys_inv (MkSys tr th q ts cp cq ck n) -> th !! id = Some (Pm e :: p) ->
  sys_inv (MkSys (tr ++ [e]) (<[id := p]> th) q ts cp cq ck n).
Proof.
  intros Hs Hth. destruct (si_dom _ Hs _ _ Hth) as (a & Ha & <-).
  destruct (si_threads_step _ a (Pm e) p (tr ++ [e]) _ Hs Ha Hth eq_refl eq_refl) as [H1 H2].
  destruct (si_mono _ [e] Hs) as [H3 H4].
  constructor; simpl; [done | done | done | apply (si_tasks _ Hs) | done |].
  destruct (si_threads _ Hs a Ha) as (dn & rest & Hp & Hr & Hby). simpl in *.
  rewrite Hth in Hr. injection Hr as <-. apply next_pm in Hp.
  apply history_snoc; [apply (si_history _ Hs)|]. split.
  - apply (insert_event_ok a); [done|]. rewrite Hp. set_solver.
  - by eapply insert_loc_store_ok.
Qed.

Lemma sys_inv_push_loc tr th q ts cp cq ck n id i l p :
  sys_inv (MkSys tr th q ts cp cq ck n) -> th !! id = Some (PushLoc i l :: p) ->
  sys_inv (MkSys tr (<[id := p]> th) (q ++ [(i, l)]) ts cp cq ck n).
Proof.
  intros Hs Hth. destruct (si_dom _ Hs _ _ Hth) as (a & Ha & <-).
  destruct (si_threads_step _ a (PushLoc i l) p tr _ Hs Ha Hth eq_refl (eq_sym (app_nil_r _))) as [H1 H2].
  destruct (next_fenced _ a _ _ Hs Ha Hth eq_refl) as [Hf Ho].
  constructor; simpl; [done | done | | apply (si_tasks _ Hs) | apply (si_commit _ Hs) | apply (si_history _ Hs)].
  intros i' l' [H|H]%elem_of_app; [by apply (si_queue _ Hs)|].
  apply list_elem_of_singleton in H as [= -> ->]. exists a. split_and!; [done | | done].
  unfold SoftInsert.insert_phase_pm in Ho. rewrite !elem_of_app, !list_elem_of_fmap in Ho.
  destruct Ho as [(? & ? & _)|[([] & [= <- <-] & ?)|Ho]]; [done | done | set_solver].
Qed.

Lemma sys_inv_push_task tr th q ts cp cq ck n id i pq p :
  sys_inv (MkSys tr th q ts cp cq ck n) -> th !! id = Some (PushTask i pq :: p) ->
  sys_inv (MkSys tr (<[id := p]> th) q (ts ++ [Some (i, pq)]) cp cq ck n).
Proof.
  intros Hs Hth. destruct (si_dom _ Hs _ _ Hth) as (a & Ha & <-).
  destruct (si_threads_step _ a (PushTask i pq) p tr _ Hs Ha Hth eq_refl (eq_sym (app_nil_r _))) as [H1 H2].
  destruct (next_fenced _ a _ _ Hs Ha Hth eq_refl) as [Hf Ho].
  constructor; simpl; [done | done | apply (si_queue _ Hs) | | apply (si_commit _ Hs) | apply (si_history _ Hs)].
  intros i' pq' [H|H]%elem_of_app; [by apply (si_tasks _ Hs)|].
  apply list_elem_of_singleton in H as [= -> ->]. exists a.
  unfold SoftInsert.insert_phase_pm in Ho. rewrite !elem_of_app, !list_elem_of_fmap in Ho.
  destruct Ho as [(? & ? & _)|[([] & ? & _)|Ho]]; [done | done |].
  by apply list_elem_of_singleton in Ho as [= -> ->].
Qed.

Lemma memcpy_commit_ok f off vals fl tr e :
  e ∈ pmem_memcpy Committer f off vals fl ->
  (f <> Id2loc -> event_ok (Store Committer f off vals) -> commit_event_ok tr e) /\
  (f = Id2loc -> (forall l, vals = [l] -> pushed tr off l) -> length vals = 1%nat -> commit_event_ok tr e).
Proof.
  intros He.
  assert (event_thread e = Committer) as Ht.
  { unfold pmem_memcpy, pmem_flush in He. apply elem_of_cons in He as [->|H]; [done|].
    destruct fl; rewrite ?elem_of_app, ?list_elem_of_fmap in H; set_solver. }
  assert (forall c w, store_val e c = Some w -> e = Store Committer f off vals) as Hst.
  { intros c w Hw. by eapply pmem_memcpy_store. }
  split.
  - intros Hf Hok. split_and!; [done | |].
    + intros c w Hw. rewrite (Hst _ _ Hw) in Hw. by apply Hok.
    + intros id w Hw. rewrite (Hst _ _ Hw) in Hw. apply store_val_inv in Hw as [E _]. simpl in E. congruence.
  - intros -> Hp Hl. split_and!; [done | |].
    + intros c w Hw Hc. rewrite (Hst _ _ Hw) in Hw. apply store_val_inv in Hw as [E _]. simpl in E. congruence.
    + intros id w Hw. rewrite (Hst _ _ Hw) in Hw. apply store_val_inv in Hw as (_ & Hr & Hw).
      destruct vals as [|l [|]]; try done. simpl in *. assert (id = off) as -> by lia.
      rewrite Z.sub_diag in Hw. injection Hw as ->. by apply Hp.
Qed.

Lemma sys_inv_task tr th q ts cq ck n id pq :
  sys_inv (MkSys tr th q (Some (id, pq) :: ts) [] cq ck n) ->
  sys_inv (MkSys tr th q ts (commit_task_ops id pq) cq ck n).
Proof.
  intros Hs. constructor; simpl;
    [apply (si_threads _ Hs) | apply (si_dom _ Hs) | apply (si_queue _ Hs) | | | apply (si_history _ Hs)].
  { intros ?? H. apply (si_tasks _ Hs). set_solver. }
  unfold commit_task_ops. intros e. rewrite pm_events_app, pm_events_Pm. rewrite app_nil_r. intros He.
  destruct (si_tasks _ Hs id pq ltac:(simpl; set_solver)) as (a & Ha & -> & ->).
  apply (memcpy_commit_ok Pq _ _ PMEM_PERSIST tr) in He as [He _]. apply He; [done|].
  intros c w Hw _ _. apply store_val_inv in Hw as (Hf & Hr & Hw). unfold cell_owned. rewrite Hf.
  exists a. split_and!; [done | lia | done].
Qed.

Lemma sys_inv_commit_pm tr th q ts e cp cq ck n :
  sys_inv (MkSys tr th q ts (Pm e :: cp) cq ck n) -> sys_inv (MkSys (tr ++ [e]) th q ts cp cq ck n).
Proof.
  intros Hs. destruct (si_mono _ [e] Hs) as [H3 H4].
  destruct (si_commit _ Hs e) as (Ht & Hok & Hst); [set_solver|]. simpl in *.
  constructor; simpl; [| apply (si_dom _ Hs) | done | apply (si_tasks _ Hs) | |].
  - intros a Ha. rewrite by_thread_snoc_ne by (rewrite Ht; done). by apply (si_threads _ Hs).
  - intros x Hx. apply H4. apply elem_of_cons. by right.
  - apply history_snoc; [apply (si_history _ Hs)|]. split; [done|]. intros id w Hw. left. by apply Hst.
Qed.

Lemma sys_inv_drain tr th q ts cp cq ck n :
  sys_inv (MkSys tr th q ts (Drain :: cp) cq ck n) ->
  sys_inv (MkSys tr th [] ts ((Pm <$> id2loc_batch q) ++ cp) cq ck n).
Proof.
  intros Hs. constructor; simpl;
    [apply (si_threads _ Hs) | apply (si_dom _ Hs) | set_solver | apply (si_tasks _ Hs) | | apply (si_history _ Hs)].
  intros e. rewrite pm_events_app, pm_events_Pm, elem_of_app. intros [He|He]; [|by apply (si_commit _ Hs)].
  apply list_elem_of_bind in He as ([id loc] & He & Hq).
  apply (memcpy_commit_ok Id2loc id [loc] PMEM_TRANSFER tr) in He as [_ He]. apply He; [done | | done].
  intros l [= <-]. by apply (si_queue _ Hs).
Qed.

Lemma sys_inv_process tr th q ts cp cq cq' ck ck' n (b : bool) cur :
  sys_inv (MkSys tr th q ts (ProcessQueue :: cp) cq ck n) ->
  sys_inv (MkSys tr th q ts ((Pm <$> (if b then write_checkpoint cur else [])) ++ cp) cq' ck' n).
Proof.
  intros Hs. constructor; simpl;
    [apply (si_threads _ Hs) | apply (si_dom _ Hs) | apply (si_queue _ Hs) | apply (si_tasks _ Hs) | | apply (si_history _ Hs)].
  intros e. rewrite pm_events_app, pm_events_Pm, elem_of_app. intros [He|He]; [|by apply (si_commit _ Hs)].
  destruct b; [|set_solver]. unfold write_checkpoint in He. apply elem_of_app in He as [He|He].
  - apply list_elem_of_singleton in He as ->. split_and!; done.
  - apply (memcpy_commit_ok Super _ _ PMEM_PERSIST tr) in He as [He _]. apply He; [done|].
    intros c w Hw _ Hc. apply store_val_inv in Hw as [E _]. simpl in E. congruence.
Qed.

Lemma sys_inv_other tr th q ts ts' cp cp' cq cq' ck ck' n n' :
  sys_inv (MkSys tr th q ts cp cq ck n) ->
  (forall x, Some x ∈ ts' -> Some x ∈ ts) -> (forall e, e ∈ pm_events cp' -> e ∈ pm_events cp) ->
  sys_inv (MkSys tr th q ts' cp' cq' ck' n').
Proof.
  intros Hs Hts Hcp. constructor; simpl;
    [apply (si_threads _ Hs) | apply (si_dom _ Hs) | apply (si_queue _ Hs) | | | apply (si_history _ Hs)].
  - intros ?? H. by apply (si_tasks _ Hs), Hts.
  - intros e H. by apply (si_commit _ Hs), Hcp.
Qed.

Lemma sys_inv_step s s' : sys_inv s -> step s s' -> sys_inv s'.
Proof.
  intros Hs Hstep. destruct Hstep;
    eauto using sys_inv_pm, sys_inv_push_loc, sys_inv_push_task, sys_inv_task, sys_inv_commit_pm,
      sys_inv_drain, sys_inv_process; eapply sys_inv_other; try exact Hs; try done; try set_solver.
  intros e. rewrite pm_events_app, elem_of_app. case_match; set_solver.
Qed.

Lemma sys_inv_reachable ckpt0 s : reachable ins ckpt0 s -> sys_inv s.
Proof.
  intros H. unfold SoftInsert.reachable in H. pose proof (sys_inv_init ckpt0) as Hi.
  induction H as [|s1 s2 s3 Hstep _ IH]; [done|]. apply IH. by eapply sys_inv_step.
Qed.

Lemma trace_event_ok s : sys_inv s -> Forall event_ok (trace s).
Proof.
  intros Hs. apply Forall_forall. intros e (tr1 & tr2 & Heq)%list_elem_of_split.
  by destruct (si_history _ Hs _ _ _ Heq).
Qed.

Lemma pushed_version tr id w :
  pushed tr id w -> exists a v, a ∈ ins /\ v ∈ nbr_versions a /\ v_id v = id /\ u32 (v_loc v) = w /\ fenced a tr.
Proof.
  intros (a & Ha & Hin & Hf). apply list_elem_of_fmap in Hin as (v & [= -> ->] & Hv). by exists a, v.
Qed.

(** A stored location is the location of a version of that identifier, hence
    not the initial one. *)
Lemma loc_store_fresh tr e id w :
  loc_store_ok tr e -> store_val e (Id2loc, id) = Some w -> w <> m0 (Id2loc, id).
Proof.
  intros Hok Hw. destruct (Hok _ _ Hw) as [(a & v & Ha & Hv & <- & <- & _)%pushed_version|(a & Ha & -> & -> & _)].
  - apply not_eq_sym, (rw_fresh _ Hrun a v Ha). by apply nbr_in_versions.
  - apply not_eq_sym, (rw_fresh _ Hrun a (target_version a) Ha), target_in_versions.
Qed.

Lemma vec_phase_fenced a tr :
  fenced a tr -> vec_phase a `prefix_of` by_thread (Inserter (target_id a)) tr.
Proof.
  intros [k Hk]. exists (nbr_phase a ++ loc_phase a ++ k). rewrite Hk.
  unfold SoftInsert.insert_events. by app_norm.
Qed.

(** What the media hold for an insertion past its second barrier. *)
Lemma fenced_durable s a tr1 tr2 img :
  sys_inv s -> trace s = tr1 ++ tr2 -> crash_image m0 (trace s) img -> a ∈ ins -> fenced a tr1 ->
  Forall (node_durable img) (versions a) /\ tag_durable img a /\
  img (Id2loc, target_id a) <> m0 (Id2loc, target_id a).
Proof.
  intros Hs Heq Himg Ha Hf. pose proof (trace_event_ok _ Hs) as Hok. rewrite Heq in Himg, Hok.
  split_and!.
  - apply Forall_forall. intros v [Hv|Hv]%elem_of_app; [by eapply nbr_node_durable|].
    apply list_elem_of_singleton in Hv as ->. by eapply vec_node_durable, vec_phase_fenced.
  - by eapply vec_tag_durable, vec_phase_fenced.
  - destruct (target_loc_stored a tr1 tr2 img Himg Hf) as (p & e & q & Hpq & He).
    rewrite <- Heq in Hpq. destruct (si_history _ Hs _ _ _ Hpq) as [_ Hl].
    by eapply loc_store_fresh.
Qed.
End owned.
End crash.

Lemma crash_image_loc_durable g enable_tags range prune ins ckpt0 m0 s img id :
  geometry_wf g -> run_wf g range prune ins m0 ->
  reachable g enable_tags range prune ins ckpt0 s -> crash_image m0 (trace s) img ->
  img (Id2loc, id) <> m0 (Id2loc, id) ->
  exists a v, a ∈ ins /\ v ∈ versions range prune a /\ v_id v = id /\
    img (Id2loc, id) = u32 (v_loc v) /\
    node_durable g img v /\ tag_durable enable_tags img a /\
    (v ∈ nbr_versions range prune a -> img (Id2loc, target_id a) <> m0 (Id2loc, target_id a)).
Proof.
  intros Hg Hrun Hr Himg Hne. assert (sys_inv g enable_tags range prune ins s) as Hs by (by eapply sys_inv_reachable).
  assert (Forall (event_ok g range prune ins) (trace s)) as Hok by (by eapply trace_event_ok).
  destruct (crash_image_cut _ _ _ (Id2loc, id) Himg) as (p & q & Hpq & Hcut).
  destruct (coherent_last m0 p (Id2loc, id)) as [[E _]|(p1 & e & p2 & w & -> & Hw & E & _)]; [congruence|].
  rewrite <- app_assoc in Hpq. destruct (si_history _ _ _ _ _ _ Hs _ _ _ Hpq) as [_ Hl].
  destruct (Hl _ _ Hw) as [(a & v & Ha & Hv & <- & <- & Hf)%pushed_version|(a & Ha & -> & -> & Hvec)].
  - edestruct fenced_durable as (Hn & Ht & Hloc); [done | done | exact Hs | exact Hpq | done | done | done |].
    rewrite Forall_forall in Hn. assert (v ∈ versions range prune a) as Hv' by (by eapply nbr_in_versions).
    exists a, v. split_and!; [done | done | done | congruence | by apply Hn | done | done].
  - rewrite Hpq in Himg, Hok.
    exists a, (target_version a). split_and!; [done | by eapply target_in_versions | done | simpl; congruence | | |].
    + by eapply vec_node_durable.
    + by eapply vec_tag_durable.
    + by intros _.
Qed.

(** C1. Soft Insert is crash consistent as long as no slot is written twice.
    The condition [run_wf]: the insertions of the run have different
    identifiers, and every version they build has a slot of its own.  (The code
    frees the old slots before the commit, so a longer run can take a slot
    again and does not satisfy it; [freed_slot_overwritten_before_commit]
    shows what happens then.)  In every crash image of every interleaving of
    the insertions of such a run with the commit thread, a location entry that
    differs from the initial one names a version built by one of the
    insertions, every written-back byte of that version and the tag of the
    insertion are on the media, and if the version is that of a neighbour the
    location of the inserted vector is on the media as well. *)
Theorem soft_insert_crash_consistent g enable_tags range prune ins ckpt0 m0 s img id :
  geometry_wf g -> run_wf g range prune ins m0 ->
  reachable g enable_tags range prune ins ckpt0 s -> crash_image m0 (trace s) img ->
  img (Id2loc, id) <> m0 (Id2loc, id) ->
  exists a v, a ∈ ins /\ v ∈ versions range prune a /\ v_id v = id /\
    img (Id2loc, id) = u32 (v_loc v) /\
    node_durable g img v /\ tag_durable enable_tags img a /\
    (v ∈ nbr_versions range prune a -> img (Id2loc, target_id a) <> m0 (Id2loc, target_id a)).
Proof. apply crash_image_loc_durable. Qed.

(** ** Runs of the system *)

(** An insertion can execute a block of its persistent-memory events. *)
Lemma run_thread_pm id : forall l tr th q ts cp cq ck n p,
  th !! id = Some ((Pm <$> l) ++ p) ->
  rtc step (MkSys tr th q ts cp cq ck n) (MkSys (tr ++ l) (<[id := p]> th) q ts cp cq ck n).
Proof.
  induction l as [|e l IH]; intros tr th q ts cp cq ck n p Hth; simpl in Hth.
  - rewrite app_nil_r, insert_id by done. apply rtc_refl.
  - eapply rtc_l; [by apply step_pm|].
    replace (tr ++ e :: l) with ((tr ++ [e]) ++ l) by (by rewrite <- app_assoc).
    erewrite <- (insert_insert_eq th id p). apply IH. by rewrite lookup_insert_eq.
Qed.

Lemma run_push_locs id : forall l tr th q ts cp cq ck n p,
  th !! id = Some (((fun '(i, loc) => PushLoc i loc) <$> l) ++ p) ->
  rtc step (MkSys tr th q ts cp cq ck n) (MkSys tr (<[id := p]> th) (q ++ l) ts cp cq ck n).
Proof.
  induction l as [|[i loc] l IH]; intros tr th q ts cp cq ck n p Hth; simpl in Hth.
  - rewrite app_nil_r, insert_id by done. apply rtc_refl.
  - eapply rtc_l; [by apply step_push_loc|].
    replace (q ++ (i, loc) :: l) with ((q ++ [(i, loc)]) ++ l) by (by rewrite <- app_assoc).
    erewrite <- (insert_insert_eq th id p). apply IH. by rewrite lookup_insert_eq.
Qed.

(** An insertion can run to its end without the commit thread. *)
Lemma run_insert g enable_tags range prune a tr th q ts cp cq ck n :
  th !! target_id a = Some (insert_phase_pm g enable_tags range prune a) ->
  rtc step (MkSys tr th q ts cp cq ck n)
    (MkSys (tr ++ insert_events g enable_tags range prune a) (<[target_id a := []]> th)
       (q ++ nbr_locs range prune a) (ts ++ [Some (target_id a, in_pq_coords a)]) cp cq ck n).
Proof.
  intros Hth. etrans; [by apply (run_thread_pm (target_id a))|].
  etrans; [apply (run_push_locs (target_id a)); by rewrite lookup_insert_eq|].
  rewrite insert_insert_eq. eapply rtc_l; [apply step_push_task; by rewrite lookup_insert_eq|].
  rewrite insert_insert_eq. apply rtc_refl.
Qed.

(** One insertion of a vector with one neighbour. *)
Definition demo_geom : geometry :=
  {| max_node_len := 256; nnodes_per_sector := 16; data_dim := 4; sizeof_T := 1 |}.
Definition demo_insert : insert_args :=
  {| target_id := 10; point := [1; 2; 3; 4]; tag := [7; 0; 0; 0]; new_nhood := [3]; locs := [20; 21];
     nbr_old := [{| coords := [5; 6; 7; 8]; nbrs := [1; 2] |}]; in_pq_coords := [9; 9] |}.
Definition no_prune (t id : Z) (l : list Z) : list Z := l.

Lemma demo_geom_wf : geometry_wf demo_geom.
Proof. by constructor; vm_compute. Qed.

Lemma demo_run_wf : run_wf demo_geom 32 no_prune [demo_insert] (fun _ => 0).
Proof.
  constructor.
  - apply NoDup_singleton.
  - apply (bool_decide_unpack _). by vm_compute.
  - intros a v ->%list_elem_of_singleton Hv.
    assert (Forall (fun v => loc_ok (v_loc v) /\ node_fits demo_geom (v_node v)) (versions 32 no_prune demo_insert)) as H.
    { repeat apply Forall_cons_2; try apply Forall_nil_2; (split; [by split | split_and!; try done; by repeat constructor]). }
    rewrite Forall_forall in H. by apply H.
  - exists 4%nat. by intros a ->%list_elem_of_singleton.
  - exists 2%nat. by intros a ->%list_elem_of_singleton.
  - intros a v ->%list_elem_of_singleton Hv.
    assert (Forall (fun v => 0 <> u32 (v_loc v)) (versions 32 no_prune demo_insert)) as H
      by (by repeat constructor).
    rewrite Forall_forall in H. by apply H.
Qed.

Definition demo_events : list pm_event := insert_events demo_geom true 32 no_prune demo_insert.
Definition demo_sys : sys :=
  MkSys demo_events
    (<[10 := [PushLoc 3 20; PushTask 10 [9; 9]]]> (threads (init_sys demo_geom true 32 no_prune [demo_insert] 10)))
    [] [] [] [] 10 0.

Lemma demo_reachable : reachable demo_geom true 32 no_prune [demo_insert] 10 demo_sys.
Proof. apply (run_thread_pm 10 demo_events []). by vm_compute. Qed.

Lemma soft_insert_witness :
  exists a v, a ∈ [demo_insert] /\ v ∈ versions 32 no_prune a /\ v_id v = 10 /\
    coherent (fun _ => 0) demo_events (Id2loc, 10) = u32 (v_loc v) /\
    node_durable demo_geom (coherent (fun _ => 0) demo_events) v /\
    tag_durable true (coherent (fun _ => 0) demo_events) a /\
    (v ∈ nbr_versions 32 no_prune a ->
     coherent (fun _ => 0) demo_events (Id2loc, target_id a) <> 0).
Proof.
  apply (soft_insert_crash_consistent demo_geom true 32 no_prune [demo_insert] 10 (fun _ => 0) demo_sys
           (coherent (fun _ => 0) demo_events) 10).
  - exact demo_geom_wf.
  - exact demo_run_wf.
  - exact demo_reachable.
  - apply crash_image_all.
  - by vm_compute.
Defined.
