(* ===== verification/CrashLimits.v ===== *)
(** * What a crash during Soft Insert can still lose

    The theorems of [CrashConsistency] speak of written-back bytes and of
    slots that are not used twice.  Here: when the length the code flushes
    covers the node, a reader of the media sees exactly the node; the length
    omits the neighbour count, so there are nodes whose last neighbour is not
    written back; and the slot of a relocated neighbour returns to the
    allocator before the commit thread has written the new location, so that
    the next insertion can overwrite the only version the media know. *)
From S2P Require Import Prelude Layout PageAlloc Mapping Pmem Node SoftInsert CrashConsistency.

(** The flush of [v] reaches the end of the node. *)
Definition node_covered (g : geometry) (v : version) : Prop :=
  u_loc_offset g (v_loc v) mod 64 + Z.of_nat (length (node_bytes (v_node v)))
    <= 64 * ((node_len g v + 63) / 64).

Lemma node_covered_flush g v i :
  0 <= u_loc_offset g (v_loc v) -> 0 < node_len g v -> node_covered g v ->
  (i < length (node_bytes (v_node v)))%nat ->
  flush_dax_covers (u_loc_offset g (v_loc v)) (node_len g v) (u_loc_offset g (v_loc v) + Z.of_nat i) = true.
Proof.
  intros Hp Hs Hc Hi.
  apply (flush_dax_extent _ (node_len g v) (Z.of_nat (length (node_bytes (v_node v))))); lia || done.
Qed.

(** A reader that opens the media after a crash and follows a location
    entry written by the run decodes exactly the node that the insertion
    built, coordinates and neighbours, whenever the flushed length covers the
    node. *)
Theorem recovered_node_exact g enable_tags range prune ins ckpt0 m0 s img id :
  geometry_wf g -> run_wf g range prune ins m0 ->
  (forall a v, a ∈ ins -> v ∈ versions range prune a -> 0 < node_len g v /\ node_covered g v) ->
  reachable g enable_tags range prune ins ckpt0 s -> crash_image m0 (trace s) img ->
  img (Id2loc, id) <> m0 (Id2loc, id) ->
  exists a v, a ∈ ins /\ v ∈ versions range prune a /\ v_id v = id /\
    disk_node g (fun b => img (Graph, b)) (u_loc_offset g (img (Id2loc, id))) = v_node v.
Proof.
  intros Hg Hrun Hcov Hr Himg Hne.
  destruct (crash_image_loc_durable g enable_tags range prune ins ckpt0 m0 s img id)
    as (a & v & Ha & Hv & Hid & Hloc & Hnode & _); try done.
  exists a, v. split_and!; try done. destruct (rw_fit _ _ _ _ _ Hrun a v Ha Hv) as [Hok Hfit].
  rewrite Hloc, u32_small by (destruct Hok; lia). apply disk_node_bytes; [done|].
  intros i b Hb. apply Hnode; [done|]. destruct (Hcov a v Ha Hv).
  apply node_covered_flush; try done; [apply u64_range | by apply lookup_lt_Some in Hb].
Qed.

Lemma recovered_node_witness : exists a v, a ∈ [demo_insert] /\ v ∈ versions 32 no_prune a /\ v_id v = 10 /\
  disk_node demo_geom (fun b => coherent (fun _ => 0) demo_events (Graph, b))
    (u_loc_offset demo_geom (coherent (fun _ => 0) demo_events (Id2loc, 10))) = v_node v.
Proof.
  apply (recovered_node_exact demo_geom true 32 no_prune [demo_insert] 10 (fun _ => 0) demo_sys
           (coherent (fun _ => 0) demo_events) 10).
  - exact demo_geom_wf.
  - exact demo_run_wf.
  - intros a v ->%list_elem_of_singleton Hv.
    assert (Forall (fun v => 0 < node_len demo_geom v /\ node_covered demo_geom v) (versions 32 no_prune demo_insert)) as H.
    { repeat apply Forall_cons_2; try apply Forall_nil_2; (split; [reflexivity | by vm_compute]). }
    rewrite Forall_forall in H. by apply H.
  - exact demo_reachable.
  - apply crash_image_all.
  - by vm_compute.
Defined.

(** ** The last neighbour *)
Definition is_clwb (l : pm_file * Z) (e : pm_event) : bool :=
  match e with Clwb _ l' => bool_decide (l' = l) | _ => false end.

Lemma no_clwb l tr : existsb (is_clwb l) tr = false -> forall t, Clwb t l ∉ tr.
Proof.
  intros H t Hin. apply not_true_iff_false in H. apply H, existsb_exists.
  exists (Clwb t l). split; [by apply list_elem_of_In|]. simpl. by apply bool_decide_eq_true_2.
Qed.

(** Slots aligned to cache lines, 60 bytes of coordinates. *)
Definition tight_geom : geometry :=
  {| max_node_len := 192; nnodes_per_sector := 16; data_dim := 60; sizeof_T := 1 |}.
Definition tight_insert : insert_args :=
  {| target_id := 10; point := replicate 60 1; tag := [7; 0; 0; 0]; new_nhood := [3]; locs := [20; 40];
     nbr_old := [{| coords := replicate 60 2; nbrs := [1; 2] |}]; in_pq_coords := [9; 9] |}.
Definition tight_events : list pm_event := insert_events tight_geom true 32 no_prune tight_insert.

Lemma tight_run_wf : run_wf tight_geom 32 no_prune [tight_insert] (fun _ => 0).
Proof.
  constructor.
  - apply NoDup_singleton.
  - apply (bool_decide_unpack _). by vm_compute.
  - intros a v ->%list_elem_of_singleton Hv.
    assert (Forall (fun v => loc_ok (v_loc v) /\ node_fits tight_geom (v_node v)) (versions 32 no_prune tight_insert)) as H.
    { repeat apply Forall_cons_2; try apply Forall_nil_2; (split; [by split | split_and!; try done; by repeat constructor]). }
    rewrite Forall_forall in H. by apply H.
  - exists 4%nat. by intros a ->%list_elem_of_singleton.
  - exists 2%nat. by intros a ->%list_elem_of_singleton.
  - intros a v ->%list_elem_of_singleton Hv.
    assert (Forall (fun v => 0 <> u32 (v_loc v)) (versions 32 no_prune tight_insert)) as H
      by (by repeat constructor).
    rewrite Forall_forall in H. by apply H.
Qed.

(** The flushed length [data_dim * sizeof(T) + nnbrs * 4] does not count the
    four bytes of the neighbour count: there is an insertion into aligned slots
    and a crash image after it has completed in which the location of the new
    vector is durable but its last neighbour is lost. *)
Theorem last_neighbor_not_flushed : exists s img,
  run_wf tight_geom 32 no_prune [tight_insert] (fun _ => 0) /\
  reachable tight_geom true 32 no_prune [tight_insert] 10 s /\
  crash_image (fun _ => 0) (trace s) img /\
  img (Id2loc, 10) = 40 /\
  nbrs (disk_node tight_geom (fun b => img (Graph, b)) (u_loc_offset tight_geom 40)) = [0] /\
  new_nhood tight_insert = [3].
Proof.
  pose (c := (Graph, u_loc_offset tight_geom 40 + 64)).
  exists (MkSys tight_events
    (<[10 := [PushLoc 3 20; PushTask 10 [9; 9]]]> (threads (init_sys tight_geom true 32 no_prune [tight_insert] 10)))
    [] [] [] [] 10 0),
    (fun c' => if decide (c' = c) then 0 else coherent (fun _ => 0) tight_events c').
  split_and!.
  - apply tight_run_wf.
  - apply (run_thread_pm 10 tight_events []). by vm_compute.
  - apply (crash_image_lost (fun _ => 0) tight_events c), no_clwb. by vm_compute.
  - by vm_compute.
  - by vm_compute.
  - done.
Qed.

(** ** The slot of a relocated neighbour *)
Definition reuse_geom : geometry :=
  {| max_node_len := 1000; nnodes_per_sector := 4; data_dim := 4; sizeof_T := 1 |}.
Definition reuse_state : map_state := load_page_layout reuse_geom 6 empty_map_state.

Definition plain_node (x : Z) : node := {| coords := [x; x; x; x]; nbrs := [] |}.

(** The first insertion relocates the four nodes of the first page; the second
    gets the slots of that page. *)
Definition reuse_first : insert_args :=
  {| target_id := 6; point := [6; 6; 6; 6]; tag := [6]; new_nhood := [0; 1; 2; 3]; locs := [8; 9; 10; 11; 12];
     nbr_old := plain_node <$> [0; 1; 2; 3]; in_pq_coords := [6] |}.
Definition reuse_second : insert_args :=
  {| target_id := 7; point := [7; 7; 7; 7]; tag := [7]; new_nhood := [4]; locs := [0; 1];
     nbr_old := [plain_node 4]; in_pq_coords := [7] |}.

(** The locations that the two insertions get: allocation and publication of
    the first, then allocation of the second. *)
Definition reuse_allocation : outcome (list Z * list Z) :=
  '(locs1, _, a1) ← alloc_loc reuse_geom false 5 [] ∅ (alloc_ reuse_state);
  st1 ← publish reuse_geom 6 (new_nhood reuse_first) locs1 (set_alloc a1 reuse_state);
  '(locs2, _, _) ← alloc_loc reuse_geom false 2 [] ∅ (alloc_ st1);
  Ok (locs1, locs2).

(** The media before the run: node [1] at location [1]. *)
Definition reuse_mem : pm_mem :=
  coherent (fun _ => 0)
    [Store Committer Graph (u_loc_offset reuse_geom 1) (node_bytes (plain_node 1));
     Store Committer Id2loc 0 [0; 1; 2; 3; 4; 5]].

(** The old slot of a relocated neighbour is freed for the allocator before
    the commit thread has made its new location durable: after one insertion
    that relocates node [1], [alloc_loc] hands the slot of the old version to
    the next insertion, and a crash then leaves a location table whose entry
    for node [1] is the old one while the slot holds the vector of node [7]. *)
Theorem freed_slot_overwritten_before_commit :
  reuse_allocation = Ok (locs reuse_first, locs reuse_second) /\
  exists s img,
    reachable reuse_geom true 32 no_prune [reuse_first; reuse_second] 6 s /\
    crash_image reuse_mem (trace s) img /\
    disk_node reuse_geom (fun b => reuse_mem (Graph, b)) (u_loc_offset reuse_geom 1) = plain_node 1 /\
    img (Id2loc, 1) = 1 /\ reuse_mem (Id2loc, 1) = 1 /\
    coords (disk_node reuse_geom (fun b => img (Graph, b)) (u_loc_offset reuse_geom 1)) = point reuse_second.
Proof.
  split; [vm_compute; reflexivity|].
  set (tr := [] ++ insert_events reuse_geom true 32 no_prune reuse_first
                ++ insert_events reuse_geom true 32 no_prune reuse_second).
  eexists _, (coherent reuse_mem tr). split_and!.
  - unfold reachable. etrans; [apply (run_insert reuse_geom true 32 no_prune reuse_first); by vm_compute|].
    apply (run_insert reuse_geom true 32 no_prune reuse_second). by vm_compute.
  - apply crash_image_all.
  - by vm_compute.
  - by vm_compute.
  - by vm_compute.
  - by vm_compute.
Qed.
