(* ===== verification/Checkpoint.v ===== *)
(** * The ISS checkpoint

    The commit thread takes finished insertions in any order, makes their
    compressed vector durable, writes the postponed location entries of
    neighbours, and pushes the identifier into a min-heap; the checkpoint in
    the super block advances over the contiguous prefix only
    ([insert_commit_thread] and [process_commit_queue] of
    [src/update/direct_insert.cpp]).  The invariant below follows each entry
    from the insertion through the queue into the stream of events of the
    commit thread; its consequence is that a checkpoint read from the media
    after a crash is a promise about everything below it. *)
From S2P Require Import Prelude Layout Pmem Node SoftInsert CrashConsistency.

(** ** Sublists *)
Lemma sublist_insert {A} (k l1 x l2 : list A) :
  k `sublist_of` l1 ++ l2 -> k `sublist_of` l1 ++ x ++ l2.
Proof.
  intros H. etrans; [exact H|]. apply sublist_app; [done|]. by apply sublist_inserts_l.
Qed.

Lemma sublist_flushed c k l : flushed c k -> k `sublist_of` l -> flushed c l.
Proof.
  intros (t & a & b & -> & Hf) Hs.
  apply sublist_app_l in Hs as (l1 & l2 & -> & _ & H2).
  apply sublist_cons_l in H2 as (l3 & l4 & -> & H4).
  exists t, (l1 ++ l3), l4. split; [by rewrite <- app_assoc|].
  by eapply elem_of_sublist.
Qed.

(** ** The queue *)
Lemma heap_push_elem x y q : y ∈ heap_push x q <-> y = x \/ y ∈ q.
Proof.
  induction q as [|z q IH]; simpl; [set_solver|]. destruct (x <=? z); set_solver.
Qed.

(** The checkpoint advances only over identifiers that were in the queue. *)
Lemma process_commit_queue_spec (P : Z -> Prop) lo : forall q cur b cur' q' b',
  process_commit_queue cur q b = (cur', q', b') -> 0 <= cur ->
  (forall id, lo <= id < cur -> P id) -> (forall id, id ∈ q -> P id) ->
  0 <= cur' /\ (forall id, lo <= id < cur' -> P id) /\ (forall id, id ∈ q' -> id ∈ q).
Proof.
  induction q as [|top q IH]; intros cur b cur' q' b' H Hc Hlt Hq; simpl in H.
  - simplify_eq. done.
  - destruct (Z.eqb_spec cur top) as [->|]; [|by simplify_eq].
    apply IH in H as (? & ? & Hin); [| apply u32_range | |].
    + split_and!; [done | done |]. intros id Hid. apply elem_of_cons. right. by apply Hin.
    + intros id Hid. destruct (decide (id = top)) as [->|]; [apply Hq; set_solver|]. apply Hlt.
      unfold u32 in Hid. pose proof (Z.mod_le (top + 1) (2 ^ 32) ltac:(lia) ltac:(lia)). lia.
    + intros id Hid. apply Hq. set_solver.
Qed.

Section checkpoint.
Context (g : geometry) (Hg : geometry_wf g).
Context (enable_tags : bool) (range : Z) (prune : Z -> Z -> list Z -> list Z).
Context (ins : list insert_args) (m0 : pm_mem) (Hrun : run_wf g range prune ins m0).
Context (ckpt0 : Z) (Hckpt0 : 0 <= ckpt0).

Abbreviation nbr_locs := (SoftInsert.nbr_locs range prune).
Abbreviation fenced := (CrashConsistency.fenced g enable_tags range prune).
Abbreviation sys_inv := (CrashConsistency.sys_inv g enable_tags range prune ins).

Definition loc_memcpy (i l : Z) : list pm_event := pmem_memcpy Committer Id2loc i [l] PMEM_TRANSFER.
Definition pq_memcpy (a : insert_args) : list pm_event :=
  pmem_memcpy Committer Pq (target_id a * Z.of_nat (length (in_pq_coords a))) (in_pq_coords a) PMEM_PERSIST.

(** The events of the commit thread, those it has yet to execute included. *)
Definition commit_stream (tr : list pm_event) (pre : list op) : list pm_event :=
  by_thread Committer tr ++ pm_events pre.

(** The entry is in the queue or in the stream. *)
Definition issued (s : sys) (i l : Z) : Prop :=
  (i, l) ∈ pm_queue s \/ loc_memcpy i l `sublist_of` commit_stream (trace s) (commit_prog s).

(** All writes of the commit thread for [a] are among [ev]. *)
Definition processed_in (a : insert_args) (ev : list pm_event) : Prop :=
  pq_memcpy a `sublist_of` ev /\
  forall i l, (i, l) ∈ nbr_locs a -> loc_memcpy i l `sublist_of` ev.
Definition committed_in (a : insert_args) (ev : list pm_event) : Prop :=
  pq_memcpy a `sublist_of` ev /\
  forall i l, (i, l) ∈ nbr_locs a -> (loc_memcpy i l ++ [Sfence Committer]) `sublist_of` ev.

Definition processed (tr : list pm_event) (id : Z) : Prop :=
  exists a, a ∈ ins /\ id = target_id a /\ fenced a tr /\ processed_in a (by_thread Committer tr).
Definition committed (tr : list pm_event) (ev : list pm_event) (id : Z) : Prop :=
  exists a, a ∈ ins /\ id = target_id a /\ fenced a tr /\ committed_in a (by_thread Committer tr ++ ev).

Record commit_inv (s : sys) : Prop := {
  ci_push : forall a rest, a ∈ ins -> threads s !! target_id a = Some rest ->
    forall i l, (i, l) ∈ nbr_locs a -> PushLoc i l ∈ rest \/ issued s i l;
  ci_task : forall id pq, Some (id, pq) ∈ commit_tasks s -> exists a, a ∈ ins /\ id = target_id a /\
    pq = in_pq_coords a /\ fenced a (trace s) /\ forall i l, (i, l) ∈ nbr_locs a -> issued s i l;
  ci_cpush : forall pre id post, commit_prog s = pre ++ CommitPush id :: post ->
    exists a, a ∈ ins /\ id = target_id a /\ fenced a (trace s) /\
      pq_memcpy a `sublist_of` commit_stream (trace s) pre /\
      forall i l, (i, l) ∈ nbr_locs a ->
        ((i, l) ∈ pm_queue s /\ Drain ∈ pre) \/ loc_memcpy i l `sublist_of` commit_stream (trace s) pre;
  ci_heap : forall id, id ∈ commit_queue s -> processed (trace s) id;
  ci_pos : 0 <= ckpt_id s;
  ci_ckpt : forall id, ckpt0 <= id < ckpt_id s -> processed (trace s) id;
  ci_super : forall pre e post c, pm_events (commit_prog s) = pre ++ e :: post ->
    store_val e (Super, 0) = Some c -> forall id, ckpt0 <= id < c -> committed (trace s) pre id;
  ci_history : history (fun tr e => forall c, store_val e (Super, 0) = Some c ->
    forall id, ckpt0 <= id < c -> committed tr [] id) (trace s);
}.

(** ** Extension of the run *)
Lemma processed_app tr x id : processed tr id -> processed (tr ++ x) id.
Proof.
  intros (a & Ha & -> & Hf & Hp & Hl). exists a. split_and!; [done | done | by apply fenced_app |].
  rewrite by_thread_app. split; [by apply sublist_inserts_r|]. intros. apply sublist_inserts_r. by apply Hl.
Qed.

(** An event of another thread. *)
Lemma commit_stream_other tr e pre :
  event_thread e <> Committer -> commit_stream (tr ++ [e]) pre = commit_stream tr pre.
Proof. intros H. unfold commit_stream. by rewrite by_thread_snoc_ne. Qed.

Lemma commit_stream_own tr e pre :
  event_thread e = Committer -> commit_stream (tr ++ [e]) pre = commit_stream tr (Pm e :: pre).
Proof.
  intros H. unfold commit_stream. rewrite by_thread_snoc_eq by done.
  change (pm_events (Pm e :: pre)) with (e :: pm_events pre). by rewrite <- app_assoc.
Qed.

Lemma committed_app tr e ev id :
  event_thread e <> Committer -> committed tr ev id -> committed (tr ++ [e]) ev id.
Proof.
  intros He (a & Ha & -> & Hf & Hc). exists a. split_and!; [done | done | by apply fenced_app |].
  by rewrite by_thread_snoc_ne.
Qed.

Lemma committed_shift tr e ev id :
  event_thread e = Committer -> committed tr (e :: ev) id -> committed (tr ++ [e]) ev id.
Proof.
  intros He (a & Ha & -> & Hf & Hc). exists a. split_and!; [done | done | by apply fenced_app |].
  rewrite by_thread_snoc_eq by done. by rewrite <- app_assoc.
Qed.

Lemma committed_insert tr x ev id : committed tr ev id -> committed tr (x ++ ev) id.
Proof.
  intros (a & Ha & -> & Hf & Hp & Hl). exists a. split_and!; [done | done | done |].
  split; [by apply sublist_insert|]. intros. apply sublist_insert. by apply Hl.
Qed.

(** Processed, then fenced: committed. *)
Lemma processed_committed tr id : processed tr id -> committed tr [Sfence Committer] id.
Proof.
  intros (a & Ha & -> & Hf & Hp & Hl). exists a. split_and!; [done | done | done |].
  split; [by apply sublist_inserts_r|]. intros. apply sublist_app; [by apply Hl | done].
Qed.

Lemma committed_app_r tr x ev id : committed tr ev id -> committed tr (ev ++ x) id.
Proof.
  intros (a & Ha & -> & Hf & Hp & Hl). exists a. split_and!; [done | done | done |].
  rewrite app_assoc. split; [by apply sublist_inserts_r|]. intros. apply sublist_inserts_r. by apply Hl.
Qed.

Lemma app_split_r {A} (l1 l2 pre post : list A) x :
  l1 ++ l2 = pre ++ x :: post -> x ∉ l1 -> exists pre', pre = l1 ++ pre' /\ l2 = pre' ++ x :: post.
Proof.
  intros H Hx. apply app_eq_inv in H as [(k & -> & Hk)|(k & -> & ->)]; [|by exists k].
  destruct k as [|y k]; simpl in Hk.
  - exists []. by rewrite !app_nil_r.
  - injection Hk as <- ->. exfalso. apply Hx. set_solver.
Qed.

Lemma memcpy_no_super t f off vals fl e :
  f <> Super -> e ∈ pmem_memcpy t f off vals fl -> store_val e (Super, 0) = None.
Proof.
  intros Hf He. destruct (store_val e (Super, 0)) as [w|] eqn:Hw; [|done].
  rewrite (pmem_memcpy_store _ _ _ _ _ _ _ _ He Hw) in Hw.
  apply store_val_inv in Hw as [E _]. simpl in E. congruence.
Qed.

Lemma insert_no_super a e :
  a ∈ ins -> e ∈ insert_events g enable_tags range prune a -> store_val e (Super, 0) = None.
Proof.
  intros Ha He. destruct (store_val e (Super, 0)) as [w|] eqn:Hw; [|done]. exfalso.
  assert (event_ok g range prune ins e) as Hok by (by eapply insert_event_ok).
  unfold insert_events in He. rewrite !elem_of_app in He. destruct He as [He|[He|He]].
  - assert (((Super, 0) : cell).1 = Graph \/ ((Super, 0) : cell).1 = Tags) as [?|?];
      [by eapply vec_phase_store | done | done].
  - assert (((Super, 0) : cell).1 = Graph); [by eapply nbr_phase_store | done].
  - assert ((Super, 0) = (Id2loc, target_id a) /\ w = u32 (target_loc a)) as [? _];
      [by eapply loc_phase_store | done].
Qed.

(** ** Preservation *)

(** An insertion executes an operation. *)
Lemma ci_push_step s a o p th' :
  commit_inv s -> sys_inv s -> a ∈ ins -> threads s !! target_id a = Some (o :: p) ->
  th' = <[target_id a := p]> (threads s) ->
  forall a' rest, a' ∈ ins -> th' !! target_id a' = Some rest ->
  forall i l, (i, l) ∈ nbr_locs a' -> PushLoc i l ∈ rest \/ issued s i l \/ o = PushLoc i l.
Proof.
  intros Hc Hs Ha Hth -> a' rest Ha' Hr i l Hil. destruct (decide (target_id a' = target_id a)) as [E|E].
  - rewrite E, lookup_insert_eq in Hr. injection Hr as <-.
    destruct (ci_push _ Hc a' (o :: p) Ha' ltac:(by rewrite E) i l Hil) as [H|H]; [|by right; left].
    apply elem_of_cons in H as [->|H]; [by right; right | by left].
  - rewrite lookup_insert_ne in Hr by done. destruct (ci_push _ Hc a' rest Ha' Hr i l Hil); auto.
Qed.

Lemma issued_other tr th th' q ts ts' cp cq ck n e i l :
  event_thread e <> Committer -> issued (MkSys tr th q ts cp cq ck n) i l ->
  issued (MkSys (tr ++ [e]) th' q ts' cp cq ck n) i l.
Proof. intros He [H|H]; [by left|]. right. simpl in *. by rewrite commit_stream_other. Qed.

Lemma commit_inv_pm tr th q ts cp cq ck n id e p :
  sys_inv (MkSys tr th q ts cp cq ck n) -> commit_inv (MkSys tr th q ts cp cq ck n) ->
  th !! id = Some (Pm e :: p) ->
  commit_inv (MkSys (tr ++ [e]) (<[id := p]> th) q ts cp cq ck n).
Proof.
  intros Hs Hc Hth. destruct (si_dom _ _ _ _ _ _ Hs id _ Hth) as (a & Ha & <-).
  destruct (si_threads _ _ _ _ _ _ Hs a Ha) as (dn & rest & Hp & Hr & _). simpl in Hr.
  rewrite Hth in Hr. injection Hr as <-. apply next_pm in Hp.
  assert (e ∈ insert_events g enable_tags range prune a) as He by (rewrite Hp; set_solver).
  assert (event_thread e = Inserter (target_id a)) as Ht' by (by eapply insert_events_thread).
  assert (event_thread e <> Committer) as Ht by (by rewrite Ht').
  constructor; simpl.
  - intros a' rest' Ha' Hr' i l Hil.
    edestruct (ci_push_step (MkSys tr th q ts cp cq ck n) a) as [H|[H|H]];
      [exact Hc | exact Hs | exact Ha | exact Hth | done | exact Ha' | exact Hr' | exact Hil | by left | | done].
    right. by apply issued_other with (th := th) (ts := ts).
  - intros id pq H. destruct (ci_task _ Hc _ _ H) as (a' & ? & ? & ? & ? & Hi).
    exists a'. split_and!; [done | done | done | by apply fenced_app |].
    intros. apply issued_other with (th := th) (ts := ts); auto.
  - intros pre id post H. rewrite commit_stream_other by done.
    destruct (ci_cpush _ Hc _ _ _ H) as (a' & ? & ? & ? & ? & Hi).
    exists a'. split_and!; [done | done | by apply fenced_app | done | done].
  - intros. apply processed_app. by apply (ci_heap _ Hc).
  - apply (ci_pos _ Hc).
  - intros. apply processed_app. by apply (ci_ckpt _ Hc).
  - intros pre x post c H Hx i Hi. apply committed_app; [done|]. by eapply (ci_super _ Hc).
  - apply history_snoc; [apply (ci_history _ Hc)|]. intros c Hw. by rewrite (insert_no_super a) in Hw.
Qed.

Lemma issued_queue tr th th' q q' ts ts' cp cq ck n i l :
  (forall x, x ∈ q -> x ∈ q') -> issued (MkSys tr th q ts cp cq ck n) i l ->
  issued (MkSys tr th' q' ts' cp cq ck n) i l.
Proof. intros Hq [H|H]; [left; by apply Hq | by right]. Qed.

Lemma commit_inv_push_loc tr th q ts cp cq ck n id i0 l0 p :
  sys_inv (MkSys tr th q ts cp cq ck n) -> commit_inv (MkSys tr th q ts cp cq ck n) ->
  th !! id = Some (PushLoc i0 l0 :: p) ->
  commit_inv (MkSys tr (<[id := p]> th) (q ++ [(i0, l0)]) ts cp cq ck n).
Proof.
  intros Hs Hc Hth. destruct (si_dom _ _ _ _ _ _ Hs id _ Hth) as (a & Ha & <-).
  assert (forall i l, issued (MkSys tr th q ts cp cq ck n) i l ->
    issued (MkSys tr (<[target_id a := p]> th) (q ++ [(i0, l0)]) ts cp cq ck n) i l) as Hiss.
  { intros i l. apply issued_queue. set_solver. }
  constructor; simpl; [| | | apply (ci_heap _ Hc) | apply (ci_pos _ Hc) | apply (ci_ckpt _ Hc)
    | apply (ci_super _ Hc) | apply (ci_history _ Hc)].
  - intros a' rest' Ha' Hr' i l Hil.
    edestruct (ci_push_step (MkSys tr th q ts cp cq ck n) a) as [H|[H|H]];
      [exact Hc | exact Hs | exact Ha | exact Hth | done | exact Ha' | exact Hr' | exact Hil | by left | by right; apply Hiss |].
    injection H as -> ->. right. left. simpl. set_solver.
  - intros id pq H. destruct (ci_task _ Hc _ _ H) as (a' & ? & ? & ? & ? & Hi).
    exists a'. split_and!; try done. intros. by apply Hiss, Hi.
  - intros pre id post H. destruct (ci_cpush _ Hc _ _ _ H) as (a' & ? & ? & ? & ? & Hi).
    exists a'. split_and!; try done. intros i l Hil. destruct (Hi i l Hil) as [[? ?]|?]; [left | by right].
    simpl in *. set_solver.
Qed.

Lemma commit_inv_push_task tr th q ts cp cq ck n id i0 pq0 p :
  sys_inv (MkSys tr th q ts cp cq ck n) -> commit_inv (MkSys tr th q ts cp cq ck n) ->
  th !! id = Some (PushTask i0 pq0 :: p) ->
  commit_inv (MkSys tr (<[id := p]> th) q (ts ++ [Some (i0, pq0)]) cp cq ck n).
Proof.
  intros Hs Hc Hth. destruct (si_dom _ _ _ _ _ _ Hs id _ Hth) as (a & Ha & <-).
  assert (fenced a tr /\ PushTask i0 pq0 ∈ insert_phase_pm g enable_tags range prune a) as [Hf Ho]
    by (eapply next_fenced with (s := MkSys tr th q ts cp cq ck n); try eassumption; done).
  assert (forall i l, issued (MkSys tr th q ts cp cq ck n) i l ->
    issued (MkSys tr (<[target_id a := p]> th) q (ts ++ [Some (i0, pq0)]) cp cq ck n) i l) as Hiss by done.
  assert (i0 = target_id a /\ pq0 = in_pq_coords a /\ p = []) as (-> & -> & ->).
  { destruct (si_threads _ _ _ _ _ _ Hs a Ha) as (dn & rest & Hp & Hr & _). simpl in Hr.
    rewrite Hth in Hr. injection Hr as <-. unfold insert_phase_pm in Hp. rewrite app_assoc in Hp.
    apply app_split_r in Hp as (k & -> & Hk).
    - destruct k as [|? [|]]; simplify_eq/=; done.
    - rewrite elem_of_app, !list_elem_of_fmap. intros [(? & ? & _)|([] & ? & _)]; done. }
  constructor; simpl; [| | apply (ci_cpush _ Hc) | apply (ci_heap _ Hc) | apply (ci_pos _ Hc)
    | apply (ci_ckpt _ Hc) | apply (ci_super _ Hc) | apply (ci_history _ Hc)].
  - intros a' rest' Ha' Hr' i l Hil.
    edestruct (ci_push_step (MkSys tr th q ts cp cq ck n) a) as [H|[H|H]];
      [exact Hc | exact Hs | exact Ha | exact Hth | done | exact Ha' | exact Hr' | exact Hil | by left | by right | done].
  - intros id pq [H|H]%elem_of_app; [by apply (ci_task _ Hc)|].
    apply list_elem_of_singleton in H as [= -> ->]. exists a. split_and!; try done.
    intros i l Hil. destruct (ci_push _ Hc a _ Ha Hth i l Hil) as [H|H]; [|by apply Hiss].
    apply elem_of_cons in H as [H|H]; [done | by apply elem_of_nil in H].
Qed.

(** The commit thread executes an event. *)
Lemma commit_inv_commit_pm tr th q ts e cp cq ck n :
  sys_inv (MkSys tr th q ts (Pm e :: cp) cq ck n) -> commit_inv (MkSys tr th q ts (Pm e :: cp) cq ck n) ->
  commit_inv (MkSys (tr ++ [e]) th q ts cp cq ck n).
Proof.
  intros Hs Hc. destruct (si_commit _ _ _ _ _ _ Hs e) as (Ht & _ & _); [set_solver|].
  assert (forall i l, issued (MkSys tr th q ts (Pm e :: cp) cq ck n) i l ->
    issued (MkSys (tr ++ [e]) th q ts cp cq ck n) i l) as Hiss.
  { intros i l [H|H]; [by left|]. right. simpl in *. by rewrite commit_stream_own. }
  constructor; simpl.
  - intros a rest Ha Hr i l Hil. destruct (ci_push _ Hc a rest Ha Hr i l Hil); auto.
  - intros id pq H. destruct (ci_task _ Hc _ _ H) as (a & ? & ? & ? & ? & Hi).
    exists a. split_and!; [done | done | done | by apply fenced_app | auto].
  - intros pre id post H. rewrite commit_stream_own by done. simpl in *. subst cp.
    destruct (ci_cpush _ Hc (Pm e :: pre) id post eq_refl) as (a & ? & ? & ? & ? & Hi).
    exists a. split_and!; [done | done | by apply fenced_app | done |].
    intros i l Hil. destruct (Hi i l Hil) as [[? ?]|?]; [left | by right]. set_solver.
  - intros. apply processed_app. by apply (ci_heap _ Hc).
  - apply (ci_pos _ Hc).
  - intros. apply processed_app. by apply (ci_ckpt _ Hc).
  - intros pre x post c H Hx i Hi. apply committed_shift; [done|].
    apply (ci_super _ Hc (e :: pre) x post c); [|done|done]. simpl. unfold pm_events in *. simpl. by rewrite H.
  - apply history_snoc; [apply (ci_history _ Hc)|]. intros c Hw id Hid.
    by apply (ci_super _ Hc [] e (pm_events cp) c).
Qed.

Lemma commit_inv_task tr th q ts cq ck n id pq :
  commit_inv (MkSys tr th q (Some (id, pq) :: ts) [] cq ck n) ->
  commit_inv (MkSys tr th q ts (commit_task_ops id pq) cq ck n).
Proof.
  intros Hc. destruct (ci_task _ Hc id pq ltac:(simpl; set_solver)) as (a & Ha & -> & -> & Hf & Hi).
  assert (forall i l, issued (MkSys tr th q (Some (target_id a, in_pq_coords a) :: ts) [] cq ck n) i l ->
    issued (MkSys tr th q ts (commit_task_ops (target_id a) (in_pq_coords a)) cq ck n) i l) as Hiss.
  { intros i l [H|H]; [by left|]. right. unfold commit_stream in *. simpl in *.
    rewrite app_nil_r in H. by apply sublist_inserts_r. }
  constructor; simpl; [| | | apply (ci_heap _ Hc) | apply (ci_pos _ Hc) | apply (ci_ckpt _ Hc) | | apply (ci_history _ Hc)].
  - intros a' rest Ha' Hr i l Hil. destruct (ci_push _ Hc a' rest Ha' Hr i l Hil); auto.
  - intros id pq H. destruct (ci_task _ Hc id pq ltac:(simpl in *; set_solver)) as (a' & ? & ? & ? & ? & Hi').
    exists a'. split_and!; auto.
  - intros pre id post H. unfold commit_task_ops in H.
    apply app_split_r in H as (k & -> & Hk); [|rewrite list_elem_of_fmap; by intros (? & ? & _)].
    assert (k = [Drain] /\ id = target_id a) as [-> ->].
    { destruct k as [|? [|? [|? [|? k]]]]; simplify_eq/=; done. }
    exists a. unfold commit_stream. rewrite pm_events_app, pm_events_Pm. split_and!; try done.
    + apply sublist_inserts_l. simpl. rewrite app_nil_r. done.
    + intros i l Hil. destruct (Hi i l Hil) as [H|H]; [left; split; [done | set_solver] | right].
      unfold commit_stream in H. simpl in H. rewrite app_nil_r in H. by apply sublist_inserts_r.
  - intros pre e post c H Hw. exfalso. unfold commit_task_ops in H.
    rewrite pm_events_app, pm_events_Pm in H. simpl in H. rewrite app_nil_r in H.
    rewrite (memcpy_no_super Committer Pq (target_id a * Z.of_nat (length (in_pq_coords a))) (in_pq_coords a) PMEM_PERSIST e) in Hw;
      [done | done |]. unfold pmem_memcpy. rewrite H. set_solver.
Qed.

Lemma batch_sublist q i l : (i, l) ∈ q -> loc_memcpy i l `sublist_of` id2loc_batch q.
Proof.
  intros H. apply list_elem_of_split in H as (q1 & q2 & ->). unfold id2loc_batch.
  rewrite bind_app. apply sublist_inserts_l. apply sublist_inserts_r. done.
Qed.

Lemma commit_inv_drain tr th q ts cp cq ck n :
  commit_inv (MkSys tr th q ts (Drain :: cp) cq ck n) ->
  commit_inv (MkSys tr th [] ts ((Pm <$> id2loc_batch q) ++ cp) cq ck n).
Proof.
  intros Hc.
  assert (forall i l, issued (MkSys tr th q ts (Drain :: cp) cq ck n) i l ->
    issued (MkSys tr th [] ts ((Pm <$> id2loc_batch q) ++ cp) cq ck n) i l) as Hiss.
  { intros i l H. right. unfold commit_stream. simpl. rewrite pm_events_app, pm_events_Pm.
    destruct H as [H|H]; simpl in H.
    - apply sublist_inserts_l, sublist_inserts_r. by apply batch_sublist.
    - by apply sublist_insert. }
  constructor; simpl; [| | | apply (ci_heap _ Hc) | apply (ci_pos _ Hc) | apply (ci_ckpt _ Hc) | | apply (ci_history _ Hc)].
  - intros a' rest Ha' Hr i l Hil. destruct (ci_push _ Hc a' rest Ha' Hr i l Hil); auto.
  - intros id pq H. destruct (ci_task _ Hc id pq H) as (a' & ? & ? & ? & ? & Hi'). exists a'. split_and!; auto.
  - intros pre id post H.
    apply app_split_r in H as (k & -> & ->); [|rewrite list_elem_of_fmap; by intros (? & ? & _)].
    destruct (ci_cpush _ Hc (Drain :: k) id post eq_refl) as (a & ? & ? & ? & Hp & Hi).
    exists a. unfold commit_stream in *. rewrite pm_events_app, pm_events_Pm. split_and!; try done.
    + by apply sublist_insert.
    + intros i l Hil. right. destruct (Hi i l Hil) as [[H' _]|H'].
      * apply sublist_inserts_l, sublist_inserts_r. by apply batch_sublist.
      * by apply sublist_insert.
  - intros pre e post c H Hw id Hid. rewrite pm_events_app, pm_events_Pm in H.
    apply app_split_r in H as (k & -> & Hk).
    + apply committed_insert. by eapply (ci_super _ Hc).
    + intros He. apply list_elem_of_bind in He as ([i l] & He & _).
      rewrite (memcpy_no_super Committer Id2loc i [l] PMEM_TRANSFER e) in Hw; done.
Qed.

Lemma commit_inv_commit_push tr th q ts id cp cq ck n :
  commit_inv (MkSys tr th q ts (CommitPush id :: cp) cq ck n) ->
  commit_inv (MkSys tr th q ts cp (heap_push id cq) ck n).
Proof.
  intros Hc.
  constructor; simpl; [apply (ci_push _ Hc) | apply (ci_task _ Hc) | | | apply (ci_pos _ Hc)
    | apply (ci_ckpt _ Hc) | apply (ci_super _ Hc) | apply (ci_history _ Hc)].
  - intros pre id' post ->. destruct (ci_cpush _ Hc (CommitPush id :: pre) id' post eq_refl)
      as (a & ? & ? & ? & ? & Hi). exists a. split_and!; try done.
    intros i l Hil. destruct (Hi i l Hil) as [[? ?]|?]; [left | by right]. set_solver.
  - intros id' [->|H]%heap_push_elem; [|by apply (ci_heap _ Hc)].
    destruct (ci_cpush _ Hc [] id cp eq_refl) as (a & ? & ? & ? & Hp & Hi). unfold commit_stream in *.
    simpl in *. rewrite app_nil_r in *. exists a. split_and!; try done. split; [done|].
    intros i l Hil. destruct (Hi i l Hil) as [[_ Hn]|Hn]; [by apply elem_of_nil in Hn | done].
Qed.

(** Steps that only touch control: the executed operation is [o], and [cp']
    starts with operations [x] that are not events. *)
Lemma commit_inv_control tr th q ts ts' o x cp cq ck n n' :
  (forall y, Some y ∈ ts' -> Some y ∈ ts) ->
  (forall y, y ∈ x -> y = ProcessQueue \/ y = Halt) -> (o = [] \/ o = [IntervalTest]) ->
  commit_inv (MkSys tr th q ts (o ++ cp) cq ck n) -> commit_inv (MkSys tr th q ts' (x ++ cp) cq ck n').
Proof.
  intros Hts Hx Ho Hc.
  assert (forall l, pm_events (o ++ l) = pm_events l) as Epo by (by destruct Ho as [-> | ->]).
  assert (forall l, pm_events (x ++ l) = pm_events l) as Ep.
  { intros l. rewrite pm_events_app. assert (pm_events x = []) as ->; [|done].
    clear -Hx. induction x as [|y x IH]; [done|].
    destruct (Hx y ltac:(set_solver)) as [-> | ->]; apply IH; set_solver. }
  assert (forall i l, issued (MkSys tr th q ts (o ++ cp) cq ck n) i l ->
    issued (MkSys tr th q ts' (x ++ cp) cq ck n') i l) as Hiss.
  { intros i l [H|H]; [by left|]. right. unfold commit_stream in *. simpl in *. by rewrite Ep, <- (Epo cp). }
  constructor; simpl; [| | | apply (ci_heap _ Hc) | apply (ci_pos _ Hc) | apply (ci_ckpt _ Hc) | | apply (ci_history _ Hc)].
  - intros a rest Ha Hr i l Hil. destruct (ci_push _ Hc a rest Ha Hr i l Hil); auto.
  - intros id pq H. apply Hts in H. destruct (ci_task _ Hc id pq H) as (a & ? & ? & ? & ? & Hi). exists a. split_and!; auto.
  - intros pre id post H. apply app_split_r in H as (k & -> & ->); [|intros Hy; by destruct (Hx _ Hy)].
    destruct (ci_cpush _ Hc (o ++ k) id post) as (a & ? & ? & ? & Hp & Hi); [by simpl; rewrite <- app_assoc|].
    exists a. unfold commit_stream in *. rewrite Ep. simpl in *. rewrite Epo in *. split_and!; try done.
    intros i l Hil. destruct (Hi i l Hil) as [[? ?]|?]; [left; split; [done|] | by right].
    destruct Ho as [-> | ->]; set_solver.
  - intros pre e post c H. rewrite Ep in H. apply (ci_super _ Hc pre e post c). simpl. by rewrite Epo.
Qed.

Lemma checkpoint_committed tr cur pre e post c id :
  write_checkpoint cur = pre ++ e :: post -> store_val e (Super, 0) = Some c ->
  (forall id, ckpt0 <= id < cur -> processed tr id) -> 0 <= cur ->
  ckpt0 <= id < c -> committed tr pre id.
Proof.
  intros H Hw Hp Hcur Hid. unfold write_checkpoint, barrier_dax in H. simpl app in H.
  destruct pre as [|x pre]; simpl in H; injection H as <- H; [done|].
  change (Sfence Committer :: pre) with ([Sfence Committer] ++ pre).
  apply committed_app_r, processed_committed, Hp.
  assert (e ∈ pmem_memcpy Committer Super 0 [u32 cur] PMEM_PERSIST) as He
    by (rewrite H; set_solver).
  rewrite (pmem_memcpy_store _ _ _ _ _ _ _ _ He Hw) in Hw.
  apply store_val_inv in Hw as (_ & _ & Hw). simpl in Hw. injection Hw as <-.
  unfold u32 in Hid. pose proof (Z.mod_le cur (2 ^ 32) Hcur ltac:(lia)). lia.
Qed.

Lemma commit_inv_process tr th q ts cp cq ck n cur cq' (b : bool) :
  process_commit_queue ck cq false = (cur, cq', b) ->
  commit_inv (MkSys tr th q ts (ProcessQueue :: cp) cq ck n) ->
  commit_inv (MkSys tr th q ts ((Pm <$> (if b then write_checkpoint cur else [])) ++ cp) cq' cur n).
Proof.
  intros Hpr Hc. destruct (process_commit_queue_spec (processed tr) ckpt0 _ _ _ _ _ _ Hpr) as (Hpos & Hck & Hq);
    [apply (ci_pos _ Hc) | apply (ci_ckpt _ Hc) | apply (ci_heap _ Hc) |].
  set (wc := if b then write_checkpoint cur else []).
  assert (forall i l, issued (MkSys tr th q ts (ProcessQueue :: cp) cq ck n) i l ->
    issued (MkSys tr th q ts ((Pm <$> wc) ++ cp) cq' cur n) i l) as Hiss.
  { intros i l [H|H]; [by left|]. right. unfold commit_stream in *. simpl in *.
    rewrite pm_events_app. by apply sublist_insert. }
  constructor; simpl; [| | | | done | done | | apply (ci_history _ Hc)].
  - intros a rest Ha Hr i l Hil. destruct (ci_push _ Hc a rest Ha Hr i l Hil); auto.
  - intros id pq H. destruct (ci_task _ Hc id pq H) as (a & ? & ? & ? & ? & Hi). exists a. split_and!; auto.
  - intros pre id post H.
    apply app_split_r in H as (k & -> & ->); [|rewrite list_elem_of_fmap; by intros (? & ? & _)].
    destruct (ci_cpush _ Hc (ProcessQueue :: k) id post eq_refl) as (a & ? & ? & ? & Hp & Hi).
    exists a. unfold commit_stream in *. rewrite pm_events_app. split_and!; try done; [by apply sublist_insert|].
    intros i l Hil. destruct (Hi i l Hil) as [[? ?]|?]; [left; set_solver | right; by apply sublist_insert].
  - intros id Hid. by apply (ci_heap _ Hc), Hq.
  - intros pre e post c H Hw id Hid. rewrite pm_events_app, pm_events_Pm in H.
    apply app_eq_inv in H as [(k & Hk & Hk')|(k & -> & Hk)].
    + destruct k as [|y k]; simpl in Hk'; [|injection Hk' as <- ->].
      * rewrite app_nil_r in Hk. subst pre. rewrite <- (app_nil_r wc).
        apply committed_insert. by eapply (ci_super _ Hc []).
      * destruct b; subst wc; [by eapply checkpoint_committed | by destruct pre].
    + apply committed_insert. by eapply (ci_super _ Hc).
Qed.

Lemma commit_inv_step s s' : sys_inv s -> commit_inv s -> step s s' -> commit_inv s'.
Proof.
  intros Hs Hc Hstep. destruct Hstep;
    eauto using commit_inv_pm, commit_inv_push_loc, commit_inv_push_task, commit_inv_task,
      commit_inv_commit_pm, commit_inv_drain, commit_inv_commit_push, commit_inv_process.
  - apply (commit_inv_control tr th q ts _ [] [] cp cq ck n n); [set_solver | set_solver | by left | done].
  - apply (commit_inv_control tr th q (None :: ts) ts [] [ProcessQueue; Halt] [] cq ck n n);
      [set_solver | set_solver | by left | done].
  - apply (commit_inv_control tr th q ts ts [IntervalTest] _ cp cq ck n (n + 1)); [done | | by right | done].
    case_match; set_solver.
  - by apply (commit_inv_control tr th q ts ts [] [] cp cq ck n 0); [| set_solver | left |].
Qed.

Lemma commit_inv_init : commit_inv (init_sys g enable_tags range prune ins ckpt0).
Proof.
  constructor; simpl; try set_solver; try lia.
  - intros a rest Ha Hr i l Hil. left.
    apply elem_of_list_to_map_2, list_elem_of_fmap in Hr as (a' & [= E ->] & Ha').
    apply (NoDup_fmap_eq _ _ _ _ (rw_ids _ _ _ _ _ Hrun) Ha Ha') in E as <-.
    unfold insert_phase_pm. rewrite !elem_of_app. right. left.
    apply list_elem_of_fmap. by exists (i, l).
  - intros pre id post H. by apply app_cons_not_nil in H.
  - intros pre e post c H. by apply app_cons_not_nil in H.
  - apply history_nil.
Qed.

Lemma commit_inv_reachable s :
  reachable g enable_tags range prune ins ckpt0 s -> sys_inv s /\ commit_inv s.
Proof.
  intros H. unfold reachable in H.
  assert (sys_inv (init_sys g enable_tags range prune ins ckpt0)) as Hi by (by eapply sys_inv_init).
  pose proof commit_inv_init as Hc.
  induction H as [|s1 s2 s3 Hstep _ IH]; [done|].
  apply IH; [by eapply sys_inv_step | by eapply commit_inv_step].
Qed.

(** What the media hold for a committed insertion. *)
Definition pq_durable (img : pm_mem) (a : insert_args) : Prop :=
  forall i b, in_pq_coords a !! i = Some b ->
    img (Pq, target_id a * Z.of_nat (length (in_pq_coords a)) + Z.of_nat i) = b.

Lemma committed_pq_durable a tr1 tr2 img :
  a ∈ ins -> Forall (event_ok g range prune ins) (tr1 ++ tr2) -> crash_image m0 (tr1 ++ tr2) img ->
  pq_memcpy a `sublist_of` by_thread Committer tr1 -> pq_durable img a.
Proof.
  intros Ha Hok Himg Hsub i b Hb. apply sublist_cons_l in Hsub as (l1 & l2 & Hl & Hsub).
  set (st := Store Committer Pq _ _) in Hl.
  assert (by_thread Committer tr1 = (l1 ++ [st]) ++ l2) as Hby by (by rewrite Hl, <- app_assoc).
  eapply (stored_flushed_durable g Hg range prune ins m0 Hrun Committer tr1 tr2 _ _ _ _ _ Hby); [done | done | | |].
  - apply Exists_app. right. constructor. by apply store_val_at.
  - eapply sublist_flushed; [|exact Hsub]. apply (flushed_clwb Committer _ _ [] []), pmem_flush_covers.
    apply lookup_lt_Some in Hb. lia.
  - exists a. simpl. split_and!; [done | lia |]. rewrite <- Hb. f_equal. lia.
Qed.

Lemma committed_loc_stored i l tr1 tr2 img :
  crash_image m0 (tr1 ++ tr2) img ->
  (loc_memcpy i l ++ [Sfence Committer]) `sublist_of` by_thread Committer tr1 ->
  exists p e q, tr1 ++ tr2 = p ++ e :: q /\ store_val e (Id2loc, i) = Some (img (Id2loc, i)).
Proof.
  intros Himg Hsub. apply sublist_cons_l in Hsub as (l1 & l2 & Hl & Hsub).
  set (st := Store Committer Id2loc i [l]) in Hl.
  assert (by_thread Committer tr1 = (l1 ++ [st]) ++ l2) as Hby by (by rewrite Hl, <- app_assoc).
  apply (stored_flushed_last m0 Committer tr1 tr2 _ _ _ img Hby); [done | |].
  - apply Exists_app. right. constructor. exists l.
    pose proof (store_val_at Committer Id2loc i [l] 0 _ eq_refl) as Hw. by rewrite Z.add_0_r in Hw.
  - eapply sublist_flushed; [|exact Hsub]. apply (flushed_clwb Committer _ _ [] []).
    pose proof (pmem_flush_covers Committer Id2loc i 1 0 ltac:(lia)) as Hc. by rewrite Z.add_0_r in Hc.
Qed.

(** The media state that the checkpoint promises for insertion [a]. *)
Definition on_media (img : pm_mem) (a : insert_args) : Prop :=
  Forall (node_durable g img) (versions range prune a) /\ tag_durable enable_tags img a /\
  pq_durable img a /\ img (Id2loc, target_id a) <> m0 (Id2loc, target_id a) /\
  forall i l, (i, l) ∈ nbr_locs a -> img (Id2loc, i) <> m0 (Id2loc, i).

Lemma committed_on_media s tr1 tr2 img id :
  sys_inv s -> trace s = tr1 ++ tr2 -> crash_image m0 (trace s) img -> committed tr1 [] id ->
  exists a, a ∈ ins /\ target_id a = id /\ on_media img a.
Proof.
  intros Hs Heq Himg (a & Ha & -> & Hf & Hp & Hl). rewrite app_nil_r in Hp, Hl. exists a.
  assert (Forall (event_ok g range prune ins) (trace s)) as Hok by (by eapply trace_event_ok).
  edestruct fenced_durable as (Hn & Ht & Hloc); [done | done | exact Hs | exact Heq | done | done | done |].
  split_and!; [done | done |]. split_and!; [done | done | | done |].
  - rewrite Heq in Himg, Hok. by eapply committed_pq_durable.
  - intros i l Hil. rewrite Heq in Himg.
    destruct (committed_loc_stored i l _ _ _ Himg (Hl i l Hil)) as (p & e & q & Hpq & He).
    rewrite <- Heq in Hpq. destruct (si_history _ _ _ _ _ _ Hs _ _ _ Hpq) as [_ Hls].
    by eapply loc_store_fresh.
Qed.
End checkpoint.

(** C2. The checkpoint is sound for runs that write no slot twice ([run_wf]:
    different identifiers, a slot of its own for every version; a run in which
    a slot that was freed before the commit is taken again is not covered, see
    [freed_slot_overwritten_before_commit]).  If the super block read after a
    crash of such a run holds a checkpoint that the run wrote, then every identifier from the initial
    checkpoint up to it belongs to an insertion of the run all of whose parts
    are on the media: the new versions of the vector and of its neighbours (all
    written-back bytes), the tag, the compressed vector, the location of the
    vector and the location entries of its neighbours. *)
Theorem checkpoint_sound g enable_tags range prune ins ckpt0 m0 s img id :
  geometry_wf g -> run_wf g range prune ins m0 -> 0 <= ckpt0 ->
  reachable g enable_tags range prune ins ckpt0 s -> crash_image m0 (trace s) img ->
  img (Super, 0) <> m0 (Super, 0) -> ckpt0 <= id < img (Super, 0) ->
  exists a, a ∈ ins /\ target_id a = id /\ on_media g enable_tags range prune m0 img a.
Proof.
  intros Hg Hrun H0 Hr Himg Hne Hid.
  assert (sys_inv g enable_tags range prune ins s /\ commit_inv g enable_tags range prune ins ckpt0 s)
    as [Hs Hc] by (by eapply commit_inv_reachable).
  destruct (crash_image_cut _ _ _ (Super, 0) Himg) as (p & q & Hpq & Hcut).
  destruct (coherent_last m0 p (Super, 0)) as [[E _]|(p1 & e & p2 & w & -> & Hw & E & _)]; [congruence|].
  rewrite <- app_assoc in Hpq.
  assert (committed g enable_tags range prune ins p1 [] id) as Hcom.
  { apply (ci_history _ _ _ _ _ _ _ Hc _ _ _ Hpq w Hw). rewrite Hcut, E in Hid. done. }
  by eapply committed_on_media.
Qed.

(** ** A complete run: one insertion, its commit, and the checkpoint written at
    termination *)
Lemma run_commit_pm : forall l tr th q ts cp cq ck n,
  rtc step (MkSys tr th q ts ((Pm <$> l) ++ cp) cq ck n) (MkSys (tr ++ l) th q ts cp cq ck n).
Proof.
  induction l as [|e l IH]; intros; [rewrite app_nil_r; apply rtc_refl|].
  eapply rtc_l; [apply step_commit_pm|].
  replace (tr ++ e :: l) with ((tr ++ [e]) ++ l) by (by rewrite <- app_assoc). apply IH.
Qed.

Definition demo_commit_events : list pm_event :=
  ((demo_events ++ pmem_memcpy Committer Pq 20 [9; 9] PMEM_PERSIST) ++ id2loc_batch [(3, 20)]) ++
  write_checkpoint 11.
Definition demo_committed : sys :=
  MkSys demo_commit_events (<[10 := []]> (threads (init_sys demo_geom true 32 no_prune [demo_insert] 10)))
    [] [] [Halt] [] 11 1.

Lemma demo_commit_reachable : reachable demo_geom true 32 no_prune [demo_insert] 10 demo_committed.
Proof.
  unfold reachable. etrans; [apply (run_insert demo_geom true 32 no_prune demo_insert); by vm_compute|].
  eapply rtc_l; [apply step_task|]. etrans; [apply run_commit_pm|].
  eapply rtc_l; [apply step_drain|]. etrans; [apply run_commit_pm|].
  eapply rtc_l; [apply step_commit_push|]. eapply rtc_l; [apply step_interval|].
  eapply rtc_l; [apply step_terminate|]. eapply rtc_l; [apply step_halt|].
  eapply rtc_l; [by apply step_process|]. etrans; [apply run_commit_pm|]. apply rtc_refl.
Qed.

Lemma checkpoint_witness : exists a, a ∈ [demo_insert] /\ target_id a = 10 /\
  on_media demo_geom true 32 no_prune (fun _ => 0) (coherent (fun _ => 0) demo_commit_events) a.
Proof.
  apply (checkpoint_sound demo_geom true 32 no_prune [demo_insert] 10 (fun _ => 0) demo_committed
           (coherent (fun _ => 0) demo_commit_events) 10).
  - exact demo_geom_wf.
  - exact demo_run_wf.
  - lia.
  - exact demo_commit_reachable.
  - apply crash_image_all.
  - by vm_compute.
  - vm_compute. split; [discriminate | reflexivity].
Defined.
